(* ===== verification/_CoqProject ===== *)
-Q . S2P
Prelude.v
GoNum.v
GoText.v
Value.v
JsonText.v
GoQuote.v
JsonNum.v
ExecIR.v
ExecWire.v
ExecDigest.v
ExecEval.v
ExecInterp.v
ExecSteps.v
ExecCount.v
ExecRun.v
ExecTotal.v
ExecBounds.v
ExecReplay.v
SpecTools.v
SchemaLookup.v
SpecGraph.v
StepRefs.v
LowerYaml.v
Wiring.v
GraphRun.v
WorkflowRun.v
WiredRun.v
SpecPolicy.v
EffectsCompute.v
EffectsCheck.v
ShellTokens.v
Policy.v
EffectsRuntime.v
PolicyHitl.v
PolicyStricter.v
AuditChain.v
LangLexer.v
LangText.v
LangBlock.v
LangParser.v
LangPrint.v
LangExprText.v
LangReads.v
LangStmt.v
LangStmtReads.v
LangWorkflow.v
LangAgent.v
LangAgentText.v
LangTotal.v
LangFuel.v
LangUnstable.v
LangExec.v
LangSemantics.v
LangSim.v
RuneText.v
TraceRedact.v
TraceRecorder.v
SpecLimits.v
EngineLimits.v
McpDispatch.v
StateStore.v
PlanDiff.v
Planner.v
Apply.v
SqliteTime.v
StateRuns.v
StoreSafety.v
DeploySnapshot.v
EngineState.v
EngineCheckpoint.v
EngineTool.v
EngineAgent.v
EngineHitl.v
EngineInvoker.v
EngineRun.v
EngineDemo.v
EngineSafety.v
EngineOutcome.v
