(* ===== verification/Prelude.v ===== *)
(** * Terfyn: a verification development (root file)

    Terfyn runs declarative agent workflows under a policy.  A project (agents,
    tools, workflows, policies) is loaded into a graph ([internal/spec]); static
    analyses bound what each root can reach ([internal/effects]) and check it
    against the policies; policies are compiled to per-tool decisions
    ([internal/policy]); a workflow is lowered to a small program
    ([internal/execir]) that an interpreter runs against an Invoker, with a memo of
    completed leaves so that a run can be suspended for a human decision and
    resumed.  This library models that core and proves what it promises.

    ** Files and the code they model (paths under [src/internal/])

    - [Prelude]: the error type, list, string and sorting lemmas, tactics.
    - [GoNum], [GoText]: int64, float64 (binary64) and Go text routines
      ([strings.TrimSpace], JSON quoting, shortest float spelling).
    - [Value] ([execir/eval.go]): runtime values, equality, truthiness, rendering.
    - [JsonNum] ([jsonnum/jsonnum.go]): canonical values.
    - [ExecIR] ([execir/execir.go]): programs, call keys, the interpreter test of
      [execir/analyze.go].
    - [ExecEval] ([execir/eval.go]): operands and conditions.
    - [ExecInterp] ([execir/interp.go]): the interpreter.  [exec] translates a node
      to a process ([proc]); [step] is one atomic action of one goroutine (an
      invocation, a control record, a launch, a join); [run] follows a scheduler.
      Forks, parallel loops and graphs are sets of goroutines with the semaphore of
      the source, so a theorem for every [pick] covers every interleaving.
    - [ExecSteps], [ExecCount], [ExecRun]: the step relation, invocation counts and
      the theorems about runs (termination, at most once, no reissue, suspension).
    - [ExecBounds] ([execir/analyze.go]): static invocation bounds, sound for runs.
    - [ExecReplay]: error soundness and replay from the returned state.
    - [SpecTools], [SpecPolicy], [ShellTokens] ([spec/effects.go], [safety.go],
      [agent_tools.go], [kinds.go], [policy_presets.go], [policy_expand.go],
      [constraints.go], [hitl.go], [shell_tokens.go]; [tools/registry.go],
      [tools/manifest.go]): tools, grants, manifests, policy presets, shell tokens.
    - [EffectsCompute], [EffectsCheck] ([effects/]): the walker, effect bounds,
      enforcement and capability assertions, refined against paths of the graph.
    - [Policy], [PolicyHitl] ([policy/]): both evaluators, the compiler, plan
      decisions, human decisions, edits and redaction.
    - [EffectsRuntime]: static assertions hold of the run-time evaluator.
    - [PolicyStricter] ([policy/stricter.go]): the stricter of two evaluators and the
      merged policy document.
    - [JsonText], [AuditChain] ([audit/], [state/models.go], the append of
      [state/sqlite/runtime.go]): JSON strings and the hash chain of trace events.
    - [SpecGraph], [StepRefs] ([spec/workflow_graph.go], [spec/refs.go],
      [spec/resolve.go], [spec/approval.go]): the step graph, its validation and the
      checks of steps and references.
    - [LowerYaml] ([lang/lower/workflow_resource.go], [return_shape.go]): the lowering
      of YAML workflows and the shape of their output.
    - [GraphRun]: the invariant of [execGraph] on acyclic graphs of leaves.
    - [WorkflowRun]: checks, lowering and interpreter composed.
    - [SchemaLookup], [Wiring] ([schema/document.go], [spec/wiring.go],
      [agentInputDocument] of [engine/steps.go]): static types of schema paths and
      the type check of step arguments.
    - [WiredRun]: the wiring check composed with [WorkflowRun].
    - [GoQuote], [ExecWire], [ExecDigest] ([execir/serialize.go], [execir/digest.go]):
      quoted strings, the wire payload of programs and its codecs, the digest.
    - [LangLexer], [LangParser], [LangPrint], [LangAgent] ([lang/token.go], [lexer.go],
      [ast.go], [parser.go], [printer.go]): tokens, trees, parser and printer of
      workflow and agent declarations.
    - [LangText], [LangBlock]: the lexer on the spelling of each token.
    - [LangExprText], [LangReads], [LangStmt], [LangStmtReads], [LangWorkflow],
      [LangAgentText]: printed text, tokens and trees, up to the round trips.
    - [LangTotal], [LangFuel]: the parser returns on every input, whatever the fuel.
    - [LangUnstable]: sources that formatting changes.
    - [LangExec] ([lang/lower/exec.go]): the lowering of workflow bodies to programs.
    - [LangSemantics], [LangSim]: the meaning of a workflow, and its preservation.
    - [RuneText], [TraceRedact], [TraceRecorder] ([trace/redaction.go], [recorder.go],
      [taxonomy.go], [legacy.go], [emit_data.go]): what is stored of an event.
    - [SpecLimits], [EngineLimits] ([spec/limits.go], [engine/limits.go],
      [limits_truncate.go]): byte limits and the truncation of live values.
    - [McpDispatch] ([runtime/mcpserver/dispatch.go]): tool calls of external agents.
    - [StateStore], [StateRuns], [SqliteTime], [StoreSafety] ([state/],
      [state/sqlite/]): the tables of the store and their operations, stored
      timestamps, and what holds in every store operations build.
    - [PlanDiff], [Planner], [Apply] ([plan/diff.go], [planner.go], [fingerprint.go],
      [digest.go], [workflow_hash.go], [runtime_target.go]; [apply/]): plans, their
      differences and their application, against the interface [DeploymentStore].
    - [DeploySnapshot] ([deploy/], [statejson/marshal.go], [cli/apply.go]): snapshots.
    - [ExecTotal]: the interpreter as a total function, by the termination proof.
    - [EngineState], [EngineTool], [EngineAgent], [EngineHitl] ([engine/steps.go],
      [agent_tools.go], [retries.go], [timeout.go], [cost.go], [schema_validate.go],
      [hitl.go], [approval.go]): the world of a run (store, clock, cost, log of
      actions), tool steps, agent steps and human decisions.
    - [EngineInvoker], [EngineCheckpoint], [EngineRun] ([engine/execir_invoker.go],
      [checkpoint.go], [execution.go], [subworkflow.go]): the Invoker of a run with its
      subworkflows, checkpoints, and [Run] with its ends.  A level of subworkflows is a
      run of the interpreter whose Invoker contains the level below.
    - [EngineSafety], [EngineOutcome]: what runs of the engine promise.
    - [EngineDemo]: a concrete executor the witnesses run.

    ** Theorem groups

    Interpreter: every run ends under every scheduler; a call site is invoked at
    most once, never when memoized; replay of a returned state makes no call when every
    call had returned a value; no error but a cancellation is swallowed; published bounds hold.  Values: exact comparison and
    equality, canonical fixed points.  Effects: computed bounds are exactly the
    effects of reachable operations; checks and assertions are exact or sound for
    them.  Policy: compilation preserves verdicts, approval is fail-closed, the
    manifest is a hard boundary, human decisions do not widen authority.
    Workflows: a workflow in graph mode that passes the checks (and has named steps
    and references spelled as the checks read them) never gets stuck, calls a step
    after its ancestors with the results they gave, and is confluent.  Audit: a
    verified chain pins its events, up to a collision of the hash.  Schemas: the type of a path is sound for the instances,
    and what a checked step hands its agent has the checked types.
    Programs: a written payload decodes to the programs it was written from, and the
    digest of plain programs identifies their shape.
    Language: printed declarations lex and parse back to themselves, and the parser
    returns on every list of tokens.
    A lowered workflow makes the calls of its source and has its outcome.
    Traces: stored rows do not depend on values under sensitive keys, and every store
    the recorder makes verifies.  Limits: what a tool receives fits its limit and is
    its arguments or a truncation of them, whatever the order of map traversals.
    Store: reachable stores are sound, one resume wins, retention and pruning are
    exact.  Deployment: applying a fresh plan converges, a stale one is refused, and
    a pinned snapshot hydrates to what was built whatever is written later.
    Engine: a tool is reached, from steps, subworkflows and agents alike, only with a
    call the policy of the root allows; a run ends as its rows say and leaves no step
    running but one a failing sibling cancelled; a suspended run whose checkpoint passes
    the load guards resumes in the state it stopped in, at every level; agent steps make
    a bounded number of requests and call advertised tools only.

    ** Fuel and bounds

    The interpreter takes fuel only to run a schedule; [RunResumable_terminates]
    gives enough of it for every run.  The effect walker has fuel one more than the
    number of workflows, which its completeness lemma proves sufficient.  The other
    recursions are structural.  Integers of width 64 are [Z] with the saturation or
    the wrap-around of the source written out.
    The cycle search has the number of steps as recursion bound and the ancestor loop
    the number of needs; [find_cycle_spec] and [StepAncestorIDs_spec] prove both
    sufficient.  The token scan of a string has its length, which bounds the number
    of tokens.  A schema is looked up to the depth of the source, 32,
    and has no type below it.
    The parser of the agent language takes fuel for its loops and recursive calls;
    [LangTotal] proves that four more than the number of tokens is enough, the lexer
    has the length of the source.
    Truncation makes the 256 passes of the source, each map traversal in an order
    that is an argument.
    [RunToEnd] needs no fuel: the termination theorem finds enough of it.  Subworkflow
    levels are built to the depth the nesting limit allows, so the limit is what stops
    a deeper call; the turns of an agent are its iterations.

    ** Not modelled

    Parameters: the Invoker (of the interpreter alone), models, tools and their safety
    probes, the clock, SHA-256, the table of printable runes, regular expressions, the
    validity of a JSON Schema (with the laws of [draft2020]), the JSON codec of
    checkpoints, the encodings of graphs and manifests.  A call of a leaf or
    of a subworkflow is one step of the run that makes it, taken where the call ends: the
    calls of concurrent branches are ordered by their ends, a call sees whether a sibling
    has cancelled its context by then, and the parameter [e_CtxErr] says from which point
    of the call on (writes to the store and the trace fail from there); the levels below
    interleave on their own.  The context of a run never ends, as in the command line.

    Left out: YAML decoding and document validation beyond the step graph, project
    loading, native tools and model clients, the command line, inspection, telemetry
    and the readers of traces (I/O, or rendering of what is modelled); the opening and
    migrations of the store; the risk and authority sections of plan reports and the
    advisory policy lints (reports that no operation reads).  Of the agent language
    the resource declarations, the comments in printed text, the checker and the
    lowering of resources: the workflow and agent part is modelled from text to runs,
    the resources enter the development as the documents they lower to.  Diagnostic
    texts and source positions are dropped throughout. *)

From Stdlib Require Export ZArith Lia Ascii.
From Stdlib Require Import Wellfounded.
From stdpp Require Export base tactics option list strings gmap sorting pretty.

#[export] Set Default Goal Selector "!".

(** ** Fallible Go code: a value or an error

    Go's [(T, error)] results whose value is meaningless when the error is
    non-nil are the sum type [res E A]. *)

Inductive res (E A : Type) : Type :=
  | Ok (a : A)
  | Err (e : E).
Arguments Ok {E A} a.
Arguments Err {E A} e.

#[export] Instance res_ret E : MRet (res E) := λ A a, Ok a.
#[export] Instance res_bind E : MBind (res E) := λ A B f m,
  match m with Ok a => f a | Err e => Err e end.
#[export] Instance res_fmap E : FMap (res E) := λ A B f m,
  match m with Ok a => Ok (f a) | Err e => Err e end.

#[export] Instance res_eq_dec E A `{EqDecision E, EqDecision A} :
  EqDecision (res E A).
Proof. solve_decision. Defined.

Definition is_ok {E A} (r : res E A) : bool :=
  match r with Ok _ => true | Err _ => false end.

Definition res_to_option {E A} (r : res E A) : option A :=
  match r with Ok a => Some a | Err _ => None end.

(** A left-to-right traversal that stops at the first error: the Go loop
    [for _, x := range xs { v, err := f(x); if err != nil { return err } ... }]. *)
Definition res_traverse {E A B} (f : A → res E B) : list A → res E (list B) :=
  fix go l :=
  match l with
  | [] => Ok []
  | x :: l => y ← f x; ys ← go l; mret (y :: ys)
  end.

Lemma bind_Ok {E A B} (m : res E A) (f : A → res E B) b :
  (m ≫= f) = Ok b ↔ ∃ a, m = Ok a ∧ f a = Ok b.
Proof.
  split; [destruct m as [a|e]; simpl; [by eauto|done]|].
  by intros (a & -> & ?).
Qed.

Lemma bind_Err {E A B} (m : res E A) (f : A → res E B) e :
  (m ≫= f) = Err e ↔ m = Err e ∨ ∃ a, m = Ok a ∧ f a = Err e.
Proof.
  split.
  - destruct m; simpl; [by eauto|]. intros [= ->]. by left.
  - by intros [->|(a & -> & ?)].
Qed.

Lemma res_traverse_Forall2 {E A B} (f : A → res E B) l ys :
  res_traverse f l = Ok ys ↔ Forall2 (λ x y, f x = Ok y) l ys.
Proof.
  revert ys. induction l as [|x l IH]; intros ys; simpl.
  - split; [by intros [= <-]|]. by inversion 1.
  - rewrite bind_Ok. setoid_rewrite bind_Ok. split.
    + intros (y & Hy & zs & Hzs & [= <-]). constructor; [done|by apply IH].
    + inversion 1; subst. eexists; split; [done|]. eexists; split; [by apply IH|done].
Qed.

Lemma res_traverse_ext {E A B} (f g : A → res E B) l :
  Forall (λ x, f x = g x) l → res_traverse f l = res_traverse g l.
Proof. induction 1 as [|x l Hx _ IH]; simpl; [done|]. by rewrite Hx, IH. Qed.

Lemma res_traverse_length {E A B} (f : A → res E B) l ys :
  res_traverse f l = Ok ys → length ys = length l.
Proof. rewrite res_traverse_Forall2. intros H. by apply Forall2_length in H. Qed.

(** The values of a map through a fallible function, keys kept. *)
Definition map_traverse {E A B} (f : A → res E B) (m : gmap string A) : res E (gmap string B) :=
  list_to_map <$> res_traverse (λ kv, y ← f kv.2; mret (kv.1, y)) (map_to_list m).

(** The first failing element gives the error. *)
Lemma res_traverse_Err {E A B} (f : A → res E B) l e :
  res_traverse f l = Err e → ∃ x, x ∈ l ∧ f x = Err e.
Proof.
  induction l as [|x l IH]; simpl; [done|].
  rewrite bind_Err. intros [H|(y & Hy & H)].
  - exists x. split; [left|done].
  - apply bind_Err in H as [H|(ys & Hys & [=])]. destruct (IH H) as (z & ? & ?).
    exists z. split; [by right|done].
Qed.

Lemma fmap_Ok {E A B} (f : A → B) (r : res E A) b : f <$> r = Ok b ↔ ∃ a, r = Ok a ∧ b = f a.
Proof. destruct r; simpl; naive_solver. Qed.
Lemma fmap_Err {E A B} (g : A → B) (r : res E A) e : g <$> r = Err e ↔ r = Err e.
Proof. destruct r; simpl; split; congruence. Qed.

Lemma map_traverse_lookup {E A B} (f : A → res E B) (m : gmap string A) m' k :
  map_traverse f m = Ok m' → option_Forall2 (λ a b, f a = Ok b) (m !! k) (m' !! k).
Proof.
  unfold map_traverse. intros (ys & Hys%res_traverse_Forall2 & ->)%fmap_Ok.
  assert (fst <$> ys = fst <$> map_to_list m) as Hk.
  { induction Hys as [|[k' x] y l ys Hy _ IH]; [done|]. apply bind_Ok in Hy as (v & _ & [= <-]).
    simpl. by f_equal. }
  assert (NoDup (fst <$> ys)) as Hnd by (rewrite Hk; apply NoDup_fst_map_to_list).
  destruct (m !! k) as [x|] eqn:Em.
  - apply elem_of_map_to_list, list_elem_of_lookup_1 in Em as [i Hi].
    destruct (Forall2_lookup_l _ _ _ _ _ Hys Hi) as (y & Hy & Hey).
    apply bind_Ok in Hey as (v & Hv & [= <-]).
    rewrite (elem_of_list_to_map_1 ys k v Hnd) by (by eapply list_elem_of_lookup_2). by constructor.
  - rewrite not_elem_of_list_to_map_1; [constructor|]. rewrite Hk.
    intros ([k' x] & -> & Hin%elem_of_map_to_list)%list_elem_of_fmap. simpl in *. congruence.
Qed.

Lemma map_traverse_Err {E A B} (f : A → res E B) (m : gmap string A) e :
  map_traverse f m = Err e → ∃ k x, m !! k = Some x ∧ f x = Err e.
Proof.
  unfold map_traverse. rewrite fmap_Err. intros ([k x] & Hin%elem_of_map_to_list & He)%res_traverse_Err.
  apply bind_Err in He as [He|(? & _ & [=])]. by exists k, x.
Qed.

Lemma map_traverse_Ok {E A B} (f : A → res E B) (m : gmap string A) m' :
  map_traverse f m = Ok m' ↔ ∀ k, option_Forall2 (λ a b, f a = Ok b) (m !! k) (m' !! k).
Proof.
  split; [intros H k; by apply map_traverse_lookup|]. intros Hm.
  destruct (map_traverse f m) as [m2|e] eqn:Em.
  - f_equal. apply map_eq. intros k. pose proof (map_traverse_lookup f m m2 k Em) as H2.
    specialize (Hm k). inversion Hm; inversion H2; congruence.
  - exfalso. apply map_traverse_Err in Em as (k & x & Hk & He). specialize (Hm k). rewrite Hk in Hm.
    inversion Hm; simplify_eq/=; congruence.
Qed.

(** ** Tactics *)

(** Inverts chains of [Ok]-valued binds in the hypotheses. *)
Ltac res_inv :=
  repeat match goal with
  | H : (_ ≫= _) = Ok _ |- _ =>
      let a := fresh "a" in let Ha := fresh "Ha" in
      apply bind_Ok in H; destruct H as (a & Ha & H)
  | H : Ok _ = Ok _ |- _ => injection H as H
  | H : mret _ = Ok _ |- _ => injection H as H
  | H : Err _ = Ok _ |- _ => discriminate H
  | H : Ok _ = Err _ |- _ => discriminate H
  end.

(** Splits every boolean conjunction, negation and comparison in sight. *)
Ltac bool_inv :=
  repeat match goal with
  | H : _ && _ = true |- _ => apply andb_true_iff in H; destruct H
  | H : _ || _ = false |- _ => apply orb_false_iff in H; destruct H
  | H : negb _ = true |- _ => apply negb_true_iff in H
  | H : negb _ = false |- _ => apply negb_false_iff in H
  | H : bool_decide _ = true |- _ => apply bool_decide_eq_true in H
  | H : bool_decide _ = false |- _ => apply bool_decide_eq_false in H
  | H : (_ =? _)%string = true |- _ => apply String.eqb_eq in H
  | H : (_ =? _)%string = false |- _ => apply String.eqb_neq in H
  | H : (_ <? _)%Z = true |- _ => apply Z.ltb_lt in H
  | H : (_ <? _)%Z = false |- _ => apply Z.ltb_ge in H
  | H : (_ <=? _)%Z = true |- _ => apply Z.leb_le in H
  | H : (_ <=? _)%Z = false |- _ => apply Z.leb_gt in H
  | H : (_ =? _)%Z = true |- _ => apply Z.eqb_eq in H
  | H : (_ =? _)%Z = false |- _ => apply Z.eqb_neq in H
  end.

(** ** Lists *)

Lemma bind_nil {A B} (f : A → list B) l : l ≫= f = [] ↔ ∀ x, x ∈ l → f x = [].
Proof.
  induction l as [|x l IH]; cbn; [split; [by intros _ ? ?%elem_of_nil|done]|].
  rewrite app_nil, IH. setoid_rewrite elem_of_cons. naive_solver.
Qed.

Lemma zip_seq_elem {A} (l : list A) n i x :
  (i, x) ∈ zip (seq n (length l)) l ↔ n <= i ∧ l !! (i - n) = Some x.
Proof.
  revert n. induction l as [|y l IH]; intros n; cbn [length seq zip zip_with].
  - rewrite elem_of_nil, lookup_nil. naive_solver.
  - rewrite elem_of_cons, IH. split.
    + intros [[= -> ->]|[Hn Hl]]; [rewrite Nat.sub_diag; auto|]. split; [lia|].
      by replace (i - n) with (S (i - S n)) by lia.
    + intros [Hn Hl]. destruct (decide (i = n)) as [->|].
      * rewrite Nat.sub_diag in Hl. simpl in Hl. left. congruence.
      * right. split; [lia|]. by replace (i - n) with (S (i - S n)) in Hl by lia.
Qed.

Definition existsb_list {A} (f : A → bool) (l : list A) : bool := existsb f l.

Lemma existsb_True {A} (f : A → bool) l :
  existsb f l = true ↔ ∃ x, x ∈ l ∧ f x = true.
Proof. rewrite existsb_exists. setoid_rewrite list_elem_of_In. done. Qed.

Lemma existsb_False {A} (f : A → bool) l :
  existsb f l = false ↔ ∀ x, x ∈ l → f x = false.
Proof.
  rewrite <-not_true_iff_false, existsb_True. split.
  - intros H x Hx. apply not_true_iff_false. eauto.
  - intros H (x & Hx & Hf). specialize (H x Hx). congruence.
Qed.

(** Membership in a list of strings after a trim, the loop
    [for _, a := range l { if strings.TrimSpace(a) == u { return true } }]. *)
Definition str_mem (x : string) (l : list string) : bool :=
  existsb (λ y, String.eqb y x) l.

Lemma str_mem_spec x l : str_mem x l = true ↔ x ∈ l.
Proof.
  unfold str_mem. rewrite existsb_True. split.
  - intros (y & Hy & He). apply String.eqb_eq in He. by subst.
  - intros H. exists x. by rewrite String.eqb_refl.
Qed.

Lemma str_mem_false x l : str_mem x l = false ↔ x ∉ l.
Proof. rewrite <-str_mem_spec. by rewrite not_true_iff_false. Qed.

(** [dedup_by f l] keeps the elements whose key [f] was not seen before: the
    Go idiom of a [seen] map filled while ranging over a slice. *)
Fixpoint dedup_go {A} (f : A → string) (seen : list string) (l : list A) : list A :=
  match l with
  | [] => []
  | x :: l =>
      if str_mem (f x) seen then dedup_go f seen l
      else x :: dedup_go f (f x :: seen) l
  end.
Definition dedup {A} (f : A → string) (l : list A) : list A := dedup_go f [] l.

Lemma elem_of_dedup_go {A} (f : A → string) seen l x :
  x ∈ dedup_go f seen l → x ∈ l ∧ f x ∉ seen.
Proof.
  revert seen. induction l as [|y l IH]; intros seen; simpl; [by rewrite elem_of_nil|].
  destruct (str_mem (f y) seen) eqn:E.
  - intros [??]%IH. split; [by right|done].
  - apply str_mem_false in E. rewrite elem_of_cons. intros [->|[? Hn]%IH].
    + split; [by left|done].
    + rewrite not_elem_of_cons in Hn. split; [by right|by destruct Hn].
Qed.

Lemma dedup_go_complete {A} (f : A → string) seen l x :
  x ∈ l → f x ∉ seen → ∃ y, y ∈ dedup_go f seen l ∧ f y = f x.
Proof.
  revert seen. induction l as [|z l IH]; intros seen; simpl; [by rewrite elem_of_nil|].
  rewrite elem_of_cons. intros Hx Hn.
  destruct (str_mem (f z) seen) eqn:E.
  - apply str_mem_spec in E. destruct Hx as [->|Hx]; [done|]. eauto.
  - destruct (decide (f z = f x)) as [Heq|Hne].
    + exists z. split; [by left|done].
    + destruct Hx as [->|Hx]; [done|].
      destruct (IH (f z :: seen) Hx) as (y & Hy & He).
      { rewrite not_elem_of_cons. split; [congruence|done]. }
      exists y. split; [by right|done].
Qed.

Lemma elem_of_dedup_id x (l : list string) : x ∈ dedup id l ↔ x ∈ l.
Proof.
  split; [intros [??]%elem_of_dedup_go; done|]. intros Hx.
  destruct (dedup_go_complete id [] l x Hx) as (y & Hy & He); [apply not_elem_of_nil|].
  simpl in He. by subst.
Qed.

Lemma NoDup_dedup_go {A} (f : A → string) seen l : NoDup (f <$> dedup_go f seen l).
Proof.
  revert seen. induction l as [|y l IH]; intros seen; simpl; [constructor|].
  destruct (str_mem (f y) seen) eqn:E; [done|]. simpl. constructor; [|done].
  rewrite list_elem_of_fmap. intros (z & Hz & [_ Hn]%elem_of_dedup_go).
  rewrite not_elem_of_cons in Hn. destruct Hn. congruence.
Qed.

(** ** Go strings

    A Go string is a sequence of bytes; Rocq's [string] is a sequence of 8-bit
    [ascii] characters, so the two agree, and [String.le] is Go's bytewise
    order on strings. *)

Lemma string_app_cons c (s t : string) : String c s +:+ t = String c (s +:+ t).
Proof. reflexivity. Qed.
Lemma string_app_nil_l (s : string) : "" +:+ s = s.
Proof. reflexivity. Qed.

Lemma string_app_assoc (s1 s2 s3 : string) :
  (s1 +:+ s2) +:+ s3 = s1 +:+ (s2 +:+ s3).
Proof.
  induction s1 as [|c s1 IH]; [done|]. by rewrite !string_app_cons, IH.
Qed.

Lemma string_app_nil_r (s : string) : s +:+ "" = s.
Proof. induction s as [|c s IH]; [done|]. by rewrite string_app_cons, IH. Qed.

Lemma string_app_length (s1 s2 : string) :
  String.length (s1 +:+ s2) = (String.length s1 + String.length s2)%nat.
Proof. induction s1 as [|c s1 IH]; [done|]. rewrite string_app_cons. simpl. by rewrite IH. Qed.

Create Rewrite HintDb strs.
#[export] Hint Rewrite string_app_cons string_app_nil_l string_app_nil_r
  string_app_assoc : strs.

(** [strings.HasPrefix]. *)
Definition has_prefix (s p : string) : bool := String.prefix p s.

Lemma has_prefix_spec s p : has_prefix s p = true ↔ ∃ r, s = p +:+ r.
Proof.
  unfold has_prefix. revert s. induction p as [|c p IH]; intros s.
  - split; [by exists s|]. by destruct s.
  - setoid_rewrite string_app_cons. destruct s as [|d s]; simpl.
    + split; [done|]. by intros (r & ?).
    + destruct (Ascii.ascii_dec c d) as [->|Hne].
      * rewrite IH. split.
        -- intros (r & ->). by exists r.
        -- intros (r & [= ->]). by exists r.
      * split; [done|]. intros (r & [=]). congruence.
Qed.

(** Slices of strings, [s[n:]]. *)
Lemma substring_all n s : String.length s ≤ n → String.substring 0 n s = s.
Proof.
  revert n. induction s as [|c s IH]; intros [|n]; simpl; try done; intros; [lia|].
  f_equal. apply IH. lia.
Qed.
Lemma substring_skip p m r : String.substring (String.length p) m (p +:+ r) = String.substring 0 m r.
Proof. induction p as [|c p IH]; [done|]. rewrite string_app_cons. simpl. apply IH. Qed.

(** [strings.IndexByte] followed by the two slices around the match. *)
Fixpoint cut_byte (c : ascii) (s : string) : option (string * string) :=
  match s with
  | "" => None
  | String d s =>
      if decide (d = c) then Some ("", s)
      else match cut_byte c s with
           | Some (a, b) => Some (String d a, b)
           | None => None
           end
  end.

(** [strings.Split] at a one-byte separator. *)
Fixpoint split_byte (c : ascii) (s : string) : list string :=
  match s with
  | "" => [""]
  | String d s =>
      if decide (d = c) then "" :: split_byte c s
      else match split_byte c s with
           | x :: xs => String d x :: xs
           | [] => [String d ""]
           end
  end.

Fixpoint str_contains_byte (c : ascii) (s : string) : bool :=
  match s with
  | "" => false
  | String d s => bool_decide (d = c) || str_contains_byte c s
  end.

Lemma cut_byte_Some c s a b :
  cut_byte c s = Some (a, b) ↔
  s = a +:+ String c b ∧ str_contains_byte c a = false.
Proof.
  revert a b. induction s as [|d s IH]; intros a b; simpl.
  - split; [done|]. by destruct a; intros [? ?].
  - destruct (decide (d = c)) as [->|Hne].
    + split; [by intros [= <- <-]|]. destruct a as [|a0 a]; rewrite ?string_app_cons; simpl.
      * by intros [[= ->] _].
      * intros [[= <- ->] Hc]. by rewrite bool_decide_true in Hc by done.
    + destruct (cut_byte c s) as [[a' b']|] eqn:E.
      * destruct (proj1 (IH a' b') eq_refl) as [-> Hc]. split.
        -- intros [= <- <-]. simpl. by rewrite bool_decide_false by done.
        -- destruct a as [|a0 a]; rewrite ?string_app_cons; simpl; [by intros [[=] ?]|].
           intros [[= <- Heq] Hn]. rewrite bool_decide_false in Hn by done. simpl in Hn.
           assert (Some (a', b') = Some (a, b)) as [= -> ->] by (by apply IH). done.
      * split; [done|]. destruct a as [|a0 a]; rewrite ?string_app_cons; simpl; [by intros [[=] ?]|].
        intros [[= <- Heq] Hn]. rewrite bool_decide_false in Hn by done. simpl in Hn.
        assert (None = Some (a, b)) by (by apply IH). done.
Qed.

(** *** [strings.TrimSpace]

    The UTF-8 encodings of the runes [unicode.IsSpace] accepts.  A leading (or
    trailing) rune is white space exactly when one of these byte sequences is
    a prefix (suffix) of the string, because [utf8.DecodeRune] and
    [utf8.DecodeLastRune] decode such a sequence to that rune. *)
Abbreviation chars := (list ascii).
Definition bytes (l : list N) : chars := ascii_of_N <$> l.

Definition space_seqs : list chars :=
  (λ b, bytes [b]) <$> [9; 10; 11; 12; 13; 32]%N ++ [].

Definition wide_space_seqs : list chars :=
  [bytes [194; 133]; bytes [194; 160]; bytes [225; 154; 128];
   bytes [226; 128; 128]; bytes [226; 128; 129]; bytes [226; 128; 130];
   bytes [226; 128; 131]; bytes [226; 128; 132]; bytes [226; 128; 133];
   bytes [226; 128; 134]; bytes [226; 128; 135]; bytes [226; 128; 136];
   bytes [226; 128; 137]; bytes [226; 128; 138]; bytes [226; 128; 168];
   bytes [226; 128; 169]; bytes [226; 128; 175]; bytes [226; 129; 159];
   bytes [227; 128; 128]]%N.

Definition all_space_seqs : list chars := space_seqs ++ wide_space_seqs.

Fixpoint strip (p l : chars) : option chars :=
  match p, l with
  | [], _ => Some l
  | c :: p, d :: l => if decide (c = d) then strip p l else None
  | _ :: _, [] => None
  end.

Fixpoint strip_any (ps : list chars) (l : chars) : option chars :=
  match ps with
  | [] => None
  | p :: ps => match strip p l with Some l' => Some l' | None => strip_any ps l end
  end.

Fixpoint trim_go (fuel : nat) (ps : list chars) (l : chars) : chars :=
  match fuel with
  | O => l
  | S fuel => match strip_any ps l with Some l' => trim_go fuel ps l' | None => l end
  end.

Definition trim_left (l : chars) : chars := trim_go (length l) all_space_seqs l.
Definition trim_right (l : chars) : chars :=
  reverse (trim_go (length l) (reverse <$> all_space_seqs) (reverse l)).

Definition trim_space (s : string) : string :=
  String.string_of_list_ascii
    (trim_right (trim_left (String.list_ascii_of_string s))).

Lemma strip_Some p l l' : strip p l = Some l' ↔ l = p ++ l'.
Proof.
  revert l. induction p as [|c p IH]; intros l; simpl; [naive_solver|].
  destruct l as [|d l]; [naive_solver|]. case_decide; [rewrite IH|]; naive_solver.
Qed.

Lemma strip_any_Some ps l l' :
  strip_any ps l = Some l' → ∃ p, p ∈ ps ∧ l = p ++ l'.
Proof.
  induction ps as [|p ps IH]; simpl; [done|].
  destruct (strip p l) as [l''|] eqn:E.
  - intros [= ->]. apply strip_Some in E. exists p. split; [by left|done].
  - intros (q & ? & ?)%IH. exists q. split; [by right|done].
Qed.

Lemma strip_any_None ps l : strip_any ps l = None ↔ ∀ p l', p ∈ ps → l ≠ p ++ l'.
Proof.
  induction ps as [|p ps IH]; simpl.
  - split; [|done]. intros _ p l' Hp. by apply elem_of_nil in Hp.
  - destruct (strip p l) as [l''|] eqn:E.
    + apply strip_Some in E. split; [done|]. intros H. exfalso. eapply H; [by left|done].
    + rewrite IH. split.
      * intros H q l' [->|Hq]%elem_of_cons; [|by apply H].
        intros Heq. apply strip_Some in Heq. congruence.
      * intros H q l' Hq. apply H. by right.
Qed.

(** With fuel the length of the string, trimming by non-empty sequences is
    complete: nothing strippable is left. *)
Lemma trim_go_done fuel ps l :
  Forall (λ p, p ≠ []) ps → length l ≤ fuel → strip_any ps (trim_go fuel ps l) = None.
Proof.
  intros Hps. revert l. induction fuel as [|fuel IH]; intros l Hl; simpl.
  - destruct l; [|simpl in Hl; lia]. apply strip_any_None. intros p l' Hp.
    rewrite Forall_forall in Hps. apply Hps in Hp. by destruct p.
  - destruct (strip_any ps l) as [l'|] eqn:E; [|done]. apply IH.
    apply strip_any_Some in E as (p & Hp & ->). rewrite Forall_forall in Hps.
    apply Hps in Hp. rewrite length_app in Hl. destruct p; [done|]. simpl in Hl. lia.
Qed.

Lemma trim_go_id fuel ps l : strip_any ps l = None → trim_go fuel ps l = l.
Proof. intros E. destruct fuel; simpl; [done|]. by rewrite E. Qed.

Lemma trim_go_suffix fuel ps l : ∃ p, l = p ++ trim_go fuel ps l.
Proof.
  revert l. induction fuel as [|fuel IH]; intros l; simpl; [by exists []|].
  destruct (strip_any ps l) as [l'|] eqn:E; [|by exists []].
  apply strip_any_Some in E as (p & _ & ->). destruct (IH l') as [q Hq].
  exists (p ++ q). by rewrite <-app_assoc, <-Hq.
Qed.

Lemma all_space_seqs_ne : Forall (λ p, p ≠ []) all_space_seqs.
Proof. by repeat constructor. Qed.

Lemma trim_right_prefix l : ∃ q, l = trim_right l ++ q.
Proof.
  unfold trim_right.
  destruct (trim_go_suffix (length l) (reverse <$> all_space_seqs) (reverse l)) as [p Hp].
  exists (reverse p). rewrite <-reverse_app, <-Hp. by rewrite reverse_involutive.
Qed.

Lemma trim_right_idemp l : trim_right (trim_right l) = trim_right l.
Proof.
  unfold trim_right at 1. rewrite (trim_go_id _ _ (reverse (trim_right l))).
  { by rewrite reverse_involutive. }
  unfold trim_right. rewrite reverse_involutive. apply trim_go_done.
  - apply Forall_fmap. eapply Forall_impl; [apply all_space_seqs_ne|].
    intros p Hp Heq. apply Hp. simpl in Heq. rewrite <-(reverse_involutive p). by rewrite Heq.
  - by rewrite length_reverse.
Qed.

Lemma trim_left_trim_right l :
  strip_any all_space_seqs l = None → strip_any all_space_seqs (trim_right l) = None.
Proof.
  rewrite !strip_any_None. intros H p l' Hp Heq.
  destruct (trim_right_prefix l) as [q Hq]. eapply (H p (l' ++ q)); [done|].
  by rewrite app_assoc, <-Heq.
Qed.

Lemma trim_space_idemp s : trim_space (trim_space s) = trim_space s.
Proof.
  unfold trim_space. rewrite String.list_ascii_of_string_of_list_ascii. f_equal.
  set (l := String.list_ascii_of_string s).
  assert (strip_any all_space_seqs (trim_left l) = None) as H.
  { apply trim_go_done; [apply all_space_seqs_ne|done]. }
  unfold trim_left at 1. rewrite (trim_go_id _ _ (trim_right (trim_left l))).
  - apply trim_right_idemp.
  - by apply trim_left_trim_right.
Qed.

(** The trimmed string is a contiguous part of the original. *)
Lemma trim_space_nil : trim_space "" = "".
Proof. reflexivity. Qed.

(** *** Bytes outside a string, splitting and joining *)

Lemma str_contains_byte_app c s t :
  str_contains_byte c (s +:+ t) = str_contains_byte c s || str_contains_byte c t.
Proof.
  induction s as [|d s IH]; [done|]. rewrite string_app_cons. simpl.
  by rewrite IH, orb_assoc.
Qed.

(** The text after the last separator determines the split. *)
Lemma split_last_inj c (a1 a2 b1 b2 : string) :
  str_contains_byte c b1 = false → str_contains_byte c b2 = false →
  a1 +:+ String c b1 = a2 +:+ String c b2 → a1 = a2 ∧ b1 = b2.
Proof.
  intros H1 H2. revert a2. induction a1 as [|d1 a1 IH]; intros [|d2 a2];
    rewrite ?string_app_cons, ?string_app_nil_l.
  - by intros [= ->].
  - intros [= <- ->]. rewrite str_contains_byte_app in H1. simpl in H1.
    rewrite (bool_decide_true (c = c)), orb_true_r in H1; done.
  - intros [= -> Heq]. rewrite <-Heq, str_contains_byte_app in H2. simpl in H2.
    rewrite (bool_decide_true (c = c)), orb_true_r in H2; done.
  - intros [= -> Heq]. apply IH in Heq as [-> ->]. done.
Qed.

(** The text before the first separator determines the split. *)
Lemma split_first_inj c (a1 a2 b1 b2 : string) :
  str_contains_byte c a1 = false → str_contains_byte c a2 = false →
  a1 +:+ String c b1 = a2 +:+ String c b2 → a1 = a2 ∧ b1 = b2.
Proof.
  revert a2. induction a1 as [|d1 a1 IH]; intros [|d2 a2];
    rewrite ?string_app_cons, ?string_app_nil_l; simpl.
  - by intros _ _ [= ->].
  - intros _ H2 [= <- ->]. by rewrite bool_decide_true in H2.
  - intros H1 _ [= -> Heq]. by rewrite bool_decide_true in H1.
  - intros H1 H2 [= -> Heq]. bool_inv. destruct (IH a2) as [-> ->]; [done..|done].
Qed.

(** [strings.Join]. *)
Definition join (sep : string) (l : list string) : string := String.concat sep l.

Lemma join_cons sep x l :
  join sep (x :: l) = match l with [] => x | _ => x +:+ (sep +:+ join sep l) end.
Proof. by destruct l. Qed.

Lemma join_contains c sep l :
  str_contains_byte c sep = false → Forall (λ s, str_contains_byte c s = false) l →
  str_contains_byte c (join sep l) = false.
Proof.
  intros Hs. induction 1 as [|x l Hx Hl IH]; [done|].
  rewrite join_cons. destruct l; [done|].
  by rewrite !str_contains_byte_app, Hx, Hs, IH.
Qed.

(** Joining non-empty strings free of the one-byte separator is injective. *)
Lemma join_inj c l1 l2 :
  Forall (λ s, s ≠ "" ∧ str_contains_byte c s = false) l1 →
  Forall (λ s, s ≠ "" ∧ str_contains_byte c s = false) l2 →
  join (String c "") l1 = join (String c "") l2 → l1 = l2.
Proof.
  intros H1. revert l2. induction H1 as [|x l1 [Hx Hxc] Hl1 IH];
    intros l2 H2; destruct H2 as [|y l2 [Hy Hyc] Hl2]; [done|..].
  - rewrite join_cons. change (join _ []) with "". destruct l2; [congruence|].
    destruct y; [done|]. rewrite string_app_cons. done.
  - rewrite join_cons. change (join _ []) with "". destruct l1; [congruence|].
    destruct x; [done|]. rewrite string_app_cons. done.
  - rewrite !join_cons. destruct l1 as [|x1 l1], l2 as [|y1 l2].
    + by intros ->.
    + rewrite string_app_cons, string_app_nil_l. intros ->.
      rewrite str_contains_byte_app in Hxc. simpl in Hxc.
      by rewrite (bool_decide_true (c = c)), orb_true_r in Hxc.
    + rewrite string_app_cons, string_app_nil_l. intros <-.
      rewrite str_contains_byte_app in Hyc. simpl in Hyc.
      by rewrite (bool_decide_true (c = c)), orb_true_r in Hyc.
    + rewrite !string_app_cons, !string_app_nil_l.
      intros [-> Heq]%split_first_inj; [|done..]. f_equal. by apply IH.
Qed.

(** *** Decimal integers *)

Definition is_digit (c : ascii) : bool := (48 <=? N_of_ascii c)%N && (N_of_ascii c <=? 57)%N.

Fixpoint str_forall (p : ascii → bool) (s : string) : bool :=
  match s with "" => true | String c s => p c && str_forall p s end.

Lemma str_forall_contains p c s :
  p c = false → str_forall p s = true → str_contains_byte c s = false.
Proof.
  intros Hc. induction s as [|d s IH]; simpl; [done|]. intros ?; bool_inv.
  rewrite bool_decide_false by congruence. by apply IH.
Qed.

Lemma pretty_N_char_digit n : is_digit (pretty_N_char n) = true.
Proof. destruct n as [|p]; [done|]. by repeat (destruct p as [p|p|]; try done). Qed.

Lemma pretty_N_go_digits n s :
  str_forall is_digit s = true → str_forall is_digit (pretty_N_go n s) = true.
Proof.
  revert s. induction (N.lt_wf_0 n) as [n _ IH]; intros s Hs.
  destruct (decide (0 < n)%N) as [Hn|Hn].
  - rewrite pretty_N_go_step by done. apply IH; [by apply N.div_lt|].
    simpl. by rewrite pretty_N_char_digit.
  - assert (n = 0%N) as -> by lia. by rewrite pretty_N_go_0.
Qed.

Lemma pretty_nat_digits (n : nat) : str_forall is_digit (pretty n) = true.
Proof.
  unfold pretty, pretty_nat, pretty, pretty_N. case_decide; [done|].
  by apply pretty_N_go_digits.
Qed.

Lemma pretty_N_digits (n : N) : str_forall is_digit (pretty n) = true.
Proof. unfold pretty, pretty_N. case_decide; [done|]. by apply pretty_N_go_digits. Qed.

Lemma pretty_nat_ne (n : nat) : pretty n ≠ "".
Proof.
  unfold pretty, pretty_nat, pretty, pretty_N. case_decide; [done|].
  rewrite pretty_N_go_step by lia.
  cut (∀ m s, s ≠ "" → pretty_N_go m s ≠ ""); [intros Hgo; by apply Hgo|].
  intros m. induction (N.lt_wf_0 m) as [m _ IH]; intros s Hs.
  destruct (decide (0 < m)%N) as [Hm|Hm].
  - rewrite pretty_N_go_step by done. apply IH; [by apply N.div_lt|done].
  - assert (m = 0%N) as -> by lia. by rewrite pretty_N_go_0.
Qed.

(** [fmt.Sprintf("%v", xs)] for a slice of non-negative ints: ["[0 1 2]"]; a
    nil slice prints like an empty one. *)
Definition fmt_ints (l : list nat) : string :=
  String "[" (join " " (pretty <$> l) +:+ "]").

Lemma fmt_ints_no_byte c l :
  is_digit c = false → c ≠ " "%char → c ≠ "["%char → c ≠ "]"%char →
  str_contains_byte c (fmt_ints l) = false.
Proof.
  intros Hc H1 H2 H3. unfold fmt_ints. simpl. rewrite bool_decide_false by done. simpl.
  rewrite str_contains_byte_app, join_contains.
  - simpl. by rewrite bool_decide_false.
  - simpl. by rewrite bool_decide_false.
  - apply Forall_fmap, Forall_forall. intros n _. simpl.
    eapply str_forall_contains; [done|apply pretty_nat_digits].
Qed.

#[export] Instance fmt_ints_inj : Inj (=) (=) fmt_ints.
Proof.
  intros l1 l2 [= Heq].
  change "]" with ("" +:+ String "]" "") in Heq.
  assert (∀ l : list nat, Forall (λ s, s ≠ "" ∧ str_contains_byte " " s = false)
    (pretty <$> l)) as Hl.
  { intros l. apply Forall_fmap, Forall_forall. intros n _. simpl.
    split; [apply pretty_nat_ne|].
    eapply str_forall_contains; [|apply pretty_nat_digits]. done. }
  apply split_last_inj in Heq as [Heq _]; [|done..].
  apply join_inj in Heq; [|done..]. by apply (inj (fmap pretty)) in Heq.
Qed.

(** ** Sorting

    [sort.Strings] and [sort.Slice] with a key order.  Sorting is a function of
    the multiset of elements whenever distinct elements have distinct keys, so
    a Go map's random iteration order cannot reach a sorted result. *)

Definition sort_strings (l : list string) : list string := merge_sort String.le l.

Definition key_le {A} (f : A → string) (x y : A) : Prop := String.le (f x) (f y).
#[export] Instance key_le_dec {A} (f : A → string) : RelDecision (key_le f).
Proof. intros x y. unfold key_le. apply _. Defined.
#[export] Instance key_le_total {A} (f : A → string) : Total (key_le f).
Proof. intros x y. unfold key_le. apply String.le_total. Qed.
#[export] Instance key_le_trans {A} (f : A → string) : Transitive (key_le f).
Proof. intros x y z. unfold key_le. apply String.le_po. Qed.

Definition sort_by {A} (f : A → string) (l : list A) : list A := merge_sort (key_le f) l.

Lemma sort_by_Permutation {A} (f : A → string) l : sort_by f l ≡ₚ l.
Proof. apply merge_sort_Permutation. Qed.

Lemma sort_by_perm_eq {A} (f : A → string) l1 l2 :
  (∀ x y, x ∈ l1 → y ∈ l1 → f x = f y → x = y) →
  l1 ≡ₚ l2 → sort_by f l1 = sort_by f l2.
Proof.
  intros Hinj Hp. eapply (StronglySorted_unique_strong (key_le f)).
  - intros x y Hx Hy Hxy Hyx. apply Hinj.
    + by rewrite <-(sort_by_Permutation f l1).
    + rewrite (sort_by_Permutation f l2) in Hy. by rewrite Hp.
    + by apply (anti_symm String.le).
  - apply (StronglySorted_merge_sort (key_le f)).
  - apply (StronglySorted_merge_sort (key_le f)).
  - by rewrite !sort_by_Permutation.
Qed.

(** Sorting commutes with a map that keeps distinct keys. *)
Lemma sort_by_fmap {A B} (f : A → string) (h : B → string) (g : A → B) l :
  (∀ x, h (g x) = f x) → NoDup (f <$> l) → sort_by h (g <$> l) = g <$> sort_by f l.
Proof.
  intros Hg Hnd. eapply (StronglySorted_unique_strong (key_le h)).
  - intros x y Hx Hy Hxy Hyx. rewrite sort_by_Permutation in Hx.
    apply list_elem_of_fmap in Hx as (x' & -> & Hx'), Hy as (y' & -> & Hy').
    rewrite sort_by_Permutation in Hy'. unfold key_le in *. rewrite !Hg in *. f_equal.
    assert (f x' = f y') as E by (by apply (anti_symm String.le)).
    apply list_elem_of_lookup in Hx' as [i Hi], Hy' as [j Hj].
    assert (i = j) as ->; [|congruence].
    apply (NoDup_lookup (f <$> l) i j (f x') Hnd); rewrite list_lookup_fmap, ?Hi, ?Hj; simpl; congruence.
  - apply (StronglySorted_merge_sort (key_le h)).
  - assert (StronglySorted (key_le f) (sort_by f l)) as Hs by apply (StronglySorted_merge_sort (key_le f)).
    induction Hs as [|x l' _ IH Hx]; [constructor|]. rewrite fmap_cons. constructor; [apply IH|].
    apply Forall_fmap. eapply Forall_impl; [exact Hx|]. intros y. unfold key_le. simpl. by rewrite !Hg.
  - by rewrite !sort_by_Permutation.
Qed.

Lemma sort_strings_perm_eq l1 l2 : l1 ≡ₚ l2 → sort_strings l1 = sort_strings l2.
Proof.
  intros Hp. apply (StronglySorted_unique String.le).
  - apply (StronglySorted_merge_sort String.le).
  - apply (StronglySorted_merge_sort String.le).
  - unfold sort_strings. by rewrite !(merge_sort_Permutation String.le).
Qed.

Lemma sort_strings_Permutation l : sort_strings l ≡ₚ l.
Proof. apply merge_sort_Permutation. Qed.
Lemma elem_of_sort_strings x l : x ∈ sort_strings l ↔ x ∈ l.
Proof. unfold sort_strings. by rewrite (merge_sort_Permutation String.le). Qed.
Lemma elem_of_sort_by {A} (f : A → string) x l : x ∈ sort_by f l ↔ x ∈ l.
Proof. by rewrite sort_by_Permutation. Qed.

(** The keys of a Go map in sorted order ([sortedKeys]). *)
Definition sorted_keys {A} (m : gmap string A) : list string :=
  sort_strings (map_to_list m).*1.

Lemma elem_of_sorted_keys {A} (m : gmap string A) k :
  k ∈ sorted_keys m ↔ is_Some (m !! k).
Proof.
  unfold sorted_keys. rewrite elem_of_sort_strings, list_elem_of_fmap. split.
  - intros ([k' v] & -> & ?%elem_of_map_to_list). by exists v.
  - intros [v Hv]. exists (k, v). split; [done|]. by apply elem_of_map_to_list.
Qed.

Lemma sorted_keys_ext {A B} (m1 : gmap string A) (m2 : gmap string B) :
  (∀ k, is_Some (m1 !! k) ↔ is_Some (m2 !! k)) → sorted_keys m1 = sorted_keys m2.
Proof.
  intros H. apply sort_strings_perm_eq, NoDup_Permutation; [apply NoDup_fst_map_to_list..|].
  intros k. unfold sorted_keys in *. rewrite <-(elem_of_sort_strings k (map_to_list m1).*1), <-(elem_of_sort_strings k (map_to_list m2).*1).
  change (k ∈ sorted_keys m1 ↔ k ∈ sorted_keys m2). by rewrite !elem_of_sorted_keys.
Qed.
