(* ===== verification/GoNum.v ===== *)
(** * Numbers of the execution IR

    Go's [int64] and [float64] as the interpreter compares them: the model of
    IEEE-754 binary64 values, the numeric comparison functions of
    [internal/execir/eval.go] and the theorem that they order integers and
    floats by their exact mathematical values. *)

From Stdlib Require Import QArith Qreduction.
From S2P Require Import Prelude.

Local Open Scope Z_scope.

(** ** Machine integers *)

Definition max_int : Z := 9223372036854775807.   (* math.MaxInt, math.MaxInt64 *)
Definition min_int : Z := -9223372036854775808.
Definition is_int64 (z : Z) : Prop := min_int ≤ z ≤ max_int.

(** ** binary64 values

    A finite float is a sign, a magnitude and a binary exponent; the sign of a
    zero is kept, as IEEE-754 does. *)
Inductive f64 : Type :=
  | FNaN
  | FInf (neg : bool)
  | FFin (neg : bool) (m : N) (e : Z).

#[export] Instance f64_eq_dec : EqDecision f64.
Proof. solve_decision. Defined.

(** The canonical representation of the floats binary64 can hold. *)
Definition f64_wf (f : f64) : Prop :=
  match f with
  | FNaN | FInf _ => True
  | FFin _ m e =>
      (m < 2 ^ 53)%N ∧ -1074 ≤ e ≤ 971 ∧ ((2 ^ 52 ≤ m)%N ∨ e = -1074)
  end.

Definition signed (neg : bool) (m : N) : Z := if neg then - Z.of_N m else Z.of_N m.

(** Comparison of two scaled integers [m1 * 2^e1] and [m2 * 2^e2]. *)
Definition scaled_cmp (m1 e1 m2 e2 : Z) : comparison :=
  let e := Z.min e1 e2 in m1 * 2 ^ (e1 - e) ?= m2 * 2 ^ (e2 - e).

(** IEEE comparison: [None] when unordered. *)
Definition f64_cmp (a b : f64) : option comparison :=
  match a, b with
  | FNaN, _ | _, FNaN => None
  | FInf s, FInf t => Some (if s then (if t then Eq else Lt) else (if t then Gt else Eq))
  | FInf s, FFin _ _ _ => Some (if s then Lt else Gt)
  | FFin _ _ _, FInf t => Some (if t then Gt else Lt)
  | FFin s m e, FFin t n g => Some (scaled_cmp (signed s m) e (signed t n) g)
  end.

(** Go's [==], [<], [>], [<=] and [>=] on float64. *)
Definition f64_eqb (a b : f64) : bool :=
  match f64_cmp a b with Some Eq => true | _ => false end.
Definition f64_ltb (a b : f64) : bool :=
  match f64_cmp a b with Some Lt => true | _ => false end.
Definition f64_gtb (a b : f64) : bool := f64_ltb b a.
Definition f64_geb (a b : f64) : bool :=
  match f64_cmp a b with Some Gt | Some Eq => true | _ => false end.
Definition f64_leb (a b : f64) : bool := f64_geb b a.

Definition f64_is_nan (f : f64) : bool := match f with FNaN => true | _ => false end.
(** [math.IsInf(f, sign)] for a non-zero [sign]: [neg] is [sign < 0]. *)
Definition f64_is_inf (f : f64) (neg : bool) : bool :=
  match f with FInf s => Bool.eqb s neg | _ => false end.

(** A float64 holding an integer exactly; [float64(i)] for [|i| <= 2^53]. *)
Definition f64_of_int (i : Z) : f64 := FFin (i <? 0) (Z.to_N (Z.abs i)) 0.

(** The integer part, [math.Trunc] and the conversion [int64(f)] of a float
    whose truncation is in range. *)
Definition trunc_mag (m : N) (e : Z) : N :=
  if 0 <=? e then (m * 2 ^ Z.to_N e)%N else (m / 2 ^ Z.to_N (- e))%N.
Definition f64_trunc (f : f64) : f64 :=
  match f with
  | FFin s m e => if 0 <=? e then f else FFin s (trunc_mag m e) 0
  | _ => f
  end.
Definition f64_to_int (f : f64) : Z :=
  match f with FFin s m e => signed s (trunc_mag m e) | _ => 0 end.

(** ** The comparison functions of [eval.go] *)

Definition cmpInt64 (a b : Z) : Z :=
  if a <? b then -1 else if b <? a then 1 else 0.

Definition maxExactInt : Z := Z.shiftl 1 53.
Definition floatMinInt64 : f64 := f64_of_int (-9223372036854775808).
Definition floatMaxInt64Exclusive : f64 := f64_of_int 9223372036854775808.

Definition compareIntFloat (i : Z) (f : f64) : option Z :=
  if f64_is_nan f then None
  else if f64_is_inf f false then Some (-1)
  else if f64_is_inf f true then Some 1
  else if (- maxExactInt <=? i) && (i <=? maxExactInt) then
    let fi := f64_of_int i in
    if f64_ltb fi f then Some (-1) else if f64_gtb fi f then Some 1 else Some 0
  else if f64_geb f floatMaxInt64Exclusive then Some (-1)
  else if f64_ltb f floatMinInt64 then Some 1
  else
    let trunc := f64_trunc f in
    let ti := f64_to_int trunc in
    if f64_eqb f trunc then Some (cmpInt64 i ti)
    else if f64_gtb f (f64_of_int 0) then
      (if i <=? ti then Some (-1) else Some 1)
    else if i <? ti then Some (-1) else Some 1.

(** A numeric operand: what [asInt64]/[asFloat64] see. *)
Inductive num : Type := NInt (i : Z) | NFlt (f : f64).

Definition compareNum (a b : num) : option Z :=
  match a, b with
  | NInt ai, NInt bi => Some (cmpInt64 ai bi)
  | NInt ai, NFlt bf => compareIntFloat ai bf
  | NFlt af, NInt bi => match compareIntFloat bi af with
                        | Some c => Some (- c) | None => None end
  | NFlt af, NFlt bf =>
      if f64_is_nan af || f64_is_nan bf then None
      else if f64_ltb af bf then Some (-1)
      else if f64_gtb af bf then Some 1 else Some 0
  end.

(** ** Specification: extended rationals *)

Inductive ext : Type := NegInf | Fin (q : Q) | PosInf.

Definition ext_cmp (a b : ext) : comparison :=
  match a, b with
  | NegInf, NegInf | PosInf, PosInf => Eq
  | NegInf, _ | _, PosInf => Lt
  | _, NegInf | PosInf, _ => Gt
  | Fin p, Fin q => Qcompare p q
  end.

Definition scaled_val (m e : Z) : Q :=
  Qmake (m * 2 ^ Z.max e 0) (Z.to_pos (2 ^ Z.max (- e) 0)).

(** The exact value of a numeric operand; [None] for NaN. *)
Definition num_val (n : num) : option ext :=
  match n with
  | NInt i => Some (Fin (inject_Z i))
  | NFlt FNaN => None
  | NFlt (FInf s) => Some (if s then NegInf else PosInf)
  | NFlt (FFin s m e) => Some (Fin (scaled_val (signed s m) e))
  end.

Definition cmp_Z (c : comparison) : Z :=
  match c with Lt => -1 | Eq => 0 | Gt => 1 end.

(** ** Exactness *)

Lemma cmp_scale_pos k a b : 0 < k → (a * k ?= b * k) = (a ?= b).
Proof.
  intros Hk. destruct (Z.compare_spec a b) as [->|H|H].
  - apply Z.compare_refl.
  - apply Z.compare_lt_iff. nia.
  - apply Z.compare_gt_iff. nia.
Qed.

Lemma pow2_pos n : 0 ≤ n → 0 < 2 ^ n.
Proof. intros. by apply Z.pow_pos_nonneg. Qed.

Lemma scaled_cmp_spec m1 e1 m2 e2 :
  scaled_cmp m1 e1 m2 e2 = Qcompare (scaled_val m1 e1) (scaled_val m2 e2).
Proof.
  unfold scaled_cmp, scaled_val, Qcompare; simpl.
  rewrite !Z2Pos.id by (apply pow2_pos; lia).
  set (e := Z.min e1 e2). set (k := Z.max (- e1) 0 + Z.max (- e2) 0 + e).
  rewrite <-(cmp_scale_pos (2 ^ k)) by (apply pow2_pos; lia).
  rewrite <-!Z.mul_assoc, <-!Z.pow_add_r by lia.
  f_equal; do 2 f_equal; lia.
Qed.

Lemma signed_of_int i : signed (i <? 0) (Z.to_N (Z.abs i)) = i.
Proof. unfold signed. destruct (Z.ltb_spec i 0); lia. Qed.

Lemma scaled_val_int i : scaled_val i 0 = inject_Z i.
Proof. unfold scaled_val, inject_Z; simpl. by rewrite Z.mul_1_r. Qed.

Lemma f64_cmp_spec a b x y :
  num_val (NFlt a) = Some x → num_val (NFlt b) = Some y →
  f64_cmp a b = Some (ext_cmp x y).
Proof.
  destruct a as [|[]|s m e], b as [|[]|t n g]; simpl; intros [= <-] [= <-]; try done.
  simpl. by rewrite scaled_cmp_spec.
Qed.

Lemma num_val_of_int i : num_val (NFlt (f64_of_int i)) = Some (Fin (inject_Z i)).
Proof. simpl. by rewrite signed_of_int, scaled_val_int. Qed.

Lemma ext_cmp_antisym x y : ext_cmp y x = CompOpp (ext_cmp x y).
Proof. destruct x, y; simpl; try done. by rewrite Qcompare_antisym. Qed.

Lemma cmpInt64_spec a b : cmpInt64 a b = cmp_Z (a ?= b).
Proof.
  unfold cmpInt64. destruct (Z.compare_spec a b).
  - subst. by rewrite Z.ltb_irrefl.
  - by destruct (Z.ltb_spec a b); [|lia].
  - destruct (Z.ltb_spec a b); [lia|]. by destruct (Z.ltb_spec b a); [|lia].
Qed.

Lemma inject_Z_cmp a b : Qcompare (inject_Z a) (inject_Z b) = (a ?= b).
Proof. unfold Qcompare; simpl. by rewrite !Z.mul_1_r. Qed.

(** Two-way float tests as the three-way comparison of values. *)
Lemma f64_tests a b x y :
  num_val (NFlt a) = Some x → num_val (NFlt b) = Some y →
  (if f64_ltb a b then Some (-1) else if f64_gtb a b then Some 1 else Some 0)
  = Some (cmp_Z (ext_cmp x y)).
Proof.
  intros Ha Hb. unfold f64_ltb, f64_gtb, f64_ltb.
  rewrite (f64_cmp_spec a b x y), (f64_cmp_spec b a y x) by done.
  rewrite (ext_cmp_antisym x y). by destruct (ext_cmp x y).
Qed.

(** The value of a finite float between its truncation and the next integer
    away from zero. *)
Lemma trunc_mag_bounds m e :
  e < 0 →
  let d := 2 ^ (- e) in
  Z.of_N (trunc_mag m e) * d ≤ Z.of_N m < (Z.of_N (trunc_mag m e) + 1) * d.
Proof.
  intros He d. unfold trunc_mag. rewrite (proj2 (Z.leb_gt 0 e) He).
  rewrite N2Z.inj_div, N2Z.inj_pow, Z2N.id by lia.
  change (Z.of_N 2) with 2. fold d. assert (0 < d) by (apply pow2_pos; lia).
  pose proof (Z.div_mod (Z.of_N m) d). pose proof (Z.mod_pos_bound (Z.of_N m) d). nia.
Qed.

Lemma cmp_int_scaled i m e :
  Qcompare (inject_Z i) (scaled_val m e) =
  (i * 2 ^ Z.max (- e) 0 ?= m * 2 ^ Z.max e 0).
Proof.
  unfold Qcompare, scaled_val; simpl. rewrite Z2Pos.id by (apply pow2_pos; lia).
  by rewrite Z.mul_1_r.
Qed.

(** The wide branch of [compareIntFloat]: compare with the truncation, then
    decide by the discarded fraction. *)
Lemma compare_by_trunc i s m e :
  (let f := FFin s m e in
   let ti := f64_to_int (f64_trunc f) in
   if f64_eqb f (f64_trunc f) then Some (cmpInt64 i ti)
   else if f64_gtb f (f64_of_int 0) then (if i <=? ti then Some (-1) else Some 1)
   else if i <? ti then Some (-1) else Some 1)
  = Some (cmp_Z (Qcompare (inject_Z i) (scaled_val (signed s m) e))).
Proof.
  rewrite cmp_int_scaled. simpl. destruct (Z.leb_spec 0 e) as [He|He].
  - unfold f64_eqb. simpl. unfold scaled_cmp. rewrite Z.compare_refl.
    rewrite cmpInt64_spec. do 2 f_equal. rewrite Z.max_r, Z.max_l, Z.mul_1_r by lia.
    f_equal. unfold trunc_mag. rewrite (proj2 (Z.leb_le 0 e) He). unfold signed.
    rewrite N2Z.inj_mul, N2Z.inj_pow, Z2N.id by lia. destruct s; lia.
  - rewrite Z.max_l, (Z.max_r e) by lia. change (2 ^ 0) with 1. rewrite Z.mul_1_r.
    pose proof (trunc_mag_bounds m e He) as Hb. simpl in Hb.
    set (d := 2 ^ (- e)) in *. assert (0 < d) as Hd by (apply pow2_pos; lia).
    set (t := trunc_mag m e) in *.
    assert (trunc_mag t 0 = t) as Ht0 by (unfold trunc_mag; simpl; lia).
    assert (∀ v, scaled_cmp (signed s m) e v 0 = (signed s m ?= v * d)) as Hcmp.
    { intros v. unfold scaled_cmp. rewrite Z.min_l by lia.
      by rewrite Z.sub_diag, Z.mul_1_r. }
    assert (∀ v, scaled_cmp v 0 (signed s m) e = (v * d ?= signed s m)) as Hcmp'.
    { intros v. unfold scaled_cmp. rewrite Z.min_r by lia.
      by rewrite Z.sub_diag, Z.mul_1_r. }
    unfold f64_eqb, f64_gtb, f64_ltb, f64_of_int. simpl. rewrite Hcmp, Hcmp', Ht0.
    change (Z.to_N (Z.abs 0)) with 0%N. change (signed (0 <? 0) 0) with 0.
    destruct s; unfold signed in *; cbn iota in *.
    + destruct (Z.compare_spec (- Z.of_N m) (- Z.of_N t * d)) as [Heq|H|H]; [|..|nia].
      * rewrite cmpInt64_spec, Heq. by rewrite cmp_scale_pos.
      * destruct (Z.compare_spec (0 * d) (- Z.of_N m)); [nia|nia|].
        destruct (Z.ltb_spec i (- Z.of_N t)).
        -- rewrite (proj2 (Z.compare_lt_iff _ _)); [done|nia].
        -- rewrite (proj2 (Z.compare_gt_iff _ _)); [done|nia].
    + destruct (Z.compare_spec (Z.of_N m) (Z.of_N t * d)) as [Heq|H|H]; [|nia|].
      * rewrite cmpInt64_spec, Heq. by rewrite cmp_scale_pos.
      * destruct (Z.compare_spec (0 * d) (Z.of_N m)); [nia| |nia].
        destruct (Z.leb_spec i (Z.of_N t)).
        -- rewrite (proj2 (Z.compare_lt_iff _ _)); [done|nia].
        -- rewrite (proj2 (Z.compare_gt_iff _ _)); [done|nia].
Qed.

Lemma f64_vs_int s m e i :
  f64_cmp (FFin s m e) (f64_of_int i) =
  Some (CompOpp (Qcompare (inject_Z i) (scaled_val (signed s m) e))).
Proof.
  erewrite f64_cmp_spec; [|done|apply num_val_of_int]. simpl.
  by rewrite Qcompare_antisym.
Qed.

Lemma compareIntFloat_finite i s m e :
  is_int64 i →
  compareIntFloat i (FFin s m e) =
  Some (cmp_Z (Qcompare (inject_Z i) (scaled_val (signed s m) e))).
Proof.
  intros Hi. set (q := scaled_val (signed s m) e).
  unfold compareIntFloat. simpl f64_is_nan. simpl f64_is_inf. simpl Bool.eqb. cbn iota.
  destruct (_ && _).
  { by apply (f64_tests _ _ (Fin (inject_Z i)) (Fin q)); [apply num_val_of_int|]. }
  unfold f64_geb at 1, floatMaxInt64Exclusive. rewrite f64_vs_int. fold q.
  destruct (Qcompare (inject_Z 9223372036854775808) q) eqn:E1; simpl CompOpp; cbn iota.
  - apply Qeq_alt in E1. rewrite <-E1, inject_Z_cmp.
    rewrite (proj2 (Z.compare_lt_iff _ _)); [done|]. unfold is_int64, max_int in Hi. lia.
  - apply Qlt_alt in E1. replace (Qcompare (inject_Z i) q) with Lt; [done|].
    symmetry. apply Qlt_alt. eapply Qlt_trans; [|done].
    rewrite <-Zlt_Qlt. unfold is_int64, max_int in Hi. lia.
  - unfold f64_ltb at 1, floatMinInt64. rewrite f64_vs_int. fold q.
    destruct (Qcompare (inject_Z (-9223372036854775808)) q) eqn:E2; simpl CompOpp; cbn iota.
    + apply compare_by_trunc.
    + apply compare_by_trunc.
    + apply Qgt_alt in E2. replace (Qcompare (inject_Z i) q) with Gt; [done|].
      symmetry. apply Qgt_alt. eapply Qlt_le_trans; [done|].
      rewrite <-Zle_Qle. unfold is_int64, min_int in Hi. lia.
Qed.

(** [tryCompareNumeric] orders int64 and float64 operands by exact value. *)
Lemma compareNum_exact a b x y :
  (∀ i, a = NInt i → is_int64 i) → (∀ i, b = NInt i → is_int64 i) →
  num_val a = Some x → num_val b = Some y →
  compareNum a b = Some (cmp_Z (ext_cmp x y)).
Proof.
  intros Ha Hb Hx Hy. destruct a as [i|f], b as [j|g]; simpl in *.
  - injection Hx as <-. injection Hy as <-. simpl. by rewrite cmpInt64_spec, inject_Z_cmp.
  - injection Hx as <-. destruct g as [|[]|s m e]; [done|..]; injection Hy as <-; try done.
    simpl. by rewrite compareIntFloat_finite by auto.
  - injection Hy as <-. destruct f as [|[]|s m e]; [done|..]; injection Hx as <-; try done.
    simpl. rewrite compareIntFloat_finite by auto.
    rewrite <-(Qcompare_antisym (inject_Z j)). by destruct (Qcompare _ _).
  - destruct f as [|b1|s m e]; [done|..]; (destruct g as [|b2|t n h]; [done|..]);
      simpl orb; cbn iota; by apply f64_tests.
Qed.

Lemma compareNum_None a b :
  compareNum a b = None ↔ num_val a = None ∨ num_val b = None.
Proof.
  assert (∀ i f, compareIntFloat i f = None ↔ f = FNaN) as H.
  { intros i f. unfold compareIntFloat. destruct f as [|[]|s m e]; simpl; try naive_solver.
    repeat case_match; naive_solver. }
  destruct a as [i|f], b as [j|g]; simpl.
  - naive_solver.
  - rewrite H. destruct g; naive_solver.
  - pose proof (H j f). destruct f; simpl; [naive_solver|..]; case_match; naive_solver.
  - destruct f, g; simpl; repeat case_match; naive_solver.
Qed.
