(* ===== verification/GoText.v ===== *)
(** * Text of the Go standard library

    UTF-8 validity, the string quoting of [encoding/json] and the shortest
    decimal spelling of a float64 ([strconv.FormatFloat] with precision -1 and
    [encoding/json]'s number format), as executable functions on bytes. *)

From S2P Require Import Prelude GoNum.

Local Open Scope N_scope.

(** ** UTF-8 *)

Definition in_range (lo hi : N) (c : ascii) : bool :=
  (lo <=? N_of_ascii c) && (N_of_ascii c <=? hi).
Definition is_cont : ascii → bool := in_range 0x80 0xBF.

(** [utf8.DecodeRune]: the bytes of the first rune and the rest, or [None] when
    the first byte does not start a valid encoding. *)
Definition decode_rune (l : chars) : option (chars * chars) :=
  match l with
  | [] => None
  | b0 :: l1 =>
      if in_range 0 0x7F b0 then Some ([b0], l1)
      else match l1 with
      | [] => None
      | b1 :: l2 =>
          if in_range 0xC2 0xDF b0 then
            if is_cont b1 then Some ([b0; b1], l2) else None
          else match l2 with
          | [] => None
          | b2 :: l3 =>
              let ok1 := (in_range 0xE0 0xE0 b0 && in_range 0xA0 0xBF b1)
                || ((in_range 0xE1 0xEC b0 || in_range 0xEE 0xEF b0) && is_cont b1)
                || (in_range 0xED 0xED b0 && in_range 0x80 0x9F b1) in
              if in_range 0xE0 0xEF b0 then
                if ok1 && is_cont b2 then Some ([b0; b1; b2], l3) else None
              else match l3 with
              | [] => None
              | b3 :: l4 =>
                  let ok1 := (in_range 0xF0 0xF0 b0 && in_range 0x90 0xBF b1)
                    || (in_range 0xF1 0xF3 b0 && is_cont b1)
                    || (in_range 0xF4 0xF4 b0 && in_range 0x80 0x8F b1) in
                  if ok1 && is_cont b2 && is_cont b3
                  then Some ([b0; b1; b2; b3], l4) else None
              end
          end
      end
  end.

Arguments decode_rune : simpl never.

(** A string as runes: [inl] a valid encoding, [inr] one invalid byte. *)
Fixpoint runes_go (fuel : nat) (l : chars) : list (chars + ascii) :=
  match fuel, l with
  | O, _ | _, [] => []
  | S fuel, b :: l' =>
      match decode_rune l with
      | Some (r, rest) => inl r :: runes_go fuel rest
      | None => inr b :: runes_go fuel l'
      end
  end.
Definition runes (l : chars) : list (chars + ascii) := runes_go (length l) l.

(** [utf8.ValidString]. *)
Definition valid_utf8 (s : string) : bool :=
  forallb (λ r, match r with inl _ => true | inr _ => false end)
    (runes (String.list_ascii_of_string s)).

Definition rune_error : chars := bytes [0xEF; 0xBF; 0xBD].

(** Every invalid byte replaced by U+FFFD: what a [json.Marshal] then
    [json.Unmarshal] round trip makes of a string. *)
Definition to_valid_utf8 (s : string) : string :=
  String.string_of_list_ascii (concat
    ((λ r, match r with inl r => r | inr _ => rune_error end)
      <$> runes (String.list_ascii_of_string s))).

Lemma decode_rune_app l r rest : decode_rune l = Some (r, rest) → l = r ++ rest.
Proof.
  unfold decode_rune.
  destruct l as [|b0 [|b1 [|b2 [|b3 l]]]]; intros H; repeat case_match; simplify_eq; done.
Qed.

Lemma decode_rune_ne l r rest : decode_rune l = Some (r, rest) → r ≠ [].
Proof.
  unfold decode_rune.
  destruct l as [|b0 [|b1 [|b2 [|b3 l]]]]; intros H; repeat case_match; simplify_eq; done.
Qed.

Lemma runes_go_concat fuel l :
  (length l ≤ fuel)%nat →
  concat ((λ r, match r with inl r => r | inr b => [b] end) <$> runes_go fuel l) = l.
Proof.
  revert l. induction fuel as [|fuel IH]; intros [|b l] Hl; try done; [simpl in Hl; lia|].
  cbn [runes_go]. destruct (decode_rune (b :: l)) as [[r rest]|] eqn:E.
  - pose proof (decode_rune_ne _ _ _ E). apply decode_rune_app in E. rewrite E in *.
    simpl. rewrite IH; [done|]. rewrite length_app in Hl. destruct r; [done|].
    simpl in Hl. lia.
  - simpl. rewrite IH; [done|]. simpl in Hl. lia.
Qed.

(** A string is its runes, so valid UTF-8 is left alone by the round trip. *)
Lemma to_valid_utf8_id s : valid_utf8 s = true → to_valid_utf8 s = s.
Proof.
  unfold valid_utf8, to_valid_utf8, runes. set (l := String.list_ascii_of_string s).
  intros Hv. transitivity (String.string_of_list_ascii l);
    [f_equal|apply String.string_of_list_ascii_of_string].
  rewrite <-(runes_go_concat (length l) l) at 3 by done.
  induction (runes_go (length l) l) as [|[r|b] rs IH]; [done| |done].
  rewrite !fmap_cons, !concat_cons. by rewrite IH.
Qed.

(** ** JSON strings ([encoding/json] appendString, HTML escaping on) *)

Definition hex_digit (n : N) : ascii :=
  if n <? 10 then ascii_of_N (48 + n) else ascii_of_N (87 + n).

Definition json_safe (b : N) : bool :=
  (32 <=? b) && negb (existsb (N.eqb b) [34; 92; 60; 62; 38]).

Definition json_escape_ascii (c : ascii) : chars :=
  let b := N_of_ascii c in
  if json_safe b then [c]
  else if (b =? 92) || (b =? 34) then bytes [92; b]
  else if b =? 8 then bytes [92; 98]
  else if b =? 12 then bytes [92; 102]
  else if b =? 10 then bytes [92; 110]
  else if b =? 13 then bytes [92; 114]
  else if b =? 9 then bytes [92; 116]
  else bytes [92; 117; 48; 48] ++ [hex_digit (b / 16); hex_digit (b mod 16)].

Definition json_escape_rune (r : chars + ascii) : chars :=
  match r with
  | inr _ => bytes [92; 117; 102; 102; 102; 100]              (* \ufffd *)
  | inl [c] => json_escape_ascii c
  | inl r =>
      if decide (r = bytes [0xE2; 0x80; 0xA8]) then bytes [92; 117; 50; 48; 50; 56]
      else if decide (r = bytes [0xE2; 0x80; 0xA9]) then bytes [92; 117; 50; 48; 50; 57]
      else r
  end.

Definition json_quote_chars (l : chars) : chars :=
  ascii_of_N 34 :: concat (json_escape_rune <$> runes l) ++ [ascii_of_N 34].

Definition json_quote (s : string) : string :=
  String.string_of_list_ascii (json_quote_chars (String.list_ascii_of_string s)).

(** ** Floats in decimal *)

(** [a / b] rounded to the nearest integer, ties to even. *)
Definition div_round (a b : N) : N :=
  let q := a / b in let r := a mod b in
  match 2 * r ?= b with
  | Lt => q
  | Gt => q + 1
  | Eq => if N.even q then q else q + 1
  end.

(** The binary64 nearest to the positive rational [a / b]. *)
Definition f64_round (neg : bool) (a b : N) : f64 :=
  if a =? 0 then FFin neg 0 (-1074) else
  let k := (Z.of_N (N.log2 a) - Z.of_N (N.log2 b))%Z in
  let below :=                                        (* a / b < 2^k *)
    if (0 <=? k)%Z then a <? b * 2 ^ Z.to_N k else a * 2 ^ Z.to_N (- k) <? b in
  let e := Z.max (-1074) ((if below then k - 1 else k) - 52)%Z in
  let m := if (0 <=? e)%Z then div_round a (b * 2 ^ Z.to_N e)
           else div_round (a * 2 ^ Z.to_N (- e)) b in
  let '(m, e) := if m =? 2 ^ 53 then (2 ^ 52, (e + 1)%Z) else (m, e) in
  if (971 <? e)%Z then FInf neg else FFin neg m e.

(** The positive finite float [m * 2^e] as a fraction. *)
Definition f64_frac (m : N) (e : Z) : N * N :=
  if (0 <=? e)%Z then (m * 2 ^ Z.to_N e, 1) else (m, 2 ^ Z.to_N (- e)).

(** [d * 10^p] as a fraction, and as the nearest float. *)
Definition dec_frac (d : N) (p : Z) : N * N :=
  if (0 <=? p)%Z then (d * 10 ^ Z.to_N p, 1) else (d, 10 ^ Z.to_N (- p)).
Definition dec_to_f64 (neg : bool) (d : N) (p : Z) : f64 :=
  let '(a, b) := dec_frac d p in f64_round neg a b.

(** The decimal exponent: [10^(x-1) <= a/b < 10^x]. *)
Definition frac_ge_pow10 (a b : N) (x : Z) : bool :=
  if (0 <=? x)%Z then b * 10 ^ Z.to_N x <=? a else b <=? a * 10 ^ Z.to_N (- x).
Fixpoint adjust_dp (fuel : nat) (a b : N) (x : Z) : Z :=
  match fuel with
  | O => x
  | S fuel =>
      if frac_ge_pow10 a b x then adjust_dp fuel a b (x + 1)%Z
      else if frac_ge_pow10 a b (x - 1)%Z then x
      else adjust_dp fuel a b (x - 1)%Z
  end.
Definition dec_point (a b : N) : Z :=
  let k := (Z.of_N (N.log2 a) - Z.of_N (N.log2 b))%Z in
  adjust_dp 8 a b (k * 30103 / 100000)%Z.

(** The candidates with [n] digits around [a/b] that read back as [f]; the
    nearer one when both do. *)
Definition dec_candidate (f : f64) (neg : bool) (a b : N) (dp : Z) (n : nat)
    : option (N * Z) :=
  let p := (dp - Z.of_nat n)%Z in
  let '(num, den) := if (0 <=? p)%Z then (a, b * 10 ^ Z.to_N p)
                     else (a * 10 ^ Z.to_N (- p), b) in
  let lo := num / den in
  let near := div_round num den in
  let far := if near =? lo then lo + 1 else lo in
  if bool_decide (dec_to_f64 neg near p = f) then Some (near, p)
  else if bool_decide (dec_to_f64 neg far p = f) then Some (far, p)
  else None.

Fixpoint shortest_go (f : f64) (neg : bool) (a b : N) (dp : Z) (n fuel : nat) : N * Z :=
  match fuel with
  | O => (0, 0%Z)
  | S fuel =>
      match dec_candidate f neg a b dp n with
      | Some r => r
      | None => shortest_go f neg a b dp (S n) fuel
      end
  end.

Fixpoint drop_zeros (fuel : nat) (d : N) (p : Z) : N * Z :=
  match fuel with
  | O => (d, p)
  | S fuel => if (d mod 10 =? 0) && negb (d =? 0) then drop_zeros fuel (d / 10) (p + 1)%Z
              else (d, p)
  end.

(** The shortest digits [d] and exponent [p] with [d * 10^p] reading back as the
    finite float; seventeen digits always suffice for binary64. *)
Definition shortest (neg : bool) (m : N) (e : Z) : N * Z :=
  if m =? 0 then (0, 0%Z) else
  let '(a, b) := f64_frac m e in
  let '(d, p) := shortest_go (FFin neg m e) neg a b (dec_point a b) 1 17 in
  drop_zeros 20 d p.

Fixpoint zeros (n : nat) : string := match n with O => "" | S n => String "0" (zeros n) end.
Definition sign_str (neg : bool) : string := if neg then "-" else "".

(** [%f] with exactly the needed digits. *)
Definition fmt_f (d : N) (p : Z) : string :=
  let ds := pretty d in
  if (0 <=? p)%Z then if d =? 0 then "0" else ds +:+ zeros (Z.to_nat p)
  else
    let nd := String.length ds in
    let frac := Z.to_nat (- p) in
    if decide (nd <= frac)%nat then "0." +:+ (zeros (frac - nd) +:+ ds)
    else String.substring 0 (nd - frac) ds +:+ ("." +:+ String.substring (nd - frac) frac ds).

(** [%e]: one digit, the fraction, and a signed exponent of two digits or more. *)
Definition fmt_e (d : N) (p : Z) : string :=
  let ds := pretty d in
  let nd := String.length ds in
  let x := (p + Z.of_nat nd - 1)%Z in
  let mant := if decide (nd <= 1)%nat then ds
              else String.substring 0 1 ds +:+ ("." +:+ String.substring 1 (nd - 1) ds) in
  let xs := pretty (Z.to_N (Z.abs x)) in
  mant +:+ ("e" +:+ ((if (x <? 0)%Z then "-" else "+")
    +:+ (if decide (String.length xs < 2)%nat then "0" +:+ xs else xs))).

(** [strconv.FormatFloat(f, 'g', -1, 64)]. *)
Definition format_float_g (f : f64) : string :=
  match f with
  | FNaN => "NaN"
  | FInf neg => if neg then "-Inf" else "+Inf"
  | FFin neg m e =>
      let '(d, p) := shortest neg m e in
      let x := (p + Z.of_nat (String.length (pretty d)) - 1)%Z in
      sign_str neg +:+
        (if (x <? -4)%Z || (6 <=? x)%Z then if d =? 0 then "0" else fmt_e d p
         else fmt_f d p)
  end.

(** A float as [json.Marshal] spells it: ['f'], or ['e'] below 1e-6 and from 1e21
    on, the exponent without its padding zero.  [None] is the error for NaN
    and the infinities. *)
Definition json_uses_e (d : N) (p : Z) : bool :=
  let x := (p + Z.of_nat (String.length (pretty d)))%Z in
  negb (d =? 0) && ((x <=? -6)%Z || (22 <=? x)%Z).

Definition fmt_e_json (d : N) (p : Z) : string :=
  let ds := pretty d in
  let nd := String.length ds in
  let x := (p + Z.of_nat nd - 1)%Z in
  let mant := if decide (nd <= 1)%nat then ds
              else String.substring 0 1 ds +:+ ("." +:+ String.substring 1 (nd - 1) ds) in
  mant +:+ ("e" +:+ ((if (x <? 0)%Z then "-" else "+") +:+ pretty (Z.to_N (Z.abs x)))).

Definition json_float (f : f64) : option string :=
  match f with
  | FNaN | FInf _ => None
  | FFin neg m e =>
      let '(d, p) := shortest neg m e in
      Some (sign_str neg +:+ (if json_uses_e d p then fmt_e_json d p else fmt_f d p))
  end.

(** ** Spot checks against the Go library *)

Example format_half : format_float_g (FFin false 4503599627370496 (-53)) = "0.5".
Proof. vm_compute. reflexivity. Qed.
Example format_third :
  format_float_g (FFin false 6004799503160661 (-54)) = "0.3333333333333333".
Proof. vm_compute. reflexivity. Qed.
Example format_million : format_float_g (f64_round false 1000000 1) = "1e+06".
Proof. vm_compute. reflexivity. Qed.
Example json_2_60 : json_float (f64_round false (2 ^ 60) 1) = Some "1152921504606847000".
Proof. vm_compute. reflexivity. Qed.
Example json_small : json_float (f64_round true 1 10000000) = Some "-1e-7".
Proof. vm_compute. reflexivity. Qed.
Example json_tenth : json_float (f64_round false 1 10) = Some "0.1".
Proof. vm_compute. reflexivity. Qed.
Example format_min : format_float_g (FFin false 1 (-1074)) = "5e-324".
Proof. vm_compute. reflexivity. Qed.
Example format_max :
  format_float_g (FFin false 9007199254740991 971) = "1.7976931348623157e+308".
Proof. vm_compute. reflexivity. Qed.
Example format_neg_zero : format_float_g (FFin true 0 (-1074)) = "-0".
Proof. vm_compute. reflexivity. Qed.

(** ** Facts *)

(** Decoding looks only at the bytes of the rune. *)
Lemma decode_rune_prefix l r rest rest' :
  decode_rune l = Some (r, rest) → decode_rune (r ++ rest') = Some (r, rest').
Proof.
  intros H. unfold decode_rune in H. cbn zeta in H.
  destruct l as [|b0 [|b1 [|b2 [|b3 l]]]]; repeat case_match; simplify_eq;
    unfold decode_rune; cbn [app]; cbn zeta;
    repeat match goal with H : ?x = true |- context [?x] => rewrite H
      | H : ?x = false |- context [?x] => rewrite H end; done.
Qed.

Lemma rune_error_decodes rest : decode_rune (rune_error ++ rest) = Some (rune_error, rest).
Proof. done. Qed.

Lemma runes_go_concat_valid (rs : list chars) fuel :
  Forall (λ r, r ≠ [] ∧ ∀ rest, decode_rune (r ++ rest) = Some (r, rest)) rs →
  (length (concat rs) ≤ fuel)%nat → runes_go fuel (concat rs) = inl <$> rs.
Proof.
  intros Hrs. revert fuel. induction Hrs as [|r rs [Hne Hr] _ IH]; intros fuel Hf;
    [by destruct fuel|].
  simpl in *. rewrite length_app in Hf. pose proof (Hr (concat rs)) as E.
  destruct r as [|b r]; [done|]. destruct fuel as [|fuel]; simpl in Hf; [lia|].
  cbn [runes_go app]. cbn [app] in E. rewrite E. rewrite IH; [done|lia].
Qed.

Lemma runes_go_good fuel l r : inl r ∈ runes_go fuel l →
  r ≠ [] ∧ ∀ rest, decode_rune (r ++ rest) = Some (r, rest).
Proof.
  revert l. induction fuel as [|fuel IH]; intros [|b l]; simpl;
    try (intros H; by apply elem_of_nil in H).
  destruct (decode_rune (b :: l)) as [[r' rest']|] eqn:E; rewrite elem_of_cons.
  - intros [[= ->]|H]; [|by eapply IH].
    split; [by eapply decode_rune_ne|]. intros rest. by eapply decode_rune_prefix.
  - intros [?|H]; [done|]. by eapply IH.
Qed.

(** What the JSON round trip makes of a string is valid UTF-8. *)
Lemma to_valid_utf8_valid s : valid_utf8 (to_valid_utf8 s) = true.
Proof.
  unfold valid_utf8, to_valid_utf8, runes.
  rewrite String.list_ascii_of_string_of_list_ascii, runes_go_concat_valid; [..|done].
  - rewrite forallb_forall. intros x Hx. apply list_elem_of_In, list_elem_of_fmap in Hx.
    by destruct Hx as (? & -> & _).
  - apply Forall_forall. intros r Hr. apply list_elem_of_fmap in Hr as ([r'|b] & -> & Hin);
      [by eapply runes_go_good|]. split; [done|]. apply rune_error_decodes.
Qed.

Lemma div_round_ge a b : (a / b <= div_round a b).
Proof. unfold div_round. repeat case_match; lia. Qed.

(** An integer of at least 2^63 rounds to a float of at least 2^63. *)
Lemma f64_round_ge_two63 neg a :
  2 ^ 63 <= a →
  f64_round neg a 1 = FInf neg ∨
  ∃ m e, f64_round neg a 1 = FFin neg m e ∧ (2 ^ 52 <= m)%N ∧ (11 <= e)%Z.
Proof.
  intros Ha. unfold f64_round.
  assert (a ≠ 0) as Ha0 by (intros ->; by vm_compute in Ha).
  apply N.eqb_neq in Ha0 as Ha0'. rewrite Ha0'.
  assert (63 <= N.log2 a)%N as Hl.
  { apply N.log2_le_pow2; [lia|done]. }
  change (N.log2 1) with 0%N. rewrite Z.sub_0_r.
  set (k := Z.of_N (N.log2 a)).
  assert (Z.to_N k = N.log2 a) as Hk by (unfold k; lia).
  assert ((0 <=? k)%Z = true) as Ek by (apply Z.leb_le; lia).
  assert (Z.max (-1074) (k - 52) = k - 52)%Z as Em by lia.
  assert ((0 <=? k - 52)%Z = true) as Ek2 by (apply Z.leb_le; lia).
  assert (Z.to_N (k - 52) = N.log2 a - 52) as Ed by lia.
  pose proof (N.log2_spec a ltac:(lia)) as [Hlo _].
  assert ((a <? 2 ^ N.log2 a) = false) as Eb by (apply N.ltb_ge; lia).
  cbv zeta. rewrite !N.mul_1_l, !Ek, !Hk, !Eb, !Em, !Ek2, !Ed.
  pose proof (div_round_ge a (2 ^ (N.log2 a - 52))) as Hd.
  assert (2 ^ 52 <= a / 2 ^ (N.log2 a - 52)) as Hq.
  { apply N.div_le_lower_bound; [by apply N.pow_nonzero|].
    rewrite <-N.pow_add_r. replace (N.log2 a - 52 + 52) with (N.log2 a) by lia. done. }
  destruct (div_round a (2 ^ (N.log2 a - 52)) =? 2 ^ 53);
    (destruct (971 <? _)%Z; [by left|right]); eexists _, _; split; try done; split; lia.
Qed.

(** ** Decimal integers

    [strconv.Atoi], [strconv.ParseInt] of base 10 and 64 bits: an optional sign and decimal digits, within an int64. *)
Fixpoint digits_value (acc : Z) (s : string) : option Z :=
  match s with
  | "" => Some acc
  | String c s =>
      if is_digit c then digits_value (acc * 10 + (Z.of_N (N_of_ascii c) - 48)) s else None
  end.
Definition atoi (s : string) : option Z :=
  let '(neg, ds) :=
    match s with
    | String c t => if decide (c = "-"%char) then (true, t) else if decide (c = "+"%char) then (false, t) else (false, s)
    | "" => (false, s)
    end in
  if (ds =? "")%string then None
  else match digits_value 0 ds with
       | Some n => let n := if neg : bool then (- n)%Z else n in
                   if decide (is_int64 n) then Some n else None
       | None => None
       end.

Lemma digits_value_pretty n s : digits_value 0 (pretty_N_go n s) = digits_value (Z.of_N n) s.
Proof.
  revert s. induction (N.lt_wf_0 n) as [n _ IH]; intros s.
  destruct (decide (0 < n)%N) as [Hn|Hn].
  - rewrite pretty_N_go_step by done. rewrite IH by (apply N.div_lt; lia).
    cbn [digits_value]. rewrite pretty_N_char_digit. f_equal.
    assert (∀ d, (d < 10)%N → (Z.of_N (N_of_ascii (pretty_N_char d)) - 48 = Z.of_N d)%Z) as Hd.
    { intros d Hd. assert (d = 0 ∨ d = 1 ∨ d = 2 ∨ d = 3 ∨ d = 4 ∨ d = 5 ∨ d = 6 ∨ d = 7 ∨ d = 8 ∨ d = 9)%N as Hc by lia.
      by repeat destruct Hc as [->|Hc]; [..|subst d]. }
    rewrite Hd by (apply N.mod_lt; lia). pose proof (N.div_mod n 10). lia.
  - assert (n = 0%N) as -> by lia. done.
Qed.

Lemma digits_value_N (n : N) : digits_value 0 (pretty n) = Some (Z.of_N n).
Proof.
  unfold pretty, pretty_N. case_decide as E; [by subst|]. by rewrite digits_value_pretty.
Qed.

Lemma pretty_N_digit (n : N) : ∃ c t, pretty n = String c t ∧ is_digit c = true.
Proof.
  unfold pretty, pretty_N. case_decide as E; [by exists "0"%char, ""|].
  pose proof (pretty_N_go_digits n "" eq_refl) as Hd. destruct (pretty_N_go n "") as [|c t] eqn:Eg.
  - pose proof (digits_value_pretty n "") as Hv. rewrite Eg in Hv. cbn in Hv. injection Hv. lia.
  - exists c, t. split; [done|]. cbn in Hd. by destruct (is_digit c).
Qed.

(** Formatting and parsing of an int64. *)
Lemma atoi_pretty (z : Z) : is_int64 z → atoi (pretty z) = Some z.
Proof.
  intros Hz. unfold atoi. destruct z as [|p|p]; [done| |].
  - change (pretty (Z.pos p)) with (pretty (N.pos p)).
    pose proof (digits_value_N (N.pos p)) as Hv. destruct (pretty_N_digit (N.pos p)) as (c & t & E & Hc).
    rewrite E in Hv |- *. rewrite !decide_False by (intros ->; done). cbn -[digits_value].
    rewrite Hv. by rewrite decide_True.
  - change (pretty (Z.neg p)) with ("-" +:+ pretty (N.pos p)).
    pose proof (digits_value_N (N.pos p)) as Hv. destruct (pretty_N_digit (N.pos p)) as (c & t & E & Hc).
    rewrite E in Hv |- *. rewrite string_app_cons, string_app_nil_l, decide_True by done. cbn -[digits_value].
    rewrite Hv. by rewrite decide_True.
Qed.
