(* ===== verification/Value.v ===== *)
(** * Runtime values

    The Go [any] values the execution IR carries (JSON values with int64 and
    float64 numbers), the equality and coercions of [internal/execir/eval.go]
    and the canonical number model of [internal/jsonnum/jsonnum.go].

    An object is its list of fields in increasing key order, so one
    [map[string]any] has one representation.  [int] and [int64] are one
    constructor: every function of the source treats them alike. *)

From Stdlib Require Import QArith.
From S2P Require Import Prelude GoNum GoText.

Local Open Scope Z_scope.

Inductive value : Type :=
  | VNil
  | VBool (b : bool)
  | VInt (i : Z)
  | VFloat (f : f64)
  | VStr (s : string)
  | VList (l : list value)
  | VMap (m : list (string * value)).

(** ** Induction and decidable equality *)

Section value_ind.
Variable P : value → Prop.
Hypothesis Hnil : P VNil.
Hypothesis Hbool : ∀ b, P (VBool b).
Hypothesis Hint : ∀ i, P (VInt i).
Hypothesis Hfloat : ∀ f, P (VFloat f).
Hypothesis Hstr : ∀ s, P (VStr s).
Hypothesis Hlist : ∀ l, Forall P l → P (VList l).
Hypothesis Hmap : ∀ m, Forall (λ kv, P kv.2) m → P (VMap m).

Fixpoint value_nested_ind (v : value) : P v :=
  match v with
  | VNil => Hnil
  | VBool b => Hbool b
  | VInt i => Hint i
  | VFloat f => Hfloat f
  | VStr s => Hstr s
  | VList l => Hlist l
      ((fix go l : Forall P l := match l with
        | [] => Forall_nil_2 _
        | x :: l => Forall_cons_2 _ _ _ (value_nested_ind x) (go l) end) l)
  | VMap m => Hmap m
      ((fix go m : Forall (λ kv, P kv.2) m := match m with
        | [] => Forall_nil_2 _
        | kv :: m => Forall_cons_2 _ _ _ (value_nested_ind kv.2) (go m) end) m)
  end.
End value_ind.

Lemma value_eq_dec_lemma (v w : value) : {v = w} + {v ≠ w}.
Proof.
  revert v w. fix IH 1. intros v w.
  destruct v as [|b|i|f|s|l|m], w as [|b'|i'|f'|s'|l'|m']; try (right; discriminate);
    try (left; reflexivity).
  - destruct (decide (b = b')); [left|right]; congruence.
  - destruct (decide (i = i')); [left|right]; congruence.
  - destruct (decide (f = f')); [left|right]; congruence.
  - destruct (decide (s = s')); [left|right]; congruence.
  - assert ({l = l'} + {l ≠ l'}) as [->|]; [|by left|right; congruence].
    revert l'. induction l as [|x l IHl]; intros [|y l'];
      [by left|by right|by right|].
    destruct (IH x y), (IHl l'); [left|right..]; congruence.
  - assert ({m = m'} + {m ≠ m'}) as [->|]; [|by left|right; congruence].
    revert m'. induction m as [|[k x] m IHm]; intros [|[k' y] m'];
      [by left|by right|by right|].
    destruct (IH x y), (decide (k = k')), (IHm m'); [left|right..]; congruence.
Defined.
#[export] Instance value_eq_dec : EqDecision value := value_eq_dec_lemma.

(** ** Objects as maps *)

(** The read [m[k]]; [None] when the key is absent. *)
Fixpoint map_get (m : list (string * value)) (k : string) : option value :=
  match m with
  | [] => None
  | (k', v) :: m => if decide (k' = k) then Some v else map_get m k
  end.

(** The write [m[k] = v], keeping the keys in order. *)
Fixpoint map_set (m : list (string * value)) (k : string) (v : value)
    : list (string * value) :=
  match m with
  | [] => [(k, v)]
  | (k', v') :: m' =>
      if decide (k' = k) then (k, v) :: m'
      else if decide (String.le k k') then (k, v) :: m
      else (k', v') :: map_set m' k v
  end.

Definition map_of_list (l : list (string * value)) : list (string * value) :=
  foldl (λ m kv, map_set m kv.1 kv.2) [] l.

Definition slt (a b : string) : Prop := String.le a b ∧ a ≠ b.

(** Objects hold each key once, in order. *)
Inductive value_wf : value → Prop :=
  | wf_nil : value_wf VNil
  | wf_bool b : value_wf (VBool b)
  | wf_int i : is_int64 i → value_wf (VInt i)
  | wf_float f : f64_wf f → value_wf (VFloat f)
  | wf_str s : value_wf (VStr s)
  | wf_list l : Forall value_wf l → value_wf (VList l)
  | wf_map m : Forall (λ kv, value_wf kv.2) m → StronglySorted slt (fst <$> m) →
      value_wf (VMap m).

Lemma map_get_set_eq m k v : map_get (map_set m k v) k = Some v.
Proof.
  induction m as [|[k' v'] m IH]; simpl; [by rewrite decide_True|].
  repeat case_decide; simpl; repeat case_decide; try done.
Qed.

Lemma map_get_set_ne m k k' v :
  k ≠ k' → map_get (map_set m k v) k' = map_get m k'.
Proof.
  intros Hne. induction m as [|[k2 v2] m IH]; simpl; [by rewrite decide_False|].
  repeat case_decide; simpl; repeat case_decide; try congruence; by apply IH.
Qed.

Lemma map_get_elem m k v : map_get m k = Some v → (k, v) ∈ m.
Proof.
  induction m as [|[k' v'] m IH]; simpl; [done|].
  case_decide; intros Hx; simplify_eq; [left|right; auto].
Qed.

Lemma map_get_Some m k v :
  NoDup (fst <$> m) → map_get m k = Some v ↔ (k, v) ∈ m.
Proof.
  intros Hnd. split; [apply map_get_elem|].
  induction m as [|[k' v'] m IH]; simpl in *; [by intros ?%elem_of_nil|].
  apply NoDup_cons in Hnd as [Hk Hnd]. rewrite elem_of_cons.
  intros [[= -> ->]|H]; [by rewrite decide_True|].
  rewrite decide_False; [auto|]. intros ->. apply Hk, list_elem_of_fmap. by exists (k, v).
Qed.

Lemma map_get_None m k : map_get m k = None ↔ k ∉ fst <$> m.
Proof.
  induction m as [|[k' v'] m IH]; simpl; [split; [intros _; apply not_elem_of_nil|done]|].
  rewrite not_elem_of_cons. case_decide; subst; [naive_solver|].
  rewrite IH. naive_solver.
Qed.

Lemma slt_sorted_NoDup (l : list string) : StronglySorted slt l → NoDup l.
Proof.
  induction 1 as [|k l _ IH Hk]; constructor; [|done].
  intros Hin. rewrite Forall_forall in Hk. by destruct (Hk k Hin).
Qed.

(** ** [eval.go]: numbers, equality, truth *)

(** What [asInt64]/[asFloat64] see of a value. *)
Definition as_num (v : value) : option num :=
  match v with
  | VInt i => Some (NInt i)
  | VFloat f => Some (NFlt f)
  | _ => None
  end.

Definition isNumeric (v : value) : bool :=
  match as_num v with Some _ => true | None => false end.

Definition tryCompareNumeric (a b : value) : option Z :=
  match as_num a, as_num b with
  | Some x, Some y => compareNum x y
  | _, _ => None
  end.

Definition truthy (v : value) : bool :=
  match v with VNil => false | VBool b => b | _ => true end.

(** [reflect.DeepEqual] where [valuesEqual] reaches it: neither operand a number
    and the first no container. *)
Definition deepEqual_scalar (a b : value) : bool :=
  match a, b with
  | VNil, VNil => true
  | VBool x, VBool y => Bool.eqb x y
  | VStr s, VStr t => (s =? t)%string
  | _, _ => false
  end.

Fixpoint valuesEqual (a b : value) {struct a} : bool :=
  match tryCompareNumeric a b with
  | Some c => c =? 0
  | None =>
      if isNumeric a || isNumeric b then false else
      match a with
      | VList av =>
          match b with
          | VList bv =>
              (fix go (av bv : list value) : bool :=
                match av, bv with
                | [], [] => true
                | x :: av, y :: bv => valuesEqual x y && go av bv
                | _, _ => false
                end) av bv
          | _ => false
          end
      | VMap av =>
          match b with
          | VMap bv =>
              (length av =? length bv)%nat &&
              (fix go (av : list (string * value)) : bool :=
                match av with
                | [] => true
                | (k, va) :: av =>
                    match map_get bv k with
                    | Some vb => valuesEqual va vb && go av
                    | None => false
                    end
                end) av
          | _ => false
          end
      | _ => deepEqual_scalar a b
      end
  end.

(** ** Specification of equality: exact JSON values *)

(** A JSON value with its numbers as exact extended rationals in lowest terms and
    its objects as finite maps. *)
Inductive jval : Type :=
  | JNil
  | JBool (b : bool)
  | JNum (x : ext)
  | JStr (s : string)
  | JList (l : list jval)
  | JMap (m : gmap string jval).

Definition ext_norm (x : ext) : ext :=
  match x with Fin q => Fin (Qred q) | _ => x end.

(** The value denoted; [None] as soon as a NaN is inside. *)
Fixpoint denote (v : value) : option jval :=
  match v with
  | VNil => Some JNil
  | VBool b => Some (JBool b)
  | VInt i => Some (JNum (ext_norm (Fin (inject_Z i))))
  | VFloat f => match num_val (NFlt f) with
                | Some x => Some (JNum (ext_norm x)) | None => None end
  | VStr s => Some (JStr s)
  | VList l =>
      match (fix go l := match l with
             | [] => Some []
             | x :: l => match denote x, go l with
                         | Some d, Some ds => Some (d :: ds) | _, _ => None end
             end) l with
      | Some ds => Some (JList ds) | None => None end
  | VMap m =>
      match (fix go m := match m with
             | [] => Some ∅
             | (k, x) :: m => match denote x, go m with
                              | Some d, Some ds => Some (<[k := d]> ds) | _, _ => None end
             end) m with
      | Some ds => Some (JMap ds) | None => None end
  end.

Definition denote_list := fix go (l : list value) : option (list jval) :=
  match l with
  | [] => Some []
  | x :: l => match denote x, go l with
              | Some d, Some ds => Some (d :: ds) | _, _ => None end
  end.
Definition denote_fields := fix go (m : list (string * value)) : option (gmap string jval) :=
  match m with
  | [] => Some ∅
  | (k, x) :: m => match denote x, go m with
                   | Some d, Some ds => Some (<[k := d]> ds) | _, _ => None end
  end.

Definition valuesEqual_list := fix go (av bv : list value) : bool :=
  match av, bv with
  | [], [] => true
  | x :: av, y :: bv => valuesEqual x y && go av bv
  | _, _ => false
  end.
Definition valuesEqual_fields (bv : list (string * value)) :=
  fix go (av : list (string * value)) : bool :=
  match av with
  | [] => true
  | (k, va) :: av => match map_get bv k with
                     | Some vb => valuesEqual va vb && go av
                     | None => false
                     end
  end.

(** ** Correctness of [valuesEqual] *)

Lemma ext_cmp_norm x y : cmp_Z (ext_cmp x y) = 0 ↔ ext_norm x = ext_norm y.
Proof.
  destruct x as [|p|], y as [|q|]; simpl; try (split; done).
  split.
  - intros H. f_equal. apply Qred_complete. destruct (Qcompare_spec p q) as [E|E|E]; done.
  - intros [= H]. assert ((p == q)%Q) as E.
    { by rewrite <-(Qred_correct p), <-(Qred_correct q), H. }
    by apply Qeq_alt in E as ->.
Qed.

Lemma num_denote v n : as_num v = Some n →
  denote v = (λ x, JNum (ext_norm x)) <$> num_val n.
Proof. destruct v; simpl; intros; simplify_eq; [done|]. by destruct f as [|[]|]. Qed.

Lemma not_num_denote v d : as_num v = None → denote v = Some d → ∀ x, d ≠ JNum x.
Proof. destruct v; simpl; intros; repeat case_match; simplify_eq; done. Qed.

Lemma denote_fields_lookup m ds k :
  denote_fields m = Some ds →
  ds !! k = match map_get m k with Some v => denote v | None => None end.
Proof.
  revert ds. induction m as [|[k' v] m IH]; simpl; intros ds Hd; [by simplify_eq|].
  destruct (denote v) as [d|] eqn:Ev; [|done].
  destruct (denote_fields m) as [ds'|]; [|done]. simplify_eq.
  case_decide; subst; [by rewrite lookup_insert_eq|].
  rewrite lookup_insert_ne by done. by apply IH.
Qed.

Lemma denote_fields_Some m ds k v :
  denote_fields m = Some ds → (k, v) ∈ m → ∃ d, denote v = Some d.
Proof.
  revert ds. induction m as [|[k' v'] m IH]; simpl; intros ds Hd Hin;
    [by apply elem_of_nil in Hin|].
  destruct (denote v') as [d|] eqn:Ev; [|done].
  destruct (denote_fields m) as [ds'|]; [|done].
  apply elem_of_cons in Hin as [[= -> ->]|Hin]; eauto.
Qed.

Lemma denote_fields_size m ds :
  NoDup (fst <$> m) → denote_fields m = Some ds → size ds = length m.
Proof.
  revert ds. induction m as [|[k v] m IH]; simpl; intros ds Hnd Hd;
    [simplify_eq; by rewrite map_size_empty|].
  apply NoDup_cons in Hnd as [Hk Hnd].
  destruct (denote v) as [d|]; [|done].
  destruct (denote_fields m) as [ds'|] eqn:Em; [|done]. simplify_eq.
  rewrite map_size_insert_None; [by rewrite (IH ds')|].
  rewrite (denote_fields_lookup _ _ _ Em). apply map_get_None in Hk. by rewrite Hk.
Qed.

Lemma wf_map_NoDup m : value_wf (VMap m) → NoDup (fst <$> m).
Proof. inversion 1; subst. by apply slt_sorted_NoDup. Qed.

Lemma valuesEqual_fields_spec av bv :
  valuesEqual_fields bv av = true ↔
  Forall (λ kv, ∃ vb, map_get bv kv.1 = Some vb ∧ valuesEqual kv.2 vb = true) av.
Proof.
  induction av as [|[k va] av IH]; simpl; [done|]. rewrite Forall_cons. simpl.
  destruct (map_get bv k) as [vb|].
  - rewrite andb_true_iff, IH. naive_solver.
  - split; [done|]. intros [(? & ? & ?) _]. done.
Qed.

Lemma valuesEqual_numeric a b x y da db :
  value_wf a → value_wf b → as_num a = Some x → as_num b = Some y →
  denote a = Some da → denote b = Some db →
  valuesEqual a b = true ↔ da = db.
Proof.
  intros Wa Wb Ha Hb Da Db. rewrite (num_denote _ _ Ha) in Da.
  rewrite (num_denote _ _ Hb) in Db.
  destruct (num_val x) as [ex|] eqn:Ex; [|done].
  destruct (num_val y) as [ey|] eqn:Ey; [|done]. simpl in *. simplify_eq.
  assert (tryCompareNumeric a b = Some (cmp_Z (ext_cmp ex ey))) as E.
  { unfold tryCompareNumeric. rewrite Ha, Hb. apply compareNum_exact; try done.
    - intros i ->. destruct a; simpl in Ha; simplify_eq. by inversion Wa.
    - intros i ->. destruct b; simpl in Hb; simplify_eq. by inversion Wb. }
  assert (valuesEqual a b = (cmp_Z (ext_cmp ex ey) =? 0)) as ->.
  { destruct a; cbn [valuesEqual]; by rewrite E. }
  rewrite Z.eqb_eq, ext_cmp_norm. split; congruence.
Qed.

Lemma valuesEqual_mixed a b da db :
  isNumeric a ≠ isNumeric b → denote a = Some da → denote b = Some db →
  valuesEqual a b = false ∧ da ≠ db.
Proof.
  intros Hne Da Db.
  assert (tryCompareNumeric a b = None) as E.
  { unfold tryCompareNumeric, isNumeric in *.
    destruct (as_num a), (as_num b); congruence. }
  assert (isNumeric a || isNumeric b = true) as E2.
  { destruct (isNumeric a), (isNumeric b); done. }
  split; [by destruct a; cbn [valuesEqual]; rewrite E, E2|].
  unfold isNumeric in Hne. intros ->.
  destruct (as_num a) as [x|] eqn:Ea, (as_num b) as [y|] eqn:Eb; try done.
  - rewrite (num_denote _ _ Ea) in Da. destruct (num_val x); [|done].
    simpl in Da. simplify_eq. by eapply not_num_denote.
  - rewrite (num_denote _ _ Eb) in Db. destruct (num_val y); [|done].
    simpl in Db. simplify_eq. by eapply not_num_denote.
Qed.

Definition equal_spec (a : value) : Prop := ∀ b da db,
  value_wf a → value_wf b → denote a = Some da → denote b = Some db →
  valuesEqual a b = true ↔ da = db.

Lemma valuesEqual_list_spec l l' ds ds' :
  Forall equal_spec l → Forall value_wf l → Forall value_wf l' →
  denote_list l = Some ds → denote_list l' = Some ds' →
  valuesEqual_list l l' = true ↔ ds = ds'.
Proof.
  intros IH. revert l' ds ds'.
  induction IH as [|x l Hx _ IH]; intros [|y l'] ds ds' Wl Wl' Dl Dl';
    simpl in *; repeat case_match; simplify_eq; try done.
  apply Forall_cons in Wl as [Wx Wl]. apply Forall_cons in Wl' as [Wy Wl'].
  rewrite andb_true_iff, (Hx y) by eauto. rewrite IH by eauto. naive_solver.
Qed.

Lemma valuesEqual_map_spec m m' ds ds' :
  Forall (λ kv, equal_spec kv.2) m → value_wf (VMap m) → value_wf (VMap m') →
  denote_fields m = Some ds → denote_fields m' = Some ds' →
  (length m =? length m')%nat && valuesEqual_fields m' m = true ↔ ds = ds'.
Proof.
  intros IH Wm Wm' Dm Dm'.
  pose proof (wf_map_NoDup _ Wm) as Nm. pose proof (wf_map_NoDup _ Wm') as Nm'.
  pose proof (denote_fields_size _ _ Nm Dm) as Sm.
  pose proof (denote_fields_size _ _ Nm' Dm') as Sm'.
  inversion Wm as [| | | | | |? Fm _]; subst. inversion Wm' as [| | | | | |? Fm' _]; subst.
  rewrite andb_true_iff, Nat.eqb_eq, valuesEqual_fields_spec.
  assert (∀ k va vb, (k, va) ∈ m → map_get m' k = Some vb →
    valuesEqual va vb = true ↔ ds !! k = ds' !! k) as Hkey.
  { intros k va vb Hin Hget.
    destruct (denote_fields_Some _ _ _ _ Dm Hin) as [da Da].
    pose proof (map_get_elem _ _ _ Hget) as Hin'.
    destruct (denote_fields_Some _ _ _ _ Dm' Hin') as [db Db].
    rewrite Forall_forall in IH, Fm, Fm'.
    rewrite (IH (k, va) Hin vb da db (Fm _ Hin) (Fm' _ Hin') Da Db).
    rewrite (denote_fields_lookup _ _ k Dm), (denote_fields_lookup _ _ k Dm').
    rewrite Hget. apply map_get_Some in Hin as ->; [|done]. rewrite Da, Db. naive_solver. }
  split.
  - intros [Hlen Hall]. rewrite Forall_forall in Hall.
    assert (ds ⊆ ds') as Hsub.
    { apply map_subseteq_spec. intros k d Hd.
      rewrite (denote_fields_lookup _ _ k Dm) in Hd.
      destruct (map_get m k) as [va|] eqn:Eg; [|done].
      pose proof (map_get_elem _ _ _ Eg) as Hin.
      destruct (Hall _ Hin) as (vb & Hvb & Heq). simpl in *.
      apply (Hkey k) in Heq; [|done|done].
      by rewrite <-Heq, (denote_fields_lookup _ _ k Dm), Eg. }
    apply (map_subseteq_size_eq); [done|lia].
  - intros ->. split; [lia|]. apply Forall_forall. intros [k va] Hin. simpl.
    destruct (denote_fields_Some _ _ _ _ Dm Hin) as [da Da].
    pose proof (denote_fields_lookup _ _ k Dm) as E1.
    pose proof (denote_fields_lookup _ _ k Dm') as E2.
    pose proof Hin as Hin2. apply map_get_Some in Hin2; [|done]. rewrite Hin2, Da in E1.
    destruct (map_get m' k) as [vb|] eqn:Eg; [|congruence].
    exists vb. split; [done|]. by apply (Hkey k va vb).
Qed.

Lemma valuesEqual_denote_aux a : equal_spec a.
Proof.
  induction a as [|b|i|f|s|l IH|m IH] using value_nested_ind; intros v da dv Wa Wv Da Dv;
    destruct v as [|b'|i'|f'|s'|l'|m'];
    try (eapply valuesEqual_numeric; done);
    try (destruct (valuesEqual_mixed _ _ _ _ ltac:(done) Da Dv); split; congruence);
    try (simpl in Da, Dv; repeat case_match; simplify_eq; split; done).
  - simpl in Da, Dv. simplify_eq. simpl. rewrite eqb_true_iff. naive_solver.
  - simpl in Da, Dv. simplify_eq. simpl. rewrite String.eqb_eq. naive_solver.
  - simpl in Da, Dv. fold denote_list in Da, Dv.
    destruct (denote_list l) as [ds|] eqn:E1; [|done].
    destruct (denote_list l') as [ds'|] eqn:E2; [|done]. simplify_eq.
    change (valuesEqual_list l l' = true ↔ JList ds = JList ds').
    inversion Wa; inversion Wv; subst.
    rewrite valuesEqual_list_spec by done. naive_solver.
  - simpl in Da, Dv. fold denote_fields in Da, Dv.
    destruct (denote_fields m) as [ds|] eqn:E1; [|done].
    destruct (denote_fields m') as [ds'|] eqn:E2; [|done]. simplify_eq.
    change ((length m =? length m')%nat && valuesEqual_fields m' m = true ↔ JMap ds = JMap ds').
    rewrite valuesEqual_map_spec by done. naive_solver.
Qed.

(** Equality of workflow values ([valuesEqual], the [==] of conditions) is
    equality of the exact JSON values: numbers by exact numeric value across
    int64 and float64, arrays element-wise, objects key-wise; in particular it is
    an equivalence relation on values without NaN. *)
Theorem valuesEqual_exact a b da db :
  value_wf a → value_wf b → denote a = Some da → denote b = Some db →
  valuesEqual a b = true ↔ da = db.
Proof. apply valuesEqual_denote_aux. Qed.

Definition two_60_float : value := VFloat (FFin false 4503599627370496 8).
Lemma valuesEqual_exact_witness :
  valuesEqual (VList [two_60_float]) (VList [VInt 1152921504606846976]) = true ∧
  (∀ da db, denote (VList [two_60_float]) = Some da →
     denote (VList [VInt 1152921504606846977]) = Some db →
     valuesEqual (VList [two_60_float]) (VList [VInt 1152921504606846977]) = true ↔ da = db).
Proof.
  split; [by vm_compute|]. intros da db Da Db. apply valuesEqual_exact; [..|done|done].
  - constructor. constructor; [|done]. constructor. vm_compute. naive_solver.
  - constructor. constructor; [|done]. constructor. split; vm_compute; discriminate.
Defined.

(** ** Rendering: [stringify] *)

Definition fmt_Z (z : Z) : string := pretty z.
Definition fmt_bool (b : bool) : string := if b then "true" else "false".

(** [json.Marshal] of a value; [None] is its error (a NaN or an infinity). *)
Fixpoint json_marshal (v : value) : option string :=
  match v with
  | VNil => Some "null"
  | VBool b => Some (fmt_bool b)
  | VInt i => Some (fmt_Z i)
  | VFloat f => json_float f
  | VStr s => Some (json_quote s)
  | VList l =>
      (λ ss, "[" +:+ (join "," ss +:+ "]")) <$>
      (fix go l := match l with
        | [] => Some []
        | x :: l => s ← json_marshal x; ss ← go l; Some (s :: ss) end) l
  | VMap m =>
      (λ ss, "{" +:+ (join "," ss +:+ "}")) <$>
      (fix go m := match m with
        | [] => Some []
        | (k, x) :: m =>
            s ← json_marshal x; ss ← go m;
            Some ((json_quote k +:+ (":" +:+ s)) :: ss) end) m
  end.

(** [fmt.Sprintf("%v", x)]. *)
Fixpoint fmt_v (v : value) : string :=
  match v with
  | VNil => "<nil>"
  | VBool b => fmt_bool b
  | VInt i => fmt_Z i
  | VFloat f => format_float_g f
  | VStr s => s
  | VList l => "[" +:+ (join " " (fmt_v <$> l) +:+ "]")
  | VMap m => "map[" +:+ (join " " ((λ kv, kv.1 +:+ (":" +:+ fmt_v kv.2)) <$> m) +:+ "]")
  end.

Definition stringify (v : value) : string :=
  match v with
  | VNil => ""
  | VStr s => s
  | VBool b => fmt_bool b
  | VInt i => fmt_Z i
  | VFloat f => format_float_g f
  | _ => match json_marshal v with Some s => s | None => fmt_v v end
  end.

Example stringify_list :
  stringify (VList [VInt 1; VBool true; VNil; two_60_float]) = "[1,true,null,1152921504606847000]".
Proof. vm_compute. reflexivity. Qed.
