(* ===== verification/JsonText.v ===== *)
(** * Unambiguity of encoded text

    The spelling [encoding/json] gives a valid UTF-8 string is self-delimiting:
    after it, any text can follow, and both can be told apart.  So texts built of
    fixed parts, quoted strings and decimal integers determine their parts; the
    digests and chains of the program rest on this. *)

From S2P Require Import Prelude GoNum GoText Value.

Local Open Scope N_scope.

(** ** Quoted strings *)

(** The rune an encoded text starts with. *)
Definition hex_value (c : ascii) : N :=
  let b := N_of_ascii c in if b <? 58 then b - 48 else b - 87.

Definition unescape (l : chars) : option (chars * chars) :=
  match l with
  | c :: l1 =>
      if N_of_ascii c =? 92 then
        match l1 with
        | [] => None
        | d :: l2 =>
            let k := N_of_ascii d in
            if (k =? 92) || (k =? 34) then Some ([d], l2)
            else if k =? 98 then Some (bytes [8], l2)
            else if k =? 102 then Some (bytes [12], l2)
            else if k =? 110 then Some (bytes [10], l2)
            else if k =? 114 then Some (bytes [13], l2)
            else if k =? 116 then Some (bytes [9], l2)
            else match l2 with
            | h1 :: h2 :: h3 :: h4 :: l3 =>
                if hex_value h1 =? 2 then
                  Some (if hex_value h4 =? 8 then bytes [0xE2; 0x80; 0xA8]
                        else bytes [0xE2; 0x80; 0xA9], l3)
                else Some ([ascii_of_N (16 * hex_value h3 + hex_value h4)], l3)
            | _ => None
            end
        end
      else decode_rune l
  | [] => None
  end.

Lemma unescape_ascii c rest :
  N_of_ascii c < 128 → unescape (json_escape_ascii c ++ rest) = Some ([c], rest).
Proof.
  destruct c as [[] [] [] [] [] [] [] []]; intros H; try (exfalso; vm_compute in H; discriminate);
    vm_compute; reflexivity.
Qed.

Lemma decode_rune_single c : decode_rune [c] = Some ([c], []) → N_of_ascii c < 128.
Proof. destruct c as [[] [] [] [] [] [] [] []]; vm_compute; intros [=]; reflexivity. Qed.

Lemma decode_rune_head b r rest :
  decode_rune (b :: r ++ rest) = Some (b :: r, rest) → r ≠ [] →
  (N_of_ascii b =? 92) = false ∧ (N_of_ascii b =? 34) = false.
Proof.
  intros H Hr. unfold decode_rune in H.
  destruct b as [[] [] [] [] [] [] [] []]; try (vm_compute; split; reflexivity);
    cbn in H; injection H as <-; done.
Qed.

Lemma unescape_rune r rest :
  r ≠ [] → (∀ rest, decode_rune (r ++ rest) = Some (r, rest)) →
  unescape (json_escape_rune (inl r) ++ rest) = Some (r, rest).
Proof.
  intros Hne Hd. destruct r as [|b [|b2 r]]; [done| |].
  - apply unescape_ascii. specialize (Hd []). by apply decode_rune_single in Hd.
  - cbn [json_escape_rune].
    destruct (decide (b :: b2 :: r = bytes [0xE2; 0x80; 0xA8])) as [->|]; [reflexivity|].
    destruct (decide (b :: b2 :: r = bytes [0xE2; 0x80; 0xA9])) as [->|]; [reflexivity|].
    cbn [app unescape].
      destruct (decode_rune_head b (b2 :: r) rest (Hd rest)) as [-> _]; [done|]. apply Hd.
Qed.

(** An escaped rune never starts with the closing quote. *)
Lemma escape_rune_head r :
  r ≠ [] → (∀ rest, decode_rune (r ++ rest) = Some (r, rest)) →
  ∃ c l, json_escape_rune (inl r) = c :: l ∧ (N_of_ascii c =? 34) = false.
Proof.
  intros Hne Hd. destruct r as [|b [|b2 r]]; [done| |].
  - clear. destruct b as [[] [] [] [] [] [] [] []]; vm_compute; eauto.
  - cbn [json_escape_rune]. repeat case_decide; [by eauto..|].
    exists b, (b2 :: r). split; [done|]. by apply (decode_rune_head b (b2 :: r) [] (Hd [])).
Qed.

Definition good_rune (r : chars) : Prop := r ≠ [] ∧ ∀ rest, decode_rune (r ++ rest) = Some (r, rest).

Lemma escaped_inj l1 l2 t1 t2 :
  Forall good_rune l1 → Forall good_rune l2 →
  concat ((λ r, json_escape_rune (inl r)) <$> l1) ++ ascii_of_N 34 :: t1 =
  concat ((λ r, json_escape_rune (inl r)) <$> l2) ++ ascii_of_N 34 :: t2 →
  l1 = l2 ∧ t1 = t2.
Proof.
  intros H1. revert l2. induction H1 as [|r1 l1 [Hn1 Hd1] _ IH]; intros l2 H2.
  - destruct H2 as [|r2 l2 [Hn2 Hd2] _]; [by intros [= ->]|].
    destruct (escape_rune_head r2 Hn2 Hd2) as (c & l & E & Hc).
    rewrite fmap_cons. cbn [concat]. rewrite E. intros [= <- _]. done.
  - destruct H2 as [|r2 l2 [Hn2 Hd2] H2].
    + destruct (escape_rune_head r1 Hn1 Hd1) as (c & l & E & Hc).
      rewrite fmap_cons. cbn [concat]. rewrite E. intros [= -> _]. done.
    + rewrite !fmap_cons. cbn [concat]. rewrite <-!app_assoc. intros H.
      assert (Some (r1, concat ((λ r, json_escape_rune (inl r)) <$> l1) ++ ascii_of_N 34 :: t1) =
              Some (r2, concat ((λ r, json_escape_rune (inl r)) <$> l2) ++ ascii_of_N 34 :: t2)) as E.
      { rewrite <-(unescape_rune r1), <-(unescape_rune r2), H by done. done. }
      injection E as -> E. apply IH in E as [-> ->]; done.
Qed.

(** The runes of a valid string. *)
Lemma valid_runes s :
  valid_utf8 s = true →
  ∃ rs, runes (String.list_ascii_of_string s) = inl <$> rs ∧ Forall good_rune rs ∧
    concat rs = String.list_ascii_of_string s.
Proof.
  unfold valid_utf8. set (l := String.list_ascii_of_string s). intros Hv.
  assert (∃ rs, runes l = inl <$> rs) as [rs Hrs].
  { revert Hv. generalize (runes l). intros q. induction q as [|[r|b] q IH]; simpl; [by exists []| |done].
    intros [rs ->]%IH. by exists (r :: rs). }
  exists rs. split; [done|]. split.
  - apply Forall_forall. intros r Hr. apply (runes_go_good (length l) l). fold (runes l).
    rewrite Hrs. by apply list_elem_of_fmap_2.
  - rewrite <-(runes_go_concat (length l) l) by done. fold (runes l). rewrite Hrs.
    rewrite <-list_fmap_compose. f_equal. symmetry. apply list_fmap_id.
Qed.

Lemma json_quote_chars_inj s1 s2 t1 t2 :
  valid_utf8 s1 = true → valid_utf8 s2 = true →
  json_quote_chars (String.list_ascii_of_string s1) ++ t1 =
  json_quote_chars (String.list_ascii_of_string s2) ++ t2 → s1 = s2 ∧ t1 = t2.
Proof.
  intros (r1 & E1 & G1 & C1)%valid_runes (r2 & E2 & G2 & C2)%valid_runes.
  unfold json_quote_chars. rewrite E1, E2, <-!list_fmap_compose. cbn [app].
  rewrite <-!app_assoc. cbn [app]. intros [= H]. apply escaped_inj in H as [-> ->]; [|done..].
  split; [|done]. rewrite <-(String.string_of_list_ascii_of_string s1), <-C1, C2.
  apply String.string_of_list_ascii_of_string.
Qed.

Lemma list_ascii_of_app s t :
  String.list_ascii_of_string (s +:+ t) = String.list_ascii_of_string s ++ String.list_ascii_of_string t.
Proof. induction s as [|c s IH]; [done|]. rewrite string_app_cons. simpl. by rewrite IH. Qed.

Lemma list_ascii_of_inj s t :
  String.list_ascii_of_string s = String.list_ascii_of_string t → s = t.
Proof.
  intros H. rewrite <-(String.string_of_list_ascii_of_string s), H.
  apply String.string_of_list_ascii_of_string.
Qed.

Lemma json_quote_inj s1 s2 t1 t2 :
  valid_utf8 s1 = true → valid_utf8 s2 = true →
  json_quote s1 +:+ t1 = json_quote s2 +:+ t2 → s1 = s2 ∧ t1 = t2.
Proof.
  intros H1 H2 H%(f_equal String.list_ascii_of_string). unfold json_quote in H.
  rewrite !list_ascii_of_app, !String.list_ascii_of_string_of_list_ascii in H.
  apply json_quote_chars_inj in H as [-> H]; [|done..]. by apply list_ascii_of_inj in H.
Qed.

Lemma string_app_inv_head (s t1 t2 : string) : s +:+ t1 = s +:+ t2 → t1 = t2.
Proof. induction s as [|c s IH]; [done|]. rewrite !string_app_cons. intros [=]. by apply IH. Qed.

(** ** Decimal integers *)

Lemma fmt_Z_no_byte c z : is_digit c = false → c ≠ "-"%char → str_contains_byte c (fmt_Z z) = false.
Proof.
  intros Hc Hm. unfold fmt_Z, pretty, pretty_Z. destruct z as [|p|p].
  - simpl. rewrite bool_decide_false; [done|]. intros E. by subst.
  - apply (str_forall_contains is_digit); [done|].
    pose proof (pretty_nat_digits (Pos.to_nat p)) as H. unfold pretty, pretty_nat, pretty in H.
    by rewrite positive_nat_N in H.
  - rewrite string_app_cons. simpl. rewrite bool_decide_false by congruence. simpl.
    apply (str_forall_contains is_digit); [done|].
    pose proof (pretty_nat_digits (Pos.to_nat p)) as H. unfold pretty, pretty_nat, pretty in H.
    by rewrite positive_nat_N in H.
Qed.

Lemma fmt_Z_inj z1 z2 c t1 t2 :
  is_digit c = false → c ≠ "-"%char →
  fmt_Z z1 +:+ String c t1 = fmt_Z z2 +:+ String c t2 → z1 = z2 ∧ t1 = t2.
Proof.
  intros Hc Hm [H ->]%split_first_inj; [|by apply fmt_Z_no_byte..].
  by apply (inj pretty) in H.
Qed.

(** ** ASCII text *)

Definition is_ascii (c : ascii) : bool := N_of_ascii c <=? 127.

Lemma valid_ascii s : str_forall is_ascii s = true → valid_utf8 s = true.
Proof.
  unfold valid_utf8, runes. intros H.
  assert (forallb is_ascii (String.list_ascii_of_string s) = true) as Hl.
  { induction s as [|c s IH]; [done|]. simpl in *. by apply andb_true_iff in H as [-> ?%IH]. }
  clear H. set (l := String.list_ascii_of_string s) in *. clearbody l.
  induction l as [|c l IH]; [done|]. cbn [forallb length] in *. apply andb_true_iff in Hl as [Hc Hl].
  cbn [runes_go]. assert (decode_rune (c :: l) = Some ([c], l)) as ->; [|by apply IH].
  unfold decode_rune, in_range. unfold is_ascii in Hc. rewrite Hc, (proj2 (N.leb_le 0 _)); [done|lia].
Qed.

Lemma str_forall_app p s t : str_forall p (s +:+ t) = str_forall p s && str_forall p t.
Proof. induction s as [|c s IH]; [done|]. rewrite string_app_cons. simpl. by rewrite IH, andb_assoc. Qed.

Lemma digits_ascii s : str_forall is_digit s = true → str_forall is_ascii s = true.
Proof.
  induction s as [|c s IH]; [done|]. simpl. rewrite !andb_true_iff. intros [Hc ?%IH]. split; [|done].
  unfold is_digit in Hc. unfold is_ascii. apply andb_true_iff in Hc as [_ Hc%N.leb_le].
  apply N.leb_le. lia.
Qed.

(** ** Digests *)

(** [hex.EncodeToString]. *)
Definition hex_encode (l : chars) : string :=
  String.string_of_list_ascii
    (l ≫= λ c, [hex_digit (N_of_ascii c / 16)%N; hex_digit (N_of_ascii c mod 16)%N]).

Lemma hex_encode_inj l1 l2 : hex_encode l1 = hex_encode l2 → l1 = l2.
Proof.
  assert (∀ c : ascii, ascii_of_N (16 * hex_value (hex_digit (N_of_ascii c / 16)) +
    hex_value (hex_digit (N_of_ascii c mod 16))) = c) as Hd.
  { intros [[] [] [] [] [] [] [] []]; vm_compute; reflexivity. }
  unfold hex_encode. intros H%(f_equal String.list_ascii_of_string).
  rewrite !String.list_ascii_of_string_of_list_ascii in H.
  revert l2 H. induction l1 as [|c1 l1 IH]; intros [|c2 l2]; cbn; try done.
  intros [= H1 H2 H3]. rewrite (IH l2 H3), <-(Hd c1), <-(Hd c2), H1, H2. done.
Qed.

(** SHA-256 is a parameter. *)
Section digest.
Context (sha256 : chars → chars).

Definition hashHex (s : string) : string := hex_encode (sha256 (String.list_ascii_of_string s)).
Definition collision : Prop := ∃ x y, x ≠ y ∧ sha256 x = sha256 y.

Lemma hashHex_inj s t : hashHex s = hashHex t → s = t ∨ collision.
Proof.
  intros H%hex_encode_inj. destruct (decide (s = t)) as [|Hne]; [by left|]. right.
  exists (String.list_ascii_of_string s), (String.list_ascii_of_string t). split; [|done].
  by intros ?%list_ascii_of_inj.
Qed.
End digest.
