(* ===== verification/GoQuote.v ===== *)
(** * The Go syntax of strings ([strconv.Quote])

    Every rune is written as itself, if it is printable, or as an escape.  Which
    runes outside ASCII are printable is a table of the library, a parameter here:
    the quoted text is self-delimiting and determines the string for any table. *)

From S2P Require Import Prelude GoNum GoText Value JsonText.

Local Open Scope N_scope.

(** ** Hexadecimal digits *)

Fixpoint hex_fixed (w : nat) (n : N) : chars :=
  match w with
  | O => []
  | S w => hex_digit (n / 16 ^ N.of_nat w) :: hex_fixed w (n mod 16 ^ N.of_nat w)
  end.

Fixpoint parse_hex (w : nat) (acc : N) (l : chars) : option (N * chars) :=
  match w with
  | O => Some (acc, l)
  | S w => match l with c :: l => parse_hex w (acc * 16 + hex_value c) l | [] => None end
  end.

Lemma hex_value_digit d : d < 16 → hex_value (hex_digit d) = d.
Proof.
  intros Hd. assert (d = 0 ∨ d = 1 ∨ d = 2 ∨ d = 3 ∨ d = 4 ∨ d = 5 ∨ d = 6 ∨ d = 7 ∨ d = 8 ∨ d = 9 ∨
    d = 10 ∨ d = 11 ∨ d = 12 ∨ d = 13 ∨ d = 14 ∨ d = 15) as Hc by lia.
  by repeat destruct Hc as [->|Hc]; [..|subst d].
Qed.

Lemma parse_hex_fixed w acc n rest :
  n < 16 ^ N.of_nat w → parse_hex w acc (hex_fixed w n ++ rest) = Some (acc * 16 ^ N.of_nat w + n, rest).
Proof.
  revert acc n. induction w as [|w IH]; intros acc n Hn; cbn [parse_hex hex_fixed app].
  - change (N.of_nat 0) with 0 in *. rewrite N.pow_0_r in *. do 2 f_equal. lia.
  - rewrite Nat2N.inj_succ, N.pow_succ_r' in *. set (k := 16 ^ N.of_nat w) in *.
    assert (k ≠ 0) by (by apply N.pow_nonzero). rewrite hex_value_digit by (apply N.Div0.div_lt_upper_bound; lia).
    rewrite IH by (by apply N.mod_lt). do 2 f_equal. pose proof (N.div_mod n k). lia.
Qed.

(** ** Runes *)

(** The code point of an encoded rune. *)
Definition rune_value (r : chars) : N :=
  match r with
  | [a] => N_of_ascii a
  | [a; b] => (N_of_ascii a - 192) * 64 + (N_of_ascii b - 128)
  | [a; b; c] => (N_of_ascii a - 224) * 4096 + (N_of_ascii b - 128) * 64 + (N_of_ascii c - 128)
  | [a; b; c; d] =>
      (N_of_ascii a - 240) * 262144 + (N_of_ascii b - 128) * 4096 + (N_of_ascii c - 128) * 64 + (N_of_ascii d - 128)
  | _ => 0
  end.

Definition backslash : ascii := ascii_of_N 92.

(** [appendEscapedRune] on an ASCII byte. *)
Definition quote_ascii (c : ascii) : chars :=
  let b := N_of_ascii c in
  if (b =? 34) || (b =? 92) then [backslash; c]
  else if (32 <=? b) && (b <? 127) then [c]
  else if b =? 7 then [backslash; "a"%char]
  else if b =? 8 then [backslash; "b"%char]
  else if b =? 12 then [backslash; "f"%char]
  else if b =? 10 then [backslash; "n"%char]
  else if b =? 13 then [backslash; "r"%char]
  else if b =? 9 then [backslash; "t"%char]
  else if b =? 11 then [backslash; "v"%char]
  else backslash :: "x"%char :: hex_fixed 2 b.

Section quote.
Context (is_print : chars → bool).

Definition quote_rune (r : chars + ascii) : chars :=
  match r with
  | inr b => backslash :: "x"%char :: hex_fixed 2 (N_of_ascii b)
  | inl [c] => quote_ascii c
  | inl r =>
      if is_print r then r
      else let n := rune_value r in
           if n <? 65536 then backslash :: "u"%char :: hex_fixed 4 n
           else backslash :: "U"%char :: hex_fixed 8 n
  end.

Definition quote_chars (l : chars) : chars :=
  ascii_of_N 34 :: concat (quote_rune <$> runes l) ++ [ascii_of_N 34].
Definition Quote (s : string) : string :=
  String.string_of_list_ascii (quote_chars (String.list_ascii_of_string s)).

(** ** Reading a quoted text back *)

Inductive token := TRune (r : chars) | TByte (n : N) | TPoint (n : N).

Definition unquote (l : chars) : option (token * chars) :=
  match l with
  | c :: l1 =>
      if N_of_ascii c =? 34 then None
      else if N_of_ascii c =? 92 then
        match l1 with
        | [] => None
        | d :: l2 =>
            let k := N_of_ascii d in
            let one n := Some (TRune [ascii_of_N n], l2) in
            if k =? 120 then (λ '(n, l), (TByte n, l)) <$> parse_hex 2 0 l2
            else if k =? 117 then (λ '(n, l), (TPoint n, l)) <$> parse_hex 4 0 l2
            else if k =? 85 then (λ '(n, l), (TPoint n, l)) <$> parse_hex 8 0 l2
            else if k =? 97 then one 7 else if k =? 98 then one 8 else if k =? 102 then one 12
            else if k =? 110 then one 10 else if k =? 114 then one 13 else if k =? 116 then one 9
            else if k =? 118 then one 11 else one k
        end
      else (λ '(r, l), (TRune r, l)) <$> decode_rune l
  | [] => None
  end.

(** The token of a rune. *)
Definition rune_token (r : chars + ascii) : token :=
  match r with
  | inr b => TByte (N_of_ascii b)
  | inl [c] =>
      let b := N_of_ascii c in
      if (b <? 7) || (14 <=? b) && (b <? 32) || (b =? 127) then TByte b else TRune [c]
  | inl r => if is_print r then TRune r else TPoint (rune_value r)
  end.

(** A rune of a string: an encoding, or a byte that starts none. *)
Definition good (r : chars + ascii) : Prop :=
  match r with inl r => good_rune r | inr b => 128 <= N_of_ascii b end.

Lemma unquote_ascii c rest :
  N_of_ascii c < 128 → unquote (quote_ascii c ++ rest) = Some (rune_token (inl [c]), rest).
Proof.
  destruct c as [[] [] [] [] [] [] [] []]; intros H; try (exfalso; vm_compute in H; discriminate);
    vm_compute; reflexivity.
Qed.

Definition cont (c : ascii) : Prop := 128 <= N_of_ascii c <= 191.

Lemma in_range_true lo hi c : in_range lo hi c = true → lo <= N_of_ascii c <= hi.
Proof. unfold in_range. rewrite andb_true_iff, !N.leb_le. done. Qed.

(** The forms of an encoded rune. *)
Lemma good_shape r : good_rune r →
  match r with
  | [a] => N_of_ascii a < 128
  | [a; b] => 194 <= N_of_ascii a <= 223 ∧ cont b
  | [a; b; c] => 224 <= N_of_ascii a <= 239 ∧ cont b ∧ cont c ∧ (N_of_ascii a = 224 → 160 <= N_of_ascii b)
  | [a; b; c; d] => 240 <= N_of_ascii a <= 244 ∧ cont b ∧ cont c ∧ cont d ∧
      (N_of_ascii a = 240 → 144 <= N_of_ascii b)
  | _ => False
  end.
Proof.
  intros [Hne Hd]. specialize (Hd []). rewrite app_nil_r in Hd. unfold decode_rune, is_cont in Hd.
  destruct r as [|a [|b [|c [|d [|e r]]]]]; [done|..]; repeat case_match; simplify_eq; bool_inv;
    repeat match goal with
    | H : in_range _ _ _ = true |- _ => apply in_range_true in H
    | H : (_ || _) = true |- _ => apply orb_true_iff in H as [H|H]
    | H : (_ && _) = true |- _ => apply andb_true_iff in H as [? ?]
    end; unfold cont; try lia.
Qed.

Ltac shape H :=
  let S := fresh "Hs" in pose proof (good_shape _ H) as S; unfold cont in S.

Lemma rune_value_bound r : good_rune r → rune_value r < 16 ^ N.of_nat 8.
Proof.
  intros H. shape H. change (16 ^ N.of_nat 8) with 4294967296.
  destruct r as [|a [|b [|c [|d [|e r]]]]]; cbn [rune_value]; try done; lia.
Qed.

Lemma rune_value_inj r1 r2 : good_rune r1 → good_rune r2 → rune_value r1 = rune_value r2 → r1 = r2.
Proof.
  intros H1 H2. shape H1. shape H2.
  assert (∀ a b : ascii, N_of_ascii a = N_of_ascii b → a = b) as Hinj.
  { intros a b E. by rewrite <-(ascii_N_embedding a), E, ascii_N_embedding. }
  destruct r1 as [|a1 [|b1 [|c1 [|d1 [|e1 r1]]]]]; try done;
    destruct r2 as [|a2 [|b2 [|c2 [|d2 [|e2 r2]]]]]; try done; cbn [rune_value]; intros E; try lia;
    repeat f_equal; apply Hinj; lia.
Qed.

Lemma unquote_rune r rest : good r → unquote (quote_rune r ++ rest) = Some (rune_token r, rest).
Proof.
  destruct r as [r|b]; intros Hg.
  - pose proof Hg as [Hne Hd]. destruct r as [|a [|b r]]; [done| |].
    + apply unquote_ascii. specialize (Hd []). by apply decode_rune_single in Hd.
    + cbn [quote_rune rune_token]. destruct (is_print (a :: b :: r)).
      * destruct (decode_rune_head a (b :: r) rest (Hd rest)) as [E92 E34]; [done|].
        cbn [app unquote]. rewrite E34, E92. specialize (Hd rest). cbn [app] in Hd. by rewrite Hd.
      * pose proof (rune_value_bound _ Hg) as Hb. destruct (N.ltb_spec (rune_value (a :: b :: r)) 65536) as [Hlt|Hge].
        -- change (unquote _) with ((λ '(n, l), (TPoint n, l)) <$> parse_hex 4 0 (hex_fixed 4 (rune_value (a :: b :: r)) ++ rest)).
           by rewrite parse_hex_fixed.
        -- change (unquote _) with ((λ '(n, l), (TPoint n, l)) <$> parse_hex 8 0 (hex_fixed 8 (rune_value (a :: b :: r)) ++ rest)).
           by rewrite parse_hex_fixed.
  - cbn [quote_rune rune_token].
    change (unquote _) with ((λ '(n, l), (TByte n, l)) <$> parse_hex 2 0 (hex_fixed 2 (N_of_ascii b) ++ rest)).
    rewrite parse_hex_fixed; [done|]. apply N_ascii_bounded.
Qed.

Lemma rune_token_inj r1 r2 : good r1 → good r2 → rune_token r1 = rune_token r2 → r1 = r2.
Proof.
  assert (∀ a b : ascii, N_of_ascii a = N_of_ascii b → a = b) as Hinj.
  { intros a b E. by rewrite <-(ascii_N_embedding a), E, ascii_N_embedding. }
  destruct r1 as [r1|b1], r2 as [r2|b2]; cbn [good]; intros H1 H2.
  - destruct r1 as [|a1 [|x1 r1]]; [by destruct H1| |]; destruct r2 as [|a2 [|x2 r2]]; try (by destruct H2);
      cbn [rune_token].
    + repeat case_match; intros [=]; subst; try done. do 2 f_equal. auto.
    + repeat case_match; intros [=]; subst.
    + repeat case_match; intros [=]; subst.
    + repeat case_match; intros [=]; subst; try done. f_equal. by apply rune_value_inj.
  - destruct r1 as [|a1 [|x1 r1]]; [by destruct H1| |]; cbn [rune_token].
    + shape H1. repeat case_match; intros [=]; lia.
    + by case_match.
  - destruct r2 as [|a2 [|x2 r2]]; [by destruct H2| |]; cbn [rune_token].
    + shape H2. repeat case_match; intros [=]; lia.
    + by case_match.
  - cbn. intros [= E]. f_equal. auto.
Qed.

Lemma quoted_inj l1 l2 t1 t2 :
  Forall good l1 → Forall good l2 →
  concat (quote_rune <$> l1) ++ ascii_of_N 34 :: t1 = concat (quote_rune <$> l2) ++ ascii_of_N 34 :: t2 →
  l1 = l2 ∧ t1 = t2.
Proof.
  assert (∀ t, unquote (ascii_of_N 34 :: t) = None) as Hend by done.
  intros H1. revert l2. induction H1 as [|r1 l1 G1 _ IH]; intros l2 H2.
  - destruct H2 as [|r2 l2 G2 _]; [by intros [= ->]|]. rewrite fmap_cons. cbn [concat]. rewrite <-app_assoc.
    intros E%(f_equal unquote). cbn [concat fmap list_fmap app] in E. by rewrite Hend, unquote_rune in E.
  - destruct H2 as [|r2 l2 G2 H2]; rewrite !fmap_cons; cbn [concat]; rewrite <-!app_assoc.
    + intros E%(f_equal unquote). by rewrite unquote_rune in E.
    + intros E%(f_equal unquote). rewrite !unquote_rune in E by done. injection E as Et E.
      apply rune_token_inj in Et as ->; [|done..]. apply IH in E as [-> ->]; done.
Qed.

Lemma runes_good l : Forall good (runes l).
Proof.
  unfold runes. generalize (length l). intros fuel. revert l.
  induction fuel as [|fuel IH]; intros [|b l]; try constructor; cbn [runes_go].
  destruct (decode_rune (b :: l)) as [[r rest]|] eqn:E; constructor; try apply IH.
  - split; [by eapply decode_rune_ne|]. intros rest'. by eapply decode_rune_prefix.
  - cbn [good]. unfold decode_rune in E. destruct (in_range 0 127 b) eqn:Eb; [done|].
    unfold in_range in Eb. apply andb_false_iff in Eb as [Eb|Eb]; apply N.leb_gt in Eb; lia.
Qed.

(** A quoted string is self-delimiting. *)
Lemma Quote_inj s1 s2 t1 t2 : Quote s1 +:+ t1 = Quote s2 +:+ t2 → s1 = s2 ∧ t1 = t2.
Proof.
  intros H%(f_equal String.list_ascii_of_string). unfold Quote, quote_chars in H.
  rewrite !list_ascii_of_app, !String.list_ascii_of_string_of_list_ascii in H. cbn [app] in H.
  rewrite <-!app_assoc in H. cbn [app] in H. injection H as H.
  apply quoted_inj in H as [Hr Ht%list_ascii_of_inj]; [|apply runes_good..]. split; [|done].
  apply list_ascii_of_inj. rewrite <-(runes_go_concat (length (String.list_ascii_of_string s1)) (String.list_ascii_of_string s1)) by done.
  rewrite <-(runes_go_concat (length (String.list_ascii_of_string s2)) (String.list_ascii_of_string s2)) by done.
  change (concat ((λ r, match r with inl r => r | inr b => [b] end) <$> runes (String.list_ascii_of_string s1)) =
    concat ((λ r, match r with inl r => r | inr b => [b] end) <$> runes (String.list_ascii_of_string s2))).
  by rewrite Hr.
Qed.
End quote.

Example quote_tab : Quote (λ _, true) (String "a" (String (ascii_of_N 9) (String (ascii_of_N 34) "é"))) =
  String (ascii_of_N 34) ("a\t\" +:+ (String (ascii_of_N 34) ("é" +:+ String (ascii_of_N 34) ""))).
Proof. vm_compute. reflexivity. Qed.
