(* ===== verification/JsonNum.v ===== *)
(** * The canonical number model ([internal/jsonnum/jsonnum.go])

    [Canonical] brings every value that enters durable state into one form.  The
    file models it on JSON values ([FromNumber] on the literals a decoder sees,
    [roundTrip] as marshal-then-decode of a value) and proves that canonical
    values are fixed points of it. *)

From S2P Require Import Prelude GoNum GoText Value.

Local Open Scope Z_scope.

(** ** Number literals *)

(** A JSON number literal: a plain integer, or one with a fraction or exponent,
    worth [d * 10^p]. *)
Inductive literal : Type :=
  | LInt (neg : bool) (n : N)
  | LDec (neg : bool) (d : N) (p : Z).

Inductive jerr : Type :=
  | JTooDeep            (* nests deeper than MaxDepth *)
  | JNoEncoding         (* NaN or an infinity *)
  | JRange              (* a literal outside float64 *)
  | JDecodeDepth.       (* encoding/json's own nesting limit *)

#[export] Instance jerr_eq_dec : EqDecision jerr.
Proof. solve_decision. Defined.

Definition two63 : f64 := f64_of_int 9223372036854775808.
Definition minus_two63 : f64 := f64_of_int (-9223372036854775808).

Definition canonicalFloat (f : f64) : value :=
  if negb (f64_eqb f (f64_trunc f)) || f64_leb f minus_two63 || f64_geb f two63
  then VFloat f else VInt (f64_to_int f).

Definition parse_float (neg : bool) (d : N) (p : Z) : res jerr f64 :=
  match dec_to_f64 neg d p with
  | FInf _ | FNaN => Err JRange
  | f => Ok f
  end.

Definition FromNumber (l : literal) : res jerr value :=
  match l with
  | LInt neg n =>
      let z := signed neg n in
      if (min_int <=? z) && (z <=? max_int) then Ok (VInt z)
      else VFloat <$> parse_float neg n 0
  | LDec neg d p => canonicalFloat <$> parse_float neg d p
  end.

(** The literal [json.Marshal] writes for a float64 (its shortest digits). *)
Definition float_literal (f : f64) : res jerr literal :=
  match f with
  | FNaN | FInf _ => Err JNoEncoding
  | FFin neg m e =>
      let '(d, p) := shortest neg m e in
      if json_uses_e d p || (p <? 0) then Ok (LDec neg d p)
      else Ok (LInt neg (d * 10 ^ Z.to_N p)%N)
  end.

(** ** [Canonical] *)

Definition encodingJSONMaxDepth : Z := 10000.
Definition checkpointEnvelopeReserve : Z := 1000.
Definition MaxDepth : Z := encodingJSONMaxDepth - checkpointEnvelopeReserve.

Fixpoint nesting (v : value) : Z :=
  match v with
  | VList l => 1 + (fix go l := match l with [] => 0 | x :: l => Z.max (nesting x) (go l) end) l
  | VMap m => 1 + (fix go m := match m with [] => 0 | (_, x) :: m => Z.max (nesting x) (go m) end) m
  | _ => 0
  end.

(** [json.Marshal] then [Unmarshal]: strings and keys lose their invalid bytes,
    numbers are read back from their spelling, later equal keys win. *)
Fixpoint respell (v : value) : res jerr value :=
  match v with
  | VNil => Ok VNil
  | VBool b => Ok (VBool b)
  | VInt i => Ok (VInt i)
  | VFloat f => l ← float_literal f; FromNumber l
  | VStr s => Ok (VStr (to_valid_utf8 s))
  | VList l =>
      VList <$> (fix go l := match l with
        | [] => Ok []
        | x :: l => y ← respell x; ys ← go l; mret (y :: ys) end) l
  | VMap m =>
      (λ kvs, VMap (map_of_list kvs)) <$> (fix go m := match m with
        | [] => Ok []
        | (k, x) :: m => y ← respell x; ys ← go m; mret ((to_valid_utf8 k, y) :: ys) end) m
  end.

Definition roundTrip (v : value) (depth : Z) : res jerr value :=
  out ← respell v;
  if encodingJSONMaxDepth <? nesting out then Err JDecodeDepth
  else if MaxDepth - depth <? nesting out then Err JTooDeep
  else Ok out.

Fixpoint canonical (v : value) (depth : Z) : res jerr value :=
  match v with
  | VNil => Ok VNil
  | VBool b => Ok (VBool b)
  | VStr s => if valid_utf8 s then Ok (VStr s) else roundTrip v depth
  | VInt i => Ok (VInt i)
  | VFloat f =>
      match f with FFin _ _ _ => Ok (canonicalFloat f) | _ => roundTrip v depth end
  | VMap m =>
      if MaxDepth <=? depth then Err JTooDeep
      else if forallb (λ kv, valid_utf8 kv.1) m then
        VMap <$> (fix go m := match m with
          | [] => Ok []
          | (k, x) :: m => c ← canonical x (depth + 1); cs ← go m; mret ((k, c) :: cs) end) m
      else roundTrip v depth
  | VList l =>
      if MaxDepth <=? depth then Err JTooDeep
      else VList <$> (fix go l := match l with
        | [] => Ok []
        | x :: l => c ← canonical x (depth + 1); cs ← go l; mret (c :: cs) end) l
  end.

Definition Canonical (v : value) : res jerr value := canonical v 0.

Definition CanonicalMap (m : option (list (string * value)))
    : res jerr (option (list (string * value))) :=
  match m with
  | None => Ok None
  | Some m => c ← Canonical (VMap m); mret (match c with VMap m => Some m | _ => None end)
  end.

(** ** Canonical values *)

(** What [Canonical] produces: valid UTF-8, finite floats that no int64 equals,
    at most [n] containers deep. *)
Inductive canon : Z → value → Prop :=
  | canon_nil n : canon n VNil
  | canon_bool n b : canon n (VBool b)
  | canon_int n i : canon n (VInt i)
  | canon_float n s m e :
      canonicalFloat (FFin s m e) = VFloat (FFin s m e) → canon n (VFloat (FFin s m e))
  | canon_str n s : valid_utf8 s = true → canon n (VStr s)
  | canon_list n l : 0 < n → Forall (canon (n - 1)) l → canon n (VList l)
  | canon_map n m : 0 < n → Forall (λ kv, valid_utf8 kv.1 = true ∧ canon (n - 1) kv.2) m →
      canon n (VMap m).

Lemma canonicalFloat_canon n s m e : canon n (canonicalFloat (FFin s m e)).
Proof.
  destruct (canonicalFloat (FFin s m e)) eqn:E; unfold canonicalFloat in E;
    case_match; simplify_eq; [constructor|].
  constructor. unfold canonicalFloat. by case_match.
Qed.

Lemma big_float_bound (m : N) e : (2 ^ 52 <= m)%N → 11 <= e → 2 ^ 63 <= Z.of_N m * 2 ^ e.
Proof.
  intros Hm He. assert (2 ^ 52 <= Z.of_N m) as Hm'.
  { change (2 ^ 52) with (Z.of_N (2 ^ 52)). lia. }
  assert (2 ^ 11 <= 2 ^ e) as He' by (apply Z.pow_le_mono_r; lia).
  change (2 ^ 63) with (2 ^ 52 * 2 ^ 11). apply Z.mul_le_mono_nonneg; lia.
Qed.

Lemma canonicalFloat_big s m e :
  (2 ^ 52 <= m)%N → 11 <= e → canonicalFloat (FFin s m e) = VFloat (FFin s m e).
Proof.
  intros Hm He. pose proof (big_float_bound m e Hm He) as Hb.
  unfold canonicalFloat.
  assert (f64_leb (FFin s m e) minus_two63 || f64_geb (FFin s m e) two63 = true) as Hle.
  { unfold f64_leb, f64_geb, minus_two63, two63, f64_of_int. simpl f64_cmp. unfold scaled_cmp.
    replace (Z.min 0 e) with 0 by lia. replace (Z.min e 0) with 0 by lia.
    change (2 ^ (0 - 0)) with 1. rewrite Z.sub_0_r.
    change (2 ^ 63) with 9223372036854775808 in Hb.
    apply orb_true_iff. destruct s; [left|right]; unfold signed;
      destruct (Z.compare_spec (- (9223372036854775808) * 1) (- Z.of_N m * 2 ^ e)),
        (Z.compare_spec (Z.of_N m * 2 ^ e) (9223372036854775808 * 1)); try done; lia. }
  by rewrite <-orb_assoc, Hle, orb_true_r.
Qed.

(** Whatever a decoded literal becomes is canonical. *)
Lemma FromNumber_canon n l v : FromNumber l = Ok v → canon n v.
Proof.
  unfold FromNumber, parse_float. destruct l as [neg i|neg d p].
  - destruct ((min_int <=? signed neg i) && (signed neg i <=? max_int)) eqn:E;
      [intros [= <-]; constructor|].
    unfold dec_to_f64, dec_frac. simpl. rewrite N.mul_1_r.
    assert (2 ^ 63 <= i)%N as Hi.
    { apply andb_false_iff in E. unfold signed, min_int, max_int in E.
      change (2 ^ 63)%N with 9223372036854775808%N.
      destruct neg, E as [E|E]; apply Z.leb_gt in E; lia. }
    destruct (f64_round_ge_two63 neg i Hi) as [->|(m & e & -> & Hm & He)]; simpl; [done|].
    intros [= <-]. constructor. by apply canonicalFloat_big.
  - destruct (dec_to_f64 neg d p); simpl; intros [= <-]. apply canonicalFloat_canon.
Qed.

Lemma canon_weaken n n' v : n <= n' → canon n v → canon n' v.
Proof.
  revert n n'. induction v as [| | | | |l IH|m IH] using value_nested_ind;
    intros n n' Hn; inversion 1; subst; constructor; try done; try lia.
  - rewrite Forall_forall in *. intros x Hx. apply (IH x Hx (n - 1)); [lia|auto].
  - rewrite Forall_forall in *. intros x Hx. destruct (H3 x Hx). split; [done|].
    by apply (IH x Hx (n - 1)); [lia|].
Qed.

Lemma map_set_Forall (P : string * value → Prop) m k v :
  P (k, v) → Forall P m → Forall P (map_set m k v).
Proof.
  intros Hkv. induction 1 as [|[k' v'] m Hm Hms IH]; simpl; [by constructor|].
  repeat case_decide; repeat constructor; done.
Qed.

Lemma map_of_list_Forall (P : string * value → Prop) l : Forall P l → Forall P (map_of_list l).
Proof.
  unfold map_of_list. intros Hl. assert (Forall P []) as H0 by constructor.
  revert H0. generalize (@nil (string * value)). induction Hl as [|[k v] l Hk _ IH];
    intros acc Hacc; simpl; [done|]. apply IH. by apply map_set_Forall.
Qed.

Lemma nesting_nonneg v : 0 <= nesting v.
Proof.
  induction v as [| | | | |l IH|m IH] using value_nested_ind; simpl; try lia.
  - induction IH; lia.
  - induction IH as [|[] ? ? ?]; simpl in *; lia.
Qed.

Lemma nesting_list l n : nesting (VList l) <= n → 0 < n ∧ Forall (λ x, nesting x <= n - 1) l.
Proof.
  simpl. set (go := fix go l := match l with [] => 0 | x :: l => Z.max (nesting x) (go l) end).
  assert (∀ l, 0 <= go l ∧ Forall (λ x, nesting x <= go l) l) as Hgo.
  { clear. induction l as [|x l [IH1 IH2]]; simpl; [by split|].
    split; [lia|]. constructor; [lia|]. eapply Forall_impl; [done|]. simpl. lia. }
  destruct (Hgo l) as [H1 H2]. intros Hn. split; [lia|].
  eapply Forall_impl; [done|]. simpl. lia.
Qed.

Lemma nesting_map m n :
  nesting (VMap m) <= n → 0 < n ∧ Forall (λ kv, nesting kv.2 <= n - 1) m.
Proof.
  simpl. set (go := fix go m := match m with
    [] => 0 | (_, x) :: m => Z.max (nesting x) (go m) end).
  assert (∀ m : list (string * value), 0 <= go m ∧ Forall (λ kv, nesting kv.2 <= go m) m) as Hgo.
  { clear. induction m as [|[k x] m [IH1 IH2]]; simpl; [by split|].
    split; [lia|]. constructor; [simpl; lia|]. eapply Forall_impl; [done|]. simpl. lia. }
  destruct (Hgo m) as [H1 H2]. intros Hn. split; [lia|].
  eapply Forall_impl; [done|]. simpl. lia.
Qed.

(** The loops of the two traversals over containers. *)
Abbreviation trav_list := (@res_traverse jerr value value).
Definition trav_map (g : string → string) (f : value → res jerr value) :=
  fix go (m : list (string * value)) :=
  match m with
  | [] => Ok []
  | (k, x) :: m => y ← f x; ys ← go m; mret ((g k, y) :: ys)
  end : res jerr (list (string * value)).

Lemma trav_map_Forall2 g f m ys :
  trav_map g f m = Ok ys → Forall2 (λ kx ky, ky.1 = g kx.1 ∧ f kx.2 = Ok ky.2) m ys.
Proof.
  revert ys. induction m as [|[k x] m IH]; intros ys H; simpl in H; res_inv; subst;
    constructor; auto.
Qed.

Lemma trav_list_id f l : Forall (λ x, f x = Ok x) l → trav_list f l = Ok l.
Proof. intros H. apply res_traverse_Forall2. induction H; by constructor. Qed.

Lemma trav_map_id f m : Forall (λ kv, f kv.2 = Ok kv.2) m → trav_map (λ k, k) f m = Ok m.
Proof. induction 1 as [|[k x] m Hx _ IH]; simpl in *; [done|]. by rewrite Hx, IH. Qed.

(** A decoded document that is not too deep is canonical. *)
Lemma respell_canon v out n : respell v = Ok out → nesting out <= n → canon n out.
Proof.
  revert out n. induction v as [|b|i|f|s|l IH|m IH] using value_nested_ind;
    intros out n H Hn; simpl in H; try (res_inv; subst; constructor; done).
  - res_inv. by eapply FromNumber_canon.
  - injection H as <-. constructor. apply to_valid_utf8_valid.
  - change (VList <$> trav_list respell l = Ok out) in H.
    destruct (trav_list respell l) as [ys|] eqn:E; simpl in H; [|done]. injection H as <-.
    apply res_traverse_Forall2 in E. apply nesting_list in Hn as [Hn Hys].
    constructor; [done|]. revert IH Hys.
    induction E as [|x y l ys Hxy _ IHE]; intros IH Hys; [constructor|].
    apply Forall_cons in IH as [IHx IH]. apply Forall_cons in Hys as [Hy Hys].
    constructor; [by apply IHx|auto].
  - change ((λ kvs, VMap (map_of_list kvs)) <$> trav_map to_valid_utf8 respell m = Ok out) in H.
    destruct (trav_map to_valid_utf8 respell m) as [ys|] eqn:E; simpl in H; [|done].
    injection H as <-. apply nesting_map in Hn as [Hn Hys].
    constructor; [done|].
    (* every field of the result is a respelled field *)
    assert (Forall (λ ky, ∃ kx, kx ∈ m ∧ valid_utf8 ky.1 = true ∧ respell kx.2 = Ok ky.2)
      (map_of_list ys)) as Hall.
    { apply map_of_list_Forall. apply trav_map_Forall2 in E. apply Forall_forall. intros ky Hky.
      apply list_elem_of_lookup in Hky as [j Hj].
      destruct (Forall2_lookup_r _ _ _ _ _ E Hj) as (kx & Hkx & Hk & Hr).
      exists kx. split; [by eapply list_elem_of_lookup_2|].
      rewrite Hk. split; [apply to_valid_utf8_valid|done]. }
    rewrite Forall_forall in *. intros ky Hky.
    destruct (Hall ky Hky) as (kx & Hkx & Hv & Hr). split; [done|].
    apply (IH kx Hkx _ _ Hr). by apply Hys.
Qed.

Lemma canonical_list l d :
  canonical (VList l) d =
  if MaxDepth <=? d then Err JTooDeep
  else VList <$> trav_list (λ x, canonical x (d + 1)) l.
Proof. done. Qed.

Lemma canonical_map m d :
  canonical (VMap m) d =
  if MaxDepth <=? d then Err JTooDeep
  else if forallb (λ kv, valid_utf8 kv.1) m
  then VMap <$> trav_map (λ k, k) (λ x, canonical x (d + 1)) m
  else roundTrip (VMap m) d.
Proof. done. Qed.

Lemma roundTrip_canon v d c : roundTrip v d = Ok c → canon (MaxDepth - d) c.
Proof.
  unfold roundTrip. intros H. res_inv. repeat case_match; try done. injection H as <-.
  bool_inv. by eapply respell_canon.
Qed.

Lemma canonical_canon v d c : canonical v d = Ok c → canon (MaxDepth - d) c.
Proof.
  revert d c. induction v as [|b|i|f|s|l IH|m IH] using value_nested_ind; intros d c H.
  - injection H as <-. constructor.
  - injection H as <-. constructor.
  - injection H as <-. constructor.
  - destruct f; simpl in H; try done. injection H as <-. apply canonicalFloat_canon.
  - simpl in H. case_match; [injection H as <-; by constructor|by eapply roundTrip_canon].
  - rewrite canonical_list in H. case_match; [done|]. bool_inv.
    destruct (trav_list _ l) as [ys|] eqn:E; simpl in H; [|done]. injection H as <-.
    constructor; [lia|]. apply res_traverse_Forall2 in E. apply Forall_forall. intros y Hy.
    apply list_elem_of_lookup in Hy as [j Hj].
    destruct (Forall2_lookup_r _ _ _ _ _ E Hj) as (x & Hx & Hr). simpl in Hr.
    rewrite Forall_forall in IH. apply IH in Hr; [|by eapply list_elem_of_lookup_2].
    by replace (MaxDepth - d - 1) with (MaxDepth - (d + 1)) by lia.
  - rewrite canonical_map in H. case_match; [done|]. bool_inv.
    destruct (forallb (λ kv, valid_utf8 kv.1) m) eqn:Ev; [|by eapply roundTrip_canon].
    destruct (trav_map _ _ m) as [ys|] eqn:E; simpl in H; [|done]. injection H as <-.
    constructor; [lia|]. apply trav_map_Forall2 in E. apply Forall_forall. intros y Hy.
    apply list_elem_of_lookup in Hy as [j Hj].
    destruct (Forall2_lookup_r _ _ _ _ _ E Hj) as (x & Hx & Hk & Hr).
    apply list_elem_of_lookup_2 in Hx. rewrite Forall_forall in IH.
    rewrite forallb_forall in Ev. split.
    + rewrite Hk. apply Ev. by apply list_elem_of_In.
    + apply IH in Hr; [|done]. by replace (MaxDepth - d - 1) with (MaxDepth - (d + 1)) by lia.
Qed.

Lemma canonical_fix v d : canon (MaxDepth - d) v → canonical v d = Ok v.
Proof.
  revert d. induction v as [|b|i|f|s|l IH|m IH] using value_nested_ind; intros d H;
    inversion H as [| | |? s0 m0 e0 Hf|? s0 Hs|? ? Hn Hl|? ? Hn Hm]; subst; try done.
  - cbn [canonical]. by rewrite Hf.
  - simpl. by rewrite Hs.
  - rewrite canonical_list. destruct (MaxDepth <=? d) eqn:E; [bool_inv; lia|].
    rewrite trav_list_id; [done|]. rewrite Forall_forall in *. intros x Hx.
    apply IH; [done|]. replace (MaxDepth - (d + 1)) with (MaxDepth - d - 1) by lia. auto.
  - rewrite canonical_map. destruct (MaxDepth <=? d) eqn:E; [bool_inv; lia|].
    assert (forallb (λ kv, valid_utf8 kv.1) m = true) as ->.
    { apply forallb_forall. intros x Hx. rewrite Forall_forall in Hm.
      by apply Hm, list_elem_of_In. }
    rewrite trav_map_id; [done|]. rewrite Forall_forall in *. intros x Hx.
    apply IH; [done|]. replace (MaxDepth - (d + 1)) with (MaxDepth - d - 1) by lia.
    by apply Hm.
Qed.

Lemma Canonical_idem v c : Canonical v = Ok c → Canonical c = Ok c.
Proof. intros H. apply canonical_canon in H. by apply canonical_fix. Qed.

(** Canonical values are fixed points: canonicalizing a canonical value (the
    live value a run binds, or the value a resume decodes and canonicalizes
    again) changes nothing.  This holds for values that went through the JSON
    round trip too, whatever their strings, keys and float spellings became. *)
Theorem Canonical_fixed_point v c : Canonical v = Ok c → Canonical c = Ok c.
Proof. apply Canonical_idem. Qed.

Definition raw_map : value :=
  VMap [("a", VFloat (f64_round false (2 ^ 60) 1));
        ("b", VList [VStr (String.String (ascii_of_N 255) ""); VFloat (f64_round true 1 2)])].
Lemma Canonical_fixed_point_witness :
  ∃ c, Canonical raw_map = Ok c ∧ c ≠ raw_map ∧ Canonical c = Ok c.
Proof.
  eexists. split; [vm_compute; reflexivity|]. split; [vm_compute; discriminate|].
  apply (Canonical_fixed_point raw_map). vm_compute. reflexivity.
Defined.

