(* ===== verification/ExecIR.v ===== *)
(** * The execution IR ([internal/execir/execir.go])

    Operands, conditions, nodes and programs, with the induction principles the
    other files use, and the addressing of call sites
    ([interp.go]: [CallSite], [CallKey], [controlKey]).  Source positions
    ([Pos]) are dropped: no operation reads them. *)

From S2P Require Import Prelude Value.

(** ** Data *)

Inductive operand : Type :=
  | Ref (path : list string)
  | Lit (v : value)
  | Object (fields : list (string * operand))
  | EList (elems : list operand)
  | Template (parts : list operand)
  | NilValue.

Inductive expr : Type :=
  | Leaf (v : operand)
  | Not (x : expr)
  | BinOp (op : string) (x y : expr)
  | NilExpr.

(** [map[string]Value]. *)
Abbreviation args := (gmap string operand).

Inductive node : Type :=
  | InvokeTool (bind uses : string) (a : args)
  | InvokeAgent (bind agent : string) (a : args) (wholeDocument : bool)
  | InvokeWorkflow (bind workflow : string) (a : args) (wholeDocument projectValue : bool)
  | Let (bind : string) (v : operand)
  | Branch (cond : expr) (thn els : list node)
  | Fork (branches : list (string * list node))
  | Loop (var : string) (collection : operand) (body : list node) (parallel : bool)
  | While (cond : expr) (limit : Z) (body : list node)
  | Retry (cond : expr) (limit : Z) (body : list node)
  | Return (v : operand)
  | Graph (nodes : list (string * list string * node))
  | Approval (bind description : string) (redactKeys : list string) (a : args)
  | NilNode.

Record program := {
  Workflow : string;
  Params : list string;
  Body : list node;
}.

(** The fields of a [GraphNode]. *)
Definition gn_id (g : string * list string * node) : string := g.1.1.
Definition gn_needs (g : string * list string * node) : list string := g.1.2.
Definition gn_run (g : string * list string * node) : node := g.2.

(** ** Induction *)

Section operand_ind.
Variable P : operand → Prop.
Hypothesis Href : ∀ p, P (Ref p).
Hypothesis Hlit : ∀ v, P (Lit v).
Hypothesis Hobject : ∀ fs, Forall (λ kv, P kv.2) fs → P (Object fs).
Hypothesis Hlist : ∀ l, Forall P l → P (EList l).
Hypothesis Htemplate : ∀ l, Forall P l → P (Template l).
Hypothesis Hnil : P NilValue.

Fixpoint operand_nested_ind (o : operand) : P o :=
  let fix go l : Forall P l :=
    match l with
    | [] => Forall_nil_2 _
    | x :: l => Forall_cons_2 _ _ _ (operand_nested_ind x) (go l)
    end in
  match o with
  | Ref p => Href p
  | Lit v => Hlit v
  | Object fs => Hobject fs
      ((fix gof l : Forall (λ kv, P kv.2) l := match l with
        | [] => Forall_nil_2 _
        | kv :: l => Forall_cons_2 _ _ _ (operand_nested_ind kv.2) (gof l)
        end) fs)
  | EList l => Hlist l (go l)
  | Template l => Htemplate l (go l)
  | NilValue => Hnil
  end.
End operand_ind.

Section node_ind.
Variable P : node → Prop.
Hypothesis Htool : ∀ b u a, P (InvokeTool b u a).
Hypothesis Hagent : ∀ b u a w, P (InvokeAgent b u a w).
Hypothesis Hworkflow : ∀ b u a w p, P (InvokeWorkflow b u a w p).
Hypothesis Hlet : ∀ b v, P (Let b v).
Hypothesis Hbranch : ∀ c t e, Forall P t → Forall P e → P (Branch c t e).
Hypothesis Hfork : ∀ bs, Forall (λ b, Forall P b.2) bs → P (Fork bs).
Hypothesis Hloop : ∀ x c b p, Forall P b → P (Loop x c b p).
Hypothesis Hwhile : ∀ c l b, Forall P b → P (While c l b).
Hypothesis Hretry : ∀ c l b, Forall P b → P (Retry c l b).
Hypothesis Hreturn : ∀ v, P (Return v).
Hypothesis Hgraph : ∀ gs, Forall (λ g, P g.2) gs → P (Graph gs).
Hypothesis Happroval : ∀ b d r a, P (Approval b d r a).
Hypothesis Hnil : P NilNode.

Fixpoint node_nested_ind (n : node) : P n :=
  let fix go l : Forall P l :=
    match l with
    | [] => Forall_nil_2 _
    | x :: l => Forall_cons_2 _ _ _ (node_nested_ind x) (go l)
    end in
  match n with
  | InvokeTool b u a => Htool b u a
  | InvokeAgent b u a w => Hagent b u a w
  | InvokeWorkflow b u a w p => Hworkflow b u a w p
  | Let b v => Hlet b v
  | Branch c t e => Hbranch c t e (go t) (go e)
  | Fork bs => Hfork bs
      ((fix gob l : Forall (λ b, Forall P b.2) l := match l with
        | [] => Forall_nil_2 _
        | b :: l => Forall_cons_2 _ _ _ (go b.2) (gob l)
        end) bs)
  | Loop x c b p => Hloop x c b p (go b)
  | While c l b => Hwhile c l b (go b)
  | Retry c l b => Hretry c l b (go b)
  | Return v => Hreturn v
  | Graph gs => Hgraph gs
      ((fix gog l : Forall (λ g, P g.2) l := match l with
        | [] => Forall_nil_2 _
        | g :: l => Forall_cons_2 _ _ _ (node_nested_ind g.2) (gog l)
        end) gs)
  | Approval b d r a => Happroval b d r a
  | NilNode => Hnil
  end.
End node_ind.

(** ** Call sites *)

(** The structural identity of a leaf invocation. *)
Record CallSite := mkCallSite {
  site_bind : string;
  site_path : list nat;
  site_loop : list nat;
  site_wholeDocument : bool;
}.

Definition bar : string := "|".

(** [fmt.Sprintf("%s|%v|%v", site.Bind, site.Path, site.Loop)]. *)
Definition CallKey (site : CallSite) : string :=
  site_bind site +:+ (bar +:+ (fmt_ints (site_path site) +:+ (bar +:+ fmt_ints (site_loop site)))).

Definition controlKey (prefix : string) (path loop : list nat) : string :=
  prefix +:+ (fmt_ints path +:+ (bar +:+ fmt_ints loop)).

(** A fresh slice [base] with [x] appended. *)
Definition extend (base : list nat) (x : nat) : list nat := base ++ [x].

Lemma bar_app s : bar +:+ s = String "|" s.
Proof. unfold bar. by rewrite string_app_cons, string_app_nil_l. Qed.

Lemma fmt_ints_no_bar l : str_contains_byte "|" (fmt_ints l) = false.
Proof. by apply fmt_ints_no_byte. Qed.

Lemma addr_text_inj p1 l1 p2 l2 :
  fmt_ints p1 +:+ (bar +:+ fmt_ints l1) = fmt_ints p2 +:+ (bar +:+ fmt_ints l2) →
  p1 = p2 ∧ l1 = l2.
Proof.
  rewrite !bar_app. intros H.
  apply split_last_inj in H as [Hp Hl]; [|apply fmt_ints_no_bar..].
  by apply (inj fmt_ints) in Hp; apply (inj fmt_ints) in Hl.
Qed.

Lemma CallKey_parts s1 s2 :
  CallKey s1 = CallKey s2 →
  site_bind s1 = site_bind s2 ∧ site_path s1 = site_path s2 ∧ site_loop s1 = site_loop s2.
Proof.
  unfold CallKey. rewrite !bar_app. intros H.
  assert (∀ s, site_bind s +:+ String "|" (fmt_ints (site_path s) +:+
     String "|" (fmt_ints (site_loop s))) =
     (site_bind s +:+ String "|" (fmt_ints (site_path s))) +:+
     String "|" (fmt_ints (site_loop s))) as Hassoc.
  { intros s. by rewrite string_app_assoc, string_app_cons. }
  rewrite !Hassoc in H. apply split_last_inj in H as [H Hl]; [|apply fmt_ints_no_bar..].
  apply split_last_inj in H as [Hb Hp]; [|apply fmt_ints_no_bar..].
  by apply (inj fmt_ints) in Hp; apply (inj fmt_ints) in Hl.
Qed.

(** A call key determines the binding name, the node address and the
    iteration vector it was made from: two call sites share a key only when they
    are the same site (the call shape apart, which is no part of the identity).
    The binding name may itself hold the separator. *)
Theorem CallKey_inj s1 s2 :
  CallKey s1 = CallKey s2 →
  site_bind s1 = site_bind s2 ∧ site_path s1 = site_path s2 ∧ site_loop s1 = site_loop s2.
Proof. exact (CallKey_parts s1 s2). Qed.

Lemma CallKey_inj_witness :
  let s1 := mkCallSite "a|[0]" [1%nat] [] false in
  let s2 := mkCallSite "a|[0]" [1%nat] [] true in
  CallKey s1 = CallKey s2 ∧ site_path s1 = site_path s2.
Proof.
  split; [reflexivity|].
  apply (CallKey_inj (mkCallSite "a|[0]" [1%nat] [] false)
    (mkCallSite "a|[0]" [1%nat] [] true)). reflexivity.
Defined.

(** A call site by its address, and the addresses below a node. *)
Definition addr : Type := list nat * list nat.
Definition site_addr (s : CallSite) : addr := (site_path s, site_loop s).

Lemma CallKey_addr s1 s2 : CallKey s1 = CallKey s2 → site_addr s1 = site_addr s2.
Proof.
  intros (_ & Hp & Hl)%CallKey_parts. unfold site_addr. congruence.
Qed.

(** ** [RequiresInterpreter] ([analyze.go]) *)

Fixpoint nodeRequiresInterpreter (n : node) : bool :=
  let fix nodes (l : list node) : bool :=
    match l with [] => false | n :: l => nodeRequiresInterpreter n || nodes l end in
  match n with
  | Branch _ _ _ | Loop _ _ _ _ | While _ _ _ | Retry _ _ _ => true
  | Fork bs =>
      (fix go (bs : list (string * list node)) : bool :=
        match bs with [] => false | (_, l) :: bs => nodes l || go bs end) bs
  | Graph gs =>
      (fix go (gs : list (string * list string * node)) : bool :=
        match gs with [] => false | (_, _, n) :: gs => nodeRequiresInterpreter n || go gs end) gs
  | _ => false
  end.

Definition nodesRequireInterpreter (l : list node) : bool :=
  existsb nodeRequiresInterpreter l.

Definition RequiresInterpreter (p : option program) : bool :=
  match p with None => false | Some p => nodesRequireInterpreter (Body p) end.

(** [n] occurs somewhere in the node list. *)
Inductive occurs (n : node) : list node → Prop :=
  | occurs_here l : n ∈ l → occurs n l
  | occurs_then c t e l : Branch c t e ∈ l → occurs n t → occurs n l
  | occurs_else c t e l : Branch c t e ∈ l → occurs n e → occurs n l
  | occurs_fork bs b ns l : Fork bs ∈ l → (b, ns) ∈ bs → occurs n ns → occurs n l
  | occurs_loop x c b p l : Loop x c b p ∈ l → occurs n b → occurs n l
  | occurs_while c i b l : While c i b ∈ l → occurs n b → occurs n l
  | occurs_retry c i b l : Retry c i b ∈ l → occurs n b → occurs n l
  | occurs_graph gs i ds m l : Graph gs ∈ l → (i, ds, m) ∈ gs → occurs n [m] → occurs n l.

Definition is_control (n : node) : bool :=
  match n with Branch _ _ _ | Loop _ _ _ _ | While _ _ _ | Retry _ _ _ => true | _ => false end.

Lemma nodeRequires_fork bs :
  nodeRequiresInterpreter (Fork bs) = existsb (λ b, nodesRequireInterpreter b.2) bs.
Proof. simpl. induction bs as [|[b l] bs IH]; [done|]. cbn [existsb]. by rewrite <-IH. Qed.

Lemma nodeRequires_graph gs :
  nodeRequiresInterpreter (Graph gs) = existsb (λ g, nodeRequiresInterpreter g.2) gs.
Proof. simpl. induction gs as [|[[i d] m] gs IH]; [done|]. cbn [existsb]. by rewrite <-IH. Qed.

Lemma occurs_member m n l : n ∈ l → occurs m [n] → occurs m l.
Proof.
  intros Hn Hocc. inversion Hocc; subst;
    match goal with H : _ ∈ [n] |- _ => apply list_elem_of_singleton in H; subst end;
    eauto using occurs.
Qed.

Lemma nodeRequires_occurs n :
  nodeRequiresInterpreter n = true → ∃ m, is_control m = true ∧ occurs m [n].
Proof.
  induction n as [| | | |c t e _ _|bs IH|x c b p _|c i b _|c i b _| |gs IH| |]
    using node_nested_ind; try done;
    try (intros _; eexists; split; [|apply occurs_here, list_elem_of_singleton; done]; done).
  - rewrite nodeRequires_fork. intros ([b l] & Hin & Hl)%existsb_True.
    unfold nodesRequireInterpreter in Hl. apply existsb_True in Hl as (n & Hn & Hreq).
    rewrite Forall_forall in IH. pose proof (IH _ Hin) as IHl. rewrite Forall_forall in IHl.
    destruct (IHl n Hn Hreq) as (m & Hm & Hocc). exists m. split; [done|].
    eapply occurs_fork; [by apply list_elem_of_singleton|done|].
    by eapply occurs_member.
  - rewrite nodeRequires_graph. intros ([[i d] n] & Hin & Hreq)%existsb_True.
    rewrite Forall_forall in IH. destruct (IH _ Hin Hreq) as (m & Hm & Hocc).
    exists m. split; [done|]. eapply occurs_graph; [by apply list_elem_of_singleton|done..].
Qed.

Lemma occurs_requires m l : is_control m = true → occurs m l → nodesRequireInterpreter l = true.
Proof.
  intros Hm. unfold nodesRequireInterpreter.
  induction 1 as [l H|? ? ? l H|? ? ? l H|bs b ns l H Hb _ IH|? ? ? ? l H|? ? ? l H|? ? ? l H
    |gs i d n l H Hg _ IH]; apply existsb_True; eexists; (split; [exact H|]); try done.
  - by destruct m.
  - rewrite nodeRequires_fork. apply existsb_True. by exists (b, ns).
  - rewrite nodeRequires_graph. apply existsb_True. exists (i, d, n). split; [done|].
    simpl in *. by rewrite orb_false_r in IH.
Qed.

(** A program is sent to the interpreter exactly when a conditional or a loop
    (Branch, Loop, While or Retry) occurs in it, at any depth inside Fork
    branches and Graph nodes. *)
Theorem RequiresInterpreter_iff p :
  RequiresInterpreter (Some p) = true ↔ ∃ m, is_control m = true ∧ occurs m (Body p).
Proof.
  simpl. split.
  - unfold nodesRequireInterpreter. intros (n & Hn & Hreq)%existsb_True.
    destruct (nodeRequires_occurs n Hreq) as (m & ? & ?). eauto using occurs_member.
  - intros (m & Hm & Hocc). by eapply occurs_requires.
Qed.
