(* ===== verification/ExecWire.v ===== *)
(** * The wire format of programs ([internal/execir/serialize.go])

    The tagged wire types, the encoder, the decoder and the format version.  The
    payload is modelled as what its JSON bytes decode to: [json_val] and its kin are
    the effect of [json.Marshal] followed by [json.Unmarshal] on the wire types
    (strings and keys become valid UTF-8, a float that is not finite has no
    encoding, an omitted empty field is the empty field). *)

From S2P Require Import Prelude GoNum GoText Value JsonText ExecIR.

(** ** Wire types *)

Inductive valWire := mkValW {
  vw_Kind : string;
  vw_Path : list string;
  vw_LitT : string;
  vw_LitV : value;
  vw_Fields : list (string * valWire);
  vw_Elems : list valWire;
  vw_Parts : list valWire;
}.

Inductive exprWire := mkExprW {
  ew_Kind : string;
  ew_V : option valWire;
  ew_X : option exprWire;
  ew_Y : option exprWire;
  ew_Op : string;
}.

Inductive nodeWire := mkNodeW {
  nw_Kind : string;
  nw_Bind : string;
  nw_Uses : string;
  nw_Agent : string;
  nw_WholeDocument : bool;
  nw_ProjectValue : bool;
  nw_Workflow : string;
  nw_Args : gmap string valWire;
  nw_Value : option valWire;
  nw_Cond : option exprWire;
  nw_Then : list nodeWire;
  nw_Else : list nodeWire;
  nw_Branches : list (string * list nodeWire);
  nw_Var : string;
  nw_Parallel : bool;
  nw_Collection : option valWire;
  nw_Limit : Z;
  nw_Body : list nodeWire;
  nw_Nodes : list (string * list string * nodeWire);
  nw_Desc : string;
  nw_RedactKeys : list string;
}.

Record programWire := mkProgramW { pw_Workflow : string; pw_Params : list string; pw_Body : list nodeWire }.
Record programsWire := mkProgramsW { pw_FormatVersion : string; pw_Programs : gmap string programWire }.

Definition ProgramFormatV1 : string := "agentic.dev/execir/v1".

Inductive wire_error :=
  | UnknownNode | UnknownValue | UnknownExpr | BadLiteral
  | NotFinite
  | UnknownKind (kind : string) | LitValue (litType : string) | UnsupportedFormat (version : string).


(** ** Encoding *)

Definition wireLit (v : value) : res wire_error valWire :=
  let lit t x := Ok (mkValW "lit" [] t x [] [] []) in
  match v with
  | VStr s => lit "s" (VStr s)
  | VInt i => lit "i" (VStr (pretty i))
  | VFloat f => lit "f" (VFloat f)
  | VBool b => lit "b" (VBool b)
  | VNil => lit "nil" VNil
  | _ => Err BadLiteral
  end.

Fixpoint wireVal (o : operand) : res wire_error valWire :=
  match o with
  | Ref path => Ok (mkValW "ref" path "" VNil [] [] [])
  | Lit v => wireLit v
  | Object fs =>
      fs ← res_traverse (λ f, match f with (k, x) => w ← wireVal x; mret (k, w) end) fs;
      mret (mkValW "object" [] "" VNil fs [] [])
  | EList es => es ← res_traverse (λ x, wireVal x) es; mret (mkValW "list" [] "" VNil [] es [])
  | Template ps => ps ← res_traverse (λ x, wireVal x) ps; mret (mkValW "template" [] "" VNil [] [] ps)
  | NilValue => Ok (mkValW "lit" [] "nil" VNil [] [] [])
  end.

Fixpoint wireExpr (e : expr) : res wire_error exprWire :=
  match e with
  | Leaf v => w ← wireVal v; mret (mkExprW "leaf" (Some w) None None "")
  | Not x => w ← wireExpr x; mret (mkExprW "not" None (Some w) None "")
  | BinOp op x y =>
      wx ← wireExpr x; wy ← wireExpr y; mret (mkExprW "binop" None (Some wx) (Some wy) op)
  | NilExpr => Err UnknownExpr
  end.

Definition wireArgs (a : args) : res wire_error (gmap string valWire) := map_traverse wireVal a.

Fixpoint wireNode (n : node) : res wire_error nodeWire :=
  let wireNodes := res_traverse (λ x, wireNode x) in
  match n with
  | InvokeTool bind uses a =>
      a ← wireArgs a;
      mret (mkNodeW "invokeTool" bind uses "" false false "" a None None [] [] [] "" false None 0 [] [] "" [])
  | InvokeAgent bind agent a wd =>
      a ← wireArgs a;
      mret (mkNodeW "invokeAgent" bind "" agent wd false "" a None None [] [] [] "" false None 0 [] [] "" [])
  | InvokeWorkflow bind wf a wd pv =>
      a ← wireArgs a;
      mret (mkNodeW "invokeWorkflow" bind "" "" wd pv wf a None None [] [] [] "" false None 0 [] [] "" [])
  | Let bind v =>
      w ← wireVal v;
      mret (mkNodeW "let" bind "" "" false false "" ∅ (Some w) None [] [] [] "" false None 0 [] [] "" [])
  | Branch c t e =>
      c ← wireExpr c; t ← wireNodes t; e ← wireNodes e;
      mret (mkNodeW "branch" "" "" "" false false "" ∅ None (Some c) t e [] "" false None 0 [] [] "" [])
  | Fork bs =>
      bs ← res_traverse (λ b, match b with (bind, ns) => ns ← wireNodes ns; mret (bind, ns) end) bs;
      mret (mkNodeW "fork" "" "" "" false false "" ∅ None None [] [] bs "" false None 0 [] [] "" [])
  | Loop x c b par =>
      c ← wireVal c; b ← wireNodes b;
      mret (mkNodeW "loop" "" "" "" false false "" ∅ None None [] [] [] x par (Some c) 0 b [] "" [])
  | While c limit b =>
      c ← wireExpr c; b ← wireNodes b;
      mret (mkNodeW "while" "" "" "" false false "" ∅ None (Some c) [] [] [] "" false None limit b [] "" [])
  | Retry c limit b =>
      c ← wireExpr c; b ← wireNodes b;
      mret (mkNodeW "retry" "" "" "" false false "" ∅ None (Some c) [] [] [] "" false None limit b [] "" [])
  | Return v =>
      w ← wireVal v;
      mret (mkNodeW "return" "" "" "" false false "" ∅ (Some w) None [] [] [] "" false None 0 [] [] "" [])
  | Graph gs =>
      gs ← res_traverse (λ g, match g with (hd, x) => w ← wireNode x; mret (hd, w) end) gs;
      mret (mkNodeW "graph" "" "" "" false false "" ∅ None None [] [] [] "" false None 0 [] gs "" [])
  | Approval bind desc rk a =>
      a ← wireArgs a;
      mret (mkNodeW "approval" bind "" "" false false "" a None None [] [] [] "" false None 0 [] [] desc rk)
  | NilNode => Err UnknownNode
  end.
Definition wireNodes (ns : list node) : res wire_error (list nodeWire) := res_traverse wireNode ns.

(** ** The bytes between

    Objects are written in the order of their keys; a later equal key wins when
    they are read. *)
Definition json_map {A} (m : gmap string A) : gmap string A :=
  foldl (λ acc k, match m !! k with Some v => <[to_valid_utf8 k := v]> acc | None => acc end) ∅ (sorted_keys m).

Definition json_lit (v : value) : res wire_error value :=
  match v with
  | VStr s => Ok (VStr (to_valid_utf8 s))
  | VFloat (FFin _ _ _ as f) => Ok (VFloat f)
  | VFloat _ => Err NotFinite
  | v => Ok v
  end.

Fixpoint json_val (w : valWire) : res wire_error valWire :=
  let '(mkValW kind path t v fs es ps) := w in
  v ← json_lit v;
  fs ← res_traverse (λ f, match f with (k, x) => w ← json_val x; mret (to_valid_utf8 k, w) end) fs;
  es ← res_traverse (λ x, json_val x) es;
  ps ← res_traverse (λ x, json_val x) ps;
  mret (mkValW kind (to_valid_utf8 <$> path) t v fs es ps).

Definition json_opt {A} (f : A → res wire_error A) (o : option A) : res wire_error (option A) :=
  match o with Some x => Some <$> f x | None => Ok None end.

Fixpoint json_expr (w : exprWire) : res wire_error exprWire :=
  let '(mkExprW kind v x y op) := w in
  v ← json_opt json_val v;
  x ← match x with Some x => Some <$> json_expr x | None => Ok None end;
  y ← match y with Some y => Some <$> json_expr y | None => Ok None end;
  mret (mkExprW kind v x y (to_valid_utf8 op)).

Definition json_args (m : gmap string valWire) : res wire_error (gmap string valWire) :=
  json_map <$> map_traverse json_val m.

Definition json_head (hd : string * list string) : string * list string :=
  (to_valid_utf8 hd.1, to_valid_utf8 <$> hd.2).

Fixpoint json_node (w : nodeWire) : res wire_error nodeWire :=
  let '(mkNodeW kind bind uses agent wd pv wf a v c t e bs x par coll limit b gs desc rk) := w in
  let nodes := res_traverse (λ n, json_node n) in
  a ← json_args a;
  v ← json_opt json_val v;
  c ← json_opt json_expr c;
  t ← nodes t; e ← nodes e;
  bs ← res_traverse (λ br, match br with (bind, ns) => ns ← nodes ns; mret (to_valid_utf8 bind, ns) end) bs;
  coll ← json_opt json_val coll;
  b ← nodes b;
  gs ← res_traverse (λ g, match g with (hd, n) => n ← json_node n; mret (json_head hd, n) end) gs;
  mret (mkNodeW kind (to_valid_utf8 bind) (to_valid_utf8 uses) (to_valid_utf8 agent) wd pv (to_valid_utf8 wf)
    a v c t e bs (to_valid_utf8 x) par coll limit b gs (to_valid_utf8 desc) (to_valid_utf8 <$> rk)).

Definition json_program (w : programWire) : res wire_error programWire :=
  b ← res_traverse json_node (pw_Body w);
  mret (mkProgramW (to_valid_utf8 (pw_Workflow w)) (to_valid_utf8 <$> pw_Params w) b).

(** ** Decoding *)

Definition decodeLit (w : valWire) : res wire_error value :=
  if (vw_LitT w =? "s")%string then
    match vw_LitV w with VStr s => Ok (VStr s) | _ => Err (LitValue "s") end
  else if (vw_LitT w =? "i")%string then
    match vw_LitV w with
    | VStr s => match atoi s with Some i => Ok (VInt i) | None => Err (LitValue "i") end
    | _ => Err (LitValue "i")
    end
  else if (vw_LitT w =? "f")%string then
    match vw_LitV w with VFloat f => Ok (VFloat f) | _ => Err (LitValue "f") end
  else if (vw_LitT w =? "b")%string then
    match vw_LitV w with VBool b => Ok (VBool b) | _ => Err (LitValue "b") end
  else if (vw_LitT w =? "nil")%string then Ok VNil
  else Err (LitValue (vw_LitT w)).

Fixpoint decodeVal (w : valWire) : res wire_error operand :=
  let '(mkValW kind path t v fs es ps) := w in
  if (kind =? "ref")%string then Ok (Ref path)
  else if (kind =? "lit")%string then Lit <$> decodeLit w
  else if (kind =? "object")%string then
    Object <$> res_traverse (λ f, match f with (k, x) => o ← decodeVal x; mret (k, o) end) fs
  else if (kind =? "list")%string then EList <$> res_traverse (λ x, decodeVal x) es
  else if (kind =? "template")%string then Template <$> res_traverse (λ x, decodeVal x) ps
  else Err (UnknownKind kind).

Definition decodeValPtr (w : option valWire) : res wire_error operand :=
  match w with Some w => decodeVal w | None => Ok NilValue end.

Fixpoint decodeExpr (w : exprWire) : res wire_error expr :=
  let '(mkExprW kind v x y op) := w in
  let ptr o := match o with Some e => decodeExpr e | None => Ok NilExpr end in
  if (kind =? "leaf")%string then Leaf <$> decodeValPtr v
  else if (kind =? "not")%string then Not <$> ptr x
  else if (kind =? "binop")%string then x ← ptr x; y ← ptr y; mret (BinOp op x y)
  else Err (UnknownKind kind).
Definition decodeExprPtr (w : option exprWire) : res wire_error expr :=
  match w with Some w => decodeExpr w | None => Ok NilExpr end.

Definition decodeArgs (a : gmap string valWire) : res wire_error args := map_traverse decodeVal a.

Fixpoint decodeNode (w : nodeWire) : res wire_error node :=
  let '(mkNodeW kind bind uses agent wd pv wf a v c t e bs x par coll limit b gs desc rk) := w in
  let nodes := res_traverse (λ n, decodeNode n) in
  if (kind =? "invokeTool")%string then InvokeTool bind uses <$> decodeArgs a
  else if (kind =? "invokeAgent")%string then (λ a, InvokeAgent bind agent a wd) <$> decodeArgs a
  else if (kind =? "invokeWorkflow")%string then (λ a, InvokeWorkflow bind wf a wd pv) <$> decodeArgs a
  else if (kind =? "let")%string then Let bind <$> decodeValPtr v
  else if (kind =? "branch")%string then
    c ← decodeExprPtr c; t ← nodes t; e ← nodes e; mret (Branch c t e)
  else if (kind =? "fork")%string then
    Fork <$> res_traverse (λ br, match br with (bind, ns) => ns ← nodes ns; mret (bind, ns) end) bs
  else if (kind =? "loop")%string then
    coll ← decodeValPtr coll; b ← nodes b; mret (Loop x coll b par)
  else if (kind =? "while")%string then c ← decodeExprPtr c; b ← nodes b; mret (While c limit b)
  else if (kind =? "retry")%string then c ← decodeExprPtr c; b ← nodes b; mret (Retry c limit b)
  else if (kind =? "return")%string then Return <$> decodeValPtr v
  else if (kind =? "graph")%string then
    Graph <$> res_traverse (λ g, match g with (hd, n) => n ← decodeNode n; mret (hd, n) end) gs
  else if (kind =? "approval")%string then Approval bind desc rk <$> decodeArgs a
  else Err (UnknownKind kind).

(** ** Programs *)

Definition wireProgram (p : program) : res wire_error programWire :=
  b ← wireNodes (Body p); mret (mkProgramW (Workflow p) (Params p) b).
Definition decodeProgram (w : programWire) : res wire_error program :=
  b ← res_traverse decodeNode (pw_Body w);
  mret {| Workflow := pw_Workflow w; Params := pw_Params w; Body := b |}.

(** [None] stands for a nil program, which is skipped. *)
Definition MarshalPrograms (ps : gmap string (option program)) : res wire_error programsWire :=
  ws ← map_traverse wireProgram (omap id ps);
  ws ← map_traverse json_program ws;
  mret (mkProgramsW ProgramFormatV1 (json_map ws)).

Definition UnmarshalPrograms (payload : programsWire) : res wire_error (gmap string program) :=
  if (pw_FormatVersion payload =? ProgramFormatV1)%string then
    map_traverse decodeProgram (pw_Programs payload)
  else Err (UnsupportedFormat (pw_FormatVersion payload)).

(** ** What a program becomes

    Strings are respelled as valid UTF-8, an absent operand becomes a null literal. *)
Definition image_args {A} (f : A → A) (m : gmap string A) : gmap string A := json_map (f <$> m).

Fixpoint image_val (o : operand) : operand :=
  match o with
  | Ref path => Ref (to_valid_utf8 <$> path)
  | Lit (VStr s) => Lit (VStr (to_valid_utf8 s))
  | Lit v => Lit v
  | Object fs => Object ((λ f, match f with (k, x) => (to_valid_utf8 k, image_val x) end) <$> fs)
  | EList es => EList ((λ x, image_val x) <$> es)
  | Template ps => Template ((λ x, image_val x) <$> ps)
  | NilValue => Lit VNil
  end.

Fixpoint image_expr (e : expr) : expr :=
  match e with
  | Leaf v => Leaf (image_val v)
  | Not x => Not (image_expr x)
  | BinOp op x y => BinOp (to_valid_utf8 op) (image_expr x) (image_expr y)
  | NilExpr => NilExpr
  end.

Fixpoint image_node (n : node) : node :=
  let nodes l := (λ x, image_node x) <$> l in
  match n with
  | InvokeTool b u a => InvokeTool (to_valid_utf8 b) (to_valid_utf8 u) (image_args image_val a)
  | InvokeAgent b u a wd => InvokeAgent (to_valid_utf8 b) (to_valid_utf8 u) (image_args image_val a) wd
  | InvokeWorkflow b u a wd pv => InvokeWorkflow (to_valid_utf8 b) (to_valid_utf8 u) (image_args image_val a) wd pv
  | Let b v => Let (to_valid_utf8 b) (image_val v)
  | Branch c t e => Branch (image_expr c) (nodes t) (nodes e)
  | Fork bs => Fork ((λ b, match b with (x, ns) => (to_valid_utf8 x, nodes ns) end) <$> bs)
  | Loop x c b p => Loop (to_valid_utf8 x) (image_val c) (nodes b) p
  | While c l b => While (image_expr c) l (nodes b)
  | Retry c l b => Retry (image_expr c) l (nodes b)
  | Return v => Return (image_val v)
  | Graph gs => Graph ((λ g, match g with (hd, x) => (json_head hd, image_node x) end) <$> gs)
  | Approval b d rk a => Approval (to_valid_utf8 b) (to_valid_utf8 d) (to_valid_utf8 <$> rk) (image_args image_val a)
  | NilNode => NilNode
  end.
Definition image_program (p : program) : program :=
  {| Workflow := to_valid_utf8 (Workflow p); Params := to_valid_utf8 <$> Params p; Body := image_node <$> Body p |}.

(** ** Round trip *)

(** Encode, cross, decode: the three passes over a list or a map. *)
Definition chain {A B C} (f : A → res wire_error B) (j : B → res wire_error B) (d : B → res wire_error C)
    (g : A → C) (x : A) : Prop :=
  ∀ w w', f x = Ok w → j w = Ok w' → d w' = Ok (g x).

Lemma list_chain {A B C} (f : A → res wire_error B) j d (g : A → C) l :
  Forall (chain f j d g) l → chain (res_traverse f) (res_traverse j) (res_traverse d) (fmap g) l.
Proof.
  induction 1 as [|x l Hx _ IH]; intros ws ws' Hf Hj; simpl in Hf.
  - injection Hf as <-. simpl in Hj. by injection Hj as <-.
  - apply bind_Ok in Hf as (w & Hw & (ws0 & Hws & [= <-])%bind_Ok).
    apply bind_Ok in Hj as (w' & Hw' & (ws0' & Hws' & [= <-])%bind_Ok). simpl.
    by rewrite (Hx w w' Hw Hw'), (IH ws0 ws0' Hws Hws').
Qed.

(** The entries of [json_map]. *)
Lemma json_map_dom {A B} (R : A → B → Prop) (m1 : gmap string A) (m2 : gmap string B) :
  (∀ k, option_Forall2 R (m1 !! k) (m2 !! k)) →
  ∀ k, option_Forall2 R (json_map m1 !! k) (json_map m2 !! k).
Proof.
  intros HR. unfold json_map. assert (sorted_keys m1 = sorted_keys m2) as ->.
  { apply sorted_keys_ext. intros k. specialize (HR k). by inversion HR; split; intros []. }
  assert (∀ k, option_Forall2 R ((∅ : gmap string A) !! k) ((∅ : gmap string B) !! k)) as H0.
  { intros k. rewrite !lookup_empty. constructor. }
  revert H0. generalize (∅ : gmap string A) (∅ : gmap string B).
  induction (sorted_keys m2) as [|x ks IH]; intros a1 a2 Ha; [done|]. cbn [foldl]. apply IH.
  intros k. pose proof (HR x) as Hx. destruct Hx as [v1 v2 Hv|]; [|apply Ha].
  destruct (decide (to_valid_utf8 x = k)) as [->|Hne]; [rewrite !lookup_insert_eq; by constructor|].
  by rewrite !lookup_insert_ne.
Qed.

(** A fallible map on the entries commutes with [json_map]. *)
Lemma json_map_traverse {A B} (f : A → res wire_error B) m m' :
  map_traverse f m = Ok m' → map_traverse f (json_map m) = Ok (json_map m').
Proof.
  intros Hm. apply map_traverse_Ok, json_map_dom. intros k. by apply map_traverse_lookup.
Qed.

Lemma map_chain {A B C} (f : A → res wire_error B) j d (g : A → C) (m : gmap string A) :
  (∀ k x, m !! k = Some x → chain f j d g x) →
  chain (map_traverse f) (λ m, json_map <$> map_traverse j m) (map_traverse d) (λ m, json_map (g <$> m)) m.
Proof.
  intros Hc ws ws' Hf (ws0 & Hj & ->)%fmap_Ok. apply json_map_traverse, map_traverse_Ok. intros k.
  pose proof (map_traverse_lookup f m ws k Hf) as H1. pose proof (map_traverse_lookup j ws ws0 k Hj) as H2.
  rewrite lookup_fmap. specialize (Hc k).
  destruct H1 as [x w Hw|]; inversion H2; subst; constructor. by eapply Hc.
Qed.

Lemma pretty_Z_valid (z : Z) : valid_utf8 (pretty z) = true.
Proof.
  apply valid_ascii. destruct z as [|p|p]; [done|by apply digits_ascii, pretty_N_digits|].
  change (pretty (Z.neg p)) with ("-" +:+ pretty (N.pos p)). rewrite string_app_cons, string_app_nil_l. simpl.
  by apply digits_ascii, pretty_N_digits.
Qed.

(** Literals hold int64. *)
Fixpoint lits_wf (o : operand) : bool :=
  match o with
  | Lit (VInt i) => bool_decide (is_int64 i)
  | Object fs => forallb (λ f, match f with (_, x) => lits_wf x end) fs
  | EList l | Template l => forallb (λ x, lits_wf x) l
  | _ => true
  end.

Lemma lit_chain v : lits_wf (Lit v) = true → chain wireLit json_val (λ w, Lit <$> decodeLit w) (λ v, image_val (Lit v)) v.
Proof.
  intros Hv w w' Hw Hj. destruct v as [|b|i|f|s|l|m]; cbn in Hw; simplify_eq Hw; intros <-; cbn in Hj.
  - by injection Hj as <-.
  - by injection Hj as <-.
  - rewrite (to_valid_utf8_id _ (pretty_Z_valid i)) in Hj.
    injection Hj as <-. apply bool_decide_eq_true in Hv. cbn. unfold decodeLit. cbn. by rewrite atoi_pretty.
  - destruct f; cbn in Hj; simplify_eq Hj. by intros <-.
  - by injection Hj as <-.
Qed.

Lemma Forall_checked {A} (P : A → Prop) (b : A → bool) l :
  Forall (λ x, b x = true → P x) l → forallb b l = true → Forall P l.
Proof. induction 1 as [|x l Hx _ IH]; [constructor|]. intros [? ?]%andb_true_iff. constructor; auto. Qed.

Lemma forallb_Forall {A} (b : A → bool) l : forallb b l = true ↔ Forall (λ x, b x = true) l.
Proof. induction l as [|x l IH]; [by split|]. simpl. by rewrite Forall_cons, andb_true_iff, IH. Qed.

(** Labelled entries. *)
Lemma entries_chain {K A B C} (fk : K → K) (f : A → res wire_error B) j d (g : A → C) l ws ws' :
  Forall (λ kx : K * A, chain f j d g kx.2) l →
  res_traverse (λ kx, match kx with (k, x) => w ← f x; mret (k, w) end) l = Ok ws →
  res_traverse (λ kw, match kw with (k, w) => w ← j w; mret (fk k, w) end) ws = Ok ws' →
  res_traverse (λ kw, match kw with (k, w) => o ← d w; mret (k, o) end) ws' =
    Ok ((λ kx, match kx with (k, x) => (fk k, g x) end) <$> l).
Proof.
  intros Hl. apply list_chain. eapply Forall_impl; [exact Hl|].
  intros [k x] Hc w w' (w0 & Hw & [= <-])%bind_Ok (w1 & Hj & [= <-])%bind_Ok. by rewrite (Hc w0 w1 Hw Hj).
Qed.

Lemma val_chain o : lits_wf o = true → chain wireVal json_val decodeVal image_val o.
Proof.
  induction o as [p|v|fs IH|l IH|l IH|] using operand_nested_ind; intros Ho w w' Hw Hj; cbn [wireVal] in Hw.
  - injection Hw as <-. cbn in Hj. by injection Hj as <-.
  - pose proof (lit_chain v Ho w w' Hw Hj) as Hd. clear -Hd Hw Hj.
    assert (vw_Kind w' = "lit") as Hk; [|destruct w'; cbn in Hk; subst; exact Hd].
    destruct v as [|b|i|f|s|l|m]; cbn in Hw; simplify_eq Hw; intros <-; cbn in Hj; try (by injection Hj as <-).
    destruct f; cbn in Hj; simplify_eq Hj. by intros <-.
  - apply bind_Ok in Hw as (ws & Hws & [= <-]). cbn in Hj. apply bind_Ok in Hj as (ws' & Hws' & [= <-]).
    cbn. rewrite (entries_chain to_valid_utf8 wireVal json_val decodeVal image_val fs ws ws'); [done| |done..].
    apply (Forall_checked _ (λ f, match f with (_, x) => lits_wf x end)); [|exact Ho].
    eapply Forall_impl; [exact IH|]. by intros [].
  - apply bind_Ok in Hw as (ws & Hws & [= <-]). cbn in Hj. apply bind_Ok in Hj as (ws' & Hws' & [= <-]).
    apply fmap_Ok. eexists. split; [|reflexivity].
    exact (list_chain wireVal json_val decodeVal image_val l (Forall_checked _ _ l IH Ho) ws ws' Hws Hws').
  - apply bind_Ok in Hw as (ws & Hws & [= <-]). cbn in Hj. apply bind_Ok in Hj as (ws' & Hws' & [= <-]).
    apply fmap_Ok. eexists. split; [|reflexivity].
    exact (list_chain wireVal json_val decodeVal image_val l (Forall_checked _ _ l IH Ho) ws ws' Hws Hws').
  - injection Hw as <-. cbn in Hj. by injection Hj as <-.
Qed.

Fixpoint lits_expr (e : expr) : bool :=
  match e with
  | Leaf v => lits_wf v
  | Not x => lits_expr x
  | BinOp _ x y => lits_expr x && lits_expr y
  | NilExpr => true
  end.
Definition lits_args (a : args) : bool := forallb (λ kv, lits_wf kv.2) (map_to_list a).
Fixpoint lits_node (n : node) : bool :=
  match n with
  | InvokeTool _ _ a | InvokeAgent _ _ a _ | InvokeWorkflow _ _ a _ _ | Approval _ _ _ a => lits_args a
  | Let _ v | Return v => lits_wf v
  | Branch c t e => lits_expr c && forallb (λ x, lits_node x) t && forallb (λ x, lits_node x) e
  | Fork bs => forallb (λ b, match b with (_, ns) => forallb (λ x, lits_node x) ns end) bs
  | Loop _ c b _ => lits_wf c && forallb (λ x, lits_node x) b
  | While c _ b | Retry c _ b => lits_expr c && forallb (λ x, lits_node x) b
  | Graph gs => forallb (λ g, match g with (_, x) => lits_node x end) gs
  | NilNode => true
  end.
Definition lits_program (p : program) : bool := forallb lits_node (Body p).

Lemma expr_chain e : lits_expr e = true → chain wireExpr json_expr decodeExpr image_expr e.
Proof.
  induction e as [v|x IHx|op x IHx y IHy|]; intros He w w' Hw Hj; cbn in Hw.
  - apply bind_Ok in Hw as (w0 & Hw & [= <-]). cbn in Hj.
    apply bind_Ok in Hj as (v' & (w1 & Hw1 & ->)%fmap_Ok & [= <-]). cbn.
    by rewrite (val_chain v He w0 w1 Hw Hw1).
  - apply bind_Ok in Hw as (w0 & Hw & [= <-]). cbn in Hj.
    apply bind_Ok in Hj as (x' & (w1 & Hw1 & ->)%fmap_Ok & [= <-]). cbn.
    by rewrite (IHx He w0 w1 Hw Hw1).
  - cbn in He. apply andb_true_iff in He as [Hx Hy].
    apply bind_Ok in Hw as (w0 & Hw & (w2 & Hw2 & [= <-])%bind_Ok). cbn in Hj.
    apply bind_Ok in Hj as (x' & (w1 & Hw1 & ->)%fmap_Ok & (y' & (w3 & Hw3 & ->)%fmap_Ok & [= <-])%bind_Ok).
    cbn. by rewrite (IHx Hx w0 w1 Hw Hw1), (IHy Hy w2 w3 Hw2 Hw3).
  - done.
Qed.

Lemma args_chain a : lits_args a = true → chain wireArgs json_args decodeArgs (image_args image_val) a.
Proof.
  intros Ha. apply map_chain. intros k o Hk. apply val_chain. unfold lits_args in Ha.
  rewrite forallb_forall in Ha. apply (Ha (k, o)), list_elem_of_In. by apply elem_of_map_to_list.
Qed.

(** One step of a chain: the encoded and crossed parts are named. *)
Ltac crossed :=
  repeat match goal with
  | H : _ ≫= _ = Ok _ |- _ => apply bind_Ok in H as (? & ? & ?)
  | H : _ <$> _ = Ok _ |- _ => apply fmap_Ok in H as (? & ? & ->)
  | H : mret _ = Ok _ |- _ => injection H as <-
  | H : Ok _ = Ok _ |- _ => injection H as <-
  | H : json_node (mkNodeW _ _ _ _ _ _ _ _ _ _ _ _ _ _ _ _ _ _ _ _ _) = _ |- _ => cbn -[json_args] in H
  end.

Lemma json_args_empty : json_args ∅ = Ok ∅.
Proof. reflexivity. Qed.

Lemma nodes_chain l ws ws' :
  Forall (λ n, lits_node n = true → chain wireNode json_node decodeNode image_node n) l →
  forallb (λ x, lits_node x) l = true →
  res_traverse (λ x, wireNode x) l = Ok ws → res_traverse (λ n, json_node n) ws = Ok ws' →
  res_traverse (λ n, decodeNode n) ws' = Ok ((λ x, image_node x) <$> l).
Proof. intros Hl Hn. exact (list_chain wireNode json_node decodeNode image_node l (Forall_checked _ _ l Hl Hn) ws ws'). Qed.

Ltac nodes_step :=
  match goal with
  | IH : Forall _ ?l, Hl : forallb _ ?l = true,
    H : res_traverse _ ?l = Ok ?ws, H' : res_traverse _ ?ws = Ok _ |- _ =>
      rewrite (nodes_chain l _ _ IH Hl H H'); clear IH
  end.

Lemma node_chain n : lits_node n = true → chain wireNode json_node decodeNode image_node n.
Proof.
  induction n as [b u a|b u a wd|b u a wd pv|b v|c t e IHt IHe|bs IH|x c b p IH|c l b IH|c l b IH|v|gs IH|b d r a|]
    using node_nested_ind; intros Hn w w' Hw Hj; cbn [wireNode] in Hw.
  - crossed. cbn -[decodeArgs]. by erewrite args_chain.
  - crossed. cbn -[decodeArgs]. by erewrite args_chain.
  - crossed. cbn -[decodeArgs]. by erewrite args_chain.
  - crossed. cbn -[decodeVal]. by erewrite val_chain.
  - cbn in Hn. apply andb_true_iff in Hn as [[Hc Ht]%andb_true_iff He]. crossed. cbn -[decodeExpr].
    erewrite expr_chain by done. simpl. nodes_step. simpl. by nodes_step.
  - crossed. cbn -[decodeNode]. apply fmap_Ok. eexists. split; [|reflexivity].
    eapply (entries_chain to_valid_utf8 (λ ns, res_traverse (λ x, wireNode x) ns) (λ ns, res_traverse (λ x, json_node x) ns)
      (λ ns, res_traverse (λ x, decodeNode x) ns) (λ ns, (λ x, image_node x) <$> ns)); [|done|done].
    apply (Forall_checked _ (λ b, match b with (_, ns) => forallb (λ x, lits_node x) ns end)); [|exact Hn].
    eapply Forall_impl; [exact IH|]. intros [bind ns] Hns Hb ws ws'. by apply nodes_chain.
  - cbn in Hn. apply andb_true_iff in Hn as [Hc Hb]. crossed. cbn -[decodeVal].
    erewrite val_chain by done. simpl. by nodes_step.
  - cbn in Hn. apply andb_true_iff in Hn as [Hc Hb]. crossed. cbn -[decodeExpr].
    erewrite expr_chain by done. simpl. by nodes_step.
  - cbn in Hn. apply andb_true_iff in Hn as [Hc Hb]. crossed. cbn -[decodeExpr].
    erewrite expr_chain by done. simpl. by nodes_step.
  - crossed. cbn -[decodeVal]. by erewrite val_chain.
  - crossed. cbn -[decodeNode]. apply fmap_Ok. eexists. split; [|reflexivity].
    eapply (entries_chain json_head wireNode json_node decodeNode image_node); [|done|done].
    apply (Forall_checked _ (λ g, match g with (_, x) => lits_node x end)); [|exact Hn].
    eapply Forall_impl; [exact IH|]. by intros [].
  - crossed. cbn -[decodeArgs]. by erewrite args_chain.
  - done.
Qed.

(** ** What the encoder accepts *)

Fixpoint encodable_val (o : operand) : bool :=
  match o with
  | Lit v => match v with VList _ | VMap _ => false | VFloat f => match f with FFin _ _ _ => true | _ => false end | _ => true end
  | Object fs => forallb (λ f, match f with (_, x) => encodable_val x end) fs
  | EList l | Template l => forallb (λ x, encodable_val x) l
  | Ref _ | NilValue => true
  end.
Fixpoint encodable_expr (e : expr) : bool :=
  match e with
  | Leaf v => encodable_val v
  | Not x => encodable_expr x
  | BinOp _ x y => encodable_expr x && encodable_expr y
  | NilExpr => false
  end.
Definition encodable_args (a : args) : bool := forallb (λ kv, encodable_val kv.2) (map_to_list a).
Fixpoint encodable_node (n : node) : bool :=
  let nodes l := forallb (λ x, encodable_node x) l in
  match n with
  | InvokeTool _ _ a | InvokeAgent _ _ a _ | InvokeWorkflow _ _ a _ _ | Approval _ _ _ a => encodable_args a
  | Let _ v | Return v => encodable_val v
  | Branch c t e => encodable_expr c && nodes t && nodes e
  | Fork bs => forallb (λ b, match b with (_, ns) => nodes ns end) bs
  | Loop _ c b _ => encodable_val c && nodes b
  | While c _ b | Retry c _ b => encodable_expr c && nodes b
  | Graph gs => forallb (λ g, match g with (_, x) => encodable_node x end) gs
  | NilNode => false
  end.

Definition crosses {A B C} (f : A → res wire_error B) (j : B → res wire_error C) (x : A) : Prop :=
  ∃ w w', f x = Ok w ∧ j w = Ok w'.

Lemma list_crosses {A B C} (f : A → res wire_error B) (j : B → res wire_error C) l :
  crosses (res_traverse f) (res_traverse j) l ↔ Forall (crosses f j) l.
Proof.
  induction l as [|x l IH].
  - split; [constructor|]. intros _. by exists [], [].
  - rewrite Forall_cons, <-IH. unfold crosses. simpl. split.
    + intros (ws & ws' & (w & Hw & (ws0 & Hws & [= <-])%bind_Ok)%bind_Ok & Hj). simpl in Hj.
      apply bind_Ok in Hj as (w' & Hw' & (ws0' & Hws' & [= <-])%bind_Ok). eauto 10.
    + intros [(w & w' & Hw & Hw') (ws & ws' & Hws & Hws')]. exists (w :: ws), (w' :: ws').
      rewrite Hw, Hws. simpl. by rewrite Hw', Hws'.
Qed.

Lemma entries_crosses {K A B C} (fk : K → K) (f : A → res wire_error B) (j : B → res wire_error C) l :
  crosses (res_traverse (λ kx, match kx with (k, x) => w ← f x; mret (k, w) end))
    (res_traverse (λ kw, match kw with (k, w) => w ← j w; mret (fk k, w) end)) l ↔
  Forall (λ kx : K * A, crosses f j kx.2) l.
Proof.
  rewrite list_crosses. apply Forall_proper; [|done]. intros [k x]. unfold crosses. simpl. split.
  - intros (w & w' & (w0 & Hw & [= <-])%bind_Ok & (w1 & Hj & [= <-])%bind_Ok). eauto.
  - intros (w & w' & Hw & Hj). exists (k, w), (fk k, w'). rewrite Hw. simpl. by rewrite Hj.
Qed.

Lemma map_crosses {A B C} (f : A → res wire_error B) (j : B → res wire_error C) (m : gmap string A) :
  crosses (map_traverse f) (λ m, json_map <$> map_traverse j m) m ↔
  Forall (λ kx, crosses f j kx.2) (map_to_list m).
Proof.
  rewrite Forall_forall. split.
  - intros (w & w' & Hw & (w0 & Hj & ->)%fmap_Ok) [k x] Hx%elem_of_map_to_list. simpl.
    pose proof (map_traverse_lookup f m w k Hw) as H1. pose proof (map_traverse_lookup j w w0 k Hj) as H2.
    rewrite Hx in H1. inversion H1 as [x' y Hy E Ey|]; subst. rewrite <-Ey in H2.
    inversion H2 as [y' z Hz E Ez|]; subst. by exists y, z.
  - intros Hm. destruct (map_traverse f m) as [w|e] eqn:Ew.
    + destruct (map_traverse j w) as [w'|e] eqn:Ej; [exists w, (json_map w'); split; [done|by rewrite Ej]|].
      exfalso. apply map_traverse_Err in Ej as (k & y & Hk & He).
      pose proof (map_traverse_lookup f m w k Ew) as H1. rewrite Hk in H1. inversion H1 as [x y' Hx Ex Ey|]; subst.
      destruct (Hm (k, x)) as (y2 & z & ? & ?); [by apply elem_of_map_to_list|]. simplify_eq/=. congruence.
    + exfalso. apply map_traverse_Err in Ew as (k & x & Hk & He).
      destruct (Hm (k, x)) as (y & z & ? & ?); [by apply elem_of_map_to_list|]. simplify_eq/=. congruence.
Qed.

Lemma Forall_forallb {A} (P : A → Prop) (b : A → bool) l :
  Forall (λ x, P x ↔ b x = true) l → (Forall P l ↔ forallb b l = true).
Proof. induction 1 as [|x l Hx _ IH]; [by split|]. simpl. by rewrite Forall_cons, andb_true_iff, Hx, IH. Qed.

Lemma val_crosses o : crosses wireVal json_val o ↔ encodable_val o = true.
Proof.
  induction o as [p|v|fs IH|l IH|l IH|] using operand_nested_ind.
  - split; [done|]. intros _. by do 2 eexists.
  - split.
    + intros (w & w' & Hw & Hj). destruct v as [|b|i|f|s|l|m]; try done. cbn in Hw. injection Hw as <-.
      by destruct f.
    + intros Hv. destruct v as [|b|i|f|s|l|m]; try done; try (by do 2 eexists). destruct f; try done. by do 2 eexists.
  - cbn [encodable_val]. rewrite <-(Forall_forallb (λ kx, crosses wireVal json_val kx.2)),
      <-(entries_crosses to_valid_utf8) by (eapply Forall_impl; [exact IH|]; by intros []).
    split.
    + intros (w & w' & (ws & Hws & [= <-])%bind_Ok & Hj). cbn in Hj. apply bind_Ok in Hj as (ws' & Hws' & _).
      by exists ws, ws'.
    + intros (ws & ws' & Hws & Hws'). unfold crosses. cbn [wireVal]. rewrite Hws. do 2 eexists. split; [done|]. cbn.
      by rewrite Hws'.
  - cbn [encodable_val]. rewrite <-(Forall_forallb (crosses wireVal json_val)), <-list_crosses by exact IH. split.
    + intros (w & w' & (ws & Hws & [= <-])%bind_Ok & Hj). cbn in Hj. apply bind_Ok in Hj as (ws' & Hws' & _).
      by exists ws, ws'.
    + intros (ws & ws' & Hws & Hws'). exists (mkValW "list" [] "" VNil [] ws []). eexists. cbn [wireVal json_val].
      split; [by apply bind_Ok; exists ws|]. cbn. apply bind_Ok. exists ws'. split; [exact Hws'|reflexivity].
  - cbn [encodable_val]. rewrite <-(Forall_forallb (crosses wireVal json_val)), <-list_crosses by exact IH. split.
    + intros (w & w' & (ws & Hws & [= <-])%bind_Ok & Hj). cbn in Hj. apply bind_Ok in Hj as (ws' & Hws' & _).
      by exists ws, ws'.
    + intros (ws & ws' & Hws & Hws'). exists (mkValW "template" [] "" VNil [] [] ws). eexists. cbn [wireVal json_val].
      split; [by apply bind_Ok; exists ws|]. cbn. apply bind_Ok. exists ws'. split; [exact Hws'|reflexivity].
  - split; [done|]. intros _. by do 2 eexists.
Qed.

Lemma expr_crosses e : crosses wireExpr json_expr e ↔ encodable_expr e = true.
Proof.
  induction e as [v|x IHx|op x IHx y IHy|]; cbn [encodable_expr].
  - rewrite <-val_crosses. split.
    + intros (w & w' & Hw & Hj). cbn in Hw. crossed. cbn in Hj. crossed. by do 2 eexists.
    + intros (w & w' & Hw & Hj). exists (mkExprW "leaf" (Some w) None None ""). eexists. cbn.
      rewrite Hw. split; [done|]. cbn. by rewrite Hj.
  - rewrite <-IHx. split.
    + intros (w & w' & Hw & Hj). cbn in Hw. crossed. cbn in Hj. crossed. by do 2 eexists.
    + intros (w & w' & Hw & Hj). exists (mkExprW "not" None (Some w) None ""). eexists. cbn.
      rewrite Hw. split; [done|]. cbn. by rewrite Hj.
  - rewrite andb_true_iff, <-IHx, <-IHy. split.
    + intros (w & w' & Hw & Hj). cbn in Hw. crossed. cbn in Hj. crossed. split; by do 2 eexists.
    + intros [(w & w' & Hw & Hj) (v & v' & Hv & Hj')]. exists (mkExprW "binop" None (Some w) (Some v) op). eexists.
      cbn. rewrite Hw. cbn. rewrite Hv. split; [done|]. cbn. rewrite Hj. cbn. by rewrite Hj'.
  - split; [|done]. by intros (w & w' & [=] & _).
Qed.

Lemma args_crosses a : crosses wireArgs json_args a ↔ encodable_args a = true.
Proof.
  unfold encodable_args. rewrite <-(Forall_forallb (λ kx, crosses wireVal json_val kx.2)); [apply map_crosses|].
  apply Forall_forall. intros [k o] _. apply val_crosses.
Qed.

Lemma nodes_crosses l :
  Forall (λ n, crosses wireNode json_node n ↔ encodable_node n = true) l →
  crosses (λ l, res_traverse (λ x, wireNode x) l) (λ l, res_traverse (λ x, json_node x) l) l ↔
    forallb (λ x, encodable_node x) l = true.
Proof. intros Hl. rewrite <-(Forall_forallb (crosses wireNode json_node)) by done. apply list_crosses. Qed.

(** Both directions of a constructor. *)
Ltac cross_in := intros (w & w' & Hw & Hj); cbn [wireNode] in Hw; crossed; repeat split; by do 2 eexists.
Ltac cross_out :=
  intros; repeat match goal with
    | H : _ ∧ _ |- _ => destruct H
    | H : crosses _ _ _ |- _ => destruct H as (? & ? & ? & ?)
    end;
  do 2 eexists; split; cbn [wireNode];
    [repeat match goal with H : ?m = Ok _ |- context [?m ≫= _] => rewrite H; simpl end; reflexivity|];
  cbn -[json_args]; rewrite ?json_args_empty; cbn -[json_args];
  repeat match goal with H : ?m = Ok _ |- context [?m] => rewrite H; cbn -[json_args] end; reflexivity.

Lemma node_crosses n : crosses wireNode json_node n ↔ encodable_node n = true.
Proof.
  induction n as [b u a|b u a wd|b u a wd pv|b v|c t e IHt IHe|bs IH|x c b p IH|c l b IH|c l b IH|v|gs IH|b d r a|]
    using node_nested_ind; cbn [encodable_node].
  - rewrite <-args_crosses. split; [cross_in|cross_out].
  - rewrite <-args_crosses. split; [cross_in|cross_out].
  - rewrite <-args_crosses. split; [cross_in|cross_out].
  - rewrite <-val_crosses. split; [cross_in|cross_out].
  - rewrite !andb_true_iff, <-(nodes_crosses t IHt), <-(nodes_crosses e IHe), <-expr_crosses. split; [cross_in|cross_out].
  - rewrite <-(Forall_forallb (λ b, crosses (λ l, res_traverse (λ x, wireNode x) l) (λ l, res_traverse (λ x, json_node x) l) b.2))
      by (eapply Forall_impl; [exact IH|]; intros [x ns]; apply nodes_crosses).
    rewrite <-(entries_crosses to_valid_utf8). split; [cross_in|cross_out].
  - rewrite andb_true_iff, <-(nodes_crosses b IH), <-val_crosses. split; [cross_in|cross_out].
  - rewrite andb_true_iff, <-(nodes_crosses b IH), <-expr_crosses. split; [cross_in|cross_out].
  - rewrite andb_true_iff, <-(nodes_crosses b IH), <-expr_crosses. split; [cross_in|cross_out].
  - rewrite <-val_crosses. split; [cross_in|cross_out].
  - rewrite <-(Forall_forallb (λ g, crosses wireNode json_node g.2)) by (eapply Forall_impl; [exact IH|]; by intros []).
    rewrite <-(entries_crosses json_head). split; [cross_in|cross_out].
  - rewrite <-args_crosses. split; [cross_in|cross_out].
  - split; [|done]. by intros (w & w' & [=] & _).
Qed.

(** ** The theorems *)

Lemma program_chain p : lits_program p = true → chain wireProgram json_program decodeProgram image_program p.
Proof.
  intros Hp w w' (b & Hb & [= <-])%bind_Ok (b' & Hb' & [= <-])%bind_Ok.
  assert (Forall (λ n, lits_node n = true → chain wireNode json_node decodeNode image_node n) (Body p)) as Hl
    by (apply Forall_forall; intros n _; apply node_chain).
  apply bind_Ok. eexists. split; [exact (nodes_chain (Body p) b b' Hl Hp Hb Hb')|reflexivity].
Qed.

Lemma program_crosses p : crosses wireProgram json_program p ↔ forallb encodable_node (Body p) = true.
Proof.
  rewrite <-(nodes_crosses (Body p)) by (apply Forall_forall; intros n _; apply node_crosses). split.
  - intros (w & w' & (b & Hb & [= <-])%bind_Ok & (b' & Hb' & _)%bind_Ok). by exists b, b'.
  - intros (b & b' & Hb & Hb'). unfold crosses, wireProgram, wireNodes. exists (mkProgramW (Workflow p) (Params p) b).
    eexists. split; [by apply bind_Ok; exists b|]. apply bind_Ok. exists b'. split; [exact Hb'|reflexivity].
Qed.

Lemma marshal_unfold ps payload :
  MarshalPrograms ps = Ok payload ↔ ∃ ws ws', map_traverse wireProgram (omap id ps) = Ok ws ∧
    json_map <$> map_traverse json_program ws = Ok ws' ∧ payload = mkProgramsW ProgramFormatV1 ws'.
Proof.
  unfold MarshalPrograms. split.
  - intros (ws & Hws & (ws' & Hws' & [= <-])%bind_Ok)%bind_Ok. exists ws, (json_map ws'). by rewrite Hws'.
  - intros (ws & ws' & Hws & (ws0 & Hws' & ->)%fmap_Ok & ->). apply bind_Ok. exists ws. split; [exact Hws|].
    apply bind_Ok. by exists ws0.
Qed.

(** Round trip: a payload the encoder writes decodes to the programs it was
    written from, their strings respelled as valid UTF-8 and their absent operands
    null literals. *)
Theorem programs_roundtrip ps payload :
  (∀ name p, ps !! name = Some (Some p) → lits_program p = true) →
  MarshalPrograms ps = Ok payload →
  UnmarshalPrograms payload = Ok (json_map (image_program <$> omap id ps)).
Proof.
  intros Hl (ws & ws' & Hws & Hws' & ->)%marshal_unfold. unfold UnmarshalPrograms. cbn [pw_FormatVersion].
  rewrite (proj2 (String.eqb_eq _ _)) by done.
  refine (map_chain wireProgram json_program decodeProgram image_program (omap id ps) _ ws ws' Hws Hws').
  intros name p Hp. apply program_chain. apply lookup_omap_Some in Hp as ([q|] & [= ->] & Hp). by eapply Hl.
Qed.

(** A program with an approval, a graph, a loop, a bounded retry and a literal that
    is not valid UTF-8. *)
Definition sample_program : program :=
  {| Workflow := "deploy"; Params := ["pr"];
     Body :=
       [Approval "ok" "ship it?" ["token"] {["n" := Lit (VInt (2 ^ 60 + 1))]};
        Graph [("a", [], InvokeTool "a" "tool.gh.get" {["repo" := Ref ["pr"; "repo"]]});
               ("b", ["a"], InvokeAgent "b" "rev" {["arg0" := Ref ["a"]]} true)];
        Loop "x" (EList [Lit (VStr (String (ascii_of_N 255) "")); NilValue]) [Let "y" (Object [("k", Template [Ref ["x"]])])] true;
        Retry (BinOp "==" (Leaf (Ref ["b"; "ok"])) (Not (Leaf (Lit (VBool false))))) 3
          [InvokeWorkflow "w" "sub" ∅ true true];
        Return (Lit VNil)] |}.

Lemma programs_roundtrip_witness : ∃ payload,
  MarshalPrograms {["deploy" := Some sample_program]} = Ok payload ∧
  UnmarshalPrograms payload = Ok (json_map (image_program <$> omap id {["deploy" := Some sample_program]})).
Proof.
  eexists. split; [vm_compute; reflexivity|]. apply programs_roundtrip; [|vm_compute; reflexivity].
  intros name p [<- [= <-]]%lookup_singleton_Some. reflexivity.
Defined.

(** Fail closed: the encoder succeeds exactly on programs without nil nodes and
    conditions whose literals are scalars JSON can write; nothing is dropped. *)
Theorem MarshalPrograms_ok_iff ps :
  (∃ payload, MarshalPrograms ps = Ok payload) ↔
  ∀ name p, ps !! name = Some (Some p) → forallb encodable_node (Body p) = true.
Proof.
  assert ((∃ payload, MarshalPrograms ps = Ok payload) ↔
    crosses (map_traverse wireProgram) (λ m, json_map <$> map_traverse json_program m) (omap id ps)) as ->.
  { split.
    - intros (payload & (ws & ws' & ? & ? & _)%marshal_unfold). by exists ws, ws'.
    - intros (ws & ws' & ? & ?). eexists. apply marshal_unfold. by exists ws, ws'. }
  rewrite map_crosses, Forall_forall. split.
  - intros H name p Hp. apply program_crosses. apply (H (name, p)), elem_of_map_to_list, lookup_omap_Some.
    by exists (Some p).
  - intros H [name p] Hp%elem_of_map_to_list. apply program_crosses, (H name).
    apply lookup_omap_Some in Hp as ([q|] & [= ->] & Hp). done.
Qed.
