(* ===== verification/ExecDigest.v ===== *)
(** * The digest of a program ([internal/execir/digest.go])

    A position-independent text of the executable shape and its SHA-256.  The
    printable runes of [strconv.Quote] and SHA-256 are parameters.  The text of a
    program whose names are plain determines its shape ([shape_program]), so equal
    digests mean equal shapes or a collision of the hash; names that are not plain
    can imitate the syntax (the examples at the end). *)

From S2P Require Import Prelude GoNum GoText Value JsonText GoQuote ExecIR ExecWire.

Local Open Scope nat_scope.

(** A [strings.Builder] fed by a loop. *)
Definition cat (l : list string) : string := foldr String.append "" l.

Section digest.
Context (is_print : chars → bool).

(** ** The encoding *)

(** The integer literals of a program are int64 ([VInt]): both lowerings make them so
    ([canonicalScalar], [parseNumber]), and the [int] of the default case does not occur. *)
Definition litKey (v : value) : string :=
  match v with
  | VStr s => "s" +:+ Quote is_print s
  | VInt i => "i" +:+ fmt_Z i
  | VFloat f => "f" +:+ format_float_g f
  | VBool b => "b" +:+ fmt_bool b
  | v => "x" +:+ fmt_v v
  end.

Fixpoint encodeValue (o : operand) : string :=
  match o with
  | Ref path => "ref:" +:+ join "." path
  | Lit v => "lit:" +:+ litKey v
  | Object fs =>
      let fields := sort_by fst ((λ f, match f with (k, x) => (k, encodeValue x) end) <$> fs) in
      "obj{" +:+ (cat ((λ f, f.1 +:+ ("=" +:+ (f.2 +:+ ","))) <$> fields) +:+ "}")
  | EList es => "list[" +:+ (cat ((λ x, encodeValue x +:+ ",") <$> es) +:+ "]")
  | Template ps => "tmpl(" +:+ (cat ((λ x, encodeValue x +:+ ";") <$> ps) +:+ ")")
  | NilValue => "nil"
  end.

Definition encodeArgs (a : args) : string :=
  "(" +:+ (cat ((λ kv, kv.1 +:+ ("=" +:+ (encodeValue kv.2 +:+ ","))) <$> sort_by fst (map_to_list a)) +:+ ")").

Fixpoint encodeExpr (e : expr) : string :=
  match e with
  | Leaf v => encodeValue v
  | Not x => "!(" +:+ (encodeExpr x +:+ ")")
  | BinOp op x y => "(" +:+ (encodeExpr x +:+ (op +:+ (encodeExpr y +:+ ")")))
  | NilExpr => "nilexpr"
  end.

Definition sortedCopy (l : list string) : list string := sort_strings l.

Fixpoint encodeNode (n : node) : string :=
  let encodeNodes ns := "{" +:+ (cat ((λ x, encodeNode x +:+ ";") <$> ns) +:+ "}") in
  match n with
  | InvokeTool bind uses a => "tool " +:+ (bind +:+ ("=" +:+ (uses +:+ encodeArgs a)))
  | InvokeAgent bind agent a wd =>
      "agent " +:+ (bind +:+ ("=" +:+ (agent +:+ ((if wd then "!doc" else "") +:+ encodeArgs a))))
  | InvokeWorkflow bind wf a wd pv =>
      "workflow " +:+ (bind +:+ ("=" +:+ (wf +:+ ((if wd then "!doc" else "") +:+
        ((if pv then "!value" else "") +:+ encodeArgs a)))))
  | Let bind v => "let " +:+ (bind +:+ ("=" +:+ encodeValue v))
  | Branch c t e =>
      "branch " +:+ (encodeExpr c +:+ ("then" +:+ (encodeNodes t +:+ ("else" +:+ encodeNodes e))))
  | Fork bs => "fork" +:+ cat ((λ b, match b with (x, ns) => x +:+ (":" +:+ encodeNodes ns) end) <$> bs)
  | Loop x c b par =>
      "loop " +:+ ((if par then "par " else "") +:+ (x +:+ (" in " +:+ (encodeValue c +:+ encodeNodes b))))
  | While c limit b => "while " +:+ (encodeExpr c +:+ (" limit " +:+ (fmt_Z limit +:+ encodeNodes b)))
  | Retry c limit b => "retry until " +:+ (encodeExpr c +:+ (" limit " +:+ (fmt_Z limit +:+ encodeNodes b)))
  | Return v => "return " +:+ encodeValue v
  | Graph gs =>
      let nodes := sort_by (λ g, g.1.1) ((λ g, match g with (hd, x) => (hd, encodeNode x) end) <$> gs) in
      "graph{" +:+ (cat ((λ g : string * list string * string,
        g.1.1 +:+ ("[" +:+ (join "," (sortedCopy g.1.2) +:+ ("]=" +:+ (g.2 +:+ ";"))))) <$> nodes) +:+ "}")
  | Approval bind desc rk a =>
      "approval " +:+ (bind +:+ (" desc:" +:+ (Quote is_print desc +:+ (" redact:[" +:+
        (join "," (sortedCopy rk) +:+ ("]" +:+ encodeArgs a))))))
  | NilNode => "?node"
  end.
Definition encodeNodes (ns : list node) : string :=
  "{" +:+ (cat ((λ x, encodeNode x +:+ ";") <$> ns) +:+ "}").

Definition encodeProgram (p : program) : string :=
  "wf(" +:+ (Workflow p +:+ (")params[" +:+ (join "," (Params p) +:+ ("]" +:+ encodeNodes (Body p))))).

(** A nil program has the digest of the empty text. *)
Definition Digest (sha256 : chars → chars) (p : option program) : string :=
  hashHex sha256 (match p with Some p => encodeProgram p | None => "" end).
End digest.

(** ** Names that imitate the syntax

    The encoding does not quote argument names: two arguments and one argument
    with a made-up name have the same text, whatever the hash. *)
Definition two_args : program :=
  {| Workflow := "w"; Params := []; Body := [InvokeTool "x" "tool.gh.merge"
       {["a" := Lit (VInt 1); "b" := Lit (VInt 2)]}] |}.
Definition one_arg : program :=
  {| Workflow := "w"; Params := []; Body := [InvokeTool "x" "tool.gh.merge" {["a=lit:i1,b" := Lit (VInt 2)]}] |}.

Theorem digest_collides sha256 is_print :
  Digest is_print sha256 (Some two_args) = Digest is_print sha256 (Some one_arg) ∧ two_args ≠ one_arg.
Proof.
  split; [unfold Digest; f_equal; vm_compute; reflexivity|].
  by intros [=].
Qed.

(** A nil operand comes back from the wire as a null literal, which has another
    text. *)
Theorem nil_operand_digest is_print :
  let p := {| Workflow := "w"; Params := []; Body := [Return NilValue] |} in
  ∃ payload q, MarshalPrograms {["w" := Some p]} = Ok payload ∧
    UnmarshalPrograms payload = Ok {["w" := q]} ∧ encodeProgram is_print q ≠ encodeProgram is_print p.
Proof.
  do 2 eexists. split; [vm_compute; reflexivity|]. split; [vm_compute; reflexivity|]. vm_compute. congruence.
Qed.

(** ** Plain programs *)

(** The bytes of names; no byte of the syntax is among them. *)
Definition name_char (c : ascii) : bool :=
  is_digit c || (97 <=? N_of_ascii c)%N && (N_of_ascii c <=? 122)%N || (65 <=? N_of_ascii c)%N && (N_of_ascii c <=? 90)%N ||
  bool_decide (c = "_"%char ∨ c = "-"%char ∨ c = "."%char ∨ c = "/"%char ∨ c = "+"%char).
Definition is_name (s : string) : bool := str_forall name_char s.
Definition nonempty_name (s : string) : bool := negb (s =? "")%string && is_name s.
Definition path_seg (s : string) : bool := nonempty_name s && negb (str_contains_byte "." s).

Definition plain_lit (v : value) : bool :=
  match v with
  | VList _ | VMap _ => false
  | VFloat f => is_name (format_float_g f)
  | _ => true
  end.

Fixpoint distinct (l : list string) : bool :=
  match l with [] => true | x :: l => negb (str_mem x l) && distinct l end.

Fixpoint plain_val (o : operand) : bool :=
  match o with
  | Ref path => forallb path_seg path
  | Lit v => plain_lit v
  | Object fs =>
      forallb (λ f, match f with (k, x) => nonempty_name k && plain_val x end) fs && distinct (fst <$> fs)
  | EList l | Template l => forallb (λ x, plain_val x) l
  | NilValue => true
  end.
Definition plain_args (a : args) : bool := forallb (λ kv, nonempty_name kv.1 && plain_val kv.2) (map_to_list a).

Definition plain_op (op : string) : bool := str_mem op ["=="; "!="; "<"; "<="; ">"; ">="; "&&"; "||"].
Fixpoint plain_expr (e : expr) : bool :=
  match e with
  | Leaf v => plain_val v
  | Not x => plain_expr x
  | BinOp op x y => plain_op op && plain_expr x && plain_expr y
  | NilExpr => false
  end.

Fixpoint plain_node (n : node) : bool :=
  let nodes l := forallb (λ x, plain_node x) l in
  match n with
  | InvokeTool b u a | InvokeAgent b u a _ | InvokeWorkflow b u a _ _ => is_name b && is_name u && plain_args a
  | Let b v => is_name b && plain_val v
  | Branch c t e => plain_expr c && nodes t && nodes e
  | Fork bs => forallb (λ b, match b with (x, ns) => is_name x && nodes ns end) bs
  | Loop x c b _ => is_name x && plain_val c && nodes b
  | While c _ b | Retry c _ b => plain_expr c && nodes b
  | Return v => plain_val v
  | Graph gs =>
      forallb (λ g, match g with (hd, x) => nonempty_name hd.1 && forallb nonempty_name hd.2 && plain_node x end) gs &&
      distinct ((λ g, g.1.1) <$> gs)
  | Approval b _ rk a => is_name b && forallb nonempty_name rk && plain_args a
  | NilNode => false
  end.
Definition plain_program (p : program) : bool :=
  is_name (Workflow p) && forallb nonempty_name (Params p) && forallb plain_node (Body p).

(** ** Shapes

    What the digest identifies: the order of fields, of graph nodes, of needs and of
    redaction keys, and floats of one spelling. *)
Definition shape_lit (v : value) : value :=
  match v with VFloat f => VMap [("float", VStr (format_float_g f))] | v => v end.
Fixpoint shape_val (o : operand) : operand :=
  match o with
  | Lit v => Lit (shape_lit v)
  | Object fs => Object (sort_by fst ((λ f, match f with (k, x) => (k, shape_val x) end) <$> fs))
  | EList es => EList ((λ x, shape_val x) <$> es)
  | Template ps => Template ((λ x, shape_val x) <$> ps)
  | o => o
  end.
Fixpoint shape_expr (e : expr) : expr :=
  match e with
  | Leaf v => Leaf (shape_val v)
  | Not x => Not (shape_expr x)
  | BinOp op x y => BinOp op (shape_expr x) (shape_expr y)
  | NilExpr => NilExpr
  end.
Fixpoint shape_node (n : node) : node :=
  let nodes l := (λ x, shape_node x) <$> l in
  match n with
  | InvokeTool b u a => InvokeTool b u (shape_val <$> a)
  | InvokeAgent b u a wd => InvokeAgent b u (shape_val <$> a) wd
  | InvokeWorkflow b u a wd pv => InvokeWorkflow b u (shape_val <$> a) wd pv
  | Let b v => Let b (shape_val v)
  | Branch c t e => Branch (shape_expr c) (nodes t) (nodes e)
  | Fork bs => Fork ((λ b, match b with (x, ns) => (x, nodes ns) end) <$> bs)
  | Loop x c b p => Loop x (shape_val c) (nodes b) p
  | While c l b => While (shape_expr c) l (nodes b)
  | Retry c l b => Retry (shape_expr c) l (nodes b)
  | Return v => Return (shape_val v)
  | Graph gs => Graph (sort_by gn_id ((λ g, match g with (hd, x) =>
      (hd.1, sort_strings hd.2, shape_node x) end) <$> gs))
  | Approval b d rk a => Approval b d (sort_strings rk) (shape_val <$> a)
  | NilNode => NilNode
  end.
Definition shape_program (p : program) : program :=
  {| Workflow := Workflow p; Params := Params p; Body := shape_node <$> Body p |}.

(** ** Unambiguity *)

(** The text after a name: it does not continue the name. *)
Definition follows (r : string) : Prop := match r with "" => True | String c _ => name_char c = false end.

Lemma span_inj p a b r1 r2 :
  str_forall p a = true → str_forall p b = true →
  (∀ c t, r1 = String c t → p c = false) → (∀ c t, r2 = String c t → p c = false) →
  a +:+ r1 = b +:+ r2 → a = b ∧ r1 = r2.
Proof.
  revert b. induction a as [|c a IH]; intros [|d b] Ha Hb H1 H2; rewrite ?string_app_cons, ?string_app_nil_l; simpl in *.
  - done.
  - intros ->. apply andb_true_iff in Hb as [Hd _]. by rewrite (H1 d (b +:+ r2) eq_refl) in Hd.
  - intros <-. apply andb_true_iff in Ha as [Hc _]. by rewrite (H2 c (a +:+ r1) eq_refl) in Hc.
  - intros [= <- H]. bool_inv. destruct (IH b) as [-> ->]; done.
Qed.

Lemma string_app_inv_tail (s a b : string) : a +:+ s = b +:+ s → a = b.
Proof.
  intros H%(f_equal String.list_ascii_of_string). rewrite !list_ascii_of_app in H.
  apply app_inv_tail in H. by apply list_ascii_of_inj.
Qed.

(** A name, a fixed word of name bytes, and a text that does not continue it. *)
Lemma name_inj sep a b r1 r2 :
  is_name sep = true → is_name a = true → is_name b = true → follows r1 → follows r2 →
  a +:+ (sep +:+ r1) = b +:+ (sep +:+ r2) → a = b ∧ r1 = r2.
Proof.
  intros Hs Ha Hb H1 H2. rewrite <-!string_app_assoc. intros H.
  assert (∀ r, follows r → ∀ c t, r = String c t → name_char c = false) as Hf by (by intros r Hr c t ->).
  unfold is_name in *.
  apply (span_inj name_char) in H as [H ->]; [|by rewrite str_forall_app, Ha|by rewrite str_forall_app, Hb|by apply Hf|by apply Hf].
  by apply string_app_inv_tail in H as ->.
Qed.

Lemma name_inj0 a b r1 r2 :
  is_name a = true → is_name b = true → follows r1 → follows r2 → a +:+ r1 = b +:+ r2 → a = b ∧ r1 = r2.
Proof. intros. by apply (name_inj "" a b r1 r2). Qed.

(** The text of a list of delimited items up to a closing byte. *)
Definition opens (close : ascii) (s : string) : Prop := ∃ c t, s = String c t ∧ c ≠ close.

Lemma opens_app close s r : opens close s → opens close (s +:+ r).
Proof. intros (c & t & -> & Hc). rewrite string_app_cons. by exists c, (t +:+ r). Qed.

Lemma cat_cons x l : cat (x :: l) = x +:+ cat l.
Proof. done. Qed.

Lemma items_inj {A} (E : A → string) (R : A → A → Prop) (P : A → Prop) close xs ys r1 r2 :
  Forall P xs → Forall P ys → (∀ x, P x → opens close (E x)) →
  Forall (λ x, ∀ y r1 r2, P y → E x +:+ r1 = E y +:+ r2 → R x y ∧ r1 = r2) xs →
  cat (E <$> xs) +:+ String close r1 = cat (E <$> ys) +:+ String close r2 → Forall2 R xs ys ∧ r1 = r2.
Proof.
  intros Hxs Hys Ho HE. revert ys Hys. induction HE as [|x xs Hx _ IH]; intros [|y ys] Hys.
  - intros [= ->]. by split.
  - rewrite fmap_cons, cat_cons. change (cat (E <$> [])) with "". rewrite string_app_nil_l, string_app_assoc.
    apply Forall_cons in Hys as [Hy _]. destruct (Ho y Hy) as (c & t & -> & Hc). rewrite string_app_cons.
    intros [= -> _]. done.
  - rewrite fmap_cons, cat_cons. change (cat (E <$> [])) with "". rewrite string_app_nil_l, string_app_assoc.
    apply Forall_cons in Hxs as [Hx' _]. destruct (Ho x Hx') as (c & t & -> & Hc). rewrite string_app_cons.
    intros [= -> _]. done.
  - rewrite !fmap_cons, !cat_cons, !string_app_assoc. apply Forall_cons in Hxs as [Hx' Hxs].
    apply Forall_cons in Hys as [Hy Hys]. intros [HR H]%Hx; [|done]. apply IH in H as [HRs ->]; [|done..].
    split; [by constructor|done].
Qed.

Lemma str_forall_impl (p q : ascii → bool) s :
  (∀ c, p c = true → q c = true) → str_forall p s = true → str_forall q s = true.
Proof. intros Hpq. induction s as [|c s IH]; [done|]. simpl. intros [? ?]%andb_true_iff. by rewrite Hpq, IH. Qed.

Lemma digits_name s : str_forall is_digit s = true → is_name s = true.
Proof. apply str_forall_impl. intros c Hc. unfold name_char. by rewrite Hc. Qed.

Lemma fmt_Z_name z : is_name (fmt_Z z) = true.
Proof.
  unfold fmt_Z. destruct z as [|p|p]; [done|apply digits_name, pretty_N_digits|].
  change (pretty (Z.neg p)) with ("-" +:+ pretty (N.pos p)). unfold is_name. rewrite str_forall_app.
  apply andb_true_iff. split; [done|]. apply digits_name, pretty_N_digits.
Qed.

Lemma cons_inj c (s t : string) : String c s = String c t → s = t.
Proof. by intros [=]. Qed.

(** Equal texts: fixed parts that differ are absurd, equal ones cancel. *)
Ltac fixed H :=
  rewrite ?string_app_assoc, ?string_app_cons, ?string_app_nil_l in H;
  repeat match type of H with
  | String ?c _ = String ?c _ => apply cons_inj in H
  | String _ _ = String _ _ => discriminate H
  end.

Section unamb.
Context (is_print : chars → bool).
#[local] Abbreviation litKey := (litKey is_print).
#[local] Abbreviation encodeValue := (encodeValue is_print).
#[local] Abbreviation encodeExpr := (encodeExpr is_print).
#[local] Abbreviation encodeNode := (encodeNode is_print).
#[local] Abbreviation encodeArgs := (encodeArgs is_print).

Lemma litKey_inj sep v w r1 r2 :
  is_name sep = true → plain_lit v = true → plain_lit w = true → follows r1 → follows r2 →
  litKey v +:+ (sep +:+ r1) = litKey w +:+ (sep +:+ r2) → shape_lit v = shape_lit w ∧ r1 = r2.
Proof.
  intros Hs Hv Hw H1 H2 H. destruct v as [|b1|i1|f1|s1|l1|m1], w as [|b2|i2|f2|s2|l2|m2]; try done;
    cbn [plain_lit litKey] in *; fixed H.
  - by apply string_app_inv_head, string_app_inv_head in H as ->.
  - apply (name_inj sep) in H as [Hb ->]; [|by destruct b1, b2..]. by destruct b1, b2.
  - apply (name_inj sep) in H as [Hb%(inj pretty) ->]; [|done|apply fmt_Z_name..|done|done]. by subst.
  - apply (name_inj sep) in H as [Hb ->]; [|done..]. simpl. by rewrite Hb.
  - apply Quote_inj in H as [-> H]. by apply string_app_inv_head in H as ->.
Qed.

(** The first byte of an operand. *)
Lemma encodeValue_start o : ∃ c t, encodeValue o = String c t ∧ c ∈ ["r"; "l"; "o"; "t"; "n"]%char.
Proof. destruct o; do 2 eexists; (split; [reflexivity|set_solver]). Qed.

Lemma value_opens close o sep : name_char close = false → opens close (encodeValue o +:+ sep).
Proof.
  intros Hc. destruct (encodeValue_start o) as (c & t & -> & Hin). rewrite string_app_cons.
  exists c, (t +:+ sep). split; [done|]. intros ->. by repeat (apply elem_of_cons in Hin as [->|Hin]); [..|apply elem_of_nil in Hin].
Qed.

Lemma name_opens close k r : nonempty_name k = true → name_char close = false → opens close (k +:+ r).
Proof.
  unfold nonempty_name, is_name. intros [Hk Hn]%andb_true_iff Hc. destruct k as [|c k]; [done|]. rewrite string_app_cons.
  exists c, (k +:+ r). split; [done|]. intros ->. simpl in Hn. by rewrite Hc in Hn.
Qed.

Lemma distinct_NoDup l : distinct l = true → NoDup l.
Proof.
  induction l as [|x l IH]; [constructor|]. simpl. intros [Hx Hl]%andb_true_iff. constructor; [|by apply IH].
  intros Hin. apply str_mem_spec in Hin. by rewrite Hin in Hx.
Qed.

Lemma nonempty_is k : nonempty_name k = true → is_name k = true.
Proof. unfold nonempty_name. by intros [_ ?]%andb_true_iff. Qed.

Lemma path_inj sep p q r1 r2 :
  is_name sep = true → forallb path_seg p = true → forallb path_seg q = true → follows r1 → follows r2 →
  join "." p +:+ (sep +:+ r1) = join "." q +:+ (sep +:+ r2) → p = q ∧ r1 = r2.
Proof.
  intros Hs Hp Hq H1 H2 H.
  assert (∀ p, forallb path_seg p = true → is_name (join "." p) = true ∧
    Forall (λ s, s ≠ "" ∧ str_contains_byte "." s = false) p) as Hsegs.
  { clear. intros p Hp. rewrite forallb_forall in Hp. split.
    - induction p as [|x p IH]; [done|]. rewrite join_cons.
      assert (is_name x = true) as Hx by (apply nonempty_is; destruct (andb_true_iff (nonempty_name x) (negb (str_contains_byte "." x))) as [Hb _];
        by apply Hb, (Hp x); left).
      destruct p as [|y p]; [done|]. unfold is_name in *. rewrite !str_forall_app, Hx. simpl.
      apply IH. intros z Hz. apply Hp. by right.
    - apply Forall_forall. intros x Hx%list_elem_of_In. specialize (Hp x Hx). unfold path_seg, nonempty_name in Hp.
      by bool_inv. }
  destruct (Hsegs p Hp) as [Np Sp], (Hsegs q Hq) as [Nq Sq].
  apply name_inj in H as [H ->]; [|done..]. by apply join_inj in H as ->.
Qed.

(** An operand that its text determines, whatever follows. *)
Definition value_inj (x : operand) : Prop := ∀ sep y r1 r2,
  is_name sep = true → plain_val y = true → follows r1 → follows r2 →
  encodeValue x +:+ (sep +:+ r1) = encodeValue y +:+ (sep +:+ r2) → shape_val x = shape_val y ∧ r1 = r2.

Lemma delimited_inj d x y r1 r2 :
  value_inj x → name_char d = false → plain_val y = true →
  (encodeValue x +:+ String d "") +:+ r1 = (encodeValue y +:+ String d "") +:+ r2 →
  shape_val x = shape_val y ∧ r1 = r2.
Proof.
  intros Hx Hd Hy H. rewrite !string_app_assoc, !string_app_cons, !string_app_nil_l in H.
  destruct (Hx "" y (String d r1) (String d r2)) as [-> [= ->]]; done.
Qed.

(** A labelled operand. *)
Definition labelled (f : string * operand) : string := f.1 +:+ ("=" +:+ (encodeValue f.2 +:+ ",")).

Lemma labelled_inj f g r1 r2 :
  value_inj f.2 → nonempty_name f.1 = true → nonempty_name g.1 && plain_val g.2 = true →
  labelled f +:+ r1 = labelled g +:+ r2 → (f.1 = g.1 ∧ shape_val f.2 = shape_val g.2) ∧ r1 = r2.
Proof.
  intros Hf Hn [Hg Hy]%andb_true_iff H. unfold labelled in H.
  rewrite !string_app_assoc, !string_app_cons, !string_app_nil_l in H.
  apply name_inj0 in H as [-> H]; [|by apply nonempty_is..|done|done]. apply cons_inj in H.
  destruct (Hf "" g.2 (String "," r1) (String "," r2)) as [-> [= ->]]; done.
Qed.

Lemma labelled_list_inj close l1 l2 r1 r2 :
  name_char close = false →
  Forall (λ f, value_inj f.2) l1 →
  Forall (λ f, nonempty_name f.1 && plain_val f.2 = true) l1 →
  Forall (λ f, nonempty_name f.1 && plain_val f.2 = true) l2 →
  cat (labelled <$> l1) +:+ String close r1 = cat (labelled <$> l2) +:+ String close r2 →
  prod_map id shape_val <$> l1 = prod_map id shape_val <$> l2 ∧ r1 = r2.
Proof.
  intros Hc Hv H1 H2 H.
  apply (items_inj labelled (λ f g, f.1 = g.1 ∧ shape_val f.2 = shape_val g.2)
    (λ f, nonempty_name f.1 && plain_val f.2 = true)) in H as [HR ->]; [|done|done| |].
  - split; [|done]. clear -HR. induction HR as [|[k x] [k' y] l1 l2 [E1 E2] _ IH]; [done|].
    rewrite !fmap_cons, IH. simpl in *. unfold prod_map. simpl. by rewrite E1, E2.
  - intros f [Hf _]%andb_true_iff. by apply name_opens.
  - apply Forall_forall. intros f Hf g r r' Hg. rewrite Forall_forall in Hv, H1.
    specialize (H1 f Hf). apply andb_true_iff in H1 as [Hn _]. apply labelled_inj; [by apply Hv|done..].
Qed.

Lemma value_list_inj d close l1 l2 r1 r2 :
  name_char d = false → name_char close = false →
  Forall value_inj l1 → forallb plain_val l1 = true → forallb plain_val l2 = true →
  cat ((λ x, encodeValue x +:+ String d "") <$> l1) +:+ String close r1 =
  cat ((λ x, encodeValue x +:+ String d "") <$> l2) +:+ String close r2 →
  shape_val <$> l1 = shape_val <$> l2 ∧ r1 = r2.
Proof.
  intros Hd Hc Hv H1%forallb_Forall H2%forallb_Forall H.
  apply (items_inj _ (λ x y, shape_val x = shape_val y) (λ x, plain_val x = true)) in H as [HR ->]; [|done|done| |].
  - split; [|done]. clear -HR. induction HR as [|x y l1 l2 E _ IH]; [done|]. by rewrite !fmap_cons, IH, E.
  - intros x _. by apply value_opens.
  - eapply Forall_impl; [exact Hv|]. intros x Hx y r r' Hy. by apply delimited_inj.
Qed.

(** The fields of an object, sorted and encoded. *)
Lemma sorted_fields {B} (h : operand → B) fs :
  distinct (fst <$> fs) = true →
  sort_by fst ((λ f, match f with (k, x) => (k, h x) end) <$> fs) = prod_map id h <$> sort_by fst fs.
Proof.
  intros Hd. rewrite <-(sort_by_fmap fst fst (prod_map id h)); [|done|by apply distinct_NoDup].
  f_equal. apply list_fmap_ext. by intros ? [].
Qed.

Lemma Forall_sort_by {A} (P : A → Prop) f l : Forall P l → Forall P (sort_by f l).
Proof. rewrite !Forall_forall. intros H x. rewrite elem_of_sort_by. apply H. Qed.

Lemma encodeValue_inj x : plain_val x = true → value_inj x.
Proof.
  induction x as [p|v|fs IH|l IH|l IH|] using operand_nested_ind; intros Hx sep y r1 r2 Hs Hy H1 H2 H;
    destruct y as [q|w|gs|l'|l'|]; cbn [ExecDigest.encodeValue] in H; fixed H; cbn [plain_val] in Hx, Hy.
  - apply path_inj in H as [-> ->]; done.
  - apply litKey_inj in H as [Hl ->]; [|done..]. simpl. by rewrite Hl.
  - apply andb_true_iff in Hx as [Hx Dx], Hy as [Hy Dy].
    rewrite !(sorted_fields encodeValue), <-!list_fmap_compose in H by done.
    assert (∀ fs, forallb (λ f : string * operand, let (k, x) := f in nonempty_name k && plain_val x) fs = true →
      Forall (λ f, nonempty_name f.1 && plain_val f.2 = true) (sort_by fst fs)) as Hp.
    { intros l Hl%forallb_Forall. apply Forall_sort_by. eapply Forall_impl; [exact Hl|]. by intros []. }
    apply labelled_list_inj in H as [Hl Hr]; [|done| |by apply Hp|by apply Hp].
    + apply string_app_inv_head in Hr as ->. cbn [shape_val]. by rewrite !sorted_fields, Hl.
    + apply Forall_sort_by. apply forallb_Forall in Hx. rewrite Forall_forall in *. intros [k x] Hin.
      specialize (Hx _ Hin). apply (IH _ Hin). by apply andb_true_iff in Hx as [_ ?].
  - apply (value_list_inj ",") in H as [Hl Hr]; [|done|done|by eapply Forall_checked|done|done].
    apply string_app_inv_head in Hr as ->. cbn [shape_val]. split; [|done]. f_equal. exact Hl.
  - apply (value_list_inj ";") in H as [Hl Hr]; [|done|done|by eapply Forall_checked|done|done].
    apply string_app_inv_head in Hr as ->. cbn [shape_val]. split; [|done]. f_equal. exact Hl.
  - by apply string_app_inv_head in H as ->.
Qed.

Lemma args_inj a b r1 r2 :
  plain_args a = true → plain_args b = true → encodeArgs a +:+ r1 = encodeArgs b +:+ r2 →
  shape_val <$> a = shape_val <$> b ∧ r1 = r2.
Proof.
  unfold plain_args. intros Ha%forallb_Forall Hb%forallb_Forall H. unfold ExecDigest.encodeArgs in H. fixed H.
  apply labelled_list_inj in H as [Hl ->]; [|done| |by apply Forall_sort_by|by apply Forall_sort_by].
  - split; [|done]. apply map_to_list_inj. rewrite !map_to_list_fmap.
    rewrite <-(sort_by_Permutation fst (map_to_list a)), <-(sort_by_Permutation fst (map_to_list b)). by rewrite Hl.
  - apply Forall_sort_by. eapply Forall_impl; [exact Ha|]. intros [k x] [_ Hx]%andb_true_iff. by apply encodeValue_inj.
Qed.

Lemma encodeExpr_start e : plain_expr e = true → ∃ c t, encodeExpr e = String c t ∧ c ∈ ["r"; "l"; "o"; "t"; "n"; "!"; "("]%char.
Proof.
  destruct e as [v| | |]; intros He; try done.
  - destruct (encodeValue_start v) as (c & t & E & Hc). exists c, t. split; [done|]. set_solver.
  - do 2 eexists. split; [reflexivity|]. set_solver.
  - do 2 eexists. split; [reflexivity|]. set_solver.
Qed.

Lemma op_inj op1 op2 e1 e2 r1 r2 :
  plain_op op1 = true → plain_op op2 = true → plain_expr e1 = true → plain_expr e2 = true →
  op1 +:+ (encodeExpr e1 +:+ r1) = op2 +:+ (encodeExpr e2 +:+ r2) →
  op1 = op2 ∧ encodeExpr e1 +:+ r1 = encodeExpr e2 +:+ r2.
Proof.
  intros H1%str_mem_spec H2%str_mem_spec E1 E2.
  assert (∀ e r t, plain_expr e = true → encodeExpr e +:+ r ≠ String "=" t) as Heq.
  { intros e r t He. destruct (encodeExpr_start e He) as (c & t' & -> & Hc). rewrite string_app_cons.
    intros [= -> _]. by repeat (apply elem_of_cons in Hc as [Hc|Hc]; [discriminate Hc|]); apply elem_of_nil in Hc. }
  repeat (apply elem_of_cons in H1 as [->|H1]); try (by apply elem_of_nil in H1);
    repeat (apply elem_of_cons in H2 as [->|H2]); try (by apply elem_of_nil in H2); intros H; fixed H;
    try (by split); exfalso; first [by eapply Heq, H|by eapply Heq, (eq_sym H)].
Qed.

Lemma op_follows op r : plain_op op = true → follows (op +:+ r).
Proof.
  intros H%str_mem_spec. by repeat (apply elem_of_cons in H as [->|H]; [done|]); apply elem_of_nil in H.
Qed.

(** A leaf is told from a negation and a parenthesis by its first byte. *)
Lemma leaf_absurd v c t r1 r2 :
  c = "!"%char ∨ c = "("%char → encodeValue v +:+ r1 = String c t +:+ r2 → False.
Proof.
  intros Hc. destruct (encodeValue_start v) as (d & u & -> & Hd). rewrite !string_app_cons. intros [= -> _].
  by repeat (apply elem_of_cons in Hd as [->|Hd]; [destruct Hc; discriminate|]); apply elem_of_nil in Hd.
Qed.

Lemma encodeExpr_inj e : plain_expr e = true → ∀ sep f r1 r2,
  is_name sep = true → plain_expr f = true → follows r1 → follows r2 →
  encodeExpr e +:+ (sep +:+ r1) = encodeExpr f +:+ (sep +:+ r2) → shape_expr e = shape_expr f ∧ r1 = r2.
Proof.
  induction e as [v|x IH|op x IHx y IHy|]; intros He sep f r1 r2 Hs Hf H1 H2 H; [| | |done];
    destruct f as [w|x'|op' x' y'|]; try done; cbn [ExecDigest.encodeExpr plain_expr shape_expr] in *.
  - destruct (encodeValue_inj v He sep w r1 r2) as [-> ->]; done.
  - exfalso. eapply leaf_absurd, H. by left.
  - exfalso. eapply leaf_absurd, H. by right.
  - exfalso. eapply leaf_absurd, (eq_sym H). by left.
  - fixed H. destruct (IH He "" x' (String ")" (sep +:+ r1)) (String ")" (sep +:+ r2))) as [-> E]; [done..|].
    by apply cons_inj, string_app_inv_head in E as ->.
  - exfalso. eapply leaf_absurd, (eq_sym H). by right.
  - apply andb_true_iff in He as [[Ho Hx]%andb_true_iff Hy], Hf as [[Ho' Hx']%andb_true_iff Hy']. fixed H.
    destruct (IHx Hx "" x' (op +:+ (encodeExpr y +:+ String ")" (sep +:+ r1)))
      (op' +:+ (encodeExpr y' +:+ String ")" (sep +:+ r2)))) as [-> E]; [done|done|by apply op_follows..|done|].
    apply op_inj in E as [-> E]; [|done..].
    destruct (IHy Hy "" y' (String ")" (sep +:+ r1)) (String ")" (sep +:+ r2))) as [-> E']; [done..|].
    by apply cons_inj, string_app_inv_head in E' as ->.
Qed.

(** A node that its text determines, up to the semicolon after it. *)
Definition node_inj (n : node) : Prop := ∀ m r1 r2, plain_node m = true →
  encodeNode n +:+ String ";" r1 = encodeNode m +:+ String ";" r2 → shape_node n = shape_node m ∧ r1 = r2.

Lemma node_start n : ∃ c t, encodeNode n = String c t ∧ c ≠ "}"%char.
Proof. destruct n; by do 2 eexists. Qed.

Lemma nodes_inj xs ys r1 r2 :
  Forall node_inj xs → forallb (λ x, plain_node x) xs = true → forallb (λ x, plain_node x) ys = true →
  cat ((λ x, encodeNode x +:+ ";") <$> xs) +:+ String "}" r1 = cat ((λ x, encodeNode x +:+ ";") <$> ys) +:+ String "}" r2 →
  (λ x, shape_node x) <$> xs = (λ x, shape_node x) <$> ys ∧ r1 = r2.
Proof.
  intros Hi Hx%forallb_Forall Hy%forallb_Forall H.
  apply (items_inj _ (λ x y, shape_node x = shape_node y) (λ x, plain_node x = true)) in H as [HR ->]; [|done|done| |].
  - split; [|done]. clear -HR. induction HR as [|x y l1 l2 E _ IH]; [done|]. by rewrite !fmap_cons, IH, E.
  - intros x _. destruct (node_start x) as (c & t & -> & Hc). rewrite string_app_cons. by do 2 eexists.
  - eapply Forall_impl; [exact Hi|]. intros x Hx' y r r' Hy' H'. rewrite !string_app_assoc, !string_app_cons, !string_app_nil_l in H'.
    by apply Hx' in H'.
Qed.

Lemma names_inj l1 l2 r1 r2 :
  forallb nonempty_name l1 = true → forallb nonempty_name l2 = true →
  join "," l1 +:+ String "]" r1 = join "," l2 +:+ String "]" r2 → l1 = l2 ∧ r1 = r2.
Proof.
  assert (∀ l, forallb nonempty_name l = true → Forall (λ s, s ≠ "" ∧ is_name s = true) l) as Hn.
  { intros l Hl%forallb_Forall. eapply Forall_impl; [exact Hl|]. unfold nonempty_name. intros s [Hs ?]%andb_true_iff.
    split; [|done]. by intros ->. }
  intros H1%Hn H2%Hn H.
  assert (∀ c l, name_char c = false → Forall (λ s, s ≠ "" ∧ is_name s = true) l →
    Forall (λ s, s ≠ "" ∧ str_contains_byte c s = false) l) as Hc.
  { intros c l Hcc Hl. eapply Forall_impl; [exact Hl|]. intros s [? ?]. split; [done|]. by eapply str_forall_contains. }
  apply split_first_inj in H as [H ->].
  - split; [|done]. by apply join_inj in H; [|apply Hc..].
  - apply join_contains; [done|]. eapply Forall_impl; [by apply (Hc "]"%char)|]. by intros ? [].
  - apply join_contains; [done|]. eapply Forall_impl; [by apply (Hc "]"%char)|]. by intros ? [].
Qed.

Lemma bind_inj a b c r1 r2 :
  is_name a = true → is_name b = true → name_char c = false →
  a +:+ String c r1 = b +:+ String c r2 → a = b ∧ r1 = r2.
Proof. intros Ha Hb Hc H. by apply name_inj0 in H as [-> [= ->]]. Qed.

Lemma call_inj a b u u' r1 r2 :
  is_name u = true → is_name u' = true → plain_args a = true → plain_args b = true →
  u +:+ (encodeArgs a +:+ r1) = u' +:+ (encodeArgs b +:+ r2) → u = u' ∧ shape_val <$> a = shape_val <$> b ∧ r1 = r2.
Proof. intros Hu Hu' Ha Hb H. apply name_inj0 in H as [-> H]; [|done..]. by apply args_inj in H as [-> ->]. Qed.

(** A call with the marks of its shape. *)
Lemma marked_call_inj a b u u' (d d' p p' : bool) r1 r2 :
  is_name u = true → is_name u' = true → plain_args a = true → plain_args b = true →
  u +:+ ((if d then "!doc" else "") +:+ ((if p then "!value" else "") +:+ (encodeArgs a +:+ r1))) =
  u' +:+ ((if d' then "!doc" else "") +:+ ((if p' then "!value" else "") +:+ (encodeArgs b +:+ r2))) →
  u = u' ∧ d = d' ∧ p = p' ∧ shape_val <$> a = shape_val <$> b ∧ r1 = r2.
Proof.
  intros Hu Hu' Ha Hb H. apply name_inj0 in H as [-> H]; [|done|done|by destruct d, p|by destruct d', p'].
  assert (∀ a r, ∃ t, encodeArgs a +:+ r = String "(" t) as Hopen.
  { intros a' r. unfold ExecDigest.encodeArgs. rewrite string_app_cons. by eexists. }
  destruct (Hopen a r1) as [t1 E1], (Hopen b r2) as [t2 E2].
  destruct d, d', p, p'; fixed H; try (rewrite ?E1, ?E2 in H; discriminate H);
    by apply args_inj in H as [-> ->].
Qed.

(** A block of nodes in braces. *)
Lemma block_inj xs ys r1 r2 :
  Forall (λ x, plain_node x = true → node_inj x) xs →
  forallb (λ x, plain_node x) xs = true → forallb (λ x, plain_node x) ys = true →
  String "{" (cat ((λ x, encodeNode x +:+ ";") <$> xs) +:+ String "}" r1) =
  String "{" (cat ((λ x, encodeNode x +:+ ";") <$> ys) +:+ String "}" r2) →
  (λ x, shape_node x) <$> xs = (λ x, shape_node x) <$> ys ∧ r1 = r2.
Proof. intros Hi Hx Hy H%cons_inj. apply nodes_inj in H; [done|by eapply Forall_checked|done|done]. Qed.

(** A branch of a fork. *)
Definition branch_text (b : string * list node) : string :=
  match b with (x, ns) => x +:+ (":" +:+ ("{" +:+ (cat ((λ x, encodeNode x +:+ ";") <$> ns) +:+ "}"))) end.
Definition shape_branch (b : string * list node) : string * list node :=
  match b with (x, ns) => (x, (λ x, shape_node x) <$> ns) end.
Definition plain_branch (b : string * list node) : bool :=
  match b with (x, ns) => is_name x && forallb (λ x, plain_node x) ns end.

Lemma branches_inj bs bs' r1 r2 :
  Forall (λ b, Forall (λ x, plain_node x = true → node_inj x) b.2) bs →
  forallb plain_branch bs = true → forallb plain_branch bs' = true →
  cat (branch_text <$> bs) +:+ String ";" r1 = cat (branch_text <$> bs') +:+ String ";" r2 →
  shape_branch <$> bs = shape_branch <$> bs' ∧ r1 = r2.
Proof.
  intros Hi Hb%forallb_Forall Hb'%forallb_Forall H.
  apply (items_inj _ (λ x y, shape_branch x = shape_branch y) (λ x, plain_branch x = true)) in H as [HR ->]; [|done|done| |].
  - split; [|done]. clear -HR. induction HR as [|x y l1 l2 E _ IH]; [done|]. by rewrite !fmap_cons, IH, E.
  - intros [x ns] [Hx _]%andb_true_iff. cbn [branch_text]. destruct x as [|c x].
    + rewrite string_app_nil_l, string_app_cons. by do 2 eexists.
    + by apply name_opens.
  - apply Forall_forall. intros [x ns] Hin [y ms] r r' [Hy Hms]%andb_true_iff E. rewrite Forall_forall in Hi, Hb.
    specialize (Hi _ Hin). specialize (Hb _ Hin). apply andb_true_iff in Hb as [Hx Hns].
    cbn [branch_text] in E. fixed E. apply bind_inj in E as [-> E]; [|done..].
    apply block_inj in E as [E ->]; [|done..]. cbn [shape_branch]. by rewrite E.
Qed.

(** A node of a graph. *)
Definition step_text (g : string * list string * node) : string :=
  g.1.1 +:+ ("[" +:+ (join "," (sortedCopy g.1.2) +:+ ("]=" +:+ (encodeNode g.2 +:+ ";")))).
Definition shape_step (g : string * list string * node) : string * list string * node :=
  match g with (hd, x) => (hd.1, sort_strings hd.2, shape_node x) end.
Definition plain_step (g : string * list string * node) : bool :=
  match g with (hd, x) => nonempty_name hd.1 && forallb nonempty_name hd.2 && plain_node x end.

Lemma sorted_names l : forallb nonempty_name l = true → forallb nonempty_name (sortedCopy l) = true.
Proof. rewrite !forallb_forall. intros H x Hx. apply H. by apply list_elem_of_In, elem_of_sort_strings, list_elem_of_In. Qed.

Lemma steps_inj gs gs' r1 r2 :
  Forall (λ g, plain_node g.2 = true → node_inj g.2) gs →
  Forall (λ g, plain_step g = true) gs → Forall (λ g, plain_step g = true) gs' →
  cat (step_text <$> gs) +:+ String "}" r1 = cat (step_text <$> gs') +:+ String "}" r2 →
  shape_step <$> gs = shape_step <$> gs' ∧ r1 = r2.
Proof.
  intros Hi Hg Hg' H.
  apply (items_inj _ (λ x y, shape_step x = shape_step y) (λ x, plain_step x = true)) in H as [HR ->]; [|done|done| |].
  - split; [|done]. clear -HR. induction HR as [|x y l1 l2 E _ IH]; [done|]. by rewrite !fmap_cons, IH, E.
  - intros [[i ns] x] [[Hx _]%andb_true_iff _]%andb_true_iff. by apply name_opens.
  - apply Forall_forall. intros [[i ns] x] Hin [[j ms] y] r r' [[Hj Hms]%andb_true_iff Hy]%andb_true_iff E.
    rewrite Forall_forall in Hi, Hg. specialize (Hi _ Hin). specialize (Hg _ Hin).
    apply andb_true_iff in Hg as [[Hx Hns]%andb_true_iff Hx'].
    unfold step_text in E. cbn [fst snd] in *. fixed E. apply bind_inj in E as [-> E]; [|by apply nonempty_is|by apply nonempty_is|done].
    apply names_inj in E as [En E]; [|by apply sorted_names..]. apply cons_inj, Hi in E as [Ex ->]; [|done..].
    split; [|done]. cbn [shape_step fst snd]. unfold sortedCopy in En. by rewrite En, Ex.
Qed.

(** The head of a loop: a sequential loop over a variable named [par] is told from
    a parallel one by the operand after its [in]. *)
Lemma par_absurd x y r o t :
  is_name x = true → is_name y = true →
  "par " +:+ (x +:+ (" in " +:+ r)) = y +:+ (" in " +:+ (encodeValue o +:+ t)) → False.
Proof.
  intros Hx Hy H. fixed H.
  change (String "p" (String "a" (String "r" (String " " (x +:+ String " " (String "i" (String "n" (String " " r)))))))) with
    ("par" +:+ String " " (x +:+ String " " (String "i" (String "n" (String " " r))))) in H.
  apply bind_inj in H as [_ H]; [|done..].
  change (String "i" (String "n" (String " " (encodeValue o +:+ t)))) with ("in" +:+ String " " (encodeValue o +:+ t)) in H.
  apply bind_inj in H as [_ H]; [|done..].
  destruct (encodeValue_start o) as (c & u & E & Hc). rewrite E, string_app_cons in H. injection H as <- _.
  by repeat (apply elem_of_cons in Hc as [Hc|Hc]; [discriminate Hc|]); apply elem_of_nil in Hc.
Qed.

Lemma loop_head_inj (p p' : bool) x y o o' t t' :
  is_name x = true → is_name y = true →
  (if p then "par " else "") +:+ (x +:+ (" in " +:+ (encodeValue o +:+ t))) =
  (if p' then "par " else "") +:+ (y +:+ (" in " +:+ (encodeValue o' +:+ t'))) →
  p = p' ∧ x = y ∧ encodeValue o +:+ t = encodeValue o' +:+ t'.
Proof.
  intros Hx Hy H. destruct p, p'.
  - fixed H. apply bind_inj in H as [-> H]; [|done..]. by fixed H.
  - rewrite string_app_nil_l in H. by apply par_absurd in H.
  - rewrite string_app_nil_l in H. symmetry in H. by apply par_absurd in H.
  - fixed H. apply bind_inj in H as [-> H]; [|done..]. by fixed H.
Qed.

Lemma bounded_inj e f l m xs ys r1 r2 :
  plain_expr e = true → plain_expr f = true →
  Forall (λ x, plain_node x = true → node_inj x) xs →
  forallb (λ x, plain_node x) xs = true → forallb (λ x, plain_node x) ys = true →
  encodeExpr e +:+ (" limit " +:+ (fmt_Z l +:+ String "{" (cat ((λ x, encodeNode x +:+ ";") <$> xs) +:+ String "}" r1))) =
  encodeExpr f +:+ (" limit " +:+ (fmt_Z m +:+ String "{" (cat ((λ x, encodeNode x +:+ ";") <$> ys) +:+ String "}" r2))) →
  shape_expr e = shape_expr f ∧ l = m ∧ (λ x, shape_node x) <$> xs = (λ x, shape_node x) <$> ys ∧ r1 = r2.
Proof.
  intros He Hf Hi Hx Hy H. apply (encodeExpr_inj e He "" f) in H as [Es H]; [|done..].
  fixed H. apply name_inj0 in H as [El H]; [|apply fmt_Z_name..|done|done]. apply (inj pretty) in El as ->.
  by apply block_inj in H as [-> ->].
Qed.

Lemma graph_inj gs gs' r1 r2 :
  Forall (λ g, plain_node g.2 = true → node_inj g.2) gs →
  plain_node (Graph gs) = true → plain_node (Graph gs') = true →
  encodeNode (Graph gs) +:+ r1 = encodeNode (Graph gs') +:+ r2 →
  shape_node (Graph gs) = shape_node (Graph gs') ∧ r1 = r2.
Proof.
  assert (∀ gs : list (string * list string * node), forallb plain_step gs = true → Forall (λ g, plain_step g = true) (sort_by gn_id gs)) as Hp.
  { intros l Hl%forallb_Forall. by apply Forall_sort_by. }
  intros Hi [Hg D]%andb_true_iff [Hg' D']%andb_true_iff H. cbn [ExecDigest.encodeNode shape_node] in *.
  apply distinct_NoDup in D, D'.
  rewrite !(sort_by_fmap gn_id _ (λ g, match g with (hd, x) => (hd, encodeNode x) end)) in H by (done || by intros [[? ?] ?]).
  rewrite <-!list_fmap_compose in H. rewrite !(sort_by_fmap gn_id gn_id) by (done || by intros [[? ?] ?]).
  rewrite (list_fmap_ext _ step_text (sort_by gn_id gs)), (list_fmap_ext _ step_text (sort_by gn_id gs')) in H
    by by intros _ [[? ?] ?] _.
  fixed H. apply steps_inj in H as [E ->]; [|by apply Forall_sort_by|by apply Hp|by apply Hp].
  split; [|done]. f_equal. exact E.
Qed.

Lemma value_inj0 v w r1 r2 :
  plain_val v = true → plain_val w = true → follows r1 → follows r2 →
  encodeValue v +:+ r1 = encodeValue w +:+ r2 → shape_val v = shape_val w ∧ r1 = r2.
Proof. intros Hv Hw H1 H2 H. by apply (encodeValue_inj v Hv "" w). Qed.

Lemma node_unamb n : plain_node n = true → node_inj n.
Proof.
  induction n as [b u a|b u a wd|b u a wd pv|b v|c t e IHt IHe|bs IH|x c b p IH|c l b IH|c l b IH|v|gs IH|b d r a|]
    using node_nested_ind; intros Hn m r1 r2 Hm H; [..|done];
    destruct m as [b' u' a'|b' u' a' wd'|b' u' a' wd' pv'|b' v'|c' t' e'|bs'|x' c' b' p'|c' l' b'|c' l' b'|v'|gs'|b' d' r' a'|];
    try (by apply graph_inj in H as [E [= ->]]);
    cbn [ExecDigest.encodeNode] in H; fixed H; cbn [plain_node] in Hn, Hm; try done;
    repeat match goal with H : _ && _ = true |- _ => apply andb_true_iff in H as [? ?] end; cbn [shape_node].
  - apply bind_inj in H as [-> H]; [|done..]. by apply call_inj in H as (-> & -> & [= ->]).
  - apply bind_inj in H as [-> H]; [|done..].
    apply (marked_call_inj a a' u u' wd wd' false false) in H as (-> & -> & _ & -> & [= ->]); done.
  - apply bind_inj in H as [-> H]; [|done..]. by apply marked_call_inj in H as (-> & -> & -> & -> & [= ->]).
  - apply bind_inj in H as [-> H]; [|done..]. by apply value_inj0 in H as [-> [= ->]].
  - apply (encodeExpr_inj c ltac:(done) "then" c') in H as [-> H]; [|done..]. apply block_inj in H as [-> H]; [|done..].
    fixed H. by apply nodes_inj in H as [-> [= ->]]; [|eapply Forall_checked|..].
  - apply branches_inj in H as [E ->]; [|done..]. split; [|done]. f_equal. exact E.
  - apply loop_head_inj in H as (-> & -> & H); [|done..]. apply value_inj0 in H as [-> H]; [|done..].
    by apply block_inj in H as [-> [= ->]].
  - by apply bounded_inj in H as (-> & -> & -> & [= ->]).
  - by apply bounded_inj in H as (-> & -> & -> & [= ->]).
  - by apply value_inj0 in H as [-> [= ->]].
  - apply bind_inj in H as [-> H]; [|done..]. fixed H. apply Quote_inj in H as [-> H]. fixed H.
    apply names_inj in H as [Er H]; [|by apply sorted_names..]. unfold sortedCopy in Er. apply args_inj in H as [-> [= ->]]; [|done..].
    by rewrite Er.
Qed.

(** ** The shape determines the text *)

Lemma fmap_determines {A B C} (f : A → B) (g : A → C) (P : A → Prop) l1 l2 :
  Forall (λ x, ∀ y, P y → f x = f y → g x = g y) l1 → Forall P l2 → f <$> l1 = f <$> l2 → g <$> l1 = g <$> l2.
Proof.
  intros H1. revert l2. induction H1 as [|x l1 Hx _ IH]; intros [|y l2] H2; [done..|].
  rewrite !fmap_cons. intros [= E El]. apply Forall_cons in H2 as [Hy H2]. f_equal; [by apply Hx|by apply IH].
Qed.

Lemma litKey_shape v w : plain_lit v = true → plain_lit w = true → shape_lit v = shape_lit w → litKey v = litKey w.
Proof. destruct v, w; try done; cbn; intros _ _ [=]; by subst || congruence. Qed.

Definition value_text (x : operand) : Prop := ∀ y, plain_val y = true → shape_val x = shape_val y → encodeValue x = encodeValue y.

Lemma values_text sep l l' :
  Forall (λ x, plain_val x = true → value_text x) l → forallb (λ x, plain_val x) l = true → forallb (λ x, plain_val x) l' = true →
  (λ x, shape_val x) <$> l = (λ x, shape_val x) <$> l' →
  (λ x, encodeValue x +:+ sep) <$> l = (λ x, encodeValue x +:+ sep) <$> l'.
Proof.
  intros Hi Hl Hl'%forallb_Forall. apply (fmap_determines _ _ (λ x, plain_val x = true)); [|done].
  eapply Forall_impl; [by eapply Forall_checked|]. intros x Hx y Hy E. by rewrite (Hx y).
Qed.

Lemma labelled_text (l l' : list (string * operand)) :
  Forall (λ f, value_text f.2) l → Forall (λ f, plain_val f.2 = true) l' →
  prod_map id shape_val <$> l = prod_map id shape_val <$> l' → labelled <$> l = labelled <$> l'.
Proof.
  intros Hi. apply (fmap_determines _ _ (λ f, plain_val f.2 = true)). eapply Forall_impl; [exact Hi|].
  intros [k x] Hx [k' y] Hy [= -> E]. unfold labelled. simpl in *. by rewrite (Hx y).
Qed.

Lemma value_shape x : plain_val x = true → value_text x.
Proof.
  induction x as [p|v|fs IH|l IH|l IH|] using operand_nested_ind; intros Hx y Hy E;
    destruct y as [q|w|gs|l'|l'|]; cbn [shape_val] in E; try discriminate E; cbn [ExecDigest.encodeValue plain_val] in *.
  - by injection E as ->.
  - injection E as E. by rewrite (litKey_shape v w).
  - apply andb_true_iff in Hx as [Hx%forallb_Forall Dx], Hy as [Hy%forallb_Forall Dy]. injection E as E.
    rewrite !(sorted_fields encodeValue), <-!list_fmap_compose by done. rewrite !sorted_fields in E by done.
    do 3 f_equal. apply labelled_text; [apply Forall_sort_by|apply Forall_sort_by|done].
    + rewrite Forall_forall in *. intros [k x] Hin. specialize (Hx _ Hin). apply (IH _ Hin). by apply andb_true_iff in Hx as [_ ?].
    + eapply Forall_impl; [exact Hy|]. by intros [k x] [_ ?]%andb_true_iff.
  - injection E as E. by rewrite (values_text "," l l').
  - injection E as E. by rewrite (values_text ";" l l').
  - done.
Qed.

Lemma args_shape (a b : args) :
  plain_args a = true → plain_args b = true → shape_val <$> a = shape_val <$> b → encodeArgs a = encodeArgs b.
Proof.
  unfold plain_args. intros Ha%forallb_Forall Hb%forallb_Forall E.
  assert (prod_map id shape_val <$> sort_by fst (map_to_list a) = prod_map id shape_val <$> sort_by fst (map_to_list b)) as Es.
  { rewrite <-!(sort_by_fmap fst fst (prod_map id shape_val)) by (done || apply NoDup_fst_map_to_list).
    by rewrite <-!map_to_list_fmap, E. }
  unfold ExecDigest.encodeArgs. do 3 f_equal. apply labelled_text in Es; [exact Es|apply Forall_sort_by..].
  - eapply Forall_impl; [exact Ha|]. intros [k x] [_ Hx]%andb_true_iff. by apply value_shape.
  - eapply Forall_impl; [exact Hb|]. by intros [k x] [_ Hx]%andb_true_iff.
Qed.

Lemma expr_shape e f : plain_expr e = true → plain_expr f = true → shape_expr e = shape_expr f → encodeExpr e = encodeExpr f.
Proof.
  revert f. induction e as [v|x IH|op x IHx y IHy|]; intros [w|x'|op' x' y'|] He Hf; try done;
    cbn [shape_expr ExecDigest.encodeExpr plain_expr] in *.
  - intros [=]. by apply value_shape.
  - intros [=]. by rewrite (IH x').
  - bool_inv. intros [= -> ? ?]. by rewrite (IHx x'), (IHy y').
Qed.

Definition node_text (n : node) : Prop := ∀ m, plain_node m = true → shape_node n = shape_node m → encodeNode n = encodeNode m.

Lemma nodes_text l l' :
  Forall (λ x, plain_node x = true → node_text x) l → forallb (λ x, plain_node x) l = true → forallb (λ x, plain_node x) l' = true →
  (λ x, shape_node x) <$> l = (λ x, shape_node x) <$> l' → (λ x, encodeNode x +:+ ";") <$> l = (λ x, encodeNode x +:+ ";") <$> l'.
Proof.
  intros Hi Hl Hl'%forallb_Forall. apply (fmap_determines _ _ (λ x, plain_node x = true)); [|done].
  eapply Forall_impl; [by eapply Forall_checked|]. intros x Hx y Hy E. by rewrite (Hx y).
Qed.

Lemma branches_text l l' :
  Forall (λ b, Forall (λ x, plain_node x = true → node_text x) b.2) l → forallb plain_branch l = true → forallb plain_branch l' = true →
  shape_branch <$> l = shape_branch <$> l' → branch_text <$> l = branch_text <$> l'.
Proof.
  intros Hi Hl%forallb_Forall Hl'%forallb_Forall. apply (fmap_determines _ _ (λ x, plain_branch x = true)); [|done].
  rewrite Forall_forall in *. intros [x ns] Hin [y ms] [Hy Hms]%andb_true_iff [= -> E].
  specialize (Hi _ Hin). specialize (Hl _ Hin). apply andb_true_iff in Hl as [_ Hns]. cbn [branch_text].
  by rewrite (nodes_text ns ms).
Qed.

Lemma steps_text l l' :
  Forall (λ g, plain_node g.2 = true → node_text g.2) l → Forall (λ g, plain_step g = true) l → Forall (λ g, plain_step g = true) l' →
  shape_step <$> l = shape_step <$> l' → step_text <$> l = step_text <$> l'.
Proof.
  intros Hi Hl. apply (fmap_determines _ _ (λ x, plain_step x = true)).
  rewrite Forall_forall in *. intros [[i ns] x] Hin [[j ms] y] [_ Hy]%andb_true_iff [= -> En Ex].
  specialize (Hi _ Hin). specialize (Hl _ Hin). apply andb_true_iff in Hl as [_ Hx].
  unfold step_text, sortedCopy. cbn [fst snd] in *. by rewrite En, (Hi Hx y).
Qed.

Lemma node_shape n : plain_node n = true → node_text n.
Proof.
  induction n as [b u a|b u a wd|b u a wd pv|b v|c t e IHt IHe|bs IH|x c b p IH|c l b IH|c l b IH|v|gs IH|b d r a|]
    using node_nested_ind; intros Hn m Hm E; [..|done];
    destruct m as [b' u' a'|b' u' a' wd'|b' u' a' wd' pv'|b' v'|c' t' e'|bs'|x' c' b' p'|c' l' b'|c' l' b'|v'|gs'|b' d' r' a'|];
    cbn [shape_node] in E; try discriminate E; cbn [plain_node] in Hn, Hm; 
    repeat match goal with H : _ && _ = true |- _ => apply andb_true_iff in H as [? ?] end; cbn [ExecDigest.encodeNode].
  - injection E as -> -> E. by rewrite (args_shape a a').
  - injection E as -> -> E ->. by rewrite (args_shape a a').
  - injection E as -> -> E -> ->. by rewrite (args_shape a a').
  - injection E as -> E. by rewrite (value_shape v ltac:(done) v').
  - injection E as E1 E2 E3. by rewrite (expr_shape c c'), (nodes_text t t'), (nodes_text e e').
  - injection E as E. f_equal. f_equal. by apply branches_text.
  - injection E as -> E1 E2 ->. by rewrite (value_shape c ltac:(done) c'), (nodes_text b b').
  - injection E as E1 -> E2. by rewrite (expr_shape c c'), (nodes_text b b').
  - injection E as E1 -> E2. by rewrite (expr_shape c c'), (nodes_text b b').
  - injection E as E. by rewrite (value_shape v ltac:(done) v').
  - injection E as E.
    rewrite !(sort_by_fmap gn_id gn_id) in E by (by apply distinct_NoDup || by intros [[? ?] ?]).
    rewrite !(sort_by_fmap gn_id _ (λ g, match g with (hd, x) => (hd, encodeNode x) end)) by
      (by apply distinct_NoDup || by intros [[? ?] ?]).
    rewrite <-!list_fmap_compose, (list_fmap_ext _ step_text (sort_by gn_id gs)), (list_fmap_ext _ step_text (sort_by gn_id gs'))
      by by intros _ [[? ?] ?] _.
    by rewrite (steps_text (sort_by gn_id gs) (sort_by gn_id gs')) by (done || (apply Forall_sort_by; first [exact IH|by apply forallb_Forall])).
  - injection E as -> -> E1 E2. unfold sortedCopy. by rewrite E1, (args_shape a a').
Qed.

(** ** Programs *)

Lemma program_inj p q :
  plain_program p = true → plain_program q = true → encodeProgram is_print p = encodeProgram is_print q →
  shape_program p = shape_program q.
Proof.
  destruct p as [w ps b], q as [w' ps' b']. unfold plain_program, ExecDigest.encodeProgram, ExecDigest.encodeNodes, shape_program. cbn [Workflow Params Body].
  intros [[Hw Hp]%andb_true_iff Hb]%andb_true_iff [[Hw' Hp']%andb_true_iff Hb']%andb_true_iff H. fixed H.
  apply bind_inj in H as [-> H]; [|done..]. fixed H. apply names_inj in H as [-> H]; [|done..]. fixed H.
  apply nodes_inj in H as [E _]; [|apply Forall_forall; intros n Hn; apply node_unamb|done..].
  - f_equal. exact E.
  - rewrite forallb_forall in Hb. by apply Hb, list_elem_of_In.
Qed.

Lemma program_text p q :
  plain_program p = true → plain_program q = true → shape_program p = shape_program q →
  encodeProgram is_print p = encodeProgram is_print q.
Proof.
  destruct p as [w ps b], q as [w' ps' b']. unfold plain_program, ExecDigest.encodeProgram, ExecDigest.encodeNodes, shape_program. cbn [Workflow Params Body].
  intros [_ Hb]%andb_true_iff [_ Hb']%andb_true_iff [= -> -> E]. rewrite (nodes_text b b'); [done| |done..].
  apply Forall_forall. intros n _. apply node_shape.
Qed.
End unamb.

(** C20: for programs whose names and operators are plain (and whose literals are
    scalars), the digest is exact: programs of the same shape (equal up to the
    order of fields, graph nodes, needs and redaction keys, and floats of one
    spelling) share it, and programs that share it have the same shape or exhibit
    a collision of the hash. *)
Theorem digest_exact is_print sha256 p q :
  plain_program p = true → plain_program q = true →
  (shape_program p = shape_program q →
    Digest is_print sha256 (Some p) = Digest is_print sha256 (Some q)) ∧
  (Digest is_print sha256 (Some p) = Digest is_print sha256 (Some q) →
    shape_program p = shape_program q ∨ collision sha256).
Proof.
  intros Hp Hq. split.
  - intros E. unfold Digest. by rewrite (program_text is_print p q).
  - intros [E|E]%hashHex_inj; [|by right]. left. by apply (program_inj is_print).
Qed.

Lemma digest_exact_witness :
  let p x y := {| Workflow := "w"; Params := ["pr"]; Body :=
    [InvokeTool "x" "tool.gh.get" {["repo" := Object [x; y]]};
     Branch (BinOp "==" (Leaf (Ref ["x"; "n"])) (Not (Leaf (Lit (VInt 3))))) [Return (Ref ["x"])] []] |} in
  let f := ("a", Lit (VStr "},x")) in let g := ("b", EList []) in
  (shape_program (p f g) = shape_program (p g f) →
    Digest (λ _, true) id (Some (p f g)) = Digest (λ _, true) id (Some (p g f))) ∧
  (Digest (λ _, true) id (Some (p f g)) = Digest (λ _, true) id (Some (p g f)) →
    shape_program (p f g) = shape_program (p g f) ∨ collision id).
Proof. intros p f g. apply digest_exact; vm_compute; reflexivity. Defined.
