(* ===== verification/ExecEval.v ===== *)
(** * Evaluation of operands and conditions ([internal/execir/eval.go])

    Operands resolve against a scope to values, conditions to booleans; every
    error of the source is a constructor of [error], which the interpreter file
    shares. *)

From S2P Require Import Prelude GoNum Value JsonNum ExecIR.

Local Open Scope Z_scope.

(** [map[string]any], a scope or the arguments of a call. *)
Abbreviation scope := (gmap string value).

(** ** Errors

    What [errors.Is] distinguishes ([ESuspend], [ECanceled]) and what the
    messages name.  [EDenied] is a policy denial of the injected Invoker with its
    reason, [EInvoker] any other error of it. *)
Inductive error : Type :=
  | EEmptyPath
  | EUnresolved (name : string)
  | ENotAList
  | ENilCondition
  | EOperandNotValue
  | EUnknownOperator (op : string)
  | ENonNumeric (op : string)
  | EUnknownNode
  | EDiverged (addr : string) (prev now : nat)
  | ETooManyItems (n : nat) (max : Z)
  | ERetryExhausted (limit : Z)
  | ENoOutputDocument (workflow : string)
  | ENotOutputDocument (workflow : string)
  | EResult (key : string) (e : jerr)
  | EInput (e : jerr)
  | ESeed (key : string) (e : jerr)
  | EGraphStuck
  | ESuspend
  | ECanceled
  | EDenied (reason msg : string)
  | EInvoker (msg : string).

#[export] Instance error_eq_dec : EqDecision error.
Proof. solve_decision. Defined.

(** [errors.Is(err, ErrSuspend)] and [isCanceled]. *)
Definition isSuspend (e : error) : bool := match e with ESuspend => true | _ => false end.
Definition isCanceled (e : error) : bool := match e with ECanceled => true | _ => false end.

(** ** Operands *)

(** The fields below a resolved head: a missing field, or a field of something
    that is no object, is nil. *)
Fixpoint walk_path (cur : value) (segs : list string) : value :=
  match segs with
  | [] => cur
  | seg :: segs =>
      match cur with
      | VMap m => walk_path (default VNil (map_get m seg)) segs
      | _ => VNil
      end
  end.

Definition resolvePath (sc : scope) (path : list string) : res error value :=
  match path with
  | [] => Err EEmptyPath
  | h :: segs =>
      match sc !! h with
      | None => Err (EUnresolved h)
      | Some cur => Ok (walk_path cur segs)
      end
  end.

(** [evalValue]; later fields of an object with a repeated key win. *)
Fixpoint evalValue (sc : scope) (o : operand) : res error value :=
  match o with
  | Lit v => Ok v
  | Ref path => resolvePath sc path
  | Object fs =>
      (λ kvs, VMap (map_of_list kvs)) <$>
      res_traverse (λ kx, match kx with (k, x) => v ← evalValue sc x; mret (k, v) end) fs
  | EList es => VList <$> res_traverse (λ x, evalValue sc x) es
  | Template ps =>
      (λ ss, VStr (join "" ss)) <$> res_traverse (λ x, v ← evalValue sc x; mret (stringify v)) ps
  | NilValue => Ok VNil
  end.

(** [evalArgs]: the arguments in some order, the first error reported. *)
Definition evalArgs (sc : scope) (a : args) : res error scope :=
  list_to_map <$> res_traverse (λ kv, v ← evalValue sc kv.2; mret (kv.1, v)) (map_to_list a).

Definition evalCollection (sc : scope) (o : operand) : res error (list value) :=
  v ← evalValue sc o;
  match v with
  | VNil => Ok []
  | VList xs => Ok xs
  | _ => Err ENotAList
  end.

(** ** Conditions *)

Definition compareOrdered (op : string) (a b : value) : res error bool :=
  match tryCompareNumeric a b with
  | None =>
      if isNumeric a && isNumeric b then Ok false else Err (ENonNumeric op)
  | Some cmp =>
      if (op =? "<")%string then Ok (cmp <? 0)
      else if (op =? "<=")%string then Ok (cmp <=? 0)
      else if (op =? ">")%string then Ok (0 <? cmp)
      else if (op =? ">=")%string then Ok (0 <=? cmp)
      else Err (EUnknownOperator op)
  end.

Definition leafValue (sc : scope) (e : expr) : res error value :=
  match e with Leaf v => evalValue sc v | _ => Err EOperandNotValue end.

Definition is_ordering (op : string) : bool := str_mem op ["<"; "<="; ">"; ">="].

(** [evalBinOp], over the evaluation of its two sides. *)
Definition evalBinOp (op : string) (lx ly : res error bool) (vx vy : res error value)
    : res error bool :=
  if (op =? "&&")%string then lx ≫= λ l : bool, if negb l then Ok false else ly
  else if (op =? "||")%string then lx ≫= λ l : bool, if l then Ok true else ly
  else
    lv ← vx; rv ← vy;
    if (op =? "==")%string then Ok (valuesEqual lv rv)
    else if (op =? "!=")%string then Ok (negb (valuesEqual lv rv))
    else if is_ordering op then compareOrdered op lv rv
    else Err (EUnknownOperator op).

Fixpoint evalExpr (sc : scope) (e : expr) : res error bool :=
  match e with
  | NilExpr => Err ENilCondition
  | Leaf v => val ← evalValue sc v; mret (truthy val)
  | Not x => b ← evalExpr sc x; mret (negb b)
  | BinOp op x y =>
      evalBinOp op (evalExpr sc x) (evalExpr sc y) (leafValue sc x) (leafValue sc y)
  end.

(** ** What an operand reads

    The head names a value reads; evaluation depends on the scope only there, and
    succeeds when they are all bound. *)

Fixpoint op_heads (o : operand) : list string :=
  match o with
  | Ref (h :: _) => [h]
  | Object fs => fs ≫= λ kx, match kx with (_, x) => op_heads x end
  | EList l | Template l => l ≫= λ x, op_heads x
  | _ => []
  end.

(** Every reference has a head, as the constructors of the lowering ensure. *)
Fixpoint op_wf (o : operand) : bool :=
  match o with
  | Ref [] => false
  | Object fs => forallb (λ kx, match kx with (_, x) => op_wf x end) fs
  | EList l | Template l => forallb (λ x, op_wf x) l
  | _ => true
  end.

Definition agree (hs : list string) (s1 s2 : scope) : Prop := ∀ h, h ∈ hs → s1 !! h = s2 !! h.

Lemma agree_bind {A} (f : A → list string) l s1 s2 :
  agree (l ≫= f) s1 s2 → Forall (λ x, agree (f x) s1 s2) l.
Proof.
  intros H. apply Forall_forall. intros x Hx h Hh. apply H, list_elem_of_bind. eauto.
Qed.

(** The value of an operand depends only on the bindings of the names it reads. *)
Lemma evalValue_agree o s1 s2 : agree (op_heads o) s1 s2 → evalValue s1 o = evalValue s2 o.
Proof.
  induction o as [p|v|fs IH|l IH|l IH|] using operand_nested_ind; try done; intros Ha.
  - destruct p as [|h segs]; [done|]. simpl.
    by rewrite (Ha h) by (by apply list_elem_of_singleton).
  - simpl. f_equal. apply res_traverse_ext. simpl in Ha. apply agree_bind in Ha.
    rewrite Forall_forall in *. intros [k x] Hx.
    specialize (IH _ Hx). specialize (Ha _ Hx). simpl in *. by rewrite IH.
  - simpl. f_equal. apply res_traverse_ext. simpl in Ha. apply agree_bind in Ha.
    rewrite Forall_forall in *. auto.
  - simpl. f_equal. apply res_traverse_ext. simpl in Ha. apply agree_bind in Ha.
    rewrite Forall_forall in *. intros x Hx. by rewrite (IH _ Hx (Ha _ Hx)).
Qed.

(** The only errors of evaluation. *)
Lemma evalValue_Err_kind o sc e :
  evalValue sc o = Err e → e = EEmptyPath ∨ ∃ h, e = EUnresolved h.
Proof.
  induction o as [p|v|fs IH|l IH|l IH|] using operand_nested_ind; simpl; try done; intros He;
    rewrite ?fmap_Err in He.
  - destruct p as [|h segs]; simpl in He; [left; congruence|].
    destruct (sc !! h); [done|]. right. exists h. congruence.
  - apply res_traverse_Err in He as ([k x] & Hx & He).
    apply bind_Err in He as [He|(? & ? & [=])]. rewrite Forall_forall in IH. by eapply (IH (k, x)).
  - apply res_traverse_Err in He as (x & Hx & He). rewrite Forall_forall in IH. by eapply (IH x).
  - apply res_traverse_Err in He as (x & Hx & He).
    apply bind_Err in He as [He|(? & ? & [=])]. rewrite Forall_forall in IH. by eapply (IH x).
Qed.

Lemma evalArgs_Err_kind sc a e :
  evalArgs sc a = Err e → e = EEmptyPath ∨ ∃ h, e = EUnresolved h.
Proof.
  unfold evalArgs. rewrite fmap_Err. intros (x & _ & He)%res_traverse_Err.
  apply bind_Err in He as [He|(? & ? & [=])]. by eapply evalValue_Err_kind.
Qed.

Lemma evalValue_unbound o sc e :
  op_wf o = true → evalValue sc o = Err e →
  ∃ h, e = EUnresolved h ∧ h ∈ op_heads o ∧ sc !! h = None.
Proof.
  induction o as [p|v|fs IH|l IH|l IH|] using operand_nested_ind; simpl; try done;
    intros Hwf He; rewrite ?fmap_Err in He.
  - destruct p as [|h segs]; [done|]. simpl in He. destruct (sc !! h) eqn:E; [done|].
    exists h. split; [congruence|]. split; [by apply list_elem_of_singleton|done].
  - apply res_traverse_Err in He as ([k x] & Hx & He).
    apply bind_Err in He as [He|(? & ? & [=])].
    rewrite forallb_forall in Hwf. rewrite Forall_forall in IH.
    destruct (IH _ Hx) as (h & ? & Hh & ?); [by apply (Hwf (k, x)), list_elem_of_In|done|].
    exists h. split; [done|]. split; [|done]. apply list_elem_of_bind. by exists (k, x).
  - apply res_traverse_Err in He as (x & Hx & He).
    rewrite forallb_forall in Hwf. rewrite Forall_forall in IH.
    destruct (IH _ Hx) as (h & ? & Hh & ?); [by apply Hwf, list_elem_of_In|done|].
    exists h. split; [done|]. split; [|done]. apply list_elem_of_bind. by exists x.
  - apply res_traverse_Err in He as (x & Hx & He).
    apply bind_Err in He as [He|(? & ? & [=])].
    rewrite forallb_forall in Hwf. rewrite Forall_forall in IH.
    destruct (IH _ Hx) as (h & ? & Hh & ?); [by apply Hwf, list_elem_of_In|done|].
    exists h. split; [done|]. split; [|done]. apply list_elem_of_bind. by exists x.
Qed.

(** Arguments whose operands are well-formed and read bound names evaluate, to
    what they evaluate to in any scope with the same bindings of these names. *)
Lemma evalArgs_total sc a :
  (∀ k o, a !! k = Some o → op_wf o = true ∧ ∀ h, h ∈ op_heads o → is_Some (sc !! h)) →
  ∃ r, evalArgs sc a = Ok r.
Proof.
  intros Ha. destruct (evalArgs sc a) as [r|e] eqn:E; [by exists r|]. exfalso.
  unfold evalArgs in E. rewrite fmap_Err in E. apply res_traverse_Err in E as ([k o] & Hin & E).
  apply elem_of_map_to_list in Hin. apply bind_Err in E as [E|(? & ? & [=])].
  destruct (Ha k o Hin) as [Hwf Hh].
  destruct (evalValue_unbound o sc e Hwf E) as (h & _ & Hx & Hn). destruct (Hh h Hx). congruence.
Qed.

Lemma evalArgs_agree s1 s2 a :
  (∀ k o, a !! k = Some o → agree (op_heads o) s1 s2) → evalArgs s1 a = evalArgs s2 a.
Proof.
  intros Ha. unfold evalArgs. f_equal. apply res_traverse_ext, Forall_forall. intros [k o] Hin. simpl.
  apply elem_of_map_to_list in Hin. by rewrite (evalValue_agree o s1 s2 (Ha k o Hin)).
Qed.

(** Evaluating a well-formed operand fails only for an unbound name it reads:
    a missing nested field, or a field of something that is no object, is nil and
    never an error; and when every name is bound it succeeds. *)
Theorem evalValue_error o sc e :
  op_wf o = true → evalValue sc o = Err e →
  ∃ h, e = EUnresolved h ∧ h ∈ op_heads o ∧ sc !! h = None.
Proof. exact (evalValue_unbound o sc e). Qed.

Lemma evalValue_error_witness :
  let o := Object [("x", Ref ["a"; "b"]); ("y", EList [Ref ["c"]])] in
  let sc := {[ "a" := VInt 1 ]} in
  evalValue sc o = Err (EUnresolved "c") ∧
  ∃ h, EUnresolved "c" = EUnresolved h ∧ h ∈ op_heads o ∧ sc !! h = None.
Proof.
  split; [vm_compute; reflexivity|]. apply evalValue_error; vm_compute; reflexivity.
Defined.

(** ** Conditions *)

(** The logical connectives short-circuit: the right side of [&&] (of [||])
    is evaluated, and its error reported, only when the left side is true
    (false); an error of the left side is the error of the whole. *)
Lemma evalExpr_shortcircuit sc x y :
  evalExpr sc (BinOp "&&" x y) =
    match evalExpr sc x with
    | Ok true => evalExpr sc y | Ok false => Ok false | Err e => Err e end ∧
  evalExpr sc (BinOp "||" x y) =
    match evalExpr sc x with
    | Ok false => evalExpr sc y | Ok true => Ok true | Err e => Err e end.
Proof. simpl. by destruct (evalExpr sc x) as [[]|]. Qed.

(** The relational operators as relations of exact values. *)
Definition rel_holds (op : string) (c : comparison) : bool :=
  match c with
  | Lt => str_mem op ["<"; "<="]
  | Eq => str_mem op ["<="; ">="]
  | Gt => str_mem op [">"; ">="]
  end.

(** Ordering is exact and total on numbers: for two numeric operands that
    are not NaN the result of <, <=, > and >= is the order of their exact values
    (no rounding through float64); with a NaN every one of them is false; and a
    non-numeric operand is an error. *)
Theorem compareOrdered_exact op a b :
  is_ordering op = true → value_wf a → value_wf b →
  compareOrdered op a b =
    match as_num a, as_num b with
    | Some x, Some y =>
        match num_val x, num_val y with
        | Some u, Some v => Ok (rel_holds op (ext_cmp u v))
        | _, _ => Ok false
        end
    | _, _ => Err (ENonNumeric op)
    end.
Proof.
  intros Hop Wa Wb. unfold compareOrdered, tryCompareNumeric, isNumeric.
  destruct (as_num a) as [x|] eqn:Ea; [|done].
  destruct (as_num b) as [y|] eqn:Eb; [|done].
  destruct (num_val x) as [u|] eqn:Eu; [destruct (num_val y) as [v|] eqn:Ev|].
  - rewrite (compareNum_exact x y u v); [|..|done|done].
    + apply str_mem_spec in Hop. rewrite !elem_of_cons in Hop.
      destruct Hop as [->|[->|[->|[->|H]]]]; [by destruct (ext_cmp u v)..|].
      by apply elem_of_nil in H.
    + intros i ->. destruct a; simplify_eq/=. by inversion Wa.
    + intros i ->. destruct b; simplify_eq/=. by inversion Wb.
  - assert (compareNum x y = None) as -> by (apply compareNum_None; auto). done.
  - assert (compareNum x y = None) as -> by (apply compareNum_None; auto). done.
Qed.

Lemma compareOrdered_exact_witness :
  compareOrdered "<" (VInt 9007199254740993) (VFloat (f64_of_int 9007199254740994)) = Ok true ∧
  compareOrdered "<" (VInt 1) (VStr "2") = Err (ENonNumeric "<").
Proof.
  split; [vm_compute; reflexivity|].
  refine (compareOrdered_exact "<" (VInt 1) (VStr "2") _ _ _); [reflexivity|..].
  - constructor. split; vm_compute; discriminate.
  - constructor.
Defined.
