(* ===== verification/ExecInterp.v ===== *)
(** * The interpreter ([internal/execir/interp.go])

    A program is interpreted by goroutines that share a session (the memo of
    completed leaves, the control record, the suspension slot).  [exec] and its
    companions are the methods of [runner]: they turn a node list into a [proc],
    the code a goroutine still has to run, whose next action is visible: a leaf
    invocation, a control record, or a concurrent construct with its goroutines.
    [step] performs one action of one goroutine, chosen by the scheduler; every
    interleaving of the goroutines is a sequence of such choices.

    An action that holds the session's mutex, or that is one call of the
    Invoker, is one step.  The Invoker is a parameter: it is any function of an
    abstract world, of the cancellation flag of the caller's context and of the
    call. *)

From S2P Require Import Prelude Value JsonNum ExecIR ExecEval.

Local Open Scope nat_scope.

Definition DefaultMaxConcurrency : Z := 8.
Definition DefaultMaxLoopIterations : Z := 1000.      (* internal/spec/limits.go *)

(** ** The Invoker *)

Record ApprovalInfo := mkApprovalInfo { Description : string; RedactKeys : list string }.

(** One leaf operation with its resolved arguments. *)
Inductive call : Type :=
  | CallTool (uses : string) (a : scope)
  | CallAgent (agent : string) (a : scope)
  | CallWorkflow (workflow : string) (a : scope)
  | CallApproval (info : ApprovalInfo) (a : scope).

(** The boolean says whether the caller's context is cancelled by the end of the call
    ([ctx.Err() != nil] there): a call is one step, taken where it ends. *)
Class Invoker (W : Type) := {
  inv_tool : W → bool → CallSite → string → scope → W * res error value;
  inv_agent : W → bool → CallSite → string → scope → W * res error value;
  inv_workflow : W → bool → CallSite → string → scope → W * res error value;
  inv_approval : W → bool → CallSite → ApprovalInfo → scope → W * res error value;
}.

Definition dispatch `{Invoker W} (w : W) (cancelled : bool) (s : CallSite) (c : call)
    : W * res error value :=
  match c with
  | CallTool uses a => inv_tool w cancelled s uses a
  | CallAgent agent a => inv_agent w cancelled s agent a
  | CallWorkflow wf a => inv_workflow w cancelled s wf a
  | CallApproval info a => inv_approval w cancelled s info a
  end.

(** ** The session *)

Record session := mkSession {
  memo : gmap string value;
  control : gmap string nat;
  suspended : bool;
  suspendKey : string;
}.

Definition getMemo (s : session) (key : string) : option value := memo s !! key.
Definition putMemo (s : session) (key : string) (v : value) : session :=
  mkSession (<[key := v]> (memo s)) (control s) (suspended s) (suspendKey s).
Definition markSuspended (s : session) (key : string) : session :=
  if suspended s then s else mkSession (memo s) (control s) true key.
Definition checkControl (s : session) (addr : string) (val : nat) : session * option error :=
  match control s !! addr with
  | Some prev =>
      if decide (prev = val)
      then (mkSession (memo s) (<[addr := val]> (control s)) (suspended s) (suspendKey s), None)
      else (s, Some (EDiverged addr prev val))
  | None => (mkSession (memo s) (<[addr := val]> (control s)) (suspended s) (suspendKey s), None)
  end.

(** How a runner's walk over a node list ended: it fell through with its scope,
    it is done (a Return fired, with the output), or it failed. *)
Inductive flow : Type :=
  | FNext (sc : scope)
  | FDone (sc : scope) (output : value)
  | FErr (e : error).

(** ** Goroutines *)

Inductive proc : Type :=
  | PRet (f : flow)
  | PInvoke (site : CallSite) (mk : res error call) (k : res error value → proc)
  | PControl (key : string) (val : nat) (k : option error → proc)
  | PPar (width : nat) (cancelled : bool) (bs : list tstat) (k : bool → list flow → proc)
  | PGraph (gs : list (string * list string)) (start : nat → scope → proc) (width : nat)
      (sts : list gstat) (sc : scope) (completed : gset string)
      (firstErr : option error) (susp : bool) (tokens : nat) (exited : bool)
      (k : res error scope → proc)
(** A goroutine of a Fork or parallel Loop: not yet started by the main loop,
    running (it holds a semaphore slot), or finished. *)
with tstat : Type := TWait (p : proc) | TRun (p : proc) | TFin (f : flow)
(** A node of a Graph: not scheduled, scheduled and waiting for a slot, running,
    or over. *)
with gstat : Type := GIdle | GLaunched | GRun (p : proc) | GOver.

Definition twaiting (t : tstat) : bool := match t with TWait _ => true | _ => false end.
Definition trunning (t : tstat) : bool := match t with TRun _ => true | _ => false end.
Definition tflow (t : tstat) : option flow := match t with TFin f => Some f | _ => None end.
Definition grunning (g : gstat) : bool :=
  match g with GLaunched | GRun _ => true | _ => false end.
Definition gactive (g : gstat) : bool := match g with GRun _ => true | _ => false end.
Definition gidle (g : gstat) : bool := match g with GIdle => true | _ => false end.

Definition countb {A} (f : A → bool) (l : list A) : nat := length (List.filter f l).

(** [cancel()] is called on every branch error but a suspend. *)
Definition cancels (f : flow) : bool :=
  match f with FErr e => negb (isSuspend e) | _ => false end.

Definition flow_err (f : flow) : option error := match f with FErr e => Some e | _ => None end.

Fixpoint first_genuine (errs : list (option error)) : option error :=
  match errs with
  | [] => None
  | Some e :: errs =>
      if negb (isCanceled e) && negb (isSuspend e) then Some e else first_genuine errs
  | None :: errs => first_genuine errs
  end.

Definition classifyConcurrent (susp : bool) (errs : list (option error)) : option error :=
  match first_genuine errs with
  | Some e => Some e
  | None => if susp then Some ESuspend else None
  end.

(** *** Graph scheduling *)

Definition ready (completed : gset string) (g : string * list string) : bool :=
  forallb (λ dep, bool_decide (dep ∈ completed)) g.2.

Definition is_Some_b {A} (o : option A) : bool := match o with Some _ => true | None => false end.

Definition trySchedule (gs : list (string * list string)) (completed : gset string)
    (firstErr : option error) (susp : bool) (sts : list gstat) : list gstat :=
  if is_Some_b firstErr || susp then sts
  else zip_with (λ g st,
    if gidle st && negb (bool_decide (g.1 ∈ completed)) && ready completed g
    then GLaunched else st) gs sts.

(** The main loop leaves: a failure, a suspend, all done, or stuck. *)
Definition graph_exit (n : nat) (completed : gset string) (firstErr : option error)
    (susp : bool) (sts : list gstat) : bool :=
  is_Some_b firstErr || susp || bool_decide (size completed = n)
  || bool_decide (countb grunning sts = 0).

Definition graph_result (n : nat) (sc : scope) (completed : gset string)
    (firstErr : option error) (susp : bool) : res error scope :=
  match firstErr with
  | Some e => Err e
  | None =>
      if susp then Err ESuspend
      else if bool_decide (size completed = n) then Ok sc else Err EGraphStuck
  end.

(** What a finished node does under the mutex. *)
Definition graph_publish (id : string) (f : flow) (sc : scope) (completed : gset string)
    (firstErr : option error) (susp : bool)
    : scope * gset string * option error * bool :=
  match f with
  | FNext local | FDone local _ =>
      (if decide (id = "") then sc
       else match local !! id with Some v => <[id := v]> sc | None => sc end,
       {[ id ]} ∪ completed, firstErr, susp)
  | FErr e =>
      if isSuspend e then (sc, completed, firstErr, true)
      else if isCanceled e && (susp || is_Some_b firstErr) then (sc, completed, firstErr, susp)
      else (sc, completed, match firstErr with None => Some e | Some _ => firstErr end, susp)
  end.

(** [canonicalRanks]: the position of each node when the nodes are ordered by id,
    ties by authored index. *)
Definition rank_le (a b : string * nat) : Prop :=
  (String.le a.1 b.1 ∧ a.1 ≠ b.1) ∨ (a.1 = b.1 ∧ a.2 <= b.2).
#[export] Instance rank_le_dec : RelDecision rank_le.
Proof. intros a b. unfold rank_le. apply _. Defined.

Definition rank_order (ids : list string) : list (string * nat) :=
  merge_sort rank_le (zip ids (seq 0 (length ids))).

Definition canonicalRanks (ids : list string) : list nat :=
  (λ i, match list_find (λ p, p.2 = i) (rank_order ids) with
        | Some (pos, _) => pos | None => 0 end) <$> seq 0 (length ids).

Definition projectValueField (workflow : string) (doc : value) : res error value :=
  match doc with
  | VMap m => Ok (default VNil (map_get m "value"))
  | VNil => Err (ENoOutputDocument workflow)
  | _ => Err (ENotOutputDocument workflow)
  end.

Definition paramScope (params : list string) (input : value) : scope :=
  match params with
  | [p] => {[ p := input ]}
  | _ =>
      match input with
      | VMap fields => foldl (λ sc p, <[p := default VNil (map_get fields p)]> sc) ∅ params
      | _ => ∅
      end
  end.

(** ** The methods of [runner] *)

Section runner.
Variable maxIters : Z.
Variable maxConc : nat.

Abbreviation cont := (flow → proc).
Abbreviation exec_t := (node → scope → list nat → list nat → cont → proc).
Abbreviation execAll_t := (list node → scope → list nat → list nat → cont → proc).

Definition bind_result (sc : scope) (bind : string) (v : value) : scope :=
  if decide (bind = "") then sc else <[bind := v]> sc.

Definition invoke (sc : scope) (bind : string) (site : CallSite) (a : args)
    (mkcall : scope → call) (k : cont) : proc :=
  PInvoke site (mkcall <$> evalArgs sc a) (λ r,
    match r with Ok v => k (FNext (bind_result sc bind v)) | Err e => k (FErr e) end).

(** [execAll], over the [exec] of one node. *)
Definition execAll_from (exec : exec_t) (path loop : list nat) (k : cont) :
    list node → nat → scope → proc :=
  fix go ns i sc :=
    match ns with
    | [] => k (FNext sc)
    | n :: ns => exec n sc (extend path i) loop (λ f,
        match f with FNext sc' => go ns (S i) sc' | _ => k f end)
    end.
Definition execAll_ (exec : exec_t) : execAll_t :=
  λ ns sc path loop k, execAll_from exec path loop k ns 0 sc.

Definition b2n (b : bool) : nat := if b then 1 else 0.

Definition record_control (key : string) (val : nat) (k : cont) (p : proc) : proc :=
  PControl key val (λ r, match r with Some e => k (FErr e) | None => p end).

Definition execBranch (thn els : scope → list nat → list nat → cont → proc)
    (sc : scope) (cond : expr) (path loop : list nat) (k : cont) : proc :=
  match evalExpr sc cond with
  | Err e => k (FErr e)
  | Ok c => record_control (controlKey "br:" path loop) (b2n c) k
      (if c then thn sc (extend path 0) loop k else els sc (extend path 1) loop k)
  end.

(** The bindings a joined Fork publishes, in branch order. *)
Fixpoint publish (binds : list string) (fs : list flow) (sc : scope) : scope :=
  match binds, fs with
  | b :: binds, f :: fs =>
      publish binds fs
        match f with
        | FNext child | FDone child _ =>
            if decide (b = "") then sc
            else match child !! b with Some v => <[b := v]> sc | None => sc end
        | FErr _ => sc
        end
  | _, _ => sc
  end.

Definition execFork (binds : list string) (branches : list proc) (sc : scope) (k : cont) : proc :=
  PPar maxConc false (TWait <$> branches) (λ susp fs,
    match classifyConcurrent susp (flow_err <$> fs) with
    | Some e => k (FErr e)
    | None => k (FNext (publish binds fs sc))
    end).

(** The sequential loop over the items, from index [idx]. *)
Definition execLoop_seq (body : scope → list nat → cont → proc) (var : string)
    (loop : list nat) (k : cont) : list value → nat → scope → proc :=
  fix go items idx sc :=
    match items with
    | [] => k (FNext sc)
    | item :: items => body (<[var := item]> sc) (extend loop idx) (λ f,
        match f with FNext sc' => go items (S idx) sc' | _ => k f end)
    end.

Definition execLoopParallel (body : scope → list nat → cont → proc) (var : string)
    (items : list value) (loop : list nat) (sc : scope) (k : cont) : proc :=
  PPar maxConc false
    (imap (λ i item, TWait (body (<[var := item]> sc) (extend loop i) PRet)) items)
    (λ susp fs,
      match classifyConcurrent susp (flow_err <$> fs) with
      | Some e => k (FErr e)
      | None => k (FNext sc)
      end).

Definition execLoop (body : scope → list nat → cont → proc) (var : string)
    (collection : operand) (parallel : bool) (sc : scope) (path loop : list nat)
    (k : cont) : proc :=
  match evalCollection sc collection with
  | Err e => k (FErr e)
  | Ok items =>
      if (maxIters <? Z.of_nat (length items))%Z
      then k (FErr (ETooManyItems (length items) maxIters))
      else record_control (controlKey "loop:" path loop) (length items) k
        (if parallel then execLoopParallel body var items loop sc k
         else execLoop_seq body var loop k items 0 sc)
  end.

(** The iteration ceiling of a While or Retry. *)
Definition effectiveMax (limit : Z) : nat :=
  Z.to_nat (if (0 <? limit)%Z && (limit <? maxIters)%Z then limit else maxIters).

Definition execWhile (body : scope → list nat → cont → proc) (cond : expr)
    (path loop : list nat) (k : cont) : nat → nat → scope → proc :=
  fix go rem i sc :=
    match rem with
    | O => k (FNext sc)
    | S rem =>
        match evalExpr sc cond with
        | Err e => k (FErr e)
        | Ok c => record_control (controlKey "while:" path (extend loop i)) (b2n c) k
            (if c then body sc (extend loop i) (λ f,
               match f with FNext sc' => go rem (S i) sc' | _ => k f end)
             else k (FNext sc))
        end
    end.

Definition execRetry (body : scope → list nat → cont → proc) (cond : expr) (limit : Z)
    (path loop : list nat) (k : cont) : nat → nat → scope → proc :=
  fix go rem i sc :=
    match rem with
    | O => k (FErr (ERetryExhausted limit))
    | S rem =>
        body sc (extend loop i) (λ f,
          match f with
          | FNext sc' =>
              match evalExpr sc' cond with
              | Err e => k (FErr e)
              | Ok c => record_control (controlKey "retry:" path (extend loop i)) (b2n c) k
                  (if c then k (FNext sc') else go rem (S i) sc')
              end
          | _ => k f
          end)
    end.

(** A Graph starts with its first [trySchedule] and exit test done. *)
Definition execGraph (gs : list (string * list string)) (start : nat → scope → proc)
    (sc : scope) (k : cont) : proc :=
  if decide (gs = []) then k (FNext sc)
  else
    let sts := trySchedule gs ∅ None false (replicate (length gs) GIdle) in
    PGraph gs start maxConc sts sc ∅ None false 0
      (graph_exit (length gs) ∅ None false sts)
      (λ r, match r with Ok sc' => k (FNext sc') | Err e => k (FErr e) end).

Fixpoint exec (n : node) (sc : scope) (path loop : list nat) (k : cont) {struct n} : proc :=
  match n with
  | InvokeTool bind uses a =>
      invoke sc bind (mkCallSite bind path loop false) a (CallTool uses) k
  | InvokeAgent bind agent a wd =>
      invoke sc bind (mkCallSite bind path loop wd) a (CallAgent agent) k
  | InvokeWorkflow bind wf a wd projectValue =>
      invoke sc bind (mkCallSite bind path loop wd) a (CallWorkflow wf) (λ f,
        match f with
        | FNext sc' =>
            if projectValue && negb (bool_decide (bind = "")) then
              match projectValueField wf (default VNil (sc' !! bind)) with
              | Err e => k (FErr e)
              | Ok v => k (FNext (<[bind := v]> sc'))
              end
            else k f
        | _ => k f
        end)
  | Let bind v =>
      match evalValue sc v with
      | Err e => k (FErr e)
      | Ok val => k (FNext (bind_result sc bind val))
      end
  | Branch c t e =>
      execBranch (λ sc path loop k, execAll_ exec t sc path loop k)
        (λ sc path loop k, execAll_ exec e sc path loop k) sc c path loop k
  | Fork bs =>
      execFork (bs.*1)
        ((fix go (bs : list (string * list node)) (i : nat) : list proc :=
          match bs with
          | [] => []
          | (_, ns) :: bs => execAll_ exec ns sc (extend path i) loop PRet :: go bs (S i)
          end) bs 0) sc k
  | Loop var coll body par =>
      execLoop (λ sc loop k, execAll_ exec body sc path loop k) var coll par sc path loop k
  | While c limit body =>
      execWhile (λ sc loop k, execAll_ exec body sc path loop k) c path loop k
        (effectiveMax limit) 0 sc
  | Retry c limit body =>
      execRetry (λ sc loop k, execAll_ exec body sc path loop k) c limit path loop k
        (effectiveMax limit) 0 sc
  | Return v =>
      match evalValue sc v with
      | Err e => k (FErr e)
      | Ok val => k (FDone sc val)
      end
  | Graph gs =>
      let rank := canonicalRanks (gn_id <$> gs) in
      let runs := (fix go (gs : list (string * list string * node)) (i : nat)
          : list (scope → proc) :=
        match gs with
        | [] => []
        | (_, n) :: gs =>
            (λ local, exec n local (extend path (default 0 (rank !! i))) loop PRet)
            :: go gs (S i)
        end) gs 0 in
      execGraph (gs.*1)
        (λ i local, match runs !! i with
                    | Some r => r local | None => PRet (FErr EUnknownNode) end) sc k
  | Approval bind d r a =>
      invoke sc bind (mkCallSite bind path loop false) a (CallApproval (mkApprovalInfo d r)) k
  | NilNode => k (FErr EUnknownNode)
  end.

Definition execAll : execAll_t := execAll_ exec.
End runner.

(** ** Steps *)

(** A call made: the site, the operation, and what the Invoker returned. *)
Record event := mkEvent { ev_site : CallSite; ev_call : call; ev_result : res error value }.
Definition ev_key (e : event) : string := CallKey (ev_site e).

Record state (W : Type) := mkState { world : W; sess : session; calls : list event }.
Arguments mkState {W}.
Arguments world {W}.
Arguments sess {W}.
Arguments calls {W}.

Definition with_sess {W} (st : state W) (s : session) : state W := mkState (world st) s (calls st).

(** [invoke], from the memo lookup to the memo write. *)
Definition do_invoke `{Invoker W} (cancelled : bool) (site : CallSite) (mk : res error call)
    (st : state W) : state W * res error value :=
  let key := CallKey site in
  match getMemo (sess st) key with
  | Some v => (st, Ok v)
  | None =>
      match mk with
      | Err e => (st, Err e)
      | Ok c =>
          let '(w, r) := dispatch (world st) cancelled site c in
          let st := mkState w (sess st) (calls st ++ [mkEvent site c r]) in
          match r with
          | Err e =>
              (if isSuspend e then with_sess st (markSuspended (sess st) key) else st, Err e)
          | Ok v =>
              match Canonical v with
              | Err je => (st, Err (EResult key je))
              | Ok v => (with_sess st (putMemo (sess st) key v), Ok v)
              end
          end
      end
  end.

Definition do_control {W} (key : string) (val : nat) (st : state W) : state W * option error :=
  let '(s, r) := checkControl (sess st) key val in (with_sess st s, r).

Definition launchable (width : nat) (bs : list tstat) (i : nat) : bool :=
  forallb (λ t, negb (twaiting t)) (take i bs) && (countb trunning bs <? width).

Section step.
Context `{Invoker W}.

(** One action of the goroutine the choice leads to: an empty choice is an
    action of this process, [i :: ch] one of its [i]-th goroutine.  [None]: the
    choice is not enabled. *)
Fixpoint step (cancelled : bool) (p : proc) (ch : list nat) (st : state W) {struct p}
    : option (state W * proc) :=
  match p with
  | PRet _ => None
  | PInvoke site mk k =>
      match ch with
      | [] => let '(st', r) := do_invoke cancelled site mk st in Some (st', k r)
      | _ => None
      end
  | PControl key val k =>
      match ch with
      | [] => let '(st', r) := do_control key val st in Some (st', k r)
      | _ => None
      end
  | PPar width cn bs k =>
      match ch with
      | [] =>
          match mapM tflow bs with
          | Some fs => Some (st, k (suspended (sess st)) fs)
          | None => None
          end
      | i :: ch =>
          match bs !! i with
          | Some (TWait q) =>
              if launchable width bs i
              then Some (st, PPar width cn (<[i := TRun q]> bs) k) else None
          | Some (TRun (PRet f)) =>
              Some (st, PPar width (cn || cancels f) (<[i := TFin f]> bs) k)
          | Some (TRun _) =>
              match (fix sub (l : list tstat) (j : nat) : option (state W * proc) :=
                match l, j with
                | TRun q :: _, O => step (cancelled || cn) q ch st
                | _ :: l, S j => sub l j
                | _, _ => None
                end) bs i with
              | Some (st', q) => Some (st', PPar width cn (<[i := TRun q]> bs) k)
              | None => None
              end
          | _ => None
          end
      end
  | PGraph gs start width sts sc completed firstErr susp tokens exited k =>
      match ch with
      | [] =>
          if exited then
            if decide (countb grunning sts = 0)
            then Some (st, k (graph_result (length gs) sc completed firstErr susp)) else None
          else
            match tokens with
            | O => None
            | S tokens =>
                let sts := trySchedule gs completed firstErr susp sts in
                Some (st, PGraph gs start width sts sc completed firstErr susp tokens
                  (graph_exit (length gs) completed firstErr susp sts) k)
            end
      | i :: ch =>
          match sts !! i with
          | Some GLaunched =>
              if decide (countb gactive sts < width)
              then Some (st, PGraph gs start width (<[i := GRun (start i sc)]> sts)
                sc completed firstErr susp tokens exited k) else None
          | Some (GRun (PRet f)) =>
              let '(sc, completed, firstErr, susp) :=
                graph_publish (default "" (fst <$> gs !! i)) f sc completed firstErr susp in
              Some (st, PGraph gs start width (<[i := GOver]> sts) sc completed firstErr susp
                (S tokens) exited k)
          | Some (GRun _) =>
              match (fix sub (l : list gstat) (j : nat) : option (state W * proc) :=
                match l, j with
                | GRun q :: _, O => step (cancelled || is_Some_b firstErr) q ch st
                | _ :: l, S j => sub l j
                | _, _ => None
                end) sts i with
              | Some (st', q) =>
                  Some (st', PGraph gs start width (<[i := GRun q]> sts)
                    sc completed firstErr susp tokens exited k)
              | None => None
              end
          | _ => None
          end
      end
  end.

(** The choices enabled in a process, by index of goroutine. *)
Fixpoint enabled (p : proc) : list (list nat) :=
  match p with
  | PRet _ => []
  | PInvoke _ _ _ | PControl _ _ _ => [[]]
  | PPar width cn bs k =>
      (if forallb (λ t, match t with TFin _ => true | _ => false end) bs then [[]] else []) ++
      (fix go (l : list tstat) (i : nat) : list (list nat) :=
        match l with
        | [] => []
        | t :: l =>
            match t with
            | TWait _ => if launchable width bs i then [[i]] else []
            | TRun (PRet _) => [[i]]
            | TRun q => cons i <$> enabled q
            | TFin _ => []
            end ++ go l (S i)
        end) bs 0
  | PGraph gs start width sts sc completed firstErr susp tokens exited k =>
      (if exited then if decide (countb grunning sts = 0) then [[]] else []
       else match tokens with O => [] | S _ => [[]] end) ++
      (fix go (l : list gstat) (i : nat) : list (list nat) :=
        match l with
        | [] => []
        | t :: l =>
            match t with
            | GLaunched => if decide (countb gactive sts < width) then [[i]] else []
            | GRun (PRet _) => [[i]]
            | GRun q => cons i <$> enabled q
            | _ => []
            end ++ go l (S i)
        end) sts 0
  end.

(** A schedule: at step [t] the scheduler picks the enabled choice number
    [pick t] (modulo their number). *)
Fixpoint run (pick : nat → nat) (t fuel : nat) (st : state W) (p : proc) : state W * proc :=
  match fuel with
  | O => (st, p)
  | S fuel =>
      let ens := enabled p in
      match ens !! (pick t mod length ens) with
      | None => (st, p)
      | Some ch =>
          match step false p ch st with
          | Some (st', p') => run pick (S t) fuel st' p'
          | None => (st, p)
          end
      end
  end.
End step.

(** ** [RunResumable] *)

Record RunState := mkRunState {
  rs_memo : gmap string value;
  rs_control : gmap string nat;
  rs_suspended : bool;
  rs_suspendKey : string;
}.

Record Interp := mkInterp { MaxLoopIterations : Z; MaxConcurrency : Z }.

Definition maxIters (c : Interp) : Z :=
  if (0 <? MaxLoopIterations c)%Z then MaxLoopIterations c else DefaultMaxLoopIterations.
Definition maxConc (c : Interp) : nat :=
  Z.to_nat (if (0 <? MaxConcurrency c)%Z then MaxConcurrency c else DefaultMaxConcurrency).

Definition seed_session (seed : option RunState) : res error session :=
  match seed with
  | None => Ok (mkSession ∅ ∅ false "")
  | Some s =>
      m ← res_traverse (λ kv, match Canonical kv.2 with
            | Ok c => Ok (kv.1, c) | Err e => Err (ESeed kv.1 e) end) (map_to_list (rs_memo s));
      mret (mkSession (list_to_map m) (rs_control s) false "")
  end.

(** The session and the process a run starts with. *)
Definition start_run (c : Interp) (prog : program) (input : value) (seed : option RunState)
    : res error (session * proc) :=
  s ← seed_session seed;
  match Canonical input with
  | Err e => Err (EInput e)
  | Ok cinput =>
      Ok (s, execAll (maxIters c) (maxConc c) (Body prog)
               (paramScope (Params prog) cinput) [] [] PRet)
  end.

(** What a run that ended with flow [f] in session [s] returns. *)
Definition finish_run (s : session) (f : flow) : res error (value * RunState) :=
  let st := mkRunState (memo s) (control s) (suspended s) (suspendKey s) in
  match f with
  | FNext _ => Ok (VNil, st)
  | FDone _ out => Ok (out, st)
  | FErr e => if isSuspend e then Ok (VNil, st) else Err e
  end.

(** [RunResumable] under the scheduler [pick]; [None] while it has not ended. *)
Definition RunResumable `{Invoker W} (c : Interp) (prog : program) (input : value)
    (seed : option RunState) (pick : nat → nat) (fuel : nat) (w : W)
    : option (W * list event * res error (value * RunState)) :=
  match start_run c prog input seed with
  | Err e => Some (w, [], Err e)
  | Ok (s, p) =>
      let '(st, p) := run pick 0 fuel (mkState w s []) p in
      match p with
      | PRet f => Some (world st, calls st, finish_run (sess st) f)
      | _ => None
      end
  end.
