(* ===== verification/ExecSteps.v ===== *)
(** * Steps of the interpreter as a relation

    The executable [step] as an inductive relation, the induction principle of
    processes, and termination: no schedule of a process is infinite. *)

From Stdlib Require Import Wellfounded.
From S2P Require Import Prelude Value JsonNum ExecIR ExecEval ExecInterp.

(** ** Induction on processes *)

Section proc_ind.
Variable P : proc → Prop.
Definition tP (t : tstat) : Prop := match t with TWait p | TRun p => P p | TFin _ => True end.
Definition gP (g : gstat) : Prop := match g with GRun p => P p | _ => True end.
Hypothesis Hret : ∀ f, P (PRet f).
Hypothesis Hinvoke : ∀ site mk k, (∀ r, P (k r)) → P (PInvoke site mk k).
Hypothesis Hcontrol : ∀ key val k, (∀ r, P (k r)) → P (PControl key val k).
Hypothesis Hpar : ∀ w c bs k, Forall tP bs → (∀ b fs, P (k b fs)) → P (PPar w c bs k).
Hypothesis Hgraph : ∀ gs start w sts sc cpl fe su tk ex k,
  (∀ i sc, P (start i sc)) → Forall gP sts → (∀ r, P (k r)) →
  P (PGraph gs start w sts sc cpl fe su tk ex k).

Fixpoint proc_nested_ind (p : proc) : P p :=
  match p with
  | PRet f => Hret f
  | PInvoke site mk k => Hinvoke site mk k (λ r, proc_nested_ind (k r))
  | PControl key val k => Hcontrol key val k (λ r, proc_nested_ind (k r))
  | PPar w c bs k => Hpar w c bs k
      ((fix go l : Forall tP l := match l with
        | [] => Forall_nil_2 _
        | t :: l => Forall_cons_2 _ _ _
            (match t return tP t with
             | TWait p => proc_nested_ind p
             | TRun p => proc_nested_ind p
             | TFin _ => I end) (go l)
        end) bs) (λ b fs, proc_nested_ind (k b fs))
  | PGraph gs start w sts sc cpl fe su tk ex k => Hgraph gs start w sts sc cpl fe su tk ex k
      (λ i sc, proc_nested_ind (start i sc))
      ((fix go l : Forall gP l := match l with
        | [] => Forall_nil_2 _
        | g :: l => Forall_cons_2 _ _ _
            (match g return gP g with
             | GRun p => proc_nested_ind p
             | _ => I end) (go l)
        end) sts) (λ r, proc_nested_ind (k r))
  end.
End proc_ind.

(** ** The relation *)

Section pstep.
Context `{Invoker W}.

Inductive pstep (cn : bool) (st : state W) : proc → state W → proc → Prop :=
  | ps_invoke site mk k st' r :
      do_invoke cn site mk st = (st', r) → pstep cn st (PInvoke site mk k) st' (k r)
  | ps_control key val k st' r :
      do_control key val st = (st', r) → pstep cn st (PControl key val k) st' (k r)
  | ps_join w c bs k fs :
      mapM tflow bs = Some fs →
      pstep cn st (PPar w c bs k) st (k (suspended (sess st)) fs)
  | ps_launch w c bs k i q :
      bs !! i = Some (TWait q) → launchable w bs i = true →
      pstep cn st (PPar w c bs k) st (PPar w c (<[i := TRun q]> bs) k)
  | ps_finish w c bs k i f :
      bs !! i = Some (TRun (PRet f)) →
      pstep cn st (PPar w c bs k) st (PPar w (c || cancels f) (<[i := TFin f]> bs) k)
  | ps_sub w c bs k i q st' q' :
      bs !! i = Some (TRun q) → pstep (cn || c) st q st' q' →
      pstep cn st (PPar w c bs k) st' (PPar w c (<[i := TRun q']> bs) k)
  | ps_gexit gs start w sts sc cpl fe su tk k :
      countb grunning sts = 0 →
      pstep cn st (PGraph gs start w sts sc cpl fe su tk true k) st
        (k (graph_result (length gs) sc cpl fe su))
  | ps_gwake gs start w sts sc cpl fe su tk k sts' :
      sts' = trySchedule gs cpl fe su sts →
      pstep cn st (PGraph gs start w sts sc cpl fe su (S tk) false k) st
        (PGraph gs start w sts' sc cpl fe su tk (graph_exit (length gs) cpl fe su sts') k)
  | ps_glaunch gs start w sts sc cpl fe su tk ex k i :
      sts !! i = Some GLaunched → countb gactive sts < w →
      pstep cn st (PGraph gs start w sts sc cpl fe su tk ex k) st
        (PGraph gs start w (<[i := GRun (start i sc)]> sts) sc cpl fe su tk ex k)
  | ps_gfinish gs start w sts sc cpl fe su tk ex k i f sc' cpl' fe' su' :
      sts !! i = Some (GRun (PRet f)) →
      graph_publish (default "" (fst <$> gs !! i)) f sc cpl fe su = (sc', cpl', fe', su') →
      pstep cn st (PGraph gs start w sts sc cpl fe su tk ex k) st
        (PGraph gs start w (<[i := GOver]> sts) sc' cpl' fe' su' (S tk) ex k)
  | ps_gsub gs start w sts sc cpl fe su tk ex k i q st' q' :
      sts !! i = Some (GRun q) → pstep (cn || is_Some_b fe) st q st' q' →
      pstep cn st (PGraph gs start w sts sc cpl fe su tk ex k) st'
        (PGraph gs start w (<[i := GRun q']> sts) sc cpl fe su tk ex k).

Definition tsub (cn : bool) (ch : list nat) (st : state W) :=
  fix sub (l : list tstat) (j : nat) : option (state W * proc) :=
    match l, j with
    | TRun q :: _, O => step cn q ch st
    | _ :: l, S j => sub l j
    | _, _ => None
    end.
Lemma tsub_lookup cn ch st l j q : l !! j = Some (TRun q) → tsub cn ch st l j = step cn q ch st.
Proof. revert j. induction l as [|t l IH]; intros [|j]; simpl; intros; simplify_eq; [done|].
  destruct t; auto. Qed.

Definition gsub (cn : bool) (ch : list nat) (st : state W) :=
  fix sub (l : list gstat) (j : nat) : option (state W * proc) :=
    match l, j with
    | GRun q :: _, O => step cn q ch st
    | _ :: l, S j => sub l j
    | _, _ => None
    end.
Lemma gsub_lookup cn ch st l j q : l !! j = Some (GRun q) → gsub cn ch st l j = step cn q ch st.
Proof. revert j. induction l as [|t l IH]; intros [|j]; simpl; intros; simplify_eq; [done|].
  destruct t; auto. Qed.

(** Every step the executable semantics takes is a step of the relation. *)
Lemma step_pstep cn p ch st st' p' : step cn p ch st = Some (st', p') → pstep cn st p st' p'.
Proof.
  revert cn ch st st' p'. induction p as [f|site mk k IH|key val k IH|w c bs k IHb IHk
    |gs start w sts sc cpl fe su tk ex k IHs IHg IHk] using proc_nested_ind;
    intros cn ch st st' p' Hs.
  - done.
  - destruct ch; [|done]. simpl in Hs. destruct (do_invoke _ _ _ _) eqn:E. simplify_eq.
    by constructor.
  - destruct ch; [|done]. simpl in Hs. destruct (do_control _ _ _) eqn:E. simplify_eq.
    by constructor.
  - destruct ch as [|i ch]; simpl in Hs.
    + destruct (mapM tflow bs) eqn:E; simplify_eq. by constructor.
    + destruct (bs !! i) as [[q|q|f]|] eqn:Ei; [| |done..].
      * destruct (launchable w bs i) eqn:El; simplify_eq. by constructor.
      * fold (tsub (cn || c) ch st) in Hs. rewrite (tsub_lookup _ _ _ _ _ _ Ei) in Hs.
        assert (∀ st' q', step (cn || c) q ch st = Some (st', q') →
          pstep (cn || c) st q st' q') as IH.
        { intros st1 q1. rewrite Forall_forall in IHb.
          apply (IHb (TRun q)). by eapply list_elem_of_lookup_2. }
        destruct q; simplify_eq; [by constructor|..];
          (destruct (step _ _ _ _) as [[st1 q1]|] eqn:E; simplify_eq; econstructor; eauto).
  - destruct ch as [|i ch]; simpl in Hs.
    + destruct ex.
      * case_decide; simplify_eq. by constructor.
      * destruct tk; simplify_eq. by constructor.
    + destruct (sts !! i) as [[| |q|]|] eqn:Ei; [done| | |done..].
      * case_decide; simplify_eq. by constructor.
      * fold (gsub (cn || is_Some_b fe) ch st) in Hs. rewrite (gsub_lookup _ _ _ _ _ _ Ei) in Hs.
        assert (∀ st' q', step (cn || is_Some_b fe) q ch st = Some (st', q') →
          pstep (cn || is_Some_b fe) st q st' q') as IH.
        { intros st1 q1. rewrite Forall_forall in IHg.
          apply (IHg (GRun q)). by eapply list_elem_of_lookup_2. }
        destruct q.
        1: { destruct (graph_publish _ _ _ _ _ _) as [[[sc1 cpl1] fe1] su1] eqn:E.
             simplify_eq. by econstructor. }
        all: destruct (step _ _ _ _) as [[st1 q1]|] eqn:E; simplify_eq; econstructor; eauto.
Qed.
End pstep.

(** ** Termination *)

(** Pointwise descent in a list: one component goes down along [R]. *)
Section pointwise.
Context {T : Type}.
Implicit Types R : nat → T → T → Prop.

Definition lower R (l' l : list T) : Prop :=
  ∃ i t t', l !! i = Some t ∧ l' = <[i := t']> l ∧ R i t' t.

Lemma lower_nil R l : ¬ lower R l [].
Proof. intros (i & t & t' & Hi & _). by rewrite lookup_nil in Hi. Qed.

Lemma lower_acc R l : (∀ i t, l !! i = Some t → Acc (R i) t) → Acc (lower R) l.
Proof.
  revert R. induction l as [|x l IH]; intros R Hl.
  { constructor. intros l' []%lower_nil. }
  assert (Acc (R 0) x) as Hx by by apply (Hl 0).
  assert (Acc (lower (λ i, R (S i))) l) as Hacc by (apply IH; intros i; apply (Hl (S i))).
  clear IH Hl. revert l Hacc. induction Hx as [x _ IHx]. intros l Hacc.
  induction Hacc as [l Hl IHl]. constructor.
  intros l' (i & t & t' & Hi & -> & HR). destruct i as [|i]; simplify_eq/=.
  - apply IHx; [done|]. by constructor.
  - apply IHl. by exists i, t, t'.
Qed.
End pointwise.

Section termination.
Context `{Invoker W}.

Definition smaller (p' p : proc) : Prop := ∃ cn (st st' : state W), pstep cn st p st' p'.
Abbreviation SN := (Acc smaller).

Definition tsmaller (_ : nat) (t' t : tstat) : Prop :=
  match t', t with
  | TRun q', TWait q => q' = q
  | TRun q', TRun q => smaller q' q
  | TFin _, TRun _ => True
  | _, _ => False
  end.

Lemma tfin_acc i f : Acc (tsmaller i) (TFin f).
Proof. constructor. by intros []. Qed.

Lemma trun_acc i q : SN q → Acc (tsmaller i) (TRun q).
Proof.
  induction 1 as [q _ IH]. constructor. intros [q'|q'|f]; simpl; [done|apply IH|].
  intros _. apply tfin_acc.
Qed.

Lemma tP_acc i t : tP SN t → Acc (tsmaller i) t.
Proof.
  destruct t as [q|q|f]; simpl; intros Hq; [|by apply trun_acc|apply tfin_acc].
  constructor. intros [q'|q'|f]; simpl; [done| |done]. intros ->. by apply trun_acc.
Qed.

Lemma par_SN w c bs k : Forall (tP SN) bs → (∀ b fs, SN (k b fs)) → SN (PPar w c bs k).
Proof.
  intros Hbs Hk. assert (Acc (lower tsmaller) bs) as Hacc.
  { apply lower_acc. intros i t Hi. apply tP_acc. rewrite Forall_forall in Hbs.
    apply Hbs. by eapply list_elem_of_lookup_2. }
  clear Hbs. revert c. induction Hacc as [bs _ IH]. intros c. constructor.
  intros p' (cn & st & st' & Hs).
  inversion Hs as [| |? ? ? ? fs|? ? ? ? i q Hi|? ? ? ? i f Hi|? ? ? ? i q ? q' Hi Hq| | | | |];
    subst.
  - apply Hk.
  - apply IH. exists i, (TWait q), (TRun q). done.
  - apply IH. exists i, (TRun (PRet f)), (TFin f). done.
  - apply IH. exists i, (TRun q), (TRun q'). split_and!; [done..|]. by exists (cn || c), st, st'.
Qed.

Definition gsmaller (start : nat → scope → proc) (i : nat) (t' t : gstat) : Prop :=
  match t', t with
  | GRun q', GLaunched => ∃ sc, q' = start i sc
  | GRun q', GRun q => smaller q' q
  | GOver, GRun _ => True
  | _, _ => False
  end.

Lemma gP_acc start i t : (∀ i sc, SN (start i sc)) → gP SN t → Acc (gsmaller start i) t.
Proof.
  intros Hs. assert (Acc (gsmaller start i) GOver) as Hover.
  { constructor. intros t' Ht. destruct t'; destruct Ht. }
  assert (∀ q, SN q → Acc (gsmaller start i) (GRun q)) as Hrun.
  { intros q Hq. induction Hq as [q _ IH]. constructor. intros t' Ht.
    destruct t'; simpl in Ht; [destruct Ht|destruct Ht|by apply IH|done]. }
  destruct t as [| |q|]; simpl; intros Hq; [| |by apply Hrun|done];
    constructor; intros t' Ht; destruct t'; simpl in Ht; try destruct Ht.
  subst. apply Hrun, Hs.
Qed.

Lemma countb_insert_same {A} (f : A → bool) l i x y :
  l !! i = Some x → f x = f y → countb f (<[i := y]> l) = countb f l.
Proof.
  unfold countb. revert i. induction l as [|z l IH]; intros [|i]; simpl; intros; simplify_eq;
    [done..| |].
  - rewrite H1. by destruct (f y).
  - destruct (f z); simpl; by rewrite ?IH.
Qed.

(** The weight a wake-up of the main loop lowers when it schedules nodes. *)
Definition gweight (sts : list gstat) : nat := length sts + countb gidle sts.

Lemma trySchedule_weight gs cpl fe su sts :
  trySchedule gs cpl fe su sts = sts ∨ gweight (trySchedule gs cpl fe su sts) < gweight sts.
Proof.
  unfold trySchedule. destruct (is_Some_b fe || su); [by left|].
  revert gs. induction sts as [|t sts IH]; intros [|g gs]; [by left..|right; simpl|].
  { unfold gweight, countb. simpl. lia. }
  unfold gweight, countb in *. simpl.
  destruct (gidle t) eqn:Et; simpl;
    [destruct (negb (bool_decide (g.1 ∈ cpl)) && ready cpl g); simpl|];
    (destruct (IH gs) as [->|Hlt]; simpl; rewrite ?Et; simpl; [auto|auto]); right; lia.
Qed.

Lemma gweight_insert i t t' sts :
  sts !! i = Some t → gidle t = gidle t' → gweight (<[i := t']> sts) = gweight sts.
Proof.
  intros Hi Ht. unfold gweight. rewrite length_insert.
  f_equal. by eapply countb_insert_same.
Qed.

Lemma trySchedule_gP gs cpl fe su sts (P : proc → Prop) :
  Forall (gP P) sts → Forall (gP P) (trySchedule gs cpl fe su sts).
Proof.
  unfold trySchedule. destruct (_ || _); [done|]. intros Hs. revert gs.
  induction Hs as [|t sts Ht _ IH]; intros [|g gs]; simpl; constructor; [|done].
  by destruct (gidle t && _ && _).
Qed.

(** Lexicographic: the weight, then the nodes, then the pending completions. *)
Lemma graph_SN gs start w sts sc cpl fe su tk ex k :
  (∀ i sc, SN (start i sc)) → Forall (gP SN) sts → (∀ r, SN (k r)) →
  SN (PGraph gs start w sts sc cpl fe su tk ex k).
Proof.
  intros Hs Hsts Hk. remember (gweight sts) as n eqn:En.
  revert sts sc cpl fe su tk ex En Hsts.
  induction (lt_wf n) as [n _ IHn]. intros sts sc cpl fe su tk ex En Hsts.
  assert (Acc (lower (gsmaller start)) sts) as Hacc.
  { apply lower_acc. intros i t Hi. apply gP_acc; [done|]. rewrite Forall_forall in Hsts.
    apply Hsts. by eapply list_elem_of_lookup_2. }
  revert sc cpl fe su tk ex En Hsts. induction Hacc as [sts _ IHs].
  intros sc cpl fe su tk ex En Hsts. revert sc cpl fe su ex.
  induction (lt_wf tk) as [tk _ IHt]. intros sc cpl fe su ex. constructor.
  intros p' (cn & st & st' & Hst).
  assert (∀ i t t' sc cpl fe su tk ex, sts !! i = Some t → gidle t = gidle t' →
    gsmaller start i t' t → gP SN t' →
    SN (PGraph gs start w (<[i:=t']> sts) sc cpl fe su tk ex k)) as Hnode.
  { intros i t t' sc1 cpl1 fe1 su1 tk1 ex1 Hi Hidle Hlt Ht'. apply IHs.
    - by exists i, t, t'.
    - by rewrite (gweight_insert i t).
    - by apply Forall_insert. }
  inversion Hst as [| | | | | | |? ? ? ? ? ? ? ? tk1 ? sts'|? ? ? ? ? ? ? ? ? ? ? i Hi
    |? ? ? ? ? ? ? ? ? ? ? i f ? ? ? ? Hi|? ? ? ? ? ? ? ? ? ? ? i q ? q' Hi Hq]; subst.
  - apply Hk.
  - destruct (trySchedule_weight gs cpl fe su sts) as [->|Hlt]; [apply IHt; lia|].
    eapply IHn; [exact Hlt|done|]. by apply trySchedule_gP.
  - eapply Hnode; [exact Hi|done|by eexists|apply Hs].
  - by eapply Hnode.
  - eapply Hnode; [exact Hi|done|by do 3 eexists|].
    rewrite Forall_forall in Hsts. apply list_elem_of_lookup_2, Hsts in Hi.
    apply (Acc_inv Hi). by do 3 eexists.
Qed.

(** Every process terminates under every interleaving, whatever the Invoker. *)
Lemma proc_SN p : SN p.
Proof.
  induction p as [f|site mk k IH|key val k IH|w c bs k IHb IHk
    |gs start w sts sc cpl fe su tk ex k IHs IHg IHk] using proc_nested_ind.
  - constructor. intros p' (cn & st & st' & Hs). inversion Hs.
  - constructor. intros p' (cn & st & st' & Hs). inversion Hs; subst. apply IH.
  - constructor. intros p' (cn & st & st' & Hs). inversion Hs; subst. apply IH.
  - by apply par_SN.
  - by apply graph_SN.
Qed.
End termination.

(** ** Enabled choices are the steps *)

Section enabled.
Context `{Invoker W}.

Definition enabled_t (width : nat) (bs : list tstat) := fix go (l : list tstat) (i : nat)
    : list (list nat) :=
  match l with
  | [] => []
  | t :: l =>
      match t with
      | TWait _ => if launchable width bs i then [[i]] else []
      | TRun (PRet _) => [[i]]
      | TRun q => cons i <$> enabled q
      | TFin _ => []
      end ++ go l (S i)
  end.

Definition enabled_g (width : nat) (sts : list gstat) := fix go (l : list gstat) (i : nat)
    : list (list nat) :=
  match l with
  | [] => []
  | t :: l =>
      match t with
      | GLaunched => if decide (countb gactive sts < width) then [[i]] else []
      | GRun (PRet _) => [[i]]
      | GRun q => cons i <$> enabled q
      | _ => []
      end ++ go l (S i)
  end.

Lemma elem_of_enabled_t w bs l i ch :
  ch ∈ enabled_t w bs l i ↔ ∃ j t, l !! j = Some t ∧
    match t with
    | TWait _ => launchable w bs (i + j) = true ∧ ch = [i + j]
    | TRun (PRet _) => ch = [i + j]
    | TRun q => ∃ ch', ch' ∈ enabled q ∧ ch = (i + j) :: ch'
    | TFin _ => False
    end.
Proof.
  revert i. induction l as [|t l IH]; intros i; simpl.
  { split; [by intros ?%elem_of_nil|]. intros (j & t & Hj & _). by rewrite lookup_nil in Hj. }
  rewrite elem_of_app, IH. split.
  - intros [Ht|(j & t' & Hj & Ht)].
    + exists 0, t. split; [done|]. rewrite Nat.add_0_r.
      destruct t as [q|q|f]; [|destruct q|]; try (by apply elem_of_nil in Ht);
        try (case_match; [|by apply elem_of_nil in Ht]; split; [done|]);
        try (by apply list_elem_of_singleton in Ht);
        apply list_elem_of_fmap in Ht as (ch' & -> & ?); by exists ch'.
    + exists (S j), t'. split; [done|]. by rewrite Nat.add_succ_r.
  - intros (j & t' & Hj & Ht). destruct j as [|j]; simplify_eq/=.
    + left. rewrite Nat.add_0_r in Ht.
      destruct t' as [q|q|f]; [|destruct q|]; try done;
        try (destruct Ht as [Hl ->]; rewrite Hl; by apply list_elem_of_singleton);
        try (subst; by apply list_elem_of_singleton);
        destruct Ht as (ch' & ? & Hch); rewrite Hch; apply list_elem_of_fmap; by exists ch'.
    + right. exists j, t'. split; [done|]. by rewrite Nat.add_succ_r in Ht.
Qed.

Lemma elem_of_enabled_g w sts l i ch :
  ch ∈ enabled_g w sts l i ↔ ∃ j t, l !! j = Some t ∧
    match t with
    | GLaunched => countb gactive sts < w ∧ ch = [i + j]
    | GRun (PRet _) => ch = [i + j]
    | GRun q => ∃ ch', ch' ∈ enabled q ∧ ch = (i + j) :: ch'
    | _ => False
    end.
Proof.
  revert i. induction l as [|t l IH]; intros i; simpl.
  { split; [by intros ?%elem_of_nil|]. intros (j & t & Hj & _). by rewrite lookup_nil in Hj. }
  rewrite elem_of_app, IH. split.
  - intros [Ht|(j & t' & Hj & Ht)].
    + exists 0, t. split; [done|]. rewrite Nat.add_0_r.
      destruct t as [| |q|]; [| |destruct q|]; try (by apply elem_of_nil in Ht);
        try (case_match; [|by apply elem_of_nil in Ht]; split; [done|]);
        try (by apply list_elem_of_singleton in Ht);
        apply list_elem_of_fmap in Ht as (ch' & -> & ?); by exists ch'.
    + exists (S j), t'. split; [done|]. by rewrite Nat.add_succ_r.
  - intros (j & t' & Hj & Ht). destruct j as [|j]; simplify_eq/=.
    + left. rewrite Nat.add_0_r in Ht.
      destruct t' as [| |q|]; [| |destruct q|]; try done;
        try (destruct Ht as [Hl Hch]; rewrite decide_True, Hch by done;
             by apply list_elem_of_singleton);
        try (subst; by apply list_elem_of_singleton);
        destruct Ht as (ch' & ? & Hch); rewrite Hch; apply list_elem_of_fmap; by exists ch'.
    + right. exists j, t'. split; [done|]. by rewrite Nat.add_succ_r in Ht.
Qed.

Lemma all_finished bs :
  forallb (λ t, match t with TFin _ => true | _ => false end) bs = true →
  ∃ fs, mapM tflow bs = Some fs.
Proof.
  intros Hb. apply mapM_is_Some, Forall_forall. intros t Ht.
  rewrite forallb_forall in Hb. apply list_elem_of_In, Hb in Ht.
  destruct t; [done|done|by eexists].
Qed.

(** A choice inside a running goroutine, by the induction hypothesis [IH]. *)
Ltac sub_step cn' sub lookup :=
  match goal with
  | Ht : ∃ ch', _ ∧ _ = _ :: ch', Hj : _ !! _ = Some _, st : state W, IH : _ |- _ =>
      let ch' := fresh "ch" in let Hen := fresh "Hen" in
      let Hch := fresh "Hch" in
      destruct Ht as (ch' & Hen & Hch); rewrite Hch; cbn [step]; rewrite Hj;
      fold (sub ch' st); rewrite (lookup _ _ _ _ _ Hj);
      destruct (IH cn' ch' st Hen) as (? & ? & ->); eauto
  end.

(** Every enabled choice can be taken, in any state. *)
Lemma enabled_step p ch cn (st : state W) :
  ch ∈ enabled p → ∃ st' p', step cn p ch st = Some (st', p').
Proof.
  revert cn ch st. induction p as [f|site mk k IH|key val k IH|w c bs k IHb IHk
    |gs start w sts sc cpl fe su tk ex k IHs IHg IHk] using proc_nested_ind; intros cn ch st Hch.
  - by apply elem_of_nil in Hch.
  - apply list_elem_of_singleton in Hch as ->. simpl. destruct (do_invoke _ _ _ _). eauto.
  - apply list_elem_of_singleton in Hch as ->. simpl. destruct (do_control _ _ _). eauto.
  - cbn [enabled] in Hch. apply elem_of_app in Hch as [Hch|Hch].
    + case_match eqn:Ef; [|by apply elem_of_nil in Hch].
      apply list_elem_of_singleton in Hch as ->. simpl.
      destruct (all_finished _ Ef) as [fs ->]. eauto.
    + fold (enabled_t w bs bs 0) in Hch. apply elem_of_enabled_t in Hch as (j & t & Hj & Ht).
      change (0 + j) with j in Ht.
      rewrite Forall_forall in IHb. pose proof (IHb t (list_elem_of_lookup_2 _ _ _ Hj)) as IH.
      destruct t as [q|q|f]; [|destruct q eqn:Eq|done].
      * destruct Ht as [Hl ->]. simpl. rewrite Hj, Hl. eauto.
      * subst. simpl. rewrite Hj. eauto.
      * sub_step (cn || c) (tsub (cn || c)) (tsub_lookup (cn || c)).
      * sub_step (cn || c) (tsub (cn || c)) (tsub_lookup (cn || c)).
      * sub_step (cn || c) (tsub (cn || c)) (tsub_lookup (cn || c)).
      * sub_step (cn || c) (tsub (cn || c)) (tsub_lookup (cn || c)).
  - cbn [enabled] in Hch. apply elem_of_app in Hch as [Hch|Hch].
    + destruct ex; [case_decide; [|by apply elem_of_nil in Hch]|
        destruct tk; [by apply elem_of_nil in Hch|]];
      apply list_elem_of_singleton in Hch as ->; simpl; [rewrite decide_True by done|]; eauto.
    + fold (enabled_g w sts sts 0) in Hch. apply elem_of_enabled_g in Hch as (j & t & Hj & Ht).
      change (0 + j) with j in Ht.
      rewrite Forall_forall in IHg. pose proof (IHg t (list_elem_of_lookup_2 _ _ _ Hj)) as IH.
      destruct t as [| |q|]; [done| |destruct q eqn:Eq|done].
      * destruct Ht as [Hl ->]. simpl. rewrite Hj, decide_True by done. eauto.
      * subst. simpl. rewrite Hj. destruct (graph_publish _ _ _ _ _ _) as [[[]]]. eauto.
      * sub_step (cn || is_Some_b fe) (gsub (cn || is_Some_b fe)) (gsub_lookup (cn || is_Some_b fe)).
      * sub_step (cn || is_Some_b fe) (gsub (cn || is_Some_b fe)) (gsub_lookup (cn || is_Some_b fe)).
      * sub_step (cn || is_Some_b fe) (gsub (cn || is_Some_b fe)) (gsub_lookup (cn || is_Some_b fe)).
      * sub_step (cn || is_Some_b fe) (gsub (cn || is_Some_b fe)) (gsub_lookup (cn || is_Some_b fe)).
Qed.

(** A run only takes steps of the relation. *)
Inductive psteps : state W → proc → state W → proc → Prop :=
  | psteps_refl st p : psteps st p st p
  | psteps_step st p st' p' st'' p'' :
      pstep false st p st' p' → psteps st' p' st'' p'' → psteps st p st'' p''.

Lemma run_psteps pick t fuel st p st' p' :
  run pick t fuel st p = (st', p') → psteps st p st' p'.
Proof.
  revert t st p. induction fuel as [|fuel IH]; intros t st p; simpl.
  { intros [= <- <-]. constructor. }
  destruct (enabled p !! _) as [ch|]; [|intros [= <- <-]; constructor].
  destruct (step false p ch st) as [[st1 p1]|] eqn:E; [|intros [= <- <-]; constructor].
  intros Hr. econstructor; [by eapply step_pstep|by eapply IH].
Qed.

(** Under every scheduler a run stops, where nothing is enabled. *)
Lemma run_stops pick t (st : state W) p :
  ∃ fuel st' p', run pick t fuel st p = (st', p') ∧ enabled p' = [].
Proof.
  revert t st. induction (proc_SN p) as [p _ IH]. intros t st.
  destruct (enabled p) as [|ch0 chs] eqn:Een.
  { exists 0, st, p. done. }
  destruct (lookup_lt_is_Some_2 (enabled p) (pick t mod length (enabled p))) as [ch Hch].
  { apply Nat.mod_upper_bound. by rewrite Een. }
  destruct (enabled_step p ch false st) as (st1 & p1 & Hs);
    [by eapply list_elem_of_lookup_2|].
  destruct (IH p1) with (t := S t) (st := st1) as (fuel & st' & p' & Hr & Hen).
  { do 3 eexists. by eapply step_pstep. }
  exists (S fuel), st', p'. split; [|done]. simpl. by rewrite Hch, Hs.
Qed.
End enabled.
