(* ===== verification/ExecCount.v ===== *)
(** * Counting invocations and progress

    [safe n p]: under every interleaving the process [p] makes at most [n] calls
    that satisfy a predicate on the site and the callee, and it never gets
    stuck.  Steps preserve it and [exec] establishes it with the static count
    [ncount]; the theorems on termination, on at-most-once invocation and on the
    published invocation bounds are instances. *)

From S2P Require Import Prelude Value JsonNum ExecIR ExecEval ExecInterp ExecSteps.

(** The kind and name of what a call invokes. *)
Definition callee (c : call) : string * string :=
  match c with
  | CallTool uses _ => ("tool", uses)
  | CallAgent agent _ => ("agent", agent)
  | CallWorkflow wf _ => ("workflow", wf)
  | CallApproval _ _ => ("approval", "")
  end.

Lemma sum_list_insert (ms : list nat) i m m' :
  ms !! i = Some m → m' ≤ m → sum_list (<[i := m']> ms) + (m - m') = sum_list ms.
Proof.
  revert i. induction ms as [|x ms IH]; intros [|i] Hi Hm; simplify_eq/=; [lia|].
  specialize (IH i Hi Hm). lia.
Qed.

Lemma sum_list_with_fmap {A} (f : A → nat) l : sum_list_with f l = sum_list (f <$> l).
Proof. induction l as [|x l IH]; simpl; [done|]. by rewrite IH. Qed.

Section count.
Variable psi : CallSite → string * string → bool.

Definition cost (site : CallSite) (mk : res error call) : nat :=
  match mk with Ok c => b2n (psi site (callee c)) | Err _ => 0 end.

Definition t_inner (t : tstat) (q : proc) : Prop := t = TWait q ∨ t = TRun q.

Inductive safe : nat → proc → Prop :=
  | safe_ret n f : safe n (PRet f)
  | safe_invoke n m site mk k :
      cost site mk + m ≤ n → (∀ r, safe m (k r)) → safe n (PInvoke site mk k)
  | safe_control n key val k : (∀ r, safe n (k r)) → safe n (PControl key val k)
  | safe_par n ms mk w c bs k :
      0 < w → length ms = length bs →
      (∀ i m t q, ms !! i = Some m → bs !! i = Some t → t_inner t q → safe m q) →
      (∀ b fs, safe mk (k b fs)) → sum_list ms + mk ≤ n →
      safe n (PPar w c bs k)
  | safe_graph n ms mk gs start w sts sc cpl fe su tk ex k :
      0 < w → length ms = length sts → length gs = length sts →
      (∀ i m t sc', ms !! i = Some m → sts !! i = Some t → t = GIdle ∨ t = GLaunched →
         safe m (start i sc')) →
      (∀ i m q, ms !! i = Some m → sts !! i = Some (GRun q) → safe m q) →
      (∀ r, safe mk (k r)) → sum_list ms + mk ≤ n →
      (ex = false → 0 < tk ∨ 0 < countb grunning sts) →
      safe n (PGraph gs start w sts sc cpl fe su tk ex k).

Lemma safe_weaken n n' p : n ≤ n' → safe n p → safe n' p.
Proof.
  intros Hn Hs. revert n' Hn. induction Hs as [|n m site mk k Hc Hk IH|n key val k Hk IH
    |n ms mk w c bs k|n ms mk gs start w sts sc cpl fe su tk ex k]; intros n' Hn.
  - constructor.
  - econstructor; [|done]. lia.
  - constructor. intros r. by apply IH.
  - eapply safe_par; try done. lia.
  - eapply safe_graph; try done. lia.
Qed.

(** The calls of a trace the predicate selects. *)
Definition selected (evs : list event) : nat :=
  countb (λ e, psi (ev_site e) (callee (ev_call e))) evs.

Lemma selected_app l l' : selected (l ++ l') = selected l + selected l'.
Proof. unfold selected, countb. by rewrite List.filter_app, length_app. Qed.

Context `{Invoker W}.

Lemma do_invoke_selected cn site mk (st st' : state W) r :
  do_invoke cn site mk st = (st', r) →
  ∃ evs, calls st' = calls st ++ evs ∧ selected evs ≤ cost site mk.
Proof.
  unfold do_invoke. destruct (getMemo _ _);
    [intros [= <- <-]; exists []; rewrite app_nil_r; split; [done|apply Nat.le_0_l]|].
  destruct mk as [c|e];
    [|intros [= <- <-]; exists []; rewrite app_nil_r; split; [done|apply Nat.le_0_l]].
  destruct (dispatch _ _ _ _) as [w rr].
  intros Hd. exists [mkEvent site c rr]. split.
  - destruct rr as [v|e]; [destruct (Canonical v)|destruct (isSuspend e)]; by simplify_eq.
  - unfold selected, countb. simpl. by destruct (psi site (callee c)).
Qed.

Lemma do_control_calls key val (st st' : state W) r :
  do_control key val st = (st', r) → calls st' = calls st.
Proof. unfold do_control. destruct (checkControl _ _ _). by intros [= <- _]. Qed.

Lemma graph_exit_running n cpl fe su sts :
  graph_exit n cpl fe su sts = false → 0 < countb grunning sts.
Proof.
  unfold graph_exit. intros Hx. bool_inv. lia.
Qed.

Lemma trySchedule_length gs cpl fe su sts :
  length gs = length sts → length (trySchedule gs cpl fe su sts) = length sts.
Proof. unfold trySchedule. case_match; [done|]. rewrite length_zip_with. lia. Qed.

Lemma trySchedule_lookup gs cpl fe su sts i t' :
  trySchedule gs cpl fe su sts !! i = Some t' →
  ∃ t, sts !! i = Some t ∧ (t' = t ∨ (t = GIdle ∧ t' = GLaunched)).
Proof.
  unfold trySchedule. case_match; [intros Hi; exists t'; auto|].
  rewrite lookup_zip_with. intros Hi.
  destruct (gs !! i) as [g|]; [|done]. simpl in Hi.
  destruct (sts !! i) as [t|]; [|done]. simpl in Hi. injection Hi as <-.
  exists t. split; [done|].
  destruct t; simpl; auto. case_match; auto.
Qed.

Lemma countb_grunning_insert sts i t t' :
  sts !! i = Some t → grunning t' = true →
  countb grunning sts ≤ countb grunning (<[i := t']> sts).
Proof.
  unfold countb. revert i. induction sts as [|x sts IH]; intros [|i] Hi Ht; simplify_eq/=.
  - rewrite Ht. destruct (grunning t); simpl; lia.
  - specialize (IH i Hi Ht). destruct (grunning x); simpl; lia.
Qed.

Lemma insert_lookup_cases {A} (l : list A) i j x y :
  <[i := x]> l !! j = Some y → (j = i ∧ y = x) ∨ (j ≠ i ∧ l !! j = Some y).
Proof.
  intros Hl. destruct (decide (j = i)) as [->|Hne].
  - left. apply list_lookup_insert_Some in Hl as [(_ & -> & _)|[? _]]; done.
  - right. split; [done|]. by rewrite list_lookup_insert_ne in Hl.
Qed.

(** Steps preserve safety and pay for the calls they make. *)
Lemma pstep_safe cn st p st' p' n :
  pstep cn st p st' p' → safe n p →
  ∃ evs n', calls st' = calls st ++ evs ∧ safe n' p' ∧ selected evs + n' ≤ n.
Proof.
  assert (∀ (st : state W) n p, safe n p →
    ∃ evs n', calls st = calls st ++ evs ∧ safe n' p ∧ selected evs + n' ≤ n) as Hnone.
  { intros st0 n0 p0 Hp. exists [], n0. by rewrite app_nil_r. }
  intros Hst. revert n. induction Hst as
    [cn st site mk k st' r Hi|cn st key val k st' r Hc|cn st w c bs k fs Hfs
    |cn st w c bs k i q Hi Hl|cn st w c bs k i f Hi|cn st w c bs k i q st' q' Hi Hq IH
    |cn st gs start w sts sc cpl fe su tk k H0|cn st gs start w sts sc cpl fe su tk k sts' ->
    |cn st gs start w sts sc cpl fe su tk ex k i Hi Hw
    |cn st gs start w sts sc cpl fe su tk ex k i f sc' cpl' fe' su' Hi Hpub
    |cn st gs start w sts sc cpl fe su tk ex k i q st' q' Hi Hq IH]; intros n Hs;
    inversion Hs as [|? m ? ? ? Hcost Hk|? ? ? ? Hk|? ms m ? ? ? ? Hw0 Hlen Hb Hk Hsum
      |? ms m ? ? ? ? ? ? ? ? ? ? ? Hw0 Hlen Hgs Hstart Hrun Hk Hsum Hlive]; subst.
  - apply do_invoke_selected in Hi as (evs & Hevs & Hsel). exists evs, m.
    split; [done|]. split; [apply Hk|lia].
  - rewrite (do_control_calls _ _ _ _ _ Hc). apply Hnone, Hk.
  - apply Hnone. eapply safe_weaken; [|apply Hk]. lia.
  - apply Hnone. eapply safe_par; [done| | |done|done].
    + by rewrite length_insert.
    + intros j mj t p Hmj [[-> ->]|[Hne Hj]]%insert_lookup_cases Ht; [|by eapply Hb].
      destruct Ht as [Ht|Ht]; simplify_eq. eapply Hb; [done..|]. by left.
  - apply Hnone. eapply safe_par; [done| | |done|done].
    + by rewrite length_insert.
    + intros j mj t p Hmj [[-> ->]|[Hne Hj]]%insert_lookup_cases Ht; [|by eapply Hb].
      by destruct Ht as [Ht|Ht].
  - destruct (lookup_lt_is_Some_2 ms i) as [mi Hmi].
    { rewrite Hlen. by eapply lookup_lt_Some. }
    destruct (IH mi) as (evs & mi' & Hevs & Hsafe & Hle); [eapply Hb; [done..|by right]|].
    pose proof (sum_list_insert ms i mi mi' Hmi ltac:(lia)) as Hsl.
    exists evs, (n - (mi - mi')). split; [done|]. split; [|lia].
    eapply (safe_par _ (<[i := mi']> ms)); [done| | |done|lia].
    + by rewrite !length_insert.
    + intros j mj t p Hmj [[-> ->]|[Hne Hj]]%insert_lookup_cases Ht.
      * apply insert_lookup_cases in Hmj as [[_ ->]|[? _]]; [|done].
        destruct Ht as [Ht|Ht]; by simplify_eq.
      * rewrite list_lookup_insert_ne in Hmj by done. by eapply Hb.
  - apply Hnone. eapply safe_weaken; [|apply Hk]. lia.
  - apply Hnone. eapply safe_graph; [done| | | | |done|done|].
    + by rewrite trySchedule_length.
    + by rewrite trySchedule_length.
    + intros j mj t sc' Hmj Hj Ht. apply trySchedule_lookup in Hj as (t0 & Hj & Ht0).
      eapply Hstart; [done..|]. destruct Ht0 as [->|[-> _]]; auto.
    + intros j mj p Hmj Hj. apply trySchedule_lookup in Hj as (t0 & Hj & Ht0).
      destruct Ht0 as [<-|[_ ?]]; [|done]. by eapply Hrun.
    + intros Hx. right. by eapply graph_exit_running.
  - apply Hnone. eapply safe_graph; [done| | | | |done|done|].
    + by rewrite length_insert.
    + by rewrite length_insert.
    + intros j mj t sc' Hmj [[-> ->]|[Hne Hj]]%insert_lookup_cases Ht; [|by eapply Hstart].
      by destruct Ht.
    + intros j mj p Hmj [[-> Hp]|[Hne Hj]]%insert_lookup_cases; [|by eapply Hrun].
      injection Hp as ->. eapply Hstart; [done..|]. by right.
    + intros Hx. destruct (Hlive Hx); [by left|right].
      eapply Nat.lt_le_trans; [done|]. by eapply countb_grunning_insert.
  - apply Hnone. eapply safe_graph; [done| | | | |done|done|].
    + by rewrite length_insert.
    + by rewrite length_insert.
    + intros j mj t sc0 Hmj [[-> ->]|[Hne Hj]]%insert_lookup_cases Ht; [|by eapply Hstart].
      by destruct Ht.
    + intros j mj p Hmj [[-> Hp]|[Hne Hj]]%insert_lookup_cases; [done|by eapply Hrun].
    + intros _. left. lia.
  - destruct (lookup_lt_is_Some_2 ms i) as [mi Hmi].
    { rewrite Hlen. by eapply lookup_lt_Some. }
    destruct (IH mi) as (evs & mi' & Hevs & Hsafe & Hle); [by eapply Hrun|].
    assert (ex = false → 0 < tk ∨ 0 < countb grunning (<[i := GRun q']> sts)) as Hlive'.
    { intros Hx. destruct (Hlive Hx); [by left|right].
      eapply Nat.lt_le_trans; [done|]. by eapply countb_grunning_insert. }
    pose proof (sum_list_insert ms i mi mi' Hmi ltac:(lia)) as Hsl.
    exists evs, (n - (mi - mi')). split; [done|]. split; [|lia].
    eapply (safe_graph _ (<[i := mi']> ms)); [done| | | | |done|lia|done].
    + by rewrite !length_insert.
    + by rewrite length_insert.
    + intros j mj t sc0 Hmj [[-> ->]|[Hne Hj]]%insert_lookup_cases Ht; [by destruct Ht|].
      rewrite list_lookup_insert_ne in Hmj by done. by eapply Hstart.
    + intros j mj p Hmj [[-> Hp]|[Hne Hj]]%insert_lookup_cases.
      * injection Hp as ->. by apply insert_lookup_cases in Hmj as [[_ ->]|[? _]].
      * rewrite list_lookup_insert_ne in Hmj by done. by eapply Hrun.
Qed.

Lemma psteps_safe st p st' p' n :
  psteps st p st' p' → safe n p →
  ∃ evs n', calls st' = calls st ++ evs ∧ safe n' p' ∧ selected evs + n' ≤ n.
Proof.
  intros Hps. revert n. induction Hps as [st p|st p st1 p1 st2 p2 Hs _ IH]; intros n Hn.
  { exists [], n. by rewrite app_nil_r. }
  destruct (pstep_safe _ _ _ _ _ _ Hs Hn) as (evs1 & n1 & E1 & Hn1 & Hle1).
  destruct (IH n1 Hn1) as (evs2 & n2 & E2 & Hn2 & Hle2).
  exists (evs1 ++ evs2), n2. rewrite E2, E1, app_assoc, selected_app.
  split_and!; [done|done|lia].
Qed.

(** *** Progress *)

Lemma countb_zero {A} (f : A → bool) l : (∀ x, x ∈ l → f x = false) → countb f l = 0.
Proof.
  unfold countb. induction l as [|x l IH]; intros Hl; simpl; [done|].
  rewrite Hl by left. apply IH. intros y Hy. apply Hl. by right.
Qed.

Lemma countb_pos {A} (f : A → bool) l : 0 < countb f l → ∃ i x, l !! i = Some x ∧ f x = true.
Proof.
  unfold countb. induction l as [|x l IH]; simpl; [lia|].
  destruct (f x) eqn:E; [intros _; by exists 0, x|]. intros Hl.
  destruct (IH Hl) as (i & y & Hi & Hy). by exists (S i), y.
Qed.

Lemma elem_ne {A} (x : A) l : x ∈ l → l ≠ [].
Proof. intros Hx ->. by apply elem_of_nil in Hx. Qed.

Lemma launch_enabled w bs i q :
  (∀ t, t ∈ bs → trunning t = false) → 0 < w →
  list_find (λ t, twaiting t = true) bs = Some (i, TWait q) → launchable w bs i = true.
Proof.
  intros Hrun Hw Hf. apply list_find_Some in Hf as (Hi & _ & Hbefore).
  unfold launchable. rewrite (countb_zero trunning bs Hrun).
  apply andb_true_iff. split; [|by apply Nat.ltb_lt].
  apply forallb_forall. intros t Ht. apply list_elem_of_In in Ht.
  apply list_elem_of_lookup in Ht as [j Hj]. apply lookup_take_Some in Hj as [Hj Hlt].
  specialize (Hbefore j t Hj Hlt). by destruct (twaiting t).
Qed.

Lemma safe_enabled n p : safe n p → (∃ f, p = PRet f) ∨ enabled p ≠ [].
Proof.
  induction 1 as [n f|n m site mk k Hc Hk IH|n key val k Hk IH
    |n ms mk w c bs k Hw Hlen Hb IHb Hk IHk Hsum
    |n ms mk gs start w sts sc cpl fe su tk ex k Hw Hlen Hgs Hstart IHstart Hrun IHrun
      Hk IHk Hsum Hlive]; [by left; eexists|by right..| |]; right.
  - cbn [enabled]. fold (enabled_t w bs bs 0).
    destruct (existsb trunning bs) eqn:Er.
    + apply existsb_True in Er as (t & Ht & Htr). destruct t as [|q|]; try done.
      apply list_elem_of_lookup in Ht as [i Hi].
      destruct (lookup_lt_is_Some_2 ms i) as [m Hm]; [rewrite Hlen; by eapply lookup_lt_Some|].
      destruct (IHb i m (TRun q) q Hm Hi ltac:(by right)) as [[f ->]|Hen].
      * apply (elem_ne [i]), elem_of_app. right. apply elem_of_enabled_t. by exists i, (TRun (PRet f)).
      * destruct (enabled q) as [|ch chs] eqn:Eq; [done|].
        apply (elem_ne (i :: ch)), elem_of_app. right. apply elem_of_enabled_t.
        exists i, (TRun q). split; [done|]. destruct q; [done|..];
          exists ch; (split; [rewrite Eq; left|done]).
    + rewrite existsb_False in Er.
      destruct (list_find (λ t, twaiting t = true) bs) as [[i t]|] eqn:Ef.
      * pose proof Ef as Ef2. apply list_find_Some in Ef2 as (Hi & Ht & _).
        destruct t as [q| |]; try done.
        apply (elem_ne [i]), elem_of_app. right. apply elem_of_enabled_t.
        exists i, (TWait q). split; [done|]. split; [|done]. by eapply launch_enabled.
      * apply list_find_None in Ef. rewrite Forall_forall in Ef.
        assert (forallb (λ t, match t with TFin _ => true | _ => false end) bs = true) as ->;
          [|done].
        apply forallb_forall. intros t Ht. apply list_elem_of_In in Ht.
        specialize (Er t Ht). specialize (Ef t Ht). by destruct t.
  - cbn [enabled]. fold (enabled_g w sts sts 0).
    destruct (decide (countb gactive sts = 0)) as [Ha|Ha].
    2: { destruct (countb_pos gactive sts) as (i & t & Hi & Ht); [lia|].
      destruct t as [| |q|]; try done.
      destruct (lookup_lt_is_Some_2 ms i) as [m Hm]; [rewrite Hlen; by eapply lookup_lt_Some|].
      destruct (IHrun i m q Hm Hi) as [[f ->]|Hen].
      - apply (elem_ne [i]), elem_of_app. right. apply elem_of_enabled_g. by exists i, (GRun (PRet f)).
      - destruct (enabled q) as [|ch chs] eqn:Eq; [done|].
        apply (elem_ne (i :: ch)), elem_of_app. right. apply elem_of_enabled_g.
        exists i, (GRun q). split; [done|]. destruct q; [done|..];
          exists ch; (split; [rewrite Eq; left|done]). }
    destruct (decide (countb grunning sts = 0)) as [Hr|Hr].
    + destruct ex; [done|].
      destruct (Hlive eq_refl) as [Htk|?]; [|lia]. by destruct tk; [lia|].
    + destruct (countb_pos grunning sts) as (i & t & Hi & Ht); [lia|].
      destruct t as [| |q|]; try done.
      * apply (elem_ne [i]), elem_of_app. right. apply elem_of_enabled_g.
        exists i, GLaunched. split; [done|]. split; [lia|done].
      * exfalso. clear -Ha Hi. unfold countb in Ha. revert i Hi Ha.
        induction sts as [|x l IH]; intros [|i] Hi Ha; simplify_eq/=.
        destruct (gactive x); simplify_eq/=. by eapply IH.
Qed.
End count.

(** ** The static count of a node *)

Section static.
Variable maxIters : Z.
Variable maxConc : nat.
Variable psi : CallSite → string * string → bool.

Definition sum_upto (f : nat → nat) (n : nat) : nat := sum_list_with f (seq 0 n).

Definition lcount (ncount : node → list nat → list nat → nat) (path loop : list nat) :=
  fix go (ns : list node) (i : nat) : nat :=
    match ns with
    | [] => 0
    | n :: ns => ncount n (extend path i) loop + go ns (S i)
    end.

(** How often a node can make a selected call: both arms of a Branch are
    alternatives, a loop multiplies by its ceiling. *)
Fixpoint ncount (n : node) (path loop : list nat) : nat :=
  match n with
  | InvokeTool b u _ => b2n (psi (mkCallSite b path loop false) ("tool", u))
  | InvokeAgent b a _ wd => b2n (psi (mkCallSite b path loop wd) ("agent", a))
  | InvokeWorkflow b w _ wd _ => b2n (psi (mkCallSite b path loop wd) ("workflow", w))
  | Approval b _ _ _ => b2n (psi (mkCallSite b path loop false) ("approval", ""))
  | Branch _ t e => Nat.max (lcount ncount (extend path 0) loop t 0)
                            (lcount ncount (extend path 1) loop e 0)
  | Fork bs => (fix go (bs : list (string * list node)) (i : nat) : nat :=
      match bs with
      | [] => 0
      | (_, ns) :: bs => lcount ncount (extend path i) loop ns 0 + go bs (S i)
      end) bs 0
  | Loop _ _ body _ =>
      sum_upto (λ i, lcount ncount path (extend loop i) body 0) (Z.to_nat maxIters)
  | While _ l body | Retry _ l body =>
      sum_upto (λ i, lcount ncount path (extend loop i) body 0) (effectiveMax maxIters l)
  | Graph gs =>
      let rank := canonicalRanks (gn_id <$> gs) in
      (fix go (gs : list (string * list string * node)) (i : nat) : nat :=
      match gs with
      | [] => 0
      | (_, n) :: gs => ncount n (extend path (default 0 (rank !! i))) loop + go gs (S i)
      end) gs 0
  | Let _ _ | Return _ | NilNode => 0
  end.

Abbreviation safe := (safe psi).
Abbreviation exec := (exec maxIters maxConc).
Hypothesis Hconc : 0 < maxConc.

Definition node_safe (n : node) : Prop := ∀ sc path loop k m,
  (∀ f, safe m (k f)) → safe (ncount n path loop + m) (exec n sc path loop k).

Lemma invoke_safe sc bind site a mkcall k m kd :
  (∀ s, callee (mkcall s) = kd) → (∀ f, safe m (k f)) →
  safe (b2n (psi site kd) + m) (invoke sc bind site a mkcall k).
Proof.
  intros Hkd Hk. econstructor; [|intros [v|e]; apply Hk].
  unfold cost. destruct (mkcall <$> evalArgs sc a) as [c|e] eqn:E; [|lia].
  destruct (evalArgs sc a); simplify_eq/=. by rewrite Hkd.
Qed.

Lemma execAll_safe ns path loop k i sc m :
  Forall node_safe ns → (∀ f, safe m (k f)) →
  safe (lcount ncount path loop ns i + m) (execAll_from exec path loop k ns i sc).
Proof.
  intros Hns Hk. revert i sc. induction Hns as [|n ns Hn _ IH]; intros i sc; simpl; [apply Hk|].
  rewrite <-Nat.add_assoc. apply Hn. intros [sc'|sc' v|e]; [apply IH|..];
    (eapply safe_weaken; [|apply Hk]); lia.
Qed.

Lemma record_control_safe key val k p n m :
  m ≤ n → (∀ f, safe m (k f)) → safe n p → safe n (record_control key val k p).
Proof.
  intros Hm Hk Hp. constructor. intros [e|]; [|done]. eapply safe_weaken; [done|apply Hk].
Qed.

(** The sum over the iterations still to run. *)
Definition sum_from (f : nat → nat) (i n : nat) : nat := sum_list_with f (seq i n).

Lemma loop_seq_safe body var loop k items idx sc m f :
  (∀ sc i k' m', (∀ f, safe m' (k' f)) → safe (f i + m') (body sc (extend loop i) k')) →
  (∀ f, safe m (k f)) →
  safe (sum_from f idx (length items) + m) (execLoop_seq body var loop k items idx sc).
Proof.
  intros Hb Hk. revert idx sc.
  induction items as [|item items IH]; intros idx sc; simpl; [apply Hk|].
  unfold sum_from in *. simpl. rewrite <-Nat.add_assoc. apply Hb.
  intros [sc'|sc' v|e]; [apply IH|..]; (eapply safe_weaken; [|apply Hk]); lia.
Qed.

Lemma while_safe body cond path loop k rem i sc m f :
  (∀ sc i k' m', (∀ f, safe m' (k' f)) → safe (f i + m') (body sc (extend loop i) k')) →
  (∀ f, safe m (k f)) →
  safe (sum_from f i rem + m) (execWhile body cond path loop k rem i sc).
Proof.
  intros Hb Hk. revert i sc. induction rem as [|rem IH]; intros i sc; simpl; [apply Hk|].
  unfold sum_from in *. simpl.
  destruct (evalExpr sc cond) as [c|e]; [|eapply safe_weaken; [|apply Hk]; lia].
  eapply record_control_safe; [|exact Hk|]; [lia|].
  destruct c; [|eapply safe_weaken; [|apply Hk]; lia].
  rewrite <-Nat.add_assoc. apply Hb. intros [sc'|sc' v|e]; [apply IH|..];
    (eapply safe_weaken; [|apply Hk]); lia.
Qed.

Lemma retry_safe body cond limit path loop k rem i sc m f :
  (∀ sc i k' m', (∀ f, safe m' (k' f)) → safe (f i + m') (body sc (extend loop i) k')) →
  (∀ f, safe m (k f)) →
  safe (sum_from f i rem + m) (execRetry body cond limit path loop k rem i sc).
Proof.
  intros Hb Hk. revert i sc. induction rem as [|rem IH]; intros i sc; simpl; [apply Hk|].
  unfold sum_from in *. simpl. rewrite <-Nat.add_assoc. apply Hb.
  intros [sc'|sc' v|e]; [|eapply safe_weaken; [|apply Hk]; lia..].
  destruct (evalExpr sc' cond) as [c|e]; [|eapply safe_weaken; [|apply Hk]; lia].
  eapply record_control_safe; [|exact Hk|]; [lia|].
  destruct c; [eapply safe_weaken; [|apply Hk]; lia|apply IH].
Qed.

Lemma sum_from_le f i n n' : n ≤ n' → sum_from f i n ≤ sum_from f i n'.
Proof.
  intros Hn. unfold sum_from. replace n' with (n + (n' - n)) by lia.
  rewrite seq_app, sum_list_with_app. lia.
Qed.

(** The branches of a Fork, and the iterations of a parallel Loop. *)
Lemma par_safe (ps : list proc) ms mk k :
  length ms = length ps → (∀ i m p, ms !! i = Some m → ps !! i = Some p → safe m p) →
  (∀ b fs, safe mk (k b fs)) →
  safe (sum_list ms + mk) (PPar maxConc false (TWait <$> ps) k).
Proof.
  intros Hlen Hps Hk. eapply safe_par; [done| | |exact Hk|done].
  - by rewrite length_fmap.
  - intros i m t q Hm Ht Hq. rewrite list_lookup_fmap in Ht.
    destruct (ps !! i) as [p|] eqn:Ep; [|done]. injection Ht as <-.
    destruct Hq; simplify_eq. by eapply Hps.
Qed.

Definition fork_counts (path loop : list nat) := fix go (bs : list (string * list node)) (i : nat)
    : list nat :=
  match bs with
  | [] => []
  | (_, ns) :: bs => lcount ncount (extend path i) loop ns 0 :: go bs (S i)
  end.
Definition fork_procs (path loop : list nat) (sc : scope) :=
  fix go (bs : list (string * list node)) (i : nat) : list proc :=
  match bs with
  | [] => []
  | (_, ns) :: bs => execAll_ exec ns sc (extend path i) loop PRet :: go bs (S i)
  end.

Lemma fork_branches_safe bs path loop sc i :
  Forall (λ b, Forall node_safe b.2) bs →
  length (fork_counts path loop bs i) = length (fork_procs path loop sc bs i) ∧
  ∀ j m p, fork_counts path loop bs i !! j = Some m →
    fork_procs path loop sc bs i !! j = Some p → safe m p.
Proof.
  intros Hbs. revert i. induction Hbs as [|[b ns] bs Hb _ IH]; intros i; simpl; [done|].
  destruct (IH (S i)) as [IH1 IH2]. split; [by rewrite IH1|].
  intros [|j] m p Hm Hp; simplify_eq/=; [|by eapply IH2].
  rewrite <-(Nat.add_0_r (lcount _ _ _ _ _)). apply execAll_safe; [done|constructor].
Qed.

Lemma fork_counts_sum path loop bs i :
  sum_list (fork_counts path loop bs i) =
  (fix go (bs : list (string * list node)) (i : nat) : nat :=
      match bs with
      | [] => 0
      | (_, ns) :: bs => lcount ncount (extend path i) loop ns 0 + go bs (S i)
      end) bs i.
Proof. revert i. induction bs as [|[b ns] bs IH]; intros i; simpl; [done|]. by rewrite IH. Qed.

Definition graph_counts (rank path loop : list nat) :=
  fix go (gs : list (string * list string * node)) (i : nat) : list nat :=
  match gs with
  | [] => []
  | (_, n) :: gs => ncount n (extend path (default 0 (rank !! i))) loop :: go gs (S i)
  end.
Definition graph_runs (rank path loop : list nat) :=
  fix go (gs : list (string * list string * node)) (i : nat) : list (scope → proc) :=
  match gs with
  | [] => []
  | (_, n) :: gs =>
      (λ local, exec n local (extend path (default 0 (rank !! i))) loop PRet) :: go gs (S i)
  end.

Lemma graph_nodes_safe rank path loop gs i :
  Forall (λ g, node_safe g.2) gs →
  length (graph_counts rank path loop gs i) = length gs ∧
  ∀ j m sc, graph_counts rank path loop gs i !! j = Some m →
    safe m match graph_runs rank path loop gs i !! j with
           | Some r => r sc | None => PRet (FErr EUnknownNode) end.
Proof.
  intros Hgs. revert i. induction Hgs as [|[g n] gs Hn _ IH]; intros i; simpl; [done|].
  destruct (IH (S i)) as [IH1 IH2]. split; [by rewrite IH1|].
  intros [|j] m sc Hm; simplify_eq/=; [|by eapply IH2].
  rewrite <-(Nat.add_0_r (ncount _ _ _)). apply Hn. constructor.
Qed.

Lemma graph_counts_sum rank path loop gs i :
  sum_list (graph_counts rank path loop gs i) =
  (fix go (gs : list (string * list string * node)) (i : nat) : nat :=
      match gs with
      | [] => 0
      | (_, n) :: gs => ncount n (extend path (default 0 (rank !! i))) loop + go gs (S i)
      end) gs i.
Proof. revert i. induction gs as [|[g n] gs IH]; intros i; simpl; [done|]. by rewrite IH. Qed.

Lemma graph_safe gs start sc k m ms :
  length ms = length gs → (∀ i mi sc, ms !! i = Some mi → safe mi (start i sc)) →
  (∀ f, safe m (k f)) → safe (sum_list ms + m) (execGraph maxConc gs start sc k).
Proof.
  intros Hlen Hst Hk. unfold execGraph. case_decide as Hnil.
  { eapply safe_weaken; [|apply Hk]. lia. }
  eapply safe_graph; [done|..|done|].
  - rewrite trySchedule_length; rewrite length_replicate; lia.
  - rewrite trySchedule_length; by rewrite length_replicate.
  - intros i mi t sc' Hmi _ _. by apply Hst.
  - intros i mi q Hmi Hq. apply trySchedule_lookup in Hq as (t0 & Hi & Ht0).
    apply lookup_replicate in Hi as [-> _]. by destruct Ht0 as [?|[_ ?]].
  - intros [sc'|e]; apply Hk.
  - intros Hx. right. by eapply graph_exit_running.
Qed.

Lemma execLoop_safe body var coll par sc path loop k m f :
  (∀ sc i k' m', (∀ f, safe m' (k' f)) → safe (f i + m') (body sc (extend loop i) k')) →
  (∀ f, safe m (k f)) →
  safe (sum_upto f (Z.to_nat maxIters) + m)
    (execLoop maxIters maxConc body var coll par sc path loop k).
Proof.
  intros Hb Hk. unfold execLoop. change (sum_upto f) with (sum_from f 0).
  destruct (evalCollection sc coll) as [items|e]; [|eapply safe_weaken; [|apply Hk]; lia].
  destruct (maxIters <? _)%Z eqn:El; [eapply safe_weaken; [|apply Hk]; lia|]. bool_inv.
  eapply record_control_safe; [|exact Hk|]; [lia|].
  pose proof (sum_from_le f 0 (length items) (Z.to_nat maxIters) ltac:(lia)) as Hle.
  eapply (safe_weaken _ (sum_from f 0 (length items) + m)); [lia|].
  destruct par; [|by apply loop_seq_safe].
  unfold execLoopParallel, sum_from.
  assert (imap (λ i item, TWait (body (<[var:=item]> sc) (extend loop i) PRet)) items =
    TWait <$> imap (λ i item, body (<[var:=item]> sc) (extend loop i) PRet) items) as ->.
  { by rewrite fmap_imap. }
  rewrite (sum_list_with_fmap f). apply par_safe.
  - by rewrite length_fmap, length_seq, length_imap.
  - intros i mi p Hmi Hp. rewrite list_lookup_imap in Hp.
    rewrite list_lookup_fmap in Hmi.
    destruct (seq 0 (length items) !! i) as [j|] eqn:Ej; [|done].
    apply lookup_seq in Ej as [-> _]. simplify_eq/=.
    destruct (items !! i); simplify_eq/=. rewrite <-(Nat.add_0_r (f _)).
    apply Hb. constructor.
  - intros b fs. case_match; apply Hk.
Qed.

(** [exec] makes no more selected calls than the static count, and what it
    leads to never gets stuck. *)
Lemma exec_safe n : node_safe n.
Proof.
  induction n as [b u a|b u a w|b u a w p|b v|c t e IHt IHe|bs IH|x c b p IH|c i b IH|c i b IH
    |v|gs IH|b d r a|] using node_nested_ind; intros sc path loop k m Hk.
  - by apply invoke_safe.
  - by apply invoke_safe.
  - apply invoke_safe; [done|]. intros [sc'|sc' v|e]; [|apply Hk..].
    case_match; [|apply Hk]. case_match; apply Hk.
  - simpl. case_match; apply Hk.
  - cbn [ncount exec]. unfold execBranch.
    destruct (evalExpr sc c) as [[]|]; [..|eapply safe_weaken; [|apply Hk]; lia];
      (eapply record_control_safe; [|exact Hk|]; [lia|]);
      (eapply safe_weaken; [|apply execAll_safe; [done|exact Hk]]); lia.
  - cbn [ncount exec]. unfold execFork. rewrite <-fork_counts_sum.
    destruct (fork_branches_safe bs path loop sc 0 IH) as [H1 H2].
    apply par_safe; [done|done|]. intros b fs. case_match; apply Hk.
  - cbn [ncount exec]. apply execLoop_safe; [|done].
    intros sc' i k' m' Hk'. by apply execAll_safe.
  - cbn [ncount exec]. change sum_upto with (λ f, sum_from f 0). apply while_safe; [|done].
    intros sc' j k' m' Hk'. by apply execAll_safe.
  - cbn [ncount exec]. change sum_upto with (λ f, sum_from f 0). apply retry_safe; [|done].
    intros sc' j k' m' Hk'. by apply execAll_safe.
  - simpl. case_match; apply Hk.
  - cbn [ncount exec]. set (rank := canonicalRanks (gn_id <$> gs)).
    rewrite <-graph_counts_sum.
    destruct (graph_nodes_safe rank path loop gs 0 IH) as [H1 H2].
    apply graph_safe; [by rewrite length_fmap| |done].
    intros i mi sc' Hmi. by apply H2.
  - by apply invoke_safe.
  - apply Hk.
Qed.

Lemma execAll_nodes_safe ns path loop sc k m :
  (∀ f, safe m (k f)) →
  safe (lcount ncount path loop ns 0 + m) (execAll maxIters maxConc ns sc path loop k).
Proof.
  intros Hk. apply execAll_safe; [|done]. apply Forall_forall. intros n _. apply exec_safe.
Qed.
End static.
