(* ===== verification/ExecRun.v ===== *)
(** * Runs of the interpreter

    What [RunResumable] guarantees under every scheduler and every Invoker: it
    terminates, it invokes each call site at most once, and it never invokes a
    call site whose result the seed already holds. *)

From S2P Require Import Prelude Value JsonNum ExecIR ExecEval ExecInterp ExecSteps ExecCount.

(** ** Ranks *)

Lemma elem_of_rank_order ids i :
  i < length ids → ∃ id, (id, i) ∈ rank_order ids.
Proof.
  intros Hi. destruct (lookup_lt_is_Some_2 ids i Hi) as [id Hid]. exists id.
  unfold rank_order. rewrite merge_sort_Permutation. apply list_elem_of_lookup. exists i.
  rewrite lookup_zip_with, Hid. simpl. by rewrite lookup_seq_lt.
Qed.

Lemma canonicalRanks_spec ids i r :
  canonicalRanks ids !! i = Some r → i < length ids ∧ ∃ id, rank_order ids !! r = Some (id, i).
Proof.
  unfold canonicalRanks. rewrite list_lookup_fmap. intros Hr.
  destruct (seq 0 (length ids) !! i) as [j|] eqn:Ej; [|done].
  apply lookup_seq in Ej as [-> Hi]. simpl in *. injection Hr as <-. split; [done|].
  destruct (elem_of_rank_order ids i Hi) as [id Hin].
  destruct (list_find (λ p, p.2 = i) (rank_order ids)) as [[pos [id' j]]|] eqn:Ef.
  - apply list_find_Some in Ef as (Hpos & Hj & _). simpl in Hj. subst. by exists id'.
  - apply list_find_None in Ef. rewrite Forall_forall in Ef. by destruct (Ef _ Hin).
Qed.

(** The ranks that address the nodes of a Graph are pairwise distinct, whatever
    their ids. *)
Lemma canonicalRanks_NoDup ids : NoDup (canonicalRanks ids).
Proof.
  apply NoDup_alt. intros i j r Hi Hj.
  apply canonicalRanks_spec in Hi as (_ & id & Hi).
  apply canonicalRanks_spec in Hj as (_ & id' & Hj). congruence.
Qed.

#[export] Instance rank_le_total : Total rank_le.
Proof.
  intros [a i] [b j]. unfold rank_le. simpl.
  destruct (decide (a = b)) as [->|Hne]; [destruct (total (≤) i j); auto|].
  destruct (total String.le a b); auto.
Qed.
#[export] Instance rank_le_trans : Transitive rank_le.
Proof.
  intros [a i] [b j] [c k]. unfold rank_le. simpl.
  intros [[H1 N1]|[-> H1]] [[H2 N2]|[-> H2]]; [|by left..|right; split; [done|lia]].
  left. split; [by etrans|]. intros ->. apply N1. by apply (anti_symm String.le).
Qed.

(** ** Addresses below a node *)

Definition under (path loop : list nat) (a : addr) : bool :=
  bool_decide (path `prefix_of` a.1 ∧ loop `prefix_of` a.2).

Lemma extend_prefix path i (l : list nat) : extend path i `prefix_of` l → path `prefix_of` l.
Proof. intros H. etrans; [|done]. by apply prefix_app_r. Qed.

Lemma extend_prefix_inj path i j (l : list nat) :
  extend path i `prefix_of` l → extend path j `prefix_of` l → i = j.
Proof.
  intros [k1 ->] [k2 Heq]. unfold extend in Heq. rewrite <-!(assoc_L (++)) in Heq.
  apply app_inv_head in Heq. simplify_eq/=. done.
Qed.

(** A sum of terms of which at most one is 1. *)
Lemma sum_exclusive {A} (l : list A) (f : A → nat) (U : A → bool) (V : bool) :
  (∀ x, x ∈ l → f x ≤ b2n (U x)) → (∀ x, x ∈ l → U x = true → V = true) →
  (∀ i j x y, l !! i = Some x → l !! j = Some y → U x = true → U y = true → i = j) →
  sum_list_with f l ≤ b2n V.
Proof.
  induction l as [|x l IH]; intros Hf HV Hex; simpl; [lia|].
  pose proof (Hf x ltac:(left)) as Hx. destruct (U x) eqn:Ux.
  - assert (sum_list_with f l = 0) as ->.
    { assert (∀ y, y ∈ l → f y = 0) as H0.
      { intros y Hy. pose proof (Hf y ltac:(by right)) as Hfy.
        destruct (U y) eqn:Uy; [|simpl in Hfy; lia].
        apply list_elem_of_lookup in Hy as [j Hj]. by specialize (Hex 0 (S j) x y eq_refl Hj Ux Uy). }
      clear -H0. induction l as [|y l IH]; simpl; [done|].
      rewrite (H0 y) by left. rewrite IH; [done|]. intros z Hz. apply H0. by right. }
    rewrite (HV x ltac:(left) Ux). simpl in *. lia.
  - simpl in Hx. assert (f x = 0) as -> by lia. simpl. apply IH.
    + intros y Hy. apply Hf. by right.
    + intros y Hy. apply HV. by right.
    + intros i j y z Hi Hj Uy Uz. by injection (Hex (S i) (S j) y z Hi Hj Uy Uz).
Qed.

Section address.
Variable maxIters : Z.
Variable a : addr.
Definition at_addr (s : CallSite) (_ : string * string) : bool :=
  bool_decide (site_addr s = a).
Abbreviation ncount := (ncount maxIters at_addr).

Definition local (n : node) : Prop := ∀ path loop, ncount n path loop ≤ b2n (under path loop a).

Lemma site_local b path loop wd kd :
  b2n (at_addr (mkCallSite b path loop wd) kd) ≤ b2n (under path loop a).
Proof.
  unfold at_addr, under, site_addr. simpl. case_bool_decide as Ha; simpl; [|lia].
  rewrite bool_decide_true; [done|]. by rewrite <-Ha.
Qed.

Lemma lcount_sum f path loop ns i :
  lcount f path loop ns i =
  sum_list_with (λ p, f p.2 (extend path p.1) loop) (zip (seq i (length ns)) ns).
Proof. revert i. induction ns as [|n ns IH]; intros i; simpl; [done|]. by rewrite IH. Qed.

Lemma zip_seq_lookup {A} (l : list A) i j p :
  zip (seq i (length l)) l !! j = Some p → p.1 = i + j ∧ l !! j = Some p.2.
Proof.
  intros Hj. apply lookup_zip_with_Some in Hj as (x & y & -> & Hx & Hy).
  by apply lookup_seq in Hx as [-> _].
Qed.

Lemma lcount_local ns path loop :
  Forall local ns → lcount ncount path loop ns 0 ≤ b2n (under path loop a).
Proof.
  intros Hns. rewrite lcount_sum.
  apply (sum_exclusive _ _ (λ p, under (extend path p.1) loop a)).
  - intros [i n] Hin. apply list_elem_of_lookup in Hin as [j Hj].
    apply zip_seq_lookup in Hj as [_ Hj]. simpl in *. rewrite Forall_forall in Hns.
    apply Hns. by eapply list_elem_of_lookup_2.
  - intros [i n] _. unfold under. rewrite !bool_decide_eq_true. simpl.
    intros [Hp ?]. split; [by eapply extend_prefix|done].
  - intros i j x y Hi Hj. apply zip_seq_lookup in Hi as [Hx _].
    apply zip_seq_lookup in Hj as [Hy _]. unfold under. rewrite !bool_decide_eq_true.
    intros [H1 _] [H2 _]. assert (x.1 = y.1) by (by eapply extend_prefix_inj). lia.
Qed.

Lemma loop_local body path loop n :
  Forall local body →
  sum_upto (λ i, lcount ncount path (extend loop i) body 0) n ≤ b2n (under path loop a).
Proof.
  intros Hb. apply (sum_exclusive _ _ (λ i, under path (extend loop i) a)).
  - intros i _. by apply lcount_local.
  - intros i _. unfold under. rewrite !bool_decide_eq_true.
    intros [? Hl]. split; [done|by eapply extend_prefix].
  - intros i j x y Hi Hj. apply lookup_seq in Hi as [-> _]. apply lookup_seq in Hj as [-> _].
    unfold under. rewrite !bool_decide_eq_true. intros [_ H1] [_ H2].
    simpl in *. by eapply extend_prefix_inj.
Qed.

Lemma fork_counts_zip path loop bs i :
  sum_list (fork_counts maxIters at_addr path loop bs i) =
  sum_list_with (λ p, lcount ncount (extend path p.1) loop p.2.2 0) (zip (seq i (length bs)) bs).
Proof.
  revert i. induction bs as [|[b ns] bs IH]; intros i; simpl; [done|]. by rewrite IH.
Qed.

Lemma graph_counts_zip rank path loop gs i :
  sum_list (graph_counts maxIters at_addr rank path loop gs i) =
  sum_list_with (λ p, ncount p.2.2 (extend path (default 0 (rank !! p.1))) loop)
    (zip (seq i (length gs)) gs).
Proof.
  revert i. induction gs as [|[g n] gs IH]; intros i; simpl; [done|]. by rewrite IH.
Qed.

Lemma canonicalRanks_lookup ids i : i < length ids → is_Some (canonicalRanks ids !! i).
Proof. intros Hi. apply lookup_lt_is_Some. unfold canonicalRanks. by rewrite length_fmap, length_seq. Qed.

(** Each address is the site of at most one call, below its own path. *)
Lemma node_local n : local n.
Proof.
  induction n as [b u x|b u x w|b u x w p|b v|c t e IHt IHe|bs IH|x c b p IH|c i b IH|c i b IH
    |v|gs IH|b d r x|] using node_nested_ind; intros path loop; try (simpl; lia);
    try apply site_local.
  - cbn [ExecCount.ncount].
    pose proof (lcount_local t (extend path 0) loop IHt) as Ht.
    pose proof (lcount_local e (extend path 1) loop IHe) as He.
    assert (∀ i, b2n (under (extend path i) loop a) ≤ b2n (under path loop a)) as Hle.
    { intros i. unfold under. case_bool_decide as Hu; simpl; [|lia].
      rewrite bool_decide_true; [done|]. destruct Hu as [Hp ?].
      split; [by eapply extend_prefix|done]. }
    pose proof (Hle 0). pose proof (Hle 1). lia.
  - cbn [ExecCount.ncount]. rewrite <-fork_counts_sum, fork_counts_zip.
    apply (sum_exclusive _ _ (λ p, under (extend path p.1) loop a)).
    + intros [i [b ns]] Hin. apply list_elem_of_lookup in Hin as [j Hj].
      apply zip_seq_lookup in Hj as [_ Hj]. simpl in *. rewrite Forall_forall in IH.
      apply lcount_local. apply (IH (b, ns)). by eapply list_elem_of_lookup_2.
    + intros [i n] _. unfold under. rewrite !bool_decide_eq_true. simpl.
      intros [Hp ?]. split; [by eapply extend_prefix|done].
    + intros i j y z Hi Hj. apply zip_seq_lookup in Hi as [Hy _].
      apply zip_seq_lookup in Hj as [Hz _]. unfold under. rewrite !bool_decide_eq_true.
      intros [H1 _] [H2 _]. assert (y.1 = z.1) by (by eapply extend_prefix_inj). lia.
  - by apply loop_local.
  - by apply loop_local.
  - by apply loop_local.
  - cbn [ExecCount.ncount]. set (rank := canonicalRanks (gn_id <$> gs)).
    rewrite <-graph_counts_sum, graph_counts_zip.
    apply (sum_exclusive _ _ (λ p, under (extend path (default 0 (rank !! p.1))) loop a)).
    + intros [i [g n]] Hin. apply list_elem_of_lookup in Hin as [j Hj].
      apply zip_seq_lookup in Hj as [_ Hj]. simpl in *. rewrite Forall_forall in IH.
      apply (IH (g, n)). by eapply list_elem_of_lookup_2.
    + intros [i n] _. unfold under. rewrite !bool_decide_eq_true. simpl.
      intros [Hp ?]. split; [by eapply extend_prefix|done].
    + intros i j y z Hi Hj.
      apply zip_seq_lookup in Hi as [Hy Li]. apply zip_seq_lookup in Hj as [Hz Lj].
      unfold under. rewrite !bool_decide_eq_true. intros [H1 _] [H2 _].
      pose proof (extend_prefix_inj _ _ _ _ H1 H2) as Heq. rewrite Hy, Hz in Heq. simpl in Heq.
      apply lookup_lt_Some in Li, Lj.
      destruct (canonicalRanks_lookup (gn_id <$> gs) i) as [ri Hri]; [by rewrite length_fmap|].
      destruct (canonicalRanks_lookup (gn_id <$> gs) j) as [rj Hrj]; [by rewrite length_fmap|].
      subst rank. rewrite Hri, Hrj in Heq. simpl in Heq. subst.
      by eapply (NoDup_lookup _ _ _ _ (canonicalRanks_NoDup _)).
Qed.
End address.

(** ** What a step does to the session *)

(** The result a call leaves in the memo. *)
Definition ev_memo (e : event) : option value :=
  match ev_result e with
  | Ok v => match Canonical v with Ok c => Some c | Err _ => None end
  | Err _ => None
  end.

Definition ev_suspends (e : event) : bool :=
  match ev_result e with Err e => isSuspend e | Ok _ => false end.

(** The first suspended call of a trace. *)
Fixpoint first_suspend (evs : list event) : option string :=
  match evs with
  | [] => None
  | e :: evs => if ev_suspends e then Some (ev_key e) else first_suspend evs
  end.

(** [s'] is [s] after the calls [evs]. *)
Record extends (s s' : session) (evs : list event) : Prop := {
  ext_new : ∀ e, e ∈ evs → memo s !! ev_key e = None;
  ext_memo : memo s ⊆ memo s';
  ext_put : ∀ e c, e ∈ evs → ev_memo e = Some c → memo s' !! ev_key e = Some c;
  ext_only : ∀ k c, memo s' !! k = Some c →
    memo s !! k = Some c ∨ ∃ e, e ∈ evs ∧ ev_key e = k ∧ ev_memo e = Some c;
  ext_control : control s ⊆ control s';
  ext_suspended : suspended s' = suspended s || is_Some_b (first_suspend evs);
  ext_suspendKey : suspendKey s' =
    if suspended s then suspendKey s else default (suspendKey s) (first_suspend evs);
}.

Lemma extends_refl s : extends s s [].
Proof.
  split; try done; try (intros e He; by apply elem_of_nil in He).
  - intros e c He. by apply elem_of_nil in He.
  - auto.
  - simpl. by rewrite orb_false_r.
  - simpl. by destruct (suspended s).
Qed.

Lemma first_suspend_app l l' :
  first_suspend (l ++ l') = match first_suspend l with Some k => Some k | None => first_suspend l' end.
Proof. induction l as [|e l IH]; simpl; [done|]. by destruct (ev_suspends e). Qed.

Lemma first_suspend_existsb l : is_Some_b (first_suspend l) = existsb ev_suspends l.
Proof. induction l as [|e l IH]; simpl; [done|]. by destruct (ev_suspends e). Qed.

Lemma extends_trans s1 s2 s3 l l' :
  extends s1 s2 l → extends s2 s3 l' → extends s1 s3 (l ++ l').
Proof.
  intros [N1 M1 P1 O1 C1 S1 K1] [N2 M2 P2 O2 C2 S2 K2]. split.
  - intros e [He|He]%elem_of_app; [by apply N1|]. apply N2 in He.
    by eapply lookup_weaken_None.
  - by etrans.
  - intros e c [He|He]%elem_of_app Hc; [|by apply P2].
    eapply lookup_weaken; [by apply P1|done].
  - intros k c Hk. destruct (O2 k c Hk) as [Hk2|(e & He & ? & ?)].
    + destruct (O1 k c Hk2) as [?|(e & He & ? & ?)]; [by left|right].
      exists e. rewrite elem_of_app. auto.
    + right. exists e. rewrite elem_of_app. auto.
  - by etrans.
  - rewrite S2, S1, first_suspend_app, <-orb_assoc. by destruct (first_suspend l).
  - rewrite K2, S1, K1, first_suspend_app.
    destruct (suspended s1); [done|]. simpl. by destruct (first_suspend l).
Qed.

Section runs.
Context `{Invoker W}.

Lemma do_invoke_extends cn site mk (st st' : state W) r :
  do_invoke cn site mk st = (st', r) →
  ∃ evs, calls st' = calls st ++ evs ∧ extends (sess st) (sess st') evs.
Proof.
  unfold do_invoke, getMemo. destruct (memo (sess st) !! CallKey site) as [v|] eqn:Em.
  { intros [= <- <-]. exists []. rewrite app_nil_r. split; [done|apply extends_refl]. }
  destruct mk as [c|e].
  2: { intros [= <- <-]. exists []. rewrite app_nil_r. split; [done|apply extends_refl]. }
  destruct (dispatch _ _ _ _) as [w rr]. intros Hd. exists [mkEvent site c rr].
  destruct rr as [v|e]; [destruct (Canonical v) as [cv|je] eqn:Ec|destruct (isSuspend e) eqn:Es];
    simplify_eq/=; (split; [done|]).
  - split; simpl; try done.
    + by intros e ->%list_elem_of_singleton.
    + apply insert_subseteq. done.
    + intros e c0 ->%list_elem_of_singleton. unfold ev_memo. simpl. rewrite Ec.
      intros [= ->]. unfold ev_key. simpl. by rewrite lookup_insert_eq.
    + intros k c0. destruct (decide (k = CallKey site)) as [->|Hne].
      * rewrite lookup_insert_eq. intros [= ->]. right. eexists.
        split; [by apply list_elem_of_singleton|]. split; [done|]. unfold ev_memo. simpl.
        by rewrite Ec.
      * rewrite lookup_insert_ne by done. auto.
    + by rewrite orb_false_r.
    + by destruct (suspended _).
  - split; simpl; try done.
    + by intros e ->%list_elem_of_singleton.
    + intros e c0 ->%list_elem_of_singleton. unfold ev_memo. simpl. by rewrite Ec.
    + auto.
    + by rewrite orb_false_r.
    + by destruct (suspended _).
  - unfold markSuspended. split; simpl.
    + by intros e' ->%list_elem_of_singleton.
    + by destruct (suspended (sess st)).
    + intros e' c0 ->%list_elem_of_singleton. done.
    + intros k c0. destruct (suspended (sess st)); auto.
    + by destruct (suspended (sess st)).
    + unfold ev_suspends. simpl. rewrite Es. by destruct (suspended (sess st)) eqn:E.
    + unfold ev_suspends. simpl. rewrite Es. by destruct (suspended (sess st)) eqn:E.
  - unfold ev_suspends. split; simpl; try done.
    + by intros e' ->%list_elem_of_singleton.
    + intros e' c0 ->%list_elem_of_singleton. done.
    + auto.
    + unfold ev_suspends. simpl. by rewrite Es, orb_false_r.
    + unfold ev_suspends. simpl. rewrite Es. by destruct (suspended (sess st)).
Qed.

Lemma do_control_extends key val (st st' : state W) r :
  do_control key val st = (st', r) → calls st' = calls st ∧ extends (sess st) (sess st') [].
Proof.
  unfold do_control, checkControl.
  pose proof (extends_refl (sess st)) as Hr.
  assert (∀ m', control (sess st) ⊆ m' →
    extends (sess st) (mkSession (memo (sess st)) m' (suspended (sess st))
      (suspendKey (sess st))) []) as Hx by (intros m' Hm; destruct Hr; split; done).
  destruct (control (sess st) !! key) as [prev|] eqn:Ek; [case_decide|];
    intros [= <- <-]; (split; [done|]); [|done|]; apply Hx.
  - rewrite insert_id; [done|]. by subst.
  - by apply insert_subseteq.
Qed.

Lemma pstep_extends cn st p st' p' :
  pstep cn st p st' p' →
  ∃ evs, calls st' = calls st ++ evs ∧ extends (sess st) (sess st') evs.
Proof.
  assert (∀ st : state W, ∃ evs, calls st = calls st ++ evs ∧
    extends (sess st) (sess st) evs) as Hsame.
  { intros st0. exists []. rewrite app_nil_r. split; [done|apply extends_refl]. }
  induction 1; auto.
  - by eapply do_invoke_extends.
  - destruct (do_control_extends _ _ _ _ _ H0) as [E ?]. exists []. by rewrite app_nil_r.
Qed.

Lemma psteps_extends st p st' p' :
  psteps st p st' p' →
  ∃ evs, calls st' = calls st ++ evs ∧ extends (sess st) (sess st') evs.
Proof.
  induction 1 as [st p|st p st1 p1 st2 p2 Hs _ (evs2 & E2 & X2)].
  { exists []. rewrite app_nil_r. split; [done|apply extends_refl]. }
  destruct (pstep_extends _ _ _ _ _ Hs) as (evs1 & E1 & X1).
  exists (evs1 ++ evs2). split; [by rewrite E2, E1, app_assoc|by eapply extends_trans].
Qed.
End runs.

(** ** The run as a whole *)

Lemma maxConc_pos c : 0 < maxConc c.
Proof. unfold maxConc, DefaultMaxConcurrency. case_match; bool_inv; lia. Qed.

Lemma seed_session_spec seed s :
  seed_session seed = Ok s →
  suspended s = false ∧ suspendKey s = "" ∧
  ∀ k, is_Some (memo s !! k) ↔ match seed with None => False | Some rs => is_Some (rs_memo rs !! k) end.
Proof.
  destruct seed as [rs|]; simpl; intros Hs.
  2: { injection Hs as <-. split_and!; [done..|]. intros k. simpl. rewrite lookup_empty.
       split; [by intros []|done]. }
  res_inv. subst s. simpl. split_and!; [done..|]. intros k.
  apply res_traverse_Forall2 in Ha.
  assert (a.*1 = (map_to_list (rs_memo rs)).*1) as Hfst.
  { induction Ha as [|[k1 v1] y l l' Hy _ IH]; [done|]. simpl in *.
    destruct (Canonical v1); simplify_eq/=. by f_equal. }
  rewrite <-!elem_of_dom, dom_list_to_map_L, Hfst.
  rewrite elem_of_list_to_set, list_elem_of_fmap, elem_of_dom. split.
  - intros ([k1 v1] & -> & Hin). apply elem_of_map_to_list in Hin. by exists v1.
  - intros [v Hv]. exists (k, v). split; [done|]. by apply elem_of_map_to_list.
Qed.

Section theorems.
Context `{Invoker W}.

(** The shape of every finished run. *)
Lemma RunResumable_inv c prog input seed pick fuel w w' evs r :
  RunResumable c prog input seed pick fuel w = Some (w', evs, r) →
  (∃ e, start_run c prog input seed = Err e ∧ evs = [] ∧ r = Err e) ∨
  ∃ s p st f, start_run c prog input seed = Ok (s, p) ∧
    psteps (mkState w s []) p st (PRet f) ∧ calls st = evs ∧
    r = finish_run (sess st) f ∧ world st = w'.
Proof.
  unfold RunResumable. destruct (start_run c prog input seed) as [[s p]|e].
  - destruct (run pick 0 fuel (mkState w s []) p) as [st p'] eqn:Er.
    apply run_psteps in Er. destruct p' as [f| | | |]; try done. intros [= <- <- <-].
    right. by exists s, p, st, f.
  - intros [= <- <- <-]. left. by exists e.
Qed.

Lemma start_run_safe psi c prog input seed s p :
  start_run c prog input seed = Ok (s, p) →
  safe psi (lcount (ncount (maxIters c) psi) [] [] (Body prog) 0 + 0) p.
Proof.
  unfold start_run. intros Hs. res_inv. destruct (Canonical input); [|done]. simplify_eq.
  apply execAll_nodes_safe; [apply maxConc_pos|constructor].
Qed.

(** The interpreter ends under every scheduler. *)
Lemma RunResumable_ends c prog input seed pick (w : W) :
  ∃ fuel, is_Some (RunResumable c prog input seed pick fuel w).
Proof.
  unfold RunResumable. destruct (start_run c prog input seed) as [[s p]|e] eqn:Es.
  - destruct (run_stops pick 0 (mkState w s []) p) as (fuel & st & p' & Hr & Hen).
    exists fuel. rewrite Hr. pose proof (start_run_safe (λ _ _, false) _ _ _ _ _ _ Es) as Hsafe.
    destruct (psteps_safe _ _ _ _ _ _ (run_psteps _ _ _ _ _ _ _ Hr) Hsafe)
      as (evs & n' & _ & Hsafe' & _).
    destruct (safe_enabled _ _ _ Hsafe') as [[f ->]|Hne]; [by eexists|done].
  - exists 0. by eexists.
Qed.

(** C14: Termination: whatever the program, its input, the seed of a resume, the
    Invoker's answers and the order in which the scheduler interleaves the
    goroutines, the interpreter ends and returns; no run deadlocks (at a
    semaphore, a join or a Graph's completion channel) and none is infinite. *)
Theorem RunResumable_terminates c prog input seed pick (w : W) :
  ∃ fuel, is_Some (RunResumable c prog input seed pick fuel w).
Proof. apply RunResumable_ends. Qed.

Lemma selected_once evs :
  (∀ a, selected (at_addr a) evs ≤ 1) → NoDup (ev_key <$> evs).
Proof.
  induction evs as [|e evs IH]; intros Hsel; simpl; [constructor|].
  constructor.
  - intros (e' & Hk & He')%list_elem_of_fmap.
    specialize (Hsel (site_addr (ev_site e))). unfold selected, countb in Hsel. simpl in Hsel.
    unfold at_addr at 1 in Hsel. rewrite bool_decide_true in Hsel by done. simpl in Hsel.
    apply CallKey_addr in Hk. apply list_elem_of_In in He'.
    assert (In e' (List.filter (λ e0, at_addr (site_addr (ev_site e)) (ev_site e0)
      (callee (ev_call e0))) evs)) as Hin.
    { apply filter_In. split; [done|]. by apply bool_decide_true. }
    destruct (List.filter _ evs); simpl in *; [done|lia].
  - apply IH. intros a. specialize (Hsel a). unfold selected, countb in *. simpl in Hsel.
    case_match; simpl in Hsel; lia.
Qed.

(** C2: At most once: in one run, under every interleaving, no call site is
    invoked twice: the call keys of the calls made are pairwise distinct. *)
Theorem RunResumable_once c prog input seed pick fuel (w : W) w' evs r :
  RunResumable c prog input seed pick fuel w = Some (w', evs, r) →
  NoDup (ev_key <$> evs).
Proof.
  intros [(e & _ & -> & _)|(s & p & st & f & Hs & Hps & <- & _)]%RunResumable_inv;
    [constructor|].
  apply selected_once. intros a.
  destruct (psteps_safe _ _ _ _ _ _ Hps (start_run_safe (at_addr a) _ _ _ _ _ _ Hs))
    as (evs & n' & Hc & _ & Hle). simpl in Hc. rewrite Hc.
  pose proof (lcount_local (maxIters c) a (Body prog) [] []) as Hloc.
  specialize (Hloc ltac:(apply Forall_forall; intros; apply node_local)).
  destruct (under [] [] a); simpl in Hloc; lia.
Qed.

(** A resumed run calls only sites without a result in the seed. *)
Lemma resumed_calls_new c prog input rs pick fuel (w : W) w' evs r :
  RunResumable c prog input (Some rs) pick fuel w = Some (w', evs, r) →
  ∀ e, e ∈ evs → rs_memo rs !! ev_key e = None.
Proof.
  intros [(e0 & _ & -> & _)|(s & p & st & f & Hs & Hps & <- & Hf & _)]%RunResumable_inv e He;
    [by apply elem_of_nil in He|].
  unfold start_run in Hs. res_inv. destruct (Canonical input); [|done]. simplify_eq.
  apply seed_session_spec in Ha as (_ & _ & Hdom).
  destruct (psteps_extends _ _ _ _ Hps) as (evs & Hc & Hx). simpl in Hc, Hx. rewrite Hc in He.
  apply (ext_new _ _ _ Hx) in He. destruct (rs_memo rs !! ev_key e) eqn:E; [|done].
  destruct (Hdom (ev_key e)) as [_ Hd]. destruct Hd as [v0 Hv0]; [by eexists|]. congruence.
Qed.

(** C3: No reissue: a call site whose result the seed's memo holds is never
    invoked by the resumed run, under any interleaving; and every result of a
    completed call is in the memo the run returns. *)
Theorem RunResumable_no_reissue c prog input rs pick fuel (w : W) w' evs out rs' :
  RunResumable c prog input (Some rs) pick fuel w = Some (w', evs, Ok (out, rs')) →
  (∀ e, e ∈ evs → rs_memo rs !! ev_key e = None) ∧
  (∀ e v, e ∈ evs → ev_memo e = Some v → rs_memo rs' !! ev_key e = Some v).
Proof.
  intros Hr. split; [by eapply resumed_calls_new|]. revert Hr.
  intros [(e & _ & _ & ?)|(s & p & st & f & Hs & Hps & <- & Hf & _)]%RunResumable_inv; [done|].
  destruct (psteps_extends _ _ _ _ Hps) as (evs & Hc & Hx). simpl in Hc, Hx. subst evs.
  assert (rs_memo rs' = memo (sess st)) as ->.
  { unfold finish_run in Hf. repeat case_match; by simplify_eq. }
  intros e v. apply (ext_put _ _ _ Hx).
Qed.

(** A suspended run reports the pause: the run returns Suspended exactly when
    some call answered with the suspend signal, and SuspendKey is the key of
    the first call that did. *)
Theorem RunResumable_suspend c prog input seed pick fuel (w : W) w' evs out rs' :
  RunResumable c prog input seed pick fuel w = Some (w', evs, Ok (out, rs')) →
  rs_suspended rs' = existsb ev_suspends evs ∧
  rs_suspendKey rs' = default "" (first_suspend evs).
Proof.
  intros [(e & _ & _ & ?)|(s & p & st & f & Hs & Hps & <- & Hf & _)]%RunResumable_inv; [done|].
  unfold start_run in Hs. res_inv. destruct (Canonical input); [|done]. simplify_eq.
  apply seed_session_spec in Ha as (Hsu & Hkey & _).
  destruct (psteps_extends _ _ _ _ Hps) as (evs & Hc & Hx). simpl in Hc, Hx. subst evs.
  assert (rs_suspended rs' = suspended (sess st) ∧ rs_suspendKey rs' = suspendKey (sess st))
    as [-> ->] by (unfold finish_run in Hf; repeat case_match; by simplify_eq).
  rewrite (ext_suspended _ _ _ Hx), (ext_suspendKey _ _ _ Hx), Hsu, Hkey. simpl. split; [|done].
  apply first_suspend_existsb.
Qed.
End theorems.

(** ** A concrete Invoker

    Tools return the number of calls made so far, agents fail when their context
    is cancelled, an approval suspends. *)

#[export] Instance demo_invoker : Invoker nat := {|
  inv_tool n _ _ _ _ := (S n, Ok (VInt (Z.of_nat n)));
  inv_agent n cancelled _ agent _ :=
    (S n, if cancelled then Err ECanceled
          else if decide (agent = "broken") then Err (EInvoker "broken") else Ok (VStr agent));
  inv_workflow n _ _ wf _ := (S n, Ok (VMap [("value", VStr wf)]));
  inv_approval n _ _ _ _ := (S n, Err ESuspend);
|}.

Definition demo_interp : Interp := mkInterp 0 2.

(** Two parallel tool calls, a loop of three agent calls, then an approval. *)
Definition demo_program : program := {|
  Workflow := "demo"; Params := ["in"];
  Body := [
    Fork [("a", [InvokeTool "a" "gh.get" ∅]); ("b", [InvokeTool "b" "gh.list" ∅])];
    Loop "x" (Ref ["in"; "xs"]) [InvokeAgent "r" "reviewer" {[ "x" := Ref ["x"] ]} false] true;
    InvokeWorkflow "s" "sub" ∅ false true;
    Approval "ok" "deploy?" [] {[ "s" := Ref ["s"] ]};
    Return (Ref ["ok"])]
|}.
Definition demo_input : value := VMap [("xs", VList [VInt 1; VInt 2; VInt 3])].

Lemma RunResumable_once_witness :
  ∃ w' evs r, RunResumable demo_interp demo_program demo_input None (λ t, t * 7) 100 0
    = Some (w', evs, r) ∧ length evs = 7 ∧ NoDup (ev_key <$> evs).
Proof.
  eexists _, _, _. split; [vm_compute; reflexivity|]. split; [reflexivity|].
  eapply (RunResumable_once demo_interp demo_program demo_input None (λ t, t * 7) 100 0).
  vm_compute. reflexivity.
Defined.

Lemma RunResumable_suspend_witness :
  ∃ w' evs out rs, RunResumable demo_interp demo_program demo_input None (λ t, t) 100 0
    = Some (w', evs, Ok (out, rs)) ∧ rs_suspended rs = true ∧
    rs_suspendKey rs = "ok|[3]|[]" ∧ rs_suspended rs = existsb ev_suspends evs.
Proof.
  eexists _, _, _, _. split; [vm_compute; reflexivity|]. split; [reflexivity|].
  split; [reflexivity|].
  eapply (RunResumable_suspend demo_interp demo_program demo_input None (λ t, t) 100 0).
  vm_compute. reflexivity.
Defined.

(** The state of the suspended run seeds a resume, which makes one call. *)
Definition demo_seed : RunState :=
  match RunResumable demo_interp demo_program demo_input None (λ t, t) 100 0 with
  | Some (_, _, Ok (_, rs)) => rs
  | _ => mkRunState ∅ ∅ false ""
  end.

Lemma RunResumable_no_reissue_witness :
  ∃ w' evs out rs, RunResumable demo_interp demo_program demo_input (Some demo_seed)
    (λ t, t) 100 7 = Some (w', evs, Ok (out, rs)) ∧ ev_key <$> evs = ["ok|[3]|[]"] ∧
    (∀ e, e ∈ evs → rs_memo demo_seed !! ev_key e = None).
Proof.
  eexists _, _, _, _. split; [vm_compute; reflexivity|]. split; [reflexivity|].
  eapply (RunResumable_no_reissue demo_interp demo_program demo_input demo_seed (λ t, t) 100 7).
  vm_compute. reflexivity.
Defined.
