(* ===== verification/ExecTotal.v ===== *)
(** * The interpreter as a total function

    [RunResumable] takes an amount of fuel; every run ends ([ExecRun]), so there is an
    amount that suffices.  [RunToEnd] is the run with enough fuel: what the function
    of the source returns.  It tries [hint] first, which keeps it executable. *)

From Stdlib Require Import ConstructiveEpsilon.
From S2P Require Import Prelude Value JsonNum ExecIR ExecEval ExecInterp ExecSteps ExecRun.

Section total.
Context `{Invoker W} (c : Interp) (prog : program) (input : value) (seed : option RunState) (pick : nat → nat).

Definition enough_fuel (w : W) : { fuel | is_Some (RunResumable c prog input seed pick fuel w) } :=
  constructive_indefinite_ground_description_nat _ (λ fuel, is_Some_dec _) (RunResumable_ends c prog input seed pick w).

Definition RunToEnd (hint : nat) (w : W) : W * list event * res error (value * RunState) :=
  match RunResumable c prog input seed pick hint w with
  | Some r => r
  | None => is_Some_proj (proj2_sig (enough_fuel w))
  end.

(** [RunToEnd] is a run. *)
Lemma RunToEnd_run hint w : ∃ fuel, RunResumable c prog input seed pick fuel w = Some (RunToEnd hint w).
Proof.
  unfold RunToEnd. destruct (RunResumable c prog input seed pick hint w) as [r|] eqn:E; [by exists hint|].
  exists (proj1_sig (enough_fuel w)). destruct (proj2_sig (enough_fuel w)) as [r ->]. done.
Qed.
End total.

(** ** What a run does to the world *)

(** A relation that every call of the Invoker respects holds of every run. *)
Section world.
Context `{Invoker W} (R : relation W) `{!PreOrder R}.
Hypothesis Hdispatch : ∀ w cn site c, R w (dispatch w cn site c).1.

Lemma do_invoke_world cn site mk (st : state W) : R (world st) (world (do_invoke cn site mk st).1).
Proof.
  unfold do_invoke. destruct (getMemo _ _); [done|]. destruct mk as [c|e]; [|done].
  pose proof (Hdispatch (world st) cn site c) as Hd. destruct (dispatch (world st) cn site c) as [w' [v|e]]; cbn in Hd.
  - by destruct (Canonical v).
  - by destruct (isSuspend e).
Qed.

Lemma pstep_world cn (st : state W) p st' p' : pstep cn st p st' p' → R (world st) (world st').
Proof.
  induction 1; try reflexivity; try done.
  - pose proof (do_invoke_world cn site mk st) as Hw. by rewrite H0 in Hw.
  - unfold do_control in H0. destruct (checkControl _ _ _). by simplify_eq.
Qed.

Lemma psteps_world (st : state W) p st' p' : psteps st p st' p' → R (world st) (world st').
Proof. induction 1 as [|????? ? Hs _ IH]; [reflexivity|]. etrans; [by eapply pstep_world|done]. Qed.

Lemma RunToEnd_world c prog input seed pick hint w w' evs r :
  RunToEnd c prog input seed pick hint w = (w', evs, r) → R w w'.
Proof.
  intros Hr. destruct (RunToEnd_run c prog input seed pick hint w) as [fuel Hf]. rewrite Hr in Hf.
  apply RunResumable_inv in Hf as [(e & He & _)|(s & p & st & f & _ & Hps & _ & _ & <-)].
  - destruct (RunToEnd_run c prog input seed pick hint w) as [fuel' Hf']. rewrite Hr in Hf'.
    unfold RunResumable in Hf'. rewrite He in Hf'. by simplify_eq.
  - by apply psteps_world in Hps.
Qed.
End world.
