(* ===== verification/ExecBounds.v ===== *)
(** * Invocation bounds ([internal/execir/analyze.go])

    The per-callee upper bounds shown at review time, and their soundness against
    the interpreter: the published bound is the saturated static count, which no
    run exceeds. *)

From S2P Require Import Prelude GoNum Value JsonNum ExecIR ExecEval.
From S2P Require Import ExecInterp ExecSteps ExecCount ExecRun.

Local Open Scope Z_scope.

Definition satMul (a b : Z) : Z :=
  if (a <=? 0) || (b <=? 0) then 0
  else if max_int / b <? a then max_int else a * b.

Definition satAdd (a b : Z) : Z :=
  if (0 <? b) && (max_int - b <? a) then max_int else a + b.

Definition maxIntBound (a b : Z) : Z := if b <? a then a else b.

Record invAcc := mkInvAcc { ia_max : Z; ia_dataBounded : bool }.
Definition zeroAcc : invAcc := mkInvAcc 0 false.

Abbreviation calleeKey := (string * string)%type.
Abbreviation bounds := (gmap calleeKey invAcc).

(** [cur.max = satAdd(cur.max, n); cur.dataBounded = cur.dataBounded || db]. *)
Definition acc_add (acc : bounds) (k : calleeKey) (n : Z) (db : bool) : bounds :=
  let cur := default zeroAcc (acc !! k) in
  <[k := mkInvAcc (satAdd (ia_max cur) n) (ia_dataBounded cur || db)]> acc.

Definition mergeSum (acc other : bounds) : bounds :=
  map_fold (λ k v acc, acc_add acc k (ia_max v) (ia_dataBounded v)) acc other.

Definition maxed_step (k : calleeKey) (v : invAcc) (maxed : bounds) : bounds :=
  let present := maxed !! k in
  let cur := default zeroAcc present in
  let m := if negb (is_Some_b present) || (ia_max cur <? ia_max v)
           then maxIntBound (ia_max cur) (ia_max v) else ia_max cur in
  <[k := mkInvAcc m (ia_dataBounded cur || ia_dataBounded v)]> maxed.

Definition mergeMaxInto (dst thn els : bounds) : bounds :=
  mergeSum dst (map_fold maxed_step thn els).

(** The loop of [boundsOf] over one more node. *)
Definition add (acc : bounds) (factor : Z) (db : bool) (kind callee : string) : bounds :=
  if decide (callee = "") then acc else acc_add acc (kind, callee) factor db.

Definition loop_limit (limit cap : Z) : Z := if (limit <=? 0) || (cap <? limit) then cap else limit.

Definition boundsOf_with (visit : node → Z → bool → bounds → bounds) (factor : Z) (db : bool) :=
  fix go (ns : list node) (acc : bounds) : bounds :=
    match ns with
    | [] => acc
    | n :: ns => go ns (visit n factor db acc)
    end.

Fixpoint boundsOf_node (cap : Z) (n : node) (factor : Z) (db : bool) (acc : bounds) : bounds :=
  match n with
  | InvokeAgent _ a _ _ => add acc factor db "agent" a
  | InvokeTool _ u _ => add acc factor db "tool" u
  | InvokeWorkflow _ w _ _ _ => add acc factor db "workflow" w
  | While _ limit body | Retry _ limit body =>
      mergeSum acc (boundsOf_with (boundsOf_node cap) (satMul factor (loop_limit limit cap)) db body ∅)
  | Loop _ _ body _ =>
      mergeSum acc (boundsOf_with (boundsOf_node cap) (satMul factor cap) true body ∅)
  | Branch _ t e =>
      mergeMaxInto acc (boundsOf_with (boundsOf_node cap) factor db t ∅)
        (boundsOf_with (boundsOf_node cap) factor db e ∅)
  | Fork bs =>
      (fix go (bs : list (string * list node)) (acc : bounds) : bounds :=
        match bs with
        | [] => acc
        | (_, ns) :: bs => go bs (mergeSum acc (boundsOf_with (boundsOf_node cap) factor db ns ∅))
        end) bs acc
  | Graph gs =>
      (fix go (gs : list (string * list string * node)) (acc : bounds) : bounds :=
        match gs with
        | [] => acc
        | (_, n) :: gs =>
            go gs (match n with NilNode => acc
                   | _ => mergeSum acc (boundsOf_node cap n factor db ∅) end)
        end) gs acc
  | Approval _ _ _ _ | Let _ _ | Return _ | NilNode => acc
  end.

Definition boundsOf (ns : list node) (factor : Z) (db : bool) (cap : Z) : bounds :=
  boundsOf_with (boundsOf_node cap) factor db ns ∅.

Record InvocationBound := mkInvocationBound {
  Kind : string; Callee : string; Max : Z; DataBounded : bool
}.

(** [lessInvocation], and the insertion sort that uses it. *)
Definition lessInvocation (a b : InvocationBound) : bool :=
  if decide (Kind a = Kind b)
  then bool_decide (String.le (Callee a) (Callee b) ∧ Callee a ≠ Callee b)
  else bool_decide (String.le (Kind a) (Kind b) ∧ Kind a ≠ Kind b).

Fixpoint insert_bound (x : InvocationBound) (sorted : list InvocationBound) : list InvocationBound :=
  match sorted with
  | [] => [x]
  | y :: ys => if lessInvocation x y then x :: sorted else y :: insert_bound x ys
  end.
Definition sortInvocationBounds (l : list InvocationBound) : list InvocationBound :=
  foldl (λ sorted x, insert_bound x sorted) [] l.

Definition InvocationBounds (p : option program) (globalLoopCap : Z) : list InvocationBound :=
  match p with
  | None => []
  | Some p =>
      let cap := if globalLoopCap <=? 0 then 1 else globalLoopCap in
      sortInvocationBounds
        ((λ kv, mkInvocationBound kv.1.1 kv.1.2 (ia_max kv.2) (ia_dataBounded kv.2))
          <$> map_to_list (boundsOf (Body p) 1 false cap))
  end.

(** ** Saturating arithmetic is exact below the bound *)

Definition sat (x : Z) : Z := Z.min max_int x.

(** [satAdd] and [satMul] never wrap: on non-negative operands within int64
    they are the exact sum and product, clamped to the largest int64. *)
Theorem sat_ops_exact a b :
  0 <= a <= max_int → 0 <= b <= max_int →
  satAdd a b = Z.min max_int (a + b) ∧ satMul a b = Z.min max_int (a * b).
Proof.
  intros Ha Hb. split.
  - unfold satAdd. case_match; bool_inv; lia.
  - unfold satMul. destruct ((a <=? 0) || (b <=? 0)) eqn:E.
    + apply orb_true_iff in E as [E|E]; bool_inv; nia.
    + bool_inv. pose proof (Z.mul_div_le max_int b ltac:(lia)).
      pose proof (Z.mul_succ_div_gt max_int b ltac:(lia)).
      destruct (max_int / b <? a) eqn:E; bool_inv; nia.
Qed.

Lemma sat_ops_exact_witness :
  satMul 4611686018427387904 3 = max_int ∧ satAdd max_int 1 = Z.min max_int (max_int + 1).
Proof.
  split; [vm_compute; reflexivity|].
  apply (sat_ops_exact max_int 1); unfold max_int; lia.
Defined.

Lemma satAdd_min a b : 0 <= a <= max_int → 0 <= b → satAdd a (sat b) = sat (a + b).
Proof. intros. unfold satAdd, sat. case_match; bool_inv; lia. Qed.

Lemma satMul_min a b : 1 <= a <= max_int → 1 <= b <= max_int → satMul a b = sat (a * b).
Proof.
  intros Ha Hb. unfold satMul, sat. destruct ((a <=? 0) || (b <=? 0)) eqn:E.
  { apply orb_true_iff in E as [E|E]; bool_inv; lia. }
  pose proof (Z.mul_div_le max_int b ltac:(lia)).
  pose proof (Z.mul_succ_div_gt max_int b ltac:(lia)).
  destruct (max_int / b <? a) eqn:E2; bool_inv; nia.
Qed.

Lemma sat_mul_sat x y : 0 <= x → 0 <= y → sat (sat x * y) = sat (x * y).
Proof.
  intros Hx Hy. unfold sat. destruct (Z.min_spec max_int x) as [[? ->]|[? ->]]; [|done].
  destruct (decide (y = 0)) as [->|]; [lia|]. unfold max_int in *. nia.
Qed.

(** ** The maps the analysis builds *)

Definition bmax (acc : bounds) (k : calleeKey) : Z := ia_max (default zeroAcc (acc !! k)).

(** Every bound is a non-negative int. *)
Definition in_range (acc : bounds) : Prop := ∀ k, 0 <= bmax acc k <= max_int.

Lemma bmax_empty k : bmax ∅ k = 0.
Proof. unfold bmax. by rewrite lookup_empty. Qed.

Lemma bmax_insert acc k v k' : bmax (<[k := v]> acc) k' = if decide (k = k') then ia_max v else bmax acc k'.
Proof. unfold bmax. case_decide; subst; by simplify_map_eq. Qed.

Lemma bmax_add acc k n db k' :
  bmax (acc_add acc k n db) k' = if decide (k = k') then satAdd (bmax acc k) n else bmax acc k'.
Proof. unfold acc_add. rewrite bmax_insert. done. Qed.

Lemma satAdd_0 a : satAdd a 0 = a.
Proof. unfold satAdd. simpl. lia. Qed.

Lemma mergeSum_bmax acc other k : bmax (mergeSum acc other) k = satAdd (bmax acc k) (bmax other k).
Proof.
  unfold mergeSum.
  apply (map_fold_weak_ind (λ r other, bmax r k = satAdd (bmax acc k) (bmax other k))).
  - by rewrite bmax_empty, satAdd_0.
  - intros k' v m r Hk' IH. rewrite bmax_add, bmax_insert. case_decide as Hk; [|done].
    subst. rewrite IH. unfold bmax at 2. by rewrite Hk', satAdd_0.
Qed.

Lemma maxed_step_bmax k v m k' : in_range m → 0 <= ia_max v →
  bmax (maxed_step k v m) k' = if decide (k = k') then Z.max (bmax m k) (ia_max v) else bmax m k'.
Proof.
  intros Hm Hv. unfold maxed_step. rewrite bmax_insert. case_decide; [|done]. subst.
  specialize (Hm k'). unfold bmax in *. simpl.
  destruct (m !! k') as [c|]; simpl in *; unfold maxIntBound; repeat case_match; bool_inv; lia.
Qed.

Lemma mergeMax_bmax thn els k : in_range thn → in_range els →
  bmax (map_fold maxed_step thn els) k = Z.max (bmax thn k) (bmax els k) ∧
  in_range (map_fold maxed_step thn els).
Proof.
  intros Ht He.
  assert (∀ k, bmax (map_fold maxed_step thn els) k = Z.max (bmax thn k) (bmax els k)) as Hall.
  { revert He. apply (map_fold_weak_ind (λ r els, in_range els →
      ∀ k, bmax r k = Z.max (bmax thn k) (bmax els k))).
    - intros _ k'. rewrite bmax_empty. specialize (Ht k'). lia.
    - intros k' v m r Hk' IH Hr k0.
      assert (in_range m) as Hm.
      { intros k1. specialize (Hr k1). rewrite bmax_insert in Hr. case_decide; [|done].
        subst. unfold bmax. rewrite Hk'. unfold zeroAcc, max_int. simpl. lia. }
      assert (0 <= ia_max v <= max_int) as Hv.
      { specialize (Hr k'). rewrite bmax_insert, decide_True in Hr by done. lia. }
      assert (in_range r) as Hrr.
      { intros k1. rewrite (IH Hm). specialize (Ht k1). specialize (Hm k1). lia. }
      rewrite maxed_step_bmax, bmax_insert by (done || lia). case_decide; [|by apply IH].
      subst. rewrite (IH Hm). unfold bmax at 2. rewrite Hk'. simpl. specialize (Ht k0). lia. }
  split; [done|]. intros k'. rewrite Hall. specialize (Ht k'). specialize (He k'). lia.
Qed.

(** ** The ideal count *)

Section ideal.
Variable cap : Z.
Variable k : calleeKey.
Hypothesis Hcap : 1 <= cap <= max_int.
Hypothesis Hk : k.2 ≠ "".

Definition lsum (f : node → Z) := fix go (ns : list node) : Z :=
  match ns with [] => 0 | n :: ns => f n + go ns end.
Definition b2z (b : bool) : Z := if b then 1 else 0.

(** The count over the integers, without addresses. *)
Fixpoint icount (n : node) : Z :=
  match n with
  | InvokeTool _ u _ => b2z (bool_decide (("tool", u) = k))
  | InvokeAgent _ a _ _ => b2z (bool_decide (("agent", a) = k))
  | InvokeWorkflow _ w _ _ _ => b2z (bool_decide (("workflow", w) = k))
  | Branch _ t e => Z.max (lsum icount t) (lsum icount e)
  | Fork bs => (fix go (bs : list (string * list node)) : Z :=
      match bs with [] => 0 | (_, ns) :: bs => lsum icount ns + go bs end) bs
  | Loop _ _ body _ => cap * lsum icount body
  | While _ l body | Retry _ l body => loop_limit l cap * lsum icount body
  | Graph gs => (fix go (gs : list (string * list string * node)) : Z :=
      match gs with [] => 0 | (_, n) :: gs => icount n + go gs end) gs
  | _ => 0
  end.

Definition is_key (_ : CallSite) (kd : string * string) : bool := bool_decide (kd = k).

Lemma lsum_nonneg ns : Forall (λ n, 0 <= icount n) ns → 0 <= lsum icount ns.
Proof. induction 1; simpl; lia. Qed.

Lemma loop_limit_pos l : 1 <= loop_limit l cap <= cap.
Proof. unfold loop_limit. case_match eqn:E; [lia|]. bool_inv. lia. Qed.

Lemma icount_nonneg n : 0 <= icount n.
Proof.
  induction n as [b u x|b u x w|b u x w p|b v|c t e IHt IHe|bs IH|x c b p IH|c i b IH|c i b IH
    |v|gs IH|b d r x|] using node_nested_ind; simpl; try lia;
    try (case_bool_decide; simpl; lia).
  - apply lsum_nonneg in IHt, IHe. lia.
  - induction IH as [|[b ns] bs Hb _ IHb]; [lia|]. apply lsum_nonneg in Hb. simpl in *. lia.
  - apply lsum_nonneg in IH. nia.
  - apply lsum_nonneg in IH. pose proof (loop_limit_pos i). nia.
  - apply lsum_nonneg in IH. pose proof (loop_limit_pos i). nia.
  - induction IH as [|[g n] gs Hg _ IHg]; [lia|]. simpl in *. lia.
Qed.

Lemma lcount_lsum path loop ns i :
  Forall (λ n, ∀ path loop, Z.of_nat (ncount cap is_key n path loop) = icount n) ns →
  Z.of_nat (lcount (ncount cap is_key) path loop ns i) = lsum icount ns.
Proof. intros Hns. revert i. induction Hns; intros i; simpl; [done|]. rewrite Nat2Z.inj_add. by rewrite H, IHHns. Qed.

Lemma sum_upto_const f n c : (∀ i, Z.of_nat (f i) = c) → Z.of_nat (sum_upto f n) = Z.of_nat n * c.
Proof.
  intros Hf. unfold sum_upto. generalize 0%nat. induction n as [|n IH]; intros i; simpl; [done|].
  rewrite Nat2Z.inj_add, Hf, IH. lia.
Qed.

Lemma effectiveMax_limit l : Z.of_nat (effectiveMax cap l) = loop_limit l cap.
Proof.
  unfold effectiveMax, loop_limit.
  destruct ((0 <? l) && (l <? cap)) eqn:E1, ((l <=? 0) || (cap <? l)) eqn:E2;
    rewrite Z2Nat.id; bool_inv; try lia.
Qed.

Lemma ncount_icount n path loop : Z.of_nat (ncount cap is_key n path loop) = icount n.
Proof.
  revert path loop.
  induction n as [b u x|b u x w|b u x w p|b v|c t e IHt IHe|bs IH|x c b p IH|c i b IH|c i b IH
    |v|gs IH|b d r x|] using node_nested_ind; intros path loop; simpl; try done;
    try (unfold is_key; by case_bool_decide).
  - by rewrite Nat2Z.inj_max, !lcount_lsum.
  - rewrite <-fork_counts_sum. generalize 0%nat.
    induction IH as [|[b ns] bs Hb _ IHb]; intros i; simpl; [done|].
    rewrite Nat2Z.inj_add, IHb. by rewrite lcount_lsum.
  - rewrite (sum_upto_const _ _ (lsum icount b)), Z2Nat.id by (lia || (intros; by apply lcount_lsum)).
    done.
  - rewrite (sum_upto_const _ _ (lsum icount b)), effectiveMax_limit
      by (intros; by apply lcount_lsum). done.
  - rewrite (sum_upto_const _ _ (lsum icount b)), effectiveMax_limit
      by (intros; by apply lcount_lsum). done.
  - rewrite <-graph_counts_sum. generalize (canonicalRanks (gn_id <$> gs)), 0%nat.
    induction IH as [|[g n] gs Hg _ IHg]; intros rk i; simpl; [done|].
    by rewrite Nat2Z.inj_add, IHg, Hg.
  - unfold is_key. case_bool_decide; [|done]. by subst k.
Qed.

(** *** The analysis computes the saturated count *)

Lemma in_range_empty : in_range ∅.
Proof. intros k'. rewrite bmax_empty. unfold max_int. lia. Qed.

Lemma satAdd_range a b : 0 <= a <= max_int → 0 <= b <= max_int → 0 <= satAdd a b <= max_int.
Proof. intros. unfold satAdd. case_match; bool_inv; lia. Qed.

Lemma in_range_add acc k' n db :
  in_range acc → 0 <= n <= max_int → in_range (acc_add acc k' n db).
Proof. intros Ha Hn k0. rewrite bmax_add. case_decide; [by apply satAdd_range|apply Ha]. Qed.

Lemma in_range_mergeSum acc other : in_range acc → in_range other → in_range (mergeSum acc other).
Proof. intros Ha Ho k'. rewrite mergeSum_bmax. by apply satAdd_range. Qed.

Lemma sat_range x : 0 <= x → 0 <= sat x <= max_int.
Proof. unfold sat, max_int. lia. Qed.

(** What a piece of the analysis that adds [c] calls at [factor] does. *)
Definition computes (c : Z) (visit : Z → bool → bounds → bounds) : Prop :=
  ∀ factor db acc, 1 <= factor <= max_int → in_range acc →
    in_range (visit factor db acc) ∧
    bmax (visit factor db acc) k = sat (bmax acc k + factor * c).

Lemma computes_zero : computes 0 (λ _ _ acc, acc).
Proof. intros f db acc Hf Ha. split; [done|]. specialize (Ha k). unfold sat. lia. Qed.

Lemma computes_seq c1 c2 v1 v2 : 0 <= c1 → 0 <= c2 →
  computes c1 v1 → computes c2 v2 → computes (c1 + c2) (λ f db acc, v2 f db (v1 f db acc)).
Proof.
  intros H1 H2 V1 V2 f db acc Hf Ha. destruct (V1 f db acc Hf Ha) as [R1 E1].
  destruct (V2 f db _ Hf R1) as [R2 E2]. split; [done|]. rewrite E2, E1.
  specialize (Ha k). unfold sat. nia.
Qed.

(** A nested piece, run from the empty map at [factor * m] and summed. *)
Lemma computes_nested c m visit (dbf : bool → bool) (fac : Z → Z) : 0 <= c → 1 <= m →
  (∀ f, 1 <= f <= max_int → fac f = sat (f * m)) →
  computes c visit → computes (m * c) (λ f db acc, mergeSum acc (visit (fac f) (dbf db) ∅)).
Proof.
  intros Hc Hm Hfac V f db acc Hf Ha.
  assert (1 <= fac f <= max_int) as Hr.
  { rewrite Hfac by done. unfold sat, max_int in *. nia. }
  destruct (V (fac f) (dbf db) ∅ Hr in_range_empty) as [R E].
  split; [by apply in_range_mergeSum|].
  rewrite mergeSum_bmax, E, bmax_empty, Z.add_0_l, Hfac, sat_mul_sat by (done || nia).
  rewrite satAdd_min by (apply Ha || nia). f_equal. nia.
Qed.

Lemma computes_list ns : Forall (λ n, computes (icount n) (boundsOf_node cap n)) ns →
  computes (lsum icount ns) (λ f db acc, boundsOf_with (boundsOf_node cap) f db ns acc).
Proof.
  induction 1 as [|n ns Hn _ IH]; simpl; [apply computes_zero|].
  apply (computes_seq _ _ (boundsOf_node cap n)
    (λ f db acc, boundsOf_with (boundsOf_node cap) f db ns acc)); try done.
  - apply icount_nonneg.
  - apply lsum_nonneg, Forall_forall. intros ? _. apply icount_nonneg.
Qed.

Lemma lsum_nonneg_all ns : 0 <= lsum icount ns.
Proof. apply lsum_nonneg, Forall_forall. intros ? _. apply icount_nonneg. Qed.

Lemma computes_call kind callee :
  computes (b2z (bool_decide ((kind, callee) = k))) (λ f db acc, add acc f db kind callee).
Proof.
  intros f db acc Hf Ha. unfold add. case_decide as Hc.
  - subst. rewrite bool_decide_false by (intros <-; done). by apply computes_zero.
  - split; [apply in_range_add; [done|lia]|]. rewrite bmax_add. specialize (Ha k).
    case_bool_decide as He; simpl.
    + rewrite decide_True by done. rewrite He. unfold satAdd, sat. case_match; bool_inv; lia.
    + rewrite decide_False by done. unfold sat. lia.
Qed.

Lemma sat_id f : 1 <= f <= max_int → f = sat (f * 1).
Proof. intros. unfold sat. lia. Qed.

Lemma node_computes n : computes (icount n) (boundsOf_node cap n).
Proof.
  induction n as [b u x|b u x w|b u x w p|b v|c t e IHt IHe|bs IH|x c b p IH|c i b IH|c i b IH
    |v|gs IH|b d r x|] using node_nested_ind; try apply computes_zero; try apply computes_call.
  - intros f db acc Hf Ha. cbn [boundsOf_node icount].
    destruct (computes_list t IHt f db ∅ Hf in_range_empty) as [Rt Et].
    destruct (computes_list e IHe f db ∅ Hf in_range_empty) as [Re Ee].
    destruct (mergeMax_bmax _ _ k Rt Re) as [Em Rm].
    pose proof (lsum_nonneg_all t). pose proof (lsum_nonneg_all e).
    split; [by apply in_range_mergeSum|].
    unfold mergeMaxInto. rewrite mergeSum_bmax, Em, Et, Ee, bmax_empty, !Z.add_0_l.
    assert (Z.max (sat (f * lsum icount t)) (sat (f * lsum icount e)) =
      sat (f * Z.max (lsum icount t) (lsum icount e))) as ->.
    { unfold sat. destruct (Z.max_spec (lsum icount t) (lsum icount e)) as [[? ->]|[? ->]]; nia. }
    apply satAdd_min; [apply Ha|nia].
  - cbn [boundsOf_node icount]. induction IH as [|[b ns] bs Hb _ IHb]; [apply computes_zero|].
    assert (computes (lsum icount ns)
      (λ f db acc, mergeSum acc (boundsOf_with (boundsOf_node cap) f db ns ∅))) as Hns.
    { rewrite <-(Z.mul_1_l (lsum icount ns)).
      apply (computes_nested _ 1 (λ f db acc, boundsOf_with (boundsOf_node cap) f db ns acc)
        (λ db, db) (λ f, f)); [apply lsum_nonneg_all|lia|apply sat_id|by apply computes_list]. }
    refine (computes_seq _ _ _ _ (lsum_nonneg_all ns) _ Hns IHb).
    clear -Hcap. induction bs as [|[b ns] bs IHb]; [lia|]. pose proof (lsum_nonneg_all ns). lia.
  - apply (computes_nested _ cap (λ f db acc, boundsOf_with (boundsOf_node cap) f db b acc)
      (λ _, true) (λ f, satMul f cap)); [apply lsum_nonneg_all|lia| |by apply computes_list].
    intros f Hf. by apply satMul_min.
  - pose proof (loop_limit_pos i).
    apply (computes_nested _ (loop_limit i cap)
      (λ f db acc, boundsOf_with (boundsOf_node cap) f db b acc)
      (λ db, db) (λ f, satMul f (loop_limit i cap)));
      [apply lsum_nonneg_all|lia| |by apply computes_list].
    intros f Hf. apply satMul_min; lia.
  - pose proof (loop_limit_pos i).
    apply (computes_nested _ (loop_limit i cap)
      (λ f db acc, boundsOf_with (boundsOf_node cap) f db b acc)
      (λ db, db) (λ f, satMul f (loop_limit i cap)));
      [apply lsum_nonneg_all|lia| |by apply computes_list].
    intros f Hf. apply satMul_min; lia.
  - cbn [boundsOf_node icount]. induction IH as [|[g n] gs Hg _ IHg]; [apply computes_zero|].
    assert (computes (icount n) (λ f db acc, match n with NilNode => acc
      | _ => mergeSum acc (boundsOf_node cap n f db ∅) end)) as Hn.
    { assert (computes (icount n) (λ f db acc, mergeSum acc (boundsOf_node cap n f db ∅))) as Hn.
      { rewrite <-(Z.mul_1_l (icount n)). apply (computes_nested _ 1 (boundsOf_node cap n)
          (λ db, db) (λ f, f)); [apply icount_nonneg|lia|apply sat_id|done]. }
      destruct n; try done. }
    refine (computes_seq _ _ _ _ (icount_nonneg n) _ Hn IHg).
    clear -Hcap. induction gs as [|[g n] gs IHg]; [lia|]. pose proof (icount_nonneg n). lia.
Qed.
End ideal.

(** ** Soundness *)

Lemma insert_bound_Permutation x l : insert_bound x l ≡ₚ x :: l.
Proof.
  induction l as [|y l IH]; simpl; [done|]. case_match; [done|]. rewrite IH. constructor.
Qed.

Lemma sortInvocationBounds_Permutation l : sortInvocationBounds l ≡ₚ l.
Proof.
  unfold sortInvocationBounds.
  assert (∀ acc, foldl (λ sorted x, insert_bound x sorted) acc l ≡ₚ acc ++ l) as Hacc; [|apply Hacc].
  induction l as [|x l IH]; intros acc; simpl; [by rewrite app_nil_r|].
  rewrite IH, insert_bound_Permutation. by rewrite <-Permutation_middle.
Qed.

(** The calls of a trace to one callee. *)
Definition calls_to (k : calleeKey) (evs : list event) : Z :=
  Z.of_nat (countb (λ e, bool_decide (callee (ev_call e) = k)) evs).

(** C13: The published invocation bounds are sound: in every run, under every
    interleaving, an agent, tool or subworkflow that is invoked has an entry in
    [InvocationBounds], and is invoked at most [Max] times unless [Max] is the
    largest int (the saturation value). *)
Theorem InvocationBounds_sound `{Invoker W} c prog input seed pick fuel w w' evs r kind name :
  maxIters c <= max_int → name ≠ "" → 0 < calls_to (kind, name) evs →
  RunResumable c prog input seed pick fuel w = Some (w', evs, r) →
  ∃ b, b ∈ InvocationBounds (Some prog) (maxIters c) ∧ Kind b = kind ∧ Callee b = name ∧
    (calls_to (kind, name) evs <= Max b ∨ Max b = max_int).
Proof.
  intros Hmax Hname Hpos Hrun.
  apply RunResumable_inv in Hrun as [(e & _ & -> & _)|(s & p & st & f & Hs & Hps & <- & _)].
  { by vm_compute in Hpos. }
  set (k := (kind, name)). fold k in Hpos.
  assert (1 <= maxIters c) as Hcap.
  { unfold maxIters, DefaultMaxLoopIterations. case_match; bool_inv; lia. }
  destruct (psteps_safe _ _ _ _ _ _ Hps (start_run_safe (is_key k) _ _ _ _ _ _ Hs))
    as (evs & n' & Hc & _ & Hle). simpl in Hc. rewrite Hc in *.
  assert (calls_to k evs = Z.of_nat (selected (is_key k) evs)) as Hsel by done.
  pose proof (lcount_lsum (maxIters c) k [] [] (Body prog) 0) as Hlc.
  specialize (Hlc ltac:(apply Forall_forall; intros; apply ncount_icount; [lia|done])).
  destruct (computes_list (maxIters c) k ltac:(lia) (Body prog)
    ltac:(apply Forall_forall; intros; apply node_computes; [lia|done])
    1 false ∅ ltac:(unfold max_int; lia) in_range_empty) as [Hr Hb].
  rewrite bmax_empty, Z.add_0_l, Z.mul_1_l in Hb.
  change (boundsOf_with (boundsOf_node (maxIters c)) 1 false (Body prog) ∅)
    with (boundsOf (Body prog) 1 false (maxIters c)) in Hb.
  set (B := boundsOf (Body prog) 1 false (maxIters c)) in *.
  assert (0 < bmax B k) as HB. { rewrite Hb. unfold sat, max_int. lia. }
  unfold bmax in HB, Hb. destruct (B !! k) as [v|] eqn:Ek; [|done]. simpl in HB, Hb.
  exists (mkInvocationBound kind name (ia_max v) (ia_dataBounded v)). split_and!; [|done..|].
  - unfold InvocationBounds. case_match eqn:E; bool_inv; [lia|].
    rewrite sortInvocationBounds_Permutation. apply list_elem_of_fmap. exists (k, v).
    split; [done|]. by apply elem_of_map_to_list.
  - simpl. rewrite Hb. unfold sat. lia.
Qed.

Lemma InvocationBounds_sound_witness :
  InvocationBounds (Some demo_program) 1000 =
    [mkInvocationBound "agent" "reviewer" 1000 true; mkInvocationBound "tool" "gh.get" 1 false;
     mkInvocationBound "tool" "gh.list" 1 false; mkInvocationBound "workflow" "sub" 1 false] ∧
  ∃ w' evs r, RunResumable demo_interp demo_program demo_input None (λ t, t) 100%nat 0%nat
      = Some (w', evs, r) ∧ calls_to ("agent", "reviewer") evs = 3 ∧
    ∃ b, b ∈ InvocationBounds (Some demo_program) 1000 ∧ Kind b = "agent" ∧
      Callee b = "reviewer" ∧ (calls_to ("agent", "reviewer") evs <= Max b ∨ Max b = max_int).
Proof.
  split; [vm_compute; reflexivity|]. eexists _, _, _. split; [vm_compute; reflexivity|].
  split; [reflexivity|].
  eapply (InvocationBounds_sound demo_interp demo_program demo_input None (λ t, t) 100%nat 0%nat);
    [by vm_compute|done|reflexivity|vm_compute; reflexivity].
Defined.
