(* ===== verification/ExecReplay.v ===== *)
(** * Error soundness and replay

    Two facts about programs without Graph nodes.  A genuine error (anything but a
    suspend or a cancellation) is never swallowed: a run that returns normally met
    none.  And a completed run can be replayed from the state it returns: seeded
    with its own memo and control record, under any scheduler and any Invoker, the
    program makes no call and returns the same output. *)

From S2P Require Import Prelude Value JsonNum ExecIR ExecEval.
From S2P Require Import ExecInterp ExecSteps ExecCount ExecRun.

Definition genuine (e : error) : bool := negb (isCanceled e) && negb (isSuspend e).

Definition has_genuine (fs : list flow) : Prop := ∃ e, FErr e ∈ fs ∧ genuine e = true.

Lemma first_genuine_Some fs :
  has_genuine fs → ∃ e, first_genuine (flow_err <$> fs) = Some e ∧ genuine e = true.
Proof.
  intros (e & He & Hg). induction fs as [|f fs IH]; [by apply elem_of_nil in He|].
  destruct f as [sc|sc v|e']; simpl.
  - apply elem_of_cons in He as [?|He]; [done|auto].
  - apply elem_of_cons in He as [?|He]; [done|auto].
  - destruct (negb (isCanceled e') && negb (isSuspend e')) eqn:E; [by exists e'|].
    apply elem_of_cons in He as [[= ->]|He]; [|auto]. unfold genuine in Hg. congruence.
Qed.

(** ** Doomed and strict processes *)

(** Every run of a doomed process ends in a genuine error. *)
Inductive doomed : proc → Prop :=
  | doomed_ret e : genuine e = true → doomed (PRet (FErr e))
  | doomed_invoke site mk k : (∀ r, doomed (k r)) → doomed (PInvoke site mk k)
  | doomed_control key val k : (∀ r, doomed (k r)) → doomed (PControl key val k)
  | doomed_par w cn bs k i t :
      bs !! i = Some t → doomed_t t → (∀ b fs, has_genuine fs → doomed (k b fs)) →
      doomed (PPar w cn bs k)
with doomed_t : tstat → Prop :=
  | doomed_wait q : doomed q → doomed_t (TWait q)
  | doomed_run q : doomed q → doomed_t (TRun q)
  | doomed_fin e : genuine e = true → doomed_t (TFin (FErr e)).

(** A strict process dooms itself at every genuine error it meets. *)
Inductive strict : proc → Prop :=
  | strict_ret f : strict (PRet f)
  | strict_invoke site mk k :
      (∀ e, mk = Err e → genuine e = true) →
      (∀ e, genuine e = true → doomed (k (Err e))) → (∀ r, strict (k r)) →
      strict (PInvoke site mk k)
  | strict_control key val k :
      (∀ e, genuine e = true → doomed (k (Some e))) → (∀ r, strict (k r)) →
      strict (PControl key val k)
  | strict_par w cn bs k :
      (∀ i t q, bs !! i = Some t → t_inner t q → strict q) →
      (∀ b fs, has_genuine fs → doomed (k b fs)) → (∀ b fs, strict (k b fs)) →
      strict (PPar w cn bs k).

Definition strictK (k : flow → proc) : Prop :=
  (∀ f, strict (k f)) ∧ ∀ e, genuine e = true → doomed (k (FErr e)).

Fixpoint graph_free (n : node) : bool :=
  match n with
  | Graph _ => false
  | Branch _ t e => forallb (λ n, graph_free n) t && forallb (λ n, graph_free n) e
  | Fork bs => forallb (λ b, match b with (_, ns) => forallb (λ n, graph_free n) ns end) bs
  | Loop _ _ b _ | While _ _ b | Retry _ _ b => forallb (λ n, graph_free n) b
  | _ => true
  end.

(** *** [exec] is strict *)

Section strict.
Variable maxIters : Z.
Variable maxConc : nat.
Abbreviation exec := (exec maxIters maxConc).

Definition node_strict (n : node) : Prop :=
  ∀ sc path loop k, strictK k → strict (exec n sc path loop k).

Lemma strictK_ret : strictK PRet.
Proof. split; by constructor. Qed.

Lemma strictK_next (k : flow → proc) (g : scope → proc) :
  strictK k → (∀ sc, strict (g sc)) →
  strictK (λ f, match f with FNext sc => g sc | _ => k f end).
Proof. intros [Hk He] Hg. split; [intros [| |]; auto|auto]. Qed.

Lemma invoke_strict sc bind site a mkcall k :
  strictK k → strict (invoke sc bind site a mkcall k).
Proof.
  intros [Hk He]. constructor; [|by apply He|intros [v|e]; apply Hk].
  intros e Hmk. apply fmap_Err, evalArgs_Err_kind in Hmk. by destruct Hmk as [->|[h ->]].
Qed.

Lemma execAll_strict ns path loop k i sc :
  Forall node_strict ns → strictK k → strict (execAll_from exec path loop k ns i sc).
Proof.
  intros Hns Hk. revert i sc. induction Hns as [|n ns Hn _ IH]; intros i sc; simpl; [apply Hk|].
  apply Hn. by apply strictK_next.
Qed.

Lemma record_control_strict key val k p :
  strictK k → strict p → strict (record_control key val k p).
Proof. intros [Hk He] Hp. constructor; [done|]. by intros [e|]. Qed.

Definition body_strict (body : scope → list nat → (flow → proc) → proc) : Prop :=
  ∀ sc l k, strictK k → strict (body sc l k).

Lemma loop_seq_strict body var loop k items idx sc :
  body_strict body → strictK k → strict (execLoop_seq body var loop k items idx sc).
Proof.
  intros Hb Hk. revert idx sc. induction items as [|x items IH]; intros idx sc; simpl;
    [apply Hk|]. apply Hb. by apply strictK_next.
Qed.

Lemma while_strict body cond path loop k rem i sc :
  body_strict body → strictK k → strict (execWhile body cond path loop k rem i sc).
Proof.
  intros Hb Hk. revert i sc. induction rem as [|rem IH]; intros i sc; simpl; [apply Hk|].
  destruct (evalExpr sc cond) as [[]|e]; [| |apply Hk];
    (apply record_control_strict; [done|]); [|apply Hk].
  apply Hb. by apply strictK_next.
Qed.

Lemma retry_strict body cond limit path loop k rem i sc :
  body_strict body → strictK k → strict (execRetry body cond limit path loop k rem i sc).
Proof.
  intros Hb Hk. revert i sc. induction rem as [|rem IH]; intros i sc; simpl; [apply Hk|].
  apply Hb. apply strictK_next; [done|]. intros sc'.
  destruct (evalExpr sc' cond) as [[]|e]; [| |apply Hk];
    (apply record_control_strict; [done|]); [apply Hk|done].
Qed.

(** A join turns the genuine error of a branch into its own. *)
Lemma par_strict ps k (g : list flow → proc) :
  strictK k → (∀ i p, ps !! i = Some p → strict p) → (∀ fs, strict (g fs)) →
  strict (PPar maxConc false (TWait <$> ps) (λ susp fs,
    match classifyConcurrent susp (flow_err <$> fs) with
    | Some e => k (FErr e) | None => g fs end)).
Proof.
  intros [Hk He] Hps Hg. constructor.
  - intros i t q Ht Hq. rewrite list_lookup_fmap in Ht.
    destruct (ps !! i) as [p|] eqn:Ep; [|done]. injection Ht as <-.
    destruct Hq; simplify_eq. eauto.
  - intros b fs Hfs. unfold classifyConcurrent.
    destruct (first_genuine_Some _ Hfs) as (e & -> & Hge). auto.
  - intros b fs. case_match; auto.
Qed.

Lemma exec_strict n : graph_free n = true → node_strict n.
Proof.
  induction n as [b u a|b u a w|b u a w p|b v|c t e IHt IHe|bs IH|x c b p IH|c i b IH|c i b IH
    |v|gs IH|b d r a|] using node_nested_ind; simpl; intros Hgf sc path loop k Hk; try done;
    try (by apply invoke_strict);
    assert (∀ ns, forallb (λ n, graph_free n) ns = true →
      Forall (λ n, graph_free n = true → node_strict n) ns → Forall node_strict ns) as Hlist
      by (intros ns Hns HF; rewrite forallb_forall in Hns; rewrite Forall_forall in *;
          intros n Hn; apply HF, Hns; [done|by apply list_elem_of_In]).
  - apply invoke_strict. destruct Hk as [Hk He]. split; [|done].
    intros [sc'|sc' v|e]; [|apply Hk..]. simpl. case_match; [|apply Hk]. case_match; apply Hk.
  - simpl. case_match; apply Hk.
  - apply andb_true_iff in Hgf as [Ht He]. simpl. unfold execBranch.
    destruct (evalExpr sc c) as [[]|]; [| |apply Hk];
      (apply record_control_strict; [done|]); by apply execAll_strict; [apply Hlist|].
  - simpl. unfold execFork. apply par_strict; [done| |intros fs; apply Hk].
    generalize 0. induction IH as [|[b ns] bs Hb _ IHb]; intros i0 j p Hj; [done|].
    simpl in Hgf. apply andb_true_iff in Hgf as [Hns Hgf].
    destruct j as [|j]; simplify_eq/=; [|by eapply IHb].
    apply execAll_strict; [by apply Hlist|apply strictK_ret].
  - simpl. unfold execLoop. destruct (evalCollection sc c) as [items|]; [|apply Hk].
    case_match; [apply Hk|]. apply record_control_strict; [done|].
    assert (body_strict (λ sc loop k, execAll_ exec b sc path loop k)) as Hb.
    { intros sc' l k' Hk'. apply execAll_strict; [by apply Hlist|done]. }
    destruct p; [|by apply loop_seq_strict]. unfold execLoopParallel.
    assert (∀ body : scope → list nat → (flow → proc) → proc,
      imap (λ i item, TWait (body (<[x:=item]> sc) (extend loop i) PRet)) items =
      TWait <$> imap (λ i item, body (<[x:=item]> sc) (extend loop i) PRet) items) as Heq
      by (intros body; by rewrite fmap_imap).
    rewrite (Heq (λ sc loop k, execAll_ exec b sc path loop k)). apply par_strict; [done| |intros fs; apply Hk].
    intros i q Hi. rewrite list_lookup_imap in Hi.
    destruct (items !! i); simplify_eq/=. apply Hb, strictK_ret.
  - simpl. apply while_strict; [|done]. intros sc' l k' Hk'.
    apply execAll_strict; [by apply Hlist|done].
  - simpl. apply retry_strict; [|done]. intros sc' l k' Hk'.
    apply execAll_strict; [by apply Hlist|done].
  - simpl. case_match; apply Hk.
  - apply Hk.
Qed.

Lemma execAll_nodes_strict ns sc path loop k :
  forallb graph_free ns = true → strictK k →
  strict (execAll maxIters maxConc ns sc path loop k).
Proof.
  intros Hgf Hk. apply execAll_strict; [|done]. rewrite forallb_forall in Hgf.
  apply Forall_forall. intros n Hn. by apply exec_strict, Hgf, list_elem_of_In.
Qed.
End strict.

(** ** Steps of strict processes *)

(** A call that went well: it returned a value the memo could take. *)
Definition ev_ok (e : event) : bool := is_Some_b (ev_memo e).

Section replay.
Context `{Invoker W}.

Lemma doomed_insert bs i t t' w cn k :
  (∀ j u, bs !! j = Some u → doomed_t u → j = i → doomed_t t') →
  bs !! i = Some t → (∃ j u, bs !! j = Some u ∧ doomed_t u) →
  (∀ b fs, has_genuine fs → doomed (k b fs)) →
  doomed (PPar w cn (<[i := t']> bs) k).
Proof.
  intros Ht Hi (j & u & Hj & Hu) Hk. destruct (decide (j = i)) as [->|Hne].
  - eapply (doomed_par _ _ _ _ i t'); [|by eapply Ht|done].
    apply list_lookup_insert_eq. by eapply lookup_lt_Some.
  - eapply (doomed_par _ _ _ _ j u); [|done|done].
    by rewrite list_lookup_insert_ne.
Qed.

(** Doom is not undone. *)
Lemma pstep_doomed cn st p st' p' : pstep cn st p st' p' → doomed p → doomed p'.
Proof.
  induction 1 as [cn st site mk k st' r Hi|cn st key val k st' r Hc|cn st w c bs k fs Hfs
    |cn st w c bs k i q Hi Hl|cn st w c bs k i f Hi|cn st w c bs k i q st' q' Hi Hq IH
    | | | | | ]; intros Hd; inversion Hd as [|? ? ? Hk|? ? ? Hk|? ? ? ? j t Hj Ht Hk]; subst; auto.
  - apply Hk. apply mapM_Some in Hfs.
    destruct (Forall2_lookup_l _ _ _ _ _ Hfs Hj) as (f & Hf & Htf).
    destruct t; simplify_eq/=. inversion Ht; subst. exists e.
    split; [by eapply list_elem_of_lookup_2|done].
  - eapply doomed_insert; [|exact Hi|by exists j, t|done].
    intros j' u Hj' Hu ->. rewrite Hi in Hj'. simplify_eq. inversion Hu; subst. by constructor.
  - eapply doomed_insert; [|exact Hi|by exists j, t|done].
    intros j' u Hj' Hu ->. rewrite Hi in Hj'. simplify_eq.
    inversion Hu as [|? Hq|]; subst. inversion Hq; subst. by constructor.
  - eapply doomed_insert; [|exact Hi|by exists j, t|done].
    intros j' u Hj' Hu ->. rewrite Hi in Hj'. simplify_eq.
    inversion Hu as [|? Hdq|]; subst. constructor. auto.
Qed.

(** The deterministic evaluation of a process from a memo and a control record
    alone; [None] when they do not determine it. *)
Fixpoint replay (m : gmap string value) (c : gmap string nat) (p : proc) : option flow :=
  match p with
  | PRet f => Some f
  | PInvoke site mk k =>
      match m !! CallKey site with Some v => replay m c (k (Ok v)) | None => None end
  | PControl key val k =>
      match c !! key with
      | Some prev => if decide (prev = val) then replay m c (k None) else None
      | None => None
      end
  | PPar w cn bs k =>
      match (fix go (bs : list tstat) : option (list flow) :=
        match bs with
        | [] => Some []
        | t :: bs =>
            match match t with TWait q | TRun q => replay m c q | TFin f => Some f end with
            | Some f => match go bs with Some fs => Some (f :: fs) | None => None end
            | None => None
            end
        end) bs with
      | Some fs => replay m c (k false fs)
      | None => None
      end
  | PGraph _ _ _ _ _ _ _ _ _ _ _ => None
  end.

Definition treplay m c (t : tstat) : option flow :=
  match t with TWait q | TRun q => replay m c q | TFin f => Some f end.

Definition replay_list m c := fix go (bs : list tstat) : option (list flow) :=
  match bs with
  | [] => Some []
  | t :: bs =>
      match match t with TWait q | TRun q => replay m c q | TFin f => Some f end with
      | Some f => match go bs with Some fs => Some (f :: fs) | None => None end
      | None => None
      end
  end.

Lemma replay_par m c w cn bs k :
  replay m c (PPar w cn bs k) =
  match mapM (treplay m c) bs with Some fs => replay m c (k false fs) | None => None end.
Proof.
  cbn [replay]. fold (replay_list m c).
  assert (replay_list m c bs = mapM (treplay m c) bs) as ->; [|done].
  induction bs as [|t bs IH]; simpl; [done|]. rewrite IH.
  destruct t; simpl; by repeat case_match.
Qed.

Lemma mapM_insert_eq (f : tstat → option flow) bs i t t' :
  bs !! i = Some t → f t' = f t → mapM f (<[i := t']> bs) = mapM f bs.
Proof.
  revert i. induction bs as [|u bs IH]; intros [|i] Hi Hf; simplify_eq/=; [by rewrite Hf|].
  destruct (f u) as [fl|]; [|done].
  change (mapM f (<[i := t']> bs) ≫= (λ k, Some (fl :: k)) =
          mapM f bs ≫= (λ k, Some (fl :: k))).
  by rewrite (IH i Hi Hf).
Qed.

Lemma mapM_insert_Some (f : tstat → option flow) bs i t t' fs :
  bs !! i = Some t → (∀ fl, f t' = Some fl → f t = Some fl) →
  mapM f (<[i := t']> bs) = Some fs → mapM f bs = Some fs.
Proof.
  intros Hi Hf Hm. apply mapM_Some. apply mapM_Some in Hm.
  apply Forall2_same_length_lookup_2.
  { apply Forall2_length in Hm. by rewrite length_insert in Hm. }
  intros j u fl Hj Hfl. destruct (decide (j = i)) as [->|Hne].
  - simplify_eq. apply Hf. eapply (Forall2_lookup_lr _ _ _ _ _ _ Hm); [|done].
    apply list_lookup_insert_eq. by eapply lookup_lt_Some.
  - eapply (Forall2_lookup_lr _ _ _ _ _ _ Hm); [|done]. by rewrite list_lookup_insert_ne.
Qed.

Definition bad_event (st st' : state W) : Prop :=
  ∃ evs e, calls st' = calls st ++ evs ∧ e ∈ evs ∧ ev_ok e = false.

Lemma invoke_back m c cn site mk k (st st' : state W) r :
  do_invoke cn site mk st = (st', r) → strict (PInvoke site mk k) →
  memo (sess st') ⊆ m →
  bad_event st st' ∨ doomed (k r) ∨
  ∀ f, replay m c (k r) = Some f → replay m c (PInvoke site mk k) = Some f.
Proof.
  intros Hd Hs Hm. inversion Hs as [|? ? ? Hmk He Hk| |]; subst. unfold do_invoke, getMemo in Hd.
  destruct (memo (sess st) !! CallKey site) as [v|] eqn:Em.
  { injection Hd as <- <-. right; right. intros f Hf. simpl.
    by rewrite (lookup_weaken _ _ _ _ Em Hm). }
  destruct mk as [cl|e].
  2: { injection Hd as <- <-. right; left. by apply He, Hmk. }
  destruct (dispatch _ _ _ _) as [w rr].
  destruct rr as [v|e]; [destruct (Canonical v) as [cv|je] eqn:Ec|].
  - injection Hd as <- <-. right; right. intros f Hf. simpl. simpl in Hm.
    assert (m !! CallKey site = Some cv) as ->; [|done].
    eapply lookup_weaken; [|exact Hm]. by rewrite lookup_insert_eq.
  - injection Hd as <- <-. right; left. by apply He.
  - left. exists [mkEvent site cl (Err e)], (mkEvent site cl (Err e)).
    split; [destruct (isSuspend e); by simplify_eq|].
    split; [by apply list_elem_of_singleton|done].
Qed.

Lemma control_back m c key val k (st st' : state W) r :
  do_control key val st = (st', r) → strict (PControl key val k) →
  control (sess st') ⊆ c →
  doomed (k r) ∨ ∀ f, replay m c (k r) = Some f → replay m c (PControl key val k) = Some f.
Proof.
  intros Hd Hs Hc. inversion Hs as [| |? ? ? He Hk|]; subst.
  unfold do_control, checkControl in Hd.
  assert (∀ prev, c !! key = Some prev → prev = val → ∀ f,
    replay m c (k None) = Some f → replay m c (PControl key val k) = Some f) as Hok.
  { intros prev Hp -> f Hf. simpl. by rewrite Hp, decide_True. }
  destruct (control (sess st) !! key) as [prev|] eqn:Ek; [case_decide as Hv|];
    injection Hd as <- <-; [right|left; by apply He|right]; simpl in Hc;
    (apply (Hok val); [|done]); eapply lookup_weaken; [|exact Hc| |exact Hc];
    by rewrite lookup_insert_eq.
Qed.

Lemma strict_par_insert w cn cn' bs i t t' k :
  strict (PPar w cn bs k) → bs !! i = Some t → (∀ q, t_inner t' q → strict q) →
  strict (PPar w cn' (<[i := t']> bs) k).
Proof.
  intros Hs Hi Ht. inversion Hs as [| | |? ? ? ? Hb Hd Hk]; subst. constructor; [|done|done].
  intros j u q [[-> ->]|[Hne Hj]]%insert_lookup_cases Hq; [by apply Ht|by eapply Hb].
Qed.

(** Replaying the record of a completed run retraces it: one step of the run,
    seen from the end. *)
Lemma pstep_back m c cn st p st' p' :
  pstep cn st p st' p' → strict p →
  memo (sess st') ⊆ m → control (sess st') ⊆ c → suspended (sess st') = false →
  strict p' ∧
  (bad_event st st' ∨ doomed p' ∨ ∀ f, replay m c p' = Some f → replay m c p = Some f).
Proof.
  induction 1 as [cn st site mk k st' r Hi|cn st key val k st' r Hc|cn st w cn1 bs k fs Hfs
    |cn st w cn1 bs k i q Hi Hl|cn st w cn1 bs k i f Hi|cn st w cn1 bs k i q st' q' Hi Hq IH
    | | | | | ]; intros Hs Hm Hcc Hsu;
    inversion Hs as [|? ? ? Hmk He Hk|? ? ? He Hk|? ? ? ? Hb Hd Hk]; subst.
  - split; [apply Hk|]. by eapply invoke_back.
  - split; [apply Hk|]. right. by eapply control_back.
  - split; [apply Hk|]. right; right. intros f Hf. rewrite replay_par.
    assert (mapM (treplay m c) bs = Some fs) as ->; [|by rewrite <-Hsu].
    apply mapM_Some. apply mapM_Some in Hfs. eapply Forall2_impl; [exact Hfs|].
    intros t f' Ht. destruct t; simplify_eq/=. done.
  - split.
    + eapply strict_par_insert; [exact Hs|exact Hi|]. intros q' [?|?]; simplify_eq.
      eapply Hb; [exact Hi|by left].
    + right; right. intros f. rewrite !replay_par.
      destruct (mapM _ (<[i := _]> _)) as [fs|] eqn:Em; [|done].
      by rewrite (mapM_insert_Some (treplay m c) bs i _ (TRun q) fs Hi (λ fl Hfl, Hfl) Em).
  - split.
    + eapply strict_par_insert; [exact Hs|exact Hi|]. by intros q' [?|?].
    + right; right. intros f'. rewrite !replay_par.
      destruct (mapM _ (<[i := _]> _)) as [fs|] eqn:Em; [|done].
      by rewrite (mapM_insert_Some (treplay m c) bs i _ (TFin f) fs Hi (λ fl Hfl, Hfl) Em).
  - destruct (IH ltac:(eapply Hb; [exact Hi|by right]) Hm Hcc Hsu) as [Hs' Hor]. split.
    + eapply strict_par_insert; [exact Hs|exact Hi|]. intros q1 [?|?]; by simplify_eq.
    + destruct Hor as [Hbad|[Hdoom|Hrep]]; [by left|right; left|right; right].
      * eapply (doomed_par _ _ _ _ i (TRun q')); [|by constructor|done].
        apply list_lookup_insert_eq. by eapply lookup_lt_Some.
      * intros f. rewrite !replay_par.
        destruct (mapM _ (<[i := _]> _)) as [fs|] eqn:Em; [|done].
        by rewrite (mapM_insert_Some (treplay m c) bs i _ (TRun q') fs Hi Hrep Em).
Qed.

(** *** Whole runs *)

Definition normal (f : flow) : bool := match f with FErr e => negb (genuine e) | _ => true end.

Lemma psteps_not_doomed st p st' f :
  psteps st p st' (PRet f) → normal f = true → ¬ doomed p.
Proof.
  remember (PRet f) as p' eqn:Ep. intros Hps Hn. revert Ep.
  induction Hps as [st p|st p st1 p1 st2 p2 Hs _ IH]; intros ->.
  - inversion 1 as [e Hg| | |]; subst. simpl in Hn. by rewrite Hg in Hn.
  - intros Hd. apply (IH eq_refl). by eapply pstep_doomed.
Qed.

Lemma psteps_replay m c st p st' f :
  psteps st p st' (PRet f) → normal f = true → strict p →
  memo (sess st') ⊆ m → control (sess st') ⊆ c → suspended (sess st') = false →
  (∃ evs e, calls st' = calls st ++ evs ∧ e ∈ evs ∧ ev_ok e = false) ∨
  replay m c p = Some f.
Proof.
  remember (PRet f) as p' eqn:Ep. intros Hps Hn. revert Ep.
  induction Hps as [st p|st p st1 p1 st2 p2 Hs Hps IH]; intros -> Hst Hm Hc Hsu.
  - by right.
  - destruct (psteps_extends _ _ _ _ Hps) as (evs & Hcalls & Hx).
    assert (suspended (sess st1) = false) as Hsu1.
    { rewrite (ext_suspended _ _ _ Hx) in Hsu. by apply orb_false_iff in Hsu as [? _]. }
    destruct (pstep_back m c _ _ _ _ _ Hs Hst) as [Hst1 Hor]; [..|done|].
    { etrans; [by apply (ext_memo _ _ _ Hx)|done]. }
    { etrans; [by apply (ext_control _ _ _ Hx)|done]. }
    destruct Hor as [(evs1 & e & He1 & He & Hbad)|[Hd|Hrep]].
    + left. exists (evs1 ++ evs), e. rewrite Hcalls, He1, app_assoc, elem_of_app. auto.
    + exfalso. by eapply psteps_not_doomed.
    + destruct (IH eq_refl Hst1 Hm Hc Hsu) as [(evs2 & e & He2 & He & Hbad)|Hr];
        [left|right; auto].
      destruct (pstep_extends _ _ _ _ _ Hs) as (evs1 & He1 & _).
      exists (evs1 ++ evs2), e. rewrite He2, He1, app_assoc, elem_of_app. auto.
Qed.
End replay.

(** *** Replaying *)

Section replaying.
Context `{Invoker W}.

(** A step from the recorded state makes no call and keeps the answer. *)
Lemma pstep_replay cn st p st' p' f :
  pstep cn st p st' p' → suspended (sess st) = false →
  replay (memo (sess st)) (control (sess st)) p = Some f →
  st' = st ∧ replay (memo (sess st)) (control (sess st)) p' = Some f.
Proof.
  intros Hs. revert f. induction Hs as
    [cn st site mk k st' r Hi|cn st key val k st' r Hc|cn st w cn1 bs k fs Hfs
    |cn st w cn1 bs k i q Hi Hl|cn st w cn1 bs k i f1 Hi|cn st w cn1 bs k i q st' q' Hi Hq IH
    | | | | | ]; intros fl Hsu Hr; try done.
  - simpl in Hr. unfold do_invoke, getMemo in Hi.
    destruct (memo (sess st) !! CallKey site) as [v|]; [|done]. by injection Hi as <- <-.
  - simpl in Hr. unfold do_control, checkControl in Hc.
    destruct (control (sess st) !! key) as [prev|] eqn:Ek; [|done].
    case_decide as Hv; [|done]. injection Hc as <- <-. split; [|done].
    subst val. rewrite insert_id by done. by destruct st as [? []].
  - rewrite replay_par in Hr. split; [done|].
    assert (mapM (treplay (memo (sess st)) (control (sess st))) bs = Some fs) as E.
    { apply mapM_Some. apply mapM_Some in Hfs. eapply Forall2_impl; [exact Hfs|].
      intros t f' Ht. destruct t; simplify_eq/=. done. }
    rewrite E in Hr. by rewrite Hsu.
  - split; [done|]. rewrite replay_par in *.
    destruct (mapM _ bs) as [fs|] eqn:Em; [|done].
    rewrite (mapM_insert_eq (treplay (memo (sess st)) (control (sess st))) bs i _ (TRun q) Hi eq_refl), Em. done.
  - split; [done|]. rewrite replay_par in *.
    destruct (mapM _ bs) as [fs|] eqn:Em; [|done].
    rewrite (mapM_insert_eq (treplay (memo (sess st)) (control (sess st))) bs i _ (TFin f1) Hi eq_refl), Em. done.
  - rewrite replay_par in Hr.
    destruct (mapM _ bs) as [fs|] eqn:Em; [|done].
    pose proof Em as Em2. apply mapM_Some in Em2.
    destruct (Forall2_lookup_l _ _ _ _ _ Em2 Hi) as (fq & Hfq & Hrq). simpl in Hrq.
    destruct (IH fq Hsu Hrq) as [-> Hrq']. split; [done|]. rewrite replay_par.
    rewrite (mapM_insert_eq (treplay (memo (sess st)) (control (sess st))) bs i (TRun q) (TRun q')
      Hi); [by rewrite Em|]. simpl. by rewrite Hrq, Hrq'.
Qed.

Lemma psteps_replay_fwd st p st' f f' :
  psteps st p st' (PRet f') → suspended (sess st) = false →
  replay (memo (sess st)) (control (sess st)) p = Some f → st' = st ∧ f' = f.
Proof.
  remember (PRet f') as p' eqn:Ep. intros Hps. revert Ep.
  induction Hps as [st p|st p st1 p1 st2 p2 Hs Hps IH]; intros -> Hsu Hr.
  - simpl in Hr. by simplify_eq.
  - destruct (pstep_replay _ _ _ _ _ _ Hs Hsu Hr) as [-> Hr1]. auto.
Qed.
End replaying.

(** ** The theorems *)

(** A call that failed for a reason of its own: the Invoker reported an error that
    is no suspend and no cancellation, or its result has no canonical form. *)
Definition ev_failed (e : event) : bool :=
  match ev_result e with
  | Ok v => negb (is_ok (Canonical v))
  | Err er => genuine er
  end.

Section outcome.
Context `{Invoker W}.

Lemma app_self_nil {A} (l l' : list A) : l = l ++ l' → l' = [].
Proof. intros E. apply (app_inv_head l). by rewrite app_nil_r. Qed.

(** A failed call dooms the process that made it. *)
Lemma pstep_failed cn st p st' p' evs e :
  pstep cn st p st' p' → strict p → calls st' = calls st ++ evs → e ∈ evs →
  ev_failed e = true → doomed p'.
Proof.
  induction 1 as [cn st site mk k st' r Hi|cn st key val k st' r Hc|cn st w cn1 bs k fs Hfs
    |cn st w cn1 bs k i q Hi Hl|cn st w cn1 bs k i f Hi|cn st w cn1 bs k i q st' q' Hi Hq IH
    | | | | | ]; intros Hs Hcalls He Hf;
    try (apply app_self_nil in Hcalls as ->; by apply elem_of_nil in He);
    inversion Hs as [|? ? ? Hmk Hd Hk|? ? ? Hd Hk|? ? ? ? Hb Hd Hk]; subst.
  - unfold do_invoke, getMemo in Hi. destruct (memo (sess st) !! CallKey site) as [v|].
    { injection Hi as <- <-. apply app_self_nil in Hcalls as ->. by apply elem_of_nil in He. }
    destruct mk as [cl|er].
    2: { injection Hi as <- <-. apply app_self_nil in Hcalls as ->. by apply elem_of_nil in He. }
    destruct (dispatch _ _ _ _) as [w rr].
    assert (evs = [mkEvent site cl rr]) as ->.
    { destruct rr as [v|er]; [destruct (Canonical v)|destruct (isSuspend er)];
        injection Hi as <- <-; simpl in Hcalls; by apply app_inv_head in Hcalls. }
    apply list_elem_of_singleton in He as ->. unfold ev_failed in Hf. simpl in Hf.
    destruct rr as [v|er]; [destruct (Canonical v) as [cv|je]; [done|]|];
      injection Hi as <- <-; by apply Hd.
  - rewrite (do_control_calls _ _ _ _ _ Hc) in Hcalls.
    apply app_self_nil in Hcalls as ->. by apply elem_of_nil in He.
  - eapply (doomed_par _ _ _ _ i (TRun q')); [|constructor|done].
    + apply list_lookup_insert_eq. by eapply lookup_lt_Some.
    + eapply IH; [eapply Hb; [exact Hi|by right]|done..].
Qed.

Lemma pstep_strict cn st p st' p' : pstep cn st p st' p' → strict p → strict p'.
Proof.
  induction 1 as [cn st site mk k st' r Hi|cn st key val k st' r Hc|cn st w cn1 bs k fs Hfs
    |cn st w cn1 bs k i q Hi Hl|cn st w cn1 bs k i f Hi|cn st w cn1 bs k i q st' q' Hi Hq IH
    | | | | | ]; intros Hs;
    inversion Hs as [|? ? ? Hmk He Hk|? ? ? He Hk|? ? ? ? Hb Hd Hk]; subst; auto.
  - eapply strict_par_insert; [exact Hs|exact Hi|]. intros q' [?|?]; simplify_eq.
    eapply Hb; [exact Hi|by left].
  - eapply strict_par_insert; [exact Hs|exact Hi|]. by intros q' [?|?].
  - eapply strict_par_insert; [exact Hs|exact Hi|].
    intros q1 [?|?]; simplify_eq. apply IH. eapply Hb; [exact Hi|by right].
Qed.

Lemma psteps_failed st p st' f evs e :
  psteps st p st' (PRet f) → normal f = true → strict p →
  calls st' = calls st ++ evs → e ∈ evs → ev_failed e = false.
Proof.
  remember (PRet f) as p' eqn:Ep. intros Hps Hn. revert Ep evs.
  induction Hps as [st p|st p st1 p1 st2 p2 Hs Hps IH]; intros -> evs Hst Hc He.
  - apply app_self_nil in Hc as ->. by apply elem_of_nil in He.
  - destruct (pstep_extends _ _ _ _ _ Hs) as (evs1 & E1 & _).
    destruct (psteps_extends _ _ _ _ Hps) as (evs2 & E2 & _).
    assert (evs = evs1 ++ evs2) as ->.
    { apply (app_inv_head (calls st)). by rewrite <-Hc, E2, E1, app_assoc. }
    apply elem_of_app in He as [He|He].
    + destruct (ev_failed e) eqn:Ef; [|done]. exfalso.
      eapply psteps_not_doomed; [done|done|].
      by eapply pstep_failed.
    + eapply (IH eq_refl evs2); [by eapply pstep_strict|done|done].
Qed.

Lemma finish_run_Ok s f out rs :
  Ok (out, rs) = finish_run s f →
  normal f = true ∧ rs = mkRunState (memo s) (control s) (suspended s) (suspendKey s) ∧
  (suspended s = false → (∃ e, f = FErr e) ∨ finish_run s f = Ok (out, rs)).
Proof.
  intros Hf. unfold finish_run in *. destruct f as [sc|sc v|e]; simplify_eq; auto.
  destruct (isSuspend e) eqn:Es; simplify_eq. split; [|auto].
  simpl. unfold genuine. rewrite Es. by rewrite andb_false_r.
Qed.

Lemma start_run_strict c prog input seed s p :
  forallb graph_free (Body prog) = true →
  start_run c prog input seed = Ok (s, p) → strict p.
Proof.
  unfold start_run. intros Hg Hs. res_inv. destruct (Canonical input); [|done]. simplify_eq.
  apply execAll_nodes_strict; [done|apply strictK_ret].
Qed.

(** C19: Errors are not swallowed: when a program without Graph nodes returns
    normally (completed or suspended), every call returned a value with a canonical
    form, or a suspend, or a cancellation or expired deadline.  Whatever the nesting
    of forks and parallel loops and the interleaving, any other error of one
    goroutine fails the run.  (A deadline of the call's own is among the errors that
    pass: [Fork_swallows_timeout].) *)
Theorem RunResumable_errors c prog input seed pick fuel (w : W) w' evs out rs :
  forallb graph_free (Body prog) = true →
  RunResumable c prog input seed pick fuel w = Some (w', evs, Ok (out, rs)) →
  ∀ e, e ∈ evs → ev_failed e = false.
Proof.
  intros Hg [(e & _ & _ & ?)|(s & p & st & f & Hs & Hps & <- & Hf & _)]%RunResumable_inv e0 He;
    [done|].
  apply finish_run_Ok in Hf as (Hn & _ & _).
  eapply (psteps_failed _ _ _ _ (calls st)); [done|done| |done|done].
  by eapply start_run_strict.
Qed.

Lemma memo_canonical st p st' p' :
  psteps st p st' p' → (∀ k v, memo (sess st) !! k = Some v → Canonical v = Ok v) →
  ∀ k v, memo (sess st') !! k = Some v → Canonical v = Ok v.
Proof.
  intros Hps Hc k v Hk. destruct (psteps_extends _ _ _ _ Hps) as (evs & _ & Hx).
  destruct (ext_only _ _ _ Hx k v Hk) as [Hold|(e & _ & _ & Hm)]; [by eapply Hc|].
  unfold ev_memo in Hm. destruct (ev_result e) as [v'|]; [|done].
  destruct (Canonical v') eqn:E; simplify_eq. by eapply Canonical_idem.
Qed.

Lemma seed_session_canonical m ctl su key :
  (∀ k v, m !! k = Some v → Canonical v = Ok v) →
  seed_session (Some (mkRunState m ctl su key)) = Ok (mkSession m ctl false "").
Proof.
  intros Hm. simpl.
  assert (res_traverse (λ kv, match Canonical kv.2 with
    | Ok c => Ok (kv.1, c) | Err e => Err (ESeed kv.1 e) end) (map_to_list m) =
    Ok (map_to_list m)) as ->.
  { apply res_traverse_Forall2.
    assert (∀ l : list (string * value), (∀ kv, kv ∈ l → Canonical kv.2 = Ok kv.2) →
      Forall2 (λ x y, match Canonical x.2 with
        | Ok c => Ok (x.1, c) | Err e => Err (ESeed x.1 e) end = Ok y) l l) as HF.
    { induction l as [|[k v] l IH]; intros Hl; constructor.
      - rewrite (Hl (k, v)) by left. done.
      - apply IH. intros kv Hkv. apply Hl. by right. }
    apply HF. intros [k v] Hin. apply elem_of_map_to_list in Hin. by eapply Hm. }
  simpl. by rewrite list_to_map_to_list.
Qed.

Lemma seed_memo_canonical seed s :
  seed_session seed = Ok s → ∀ k v, memo s !! k = Some v → Canonical v = Ok v.
Proof.
  destruct seed as [rs|]; simpl; intros Hs k v Hk.
  2: { injection Hs as <-. simpl in Hk. by rewrite lookup_empty in Hk. }
  res_inv. subst s. simpl in Hk. apply elem_of_list_to_map_2 in Hk.
  apply res_traverse_Forall2 in Ha. apply list_elem_of_lookup in Hk as [j Hj].
  destruct (Forall2_lookup_r _ _ _ _ _ Ha Hj) as ([k' v'] & _ & Hv). simpl in Hv.
  destruct (Canonical v') eqn:E; simplify_eq. by eapply Canonical_idem.
Qed.
End outcome.

(** C1: Deterministic replay: take any completed run of a program without Graph
    nodes in which every call returned a value ([ev_ok]: none was suspended, cancelled
    or timed out; [Fork_swallows_timeout] below is a completed run with a call that
    was).  Run the program again on
    the same input, seeded with the state that run returned.  Whatever Invoker,
    world, scheduler and fuel the second run is given, if it ends it has made no
    call, left the world alone and returned the same output. *)
Theorem RunResumable_replay `{Invoker W} {W2} `{Invoker W2} c prog input seed pick fuel
    (w : W) w' evs out rs pick2 fuel2 (w2 : W2) w2' evs2 r2 :
  forallb graph_free (Body prog) = true →
  RunResumable c prog input seed pick fuel w = Some (w', evs, Ok (out, rs)) →
  forallb ev_ok evs = true → rs_suspended rs = false →
  RunResumable c prog input (Some rs) pick2 fuel2 w2 = Some (w2', evs2, r2) →
  w2' = w2 ∧ evs2 = [] ∧ r2 = Ok (out, mkRunState (rs_memo rs) (rs_control rs) false "").
Proof.
  intros Hg Hrun Hok Hsu Hrun2.
  apply RunResumable_inv in Hrun as [(e & _ & _ & ?)|(s & p & st & f & Hs & Hps & <- & Hf & _)]; [done|].
  pose proof (start_run_strict _ _ _ _ _ _ Hg Hs) as Hst.
  pose proof Hf as Hf2. apply finish_run_Ok in Hf2 as (Hn & -> & _). simpl in *.
  destruct (psteps_replay (memo (sess st)) (control (sess st)) _ _ _ _ Hps Hn Hst)
    as [(evs' & e & Hc & He & Hbad)|Hrep]; [done..| |].
  { simpl in Hc. subst evs'. rewrite forallb_forall in Hok.
    rewrite Hok in Hbad by by apply list_elem_of_In. done. }
  unfold start_run in Hs. destruct (seed_session seed) as [s0|] eqn:Eseed; [|done].
  simpl in Hs. destruct (Canonical input) as [ci|] eqn:Eci; [|done]. simplify_eq.
  pose proof (memo_canonical _ _ _ _ Hps (seed_memo_canonical _ _ Eseed)) as Hmc.
  apply RunResumable_inv in Hrun2 as [(e & He & _ & _)|(s2 & p2 & st2 & f2 & Hs2 & Hps2 & <- & -> & <-)].
  { unfold start_run in He. rewrite seed_session_canonical in He by done. simpl in He.
    by rewrite Eci in He. }
  unfold start_run in Hs2. rewrite seed_session_canonical in Hs2 by done. simpl in Hs2.
  rewrite Eci in Hs2. simplify_eq.
  destruct (psteps_replay_fwd _ _ _ _ _ Hps2 eq_refl Hrep) as [-> ->]. simpl.
  split; [done|]. split; [done|]. unfold finish_run in *.
  destruct f as [sc|sc v|e]; [..|destruct (isSuspend e)]; by simplify_eq/=.
Qed.

(** ** Concrete runs *)

(** A program that completes: parallel calls, a bounded loop, a subworkflow. *)
Definition replay_program : program := {|
  Workflow := "replay"; Params := ["in"];
  Body := [
    Fork [("a", [InvokeTool "a" "gh.get" ∅]); ("b", [InvokeTool "b" "gh.list" ∅])];
    While (BinOp "==" (Leaf (Ref ["a"])) (Leaf (Ref ["a"]))) 2
      [InvokeAgent "r" "reviewer" {[ "x" := Ref ["a"] ]} false];
    InvokeWorkflow "s" "sub" ∅ false true;
    Return (EList [Ref ["a"]; Ref ["b"]; Ref ["r"]; Ref ["s"]])]
|}.

Definition replay_result :=
  RunResumable demo_interp replay_program demo_input None (λ t, t * 3) 100 0.
Definition replay_seed : RunState :=
  match replay_result with
  | Some (_, _, Ok (_, rs)) => rs
  | _ => mkRunState ∅ ∅ false ""
  end.

Lemma RunResumable_errors_witness :
  ∃ w' evs out rs, replay_result = Some (w', evs, Ok (out, rs)) ∧ length evs = 5 ∧
    ∀ e, e ∈ evs → ev_failed e = false.
Proof.
  eexists _, _, _, _. split; [vm_compute; reflexivity|]. split; [reflexivity|].
  eapply (RunResumable_errors demo_interp replay_program demo_input None (λ t, t * 3) 100 0);
    [reflexivity|vm_compute; reflexivity].
Defined.

Lemma RunResumable_replay_witness :
  ∃ w2' evs2 out rs, RunResumable demo_interp replay_program demo_input (Some replay_seed)
      (λ _, 0) 100 41 = Some (w2', evs2, Ok (out, rs)) ∧
    w2' = 41 ∧ evs2 = [] ∧
    out = VList [VInt 0; VInt 1; VStr "reviewer"; VStr "sub"].
Proof.
  eexists _, _, _, _. split; [vm_compute; reflexivity|].
  edestruct (RunResumable_replay demo_interp replay_program demo_input None (λ t, t * 3) 100 0)
    with (pick2 := λ _ : nat, 0) (fuel2 := 100) (w2 := 41) as (Hw & He & _);
    [reflexivity|vm_compute; reflexivity|reflexivity|reflexivity
    |vm_compute; reflexivity|].
  split; [exact Hw|]. split; [exact He|]. reflexivity.
Defined.

(** *** A cancellation reported by a leaf of its own accord is swallowed

    [classifyConcurrent] takes every cancellation for the echo of a sibling's
    failure.  When the one failing branch of a Fork reports [context.Canceled] or
    [context.DeadlineExceeded] itself (the timeout of a tool), the run goes on as
    if the branch had succeeded, its binding missing. *)
Definition timeout_invoker : Invoker unit := {|
  inv_tool w _ _ uses _ := (w, if decide (uses = "slow") then Err ECanceled else Ok (VInt 1));
  inv_agent w _ _ _ _ := (w, Ok VNil);
  inv_workflow w _ _ _ _ := (w, Ok VNil);
  inv_approval w _ _ _ _ := (w, Err ESuspend);
|}.

Definition timeout_program : program := {|
  Workflow := "t"; Params := [];
  Body := [
    Fork [("a", [InvokeTool "a" "slow" ∅]); ("b", [InvokeTool "b" "fast" ∅])];
    Return (Ref ["b"])]
|}.

Theorem Fork_swallows_timeout :
  ∃ evs rs,
    @RunResumable unit timeout_invoker demo_interp timeout_program VNil None (λ _, 0) 50 tt
      = Some (tt, evs, Ok (VInt 1, rs)) ∧
    rs_suspended rs = false ∧ Exists (λ e, ev_result e = Err ECanceled) evs.
Proof.
  eexists _, _. split; [vm_compute; reflexivity|]. split; [reflexivity|].
  repeat first [apply Exists_cons_hd; reflexivity|apply Exists_cons_tl].
Qed.
