(* ===== verification/SpecTools.v ===== *)
(** * Tools, agents and workflows of the resource model ([internal/spec])

    The parts of [kinds.go] the analyses read, and the pure functions of
    [effects.go], [safety.go], [agent_tools.go] and [tools/registry.go]
    ([ParseUses]) and [tools/manifest.go] (the closed-world manifest).
    A nil resource pointer and an absent key are treated alike by every function
    of the source, so the maps hold values. *)

From S2P Require Import Prelude GoNum GoText Value.

(** ** Data ([kinds.go]) *)

Record ToolSafety := mkToolSafety {
  ts_trusted : option bool; ts_sideEffects : option bool; ts_requiresApproval : option bool
}.
Record ResolvedToolSafety := mkResolvedToolSafety {
  rs_Trusted : bool; rs_SideEffects : bool; rs_RequiresApproval : bool
}.
#[export] Instance ToolSafety_eq_dec : EqDecision ToolSafety.
Proof. solve_decision. Defined.
#[export] Instance ResolvedToolSafety_eq_dec : EqDecision ResolvedToolSafety.
Proof. solve_decision. Defined.

Record ToolOperation := mkToolOperation { op_Effects : list string; op_Schema : string }.

Record ToolSpec := mkToolSpec {
  tool_Type : string;
  tool_Safety : option ToolSafety;
  tool_Operations : gmap string ToolOperation;
  tool_OperationsDeclared : bool;
}.

Record AgentSpec := mkAgentSpec { agent_Name : string; agent_Tools : list string; agent_Policy : string }.

(** [approval.go]: the review presentation of an approval step. *)
Record WorkflowApprovalConfig := mkApprovalConfig {
  wac_Description : string; wac_RedactKeys : list string
}.
Record WorkflowApprovalValue := mkApprovalValue {
  wav_Enabled : bool; wav_Config : option WorkflowApprovalConfig
}.

Record WorkflowStep := mkStep {
  step_ID : string;
  step_Uses : string;
  step_Agent : string;
  step_Workflow : string;
  step_Approval : option WorkflowApprovalValue;
  step_With : list (string * value);
  step_Needs : list string;
  step_NeedsDeclared : bool;
  step_WholeDocument : bool;
  step_Synthetic : bool;
}.
Record WorkflowSpec := mkWorkflow {
  wf_Policy : string;
  wf_Steps : list WorkflowStep;
  wf_Output : option (list (string * value));     (* output.value *)
}.

(** A step without arguments and dependencies, a workflow without output. *)
Definition mkWorkflowStep (id uses agent workflow : string) : WorkflowStep :=
  mkStep id uses agent workflow None [] [] false false false.
Definition mkWorkflowSpec (policy : string) (steps : list WorkflowStep) : WorkflowSpec :=
  mkWorkflow policy steps None.

(** ** [ParseUses] ([tools/registry.go]) *)

Definition tool_prefix : string := "tool.".

(** [strings.TrimPrefix]. *)
Fixpoint trim_prefix (s p : string) : string :=
  match p with
  | EmptyString => s
  | String c p =>
      match s with
      | String d s' => if decide (c = d) then trim_prefix s' p else s
      | EmptyString => s
      end
  end.

Definition dot : ascii := ".".

(** [tool.<name>.<operation>]: the name is up to the first dot; both are non-empty
    after a trim. *)
Definition ParseUses (uses : string) : option (string * string) :=
  let uses := trim_space uses in
  if negb (has_prefix uses tool_prefix) then None
  else
    match cut_byte dot (String.substring 5 (String.length uses) uses) with
    | None => None
    | Some (name, op) =>
        if (name =? "")%string || (op =? "")%string then None
        else if (trim_space name =? "")%string || (trim_space op =? "")%string then None
        else Some (name, op)
    end.

(** ** Effects ([effects.go]) *)

Definition EffectDestructive : string := "destructive".

(** [EffectIdentPattern]: dotted segments, each a lower-case letter followed by
    lower-case letters, digits and underscores. *)
Definition is_lower (c : ascii) : bool := (97 <=? N_of_ascii c)%N && (N_of_ascii c <=? 122)%N.
Definition is_ident_tail (c : ascii) : bool := is_lower c || is_digit c || bool_decide (c = "_"%char).

(** [start]: the next byte must open a segment. *)
Fixpoint effect_ident_go (start : bool) (s : string) : bool :=
  match s with
  | EmptyString => negb start
  | String c s =>
      if start then is_lower c && effect_ident_go false s
      else if is_ident_tail c then effect_ident_go false s
      else bool_decide (c = dot) && effect_ident_go true s
  end.
Definition effectIdent (s : string) : bool := effect_ident_go true s.

Inductive ident_error : Type := IdentEmpty | IdentToolPrefix (id : string) | IdentInvalid (id : string).

Definition ValidateEffectIdent (id : string) : res ident_error unit :=
  let id := trim_space id in
  if (id =? "")%string then Err IdentEmpty
  else if has_prefix id tool_prefix then Err (IdentToolPrefix id)
  else if negb (effectIdent id) then Err (IdentInvalid id)
  else Ok ().

Definition ValidateOperationName (name : string) : res ident_error unit := ValidateEffectIdent name.

Definition EffectCovers (declared candidate : string) : bool :=
  let declared := trim_space declared in
  let candidate := trim_space candidate in
  if (declared =? "")%string || (candidate =? "")%string then false
  else if (declared =? candidate)%string then true
  else has_prefix candidate (declared +:+ ".").

Definition uniqueSortedEffects (l : list string) : list string :=
  sort_strings (dedup id (List.filter (λ e, negb (e =? "")%string) (trim_space <$> l))).

Definition toolHasDeclaredEffects (ts : option ToolSpec) : bool :=
  match ts with
  | None => false
  | Some ts => existsb (λ kv, existsb (λ e, negb (trim_space e =? "")%string) (op_Effects kv.2))
                 (map_to_list (tool_Operations ts))
  end.

Definition toolDeclaresEffect (ts : option ToolSpec) (ident : string) : bool :=
  match ts with
  | None => false
  | Some ts => existsb (λ kv, existsb (λ e, (trim_space e =? trim_space ident)%string)
                 (op_Effects kv.2)) (map_to_list (tool_Operations ts))
  end.

(** [ByOperation], or [None] for Unknown.  The keys are trimmed as the loop does
    (in some order, a later key replacing an earlier one of the same name). *)
Definition ResolveToolEffects (ts : option ToolSpec) : option (gmap string (list string)) :=
  if negb (toolHasDeclaredEffects ts) then None
  else match ts with
  | None => None
  | Some ts => Some (foldl (λ m kv, <[trim_space kv.1 := uniqueSortedEffects (op_Effects kv.2)]> m)
                 ∅ (map_to_list (tool_Operations ts)))
  end.

(** [None] is Unknown, the fail-closed effect. *)
Definition ResolveOperationEffects (operation : string) (ts : option ToolSpec)
    : option (list string) :=
  match ResolveToolEffects ts with
  | None => None
  | Some m =>
      match m !! trim_space operation with
      | None | Some [] => None
      | Some effects => Some effects
      end
  end.

(** ** Safety ([safety.go]) *)

Definition deriveRequiresApproval (trusted sideEffects : bool) : bool :=
  if trusted then false else if negb sideEffects then false else true.

Definition ResolveToolSafety (s : option ToolSafety) : ResolvedToolSafety :=
  match s with
  | None => mkResolvedToolSafety false true (deriveRequiresApproval false true)
  | Some s =>
      let trusted := default false (ts_trusted s) in
      let sideEffects := default true (ts_sideEffects s) in
      mkResolvedToolSafety trusted sideEffects
        (match ts_requiresApproval s with
         | Some b => b | None => deriveRequiresApproval trusted sideEffects end)
  end.

Arguments ResolveToolSafety : simpl never.

(** The block that spells out resolved flags. *)
Definition materialize (r : ResolvedToolSafety) : ToolSafety :=
  mkToolSafety (Some (rs_Trusted r)) (Some (rs_SideEffects r)) (Some (rs_RequiresApproval r)).

Definition NormalizeToolSafety (ts : ToolSpec) : ToolSpec :=
  let safety :=
    if toolDeclaresEffect (Some ts) EffectDestructive then
      let s := default (mkToolSafety None None None) (tool_Safety ts) in
      Some (match ts_sideEffects s with
            | None => mkToolSafety (ts_trusted s) (Some true) (ts_requiresApproval s)
            | Some _ => s end)
    else tool_Safety ts in
  mkToolSpec (tool_Type ts) (Some (materialize (ResolveToolSafety safety)))
    (tool_Operations ts) (tool_OperationsDeclared ts).

Definition safety_empty (s : ToolSafety) : bool :=
  match s with mkToolSafety None None None => true | _ => false end.

Definition override {A} (base over : option A) : option A :=
  match over with Some _ => over | None => base end.

Definition MergeToolSafety (author mcp : option ToolSafety) : option ToolSafety :=
  match author, mcp with
  | None, None => None
  | _, _ =>
      let m := default (mkToolSafety None None None) mcp in
      let a := default (mkToolSafety None None None) author in
      let out := mkToolSafety (override (ts_trusted m) (ts_trusted a))
        (override (ts_sideEffects m) (ts_sideEffects a))
        (override (ts_requiresApproval m) (ts_requiresApproval a)) in
      if safety_empty out then None else Some out
  end.

Inductive safetyField := fieldTrusted | fieldSideEffects | fieldRequiresApproval.

Definition safetyFieldPtr (s : ToolSafety) (f : safetyField) : option bool :=
  match f with
  | fieldTrusted => ts_trusted s
  | fieldSideEffects => ts_sideEffects s
  | fieldRequiresApproval => ts_requiresApproval s
  end.
Definition restrictiveValue (f : safetyField) : bool :=
  match f with fieldTrusted => false | _ => true end.
Definition permissiveValue (f : safetyField) : bool := negb (restrictiveValue f).
Definition restrictiveBool (v : bool) (f : safetyField) : bool :=
  match f with fieldTrusted => negb v | _ => v end.

Fixpoint merge_bool_go (f : safetyField) (parts : list ToolSafety) (setCount total : nat)
    : option bool :=
  match parts with
  | [] =>
      if (setCount =? 0)%nat then None
      else if (setCount =? total)%nat then Some (permissiveValue f) else None
  | p :: parts =>
      match safetyFieldPtr p f with
      | None => merge_bool_go f parts setCount total
      | Some v => if restrictiveBool v f then Some (restrictiveValue f)
                  else merge_bool_go f parts (S setCount) total
      end
  end.
Definition mergeBoolFieldConservative (parts : list ToolSafety) (f : safetyField) : option bool :=
  merge_bool_go f parts 0 (length parts).

Definition MergeMCPToolSafetyFlags (flags : list (option ToolSafety)) : option ToolSafety :=
  let parts := omap id flags in
  match parts with
  | [] => None
  | _ =>
      let out := mkToolSafety (mergeBoolFieldConservative parts fieldTrusted)
        (mergeBoolFieldConservative parts fieldSideEffects)
        (mergeBoolFieldConservative parts fieldRequiresApproval) in
      if safety_empty out then None else Some out
  end.

(** ** Agent tool grants ([agent_tools.go]) *)

(** [strings.ToLower], up to the runes whose lower case is not ASCII: those are
    kept, because every caller compares the result with ASCII text.  Besides
    the letters [A-Z] two runes have an ASCII lower case, U+0130 and U+212A. *)
Definition lower_ascii (c : ascii) : ascii :=
  if (65 <=? N_of_ascii c)%N && (N_of_ascii c <=? 90)%N then ascii_of_N (N_of_ascii c + 32) else c.
Fixpoint to_lower (s : string) : string :=
  match s with
  | EmptyString => EmptyString
  | String "196" (String "176" s) => String "i" (to_lower s)
  | String "226" (String "132" (String "170" s)) => String "k" (to_lower s)
  | String c s => String (lower_ascii c) (to_lower s)
  end.

Record AdvertisedAgentTool := mkAdvertised { adv_Name : string; adv_Uses : string }.

Inductive agent_error : Type :=
  | NoToolsInGraph | BadEntry (entry : string) | UnknownTool (name : string)
  | HTTPNeedsPin (name : string) | NameCollision (name prev uses : string).

Definition is_upper (c : ascii) : bool := (65 <=? N_of_ascii c)%N && (N_of_ascii c <=? 90)%N.
Definition name_char (c : ascii) : bool :=
  is_lower c || is_upper c || is_digit c || bool_decide (c = "_"%char) || bool_decide (c = "-"%char).

(** One byte per rune: the byte itself when allowed, else an underscore. *)
Definition name_rune (r : chars + ascii) : ascii :=
  match r with inl [c] => if name_char c then c else "_"%char | _ => "_"%char end.

Definition AgentToolName (name : string) : string :=
  let l := name_rune <$> runes (String.list_ascii_of_string name) in
  let l := match l with [] => String.list_ascii_of_string "tool" | _ => l end in
  String.string_of_list_ascii (take 128 l).

(** The tool's name and the pinned uses string, [""] when there is no pin. *)
Definition parseAgentToolEntry (entry : string) : res agent_error (string * string) :=
  let entry := trim_space entry in
  if has_prefix entry tool_prefix then
    let rest := trim_prefix entry tool_prefix in
    if (rest =? "")%string then Err (BadEntry entry)
    else match cut_byte dot rest with
    | None => Ok (rest, "")
    | Some (name, op) =>
        if (name =? "")%string || (trim_space op =? "")%string then Err (BadEntry entry)
        else Ok (name, tool_prefix +:+ (name +:+ ("." +:+ op)))
    end
  else Ok (entry, "").

Definition uses_of (name op : string) : string := tool_prefix +:+ (name +:+ ("." +:+ op)).

Definition tool_type (ts : ToolSpec) : string := to_lower (trim_space (tool_Type ts)).

Definition advertisedAgentUses (name : string) (ts : ToolSpec) : res agent_error string :=
  if (tool_type ts =? "native")%string then Ok (uses_of name "echo")
  else if (tool_type ts =? "http")%string then Err (HTTPNeedsPin name)
  else Ok (uses_of name "default").

Definition operationFromUses (name uses : string) : string :=
  let prefix := tool_prefix +:+ (name +:+ ".") in
  if has_prefix uses prefix
  then String.substring (String.length prefix) (String.length uses) uses else "".

Definition httpOperationIsMethodPath (op : string) : bool :=
  let op := trim_space op in
  if (op =? "")%string || (to_lower op =? "default")%string then false
  else
    let verb := match cut_byte dot op with Some (v, _) => v | None => op end in
    str_mem (to_lower verb) ["get"; "post"; "put"; "delete"; "patch"].

Definition validatePinnedAgentUses (name uses : string) (ts : ToolSpec) : res agent_error unit :=
  if negb (tool_type ts =? "http")%string then Ok ()
  else if httpOperationIsMethodPath (operationFromUses name uses) then Ok ()
  else Err (HTTPNeedsPin name).

(** The uses string one entry of [spec.tools] grants. *)
Definition resolve_entry (tools : gmap string ToolSpec) (entry : string)
    : res agent_error (string * string) :=
  p ← parseAgentToolEntry entry;
  match tools !! p.1 with
  | None => Err (UnknownTool p.1)
  | Some ts =>
      if (p.2 =? "")%string then uses ← advertisedAgentUses p.1 ts; mret (p.1, uses)
      else _ ← validatePinnedAgentUses p.1 p.2 ts; mret (p.1, p.2)
  end.

(** The loop that names the advertised tools. *)
Fixpoint name_entries (all : list (string * string)) (seen : list (string * string))
    (es : list (string * string)) : res agent_error (list AdvertisedAgentTool) :=
  match es with
  | [] => Ok []
  | (name, uses) :: es =>
      let handle := if (1 <? length (List.filter (λ e, (e.1 =? name)%string) all))%nat
                    then name +:+ ("." +:+ operationFromUses name uses) else name in
      let defName := AgentToolName handle in
      match list_find (λ p, p.1 = defName) seen with
      | Some (_, p) => Err (NameCollision defName p.2 uses)
      | None => out ← name_entries all ((defName, uses) :: seen) es;
                mret (mkAdvertised defName uses :: out)
      end
  end.

Definition ResolveAgentAdvertisedTools (agent : option AgentSpec)
    (tools : option (gmap string ToolSpec)) : res agent_error (list AdvertisedAgentTool) :=
  match agent with
  | None => Ok []
  | Some a =>
      match agent_Tools a with
      | [] => Ok []
      | listed =>
          match tools with
          | None => Err NoToolsInGraph
          | Some tools =>
              es ← res_traverse (resolve_entry tools)
                (List.filter (λ e, negb (trim_space e =? "")%string) listed);
              let es := dedup snd es in name_entries es [] es
          end
      end
  end.

(** ** The capability manifest ([tools/manifest.go]) *)

Record ManifestOperation := mkManifestOperation {
  mo_Name : string; mo_Effects : list string; mo_Schema : string
}.
Record CapabilityManifest := mkCapabilityManifest {
  cm_Tool : string; cm_Closed : bool; cm_Operations : list ManifestOperation
}.

Definition DeriveManifest (name : string) (ts : option ToolSpec) : CapabilityManifest :=
  match ts with
  | None => mkCapabilityManifest (trim_space name) false []
  | Some s =>
      let ops := map_to_list (tool_Operations s) in
      let effects op := match ResolveToolEffects ts with
                        | None => [] | Some m => default [] (m !! op) end in
      mkCapabilityManifest (trim_space name)
        (tool_OperationsDeclared s || negb (bool_decide (ops = [])))
        (sort_by mo_Name ((λ kv,
           let op := trim_space kv.1 in
           mkManifestOperation op (effects op) (trim_space (op_Schema kv.2))) <$> ops))
  end.

Definition Allows (m : CapabilityManifest) (op : string) : bool :=
  if negb (cm_Closed m) then true
  else existsb (λ mo, (mo_Name mo =? trim_space op)%string) (cm_Operations m).

Definition ManifestFor (tools : gmap string ToolSpec) (name : string) : CapabilityManifest :=
  DeriveManifest (trim_space name) (tools !! trim_space name).

(** ** Properties *)

Lemma has_prefix_refl s : has_prefix s s = true.
Proof. apply has_prefix_spec. exists "". by rewrite string_app_nil_r. Qed.

(** *** [ParseUses] and its printer *)

Definition rev_space_seqs : list chars := reverse <$> all_space_seqs.

Lemma trim_space_fix s :
  strip_any all_space_seqs (String.list_ascii_of_string s) = None →
  strip_any rev_space_seqs (reverse (String.list_ascii_of_string s)) = None → trim_space s = s.
Proof.
  intros Hl Hr. unfold trim_space, trim_left, trim_right. rewrite (trim_go_id _ _ _ Hl).
  fold rev_space_seqs. rewrite (trim_go_id _ _ _ Hr), reverse_involutive.
  apply String.string_of_list_ascii_of_string.
Qed.

(** A trimmed string does not end in white space. *)
Lemma trimmed_right s :
  trim_space s = s → strip_any rev_space_seqs (reverse (String.list_ascii_of_string s)) = None.
Proof.
  intros Hs. set (l := String.list_ascii_of_string s).
  assert (trim_right (trim_left l) = l) as Ht.
  { unfold l. rewrite <-Hs at 2. unfold trim_space. by rewrite String.list_ascii_of_string_of_list_ascii. }
  destruct (trim_go_suffix (length l) all_space_seqs l) as [p Hp]. fold (trim_left l) in Hp.
  destruct (trim_right_prefix (trim_left l)) as [q Hq]. rewrite Ht in Hq.
  assert (length p = 0 ∧ length q = 0) as [Hp0 Hq0].
  { apply (f_equal length) in Hp, Hq. rewrite length_app in Hp, Hq. lia. }
  apply nil_length_inv in Hp0, Hq0. subst p q. simpl in Hp. rewrite <-Hp in Ht.
  rewrite <-Ht. unfold trim_right. rewrite reverse_involutive. apply trim_go_done.
  - apply Forall_fmap. eapply Forall_impl; [apply all_space_seqs_ne|].
    intros x Hx Heq. apply Hx. simpl in Heq. rewrite <-(reverse_involutive x). by rewrite Heq.
  - by rewrite length_reverse.
Qed.

(** White space is not recognised across a byte no white space contains. *)
Lemma strip_any_guard ps l c rest :
  Forall (λ p, c ∉ p) ps → strip_any ps l = None → strip_any ps (l ++ c :: rest) = None.
Proof.
  rewrite Forall_forall, !strip_any_None. intros Hc H p l' Hp Heq.
  apply app_eq_inv in Heq as [(k & -> & _)|(k & -> & Hk)]; [by eapply H|].
  destruct k as [|d k]; simpl in Hk.
  - eapply (H (l ++ []) []); [done|by rewrite !app_nil_r].
  - injection Hk as <- _. eapply Hc; [done|]. apply elem_of_app. right. left.
Qed.

Lemma trim_prefix_app p r : trim_prefix (p +:+ r) p = r.
Proof.
  induction p as [|c p IH]; [by destruct r|]. rewrite string_app_cons. simpl.
  by rewrite decide_True by done.
Qed.

Lemma ParseUses_eq uses r :
  trim_space uses = tool_prefix +:+ r →
  ParseUses uses =
    match cut_byte dot r with
    | None => None
    | Some (name, op) =>
        if (name =? "")%string || (op =? "")%string then None
        else if (trim_space name =? "")%string || (trim_space op =? "")%string then None
        else Some (name, op)
    end.
Proof.
  intros Hr. unfold ParseUses. rewrite Hr.
  rewrite (proj2 (has_prefix_spec (tool_prefix +:+ r) tool_prefix)) by (by exists r). cbn [negb].
  change 5%nat with (String.length tool_prefix). rewrite substring_skip, substring_all; [done|].
  rewrite string_app_length. lia.
Qed.

Lemma ParseUses_prefix uses tool op :
  ParseUses uses = Some (tool, op) → trim_space uses = uses_of tool op.
Proof.
  intros H. destruct (has_prefix (trim_space uses) tool_prefix) eqn:Ep.
  - apply has_prefix_spec in Ep as [r Hr]. rewrite Hr. rewrite (ParseUses_eq _ r Hr) in H.
    destruct (cut_byte dot r) as [[a b]|] eqn:Ec; [|done].
    apply cut_byte_Some in Ec as [-> _]. repeat case_match; try done. by injection H as <- <-.
  - unfold ParseUses in H. by rewrite Ep in H.
Qed.

Lemma ParseUses_parts uses tool op :
  ParseUses uses = Some (tool, op) → str_contains_byte dot tool = false ∧ tool ≠ "".
Proof.
  unfold ParseUses. destruct (negb _); [done|].
  destruct (cut_byte dot _) as [[a b]|] eqn:Ec; [|done]. apply cut_byte_Some in Ec as [_ Hd].
  destruct (String.eqb_spec a "") as [|Ha]; [done|]. simpl.
  repeat case_match; try done. by intros [= <- <-].
Qed.

Lemma list_ascii_app a b :
  String.list_ascii_of_string (a +:+ b) = String.list_ascii_of_string a ++ String.list_ascii_of_string b.
Proof. induction a as [|c a IH]; [done|]. rewrite string_app_cons. simpl. by rewrite IH. Qed.

Lemma trim_uses_of tool op : trim_space op = op → trim_space (uses_of tool op) = uses_of tool op.
Proof.
  intros Hop. apply trim_space_fix.
  - reflexivity.
  - assert (reverse (String.list_ascii_of_string (uses_of tool op)) =
      reverse (String.list_ascii_of_string op) ++ "."%char ::
      reverse (String.list_ascii_of_string tool) ++ reverse (String.list_ascii_of_string tool_prefix))
      as ->.
    { unfold uses_of. by rewrite !list_ascii_app, !reverse_app, <-!app_assoc. }
    apply strip_any_guard; [|by apply trimmed_right].
    apply (bool_decide_unpack _). vm_compute. exact I.
Qed.

Lemma ParseUses_uses_of tool op :
  str_contains_byte dot tool = false → trim_space tool ≠ "" → trim_space op = op → op ≠ "" →
  ParseUses (uses_of tool op) = Some (tool, op).
Proof.
  intros Hd Ht Hop Hne. rewrite (ParseUses_eq _ (tool +:+ String dot op)).
  - rewrite (proj2 (cut_byte_Some dot (tool +:+ String dot op) tool op)) by done.
    assert (tool ≠ "") by (by intros ->). rewrite Hop.
    by rewrite !(proj2 (String.eqb_neq _ _)) by done.
  - by rewrite trim_uses_of.
Qed.

(** Uses strings round-trip: parsing the printed form of a tool name without dots
    and a trimmed operation gives them back, and what parses is, up to
    surrounding blanks, the printed form of its parts. *)
Theorem ParseUses_roundtrip tool op uses :
  (str_contains_byte dot tool = false → trim_space tool ≠ "" → trim_space op = op → op ≠ "" →
   ParseUses (uses_of tool op) = Some (tool, op)) ∧
  (ParseUses uses = Some (tool, op) → trim_space uses = uses_of tool op).
Proof. split; [apply ParseUses_uses_of|apply ParseUses_prefix]. Qed.

Lemma ParseUses_roundtrip_witness :
  uses_of "github" "pull_request.get" = "tool.github.pull_request.get" ∧
  ParseUses (uses_of "github" "pull_request.get") = Some ("github", "pull_request.get").
Proof.
  split; [reflexivity|].
  apply (proj1 (ParseUses_roundtrip "github" "pull_request.get" ""));
    [reflexivity|vm_compute; discriminate|reflexivity|discriminate].
Defined.

(** Coverage is transitive: a permit that covers a permit that covers an
    effect covers the effect; so widening a permit to a dotted parent never
    uncovers anything. *)
Theorem EffectCovers_trans a b c :
  EffectCovers a b = true → EffectCovers b c = true → EffectCovers a c = true.
Proof.
  unfold EffectCovers. generalize (trim_space a), (trim_space b), (trim_space c).
  clear a b c. intros a b c.
  destruct ((a =? "")%string) eqn:Ea; [done|]. destruct ((b =? "")%string) eqn:Eb; [done|].
  destruct ((c =? "")%string) eqn:Ec; [done|]. simpl.
  destruct (String.eqb_spec a b) as [->|Hab]; [done|]. intros Hpab.
  destruct (String.eqb_spec b c) as [->|Hbc].
  - intros _. by rewrite Hpab, (proj2 (String.eqb_neq a c)).
  - intros Hpbc. case_match; [done|].
    apply has_prefix_spec in Hpab as [r ->]. apply has_prefix_spec in Hpbc as [r' ->].
    apply has_prefix_spec. exists (r +:+ ("." +:+ r')). by rewrite !string_app_assoc.
Qed.

Lemma EffectCovers_trans_witness :
  EffectCovers "github" "github.read" = true ∧ EffectCovers "github.read" "github.read.pr" = true ∧
  EffectCovers "github" "githubx" = false ∧ EffectCovers "github" "github.read.pr" = true.
Proof.
  split; [reflexivity|]. split; [reflexivity|]. split; [reflexivity|].
  apply (EffectCovers_trans "github" "github.read" "github.read.pr"); reflexivity.
Defined.

Lemma ResolveOperationEffects_ne op ts : ResolveOperationEffects op ts ≠ Some [].
Proof.
  unfold ResolveOperationEffects. destruct (ResolveToolEffects ts) as [m|]; [|done].
  by destruct (m !! _) as [[|e l]|].
Qed.

(** A declared operation never has an empty effect set that reads as "no
    effects": whatever the tool declares, an operation resolves either to a
    non-empty set of effects or to the fail-closed unknown. *)
Theorem ResolveOperationEffects_closed op ts effects :
  ResolveOperationEffects op ts = Some effects → effects ≠ [].
Proof. intros H ->. by apply (ResolveOperationEffects_ne op ts). Qed.

Definition gh_tool : ToolSpec := mkToolSpec "http" None
  {[ "get" := mkToolOperation [" github.read"; "github.read"] "";
     "merge" := mkToolOperation [] "" ]} true.
Lemma ResolveOperationEffects_closed_witness :
  ResolveOperationEffects "merge" (Some gh_tool) = None ∧
  ∃ l, ResolveOperationEffects "get" (Some gh_tool) = Some l ∧ l = ["github.read"] ∧ l ≠ [].
Proof.
  split; [vm_compute; reflexivity|]. exists ["github.read"].
  assert (ResolveOperationEffects "get" (Some gh_tool) = Some ["github.read"]) as E
    by (vm_compute; reflexivity).
  split; [exact E|]. split; [reflexivity|].
  exact (ResolveOperationEffects_closed _ _ _ E).
Defined.

(** [r] is at least as restrictive as [r'] in every dimension. *)
Definition restrictive_le (r' r : ResolvedToolSafety) : Prop :=
  (rs_Trusted r = true → rs_Trusted r' = true) ∧
  (rs_SideEffects r' = true → rs_SideEffects r = true) ∧
  (rs_RequiresApproval r' = true → rs_RequiresApproval r = true).

Lemma merge_bool_restrictive f parts n total :
  (∃ p, p ∈ parts ∧ safetyFieldPtr p f = Some (restrictiveValue f)) →
  merge_bool_go f parts n total = Some (restrictiveValue f).
Proof.
  intros (p & Hp & Hv). revert n. induction parts as [|q parts IH]; intros n;
    [by apply elem_of_nil in Hp|]. simpl.
  apply elem_of_cons in Hp as [->|Hp].
  - rewrite Hv. by destruct f.
  - destruct (safetyFieldPtr q f) as [v|]; [|auto]. destruct (restrictiveBool v f); auto.
Qed.

Lemma merge_bool_permissive f parts n total :
  n + length parts ≤ total → merge_bool_go f parts n total = Some (permissiveValue f) →
  n + length parts = total ∧ ∀ p, p ∈ parts → safetyFieldPtr p f = Some (permissiveValue f).
Proof.
  revert n. induction parts as [|q parts IH]; intros n Hn; simpl in *.
  - repeat case_match; try done. intros _. split; [|intros p Hp; by apply elem_of_nil in Hp].
    match goal with H : (n =? total)%nat = true |- _ => apply Nat.eqb_eq in H end. lia.
  - destruct (safetyFieldPtr q f) as [v|] eqn:Ev.
    + destruct (restrictiveBool v f) eqn:Er; [by destruct f|]. intros Hm.
      destruct (IH (S n) ltac:(lia) Hm) as [? Hall]. split; [lia|].
      intros p [->|Hp]%elem_of_cons; [|auto]. rewrite Ev. by destruct f, v.
    + intros Hm. destruct (IH n ltac:(lia) Hm). lia.
Qed.

Lemma merge_field f parts p :
  p ∈ parts →
  match mergeBoolFieldConservative parts f with
  | Some v => v = restrictiveValue f ∨ safetyFieldPtr p f = Some (permissiveValue f)
  | None => safetyFieldPtr p f ≠ Some (restrictiveValue f)
  end.
Proof.
  intros Hp. unfold mergeBoolFieldConservative.
  destruct (merge_bool_go f parts 0 (length parts)) as [v|] eqn:E.
  - destruct (decide (v = restrictiveValue f)) as [|Hne]; [by left|right].
    assert (v = permissiveValue f) as -> by (destruct f, v; first [reflexivity|by destruct Hne]).
    eapply merge_bool_permissive; [|exact E|done]. lia.
  - intros Hr. rewrite merge_bool_restrictive in E; [done|by exists p].
Qed.

(** The merge of the safety flags of one server's tools is fail-closed over
    the descriptors that carry flags: the merged block resolves to something at
    least as restrictive as every one of them, in trust, side effects and
    approval. *)
Theorem MergeMCPToolSafetyFlags_restrictive flags p :
  Some p ∈ flags →
  restrictive_le (ResolveToolSafety (Some p)) (ResolveToolSafety (MergeMCPToolSafetyFlags flags)).
Proof.
  intros Hp. unfold MergeMCPToolSafetyFlags.
  assert (p ∈ omap id flags) as Hin by (apply list_elem_of_omap; by exists (Some p)).
  destruct (omap id flags) as [|q parts] eqn:Ef; [by apply elem_of_nil in Hin|].
  rewrite <-Ef in *. clear Ef.
  pose proof (merge_field fieldTrusted _ _ Hin) as Ht.
  pose proof (merge_field fieldSideEffects _ _ Hin) as Hs.
  pose proof (merge_field fieldRequiresApproval _ _ Hin) as Hr.
  destruct p as [pt psd pr]. simpl in *. unfold restrictive_le, ResolveToolSafety.
  destruct (mergeBoolFieldConservative _ fieldTrusted) as [[]|],
    (mergeBoolFieldConservative _ fieldSideEffects) as [[]|],
    (mergeBoolFieldConservative _ fieldRequiresApproval) as [[]|]; simpl;
    destruct pt as [[]|], psd as [[]|], pr as [[]|]; simpl in *; naive_solver.
Qed.

Definition permissive_flags : ToolSafety := mkToolSafety (Some true) (Some false) (Some false).
Lemma MergeMCPToolSafetyFlags_restrictive_witness :
  rs_Trusted (ResolveToolSafety (MergeMCPToolSafetyFlags
    [Some permissive_flags; Some (mkToolSafety None (Some true) None)])) = false ∧
  restrictive_le (ResolveToolSafety (Some (mkToolSafety None (Some true) None)))
    (ResolveToolSafety (MergeMCPToolSafetyFlags
      [Some permissive_flags; Some (mkToolSafety None (Some true) None)])).
Proof.
  split; [reflexivity|]. apply MergeMCPToolSafetyFlags_restrictive. right. left.
Defined.

(** A descriptor without any flag is dropped before the merge, so next to one
    permissive descriptor it inherits trust it never declared: alone, the same
    descriptor resolves to the fail-closed defaults. *)
Theorem MergeMCPToolSafetyFlags_drops_unflagged :
  ¬ restrictive_le (ResolveToolSafety None)
    (ResolveToolSafety (MergeMCPToolSafetyFlags [Some permissive_flags; None])).
Proof. intros (Ht & _ & _). by specialize (Ht eq_refl). Qed.

(** Normalizing a tool's safety block is idempotent and keeps what the block
    resolves to, except that a declared [destructive] effect turns an omitted
    [sideEffects] into true. *)
Theorem NormalizeToolSafety_idemp ts :
  NormalizeToolSafety (NormalizeToolSafety ts) = NormalizeToolSafety ts ∧
  (toolDeclaresEffect (Some ts) EffectDestructive = false →
   ResolveToolSafety (tool_Safety (NormalizeToolSafety ts)) = ResolveToolSafety (tool_Safety ts)).
Proof.
  assert (∀ r, ResolveToolSafety (Some (materialize r)) = r) as Hres by (by intros []).
  assert (∀ ts r, tool_Safety ts = Some (materialize r) → NormalizeToolSafety ts = ts) as Hfix.
  { intros [ty sf ops od] r Hsf. simpl in Hsf. subst sf. unfold NormalizeToolSafety. simpl.
    destruct (existsb _ (map_to_list _)); simpl; by rewrite Hres. }
  split; [by eapply Hfix|].
  intros Hd. unfold NormalizeToolSafety. rewrite Hd. simpl. by rewrite Hres.
Qed.

Lemma NormalizeToolSafety_idemp_witness :
  ResolveToolSafety (tool_Safety (NormalizeToolSafety gh_tool)) = mkResolvedToolSafety false true true.
Proof.
  rewrite (proj2 (NormalizeToolSafety_idemp gh_tool)); [reflexivity|]. vm_compute. reflexivity.
Defined.

(** ** Advertised tools *)

Lemma name_entries_spec all seen es out :
  name_entries all seen es = Ok out →
  adv_Uses <$> out = es.*2 ∧ NoDup (adv_Name <$> out) ∧
  (∀ a, a ∈ out → ∃ handle, adv_Name a = AgentToolName handle) ∧
  (∀ a p, a ∈ out → p ∈ seen → adv_Name a ≠ p.1).
Proof.
  revert seen out. induction es as [|[name uses] es IH]; intros seen out H; simpl in H.
  { injection H as <-. split_and!; [done|constructor|intros a Ha; by apply elem_of_nil in Ha|].
    intros a p Ha. by apply elem_of_nil in Ha. }
  match type of H with context [AgentToolName ?h] => set (handle := h) in * end.
  destruct (list_find (λ p, p.1 = AgentToolName handle) seen) as [[]|] eqn:Ef; [done|].
  res_inv. subst out. destruct (IH _ _ Ha) as (Hu & Hnd & Hn & Hs).
  apply list_find_None in Ef. rewrite Forall_forall in Ef. simpl. split_and!.
  - by f_equal.
  - constructor; [|done]. intros (b & Hb & Hin)%list_elem_of_fmap.
    apply (Hs b (AgentToolName handle, uses)); [done|left|done].
  - intros b [->|Hb]%elem_of_cons; [by exists handle|auto].
  - intros b p [->|Hb]%elem_of_cons Hp; [|eapply Hs; [done|by right]].
    simpl. intros Heq. by apply (Ef p Hp).
Qed.

Definition legal_tool_name (s : string) : Prop :=
  let l := String.list_ascii_of_string s in
  1 ≤ length l ≤ 128 ∧ Forall (λ c, name_char c = true) l.

Lemma AgentToolName_legal s : legal_tool_name (AgentToolName s).
Proof.
  unfold legal_tool_name, AgentToolName.
  rewrite String.list_ascii_of_string_of_list_ascii.
  assert (∀ r, name_char (name_rune r) = true) as Hr.
  { intros [[|c [|]]|]; simpl; try done. by destruct (name_char c) eqn:E. }
  destruct (name_rune <$> runes (String.list_ascii_of_string s)) as [|c l] eqn:E.
  - vm_compute. split; [lia|]. repeat constructor.
  - rewrite length_take. split; [cbn [length]; lia|]. apply Forall_take. rewrite <-E.
    apply Forall_fmap, Forall_forall. intros r _. apply Hr.
Qed.

(** When the grants of an agent resolve, the tool names shown to the model are
    pairwise distinct and legal for every provider (1 to 128 characters of
    [A-Za-z0-9_-]), and the operations behind them are pairwise distinct: no two
    grants are confused at dispatch. *)
Theorem ResolveAgentAdvertisedTools_distinct agent tools out :
  ResolveAgentAdvertisedTools agent tools = Ok out →
  NoDup (adv_Name <$> out) ∧ NoDup (adv_Uses <$> out) ∧
  ∀ a, a ∈ out → legal_tool_name (adv_Name a).
Proof.
  unfold ResolveAgentAdvertisedTools. intros H.
  assert (∀ o : list AdvertisedAgentTool, Ok (E := agent_error) [] = Ok o →
    NoDup (adv_Name <$> o) ∧ NoDup (adv_Uses <$> o) ∧
    ∀ a, a ∈ o → legal_tool_name (adv_Name a)) as Hnil.
  { intros o [= <-]. split_and!; [constructor..|]. intros a Ha. by apply elem_of_nil in Ha. }
  destruct agent as [a|]; [|auto]. destruct (agent_Tools a) as [|e l]; [auto|].
  destruct tools as [tools|]; [|done]. res_inv.
  apply name_entries_spec in H as (Hu & Hnd & Hn & _). split_and!; [done| |].
  - rewrite Hu. apply NoDup_dedup_go.
  - intros b Hb. destruct (Hn b Hb) as [handle ->]. apply AgentToolName_legal.
Qed.

Definition agent_grants : AgentSpec :=
  mkAgentSpec "rev" ["ws"; "tool.gh.get"; " tool.gh.merge "; "tool.gh.get"] "".
Definition grant_tools : gmap string ToolSpec :=
  {[ "ws" := mkToolSpec "native" None ∅ false; "gh" := mkToolSpec "mcp" None ∅ false ]}.
Lemma ResolveAgentAdvertisedTools_distinct_witness :
  ∃ out, ResolveAgentAdvertisedTools (Some agent_grants) (Some grant_tools) = Ok out ∧
    adv_Name <$> out = ["ws"; "gh_get"; "gh_merge"] ∧ NoDup (adv_Name <$> out).
Proof.
  eexists. split; [vm_compute; reflexivity|]. split; [reflexivity|].
  refine (proj1 (ResolveAgentAdvertisedTools_distinct (Some agent_grants) (Some grant_tools) _ _)).
  vm_compute. reflexivity.
Defined.

(** The manifest is a closed world: an operation is allowed exactly when the
    tool declares no manifest at all (no operation and no empty [operations:]
    block), or the manifest declares an operation of that trimmed name. *)
Theorem Allows_iff name ts op :
  Allows (DeriveManifest name ts) op = true ↔
  match ts with
  | None => True
  | Some s =>
      (tool_OperationsDeclared s = false ∧ tool_Operations s = ∅) ∨
      ∃ k o, tool_Operations s !! k = Some o ∧ trim_space k = trim_space op
  end.
Proof.
  destruct ts as [s|]; [|done]. unfold DeriveManifest, Allows. simpl.
  destruct (tool_OperationsDeclared s || negb (bool_decide (map_to_list (tool_Operations s) = [])))
    eqn:Ec; simpl.
  - rewrite existsb_True. split.
    + intros (mo & Hin & Hmo). bool_inv. right.
      apply elem_of_sort_by, list_elem_of_fmap in Hin as ([k o] & -> & Hin). simpl in *.
      exists k, o. split; [by apply elem_of_map_to_list|done].
    + intros [[Hd He]|(k & o & Hk & Heq)].
      { rewrite Hd, He, map_to_list_empty in Ec. done. }
      eexists. split; [apply elem_of_sort_by, list_elem_of_fmap; exists (k, o);
        split; [done|by apply elem_of_map_to_list]|]. simpl. by apply String.eqb_eq.
  - split; [|done]. intros _. bool_inv. left. split; [done|]. by apply map_to_list_empty_iff.
Qed.
