(* ===== verification/SchemaLookup.v ===== *)
(** * Static types of JSON Schema paths ([internal/schema/document.go])

    The lookup that types a property path of a Draft 2020-12 schema, and the flow
    rule of step wiring.  A schema is the decoded JSON value.  Compiling and
    matching a [patternProperties] expression is a parameter ([None]: it does not
    compile); loading a document from a file is left out.

    The validator of the program is a third-party library.  What the lookup relies
    on is stated as the laws of a validity predicate ([draft2020]): the documented
    meaning of the keywords the lookup reads. *)

From S2P Require Import Prelude GoNum GoText Value SpecTools.

Local Open Scope nat_scope.

(** ** Types *)

Inductive JSONType :=
  | TypeNull | TypeBoolean | TypeObject | TypeArray | TypeNumber | TypeInteger | TypeString.

#[export] Instance JSONType_eq_dec : EqDecision JSONType.
Proof. solve_decision. Defined.
Definition type_index (t : JSONType) : nat :=
  match t with
  | TypeNull => 0 | TypeBoolean => 1 | TypeObject => 2 | TypeArray => 3
  | TypeNumber => 4 | TypeInteger => 5 | TypeString => 6
  end.
Definition type_of_index (n : nat) : option JSONType :=
  [TypeNull; TypeBoolean; TypeObject; TypeArray; TypeNumber; TypeInteger; TypeString] !! n.
#[export] Instance JSONType_countable : Countable JSONType.
Proof. apply (inj_countable type_index type_of_index). by intros []. Defined.

(** [isJSONType], with the type the name stands for. *)
Definition isJSONType (s : string) : option JSONType :=
  if (s =? "null")%string then Some TypeNull
  else if (s =? "boolean")%string then Some TypeBoolean
  else if (s =? "object")%string then Some TypeObject
  else if (s =? "array")%string then Some TypeArray
  else if (s =? "number")%string then Some TypeNumber
  else if (s =? "integer")%string then Some TypeInteger
  else if (s =? "string")%string then Some TypeString
  else None.

(** Empty: the schema does not constrain the type. *)
Abbreviation TypeSet := (gset JSONType).

Record LookupResult := mkLookup {
  Types : TypeSet;
  Known : bool;
  Missing : bool;
  Impossible : bool;
}.
Definition any_result : LookupResult := mkLookup ∅ false false false.
Definition missing_result : LookupResult := mkLookup ∅ false true false.
Definition never_result : LookupResult := mkLookup ∅ false false true.

Definition Compatible (producer consumer : TypeSet) : bool :=
  bool_decide (producer = ∅) || bool_decide (consumer = ∅) ||
  forallb (λ t, bool_decide (t ∈ consumer) ||
    bool_decide (t = TypeInteger) && bool_decide (TypeNumber ∈ consumer)) (elements producer).

Definition CompatibleLookup (producer consumer : LookupResult) : bool :=
  if Impossible producer then true
  else if Impossible consumer then false
  else Compatible (Types producer) (Types consumer).

Definition intersectTypes (a b : TypeSet) : TypeSet :=
  filter (λ t, t ∈ b ∨ (t = TypeInteger ∧ TypeNumber ∈ b)) a ∪
  (if decide (TypeNumber ∈ a ∧ TypeInteger ∈ b) then {[TypeInteger]} else ∅).

Definition extractTypes (node : list (string * value)) : TypeSet :=
  match map_get node "type" with
  | Some (VStr s) => match isJSONType s with Some t => {[t]} | None => ∅ end
  | Some (VList l) =>
      list_to_set (omap (λ e, match e with VStr s => isJSONType s | _ => None end) l)
  | _ => ∅
  end.

(** ** Numbers and pointers *)

Definition isJSONIndex (s : string) : bool := match atoi s with Some _ => true | None => false end.

(** [strings.ReplaceAll] of the two bytes [a], [b] by [c]. *)
Fixpoint replace_pair (a b c : ascii) (s : string) : string :=
  match s with
  | "" => ""
  | String x s' =>
      match s' with
      | "" => s
      | String y t =>
          if decide (x = a ∧ y = b) then String c (replace_pair a b c t)
          else String x (replace_pair a b c s')
      end
  end.

(** The target of a [JSON] pointer; array elements are addressed by index. *)
Fixpoint pointer_walk (cur : value) (parts : list string) : option value :=
  match parts with
  | [] => Some cur
  | p :: parts =>
      let p := replace_pair "~" "0" "~" (replace_pair "~" "1" "/" p) in
      match cur with
      | VMap m => match map_get m p with Some x => pointer_walk x parts | None => None end
      | VList l =>
          match atoi p with
          | Some i =>
              if (i <? 0)%Z then None
              else match l !! Z.to_nat i with Some x => pointer_walk x parts | None => None end
          | None => None
          end
      | _ => None
      end
  end.

Definition resolveLocalRef (root : value) (node : list (string * value)) : option value :=
  match map_get node "$ref" with
  | Some (VStr ref) =>
      if has_prefix ref "#/" then
        match pointer_walk root (split_byte "/" (trim_prefix ref "#/")) with
        | Some (VBool b) => Some (VBool b)
        | Some (VMap m) => Some (VMap m)
        | _ => None
        end
      else None
  | _ => None
  end.

(** ** The lookup *)

Section lookup.
(** [regexp.Compile] and [MatchString]. *)
Context (pattern : string → option (string → bool)).
Context (root : value).

Abbreviation rec_t := (value → list string → LookupResult).

Definition lookupDescent (rec : rec_t) (sub : value) (rest : list string) : LookupResult :=
  let res := rec sub rest in if Impossible res then missing_result else res.

(** The sub-schemas of the [patternProperties] that match; the boolean tells that
    some expression does not compile. *)
Definition pattern_conjuncts (rec : rec_t) (pats : list (string * value)) (key : string)
    (rest : list string) : list LookupResult * bool :=
  foldr (λ kv acc, match pattern kv.1 with
    | None => (acc.1, true)
    | Some re => if re key then (lookupDescent rec kv.2 rest :: acc.1, acc.2) else acc
    end) ([], false) pats.

(** The intersection of the conjuncts, [None] while no typed one was seen. *)
Fixpoint meet_conjuncts (cs : list LookupResult) (meet : option TypeSet) : LookupResult :=
  match cs with
  | [] => match meet with
          | None => any_result
          | Some m => if decide (m = ∅) then missing_result else mkLookup m true false false
          end
  | c :: cs =>
      if Missing c then missing_result
      else if decide (Types c = ∅) then meet_conjuncts cs meet
      else meet_conjuncts cs (Some match meet with None => Types c | Some m => intersectTypes m (Types c) end)
  end.

Definition lookupNamedProperty (rec : rec_t) (node : list (string * value)) (types : TypeSet)
    (key : string) (rest : list string) : option LookupResult :=
  let named := match map_get node "properties" with
    | Some (VMap props) =>
        match map_get props key with Some sub => [lookupDescent rec sub rest] | None => [] end
    | _ => []
    end in
  let '(pats, unknown) := match map_get node "patternProperties" with
    | Some (VMap pats) =>
        if decide (types = ∅ ∨ TypeObject ∈ types)
        then pattern_conjuncts rec (sort_by fst pats) key rest else ([], false)
    | _ => ([], false)
    end in
  let conjuncts := named ++ pats in
  if bool_decide (length conjuncts = 0) && negb unknown then None
  else Some (meet_conjuncts conjuncts None).

(** The schema of an array element, where the schema allows an array and the key
    is an index. *)
Definition lookupElement (rec : rec_t) (node : list (string * value)) (types : TypeSet)
    (key : string) (rest : list string) : option LookupResult :=
  if decide (types = ∅ ∨ TypeArray ∈ types) then
    match atoi key with
    | None => None
    | Some idx =>
        let prefixed := match map_get node "prefixItems" with
          | Some (VList l) => if (0 <=? idx)%Z then l !! Z.to_nat idx else None
          | _ => None
          end in
        match prefixed with
        | Some sub => Some (lookupDescent rec sub rest)
        | None => (λ items, lookupDescent rec items rest) <$> map_get node "items"
        end
    end
  else None.

(** The keywords of the schema itself, its reference left aside. *)
Definition lookupKeywords (rec : rec_t) (node : list (string * value)) (path : list string)
    : LookupResult :=
  let types := extractTypes node in
  match path with
  | [] => mkLookup types (bool_decide (types ≠ ∅)) false false
  | key :: rest =>
      match lookupNamedProperty rec node types key rest with
      | Some r => r
      | None =>
          match lookupElement rec node types key rest with
          | Some r => r
          | None =>
              if decide (types = ∅ ∨ TypeObject ∈ types) then
                match map_get node "additionalProperties" with
                | Some ap => lookupDescent rec ap rest
                | None => any_result
                end
              else missing_result
          end
      end
  end.

Definition lookupObject (rec : rec_t) (node : list (string * value)) (path : list string)
    : LookupResult :=
  match resolveLocalRef root node with
  | Some (VBool false) => never_result
  | Some (VMap t) => rec (VMap t) path
  | _ => lookupKeywords rec node path
  end.

Fixpoint lookupSchema (fuel : nat) (node : value) (path : list string) : LookupResult :=
  match fuel with
  | O => any_result
  | S fuel =>
      match node with
      | VBool b => if b then any_result else never_result
      | VMap m => lookupObject (lookupSchema fuel) m path
      | _ => any_result
      end
  end.
End lookup.

(** Depths 0 to [maxSchemaDepth] are looked up. *)
Definition maxSchemaDepth : nat := 32.
Definition Lookup (pattern : string → option (string → bool)) (root : value) (path : list string)
    : LookupResult :=
  lookupSchema pattern root (S maxSchemaDepth) root path.

(** ** What validity means

    The types of a value: an integral number is an integer too. *)
Definition is_integral (f : f64) : bool :=
  match f with FFin _ _ _ => f64_eqb f (f64_trunc f) | _ => false end.
Definition value_types (v : value) : TypeSet :=
  match v with
  | VNil => {[TypeNull]}
  | VBool _ => {[TypeBoolean]}
  | VInt _ => {[TypeNumber; TypeInteger]}
  | VFloat f => if is_integral f then {[TypeNumber; TypeInteger]} else {[TypeNumber]}
  | VStr _ => {[TypeString]}
  | VList _ => {[TypeArray]}
  | VMap _ => {[TypeObject]}
  end.

(** The types a [type] keyword names. *)
Definition named_types (t : value) : list JSONType :=
  match t with
  | VStr s => match isJSONType s with Some t => [t] | None => [] end
  | VList l => omap (λ e, match e with VStr s => isJSONType s | _ => None end) l
  | _ => []
  end.

(** The property [key] is matched by [properties] or [patternProperties]. *)
Definition key_named (pattern : string → option (string → bool)) (m : list (string * value)) (key : string) : Prop :=
  (∃ props sub, map_get m "properties" = Some (VMap props) ∧ map_get props key = Some sub) ∨
  (∃ pats p sub, map_get m "patternProperties" = Some (VMap pats) ∧ (p, sub) ∈ pats ∧
     match pattern p with Some re => re key = true | None => True end).

(** The documented meaning of the keywords the lookup reads, as laws of a validity
    predicate [valid schema instance] (JSON Schema 2020-12, sections 4.3.2, 7.7,
    8.2.3 and 10.3; validation vocabulary, section 6.1.1).  [draft_ref] is the law of a
    schema whose references are all resolved against the root document, as the lookup
    resolves them: none of its sub-schemas has an [$id] of its own. *)
Class draft2020 (pattern : string → option (string → bool)) (root : value)
    (valid : value → value → Prop) : Prop := {
  draft_false : ∀ v, ¬ valid (VBool false) v;
  draft_ref : ∀ m t v, valid (VMap m) v → resolveLocalRef root m = Some t → valid t v;
  draft_type : ∀ m ty v, valid (VMap m) v → map_get m "type" = Some ty → named_types ty ≠ [] →
    ∃ t, t ∈ named_types ty ∧ t ∈ value_types v;
  draft_properties : ∀ m props key sub o x, valid (VMap m) (VMap o) →
    map_get m "properties" = Some (VMap props) → map_get props key = Some sub →
    map_get o key = Some x → valid sub x;
  draft_patterns : ∀ m pats p re sub key o x, valid (VMap m) (VMap o) →
    map_get m "patternProperties" = Some (VMap pats) → (p, sub) ∈ pats →
    pattern p = Some re → re key = true → map_get o key = Some x → valid sub x;
  draft_additional : ∀ m ap key o x, valid (VMap m) (VMap o) →
    map_get m "additionalProperties" = Some ap → ¬ key_named pattern m key →
    map_get o key = Some x → valid ap x;
}.

(** The value at a path of property names.  A name that is also an array index is
    left out: for such a name the lookup does not tell arrays and objects apart
    (the examples below). *)
Fixpoint at_path (v : value) (path : list string) : option value :=
  match path with
  | [] => Some v
  | key :: rest =>
      match v with
      | VMap o => if isJSONIndex key then None
                  else match map_get o key with Some x => at_path x rest | None => None end
      | _ => None
      end
  end.

(** The value agrees with a lookup: the path is neither impossible nor forbidden,
    and the value has one of the types, if there are any. *)
Definition agrees (r : LookupResult) (v : value) : Prop :=
  Impossible r = false ∧ Missing r = false ∧
  (Types r ≠ ∅ → ∃ t, t ∈ Types r ∧ t ∈ value_types v).

Lemma any_agrees v : agrees any_result v.
Proof. by split_and!. Qed.

(** A value has integer only together with number, and otherwise one type. *)
Lemma value_types_meet v s t :
  s ∈ value_types v → t ∈ value_types v →
  s = t ∨ (s = TypeInteger ∧ t = TypeNumber) ∨ (s = TypeNumber ∧ t = TypeInteger).
Proof. destruct v; simpl; try set_solver. destruct (is_integral f); set_solver. Qed.

Lemma intersect_agrees a b v :
  (∃ t, t ∈ a ∧ t ∈ value_types v) → (∃ t, t ∈ b ∧ t ∈ value_types v) →
  ∃ t, t ∈ intersectTypes a b ∧ t ∈ value_types v.
Proof.
  intros (s & Hs & Vs) (t & Ht & Vt). unfold intersectTypes.
  destruct (value_types_meet v s t Vs Vt) as [->|[[-> ->]|[-> ->]]].
  - exists t. split; [|done]. apply elem_of_union_l, elem_of_filter. auto.
  - exists TypeInteger. split; [|done]. apply elem_of_union_l, elem_of_filter. auto.
  - exists TypeInteger. rewrite decide_True by done. set_solver.
Qed.

Lemma extractTypes_spec m :
  extractTypes m = list_to_set (match map_get m "type" with Some t => named_types t | None => [] end).
Proof.
  unfold extractTypes, named_types. destruct (map_get m "type") as [[]|]; try done.
  destruct (isJSONType s); simpl; set_solver.
Qed.

Lemma meet_agrees cs meet v :
  Forall (λ c, agrees c v) cs → (∀ m, meet = Some m → ∃ t, t ∈ m ∧ t ∈ value_types v) →
  agrees (meet_conjuncts cs meet) v.
Proof.
  intros Hcs. revert meet. induction Hcs as [|c cs (_ & Hm & Ht) _ IH]; intros meet Hmeet; simpl.
  - destruct meet as [m|]; [|apply any_agrees]. destruct (Hmeet m eq_refl) as (t & Hin & Hv).
    destruct (decide (m = ∅)) as [->|]; [set_solver|]. split_and!; [done..|]. simpl. eauto.
  - rewrite Hm. destruct (decide (Types c = ∅)) as [|Hne]; [by apply IH|]. apply IH.
    intros m [= <-]. destruct meet as [m0|]; [|by apply Ht].
    apply intersect_agrees; [by apply Hmeet|by apply Ht].
Qed.

(** ** The lookup is sound *)

Section sound.
Context (pattern : string → option (string → bool)) (root : value) (valid : value → value → Prop).
Context `{!draft2020 pattern root valid}.

(** The lookup of a sub-schema is sound for the instances of the sub-schema. *)
Definition sound_at (rec : value → list string → LookupResult) : Prop :=
  ∀ node path v u, valid node v → at_path v path = Some u → agrees (rec node path) u.

Lemma descent_agrees rec sub rest x u :
  sound_at rec → valid sub x → at_path x rest = Some u → agrees (lookupDescent rec sub rest) u.
Proof.
  intros Hrec Hx Hu. pose proof (Hrec _ _ _ _ Hx Hu) as Ha. unfold lookupDescent.
  by rewrite (proj1 Ha).
Qed.

Lemma named_agrees rec m o key rest x u r :
  sound_at rec → valid (VMap m) (VMap o) → map_get o key = Some x → at_path x rest = Some u →
  lookupNamedProperty pattern rec m (extractTypes m) key rest = Some r → agrees r u.
Proof.
  intros Hrec Hv Hx Hu. unfold lookupNamedProperty.
  set (named := match map_get m "properties" with Some (VMap props) => _ | _ => _ end).
  assert (Forall (λ c, agrees c u) named) as Hn.
  { subst named. destruct (map_get m "properties") as [[| | | | | |props]|] eqn:Ep; try constructor.
    destruct (map_get props key) as [sub|] eqn:Es; constructor; [|constructor].
    eapply descent_agrees; [done| |done]. by eapply draft_properties. }
  set (pp := match map_get m "patternProperties" with Some (VMap pats) => _ | _ => _ end).
  assert (Forall (λ c, agrees c u) pp.1) as Hp.
  { subst pp. destruct (map_get m "patternProperties") as [[| | | | | |pats]|] eqn:Ep; try constructor.
    case_decide; [|constructor]. unfold pattern_conjuncts.
    assert (∀ kv, kv ∈ sort_by fst pats → kv ∈ pats) as Hin by (intros kv; by rewrite elem_of_sort_by).
    revert Hin. induction (sort_by fst pats) as [|[p sub] l IH]; intros Hin; simpl; [constructor|].
    assert (Forall (λ c, agrees c u) (foldr (λ (kv : string * value) acc, match pattern kv.1 with
      | Some re => if re key then (lookupDescent rec kv.2 rest :: acc.1, acc.2) else acc
      | None => (acc.1, true) end) ([], false) l).1) as IH' by (apply IH; intros; apply Hin; by right).
    destruct (pattern p) as [re|] eqn:Ere; [|done]. destruct (re key) eqn:Em; [|done].
    constructor; [|done]. eapply descent_agrees; [done| |done].
    eapply draft_patterns; [done|done|apply Hin; by left|done..]. }
  destruct pp as [pats unknown]. destruct (bool_decide _ && _); [done|]. intros [= <-].
  apply meet_agrees; [|done]. by apply Forall_app.
Qed.

(** A property the lookup finds no entry for is an additional one. *)
Lemma not_named rec m key rest :
  lookupNamedProperty pattern rec m (extractTypes m) key rest = None →
  extractTypes m = ∅ ∨ TypeObject ∈ extractTypes m → ¬ key_named pattern m key.
Proof.
  intros Hn Ht. unfold lookupNamedProperty in Hn.
  set (named := match map_get m "properties" with Some (VMap props) => _ | _ => _ end) in Hn.
  set (pp := match map_get m "patternProperties" with Some (VMap pats) => _ | _ => _ end) in Hn.
  destruct pp as [cs unknown] eqn:Epp.
  destruct (bool_decide (length (named ++ cs) = 0)) eqn:El; [|done]. destruct unknown; [done|].
  apply bool_decide_eq_true, nil_length_inv, app_nil in El as [En Ec]. rewrite Ec in Epp. clear Ec Hn cs.
  intros [(props & sub & Ep & Es)|(pats & p & sub & Ep & Hin & Hp)].
  - subst named. by rewrite Ep, Es in En.
  - subst pp. rewrite Ep in Epp. rewrite decide_True in Epp by done. unfold pattern_conjuncts in Epp.
    rewrite <-(elem_of_sort_by fst) in Hin. revert Epp. induction (sort_by fst pats) as [|[p' sub'] l IH].
    { by apply elem_of_nil in Hin. }
    simpl. destruct (foldr _ _ l) as [acc unk] eqn:Ef. simpl.
    destruct (pattern p') as [re|] eqn:Ere; [|by intros [= _]]. 
    destruct (re key) eqn:Em; [done|]. intros [= -> ->].
    apply elem_of_cons in Hin as [[= <- <-]|Hin]; [rewrite Ere in Hp; congruence|].
    by apply IH.
Qed.

Lemma object_agrees rec m path v u :
  sound_at rec → valid (VMap m) v → at_path v path = Some u →
  agrees (lookupObject pattern root rec m path) u.
Proof.
  intros Hrec Hv Hu. unfold lookupObject.
  assert (extractTypes m ≠ ∅ → ∃ t, t ∈ extractTypes m ∧ t ∈ value_types v) as Htypes.
  { rewrite extractTypes_spec. destruct (map_get m "type") as [ty|] eqn:Et; [|set_solver].
    intros Hne. destruct (draft_type m ty v Hv Et) as (t & Ht & Hvt); [by intros E; rewrite E in Hne|].
    exists t. by rewrite elem_of_list_to_set. }
  assert (agrees (lookupKeywords pattern rec m path) u) as Hmain.
  { unfold lookupKeywords. destruct path as [|key rest]; simpl in Hu; [by injection Hu as <-|].
    destruct v as [| | | | | |o]; try done. destruct (isJSONIndex key) eqn:Ei; [done|].
    destruct (map_get o key) as [x|] eqn:Ex; [|done].
    destruct (lookupNamedProperty _ _ _ _ _ _) as [r|] eqn:En; [by eapply named_agrees|].
    assert (lookupElement rec m (extractTypes m) key rest = None) as ->.
    { unfold lookupElement. case_decide; [|done]. unfold isJSONIndex in Ei. by destruct (atoi key). }
    case_decide as Ht.
    - destruct (map_get m "additionalProperties") as [ap|] eqn:Ea; [|apply any_agrees].
      eapply descent_agrees; [done| |done]. eapply draft_additional; [done|done| |done].
      by eapply not_named.
    - exfalso. apply Ht. destruct (decide (extractTypes m = ∅)) as [|Hne]; [by left|right].
      destruct (Htypes Hne) as (t & Hin & Hobj). simpl in Hobj. apply elem_of_singleton in Hobj. by subst. }
  destruct (resolveLocalRef root m) as [[|[]| | | | |t]|] eqn:Er; try exact Hmain.
  - exfalso. eapply draft_false, draft_ref; [exact Hv|exact Er].
  - eapply Hrec; [|exact Hu]. by eapply draft_ref.
Qed.

Lemma lookup_sound fuel : sound_at (lookupSchema pattern root fuel).
Proof.
  induction fuel as [|fuel IH]; intros node path v u Hv Hu; [apply any_agrees|]. simpl.
  destruct node as [|[]| | | | |m]; try apply any_agrees; [by apply draft_false in Hv|].
  by eapply object_agrees.
Qed.
End sound.

(** A schema that looks up as impossible has no instance. *)
Lemma descent_possible rec sub rest : Impossible (lookupDescent rec sub rest) = false.
Proof. unfold lookupDescent. by destruct (Impossible (rec sub rest)) eqn:E. Qed.

Lemma meet_possible cs meet : Impossible (meet_conjuncts cs meet) = false.
Proof.
  revert meet. induction cs as [|c cs IH]; intros meet; simpl.
  - destruct meet; [|done]. by case_decide.
  - destruct (Missing c); [done|]. by case_decide.
Qed.

Lemma named_possible pattern rec m types key rest r :
  lookupNamedProperty pattern rec m types key rest = Some r → Impossible r = false.
Proof.
  unfold lookupNamedProperty. set (pp := match map_get m "patternProperties" with Some (VMap pats) => _ | _ => _ end).
  destruct pp. destruct (_ && _); [done|]. intros [= <-]. apply meet_possible.
Qed.

Lemma element_possible rec m types key rest r :
  lookupElement rec m types key rest = Some r → Impossible r = false.
Proof.
  unfold lookupElement. case_decide; [|done]. destruct (atoi key) as [idx|]; [|done].
  set (pre := match map_get m "prefixItems" with Some (VList l) => _ | _ => _ end).
  destruct pre; [intros [= <-]; apply descent_possible|].
  destruct (map_get m "items"); [|done]. intros [= <-]. apply descent_possible.
Qed.

Lemma keywords_possible pattern rec m path : Impossible (lookupKeywords pattern rec m path) = false.
Proof.
  unfold lookupKeywords. destruct path as [|key rest]; [done|].
  destruct (lookupNamedProperty _ _ _ _ _ _) eqn:E; [by eapply named_possible|].
  destruct (lookupElement _ _ _ _ _) eqn:E'; [by eapply element_possible|].
  case_decide; [|done]. destruct (map_get m "additionalProperties"); [apply descent_possible|done].
Qed.

Lemma impossible_empty pattern root valid `{!draft2020 pattern root valid} fuel node path v :
  Impossible (lookupSchema pattern root fuel node path) = true → ¬ valid node v.
Proof.
  revert node. induction fuel as [|fuel IH]; intros node; [done|]. simpl.
  destruct node as [|[]| | | | |m]; try done; [intros _; apply draft_false|].
  unfold lookupObject. destruct (resolveLocalRef root m) as [t|] eqn:Er; [|by rewrite keywords_possible].
  destruct t as [|[]| | | | |t]; rewrite ?keywords_possible; try done; intros Hi Hv.
  - eapply draft_false, draft_ref; [exact Hv|exact Er].
  - eapply IH; [exact Hi|]. by eapply draft_ref.
Qed.

(** A typed producer flows into what its consumer accepts. *)
Lemma compatible_agrees producer consumer u :
  CompatibleLookup producer consumer = true → agrees producer u →
  Impossible consumer = false ∧
  (Types producer ≠ ∅ → Types consumer ≠ ∅ → ∃ t, t ∈ Types consumer ∧ t ∈ value_types u).
Proof.
  unfold CompatibleLookup. intros Hc (Hi & _ & Ht). rewrite Hi in Hc.
  destruct (Impossible consumer); [done|]. split; [done|]. intros Hp Hne.
  destruct (Ht Hp) as (t & Hin & Hv). unfold Compatible in Hc.
  rewrite (bool_decide_eq_false_2 _ Hp), (bool_decide_eq_false_2 _ Hne) in Hc. simpl in Hc.
  rewrite forallb_forall in Hc. specialize (Hc t). rewrite <-list_elem_of_In, elem_of_elements in Hc.
  specialize (Hc Hin). rewrite orb_true_iff, andb_true_iff, !bool_decide_eq_true in Hc.
  destruct Hc as [Hc|[-> Hc]]; [by exists t|].
  exists TypeNumber. split; [done|]. destruct u; simpl in *; try set_solver. case_match; set_solver.
Qed.

(** ** A validator

    The greatest validity the keywords describe: an instance that conforms to any
    depth of unfolding.  It satisfies the laws for every root and all patterns. *)

Section conforms.
Context (pattern : string → option (string → bool)) (root : value).

Fixpoint conforms (n : nat) (schema v : value) : Prop :=
  match n with
  | O => True
  | S n =>
      match schema with
      | VBool b => b = true
      | VMap m =>
          (∀ t, resolveLocalRef root m = Some t → conforms n t v) ∧
          (∀ ty, map_get m "type" = Some ty → named_types ty ≠ [] →
             ∃ t, t ∈ named_types ty ∧ t ∈ value_types v) ∧
          match v with
          | VMap o => ∀ key x, map_get o key = Some x →
              (∀ props sub, map_get m "properties" = Some (VMap props) → map_get props key = Some sub →
                 conforms n sub x) ∧
              (∀ pats p re sub, map_get m "patternProperties" = Some (VMap pats) → (p, sub) ∈ pats →
                 pattern p = Some re → re key = true → conforms n sub x) ∧
              (∀ ap, map_get m "additionalProperties" = Some ap → ¬ key_named pattern m key →
                 conforms n ap x)
          | _ => True
          end
      | _ => True
      end
  end.
Definition conforming (schema v : value) : Prop := ∀ n, conforms n schema v.

#[export] Instance conforming_draft2020 : draft2020 pattern root conforming.
Proof.
  split.
  - intros v Hv. by specialize (Hv 1).
  - intros m t v Hv Hr n. by apply (Hv (S n)).
  - intros m ty v Hv. by apply (Hv 1).
  - intros m props key sub o x Hv Hp Hs Hx n. destruct (Hv (S n)) as (_ & _ & Ho).
    by eapply (proj1 (Ho key x Hx)).
  - intros m pats p re sub key o x Hv Hp Hin Hre Hk Hx n. destruct (Hv (S n)) as (_ & _ & Ho).
    by eapply (proj1 (proj2 (Ho key x Hx))).
  - intros m ap key o x Hv Ha Hn Hx n. destruct (Hv (S n)) as (_ & _ & Ho).
    by apply (proj2 (proj2 (Ho key x Hx))).
Qed.
End conforms.

(** C12: Type soundness of the lookup: when an instance is valid for a schema, the
    value at a path of property names, none of which reads as an array index
    ([at_path]; [index_key_of_object] is what happens otherwise), has one of the types
    the lookup gives the path, and the path is neither reported missing nor impossible; references, boolean
    schemas, patterns and additional properties included. *)
Theorem Lookup_sound pattern root valid `{!draft2020 pattern root valid} v path u :
  valid root v → at_path v path = Some u → agrees (Lookup pattern root path) u.
Proof. intros Hv Hu. by eapply lookup_sound. Qed.

(** A schema with a reference, and an instance of it. *)
Definition no_pattern (p : string) : option (string → bool) := None.
Definition ticket_schema : value :=
  VMap [("$defs", VMap [("count", VMap [("type", VStr "integer")])]);
        ("additionalProperties", VBool false);
        ("properties", VMap [("meta", VMap [("properties", VMap [("votes", VMap [("$ref", VStr "#/$defs/count")])])]);
                             ("title", VMap [("type", VStr "string")])]);
        ("type", VStr "object")].
Definition ticket : value := VMap [("meta", VMap [("votes", VInt 3)]); ("title", VStr "crash")].

(** A looked-up keyword of a concrete schema. *)
Ltac keyword H := vm_compute in H; simplify_eq H; intros; subst.

Lemma ticket_conforming : conforming no_pattern ticket_schema ticket_schema ticket.
Proof.
  assert (∀ n, conforms no_pattern ticket_schema n (VMap [("type", VStr "integer")]) (VInt 3)) as Hcount.
  { intros [|n]; [done|]. split_and!; [done| |done].
    intros ty Hty _. keyword Hty. exists TypeInteger. split; [by left|]. vm_compute; set_solver. }
  assert (∀ n, conforms no_pattern ticket_schema n (VMap [("$ref", VStr "#/$defs/count")]) (VInt 3)) as Hvotes.
  { intros [|n]; [done|]. split_and!; [|done..]. intros t Ht. keyword Ht. apply Hcount. }
  assert (∀ n, conforms no_pattern ticket_schema n (VMap [("type", VStr "string")]) (VStr "crash")) as Htitle.
  { intros [|n]; [done|]. split_and!; [done| |done].
    intros ty Hty _. keyword Hty. exists TypeString. split; [by left|]. simpl. set_solver. }
  assert (∀ n, conforms no_pattern ticket_schema n (VMap [("properties", VMap [("votes", VMap [("$ref", VStr "#/$defs/count")])])])
    (VMap [("votes", VInt 3)])) as Hmeta.
  { intros [|n]; [done|]. split_and!; [done..|]. intros key x Hx. cbn in Hx. case_decide; [|done]. simplify_eq.
    split_and!; [|done..]. intros props sub Hp Hs. keyword Hp. keyword Hs. apply Hvotes. }
  intros [|n]; [done|]. split_and!; [done| |].
  { intros ty Hty _. keyword Hty. exists TypeObject. split; [by left|]. simpl. set_solver. }
  intros key x Hx. cbn in Hx.
  assert (key = "meta" ∧ x = VMap [("votes", VInt 3)] ∨ key = "title" ∧ x = VStr "crash") as [[-> ->]|[-> ->]].
  { repeat case_decide; simplify_eq; auto. }
  all: split_and!; [|done|intros ap _ Hn; exfalso; apply Hn; left; by do 2 eexists].
  all: intros props sub Hp Hs; keyword Hp; keyword Hs; [apply Hmeta || apply Htitle].
Qed.

Lemma Lookup_sound_witness :
  Lookup no_pattern ticket_schema ["meta"; "votes"] = mkLookup {[TypeInteger]} true false false ∧
  agrees (Lookup no_pattern ticket_schema ["meta"; "votes"]) (VInt 3).
Proof.
  split; [vm_compute; done|].
  apply (Lookup_sound no_pattern ticket_schema (conforming no_pattern ticket_schema) ticket);
    [apply ticket_conforming|reflexivity].
Defined.

(** Names that are array indices.  A schema without a type accepts the object below
    whatever its [items] are, but the lookup types the key by them. *)
Definition untyped_items : value := VMap [("items", VMap [("type", VStr "string")])].
Example index_key_of_object :
  conforming no_pattern untyped_items untyped_items (VMap [("0", VInt 1)]) ∧
  Lookup no_pattern untyped_items ["0"] = mkLookup {[TypeString]} true false false.
Proof.
  split; [|vm_compute; done]. intros [|n]; [done|]. split_and!; [done..|].
  intros key x _. split_and!; intros * Hp; by keyword Hp.
Qed.
