(* ===== verification/SpecGraph.v ===== *)
(** * The step graph of a workflow ([internal/spec/workflow_graph.go])

    The dependencies of the steps, their transitive closure and the validation
    that rejects dangling needs and cycles by a depth-first search.  Positions and
    the rendering of the cycle ([cyclePath]) are diagnostic text and are left out;
    the error keeps the edge that closes the cycle. *)

From S2P Require Import Prelude GoNum GoText Value SpecTools.

(** ** Dependencies *)

Definition WorkflowUsesExplicitNeeds (steps : list WorkflowStep) : bool :=
  existsb (λ st, step_NeedsDeclared st || bool_decide (step_Needs st ≠ [])) steps.

Definition uniqueNonEmpty (ids : list string) : list string :=
  dedup id (List.filter (λ s, negb (s =? "")%string) (trim_space <$> ids)).

Definition StepNeedsIDs (steps : list WorkflowStep) (i : nat) : list string :=
  match steps !! i with
  | None => []
  | Some st =>
      if WorkflowUsesExplicitNeeds steps then uniqueNonEmpty (step_Needs st)
      else match i with
           | O => []
           | S j => match steps !! j with
                    | Some prev => let id := trim_space (step_ID prev) in
                                   if (id =? "")%string then [] else [id]
                    | None => []
                    end
           end
  end.

Fixpoint index_from (i : nat) (steps : list WorkflowStep) (m : gmap string nat) : gmap string nat :=
  match steps with
  | [] => m
  | st :: steps =>
      let id := trim_space (step_ID st) in
      index_from (S i) steps
        (if (id =? "")%string then m
         else match m !! id with Some _ => m | None => <[id := i]> m end)
  end.
Definition stepIndexByID (steps : list WorkflowStep) : gmap string nat := index_from 0 steps ∅.

(** The stack loop of [StepAncestorIDs]; the head of the list is the top. *)
Fixpoint ancestors_loop (fuel : nat) (steps : list WorkflowStep) (stack : list string)
    (seen : gset string) : gset string :=
  match fuel, stack with
  | O, _ | _, [] => seen
  | S fuel, id :: stack =>
      if bool_decide (id ∈ seen) then ancestors_loop fuel steps stack seen
      else
        let seen := {[id]} ∪ seen in
        match stepIndexByID steps !! id with
        | None => ancestors_loop fuel steps stack seen
        | Some j => ancestors_loop fuel steps (rev (StepNeedsIDs steps j) ++ stack) seen
        end
  end.

(** Every step is expanded once and every entry popped once. *)
Definition ancestors_fuel (steps : list WorkflowStep) (i : nat) : nat :=
  length (StepNeedsIDs steps i) +
  sum_list_with (λ j, length (StepNeedsIDs steps j)) (seq 0 (length steps)).

Definition StepAncestorIDs (steps : list WorkflowStep) (i : nat) : gset string :=
  ancestors_loop (ancestors_fuel steps i) steps (rev (StepNeedsIDs steps i)) ∅.

(** ** Validation *)

Inductive graph_error :=
  | EmptyNeeds (step : string)
  | DuplicateNeeds (step dep : string) (prev : nat)
  | UnknownNeeds (step dep : string)
  | SelfNeeds (step : string)
  | NeedsCycle (from to : string).

(** The errors of the needs of one step, in order. *)
Fixpoint needs_errors (byID : gmap string nat) (sid : string) (i : nat) (needs : list string)
    (seenNeed : gmap string nat) : list graph_error :=
  match needs with
  | [] => []
  | raw :: needs =>
      let dep := trim_space raw in
      if (dep =? "")%string then EmptyNeeds sid :: needs_errors byID sid (S i) needs seenNeed
      else match seenNeed !! dep with
      | Some prev => DuplicateNeeds sid dep prev :: needs_errors byID sid (S i) needs seenNeed
      | None =>
          let seenNeed := <[dep := i]> seenNeed in
          match byID !! dep with
          | None => UnknownNeeds sid dep :: needs_errors byID sid (S i) needs seenNeed
          | Some _ =>
              (if (dep =? sid)%string then [SelfNeeds sid] else []) ++
              needs_errors byID sid (S i) needs seenNeed
          end
      end
  end.

Definition adjacency (steps : list WorkflowStep) : list (list nat) :=
  (λ i, omap (λ dep, stepIndexByID steps !! dep) (StepNeedsIDs steps i)) <$> seq 0 (length steps).

Inductive color := White | Gray | Black.
#[export] Instance color_inhabited : Inhabited color := populate White.
#[export] Instance color_eq_dec : EqDecision color.
Proof. solve_decision. Defined.

(** The search from [u]: the edge that closes a cycle, if one is found, and the
    colours. *)
Fixpoint dfs (fuel : nat) (adj : list (list nat)) (u : nat) (c : list color)
    : option (nat * nat) * list color :=
  match fuel with
  | O => (None, c)
  | S fuel =>
      (fix visit (vs : list nat) (c : list color) : option (nat * nat) * list color :=
        match vs with
        | [] => (None, <[u := Black]> c)
        | v :: vs =>
            match c !!! v with
            | Gray => (Some (u, v), c)
            | White => match dfs fuel adj v c with
                       | (Some e, c) => (Some e, c)
                       | (None, c) => visit vs c
                       end
            | Black => visit vs c
            end
        end) (adj !!! u) (<[u := Gray]> c)
  end.

Fixpoint search (fuel : nat) (adj : list (list nat)) (roots : list nat) (c : list color)
    : option (nat * nat) :=
  match roots with
  | [] => None
  | i :: roots =>
      match c !!! i with
      | White => match dfs fuel adj i c with
                 | (Some e, _) => Some e
                 | (None, c) => search fuel adj roots c
                 end
      | _ => search fuel adj roots c
      end
  end.

(** The nesting of the search is at most the number of steps. *)
Definition find_cycle (adj : list (list nat)) : option (nat * nat) :=
  search (length adj) adj (seq 0 (length adj)) (replicate (length adj) White).

Definition step_id (steps : list WorkflowStep) (i : nat) : string :=
  default "" ((λ st, trim_space (step_ID st)) <$> steps !! i).

Definition validateWorkflowGraph (w : WorkflowSpec) : list graph_error :=
  let steps := wf_Steps w in
  (steps ≫= λ st, needs_errors (stepIndexByID steps) (trim_space (step_ID st)) 0 (step_Needs st) ∅) ++
  match find_cycle (adjacency steps) with
  | Some (from, to) => [NeedsCycle (step_id steps from) (step_id steps to)]
  | None => []
  end.

(** ** The search finds a cycle exactly when there is one *)

Definition whites (c : list color) : nat := length (List.filter (λ x, bool_decide (x = White)) c).

Lemma whites_insert c u x :
  c !! u = Some White → x ≠ White → S (whites (<[u := x]> c)) = whites c.
Proof.
  intros Hu Hx. unfold whites. revert u Hu. induction c as [|y c IH]; intros [|u] Hu; simplify_eq/=.
  - by destruct x.
  - destruct (bool_decide (y = White)); simpl; by rewrite <-(IH u Hu).
Qed.

Section search.
Context (adj : list (list nat)).

Definition edge (u v : nat) : Prop := v ∈ adj !!! u.
Hypothesis edges_in : ∀ u v, edge u v → v < length adj.

(** Every step reached from [u] has a finite chain of dependencies. *)
Definition grounded : nat → Prop := Acc (λ v u, edge u v).

(** Colours as a search from [u] leaves and finds them: the finished steps depend
    on finished steps only and are grounded, the open ones lead to [u]. *)
Record colors_ok (c : list color) : Prop := {
  co_len : length c = length adj;
  co_black : ∀ x v, c !! x = Some Black → edge x v → c !! v = Some Black;
  co_acc : ∀ x, c !! x = Some Black → grounded x;
}.

(** The colours after a search without a find: more steps are finished, the open
    ones are the same. *)
Record later (c c' : list color) : Prop := {
  la_gray : ∀ x, c !! x = Some Gray ↔ c' !! x = Some Gray;
  la_black : ∀ x, c !! x = Some Black → c' !! x = Some Black;
  la_whites : whites c' <= whites c;
}.

Lemma later_refl c : later c c.
Proof. split; done. Qed.
Lemma later_trans c1 c2 c3 : later c1 c2 → later c2 c3 → later c1 c3.
Proof. intros [] []. split; [naive_solver|naive_solver|lia]. Qed.

Lemma lookup_total_color (c : list color) v x : v < length c → c !!! v = x ↔ c !! v = Some x.
Proof. intros Hv. apply list_lookup_lookup_total_lt in Hv. rewrite Hv. naive_solver. Qed.

(** Finishing a step. *)
Lemma finish_ok c u :
  colors_ok c → u < length adj → (∀ v, edge u v → c !! v = Some Black) →
  colors_ok (<[u := Black]> c).
Proof.
  intros [Hl Hb Ha] Hu Hv. assert (grounded u) as Hgu.
  { constructor. intros v Huv. by apply Ha, Hv. }
  split.
  - by rewrite length_insert.
  - intros x v Hx Hxv. destruct (decide (u = v)) as [->|]; [by apply list_lookup_insert_eq; lia|].
    rewrite list_lookup_insert_ne by done. destruct (decide (u = x)) as [->|]; [by apply Hv|].
    rewrite list_lookup_insert_ne in Hx by done. by eapply Hb.
  - intros x Hx. destruct (decide (u = x)) as [->|]; [done|].
    rewrite list_lookup_insert_ne in Hx by done. by apply Ha.
Qed.

Lemma open_ok c u : colors_ok c → c !! u = Some White → colors_ok (<[u := Gray]> c).
Proof.
  intros [Hl Hb Ha] Hu. assert (u < length c) as Hlt by by eapply lookup_lt_Some.
  assert (∀ x, <[u := Gray]> c !! x = Some Black → c !! x = Some Black) as Hx.
  { intros x. destruct (decide (u = x)) as [->|]; [by rewrite list_lookup_insert_eq|].
    by rewrite list_lookup_insert_ne. }
  split.
  - by rewrite length_insert.
  - intros x v Hxb Hxv. apply Hx in Hxb. specialize (Hb x v Hxb Hxv).
    rewrite list_lookup_insert_ne; [done|]. intros ->. congruence.
  - intros x ?%Hx. by apply Ha.
Qed.

Definition found_cycle (e : nat * nat) : Prop := edge e.1 e.2 ∧ rtc edge e.2 e.1.

Definition dfs_post (u : nat) (c : list color) (r : option (nat * nat) * list color) : Prop :=
  match r with
  | (Some e, _) => found_cycle e
  | (None, c') => colors_ok c' ∧ later c c' ∧ c' !! u = Some Black
  end.

Lemma dfs_spec fuel u c :
  colors_ok c → c !! u = Some White → whites c <= fuel →
  (∀ x, c !! x = Some Gray → rtc edge x u) →
  dfs_post u c (dfs fuel adj u c).
Proof.
  revert u c. induction fuel as [|fuel IH]; intros u c Hok Hu Hf Hg.
  { pose proof (whites_insert c u Gray Hu ltac:(done)). lia. }
  assert (u < length adj) as Hlt by (rewrite <-(co_len c Hok); by eapply lookup_lt_Some).
  assert (u < length c) as Hlc by (by rewrite (co_len c Hok)).
  cbn [dfs]. set (visit := fix visit vs c := match vs with [] => _ | v :: vs => _ end).
  set (c0 := <[u := Gray]> c).
  assert (∀ vs d, (∀ v, v ∈ vs → edge u v) → colors_ok d → later c0 d →
    (∀ v, edge u v → v ∈ vs ∨ d !! v = Some Black) → dfs_post u c (visit vs d)) as Hvisit.
  { intros vs. induction vs as [|v vs IHvs]; intros d Hvs Hd Hl Hall.
    - cbn. assert (d !! u = Some Gray) as Hdu.
      { apply (la_gray _ _ Hl). unfold c0. by apply list_lookup_insert_eq. }
      split; [|split].
      + apply finish_ok; [done..|]. intros v [H%elem_of_nil|]%Hall; done.
      + pose proof (whites_insert c u Gray Hu ltac:(done)) as Hw0. fold c0 in Hw0.
        assert (whites (<[u := Black]> d) = whites d) as Hwd.
        { clear -Hdu. unfold whites. revert u Hdu.
          induction d as [|y d IHd]; intros [|u] Hdu; simplify_eq/=; [done|].
          by destruct (bool_decide (y = White)); simpl; rewrite (IHd u Hdu). }
        destruct Hl as [Hl1 Hl2 Hl3]. split.
        * intros x. destruct (decide (u = x)) as [->|Hne].
          -- rewrite Hu, list_lookup_insert_eq; [done|]. by apply lookup_lt_Some in Hdu.
          -- rewrite list_lookup_insert_ne, <-Hl1 by done. unfold c0. by rewrite list_lookup_insert_ne.
        * intros x Hx. destruct (decide (u = x)) as [->|Hne]; [congruence|].
          rewrite list_lookup_insert_ne by done. apply Hl2. unfold c0. by rewrite list_lookup_insert_ne.
        * lia.
      + apply list_lookup_insert_eq. by apply lookup_lt_Some in Hdu.
    - cbn. assert (v < length d) as Hv by (rewrite (co_len d Hd); apply (edges_in u v), Hvs; by left).
      assert (∀ x, d !! x = Some Gray → rtc edge x u) as Hgd.
      { intros x Hx. apply (la_gray _ _ Hl) in Hx. unfold c0 in Hx.
        destruct (decide (u = x)) as [->|]; [by apply rtc_refl|].
        rewrite list_lookup_insert_ne in Hx by done. by apply Hg. }
      destruct (d !!! v) eqn:E; apply lookup_total_color in E; [|done| |done| |done].
      + assert (dfs_post v d (dfs fuel adj v d)) as Hpost.
        { apply IH; [done..| |].
          - pose proof (whites_insert c u Gray Hu ltac:(done)) as Hw0. fold c0 in Hw0.
            pose proof (la_whites _ _ Hl). lia.
          - intros x Hx. eapply rtc_r; [by apply Hgd|]. apply Hvs. by left. }
        destruct (dfs fuel adj v d) as [[e|] d']; cbn in Hpost; [done|].
        destruct Hpost as (Hd' & Hl' & Hb'). apply IHvs; [|done| |].
        * intros w Hw. apply Hvs. by right.
        * by eapply later_trans.
        * intros w [[->|]%elem_of_cons|Hw]%Hall; [by right|by left|right]. by apply (la_black _ _ Hl').
      + cbn. split; [apply Hvs; by left|]. by apply Hgd.
      + apply IHvs; [|done|done|].
        * intros w Hw. apply Hvs. by right.
        * intros w [[->|]%elem_of_cons|Hw]%Hall; [by right|by left|by right]. }
  apply Hvisit; [done|by apply open_ok|apply later_refl|by left].
Qed.

Lemma search_spec fuel roots c :
  colors_ok c → whites c <= fuel → (∀ x, c !! x ≠ Some Gray) → Forall (λ i, i < length adj) roots →
  match search fuel adj roots c with
  | Some e => found_cycle e
  | None => ∀ i, i ∈ roots → grounded i
  end.
Proof.
  intros Hok Hf Hg Hr. revert c Hok Hf Hg.
  induction Hr as [|i roots Hi _ IH]; intros c Hok Hf Hg; [by intros i ?%elem_of_nil|].
  cbn [search]. assert (i < length c) as Hic by (by rewrite (co_len c Hok)).
  destruct (c !!! i) eqn:E; apply lookup_total_color in E; [|done| |done| |done].
  - pose proof (dfs_spec fuel i c Hok E Hf) as Hpost. specialize (Hpost (λ x Hx, False_ind _ (Hg x Hx))).
    destruct (dfs fuel adj i c) as [[e|] c']; cbn in Hpost; [done|].
    destruct Hpost as (Hok' & Hl & Hb). pose proof (la_whites _ _ Hl).
    specialize (IH c' Hok' ltac:(lia)).
    assert (∀ x, c' !! x ≠ Some Gray) as Hg' by (intros x ?%(la_gray _ _ Hl); by apply (Hg x)).
    specialize (IH Hg'). destruct (search fuel adj roots c'); [done|].
    intros j [->|]%elem_of_cons; [by apply (co_acc c' Hok')|by apply IH].
  - by destruct (Hg i).
  - specialize (IH c Hok Hf Hg). destruct (search fuel adj roots c); [done|].
    intros j [->|]%elem_of_cons; [by apply (co_acc c Hok)|by apply IH].
Qed.

Lemma whites_replicate n : whites (replicate n White) = n.
Proof. unfold whites. induction n as [|n IH]; [done|]. simpl. by rewrite IH. Qed.

Lemma find_cycle_spec :
  match find_cycle adj with
  | Some e => found_cycle e
  | None => ∀ i, grounded i
  end.
Proof.
  pose proof (search_spec (length adj) (seq 0 (length adj)) (replicate (length adj) White)) as H.
  unfold find_cycle. destruct (search _ _ _ _).
  - apply H; [|by rewrite whites_replicate| |apply Forall_seq; lia].
    + split; [by rewrite length_replicate|..].
      * intros x v [? _]%lookup_replicate; done.
      * intros x [? _]%lookup_replicate; done.
    + intros x [? _]%lookup_replicate; done.
  - intros i. destruct (decide (i < length adj)).
    + apply H; [|by rewrite whites_replicate| |apply Forall_seq; lia|apply elem_of_seq; lia].
      * split; [by rewrite length_replicate|..].
        -- intros x v [? _]%lookup_replicate; done.
        -- intros x [? _]%lookup_replicate; done.
      * intros x [? _]%lookup_replicate; done.
    + constructor. intros v Hv. exfalso. unfold edge in Hv.
      rewrite list_lookup_total_alt, lookup_ge_None_2 in Hv by lia. by apply elem_of_nil in Hv.
Qed.
End search.

(** ** Steps and their identifiers *)

Section steps.
Context (steps : list WorkflowStep).

Lemma index_from_spec i l m id j :
  index_from i l m !! id = Some j →
  m !! id = Some j ∨
  ∃ k st, j = i + k ∧ l !! k = Some st ∧ trim_space (step_ID st) = id ∧ id ≠ "".
Proof.
  revert i m. induction l as [|st l IH]; intros i m; simpl; [by left|]. intros H.
  apply IH in H as [H|(k & st' & -> & Hk & ? & ?)].
  - destruct (String.eqb_spec (trim_space (step_ID st)) ""); [by left|].
    destruct (m !! trim_space (step_ID st)); [by left|].
    apply lookup_insert_Some in H as [[<- <-]|[_ H]]; [|by left].
    right. exists 0, st. split; [lia|done].
  - right. exists (S k), st'. split; [lia|done].
Qed.

Lemma index_from_keeps i l m id : is_Some (m !! id) → is_Some (index_from i l m !! id).
Proof.
  revert i m. induction l as [|st l IH]; intros i m Hm; simpl; [done|]. apply IH.
  destruct (_ =? _)%string; [done|]. destruct (m !! trim_space (step_ID st)) eqn:E; [done|].
  destruct (decide (trim_space (step_ID st) = id)) as [->|]; [by rewrite lookup_insert_eq|].
  by rewrite lookup_insert_ne.
Qed.

Lemma index_from_present i l m k st :
  l !! k = Some st → trim_space (step_ID st) ≠ "" →
  is_Some (index_from i l m !! trim_space (step_ID st)).
Proof.
  revert i m k. induction l as [|st' l IH]; intros i m k Hk Hne; [done|]. simpl.
  destruct k as [|k]; simplify_eq/=; [|by eapply IH].
  apply index_from_keeps. rewrite (proj2 (String.eqb_neq _ "")) by done.
  destruct (m !! trim_space (step_ID st)) eqn:E; [by rewrite E|]. by rewrite lookup_insert_eq.
Qed.

Lemma stepIndex_Some id j :
  stepIndexByID steps !! id = Some j → j < length steps ∧ step_id steps j = id ∧ id ≠ "".
Proof.
  intros [H|(k & st & -> & Hk & Hid & Hne)]%index_from_spec; [by rewrite lookup_empty in H|].
  simpl. split; [by eapply lookup_lt_Some|]. unfold step_id. by rewrite Hk.
Qed.

Lemma stepIndex_known id :
  is_Some (stepIndexByID steps !! id) ↔ id ≠ "" ∧ ∃ j, j < length steps ∧ step_id steps j = id.
Proof.
  split.
  - intros [j (? & ? & ?)%stepIndex_Some]. eauto.
  - intros (Hne & j & Hj & <-). apply lookup_lt_is_Some in Hj as [st Hst]. unfold step_id in *.
    rewrite Hst in *. simpl in *. by eapply index_from_present.
Qed.

(** Step [i] depends on step [j]. *)
Definition depends (i j : nat) : Prop :=
  ∃ id, id ∈ StepNeedsIDs steps i ∧ stepIndexByID steps !! id = Some j.

Lemma StepNeedsIDs_out i : length steps <= i → StepNeedsIDs steps i = [].
Proof. intros H. unfold StepNeedsIDs. by rewrite lookup_ge_None_2. Qed.

Lemma adjacency_edge i j : edge (adjacency steps) i j ↔ depends i j.
Proof.
  unfold edge, adjacency, depends. destruct (decide (i < length steps)) as [Hi|Hi].
  - rewrite list_lookup_total_alt, list_lookup_fmap, lookup_seq_lt by done. simpl.
    by rewrite list_elem_of_omap.
  - rewrite StepNeedsIDs_out by lia.
    rewrite list_lookup_total_alt, lookup_ge_None_2 by (rewrite length_fmap, length_seq; lia).
    simpl. split; [by intros ?%elem_of_nil|]. by intros (? & ?%elem_of_nil & _).
Qed.

Lemma adjacency_in i j : edge (adjacency steps) i j → j < length (adjacency steps).
Proof.
  rewrite adjacency_edge. intros (id & _ & (Hj & _)%stepIndex_Some).
  unfold adjacency. by rewrite length_fmap, length_seq.
Qed.

(** The search of the validation: no find, and then every chain of dependencies
    ends; or a cycle. *)
Lemma find_cycle_steps :
  match find_cycle (adjacency steps) with
  | Some (i, j) => depends i j ∧ rtc depends j i
  | None => ∀ i, Acc (λ j i, depends i j) i
  end.
Proof.
  assert (∀ x y, rtc (edge (adjacency steps)) x y → rtc depends x y) as Hr.
  { intros x y Hxy. eapply rtc_congruence with (f := id); [|exact Hxy].
    intros ??. apply adjacency_edge. }
  pose proof (find_cycle_spec (adjacency steps) adjacency_in) as H.
  destruct (find_cycle _) as [[i j]|].
  - destruct H as [He Hc]. split; [by apply adjacency_edge|by apply Hr].
  - intros i. specialize (H i). induction H as [i _ IH]. constructor. intros j Hij.
    by apply IH, adjacency_edge.
Qed.

Lemma acc_acyclic {A} (R : A → A → Prop) x : Acc (λ y x, R x y) x → ¬ tc R x x.
Proof.
  induction 1 as [x _ IH]. intros Hc.
  assert (∃ y, R x y ∧ tc R y y) as (y & Hy & Hc'); [|by eapply IH].
  inversion Hc as [y z Hxy|y z w Hxy Hyx]; subst; [by exists x|].
  exists z. split; [done|]. eapply tc_r; [exact Hyx|done].
Qed.

(** The needs of one step that the validation accepts. *)
Lemma needs_errors_nil byID sid i needs seen :
  needs_errors byID sid i needs seen = [] ↔
  NoDup (trim_space <$> needs) ∧
  ∀ raw, raw ∈ needs → seen !! trim_space raw = None ∧ trim_space raw ≠ "" ∧
    trim_space raw ≠ sid ∧ is_Some (byID !! trim_space raw).
Proof.
  revert i seen. induction needs as [|raw needs IH]; intros i seen.
  { split; [|done]. intros _. split; [constructor|by intros ? ?%elem_of_nil]. }
  cbn [needs_errors]. rewrite fmap_cons, NoDup_cons.
  destruct (String.eqb_spec (trim_space raw) "") as [E|Hne].
  { split; [done|]. intros [_ H]. by destruct (H raw (list_elem_of_here _ _)) as (_ & ? & _). }
  destruct (seen !! trim_space raw) eqn:Es.
  { split; [done|]. intros [_ H]. by destruct (H raw (list_elem_of_here _ _)) as (? & _); congruence. }
  destruct (byID !! trim_space raw) eqn:Eb.
  2: { split; [done|]. intros [_ H]. destruct (H raw (list_elem_of_here _ _)) as (_ & _ & _ & [? ?]). congruence. }
  destruct (String.eqb_spec (trim_space raw) sid) as [E|Hs]; simpl.
  { split; [done|]. intros [_ H]. by destruct (H raw (list_elem_of_here _ _)) as (_ & _ & ? & _). }
  rewrite IH. split.
  - intros [Hnd H]. split; [split; [|done]|].
    + intros (raw' & E & Hin)%list_elem_of_fmap. destruct (H raw' Hin) as (Hl & _).
      rewrite E, lookup_insert_eq in Hl. done.
    + intros raw' [->|Hin]%elem_of_cons; [by eauto|]. destruct (H raw' Hin) as (Hl & ?).
      apply lookup_insert_None in Hl as [? _]. done.
  - intros [[Hni Hnd] H]. split; [done|]. intros raw' Hin.
    destruct (H raw' (list_elem_of_further _ _ _ Hin)) as (? & ?). split; [|done].
    rewrite lookup_insert_ne; [done|]. intros E. apply Hni. rewrite E. by apply list_elem_of_fmap_2.
Qed.
End steps.

(** The needs of every step are non-blank, distinct names of other steps. *)
Definition needs_resolve (steps : list WorkflowStep) : Prop :=
  ∀ st, st ∈ steps →
    NoDup (trim_space <$> step_Needs st) ∧
    ∀ raw, raw ∈ step_Needs st →
      trim_space raw ≠ "" ∧ trim_space raw ≠ trim_space (step_ID st) ∧
      ∃ j, j < length steps ∧ step_id steps j = trim_space raw.

Lemma validate_spec w :
  validateWorkflowGraph w = [] ↔
  needs_resolve (wf_Steps w) ∧ find_cycle (adjacency (wf_Steps w)) = None.
Proof.
  unfold validateWorkflowGraph, needs_resolve. rewrite app_nil, bind_nil.
  setoid_rewrite needs_errors_nil. setoid_rewrite lookup_empty. setoid_rewrite stepIndex_known.
  destruct (find_cycle _) as [[]|]; [by split; intros [_ ?]|].
  split; (intros [H _]; split; [|done]); intros st Hin; destruct (H st Hin) as [? Hn];
    (split; [done|]); intros raw Hr; specialize (Hn raw Hr); tauto.
Qed.

Lemma validate_grounded w i :
  validateWorkflowGraph w = [] → Acc (λ j i, depends (wf_Steps w) i j) i.
Proof.
  intros [_ H]%validate_spec. pose proof (find_cycle_steps (wf_Steps w)) as F. by rewrite H in F.
Qed.

(** C33: The graph validation is exact: it reports nothing exactly when the needs of
    every step are non-blank, pairwise distinct names of other steps of the
    workflow and no step depends on itself, directly or through others.  The
    search terminates within its recursion bound. *)
Theorem validateWorkflowGraph_iff w :
  validateWorkflowGraph w = [] ↔
  needs_resolve (wf_Steps w) ∧ ∀ i, ¬ tc (depends (wf_Steps w)) i i.
Proof.
  rewrite validate_spec. pose proof (find_cycle_steps (wf_Steps w)) as F.
  destruct (find_cycle _) as [[i j]|].
  - split; [by intros [_ ?]|]. intros [_ H]. destruct F as [Hd Hr]. destruct (H i).
    by apply tc_rtc_r with j; [by apply tc_once|].
  - split; [|by intros [? _]]. intros [? _]. split; [done|]. intros i. by apply acc_acyclic.
Qed.

Definition demo_step (id : string) (needs : list string) : WorkflowStep :=
  mkStep id "tool.gh.get" "" "" None [] needs true false false.
Definition diamond : WorkflowSpec := mkWorkflow ""
  [demo_step "a" []; demo_step "b" ["a"]; demo_step "c" [" a "]; demo_step "d" ["b"; "c"]] None.

Example diamond_valid : validateWorkflowGraph diamond = [].
Proof. vm_compute. reflexivity. Qed.

Example cycle_found :
  validateWorkflowGraph (mkWorkflow "" [demo_step "a" ["b"]; demo_step "b" ["a"]] None)
  = [NeedsCycle "b" "a"].
Proof. vm_compute. reflexivity. Qed.

(** ** Ancestors *)

Section ancestors.
Context (steps : list WorkflowStep).
#[local] Abbreviation needs := (StepNeedsIDs steps).
#[local] Abbreviation index := (stepIndexByID steps).

(** The needs of the steps not yet expanded. *)
Definition expanded (seen : gset string) (j : nat) : bool :=
  bool_decide (set_Exists (λ id, index !! id = Some j) seen).
Definition pending (seen : gset string) : nat :=
  sum_list_with (λ j, if expanded seen j then 0 else length (needs j)) (seq 0 (length steps)).

Lemma expanded_spec seen j : expanded seen j = true ↔ ∃ id, id ∈ seen ∧ index !! id = Some j.
Proof. unfold expanded. rewrite bool_decide_eq_true. done. Qed.

Lemma expanded_step seen id k :
  index !! id = Some k → id ∉ seen →
  expanded seen k = false ∧ expanded ({[id]} ∪ seen) k = true.
Proof.
  intros Hk Hid. split; [|apply expanded_spec; exists id; split; [set_solver|done]].
  apply not_true_is_false. intros (id' & Hin & Hk')%expanded_spec.
  apply stepIndex_Some in Hk as (_ & <- & _), Hk' as (_ & <- & _). done.
Qed.

Lemma expanded_other seen id k :
  index !! id ≠ Some k → expanded ({[id]} ∪ seen) k = expanded seen k.
Proof.
  intros Hk. apply eq_iff_eq_true. rewrite !expanded_spec. split.
  - intros (id' & [->%elem_of_singleton|H]%elem_of_union & ?); [done|eauto].
  - intros (id' & H & ?). exists id'. split; [set_solver|done].
Qed.

Lemma pending_step seen id k :
  index !! id = Some k → id ∉ seen →
  pending ({[id]} ∪ seen) + length (needs k) = pending seen.
Proof.
  intros Hk Hid. destruct (expanded_step seen id k Hk Hid) as [E1 E2].
  pose proof (proj1 (stepIndex_Some _ _ _ Hk)) as Hlt. unfold pending.
  assert (∀ l, NoDup l → k ∈ l →
    sum_list_with (λ j, if expanded ({[id]} ∪ seen) j then 0 else length (needs j)) l + length (needs k) =
    sum_list_with (λ j, if expanded seen j then 0 else length (needs j)) l) as Hsum.
  { intros l. assert (∀ l, k ∉ l →
      sum_list_with (λ j, if expanded ({[id]} ∪ seen) j then 0 else length (needs j)) l =
      sum_list_with (λ j, if expanded seen j then 0 else length (needs j)) l) as Hsame.
    { clear l. intros l. induction l as [|j l IH]; [done|].
      rewrite not_elem_of_cons. intros [Hj Hl]. simpl. rewrite IH by done.
      rewrite expanded_other; [done|]. rewrite Hk. congruence. }
    induction l as [|j l IH]; [by intros _ ?%elem_of_nil|].
    intros [Hj Hl]%NoDup_cons Hkl. simpl. destruct (decide (j = k)) as [->|Hne].
    - rewrite E1, E2, Hsame by done. lia.
    - apply elem_of_cons in Hkl as [|Hkl]; [done|]. rewrite <-(IH Hl Hkl).
      rewrite expanded_other by (rewrite Hk; congruence). lia. }
  apply Hsum; [apply NoDup_seq|apply elem_of_seq; lia].
Qed.

Lemma pending_out seen id : index !! id = None → pending ({[id]} ∪ seen) = pending seen.
Proof.
  intros Hk. unfold pending. induction (seq 0 (length steps)) as [|j l IH]; [done|].
  simpl. rewrite IH, expanded_other; [done|]. by rewrite Hk.
Qed.
(** The name [id] is needed by step [i], directly or through other steps. *)
Definition needed (i : nat) (id : string) : Prop := ∃ j, rtc (depends steps) i j ∧ id ∈ needs j.

Lemma needed_step i j id : depends steps i j → needed j id → needed i id.
Proof. intros Hd (k & Hr & Hk). exists k. split; [by eapply rtc_l|done]. Qed.

Lemma loop_complete fuel stack seen :
  pending seen + length stack <= fuel →
  (∀ id j, id ∈ seen → index !! id = Some j → ∀ x, x ∈ needs j → x ∈ seen ∨ x ∈ stack) →
  let r := ancestors_loop fuel steps stack seen in
  (∀ x, x ∈ seen ∨ x ∈ stack → x ∈ r) ∧
  (∀ id j, id ∈ r → index !! id = Some j → ∀ x, x ∈ needs j → x ∈ r).
Proof.
  revert stack seen. induction fuel as [|fuel IH]; intros stack seen Hf Hinv; cbn zeta.
  - destruct stack as [|id stack]; simpl in *; [|lia]. split.
    + intros x [?|?%elem_of_nil]; done.
    + intros id j Hid Hj x Hx. by destruct (Hinv id j Hid Hj x Hx) as [?|?%elem_of_nil].
  - destruct stack as [|id stack]; cbn [ancestors_loop].
    { split; [by intros x [?|?%elem_of_nil]|].
      intros id j Hid Hj x Hx. by destruct (Hinv id j Hid Hj x Hx) as [?|?%elem_of_nil]. }
    simpl in Hf. case_bool_decide as Hid.
    { destruct (IH stack seen) as [H1 H2]; [lia| |].
      - intros id' j H' Hj x Hx.
        destruct (Hinv id' j H' Hj x Hx) as [?|[->|?]%elem_of_cons]; auto.
      - split; [|done]. intros x [?|[->|?]%elem_of_cons]; auto. }
    destruct (index !! id) as [k|] eqn:Ek.
    + pose proof (pending_step seen id k Ek Hid) as Hp.
      destruct (IH (rev (needs k) ++ stack) ({[id]} ∪ seen)) as [H1 H2].
      * rewrite length_app, length_rev. lia.
      * intros id' j H' Hj x Hx. rewrite elem_of_app, list_elem_of_In, <-in_rev, <-list_elem_of_In.
        apply elem_of_union in H' as [->%elem_of_singleton|H'].
        -- rewrite Ek in Hj. injection Hj as <-. auto.
        -- destruct (Hinv id' j H' Hj x Hx) as [?|[->|?]%elem_of_cons]; set_solver.
      * split; [|done]. intros x Hx. apply H1.
        destruct Hx as [?|[->|?]%elem_of_cons]; [set_solver..|].
        right. apply elem_of_app. auto.
    + pose proof (pending_out seen id Ek) as Hp.
      destruct (IH stack ({[id]} ∪ seen)) as [H1 H2].
      * lia.
      * intros id' j H' Hj x Hx.
        apply elem_of_union in H' as [->%elem_of_singleton|H']; [congruence|].
        destruct (Hinv id' j H' Hj x Hx) as [?|[->|?]%elem_of_cons]; set_solver.
      * split; [|done]. intros x Hx. apply H1.
        destruct Hx as [?|[->|?]%elem_of_cons]; set_solver.
Qed.

Lemma loop_sound fuel stack seen i :
  (∀ x, x ∈ seen ∨ x ∈ stack → needed i x) →
  ∀ x, x ∈ ancestors_loop fuel steps stack seen → needed i x.
Proof.
  revert stack seen. induction fuel as [|fuel IH]; intros stack seen H; simpl; [by eauto|].
  destruct stack as [|id stack]; [by eauto|]. case_bool_decide.
  - apply IH. intros x [?|?]; apply H; [by left|right; by right].
  - assert (needed i id) as Hid by (apply H; right; by left).
    destruct (index !! id) as [k|] eqn:Ek; apply IH; intros x.
    + rewrite elem_of_app, list_elem_of_In, <-in_rev, <-list_elem_of_In.
      intros [[->%elem_of_singleton|?]%elem_of_union|[Hx|?]]; [done|by auto| |apply H; right; by right].
      destruct Hid as (j & Hr & Hj). exists k. split; [|done]. eapply rtc_r; [exact Hr|]. by exists id.
    + intros [[->%elem_of_singleton|?]%elem_of_union|?]; [done|by auto|apply H; right; by right].
Qed.

Lemma StepAncestorIDs_spec i id : id ∈ StepAncestorIDs steps i ↔ needed i id.
Proof.
  unfold StepAncestorIDs. assert (∀ x, x ∈ rev (needs i) ↔ x ∈ needs i) as Hrev.
  { intros x. by rewrite !list_elem_of_In, <-in_rev. }
  split.
  - apply loop_sound. intros x [Hx|Hx]; [set_solver|]. apply Hrev in Hx. by exists i.
  - intros (j & Hr & Hj).
    destruct (loop_complete (ancestors_fuel steps i) (rev (needs i)) ∅) as [H1 H2].
    + unfold ancestors_fuel, pending. rewrite length_rev.
      assert (∀ l, sum_list_with (λ j, if expanded ∅ j then 0 else length (needs j)) l <=
                   sum_list_with (λ j, length (needs j)) l) as Hle; [|specialize (Hle (seq 0 (length steps))); lia].
      intros l. induction l as [|k l IH]; simpl; [done|]. destruct (expanded ∅ k); lia.
    + set_solver.
    + set (r := ancestors_loop _ _ _ _) in *.
      assert (∀ x, x ∈ needs i → x ∈ r) as Hi by (intros x Hx; apply H1; right; by apply Hrev).
      clear H1 Hrev. clearbody r. induction Hr as [i|i k j (x & Hx & Hk) _ IH]; [by apply Hi|].
      apply IH; [done|]. apply (H2 x k); [by apply Hi|done].
Qed.
End ancestors.

(** The ancestors of a step are exactly the names it needs, directly or through
    any chain of steps; the loop visits all of them within its fuel, on cyclic and
    dangling graphs too. *)
Theorem StepAncestorIDs_iff steps i id :
  id ∈ StepAncestorIDs steps i ↔ ∃ j, rtc (depends steps) i j ∧ id ∈ StepNeedsIDs steps j.
Proof. apply StepAncestorIDs_spec. Qed.

Example diamond_ancestors : StepAncestorIDs (wf_Steps diamond) 3 = {[ "a"; "b"; "c" ]}.
Proof. vm_compute. reflexivity. Qed.
