(* ===== verification/StepRefs.v ===== *)
(** * Checks of the steps of a workflow ([internal/spec/resolve.go], [refs.go])

    The references a step makes to other steps and the two checks of the steps
    that reference resolution runs beside the graph validation: the shape of each
    step, and that a reference names a predecessor.  Both report the first
    constructor of their error for each defect; messages and positions are left
    out. *)

From S2P Require Import Prelude GoNum GoText Value JsonText SpecTools SpecGraph.

(** ** References ([refs.go], [approval.go]) *)

Definition ParseToolUses (uses : string) : option string :=
  let uses := trim_space uses in
  if has_prefix uses tool_prefix then
    let rest := trim_prefix uses tool_prefix in
    if (rest =? "")%string then None
    else match cut_byte "." rest with
         | None => Some rest
         | Some (name, _) => if (name =? "")%string then None else Some name
         end
  else None.

(** The class [a-zA-Z0-9_-] of the reference pattern. *)
Definition ref_char (c : ascii) : bool :=
  let n := N_of_ascii c in
  ((97 <=? n) && (n <=? 122) || (65 <=? n) && (n <=? 90) || (48 <=? n) && (n <=? 57)
   || (n =? 95) || (n =? 45))%N.

Definition steps_open : string := "${steps.".

(** The pattern [\$\{steps\.([a-zA-Z0-9_-]+)\.] at the head of a string: the
    class has no dot, so the greedy group ends at the first one. *)
Definition match_step_ref (s : string) : option string :=
  if has_prefix s steps_open then
    match cut_byte "." (trim_prefix s steps_open) with
    | Some (id, _) => if negb (id =? "")%string && str_forall ref_char id then Some id else None
    | None => None
    end
  else None.

(** The matches in a string; no match starts inside another, since the class and
    the prefix hold one dollar sign only. *)
Fixpoint step_refs (s : string) : list string :=
  match s with
  | "" => []
  | String _ t =>
      match match_step_ref s with
      | Some id => id :: step_refs t
      | None => step_refs t
      end
  end.

Definition InterpolationStepRefs (s : string) : list string := dedup id (step_refs s).

Fixpoint stringifyForRefs (v : value) : list string :=
  match v with
  | VNil => []
  | VStr s => [s]
  | VInt i => [fmt_Z i]
  | VFloat f => [format_float_g f]
  | VBool b => [if b then "true" else "false"]
  | VList l => l ≫= λ x, stringifyForRefs x
  | VMap m => m ≫= λ kv, match kv with (_, x) => stringifyForRefs x end
  end.

(** The source walks the map in a random order; only which error is first
    depends on it. *)
Definition CollectWithStringValues (with_ : list (string * value)) : list string :=
  with_ ≫= λ kv, stringifyForRefs kv.2.

Definition StepIsApproval (st : WorkflowStep) : bool :=
  match step_Approval st with Some a => wav_Enabled a | None => false end.

Definition DefaultApprovalStepDescription : string := "Workflow step requires approval".

Definition ApprovalStepDescription (st : WorkflowStep) : string :=
  match step_Approval st ≫= wav_Config with
  | Some cfg =>
      let d := trim_space (wac_Description cfg) in
      if (d =? "")%string then DefaultApprovalStepDescription else d
  | None => DefaultApprovalStepDescription
  end.

(** ** The shape of the steps *)

Inductive step_error :=
  | SlashInID (id : string)
  | DuplicateID (id : string)
  | TooManyKinds (id : string)
  | NoKind (id : string)
  | UnsupportedUses (id uses : string).

Definition is_set (s : string) : bool := negb (trim_space s =? "")%string.
Definition step_kinds (st : WorkflowStep) : nat :=
  length (List.filter id [is_set (step_Agent st); is_set (step_Uses st);
    is_set (step_Workflow st); StepIsApproval st]).

Fixpoint validateWorkflowStepErrors_go (seenID : gset string) (steps : list WorkflowStep)
    : list step_error :=
  match steps with
  | [] => []
  | st :: steps =>
      let sid := trim_space (step_ID st) in
      let named := negb (sid =? "")%string in
      if named && str_contains_byte "/" sid
      then SlashInID sid :: validateWorkflowStepErrors_go seenID steps
      else if named && bool_decide (sid ∈ seenID)
      then DuplicateID sid :: validateWorkflowStepErrors_go seenID steps
      else
        let seenID := if named then {[sid]} ∪ seenID else seenID in
        (if decide (1 < step_kinds st) then [TooManyKinds sid]
         else if decide (step_kinds st = 0) then [NoKind sid]
         else if is_set (step_Uses st) then
           let u := trim_space (step_Uses st) in
           match ParseToolUses u with Some _ => [] | None => [UnsupportedUses sid u] end
         else []) ++
        validateWorkflowStepErrors_go seenID steps
  end.
Definition validateWorkflowStepErrors (w : WorkflowSpec) : list step_error :=
  validateWorkflowStepErrors_go ∅ (wf_Steps w).

(** ** References name predecessors *)

Inductive order_error :=
  | UnknownStep (step dep : string)
  | ForwardReference (step dep : string)
  | NotPredecessor (step dep : string).

(** [idToIdx]: the last step of each name. *)
Definition idToIdx (steps : list WorkflowStep) : gmap string nat :=
  list_to_map (rev (omap (λ p : nat * WorkflowStep,
    let id := trim_space (step_ID p.2) in
    if (id =? "")%string then None else Some (id, p.1)) (zip (seq 0 (length steps)) steps))).

Definition check_ref (steps : list WorkflowStep) (i : nat) (sid dep : string)
    : option order_error :=
  match idToIdx steps !! dep with
  | None => Some (UnknownStep sid dep)
  | Some j =>
      if decide (dep ∈ StepAncestorIDs steps i) then None
      else if negb (WorkflowUsesExplicitNeeds steps) && (i <=? j)
      then Some (ForwardReference sid dep) else Some (NotPredecessor sid dep)
  end.

(** The first error of a walk. *)
Fixpoint first_error {A E} (f : A → option E) (l : list A) : option E :=
  match l with
  | [] => None
  | x :: l => match f x with Some e => Some e | None => first_error f l end
  end.

Definition validateWorkflowStepOrder (w : WorkflowSpec) : option order_error :=
  let steps := wf_Steps w in
  first_error (λ p : nat * WorkflowStep,
    let '(i, st) := p in
    if step_Synthetic st then None
    else first_error (check_ref steps i (trim_space (step_ID st)))
           (CollectWithStringValues (step_With st) ≫= InterpolationStepRefs))
    (zip (seq 0 (length steps)) steps).

(** ** Lemmas *)

Lemma first_error_None {A E} (f : A → option E) l :
  first_error f l = None ↔ ∀ x, x ∈ l → f x = None.
Proof.
  induction l as [|x l IH]; simpl; [split; [by intros _ ? ?%elem_of_nil|done]|].
  setoid_rewrite elem_of_cons. destruct (f x) eqn:Ef; [|rewrite IH]; naive_solver.
Qed.

Lemma kinds_accepted (n : nat) (x y : step_error) (l : list step_error) :
  (if decide (1 < n) then [x] else if decide (n = 0) then [y] else l) = [] → n = 1.
Proof. repeat case_decide; [done..|lia]. Qed.

(** What the shape check of an accepted workflow gives. *)
Lemma step_errors_nil seen steps :
  validateWorkflowStepErrors_go seen steps = [] →
  (∀ i st, steps !! i = Some st → step_kinds st = 1) ∧
  (∀ i st, steps !! i = Some st → trim_space (step_ID st) ≠ "" → trim_space (step_ID st) ∉ seen) ∧
  ∀ i j st st', steps !! i = Some st → steps !! j = Some st' →
    trim_space (step_ID st) = trim_space (step_ID st') → trim_space (step_ID st) ≠ "" → i = j.
Proof.
  revert seen. induction steps as [|st steps IH]; intros seen; cbn [validateWorkflowStepErrors_go].
  { done. }
  destruct (String.eqb_spec (trim_space (step_ID st)) "") as [E|Hne]; cbn [negb andb].
  all: try (destruct (str_contains_byte _ _); [done|]).
  all: try (case_bool_decide as Hs; [done|]).
  all: intros [Hk Hrest]%app_nil; apply IH in Hrest as (H1 & H2 & H3).
  all: apply kinds_accepted in Hk.
  all: split_and!; [intros [|i] st' Hi; simplify_eq/=; eauto| |].
  - intros [|i] st' Hi Hn; simplify_eq/=. exact (H2 i st' Hi Hn).
  - intros [|i] [|j] st1 st2 Hi Hj He Hn; simplify_eq/=; try congruence.
    by rewrite (H3 i j st1 st2).
  - intros [|i] st' Hi Hn; simplify_eq/=; [done|]. specialize (H2 i st' Hi Hn). set_solver.
  - intros [|i] [|j] st1 st2 Hi Hj He Hn; simplify_eq/=; [done|exfalso..|by rewrite (H3 i j st1 st2)].
    + apply (H2 j st2 Hj); [congruence|]. rewrite <-He. set_solver.
    + apply (H2 i st1 Hi Hn). rewrite He. set_solver.
Qed.

Lemma elem_of_refs id s : id ∈ InterpolationStepRefs s ↔ id ∈ step_refs s.
Proof. apply elem_of_dedup_id. Qed.

(** A reference at the head of a string: the prefix, the name, a dot. *)
Lemma match_step_ref_Some s id :
  match_step_ref s = Some id ↔
  id ≠ "" ∧ str_forall ref_char id = true ∧ ∃ rest, s = steps_open +:+ (id +:+ String "." rest).
Proof.
  assert (∀ r, trim_prefix (steps_open +:+ r) steps_open = r) as Htrim by apply trim_prefix_app.
  unfold match_step_ref. split.
  - destruct (has_prefix s steps_open) eqn:Ep; [|done]. apply has_prefix_spec in Ep as [r ->].
    rewrite Htrim. destruct (cut_byte "." r) as [[a b]|] eqn:Ec; [|done].
    apply cut_byte_Some in Ec as [-> _]. intros Hm. destruct (negb (a =? "")%string && _) eqn:E; [|done].
    injection Hm as ->. bool_inv. split_and!; [done..|]. by exists b.
  - intros (Hne & Hid & rest & ->).
    assert (has_prefix (steps_open +:+ (id +:+ String "." rest)) steps_open = true) as ->
      by (apply has_prefix_spec; by eexists).
    rewrite Htrim. assert (cut_byte "." (id +:+ String "." rest) = Some (id, rest)) as ->.
    { apply cut_byte_Some. split; [done|]. by apply (str_forall_contains ref_char). }
    apply String.eqb_neq in Hne. by rewrite Hne, Hid.
Qed.

Lemma match_step_ref_app s t id : match_step_ref s = Some id → match_step_ref (s +:+ t) = Some id.
Proof.
  rewrite !match_step_ref_Some. intros (Hne & Hid & rest & ->). split_and!; [done..|].
  exists (rest +:+ t). by rewrite !string_app_assoc, string_app_cons.
Qed.

(** A reference anywhere in a string is found. *)
Lemma step_refs_app pre s id : match_step_ref s = Some id → id ∈ step_refs (pre +:+ s).
Proof.
  intros Hm. induction pre as [|c pre IH].
  - rewrite string_app_nil_l. destruct s as [|c s]; [done|]. cbn [step_refs]. rewrite Hm. by left.
  - rewrite string_app_cons. cbn [step_refs]. case_match; [right|]; done.
Qed.
