(* ===== verification/LowerYaml.v ===== *)
(** * Lowering of YAML workflows ([internal/lang/lower/workflow_resource.go],
      [return_shape.go])

    A workflow resource becomes a program of the execution IR: a graph node when
    the workflow declares needs, a flat list otherwise, and a Return for the
    output.  The lowerer's diagnostics are collected beside the result; their
    positions and texts are left out.  The shape of the output document is the
    classification the engine applies to the returned value ([execIROutput] of
    [internal/engine/execir_invoker.go]). *)

From S2P Require Import Prelude GoNum GoText Value ExecIR ExecEval.
From S2P Require Import SpecTools SpecGraph StepRefs.

(** ** Interpolation tokens *)

(** The first [${] and the text around it. *)
Fixpoint cut_open (s : string) : option (string * string) :=
  match s with
  | "" => None
  | String c t =>
      if has_prefix s "${" then Some ("", trim_prefix s "${")
      else match cut_open t with
           | Some (a, b) => Some (String c a, b)
           | None => None
           end
  end.

(** The matches of the token pattern (an opening, any bytes but a closing brace,
    a closing brace) and the text between them. *)
Inductive piece := Text (s : string) | Token (inner : string).

Definition text (s : string) : list piece := if (s =? "")%string then [] else [Text s].

Fixpoint pieces_go (fuel : nat) (s : string) : list piece :=
  match fuel with
  | O => text s
  | S fuel =>
      match cut_open s with
      | None => text s
      | Some (pre, rest) =>
          match cut_byte "}" rest with
          | None => text s
          | Some (inner, post) => text pre ++ Token inner :: pieces_go fuel post
          end
      end
  end.
Definition pieces (s : string) : list piece := pieces_go (String.length s) s.

Definition splitDotPath (path : string) : list string :=
  List.filter (λ p, negb (p =? "")%string) (trim_space <$> split_byte "." path).

Inductive lower_diag :=
  | NoCallee (step : string)
  | EmptyInterpolation
  | StepsRefTooShort (inner : string)
  | BadStepsSlot (id slot : string)
  | BadRefRoot (inner : string).

(** [mapRefPath], with the diagnostics it adds. *)
Definition mapRefPath (inner : string) : list string * list lower_diag :=
  match splitDotPath inner with
  | [] => ([], [EmptyInterpolation])
  | root :: parts =>
      if (root =? "input")%string then (root :: parts, [])
      else if (root =? "steps")%string then
        match parts with
        | id :: slot :: rest =>
            if (slot =? "output")%string then (id :: rest, [])
            else if (slot =? "meta")%string then (id :: "meta" :: rest, [])
            else (id :: slot :: rest, [BadStepsSlot id slot])
        | _ => (parts, [StepsRefTooShort inner])
        end
      else (root :: parts, [BadRefRoot inner])
  end.

Definition wholeFieldToken (s : string) : option string :=
  match pieces s with [Token inner] => Some (trim_space inner) | _ => None end.

Definition lower_token (inner : string) : operand * list lower_diag :=
  let '(path, ds) := mapRefPath (trim_space inner) in (Ref path, ds).
Definition lower_piece (p : piece) : operand * list lower_diag :=
  match p with Text s => (Lit (VStr s), []) | Token inner => lower_token inner end.

Definition is_token (p : piece) : bool := match p with Token _ => true | Text _ => false end.

Definition lowerString (s : string) : operand * list lower_diag :=
  match wholeFieldToken s with
  | Some inner => let '(path, ds) := mapRefPath inner in (Ref path, ds)
  | None =>
      if existsb is_token (pieces s)
      then (Template (fst <$> (lower_piece <$> pieces s)), pieces s ≫= λ p, (lower_piece p).2)
      else (Lit (VStr s), [])
  end.

(** ** Values *)

(** [canonicalScalar] maps the integer kinds to int64 and float32 to float64;
    values have one constructor for each. *)
Definition canonicalScalar (v : value) : value := v.

Fixpoint lowerYAMLValue (v : value) : operand * list lower_diag :=
  match v with
  | VStr s => lowerString s
  | VMap m =>
      let fs := sort_by fst ((λ kv, match kv with (k, x) => (k, lowerYAMLValue x) end) <$> m) in
      (Object ((λ f, (f.1, f.2.1)) <$> fs), fs ≫= λ f, f.2.2)
  | VList l =>
      let es := (λ x, lowerYAMLValue x) <$> l in (EList (fst <$> es), es ≫= snd)
  | v => (Lit (canonicalScalar v), [])
  end.

Definition lowerWith (with_ : list (string * value)) : args * list lower_diag :=
  let fs := (λ kv, (kv.1, lowerYAMLValue kv.2)) <$> with_ in
  (list_to_map ((λ f, (f.1, f.2.1)) <$> fs), fs ≫= λ f, f.2.2).

Definition singleValueField (m : list (string * value)) : option value :=
  match m with
  | [(k, v)] => if (k =? "value")%string then Some v else None
  | _ => None
  end.

Definition lowerOutput (out : option (list (string * value))) : list node * list lower_diag :=
  match out with
  | None => ([], [])
  | Some m =>
      let '(v, ds) := lowerYAMLValue (default (VMap m) (singleValueField m)) in ([Return v], ds)
  end.

(** ** Steps and workflows *)

Definition approvalRedactKeys (st : WorkflowStep) : list string :=
  match step_Approval st ≫= wav_Config with Some cfg => wac_RedactKeys cfg | None => [] end.

Definition lowerStep (st : WorkflowStep) : node * list lower_diag :=
  let bind := trim_space (step_ID st) in
  let '(a, ds) := lowerWith (step_With st) in
  if StepIsApproval st
  then (Approval bind (ApprovalStepDescription st) (approvalRedactKeys st) a, ds)
  else if is_set (step_Uses st) then (InvokeTool bind (step_Uses st) a, ds)
  else if is_set (step_Agent st) then (InvokeAgent bind (step_Agent st) a (step_WholeDocument st), ds)
  else if is_set (step_Workflow st) then (InvokeWorkflow bind (step_Workflow st) a false false, ds)
  else (InvokeAgent bind "" ∅ false, [NoCallee bind]).

Definition lower_nodes (steps : list WorkflowStep) : list (string * list string * node) :=
  imap (λ i st, (trim_space (step_ID st), StepNeedsIDs steps i, (lowerStep st).1)) steps.

Definition LowerWorkflowResource (name : string) (w : WorkflowSpec) : program * list lower_diag :=
  let steps := wf_Steps w in
  let '(ret, ds) := lowerOutput (wf_Output w) in
  ({| Workflow := name;
      Params := ["input"];
      Body := (if WorkflowUsesExplicitNeeds steps then [Graph (lower_nodes steps)]
               else (λ st, (lowerStep st).1) <$> steps) ++ ret |},
   (steps ≫= λ st, (lowerStep st).2) ++ ds).

(** ** The output document ([return_shape.go]) *)

Inductive ReturnShape := ReturnNone | ReturnDocument | ReturnValueEnvelope.

(** The Return nodes anywhere in a list of nodes. *)
Fixpoint returns_of (n : node) : list operand :=
  match n with
  | Return v => [v]
  | Branch _ t e => (t ≫= λ x, returns_of x) ++ (e ≫= λ x, returns_of x)
  | Loop _ _ b _ | While _ _ b | Retry _ _ b => b ≫= λ x, returns_of x
  | Fork bs => bs ≫= λ b, match b with (_, ns) => ns ≫= λ x, returns_of x end
  | Graph gs => gs ≫= λ g, match g with (_, x) => returns_of x end
  | _ => []
  end.
Definition walkReturns (nodes : list node) : list operand := nodes ≫= returns_of.

Definition is_object (o : operand) : bool := match o with Object _ => true | _ => false end.
Definition countReturns (nodes : list node) : nat * nat :=
  (length (walkReturns nodes), length (List.filter is_object (walkReturns nodes))).
Definition soleReturn (nodes : list node) : option operand :=
  match walkReturns nodes with [v] => Some v | _ => None end.

Fixpoint mirrorsYAML (o : operand) (x : value) {struct o} : bool :=
  match o with
  | Object fs =>
      match x with
      | VMap m =>
          (length fs =? length m) &&
          forallb (λ f, match f with (k, v) =>
            match map_get m k with Some sub => mirrorsYAML v sub | None => false end end) fs
      | _ => false
      end
  | _ => match x with VMap _ => false | _ => true end
  end.

Definition isYAMLMapEnvelope (ret : option operand) (out : option (list (string * value))) : bool :=
  match ret, out with
  | Some o, Some m =>
      match singleValueField m with
      | Some (VMap x) => mirrorsYAML o (VMap x)
      | _ => false
      end
  | _, _ => false
  end.

Definition WorkflowReturnShape (prog : program) (w : WorkflowSpec) : ReturnShape :=
  let '(returns, objects) := countReturns (Body prog) in
  if returns =? 0 then ReturnNone
  else if negb (returns =? objects) then ReturnValueEnvelope
  else if (returns =? 1) && isYAMLMapEnvelope (soleReturn (Body prog)) (wf_Output w)
  then ReturnValueEnvelope
  else ReturnDocument.

(** [execIROutput]: the output document, or the error that the returned value is
    no object. *)
Definition execIROutput (prog : program) (w : WorkflowSpec) (ret : value) : option value :=
  match WorkflowReturnShape prog w with
  | ReturnNone => Some (VMap [])
  | ReturnDocument =>
      match ret with
      | VMap m => Some (VMap m)
      | VNil => Some (VMap [])
      | _ => None
      end
  | ReturnValueEnvelope => Some (VMap [("value", ret)])
  end.

(** ** Tokens of a string *)

Lemma cut_open_Some s a b : cut_open s = Some (a, b) → s = a +:+ ("${" +:+ b).
Proof.
  revert a b. induction s as [|c s IH]; intros a b; [done|]. cbn [cut_open].
  destruct (has_prefix (String c s) "${") eqn:Ep.
  - apply has_prefix_spec in Ep as [r E]. rewrite E, trim_prefix_app. intros [= <- <-].
    by rewrite string_app_nil_l.
  - destruct (cut_open s) as [[a' b']|]; [|done]. intros [= <- <-].
    rewrite string_app_cons. f_equal. by apply IH.
Qed.

Lemma text_no_token s inner : Token inner ∉ text s.
Proof. unfold text. case_match; [apply not_elem_of_nil|]. by intros ?%list_elem_of_singleton. Qed.

(** A token occurs in the string. *)
Lemma pieces_token s inner :
  Token inner ∈ pieces s → ∃ pre post, s = pre +:+ ("${" +:+ (inner +:+ String "}" post)).
Proof.
  unfold pieces. generalize (String.length s). intros fuel. revert s.
  induction fuel as [|fuel IH]; intros s; cbn [pieces_go]; [by intros ?%text_no_token|].
  destruct (cut_open s) as [[pre rest]|] eqn:Eo; [|by intros ?%text_no_token].
  apply cut_open_Some in Eo as ->.
  destruct (cut_byte "}" rest) as [[i post]|] eqn:Ec; [|by intros ?%text_no_token].
  apply cut_byte_Some in Ec as [-> _].
  rewrite elem_of_app, elem_of_cons. intros [?%text_no_token|[[= ->]|Hin]]; [done|by exists pre, post|].
  apply IH in Hin as (pre' & post' & ->).
  exists (pre +:+ ("${" +:+ (i +:+ String "}" pre'))), post'.
  rewrite !string_app_assoc, string_app_cons. done.
Qed.

(** The step a token refers to. *)
Definition token_step (inner : string) : option string :=
  match splitDotPath (trim_space inner) with
  | root :: id :: _ => if (root =? "steps")%string then Some id else None
  | _ => None
  end.

(** The tokens that refer to a step are spelled as the validation reads them. *)
Definition spelled (s : string) : bool :=
  forallb (λ p, match p with
    | Text _ => true
    | Token inner =>
        match token_step inner with
        | Some id => bool_decide (match_step_ref ("${" +:+ inner) = Some id)
        | None => true
        end
    end) (pieces s).

(** The steps the tokens of a string refer to. *)
Definition token_steps (s : string) : list string :=
  omap (λ p, match p with Text _ => None | Token inner => token_step inner end) (pieces s).

Lemma token_steps_refs s id :
  spelled s = true → id ∈ token_steps s → id ∈ InterpolationStepRefs s.
Proof.
  unfold spelled, token_steps. rewrite forallb_forall. intros Hs (p & Hp & Ht)%list_elem_of_omap.
  destruct p as [|inner]; [done|]. specialize (Hs _ (proj1 (list_elem_of_In _ _) Hp)). simpl in Hs.
  rewrite Ht in Hs. apply bool_decide_eq_true in Hs. apply elem_of_refs.
  apply pieces_token in Hp as (pre & post & ->). apply step_refs_app.
  rewrite <-string_app_assoc. by apply match_step_ref_app.
Qed.

(** ** Lowered operands

    Without a diagnostic, an operand is well-formed and reads the workflow input
    and the steps its tokens refer to. *)

Definition reads (o : operand) (l : list string) : Prop :=
  op_wf o = true ∧ ∀ h, h ∈ op_heads o → h = "input" ∨ h ∈ l.

Lemma mapRefPath_reads inner path :
  mapRefPath (trim_space inner) = (path, []) →
  ∃ h segs, path = h :: segs ∧ (h = "input" ∨ token_step inner = Some h).
Proof.
  unfold mapRefPath, token_step. destruct (splitDotPath _) as [|root parts]; [done|].
  destruct (String.eqb_spec root "input") as [->|_]; [intros [= <-]; eauto|].
  destruct (root =? "steps")%string; [|done].
  destruct parts as [|id [|slot rest]]; [done..|].
  destruct (slot =? "output")%string; [intros [= <-]; eauto|].
  destruct (slot =? "meta")%string; [intros [= <-]; eauto|done].
Qed.

Lemma lower_token_reads inner o l :
  lower_token inner = (o, []) → (∀ id, token_step inner = Some id → id ∈ l) → reads o l.
Proof.
  unfold lower_token. destruct (mapRefPath _) as [path ds] eqn:E. intros [= <- ->] Hl.
  apply mapRefPath_reads in E as (h & segs & -> & Hh). split; [done|]. simpl.
  intros h' ->%list_elem_of_singleton. destruct Hh; auto.
Qed.

Lemma lowerString_reads s o : lowerString s = (o, []) → reads o (token_steps s).
Proof.
  assert (∀ inner, Token inner ∈ pieces s → ∀ id, token_step inner = Some id → id ∈ token_steps s) as Hin.
  { intros inner Hp id Hid. apply list_elem_of_omap. by exists (Token inner). }
  unfold lowerString. destruct (wholeFieldToken s) as [inner|] eqn:Ew.
  - unfold wholeFieldToken in Ew. destruct (pieces s) as [|[|i] [|]] eqn:Ep; try done.
    injection Ew as <-. intros Hl. apply (lower_token_reads i).
    + unfold lower_token. by destruct (mapRefPath _).
    + apply Hin. by left.
  - destruct (existsb is_token (pieces s)); [|intros [= <-]; by split; [|intros ? ?%elem_of_nil]].
    intros [= <- Hds]. rewrite bind_nil in Hds.
    assert (∀ p, p ∈ pieces s → reads (lower_piece p).1 (token_steps s)) as Hp.
    { intros [t|i] Hpi; [by split; [|intros ? ?%elem_of_nil]|]. specialize (Hds _ Hpi). simpl in *.
      apply (lower_token_reads i); [|by apply Hin]. by destruct (lower_token i); simplify_eq/=. }
    split; simpl.
    + apply forallb_forall. intros x Hx%list_elem_of_In.
      apply list_elem_of_fmap in Hx as (y & -> & (p & -> & Hpi)%list_elem_of_fmap). by apply Hp.
    + intros h (x & Hx & Hh)%list_elem_of_bind.
      apply list_elem_of_fmap in Hh as (y & -> & (p & -> & Hpi)%list_elem_of_fmap). by eapply Hp.
Qed.

(** The strings of a value. *)
Definition value_steps (v : value) : list string := stringifyForRefs v ≫= token_steps.

Lemma reads_mono o l l' : (∀ x, x ∈ l → x ∈ l') → reads o l → reads o l'.
Proof. intros Hl [Hw Hr]. split; [done|]. intros h [?|?]%Hr; auto. Qed.

Lemma value_steps_elem (l : list value) v x :
  v ∈ l → x ∈ value_steps v → x ∈ (l ≫= stringifyForRefs) ≫= token_steps.
Proof.
  intros Hv (s & Hx & Hs)%list_elem_of_bind. apply list_elem_of_bind. exists s. split; [done|].
  apply list_elem_of_bind. by exists v.
Qed.

Lemma lowerYAMLValue_reads v :
  (lowerYAMLValue v).2 = [] → reads (lowerYAMLValue v).1 (value_steps v).
Proof.
  induction v as [|b|i|f|s|l IH|m IH] using value_nested_ind; intros Hd;
    try (by split; [|intros ? ?%elem_of_nil]).
  - simpl in *. destruct (lowerString s) as [o ds] eqn:E. simpl in *. subst ds.
    unfold value_steps. simpl. rewrite app_nil_r. by apply lowerString_reads.
  - cbn [lowerYAMLValue fst snd] in *. rewrite bind_nil in Hd. rewrite Forall_forall in IH.
    assert (∀ x, x ∈ l → reads (lowerYAMLValue x).1 (value_steps (VList l))) as Hx.
    { intros x Hx. eapply reads_mono, (IH x Hx).
      - intros y. by apply value_steps_elem.
      - apply (Hd (lowerYAMLValue x)), list_elem_of_fmap. by exists x. }
    split; simpl.
    + apply forallb_forall. intros o Ho%list_elem_of_In.
      apply list_elem_of_fmap in Ho as (y & -> & (x & -> & Hxl)%list_elem_of_fmap). by apply Hx.
    + intros h (o & Hh & Ho)%list_elem_of_bind.
      apply list_elem_of_fmap in Ho as (y & -> & (x & -> & Hxl)%list_elem_of_fmap). by eapply Hx.
  - cbn [lowerYAMLValue fst snd] in *. rewrite bind_nil in Hd. rewrite Forall_forall in IH.
    assert (∀ f, f ∈ sort_by fst ((λ kv : string * value, let (k, x) := kv in (k, lowerYAMLValue x)) <$> m) →
      reads f.2.1 (value_steps (VMap m))) as Hx.
    { intros f Hf. specialize (Hd f Hf). rewrite elem_of_sort_by in Hf.
      apply list_elem_of_fmap in Hf as ([k x] & -> & Hin). simpl in *.
      eapply reads_mono, (IH _ Hin); [|done]. simpl. intros y (s & Hy & Hs)%list_elem_of_bind.
      apply list_elem_of_bind. exists s. split; [done|]. apply list_elem_of_bind. by exists (k, x). }
    split; simpl.
    + apply forallb_forall. intros [k o] Ho%list_elem_of_In.
      apply list_elem_of_fmap in Ho as (f & [= -> ->] & Hf). by apply Hx.
    + intros h ([k o] & Hh & Ho)%list_elem_of_bind.
      apply list_elem_of_fmap in Ho as (f & [= -> ->] & Hf). by eapply Hx.
Qed.

Lemma lowerWith_reads w k o :
  (lowerWith w).2 = [] → (lowerWith w).1 !! k = Some o →
  reads o (CollectWithStringValues w ≫= token_steps).
Proof.
  unfold lowerWith. simpl. rewrite bind_nil. intros Hd Hk%elem_of_list_to_map_2.
  apply list_elem_of_fmap in Hk as (f & [= -> ->] & (kv & -> & Hin)%list_elem_of_fmap). simpl.
  eapply reads_mono, lowerYAMLValue_reads.
  - intros y (s & Hy & Hs)%list_elem_of_bind. apply list_elem_of_bind. exists s. split; [done|].
    apply list_elem_of_bind. by exists kv.
  - apply (Hd (kv.1, lowerYAMLValue kv.2)), list_elem_of_fmap. by exists kv.
Qed.

(** ** The output document *)

Lemma lowerString_not_object s : is_object (lowerString s).1 = false.
Proof.
  unfold lowerString. destruct (wholeFieldToken s); [by destruct (mapRefPath _)|].
  by destruct (existsb _ _).
Qed.

(** The lowering of a value mirrors it. *)
Lemma mirrors_lowered v : value_wf v → mirrorsYAML (lowerYAMLValue v).1 v = true.
Proof.
  induction v as [|b|i|f|s|l IH|m IH] using value_nested_ind; intros Hw; try done.
  - cbn [lowerYAMLValue]. pose proof (lowerString_not_object s) as Hn. by destruct (lowerString s) as [[]].
  - cbn [lowerYAMLValue fst mirrorsYAML]. apply andb_true_iff. split.
    + apply Nat.eqb_eq. by rewrite length_fmap, (sort_by_Permutation fst), length_fmap.
    + apply forallb_forall. intros [k o] Hin%list_elem_of_In.
      apply list_elem_of_fmap in Hin as (f & [= -> ->] & Hf). rewrite elem_of_sort_by in Hf.
      apply list_elem_of_fmap in Hf as ([k x] & -> & Hkx). simpl.
      pose proof (wf_map_NoDup _ Hw) as Hnd. inversion Hw as [| | | | | |? Hvs _]; subst.
      rewrite (proj2 (map_get_Some m k x Hnd) Hkx). rewrite Forall_forall in IH, Hvs.
      by apply (IH _ Hkx), (Hvs _ Hkx).
Qed.

Lemma lowerStep_returns st : returns_of (lowerStep st).1 = [].
Proof. unfold lowerStep. destruct (lowerWith _). by repeat case_match. Qed.

Lemma lowered_returns name w :
  walkReturns (Body (LowerWorkflowResource name w).1) = (lowerOutput (wf_Output w)).1 ≫= returns_of.
Proof.
  unfold LowerWorkflowResource. destruct (lowerOutput _) as [ret ds]. simpl.
  unfold walkReturns. rewrite bind_app. set (b := if WorkflowUsesExplicitNeeds _ then _ else _).
  assert (b ≫= returns_of = []) as ->; [|done]. subst b.
  destruct (WorkflowUsesExplicitNeeds _).
  - cbn. rewrite app_nil_r. apply bind_nil. intros g Hg. unfold lower_nodes in Hg.
    apply elem_of_lookup_imap in Hg as (i & st & -> & _). apply lowerStep_returns.
  - apply bind_nil. intros n (st & -> & _)%list_elem_of_fmap. apply lowerStep_returns.
Qed.

Lemma lowered_shape name w o :
  (lowerOutput (wf_Output w)).1 = [Return o] →
  WorkflowReturnShape (LowerWorkflowResource name w).1 w =
    if negb (is_object o) || isYAMLMapEnvelope (Some o) (wf_Output w) then ReturnValueEnvelope else ReturnDocument.
Proof.
  intros Ho. unfold WorkflowReturnShape, countReturns, soleReturn. rewrite lowered_returns, Ho.
  cbn -[isYAMLMapEnvelope]. destruct (is_object o); cbn -[isYAMLMapEnvelope]; [|done].
  by destruct (isYAMLMapEnvelope _ _).
Qed.

(** The output document of a YAML workflow is the value of its [output.value]:
    whether the lowering returns the map itself or the inner value of a single
    field [value], and whatever that value is, the engine's shape rule gives back
    the map with its operands evaluated.  Without an output the document is
    empty. *)
Theorem yaml_output_document name w sc :
  let prog := (LowerWorkflowResource name w).1 in
  match wf_Output w with
  | None => WorkflowReturnShape prog w = ReturnNone ∧ ∀ ret, execIROutput prog w ret = Some (VMap [])
  | Some m => value_wf (VMap m) → ∀ doc, evalValue sc (lowerYAMLValue (VMap m)).1 = Ok doc →
      ∃ o ret, last (Body prog) = Some (Return o) ∧ evalValue sc o = Ok ret ∧
        execIROutput prog w ret = Some doc
  end.
Proof.
  cbv zeta. destruct (wf_Output w) as [m|] eqn:Eo.
  2: { assert (WorkflowReturnShape (LowerWorkflowResource name w).1 w = ReturnNone) as E.
       { unfold WorkflowReturnShape, countReturns. by rewrite lowered_returns, Eo. }
       split; [done|]. intros ret. unfold execIROutput. by rewrite E. }
  intros Hw doc Hdoc. set (o := (lowerYAMLValue (default (VMap m) (singleValueField m))).1).
  assert ((lowerOutput (wf_Output w)).1 = [Return o]) as Ho.
  { rewrite Eo. unfold o, lowerOutput.
    by destruct (lowerYAMLValue (default (VMap m) (singleValueField m))). }
  assert (last (Body (LowerWorkflowResource name w).1) = Some (Return o)) as Hlast.
  { unfold LowerWorkflowResource. destruct (lowerOutput _) as [ret ds]. simpl in *. subst ret.
    by rewrite last_snoc. }
  pose proof (lowered_shape name w o Ho) as Hsh. rewrite Eo in Hsh.
  unfold execIROutput. rewrite Hsh. exists o.
  unfold isYAMLMapEnvelope. destruct (singleValueField m) as [x|] eqn:Es.
  - destruct m as [|[k x'] [|]]; [done| |done]. simpl in Es.
    destruct (String.eqb_spec k "value") as [->|]; [|done]. injection Es as ->.
    change (evalValue sc (Object [("value", o)]) = Ok doc) in Hdoc. cbn in Hdoc.
    destruct (evalValue sc o) as [ret|] eqn:Er; [|done]. injection Hdoc as <-. exists ret.
    split_and!; [done..|]. inversion Hw as [| | | | | |? Hvs _]; subst. apply Forall_cons in Hvs as [Hx _].
    pose proof (mirrors_lowered x Hx) as Hm. change (mirrorsYAML o x = true) in Hm.
    clearbody o. destruct x; try by destruct o. rewrite Hm. by rewrite orb_true_r.
  - assert (o = (lowerYAMLValue (VMap m)).1) as E by done. rewrite <-E in Hdoc. exists doc.
    split_and!; [done..|]. rewrite E in Hdoc |- *. cbn [lowerYAMLValue fst is_object negb orb evalValue] in *.
    destruct (res_traverse _ _); [|done]. by injection Hdoc as <-.
Qed.
