(* ===== verification/Wiring.v ===== *)
(** * Type checking of step wiring ([internal/spec/wiring.go])

    Every [with] value of an agent step is a flow into the input schema of the
    agent; every token is typed by the schema of its producer.  The graph is seen
    through the schemas of its agents.  The diagnostics are kept without their
    positions.  The last part composes the check with the lowering and the
    evaluation of operands: what an accepted step hands its agent
    ([agentInputDocument] of [internal/engine/steps.go]) has the checked types. *)

From S2P Require Import Prelude GoNum GoText Value ExecIR ExecEval.
From S2P Require Import SpecTools StepRefs LowerYaml SchemaLookup.

Local Open Scope nat_scope.

(** ** Sites *)

(** A segment of the path inside a [with] value: an object key or an index. *)
Inductive seg := Key (k : string) | Elem (i : nat).
Definition seg_str (x : seg) : string := match x with Key k => k | Elem i => pretty i end.
Definition is_elem (x : seg) : bool := match x with Elem _ => true | Key _ => false end.

Record wiringSite := mkSite { ws_key : string; ws_whole : bool; ws_nested : list seg }.

Definition elems (w : wiringSite) : list nat :=
  List.filter (λ i, match ws_nested w !! i with Some x => is_elem x | None => false end)
    (seq 0 (length (ws_nested w))).
Definition consumerPath (w : wiringSite) : list string :=
  (if ws_whole w then [] else [ws_key w]) ++ (seg_str <$> ws_nested w).
Definition label (w : wiringSite) : string :=
  match consumerPath w with [] => "input" | p => join "." p end.

(** The string leaves of a value with their paths. *)
Fixpoint walkWiringValue (v : value) : list (list seg * string) :=
  match v with
  | VStr s => [([], s)]
  | VList l => concat (imap (λ i ls, prod_map (cons (Elem i)) id <$> ls) ((λ x, walkWiringValue x) <$> l))
  | VMap m => m ≫= λ kv, match kv with (k, x) => prod_map (cons (Key k)) id <$> walkWiringValue x end
  | _ => []
  end.
(** The site of a part of the value at a site ([child], iterated). *)
Definition at_site (w : wiringSite) (p : list seg) : wiringSite :=
  mkSite (ws_key w) (ws_whole w) (ws_nested w ++ p).

(** ** Tokens *)

Definition interpTokens (s : string) : list string * bool :=
  (omap (λ p, match p with Token inner => Some (trim_space inner) | Text _ => None end) (pieces s),
   match pieces s with [Token _] => true | _ => false end).

(** ** The check *)

Inductive wiring_error :=
  | WholeNotAgent | WholeNotSingle
  | NeverInput
  | InputUndeclared (inner : string)
  | OutputUndeclared (inner producer : string)
  | ConsumerUndeclared (label consumer : string)
  | Mismatch (what : string) (src cons : LookupResult) (label consumer : string).

Record AgentSchemas := mkSchemas { ag_Input : option value; ag_Output : option value }.

Definition WholeDocumentArgKey : string := "arg0".

Definition producerSchemaName (st : WorkflowStep) : string :=
  let name := trim_space (step_Agent st) in
  if (name =? "")%string then "producer" else "Agent/" +:+ name.
Definition consumerSchemaName (st : WorkflowStep) : string :=
  let name := trim_space (step_Agent st) in
  if (name =? "")%string then "consumer" else "Agent/" +:+ name.

Definition isAgentPositionalWholeDocument (st : WorkflowStep) (key : string) : bool :=
  step_WholeDocument st && is_set (step_Agent st) && (key =? WholeDocumentArgKey)%string.

Definition checkWholeDocumentShape (st : WorkflowStep) : list wiring_error :=
  if negb (step_WholeDocument st) then []
  else if negb (is_set (step_Agent st)) then [WholeNotAgent]
  else match map_get (step_With st) WholeDocumentArgKey with
       | Some _ => if length (step_With st) =? 1 then [] else [WholeNotSingle]
       | None => [WholeNotSingle]
       end.

(** Later steps win. *)
Definition workflowStepsByID (steps : list WorkflowStep) : gmap string WorkflowStep :=
  foldl (λ m st, let id := trim_space (step_ID st) in
    if (id =? "")%string then m else <[id := st]> m) ∅ steps.

Section check.
Context (pattern : string → option (string → bool)).
Context (g : gmap string AgentSchemas).

Abbreviation Lookup := (Lookup pattern).

Definition producerOutputDoc (st : WorkflowStep) : option value :=
  let name := trim_space (step_Agent st) in
  if (name =? "")%string then None else g !! name ≫= ag_Output.
Definition consumerInputDoc (st : WorkflowStep) : option value :=
  let name := trim_space (step_Agent st) in
  if (name =? "")%string then None else g !! name ≫= ag_Input.

(** Whether an array element accounts for the missing path: the scan stops at the
    first missing element, or below a missing parent. *)
Fixpoint elem_exempt (consumer : value) (path : list string) (off : nat) (es : list nat) : bool :=
  match es with
  | [] => false
  | e :: es =>
      let i := off + e in
      let parent := Lookup consumer (take i path) in
      if Missing parent then false
      else if Missing (Lookup consumer (take (S i) path))
      then bool_decide (Types parent = ∅ ∨ TypeArray ∈ Types parent)
      else elem_exempt consumer path off es
  end.
Definition lookupConsumer (consumer : value) (site : wiringSite) : LookupResult :=
  let path := consumerPath site in
  let res := Lookup consumer path in
  if negb (Missing res) then res
  else if elem_exempt consumer path (length path - length (ws_nested site)) (elems site)
  then any_result else res.

Section step.
Context (st : WorkflowStep) (byID : gmap string WorkflowStep).
Context (inputDoc consumer : option value).

Definition checkConsumerType (site : wiringSite) (what : string) (prod : LookupResult)
    (wholeField : bool) : list wiring_error :=
  match consumer with
  | None => []
  | Some consumer =>
      if negb (ws_whole site) && (trim_space (ws_key site) =? "")%string then []
      else
        let cons := lookupConsumer consumer site in
        if Missing cons then [ConsumerUndeclared (label site) (consumerSchemaName st)]
        else
          let src := if negb wholeField && negb (Impossible prod)
                     then mkLookup {[TypeString]} true false false else prod in
          if CompatibleLookup src cons then []
          else [Mismatch what src cons (label site) (consumerSchemaName st)]
  end.

Definition token_name (inner : string) : string := "${" +:+ (inner +:+ "}").

Definition checkInputPath (site : wiringSite) (inner : string) (tail : list string)
    (wholeField : bool) : list wiring_error :=
  match inputDoc with
  | None => checkConsumerType site (token_name inner) any_result wholeField
  | Some d =>
      let got := Lookup d tail in
      if Missing got then [InputUndeclared inner]
      else checkConsumerType site (token_name inner) got wholeField
  end.

Definition checkStepsOutputPath (site : wiringSite) (inner prodID slot : string) (tail : list string)
    (wholeField : bool) : list wiring_error * bool :=
  if negb (slot =? "output")%string then ([], false)
  else match byID !! prodID with
  | None => ([], false)
  | Some prod =>
      match producerOutputDoc prod with
      | None => (checkConsumerType site (token_name inner) any_result wholeField, true)
      | Some d =>
          let got := Lookup d tail in
          if Missing got then ([OutputUndeclared inner (producerSchemaName prod)], true)
          else (checkConsumerType site (token_name inner) got wholeField, true)
      end
  end.

(** The diagnostics, and whether the token was typed. *)
Definition checkInterpPath (site : wiringSite) (inner : string) (wholeField : bool)
    : list wiring_error * bool :=
  if (inner =? "")%string then ([], false)
  else match splitDotPath inner with
  | root :: (p :: rest) as tail =>
      if (root =? "input")%string then (checkInputPath site inner tail wholeField, true)
      else if (root =? "steps")%string then
        match rest with
        | slot :: rest => checkStepsOutputPath site inner p slot rest wholeField
        | [] => ([], false)
        end
      else ([], false)
  | _ => ([], false)
  end.

(** The diagnostics, whether a token was typed, whether there is one. *)
Definition checkWiringString (site : wiringSite) (s : string) : list wiring_error * bool * bool :=
  let '(tokens, whole) := interpTokens s in
  let rs := (λ inner, checkInterpPath site inner (whole && (length tokens =? 1))) <$> tokens in
  if length tokens =? 0 then ([], false, false) else (rs ≫= fst, existsb snd rs, true).

(** [visit]: the diagnostics below a location and whether it holds a typed token. *)
Fixpoint visit (consumer : value) (root : wiringSite) (v : value) (nested : list seg)
    : list wiring_error * bool :=
  let site := at_site root nested in
  let close (r : list wiring_error * bool) :=
    if bool_decide (nested = []) || r.2 || negb (Missing (lookupConsumer consumer site)) then r
    else (checkConsumerType site "literal value" any_result true, false) in
  match v with
  | VStr s => if (checkWiringString site s).1.2 then ([], true) else close ([], false)
  | VList l =>
      let rs := imap (λ i f, f (nested ++ [Elem i])) ((λ x, visit consumer root x) <$> l) in
      close (rs ≫= fst, existsb snd rs)
  | VMap m =>
      let rs := (λ kf, kf.2 (nested ++ [Key kf.1])) <$>
        sort_by fst ((λ kv, match kv with (k, x) => (k, visit consumer root x) end) <$> m) in
      close (rs ≫= fst, existsb snd rs)
  | _ => close ([], false)
  end.
Definition checkWholeDocumentLiterals (v : value) (root : wiringSite) : list wiring_error :=
  match consumer with None => [] | Some c => (visit c root v []).1 end.

Definition check_entry (kv : string * value) : list wiring_error :=
  let '(key, v) := kv in
  let root := mkSite key (isAgentPositionalWholeDocument st key) [] in
  let rs := (λ leaf, checkWiringString (at_site root leaf.1) leaf.2) <$> walkWiringValue v in
  let covered := existsb (λ r, r.1.2) rs in
  let hasToken := existsb snd rs in
  (rs ≫= λ r, r.1.1) ++
  (if ws_whole root then checkWholeDocumentLiterals v root else []) ++
  (if covered then []
   else checkConsumerType root (if hasToken then "untyped value" else "literal value") any_result true).
End step.

Definition checkStepWithWiring (st : WorkflowStep) (byID : gmap string WorkflowStep)
    (inputDoc : option value) : list wiring_error :=
  match checkWholeDocumentShape st with
  | e :: es => e :: es
  | [] =>
      if step_Synthetic st then []
      else
        let consumer := consumerInputDoc st in
        match step_With st with
        | [] => match consumer with
                | Some c => if Impossible (Lookup c []) then [NeverInput] else []
                | None => []
                end
        | with_ => sort_by fst with_ ≫= check_entry st byID inputDoc consumer
        end
  end.

(** The workflows, each with the schema of its input. *)
Definition validateStepWiring (wfs : gmap string (WorkflowSpec * option value)) : list wiring_error :=
  map_to_list wfs ≫= λ w, let '(_, (wf, inputDoc)) := w in
    wf_Steps wf ≫= λ st, checkStepWithWiring st (workflowStepsByID (wf_Steps wf)) inputDoc.
End check.

(** ** What the agent receives ([agentInputDocument])

    A call without arguments passes a nil map ([evalArgs]), which the source turns into
    a nil document: the agent receives [null]. *)

Definition agentInputDocument (wholeDocument : bool) (a : scope) : option value :=
  if wholeDocument then
    if size a =? 1 then a !! WholeDocumentArgKey else None
  else Some (if decide (a = ∅) then VNil else VMap (map_of_list (map_to_list a))).

(** The part of a value at a path of keys and indices. *)
Fixpoint get_at (v : value) (p : list seg) : option value :=
  match p with
  | [] => Some v
  | Key k :: p => match v with VMap m => x ← map_get m k; get_at x p | _ => None end
  | Elem i :: p => match v with VList l => x ← l !! i; get_at x p | _ => None end
  end.
(** The location of a site in the input document. *)
Definition site_path (w : wiringSite) : list seg :=
  (if ws_whole w then [] else [Key (ws_key w)]) ++ ws_nested w.

Lemma site_path_str w : seg_str <$> site_path w = consumerPath w.
Proof. unfold site_path, consumerPath. by destruct (ws_whole w). Qed.

Lemma get_at_map_of_list l k v :
  NoDup (fst <$> l) → (k, v) ∈ l → map_get (map_of_list l) k = Some v.
Proof.
  unfold map_of_list. generalize (@nil (string * value)).
  induction l as [|[k' v'] l IH]; intros m; [by intros _ ?%elem_of_nil|].
  cbn [fmap list_fmap fst]. intros [Hk Hnd]%NoDup_cons [[= <- <-]|Hin]%elem_of_cons; [|by apply IH].
  cbn [foldl fst snd]. assert (∀ m, map_get (foldl (λ m kv, map_set m kv.1 kv.2) m l) k = map_get m k) as ->.
  { clear -Hk. induction l as [|[k2 v2] l IH]; intros m; [done|]. cbn in Hk |- *.
    apply not_elem_of_cons in Hk as [Hne Hk]. rewrite IH by done. by apply map_get_set_ne. }
  apply map_get_set_eq.
Qed.

Lemma eval_fields_keys sc (fs : list (string * operand)) ys :
  Forall2 (λ kx y, match kx with (k, x) => v ← evalValue sc x; mret (k, v) end = Ok y) fs ys →
  fst <$> ys = fst <$> fs.
Proof.
  induction 1 as [|[k o] y fs ys Hy _ IH]; [done|]. apply bind_Ok in Hy as (v & _ & [= <-]).
  simpl. by f_equal.
Qed.

(** The fields of a lowered object: the keys of the object, sorted. *)
Lemma lowered_fields_keys m :
  fst <$> ((λ f : string * (operand * list lower_diag), (f.1, f.2.1)) <$>
    sort_by fst ((λ kv : string * value, match kv with (k, x) => (k, lowerYAMLValue x) end) <$> m))
  ≡ₚ fst <$> m.
Proof.
  rewrite (sort_by_Permutation fst), <-!list_fmap_compose. apply eq_subrelation; [apply _|].
  apply list_fmap_ext. by intros ? [].
Qed.

(** An evaluated value has the values of its leaves in their places. *)
Lemma eval_leaf sc v a p s :
  value_wf v → evalValue sc (lowerYAMLValue v).1 = Ok a → (p, s) ∈ walkWiringValue v →
  ∃ u, evalValue sc (lowerString s).1 = Ok u ∧ get_at a p = Some u.
Proof.
  revert a p. induction v as [|b|i|f|t|l IH|m IH] using value_nested_ind; intros a p Hw He Hp;
    cbn [walkWiringValue] in Hp; try by apply elem_of_nil in Hp.
  - apply list_elem_of_singleton in Hp as [= -> ->]. by exists a.
  - cbn [lowerYAMLValue fst evalValue] in He. apply fmap_Ok in He as (ys & He & ->).
    apply res_traverse_Forall2 in He.
    apply list_elem_of_In, in_concat in Hp as (ls & Hls%list_elem_of_In & Hp%list_elem_of_In).
    apply elem_of_lookup_imap in Hls as (i & ls' & -> & Hi).
    rewrite list_lookup_fmap in Hi. destruct (l !! i) as [x|] eqn:Ex; [|done]. injection Hi as <-.
    apply list_elem_of_fmap in Hp as ([p' s'] & [= -> ->] & Hp').
    assert ((fst <$> (lowerYAMLValue <$> l)) !! i = Some (lowerYAMLValue x).1) as Eo
      by by rewrite !list_lookup_fmap, Ex.
    destruct (Forall2_lookup_l _ _ _ _ _ He Eo) as (y & Hy & Hey).
    inversion Hw as [| | | | |? Hl|]; subst. rewrite Forall_lookup in IH, Hl.
    destruct (IH i x Ex y p' (Hl i x Ex) Hey Hp') as (u & Hu & Hg). exists u. split; [done|].
    simpl. by rewrite Hy.
  - cbn [lowerYAMLValue fst evalValue] in He. apply fmap_Ok in He as (ys & He & ->).
    apply res_traverse_Forall2 in He.
    apply list_elem_of_bind in Hp as ([k x] & Hp & Hin).
    apply list_elem_of_fmap in Hp as ([p' s'] & [= -> ->] & Hp').
    pose proof (wf_map_NoDup _ Hw) as Hnd. inversion Hw as [| | | | | |? Hvs _]; subst.
    rewrite Forall_forall in IH, Hvs.
    set (fs := sort_by fst ((λ kv : string * value, match kv with (k, x) => (k, lowerYAMLValue x) end) <$> m)) in *.
    pose proof (eval_fields_keys sc _ _ He) as Hk.
    assert ((k, (lowerYAMLValue x).1) ∈ (λ f : string * (operand * list lower_diag), (f.1, f.2.1)) <$> fs) as Hf.
    { apply list_elem_of_fmap. exists (k, lowerYAMLValue x). split; [done|]. apply elem_of_sort_by.
      apply list_elem_of_fmap. by exists (k, x). }
    apply list_elem_of_lookup_1 in Hf as [i Hi].
    destruct (Forall2_lookup_l _ _ _ _ _ He Hi) as ([k' y] & Hy & Hey).
    apply bind_Ok in Hey as (y' & Hey & [= <- <-]).
    destruct (IH _ Hin y' p' (Hvs _ Hin) Hey Hp') as (u & Hu & Hg). exists u. split; [done|].
    cbn [get_at]. rewrite (get_at_map_of_list ys k y'); [done| |by eapply list_elem_of_lookup_2].
    rewrite Hk. unfold fs. by rewrite lowered_fields_keys.
Qed.

(** ** The static type of a leaf *)

Definition string_result : LookupResult := mkLookup {[TypeString]} true false false.

Section types.
Context (pattern : string → option (string → bool)) (g : gmap string AgentSchemas).
Context (byID : gmap string WorkflowStep) (inputDoc : option value).

(** The producer a token names; [None] when the check does not type it. *)
Definition token_lookup (inner : string) : option LookupResult :=
  match splitDotPath inner with
  | root :: (p :: rest) as tail =>
      if (root =? "input")%string
      then Some match inputDoc with None => any_result | Some d => Lookup pattern d tail end
      else if (root =? "steps")%string then
        match rest with
        | slot :: rest =>
            if (slot =? "output")%string then
              (λ prod, match producerOutputDoc g prod with
                       | None => any_result | Some d => Lookup pattern d rest end) <$> byID !! p
            else None
        | [] => None
        end
      else None
  | _ => None
  end.
Definition typed_token (inner : string) : bool := match token_lookup inner with Some _ => true | None => false end.

(** A leaf that is one token has the type of its producer, a leaf with a typed
    token in a text is a string. *)
Definition leaf_lookup (s : string) : option LookupResult :=
  match wholeFieldToken s with
  | Some inner => token_lookup inner
  | None => if existsb typed_token (interpTokens s).1 then Some string_result else None
  end.

Context (st : WorkflowStep) (c : value) (site : wiringSite).
Hypothesis Hkey : ws_whole site = true ∨ trim_space (ws_key site) ≠ "".

Lemma checkConsumerType_ok what prod whole :
  checkConsumerType pattern st (Some c) site what prod whole = [] →
  Missing (lookupConsumer pattern c site) = false ∧
  CompatibleLookup (if negb whole && negb (Impossible prod) then string_result else prod)
    (lookupConsumer pattern c site) = true.
Proof.
  unfold checkConsumerType. assert (negb (ws_whole site) && (trim_space (ws_key site) =? "")%string = false) as ->.
  { destruct Hkey as [->|Hk]; [done|]. apply String.eqb_neq in Hk. rewrite Hk. apply andb_false_r. }
  destruct (Missing _); [done|]. fold string_result. by destruct (CompatibleLookup _ _).
Qed.

Lemma checkInterpPath_ok inner whole r :
  (checkInterpPath pattern g st byID inputDoc (Some c) site inner whole).1 = [] →
  token_lookup inner = Some r →
  checkConsumerType pattern st (Some c) site (token_name inner) r whole = [].
Proof.
  unfold checkInterpPath, token_lookup. destruct (inner =? "")%string eqn:Ei.
  { apply String.eqb_eq in Ei as ->. done. }
  destruct (splitDotPath inner) as [|root [|p rest]]; [done..|].
  destruct (root =? "input")%string.
  { unfold checkInputPath. intros Hc [= <-]. destruct inputDoc as [d|]; [|done]. simpl in Hc. by destruct (Missing _). }
  destruct (root =? "steps")%string; [|done]. destruct rest as [|slot rest]; [done|].
  unfold checkStepsOutputPath. destruct (slot =? "output")%string; [|done]. simpl.
  destruct (byID !! p) as [prod|]; [|done]. intros Hc [= <-].
  destruct (producerOutputDoc g prod); [|done]. simpl in Hc. by destruct (Missing _).
Qed.

Lemma whole_tokens s inner : wholeFieldToken s = Some inner → interpTokens s = ([inner], true).
Proof. unfold wholeFieldToken, interpTokens. destruct (pieces s) as [|[] []]; try done. by intros [= <-]. Qed.

Lemma embedded_tokens s : wholeFieldToken s = None → (interpTokens s).2 = false.
Proof. unfold wholeFieldToken, interpTokens. by destruct (pieces s) as [|[] []]. Qed.

(** An accepted leaf: the type of a typed leaf flows into the consumer, unless a
    token of a text can have no value at all. *)
Lemma leaf_checked s r :
  (checkWiringString pattern g st byID inputDoc (Some c) site s).1.1 = [] →
  leaf_lookup s = Some r →
  Missing (lookupConsumer pattern c site) = false ∧
  (CompatibleLookup r (lookupConsumer pattern c site) = true ∨
   wholeFieldToken s = None ∧ ∃ inner r', inner ∈ (interpTokens s).1 ∧ token_lookup inner = Some r' ∧ Impossible r' = true).
Proof.
  unfold leaf_lookup, checkWiringString. destruct (wholeFieldToken s) as [inner|] eqn:Ew.
  - rewrite (whole_tokens _ _ Ew). cbn. rewrite app_nil_r. intros Hc Hr.
    eapply checkInterpPath_ok, checkConsumerType_ok in Hc as [Hm Hc]; [|done]. simpl in Hc. auto.
  - pose proof (embedded_tokens s Ew) as Hw. destruct (interpTokens s) as [tokens w]. simpl in Hw |- *. subst w.
    destruct (existsb typed_token tokens) eqn:Ex; [|done]. intros Hc [= <-].
    apply existsb_exists in Ex as (inner & Hin & Ht). unfold typed_token in Ht.
    destruct (token_lookup inner) as [r'|] eqn:Er; [|done].
    destruct tokens as [|t0 tokens]; [done|]. cbn -[fmap list_fmap] in Hc.
    rewrite bind_nil in Hc. rewrite <-list_elem_of_In in Hin.
    specialize (Hc (checkInterpPath pattern g st byID inputDoc (Some c) site inner false)).
    assert ((checkInterpPath pattern g st byID inputDoc (Some c) site inner false).1 = []) as Hc'
      by (apply Hc, list_elem_of_fmap; by exists inner).
    eapply checkInterpPath_ok, checkConsumerType_ok in Hc' as [Hm Hc']; [|done]. split; [done|].
    destruct (Impossible r') eqn:Ei; [right; split; [done|]; by exists inner, r'|left]. done.
Qed.
End types.

(** ** Values at run time *)

Section runtime.
Context (pattern : string → option (string → bool)) (g : gmap string AgentSchemas).
Context (valid : value → value → value → Prop).
Context `{Hdraft : ∀ root, draft2020 pattern root (valid root)}.
Context (byID : gmap string WorkflowStep) (inputDoc : option value).

(** The values of the producers are valid for the schemas of the producers. *)
Definition conforming_scope (sc : scope) : Prop :=
  (∀ d v, inputDoc = Some d → sc !! "input" = Some v → valid d d v) ∧
  (∀ id prod d v, byID !! id = Some prod → producerOutputDoc g prod = Some d →
     sc !! id = Some v → valid d d v).

(** The path of a reference leads to a value, through property names. *)
Definition reached (sc : scope) (path : list string) (u : value) : Prop :=
  match path with
  | [] => False
  | h :: segs => ∃ v, sc !! h = Some v ∧ at_path v segs = Some u
  end.

(** The values of the tokens of a leaf are present; a token inside a text is
    rendered, present or not. *)
Definition leaf_reached (sc : scope) (s : string) (u : value) : Prop :=
  match wholeFieldToken s with
  | Some inner => reached sc (mapRefPath inner).1 u
  | None => True
  end.

Lemma at_path_walk v p u : at_path v p = Some u → walk_path v p = u.
Proof.
  revert v. induction p as [|k p IH]; intros v; simpl; [congruence|].
  destruct v as [| | | | | |m]; try done. destruct (isJSONIndex k); [done|].
  destruct (map_get m k) as [x|] eqn:E; [|done]. simpl. by apply IH.
Qed.

Lemma token_producer sc inner r :
  conforming_scope sc → token_lookup pattern g byID inputDoc inner = Some r →
  ∃ h segs, mapRefPath inner = (h :: segs, []) ∧
    (r = any_result ∨ ∃ d, r = Lookup pattern d segs ∧ ∀ v, sc !! h = Some v → valid d d v).
Proof.
  intros [Hin Hout]. unfold token_lookup, mapRefPath. destruct (splitDotPath inner) as [|root [|p rest]]; [done..|].
  destruct (String.eqb_spec root "input") as [->|].
  { intros [= <-]. exists "input", (p :: rest). split; [done|]. destruct inputDoc as [d|]; [right|by left].
    exists d. split; [done|]. eauto. }
  destruct (root =? "steps")%string; [|done]. destruct rest as [|slot rest]; [done|].
  destruct (slot =? "output")%string; [|done]. destruct (byID !! p) as [prod|] eqn:Ep; [|done].
  intros [= <-]. exists p, rest. split; [done|]. destruct (producerOutputDoc g prod) as [d|] eqn:Ed; [right|by left].
  exists d. split; [done|]. eauto.
Qed.

(** The value of a typed token agrees with its static type, and a token that can
    have no value does not evaluate. *)
Lemma token_agrees sc inner r u :
  conforming_scope sc → token_lookup pattern g byID inputDoc inner = Some r →
  reached sc (mapRefPath inner).1 u → agrees r u.
Proof.
  intros Hsc Ht Hu. destruct (token_producer _ _ _ Hsc Ht) as (h & segs & E & Hr). rewrite E in Hu.
  destruct Hr as [->|(d & -> & Hd)]; [apply any_agrees|].
  destruct Hu as (v & Hv & Hu). eapply lookup_sound; [apply Hdraft|by apply Hd|exact Hu].
Qed.

Lemma token_possible sc inner r u :
  conforming_scope sc → token_lookup pattern g byID inputDoc inner = Some r →
  resolvePath sc (mapRefPath inner).1 = Ok u → Impossible r = false.
Proof.
  intros Hsc Ht. destruct (token_producer _ _ _ Hsc Ht) as (h & segs & -> & Hr).
  simpl. destruct (sc !! h) as [v|] eqn:Ev; [|done]. intros _. destruct Hr as [->|(d & -> & Hd)]; [done|].
  destruct (Impossible _) eqn:Ei; [|done]. exfalso. eapply impossible_empty; [apply Hdraft|exact Ei|by apply Hd].
Qed.

(** A typed leaf evaluates to a value of its static type. *)
Lemma leaf_agrees sc s r u :
  conforming_scope sc → leaf_lookup pattern g byID inputDoc s = Some r →
  evalValue sc (lowerString s).1 = Ok u → leaf_reached sc s u →  agrees r u.
Proof.
  unfold leaf_lookup, leaf_reached. intros Hsc Hl He Hr. destruct (wholeFieldToken s) as [inner|] eqn:Ew.
  { by eapply token_agrees. }
  destruct (existsb _ _) eqn:Ex; [|done]. injection Hl as <-.
  unfold lowerString in He. rewrite Ew in He.
  assert (existsb is_token (pieces s) = true) as Et.
  { apply existsb_exists in Ex as (inner & Hin%list_elem_of_In & _). unfold interpTokens in Hin.
    apply list_elem_of_omap in Hin as (p & Hp & Hpi). apply existsb_exists. exists p.
    split; [by apply list_elem_of_In|]. by destruct p. }
  rewrite Et in He. cbn [fst evalValue] in He. apply fmap_Ok in He as (ss & _ & ->).
  split_and!; [done..|]. intros _. exists TypeString. simpl. set_solver.
Qed.
End runtime.

(** ** Soundness of the check *)

Lemma evalArgs_lookup sc (m : args) a k :
  evalArgs sc m = Ok a →
  match m !! k with
  | Some o => ∃ y, evalValue sc o = Ok y ∧ a !! k = Some y
  | None => a !! k = None
  end.
Proof.
  change (evalArgs sc m) with (map_traverse (evalValue sc) m). intros Ha.
  pose proof (map_traverse_lookup _ m a k Ha) as Hk. inversion Hk; eauto.
Qed.

Lemma lowerWith_lookup (w : list (string * value)) k v :
  NoDup (fst <$> w) → (k, v) ∈ w → (lowerWith w).1 !! k = Some (lowerYAMLValue v).1.
Proof.
  intros Hnd Hin. unfold lowerWith. apply elem_of_list_to_map_1.
  - rewrite <-!list_fmap_compose. by erewrite (list_fmap_ext _ fst).
  - apply list_elem_of_fmap. exists (k, lowerYAMLValue v). split; [done|].
    apply list_elem_of_fmap. by exists (k, v).
Qed.

(** The flow of a value of static type [prod] into a location of type [cons]. *)
Definition accepts (cons prod : LookupResult) (u : value) : Prop :=
  Missing cons = false ∧ Impossible cons = false ∧
  (Types prod ≠ ∅ → Types cons ≠ ∅ → ∃ t, t ∈ Types cons ∧ t ∈ value_types u).

(** The [with] of a step is a decoded YAML object; its keys are not blank. *)
Definition with_wf (with_ : list (string * value)) : Prop :=
  value_wf (VMap with_) ∧ ∀ k v, (k, v) ∈ with_ → trim_space k ≠ "".

Section sound.
Context (pattern : string → option (string → bool)) (g : gmap string AgentSchemas).
Context (valid : value → value → value → Prop).
Context `{Hdraft : ∀ root, draft2020 pattern root (valid root)}.
Context (st : WorkflowStep) (byID : gmap string WorkflowStep) (inputDoc : option value) (c : value).
Hypothesis Hcheck : checkStepWithWiring pattern g st byID inputDoc = [].
Hypothesis Hexec : step_Synthetic st = false.
Hypothesis Hcons : consumerInputDoc g st = Some c.
Hypothesis Hwith : with_wf (step_With st).

Definition leaf_site (k : string) (p : list seg) : wiringSite :=
  mkSite k (isAgentPositionalWholeDocument st k) p.

Lemma agent_set : is_set (step_Agent st) = true.
Proof. unfold consumerInputDoc in Hcons. unfold is_set. by destruct (trim_space (step_Agent st) =? "")%string. Qed.

Lemma shape_ok : checkWholeDocumentShape st = [].
Proof. unfold checkStepWithWiring in Hcheck. by destruct (checkWholeDocumentShape st). Qed.

Lemma entry_checked k v p s :
  (k, v) ∈ step_With st → (p, s) ∈ walkWiringValue v →
  (checkWiringString pattern g st byID inputDoc (Some c) (leaf_site k p) s).1.1 = [].
Proof.
  intros Hin Hp. pose proof Hcheck as Hc. unfold checkStepWithWiring in Hc. rewrite shape_ok, Hexec, Hcons in Hc.
  destruct (step_With st) as [|kv0 w] eqn:Ew; [by apply elem_of_nil in Hin|]. rewrite bind_nil in Hc.
  specialize (Hc (k, v)). rewrite elem_of_sort_by in Hc. specialize (Hc Hin). unfold check_entry in Hc.
  apply app_nil in Hc as [Hc _]. rewrite bind_nil in Hc. eapply Hc, list_elem_of_fmap. by exists (p, s).
Qed.

Lemma rendered_token sc s u inner :
  wholeFieldToken s = None → evalValue sc (lowerString s).1 = Ok u → inner ∈ (interpTokens s).1 →
  ∃ x, resolvePath sc (mapRefPath inner).1 = Ok x.
Proof.
  intros Hw He Hin. apply list_elem_of_omap in Hin as (p & Hp & Hpi). destruct p as [|i]; [done|].
  injection Hpi as <-. unfold lowerString in He. rewrite Hw in He.
  assert (existsb is_token (pieces s) = true) as Et
    by (apply existsb_exists; exists (Token i); by rewrite <-list_elem_of_In).
  rewrite Et in He. cbn [fst evalValue] in He. apply fmap_Ok in He as (ss & He & _).
  apply res_traverse_Forall2 in He. apply list_elem_of_lookup_1 in Hp as [n Hn].
  assert ((fst <$> (lower_piece <$> pieces s)) !! n = Some (lower_piece (Token i)).1) as Hl
    by by rewrite !list_lookup_fmap, Hn.
  destruct (Forall2_lookup_l _ _ _ _ _ He Hl) as (x & _ & Hx). apply bind_Ok in Hx as (y & Hy & _).
  exists y. unfold lower_piece, lower_token in Hy. by destruct (mapRefPath (trim_space i)).
Qed.

Lemma leaf_flow sc k v p s r u :
  conforming_scope g valid byID inputDoc sc →
  (k, v) ∈ step_With st → (p, s) ∈ walkWiringValue v →
  leaf_lookup pattern g byID inputDoc s = Some r →
  evalValue sc (lowerString s).1 = Ok u → leaf_reached sc s u →
  accepts (lookupConsumer pattern c (leaf_site k p)) r u.
Proof.
  intros Hsc Hin Hp Hl He Hr. destruct (leaf_checked pattern g byID inputDoc st c (leaf_site k p)) with s r
    as [Hm Hc]; [right; by eapply (proj2 Hwith)|by eapply entry_checked|done|].
  split; [done|]. pose proof (leaf_agrees pattern g valid byID inputDoc sc s r u Hsc Hl He Hr) as Ha.
  destruct Hc as [Hc|(Hw & inner & r' & Hin' & Hr' & Hi)].
  - by apply (compatible_agrees _ _ _ Hc Ha).
  - exfalso. destruct (rendered_token sc s u inner Hw He Hin') as [x Hx].
    pose proof (token_possible pattern g valid byID inputDoc sc inner r' x Hsc Hr' Hx). congruence.
Qed.

(** The evaluated arguments in the input document. *)
Lemma document_at sc a k v :
  evalArgs sc (lowerWith (step_With st)).1 = Ok a → (k, v) ∈ step_With st →
  ∃ doc y, agentInputDocument (step_WholeDocument st) a = Some doc ∧
    evalValue sc (lowerYAMLValue v).1 = Ok y ∧
    ∀ p, get_at doc (site_path (leaf_site k p)) = get_at y p.
Proof.
  intros Ha Hin. pose proof (wf_map_NoDup _ (proj1 Hwith)) as Hnd.
  pose proof (evalArgs_lookup sc _ a k Ha) as Hk. rewrite (lowerWith_lookup _ k v Hnd Hin) in Hk.
  destruct Hk as (y & Hy & Hak). pose proof shape_ok as Hs. unfold checkWholeDocumentShape in Hs.
  unfold agentInputDocument, leaf_site, site_path, isAgentPositionalWholeDocument.
  destruct (step_WholeDocument st); simpl in Hs; [|clear Hs].
  - rewrite agent_set in *. simpl in Hs |- *.
    destruct (map_get (step_With st) WholeDocumentArgKey) as [v'|] eqn:Eg; [|done].
    destruct (length (step_With st) =? 1) eqn:El; [|done]. apply Nat.eqb_eq in El.
    destruct (step_With st) as [|[k0 v0] []] eqn:Ew; try done.
    apply list_elem_of_singleton in Hin as [= -> ->]. apply map_get_elem, list_elem_of_singleton in Eg as [= <- <-].
    assert (a = {[WholeDocumentArgKey := y]}) as ->.
    { apply map_eq. intros k. pose proof (evalArgs_lookup sc _ a k Ha) as Hk.
      destruct (decide (k = WholeDocumentArgKey)) as [->|Hne]; [by rewrite Hak, lookup_singleton_eq|].
      rewrite lookup_singleton_ne by done. unfold lowerWith in Hk. cbn [fst fmap list_fmap list_to_map foldr] in Hk.
      by rewrite lookup_insert_ne in Hk by done. }
    rewrite map_size_singleton, lookup_singleton_eq. exists y, y. split_and!; [reflexivity|exact Hy|reflexivity].
  - rewrite decide_False by (intros ->; by rewrite lookup_empty in Hak).
    eexists _, y. split; [done|]. split; [done|]. intros p. simpl.
    rewrite (get_at_map_of_list _ k y); [done|apply NoDup_fst_map_to_list|by apply elem_of_map_to_list].
Qed.

Lemma wiring_flow sc a k v p s r :
  conforming_scope g valid byID inputDoc sc →
  evalArgs sc (lowerWith (step_With st)).1 = Ok a →
  (k, v) ∈ step_With st → (p, s) ∈ walkWiringValue v →
  leaf_lookup pattern g byID inputDoc s = Some r →
  ∃ doc u, agentInputDocument (step_WholeDocument st) a = Some doc ∧
    get_at doc (site_path (leaf_site k p)) = Some u ∧
    (leaf_reached sc s u → accepts (lookupConsumer pattern c (leaf_site k p)) r u).
Proof.
  intros Hsc Ha Hin Hp Hl. destruct (document_at sc a k v Ha Hin) as (doc & y & Hdoc & Hy & Hat).
  destruct Hwith as [Hw _]. inversion Hw as [| | | | | |? Hvs _]; subst. rewrite Forall_forall in Hvs.
  destruct (eval_leaf sc v y p s (Hvs _ Hin) Hy Hp) as (u & Hu & Hg).
  exists doc, u. split; [done|]. rewrite Hat. split; [done|]. intros Hr. by eapply leaf_flow.
Qed.
End sound.
