(* ===== verification/GraphRun.v ===== *)
(** * Runs of a step graph

    The scheduler of [execGraph] ([internal/execir/interp.go]) on the graphs that
    the lowering of an accepted workflow produces: under every interleaving the
    graph makes progress to its end, a step is called only after the steps it
    needs, and its arguments are evaluated from their recorded results. *)

From S2P Require Import Prelude Value JsonNum ExecIR ExecEval ExecInterp ExecSteps ExecCount ExecRun.

Local Open Scope nat_scope.

(** ** Leaves *)

(** The parts of an invocation node. *)
Record leaf := mkLeaf { lf_bind : string; lf_doc : bool; lf_args : args; lf_call : scope → call }.

Definition leaf_of (n : node) : option leaf :=
  match n with
  | InvokeTool b u a => Some (mkLeaf b false a (CallTool u))
  | InvokeAgent b ag a wd => Some (mkLeaf b wd a (CallAgent ag))
  | InvokeWorkflow b wf a wd false => Some (mkLeaf b wd a (CallWorkflow wf))
  | Approval b d r a => Some (mkLeaf b false a (CallApproval (mkApprovalInfo d r)))
  | _ => None
  end.

(** How the goroutine of a leaf ends. *)
Definition leaf_flow (lf : leaf) (sc : scope) (r : res error value) : flow :=
  match r with Ok v => FNext (bind_result sc (lf_bind lf) v) | Err e => FErr e end.

Lemma exec_leaf mi mc n lf sc path loop :
  leaf_of n = Some lf →
  ∃ k, exec mi mc n sc path loop PRet =
         PInvoke (mkCallSite (lf_bind lf) path loop (lf_doc lf)) (lf_call lf <$> evalArgs sc (lf_args lf)) k ∧
       ∀ r, k r = PRet (leaf_flow lf sc r).
Proof.
  destruct n; try done; simpl; [| |destruct projectValue; [done|]|];
    intros [= <-]; eexists; (split; [reflexivity|]); intros [v|e]; reflexivity.
Qed.

Section graph.
Context `{Invoker W}.
Context (mi : Z) (mc : nat) (gs : list (string * list string * node)).
Context (cin : value) (ret : list node) (s0 : session).

#[local] Abbreviation ids := (gn_id <$> gs).
Definition leaf_at (i : nat) : leaf :=
  default (mkLeaf "" false ∅ (CallTool "")) (gs !! i ≫= λ g, leaf_of (gn_run g)).
Definition needs_of (i : nat) : list string := default [] (gn_needs <$> gs !! i).

(** Node [i] needs node [j]; the names it needs directly or through others. *)
Definition dep (i j : nat) : Prop := ∃ x, x ∈ needs_of i ∧ ids !! j = Some x.
Definition upstream (i : nat) (x : string) : Prop := ∃ j, tc dep i j ∧ ids !! j = Some x.

(** What the lowering of an accepted workflow guarantees. *)
Record graph_ok : Prop := {
  go_leaf : ∀ i g, gs !! i = Some g → ∃ lf, leaf_of (gn_run g) = Some lf ∧ lf_bind lf = gn_id g;
  go_ids : NoDup ids;
  go_named : ∀ x, x ∈ ids → x ≠ "" ∧ x ≠ "input";
  go_needs : ∀ i x, x ∈ needs_of i → x ∈ ids;
  go_acyclic : ∀ i, Acc (λ j i, dep i j) i;
  go_args : ∀ i k o, i < length gs → lf_args (leaf_at i) !! k = Some o →
    op_wf o = true ∧ ∀ x, x ∈ op_heads o → x = "input" ∨ upstream i x;
}.
Hypothesis Hok : graph_ok.

Definition site (i : nat) : CallSite :=
  mkCallSite (lf_bind (leaf_at i)) (extend (extend [] 0) (default 0 (canonicalRanks ids !! i))) []
    (lf_doc (leaf_at i)).
Definition key (i : nat) : string := CallKey (site i).

Lemma leaf_bind i x : ids !! i = Some x → lf_bind (leaf_at i) = x.
Proof.
  rewrite list_lookup_fmap. intros Hi. destruct (gs !! i) as [g|] eqn:Eg; [|done].
  simpl in Hi. injection Hi as <-. unfold leaf_at. rewrite Eg. simpl.
  destruct (go_leaf Hok _ _ Eg) as (lf & -> & <-). done.
Qed.

Lemma ids_length : length ids = length gs.
Proof. apply length_fmap. Qed.

Lemma ids_inj i j x : ids !! i = Some x → ids !! j = Some x → i = j.
Proof. apply NoDup_lookup, (go_ids Hok). Qed.

Lemma key_inj i j : i < length gs → j < length gs → key i = key j → i = j.
Proof.
  intros Hi Hj Hk. apply CallKey_parts in Hk as (_ & Hp & _). simpl in Hp.
  destruct (canonicalRanks_lookup ids i) as [ri Hri]; [by rewrite ids_length|].
  destruct (canonicalRanks_lookup ids j) as [rj Hrj]; [by rewrite ids_length|].
  rewrite Hri, Hrj in Hp. simpl in Hp. unfold extend in Hp. simpl in Hp. simplify_eq.
  by eapply (NoDup_lookup _ _ _ _ (canonicalRanks_NoDup ids)).
Qed.

(** ** The results of the steps as a scope *)

(** The workflow input and the results a memo holds, under the names of the
    steps. *)
Definition results (m : gmap string value) : scope :=
  foldr (λ p sc, match m !! key p.1 with Some v => <[p.2 := v]> sc | None => sc end)
    {["input" := cin]} (zip (seq 0 (length ids)) ids).

Lemma results_fold (m : gmap string value) l (b : scope) x :
  (∀ p, p ∈ l → p.2 ≠ x) →
  foldr (λ p : nat * string, λ sc : scope,
    match m !! key p.1 with Some v => <[p.2 := v]> sc | None => sc end) b l !! x = b !! x.
Proof.
  induction l as [|p l IH]; intros Hl; simpl; [done|].
  rewrite <-IH by (intros q Hq; apply Hl; by right).
  destruct (m !! key p.1); [|done]. rewrite lookup_insert_ne; [done|]. apply Hl. by left.
Qed.

Lemma results_input m : results m !! "input" = Some cin.
Proof.
  unfold results. rewrite results_fold; [by rewrite lookup_singleton_eq|].
  intros [i x] [_ Hx%list_elem_of_lookup_2]%zip_seq_elem. by apply (go_named Hok) in Hx as [_ ?].
Qed.

Lemma results_step m i x : ids !! i = Some x → results m !! x = m !! key i.
Proof.
  intros Hx. destruct (go_named Hok x (list_elem_of_lookup_2 _ _ _ Hx)) as [_ Hin].
  unfold results. pose proof (go_ids Hok) as Hnd. revert Hx Hnd.
  enough (∀ l n, l !! (i - n) = Some x → n <= i → NoDup l →
    foldr (λ p : nat * string, λ sc : scope, match m !! key p.1 with Some v => <[p.2 := v]> sc | None => sc end)
      {["input" := cin]} (zip (seq n (length l)) l) !! x = m !! key i) as Hgen.
  { intros Hx Hnd. apply Hgen; [by rewrite Nat.sub_0_r|lia|done]. }
  induction l as [|y l IH]; intros n Hx Hn Hnd; [done|]. cbn [length seq zip zip_with foldr].
  apply NoDup_cons in Hnd as [Hy Hnd]. destruct (decide (i = n)) as [->|Hne].
  - rewrite Nat.sub_diag in Hx. simpl in Hx. injection Hx as ->. simpl.
    assert (∀ p, p ∈ zip (seq (S n) (length l)) l → p.2 ≠ x) as Hl.
    { intros [j z] [_ Hz%list_elem_of_lookup_2]%zip_seq_elem. simpl. by intros ->. }
    destruct (m !! key n); [by rewrite lookup_insert_eq|].
    rewrite results_fold by done. by rewrite lookup_singleton_ne.
  - replace (i - n) with (S (i - S n)) in Hx by lia. simpl in Hx. simpl.
    rewrite <-(IH (S n)) by (done || lia). destruct (m !! key n); [|done].
    rewrite lookup_insert_ne; [done|]. intros ->. by apply Hy, (list_elem_of_lookup_2 _ _ _ Hx).
Qed.

(** ** The invariant *)

(** The scope a step was started with agrees with the memo on what it reads. *)
Definition local_ok (m : gmap string value) (i : nat) (sc : scope) : Prop :=
  sc !! "input" = Some cin ∧
  ∀ x, upstream i x → ∃ j v, ids !! j = Some x ∧ m !! key j = Some v ∧ sc !! x = Some v.

(** The error is one a call gave, or a result that is no JSON value. *)
Definition caused (evs : list event) (e : error) : Prop :=
  ∃ ev, ev ∈ evs ∧ (ev_result ev = Err e ∨
    ∃ v je, ev_result ev = Ok v ∧ Canonical v = Err je ∧ e = EResult (ev_key ev) je).

(** A call of the step [i] with the arguments its operands have under the
    results in the memo. *)
Definition call_of_step (m : gmap string value) (ev : event) (i : nat) : Prop :=
  i < length gs ∧ ev_site ev = site i ∧
  (∀ x, upstream i x → ∃ j, ids !! j = Some x ∧ is_Some (m !! key j)) ∧
  ∃ a, evalArgs (results m) (lf_args (leaf_at i)) = Ok a ∧ ev_call ev = lf_call (leaf_at i) a.

Definition call_ok (m : gmap string value) (ev : event) : Prop := ∃ i, call_of_step m ev i.

Definition start (i : nat) (sc : scope) : proc :=
  match graph_runs mi mc (canonicalRanks ids) (extend [] 0) [] gs 0 !! i with
  | Some r => r sc | None => PRet (FErr EUnknownNode) end.

(** The goroutine of the step [i]: at its call, or ended. *)
Inductive runs (m : gmap string value) (evs : list event) (i : nat) : proc → Prop :=
  | runs_call sc : local_ok m i sc → runs m evs i (start i sc)
  | runs_ok sc v : local_ok m i sc → m !! key i = Some v →
      runs m evs i (PRet (leaf_flow (leaf_at i) sc (Ok v)))
  | runs_err e : caused evs e → runs m evs i (PRet (FErr e)).

Record graph_inv (m : gmap string value) (evs : list event) (sts : list gstat) (sc : scope)
    (cpl : gset string) (fe : option error) (su : bool) : Prop := {
  gi_length : length sts = length gs;
  gi_input : sc !! "input" = Some cin;
  gi_launched : ∀ i t, sts !! i = Some t → grunning t = true → ∀ x, x ∈ needs_of i → x ∈ cpl;
  gi_runs : ∀ i q, sts !! i = Some (GRun q) → runs m evs i q;
  gi_over : ∀ i x, sts !! i = Some GOver → ids !! i = Some x → x ∈ cpl ∨ fe ≠ None ∨ su = true;
  gi_done : ∀ x, x ∈ cpl → ∃ i v, ids !! i = Some x ∧ sts !! i = Some GOver ∧
    m !! key i = Some v ∧ sc !! x = Some v;
  gi_closed : ∀ i x, ids !! i = Some x → x ∈ cpl → ∀ y, y ∈ needs_of i → y ∈ cpl;
  gi_err : ∀ e, fe = Some e → caused evs e;
  gi_susp : su = true → caused evs ESuspend;
}.

(** Every step has its result, and the scope holds them. *)
Definition complete (m : gmap string value) (sc : scope) : Prop :=
  sc !! "input" = Some cin ∧
  ∀ i x, ids !! i = Some x → ∃ v, m !! key i = Some v ∧ sc !! x = Some v.

Definition after (sc : scope) : proc :=
  execAll_from (exec mi mc) [] [] PRet ret 1 sc.

Definition final (m : gmap string value) (evs : list event) (f : flow) : Prop :=
  match f with
  | FErr e => caused evs e ∨ ∃ sc, complete m sc ∧ after sc = PRet (FErr e)
  | f => ∃ sc, complete m sc ∧ after sc = PRet f
  end.

(** The states of a run. *)
Inductive run_inv (st : state W) : proc → Prop :=
  | run_graph sts sc cpl fe su tk ex k :
      graph_inv (memo (sess st)) (calls st) sts sc cpl fe su →
      (ex = true → fe ≠ None ∨ su = true ∨ size cpl = length gs) →
      (∀ r, k r = match r with Ok sc => after sc | Err e => PRet (FErr e) end) →
      run_inv st (PGraph (gs.*1) start mc sts sc cpl fe su tk ex k)
  | run_done f : final (memo (sess st)) (calls st) f → run_inv st (PRet f).

(** ** The graph never gets stuck *)

Lemma ids_fst i x : ids !! i = Some x → ∃ nd, gs.*1 !! i = Some (x, nd) ∧ needs_of i = nd.
Proof.
  rewrite !list_lookup_fmap. unfold needs_of. destruct (gs !! i) as [[[y nd] n]|]; [|done].
  simpl. intros [= <-]. by exists nd.
Qed.

Lemma count_none sts i t : countb grunning sts = 0 → sts !! i = Some t → grunning t = false.
Proof.
  unfold countb. intros Hc Hi. destruct (grunning t) eqn:Et; [|done]. exfalso.
  apply list_elem_of_lookup_2 in Hi. revert Hc. induction sts as [|y sts IH]; [by apply elem_of_nil in Hi|].
  apply elem_of_cons in Hi as [->|Hi]; simpl; [by rewrite Et|]. destruct (grunning y); simpl; [done|auto].
Qed.

Lemma all_done m evs sts sc cpl fe su :
  graph_inv m evs sts sc cpl fe su → (∀ i x, ids !! i = Some x → x ∈ cpl) → size cpl = length gs.
Proof.
  intros Hi Hall. rewrite <-ids_length. rewrite <-(size_list_to_set (C := gset string)) by apply (go_ids Hok).
  f_equal. apply set_eq. intros x. rewrite elem_of_list_to_set. split.
  - intros (i & v & Hx & _)%(gi_done _ _ _ _ _ _ _ Hi). by eapply list_elem_of_lookup_2.
  - intros [i Hx]%list_elem_of_lookup_1. by eapply Hall.
Qed.

Lemma all_named cpl m evs sts sc fe su :
  graph_inv m evs sts sc cpl fe su → size cpl = length gs → ∀ i x, ids !! i = Some x → x ∈ cpl.
Proof.
  intros Hi Hs i x Hx. rewrite <-ids_length in Hs.
  rewrite <-(size_list_to_set (C := gset string)) in Hs by apply (go_ids Hok).
  assert (cpl ⊆ list_to_set ids) as Hsub.
  { intros y (j & v & Hy & _)%(gi_done _ _ _ _ _ _ _ Hi). apply elem_of_list_to_set.
    by eapply list_elem_of_lookup_2. }
  assert (cpl = list_to_set ids) as ->.
  { apply set_eq. intros y. split; [apply Hsub|]. intros Hy.
    by rewrite (set_subseteq_size_eq _ _ Hsub) by lia. }
  apply elem_of_list_to_set. by eapply list_elem_of_lookup_2.
Qed.

Lemma schedule_exit m evs sts sc cpl fe su :
  graph_inv m evs sts sc cpl fe su →
  graph_exit (length (gs.*1)) cpl fe su (trySchedule (gs.*1) cpl fe su sts) = true →
  fe ≠ None ∨ su = true ∨ size cpl = length gs.
Proof.
  intros Hi. unfold graph_exit. rewrite length_fmap.
  destruct fe as [e|]; [by left|]. destruct su; [by right; left|]. simpl.
  case_bool_decide as Hn; [by right; right|]. simpl. intros Hc%bool_decide_eq_true.
  right; right. eapply all_done; [done|]. intros i.
  induction (go_acyclic Hok i) as [i _ IH]. intros x Hx.
  destruct (ids_fst i x Hx) as (nd & Hg & Hnd).
  destruct (lookup_lt_is_Some_2 sts i) as [t Ht].
  { rewrite (gi_length _ _ _ _ _ _ _ Hi), <-ids_length. by eapply lookup_lt_Some. }
  assert (trySchedule (gs.*1) cpl None false sts !! i = Some
    (if gidle t && negb (bool_decide (x ∈ cpl)) && ready cpl (x, nd) then GLaunched else t)) as Hs.
  { unfold trySchedule. simpl. by rewrite lookup_zip_with, Hg, Ht. }
  assert (∀ y, y ∈ nd → y ∈ cpl) as Hready.
  { intros y Hy. rewrite <-Hnd in Hy. destruct (list_elem_of_lookup_1 _ _ (go_needs Hok i y Hy)) as [j Hj].
    eapply IH; [|done]. by exists y. }
  assert (ready cpl (x, nd) = true) as Hr.
  { apply forallb_forall. intros y Hy%list_elem_of_In. apply bool_decide_eq_true. by apply Hready. }
  pose proof (count_none _ _ _ Hc Hs) as Hg'. rewrite Hr, andb_true_r in Hg'.
  destruct t; simpl in Hg'; try done.
  - case_bool_decide; [done|]. done.
  - destruct (gi_over _ _ _ _ _ _ _ Hi i x Ht Hx) as [?|[?|?]]; done.
Qed.

(** ** Steps preserve the invariant *)

Lemma local_mono m m' i sc : m ⊆ m' → local_ok m i sc → local_ok m' i sc.
Proof.
  intros Hm [Hin Hup]. split; [done|]. intros x Hx. destruct (Hup x Hx) as (j & v & ? & ? & ?).
  exists j, v. split_and!; [done| |done]. by eapply lookup_weaken.
Qed.

Lemma caused_mono evs evs' e : caused evs e → caused (evs ++ evs') e.
Proof. intros (ev & Hin & ?). exists ev. rewrite elem_of_app. auto. Qed.

Lemma runs_mono m m' evs evs' i q : m ⊆ m' → runs m evs i q → runs m' (evs ++ evs') i q.
Proof.
  intros Hm [sc Hl|sc v Hl Hv|e He].
  - apply runs_call. by eapply local_mono.
  - apply runs_ok; [by eapply local_mono|by eapply lookup_weaken].
  - by apply runs_err, caused_mono.
Qed.

Lemma graph_inv_mono m m' evs evs' sts sc cpl fe su :
  m ⊆ m' → graph_inv m evs sts sc cpl fe su → graph_inv m' (evs ++ evs') sts sc cpl fe su.
Proof.
  intros Hm []. split; try done.
  - intros i q Hq. eapply runs_mono; eauto.
  - intros x Hx. destruct (gi_done0 x Hx) as (i & v & ? & ? & ? & ?). exists i, v.
    split_and!; [done..| |done]. by eapply lookup_weaken.
  - intros e He. by apply caused_mono, gi_err0.
  - intros Hs. by apply caused_mono, gi_susp0.
Qed.

(** Where the needs of a step are complete, so is everything upstream. *)
Lemma upstream_done m evs sts sc cpl fe su i x :
  graph_inv m evs sts sc cpl fe su → (∀ y, y ∈ needs_of i → y ∈ cpl) → upstream i x → x ∈ cpl.
Proof.
  intros Hi Hn (j & Hij & Hj). revert Hn.
  induction Hij as [i j (y & Hy & Hjy)|i k j (y & Hy & Hk) _ IH]; intros Hn.
  - apply Hn. rewrite Hj in Hjy. by injection Hjy as ->.
  - apply IH; [done|]. by eapply (gi_closed _ _ _ _ _ _ _ Hi), Hn.
Qed.

Lemma launched_local m evs sts sc cpl fe su i :
  graph_inv m evs sts sc cpl fe su → sts !! i = Some GLaunched → local_ok m i sc.
Proof.
  intros Hi Hl. split; [apply (gi_input _ _ _ _ _ _ _ Hi)|]. intros x Hx.
  assert (x ∈ cpl) as (j & v & Hj & _ & ? & ?)%(gi_done _ _ _ _ _ _ _ Hi).
  { eapply upstream_done; [done| |done]. by apply (gi_launched _ _ _ _ _ _ _ Hi _ _ Hl). }
  by exists j, v.
Qed.

Lemma leaf_args_eval m i sc :
  local_ok m i sc → i < length gs →
  ∃ a, evalArgs sc (lf_args (leaf_at i)) = Ok a ∧ evalArgs (results m) (lf_args (leaf_at i)) = Ok a.
Proof.
  intros [Hin Hup] Hlt.
  destruct (evalArgs_total sc (lf_args (leaf_at i))) as [a Ha].
  { intros k o Ho. destruct (go_args Hok i k o Hlt Ho) as [Hwf Hh]. split; [done|].
    intros h [->|Hx]%Hh; [by eexists|]. destruct (Hup h Hx) as (j & v & _ & _ & ?). by exists v. }
  exists a. split; [done|]. rewrite <-Ha. apply evalArgs_agree. intros k o Ho h Hh.
  destruct (go_args Hok i k o Hlt Ho) as [_ Hr]. destruct (Hr h Hh) as [->|Hx].
  - by rewrite Hin, results_input.
  - destruct (Hup h Hx) as (j & v & Hj & Hm & Hv). by rewrite (results_step m j h Hj), Hm, Hv.
Qed.

Lemma graph_runs_lookup rank path gs' n i g :
  gs' !! i = Some g →
  graph_runs mi mc rank path [] gs' n !! i =
  Some (λ local, exec mi mc (gn_run g) local (extend path (default 0 (rank !! (n + i)))) [] PRet).
Proof.
  revert n i. induction gs' as [|[g' nd] gs' IH]; intros n [|i] Hi; simplify_eq/=.
  - by rewrite Nat.add_0_r.
  - rewrite (IH (S n) i Hi). by rewrite Nat.add_succ_r.
Qed.

(** The goroutine of a step is one invocation. *)
Lemma start_invoke i sc :
  i < length gs →
  ∃ k, start i sc = PInvoke (site i) (lf_call (leaf_at i) <$> evalArgs sc (lf_args (leaf_at i))) k ∧
       ∀ r, k r = PRet (leaf_flow (leaf_at i) sc r).
Proof.
  intros [g Hg]%lookup_lt_is_Some_2. destruct (go_leaf Hok _ _ Hg) as (lf & Hlf & _).
  unfold start. rewrite (graph_runs_lookup _ _ _ _ _ _ Hg).
  assert (leaf_at i = lf) as E by (unfold leaf_at; by rewrite Hg; simpl; rewrite Hlf).
  unfold site. rewrite E. by apply exec_leaf.
Qed.

(** One step of the goroutine of a step of the workflow: its call. *)
Lemma runs_step cn (st st' : state W) i q q' :
  i < length gs → runs (memo (sess st)) (calls st) i q → pstep cn st q st' q' →
  runs (memo (sess st')) (calls st') i q' ∧
  (calls st' = calls st ∨ ∃ ev, calls st' = calls st ++ [ev] ∧ call_of_step (memo (sess st)) ev i).
Proof.
  intros Hlt Hr Hs. destruct (pstep_extends _ _ _ _ _ Hs) as (evs & Hc & Hx).
  destruct Hr as [sc Hl|sc v Hl Hv|e He]; [|by inversion Hs..].
  destruct (start_invoke i sc Hlt) as (k & Ek & Hk). rewrite Ek in Hs.
  destruct (leaf_args_eval _ _ _ Hl Hlt) as (a & Ha & Hra). rewrite Ha in Hs. simpl in Hs.
  inversion Hs as [site' mk k' st1 r Hd| | | | | | | | | |]; subst. rewrite Hk.
  assert (local_ok (memo (sess st')) i sc) as Hl' by (eapply local_mono; [apply (ext_memo _ _ _ Hx)|done]).
  unfold do_invoke, getMemo in Hd. destruct (memo (sess st) !! CallKey (site i)) as [v|] eqn:Em.
  { injection Hd as <- <-. split; [|by left]. by apply runs_ok. }
  destruct (dispatch _ _ _ _) as [w rr]. set (ev := mkEvent (site i) (lf_call (leaf_at i) a) rr) in *.
  assert (call_of_step (memo (sess st)) ev i) as Hcall.
  { split_and!; [done..| |by exists a]. intros x Hx'. destruct Hl as [_ Hup].
    destruct (Hup x Hx') as (j & v & ? & ? & _). exists j. split; [done|by exists v]. }
  destruct rr as [v|e]; [destruct (Canonical v) as [cv|je] eqn:Ec|destruct (isSuspend e) eqn:Es];
    injection Hd as <- <-; (split; [|by right; exists ev]); simpl.
  - apply runs_ok; [done|]. simpl. by rewrite lookup_insert_eq.
  - apply runs_err. exists ev. rewrite elem_of_app. split; [right; by left|]. right. by exists v, je.
  - apply runs_err. exists ev. rewrite elem_of_app. split; [right; by left|]. by left.
  - apply runs_err. exists ev. rewrite elem_of_app. split; [right; by left|]. by left.
Qed.

Lemma inv_schedule m evs sts sc cpl fe su :
  graph_inv m evs sts sc cpl fe su →
  graph_inv m evs (trySchedule (gs.*1) cpl fe su sts) sc cpl fe su.
Proof.
  intros Hi. assert (∀ i t, trySchedule (gs.*1) cpl fe su sts !! i = Some t → t ≠ GLaunched →
    sts !! i = Some t) as Hsame.
  { intros i t (t0 & Ht & [->|[_ ->]])%trySchedule_lookup Hne; done. }
  split; try apply Hi.
  - rewrite trySchedule_length; [apply Hi|]. rewrite length_fmap. symmetry. apply Hi.
  - intros i t' Ht Hr x Hx. destruct (trySchedule_lookup _ _ _ _ _ _ _ Ht) as (t & Hti & [->|[-> ->]]).
    { by eapply (gi_launched _ _ _ _ _ _ _ Hi). }
    destruct (is_Some_b fe || su) eqn:Ef; unfold trySchedule in Ht; rewrite Ef in Ht.
    { rewrite Ht in Hti. done. }
    rewrite lookup_zip_with, Hti in Ht.
    destruct (lookup_lt_is_Some_2 gs i) as [g Hg].
    { rewrite <-(gi_length _ _ _ _ _ _ _ Hi). by eapply lookup_lt_Some. }
    rewrite list_lookup_fmap, Hg in Ht. simpl in Ht.
    unfold needs_of in Hx. rewrite Hg in Hx. simpl in Hx.
    destruct (bool_decide (g.1.1 ∈ cpl)); [done|]. destruct (ready cpl g.1) eqn:Er; [|done].
    unfold ready in Er. rewrite forallb_forall in Er. specialize (Er x). rewrite bool_decide_eq_true in Er.
    by apply Er, list_elem_of_In.
  - intros i q Hq. eapply (gi_runs _ _ _ _ _ _ _ Hi), Hsame; done.
  - intros i x Hx. eapply (gi_over _ _ _ _ _ _ _ Hi), Hsame; done.
  - intros x (i & v & Hx & Ho & ? & ?)%(gi_done _ _ _ _ _ _ _ Hi). exists i, v.
    split_and!; [done| |done..]. unfold trySchedule. case_match; [done|].
    destruct (ids_fst i x Hx) as (nd & Hg & _). by rewrite lookup_zip_with, Hg, Ho.
Qed.

(** A goroutine starts or moves on. *)
Lemma inv_run m evs sts sc cpl fe su i t q :
  graph_inv m evs sts sc cpl fe su → sts !! i = Some t → grunning t = true → runs m evs i q →
  graph_inv m evs (<[i := GRun q]> sts) sc cpl fe su.
Proof.
  intros Hi Ht Hto Hq. split; try apply Hi.
  - rewrite length_insert. apply Hi.
  - intros j t' [[-> ->]|[_ Hj]]%insert_lookup_cases Hr; by eapply (gi_launched _ _ _ _ _ _ _ Hi).
  - intros j q' [[-> [= ->]]|[_ Hj]]%insert_lookup_cases; [done|]. by apply (gi_runs _ _ _ _ _ _ _ Hi).
  - intros j x [[_ [=]]|[_ Hj]]%insert_lookup_cases. by apply (gi_over _ _ _ _ _ _ _ Hi).
  - intros x (j & v & Hx & Ho & ?)%(gi_done _ _ _ _ _ _ _ Hi). exists j, v. split; [done|].
    split; [|done]. rewrite list_lookup_insert_ne; [done|]. intros ->. simplify_eq.
Qed.

(** A goroutine ends. *)
Lemma inv_over m evs sts sc cpl fe su sc' cpl' fe' su' i x q :
  graph_inv m evs sts sc cpl fe su → ids !! i = Some x → sts !! i = Some (GRun q) →
  cpl ⊆ cpl' → (fe ≠ None → fe' ≠ None) → (su = true → su' = true) →
  (x ∈ cpl' ∨ fe' ≠ None ∨ su' = true) → sc' !! "input" = Some cin →
  (∀ y, y ∈ cpl' → (y ∈ cpl ∧ sc' !! y = sc !! y) ∨
    (y = x ∧ ∃ v, m !! key i = Some v ∧ sc' !! x = Some v)) →
  (∀ e, fe' = Some e → caused evs e) → (su' = true → caused evs ESuspend) →
  graph_inv m evs (<[i := GOver]> sts) sc' cpl' fe' su'.
Proof.
  intros Hi Hx Ht Hc Hfe Hsu Hover Hin Hdone He Hs.
  assert (i < length sts) as Hlt by by eapply lookup_lt_Some.
  split; try done.
  - rewrite length_insert. apply Hi.
  - intros j t' [[-> ->]|[_ Hj]]%insert_lookup_cases Hr; [done|]. intros y Hy.
    by eapply Hc, (gi_launched _ _ _ _ _ _ _ Hi).
  - intros j q' [[_ [=]]|[_ Hj]]%insert_lookup_cases. by apply (gi_runs _ _ _ _ _ _ _ Hi).
  - intros j y [[-> _]|[_ Hj]]%insert_lookup_cases Hy; [by simplify_eq|].
    destruct (gi_over _ _ _ _ _ _ _ Hi j y Hj Hy) as [?|[?|?]]; auto.
  - intros y [[Hy E]|(-> & v & Hv & E)]%Hdone.
    + apply (gi_done _ _ _ _ _ _ _ Hi) in Hy as (j & v & Hj & Ho & Hm & Hv). exists j, v.
      split_and!; [done| |done|by rewrite E]. rewrite list_lookup_insert_ne; [done|]. intros ->. simplify_eq.
    + exists i, v. split_and!; [done| |done|done]. by apply list_lookup_insert_eq.
  - intros j y Hj [[Hy _]|[-> _]]%Hdone z Hz; apply Hc.
    + by eapply (gi_closed _ _ _ _ _ _ _ Hi).
    + rewrite (ids_inj _ _ _ Hj Hx) in Hz. by eapply (gi_launched _ _ _ _ _ _ _ Hi).
Qed.

(** A goroutine that ended publishes its result, or its error. *)
Lemma inv_finish m evs sts sc cpl fe su i f sc' cpl' fe' su' :
  graph_inv m evs sts sc cpl fe su → sts !! i = Some (GRun (PRet f)) →
  graph_publish (default "" (fst <$> gs.*1 !! i)) f sc cpl fe su = (sc', cpl', fe', su') →
  graph_inv m evs (<[i := GOver]> sts) sc' cpl' fe' su' ∧ cpl ⊆ cpl' ∧
  (fe ≠ None → fe' ≠ None) ∧ (su = true → su' = true).
Proof.
  intros Hi Ht Hp. pose proof (gi_runs _ _ _ _ _ _ _ Hi i _ Ht) as Hr.
  destruct (lookup_lt_is_Some_2 ids i) as [x Hx].
  { rewrite ids_length, <-(gi_length _ _ _ _ _ _ _ Hi). by eapply lookup_lt_Some. }
  destruct (ids_fst i x Hx) as (nd & Hg & _). rewrite Hg in Hp. simpl in Hp.
  destruct (go_named Hok x) as [Hne Hni]; [by eapply list_elem_of_lookup_2|].
  inversion Hr as [sc0 Hl E|sc0 v Hl Hv E|e He E]; subst.
  - destruct (start_invoke i sc0) as (k & Ek & _); [|congruence].
    rewrite <-ids_length. by eapply lookup_lt_Some.
  - unfold leaf_flow, bind_result in Hp. rewrite (leaf_bind i x Hx) in Hp. simpl in Hp.
    rewrite !decide_False in Hp by done. rewrite lookup_insert_eq in Hp. injection Hp as <- <- <- <-.
    split_and!; [|set_solver|done|done].
    eapply inv_over; [done..|set_solver|done|done|left; set_solver| | |apply Hi|apply Hi].
    + rewrite lookup_insert_ne by done. apply Hi.
    + intros y [->%elem_of_singleton|Hy]%elem_of_union.
      * right. split; [done|]. exists v. by rewrite lookup_insert_eq.
      * destruct (decide (y = x)) as [->|Hyx]; [right; split; [done|]; exists v; by rewrite lookup_insert_eq|].
        left. by rewrite lookup_insert_ne.
  - assert (∀ fe' su', (fe ≠ None → fe' ≠ None) → (su = true → su' = true) →
      fe' ≠ None ∨ su' = true → (∀ e, fe' = Some e → caused evs e) → (su' = true → caused evs ESuspend) →
      graph_inv m evs (<[i := GOver]> sts) sc cpl fe' su' ∧ cpl ⊆ cpl ∧
      (fe ≠ None → fe' ≠ None) ∧ (su = true → su' = true)) as Hnew.
    { intros fe1 su1 H1 H2 H3 H4 H5. split_and!; [|done..].
      eapply inv_over; [done..|by right|apply Hi|by left|done|done]. }
    simpl in Hp. destruct (isSuspend e) eqn:Es; [|destruct (isCanceled e && (su || is_Some_b fe)) eqn:Ec];
      injection Hp as <- <- <- <-; apply Hnew; try done; try apply Hi.
    + by right.
    + intros _. by destruct e.
    + bool_inv. destruct fe; [by left|]. destruct su; [by right|done].
    + by destruct fe.
    + left. by destruct fe.
    + destruct fe as [e'|]; [apply Hi|]. by intros e' [= <-].
Qed.

Hypothesis Hret : ret = [] ∨ ∃ o, ret = [Return o].

Lemma after_ret sc : ∃ f, after sc = PRet f.
Proof.
  unfold after. destruct Hret as [->|[o ->]]; simpl; [by eexists|].
  destruct (evalValue sc o); by eexists.
Qed.

Lemma graph_end (st : state W) sts sc cpl fe su k :
  graph_inv (memo (sess st)) (calls st) sts sc cpl fe su →
  fe ≠ None ∨ su = true ∨ size cpl = length gs →
  (∀ r, k r = match r with Ok sc => after sc | Err e => PRet (FErr e) end) →
  run_inv st (k (graph_result (length (gs.*1)) sc cpl fe su)).
Proof.
  intros Hi Hex Hk. rewrite Hk, length_fmap. unfold graph_result. destruct fe as [e|].
  { constructor. left. by apply (gi_err _ _ _ _ _ _ _ Hi). }
  destruct su.
  { constructor. left. by apply (gi_susp _ _ _ _ _ _ _ Hi). }
  case_bool_decide as Hs; [|by destruct Hex as [?|[?|?]]].
  assert (complete (memo (sess st)) sc) as Hc.
  { split; [apply Hi|]. intros i x Hx.
    destruct (gi_done _ _ _ _ _ _ _ Hi x) as (j & v & Hj & _ & ? & ?); [by eapply all_named|].
    rewrite (ids_inj _ _ _ Hx Hj). by exists v. }
  destruct (after_ret sc) as [f Hf]. rewrite Hf. constructor.
  destruct f; simpl; [by exists sc..|]. right. by exists sc.
Qed.

(** Every step of a run keeps the invariant, and makes at most one call, of a
    step whose needs have results. *)
Lemma run_step (st st' : state W) p p' :
  run_inv st p → pstep false st p st' p' →
  run_inv st' p' ∧
  (calls st' = calls st ∨ ∃ ev i, calls st' = calls st ++ [ev] ∧ call_of_step (memo (sess st)) ev i).
Proof.
  intros [sts sc cpl fe su tk ex k Hi Hex Hk|f Hf] Hs; [|by inversion Hs].
  inversion Hs as [| | | | | |? ? ? ? ? ? ? ? ? ? Hc|? ? ? ? ? ? ? ? tk1 ? sts'|? ? ? ? ? ? ? ? ? ? ? i Ht
    |? ? ? ? ? ? ? ? ? ? ? i f sc' cpl' fe' su' Ht Hp|? ? ? ? ? ? ? ? ? ? ? i q ? q' Ht Hq]; subst.
  - split; [|by left]. eapply graph_end; [done|by apply Hex|done].
  - split; [|by left]. constructor; [by apply inv_schedule| |done]. by eapply schedule_exit.
  - split; [|by left]. constructor; [|done..]. eapply inv_run; [done..|].
    apply runs_call. by eapply launched_local.
  - split; [|by left]. destruct (inv_finish _ _ _ _ _ _ _ _ _ _ _ _ _ Hi Ht Hp) as (Hi' & Hc & Hfe & Hsu).
    constructor; [done| |done]. intros Hx. destruct (Hex Hx) as [?|[?|Hsz]]; [auto|auto|].
    right; right. eapply all_done; [done|]. intros j x Hj. apply Hc. by eapply all_named.
  - assert (i < length gs) as Hlt.
    { rewrite <-(gi_length _ _ _ _ _ _ _ Hi). by eapply lookup_lt_Some. }
    destruct (pstep_extends _ _ _ _ _ Hq) as (evs & Hc & Hx).
    destruct (runs_step _ _ _ _ _ _ Hlt (gi_runs _ _ _ _ _ _ _ Hi _ _ Ht) Hq) as [Hr Hcall].
    split; [|destruct Hcall as [?|(ev & ? & ?)]; [by left|right; by exists ev, i]].
    constructor; [|done..]. eapply inv_run; [|done..]. rewrite Hc.
    eapply graph_inv_mono; [apply (ext_memo _ _ _ Hx)|done].
Qed.

Lemma call_of_step_mono m m' ev i : m ⊆ m' → call_of_step m ev i → call_of_step m' ev i.
Proof.
  intros Hm (Hlt & Hsite & Hup & a & Ha & Hc).
  assert (∀ x, upstream i x → ∃ j, ids !! j = Some x ∧ ∃ v, m !! key j = Some v ∧ m' !! key j = Some v) as Hup'.
  { intros x Hx. destruct (Hup x Hx) as (j & Hj & v & Hv). exists j. split; [done|]. exists v.
    split; [done|]. by eapply lookup_weaken. }
  split_and!; [done..| |].
  - intros x Hx. destruct (Hup' x Hx) as (j & Hj & v & _ & Hv). exists j. split; [done|by exists v].
  - exists a. split; [|done]. rewrite <-Ha. apply evalArgs_agree. intros k o Ho h Hh.
    destruct (go_args Hok i k o Hlt Ho) as [_ Hr]. destruct (Hr h Hh) as [->|Hx].
    + by rewrite !results_input.
    + destruct (Hup' h Hx) as (j & Hj & v & Hv & Hv'). by rewrite !(results_step _ j h Hj), Hv, Hv'.
Qed.

(** The calls of a run, in order: each is of a step all of whose needs, direct or
    not, have a result, from the seed or from an earlier call. *)
Definition ordered (evs : list event) : Prop := ∀ l1 ev l2, evs = l1 ++ ev :: l2 →
  ∃ i, i < length gs ∧ ev_site ev = site i ∧ ∀ x, upstream i x → ∃ j, ids !! j = Some x ∧
    (is_Some (memo s0 !! key j) ∨ ∃ ev', ev' ∈ l1 ∧ ev_key ev' = key j ∧ is_Some (ev_memo ev')).

Record run_ok (st : state W) (p : proc) : Prop := {
  ro_inv : run_inv st p;
  ro_extends : extends s0 (sess st) (calls st);
  ro_calls : Forall (call_ok (memo (sess st))) (calls st);
  ro_ordered : ordered (calls st);
}.

Lemma run_ok_step (st st' : state W) p p' : run_ok st p → pstep false st p st' p' → run_ok st' p'.
Proof.
  intros [Hinv Hx Hcalls Hord] Hs. destruct (run_step _ _ _ _ Hinv Hs) as [Hinv' Hc].
  destruct (pstep_extends _ _ _ _ _ Hs) as (evs & Ec & Hx').
  assert (extends s0 (sess st') (calls st')) as Hxt by (rewrite Ec; by eapply extends_trans).
  assert (Forall (call_ok (memo (sess st'))) (calls st)) as Hold.
  { eapply Forall_impl; [done|]. intros ev [i Hi]. exists i.
    eapply call_of_step_mono; [apply (ext_memo _ _ _ Hx')|done]. }
  destruct Hc as [E|(ev & i & E & Hcall)]; (split; [done..| |]); rewrite E; [done..| |].
  - apply Forall_app. split; [done|]. constructor; [|done]. exists i.
    eapply call_of_step_mono; [apply (ext_memo _ _ _ Hx')|done].
  - intros l1 ev1 l2 El. destruct l2 as [|ev2 l2 _] using rev_ind.
    + apply app_inj_tail in El as [<- <-]. destruct Hcall as (Hlt & Hsite & Hup & _). exists i.
      split_and!; [done..|]. intros x Hux. destruct (Hup x Hux) as (j & Hj & v & Hv). exists j.
      split; [done|]. destruct (ext_only _ _ _ Hx _ _ Hv) as [?|(ev' & ? & ? & ?)]; [left; by exists v|].
      right. exists ev'. split_and!; [done..|by exists v].
    + rewrite app_comm_cons, app_assoc in El. apply app_inj_tail in El as [El _]. by eapply Hord.
Qed.

Lemma run_ok_steps (st st' : state W) p p' : run_ok st p → psteps st p st' p' → run_ok st' p'.
Proof. intros Hr Hs. induction Hs; [done|]. apply IHHs. by eapply run_ok_step. Qed.

(** ** The start of a run *)

Hypothesis Hne : gs ≠ [].

Lemma graph_inv_start (m : gmap string value) :
  graph_inv m [] (replicate (length gs) GIdle) {["input" := cin]} ∅ None false.
Proof.
  assert (∀ i t, replicate (length gs) GIdle !! i = Some t → t = GIdle) as Hidle.
  { by intros i t [-> _]%lookup_replicate. }
  split; try done.
  - apply length_replicate.
  - intros i t ->%Hidle. done.
  - by intros i q ?%Hidle.
  - by intros i x ?%Hidle.
Qed.

Lemma run_ok_start (w : W) :
  run_ok (mkState w s0 []) (execAll mi mc (Graph gs :: ret) {["input" := cin]} [] [] PRet).
Proof.
  split; [|apply extends_refl|constructor|by intros [|? ?] ? ?].
  unfold execAll, execAll_. cbn [execAll_from exec]. fold (graph_runs mi mc (canonicalRanks ids) (extend [] 0) []).
  fold start. unfold execGraph. rewrite decide_False by by destruct gs.
  constructor.
  - rewrite length_fmap. apply inv_schedule. apply graph_inv_start.
  - rewrite length_fmap. intros Hx. eapply (schedule_exit (memo s0) []); [apply graph_inv_start|].
    by rewrite length_fmap.
  - by intros [sc|e].
Qed.
End graph.

(** ** Invokers that answer by the call alone *)

Section answers.
Context (F : CallSite → call → res error value).

(** The answer to a call depends on the call only, not on the world, the order of
    the calls or a cancellation. *)
Definition answers (W : Type) `{Invoker W} : Prop :=
  ∀ (w : W) cn s c, (dispatch w cn s c).2 = F s c.

Definition answered (ev : event) : Prop := ev_result ev = F (ev_site ev) (ev_call ev).

Lemma pstep_answered `{Invoker W} cn (st st' : state W) p p' :
  answers W → pstep cn st p st' p' → Forall answered (calls st) → Forall answered (calls st').
Proof.
  intros Ha Hs Hold. induction Hs as [? ? ? ? ? ? ? Hd|? ? ? ? ? ? ? Hd| | | | | | | | |]; auto.
  - unfold do_invoke in Hd. destruct (getMemo _ _); [by simplify_eq|].
    destruct mk as [c|e]; [|by simplify_eq].
    destruct (dispatch (world st) cn site0 c) as [w rr] eqn:Ed.
    assert (Forall answered (calls st ++ [mkEvent site0 c rr])) as Hnew.
    { apply Forall_app. split; [done|]. constructor; [|done]. unfold answered. simpl.
      by rewrite <-(Ha (world st) cn), Ed. }
    destruct rr as [v|e]; [destruct (Canonical v)|destruct (isSuspend e)]; by simplify_eq.
  - destruct (do_control_extends _ _ _ _ _ Hd) as [-> _]. done.
Qed.

Lemma psteps_answered `{Invoker W} (st st' : state W) p p' :
  answers W → psteps st p st' p' → Forall answered (calls st) → Forall answered (calls st').
Proof. intros Ha Hs. induction Hs; [done|]. intros Hc. by eapply IHHs, pstep_answered. Qed.

Context (mi : Z) (mc : nat) (gs : list (string * list string * node)).
Context (cin : value) (ret : list node).
Hypothesis Hok : graph_ok gs.

(** What a run from an empty memo leaves: the calls it made and its results. *)
Record trace_ok (m : gmap string value) (evs : list event) : Prop := {
  tr_calls : Forall (call_ok gs cin m) evs;
  tr_memo : ∀ k v, m !! k = Some v → ∃ ev, ev ∈ evs ∧ ev_key ev = k ∧ ev_memo ev = Some v;
  tr_answered : Forall answered evs;
}.

Lemma tr_event m evs ev : trace_ok m evs → ev ∈ evs → ∃ i, call_of_step gs cin m ev i ∧ answered ev.
Proof.
  intros Ht Hin. pose proof (tr_calls _ _ Ht) as Hc. pose proof (tr_answered _ _ Ht) as Ha.
  rewrite Forall_forall in Hc, Ha. destruct (Hc ev Hin) as [i Hi]. exists i. split; [done|by apply Ha].
Qed.

(** The arguments of a step are the same in two runs where the results upstream
    are. *)
Lemma same_answer m1 m2 ev1 ev2 i :
  call_of_step gs cin m1 ev1 i → call_of_step gs cin m2 ev2 i → answered ev1 → answered ev2 →
  (∀ x j, upstream gs i x → (gn_id <$> gs) !! j = Some x → m1 !! key gs j = m2 !! key gs j) →
  ev_result ev1 = ev_result ev2.
Proof.
  intros (Hlt & S1 & _ & a1 & A1 & C1) (_ & S2 & _ & a2 & A2 & C2) H1 H2 Hup.
  assert (a1 = a2) as <-.
  { assert (evalArgs (results gs cin m1) (lf_args (leaf_at gs i)) =
            evalArgs (results gs cin m2) (lf_args (leaf_at gs i))) as E; [|congruence].
    apply evalArgs_agree. intros k o Ho h Hh. destruct (go_args _ Hok i k o Hlt Ho) as [_ Hr].
    destruct (Hr h Hh) as [->|Hx]; [by rewrite !results_input|].
    pose proof Hx as (j & _ & Hj). rewrite !(results_step gs cin Hok _ j h Hj). by eapply Hup. }
  unfold answered in *. by rewrite H1, H2, S1, S2, C1, C2.
Qed.

Lemma acc_tc {A} (R : A → A → Prop) x : Acc (λ y x, R x y) x → Acc (λ y x, tc R x y) x.
Proof.
  induction 1 as [x _ IH]. constructor. intros y Hy.
  inversion Hy as [? ? Hxy|? z ? Hxz Hzy]; subst; [by apply IH|by apply (Acc_inv (IH z Hxz))].
Qed.

(** The results of a step in two runs are the same. *)
Lemma same_results m1 m2 evs1 evs2 i v1 v2 :
  trace_ok m1 evs1 → trace_ok m2 evs2 → i < length gs →
  m1 !! key gs i = Some v1 → m2 !! key gs i = Some v2 → v1 = v2.
Proof.
  intros T1 T2. revert v1 v2. induction (acc_tc _ _ (go_acyclic _ Hok i)) as [i _ IH].
  intros v1 v2 Hlt V1 V2.
  assert (∀ m evs v, trace_ok m evs → m !! key gs i = Some v →
    ∃ ev, call_of_step gs cin m ev i ∧ answered ev ∧ ev_memo ev = Some v) as Hev.
  { intros m evs v T (ev & Hin & Hk & Hm)%(tr_memo _ _ T).
    destruct (tr_event _ _ _ T Hin) as (i' & Hc & Ha). exists ev. split; [|done].
    pose proof Hc as (Hlt' & Hs & _). unfold ev_key in Hk. rewrite Hs in Hk.
    by rewrite <-(key_inj gs _ _ Hlt' Hlt Hk). }
  destruct (Hev _ _ _ T1 V1) as (e1 & C1 & A1 & M1), (Hev _ _ _ T2 V2) as (e2 & C2 & A2 & M2).
  enough (ev_result e1 = ev_result e2) as E by (unfold ev_memo in *; rewrite E in M1; congruence).
  eapply same_answer; [exact C1|exact C2|done..|]. intros x j Hx Hj.
  assert (∀ m ev, call_of_step gs cin m ev i → is_Some (m !! key gs j)) as Hsome.
  { intros m ev (_ & _ & Hup & _). destruct (Hup x Hx) as (j' & Hj' & Hv).
    by rewrite (ids_inj gs Hok _ _ _ Hj Hj'). }
  destruct (Hsome _ _ C1) as [u1 U1], (Hsome _ _ C2) as [u2 U2]. rewrite U1, U2. f_equal.
  destruct Hx as (j' & Ht & Hj'). rewrite (ids_inj gs Hok _ _ _ Hj Hj') in *.
  eapply IH; [exact Ht| |done|done]. rewrite <-(ids_length gs). by eapply lookup_lt_Some.
Qed.
End answers.
