(* ===== verification/WorkflowRun.v ===== *)
(** * Running an accepted YAML workflow

    The composition of the parts: a workflow in graph mode that passes the step
    checks and the graph validation ([internal/spec]) is lowered
    ([internal/lang/lower]) and run by the interpreter ([internal/execir]).  The
    theorems hold for every Invoker and every interleaving of the goroutines. *)

From S2P Require Import Prelude Value JsonNum ExecIR ExecEval ExecInterp ExecSteps ExecCount ExecRun.
From S2P Require Import SpecTools SpecGraph StepRefs LowerYaml GraphRun.

Local Open Scope nat_scope.

(** ** Accepted workflows *)

(** The checks of [collectReferenceErrors] on one workflow. *)
Definition checks_pass (w : WorkflowSpec) : bool :=
  bool_decide (length (validateWorkflowStepErrors w) = 0) &&
  match validateWorkflowStepOrder w with None => true | Some _ => false end &&
  bool_decide (length (validateWorkflowGraph w) = 0).

(** What the checks leave open: every step is executable and has a name, which is
    not the name of the workflow input, and the references to steps are spelled as
    the checks read them (the examples below show what happens otherwise). *)
Definition steps_named (w : WorkflowSpec) : bool :=
  forallb (λ st, let id := trim_space (step_ID st) in
    negb (id =? "")%string && negb (id =? "input")%string && negb (step_Synthetic st)) (wf_Steps w).
Definition refs_spelled (w : WorkflowSpec) : bool :=
  forallb (λ st, forallb spelled (CollectWithStringValues (step_With st))) (wf_Steps w).

(** The references of the output, which no check reads, name steps. *)
Definition output_known (w : WorkflowSpec) : bool :=
  match wf_Output w with
  | None => true
  | Some m => forallb (λ id, str_mem id ((λ st, trim_space (step_ID st)) <$> wf_Steps w))
                (value_steps (default (VMap m) (singleValueField m)))
  end.

Definition runnable (w : WorkflowSpec) : bool :=
  WorkflowUsesExplicitNeeds (wf_Steps w) && checks_pass w && steps_named w && refs_spelled w && output_known w.

(** ** The lowered graph *)

Section lowered.
Context (name : string) (w : WorkflowSpec).
#[local] Abbreviation steps := (wf_Steps w).
#[local] Abbreviation gs := (lower_nodes steps).
Hypothesis Hrun : runnable w = true.
Hypothesis Hdiags : (LowerWorkflowResource name w).2 = [].

Lemma runnable_spec :
  (WorkflowUsesExplicitNeeds steps = true ∧ validateWorkflowStepErrors w = [] ∧
   validateWorkflowStepOrder w = None ∧ validateWorkflowGraph w = []) ∧
  steps_named w = true ∧ refs_spelled w = true ∧ output_known w = true.
Proof.
  pose proof Hrun as Hr. unfold runnable, checks_pass in Hr. bool_inv.
  split_and!; try done; try (by apply nil_length_inv). by destruct (validateWorkflowStepOrder w).
Qed.

Lemma explicit : WorkflowUsesExplicitNeeds steps = true.
Proof. apply runnable_spec. Qed.

Lemma graph_length : length gs = length steps.
Proof. unfold lower_nodes. apply length_imap. Qed.

Lemma node_at i st : steps !! i = Some st →
  gs !! i = Some (trim_space (step_ID st), StepNeedsIDs steps i, (lowerStep st).1).
Proof. intros Hi. unfold lower_nodes. by rewrite list_lookup_imap, Hi. Qed.

Lemma id_at i x : (gn_id <$> gs) !! i = Some x ↔ ∃ st, steps !! i = Some st ∧ trim_space (step_ID st) = x.
Proof.
  rewrite list_lookup_fmap. unfold lower_nodes. rewrite list_lookup_imap.
  destruct (steps !! i) as [st|]; simpl; split.
  - intros [= <-]. by exists st.
  - by intros (st' & [= <-] & <-).
  - done.
  - by intros (? & ? & _).
Qed.

Lemma needs_at i : needs_of gs i = StepNeedsIDs steps i.
Proof.
  unfold needs_of, lower_nodes. rewrite list_lookup_imap. destruct (steps !! i) eqn:E; [done|].
  simpl. unfold StepNeedsIDs. by rewrite E.
Qed.

Lemma step_named i st : steps !! i = Some st →
  trim_space (step_ID st) ≠ "" ∧ trim_space (step_ID st) ≠ "input" ∧ step_Synthetic st = false.
Proof.
  intros Hi%list_elem_of_lookup_2%list_elem_of_In. destruct runnable_spec as (_ & Hn & _).
  unfold steps_named in Hn. rewrite forallb_forall in Hn. specialize (Hn st Hi). by bool_inv.
Qed.

Lemma ids_distinct i j st st' : steps !! i = Some st → steps !! j = Some st' →
  trim_space (step_ID st) = trim_space (step_ID st') → i = j.
Proof.
  intros Hi Hj E. destruct runnable_spec as ((_ & (_ & _ & Hd)%step_errors_nil & _) & _).
  eapply Hd; [done..|]. by apply (step_named i).
Qed.

Lemma graph_valid : validateWorkflowGraph w = [].
Proof. apply runnable_spec. Qed.

Lemma index_unique x j : (gn_id <$> gs) !! j = Some x → stepIndexByID steps !! x = Some j.
Proof.
  intros (st & Hj & E)%id_at. destruct (step_named j st Hj) as (Hne & _).
  assert (is_Some (stepIndexByID steps !! x)) as [j' Hj'].
  { apply stepIndex_known. subst x. split; [done|]. exists j. split; [by eapply lookup_lt_Some|].
    unfold step_id. by rewrite Hj. }
  rewrite Hj'. f_equal. apply stepIndex_Some in Hj' as (Hlt & E' & _).
  apply lookup_lt_is_Some in Hlt as [st' Hst']. unfold step_id in E'. rewrite Hst' in E'. simpl in E'.
  eapply ids_distinct; [done..|]. congruence.
Qed.

Lemma dep_depends i j : dep gs i j ↔ depends steps i j.
Proof.
  unfold dep, depends. rewrite needs_at. split; intros (x & Hx & Hj); exists x; (split; [done|]).
  - by apply index_unique.
  - apply stepIndex_Some in Hj as (Hlt & E & _). apply lookup_lt_is_Some in Hlt as [st Hst].
    apply id_at. exists st. split; [done|]. unfold step_id in E. by rewrite Hst in E.
Qed.

(** The steps upstream of a step are its ancestors. *)
Lemma upstream_ancestor i x : x ∈ StepAncestorIDs steps i → upstream gs i x.
Proof.
  intros (k & Hr & Hx)%StepAncestorIDs_spec.
  assert (∃ j, (gn_id <$> gs) !! j = Some x) as [j Hj].
  { pose proof graph_valid as [Hn _]%validate_spec. unfold StepNeedsIDs in Hx.
    destruct (steps !! k) as [st|] eqn:Ek; [|by apply elem_of_nil in Hx]. rewrite explicit in Hx.
    unfold uniqueNonEmpty in Hx. rewrite elem_of_dedup_id, list_elem_of_In, filter_In, <-list_elem_of_In in Hx.
    destruct Hx as [(raw & -> & Hraw)%list_elem_of_fmap _].
    apply list_elem_of_lookup_2 in Ek. destruct (Hn st Ek) as [_ Hr']. destruct (Hr' raw Hraw) as (_ & _ & j & Hlt & E).
    exists j. apply lookup_lt_is_Some in Hlt as [st' Hst']. apply id_at. exists st'. split; [done|].
    unfold step_id in E. by rewrite Hst' in E. }
  exists j. split; [|done].
  assert (dep gs k j) as Hkj by (exists x; by rewrite needs_at).
  assert (rtc (dep gs) i k) as Hik.
  { eapply rtc_congruence with (f := id); [|exact Hr]. intros ??. apply dep_depends. }
  eapply tc_rtc_l; [exact Hik|by apply tc_once].
Qed.

Lemma lowerStep_leaf st : (lowerStep st).2 = [] →
  ∃ lf, leaf_of (lowerStep st).1 = Some lf ∧ lf_bind lf = trim_space (step_ID st) ∧
    lf_args lf = (lowerWith (step_With st)).1 ∧ (lowerWith (step_With st)).2 = [].
Proof.
  unfold lowerStep. destruct (lowerWith _) as [a ds].
  repeat case_match; simpl; try done; intros ->; by eexists.
Qed.

Lemma step_diags i st : steps !! i = Some st → (lowerStep st).2 = [].
Proof.
  intros Hi%list_elem_of_lookup_2. unfold LowerWorkflowResource in Hdiags.
  destruct (lowerOutput _) as [ret ds]. simpl in Hdiags. apply app_nil in Hdiags as [Hd _].
  rewrite bind_nil in Hd. by apply Hd.
Qed.

(** The references of a step name ancestors. *)
Lemma step_refs_upstream i st s x :
  steps !! i = Some st → s ∈ CollectWithStringValues (step_With st) → x ∈ token_steps s →
  upstream gs i x.
Proof.
  intros Hi Hs Hx. destruct runnable_spec as ((_ & _ & Ho & _) & _ & Hsp & _).
  apply upstream_ancestor. destruct (step_named i st Hi) as (_ & _ & Hsyn).
  unfold refs_spelled in Hsp. rewrite forallb_forall in Hsp.
  specialize (Hsp st (proj1 (list_elem_of_In _ _) (list_elem_of_lookup_2 _ _ _ Hi))).
  rewrite forallb_forall in Hsp. specialize (Hsp s (proj1 (list_elem_of_In _ _) Hs)).
  apply (token_steps_refs s x Hsp) in Hx.
  unfold validateWorkflowStepOrder in Ho. rewrite first_error_None in Ho.
  specialize (Ho (i, st)). cbv beta iota in Ho. rewrite Hsyn in Ho.
  assert (first_error (check_ref steps i (trim_space (step_ID st)))
    (CollectWithStringValues (step_With st) ≫= InterpolationStepRefs) = None) as Hc.
  { apply Ho, zip_seq_elem. split; [lia|]. by rewrite Nat.sub_0_r. }
  rewrite first_error_None in Hc. specialize (Hc x). unfold check_ref in Hc.
  assert (x ∈ CollectWithStringValues (step_With st) ≫= InterpolationStepRefs) as Hin
    by (apply list_elem_of_bind; by exists s).
  specialize (Hc Hin). destruct (idToIdx steps !! x); [|done].
  destruct (decide (x ∈ StepAncestorIDs steps i)); [done|]. by destruct (negb _ && _).
Qed.

Lemma lowered_ok : graph_ok gs.
Proof.
  assert (∀ i g, gs !! i = Some g → ∃ st, steps !! i = Some st ∧ g = (trim_space (step_ID st), StepNeedsIDs steps i, (lowerStep st).1)) as Hg.
  { intros i g Hi. destruct (lookup_lt_is_Some_2 steps i) as [st Hst].
    { rewrite <-graph_length. by eapply lookup_lt_Some. }
    exists st. split; [done|]. rewrite (node_at i st Hst) in Hi. by injection Hi as <-. }
  split.
  - intros i g Hi. destruct (Hg i g Hi) as (st & Hst & ->). simpl.
    destruct (lowerStep_leaf st) as (lf & ? & ? & _); [by eapply step_diags|]. by exists lf.
  - apply NoDup_alt. intros i j x (st & Hi & Ei)%id_at (st' & Hj & Ej)%id_at.
    eapply ids_distinct; [done..|]. congruence.
  - intros x [i (st & Hi & <-)%id_at]%list_elem_of_lookup_1. by destruct (step_named i st Hi) as (? & ? & _).
  - intros i x Hx. rewrite needs_at in Hx.
    assert (x ∈ StepAncestorIDs steps i) as (j & _ & Hj)%upstream_ancestor.
    { apply StepAncestorIDs_spec. exists i. split; [done|done]. }
    by eapply list_elem_of_lookup_2.
  - intros i. pose proof (validate_grounded w i graph_valid) as Ha. induction Ha as [i _ IH].
    constructor. intros j Hj. by apply IH, dep_depends.
  - intros i k o Hlt Ho. rewrite graph_length in Hlt. apply lookup_lt_is_Some in Hlt as [st Hst].
    destruct (lowerStep_leaf st (step_diags i st Hst)) as (lf & Hlf & _ & Ha & Hd).
    assert (leaf_at gs i = lf) as E by (unfold leaf_at; rewrite (node_at i st Hst); simpl; by rewrite Hlf).
    rewrite E, Ha in Ho. destruct (lowerWith_reads _ _ _ Hd Ho) as [Hwf Hr]. split; [done|].
    intros x Hx. destruct (Hr x Hx) as [?|(s & Hx' & Hs)%list_elem_of_bind]; [by left|].
    right. by eapply step_refs_upstream.
Qed.

Lemma graph_nonempty : gs ≠ [].
Proof.
  intros E. pose proof explicit as He. apply (f_equal length) in E. rewrite graph_length in E.
  apply nil_length_inv in E. by rewrite E in He.
Qed.

(** The output reads the input and the steps. *)
Lemma output_reads o : (lowerOutput (wf_Output w)).1 = [Return o] →
  op_wf o = true ∧ ∀ x, x ∈ op_heads o → x = "input" ∨ x ∈ gn_id <$> gs.
Proof.
  destruct runnable_spec as (_ & _ & _ & Hout). unfold LowerWorkflowResource in Hdiags.
  destruct (lowerOutput (wf_Output w)) as [ret ds] eqn:El. simpl in *. apply app_nil in Hdiags as [_ ->].
  intros ->. unfold output_known in Hout. unfold lowerOutput in El.
  destruct (wf_Output w) as [m|]; [|done].
  set (v := default (VMap m) (singleValueField m)) in *. pose proof (lowerYAMLValue_reads v) as Hr.
  destruct (lowerYAMLValue v) as [o' ds']. injection El as -> ->. destruct (Hr eq_refl) as [Hwf Hh].
  split; [done|]. intros x Hx. destruct (Hh x Hx) as [?|Hs]; [by left|right].
  rewrite forallb_forall in Hout. specialize (Hout x (proj1 (list_elem_of_In _ _) Hs)).
  apply str_mem_spec in Hout as (st & -> & [i Hi]%list_elem_of_lookup_1)%list_elem_of_fmap.
  apply list_elem_of_lookup. exists i. apply id_at. by exists st.
Qed.

Lemma output_ret : (lowerOutput (wf_Output w)).1 = [] ∨ ∃ o, (lowerOutput (wf_Output w)).1 = [Return o].
Proof.
  unfold lowerOutput. destruct (wf_Output w) as [m|]; [|by left]. right.
  destruct (lowerYAMLValue _) as [o ds]. by exists o.
Qed.

Lemma lowered_body :
  Body (LowerWorkflowResource name w).1 = Graph gs :: (lowerOutput (wf_Output w)).1 ∧
  Params (LowerWorkflowResource name w).1 = ["input"].
Proof. unfold LowerWorkflowResource. rewrite explicit. by destruct (lowerOutput _). Qed.
End lowered.

(** ** Runs *)

Section runs.
Context `{Invoker W}.

(** The state a run of the lowered program ends in. *)
Lemma workflow_run name wf c prog input seed pick fuel (w : W) w' evs r :
  runnable wf = true → LowerWorkflowResource name wf = (prog, []) →
  RunResumable c prog input seed pick fuel w = Some (w', evs, r) →
  (evs = [] ∧ ∃ e, start_run c prog input seed = Err e ∧ r = Err e) ∨
  ∃ s0 cin (st : state W) f, seed_session seed = Ok s0 ∧ Canonical input = Ok cin ∧
    run_ok (maxIters c) (maxConc c) (lower_nodes (wf_Steps wf)) cin (lowerOutput (wf_Output wf)).1 s0 st (PRet f) ∧
    (∀ F, answers F W → Forall (answered F) (calls st)) ∧ calls st = evs ∧ r = finish_run (sess st) f.
Proof.
  intros Hrun Hl [(e & Hs & -> & ->)|(s & p & st & f & Hs & Hp & Hc & -> & _)]%RunResumable_inv.
  { left. split; [done|]. by exists e. }
  right. assert ((LowerWorkflowResource name wf).2 = []) as Hd by by rewrite Hl.
  pose proof (lowered_body name wf Hrun) as [Hb Hpar]. rewrite Hl in Hb, Hpar. simpl in Hb, Hpar.
  unfold start_run in Hs. destruct (seed_session seed) as [s0|]; [|done]. simpl in Hs.
  destruct (Canonical input) as [cin|]; [|done]. rewrite Hb, Hpar in Hs.
  injection Hs as <- <-. exists s0, cin, st, f. split_and!; [done..| | |done|done].
  - eapply run_ok_steps; [by eapply lowered_ok|apply output_ret| |exact Hp].
    apply run_ok_start; [by eapply lowered_ok|by eapply graph_nonempty].
  - intros F HF. by eapply psteps_answered.
Qed.

(** The output operand evaluates when every step has its result. *)
Lemma output_value name wf mi mc cin m sc :
  runnable wf = true → (LowerWorkflowResource name wf).2 = [] →
  complete (lower_nodes (wf_Steps wf)) cin m sc →
  ∃ out, after mi mc (lowerOutput (wf_Output wf)).1 sc =
      PRet (match (lowerOutput (wf_Output wf)).1 with [] => FNext sc | _ => FDone sc out end) ∧
    match (lowerOutput (wf_Output wf)).1 with
    | [Return o] => evalValue (results (lower_nodes (wf_Steps wf)) cin m) o = Ok out
    | _ => out = VNil
    end.
Proof.
  intros Hrun Hd [Hin Hall]. pose proof (lowered_ok name wf Hrun Hd) as Hok.
  unfold after. destruct (output_ret wf) as [->|[o Ho]]; [by exists VNil|]. rewrite Ho. simpl.
  destruct (output_reads name wf Hrun Hd o Ho) as [Hwf Hr].
  assert (agree (op_heads o) sc (results (lower_nodes (wf_Steps wf)) cin m)) as Ha.
  { intros h [->|[i Hi]%list_elem_of_lookup_1]%Hr; [by rewrite Hin, results_input|].
    destruct (Hall i h Hi) as (v & Hm & Hv). by rewrite Hv, (results_step _ _ Hok _ i h Hi). }
  destruct (evalValue sc o) as [out|e] eqn:E.
  - exists out. split; [done|]. by rewrite <-(evalValue_agree o _ _ Ha).
  - destruct (evalValue_unbound o sc e Hwf E) as (h & _ & Hh & Hn). exfalso.
    destruct (Hr h Hh) as [->|[i Hi]%list_elem_of_lookup_1]; [congruence|].
    destruct (Hall i h Hi) as (v & _ & Hv). congruence.
Qed.

(** How a run of an accepted workflow ends: by an error some call caused,
    suspended, or complete. *)
Lemma workflow_ends name wf c s0 cin (st : state W) f :
  runnable wf = true → (LowerWorkflowResource name wf).2 = [] →
  run_ok (maxIters c) (maxConc c) (lower_nodes (wf_Steps wf)) cin (lowerOutput (wf_Output wf)).1 s0 st (PRet f) →
  match finish_run (sess st) f with
  | Err e => caused (calls st) e
  | Ok (out, rs) => rs_memo rs = memo (sess st) ∧ rs_suspended rs = suspended (sess st) ∧
      (caused (calls st) ESuspend ∨
       (∃ sc, complete (lower_nodes (wf_Steps wf)) cin (memo (sess st)) sc) ∧
       match (lowerOutput (wf_Output wf)).1 with
       | [Return o] => evalValue (results (lower_nodes (wf_Steps wf)) cin (memo (sess st))) o = Ok out
       | _ => out = VNil
       end)
  end.
Proof.
  intros Hrun Hd [Hinv _ _ _]. inversion Hinv as [|f' Hf]; subst.
  assert (∀ sc f, complete (lower_nodes (wf_Steps wf)) cin (memo (sess st)) sc →
    after (maxIters c) (maxConc c) (lowerOutput (wf_Output wf)).1 sc = PRet f →
    ∃ out, match (lowerOutput (wf_Output wf)).1 with [] => f = FNext sc ∧ out = VNil
           | _ => f = FDone sc out end ∧
      match (lowerOutput (wf_Output wf)).1 with
      | [Return o] => evalValue (results (lower_nodes (wf_Steps wf)) cin (memo (sess st))) o = Ok out
      | _ => out = VNil end) as Hafter.
  { intros sc f' Hc Ha. destruct (output_value name wf (maxIters c) (maxConc c) cin _ _ Hrun Hd Hc) as (out & Ea & Ho).
    exists out. rewrite Ea in Ha. injection Ha as <-.
    destruct (output_ret wf) as [E|[o E]]; rewrite E in *; done. }
  destruct f as [sc|sc out|e]; simpl in *.
  - destruct Hf as (sc' & Hc & Ha). destruct (Hafter _ _ Hc Ha) as (out & E & Ho). split_and!; [done..|].
    right. split; [by exists sc'|]. destruct (output_ret wf) as [E'|[o E']]; rewrite E' in *; [done|].
    done.
  - destruct Hf as (sc' & Hc & Ha). destruct (Hafter _ _ Hc Ha) as (out' & E & Ho). split_and!; [done..|].
    right. split; [by exists sc'|]. destruct (output_ret wf) as [E'|[o E']]; rewrite E' in *.
    + by destruct E.
    + by injection E as _ <-.
  - destruct Hf as [Hca|(sc & Hc & Ha)].
    + destruct (isSuspend e) eqn:Es; [|done]. split_and!; [done..|]. left. by destruct e.
    + destruct (Hafter _ _ Hc Ha) as (out & E & _).
      destruct (output_ret wf) as [E'|[o E']]; rewrite E' in *; [by destruct E|done].
Qed.

(** A suspended call shows in the returned state. *)
Lemma suspend_shows mi mc gs cin ret s0 (st : state W) p :
  run_ok mi mc gs cin ret s0 st p → caused (calls st) ESuspend → suspended (sess st) = true.
Proof.
  intros [_ Hx _ _] (ev & Hin & [E|(? & ? & _ & _ & [=])]).
  rewrite (ext_suspended _ _ _ Hx), first_suspend_existsb.
  apply orb_true_iff. right. apply existsb_exists. exists ev. split; [by apply list_elem_of_In|].
  unfold ev_suspends. by rewrite E.
Qed.

(** C9: Progress: when a workflow that is [runnable] (it passes the checks and,
    beyond them, its steps are executable, named and not named [input], its references
    and output spelled as the checks read them; the examples at the end pass the checks
    only, and get stuck or miss a reference) runs and fails, a call of the run failed with that very error (or
    returned what is no JSON value), or the run could not start: the scheduler
    never reports a stuck graph and no reference is unresolved, whatever the
    interleaving, the seed of a resume and the Invoker. *)
Theorem workflow_progress name wf c prog input seed pick fuel (w : W) w' evs e :
  runnable wf = true → LowerWorkflowResource name wf = (prog, []) →
  RunResumable c prog input seed pick fuel w = Some (w', evs, Err e) →
  (evs = [] ∧ start_run c prog input seed = Err e) ∨
  ∃ ev, ev ∈ evs ∧ (ev_result ev = Err e ∨
    ∃ v je, ev_result ev = Ok v ∧ Canonical v = Err je ∧ e = EResult (ev_key ev) je).
Proof.
  intros Hrun Hl HR. assert ((LowerWorkflowResource name wf).2 = []) as Hd by by rewrite Hl.
  destruct (workflow_run _ _ _ _ _ _ _ _ _ _ _ _ Hrun Hl HR)
    as [[-> (e' & Hs & [= <-])]|(s0 & cin & st & f & _ & _ & Hok & _ & <- & Hr)]; [by left|right].
  pose proof (workflow_ends _ _ _ _ _ _ _ Hrun Hd Hok) as He. by rewrite <-Hr in He.
Qed.

(** Completeness: when such a run ends neither failed nor suspended, every step
    of the workflow has its result in the returned memo, and the returned value is
    the value of the output under the workflow input and these results. *)
Theorem workflow_complete name wf c prog input seed pick fuel (w : W) w' evs out rs :
  runnable wf = true → LowerWorkflowResource name wf = (prog, []) →
  RunResumable c prog input seed pick fuel w = Some (w', evs, Ok (out, rs)) →
  rs_suspended rs = false →
  let gs := lower_nodes (wf_Steps wf) in
  ∃ cin, Canonical input = Ok cin ∧
  (∀ i, i < length (wf_Steps wf) → is_Some (rs_memo rs !! key gs i)) ∧
  match (lowerOutput (wf_Output wf)).1 with
  | [Return o] => evalValue (results gs cin (rs_memo rs)) o = Ok out
  | _ => out = VNil
  end.
Proof.
  intros Hrun Hl HR Hns. assert ((LowerWorkflowResource name wf).2 = []) as Hd by by rewrite Hl.
  destruct (workflow_run _ _ _ _ _ _ _ _ _ _ _ _ Hrun Hl HR)
    as [[_ (e' & _ & [=])]|(s0 & cin & st & f & _ & Hc & Hok & _ & <- & Hr)].
  pose proof (workflow_ends _ _ _ _ _ _ _ Hrun Hd Hok) as He. rewrite <-Hr in He.
  destruct He as (Em & Es & [Hca|[[sc [_ Hall]] Ho]]).
  { apply (suspend_shows _ _ _ _ _ _ _ _ Hok) in Hca. congruence. }
  exists cin. rewrite Em. split_and!; [done| |done]. intros i Hi.
  destruct (lookup_lt_is_Some_2 (gn_id <$> lower_nodes (wf_Steps wf)) i) as [x Hx].
  { by rewrite length_fmap, graph_length. }
  destruct (Hall i x Hx) as (v & ? & _). by exists v.
Qed.

(** The calls of such a run are calls of its steps under the results it returns. *)
Lemma workflow_calls name wf c prog input seed pick fuel (w : W) w' evs out rs :
  runnable wf = true → LowerWorkflowResource name wf = (prog, []) →
  RunResumable c prog input seed pick fuel w = Some (w', evs, Ok (out, rs)) →
  let gs := lower_nodes (wf_Steps wf) in
  ∃ cin, Canonical input = Ok cin ∧
  ∀ ev, ev ∈ evs → ∃ i a, i < length gs ∧ ev_site ev = site gs i ∧
    evalArgs (results gs cin (rs_memo rs)) (lf_args (leaf_at gs i)) = Ok a ∧
    ev_call ev = lf_call (leaf_at gs i) a.
Proof.
  intros Hrun Hl HR. assert ((LowerWorkflowResource name wf).2 = []) as Hd by by rewrite Hl.
  destruct (workflow_run _ _ _ _ _ _ _ _ _ _ _ _ Hrun Hl HR)
    as [[_ (e' & _ & [=])]|(s0 & cin & st & f & Hseed & Hc & Hok & _ & <- & Hr)].
  pose proof (workflow_ends _ _ _ _ _ _ _ Hrun Hd Hok) as He. rewrite <-Hr in He.
  destruct He as (Em & _). rewrite Em. exists cin. split; [done|]. intros ev Hev.
  pose proof (ro_calls _ _ _ _ _ _ _ _ Hok) as Hcalls. rewrite Forall_forall in Hcalls.
  destruct (Hcalls ev Hev) as (i & Hlt & Hsite & _ & a & Ha & Hcall). by exists i, a.
Qed.

(** C10: Data flow: in a run of a [runnable] workflow (as above) that ends without an
    error, completed or suspended, the calls are calls of its steps, in an order of
    the needs: when a step is called, each of its ancestors has a result, recorded
    in the seed or given by an earlier call.  The arguments of the call are the
    operands of the step evaluated under the workflow input and the results the run
    returns, so they do not depend on which other steps had finished. *)
Theorem workflow_dataflow name wf c prog input seed pick fuel (w : W) w' evs out rs :
  runnable wf = true → LowerWorkflowResource name wf = (prog, []) →
  RunResumable c prog input seed pick fuel w = Some (w', evs, Ok (out, rs)) →
  let gs := lower_nodes (wf_Steps wf) in
  ∃ cin, Canonical input = Ok cin ∧
  ∀ l1 ev l2, evs = l1 ++ ev :: l2 →
  ∃ i, i < length gs ∧ ev_site ev = site gs i ∧
    (∀ x, x ∈ StepAncestorIDs (wf_Steps wf) i → ∃ j st, wf_Steps wf !! j = Some st ∧
       trim_space (step_ID st) = x ∧
       (match seed with Some rs0 => is_Some (rs_memo rs0 !! key gs j) | None => False end ∨
        ∃ ev', ev' ∈ l1 ∧ ev_key ev' = key gs j ∧ is_Some (ev_memo ev'))) ∧
    ∃ a, evalArgs (results gs cin (rs_memo rs)) (lf_args (leaf_at gs i)) = Ok a ∧
      ev_call ev = lf_call (leaf_at gs i) a.
Proof.
  intros Hrun Hl HR. assert ((LowerWorkflowResource name wf).2 = []) as Hd by by rewrite Hl.
  destruct (workflow_run _ _ _ _ _ _ _ _ _ _ _ _ Hrun Hl HR)
    as [[_ (e' & _ & [=])]|(s0 & cin & st & f & Hseed & Hc & Hok & _ & <- & Hr)].
  pose proof (workflow_ends _ _ _ _ _ _ _ Hrun Hd Hok) as He. rewrite <-Hr in He.
  destruct He as (Em & _). rewrite Em. exists cin. split; [done|]. intros l1 ev l2 El.
  pose proof (ro_calls _ _ _ _ _ _ _ _ Hok) as Hcalls. rewrite Forall_forall in Hcalls.
  destruct (Hcalls ev) as (i & Hlt & Hsite & _ & a & Ha & Hcall); [rewrite El; set_solver|].
  destruct (ro_ordered _ _ _ _ _ _ _ _ Hok l1 ev l2 El) as (i' & Hlt' & Hsite' & Hup).
  assert (i' = i) as ->.
  { apply (key_inj (lower_nodes (wf_Steps wf))); [done..|]. unfold key. by rewrite <-Hsite, <-Hsite'. }
  exists i. split_and!; [done..| |by exists a].
  intros x Hx. apply (upstream_ancestor _ Hrun) in Hx. destruct (Hup x Hx) as (j & Hj & Hres).
  apply id_at in Hj as (stj & Hstj & Ej). exists j, stj. split_and!; [done..|].
  destruct Hres as [Hs|?]; [left|by right]. destruct (seed_session_spec _ _ Hseed) as (_ & _ & Hk).
  apply Hk in Hs. by destruct seed.
Qed.
End runs.

(** ** Confluence *)

Section confluence.
Context {W1 W2 : Type} `{I1 : Invoker W1} `{I2 : Invoker W2} (F : CallSite → call → res error value).
Context (gs : list (string * list string * node)) (cin : value).
Hypothesis Hok : graph_ok gs.

(** The trace of a run from an empty memo. *)
Lemma run_trace `{Invoker W} mi mc ret s0 (st : state W) p :
  run_ok mi mc gs cin ret s0 st p → memo s0 = ∅ → Forall (answered F) (calls st) →
  trace_ok F gs cin (memo (sess st)) (calls st).
Proof.
  intros [_ Hx Hc _] Hm Ha. split; [done| |done]. intros k v Hk.
  destruct (ext_only _ _ _ Hx k v Hk) as [E|?]; [|done]. by rewrite Hm, lookup_empty in E.
Qed.

(** Every call of a run that follows a complete one gives a result. *)
Lemma second_calls m1 evs1 sc1 m2 evs2 ev :
  trace_ok F gs cin m1 evs1 → complete gs cin m1 sc1 → trace_ok F gs cin m2 evs2 → ev ∈ evs2 →
  is_Some (ev_memo ev).
Proof.
  intros T1 [_ C1] T2 Hin. destruct (tr_event _ _ _ _ _ _ T2 Hin) as (i & Hc2 & Ha2).
  pose proof Hc2 as (Hlt & Hs2 & Hup & _).
  destruct (lookup_lt_is_Some_2 (gn_id <$> gs) i) as [x Hx]; [by rewrite length_fmap|].
  destruct (C1 i x Hx) as (v & Hv & _). destruct (tr_memo _ _ _ _ _ T1 _ _ Hv) as (ev1 & Hin1 & Hk & Hm1).
  destruct (tr_event _ _ _ _ _ _ T1 Hin1) as (i1 & Hc1 & Ha1). pose proof Hc1 as (Hlt1 & Hs1 & _).
  assert (i1 = i) as ->.
  { apply (key_inj gs); [done..|]. unfold ev_key in Hk. by rewrite Hs1 in Hk. }
  exists v. rewrite <-Hm1. unfold ev_memo.
  rewrite (same_answer F gs cin Hok m2 m1 ev ev1 i Hc2 Hc1 Ha2 Ha1); [done|].
  intros y j Hy Hj. destruct (Hup y Hy) as (j' & Hj' & u2 & U2). rewrite (ids_inj gs Hok _ _ _ Hj Hj') in *.
  destruct (C1 j' y Hj') as (u1 & U1 & _). rewrite U1, U2. f_equal.
  eapply same_results; [done|exact T2|exact T1| |done|done].
  rewrite <-(ids_length gs). by eapply lookup_lt_Some.
Qed.

(** The memos of two complete runs are the same. *)
Lemma same_memo m1 evs1 sc1 m2 evs2 sc2 k v :
  trace_ok F gs cin m1 evs1 → complete gs cin m1 sc1 →
  trace_ok F gs cin m2 evs2 → complete gs cin m2 sc2 → m1 !! k = Some v → m2 !! k = Some v.
Proof.
  intros T1 [_ C1] T2 [_ C2] Hk. destruct (tr_memo _ _ _ _ _ T1 _ _ Hk) as (ev & Hin & <- & _).
  destruct (tr_event _ _ _ _ _ _ T1 Hin) as (i & (Hlt & Hs & _) & _). unfold ev_key in *. rewrite Hs in *.
  destruct (lookup_lt_is_Some_2 (gn_id <$> gs) i) as [x Hx]; [by rewrite length_fmap|].
  destruct (C2 i x Hx) as (u & Hu & _). unfold key in Hu. rewrite Hu. f_equal.
  eapply same_results; [done|exact T2|exact T1|exact Hlt|done|done].
Qed.
End confluence.

Lemma start_run_fresh c prog input :
  start_run c prog input None =
  match Canonical input with
  | Err e => Err (EInput e)
  | Ok cin => Ok (mkSession ∅ ∅ false "", execAll (maxIters c) (maxConc c) (Body prog)
      (paramScope (Params prog) cin) [] [] PRet)
  end.
Proof. done. Qed.

(** C8: Confluence, for workflows that are [runnable]: they pass the checks, and
    beyond them their steps are executable, named, and not named [input], and their
    references and output are spelled as the checks read them (the examples at the end
    pass the checks and are not confluent or get stuck).  If the answers of the Invoker
    depend on the call only, one complete run of such a workflow determines every other
    from the same input: under any interleaving, any concurrency limit and any Invoker
    with the same answers the run completes, with the same output and the same memo. *)
Theorem workflow_confluent {W1 W2 : Type} `{I1 : Invoker W1} `{I2 : Invoker W2} F
    name wf prog input c1 c2 pick1 pick2 fuel1 fuel2 (w1 w1' : W1) (w2 w2' : W2) evs1 evs2 out rs r2 :
  runnable wf = true → LowerWorkflowResource name wf = (prog, []) →
  answers F W1 → answers F W2 →
  RunResumable c1 prog input None pick1 fuel1 w1 = Some (w1', evs1, Ok (out, rs)) →
  rs_suspended rs = false →
  RunResumable c2 prog input None pick2 fuel2 w2 = Some (w2', evs2, r2) →
  ∃ rs2, r2 = Ok (out, rs2) ∧ rs_suspended rs2 = false ∧ rs_memo rs2 = rs_memo rs.
Proof.
  intros Hrun Hl HF1 HF2 HR1 Hns HR2.
  assert ((LowerWorkflowResource name wf).2 = []) as Hd by by rewrite Hl.
  pose proof (lowered_ok name wf Hrun Hd) as Hgok.
  destruct (workflow_run _ _ _ _ _ _ _ _ _ _ _ _ Hrun Hl HR1)
    as [[_ (e' & _ & [=])]|(s1 & cin & st1 & f1 & Hs1 & Hc & Hok1 & Ha1 & <- & Hr1)].
  pose proof (workflow_ends _ _ _ _ _ _ _ Hrun Hd Hok1) as He1. rewrite <-Hr1 in He1.
  destruct He1 as (Em1 & Es1 & [Hca|[[sc1 Hc1] Ho1]]).
  { apply (suspend_shows _ _ _ _ _ _ _ _ Hok1) in Hca. congruence. }
  destruct (workflow_run _ _ _ _ _ _ _ _ _ _ _ _ Hrun Hl HR2)
    as [[_ (e' & Hst & _)]|(s2 & cin' & st2 & f2 & Hs2 & Hc' & Hok2 & Ha2 & <- & ->)].
  { rewrite start_run_fresh, Hc in Hst. done. }
  rewrite Hc in Hc'. injection Hc' as <-. injection Hs1 as <-. injection Hs2 as <-.
  pose proof (run_trace F _ _ _ _ _ _ _ _ Hok1 eq_refl (Ha1 F HF1)) as T1.
  pose proof (run_trace F _ _ _ _ _ _ _ _ Hok2 eq_refl (Ha2 F HF2)) as T2.
  assert (∀ e, ¬ caused (calls st2) e) as Hno.
  { intros e (ev & Hin & Hev). destruct (second_calls F _ _ Hgok _ _ _ _ _ _ T1 Hc1 T2 Hin) as [v Hv].
    unfold ev_memo in Hv. destruct Hev as [E|(u & je & E & Ec & _)]; rewrite E in Hv; [done|].
    by rewrite Ec in Hv. }
  pose proof (workflow_ends _ _ _ _ _ _ _ Hrun Hd Hok2) as He2.
  destruct (finish_run (sess st2) f2) as [[out2 rs2]|e2]; [|by destruct (Hno e2)].
  destruct He2 as (Em2 & Es2 & [Hca|[[sc2 Hc2] Ho2]]); [by destruct (Hno _ Hca)|].
  assert (rs_memo rs2 = rs_memo rs) as Em.
  { rewrite Em1, Em2. apply map_eq. intros k. apply option_eq. intros v. split.
    - by eapply (same_memo F _ _ Hgok); [exact T2|exact Hc2|exact T1|exact Hc1].
    - by eapply (same_memo F _ _ Hgok); [exact T1|exact Hc1|exact T2|exact Hc2]. }
  exists rs2. split_and!; [|rewrite Es2|done].
  - do 2 f_equal. rewrite <-Em1, <-Em in Ho1. rewrite <-Em2 in Ho2.
    destruct (output_ret wf) as [E|[o E]]; rewrite E in *; congruence.
  - rewrite (ext_suspended _ _ _ (ro_extends _ _ _ _ _ _ _ _ Hok2)), first_suspend_existsb. simpl.
    apply existsb_False. intros ev Hin.
    destruct (second_calls F _ _ Hgok _ _ _ _ _ _ T1 Hc1 T2 Hin) as [v Hv].
    unfold ev_memo in Hv. unfold ev_suspends. by destruct (ev_result ev).
Qed.

(** ** Examples *)

Definition wf_step (id : string) (with_ : list (string * value)) (needs : list string) : WorkflowStep :=
  mkStep id "tool.gh.get" "" "" None with_ needs true false false.

Definition demo_wf : WorkflowSpec := mkWorkflow ""
  [wf_step "a" [("repo", VStr "${input.repo}")] [];
   wf_step "b" [("n", VStr "${steps.a.output.repo}")] ["a"];
   wf_step "c" [("n", VStr "of ${steps.a.output.repo}")] ["a"];
   wf_step "d" [("l", VList [VStr "${steps.b.output.n}"; VStr "${steps.c.output.n}"])] ["b"; "c"]]
  (Some [("value", VStr "${steps.d.output.l}")]).
Definition demo_prog : program := (LowerWorkflowResource "demo" demo_wf).1.
Definition demo_in : value := VMap [("repo", VStr "r")].

(** Every tool returns its arguments as an object. *)
Definition echo_args (a : scope) : value := VMap (map_of_list (map_to_list a)).
Definition echo (s : CallSite) (c : call) : res error value :=
  match c with CallTool _ a | CallAgent _ a | CallWorkflow _ a | CallApproval _ a => Ok (echo_args a) end.
Definition echo_invoker : Invoker unit := {|
  inv_tool w _ s u a := (w, echo s (CallTool u a));
  inv_agent w _ s u a := (w, echo s (CallAgent u a));
  inv_workflow w _ s u a := (w, echo s (CallWorkflow u a));
  inv_approval w _ s i a := (w, echo s (CallApproval i a));
|}.

Definition run_with (iv : Invoker unit) (limit : Z) (pick : nat → nat) (prog : program) :=
  @RunResumable unit iv (mkInterp 0 limit) prog demo_in None pick 200 tt.

Definition result_of (r : option (unit * list event * res error (value * RunState))) : option (res error value) :=
  match r with Some (_, _, r) => Some (fst <$> r) | None => None end.

Example demo_runs : result_of (run_with echo_invoker 2 (λ _, 0) demo_prog) = Some (Ok (VList [VStr "r"; VStr "of r"])).
Proof. vm_compute. reflexivity. Qed.

(** An Invoker whose calls for the step [c] fail. *)
Definition failing_invoker : Invoker unit := {|
  inv_tool w _ s u a := (w, if (site_bind s =? "c")%string then Err (EInvoker "down") else echo s (CallTool u a));
  inv_agent w _ s u a := (w, echo s (CallAgent u a));
  inv_workflow w _ s u a := (w, echo s (CallWorkflow u a));
  inv_approval w _ s i a := (w, echo s (CallApproval i a));
|}.

Lemma workflow_progress_witness :
  ∃ w' evs e, run_with failing_invoker 2 (λ _, 1) demo_prog = Some (w', evs, Err e) ∧
    ((evs = [] ∧ start_run (mkInterp 0 2) demo_prog demo_in None = Err e) ∨
     ∃ ev, ev ∈ evs ∧ (ev_result ev = Err e ∨
       ∃ v je, ev_result ev = Ok v ∧ Canonical v = Err je ∧ e = EResult (ev_key ev) je)).
Proof.
  do 3 eexists. split; [vm_compute; reflexivity|].
  refine (@workflow_progress unit failing_invoker "demo" demo_wf (mkInterp 0 2) demo_prog demo_in None (λ _, 1) 200 tt _ _ _ _ _ _);
    vm_compute; reflexivity.
Defined.

Lemma workflow_complete_witness :
  let gs := lower_nodes (wf_Steps demo_wf) in
  ∃ w' evs out rs, run_with echo_invoker 2 (λ t, t) demo_prog = Some (w', evs, Ok (out, rs)) ∧
  ∃ cin, Canonical demo_in = Ok cin ∧
  (∀ i, i < length (wf_Steps demo_wf) → is_Some (rs_memo rs !! key gs i)) ∧
  match (lowerOutput (wf_Output demo_wf)).1 with
  | [Return o] => evalValue (results gs cin (rs_memo rs)) o = Ok out
  | _ => out = VNil
  end.
Proof.
  do 4 eexists. split; [vm_compute; reflexivity|].
  refine (@workflow_complete unit echo_invoker "demo" demo_wf (mkInterp 0 2) demo_prog demo_in None (λ t, t) 200 tt _ _ _ _ _ _ _ _);
    vm_compute; reflexivity.
Defined.

Lemma workflow_dataflow_witness :
  let gs := lower_nodes (wf_Steps demo_wf) in
  ∃ w' evs out rs, run_with echo_invoker 2 (λ t, t) demo_prog = Some (w', evs, Ok (out, rs)) ∧
  length evs = 4 ∧
  ∃ cin, Canonical demo_in = Ok cin ∧
  ∀ l1 ev l2, evs = l1 ++ ev :: l2 →
  ∃ i, i < length gs ∧ ev_site ev = site gs i ∧
    (∀ x, x ∈ StepAncestorIDs (wf_Steps demo_wf) i → ∃ j st, wf_Steps demo_wf !! j = Some st ∧
       trim_space (step_ID st) = x ∧
       (False ∨ ∃ ev', ev' ∈ l1 ∧ ev_key ev' = key gs j ∧ is_Some (ev_memo ev'))) ∧
    ∃ a, evalArgs (results gs cin (rs_memo rs)) (lf_args (leaf_at gs i)) = Ok a ∧
      ev_call ev = lf_call (leaf_at gs i) a.
Proof.
  do 4 eexists. split; [vm_compute; reflexivity|]. split; [reflexivity|].
  refine (@workflow_dataflow unit echo_invoker "demo" demo_wf (mkInterp 0 2) demo_prog demo_in None (λ t, t) 200 tt _ _ _ _ _ _ _);
    vm_compute; reflexivity.
Defined.

Lemma workflow_confluent_witness :
  ∃ w1 evs1 out rs, run_with echo_invoker 1 (λ _, 0) demo_prog = Some (w1, evs1, Ok (out, rs)) ∧
  ∃ w2 evs2 r2, run_with echo_invoker 4 (λ t, 7 * t + 3) demo_prog = Some (w2, evs2, r2) ∧
  ∃ rs2, r2 = Ok (out, rs2) ∧ rs_suspended rs2 = false ∧ rs_memo rs2 = rs_memo rs.
Proof.
  do 4 eexists. split; [vm_compute; reflexivity|]. do 3 eexists. split; [vm_compute; reflexivity|].
  refine (@workflow_confluent unit unit echo_invoker echo_invoker echo "demo" demo_wf demo_prog demo_in
    (mkInterp 0 1) (mkInterp 0 4) (λ _, 0) (λ t, 7 * t + 3) 200 200 tt _ tt _ _ _ _ _ _ _ _ _ _ _ _ _);
    first [by intros w cn s [] | vm_compute; reflexivity].
Defined.

(** *** What the checks leave open *)

(** Two steps without a name pass the checks, but a completed step is recorded by
    its name only: the run calls both tools and then reports a stuck graph. *)
Definition nameless_wf : WorkflowSpec := mkWorkflow "" [wf_step "" [] []; wf_step "" [] []] None.

Theorem nameless_steps_stuck :
  checks_pass nameless_wf = true ∧
  (LowerWorkflowResource "w" nameless_wf).2 = [] ∧
  result_of (run_with echo_invoker 2 (λ _, 0) (LowerWorkflowResource "w" nameless_wf).1) = Some (Err EGraphStuck).
Proof. split_and!; vm_compute; reflexivity. Qed.

(** A reference with a space after the opening passes the order check, which does
    not see it, and is lowered to a reference that is unbound when the step runs. *)
Definition spaced_wf : WorkflowSpec := mkWorkflow ""
  [wf_step "a" [("n", VStr "${ steps.b.output.n }")] []; wf_step "b" [] ["a"]] None.

Theorem spaced_reference_unchecked :
  checks_pass spaced_wf = true ∧
  (LowerWorkflowResource "w" spaced_wf).2 = [] ∧
  result_of (run_with echo_invoker 2 (λ _, 0) (LowerWorkflowResource "w" spaced_wf).1) = Some (Err (EUnresolved "b")) ∧
  validateWorkflowStepOrder (mkWorkflow ""
    [wf_step "a" [("n", VStr "${steps.b.output.n}")] []; wf_step "b" [] ["a"]] None) = Some (NotPredecessor "a" "b").
Proof. split_and!; vm_compute; reflexivity. Qed.

(** A reference of the output to an unknown step passes every check; the run makes
    all its calls and fails at the end. *)
Definition output_wf : WorkflowSpec := mkWorkflow "" [wf_step "a" [] []] (Some [("value", VStr "${steps.z.output}")]).

Theorem output_reference_unchecked :
  checks_pass output_wf = true ∧
  (LowerWorkflowResource "w" output_wf).2 = [] ∧
  ∃ evs, run_with echo_invoker 2 (λ _, 0) (LowerWorkflowResource "w" output_wf).1 = Some (tt, evs, Err (EUnresolved "z")) ∧
    length evs = 1.
Proof. split_and!; [vm_compute; reflexivity..|]. eexists. split; vm_compute; reflexivity. Qed.

(** A step named [input] passes the checks and replaces the workflow input in the
    scope: what a parallel step reads from the input depends on the schedule. *)
Definition input_wf : WorkflowSpec := mkWorkflow ""
  [wf_step "input" [("repo", VStr "shadow")] []; wf_step "b" [("n", VStr "${input.repo}")] []]
  (Some [("value", VStr "${steps.b.output.n}")]).

Theorem step_named_input_races :
  checks_pass input_wf = true ∧
  (LowerWorkflowResource "w" input_wf).2 = [] ∧
  ∃ pick1 pick2,
    result_of (run_with echo_invoker 2 pick1 (LowerWorkflowResource "w" input_wf).1) = Some (Ok (VStr "r")) ∧
    result_of (run_with echo_invoker 2 pick2 (LowerWorkflowResource "w" input_wf).1) = Some (Ok (VStr "shadow")).
Proof.
  split_and!; [vm_compute; reflexivity..|]. exists (λ _, 1), (λ _, 0). split; vm_compute; reflexivity.
Qed.
