(* ===== verification/WiredRun.v ===== *)
(** * Types of the calls of a wired workflow

    The wiring check ([Wiring]) composed with the run of an accepted graph workflow
    ([WorkflowRun]): what an agent is called with, under any interleaving, has the
    types its input schema asks for. *)

From S2P Require Import Prelude GoNum GoText Value JsonNum ExecIR ExecEval ExecInterp ExecSteps ExecCount ExecRun.
From S2P Require Import SpecTools SpecGraph StepRefs LowerYaml SchemaLookup Wiring GraphRun WorkflowRun.

Local Open Scope nat_scope.

(** The steps by id: the last step of an id. *)
Lemma byID_Some steps id st :
  workflowStepsByID steps !! id = Some st →
  ∃ j, steps !! j = Some st ∧ trim_space (step_ID st) = id.
Proof.
  unfold workflowStepsByID.
  assert (∀ m : gmap string WorkflowStep, foldl (λ m st, let id := trim_space (step_ID st) in
      if (id =? "")%string then m else <[id := st]> m) m steps !! id = Some st →
    m !! id = Some st ∨ ∃ j, steps !! j = Some st ∧ trim_space (step_ID st) = id) as Hgen.
  { induction steps as [|st' steps IH]; intros m; [by left|]. cbn [foldl]. intros [Hm|(j & Hj & E)]%IH.
    - destruct (_ =? "")%string; [by left|].
      apply lookup_insert_Some in Hm as [[<- ->]|[_ Hm]]; [right; by exists 0|by left].
    - right. by exists (S j). }
  intros [H|H]%Hgen; [by rewrite lookup_empty in H|done].
Qed.

(** A call of an agent comes from a step of that agent. *)
Lemma agent_leaf wf i a agent args' :
  (∀ i st, wf_Steps wf !! i = Some st → (lowerStep st).2 = []) →
  i < length (lower_nodes (wf_Steps wf)) →
  lf_call (leaf_at (lower_nodes (wf_Steps wf)) i) a = CallAgent agent args' →
  ∃ st, wf_Steps wf !! i = Some st ∧ step_Agent st = agent ∧ args' = a ∧
    lf_doc (leaf_at (lower_nodes (wf_Steps wf)) i) = step_WholeDocument st ∧
    lf_args (leaf_at (lower_nodes (wf_Steps wf)) i) = (lowerWith (step_With st)).1.
Proof.
  intros Hd Hlt. rewrite graph_length in Hlt.
  apply lookup_lt_is_Some in Hlt as [st Hst]. unfold leaf_at. rewrite (node_at wf i st Hst).
  specialize (Hd i st Hst). unfold lowerStep in *. destruct (lowerWith (step_With st)) as [o ds] eqn:Ew.
  destruct (StepIsApproval st); [done|]. destruct (is_set (step_Uses st)); [done|].
  destruct (is_set (step_Agent st)); [simpl; intros [= <- <-]; exists st; split_and!; [done..|]; by apply (f_equal fst) in Ew|].
  by destruct (is_set (step_Workflow st)).
Qed.

Section wired.
Context (pattern : string → option (string → bool)) (g : gmap string AgentSchemas).
Context (valid : value → value → value → Prop).
Context `{Hdraft : ∀ root, draft2020 pattern root (valid root)}.
Context (wf : WorkflowSpec) (inputDoc : option value).

#[local] Abbreviation steps := (wf_Steps wf).
#[local] Abbreviation gs := (lower_nodes steps).

(** The results of a run are valid for the schemas of the steps. *)
Definition valid_results (m : gmap string value) : Prop :=
  ∀ j st d v, steps !! j = Some st → producerOutputDoc g st = Some d → m !! key gs j = Some v → valid d d v.

Lemma results_conform name cin m :
  runnable wf = true → (LowerWorkflowResource name wf).2 = [] →
  (∀ d, inputDoc = Some d → valid d d cin) → valid_results m →
  conforming_scope g valid (workflowStepsByID steps) inputDoc (results gs cin m).
Proof.
  intros Hrun Hd Hin Hres. pose proof (lowered_ok name wf Hrun Hd) as Hok. split.
  - intros d v Hdoc. rewrite (results_input gs cin Hok). intros [= <-]. by apply Hin.
  - intros id prod d v (j & Hj & E)%byID_Some Hdoc Hv.
    rewrite (results_step gs cin Hok m j id) in Hv; [by eapply Hres|]. apply id_at. by exists prod.
Qed.

(** C11: Typed calls: when a graph workflow that is [runnable] and passes the wiring
    check runs to an end without an error, on a valid input and with agents whose outputs are valid
    for their output schemas, then under every interleaving each string leaf of the
    arguments of an agent call that the check types is delivered in the agent's
    input document at the location its site names; the input schema declares that
    location, and, when the reference reaches a value of its producer through
    properties ([leaf_reached]), the value there has one of its types.  (A reference
    whose path is absent from the producer's value, or goes through an array index,
    delivers null, [index_reference_null]; a producer without a type is not checked.) *)
Theorem wired_calls `{Invoker W} name wfs c prog input seed pick fuel (w : W) w' evs out rs :
  wfs !! name = Some (wf, inputDoc) → validateStepWiring pattern g wfs = [] →
  runnable wf = true → LowerWorkflowResource name wf = (prog, []) →
  (∀ st, st ∈ steps → with_wf (step_With st)) →
  RunResumable c prog input seed pick fuel w = Some (w', evs, Ok (out, rs)) →
  (∀ cin d, Canonical input = Ok cin → inputDoc = Some d → valid d d cin) →
  valid_results (rs_memo rs) →
  ∃ cin, Canonical input = Ok cin ∧
  ∀ ev agent a, ev ∈ evs → ev_call ev = CallAgent agent a →
  ∃ st, st ∈ steps ∧ step_Agent st = agent ∧
  ∀ consumer k v p s r, consumerInputDoc g st = Some consumer →
    (k, v) ∈ step_With st → (p, s) ∈ walkWiringValue v →
    leaf_lookup pattern g (workflowStepsByID steps) inputDoc s = Some r →
    ∃ doc u, agentInputDocument (site_wholeDocument (ev_site ev)) a = Some doc ∧
      get_at doc (site_path (leaf_site st k p)) = Some u ∧
      (leaf_reached (results gs cin (rs_memo rs)) s u →
       accepts (lookupConsumer pattern consumer (leaf_site st k p)) r u).
Proof.
  intros Hwf Hwire Hrun Hl Hwith HR Hin Hres.
  assert ((LowerWorkflowResource name wf).2 = []) as Hd by by rewrite Hl.
  destruct (workflow_calls _ _ _ _ _ _ _ _ _ _ _ _ _ Hrun Hl HR) as (cin & Hc & Hcalls).
  exists cin. split; [done|]. intros ev agent a Hev Hcall.
  destruct (Hcalls ev Hev) as (i & a' & Hlt & Hsite & Ha & Hcall'). rewrite Hcall in Hcall'.
  destruct (agent_leaf wf i a' agent a) as (st & Hst & Hag & -> & Hdoc & Hargs);
    [by eapply step_diags|done|done|].
  pose proof (list_elem_of_lookup_2 _ _ _ Hst) as Hin'. exists st. split_and!; [done..|].
  intros consumer k v p s r Hcons Hkv Hp Hr. rewrite Hsite. simpl. rewrite Hdoc. rewrite Hargs in Ha.
  assert (checkStepWithWiring pattern g st (workflowStepsByID steps) inputDoc = []) as Hcheck.
  { unfold validateStepWiring in Hwire. rewrite bind_nil in Hwire.
    specialize (Hwire (name, (wf, inputDoc))). rewrite elem_of_map_to_list in Hwire.
    specialize (Hwire Hwf). cbv beta iota in Hwire. rewrite bind_nil in Hwire. by apply Hwire. }
  eapply (wiring_flow pattern g valid); [done|by eapply step_named|done|by apply Hwith| |done..].
  eapply results_conform; [done|done|by intros d; apply Hin|done].
Qed.
End wired.

(** ** A workflow of two agents *)

Definition triage_step : WorkflowStep :=
  mkStep "triage" "" "Triage" "" None [("ref", VStr "${input.ref}")] [] true false false.
Definition fix_step : WorkflowStep :=
  mkStep "fix" "" "Fixer" "" None
    [("note", VStr "see ${input.ref}"); ("title", VStr "${steps.triage.output.title}");
     ("votes", VStr "${steps.triage.output.meta.votes}")] ["triage"] true false false.
Definition two_agents : WorkflowSpec := mkWorkflow "" [triage_step; fix_step] None.
Definition fixer_schema : value :=
  VMap [("additionalProperties", VBool false);
        ("properties", VMap [("note", VMap [("type", VStr "string")]); ("title", VMap [("type", VStr "string")]);
                             ("votes", VMap [("type", VStr "number")])]);
        ("type", VStr "object")].
Definition two_schemas : gmap string AgentSchemas :=
  {["Triage" := mkSchemas None (Some ticket_schema); "Fixer" := mkSchemas (Some fixer_schema) None]}.
Definition two_prog : program := (LowerWorkflowResource "two" two_agents).1.
Definition two_input : value := VMap [("ref", VStr "T-1")].

(** The first agent answers with a ticket. *)
Definition ticket_invoker : Invoker unit := {|
  inv_tool w _ s u a := (w, Ok VNil);
  inv_agent w _ s u a := (w, Ok (if (u =? "Triage")%string then ticket else VMap []));
  inv_workflow w _ s u a := (w, Ok VNil);
  inv_approval w _ s i a := (w, Ok VNil);
|}.

Lemma wired_calls_witness :
  ∃ w' evs out rs, @RunResumable unit ticket_invoker (mkInterp 0 2) two_prog two_input None (λ t, t) 200 tt
    = Some (w', evs, Ok (out, rs)) ∧ length evs = 2 ∧
  ∃ cin, Canonical two_input = Ok cin ∧
  ∀ ev agent a, ev ∈ evs → ev_call ev = CallAgent agent a →
  ∃ st, st ∈ wf_Steps two_agents ∧ step_Agent st = agent ∧
  ∀ consumer k v p s r, consumerInputDoc two_schemas st = Some consumer →
    (k, v) ∈ step_With st → (p, s) ∈ walkWiringValue v →
    leaf_lookup no_pattern two_schemas (workflowStepsByID (wf_Steps two_agents)) None s = Some r →
    ∃ doc u, agentInputDocument (site_wholeDocument (ev_site ev)) a = Some doc ∧
      get_at doc (site_path (leaf_site st k p)) = Some u ∧
      (leaf_reached (results (lower_nodes (wf_Steps two_agents)) cin (rs_memo rs)) s u →
       accepts (lookupConsumer no_pattern consumer (leaf_site st k p)) r u).
Proof.
  do 4 eexists. split; [vm_compute; reflexivity|]. split; [reflexivity|].
  refine (@wired_calls no_pattern two_schemas (conforming no_pattern) _ two_agents None
    unit ticket_invoker "two" {["two" := (two_agents, None)]} (mkInterp 0 2) two_prog two_input None (λ t, t) 200 tt
    _ _ _ _ _ _ _ _ _ _ _ _).
  - reflexivity.
  - vm_compute. reflexivity.
  - vm_compute. reflexivity.
  - vm_compute. reflexivity.
  - intros st Hst. split.
    + apply list_elem_of_In in Hst. destruct Hst as [<-|[<-|[]]]; repeat constructor; vm_compute; intuition discriminate.
    + intros k v Hkv. apply list_elem_of_In in Hst, Hkv.
      destruct Hst as [<-|[<-|[]]]; cbn in Hkv; repeat destruct Hkv as [[= <- <-]|Hkv]; done.
  - vm_compute. reflexivity.
  - done.
  - intros [|[|j]] st d v Hj Hd Hv; [|by vm_compute in Hj; simplify_eq|done].
    vm_compute in Hj. injection Hj as <-. vm_compute in Hd. injection Hd as <-.
    vm_compute in Hv. injection Hv as <-. apply ticket_conforming.
Defined.

(** The static types of the leaves of the second step. *)
Example fix_types :
  (λ kv, match kv.2 with VStr s => leaf_lookup no_pattern two_schemas (workflowStepsByID (wf_Steps two_agents)) None s | _ => None end)
    <$> step_With fix_step =
  [Some string_result; Some (mkLookup {[TypeString]} true false false); Some (mkLookup {[TypeInteger]} true false false)].
Proof. vm_compute. reflexivity. Qed.

(** ** What the check does not see

    An element of an array is typed by the [items] of the producer's schema, but
    the interpreter reads properties of objects only: the reference is accepted as
    a string and delivers null. *)
Definition tags_schema : value :=
  VMap [("properties", VMap [("tags", VMap [("items", VMap [("type", VStr "string")]); ("type", VStr "array")])]);
        ("required", VList [VStr "tags"]); ("type", VStr "object")].
Definition tag_schema : value :=
  VMap [("properties", VMap [("tag", VMap [("type", VStr "string")])]); ("type", VStr "object")].
Definition tag_step (path : string) : WorkflowStep :=
  mkStep "use" "" "Tagger" "" None [("tag", VStr path)] ["list"] true false false.
Definition tag_wf (path : string) : WorkflowSpec :=
  mkWorkflow "" [mkStep "list" "" "Lister" "" None [] [] true false false; tag_step path] None.
Definition tag_agents : gmap string AgentSchemas :=
  {["Lister" := mkSchemas None (Some tags_schema); "Tagger" := mkSchemas (Some tag_schema) None]}.
Definition tag_invoker : Invoker unit := {|
  inv_tool w _ s u a := (w, Ok VNil);
  inv_agent w _ s u a := (w, Ok (VMap [("tags", VList [VStr "urgent"])]));
  inv_workflow w _ s u a := (w, Ok VNil);
  inv_approval w _ s i a := (w, Ok VNil);
|}.
Definition agent_calls (r : option (unit * list event * res error (value * RunState))) : list (string * list (string * value)) :=
  match r with
  | Some (_, evs, _) => evs ≫= λ ev, match ev_call ev with CallAgent ag a => [(ag, map_to_list a)] | _ => [] end
  | None => []
  end.

Theorem index_reference_null :
  let wf := tag_wf "${steps.list.output.tags.0}" in
  validateStepWiring no_pattern tag_agents {["w" := (wf, None)]} = [] ∧
  leaf_lookup no_pattern tag_agents (workflowStepsByID (wf_Steps wf)) None "${steps.list.output.tags.0}"
    = Some (mkLookup {[TypeString]} true false false) ∧
  runnable wf = true ∧
  agent_calls (@RunResumable unit tag_invoker (mkInterp 0 2) (LowerWorkflowResource "w" wf).1 (VMap []) None (λ t, t) 200 tt)
    = [("Lister", []); ("Tagger", [("tag", VNil)])].
Proof. split_and!; vm_compute; reflexivity. Qed.

(** A property the producer's schema does not declare, but does not forbid, has no
    type and is not checked; when it is absent, null is delivered. *)
Example absent_property_null :
  let wf := tag_wf "${steps.list.output.label}" in
  validateStepWiring no_pattern tag_agents {["w" := (wf, None)]} = [] ∧
  agent_calls (@RunResumable unit tag_invoker (mkInterp 0 2) (LowerWorkflowResource "w" wf).1 (VMap []) None (λ t, t) 200 tt)
    = [("Lister", []); ("Tagger", [("tag", VNil)])].
Proof. split_and!; vm_compute; reflexivity. Qed.

(** The check rejects a producer of another type, a missing property and an
    undeclared input. *)
Example wiring_rejects :
  (λ p, length (validateStepWiring no_pattern two_schemas
      {["w" := (mkWorkflow "" [triage_step; mkStep "fix" "" "Fixer" "" None [p] ["triage"] true false false] None, None)]}))
    <$> [("title", VStr "${steps.triage.output.meta.votes}"); ("title", VStr "${steps.triage.output.body}");
         ("body", VStr "text"); ("title", VStr "votes: ${steps.triage.output.meta.votes}")] = [1; 1; 1; 0].
Proof. vm_compute. reflexivity. Qed.
