(* ===== verification/SpecPolicy.v ===== *)
(** * Policies and the project graph ([internal/spec])

    The policy resource of [kinds.go] and [hitl.go], the built-in presets and
    their layering ([policy_presets.go], [policy_expand.go]) and the iteration
    ceilings of [constraints.go].  Source positions ([...Pos] fields) are
    diagnostic metadata and are not part of the records. *)

From S2P Require Import Prelude GoNum GoText Value SpecTools.

Local Open Scope Z_scope.

(** ** Data *)

Definition HitlDecisionKind : Type := string.
Definition HitlDecisionApprove : HitlDecisionKind := "approve".
Definition HitlDecisionReject : HitlDecisionKind := "reject".
Definition HitlDecisionEdit : HitlDecisionKind := "edit".
Definition HitlDecisionSwitch : HitlDecisionKind := "switch".
Definition AllHitlDecisionKinds : list HitlDecisionKind :=
  [HitlDecisionApprove; HitlDecisionReject; HitlDecisionEdit; HitlDecisionSwitch].
Definition IsValidHitlDecisionKind (k : HitlDecisionKind) : bool :=
  str_mem k AllHitlDecisionKinds.
Definition ParseHitlDecisionKind (s : string) : option HitlDecisionKind :=
  let k := to_lower (trim_space s) in
  if str_mem k AllHitlDecisionKinds then Some k else None.
Definition DefaultHitlDescriptionPrefix : string := "Tool execution requires approval".

Record HitlInterruptConfig := mkHitlInterruptConfig {
  hc_AllowedDecisions : list HitlDecisionKind;
  hc_Description : string;
  hc_AllowedEditArgs : list string;
  hc_DeniedEditArgs : list string;
  hc_AllowedEditPaths : list string;
  hc_DeniedEditPaths : list string;
  hc_AllowedEditTools : list string;
  hc_SwitchMap : gmap string (list string);
  hc_RedactKeys : list string;
}.
Record HitlInterruptValue := mkHitlInterruptValue {
  hv_Enabled : bool; hv_Config : option HitlInterruptConfig
}.
Record HitlPolicy := mkHitlPolicy {
  hp_InterruptOn : gmap string HitlInterruptValue;
  hp_DescriptionPrefix : string;
  hp_ToolSwitchMap : gmap string (list string);
  hp_RedactKeys : list string;
}.

Record PolicyExecution := mkPolicyExecution {
  ex_MaxWallClockSeconds : Z;
  ex_MaxTotalCostUsd : f64;
  ex_MaxIterations : Z;
  ex_RequireStructuredOutput : bool;
}.
Record PolicyTools := mkPolicyTools { pt_ForbidUnknownTools : bool }.
Record PolicyApprovals := mkPolicyApprovals {
  pa_RequiredFor : list string;
  pa_RequireAllTools : option bool;
  pa_Permissive : option bool;
}.
Record PolicyEffects := mkPolicyEffects {
  pe_Permit : list string; pe_PermitWithApproval : list string
}.

Record PolicySpec := mkPolicySpec {
  pol_Preset : string;
  pol_ResolvedPreset : string;
  pol_Execution : option PolicyExecution;
  pol_Tools : option PolicyTools;
  pol_Approvals : option PolicyApprovals;
  pol_Effects : option PolicyEffects;
  pol_Hitl : option HitlPolicy;
}.
Definition empty_policy : PolicySpec := mkPolicySpec "" "" None None None None None.

(** The resolved project: the loader's maps hold no nil resource.  [pg_Tools] is
    [None] for a nil map; [pg_DefaultPolicy] is [""] without project defaults. *)
Record ProjectGraph := mkProjectGraph {
  pg_Agents : gmap string AgentSpec;
  pg_Workflows : gmap string WorkflowSpec;
  pg_Tools : option (gmap string ToolSpec);
  pg_Policies : gmap string PolicySpec;
  pg_DefaultPolicy : string;
}.
(** A read of a nil map finds nothing. *)
Definition tools_of (g : ProjectGraph) : gmap string ToolSpec := default ∅ (pg_Tools g).

(** ** Presets ([policy_presets.go]) *)

Definition PresetStrict : string := "strict".
Definition PresetPermissive : string := "permissive".
Definition PresetShellSafe : string := "shell_safe".

Definition buildStrictPreset : PolicySpec :=
  mkPolicySpec "" PresetStrict None None (Some (mkPolicyApprovals [] (Some true) None)) None None.
Definition buildPermissivePreset : PolicySpec :=
  mkPolicySpec "" PresetPermissive None None (Some (mkPolicyApprovals [] None (Some true))) None None.
Definition buildShellSafePreset : PolicySpec :=
  mkPolicySpec "" PresetShellSafe None None None None None.

Definition builtinPresetBuilders : list (string * PolicySpec) :=
  [(PresetStrict, buildStrictPreset); (PresetPermissive, buildPermissivePreset);
   (PresetShellSafe, buildShellSafePreset)].

Definition find_preset (name : string) : option PolicySpec :=
  snd <$> List.find (λ p, (p.1 =? name)%string) builtinPresetBuilders.

Definition IsBuiltinPreset (name : string) : bool :=
  let name := trim_space name in
  if (name =? "")%string then false else bool_decide (is_Some (find_preset name)).

Inductive preset_error : Type := ErrUnknownPreset (name : string).

Definition BuildPreset (name : string) : res preset_error PolicySpec :=
  match find_preset (trim_space name) with
  | Some p => Ok p
  | None => Err (ErrUnknownPreset (trim_space name))
  end.

Definition ApprovalPermissive (a : option PolicyApprovals) : bool :=
  match a with Some a => default false (pa_Permissive a) | None => false end.
Definition ApprovalRequireAllTools (a : option PolicyApprovals) : bool :=
  match a with Some a => default false (pa_RequireAllTools a) | None => false end.

Definition toolNameFromPresetRequiredFor (entry : string) : string :=
  let entry := trim_space entry in
  if negb (has_prefix entry tool_prefix) then ""
  else match cut_byte dot (trim_prefix entry tool_prefix) with
       | Some (name, _) => name
       | None => ""
       end.

Definition dedupePresetStrings (l : list string) : list string :=
  dedup id (List.filter (λ s, negb (s =? "")%string) (trim_space <$> l)).

Definition mergePresetRequiredFor (base overlay : list string) : list string :=
  match overlay, base with
  | [], _ => base
  | _, [] => overlay
  | _, _ =>
      let overrideTools :=
        List.filter (λ t, negb (t =? "")%string) (toolNameFromPresetRequiredFor <$> overlay) in
      let kept := List.filter (λ r, negb (str_mem (toolNameFromPresetRequiredFor r) overrideTools)) base in
      dedupePresetStrings (sort_strings (kept ++ overlay))
  end.

(** The merged block is dropped when it is empty.  The merged list of the code is
    nil exactly when both lists are empty. *)
Definition mergePolicyApprovals (base overlay : option PolicyApprovals) : option PolicyApprovals :=
  match overlay with
  | None => base
  | Some o =>
      let b := default (mkPolicyApprovals [] None None) base in
      let out := mkPolicyApprovals
        (mergePresetRequiredFor (pa_RequiredFor b) (pa_RequiredFor o))
        (override (pa_RequireAllTools b) (pa_RequireAllTools o))
        (override (pa_Permissive b) (pa_Permissive o)) in
      match pa_RequiredFor b ++ pa_RequiredFor o, pa_RequireAllTools out, pa_Permissive out with
      | [], None, None => None
      | _, _, _ => Some out
      end
  end.

Definition MergePolicySpec (base overlay : PolicySpec) : PolicySpec :=
  mkPolicySpec (pol_Preset base)
    (if (pol_ResolvedPreset overlay =? "")%string then pol_ResolvedPreset base
     else pol_ResolvedPreset overlay)
    (override (pol_Execution base) (pol_Execution overlay))
    (override (pol_Tools base) (pol_Tools overlay))
    (match pol_Approvals overlay with
     | Some _ => mergePolicyApprovals (pol_Approvals base) (pol_Approvals overlay)
     | None => pol_Approvals base end)
    (override (pol_Effects base) (pol_Effects overlay))
    (pol_Hitl base).

Definition ResolvePolicySpec (pol : PolicySpec) : res preset_error PolicySpec :=
  let presetName := trim_space (pol_Preset pol) in
  if (presetName =? "")%string then Ok pol
  else
    base ← BuildPreset presetName;
    let m := MergePolicySpec base pol in
    mret (mkPolicySpec presetName presetName (pol_Execution m) (pol_Tools m) (pol_Approvals m)
            (pol_Effects m) (pol_Hitl m)).

Definition ResolvedPresetName (pol : option PolicySpec) : string :=
  match pol with
  | None => ""
  | Some p => if (pol_ResolvedPreset p =? "")%string then trim_space (pol_Preset p)
              else pol_ResolvedPreset p
  end.

(** ** Expansion of the presets of a project ([policy_expand.go]) *)

Definition collectReferencedPolicyNames (g : ProjectGraph) : list string :=
  sort_strings (dedup id (List.filter (λ n, negb (n =? "")%string) (trim_space <$>
    (pg_DefaultPolicy g ::
     ((agent_Policy ∘ snd) <$> map_to_list (pg_Agents g)) ++
     ((wf_Policy ∘ snd) <$> map_to_list (pg_Workflows g)) ++
     ((map_to_list (pg_Policies g)).*1))))).

Definition resolvePolicyResourcePreset (pol : PolicySpec) : option PolicySpec :=
  let presetName := trim_space (pol_Preset pol) in
  if (presetName =? "")%string || negb (pol_ResolvedPreset pol =? "")%string then None
  else if negb (IsBuiltinPreset presetName) then None
  else res_to_option (ResolvePolicySpec pol).

Definition add_preset (m : gmap string PolicySpec) (name : string) : gmap string PolicySpec :=
  if negb (IsBuiltinPreset name) then m
  else match m !! name with
       | Some _ => m
       | None => match BuildPreset name with Ok p => <[name := p]> m | Err _ => m end
       end.

Definition expand_policy (p : PolicySpec) : PolicySpec :=
  default p (resolvePolicyResourcePreset p).

Definition ExpandPresetsInGraph (g : ProjectGraph) : ProjectGraph :=
  mkProjectGraph (pg_Agents g) (pg_Workflows g) (pg_Tools g)
    (expand_policy <$> foldl add_preset (pg_Policies g) (collectReferencedPolicyNames g))
    (pg_DefaultPolicy g).

(** ** Iteration and token ceilings ([constraints.go]) *)

Record AgentConstraints := mkAgentConstraints { ac_MaxIterations : Z; ac_MaxTokens : Z }.

Definition DefaultAgentMaxIterations : Z := 8.
Definition HardAgentMaxIterations : Z := 32.
Definition DefaultAgentMaxTokens : Z := 16384.

Definition EffectiveMaxIterationsCeiling (policyMaxIterations : Z) : Z :=
  if 0 <? policyMaxIterations then policyMaxIterations else HardAgentMaxIterations.

Definition ResolveMaxIterations (c : option AgentConstraints) (policyCeiling : Z) : Z :=
  let ceiling := EffectiveMaxIterationsCeiling policyCeiling in
  let n := match c with
           | Some c => if 0 <? ac_MaxIterations c then ac_MaxIterations c
                       else DefaultAgentMaxIterations
           | None => DefaultAgentMaxIterations
           end in
  if ceiling <? n then ceiling else n.

Definition PolicyMaxIterations (exec : option PolicyExecution) : Z :=
  match exec with Some e => ex_MaxIterations e | None => 0 end.

Definition ResolveMaxTokens (c : option AgentConstraints) : Z :=
  match c with
  | Some c => if 0 <? ac_MaxTokens c then ac_MaxTokens c else DefaultAgentMaxTokens
  | None => DefaultAgentMaxTokens
  end.

(** ** Properties *)

Lemma find_preset_cases name p :
  find_preset name = Some p →
  (name = PresetStrict ∧ p = buildStrictPreset) ∨
  (name = PresetPermissive ∧ p = buildPermissivePreset) ∨
  (name = PresetShellSafe ∧ p = buildShellSafePreset).
Proof.
  unfold find_preset, builtinPresetBuilders. cbn [List.find fst].
  destruct (String.eqb_spec PresetStrict name); [intros [= Hp]; subst; by left|].
  destruct (String.eqb_spec PresetPermissive name); [intros [= Hp]; subst; by right; left|].
  destruct (String.eqb_spec PresetShellSafe name); [intros [= Hp]; subst; by right; right|done].
Qed.

Lemma mergePresetRequiredFor_nil l : mergePresetRequiredFor [] l = l.
Proof. by destruct l. Qed.

Lemma mergePolicyApprovals_flags b o :
  ApprovalRequireAllTools (mergePolicyApprovals b (Some o)) =
    default (ApprovalRequireAllTools b) (pa_RequireAllTools o) ∧
  ApprovalPermissive (mergePolicyApprovals b (Some o)) =
    default (ApprovalPermissive b) (pa_Permissive o).
Proof.
  unfold mergePolicyApprovals. destruct o as [rf ra pm], b as [[brf bra bpm]|]; simpl;
    repeat case_match; destruct ra as [[]|], pm as [[]|]; simpl in *; simplify_eq; simpl; try done;
    destruct bra as [[]|], bpm as [[]|]; simpl in *; done.
Qed.

(** A preset is a base the policy's own fields layer over: the execution, tools
    and effects blocks are the author's, the [requiredFor] list is the
    author's, and a gating flag the author set wins over the preset's, which
    holds otherwise. *)
Theorem ResolvePolicySpec_layers pol out :
  trim_space (pol_Preset pol) ≠ "" → ResolvePolicySpec pol = Ok out →
  ∃ base, BuildPreset (pol_Preset pol) = Ok base ∧
    ResolvedPresetName (Some out) = trim_space (pol_Preset pol) ∧
    pol_Execution out = pol_Execution pol ∧ pol_Tools out = pol_Tools pol ∧
    pol_Effects out = pol_Effects pol ∧
    default [] (pa_RequiredFor <$> pol_Approvals out) =
      default [] (pa_RequiredFor <$> pol_Approvals pol) ∧
    ApprovalRequireAllTools (pol_Approvals out) =
      default (ApprovalRequireAllTools (pol_Approvals base))
        (pol_Approvals pol ≫= pa_RequireAllTools) ∧
    ApprovalPermissive (pol_Approvals out) =
      default (ApprovalPermissive (pol_Approvals base)) (pol_Approvals pol ≫= pa_Permissive).
Proof.
  intros Hne H. unfold ResolvePolicySpec in H.
  rewrite (proj2 (String.eqb_neq _ _) Hne) in H. res_inv. subst out.
  rename a into base. exists base. unfold BuildPreset in Ha |- *. rewrite trim_space_idemp in Ha.
  destruct (find_preset (trim_space (pol_Preset pol))) as [p|] eqn:Ef; [|done].
  injection Ha as ->. split; [done|]. simpl. split.
  { by rewrite (proj2 (String.eqb_neq _ _) Hne). }
  destruct pol as [pre rp ex tl ap ef hi]. simpl.
  assert (pol_Execution base = None ∧ pol_Tools base = None ∧ pol_Effects base = None ∧
    default [] (pa_RequiredFor <$> pol_Approvals base) = []) as (He & Ht & Hef & Hrf).
  { apply find_preset_cases in Ef as [[_ ->]|[[_ ->]|[_ ->]]]; done. }
  rewrite He, Ht, Hef. split; [by destruct ex|]. split; [by destruct tl|].
  split; [by destruct ef|]. destruct ap as [o|]; simpl; [|done]. split; [|apply mergePolicyApprovals_flags].
  unfold mergePolicyApprovals. destruct (pol_Approvals base) as [[brf bra bpm]|]; simpl in *; subst;
    rewrite mergePresetRequiredFor_nil; repeat case_match; simpl; by simplify_eq.
Qed.

Definition strict_local : PolicySpec :=
  mkPolicySpec " strict" "" (Some (mkPolicyExecution 60 (f64_of_int 2) 0 true)) None
    (Some (mkPolicyApprovals ["tool.gh.merge"] None None)) None None.
Lemma ResolvePolicySpec_layers_witness :
  ∃ out, ResolvePolicySpec strict_local = Ok out ∧
    ApprovalRequireAllTools (pol_Approvals out) = true ∧
    default [] (pa_RequiredFor <$> pol_Approvals out) = ["tool.gh.merge"].
Proof.
  destruct (ResolvePolicySpec strict_local) as [out|e] eqn:E; [|vm_compute in E; discriminate E].
  exists out. split; [reflexivity|].
  destruct (ResolvePolicySpec_layers strict_local _ ltac:(discriminate) E)
    as (base & Hb & _ & _ & _ & _ & Hrf & Hra & _).
  injection Hb as <-. rewrite Hrf, Hra. split; reflexivity.
Defined.

(** The [hitl] block is the exception: with a preset, the author's block is lost. *)
Theorem ResolvePolicySpec_drops_hitl pol out :
  trim_space (pol_Preset pol) ≠ "" → ResolvePolicySpec pol = Ok out → pol_Hitl out = None.
Proof.
  intros Hne H. unfold ResolvePolicySpec in H.
  rewrite (proj2 (String.eqb_neq _ _) Hne) in H. res_inv. subst out. simpl.
  unfold BuildPreset in Ha.
  destruct (find_preset _) as [p|] eqn:Ef; [|done]. injection Ha as ->.
  by apply find_preset_cases in Ef as [[_ ->]|[[_ ->]|[_ ->]]].
Qed.

(** *** Expansion *)

Lemma expand_policy_idemp p : expand_policy (expand_policy p) = expand_policy p.
Proof.
  destruct (resolvePolicyResourcePreset p) as [q|] eqn:E;
    unfold expand_policy; rewrite E; simpl; [|by rewrite E].
  unfold resolvePolicyResourcePreset in E. repeat case_match; try done.
  unfold ResolvePolicySpec in E. bool_inv. repeat case_match; bool_inv; try congruence.
  destruct (BuildPreset _) as [b|] eqn:Eb; [|done]. injection E as <-.
  unfold resolvePolicyResourcePreset. simpl.
  rewrite trim_space_idemp, (proj2 (String.eqb_neq _ _)) by done. done.
Qed.

Lemma elem_of_filter_bool {A} (f : A → bool) x l : x ∈ List.filter f l ↔ x ∈ l ∧ f x = true.
Proof. by rewrite !list_elem_of_In, filter_In. Qed.

Lemma elem_of_referenced g name :
  name ∈ collectReferencedPolicyNames g ↔
  name ≠ "" ∧ ∃ raw, trim_space raw = name ∧
    (raw = pg_DefaultPolicy g ∨ (∃ k a, pg_Agents g !! k = Some a ∧ raw = agent_Policy a) ∨
     (∃ k w, pg_Workflows g !! k = Some w ∧ raw = wf_Policy w) ∨ is_Some (pg_Policies g !! raw)).
Proof.
  unfold collectReferencedPolicyNames.
  rewrite elem_of_sort_strings, elem_of_dedup_id, elem_of_filter_bool, list_elem_of_fmap.
  setoid_rewrite elem_of_cons. setoid_rewrite elem_of_app. setoid_rewrite elem_of_app.
  setoid_rewrite list_elem_of_fmap. split.
  - intros [(raw & -> & Hraw) Hne]. bool_inv. split; [done|]. exists raw. split; [done|].
    destruct Hraw as [->|[([k a] & -> & Hin)|[([k a] & -> & Hin)|([k a] & -> & Hin)]]];
      [by left|apply elem_of_map_to_list in Hin; simpl; eauto 10..].
  - intros (Hne & raw & <- & Hraw). apply String.eqb_neq in Hne. rewrite Hne. split; [|done].
    exists raw. split; [done|]. destruct Hraw as [->|[(k & a & Hk & ->)|[(k & w & Hk & ->)|[p Hp]]]].
    + by left.
    + right; left. exists (k, a). by rewrite elem_of_map_to_list.
    + right; right; left. exists (k, w). by rewrite elem_of_map_to_list.
    + right; right; right. exists (raw, p). by rewrite elem_of_map_to_list.
Qed.

Lemma IsBuiltinPreset_Build name : IsBuiltinPreset name = true → ∃ p, BuildPreset name = Ok p.
Proof.
  unfold IsBuiltinPreset, BuildPreset. case_match; [done|]. intros ?. bool_inv.
  destruct H0 as [p ->]. by eexists.
Qed.

Lemma add_presets_lookup names m k p :
  m !! k = Some p → foldl add_preset m names !! k = Some p.
Proof.
  revert m. induction names as [|n names IH]; intros m Hk; simpl; [done|]. apply IH.
  unfold add_preset. repeat case_match; try done.
  destruct (decide (n = k)) as [->|]; [congruence|by rewrite lookup_insert_ne].
Qed.

Lemma add_presets_dom names m k :
  is_Some (foldl add_preset m names !! k) → is_Some (m !! k) ∨ k ∈ names.
Proof.
  revert m. induction names as [|n names IH]; intros m Hk; simpl in *; [by left|].
  apply IH in Hk as [Hk|Hk]; [|right; by right]. unfold add_preset in Hk.
  repeat case_match; try (by left). destruct (decide (n = k)) as [->|]; [right; by left|].
  rewrite lookup_insert_ne in Hk by done. by left.
Qed.

Lemma add_presets_present names m name :
  name ∈ names → IsBuiltinPreset name = true → is_Some (foldl add_preset m names !! name).
Proof.
  revert m. induction names as [|n names IH]; intros m; [by rewrite elem_of_nil|].
  simpl. intros [->|Hin]%elem_of_cons Hb; [|by apply IH].
  unfold add_preset at 2. rewrite Hb. simpl. destruct (m !! n) as [p|] eqn:Ek.
  - exists p. by apply add_presets_lookup.
  - destruct (IsBuiltinPreset_Build n Hb) as [p Hp]. rewrite Hp.
    exists p. apply add_presets_lookup. by rewrite lookup_insert_eq.
Qed.

Lemma add_presets_id names m :
  (∀ n, n ∈ names → IsBuiltinPreset n = true → is_Some (m !! n)) → foldl add_preset m names = m.
Proof.
  revert m. induction names as [|n names IH]; intros m Hm; simpl; [done|].
  assert (add_preset m n = m) as ->.
  { unfold add_preset. destruct (IsBuiltinPreset n) eqn:Eb; simpl; [|done].
    destruct (Hm n) as [p ->]; [by left|done..]. }
  apply IH. intros k Hk. apply Hm. by right.
Qed.

(** Expanding the presets of a project twice is expanding them once, and every
    built-in policy the project refers to is then present. *)
Theorem ExpandPresetsInGraph_idemp g :
  ExpandPresetsInGraph (ExpandPresetsInGraph g) = ExpandPresetsInGraph g ∧
  ∀ name, name ∈ collectReferencedPolicyNames (ExpandPresetsInGraph g) →
    IsBuiltinPreset name = true → is_Some (pg_Policies (ExpandPresetsInGraph g) !! name).
Proof.
  assert (∀ name, name ∈ collectReferencedPolicyNames (ExpandPresetsInGraph g) →
    IsBuiltinPreset name = true →
    is_Some (pg_Policies (ExpandPresetsInGraph g) !! name)) as Hpres.
  { intros name (Hne & raw & Hraw & Hin)%elem_of_referenced Hb. simpl in *.
    rewrite lookup_fmap. apply fmap_is_Some.
    assert (name ∈ collectReferencedPolicyNames g ∨
      is_Some (foldl add_preset (pg_Policies g) (collectReferencedPolicyNames g) !! name)) as [|];
      [|by apply add_presets_present|done].
    rewrite elem_of_referenced. destruct Hin as [?|[?|[?|Hs]]]; [left; eauto 10..|].
    rewrite lookup_fmap in Hs. apply fmap_is_Some in Hs.
    destruct (add_presets_dom _ _ _ Hs) as [Hp|Hr]; [left; eauto 10|].
    right. apply elem_of_referenced in Hr as (_ & raw' & Ht & _).
    assert (name = raw) as -> by (by rewrite <-Hraw, <-Ht, trim_space_idemp). done. }
  split; [|exact Hpres]. destruct g as [ag wf tl po dp] eqn:Eg. rewrite <-Eg in *.
  unfold ExpandPresetsInGraph at 1. rewrite (add_presets_id _ (pg_Policies (ExpandPresetsInGraph g)) Hpres).
  subst g. simpl. unfold ExpandPresetsInGraph. simpl. f_equal.
  rewrite <-map_fmap_compose. apply map_fmap_ext. intros k p _. apply expand_policy_idemp.
Qed.

(** The effective iteration bound is positive and never above the ceiling. *)
Lemma ResolveMaxIterations_bounds c ceiling :
  1 ≤ ResolveMaxIterations c ceiling ≤ EffectiveMaxIterationsCeiling ceiling.
Proof.
  unfold ResolveMaxIterations, EffectiveMaxIterationsCeiling, HardAgentMaxIterations,
    DefaultAgentMaxIterations.
  repeat case_match; bool_inv; lia.
Qed.
