(* ===== verification/EffectsCompute.v ===== *)
(** * Transitive effect bounds ([internal/effects/compute.go], [types.go])

    The walker that collects the tool operations an agent or a workflow can
    reach, and the bound it makes of them.  The recursion of the walker over
    [workflow:] steps is by fuel; [walk_fuel], one more than the number of
    workflows, is enough because no workflow is entered while on the stack.
    The [Message] of an unknown effect is diagnostic text and is left out. *)

From S2P Require Import Prelude GoText SpecTools SpecPolicy.

(** ** Data ([types.go]) *)

Inductive Reachability := Static | Autonomous.
Inductive HopKind := KindWorkflow | KindStep | KindAgent | KindToolOperation.
#[export] Instance Reachability_eq_dec : EqDecision Reachability.
Proof. solve_decision. Defined.
#[export] Instance HopKind_eq_dec : EqDecision HopKind.
Proof. solve_decision. Defined.

Record Hop := mkHop {
  hop_Kind : HopKind; hop_Name : string; hop_ID : string; hop_Reachability : Reachability
}.
#[export] Instance Hop_eq_dec : EqDecision Hop.
Proof. solve_decision. Defined.

Record effectOccurrence := mkOccurrence { occ_uses : string; occ_witness : list Hop }.

Record Effect := mkEffect {
  eff_Ident : string;
  eff_Unknown : bool;
  eff_Uses : string;
  eff_Witness : list Hop;
  eff_occurrences : list effectOccurrence;
}.

Record Unreachable := mkUnreachable {
  un_Ident : string; un_Unknown : bool; un_Tool : string; un_Operation : string; un_Uses : string
}.

Record Bound := mkBound {
  bound_RootKind : HopKind;
  bound_RootName : string;
  bound_Effects : list Effect;
  bound_Unreachable : list Unreachable;
}.
Record GraphBounds := mkGraphBounds { gb_Agents : gmap string Bound; gb_Workflows : gmap string Bound }.

(** ** The walker ([compute.go]) *)

Record grant := mkGrant { g_tool : string; g_op : string; g_uses : string; g_unknown : bool }.
Record reachedOp := mkReached { r_grant : grant; r_witness : list Hop }.

Record walker := mkWalker {
  w_stack : gset string; w_seen : gset string; w_reached : list reachedOp
}.
Definition newWalker : walker := mkWalker ∅ ∅ [].

Definition enter (key : string) (w : walker) : walker :=
  mkWalker ({[key]} ∪ w_stack w) (w_seen w) (w_reached w).
(** The deferred function of [walkWorkflow] and [walkAgent]. *)
Definition leave (key : string) (w : walker) : walker :=
  mkWalker (w_stack w ∖ {[key]}) ({[key]} ∪ w_seen w) (w_reached w).

Definition appendHop (prefix : list Hop) (h : Hop) : list Hop := prefix ++ [h].

Definition addReached (prefix : list Hop) (g : grant) (reach : Reachability) (w : walker) : walker :=
  let name := if (g_uses g =? "")%string then g_tool g else g_uses g in
  mkWalker (w_stack w) (w_seen w)
    (w_reached w ++ [mkReached g (appendHop prefix (mkHop KindToolOperation name "" reach))]).

Definition parseGrant (uses : string) : grant :=
  match ParseUses uses with
  | None => mkGrant "" "" uses true
  | Some (tn, op) => mkGrant tn op uses false
  end.

Definition nonblank (l : list string) : list string :=
  List.filter (λ s, negb (s =? "")%string) (trim_space <$> l).

Definition advertisedGrants (g : ProjectGraph) (agent : AgentSpec) : list grant :=
  match ResolveAgentAdvertisedTools (Some agent) (pg_Tools g) with
  | Ok listed => (parseGrant ∘ adv_Uses) <$> listed
  | Err _ =>
      match parseGrant <$> nonblank (agent_Tools agent) with
      | [] => [mkGrant "" "" (agent_Name agent) true]
      | out => out
      end
  end.

Definition agent_key (name : string) : string := "agent:" +:+ name.
Definition workflow_key (name : string) : string := "workflow:" +:+ name.

(** The grants of the agent named [name], the fail-closed unknown one when there
    is no such agent. *)
Definition agent_grants_of (g : ProjectGraph) (name : string) : list grant :=
  match pg_Agents g !! name with
  | None => [mkGrant "" "" name true]
  | Some agent => advertisedGrants g agent
  end.

Definition walkAgent (g : ProjectGraph) (name : string) (prefix : list Hop) (w : walker) : walker :=
  let key := agent_key name in
  if bool_decide (key ∈ w_stack w) || bool_decide (key ∈ w_seen w) then w
  else leave key
    (foldl (λ w gr, addReached prefix gr Autonomous w) (enter key w) (agent_grants_of g name)).

Section walk.
Context (g : ProjectGraph) (calls : gmap string (list string)).

Definition walkStep (walkWorkflow : string → list Hop → walker → walker)
    (prefix : list Hop) (w : walker) (step : WorkflowStep) : walker :=
  let id := trim_space (step_ID step) in
  let p := appendHop prefix (mkHop KindStep id id Static) in
  let uses := trim_space (step_Uses step) in
  let w := if (uses =? "")%string then w else addReached p (parseGrant uses) Static w in
  let ag := trim_space (step_Agent step) in
  let w := if (ag =? "")%string then w
           else walkAgent g ag (appendHop p (mkHop KindAgent ag "" Static)) w in
  let callee := trim_space (step_Workflow step) in
  if (callee =? "")%string then w
  else walkWorkflow callee (appendHop p (mkHop KindWorkflow callee "" Static)) w.

Definition walkCall (walkWorkflow : string → list Hop → walker → walker)
    (prefix : list Hop) (w : walker) (other : string) : walker :=
  let other := trim_space other in
  if (other =? "")%string then w
  else walkWorkflow other (appendHop prefix (mkHop KindWorkflow other "" Static)) w.

Fixpoint walkWorkflow (fuel : nat) (name : string) (prefix : list Hop) (w : walker) : walker :=
  match fuel with
  | O => w
  | S fuel =>
      let key := workflow_key name in
      if bool_decide (key ∈ w_stack w) || bool_decide (key ∈ w_seen w) then w
      else
        let w := enter key w in
        match pg_Workflows g !! name with
        | None => leave key w
        | Some wf =>
            let w := foldl (walkStep (walkWorkflow fuel) prefix) w (wf_Steps wf) in
            leave key (foldl (walkCall (walkWorkflow fuel) prefix) w (default [] (calls !! name)))
        end
  end.

End walk.

Definition walk_fuel (g : ProjectGraph) : nat := S (size (pg_Workflows g)).

(** ** From operations to effects *)

Definition pathReachability (hops : list Hop) : Reachability :=
  if existsb (λ h, bool_decide (hop_Reachability h = Autonomous)) hops then Autonomous else Static.

Definition preferAutonomousReached (prev next : reachedOp) : reachedOp :=
  if bool_decide (pathReachability (r_witness next) = Autonomous) &&
     negb (bool_decide (pathReachability (r_witness prev) = Autonomous)) then next else prev.

Definition preferAutonomousEffect (e : Effect) (r : reachedOp) : Effect :=
  if bool_decide (pathReachability (r_witness r) = Autonomous) &&
     negb (bool_decide (pathReachability (eff_Witness e) = Autonomous))
  then mkEffect (eff_Ident e) (eff_Unknown e) (g_uses (r_grant r)) (r_witness r) (eff_occurrences e)
  else e.

Definition appendOccurrence (dst : list effectOccurrence) (uses : string) (witness : list Hop)
    : list effectOccurrence :=
  if existsb (λ o, (occ_uses o =? uses)%string) dst then dst else dst ++ [mkOccurrence uses witness].

(** The key operations are merged by: the uses string. *)
Definition reached_key (r : reachedOp) : string :=
  let g := r_grant r in
  if (g_uses g =? "")%string then g_tool g +:+ String "000" (g_op g) else g_uses g.

(** The map [first] together with the list [order] of its keys. *)
Fixpoint merge_reached (first : list (string * reachedOp)) (r : reachedOp)
    : list (string * reachedOp) :=
  match first with
  | [] => [(reached_key r, r)]
  | (k, prev) :: first =>
      if (k =? reached_key r)%string then (k, preferAutonomousReached prev r) :: first
      else (k, prev) :: merge_reached first r
  end.
Definition first_reached (reached : list reachedOp) : list (string * reachedOp) :=
  foldl merge_reached [] reached.

(** One identifier of an operation: a new effect, or one more occurrence of the
    effect already listed. *)
Fixpoint add_ident (r : reachedOp) (effects : list Effect) (ident : string) : list Effect :=
  match effects with
  | [] => [mkEffect ident false (g_uses (r_grant r)) (r_witness r)
             [mkOccurrence (g_uses (r_grant r)) (r_witness r)]]
  | e :: effects =>
      if negb (eff_Unknown e) && (eff_Ident e =? ident)%string then
        preferAutonomousEffect
          (mkEffect (eff_Ident e) (eff_Unknown e) (eff_Uses e) (eff_Witness e)
             (appendOccurrence (eff_occurrences e) (g_uses (r_grant r)) (r_witness r))) r :: effects
      else e :: add_ident r effects ident
  end.

Definition unknown_effect (r : reachedOp) : Effect :=
  mkEffect "" true (g_uses (r_grant r)) (r_witness r) [].

(** The declared effects of an operation, [None] when they are unknown. *)
Definition grant_effects (g : ProjectGraph) (gr : grant) : option (list string) :=
  if g_unknown gr then None else ResolveOperationEffects (g_op gr) (tools_of g !! g_tool gr).

Definition add_op (g : ProjectGraph) (effects : list Effect) (r : reachedOp) : list Effect :=
  match grant_effects g (r_grant r) with
  | None => effects ++ [unknown_effect r]
  | Some idents => foldl (add_ident r) effects idents
  end.

(** The order of the sort: unknown effects first, by uses, then by identifier. *)
Definition effect_key (e : Effect) : string :=
  if eff_Unknown e then String "0" (eff_Uses e) else String "1" (eff_Ident e).

Definition unreachable_le (a b : Unreachable) : Prop :=
  if decide (un_Uses a = un_Uses b) then String.le (un_Ident a) (un_Ident b)
  else String.le (un_Uses a) (un_Uses b).
#[export] Instance unreachable_le_dec : RelDecision unreachable_le.
Proof. intros a b. unfold unreachable_le. case_decide; apply _. Defined.

Definition unreachableFrom (g : ProjectGraph) (reached : list string) : list Unreachable :=
  merge_sort unreachable_le
    (toolName ← sorted_keys (tools_of g);
     match ResolveToolEffects (tools_of g !! toolName) with
     | None => []
     | Some byOp =>
         op ← sorted_keys byOp;
         let uses := uses_of toolName op in
         if str_mem uses reached then []
         else match default [] (byOp !! op) with
              | [] => [mkUnreachable "" true toolName op uses]
              | idents => (λ ident, mkUnreachable ident false toolName op uses) <$> idents
              end
     end).

Definition finish (g : ProjectGraph) (rootKind : HopKind) (rootName : string)
    (reached : list reachedOp) : Bound :=
  let first := first_reached reached in
  mkBound rootKind rootName (sort_by effect_key (foldl (add_op g) [] first.*2))
    (unreachableFrom g first.*1).

Definition boundAgent (g : ProjectGraph) (name : string) : Bound :=
  finish g KindAgent name
    (w_reached (walkAgent g name [mkHop KindAgent name "" Static] newWalker)).

Definition boundWorkflow (g : ProjectGraph) (calls : gmap string (list string)) (name : string) : Bound :=
  finish g KindWorkflow name
    (w_reached (walkWorkflow g calls (walk_fuel g) name [mkHop KindWorkflow name "" Static] newWalker)).

Definition compute (g : ProjectGraph) (calls : gmap string (list string)) : GraphBounds :=
  mkGraphBounds (map_imap (λ name _, Some (boundAgent g name)) (pg_Agents g))
    (map_imap (λ name _, Some (boundWorkflow g calls name)) (pg_Workflows g)).

(** [Compute]: no extra calls. *)
Definition Compute (g : ProjectGraph) : GraphBounds := compute g ∅.

(** ** The reachability specification

    What a bound must contain, stated on the graph alone: the workflows on a
    path from the root, the grants of their steps and of the steps' agents, and
    the witness hops of such a path. *)

Inductive step_grant (g : ProjectGraph) (st : WorkflowStep) : Reachability → list Hop → grant → Prop :=
  | sg_uses :
      trim_space (step_Uses st) ≠ "" →
      step_grant g st Static [] (parseGrant (trim_space (step_Uses st)))
  | sg_agent gr :
      trim_space (step_Agent st) ≠ "" → gr ∈ agent_grants_of g (trim_space (step_Agent st)) →
      step_grant g st Autonomous [mkHop KindAgent (trim_space (step_Agent st)) "" Static] gr.

Definition step_hop (st : WorkflowStep) : Hop :=
  mkHop KindStep (trim_space (step_ID st)) (trim_space (step_ID st)) Static.
Definition workflow_hop (name : string) : Hop := mkHop KindWorkflow name "" Static.
Definition tool_hop (gr : grant) (reach : Reachability) : Hop :=
  mkHop KindToolOperation (if (g_uses gr =? "")%string then g_tool gr else g_uses gr) "" reach.

Section spec.
Context (g : ProjectGraph) (calls : gmap string (list string)) (root : string).

(** [wf_path n hops]: the workflow [n] is reached from the root by [hops]. *)
Inductive wf_path : string → list Hop → Prop :=
  | wp_root : wf_path root [workflow_hop root]
  | wp_step n hops wf st :
      wf_path n hops → pg_Workflows g !! n = Some wf → st ∈ wf_Steps wf →
      trim_space (step_Workflow st) ≠ "" →
      wf_path (trim_space (step_Workflow st))
        (hops ++ [step_hop st; workflow_hop (trim_space (step_Workflow st))])
  | wp_call n hops wf l o :
      wf_path n hops → pg_Workflows g !! n = Some wf → calls !! n = Some l → o ∈ l →
      trim_space o ≠ "" → wf_path (trim_space o) (hops ++ [workflow_hop (trim_space o)]).

(** [witnessed reach gr hops]: the root reaches the operation [gr] along [hops]. *)
Definition witnessed (reach : Reachability) (gr : grant) (hops : list Hop) : Prop :=
  ∃ n p wf st mid, wf_path n p ∧ pg_Workflows g !! n = Some wf ∧ st ∈ wf_Steps wf ∧
    step_grant g st reach mid gr ∧ hops = p ++ [step_hop st] ++ mid ++ [tool_hop gr reach].

Definition reaches (reach : Reachability) (gr : grant) : Prop := ∃ hops, witnessed reach gr hops.

End spec.

(** *** Paths carry their reachability in the last hop *)

Definition static_hops (l : list Hop) : Prop := Forall (λ h, hop_Reachability h = Static) l.

Lemma pathReachability_snoc p h :
  static_hops p → pathReachability (p ++ [h]) = hop_Reachability h.
Proof.
  intros Hp. unfold pathReachability. rewrite existsb_app.
  assert (existsb (λ h, bool_decide (hop_Reachability h = Autonomous)) p = false) as ->.
  { apply existsb_False. intros x Hx. rewrite (proj1 (Forall_forall _ _) Hp x Hx). done. }
  simpl. rewrite orb_false_r. by destruct (hop_Reachability h).
Qed.

Lemma static_snoc p h : static_hops p → hop_Reachability h = Static → static_hops (p ++ [h]).
Proof. intros. apply Forall_app; split; [done|by constructor]. Qed.

Lemma step_grant_static g st reach mid gr : step_grant g st reach mid gr → static_hops mid.
Proof. destruct 1; repeat constructor. Qed.

Lemma wf_path_static g calls root n p : wf_path g calls root n p → static_hops p.
Proof.
  induction 1; [by repeat constructor|apply Forall_app; split; [done|by repeat constructor]..].
Qed.

Lemma witnessed_reachability g calls root reach gr hops :
  witnessed g calls root reach gr hops → pathReachability hops = reach.
Proof.
  intros (n & p & wf & st & mid & Hp & _ & _ & Hg & ->).
  rewrite !app_assoc, pathReachability_snoc; [done|].
  repeat (apply Forall_app; split).
  - by eapply wf_path_static.
  - by repeat constructor.
  - by eapply step_grant_static.
Qed.

(** ** What the walker records *)

Definition has (w : walker) (reach : Reachability) (gr : grant) : Prop :=
  ∃ r, r ∈ w_reached w ∧ r_grant r = gr ∧ pathReachability (r_witness r) = reach.

(** Growth of the walker's state during one call. *)
Definition ext (w w' : walker) : Prop :=
  w_stack w' = w_stack w ∧ w_seen w ⊆ w_seen w' ∧ w_reached w `prefix_of` w_reached w'.

#[export] Instance ext_preorder : PreOrder ext.
Proof.
  split; [by intros w|].
  intros w1 w2 w3 (? & ? & ?) (? & ? & ?). split_and!; [congruence|set_solver|by etrans].
Qed.

Lemma has_mono w w' reach gr : w_reached w `prefix_of` w_reached w' → has w reach gr → has w' reach gr.
Proof.
  intros [l Hl] (r & Hr & ? & ?). exists r. split; [|done]. rewrite Hl. apply elem_of_app. by left.
Qed.

(** Folding a state-growing step over a list establishes each element's fact. *)
Lemma foldl_collect {A B} (R : B → B → Prop) `{!PreOrder R} (P : B → Prop) (Q : A → B → Prop)
    (f : B → A → B) l b :
  (∀ x b, x ∈ l → P b → P (f b x) ∧ R b (f b x) ∧ Q x (f b x)) →
  (∀ x b b', Q x b → R b b' → Q x b') → P b →
  P (foldl f b l) ∧ R b (foldl f b l) ∧ ∀ x, x ∈ l → Q x (foldl f b l).
Proof.
  intros Hf HQ. revert b. induction l as [|x l IH]; intros b HP; simpl.
  { split_and!; [done..|]. intros x Hx. by apply elem_of_nil in Hx. }
  destruct (Hf x b) as (HP' & HR' & HQ'); [left|done|].
  destruct (IH ltac:(intros; apply Hf; [by right|done]) (f b x) HP') as (? & HR & Hall).
  split_and!; [done|by etrans|]. intros y [->|Hy]%elem_of_cons; eauto.
Qed.

Lemma addReached_ext prefix gr reach w : ext w (addReached prefix gr reach w).
Proof. split_and!; [done..|]. by eexists. Qed.

Lemma addReached_has prefix gr reach w :
  static_hops prefix → has (addReached prefix gr reach w) reach gr.
Proof.
  intros Hp. eexists. split; [apply elem_of_app; right; left|]. split; [done|].
  by apply pathReachability_snoc.
Qed.

Lemma workflow_key_inj a b : workflow_key a = workflow_key b → a = b.
Proof. unfold workflow_key. rewrite !string_app_cons, !string_app_nil_l. by intros [= ->]. Qed.
Lemma agent_workflow_key a b : agent_key a ≠ workflow_key b.
Proof. unfold agent_key, workflow_key. rewrite !string_app_cons. done. Qed.
Lemma agent_key_inj a b : agent_key a = agent_key b → a = b.
Proof. unfold agent_key. rewrite !string_app_cons, !string_app_nil_l. by intros [= ->]. Qed.

(** *** Completeness: nothing reachable is missed *)

Section complete.
Context (g : ProjectGraph) (calls : gmap string (list string)).

Definition listed (w : walker) (name : string) : Prop := workflow_key name ∈ w_seen w ∪ w_stack w.

Definition step_done (st : WorkflowStep) (w : walker) : Prop :=
  (∀ reach mid gr, step_grant g st reach mid gr → has w reach gr) ∧
  (trim_space (step_Workflow st) ≠ "" → listed w (trim_space (step_Workflow st))).

Definition call_done (o : string) (w : walker) : Prop :=
  trim_space o ≠ "" → listed w (trim_space o).

(** What is seen is done, and no agent is on the stack between calls. *)
Definition closed (w : walker) : Prop :=
  (∀ n wf, workflow_key n ∈ w_seen w → pg_Workflows g !! n = Some wf →
     (∀ st, st ∈ wf_Steps wf → step_done st w) ∧
     (∀ o, o ∈ default [] (calls !! n) → call_done o w)) ∧
  (∀ a gr, agent_key a ∈ w_seen w → gr ∈ agent_grants_of g a → has w Autonomous gr) ∧
  (∀ a, agent_key a ∉ w_stack w).

Lemma listed_mono w w' name : ext w w' → listed w name → listed w' name.
Proof. unfold listed. intros (Hs & Hsub & _). rewrite Hs. set_solver. Qed.

Lemma step_done_mono st w w' : step_done st w → ext w w' → step_done st w'.
Proof.
  intros [Hg Hc] He. split.
  - intros. eapply has_mono; [apply He|]. eauto.
  - intros Hne. eapply listed_mono; eauto.
Qed.
Lemma call_done_mono o w w' : call_done o w → ext w w' → call_done o w'.
Proof. intros Hc He Hne. eapply listed_mono; eauto. Qed.

(** Growing the state without touching [seen] keeps it closed. *)
Lemma closed_ext w w' : closed w → ext w w' → w_seen w' = w_seen w → closed w'.
Proof.
  intros (Hw & Ha & Hs) He Hseen. unfold closed. rewrite Hseen. destruct He as (Hst & Hsub & Hr).
  split_and!.
  - intros n wf Hn Hwf. destruct (Hw n wf Hn Hwf) as [H1 H2]. split.
    + intros st Hst'. eapply step_done_mono; [by apply H1|done].
    + intros o Ho. eapply call_done_mono; [by apply H2|done].
  - intros a gr Hk Hgr. eapply has_mono; [done|eauto].
  - intros a. rewrite Hst. apply Hs.
Qed.

Lemma walkAgent_complete name prefix w :
  static_hops prefix → closed w →
  closed (walkAgent g name prefix w) ∧ ext w (walkAgent g name prefix w) ∧
  ∀ gr, gr ∈ agent_grants_of g name → has (walkAgent g name prefix w) Autonomous gr.
Proof.
  intros Hp Hc. pose proof Hc as (Hw & Ha & Hs). unfold walkAgent.
  destruct (bool_decide (agent_key name ∈ w_stack w) || _) eqn:Ek.
  { apply orb_true_iff in Ek as [Ek|Ek]; bool_inv; [by destruct (Hs name)|].
    split_and!; [done..|]. intros gr Hgr. by eapply Ha. }
  bool_inv. set (w1 := enter _ w).
  destruct (foldl_collect ext (λ w', w_seen w' = w_seen w ∧ ext w1 w')
    (λ gr w', has w' Autonomous gr) (λ w gr, addReached prefix gr Autonomous w)
    (agent_grants_of g name) w1) as ((Hseen & He) & _ & Hall).
  { intros gr w' _ [Hse Hex].
    split_and!; [done|by etrans; [|apply addReached_ext]|apply addReached_ext|by apply addReached_has]. }
  { intros gr b b' Hh Hb. eapply has_mono; [apply Hb|done]. }
  { done. }
  set (w2 := foldl _ w1 _) in *.
  assert (ext w (leave (agent_key name) w2)) as Hext.
  { destruct He as (Hst & Hsub & Hr). split_and!; simpl.
    - rewrite Hst. simpl. set_solver.
    - simpl in Hsub. set_solver.
    - done. }
  split_and!; [|done|intros gr Hgr; by apply Hall].
  split_and!.
  - intros n wf [Hn|Hn]%elem_of_union Hwf.
    { apply elem_of_singleton in Hn. by destruct (agent_workflow_key name n). }
    rewrite Hseen in Hn. destruct (Hw n wf Hn Hwf) as [H1 H2]. split.
    + intros st Hst. eapply step_done_mono; [by apply H1|done].
    + intros o Ho. eapply call_done_mono; [by apply H2|done].
  - intros a gr [Hk|Hk]%elem_of_union Hgr.
    + apply elem_of_singleton, agent_key_inj in Hk. subst a. by apply Hall.
    + rewrite Hseen in Hk. eapply has_mono; [apply Hext|eauto].
  - intros a. destruct Hext as (-> & _). apply Hs.
Qed.

(** The workflows that are not on the stack bound the recursion depth. *)
Definition unvisited (w : walker) : nat :=
  size (filter (λ kv, workflow_key kv.1 ∉ w_stack w) (pg_Workflows g)).

Lemma unvisited_enter name wf w :
  pg_Workflows g !! name = Some wf → workflow_key name ∉ w_stack w →
  unvisited (enter (workflow_key name) w) < unvisited w.
Proof.
  intros Hwf Hn. unfold unvisited, enter. simpl.
  rewrite <-!size_dom. apply subset_size. split.
  - intros k. rewrite !elem_of_dom. intros [v Hv]. exists v.
    rewrite map_lookup_filter_Some in Hv |- *. simpl in *. set_solver.
  - intros Hsub. specialize (Hsub name). rewrite !elem_of_dom in Hsub.
    destruct Hsub as [v Hv]; [exists wf; by rewrite map_lookup_filter_Some|].
    rewrite map_lookup_filter_Some in Hv. simpl in Hv. set_solver.
Qed.

Lemma walkStep_complete (walk : string → list Hop → walker → walker) S0 prefix st w :
  (∀ name p w, static_hops p → closed w → w_stack w = S0 →
     closed (walk name p w) ∧ ext w (walk name p w) ∧ listed (walk name p w) name) →
  static_hops prefix → closed w → w_stack w = S0 →
  closed (walkStep g walk prefix w st) ∧ ext w (walkStep g walk prefix w st) ∧
  step_done st (walkStep g walk prefix w st).
Proof.
  intros Hwalk Hp Hc HS. unfold walkStep.
  set (p := appendHop prefix _).
  assert (static_hops p) as Hps by (by apply static_snoc).
  set (w1 := if (trim_space (step_Uses st) =? "")%string then w else _).
  assert (closed w1 ∧ ext w w1 ∧ (trim_space (step_Uses st) ≠ "" →
    has w1 Static (parseGrant (trim_space (step_Uses st))))) as (Hc1 & He1 & Hu1).
  { unfold w1. destruct (String.eqb_spec (trim_space (step_Uses st)) ""); [done|].
    split; [|split; [apply addReached_ext|by intros; apply addReached_has]].
    eapply closed_ext; [done|apply addReached_ext|done]. }
  clearbody w1.
  set (w2 := if (trim_space (step_Agent st) =? "")%string then w1 else _).
  assert (closed w2 ∧ ext w1 w2 ∧ (∀ gr, trim_space (step_Agent st) ≠ "" →
    gr ∈ agent_grants_of g (trim_space (step_Agent st)) → has w2 Autonomous gr)) as (Hc2 & He2 & Ha2).
  { unfold w2. destruct (String.eqb_spec (trim_space (step_Agent st)) ""); [done|].
    destruct (walkAgent_complete (trim_space (step_Agent st))
      (appendHop p (mkHop KindAgent (trim_space (step_Agent st)) "" Static)) w1)
      as (? & ? & Hall); [by apply static_snoc|exact Hc1|].
    split_and!; [done..|]. intros gr _. apply Hall. }
  clearbody w2.
  assert (ext w w2) as He by (by etrans).
  assert (∀ w', ext w2 w' → ∀ reach mid gr, step_grant g st reach mid gr → has w' reach gr) as Hgr.
  { intros w' He' reach mid gr Hg. eapply has_mono; [apply He'|].
    destruct Hg as [Hne|gr Hne Hin]; [|by apply Ha2].
    eapply has_mono; [apply He2|by apply Hu1]. }
  destruct (String.eqb_spec (trim_space (step_Workflow st)) "") as [Hw|Hw].
  { split_and!; [done..|]. split; [by apply Hgr|done]. }
  destruct (Hwalk (trim_space (step_Workflow st)) (appendHop p (workflow_hop (trim_space (step_Workflow st)))) w2)
    as (Hc3 & He3 & Hl3); [by apply static_snoc|done|destruct He as (-> & _); done|].
  split_and!; [done|by etrans|]. split; [by apply Hgr|done].
Qed.

Lemma walkWorkflow_complete fuel name prefix w :
  static_hops prefix → closed w → unvisited w < fuel →
  let w' := walkWorkflow g calls fuel name prefix w in closed w' ∧ ext w w' ∧ listed w' name.
Proof.
  revert name prefix w. induction fuel as [|fuel IH]; intros name prefix w Hp Hc Hf; [lia|]. simpl.
  destruct (bool_decide (workflow_key name ∈ w_stack w) || _) eqn:Ek.
  { split_and!; [done..|]. unfold listed. apply elem_of_union.
    apply orb_true_iff in Ek as [Ek|Ek]; bool_inv; [by right|by left]. }
  bool_inv. set (w1 := enter _ w).
  assert (closed w1) as Hc1.
  { destruct Hc as (Hw & Ha & Hs). split_and!; [|done|].
    - intros n wf Hn Hwf. destruct (Hw n wf Hn Hwf) as [H1 H2]. split.
      + intros st Hst. destruct (H1 st Hst) as [H3 H4]. split; [done|]. intros Hne.
        specialize (H4 Hne). unfold listed in *. set_solver.
      + intros o Ho Hne. specialize (H2 o Ho Hne). unfold listed in *. set_solver.
    - intros a. simpl. specialize (Hs a). pose proof (agent_workflow_key a name). set_solver. }
  (* A workflow that leaves the stack is seen from then on. *)
  assert (∀ w2, closed w2 → ext w1 w2 →
    (∀ wf, pg_Workflows g !! name = Some wf → (∀ st, st ∈ wf_Steps wf → step_done st w2) ∧
       (∀ o, o ∈ default [] (calls !! name) → call_done o w2)) →
    closed (leave (workflow_key name) w2) ∧ ext w (leave (workflow_key name) w2) ∧
    listed (leave (workflow_key name) w2) name) as Hleave.
  { intros w2 (Hw2 & Ha2 & Hs2) (Hst & Hsub & Hr) Hdone. simpl in *.
    assert (∀ n, listed w2 n → listed (leave (workflow_key name) w2) n) as Hl.
    { intros n. unfold listed. simpl. rewrite Hst. set_solver. }
    assert (∀ st, step_done st w2 → step_done st (leave (workflow_key name) w2)) as Hsd.
    { intros st [H1 H2]. split; [done|auto]. }
    assert (∀ o, call_done o w2 → call_done o (leave (workflow_key name) w2)) as Hcd.
    { intros o Ho Hne. auto. }
    split_and!.
    - split_and!.
      + intros n wf [Hn|Hn]%elem_of_union Hwf.
        * apply elem_of_singleton, workflow_key_inj in Hn. subst n.
          destruct (Hdone wf Hwf). split; auto.
        * destruct (Hw2 n wf Hn Hwf). split; auto.
      + intros a gr [Hk|Hk]%elem_of_union Hgr; [|eauto].
        apply elem_of_singleton in Hk. by destruct (agent_workflow_key a name).
      + intros a. specialize (Hs2 a). simpl. set_solver.
    - split_and!; simpl; [rewrite Hst; set_solver|set_solver|done].
    - unfold listed. simpl. set_solver. }
  destruct (pg_Workflows g !! name) as [wf|] eqn:Ewf; [|by apply Hleave].
  pose proof (unvisited_enter name wf w Ewf ltac:(done)) as Hun. fold w1 in Hun.
  assert (∀ name' p w', static_hops p → closed w' → w_stack w' = w_stack w1 →
    closed (walkWorkflow g calls fuel name' p w') ∧ ext w' (walkWorkflow g calls fuel name' p w') ∧
    listed (walkWorkflow g calls fuel name' p w') name') as Hwalk.
  { intros name' p w' Hp' Hc' HS. apply IH; [done..|]. unfold unvisited in *. rewrite HS. lia. }
  destruct (foldl_collect ext (λ w', closed w' ∧ w_stack w' = w_stack w1) step_done
    (walkStep g (walkWorkflow g calls fuel) prefix) (wf_Steps wf) w1) as ((Hc2 & HS2) & He2 & Hd2).
  { intros st w' _ [Hc' HS'].
    destruct (walkStep_complete (walkWorkflow g calls fuel) (w_stack w1) prefix st w')
      as (? & He' & ?); [done..|]. split_and!; try done. by destruct He' as (-> & _). }
  { intros; by eapply step_done_mono. }
  { done. }
  destruct (foldl_collect ext (λ w', closed w' ∧ w_stack w' = w_stack w1) call_done
    (walkCall (walkWorkflow g calls fuel) prefix) (default [] (calls !! name))
    (foldl (walkStep g (walkWorkflow g calls fuel) prefix) w1 (wf_Steps wf))) as ((Hc3 & HS3) & He3 & Hd3).
  { intros o w' _ [Hc' HS']. unfold walkCall, call_done.
    destruct (String.eqb_spec (trim_space o) ""); [done|].
    destruct (Hwalk (trim_space o) (appendHop prefix (workflow_hop (trim_space o))) w')
      as (? & He' & ?); [by apply static_snoc|exact Hc'|exact HS'|].
    split_and!; try done. etrans; [apply He'|done]. }
  { intros; by eapply call_done_mono. }
  { done. }
  apply Hleave; [done|by etrans|]. intros wf' [= <-]. split; [|done].
  intros st Hst. eapply step_done_mono; [by apply Hd2|done].
Qed.

End complete.

(** *** Soundness: every recorded operation has a witness path *)

Lemma walkAgent_reached g name prefix w r :
  r ∈ w_reached (walkAgent g name prefix w) →
  r ∈ w_reached w ∨ ∃ gr, gr ∈ agent_grants_of g name ∧
    r = mkReached gr (prefix ++ [tool_hop gr Autonomous]).
Proof.
  unfold walkAgent. case_match; [by left|]. cbn [w_reached leave].
  change (w_reached w) with (w_reached (enter (agent_key name) w)).
  generalize (enter (agent_key name) w) as w0. induction (agent_grants_of g name) as [|gr l IH];
    intros w0; simpl; [by left|].
  intros [Hr|(gr' & Hin & ->)]%IH.
  - unfold addReached in Hr. simpl in Hr.
    apply elem_of_app in Hr as [Hr|Hr%list_elem_of_singleton]; [by left|].
    right. exists gr. split; [left|done].
  - right. exists gr'. split; [by right|done].
Qed.

Section sound.
Context (g : ProjectGraph) (calls : gmap string (list string)) (root : string).

Definition sound (w : walker) : Prop :=
  ∀ r, r ∈ w_reached w → ∃ reach, witnessed g calls root reach (r_grant r) (r_witness r).

Lemma walkStep_sound (walk : string → list Hop → walker → walker) name hops wf st w :
  (∀ n p w, wf_path g calls root n p → sound w → sound (walk n p w)) →
  wf_path g calls root name hops → pg_Workflows g !! name = Some wf → st ∈ wf_Steps wf →
  sound w → sound (walkStep g walk hops w st).
Proof.
  intros Hwalk Hp Hwf Hst Hs. unfold walkStep.
  set (w1 := if (trim_space (step_Uses st) =? "")%string then w else _).
  assert (sound w1) as Hs1.
  { unfold w1. destruct (String.eqb_spec (trim_space (step_Uses st)) "") as [|Hne]; [done|].
    intros r. cbn [w_reached addReached]. intros [Hr|Hr%list_elem_of_singleton]%elem_of_app; [auto|].
    subst r. exists Static, name, hops, wf, st, []. split_and!; try done; [by constructor|].
    simpl. unfold appendHop. by rewrite <-app_assoc. }
  clearbody w1.
  set (w2 := if (trim_space (step_Agent st) =? "")%string then w1 else _).
  assert (sound w2) as Hs2.
  { unfold w2. destruct (String.eqb_spec (trim_space (step_Agent st)) "") as [|Hne]; [done|].
    intros r [Hr|(gr & Hgr & ->)]%walkAgent_reached; [auto|].
    exists Autonomous, name, hops, wf, st, [mkHop KindAgent (trim_space (step_Agent st)) "" Static].
    split_and!; try done; [by constructor|]. simpl. unfold appendHop. by rewrite <-!app_assoc. }
  clearbody w2.
  destruct (String.eqb_spec (trim_space (step_Workflow st)) "") as [|Hne]; [done|].
  apply Hwalk; [|done].
  replace (appendHop _ _) with (hops ++ [step_hop st; workflow_hop (trim_space (step_Workflow st))]).
  - by eapply wp_step.
  - unfold appendHop. by rewrite <-app_assoc.
Qed.

Lemma walkWorkflow_sound fuel name hops w :
  wf_path g calls root name hops → sound w → sound (walkWorkflow g calls fuel name hops w).
Proof.
  revert name hops w. induction fuel as [|fuel IH]; intros name hops w Hp Hs; simpl; [done|].
  case_match; [done|]. destruct (pg_Workflows g !! name) as [wf|] eqn:Ewf; [|done].
  change (sound (leave (workflow_key name) ?x)) with (sound x).
  assert (∀ l w, (∀ st, st ∈ l → st ∈ wf_Steps wf) → sound w →
    sound (foldl (walkStep g (walkWorkflow g calls fuel) hops) w l)) as Hsteps.
  { intros l. induction l as [|st l IHl]; intros w' Hl Hs'; simpl; [done|].
    apply IHl; [intros; apply Hl; by right|]. eapply walkStep_sound; try done. apply Hl. by left. }
  assert (∀ l w, (∀ o, o ∈ l → ∃ l', calls !! name = Some l' ∧ o ∈ l') → sound w →
    sound (foldl (walkCall (walkWorkflow g calls fuel) hops) w l)) as Hcalls.
  { intros l. induction l as [|o l IHl]; intros w' Hl Hs'; simpl; [done|].
    apply IHl; [intros; apply Hl; by right|]. unfold walkCall.
    destruct (String.eqb_spec (trim_space o) ""); [done|].
    destruct (Hl o ltac:(left)) as (l' & Hl' & Ho).
    apply IH; [by eapply wp_call|done]. }
  apply Hcalls; [|by apply Hsteps].
  destruct (calls !! name) as [l'|]; intros o Ho; [by eauto|by apply elem_of_nil in Ho].
Qed.

End sound.

(** What the workflow walker records: each entry is witnessed by its hops, and
    every reachable operation is recorded with its reachability. *)
Lemma walk_root_sound g calls root :
  sound g calls root (walkWorkflow g calls (walk_fuel g) root [workflow_hop root] newWalker).
Proof. apply walkWorkflow_sound; [constructor|]. intros r Hr. by apply elem_of_nil in Hr. Qed.

Lemma walk_root_complete g calls root reach gr :
  reaches g calls root reach gr →
  has (walkWorkflow g calls (walk_fuel g) root [workflow_hop root] newWalker) reach gr.
Proof.
  intros (hops & n & p & wf & st & mid & Hp & Hwf & Hst & Hg & ->).
  destruct (walkWorkflow_complete g calls (walk_fuel g) root [workflow_hop root] newWalker)
    as (Hc & He & Hl).
  - by repeat constructor.
  - split_and!; try done; intros; set_solver.
  - unfold walk_fuel, unvisited. apply Nat.lt_succ_r. rewrite <-!size_dom. apply subseteq_size.
    apply dom_filter_subseteq.
  - set (w := walkWorkflow _ _ _ _ _ _) in *.
    assert (∀ m, listed w m → workflow_key m ∈ w_seen w) as Hseen.
    { intros m. unfold listed. destruct He as (-> & _). simpl. set_solver. }
    assert (∀ m q, wf_path g calls root m q → workflow_key m ∈ w_seen w) as Hpath.
    { intros m q Hq. induction Hq as [|m q wf' st' Hq IH Hwf' Hst' Hne|m q wf' l o Hq IH Hwf' Hl' Ho Hne].
      - by apply Hseen.
      - apply Hseen. destruct Hc as (Hw & _). destruct (Hw m wf' IH Hwf') as [Hd _].
        by apply Hd.
      - apply Hseen. destruct Hc as (Hw & _). destruct (Hw m wf' IH Hwf') as [_ Hd].
        apply (Hd o); [by rewrite Hl'|done]. }
    destruct Hc as (Hw & _). destruct (Hw n wf (Hpath n p Hp) Hwf) as [Hd _].
    by eapply (Hd st Hst).
Qed.

(** ** What a bound says

    [canon]: the operation is determined by its uses string, the key the code
    merges operations by.  It holds of every grant unless the name of an agent
    reads as a uses string. *)

Definition canon (gr : grant) : Prop := gr = parseGrant (g_uses gr) ∧ g_uses gr ≠ "".

Lemma g_uses_parseGrant u : g_uses (parseGrant u) = u.
Proof. unfold parseGrant. by destruct (ParseUses u) as [[??]|]. Qed.

Lemma parseGrant_canon u : u ≠ "" → canon (parseGrant u).
Proof. intros Hu. unfold canon. by rewrite g_uses_parseGrant. Qed.

Lemma canon_key r : canon (r_grant r) → reached_key r = g_uses (r_grant r).
Proof. intros [_ Hne]. unfold reached_key. by rewrite (proj2 (String.eqb_neq _ _) Hne). Qed.

Definition autonomous (r : reachedOp) : Prop := pathReachability (r_witness r) = Autonomous.

(** *** Merging operations by key *)

Lemma merge_reached_keys first r :
  NoDup first.*1 →
  NoDup (merge_reached first r).*1 ∧
  (∀ k, k ∈ (merge_reached first r).*1 ↔ k ∈ first.*1 ∨ k = reached_key r).
Proof.
  induction first as [|[k p] first IH]; simpl; intros Hnd.
  - split; [by apply NoDup_singleton|]. intros k. rewrite list_elem_of_singleton.
    split; [by right|]. intros [Hk|?]; [by apply elem_of_nil in Hk|done].
  - apply NoDup_cons in Hnd as [Hk Hnd]. destruct (String.eqb_spec k (reached_key r)) as [->|Hne]; simpl.
    + split; [by constructor|]. intros k'. rewrite !elem_of_cons. naive_solver.
    + destruct (IH Hnd) as [IH1 IH2]. split.
      * constructor; [|done]. rewrite IH2. naive_solver.
      * intros k'. rewrite !elem_of_cons, IH2. naive_solver.
Qed.

Lemma preferAutonomousReached_cases p r :
  (preferAutonomousReached p r = p ∨ preferAutonomousReached p r = r) ∧
  (autonomous p ∨ autonomous r → autonomous (preferAutonomousReached p r)).
Proof.
  unfold preferAutonomousReached, autonomous. repeat case_bool_decide; simpl; naive_solver.
Qed.

Lemma merge_reached_entries first r k q :
  (k, q) ∈ merge_reached first r →
  (k, q) ∈ first ∨ (k = reached_key r ∧ (q = r ∨ (k, q) ∈ first)).
Proof.
  induction first as [|[k' p] first IH]; simpl.
  - intros [= -> ->]%list_elem_of_singleton. right. split; [done|by left].
  - destruct (String.eqb_spec k' (reached_key r)) as [->|Hne].
    + intros [[= -> ->]|Hin]%elem_of_cons; [|left; by right].
      destruct (preferAutonomousReached_cases p r) as [[Hp|Hr] _].
      * rewrite Hp. left. by left.
      * right. split; [done|by left].
    + intros [[= -> ->]|Hin]%elem_of_cons; [left; by left|].
      destruct (IH Hin) as [|[? [?|?]]]; [left; by right|right; split; [done|by left]|left; by right].
Qed.

Lemma merge_reached_has first r q :
  (q = r ∨ (reached_key q, q) ∈ first) →
  ∃ q', (reached_key q, q') ∈ merge_reached first r ∧ (autonomous q → autonomous q').
Proof.
  induction first as [|[k' p] first IH]; simpl.
  - intros [->|Hq]; [|by apply elem_of_nil in Hq]. exists r. split; [left|done].
  - destruct (String.eqb_spec k' (reached_key r)) as [->|Hne].
    + destruct (preferAutonomousReached_cases p r) as [_ Ha].
      intros [->|[[= Hk ->]|Hin]%elem_of_cons].
      * exists (preferAutonomousReached p r). split; [left|auto].
      * exists (preferAutonomousReached p r). split; [rewrite Hk; left|auto].
      * exists q. split; [by right|done].
    + intros [->|[[= <- <-]|Hin]%elem_of_cons].
      * destruct IH as (q' & ? & ?); [by left|]. exists q'. split; [by right|done].
      * exists q. split; [left|done].
      * destruct IH as (q' & ? & ?); [by right|]. exists q'. split; [by right|done].
Qed.

Lemma first_reached_spec reached :
  let first := first_reached reached in
  NoDup first.*1 ∧
  (∀ k q, (k, q) ∈ first → k = reached_key q ∧ q ∈ reached) ∧
  (∀ q, q ∈ reached → ∃ q', (reached_key q, q') ∈ first ∧ (autonomous q → autonomous q')).
Proof.
  unfold first_reached. simpl. induction reached as [|r reached IH] using rev_ind; simpl.
  { split_and!; [constructor|by intros k q ?%elem_of_nil..|by intros q ?%elem_of_nil]. }
  rewrite foldl_app. simpl. destruct IH as (Hnd & Hin & Hcov).
  set (first := foldl merge_reached [] reached) in *. split_and!.
  - by apply merge_reached_keys.
  - intros k q [Hq|[Hk [->|Hq]]]%merge_reached_entries.
    + destruct (Hin _ _ Hq). split; [done|by apply elem_of_app; left].
    + split; [done|apply elem_of_app; right; left].
    + destruct (Hin _ _ Hq). split; [done|by apply elem_of_app; left].
  - intros q [Hq|Hq%list_elem_of_singleton]%elem_of_app.
    + destruct (Hcov q Hq) as (q' & Hq' & Ha). destruct (Hin _ _ Hq') as [Hk _].
      destruct (merge_reached_has first r q') as (q'' & Hq'' & Ha'); [right; congruence|].
      exists q''. split; [congruence|auto].
    + apply merge_reached_has. by left.
Qed.

(** *** Accumulating identifiers *)

Definition known (e : Effect) (ident : string) : Prop := eff_Unknown e = false ∧ eff_Ident e = ident.

Definition bump (r : reachedOp) (e : Effect) : Effect :=
  preferAutonomousEffect
    (mkEffect (eff_Ident e) (eff_Unknown e) (eff_Uses e) (eff_Witness e)
       (appendOccurrence (eff_occurrences e) (g_uses (r_grant r)) (r_witness r))) r.
Definition occ_of (r : reachedOp) : effectOccurrence := mkOccurrence (g_uses (r_grant r)) (r_witness r).
Definition fresh_effect (r : reachedOp) (ident : string) : Effect :=
  mkEffect ident false (g_uses (r_grant r)) (r_witness r) [occ_of r].

Lemma add_ident_cases r effects ident :
  ((∀ e, e ∈ effects → ¬ known e ident) ∧ add_ident r effects ident = effects ++ [fresh_effect r ident]) ∨
  (∃ l1 e l2, effects = l1 ++ e :: l2 ∧ known e ident ∧
     add_ident r effects ident = l1 ++ bump r e :: l2).
Proof.
  induction effects as [|e effects IH]; simpl.
  - left. split; [by intros e ?%elem_of_nil|done].
  - destruct (negb (eff_Unknown e) && (eff_Ident e =? ident)%string) eqn:E.
    + bool_inv. right. exists [], e, effects. by split_and!.
    + destruct IH as [[Hn Heq]|(l1 & e' & l2 & -> & Hk & Heq)].
      * left. rewrite Heq. split; [|done]. intros e' [->|He']%elem_of_cons; [|by apply Hn].
        intros [Hu Hi]. rewrite Hu, Hi, String.eqb_refl in E. done.
      * right. exists (e :: l1), e', l2. rewrite Heq. by split_and!.
Qed.

Lemma bump_known r e : eff_Unknown (bump r e) = eff_Unknown e ∧ eff_Ident (bump r e) = eff_Ident e ∧
  eff_occurrences (bump r e) = appendOccurrence (eff_occurrences e) (g_uses (r_grant r)) (r_witness r).
Proof. unfold bump, preferAutonomousEffect. simpl. by destruct (_ && _). Qed.

(** The effect's own uses and witness are one of its occurrences, an autonomous
    one when there is one. *)
Definition path_max (e : Effect) : Prop :=
  mkOccurrence (eff_Uses e) (eff_Witness e) ∈ eff_occurrences e ∧
  ((∃ o, o ∈ eff_occurrences e ∧ pathReachability (occ_witness o) = Autonomous) →
   pathReachability (eff_Witness e) = Autonomous).

Definition tags (effects : list Effect) : list string :=
  omap (λ e, if eff_Unknown e then None else Some (eff_Ident e)) effects.

Lemma elem_of_tags effects i : i ∈ tags effects ↔ ∃ e, e ∈ effects ∧ known e i.
Proof.
  unfold tags, known. rewrite list_elem_of_omap. split; intros (e & He & Hi); exists e; split; try done.
  - destruct (eff_Unknown e); [done|]. by injection Hi as ->.
  - destruct Hi as [-> ->]. done.
Qed.

Lemma tags_app l1 l2 : tags (l1 ++ l2) = tags l1 ++ tags l2.
Proof. apply omap_app. Qed.
Lemma tags_known l1 e l2 i : known e i → tags (l1 ++ e :: l2) = tags l1 ++ i :: tags l2.
Proof. intros [Hu Hi]. rewrite tags_app. unfold tags. simpl. by rewrite Hu, Hi. Qed.

Record idents_inv (pairs : list (reachedOp * string)) (effects : list Effect) : Prop := {
  ii_occ : ∀ e, e ∈ effects → eff_Unknown e = false →
    (∀ o, o ∈ eff_occurrences e ↔ ∃ r, (r, eff_Ident e) ∈ pairs ∧ o = occ_of r) ∧ path_max e;
  ii_all : ∀ r i, (r, i) ∈ pairs → i ∈ tags effects;
  ii_uniq : NoDup (tags effects);
}.

Lemma appendOccurrence_elem dst r o :
  (∀ o', o' ∈ dst → occ_uses o' = g_uses (r_grant r) → o' = occ_of r) →
  o ∈ appendOccurrence dst (g_uses (r_grant r)) (r_witness r) ↔ o ∈ dst ∨ o = occ_of r.
Proof.
  intros Hd. unfold appendOccurrence. destruct (existsb _ dst) eqn:E.
  - apply existsb_True in E as (o' & Ho' & Hu). apply String.eqb_eq in Hu.
    rewrite (Hd o' Ho' Hu) in Ho'. split; [by left|]. by intros [?| ->].
  - rewrite elem_of_app, list_elem_of_singleton. done.
Qed.

Lemma bump_path_max r e :
  path_max e →
  (∀ o', o' ∈ eff_occurrences e → occ_uses o' = g_uses (r_grant r) → o' = occ_of r) →
  path_max (bump r e).
Proof.
  intros [Hin Hmax] Hd.
  destruct (bump_known r e) as (_ & _ & Ho). unfold path_max. rewrite Ho.
  setoid_rewrite (appendOccurrence_elem _ r _ Hd).
  unfold bump, preferAutonomousEffect. simpl.
  repeat case_bool_decide; simpl; (split; [by auto|]); intros (o & [Hoin| ->] & Ha); try done.
  apply Hmax. eauto.
Qed.

Lemma add_ident_inv pairs effects r i :
  idents_inv pairs effects →
  (∀ r', (r', i) ∈ pairs → g_uses (r_grant r') = g_uses (r_grant r) → r' = r) →
  idents_inv (pairs ++ [(r, i)]) (add_ident r effects i).
Proof.
  intros [Hocc Hall Huniq] Hr.
  assert (∀ (q : reachedOp) j, (q, j) ∈ pairs ++ [(r, i)] ↔ (q, j) ∈ pairs ∨ (q = r ∧ j = i)) as Hp.
  { intros q j. rewrite elem_of_app, list_elem_of_singleton. naive_solver. }
  assert (∀ e, e ∈ effects → eff_Unknown e = false → eff_Ident e ≠ i →
    (∀ o, o ∈ eff_occurrences e ↔ ∃ q, (q, eff_Ident e) ∈ pairs ++ [(r, i)] ∧ o = occ_of q) ∧
    path_max e) as Hother.
  { intros e He Hu Hne. destruct (Hocc e He Hu) as [H1 H2]. split; [|done].
    intros o. rewrite H1. setoid_rewrite Hp. naive_solver. }
  destruct (add_ident_cases r effects i) as [[Hn Heq]|(l1 & e & l2 & Heq & Hk & ->)].
  - rewrite Heq. split.
    + intros e [He|He%list_elem_of_singleton]%elem_of_app Hu.
      { apply Hother; [done..|]. intros Hi. by destruct (Hn e He). }
      subst e. simpl. split.
      * intros o. rewrite list_elem_of_singleton. setoid_rewrite Hp. split; [naive_solver|].
        intros (q & [Hq|[-> _]] & ->); [|done]. apply Hall, elem_of_tags in Hq as (e & He & Hk).
        by destruct (Hn e He).
      * split; simpl; [by left|]. by intros (o & ->%list_elem_of_singleton & Ho).
    + intros q j Hq%Hp. rewrite tags_app, elem_of_app. destruct Hq as [Hq|[-> ->]].
      * left. by eapply Hall.
      * right. left.
    + rewrite tags_app. apply NoDup_app. split_and!; [done| |apply NoDup_singleton].
      intros j Hj Hj'%list_elem_of_singleton. simpl in Hj'. subst j.
      apply elem_of_tags in Hj as (e & He & Hk). by destruct (Hn e He).
  - destruct (bump_known r e) as (Hbu & Hbi & Hbo). destruct Hk as [Hku Hki].
    rewrite Heq, (tags_known _ _ _ i) in Hall, Huniq by done.
    assert (known (bump r e) i) as Hb by (split; congruence).
    apply NoDup_app in Huniq as (Hnd1 & Hdis & [Hi2 Hnd2]%NoDup_cons).
    assert (e ∈ effects) as He by (rewrite Heq; apply elem_of_app; right; left).
    destruct (Hocc e He Hku) as [H1 H2].
    assert (∀ o', o' ∈ eff_occurrences e → occ_uses o' = g_uses (r_grant r) → o' = occ_of r) as Hd.
    { intros o' Ho' Hu. apply H1 in Ho' as (q & Hq & ->). rewrite Hki in Hq. by rewrite (Hr q Hq Hu). }
    split.
    + intros e' He' Hu'. rewrite elem_of_app, elem_of_cons in He'.
      assert (e' = bump r e ∨ (e' ∈ l1 ∨ e' ∈ l2)) as [->|Hin] by tauto.
      * rewrite Hbi, Hbo. split; [|by apply bump_path_max].
        intros o. rewrite (appendOccurrence_elem _ r _ Hd), H1, Hki. setoid_rewrite Hp. naive_solver.
      * apply Hother; [rewrite Heq, elem_of_app, elem_of_cons; tauto|done|]. intros Hi.
        destruct Hin as [Hin|Hin].
        -- apply (Hdis i); [apply elem_of_tags; by exists e'|left].
        -- apply Hi2, elem_of_tags. by exists e'.
    + rewrite (tags_known _ _ _ i) by done. intros q j [Hq|[-> ->]]%Hp.
      * by eapply Hall.
      * apply elem_of_app. right. left.
    + rewrite (tags_known _ _ _ i) by done. apply NoDup_app. split_and!; [done..|by constructor].
Qed.

Lemma add_ident_unknown r effects i e :
  eff_Unknown e = true → e ∈ add_ident r effects i ↔ e ∈ effects.
Proof.
  intros Hu. destruct (add_ident_cases r effects i) as [[_ ->]|(l1 & e' & l2 & -> & [Hk _] & ->)].
  - rewrite elem_of_app, list_elem_of_singleton. split; [|by left]. by intros [?| ->].
  - destruct (bump_known r e') as (Hb & _). rewrite !elem_of_app, !elem_of_cons.
    split; intros [?|[->|?]]; auto; congruence.
Qed.

Section finish.
Context (g : ProjectGraph).

Definition op_idents (r : reachedOp) : list string := default [] (grant_effects g (r_grant r)).
Definition op_pairs (l : list reachedOp) : list (reachedOp * string) :=
  r ← l; (λ i, (r, i)) <$> op_idents r.

Lemma elem_of_op_pairs l r i : (r, i) ∈ op_pairs l ↔ r ∈ l ∧ i ∈ op_idents r.
Proof.
  unfold op_pairs. rewrite list_elem_of_bind. setoid_rewrite list_elem_of_fmap. split.
  - by intros (q & (j & [= -> ->] & Hj) & Hq).
  - intros [Hr Hi]. exists r. split; [by exists i|done].
Qed.

Lemma add_idents_inv pairs effects r l :
  idents_inv pairs effects →
  (∀ r' i, (r', i) ∈ pairs → g_uses (r_grant r') = g_uses (r_grant r) → r' = r) →
  idents_inv (pairs ++ ((λ i, (r, i)) <$> l)) (foldl (add_ident r) effects l).
Proof.
  revert pairs effects. induction l as [|i l IH]; intros pairs effects Hinv Hr; simpl.
  - by rewrite app_nil_r.
  - rewrite cons_middle, app_assoc. apply IH.
    + apply add_ident_inv; [done|]. intros r' Hp. by eapply Hr.
    + intros r' j [Hp|[= -> ->]%list_elem_of_singleton]%elem_of_app; [by eapply Hr|done].
Qed.

Record ops_inv (l : list reachedOp) (effects : list Effect) : Prop := {
  oi_idents : idents_inv (op_pairs l) effects;
  oi_unknown : ∀ e, eff_Unknown e = true →
    e ∈ effects ↔ ∃ r, r ∈ l ∧ grant_effects g (r_grant r) = None ∧ e = unknown_effect r;
  }.

Lemma add_op_inv l effects r :
  ops_inv l effects →
  (∀ r', r' ∈ l → g_uses (r_grant r') = g_uses (r_grant r) → r' = r) →
  ops_inv (l ++ [r]) (add_op g effects r).
Proof.
  intros [Hi Hu] Hr. unfold add_op.
  assert (op_pairs (l ++ [r]) = op_pairs l ++ ((λ i, (r, i)) <$> op_idents r)) as Hpairs.
  { unfold op_pairs. rewrite bind_app. simpl. by rewrite app_nil_r. }
  unfold op_idents in Hpairs. destruct (grant_effects g (r_grant r)) as [idents|] eqn:Eg; simpl in Hpairs.
  - split.
    + rewrite Hpairs. apply add_idents_inv; [done|].
      intros r' i [Hin _]%elem_of_op_pairs. by apply Hr.
    + intros e He. setoid_rewrite elem_of_app. setoid_rewrite list_elem_of_singleton.
      assert (e ∈ foldl (add_ident r) effects idents ↔ e ∈ effects) as ->.
      { clear -He. revert effects. induction idents as [|i idents IH]; intros effects; simpl; [done|].
        by rewrite IH, add_ident_unknown. }
      rewrite (Hu e He). split; [naive_solver|]. intros (q & [Hq| ->] & Hn & ->); [eauto|congruence].
  - rewrite app_nil_r in Hpairs. split.
    + rewrite Hpairs. destruct Hi as [Hocc Hall Huniq]. split.
      * intros e [He|He%list_elem_of_singleton]%elem_of_app Hk; [auto|by subst e].
      * intros q i Hq. rewrite tags_app. apply elem_of_app. left. by eapply Hall.
      * rewrite tags_app. simpl. by rewrite app_nil_r.
    + intros e He. rewrite elem_of_app, list_elem_of_singleton, (Hu e He).
      setoid_rewrite elem_of_app. setoid_rewrite list_elem_of_singleton. split.
      * intros [(q & Hq & Hn & ->)| ->]; eauto.
      * intros (q & [Hq| ->] & Hn & ->); [left; eauto|by right].
Qed.

Lemma add_ops_inv l :
  NoDup ((λ r, g_uses (r_grant r)) <$> l) → ops_inv l (foldl (add_op g) [] l).
Proof.
  induction l as [|r l IH] using rev_ind; intros Hnd; simpl.
  { split; [split|].
    - by intros e ?%elem_of_nil.
    - intros r i [Hr _]%elem_of_op_pairs. by apply elem_of_nil in Hr.
    - constructor.
    - intros e _. split; [by intros ?%elem_of_nil|]. by intros (r & ?%elem_of_nil & _). }
  rewrite fmap_app in Hnd. apply NoDup_app in Hnd as (Hnd & Hdis & _).
  rewrite foldl_app. simpl. apply add_op_inv; [by apply IH|].
  intros r' Hr' Hu. destruct (Hdis (g_uses (r_grant r'))).
  - apply list_elem_of_fmap. by exists r'.
  - simpl. rewrite Hu. left.
Qed.

(** *** The bound of a set of witnessed operations

    [R reach gr hops] is the specification of what the walker recorded. *)
Context (R : Reachability → grant → list Hop → Prop) (reached : list reachedOp).
Hypothesis R_reach : ∀ reach gr hops, R reach gr hops → pathReachability hops = reach.
Hypothesis R_canon : ∀ reach gr hops, R reach gr hops → canon gr.
Hypothesis R_sound : ∀ r, r ∈ reached → ∃ reach, R reach (r_grant r) (r_witness r).
Hypothesis R_complete : ∀ reach gr hops, R reach gr hops →
  ∃ r, r ∈ reached ∧ r_grant r = gr ∧ pathReachability (r_witness r) = reach.

(** The operations that have the effect [i] ([None] for the unknown one). *)
Definition has_effect (i : option string) (gr : grant) : Prop :=
  match i, grant_effects g gr with
  | None, None => True
  | Some i, Some l => i ∈ l
  | _, _ => False
  end.

Record bound_exact (b : Bound) : Prop := {
  be_unknown : ∀ u, (∃ e, e ∈ bound_Effects b ∧ eff_Unknown e = true ∧ eff_Uses e = u) ↔
    ∃ reach gr hops, R reach gr hops ∧ has_effect None gr ∧ g_uses gr = u;
  be_unknown_occ : ∀ e, e ∈ bound_Effects b → eff_Unknown e = true → eff_occurrences e = [];
  be_known : ∀ i, (∃ e, e ∈ bound_Effects b ∧ known e i) ↔
    ∃ reach gr hops, R reach gr hops ∧ has_effect (Some i) gr;
  be_occ : ∀ e i, e ∈ bound_Effects b → known e i →
    ∀ u, (∃ o, o ∈ eff_occurrences e ∧ occ_uses o = u) ↔
      ∃ reach gr hops, R reach gr hops ∧ has_effect (Some i) gr ∧ g_uses gr = u;
  be_witness : ∀ e i, e ∈ bound_Effects b → known e i →
    ∃ reach gr, R reach gr (eff_Witness e) ∧ g_uses gr = eff_Uses e ∧ has_effect (Some i) gr;
  be_path_max : ∀ e i, e ∈ bound_Effects b → known e i → path_max e;
  be_autonomous : ∀ e i, e ∈ bound_Effects b → known e i →
    (pathReachability (eff_Witness e) = Autonomous ↔
     ∃ gr hops, R Autonomous gr hops ∧ has_effect (Some i) gr);
  be_uniq : NoDup (tags (bound_Effects b));
  }.

Lemma finish_exact kind name : bound_exact (finish g kind name reached).
Proof.
  destruct (first_reached_spec reached) as (Hnd & Hin & Hcov).
  set (first := first_reached reached) in *. set (l := first.*2).
  assert (∀ r, r ∈ l ↔ (reached_key r, r) ∈ first) as Hl.
  { intros r. unfold l. rewrite list_elem_of_fmap. split.
    - intros ([k q] & -> & Hq). simpl. by destruct (Hin _ _ Hq) as [-> _].
    - intros Hr. by exists (reached_key r, r). }
  assert (∀ r, r ∈ l → ∃ reach, R reach (r_grant r) (r_witness r)) as Hsound.
  { intros r Hr. apply R_sound. apply Hl in Hr. by destruct (Hin _ _ Hr). }
  assert (∀ reach gr hops, R reach gr hops →
    ∃ r, r ∈ l ∧ r_grant r = gr ∧ (reach = Autonomous → autonomous r)) as Hcomplete.
  { intros reach gr hops HR. destruct (R_complete _ _ _ HR) as (r & Hr & <- & Hpr).
    destruct (Hcov r Hr) as (r' & Hr' & Ha). destruct (Hin _ _ Hr') as [Hk Hr'l].
    destruct (R_sound r' Hr'l) as [reach' HR'].
    pose proof (R_canon _ _ _ HR) as Hc. pose proof (R_canon _ _ _ HR') as Hc'.
    exists r'. rewrite Hl, <-Hk. split_and!; [done| |intros ->; by apply Ha].
    rewrite !canon_key in Hk by done. destruct Hc as [-> _], Hc' as [-> _]. congruence. }
  assert (ops_inv l (foldl (add_op g) [] l)) as [[Hocc Hall Huniq] Hunk].
  { apply add_ops_inv. replace (_ <$> l) with first.*1; [done|].
    unfold l. rewrite <-list_fmap_compose. apply list_fmap_ext. intros i [k r] Hi. simpl.
    apply list_elem_of_lookup_2 in Hi. destruct (Hin _ _ Hi) as [-> Hr].
    destruct (R_sound r Hr) as [reach HR]. apply canon_key. by eapply R_canon. }
  set (E := foldl (add_op g) [] l) in *.
  assert (∀ r i, i ∈ op_idents r ↔ has_effect (Some i) (r_grant r)) as Hid.
  { intros r i. unfold op_idents, has_effect. destruct (grant_effects g (r_grant r)); simpl; [done|].
    split; [by intros ?%elem_of_nil|done]. }
  assert (∀ r, grant_effects g (r_grant r) = None ↔ has_effect None (r_grant r)) as Hno.
  { intros r. unfold has_effect. by destruct (grant_effects g (r_grant r)). }
  assert (∀ e i, e ∈ E → known e i → ∀ o, o ∈ eff_occurrences e ↔
    ∃ r, r ∈ l ∧ has_effect (Some i) (r_grant r) ∧ o = occ_of r) as Ho.
  { intros e i He [Hu <-] o. destruct (Hocc e He Hu) as [-> _]. setoid_rewrite elem_of_op_pairs.
    setoid_rewrite Hid. naive_solver. }
  assert (∀ e, e ∈ bound_Effects (finish g kind name reached) ↔ e ∈ E) as HE.
  { intros e. unfold finish. simpl. apply elem_of_sort_by. }
  split; try setoid_rewrite HE.
  - intros u. split.
    + intros (e & He & Hu & <-). apply Hunk in He as (r & Hr & Hn & ->); [|done].
      destruct (Hsound r Hr) as [reach HR]. exists reach, (r_grant r), (r_witness r).
      by rewrite <-Hno.
    + intros (reach & gr & hops & HR & Hn & Hu). destruct (Hcomplete _ _ _ HR) as (r & Hr & <- & _).
      exists (unknown_effect r). split_and!; [|done|done]. apply Hunk; [done|]. exists r.
      by rewrite Hno.
  - intros e He Hu. by apply Hunk in He as (r & _ & _ & ->).
  - intros i. rewrite <-elem_of_tags. split.
    + intros (e & He & Hk)%elem_of_tags. destruct Hk as [Hu Hi].
      destruct (Hocc e He Hu) as [Hoe [Hw _]]. apply Hoe in Hw as (r & Hr & _).
      rewrite Hi in Hr. apply elem_of_op_pairs in Hr as [Hr Hir].
      destruct (Hsound r Hr) as [reach HR]. exists reach, (r_grant r), (r_witness r). by rewrite <-Hid.
    + intros (reach & gr & hops & HR & Hi). destruct (Hcomplete _ _ _ HR) as (r & Hr & <- & _).
      apply (Hall r). apply elem_of_op_pairs. by rewrite Hid.
  - intros e i He Hk u. setoid_rewrite (Ho e i He Hk). split.
    + intros (o & (r & Hr & Hi & ->) & <-). destruct (Hsound r Hr) as [reach HR].
      by exists reach, (r_grant r), (r_witness r).
    + intros (reach & gr & hops & HR & Hi & Hu). destruct (Hcomplete _ _ _ HR) as (r & Hr & <- & _).
      exists (occ_of r). split; [by exists r|done].
  - intros e i He Hk. destruct (Hocc e He (proj1 Hk)) as [_ [Hw _]].
    apply (Ho e i He Hk) in Hw as (r & Hr & Hi & [= -> ->]).
    destruct (Hsound r Hr) as [reach HR]. by exists reach, (r_grant r).
  - intros e i He Hk. by destruct (Hocc e He (proj1 Hk)) as [_ ?].
  - intros e i He Hk. destruct (Hocc e He (proj1 Hk)) as [_ [Hw Hmax]]. split.
    + intros Ha. apply (Ho e i He Hk) in Hw as (r & Hr & Hi & [= Hu Hwt]).
      destruct (Hsound r Hr) as [reach HR]. exists (r_grant r), (r_witness r). split; [|done].
      rewrite <-Hwt in HR |- *. by rewrite (R_reach _ _ _ HR) in Ha; subst reach.
    + intros (gr & hops & HR & Hi). destruct (Hcomplete _ _ _ HR) as (r & Hr & <- & Hra).
      apply Hmax. exists (occ_of r). split; [apply (Ho e i He Hk); by exists r|by apply Hra].
  - apply (NoDup_Permutation_proper (tags E)); [|done].
    unfold tags, finish. simpl. apply omap_Permutation. symmetry. apply sort_by_Permutation.
Qed.

End finish.

(** *** Bounds of agents and workflows *)

(** No name of an agent is empty or reads as a uses string. *)
Definition plain (name : string) : Prop := name ≠ "" ∧ ParseUses name = None.
Definition plain_names (g : ProjectGraph) : Prop :=
  (∀ k a, pg_Agents g !! k = Some a → plain k ∧ plain (agent_Name a)) ∧
  (∀ k wf st, pg_Workflows g !! k = Some wf → st ∈ wf_Steps wf →
     ParseUses (trim_space (step_Agent st)) = None).

Lemma unknown_canon name : name ≠ "" → ParseUses name = None → canon (mkGrant "" "" name true).
Proof. intros Hne Hp. split; [|done]. simpl. unfold parseGrant. by rewrite Hp. Qed.

Lemma nonblank_spec l s : s ∈ nonblank l → s ≠ "".
Proof.
  unfold nonblank. rewrite elem_of_filter_bool. intros [_ ?]. by bool_inv.
Qed.

Lemma uses_of_ne name op : uses_of name op ≠ "".
Proof. done. Qed.

Lemma resolve_entry_uses tools entry name uses :
  resolve_entry tools entry = Ok (name, uses) → uses ≠ "".
Proof.
  unfold resolve_entry. intros H. res_inv. destruct (tools !! a.1) as [ts|]; [|done].
  destruct (String.eqb_spec a.2 "") as [Hp|Hp]; res_inv; simplify_eq; [|done].
  unfold advertisedAgentUses in *. repeat case_match; simplify_eq; apply uses_of_ne.
Qed.

Lemma advertised_uses agent tools out a :
  ResolveAgentAdvertisedTools (Some agent) tools = Ok out → a ∈ out → adv_Uses a ≠ "".
Proof.
  unfold ResolveAgentAdvertisedTools. intros H Ha. destruct (agent_Tools agent) as [|e l].
  { injection H as <-. by apply elem_of_nil in Ha. }
  destruct tools as [tools|]; [|done]. res_inv. rename a0 into es.
  apply name_entries_spec in H as (Hu & _).
  assert (adv_Uses a ∈ (dedup snd es).*2) as Hin.
  { rewrite <-Hu. apply list_elem_of_fmap. by exists a. }
  apply list_elem_of_fmap in Hin as ([n u] & -> & [Hin _]%elem_of_dedup_go). simpl.
  apply res_traverse_Forall2 in Ha0. apply list_elem_of_lookup in Hin as [i Hi].
  destruct (Forall2_lookup_r _ _ _ _ _ Ha0 Hi) as (x & _ & Hx). by eapply resolve_entry_uses.
Qed.

Lemma agent_grants_canon g name gr :
  plain_names g → name ≠ "" → ParseUses name = None → gr ∈ agent_grants_of g name → canon gr.
Proof.
  intros [Hag _] Hne Hp. unfold agent_grants_of.
  destruct (pg_Agents g !! name) as [agent|] eqn:Ea.
  - unfold advertisedGrants. destruct (ResolveAgentAdvertisedTools _ _) as [listed|] eqn:Er.
    + intros (a & -> & Ha)%list_elem_of_fmap. apply parseGrant_canon. by eapply advertised_uses.
    + assert (∀ gr, gr ∈ parseGrant <$> nonblank (agent_Tools agent) → canon gr) as Hraw.
      { intros gr' (s & -> & Hs)%list_elem_of_fmap. by eapply parseGrant_canon, nonblank_spec. }
      destruct (parseGrant <$> _) as [|gr0 l]; [|apply Hraw].
      intros ->%list_elem_of_singleton. destruct (Hag _ _ Ea) as [_ []]. by apply unknown_canon.
  - intros ->%list_elem_of_singleton. by apply unknown_canon.
Qed.

Lemma step_grant_canon g k wf st reach mid gr :
  plain_names g → pg_Workflows g !! k = Some wf → st ∈ wf_Steps wf →
  step_grant g st reach mid gr → canon gr.
Proof.
  intros Hpl Hwf Hst. destruct 1 as [Hne|gr Hne Hgr]; [by apply parseGrant_canon|].
  eapply agent_grants_canon; try done. by eapply (proj2 Hpl).
Qed.

(** The specification of an agent root: its grants, all autonomous. *)
Definition agent_witnessed (g : ProjectGraph) (name : string) (reach : Reachability) (gr : grant)
    (hops : list Hop) : Prop :=
  reach = Autonomous ∧ gr ∈ agent_grants_of g name ∧
  hops = [mkHop KindAgent name "" Static; tool_hop gr Autonomous].

Lemma boundWorkflow_bound g calls root :
  plain_names g → bound_exact g (witnessed g calls root) (boundWorkflow g calls root).
Proof.
  intros Hpl. apply finish_exact.
  - intros reach gr hops. apply witnessed_reachability.
  - intros reach gr hops (n & p & wf & st & mid & _ & Hwf & Hst & Hg & _). by eapply step_grant_canon.
  - apply walk_root_sound.
  - intros reach gr hops Hw. apply (walk_root_complete g calls root reach gr). by exists hops.
Qed.

Lemma boundAgent_bound g name :
  plain_names g → plain name → bound_exact g (agent_witnessed g name) (boundAgent g name).
Proof.
  intros Hpl [Hne Hp]. apply finish_exact.
  - by intros reach gr hops (-> & _ & ->).
  - intros reach gr hops (_ & Hgr & _). by eapply agent_grants_canon.
  - intros r [Hr|(gr & Hgr & ->)]%walkAgent_reached; [by apply elem_of_nil in Hr|].
    by exists Autonomous.
  - intros reach gr hops (-> & Hgr & ->).
    destruct (walkAgent_complete g ∅ name [mkHop KindAgent name "" Static] newWalker) as (_ & _ & Hall).
    + by repeat constructor.
    + split_and!; try done; intros; set_solver.
    + by apply Hall.
Qed.

(** C23: The effects of a workflow's bound are exact: an identifier is in it if and
    only if some operation reachable from the workflow, through any chain of
    [workflow:] steps, has it, and a fail-closed unknown entry is there for
    exactly the reachable operations whose effects are not declared. *)
Theorem boundWorkflow_exact g root :
  plain_names g →
  (∀ i, (∃ e, e ∈ bound_Effects (boundWorkflow g ∅ root) ∧ known e i) ↔
    ∃ reach gr hops, witnessed g ∅ root reach gr hops ∧ has_effect g (Some i) gr) ∧
  (∀ u, (∃ e, e ∈ bound_Effects (boundWorkflow g ∅ root) ∧ eff_Unknown e = true ∧ eff_Uses e = u) ↔
    ∃ reach gr hops, witnessed g ∅ root reach gr hops ∧ has_effect g None gr ∧ g_uses gr = u).
Proof. intros Hpl. pose proof (boundWorkflow_bound g ∅ root Hpl) as []. done. Qed.

(** The witness of an effect is a path of the graph to an operation that has
    the effect, and it is an autonomous path if and only if some autonomous
    path from the root reaches the effect (path-max). *)
Theorem boundWorkflow_witness g root e i :
  plain_names g → e ∈ bound_Effects (boundWorkflow g ∅ root) → known e i →
  (∃ reach gr, witnessed g ∅ root reach gr (eff_Witness e) ∧ g_uses gr = eff_Uses e ∧
     has_effect g (Some i) gr) ∧
  (pathReachability (eff_Witness e) = Autonomous ↔
   ∃ gr hops, witnessed g ∅ root Autonomous gr hops ∧ has_effect g (Some i) gr).
Proof. intros Hpl He Hk. pose proof (boundWorkflow_bound g ∅ root Hpl) as []. eauto. Qed.

(** *** An example project: a workflow calls a second one, whose agent may merge *)

Definition demo_tools : gmap string ToolSpec :=
  {[ "gh" := mkToolSpec "mcp" (Some (mkToolSafety (Some true) (Some false) None))
       {[ "get" := mkToolOperation ["github.read"] "";
          "merge" := mkToolOperation ["github.write"; "github.read"] "" ]} true ]}.
Definition demo_agent : AgentSpec := mkAgentSpec "rev" ["tool.gh.merge"] "".
Definition demo_main : WorkflowSpec := mkWorkflowSpec "ci"
  [mkWorkflowStep "fetch" "tool.gh.get" "" ""; mkWorkflowStep "go" "" "" "sub"].
Definition demo_sub : WorkflowSpec := mkWorkflowSpec "ci"
  [mkWorkflowStep "review" "" "rev" ""; mkWorkflowStep "again" "" "" "main"].
Definition demo_graph (policies : gmap string PolicySpec) : ProjectGraph :=
  mkProjectGraph {[ "rev" := demo_agent ]} {[ "main" := demo_main; "sub" := demo_sub ]}
    (Some demo_tools) policies "".

Lemma demo_plain policies : plain_names (demo_graph policies).
Proof.
  split.
  - intros k a Ha. simpl in Ha. apply lookup_singleton_Some in Ha as [<- <-]. done.
  - intros k wf st Hwf Hst. simpl in Hwf.
    apply lookup_insert_Some in Hwf as [[<- <-]|[_ [<- <-]%lookup_singleton_Some]];
      repeat (apply elem_of_cons in Hst as [->|Hst]; [reflexivity|]); by apply elem_of_nil in Hst.
Qed.

Definition demo_witness : list Hop :=
  [workflow_hop "main"; mkHop KindStep "go" "go" Static; workflow_hop "sub";
   mkHop KindStep "review" "review" Static; mkHop KindAgent "rev" "" Static;
   mkHop KindToolOperation "tool.gh.merge" "" Autonomous].

Definition demo_effect : Effect :=
  mkEffect "github.write" false "tool.gh.merge" demo_witness
    [mkOccurrence "tool.gh.merge" demo_witness].

Lemma demo_effect_in : demo_effect ∈ bound_Effects (boundWorkflow (demo_graph ∅) ∅ "main").
Proof. apply (list_elem_of_lookup_2 _ 1). vm_compute. reflexivity. Qed.

Lemma boundWorkflow_exact_witness :
  ∃ reach gr hops, witnessed (demo_graph ∅) ∅ "main" reach gr hops ∧
    has_effect (demo_graph ∅) (Some "github.write") gr.
Proof.
  apply (proj1 (boundWorkflow_exact (demo_graph ∅) "main" (demo_plain ∅))).
  exists demo_effect. split; [exact demo_effect_in|split; reflexivity].
Defined.

Lemma boundWorkflow_witness_witness :
  ∃ reach gr, witnessed (demo_graph ∅) ∅ "main" reach gr demo_witness.
Proof.
  destruct (boundWorkflow_witness (demo_graph ∅) "main" demo_effect "github.write" (demo_plain ∅)
    demo_effect_in (conj eq_refl eq_refl)) as [(reach & gr & Hw & _) _].
  exists reach, gr. exact Hw.
Defined.
