(* ===== verification/EffectsCheck.v ===== *)
(** * Enforcement of effect bounds ([internal/effects/enforce.go], [assert.go])

    [Check] compares the bound of every root with the effects block of its
    policy; [Evaluate] checks capability assertions on the same bounds.  Errors
    are lists: [errors.Join] of no error is nil.  The rendering of a violation
    ([Error], [FormatWitness]) is text output and is not modelled; the reasons
    of assertion violations are values of [assert_detail]. *)

From S2P Require Import Prelude GoText SpecTools SpecPolicy EffectsCompute.

(** ** [enforce.go] *)

Record Violation := mkViolation {
  v_Policy : string;
  v_RootKind : HopKind;
  v_RootName : string;
  v_Ident : string;
  v_Unknown : bool;
  v_Uses : string;
  v_Witness : list Hop;
  v_Permits : string;
  v_RuleApplied : string;
}.

Definition anyDeclaredToolEffects (g : ProjectGraph) : bool :=
  existsb (λ kv, match ResolveToolEffects (Some kv.2) with Some _ => true | None => false end)
    (map_to_list (tools_of g)).

Definition workflowAgentNames (g : ProjectGraph) : list string :=
  kv ← map_to_list (pg_Workflows g); nonblank (step_Agent <$> wf_Steps kv.2).

Definition lookupPolicy (g : ProjectGraph) (name : string) : string * option PolicySpec :=
  let name := trim_space name in
  if (name =? "")%string then ("(none)", None) else (name, pg_Policies g !! name).
Definition policyFor (g : ProjectGraph) (wf : WorkflowSpec) : string * option PolicySpec :=
  lookupPolicy g (trim_space (wf_Policy wf)).
Definition policyForAgent (g : ProjectGraph) (a : AgentSpec) : string * option PolicySpec :=
  lookupPolicy g (trim_space (agent_Policy a)).

Definition permitLists (pol : option PolicySpec) : list string * list string :=
  match pol ≫= pol_Effects with
  | None => ([], [])
  | Some e => (pe_Permit e, pe_PermitWithApproval e)
  end.

Definition identCovered (l : list string) (ident : string) : bool :=
  let ident := trim_space ident in
  if (ident =? "")%string then false else existsb (λ p, EffectCovers p ident) l.

Definition displayPermits (permit withApproval : list string) : string :=
  let parts := permit ++
    match withApproval with [] => [] | _ => ["permitWithApproval: " +:+ join ", " withApproval] end in
  match parts with [] => "(none)" | _ => join ", " parts end.

Definition witnessingRequiresApproval (g : ProjectGraph) (pol : option PolicySpec) (uses : string)
    : bool :=
  let approvals := pol ≫= pol_Approvals in
  if ApprovalPermissive approvals then false
  else if ApprovalRequireAllTools approvals then true
  else if existsb (λ r, (trim_space r =? trim_space uses)%string)
            (default [] (pa_RequiredFor <$> approvals)) then true
  else match ParseUses uses with
       | None => true
       | Some (tn, _) => rs_RequiresApproval (ResolveToolSafety (tools_of g !! tn ≫= tool_Safety))
       end.

Definition occurrencesOf (e : Effect) : list effectOccurrence :=
  match eff_occurrences e with
  | [] => if (trim_space (eff_Uses e) =? "")%string then []
          else [mkOccurrence (eff_Uses e) (eff_Witness e)]
  | occs => occs
  end.

Definition firstOccurrenceRequiringApproval (g : ProjectGraph) (pol : option PolicySpec) (e : Effect)
    : option effectOccurrence :=
  List.find (λ occ, witnessingRequiresApproval g pol (occ_uses occ)) (occurrencesOf e).

(** The violation of one effect of a bound, if any. *)
Definition checkEffect (g : ProjectGraph) (b : Bound) (policyName : string) (pol : option PolicySpec)
    (e : Effect) : option Violation :=
  let '(permit, withApproval) := permitLists pol in
  let violation ident unknown uses witness rule :=
    mkViolation policyName (bound_RootKind b) (bound_RootName b) ident unknown uses witness
      (displayPermits permit withApproval) rule in
  if eff_Unknown e then Some (violation "" true (eff_Uses e) (eff_Witness e) "")
  else
    let inPermit := identCovered permit (eff_Ident e) in
    let inApproval := identCovered withApproval (eff_Ident e) in
    if negb inPermit && negb inApproval then
      Some (violation (eff_Ident e) false (eff_Uses e) (eff_Witness e) "")
    else if inApproval then None
    else match firstOccurrenceRequiringApproval g pol e with
         | Some occ => Some (violation (eff_Ident e) false (occ_uses occ) (occ_witness occ) "requiresApproval")
         | None => None
         end.

Definition checkBound (g : ProjectGraph) (b : Bound) (policyName : string) (pol : option PolicySpec)
    : list Violation :=
  omap (checkEffect g b policyName pol) (bound_Effects b).

Definition empty_bound : Bound := mkBound KindWorkflow "" [] [].

Definition Check (g : ProjectGraph) : list Violation :=
  if negb (anyDeclaredToolEffects g) then []
  else
    let bounds := Compute g in
    let usedAgents := workflowAgentNames g in
    (name ← sorted_keys (pg_Workflows g);
     match pg_Workflows g !! name with
     | None => []
     | Some wf =>
         let '(polName, pol) := policyFor g wf in
         checkBound g (default empty_bound (gb_Workflows bounds !! name)) polName pol
     end) ++
    (name ← sorted_keys (pg_Agents g);
     if str_mem name usedAgents then []
     else match pg_Agents g !! name with
          | None => []
          | Some a =>
              let '(polName, pol) := policyForAgent g a in
              checkBound g (default empty_bound (gb_Agents bounds !! name)) polName pol
          end).

(** ** [assert.go] *)

Record RootEffect := mkRootEffect { re_Root : string; re_Effect : string }.
Record CapabilityAssertions := mkCapabilityAssertions {
  ForbidEffect : list RootEffect; ExpectAutonomous : list RootEffect; ExpectGated : list string
}.

Inductive assert_kind := forbidEffect | expectAutonomous | expectGated.
Inductive assert_detail :=
  | MalformedIdent (ident : string) (err : ident_error)
  | UndeclaredIdent (ident : string)
  | RootNotFound (root : string)
  | ForbiddenReached (kind : HopKind) (root effect witness : string)
  | CannotReach (kind : HopKind) (root effect : string)
  | OnlyStatic (kind : HopKind) (root effect : string)
  | NotReachable (uses : string)
  | NotGated (uses root : string).
Record AssertViolation := mkAssertViolation { av_Kind : assert_kind; av_Detail : assert_detail }.

Definition Empty (a : CapabilityAssertions) : bool :=
  (length (ForbidEffect a) + length (ExpectAutonomous a) + length (ExpectGated a) =? 0)%nat.

Definition boundForRoot (gb : GraphBounds) (name : string) : option Bound :=
  let name := trim_space name in
  match gb_Agents gb !! name with
  | Some b => Some b
  | None => gb_Workflows gb !! name
  end.

(** Two identifiers related in the dotted hierarchy. *)
Definition related (a b : string) : bool := (a =? b)%string || EffectCovers b a || EffectCovers a b.

Definition effectByIdent (b : Bound) (ident : string) : option Effect :=
  let ident := trim_space ident in
  List.find (λ e, negb (eff_Unknown e) && related (eff_Ident e) ident) (bound_Effects b).

Definition declaredEffectIdents (g : ProjectGraph) : list string :=
  dedup id (kv ← map_to_list (tools_of g);
    match ResolveToolEffects (Some kv.2) with
    | None => []
    | Some byOp => oe ← map_to_list byOp; nonblank oe.2
    end).

Definition effectIdentRecognized (ident : string) (vocab : list string) : bool :=
  let ident := trim_space ident in existsb (λ d, related d ident) vocab.

Definition witnessIsAutonomous (hops : list Hop) : bool :=
  existsb (λ h, bool_decide (hop_Reachability h = Autonomous)) hops.
Definition hasAutonomousWitness (e : Effect) : bool :=
  witnessIsAutonomous (eff_Witness e) ||
  existsb (λ o, witnessIsAutonomous (occ_witness o)) (eff_occurrences e).

Definition witnessString (e : Effect) : string :=
  let u := trim_space (eff_Uses e) in
  if negb (u =? "")%string then u
  else match List.find (λ h, bool_decide (hop_Kind h = KindToolOperation) &&
                negb (trim_space (hop_Name h) =? "")%string) (eff_Witness e) with
       | Some h => hop_Name h
       | None => "reachable"
       end.

(** The roots [gatingStatus] and [Check] visit, with bound and policy. *)
Definition gating_roots (g : ProjectGraph) (bounds : GraphBounds) : list (string * Bound * option PolicySpec) :=
  (name ← sorted_keys (pg_Workflows g);
   match pg_Workflows g !! name with
   | None => []
   | Some wf => [(name, default empty_bound (gb_Workflows bounds !! name), (policyFor g wf).2)]
   end) ++
  (name ← sorted_keys (pg_Agents g);
   if str_mem name (workflowAgentNames g) then []
   else match pg_Agents g !! name with
        | None => []
        | Some a => [(name, default empty_bound (gb_Agents bounds !! name), (policyForAgent g a).2)]
        end).

Definition gating_visit (g : ProjectGraph) (uses : string) (acc : bool * string)
    (root : string * Bound * option PolicySpec) : bool * string :=
  let '(name, b, pol) := root in
  foldl (λ acc e, foldl (λ acc occ,
      if negb (trim_space (occ_uses occ) =? uses)%string then acc
      else (true, if (acc.2 =? "")%string && negb (witnessingRequiresApproval g pol uses)
                  then name else acc.2)) acc (occurrencesOf e)) acc (bound_Effects b).

Definition gatingStatus (g : ProjectGraph) (bounds : GraphBounds) (uses : string) : bool * string :=
  foldl (gating_visit g uses) (false, "") (gating_roots g bounds).

Definition identViolation (vocab : list string) (ident : string) : option assert_detail :=
  let ident := trim_space ident in
  match ValidateEffectIdent ident with
  | Err err => Some (MalformedIdent ident err)
  | Ok _ => if effectIdentRecognized ident vocab then None else Some (UndeclaredIdent ident)
  end.

Definition forbid_violation (bounds : GraphBounds) (vocab : list string) (re : RootEffect)
    : option assert_detail :=
  match identViolation vocab (re_Effect re) with
  | Some v => Some v
  | None =>
      match boundForRoot bounds (re_Root re) with
      | None => Some (RootNotFound (re_Root re))
      | Some b =>
          match effectByIdent b (re_Effect re) with
          | None => None
          | Some e => Some (ForbiddenReached (bound_RootKind b) (re_Root re) (re_Effect re) (witnessString e))
          end
      end
  end.

Definition autonomous_violation (bounds : GraphBounds) (vocab : list string) (re : RootEffect)
    : option assert_detail :=
  match identViolation vocab (re_Effect re) with
  | Some v => Some v
  | None =>
      match boundForRoot bounds (re_Root re) with
      | None => Some (RootNotFound (re_Root re))
      | Some b =>
          match effectByIdent b (re_Effect re) with
          | None => Some (CannotReach (bound_RootKind b) (re_Root re) (re_Effect re))
          | Some e => if hasAutonomousWitness e then None
                      else Some (OnlyStatic (bound_RootKind b) (re_Root re) (re_Effect re))
          end
      end
  end.

Definition gated_violation (g : ProjectGraph) (bounds : GraphBounds) (uses : string)
    : option assert_detail :=
  let uses := trim_space uses in
  let '(reachable, ungatedRoot) := gatingStatus g bounds uses in
  if negb reachable then Some (NotReachable uses)
  else if negb (ungatedRoot =? "")%string then Some (NotGated uses ungatedRoot) else None.

Definition Evaluate (a : CapabilityAssertions) (g : ProjectGraph) : list AssertViolation :=
  let bounds := Compute g in
  let vocab := declaredEffectIdents g in
  (mkAssertViolation forbidEffect <$> omap (forbid_violation bounds vocab) (ForbidEffect a)) ++
  (mkAssertViolation expectAutonomous <$> omap (autonomous_violation bounds vocab) (ExpectAutonomous a)) ++
  (mkAssertViolation expectGated <$> omap (gated_violation g bounds) (ExpectGated a)).

(** ** Properties *)

Lemma omap_nil {A B} (f : A → option B) l : omap f l = [] ↔ ∀ x, x ∈ l → f x = None.
Proof.
  split.
  - intros H x Hx. destruct (f x) as [y|] eqn:E; [|done].
    assert (y ∈ omap f l) as Hy by (apply list_elem_of_omap; by exists x).
    rewrite H in Hy. by apply elem_of_nil in Hy.
  - induction l as [|x l IH]; intros H; simpl; [done|].
    rewrite (H x) by left. apply IH. intros y Hy. apply H. by right.
Qed.

Lemma find_None {A} (f : A → bool) l : List.find f l = None ↔ ∀ x, x ∈ l → f x = false.
Proof.
  setoid_rewrite list_elem_of_In. split; [by apply find_none|].
  intros H. destruct (List.find f l) eqn:E; [|done]. apply find_some in E as [Hi Hf].
  specialize (H _ Hi). congruence.
Qed.

(** Every operation of a root has known effects, each of them permitted with
    approval, or permitted unattended on an operation that needs none. *)
Definition root_permitted (g : ProjectGraph) (pol : option PolicySpec)
    (R : Reachability → grant → list Hop → Prop) : Prop :=
  ∀ reach gr hops, R reach gr hops →
    ∃ l, grant_effects g gr = Some l ∧ ∀ i, i ∈ l →
      identCovered (permitLists pol).2 i = true ∨
      (identCovered (permitLists pol).1 i = true ∧
       witnessingRequiresApproval g pol (g_uses gr) = false).

Section bound.
Context (g : ProjectGraph) (R : Reachability → grant → list Hop → Prop) (b : Bound).
Hypothesis Hb : bound_exact g R b.

Lemma occurrencesOf_known e i :
  e ∈ bound_Effects b → known e i → occurrencesOf e = eff_occurrences e.
Proof.
  intros He Hk. unfold occurrencesOf. destruct (eff_occurrences e) eqn:Eo; [|done].
  destruct (be_witness _ _ _ Hb e i He Hk) as (reach & gr & HR & Hu & Hi).
  destruct (proj2 (be_occ _ _ _ Hb e i He Hk (eff_Uses e))) as (o & Ho & _); [by eauto 10|].
  rewrite Eo in Ho. by apply elem_of_nil in Ho.
Qed.

Lemma first_occurrence_None pol e i :
  e ∈ bound_Effects b → known e i →
  firstOccurrenceRequiringApproval g pol e = None ↔
  ∀ reach gr hops, R reach gr hops → has_effect g (Some i) gr →
    witnessingRequiresApproval g pol (g_uses gr) = false.
Proof.
  intros He Hk. unfold firstOccurrenceRequiringApproval.
  rewrite (occurrencesOf_known e i He Hk), find_None. split.
  - intros H reach gr hops HR Hi.
    destruct (proj2 (be_occ _ _ _ Hb e i He Hk (g_uses gr))) as (o & Ho & <-); [by eauto 10|]. by apply H.
  - intros H o Ho.
    destruct (proj1 (be_occ _ _ _ Hb e i He Hk (occ_uses o))) as (reach & gr & hops & HR & Hi & <-);
      [by eauto 10|]. by eapply H.
Qed.

Lemma checkEffect_None name pol e i :
  e ∈ bound_Effects b → known e i →
  checkEffect g b name pol e = None ↔
  identCovered (permitLists pol).2 i = true ∨
  (identCovered (permitLists pol).1 i = true ∧
   ∀ reach gr hops, R reach gr hops → has_effect g (Some i) gr →
     witnessingRequiresApproval g pol (g_uses gr) = false).
Proof.
  intros He Hk. rewrite <-(first_occurrence_None pol e i He Hk). unfold checkEffect.
  destruct (permitLists pol) as [pm pa]. destruct Hk as [-> ->]. simpl.
  destruct (identCovered pm i), (identCovered pa i); simpl; try naive_solver.
  destruct (firstOccurrenceRequiringApproval g pol e); naive_solver.
Qed.

Lemma checkBound_nil name pol : checkBound g b name pol = [] ↔ root_permitted g pol R.
Proof.
  unfold checkBound. rewrite omap_nil. split.
  - intros H reach gr hops HR.
    destruct (grant_effects g gr) as [l|] eqn:Eg.
    + exists l. split; [done|]. intros i Hi.
      assert (has_effect g (Some i) gr) as Hhi by (unfold has_effect; by rewrite Eg).
      destruct (proj2 (be_known _ _ _ Hb i)) as (e & He & Hk); [by eauto 10|].
      apply (checkEffect_None name pol e i He Hk) in H as [?|[? Hw]]; [by left|right|done].
      split; [done|]. by eapply Hw.
    + destruct (proj2 (be_unknown _ _ _ Hb (g_uses gr))) as (e & He & Hu & _).
      { exists reach, gr, hops. split_and!; [done| |done]. unfold has_effect. by rewrite Eg. }
      specialize (H e He). unfold checkEffect in H. destruct (permitLists pol). by rewrite Hu in H.
  - intros H e He. destruct (eff_Unknown e) eqn:Eu.
    + destruct (proj1 (be_unknown _ _ _ Hb (eff_Uses e))) as (reach & gr & hops & HR & Hn & _); [by eauto 10|].
      destruct (H _ _ _ HR) as (l & Hl & _). unfold has_effect in Hn. by rewrite Hl in Hn.
    + apply (checkEffect_None name pol e (eff_Ident e) He); [done|].
      destruct (identCovered (permitLists pol).2 (eff_Ident e)) eqn:Ea; [by left|right].
      destruct (be_witness _ _ _ Hb e (eff_Ident e) He) as (reach & gr & HR & _ & Hi); [done|].
      assert (∀ reach gr hops, R reach gr hops → has_effect g (Some (eff_Ident e)) gr →
        identCovered (permitLists pol).1 (eff_Ident e) = true ∧
        witnessingRequiresApproval g pol (g_uses gr) = false) as Hall.
      { intros reach' gr' hops' HR' Hi'. destruct (H _ _ _ HR') as (l & Hl & Hperm).
        unfold has_effect in Hi'. rewrite Hl in Hi'. destruct (Hperm _ Hi') as [?|?]; [congruence|done]. }
      split; [by eapply Hall|]. intros reach' gr' hops' HR' Hi'. by eapply Hall.
Qed.

(** [effectByIdent] finds nothing exactly when no reachable operation has a
    declared effect related to the identifier. *)
Lemma effectByIdent_None ident :
  effectByIdent b ident = None ↔
  ∀ reach gr hops i, R reach gr hops → has_effect g (Some i) gr → related i (trim_space ident) = false.
Proof.
  unfold effectByIdent. rewrite find_None. split.
  - intros H reach gr hops i HR Hi.
    destruct (proj2 (be_known _ _ _ Hb i)) as (e & He & [Hu Hie]); [by eauto 10|].
    specialize (H e He). by rewrite Hu, Hie in H.
  - intros H e He. destruct (eff_Unknown e) eqn:Eu; [done|]. simpl.
    destruct (be_witness _ _ _ Hb e (eff_Ident e) He) as (reach & gr & HR & _ & Hi); [done|].
    by eapply H.
Qed.

End bound.

(** *** [Check] *)

Lemma compute_workflow g name wf :
  pg_Workflows g !! name = Some wf →
  gb_Workflows (Compute g) !! name = Some (boundWorkflow g ∅ name).
Proof. intros H. simpl. rewrite map_lookup_imap, H. done. Qed.
Lemma compute_agent g name a :
  pg_Agents g !! name = Some a → gb_Agents (Compute g) !! name = Some (boundAgent g name).
Proof. intros H. simpl. rewrite map_lookup_imap, H. done. Qed.

Section graph.
Context (g : ProjectGraph).
Hypothesis Hpl : plain_names g.

(** A root [name] with its policy and the operations it reaches: a workflow, or
    an agent no workflow uses. *)
Inductive checked_root : string → option PolicySpec → (Reachability → grant → list Hop → Prop) → Prop :=
  | root_workflow name wf :
      pg_Workflows g !! name = Some wf →
      checked_root name (policyFor g wf).2 (witnessed g ∅ name)
  | root_agent name a :
      pg_Agents g !! name = Some a → name ∉ workflowAgentNames g →
      checked_root name (policyForAgent g a).2 (agent_witnessed g name).

Lemma check_roots :
  anyDeclaredToolEffects g = true →
  Check g = [] ↔ ∀ name pol R, checked_root name pol R → root_permitted g pol R.
Proof.
  intros Hany. unfold Check. rewrite Hany. simpl. rewrite app_nil, !bind_nil.
  setoid_rewrite elem_of_sorted_keys. split.
  - intros [Hw Ha] name pol R Hroot. destruct Hroot as [name wf Hwf|name a Hag Hn].
    + specialize (Hw name (ltac:(by eexists))). rewrite Hwf in Hw.
      destruct (policyFor g wf) as [pn p] eqn:Ep. simpl in *.
      rewrite map_lookup_imap, Hwf in Hw. simpl in Hw.
      by apply (checkBound_nil g _ _ (boundWorkflow_bound g ∅ name Hpl)) in Hw.
    + specialize (Ha name (ltac:(by eexists))). rewrite Hag in Ha.
      apply str_mem_false in Hn. rewrite Hn in Ha.
      destruct (policyForAgent g a) as [pn p] eqn:Ep. simpl in *.
      rewrite map_lookup_imap, Hag in Ha. simpl in Ha.
      apply (checkBound_nil g _ _ (boundAgent_bound g name Hpl ltac:(by eapply (proj1 Hpl)))) in Ha.
      done.
  - intros H. split.
    + intros name [wf Hwf]. rewrite Hwf. specialize (H _ _ _ (root_workflow name wf Hwf)).
      destruct (policyFor g wf) as [pn p] eqn:Ep. simpl in *.
      rewrite map_lookup_imap, Hwf. simpl.
      by apply (checkBound_nil g _ _ (boundWorkflow_bound g ∅ name Hpl)).
    + intros name [a Hag]. rewrite Hag. destruct (str_mem name _) eqn:En; [done|].
      apply str_mem_false in En. specialize (H _ _ _ (root_agent name a Hag En)).
      destruct (policyForAgent g a) as [pn p] eqn:Ep. simpl in *.
      rewrite map_lookup_imap, Hag. simpl.
      by apply (checkBound_nil g _ _ (boundAgent_bound g name Hpl ltac:(by eapply (proj1 Hpl)))).
Qed.

End graph.

(** C24: A project passes [Check] exactly when no tool declares any effect, or every
    operation that a workflow (or an agent outside all workflows) can reach has
    declared effects, each of them permitted by the root's policy with
    approval, or permitted unattended on an operation that requires none. *)
Theorem Check_exact g :
  plain_names g →
  Check g = [] ↔
  anyDeclaredToolEffects g = false ∨
  ∀ name pol R, checked_root g name pol R → root_permitted g pol R.
Proof.
  intros Hpl. destruct (anyDeclaredToolEffects g) eqn:Ea.
  - rewrite (check_roots g Hpl Ea). split; [by right|]. by intros [|].
  - split; [by left|]. intros _. unfold Check. by rewrite Ea.
Qed.

Definition ci_policy : PolicySpec := mkPolicySpec "" "" None None None
  (Some (mkPolicyEffects ["github.read"] ["github.write"])) None.
Lemma Check_exact_witness :
  Check (demo_graph ∅) ≠ [] ∧
  ∀ name pol R, checked_root (demo_graph {[ "ci" := ci_policy ]}) name pol R →
    root_permitted (demo_graph {[ "ci" := ci_policy ]}) pol R.
Proof.
  split; [vm_compute; discriminate|].
  destruct (proj1 (Check_exact (demo_graph {[ "ci" := ci_policy ]}) (demo_plain _)))
    as [H|H]; [vm_compute; reflexivity|vm_compute in H; discriminate H|exact H].
Defined.

(** *** [Evaluate] *)

(** The roots an assertion may name: agents first, then workflows. *)
Inductive named_root (g : ProjectGraph) (name : string) :
    (Reachability → grant → list Hop → Prop) → Prop :=
  | named_agent a : pg_Agents g !! name = Some a → named_root g name (agent_witnessed g name)
  | named_workflow wf : pg_Agents g !! name = None → pg_Workflows g !! name = Some wf →
      named_root g name (witnessed g ∅ name).

Lemma boundForRoot_spec g root b :
  plain_names g → boundForRoot (Compute g) root = Some b →
  ∃ R, named_root g (trim_space root) R ∧ bound_exact g R b.
Proof.
  intros Hpl. unfold boundForRoot. generalize (trim_space root) as name. intros name.
  simpl. rewrite !map_lookup_imap. destruct (pg_Agents g !! name) as [a|] eqn:Ea; simpl.
  - intros [= <-]. exists (agent_witnessed g name). split; [by econstructor|].
    apply boundAgent_bound; [done|]. by eapply (proj1 Hpl).
  - destruct (pg_Workflows g !! name) as [wf|] eqn:Ew; simpl; [|done]. intros [= <-].
    exists (witnessed g ∅ name). split; [by econstructor|by apply boundWorkflow_bound].
Qed.

Lemma forbid_violation_None g re :
  plain_names g → forbid_violation (Compute g) (declaredEffectIdents g) re = None →
  ∃ R, named_root g (trim_space (re_Root re)) R ∧
    ∀ reach gr hops i, R reach gr hops → has_effect g (Some i) gr →
      related i (trim_space (re_Effect re)) = false.
Proof.
  intros Hpl. unfold forbid_violation. destruct (identViolation _ _); [done|].
  destruct (boundForRoot (Compute g) (re_Root re)) as [b|] eqn:Eb; [|done].
  destruct (boundForRoot_spec g _ b Hpl Eb) as (R & HR & Hb).
  destruct (effectByIdent b (re_Effect re)) eqn:Ee; [done|]. intros _.
  exists R. split; [done|]. by apply (effectByIdent_None g R b Hb).
Qed.

Lemma witnessIsAutonomous_spec hops :
  witnessIsAutonomous hops = true ↔ pathReachability hops = Autonomous.
Proof. unfold witnessIsAutonomous, pathReachability. by destruct (existsb _ hops). Qed.

Lemma autonomous_violation_None g re :
  plain_names g → autonomous_violation (Compute g) (declaredEffectIdents g) re = None →
  ∃ R gr hops i, named_root g (trim_space (re_Root re)) R ∧ R Autonomous gr hops ∧
    has_effect g (Some i) gr ∧ related i (trim_space (re_Effect re)) = true.
Proof.
  intros Hpl. unfold autonomous_violation. destruct (identViolation _ _); [done|].
  destruct (boundForRoot (Compute g) (re_Root re)) as [b|] eqn:Eb; [|done].
  destruct (boundForRoot_spec g _ b Hpl Eb) as (R & HR & Hb).
  unfold effectByIdent. destruct (List.find _ _) as [e|] eqn:Ee; [|done].
  apply find_some in Ee as [He Hm]. apply list_elem_of_In in He. bool_inv.
  destruct (hasAutonomousWitness e) eqn:Ea; [|done]. intros _.
  assert (known e (eff_Ident e)) as Hk by done.
  assert (pathReachability (eff_Witness e) = Autonomous) as Haut.
  { unfold hasAutonomousWitness in Ea. apply orb_true_iff in Ea as [Ea|Ea].
    - by apply witnessIsAutonomous_spec.
    - apply existsb_True in Ea as (o & Ho & Hw). apply witnessIsAutonomous_spec in Hw.
      apply (proj2 (be_path_max _ _ _ Hb e (eff_Ident e) He Hk)). by exists o. }
  destruct (proj1 (be_autonomous _ _ _ Hb e _ He Hk) Haut) as (gr & hops & HRa & Hi).
  exists R, gr, hops, (eff_Ident e). by split_and!.
Qed.

(** The occurrences of a bound are the uses of the reachable operations. *)
Lemma bound_uses g R b u :
  bound_exact g R b → u ≠ "" →
  (∃ e, e ∈ bound_Effects b ∧ ∃ o, o ∈ occurrencesOf e ∧ trim_space (occ_uses o) = u) ↔
  ∃ reach gr hops, R reach gr hops ∧ trim_space (g_uses gr) = u.
Proof.
  intros Hb Hu. split.
  - intros (e & He & o & Ho & <-). destruct (eff_Unknown e) eqn:Eu.
    + unfold occurrencesOf in Ho. rewrite (be_unknown_occ _ _ _ Hb e He Eu) in Ho.
      case_match; [by apply elem_of_nil in Ho|]. apply list_elem_of_singleton in Ho as ->. simpl.
      destruct (proj1 (be_unknown _ _ _ Hb (eff_Uses e))) as (reach & gr & hops & HR & _ & <-);
        [by exists e|by eauto].
    + rewrite (occurrencesOf_known g R b Hb e (eff_Ident e) He) in Ho by done.
      destruct (proj1 (be_occ _ _ _ Hb e (eff_Ident e) He (conj Eu eq_refl) (occ_uses o)))
        as (reach & gr & hops & HR & _ & <-); [by exists o|by eauto].
  - intros (reach & gr & hops & HR & <-). destruct (grant_effects g gr) as [l|] eqn:Eg.
    + assert (∃ i, i ∈ l) as [i Hi].
      { destruct l as [|i l]; [|exists i; left]. unfold grant_effects in Eg.
        destruct (g_unknown gr); [done|]. by apply ResolveOperationEffects_ne in Eg. }
      assert (has_effect g (Some i) gr) as Hh by (unfold has_effect; by rewrite Eg).
      destruct (proj2 (be_known _ _ _ Hb i)) as (e & He & Hk); [by eauto 10|].
      destruct (proj2 (be_occ _ _ _ Hb e i He Hk (g_uses gr))) as (o & Ho & Huo); [by eauto 10|].
      exists e. split; [done|]. exists o. by rewrite (occurrencesOf_known g R b Hb e i He Hk), Huo.
    + destruct (proj2 (be_unknown _ _ _ Hb (g_uses gr))) as (e & He & Hun & Hue).
      { exists reach, gr, hops. split_and!; [done| |done]. unfold has_effect. by rewrite Eg. }
      exists e. split; [done|]. exists (mkOccurrence (eff_Uses e) (eff_Witness e)).
      split; [|simpl; congruence].
      unfold occurrencesOf. rewrite (be_unknown_occ _ _ _ Hb e He Hun), Hue.
      rewrite (proj2 (String.eqb_neq _ _) Hu). by left.
Qed.

(** [gatingStatus] in one step: a root whose bound has the uses string makes it
    reachable, and is recorded when it is the first whose policy does not gate it. *)
Definition bound_has (uses : string) (b : Bound) : Prop :=
  ∃ e, e ∈ bound_Effects b ∧ ∃ o, o ∈ occurrencesOf e ∧ trim_space (occ_uses o) = uses.

Lemma exists_cons {A} (P : A → Prop) x l : (∃ y, y ∈ x :: l ∧ P y) ↔ P x ∨ ∃ y, y ∈ l ∧ P y.
Proof. setoid_rewrite elem_of_cons. naive_solver. Qed.
Lemma exists_nil {A} (P : A → Prop) : (∃ y, y ∈ [] ∧ P y) ↔ False.
Proof. setoid_rewrite elem_of_nil. naive_solver. Qed.

Lemma gating_visit_spec g uses acc name b pol :
  name ≠ "" →
  let acc' := gating_visit g uses acc (name, b, pol) in
  (acc'.1 = true ↔ acc.1 = true ∨ bound_has uses b) ∧
  (acc'.2 = "" ↔ acc.2 = "" ∧ (bound_has uses b → witnessingRequiresApproval g pol uses = true)).
Proof.
  intros Hn. unfold gating_visit, bound_has.
  set (f := λ (acc : bool * string) (occ : effectOccurrence), _).
  assert (∀ occs acc, let acc' := foldl f acc occs in
    (acc'.1 = true ↔ acc.1 = true ∨ ∃ o, o ∈ occs ∧ trim_space (occ_uses o) = uses) ∧
    (acc'.2 = "" ↔ acc.2 = "" ∧ ((∃ o, o ∈ occs ∧ trim_space (occ_uses o) = uses) →
       witnessingRequiresApproval g pol uses = true))) as Hin.
  { intros occs. induction occs as [|o occs IH]; intros acc0; simpl.
    { rewrite exists_nil. tauto. }
    destruct (IH (f acc0 o)) as [-> ->]. rewrite exists_cons. unfold f. destruct (String.eqb_spec (trim_space (occ_uses o)) uses) as [Ho|Ho]; simpl.
    - destruct (String.eqb_spec acc0.2 "") as [Ha|Ha];
        destruct (witnessingRequiresApproval g pol uses) eqn:Ew; simpl; (split; [tauto|]);
        try congruence; intuition congruence.
    - tauto. }
  generalize (bound_Effects b). intros es. revert acc.
  induction es as [|e es IH]; intros acc; simpl.
  { rewrite exists_nil. tauto. }
  destruct (IH (foldl f acc (occurrencesOf e))) as [-> ->].
  destruct (Hin (occurrencesOf e) acc) as [-> ->]. rewrite exists_cons. tauto.
Qed.

Lemma gatingStatus_spec g uses roots acc :
  (∀ r, r ∈ roots → r.1.1 ≠ "") →
  let acc' := foldl (gating_visit g uses) acc roots in
  (acc'.1 = true ↔ acc.1 = true ∨ ∃ r, r ∈ roots ∧ bound_has uses r.1.2) ∧
  (acc'.2 = "" ↔ acc.2 = "" ∧ ∀ r, r ∈ roots → bound_has uses r.1.2 →
     witnessingRequiresApproval g r.2 uses = true).
Proof.
  revert acc. induction roots as [|[[name b] pol] roots IH]; intros acc Hn; simpl.
  { rewrite exists_nil. split; [tauto|]. split; [|tauto]. intros Ha. split; [done|].
    by intros r ?%elem_of_nil. }
  destruct (IH (gating_visit g uses acc (name, b, pol))) as [-> ->].
  { intros. apply Hn. by right. }
  destruct (gating_visit_spec g uses acc name b pol) as [-> ->]; [apply (Hn (name, b, pol)); left|].
  rewrite exists_cons. split; [simpl; tauto|]. split.
  - intros [[? Hx] Hall]. split; [done|]. intros r [->|Hr]%elem_of_cons; auto.
  - intros [? Hall]. split; [split; [done|]|].
    + apply (Hall (name, b, pol)). left.
    + intros r Hr. apply Hall. by right.
Qed.

(** The visited roots are the checked roots, with their exact bounds. *)
Lemma gating_roots_spec g name pol :
  plain_names g →
  (∀ b, (name, b, pol) ∈ gating_roots g (Compute g) →
     ∃ R, checked_root g name pol R ∧ bound_exact g R b) ∧
  (∀ R, checked_root g name pol R →
     ∃ b, (name, b, pol) ∈ gating_roots g (Compute g) ∧ bound_exact g R b).
Proof.
  intros Hpl. unfold gating_roots. setoid_rewrite elem_of_app.
  setoid_rewrite list_elem_of_bind. setoid_rewrite elem_of_sorted_keys. split.
  - intros b [(n & Hin & [wf Hwf])|(n & Hin & [a Ha])].
    + rewrite Hwf, (compute_workflow g n wf Hwf) in Hin.
      apply list_elem_of_singleton in Hin. injection Hin as -> -> ->.
      eexists. split; [by apply root_workflow|by apply boundWorkflow_bound].
    + destruct (str_mem n _) eqn:En; [by apply elem_of_nil in Hin|].
      rewrite Ha, (compute_agent g n a Ha) in Hin. apply list_elem_of_singleton in Hin.
      injection Hin as -> -> ->. eexists. split.
      * apply root_agent; [done|by apply str_mem_false].
      * apply boundAgent_bound; [done|by eapply (proj1 Hpl)].
  - intros R Hroot. destruct Hroot as [name wf Hwf|name a Ha Hn].
    + eexists. split; [left; exists name|by apply boundWorkflow_bound].
      rewrite Hwf, (compute_workflow g name wf Hwf). split; [left|by eexists].
    + eexists. split; [right; exists name|apply boundAgent_bound; [done|by eapply (proj1 Hpl)]].
      apply str_mem_false in Hn. rewrite Hn, Ha, (compute_agent g name a Ha).
      split; [left|by eexists].
Qed.

(** Every root that reaches [uses] gates it, and some root reaches it. *)
Definition gated (g : ProjectGraph) (uses : string) : Prop :=
  (∃ name pol R reach gr hops, checked_root g name pol R ∧ R reach gr hops ∧
     trim_space (g_uses gr) = uses) ∧
  (∀ name pol R reach gr hops, checked_root g name pol R → R reach gr hops →
     trim_space (g_uses gr) = uses → witnessingRequiresApproval g pol uses = true).

Lemma gated_violation_None g uses :
  plain_names g → pg_Workflows g !! "" = None → trim_space uses ≠ "" →
  gated_violation g (Compute g) uses = None ↔ gated g (trim_space uses).
Proof.
  intros Hpl Hwn Hu. unfold gated_violation. set (u := trim_space uses) in *.
  destruct (gatingStatus_spec g u (gating_roots g (Compute g)) (false, "")) as [H1 H2].
  { intros [[name b] pol] Hin. simpl. intros ->. apply (gating_roots_spec g "" pol Hpl) in Hin as (R & Hroot & _).
    inversion Hroot as [? wf Hwf|? a Ha]; [congruence|].
    by destruct (proj1 (proj1 Hpl _ _ Ha)). }
  unfold gatingStatus. destruct (foldl _ _ _) as [reachable ungated]. simpl in *.
  assert (∀ name pol b R, (name, b, pol) ∈ gating_roots g (Compute g) → bound_exact g R b →
    bound_has u b ↔ ∃ reach gr hops, R reach gr hops ∧ trim_space (g_uses gr) = u) as Hbu.
  { intros. by apply (bound_uses g). }
  transitivity (reachable = true ∧ ungated = "").
  { destruct reachable, (String.eqb_spec ungated ""); simpl; naive_solver. }
  rewrite H1, H2. unfold gated. split.
  - intros [[|([[name b] pol] & Hin & Hh)] [_ Hall]]; [done|]. simpl in Hh. split.
    + destruct (proj1 (gating_roots_spec g name pol Hpl) b Hin) as (R & Hroot & Hb).
      apply (Hbu name pol b R Hin Hb) in Hh as (reach & gr & hops & HR & Hg). eauto 10.
    + intros name' pol' R reach gr hops Hroot HR Hg.
      destruct (proj2 (gating_roots_spec g name' pol' Hpl) R Hroot) as (b' & Hin' & Hb').
      apply (Hall (name', b', pol') Hin'). apply (Hbu name' pol' b' R Hin' Hb'). eauto.
  - intros [(name & pol & R & reach & gr & hops & Hroot & HR & Hg) Hall]. split.
    + right. destruct (proj2 (gating_roots_spec g name pol Hpl) R Hroot) as (b & Hin & Hb).
      exists (name, b, pol). split; [done|]. apply (Hbu name pol b R Hin Hb). eauto.
    + split; [done|]. intros [[name' b] pol'] Hin Hh. simpl in *.
      destruct (proj1 (gating_roots_spec g name' pol' Hpl) b Hin) as (R' & Hroot' & Hb').
      pose proof (proj1 (Hbu name' pol' b R' Hin Hb') Hh) as (reach' & gr' & hops' & HR' & Hg'). by eapply Hall.
Qed.

(** C26: Capability assertions that pass are true of the project: a root never
    reaches an operation whose declared effects are related to a forbidden
    effect, reaches an expected one autonomously, and every root that reaches
    a gated operation requires approval for it. *)
Theorem Evaluate_sound a g :
  plain_names g → pg_Workflows g !! "" = None → Evaluate a g = [] →
  (∀ re, re ∈ ForbidEffect a →
    ∃ R, named_root g (trim_space (re_Root re)) R ∧
      ∀ reach gr hops i, R reach gr hops → has_effect g (Some i) gr →
        related i (trim_space (re_Effect re)) = false) ∧
  (∀ re, re ∈ ExpectAutonomous a →
    ∃ R gr hops i, named_root g (trim_space (re_Root re)) R ∧ R Autonomous gr hops ∧
      has_effect g (Some i) gr ∧ related i (trim_space (re_Effect re)) = true) ∧
  (∀ uses, uses ∈ ExpectGated a → trim_space uses ≠ "" → gated g (trim_space uses)).
Proof.
  intros Hpl Hwn H. unfold Evaluate in H.
  apply app_nil in H as [H1 [H2 H3]%app_nil].
  assert (∀ k l, mkAssertViolation k <$> l = [] → l = []) as Hnil by (by intros k []).
  apply Hnil in H1, H2, H3. rewrite omap_nil in H1; rewrite omap_nil in H2; rewrite omap_nil in H3. split_and!.
  - intros re Hre. apply forbid_violation_None; auto.
  - intros re Hre. apply autonomous_violation_None; auto.
  - intros uses Hin Hne. apply gated_violation_None; auto.
Qed.

Definition demo_assertions : CapabilityAssertions :=
  mkCapabilityAssertions [] [mkRootEffect "main" "github.write"] [].
Definition strict_ci : PolicySpec := mkPolicySpec "" "" None None
  (Some (mkPolicyApprovals [] (Some true) None)) None None.
Definition demo_strict : ProjectGraph := demo_graph {[ "ci" := strict_ci ]}.
Lemma Evaluate_sound_witness :
  Evaluate (mkCapabilityAssertions [mkRootEffect "sub" "github"] [] ["tool.gh.push"]) demo_strict
    = [mkAssertViolation forbidEffect (ForbiddenReached KindWorkflow "sub" "github" "tool.gh.merge");
       mkAssertViolation expectGated (NotReachable "tool.gh.push")] ∧
  gated demo_strict "tool.gh.merge".
Proof.
  split; [vm_compute; reflexivity|].
  refine (proj2 (proj2 (Evaluate_sound (mkCapabilityAssertions [] [mkRootEffect "main" "github.write"]
    [" tool.gh.merge"]) demo_strict (demo_plain _) eq_refl _)) " tool.gh.merge" _ _).
  - vm_compute. reflexivity.
  - left.
  - vm_compute. discriminate.
Defined.

(** An agent that reads statically and writes autonomously reaches [github]
    autonomously, but the check looks at one related effect only. *)
Definition mixed_graph : ProjectGraph :=
  mkProjectGraph {[ "rev" := mkAgentSpec "rev" ["tool.gh.push"] "" ]}
    {[ "main" := mkWorkflowSpec ""
         [mkWorkflowStep "a" "tool.gh.get" "" ""; mkWorkflowStep "b" "" "rev" ""] ]}
    (Some {[ "gh" := mkToolSpec "mcp" None
       {[ "get" := mkToolOperation ["github.read"] ""; "push" := mkToolOperation ["github.write"] "" ]}
       true ]}) ∅ "".
Theorem ExpectAutonomous_first_match :
  Evaluate (mkCapabilityAssertions [] [mkRootEffect "main" "github"] []) mixed_graph =
    [mkAssertViolation expectAutonomous (OnlyStatic KindWorkflow "main" "github")] ∧
  Evaluate (mkCapabilityAssertions [] [mkRootEffect "main" "github.write"] []) mixed_graph = [].
Proof. split; vm_compute; reflexivity. Qed.
