(* ===== verification/ShellTokens.v ===== *)
(** * Shell command classification ([internal/spec/shell_tokens.go])

    The first-token heuristic of the [shell_safe] preset.  The characters it
    looks for are ASCII, so a byte-wise scan agrees with the scan over runes. *)

From S2P Require Import Prelude GoText Value SpecTools.

Definition ShellCommandOperations : list string := ["command.run"; "run"; "exec"; "shell"].

Definition shellReadOnlyTokens : list string :=
  ["ls"; "cat"; "grep"; "head"; "tail"; "stat"; "find"; "pwd"; "wc"; "which"].
Definition shellGateTokens : list string :=
  ["rm"; "mv"; "cp"; "chmod"; "chown"; "mkfifo"; "dd";
   "curl"; "wget"; "ssh"; "exec"; "eval"; "write"; "delete"].

Inductive ShellTokenClass := ShellTokenUnknown | ShellTokenReadOnly | ShellTokenGate.

(** ** Strings *)

Definition to_chars (s : string) : chars := String.list_ascii_of_string s.
Definition of_chars (l : chars) : string := String.string_of_list_ascii l.

Fixpoint drop_while (f : ascii → bool) (l : chars) : chars :=
  match l with [] => [] | c :: l' => if f c then drop_while f l' else l end.

Definition quote_char (c : ascii) : bool := bool_decide (c = "034"%char) || bool_decide (c = "'"%char).

(** [strings.Trim] with the two quote characters. *)
Definition trim_quotes (s : string) : string :=
  of_chars (reverse (drop_while quote_char (reverse (drop_while quote_char (to_chars s))))).

Definition path_sep (c : ascii) : bool := bool_decide (c = "/"%char) || bool_decide (c = "\"%char).

(** What follows the last byte that satisfies [f] ([strings.LastIndexAny]). *)
Fixpoint after_last (f : ascii → bool) (l : chars) : chars :=
  match l with
  | [] => []
  | c :: l' => if existsb f l' then after_last f l' else if f c then l' else l
  end.

(** The first element of [strings.Fields] of a trimmed string. *)
Fixpoint first_field (l : chars) : chars :=
  match l with
  | [] => []
  | c :: l' => match strip_any all_space_seqs l with Some _ => [] | None => c :: first_field l' end
  end.

Definition meta_char (c : ascii) : bool :=
  existsb (λ d, bool_decide (c = d)) [";"; "|"; "&"; "010"; "013"; "`"; "$"]%char.

Fixpoint contains_dollar_paren (l : chars) : bool :=
  match l with
  | [] => false
  | c :: l' => (bool_decide (c = "$"%char) && bool_decide (head l' = Some "("%char)) ||
               contains_dollar_paren l'
  end.

(** ** The classification *)

Definition containsShellMetacharacters (command : string) : bool :=
  if contains_dollar_paren (to_chars command) then true else existsb meta_char (to_chars command).

Definition normalizeShellToken (token : string) : string :=
  let token := trim_space token in
  if (token =? "")%string then ""
  else
    let token := trim_quotes token in
    let token := of_chars (after_last path_sep (to_chars token)) in
    let token := match cut_byte "=" token with Some (a, _) => a | None => token end in
    to_lower (trim_space token).

Definition ClassifyShellToken (token : string) : ShellTokenClass :=
  let token := normalizeShellToken token in
  if (token =? "")%string then ShellTokenUnknown
  else if str_mem token shellReadOnlyTokens then ShellTokenReadOnly
  else if str_mem token shellGateTokens then ShellTokenGate
  else ShellTokenUnknown.

Definition FirstShellToken (command : string) : string :=
  trim_quotes (of_chars (first_field (to_chars (trim_space command)))).

Definition ShellCommandRequiresApproval (command : string) : bool :=
  let command := trim_space command in
  if (command =? "")%string then true
  else if containsShellMetacharacters command then true
  else match ClassifyShellToken (FirstShellToken command) with
       | ShellTokenReadOnly => false
       | _ => true
       end.

(** The first of the keys that holds a string. *)
Fixpoint first_string (keys : list string) (w : list (string * value)) : string :=
  match keys with
  | [] => ""
  | k :: keys => match map_get w k with Some (VStr s) => trim_space s | _ => first_string keys w end
  end.
Definition ExtractShellCommand (w : list (string * value)) : string :=
  first_string ["command"; "cmd"; "script"] w.

Definition IsShellCommandOperation (operation : string) : bool :=
  str_mem (to_lower (trim_space operation)) ShellCommandOperations.

(** ** Properties *)

(** A command the preset lets through unattended is non-blank, free of shell
    composition characters, and its first token, without quotes, directories
    and an assignment suffix, is one of the listed read-only programs. *)
Theorem ShellCommandRequiresApproval_readonly command :
  ShellCommandRequiresApproval command = false ↔
  trim_space command ≠ "" ∧
  (∀ c, c ∈ to_chars (trim_space command) → meta_char c = false) ∧
  normalizeShellToken (FirstShellToken (trim_space command)) ∈ shellReadOnlyTokens.
Proof.
  unfold ShellCommandRequiresApproval, containsShellMetacharacters, ClassifyShellToken.
  set (cmd := trim_space command). set (tok := normalizeShellToken _).
  assert (∀ l, contains_dollar_paren l = true → existsb meta_char l = true) as Hdp.
  { induction l as [|c l IH]; simpl; [done|]. intros [[Hc _]%andb_true_iff|Hl]%orb_true_iff.
    - bool_inv. by subst c.
    - rewrite (IH Hl). apply orb_true_r. }
  rewrite <-str_mem_spec, <-existsb_False.
  assert (tok = "" → str_mem tok shellReadOnlyTokens = false) as Hro by (by intros ->).
  revert Hro. generalize (str_mem tok shellReadOnlyTokens) as ro, (str_mem tok shellGateTokens) as ga.
  specialize (Hdp (to_chars cmd)). revert Hdp.
  generalize (contains_dollar_paren (to_chars cmd)) as dp, (existsb meta_char (to_chars cmd)) as mc.
  intros dp mc Hdp ro ga Hro.
  destruct (String.eqb_spec cmd ""), dp, mc, (String.eqb_spec tok ""), ro, ga; simpl; naive_solver.
Qed.

(** A variable assignment in front of the program defeats the heuristic: the name of
    the variable is classified, not the program. *)
Theorem assignment_prefix_bypass :
  ShellCommandRequiresApproval "rm -rf build" = true ∧
  ShellCommandRequiresApproval "ls=1 rm -rf build" = false.
Proof. split; vm_compute; reflexivity. Qed.
