(* ===== verification/Policy.v ===== *)
(** * The policy evaluators ([internal/policy])

    The checks of [approvals.go], [budget.go], [manifest.go], [permissions.go],
    [shell_safe.go] and [derive.go], the evaluator that interprets a policy
    ([evaluator.go], [engine.go]), the compiler of a policy to a per-tool
    decision table ([compile.go]) and the evaluator of that table
    ([compiled_evaluator.go]).  An error is a denial with its reason and uses;
    the message and the trace extras of a denial are text and are left out.  A
    nil project graph behaves like one without tools and policies. *)

From S2P Require Import Prelude GoNum GoText Value SpecTools SpecPolicy ShellTokens.

Local Open Scope Z_scope.

(** ** Contexts and denials ([context.go], [errors.go]) *)

Record RunContext := mkRunContext {
  rc_Elapsed : Z;
  rc_AccumulatedCostUSD : f64;
  rc_ApprovedActions : list string;
}.
Record StepContext := mkStepContext { sc_StepID : string; sc_OutputIsStructured : bool }.
Record ToolCallContext := mkToolCallContext {
  tc_Run : RunContext;
  tc_StepID : string;
  tc_Uses : string;
  tc_With : list (string * value);
}.

Definition ReasonMaxWallClock : string := "max_wall_clock".
Definition ReasonMaxCost : string := "max_cost".
Definition ReasonStructuredOutput : string := "structured_output_required".
Definition ReasonUnknownTool : string := "unknown_tool".
Definition ReasonApprovalRequired : string := "approval_required".
Definition ReasonInvalidUses : string := "invalid_uses".
Definition ReasonDenied : string := "denied".
Definition ReasonOperationNotInManifest : string := "operation_not_in_manifest".

Record DeniedError := mkDenied { de_Reason : string; de_Uses : string }.
#[export] Instance DeniedError_eq_dec : EqDecision DeniedError.
Proof. solve_decision. Defined.

(** The result of a check: [None] is a nil error. *)
Definition verdict : Type := option DeniedError.
Definition denied (reason uses : string) : verdict := Some (mkDenied reason uses).

(** ** Approvals ([approvals.go], [derive.go]) *)

Definition approvalRequired (uses : string) (approvals : option PolicyApprovals) : bool :=
  match approvals with
  | None => false
  | Some a => existsb (λ r, (trim_space r =? trim_space uses)%string) (pa_RequiredFor a)
  end.

Definition actionApproved (uses : string) (approved : list string) : bool :=
  existsb (λ a, (trim_space a =? trim_space uses)%string) approved.

Definition checkApprovalGranted (uses : string) (approvals : option PolicyApprovals)
    (approved : list string) : verdict :=
  if negb (approvalRequired uses approvals) then None
  else if actionApproved uses approved then None
  else denied ReasonApprovalRequired uses.

(** ** Budgets ([budget.go]) *)

(** Two's complement wrap-around of int64. *)
Definition wrap64 (z : Z) : Z := (z + 2 ^ 63) mod 2 ^ 64 - 2 ^ 63.
Definition Second : Z := 1000000000.

Definition checkExecutionBudgets (run : RunContext) (ex : option PolicyExecution) : verdict :=
  match ex with
  | None => None
  | Some ex =>
      if (0 <? ex_MaxWallClockSeconds ex) &&
         (wrap64 (ex_MaxWallClockSeconds ex * Second) <? rc_Elapsed run)
      then denied ReasonMaxWallClock ""
      else if f64_gtb (ex_MaxTotalCostUsd ex) (f64_of_int 0) &&
              f64_gtb (rc_AccumulatedCostUSD run) (ex_MaxTotalCostUsd ex)
      then denied ReasonMaxCost ""
      else None
  end.

Definition checkStructuredOutputRequired (step : StepContext) (ex : option PolicyExecution) : verdict :=
  match ex with
  | None => None
  | Some ex =>
      if negb (ex_RequireStructuredOutput ex) then None
      else if sc_OutputIsStructured step then None
      else denied ReasonStructuredOutput ""
  end.

(** ** Tools ([manifest.go], [permissions.go], [derive.go]) *)

Definition checkOperationInManifest (g : ProjectGraph) (uses : string) : verdict :=
  match ParseUses uses with
  | None => None
  | Some (toolName, operation) =>
      if Allows (ManifestFor (tools_of g) toolName) operation then None
      else denied ReasonOperationNotInManifest uses
  end.

Definition checkKnownTool (g : ProjectGraph) (uses : string) (toolsPol : option PolicyTools) : verdict :=
  match toolsPol with
  | None => None
  | Some t =>
      if negb (pt_ForbidUnknownTools t) then None
      else match ParseUses uses with
           | None => denied ReasonInvalidUses uses
           | Some (toolName, _) =>
               match tools_of g !! toolName with
               | None => denied ReasonUnknownTool uses
               | Some _ => None
               end
           end
  end.

Inductive Decision := DecisionAllow | DecisionRequireApproval | DecisionDeny.
Inductive DecisionSource :=
  | SourceExplicitPolicyRule | SourceSafetyMetadata | SourceFailClosedDefault | SourcePresetBase.
Record ToolDecision := mkToolDecision {
  td_Decision : Decision; td_Source : DecisionSource; td_Safety : ResolvedToolSafety
}.

Definition Derive (safety : ResolvedToolSafety) : Decision :=
  if rs_RequiresApproval safety then DecisionRequireApproval else DecisionAllow.

Definition resolvedSafetyForTool (g : ProjectGraph) (toolName : string) : ResolvedToolSafety :=
  ResolveToolSafety (tools_of g !! toolName ≫= tool_Safety).

Definition toolUsesPrefix (toolName : string) : string :=
  tool_prefix +:+ (trim_space toolName +:+ ".").

Definition safety_source (g : ProjectGraph) (toolName : string) : DecisionSource :=
  match tools_of g !! toolName ≫= tool_Safety with
  | None => SourceFailClosedDefault
  | Some _ => SourceSafetyMetadata
  end.

Definition EffectiveToolDecision (g : ProjectGraph) (pol : option PolicySpec) (toolName : string)
    : ToolDecision :=
  let toolName := trim_space toolName in
  let safety := resolvedSafetyForTool g toolName in
  let explicit d := mkToolDecision d SourceExplicitPolicyRule safety in
  let approvals := pol ≫= pol_Approvals in
  if (ResolvedPresetName pol =? PresetShellSafe)%string &&
     (rs_RequiresApproval safety || rs_SideEffects safety)
  then explicit DecisionRequireApproval
  else if ApprovalPermissive approvals then explicit DecisionAllow
  else if ApprovalRequireAllTools approvals then explicit DecisionRequireApproval
  else if existsb (λ r, (trim_space r =? toolUsesPrefix toolName)%string ||
                        has_prefix (trim_space r) (toolUsesPrefix toolName))
            (default [] (pa_RequiredFor <$> approvals))
  then explicit DecisionRequireApproval
  else mkToolDecision (Derive safety) (safety_source g toolName) safety.

Definition checkSafetyDerived (g : ProjectGraph) (call : ToolCallContext) : verdict :=
  match ParseUses (tc_Uses call) with
  | None => denied ReasonInvalidUses (tc_Uses call)
  | Some (toolName, _) =>
      match td_Decision (EffectiveToolDecision g None toolName) with
      | DecisionAllow => None
      | DecisionRequireApproval =>
          if actionApproved (tc_Uses call) (rc_ApprovedActions (tc_Run call)) then None
          else denied ReasonApprovalRequired (tc_Uses call)
      | DecisionDeny => denied ReasonDenied (tc_Uses call)
      end
  end.

(** [shell_safe.go] *)
Definition shellSafeRequiresApproval (g : ProjectGraph) (call : ToolCallContext) : bool :=
  match ParseUses (tc_Uses call) with
  | None => true
  | Some (toolName, operation) =>
      if IsShellCommandOperation operation
      then ShellCommandRequiresApproval (ExtractShellCommand (tc_With call))
      else
        let safety := resolvedSafetyForTool g toolName in
        rs_RequiresApproval safety || rs_SideEffects safety
  end.

(** ** The evaluator interface and the interpreting evaluator ([evaluator.go]) *)

Record PolicyEvaluator := mkPolicyEvaluator {
  CheckRun : RunContext → verdict;
  CheckStep : StepContext → verdict;
  CheckToolCall : ToolCallContext → verdict;
  EvalPolicySpec : option PolicySpec;
}.

Definition toolCallApprovalDenied (call : ToolCallContext) : verdict :=
  denied ReasonApprovalRequired (tc_Uses call).

Definition requiresToolCallApproval (pol : option PolicySpec) : bool :=
  ApprovalRequireAllTools (pol ≫= pol_Approvals).

(** An error of [m], or else [k]: [if err := m; err != nil { return err }; k]. *)
Definition check_then (m k : verdict) : verdict := match m with Some d => Some d | None => k end.
#[local] Infix "&>" := check_then (at level 62, right associativity).

Definition approve_or_deny (call : ToolCallContext) : verdict :=
  if actionApproved (tc_Uses call) (rc_ApprovedActions (tc_Run call)) then None
  else toolCallApprovalDenied call.

Definition evaluator_CheckToolCall (g : ProjectGraph) (pol : option PolicySpec)
    (call : ToolCallContext) : verdict :=
  let uses := tc_Uses call in
  let approvals := pol ≫= pol_Approvals in
  checkOperationInManifest g uses &>
  checkKnownTool g uses (pol ≫= pol_Tools) &>
  if ApprovalPermissive approvals then None
  else if (ResolvedPresetName pol =? PresetShellSafe)%string then
    if shellSafeRequiresApproval g call || approvalRequired uses approvals
    then approve_or_deny call else None
  else if requiresToolCallApproval pol then approve_or_deny call
  else if approvalRequired uses approvals
  then checkApprovalGranted uses approvals (rc_ApprovedActions (tc_Run call))
  else checkSafetyDerived g call.

Definition NewEvaluator (g : ProjectGraph) (pol : option PolicySpec) : PolicyEvaluator :=
  mkPolicyEvaluator
    (λ run, checkExecutionBudgets run (pol ≫= pol_Execution))
    (λ step, checkStructuredOutputRequired step (pol ≫= pol_Execution))
    (evaluator_CheckToolCall g pol)
    pol.

(** [engine.go] *)
Definition resolvePolicy (g : ProjectGraph) (name : string) : option PolicySpec :=
  let name := trim_space name in
  if (name =? "")%string then None else pg_Policies g !! name.
Definition Evaluator (g : ProjectGraph) (policyName : string) : PolicyEvaluator :=
  NewEvaluator g (resolvePolicy g policyName).
Definition EvaluatorForSpec (g : ProjectGraph) (pol : option PolicySpec) : PolicyEvaluator :=
  NewEvaluator g pol.

(** ** The policy compiler ([compile.go]) *)

Record CompiledToolDecision := mkCompiledDecision { cd_Decision : Decision; cd_Source : DecisionSource }.

Record ResidualPolicy := mkResidual {
  rp_ForbidUnknownTools : bool;
  rp_Permissive : bool;
  rp_ShellSafe : bool;
  rp_RequireAllTools : bool;
  rp_RequiredForExact : list string;
  rp_Execution : option PolicyExecution;
  rp_Hitl : option HitlPolicy;
}.

(** [CompiledPolicy] and the payload its digest is taken of. *)
Record compiledDigestPayload := mkPayload {
  cp_PolicyName : string;
  cp_Tools : gmap string CompiledToolDecision;
  cp_PlanTools : gmap string CompiledToolDecision;
  cp_Residual : ResidualPolicy;
}.
Record CompiledPolicy := mkCompiled { cp_payload : compiledDigestPayload; cp_Digest : string }.

Definition presetSource (pol : PolicySpec) : DecisionSource :=
  if (ResolvedPresetName (Some pol) =? "")%string then SourceExplicitPolicyRule else SourcePresetBase.

Definition compileRuntimeTool (g : ProjectGraph) (pol : PolicySpec) (toolName : string)
    : CompiledToolDecision :=
  let toolName := trim_space toolName in
  let safety := resolvedSafetyForTool g toolName in
  if ApprovalPermissive (pol_Approvals pol) then mkCompiledDecision DecisionAllow (presetSource pol)
  else if ApprovalRequireAllTools (pol_Approvals pol)
  then mkCompiledDecision DecisionRequireApproval (presetSource pol)
  else if (ResolvedPresetName (Some pol) =? PresetShellSafe)%string &&
          (rs_RequiresApproval safety || rs_SideEffects safety)
  then mkCompiledDecision DecisionRequireApproval SourcePresetBase
  else mkCompiledDecision (Derive safety) (safety_source g toolName).

Definition compileRuntimeToolDecisions (g : ProjectGraph) (pol : PolicySpec)
    : gmap string CompiledToolDecision :=
  map_imap (λ name _, Some (compileRuntimeTool g pol name)) (tools_of g).

Definition compilePlanToolDecisions (g : ProjectGraph) (pol : PolicySpec)
    : gmap string CompiledToolDecision :=
  map_imap (λ name _, let td := EffectiveToolDecision g (Some pol) name in
    Some (mkCompiledDecision (td_Decision td) (td_Source td))) (tools_of g).

Definition buildResidual (pol : PolicySpec) : ResidualPolicy :=
  mkResidual
    (match pol_Tools pol with Some t => pt_ForbidUnknownTools t | None => false end)
    (ApprovalPermissive (pol_Approvals pol))
    (ResolvedPresetName (Some pol) =? PresetShellSafe)%string
    (ApprovalRequireAllTools (pol_Approvals pol))
    (sort_strings (default [] (pa_RequiredFor <$> pol_Approvals pol)))
    (pol_Execution pol)
    (pol_Hitl pol).

Inductive compile_error :=
  | EmptyPolicyName | UnknownPolicy (name : string) | PresetError (e : preset_error) | DigestError.

Section compile.
(** The SHA-256 of the JSON encoding, [None] when the payload has no encoding. *)
Variable sha256_json : compiledDigestPayload → option string.

(** The merged policy [Compile] works on. *)
Definition merged_policy (g : ProjectGraph) (policyName : string) : res compile_error PolicySpec :=
  let policyName := trim_space policyName in
  if (policyName =? "")%string then Err EmptyPolicyName
  else match resolvePolicy g policyName with
  | None => Err (UnknownPolicy policyName)
  | Some raw =>
      if (trim_space (pol_ResolvedPreset raw) =? "")%string then
        match ResolvePolicySpec raw with Ok m => Ok m | Err e => Err (PresetError e) end
      else Ok raw
  end.

Definition Compile (g : ProjectGraph) (policyName : string) : res compile_error CompiledPolicy :=
  merged ← merged_policy g policyName;
  let payload := mkPayload (trim_space policyName) (compileRuntimeToolDecisions g merged)
    (compilePlanToolDecisions g merged) (buildResidual merged) in
  match sha256_json payload with
  | None => Err DigestError
  | Some digest => mret (mkCompiled payload digest)
  end.

Definition CompileReferenced (g : ProjectGraph) : res compile_error (gmap string CompiledPolicy) :=
  l ← res_traverse (λ name, cp ← Compile g name; mret (name, cp)) (collectReferencedPolicyNames g);
  mret (list_to_map l).

End compile.

Record EffectivePolicyEntry := mkEntry {
  ep_Tool : string; ep_Decision : Decision; ep_Source : DecisionSource
}.
Definition EffectivePolicyEntries (cp : CompiledPolicy) : list EffectivePolicyEntry :=
  let src := if decide (cp_PlanTools (cp_payload cp) = ∅) then cp_Tools (cp_payload cp)
             else cp_PlanTools (cp_payload cp) in
  name ← sorted_keys src;
  match src !! name with
  | Some td => [mkEntry name (cd_Decision td) (cd_Source td)]
  | None => []
  end.

Definition DefaultPolicyName (g : ProjectGraph) : string :=
  let p := trim_space (pg_DefaultPolicy g) in if (p =? "")%string then "default" else p.

(** ** The evaluator of a compiled policy ([compiled_evaluator.go]) *)

Definition checkCompiledStatic (g : ProjectGraph) (cp : CompiledPolicy) (call : ToolCallContext)
    : verdict :=
  match ParseUses (tc_Uses call) with
  | None => denied ReasonInvalidUses (tc_Uses call)
  | Some (toolName, _) =>
      match cp_Tools (cp_payload cp) !! toolName with
      | None => checkSafetyDerived g call
      | Some td =>
          match cd_Decision td with
          | DecisionAllow => None
          | DecisionRequireApproval => approve_or_deny call
          | DecisionDeny => denied ReasonDenied (tc_Uses call)
          end
      end
  end.

Definition compiled_CheckToolCall (g : ProjectGraph) (cp : option CompiledPolicy)
    (call : ToolCallContext) : verdict :=
  let uses := tc_Uses call in
  checkOperationInManifest g uses &>
  match cp with
  | None => checkSafetyDerived g call
  | Some cp =>
      let r := cp_Residual (cp_payload cp) in
      let rf := Some (mkPolicyApprovals (rp_RequiredForExact r) None None) in
      (if rp_ForbidUnknownTools r then checkKnownTool g uses (Some (mkPolicyTools true)) else None) &>
      if rp_Permissive r then None
      else if rp_ShellSafe r then
        if shellSafeRequiresApproval g call || approvalRequired uses rf
        then approve_or_deny call else None
      else if rp_RequireAllTools r then approve_or_deny call
      else if approvalRequired uses rf
      then checkApprovalGranted uses rf (rc_ApprovedActions (tc_Run call))
      else checkCompiledStatic g cp call
  end.

Definition compiled_execution (cp : option CompiledPolicy) : option PolicyExecution :=
  cp ≫= λ cp, rp_Execution (cp_Residual (cp_payload cp)).

Definition NewCompiledEvaluator (g : ProjectGraph) (cp : option CompiledPolicy) : PolicyEvaluator :=
  mkPolicyEvaluator
    (λ run, checkExecutionBudgets run (compiled_execution cp))
    (λ step, checkStructuredOutputRequired step (compiled_execution cp))
    (compiled_CheckToolCall g cp)
    ((λ cp, let r := cp_Residual (cp_payload cp) in
        mkPolicySpec "" "" (rp_Execution r) None None None (rp_Hitl r)) <$> cp).

(** ** Properties *)

Lemma check_then_None m k : (m &> k) = None ↔ m = None ∧ k = None.
Proof. destruct m; simpl; naive_solver. Qed.

Lemma existsb_perm {A} (f : A → bool) l1 l2 : l1 ≡ₚ l2 → existsb f l1 = existsb f l2.
Proof.
  intros Hp. apply eq_true_iff_eq. rewrite !existsb_True.
  setoid_rewrite Hp. done.
Qed.

Lemma approvalRequired_sorted uses a ra pm :
  approvalRequired uses (Some (mkPolicyApprovals (sort_strings (default [] (pa_RequiredFor <$> a))) ra pm))
  = approvalRequired uses a.
Proof.
  unfold approvalRequired. cbn [pa_RequiredFor].
  rewrite (existsb_perm _ _ _ (sort_strings_Permutation _)). by destruct a.
Qed.

Lemma manifest_None g uses :
  checkOperationInManifest g uses = None ↔
  ∀ tool op, ParseUses uses = Some (tool, op) → Allows (ManifestFor (tools_of g) tool) op = true.
Proof.
  unfold checkOperationInManifest. destruct (ParseUses uses) as [[tool op]|]; [|done].
  destruct (Allows _ _) eqn:E; split; try done.
  - by intros _ ? ? [= <- <-].
  - intros Hall. by rewrite (Hall tool op) in E.
Qed.

(** The capability manifest is a hard boundary: no policy, permissive or absent,
    interpreted or compiled, and no approval lets a call of an operation
    outside the tool's manifest through. *)
Theorem CheckToolCall_manifest g pol cp call tool op :
  CheckToolCall (NewEvaluator g pol) call = None ∨
  CheckToolCall (NewCompiledEvaluator g cp) call = None →
  ParseUses (tc_Uses call) = Some (tool, op) →
  Allows (ManifestFor (tools_of g) tool) op = true.
Proof.
  intros [H|H] Hp; apply check_then_None in H as [H _]; by eapply manifest_None.
Qed.

Definition pol_graph : ProjectGraph :=
  mkProjectGraph ∅ ∅
    (Some {[ "gh" := mkToolSpec "mcp" (Some (mkToolSafety (Some true) (Some false) None))
               {[ "get" := mkToolOperation ["github.read"] "" ]} true;
             "sh" := mkToolSpec "native" (Some (mkToolSafety None (Some true) (Some true))) ∅ false ]})
    {[ "permissive" := buildPermissivePreset; "safe" := buildShellSafePreset ]} "".
Definition call_of (uses : string) (approved : list string) (w : list (string * value)) : ToolCallContext :=
  mkToolCallContext (mkRunContext 0 (f64_of_int 0) approved) "s" uses w.
Lemma CheckToolCall_manifest_witness :
  CheckToolCall (Evaluator pol_graph "permissive") (call_of "tool.gh.merge" ["tool.gh.merge"] [])
    = Some (mkDenied ReasonOperationNotInManifest "tool.gh.merge") ∧
  Allows (ManifestFor (tools_of pol_graph) "gh") "get" = true.
Proof.
  split; [vm_compute; reflexivity|].
  apply (CheckToolCall_manifest pol_graph None None (call_of "tool.gh.get" [] []) "gh" "get").
  - left. vm_compute. reflexivity.
  - vm_compute. reflexivity.
Defined.

(** *** The compiled evaluator *)

Section compiled.
Context (sha : compiledDigestPayload → option string).

Lemma Compile_merged g name cp :
  Compile sha g name = Ok cp →
  ∃ merged, merged_policy g name = Ok merged ∧
    cp_Tools (cp_payload cp) = compileRuntimeToolDecisions g merged ∧
    cp_Residual (cp_payload cp) = buildResidual merged.
Proof.
  unfold Compile. intros H. res_inv. destruct (sha _) as [d|]; [|done].
  injection H as <-. by exists a.
Qed.

(** Without a preset or flag that decides first, the table holds the decision of
    the safety metadata. *)
Lemma checkCompiledStatic_safety g cp merged call :
  cp_Tools (cp_payload cp) = compileRuntimeToolDecisions g merged →
  ApprovalPermissive (pol_Approvals merged) = false →
  ApprovalRequireAllTools (pol_Approvals merged) = false →
  (ResolvedPresetName (Some merged) =? PresetShellSafe)%string = false →
  checkCompiledStatic g cp call = checkSafetyDerived g call.
Proof.
  intros Ht Hp Hr Hs. unfold checkCompiledStatic, checkSafetyDerived.
  destruct (ParseUses (tc_Uses call)) as [[tool op]|]; [|done].
  rewrite Ht. unfold compileRuntimeToolDecisions. rewrite map_lookup_imap.
  destruct (tools_of g !! tool) as [ts|]; simpl; [|done].
  unfold compileRuntimeTool. rewrite Hp, Hr, Hs. simpl. unfold approve_or_deny.
  by destruct (Derive _).
Qed.

(** C21: Compiling a policy preserves its meaning: the evaluator of the compiled
    snapshot gives every run, step and tool call the verdict of the evaluator
    that interprets the resolved policy. *)
Theorem NewCompiledEvaluator_equiv g name cp :
  Compile sha g name = Ok cp →
  ∃ merged, merged_policy g name = Ok merged ∧
    (∀ run, CheckRun (NewCompiledEvaluator g (Some cp)) run = CheckRun (NewEvaluator g (Some merged)) run) ∧
    (∀ step, CheckStep (NewCompiledEvaluator g (Some cp)) step = CheckStep (NewEvaluator g (Some merged)) step) ∧
    (∀ call, CheckToolCall (NewCompiledEvaluator g (Some cp)) call =
             CheckToolCall (NewEvaluator g (Some merged)) call).
Proof.
  intros H. destruct (Compile_merged g name cp H) as (merged & Hm & Ht & Hr).
  exists merged. split; [done|]. simpl. unfold compiled_execution. simpl. rewrite Hr.
  split; [done|]. split; [done|]. intros call.
  unfold compiled_CheckToolCall, evaluator_CheckToolCall. rewrite Hr. f_equal.
  unfold buildResidual.
  cbn [rp_ForbidUnknownTools rp_Permissive rp_ShellSafe rp_RequireAllTools rp_RequiredForExact].
  rewrite approvalRequired_sorted. unfold requiresToolCallApproval. cbn [mbind option_bind]. f_equal.
  { destruct (pol_Tools merged) as [[[]]|]; done. }
  destruct (ApprovalPermissive (pol_Approvals merged)) eqn:Ep; [done|].
  destruct ((_ =? PresetShellSafe)%string) eqn:Es; [done|].
  destruct (ApprovalRequireAllTools (pol_Approvals merged)) eqn:Ea; [done|].
  destruct (approvalRequired (tc_Uses call) (pol_Approvals merged)) eqn:Er.
  - unfold checkApprovalGranted. by rewrite approvalRequired_sorted.
  - by eapply checkCompiledStatic_safety.
Qed.

End compiled.

Lemma NewCompiledEvaluator_equiv_witness :
  ∃ cp merged, Compile (λ _, Some "digest") pol_graph "safe" = Ok cp ∧
    CheckToolCall (NewCompiledEvaluator pol_graph (Some cp))
      (call_of "tool.sh.run" [] [("command", VStr "rm x")]) =
    CheckToolCall (NewEvaluator pol_graph (Some merged))
      (call_of "tool.sh.run" [] [("command", VStr "rm x")]).
Proof.
  destruct (Compile (λ _, Some "digest") pol_graph "safe") as [cp|e] eqn:E; [|vm_compute in E; discriminate E].
  destruct (NewCompiledEvaluator_equiv (λ _, Some "digest") pol_graph "safe" cp E)
    as (merged & _ & _ & _ & Hcall).
  exists cp, merged. split; [reflexivity|apply Hcall].
Defined.

(** *** What runs unattended *)

Lemma EffectiveToolDecision_None g tool :
  td_Decision (EffectiveToolDecision g None tool) = Derive (resolvedSafetyForTool g (trim_space tool)).
Proof. reflexivity. Qed.

Lemma checkSafetyDerived_None g call :
  actionApproved (tc_Uses call) (rc_ApprovedActions (tc_Run call)) = false →
  checkSafetyDerived g call = None ↔
  ∃ tool op ts safety, ParseUses (tc_Uses call) = Some (tool, op) ∧
    tools_of g !! trim_space tool = Some ts ∧ tool_Safety ts = Some safety ∧
    rs_RequiresApproval (ResolveToolSafety (Some safety)) = false.
Proof.
  intros Hn. unfold checkSafetyDerived. rewrite Hn.
  destruct (ParseUses (tc_Uses call)) as [[tool op]|]; [|naive_solver].
  rewrite EffectiveToolDecision_None. unfold resolvedSafetyForTool.
  destruct (tools_of g !! trim_space tool) as [ts|] eqn:Et; cbn [mbind option_bind].
  - destruct (tool_Safety ts) as [safety|] eqn:Es.
    + unfold Derive. destruct (rs_RequiresApproval (ResolveToolSafety (Some safety))) eqn:Er.
      * split; [done|]. intros (? & ? & ? & ? & [= <- <-] & Ht & Hs & Hr). congruence.
      * split; [intros _; by exists tool, op, ts, safety|done].
    + split; [done|]. intros (? & ? & ? & ? & [= <- <-] & Ht & Hs & _). congruence.
  - split; [done|]. intros (? & ? & ? & ? & [= <- <-] & Ht & _). congruence.
Qed.

(** The declared safety metadata of the called tool needs no approval. *)
Definition declared_safe (g : ProjectGraph) (uses : string) : Prop :=
  ∃ tool op ts safety, ParseUses uses = Some (tool, op) ∧
    tools_of g !! trim_space tool = Some ts ∧ tool_Safety ts = Some safety ∧
    rs_RequiresApproval (ResolveToolSafety (Some safety)) = false.

Lemma unattended_spec g pol call :
  actionApproved (tc_Uses call) (rc_ApprovedActions (tc_Run call)) = false →
  CheckToolCall (NewEvaluator g pol) call = None ↔
  checkOperationInManifest g (tc_Uses call) = None ∧
  checkKnownTool g (tc_Uses call) (pol ≫= pol_Tools) = None ∧
  (ApprovalPermissive (pol ≫= pol_Approvals) = true ∨
   (approvalRequired (tc_Uses call) (pol ≫= pol_Approvals) = false ∧
    if (ResolvedPresetName pol =? PresetShellSafe)%string
    then shellSafeRequiresApproval g call = false
    else ApprovalRequireAllTools (pol ≫= pol_Approvals) = false ∧ declared_safe g (tc_Uses call))).
Proof.
  intros Hn. simpl. unfold evaluator_CheckToolCall. rewrite !check_then_None.
  unfold requiresToolCallApproval, approve_or_deny, checkApprovalGranted. rewrite Hn.
  destruct (ApprovalPermissive _); [naive_solver|].
  destruct (_ =? PresetShellSafe)%string.
  { destruct (shellSafeRequiresApproval g call), (approvalRequired _ _); simpl; naive_solver. }
  destruct (ApprovalRequireAllTools _); [naive_solver|].
  destruct (approvalRequired _ _); [naive_solver|].
  rewrite (checkSafetyDerived_None g call Hn). unfold declared_safe. naive_solver.
Qed.

(** C22: Approval is fail-closed.  A call nobody approved runs exactly when it passes
    the manifest and the known-tool check and the policy is permissive, or no
    [requiredFor] rule names it and either the [shell_safe] preset classifies
    it as harmless or, under any other policy that does not gate all tools, the
    tool exists and declares safety metadata that needs no approval. *)
Theorem unattended_iff g pol call :
  actionApproved (tc_Uses call) (rc_ApprovedActions (tc_Run call)) = false →
  CheckToolCall (NewEvaluator g pol) call = None ↔
  checkOperationInManifest g (tc_Uses call) = None ∧
  checkKnownTool g (tc_Uses call) (pol ≫= pol_Tools) = None ∧
  (ApprovalPermissive (pol ≫= pol_Approvals) = true ∨
   (approvalRequired (tc_Uses call) (pol ≫= pol_Approvals) = false ∧
    if (ResolvedPresetName pol =? PresetShellSafe)%string
    then shellSafeRequiresApproval g call = false
    else ApprovalRequireAllTools (pol ≫= pol_Approvals) = false ∧ declared_safe g (tc_Uses call))).
Proof. apply unattended_spec. Qed.

Lemma unattended_iff_witness :
  CheckToolCall (NewEvaluator pol_graph None) (call_of "tool.sh.run" [] []) ≠ None ∧
  declared_safe pol_graph "tool.gh.get".
Proof.
  split; [vm_compute; discriminate|].
  assert (CheckToolCall (NewEvaluator pol_graph None) (call_of "tool.gh.get" [] []) = None) as H
    by (vm_compute; reflexivity).
  destruct (proj1 (unattended_iff pol_graph None (call_of "tool.gh.get" [] []) eq_refl) H)
    as (_ & _ & [Hp|(_ & Hs)]); [discriminate Hp|]. exact (proj2 Hs).
Defined.

(** *** Operator approval *)

Definition approve (uses : string) (call : ToolCallContext) : ToolCallContext :=
  let run := tc_Run call in
  mkToolCallContext (mkRunContext (rc_Elapsed run) (rc_AccumulatedCostUSD run) (uses :: rc_ApprovedActions run))
    (tc_StepID call) (tc_Uses call) (tc_With call).

Lemma actionApproved_approve call :
  actionApproved (tc_Uses (approve (tc_Uses call) call)) (rc_ApprovedActions (tc_Run (approve (tc_Uses call) call))) = true.
Proof. simpl. by rewrite String.eqb_refl. Qed.

Definition approval_denied (v : verdict) : Prop := ∃ uses, v = denied ReasonApprovalRequired uses.

Lemma check_then_approval m k :
  ¬ approval_denied m → approval_denied (m &> k) ↔ m = None ∧ approval_denied k.
Proof. destruct m; simpl; naive_solver. Qed.

Lemma manifest_not_approval g uses : ¬ approval_denied (checkOperationInManifest g uses).
Proof.
  unfold checkOperationInManifest, approval_denied, denied.
  intros (u & H). repeat case_match; simplify_eq.
Qed.
Lemma known_not_approval g uses t : ¬ approval_denied (checkKnownTool g uses t).
Proof.
  unfold checkKnownTool, approval_denied, denied. intros (u & H). repeat case_match; simplify_eq.
Qed.

Lemma safety_derived_approved g call :
  approval_denied (checkSafetyDerived g call) → checkSafetyDerived g (approve (tc_Uses call) call) = None.
Proof.
  unfold checkSafetyDerived, approval_denied, denied. rewrite actionApproved_approve. simpl.
  intros (u & H). repeat case_match; simplify_eq; done.
Qed.

(** A human approval resolves the gate it is asked for: when a call is denied
    because it requires approval, the same call with its uses among the
    approved actions is allowed. *)
Theorem approval_resolves_gate g pol call :
  approval_denied (CheckToolCall (NewEvaluator g pol) call) →
  CheckToolCall (NewEvaluator g pol) (approve (tc_Uses call) call) = None.
Proof.
  simpl. unfold evaluator_CheckToolCall. intros H.
  apply check_then_approval in H as [Hm H]; [|apply manifest_not_approval].
  apply check_then_approval in H as [Hk H]; [|apply known_not_approval].
  apply check_then_None. split; [done|]. apply check_then_None. split; [done|].
  unfold approve_or_deny, checkApprovalGranted. rewrite actionApproved_approve.
  change (shellSafeRequiresApproval g (approve (tc_Uses call) call)) with (shellSafeRequiresApproval g call).
  destruct (ApprovalPermissive _); [done|].
  destruct (_ =? PresetShellSafe)%string; [by destruct (_ || _)|].
  destruct (requiresToolCallApproval pol); [done|]. simpl.
  destruct (approvalRequired _ _); [done|]. by apply safety_derived_approved.
Qed.

Lemma approval_resolves_gate_witness :
  CheckToolCall (NewEvaluator pol_graph None) (call_of "tool.sh.run" ["tool.sh.run"] []) = None.
Proof.
  apply (approval_resolves_gate pol_graph None (call_of "tool.sh.run" [] [])).
  exists "tool.sh.run". vm_compute. reflexivity.
Defined.

(** *** Plan and run time *)

(** Outside the [shell_safe] preset the plan is conservative: when it shows a tool
    as allowed, no call of the tool is stopped for approval at run time. *)
Theorem plan_conservative g pol tool op call :
  ParseUses (tc_Uses call) = Some (tool, op) → trim_space tool = tool →
  ResolvedPresetName pol ≠ PresetShellSafe →
  td_Decision (EffectiveToolDecision g pol tool) = DecisionAllow →
  ¬ approval_denied (CheckToolCall (NewEvaluator g pol) call).
Proof.
  intros Hp Ht Hs. unfold EffectiveToolDecision. rewrite (proj2 (String.eqb_neq _ _) Hs). cbn [andb].
  simpl. unfold evaluator_CheckToolCall, requiresToolCallApproval.
  rewrite (proj2 (String.eqb_neq _ _) Hs). intros Hd.
  rewrite check_then_approval by apply manifest_not_approval.
  rewrite check_then_approval by apply known_not_approval. intros (_ & _ & H).
  destruct (ApprovalPermissive _); [by destruct H|].
  destruct (ApprovalRequireAllTools _); [done|].
  destruct (existsb _ _) eqn:Ex; [done|]. simpl in Hd.
  assert (approvalRequired (tc_Uses call) (pol ≫= pol_Approvals) = false) as Hr.
  { unfold approvalRequired. destruct (pol ≫= pol_Approvals) as [a|]; [|done].
    apply existsb_False. intros r Hr. rewrite existsb_False in Ex. specialize (Ex r Hr). bool_inv.
    apply String.eqb_neq. intros Heq. apply not_true_iff_false in H1. apply H1.
    apply has_prefix_spec. exists op. rewrite Heq, (ParseUses_prefix _ _ _ Hp). unfold toolUsesPrefix, uses_of.
    by rewrite trim_space_idemp, Ht, !string_app_assoc. }
  rewrite Hr in H. destruct H as [u H]. unfold checkSafetyDerived in H.
  rewrite Hp, EffectiveToolDecision_None, Hd in H. done.
Qed.

Lemma plan_conservative_witness :
  ¬ approval_denied (CheckToolCall (NewEvaluator pol_graph None) (call_of "tool.gh.get" [] [])).
Proof.
  apply (plan_conservative pol_graph None "gh" "get"); [vm_compute; reflexivity|reflexivity|discriminate|].
  vm_compute. reflexivity.
Defined.

(** Under [shell_safe] the plan is not: a tool without side effects is shown as
    allowed, and its shell operation is gated. *)
Definition quiet_graph : ProjectGraph :=
  mkProjectGraph ∅ ∅
    (Some {[ "sh" := mkToolSpec "native" (Some (mkToolSafety (Some true) (Some false) (Some false))) ∅ false ]})
    ∅ "".
Theorem plan_shell_safe_not_conservative :
  td_Decision (EffectiveToolDecision quiet_graph (Some buildShellSafePreset) "sh") = DecisionAllow ∧
  approval_denied (CheckToolCall (NewEvaluator quiet_graph (Some buildShellSafePreset))
    (call_of "tool.sh.run" [] [("command", VStr "rm x")])).
Proof. split; [vm_compute; reflexivity|]. exists "tool.sh.run". vm_compute. reflexivity. Qed.

(** A wall-clock limit above 2^63 nanoseconds wraps around: the largest limits deny a
    run that has not started. *)
Theorem wall_clock_overflow :
  checkExecutionBudgets (mkRunContext 0 (f64_of_int 0) [])
    (Some (mkPolicyExecution 10000000000 (f64_of_int 0) 0 false)) = denied ReasonMaxWallClock "".
Proof. vm_compute. reflexivity. Qed.
