(* ===== verification/EffectsRuntime.v ===== *)
(** * Static guarantees at run time

    What the static checks of [internal/effects] promise about the evaluators of
    [internal/policy]: an operation that is statically gated is never executed
    unattended, unless the policy is the [shell_safe] preset. *)

From S2P Require Import Prelude GoNum GoText Value SpecTools SpecPolicy.
From S2P Require Import ShellTokens Policy EffectsCompute EffectsCheck.

(** The tool name of a uses string, without surrounding blanks. *)
Definition clean_uses (uses : string) : Prop :=
  ∃ tool op, ParseUses uses = Some (tool, op) ∧ trim_space tool = tool.

(** The static approval check implies the run-time gate. *)
Lemma witnessing_gates g pol call :
  clean_uses (tc_Uses call) → ResolvedPresetName pol ≠ PresetShellSafe →
  actionApproved (tc_Uses call) (rc_ApprovedActions (tc_Run call)) = false →
  witnessingRequiresApproval g pol (tc_Uses call) = true →
  CheckToolCall (NewEvaluator g pol) call ≠ None.
Proof.
  intros (tool & op & Hp & Ht) Hs Hn Hw H.
  apply unattended_spec in H as (_ & _ & Hor); [|done].
  rewrite (proj2 (String.eqb_neq _ _) Hs) in Hor. unfold witnessingRequiresApproval in Hw.
  destruct (ApprovalPermissive _); [done|]. destruct Hor as [|(Hr & Ha & Hd)]; [done|].
  rewrite Ha in Hw. destruct Hd as (tool' & op' & ts & safety & Hp' & Hts & Hsf & Hra).
  rewrite Hp in Hp'. injection Hp' as <- <-. rewrite Ht in Hts.
  rewrite Hp, Hts in Hw. simpl in Hw. rewrite Hsf in Hw.
  destruct (existsb _ _) eqn:Ex; [|simpl in *; congruence].
  unfold approvalRequired in Hr. destruct (pol ≫= pol_Approvals); simpl in *; congruence.
Qed.

(** C27: A capability assertion holds at run time: when [Evaluate] accepts that an
    operation is gated, then under the policy of every root that reaches it
    (other than [shell_safe]) no call of it without a human approval passes
    the policy evaluator. *)
Theorem expectGated_runtime g uses name pol R reach gr hops call :
  plain_names g → pg_Workflows g !! "" = None → trim_space uses ≠ "" →
  Evaluate (mkCapabilityAssertions [] [] [uses]) g = [] →
  checked_root g name pol R → R reach gr hops → trim_space (g_uses gr) = trim_space uses →
  ResolvedPresetName pol ≠ PresetShellSafe → tc_Uses call = trim_space uses →
  clean_uses (tc_Uses call) →
  actionApproved (tc_Uses call) (rc_ApprovedActions (tc_Run call)) = false →
  CheckToolCall (NewEvaluator g pol) call ≠ None.
Proof.
  intros Hpl Hwn Hu He Hroot HR Hg Hs Hc Hcl Hn. apply witnessing_gates; [done..|].
  unfold Evaluate in He. apply app_nil in He as [_ [_ He]%app_nil]. simpl in He.
  destruct (gated_violation g (Compute g) uses) eqn:Ev; [done|].
  apply gated_violation_None in Ev as [_ Hall]; [|done..]. rewrite Hc. by eapply Hall.
Qed.

Lemma expectGated_runtime_witness :
  CheckToolCall (NewEvaluator demo_strict (Some strict_ci)) (call_of "tool.gh.merge" [] []) ≠ None.
Proof.
  apply (expectGated_runtime demo_strict "tool.gh.merge" "sub" (Some strict_ci)
    (witnessed demo_strict ∅ "sub") Autonomous (parseGrant "tool.gh.merge")
    ([workflow_hop "sub"] ++ [step_hop (mkWorkflowStep "review" "" "rev" "")] ++
     [mkHop KindAgent "rev" "" Static] ++ [tool_hop (parseGrant "tool.gh.merge") Autonomous])).
  - apply demo_plain.
  - reflexivity.
  - vm_compute. discriminate.
  - vm_compute. reflexivity.
  - apply (root_workflow demo_strict "sub" demo_sub). reflexivity.
  - exists "sub", [workflow_hop "sub"], demo_sub, (mkWorkflowStep "review" "" "rev" ""),
      [mkHop KindAgent "rev" "" Static].
    split; [constructor|]. split; [reflexivity|]. split; [left|]. split; [|reflexivity].
    apply sg_agent; [vm_compute; discriminate|]. vm_compute. left.
  - reflexivity.
  - vm_compute. discriminate.
  - reflexivity.
  - exists "gh", "merge". split; vm_compute; reflexivity.
  - vm_compute. reflexivity.
Defined.

(** Under [shell_safe] it does not hold: the static check looks at the safety metadata
    of the tool, the evaluator at the command. *)
Definition shell_graph : ProjectGraph :=
  mkProjectGraph ∅ {[ "main" := mkWorkflowSpec "safe" [mkWorkflowStep "s" "tool.sh.run" "" ""] ]}
    (Some {[ "sh" := mkToolSpec "native" None {[ "run" := mkToolOperation ["exec"] "" ]} true ]})
    {[ "safe" := buildShellSafePreset ]} "".
Theorem expectGated_shell_safe :
  Evaluate (mkCapabilityAssertions [] [] ["tool.sh.run"]) shell_graph = [] ∧
  CheckToolCall (Evaluator shell_graph "safe")
    (call_of "tool.sh.run" [] [("command", VStr "cat secret")]) = None.
Proof. split; vm_compute; reflexivity. Qed.
