(* ===== verification/PolicyHitl.v ===== *)
(** * Human-in-the-loop review ([internal/policy/hitl.go], [hitl_edit.go])

    The review configuration of a gated call, the operator's decision and the
    validation of edited arguments.  Arguments are [value] objects in key order;
    where two dotted paths of an argument tree collide, Go's map order picks
    the surviving one and the model keeps the last in key order. *)

From S2P Require Import Prelude GoNum GoText Value SpecTools SpecPolicy ShellTokens Policy.

(** ** [hitl.go] *)

Definition hitlDecisionNone : HitlDecisionKind := String "000" "terfyn-deny-all".

Definition collapseDenyAll (decisions : list HitlDecisionKind) : list HitlDecisionKind :=
  if str_mem hitlDecisionNone decisions then [] else decisions.

Record ResolvedHitlReview := mkReview {
  rv_Description : string;
  rv_AllowedDecisions : list HitlDecisionKind;
  rv_AllowedEditArgs : list string;
  rv_DeniedEditArgs : list string;
  rv_AllowedEditPaths : list string;
  rv_DeniedEditPaths : list string;
  rv_SwitchTargets : list string;
  rv_RedactKeys : list string;
}.
Record HitlGate := mkHitlGate {
  hg_Uses : string; hg_With : list (string * value); hg_Review : ResolvedHitlReview
}.

Definition uniqueStrings (l : list string) : list string :=
  dedup id (List.filter (λ s, negb (s =? "")%string) (trim_space <$> l)).

Definition hitlConfigRedact (cfg : option HitlInterruptConfig) : list string :=
  default [] (hc_RedactKeys <$> cfg).

Definition map_targets (m : gmap string (list string)) (operation : string) : list string :=
  default [] (m !! operation).

Definition nonempty {A} (l : list A) : bool := match l with [] => false | _ => true end.

Definition hasSwitchTargets (cfg : option HitlInterruptConfig) (policySwitch : gmap string (list string))
    (operation : string) : bool :=
  match cfg with
  | Some c => nonempty (hc_AllowedEditTools c) || nonempty (map_targets (hc_SwitchMap c) operation)
  | None => false
  end || nonempty (map_targets policySwitch operation).

(** The config declares rules for edited arguments. *)
Definition has_edit_rules (c : HitlInterruptConfig) : bool :=
  nonempty (hc_AllowedEditArgs c) || nonempty (hc_AllowedEditPaths c) ||
  nonempty (hc_DeniedEditArgs c) || nonempty (hc_DeniedEditPaths c).

Definition defaultHitlDecisions (cfg : option HitlInterruptConfig)
    (policySwitch : gmap string (list string)) (operation : string) : list HitlDecisionKind :=
  match cfg with
  | Some c =>
      match hc_AllowedDecisions c with
      | [] => [HitlDecisionApprove; HitlDecisionReject] ++
              (if has_edit_rules c then [HitlDecisionEdit] else []) ++
              (if hasSwitchTargets cfg policySwitch operation then [HitlDecisionSwitch] else [])
      | ds => ds
      end
  | None => [HitlDecisionApprove; HitlDecisionReject] ++
            (if hasSwitchTargets cfg policySwitch operation then [HitlDecisionSwitch] else [])
  end.

Definition resolveSwitchTargets (cfg : option HitlInterruptConfig)
    (policySwitch : gmap string (list string)) (operation : string) : list string :=
  uniqueStrings
    (match cfg with
     | Some c => hc_AllowedEditTools c ++ map_targets (hc_SwitchMap c) operation
     | None => []
     end ++ map_targets policySwitch operation).

(** [strings.NewReplacer]: at each position the first pair that matches. *)
Fixpoint replace_first (pairs : list (string * string)) (s : string) : option (string * string) :=
  match pairs with
  | [] => None
  | (old, new) :: pairs =>
      if has_prefix s old then Some (new, trim_prefix s old) else replace_first pairs s
  end.
Fixpoint replacer (fuel : nat) (pairs : list (string * string)) (s : string) : string :=
  match fuel, s with
  | S fuel, String c s' =>
      match replace_first pairs s with
      | Some (new, rest) => new +:+ replacer fuel pairs rest
      | None => String c (replacer fuel pairs s')
      end
  | _, _ => s
  end.
Definition renderHitlDescription (tmpl uses toolName operation : string) : string :=
  replacer (String.length tmpl)
    [("${tool}", toolName); ("${uses}", uses); ("${operation}", operation)] tmpl.

(** The review config of the tool, when [interruptOn] enables it. *)
Definition interrupt_config (h : option HitlPolicy) (toolName : string) : option HitlInterruptConfig :=
  match h ≫= λ h, hp_InterruptOn h !! toolName with
  | Some iv => if hv_Enabled iv then hv_Config iv else None
  | None => None
  end.

Inductive hitl_error :=
  | BadUses (uses : string)
  | DecisionNotAllowed (k : HitlDecisionKind)
  | ErrHitlRejected
  | EditNeedsArgs
  | SwitchNeedsTarget
  | SwitchNotAllowed (target : string)
  | UnknownDecision (k : HitlDecisionKind)
  | EditedNil
  | DeniedPath (path : string)
  | MissingPath (path : string)
  | ChangedPath (path : string)
  | AddedPath (path : string)
  | CallDenied (d : DeniedError).

Definition ResolveHitlReview (pol : option PolicySpec) (uses : string)
    : res hitl_error ResolvedHitlReview :=
  match ParseUses uses with
  | None => Err (BadUses uses)
  | Some (toolName, operation) =>
      let hitl := pol ≫= pol_Hitl in
      let cfg := interrupt_config hitl toolName in
      let prefix := match hitl with
        | Some h => let p := trim_space (hp_DescriptionPrefix h) in
                    if (p =? "")%string then DefaultHitlDescriptionPrefix else p
        | None => DefaultHitlDescriptionPrefix end in
      let redact := default [] (hp_RedactKeys <$> hitl) in
      let switchMap := default ∅ (hp_ToolSwitchMap <$> hitl) in
      let description := default "" (hc_Description <$> cfg) in
      let desc := if (trim_space description =? "")%string then prefix +:+ (": " +:+ uses)
                  else renderHitlDescription description uses toolName operation in
      let redactKeys := uniqueStrings (redact ++ hitlConfigRedact cfg) in
      let targets := resolveSwitchTargets cfg switchMap operation in
      Ok (mkReview desc
        (collapseDenyAll (defaultHitlDecisions cfg switchMap operation))
        (default [] (hc_AllowedEditArgs <$> cfg))
        (default [] (hc_DeniedEditArgs <$> cfg))
        (default [] (hc_AllowedEditPaths <$> cfg))
        (default [] (hc_DeniedEditPaths <$> cfg))
        (match cfg with
         | Some c => if nonempty (hc_AllowedEditTools c)
                     then uniqueStrings (targets ++ hc_AllowedEditTools c) else targets
         | None => targets end)
        (match cfg with
         | Some c => uniqueStrings (redactKeys ++ hc_RedactKeys c)
         | None => redactKeys end))
  end.

Definition ToolCallNeedsHitlWithEvaluator (ev : PolicyEvaluator) (call : ToolCallContext)
    : res DeniedError bool :=
  if actionApproved (tc_Uses call) (rc_ApprovedActions (tc_Run call)) then Ok false
  else match CheckToolCall ev call with
       | None => Ok false
       | Some d => if (de_Reason d =? ReasonApprovalRequired)%string then Ok true else Err d
       end.
Definition ToolCallNeedsHitl (g : ProjectGraph) (pol : option PolicySpec) (call : ToolCallContext)
    : res DeniedError bool :=
  ToolCallNeedsHitlWithEvaluator (NewEvaluator g pol) call.

Definition BuildHitlGateWithEvaluator (ev : PolicyEvaluator) (pol : option PolicySpec)
    (call : ToolCallContext) : res hitl_error (option HitlGate) :=
  match ToolCallNeedsHitlWithEvaluator ev call with
  | Err d => Err (CallDenied d)
  | Ok false => Ok None
  | Ok true =>
      review ← ResolveHitlReview pol (tc_Uses call);
      mret (Some (mkHitlGate (tc_Uses call) (tc_With call) review))
  end.
Definition BuildHitlGate (g : ProjectGraph) (pol : option PolicySpec) (call : ToolCallContext)
    : res hitl_error (option HitlGate) :=
  BuildHitlGateWithEvaluator (NewEvaluator g pol) pol call.

(** ** [hitl_edit.go] *)

Record HitlDecisionInput := mkHitlInput {
  hi_Kind : HitlDecisionKind;
  hi_Actor : string;
  hi_EditedWith : option (list (string * value));
  hi_SwitchTarget : string;
}.

Definition IsDecisionAllowed (kind : HitlDecisionKind) (allowed : list HitlDecisionKind) : bool :=
  existsb (λ a, (a =? kind)%string) allowed.

Definition switchTargetAllowed (target : string) (allowed : list string) : bool :=
  existsb (λ a, (trim_space a =? trim_space target)%string) allowed.

Definition switchUses (sourceUses targetOperation : string) : res hitl_error string :=
  match ParseUses sourceUses with
  | None => Err (BadUses sourceUses)
  | Some (toolName, _) =>
      let target := trim_space targetOperation in
      if (target =? "")%string then Err SwitchNeedsTarget else Ok (uses_of toolName target)
  end.

Definition topLevelKey (path : string) : string :=
  match cut_byte dot path with Some (a, _) => a | None => path end.

Definition pathAllowed (path : string) (allowedPaths allowedArgs : list string) : bool :=
  existsb (λ a, let a := trim_space a in
    (a =? "*")%string || (a =? path)%string || (topLevelKey path =? a)%string) allowedArgs ||
  existsb (λ p, let p := trim_space p in
    (p =? "*")%string || (p =? path)%string || has_prefix path (p +:+ ".")) allowedPaths.

Definition pathDenied (path : string) (deniedPaths deniedArgs : list string) : bool :=
  existsb (λ d, let d := trim_space d in
    (d =? "*")%string || (d =? path)%string || (topLevelKey path =? d)%string) deniedArgs ||
  existsb (λ d, let d := trim_space d in
    (d =? "*")%string || (d =? path)%string || has_prefix path (d +:+ ".") ||
    has_prefix d (path +:+ ".")) deniedPaths.

Definition sub_key (prefix k : string) : string :=
  if (prefix =? "")%string then k else prefix +:+ ("." +:+ k).

Fixpoint flattenInto (prefix : string) (v : value) (out : list (string * value))
    : list (string * value) :=
  match v with
  | VMap m =>
      (fix go (m : list (string * value)) (out : list (string * value)) :=
         match m with
         | [] => out
         | (k, child) :: m =>
             let key := sub_key prefix k in
             go m (match child with
                   | VMap _ => flattenInto key child out
                   | _ => map_set out key child
                   end)
         end) m out
  | _ => if (prefix =? "")%string then out else map_set out prefix v
  end.
Definition flattenArgs (m : list (string * value)) : list (string * value) :=
  flattenInto "" (VMap m) [].

(** [reflect.DeepEqual] on JSON values. *)
Fixpoint deep_equal (a b : value) : bool :=
  match a, b with
  | VNil, VNil => true
  | VBool x, VBool y => Bool.eqb x y
  | VInt x, VInt y => (x =? y)%Z
  | VFloat x, VFloat y => f64_eqb x y
  | VStr x, VStr y => (x =? y)%string
  | VList l, VList l' =>
      (fix go (l l' : list value) := match l, l' with
         | [], [] => true
         | x :: l, y :: l' => deep_equal x y && go l l'
         | _, _ => false end) l l'
  | VMap m, VMap m' =>
      (fix go (m m' : list (string * value)) := match m, m' with
         | [], [] => true
         | (k, x) :: m, (k', y) :: m' => (k =? k')%string && deep_equal x y && go m m'
         | _, _ => false end) m m'
  | _, _ => false
  end.

(** [valuesEqual] of [hitl_edit.go]. *)
Definition argsEqual (a b : value) : bool :=
  if deep_equal a b then true
  else match json_marshal a, json_marshal b with
       | Some x, Some y => (x =? y)%string
       | _, _ => false
       end.

(** The first loop: every path of the original. *)
Definition check_original (review : ResolvedHitlReview) (editFlat : list (string * value))
    (kv : string * value) : res hitl_error unit :=
  let '(path, origVal) := kv in
  let denied := pathDenied path (rv_DeniedEditPaths review) (rv_DeniedEditArgs review) in
  let allowed := pathAllowed path (rv_AllowedEditPaths review) (rv_AllowedEditArgs review) in
  match map_get editFlat path with
  | None => if denied then Err (DeniedPath path) else if allowed then Ok () else Err (MissingPath path)
  | Some newVal =>
      if denied && negb (argsEqual origVal newVal) then Err (DeniedPath path)
      else if negb allowed && negb (argsEqual origVal newVal) then Err (ChangedPath path)
      else Ok ()
  end.
(** The second loop: the paths only the edited arguments have. *)
Definition check_added (review : ResolvedHitlReview) (origFlat : list (string * value))
    (kv : string * value) : res hitl_error unit :=
  let '(path, _) := kv in
  match map_get origFlat path with
  | Some _ => Ok ()
  | None =>
      if pathDenied path (rv_DeniedEditPaths review) (rv_DeniedEditArgs review)
      then Err (DeniedPath path)
      else if pathAllowed path (rv_AllowedEditPaths review) (rv_AllowedEditArgs review)
      then Ok () else Err (AddedPath path)
  end.

Definition ValidateHitlEdit (original : list (string * value)) (edited : option (list (string * value)))
    (review : ResolvedHitlReview) : res hitl_error unit :=
  match edited with
  | None => Err EditedNil
  | Some edited =>
      let origFlat := flattenArgs original in
      let editFlat := flattenArgs edited in
      _ ← res_traverse (check_original review editFlat) origFlat;
      _ ← res_traverse (check_added review origFlat) editFlat;
      Ok ()
  end.

Definition ApplyHitlDecision (gate : HitlGate) (i : HitlDecisionInput)
    : res hitl_error (string * list (string * value)) :=
  let review := hg_Review gate in
  let k := hi_Kind i in
  if negb (IsDecisionAllowed k (rv_AllowedDecisions review)) then Err (DecisionNotAllowed k)
  else if (k =? HitlDecisionApprove)%string then Ok (hg_Uses gate, hg_With gate)
  else if (k =? HitlDecisionReject)%string then Err ErrHitlRejected
  else if (k =? HitlDecisionEdit)%string then
    match hi_EditedWith i with
    | None => Err EditNeedsArgs
    | Some edited =>
        _ ← ValidateHitlEdit (hg_With gate) (Some edited) review; mret (hg_Uses gate, edited)
    end
  else if (k =? HitlDecisionSwitch)%string then
    let target := trim_space (hi_SwitchTarget i) in
    if (target =? "")%string then Err SwitchNeedsTarget
    else if negb (switchTargetAllowed target (rv_SwitchTargets review)) then Err (SwitchNotAllowed target)
    else newUses ← switchUses (hg_Uses gate) target; mret (newUses, hg_With gate)
  else Err (UnknownDecision k).

(** The changed paths of an edit, with the old and the new value. *)
Definition HitlArgsDiff (original edited : list (string * value)) : list (string * value) :=
  let origFlat := flattenArgs original in
  let editFlat := flattenArgs edited in
  let change from to := VMap [("from", from); ("to", to)] in
  let d := foldl (λ d kv,
      match map_get origFlat kv.1 with
      | None => map_set d kv.1 (change VNil kv.2)
      | Some oldVal => if argsEqual oldVal kv.2 then d else map_set d kv.1 (change oldVal kv.2)
      end) [] editFlat in
  foldl (λ d kv, match map_get editFlat kv.1 with
    | Some _ => d | None => map_set d kv.1 (change kv.2 VNil) end) d origFlat.

(** *** Redaction *)

Definition RedactedSecretPlaceholder : string :=
  of_chars (concat (repeat (bytes [226; 128; 162]%N) 6)).

Fixpoint str_contains (s p : string) : bool :=
  has_prefix s p || match s with EmptyString => false | String _ s => str_contains s p end.

(** Keys and patterns are compared in lower case ([to_lower]: ASCII letters). *)
Definition redactKeyMatches (key : string) (patterns : list string) : bool :=
  existsb (λ p, negb (p =? "")%string && str_contains (to_lower (trim_space key)) p) patterns.

Fixpoint redactHitlValue (patterns : list string) (v : value) : value :=
  match v with
  | VMap m => VMap ((fix go (m : list (string * value)) := match m with
      | [] => []
      | (k, child) :: m =>
          (k, if redactKeyMatches k patterns then VStr RedactedSecretPlaceholder
              else redactHitlValue patterns child) :: go m end) m)
  | VList l => VList ((fix go (l : list value) := match l with
      | [] => [] | x :: l => redactHitlValue patterns x :: go l end) l)
  | v => v
  end.

Definition redact_patterns (redactKeys : list string) : list string :=
  List.filter (λ k, negb (k =? "")%string) ((λ k, to_lower (trim_space k)) <$> redactKeys).

Definition RedactHitlArgs (args : list (string * value)) (redactKeys : list string)
    : list (string * value) :=
  match redactKeys with
  | [] => args
  | _ => match redactHitlValue (redact_patterns redactKeys) (VMap args) with VMap out => out | _ => [] end
  end.

(** ** Properties *)

(** *** Flattened arguments *)

Lemma map_set_keys m k v x : x ∈ fst <$> map_set m k v → x = k ∨ x ∈ fst <$> m.
Proof.
  induction m as [|[k' v'] m IH]; simpl.
  - rewrite list_elem_of_singleton. by left.
  - repeat case_decide; simpl; rewrite ?elem_of_cons; naive_solver.
Qed.

Lemma map_set_sorted m k v :
  StronglySorted slt (fst <$> m) → StronglySorted slt (fst <$> map_set m k v).
Proof.
  induction m as [|[k' v'] m IH]; simpl; intros Hs; [by repeat constructor|].
  apply StronglySorted_inv in Hs as [Hs Hall]. rewrite Forall_forall in Hall.
  case_decide as Hk; [subst; constructor; [done|by apply Forall_forall]|].
  case_decide as Hle; simpl.
  - constructor; [constructor; [done|by apply Forall_forall]|].
    apply Forall_forall. intros x [->|Hx]%elem_of_cons; [done|].
    destruct (Hall x Hx) as [Hlt Hne]. split; [by etrans|].
    intros ->. by apply Hne, (anti_symm String.le).
  - constructor; [by apply IH|]. apply Forall_forall. intros x [->|Hx]%map_set_keys; [|by apply Hall].
    split; [|done]. by destruct (total String.le k' k).
Qed.

Lemma flattenInto_sorted v : ∀ prefix out,
  StronglySorted slt (fst <$> out) → StronglySorted slt (fst <$> flattenInto prefix v out).
Proof.
  induction v as [| | | | | |m IH] using value_nested_ind; intros prefix out Hs; simpl;
    try (case_match; [done|by apply map_set_sorted]).
  revert out Hs. induction IH as [|[k child] m Hchild _ IHm]; intros out Hs; [done|].
  apply IHm. destruct child; try (by apply map_set_sorted). by apply Hchild.
Qed.

Lemma flattenArgs_NoDup m : NoDup (fst <$> flattenArgs m).
Proof. apply slt_sorted_NoDup, flattenInto_sorted. constructor. Qed.

Lemma res_traverse_unit {E A} (f : A → res E unit) l :
  (∃ us, res_traverse f l = Ok us) ↔ ∀ x, x ∈ l → f x = Ok ().
Proof.
  split.
  - intros [us H] x Hx. apply res_traverse_Forall2 in H.
    apply list_elem_of_lookup in Hx as [i Hi].
    destruct (Forall2_lookup_l _ _ _ _ _ H Hi) as ([] & _ & ?). done.
  - intros H. exists ((λ _, ()) <$> l). apply res_traverse_Forall2, Forall2_fmap_r, Forall2_same_length_lookup.
    split; [done|]. intros i x y Hx Hy. rewrite Hx in Hy. injection Hy as <-.
    apply H. by eapply list_elem_of_lookup_2.
Qed.

(** *** Edited arguments *)

(** The operator may change the value at the path. *)
Definition editable (rv : ResolvedHitlReview) (path : string) : Prop :=
  pathAllowed path (rv_AllowedEditPaths rv) (rv_AllowedEditArgs rv) = true ∧
  pathDenied path (rv_DeniedEditPaths rv) (rv_DeniedEditArgs rv) = false.

Definition path_ok (rv : ResolvedHitlReview) (path : string) (o n : option value) : Prop :=
  match o, n with
  | None, None => True
  | Some o, Some n => argsEqual o n = true ∨ editable rv path
  | _, _ => editable rv path
  end.

Lemma ValidateHitlEdit_spec original edited rv :
  ValidateHitlEdit original (Some edited) rv = Ok () ↔
  ∀ path, path_ok rv path (map_get (flattenArgs original) path) (map_get (flattenArgs edited) path).
Proof.
  set (origF := flattenArgs original). set (ef := flattenArgs edited).
  assert (NoDup (fst <$> origF) ∧ NoDup (fst <$> ef)) as [Hno Hne] by (split; apply flattenArgs_NoDup).
  transitivity ((∀ kv, kv ∈ origF → check_original rv ef kv = Ok ()) ∧
                (∀ kv, kv ∈ ef → check_added rv origF kv = Ok ())).
  { rewrite <-!res_traverse_unit. unfold ValidateHitlEdit. fold origF ef. rewrite bind_Ok.
    setoid_rewrite bind_Ok. naive_solver. }
  split.
  - intros [H1 H2] path. unfold path_ok, editable.
    destruct (map_get origF path) as [o|] eqn:Eo.
    + specialize (H1 (path, o) (map_get_elem _ _ _ Eo)). unfold check_original in H1.
      destruct (map_get ef path) as [n|] eqn:En.
      * destruct (pathDenied _ _ _), (pathAllowed _ _ _), (argsEqual o n); simpl in *; naive_solver.
      * destruct (pathDenied _ _ _), (pathAllowed _ _ _); simpl in *; naive_solver.
    + destruct (map_get ef path) as [n|] eqn:En; [|done].
      specialize (H2 (path, n) (map_get_elem _ _ _ En)). unfold check_added in H2. rewrite Eo in H2.
      destruct (pathDenied _ _ _), (pathAllowed _ _ _); simpl in *; naive_solver.
  - intros H. split; intros [path v] Hin; specialize (H path); unfold path_ok, editable in H.
    + apply (map_get_Some _ _ _ Hno) in Hin. rewrite Hin in H. unfold check_original.
      destruct (map_get ef path) as [n|]; destruct (pathDenied _ _ _), (pathAllowed _ _ _); simpl in *;
        try destruct (argsEqual v n); naive_solver.
    + apply (map_get_Some _ _ _ Hne) in Hin. rewrite Hin in H. unfold check_added.
      destruct (map_get origF path) as [n|]; [done|].
      destruct (pathDenied _ _ _), (pathAllowed _ _ _); simpl in *; naive_solver.
Qed.

(** An edit is accepted exactly when every flattened path whose value changes,
    appears or disappears is covered by an allow rule and by no deny rule. *)
Theorem ValidateHitlEdit_iff original edited rv :
  ValidateHitlEdit original (Some edited) rv = Ok () ↔
  ∀ path, path_ok rv path (map_get (flattenArgs original) path) (map_get (flattenArgs edited) path).
Proof. apply ValidateHitlEdit_spec. Qed.

Definition deny_all_review : ResolvedHitlReview :=
  mkReview "" [HitlDecisionEdit] [] [] [] ["*"] [] [].

(** The paths are those of the flattened trees: an empty object has none, so it is
    added (or dropped) without any allow rule ... *)
Theorem edit_adds_empty_object :
  ValidateHitlEdit [("amount", VInt 5)] (Some [("admin", VMap []); ("amount", VInt 5)]) deny_all_review
    = Ok ().
Proof. vm_compute. reflexivity. Qed.

(** ... and a dotted key has the path of a nested one, so a denied argument can be
    moved out of its object. *)
Theorem edit_moves_denied_path :
  ValidateHitlEdit [("payment", VMap [("amount", VInt 5)])] (Some [("payment.amount", VInt 5)])
    deny_all_review = Ok ().
Proof. vm_compute. reflexivity. Qed.

(** *** Decisions *)

Lemma str_mem_existsb k l : existsb (λ a, (a =? k)%string) l = true ↔ k ∈ l.
Proof. apply str_mem_spec. Qed.

(** C25: A decision never widens the authority of the gate: what it releases is a call
    of the same tool, decided by an allowed kind of decision, either the gated
    operation or, by a switch, one of the listed targets; and its arguments are
    the gated ones or an edit that passed validation. *)
Theorem ApplyHitlDecision_authority gate i uses w tool op :
  ParseUses (hg_Uses gate) = Some (tool, op) → trim_space tool = tool →
  ApplyHitlDecision gate i = Ok (uses, w) →
  hi_Kind i ∈ rv_AllowedDecisions (hg_Review gate) ∧
  (∃ op', ParseUses uses = Some (tool, op') ∧
    (uses = hg_Uses gate ∨
     hi_Kind i = HitlDecisionSwitch ∧ ∃ t, t ∈ rv_SwitchTargets (hg_Review gate) ∧ trim_space t = op')) ∧
  (w = hg_With gate ∨
   hi_Kind i = HitlDecisionEdit ∧ uses = hg_Uses gate ∧
   ∀ path, path_ok (hg_Review gate) path (map_get (flattenArgs (hg_With gate)) path)
             (map_get (flattenArgs w) path)).
Proof.
  intros Hp Ht. unfold ApplyHitlDecision. cbv zeta.
  destruct (IsDecisionAllowed _ _) eqn:Ea; [|done]. cbn [negb].
  apply str_mem_existsb in Ea.
  destruct (String.eqb_spec (hi_Kind i) HitlDecisionApprove).
  { intros [= <- <-]. split; [done|]. split; [|by left]. exists op. auto. }
  destruct (String.eqb_spec (hi_Kind i) HitlDecisionReject); [done|].
  destruct (String.eqb_spec (hi_Kind i) HitlDecisionEdit) as [He|].
  { destruct (hi_EditedWith i) as [edited|]; [|done]. intros H. res_inv. destruct a.
    simplify_eq. split; [done|]. split; [exists op; auto|]. right. split_and!; [done..|].
    by apply ValidateHitlEdit_spec. }
  destruct (String.eqb_spec (hi_Kind i) HitlDecisionSwitch) as [Hs|]; [|done].
  destruct (String.eqb_spec (trim_space (hi_SwitchTarget i)) "") as [|Hne]; [done|].
  destruct (switchTargetAllowed _ _) eqn:Et; [|done]. cbn [negb]. intros H. res_inv. simplify_eq.
  unfold switchUses in Ha. rewrite Hp, trim_space_idemp, (proj2 (String.eqb_neq _ _) Hne) in Ha.
  injection Ha as <-. split; [done|]. split; [|by left].
  assert (str_contains_byte dot tool = false ∧ tool ≠ "") as [Hd Htn].
  { by destruct (ParseUses_parts _ _ _ Hp). }
  exists (trim_space (hi_SwitchTarget i)). split.
  - apply ParseUses_uses_of; [done|by rewrite Ht|by rewrite trim_space_idemp|done].
  - right. split; [done|]. unfold switchTargetAllowed in Et.
    apply existsb_True in Et as (t & Hin & Heq). apply String.eqb_eq in Heq.
    exists t. split; [done|]. by rewrite Heq, trim_space_idemp.
Qed.

Definition demo_gate : HitlGate :=
  mkHitlGate "tool.gh.merge" [("pr", VInt 7); ("title", VStr "x")]
    (mkReview "" [HitlDecisionApprove; HitlDecisionEdit; HitlDecisionSwitch] ["title"] [] [] []
       ["comment"] []).
Lemma ApplyHitlDecision_authority_witness :
  ApplyHitlDecision demo_gate (mkHitlInput HitlDecisionEdit "op" (Some [("pr", VInt 8); ("title", VStr "x")]) "")
    = Err (ChangedPath "pr") ∧
  ∃ op', ParseUses "tool.gh.comment" = Some ("gh", op') ∧
    ("tool.gh.comment" = hg_Uses demo_gate ∨ HitlDecisionSwitch = HitlDecisionSwitch ∧
     ∃ t, t ∈ ["comment"] ∧ trim_space t = op').
Proof.
  split; [vm_compute; reflexivity|].
  apply (ApplyHitlDecision_authority demo_gate (mkHitlInput HitlDecisionSwitch "op" None "comment")
    "tool.gh.comment" (hg_With demo_gate) "gh" "merge"); vm_compute; reflexivity.
Defined.

(** *** Redaction *)

(** [at_key v k w]: somewhere in [v], an object has the field [k] with value [w]. *)
Inductive at_key : value → string → value → Prop :=
  | ak_here m k w : (k, w) ∈ m → at_key (VMap m) k w
  | ak_map m k' c k w : (k', c) ∈ m → at_key c k w → at_key (VMap m) k w
  | ak_list l c k w : c ∈ l → at_key c k w → at_key (VList l) k w.

Definition redact_field (patterns : list string) (kv : string * value) : string * value :=
  (kv.1, if redactKeyMatches kv.1 patterns then VStr RedactedSecretPlaceholder
         else redactHitlValue patterns kv.2).

Lemma redact_map patterns m : redactHitlValue patterns (VMap m) = VMap (redact_field patterns <$> m).
Proof. simpl. f_equal. induction m as [|[k c] m IH]; [done|]. simpl. by rewrite IH. Qed.
Lemma redact_list patterns l : redactHitlValue patterns (VList l) = VList (redactHitlValue patterns <$> l).
Proof. reflexivity. Qed.

Lemma redact_at_key patterns v k w :
  at_key (redactHitlValue patterns v) k w → redactKeyMatches k patterns = true →
  w = VStr RedactedSecretPlaceholder.
Proof.
  revert k w. induction v as [| | | | |l IH|m IH] using value_nested_ind; intros k w Hk Hm;
    try by inversion Hk.
  - rewrite redact_list in Hk. rewrite Forall_forall in IH. inversion Hk; subst.
    match goal with H : _ ∈ _ <$> _ |- _ => apply list_elem_of_fmap in H as (x & -> & Hx) end. eauto.
  - rewrite redact_map in Hk. rewrite Forall_forall in IH. inversion Hk; subst;
      match goal with H : _ ∈ _ <$> _ |- _ => apply list_elem_of_fmap in H as ([k2 c2] & [= -> ->] & Hx) end.
    + simpl. by rewrite Hm.
    + simpl in *. destruct (redactKeyMatches k2 patterns); [match goal with H : at_key (VStr _) _ _ |- _ => inversion H end|].
      by eapply (IH (k2, c2)).
Qed.

Lemma redact_id patterns v :
  (∀ k w, at_key v k w → redactKeyMatches k patterns = false) → redactHitlValue patterns v = v.
Proof.
  induction v as [| | | | |l IH|m IH] using value_nested_ind; intros Hv; try done.
  - rewrite redact_list. f_equal. rewrite <-(list_fmap_id l) at 2. apply list_fmap_ext.
    intros i x Hx%list_elem_of_lookup_2. rewrite Forall_forall in IH. apply IH; [done|].
    intros k w Hk. apply (Hv k w). by eapply ak_list.
  - rewrite redact_map. f_equal. rewrite <-(list_fmap_id m) at 2. apply list_fmap_ext.
    intros i [k c] Hx%list_elem_of_lookup_2. rewrite Forall_forall in IH. unfold redact_field. simpl.
    rewrite (Hv k c) by (by apply ak_here). f_equal. apply (IH (k, c)); [done|].
    intros k' w Hk. apply (Hv k' w). by eapply ak_map.
Qed.

(** Redaction is complete and precise: at any depth, through objects and lists, a
    field whose key matches a redact key holds the placeholder; and arguments
    without such a field are shown as they are. *)
Theorem RedactHitlArgs_complete args keys :
  (∀ k w, at_key (VMap (RedactHitlArgs args keys)) k w →
     redactKeyMatches k (redact_patterns keys) = true → w = VStr RedactedSecretPlaceholder) ∧
  ((∀ k w, at_key (VMap args) k w → redactKeyMatches k (redact_patterns keys) = false) →
   RedactHitlArgs args keys = args).
Proof.
  unfold RedactHitlArgs. destruct keys as [|key keys]; [done|].
  set (ps := redact_patterns (key :: keys)). split.
  - intros k w. rewrite redact_map, <-(redact_map ps). apply redact_at_key.
  - intros H. rewrite redact_id; [done|]. done.
Qed.

Lemma RedactHitlArgs_complete_witness :
  RedactHitlArgs [("items", VList [VMap [("authToken", VStr "s3cret")]]); ("pr", VInt 7)] ["Token"] =
    [("items", VList [VMap [("authToken", VStr RedactedSecretPlaceholder)]]); ("pr", VInt 7)] ∧
  RedactHitlArgs [("pr", VInt 7)] ["Token"] = [("pr", VInt 7)].
Proof.
  split; [vm_compute; reflexivity|].
  apply (proj2 (RedactHitlArgs_complete [("pr", VInt 7)] ["Token"])).
  intros k w Hk. inversion Hk as [m k' w' Hin|m k' c k2 w' Hin Hc|]; subst;
    apply list_elem_of_singleton in Hin; injection Hin as -> ->; [vm_compute; reflexivity|inversion Hc].
Defined.
