(* ===== verification/PolicyStricter.v ===== *)
(** * The stricter of two policies ([internal/policy/stricter.go])

    A subworkflow runs under the caller's and the callee's policy.  [StricterOf]
    asks both evaluators; [mergeStricterPolicySpec] makes one document of the two
    for the readers that need a document (iteration ceilings, review gates).  The
    [clone...] functions of the source copy, so that the merge shares no slice or
    map with its inputs; on values they are the identity.  A nil and an empty map
    are read alike. *)

From Stdlib Require Import QArith Qreduction.
From S2P Require Import Prelude GoNum GoText Value SpecTools SpecPolicy ShellTokens.
From S2P Require Import Policy PolicyHitl.

Local Open Scope Z_scope.

(** ** Lists and maps *)

Definition joinNonEmptyPrefix (a b : string) : string :=
  let a := trim_space a in
  let b := trim_space b in
  if (a =? "")%string then b
  else if (b =? "")%string || (a =? b)%string then a
  else a +:+ (" / " +:+ b).

Definition unionStrings (a b : list string) : list string := uniqueStrings (a ++ b).

Definition intersectStrings (a b : list string) : list string :=
  dedup id (List.filter (λ s, negb (s =? "")%string && str_mem s (trim_space <$> b)) (trim_space <$> a)).

Definition joinAllowList (a b : list string) : list string :=
  match a, b with
  | [], _ => b
  | _, [] => a
  | _, _ => intersectStrings a b
  end.

Definition joinAllowMap (a b : gmap string (list string)) : gmap string (list string) :=
  union_with (λ x y, Some (joinAllowList x y)) a b.

(** ** Decisions *)

Definition effectiveDecisions (cfg : option HitlInterruptConfig) : list HitlDecisionKind :=
  match cfg with
  | None => [HitlDecisionApprove; HitlDecisionReject]
  | Some c =>
      if nonempty (hc_AllowedDecisions c) then hc_AllowedDecisions c
      else [HitlDecisionApprove; HitlDecisionReject] ++
           (if has_edit_rules c then [HitlDecisionEdit] else []) ++
           (if nonempty (hc_AllowedEditTools c) || bool_decide (hc_SwitchMap c ≠ ∅)
            then [HitlDecisionSwitch] else [])
  end.

Definition intersectDecisions (a b : list HitlDecisionKind) : list HitlDecisionKind :=
  match dedup id (List.filter (λ k, str_mem k b) a) with
  | [] => [hitlDecisionNone]
  | out => out
  end.

Definition mergeHitlConfigFields (ca cb : option HitlInterruptConfig) : option HitlInterruptConfig :=
  match ca, cb with
  | None, _ => cb
  | _, None => ca
  | Some ca, Some cb =>
      Some (mkHitlInterruptConfig []
        (joinNonEmptyPrefix (hc_Description ca) (hc_Description cb))
        (joinAllowList (hc_AllowedEditArgs ca) (hc_AllowedEditArgs cb))
        (unionStrings (hc_DeniedEditArgs ca) (hc_DeniedEditArgs cb))
        (joinAllowList (hc_AllowedEditPaths ca) (hc_AllowedEditPaths cb))
        (unionStrings (hc_DeniedEditPaths ca) (hc_DeniedEditPaths cb))
        (joinAllowList (hc_AllowedEditTools ca) (hc_AllowedEditTools cb))
        (joinAllowMap (hc_SwitchMap ca) (hc_SwitchMap cb))
        (unionStrings (hc_RedactKeys ca) (hc_RedactKeys cb)))
  end.

Definition with_decisions (c : HitlInterruptConfig) (ds : list HitlDecisionKind)
    : HitlInterruptConfig :=
  mkHitlInterruptConfig ds (hc_Description c) (hc_AllowedEditArgs c) (hc_DeniedEditArgs c)
    (hc_AllowedEditPaths c) (hc_DeniedEditPaths c) (hc_AllowedEditTools c) (hc_SwitchMap c)
    (hc_RedactKeys c).

Definition mergeHitlInterruptValue (a b : HitlInterruptValue) : HitlInterruptValue :=
  mkHitlInterruptValue (hv_Enabled a || hv_Enabled b)
    ((λ c, with_decisions c
        (intersectDecisions (effectiveDecisions (hv_Config a)) (effectiveDecisions (hv_Config b))))
     <$> mergeHitlConfigFields (hv_Config a) (hv_Config b)).

Definition mergeStricterHitl (a b : option HitlPolicy) : option HitlPolicy :=
  match a, b with
  | None, _ => b
  | _, None => a
  | Some a, Some b =>
      Some (mkHitlPolicy
        (union_with (λ x y, Some (mergeHitlInterruptValue x y)) (hp_InterruptOn a) (hp_InterruptOn b))
        (joinNonEmptyPrefix (hp_DescriptionPrefix a) (hp_DescriptionPrefix b))
        (joinAllowMap (hp_ToolSwitchMap a) (hp_ToolSwitchMap b))
        (unionStrings (hp_RedactKeys a) (hp_RedactKeys b)))
  end.

(** ** Documents *)

Definition policyIterationCeiling (p : option PolicySpec) : Z :=
  match p ≫= pol_Execution with
  | None => HardAgentMaxIterations
  | Some ex => EffectiveMaxIterationsCeiling (ex_MaxIterations ex)
  end.

(** The tighter of two limits of which [0] or less is no limit. *)
Definition merge_cost (a b : f64) : f64 :=
  if f64_gtb b (f64_of_int 0) && (f64_leb a (f64_of_int 0) || f64_ltb b a) then b else a.
Definition merge_seconds (a b : Z) : Z := if (0 <? b) && ((a <=? 0) || (b <? a)) then b else a.

Definition mergeStricterExecution (a b : option PolicyExecution) : option PolicyExecution :=
  match a, b with
  | _, None => a
  | None, _ => b
  | Some ex, Some bx =>
      Some (mkPolicyExecution
        (merge_seconds (ex_MaxWallClockSeconds ex) (ex_MaxWallClockSeconds bx))
        (merge_cost (ex_MaxTotalCostUsd ex) (ex_MaxTotalCostUsd bx))
        (ex_MaxIterations ex)
        (ex_RequireStructuredOutput ex || ex_RequireStructuredOutput bx))
  end.

Definition with_execution (p : PolicySpec) (ex : option PolicyExecution) : PolicySpec :=
  mkPolicySpec (pol_Preset p) (pol_ResolvedPreset p) ex (pol_Tools p) (pol_Approvals p)
    (pol_Effects p) (pol_Hitl p).
Definition with_hitl (p : PolicySpec) (h : option HitlPolicy) : PolicySpec :=
  mkPolicySpec (pol_Preset p) (pol_ResolvedPreset p) (pol_Execution p) (pol_Tools p)
    (pol_Approvals p) (pol_Effects p) h.
Definition with_iterations (ex : PolicyExecution) (n : Z) : PolicyExecution :=
  mkPolicyExecution (ex_MaxWallClockSeconds ex) (ex_MaxTotalCostUsd ex) n
    (ex_RequireStructuredOutput ex).

(** The execution block after the iteration ceiling [merged] is written. *)
Definition set_ceiling (merged : Z) (ex : option PolicyExecution) : option PolicyExecution :=
  if merged <? HardAgentMaxIterations then
    Some (with_iterations (default (mkPolicyExecution 0 (f64_of_int 0) 0 false) ex) merged)
  else (λ ex, with_iterations ex (if merged =? HardAgentMaxIterations then 0 else merged)) <$> ex.

Definition mergeStricterPolicySpec (a b : option PolicySpec) : option PolicySpec :=
  let out := match a, b with
    | None, None => None
    | None, Some b => Some b
    | Some a, None => Some a
    | Some a, Some b =>
        Some (with_hitl (with_execution a (mergeStricterExecution (pol_Execution a) (pol_Execution b)))
                (mergeStricterHitl (pol_Hitl a) (pol_Hitl b)))
    end in
  let merged := Z.min (policyIterationCeiling a) (policyIterationCeiling b) in
  (λ out, with_execution out (set_ceiling merged (pol_Execution out))) <$> out.

(** ** Evaluators *)

Definition stricterEvaluator (a b : PolicyEvaluator) : PolicyEvaluator :=
  mkPolicyEvaluator
    (λ run, check_then (CheckRun a run) (CheckRun b run))
    (λ step, check_then (CheckStep a step) (CheckStep b step))
    (λ call, check_then (CheckToolCall a call) (CheckToolCall b call))
    (mergeStricterPolicySpec (EvalPolicySpec a) (EvalPolicySpec b)).

Definition StricterOf (a b : option PolicyEvaluator) : option PolicyEvaluator :=
  match a, b with
  | None, _ => b
  | _, None => a
  | Some a, Some b => Some (stricterEvaluator a b)
  end.

(** ** Budgets and ceilings *)

(** The limits of a policy are usable: the seconds fit a [time.Duration] and the
    cost ceiling is a number. *)
Definition limits_wf (p : option PolicySpec) : Prop :=
  ∀ ex, p ≫= pol_Execution = Some ex →
    ex_MaxWallClockSeconds ex * Second < 2 ^ 63 ∧ ex_MaxTotalCostUsd ex ≠ FNaN.

Lemma wrap64_small z : - 2 ^ 63 <= z < 2 ^ 63 → wrap64 z = z.
Proof. intros H. unfold wrap64. rewrite Z.mod_small; lia. Qed.

Lemma ext_lt_trans x y z : ext_cmp y x ≠ Lt → ext_cmp y z = Lt → ext_cmp x z = Lt.
Proof.
  destruct x as [|p|], y as [|q|], z as [|r|]; simpl; try done.
  intros H1 H2%Qlt_alt. apply Qlt_alt. eapply Qle_lt_trans; [|exact H2].
  apply Qnot_lt_le. by rewrite Qlt_alt.
Qed.

Lemma f64_num f : f ≠ FNaN → ∃ x, num_val (NFlt f) = Some x.
Proof. destruct f; [done|..]; simpl; eauto. Qed.

(** A limit of [0] or less stops nothing. *)
Definition over_cost (limit cost : f64) : bool :=
  f64_gtb limit (f64_of_int 0) && f64_gtb cost limit.
Definition over_time (limit elapsed : Z) : bool :=
  (0 <? limit) && (wrap64 (limit * Second) <? elapsed).

(** The merged limits stop exactly what one of the two stops. *)
Lemma merge_cost_over a b cost :
  a ≠ FNaN → b ≠ FNaN → over_cost (merge_cost a b) cost = over_cost a cost || over_cost b cost.
Proof.
  intros (x & Hx)%f64_num (y & Hy)%f64_num. pose proof (num_val_of_int 0) as H0.
  unfold over_cost, merge_cost, f64_leb, f64_gtb, f64_geb, f64_ltb.
  rewrite (f64_cmp_spec _ _ _ _ H0 Hx), (f64_cmp_spec _ _ _ _ H0 Hy), (f64_cmp_spec _ _ _ _ Hy Hx).
  destruct (decide (cost = FNaN)) as [->|(z & Hz)%f64_num].
  { assert (∀ u, f64_cmp u FNaN = None) as Hn by (by intros []). by rewrite !Hn, !andb_false_r. }
  set (q := inject_Z 0) in *.
  assert (∀ c : bool, f64_cmp (if c then b else a) cost = if c then f64_cmp b cost else f64_cmp a cost)
    as -> by (by intros []).
  assert (∀ c : bool, f64_cmp (f64_of_int 0) (if c then b else a) =
    if c then f64_cmp (f64_of_int 0) b else f64_cmp (f64_of_int 0) a) as -> by (by intros []).
  rewrite (f64_cmp_spec _ _ _ _ H0 Hx), (f64_cmp_spec _ _ _ _ H0 Hy),
    (f64_cmp_spec _ _ _ _ Hx Hz), (f64_cmp_spec _ _ _ _ Hy Hz).
  pose proof (ext_lt_trans x y z) as T1. pose proof (ext_lt_trans y x z) as T2.
  rewrite (ext_cmp_antisym y x) in T2.
  destruct (ext_cmp (Fin q) y), (ext_cmp (Fin q) x), (ext_cmp y x), (ext_cmp x z), (ext_cmp y z);
    simpl in *; try done; exfalso; (by discriminate T1) || (by discriminate T2).
Qed.

Lemma merge_seconds_over a b elapsed :
  a * Second < 2 ^ 63 → b * Second < 2 ^ 63 →
  over_time (merge_seconds a b) elapsed = over_time a elapsed || over_time b elapsed.
Proof.
  intros Ha Hb. unfold over_time, merge_seconds.
  assert (∀ l, 0 < l → l * Second < 2 ^ 63 → wrap64 (l * Second) = l * Second) as Hw.
  { intros l Hl Hs. apply wrap64_small. unfold Second in *. lia. }
  destruct (Z.ltb_spec 0 a), (Z.ltb_spec 0 b), (Z.leb_spec a 0), (Z.ltb_spec b a); try lia; simpl;
    try (rewrite (proj2 (Z.ltb_lt 0 a)) by done); try (rewrite (proj2 (Z.ltb_lt 0 b)) by done);
    try (rewrite (proj2 (Z.ltb_ge 0 a)) by done); try (rewrite (proj2 (Z.ltb_ge 0 b)) by done);
    simpl; rewrite ?(Hw a), ?(Hw b) by done; unfold Second;
    repeat match goal with |- context [?u <? elapsed] => destruct (Z.ltb_spec u elapsed) end;
    simpl; try done; lia.
Qed.

(** The execution block of the merge. *)
Lemma merge_execution a b :
  mergeStricterPolicySpec a b ≫= pol_Execution =
  match a, b with
  | None, None => None
  | _, _ => set_ceiling (Z.min (policyIterationCeiling a) (policyIterationCeiling b))
              (mergeStricterExecution (a ≫= pol_Execution) (b ≫= pol_Execution))
  end.
Proof.
  unfold mergeStricterPolicySpec. destruct a as [a|], b as [b|]; simpl; try done.
  - by destruct (pol_Execution a).
  - by destruct (pol_Execution b).
Qed.

Lemma budgets_None run ex :
  checkExecutionBudgets run ex = None ↔
  match ex with
  | None => True
  | Some e => over_time (ex_MaxWallClockSeconds e) (rc_Elapsed run) = false ∧
              over_cost (ex_MaxTotalCostUsd e) (rc_AccumulatedCostUSD run) = false
  end.
Proof.
  destruct ex as [e|]; [|done]. unfold checkExecutionBudgets.
  fold (over_time (ex_MaxWallClockSeconds e) (rc_Elapsed run)).
  fold (over_cost (ex_MaxTotalCostUsd e) (rc_AccumulatedCostUSD run)).
  destruct (over_time _ _), (over_cost _ _); simpl; naive_solver.
Qed.

Lemma structured_None step ex :
  checkStructuredOutputRequired step ex = None ↔
  match ex with
  | None => True
  | Some e => ex_RequireStructuredOutput e = true → sc_OutputIsStructured step = true
  end.
Proof.
  destruct ex as [e|]; [|done]. simpl.
  destruct (ex_RequireStructuredOutput e), (sc_OutputIsStructured step); simpl; naive_solver.
Qed.

(** Writing the ceiling leaves the other limits alone. *)
Lemma set_ceiling_budgets n run ex :
  checkExecutionBudgets run (set_ceiling n ex) = None ↔ checkExecutionBudgets run ex = None.
Proof. rewrite !budgets_None. unfold set_ceiling. by destruct (n <? _), ex. Qed.

Lemma set_ceiling_structured n step ex :
  checkStructuredOutputRequired step (set_ceiling n ex) = None ↔
  checkStructuredOutputRequired step ex = None.
Proof. rewrite !structured_None. unfold set_ceiling. by destruct (n <? _), ex. Qed.

Lemma merge_execution_budgets a b run :
  limits_wf a → limits_wf b →
  checkExecutionBudgets run (mergeStricterExecution (a ≫= pol_Execution) (b ≫= pol_Execution)) = None ↔
  checkExecutionBudgets run (a ≫= pol_Execution) = None ∧
  checkExecutionBudgets run (b ≫= pol_Execution) = None.
Proof.
  intros Ha Hb. rewrite !budgets_None.
  destruct (a ≫= pol_Execution) as [ex|] eqn:Ea, (b ≫= pol_Execution) as [bx|] eqn:Eb; simpl;
    try tauto.
  destruct (Ha ex Ea), (Hb bx Eb).
  rewrite merge_seconds_over, merge_cost_over, !orb_false_iff by done. tauto.
Qed.

Lemma ceiling_bounds p : 0 < policyIterationCeiling p.
Proof.
  unfold policyIterationCeiling, EffectiveMaxIterationsCeiling, HardAgentMaxIterations.
  destruct (p ≫= pol_Execution); [|lia]. destruct (Z.ltb_spec 0 (ex_MaxIterations p0)); lia.
Qed.

Lemma ceiling_effective p :
  EffectiveMaxIterationsCeiling (PolicyMaxIterations (p ≫= pol_Execution)) = policyIterationCeiling p.
Proof. unfold policyIterationCeiling. by destruct (p ≫= pol_Execution). Qed.

Lemma set_ceiling_effective n ex :
  0 < n → (ex = None → n <= HardAgentMaxIterations) →
  EffectiveMaxIterationsCeiling (PolicyMaxIterations (set_ceiling n ex)) = n.
Proof.
  intros Hn Hex. unfold set_ceiling, EffectiveMaxIterationsCeiling, HardAgentMaxIterations in *.
  destruct (Z.ltb_spec n 32) as [Hl|Hl]; simpl.
  - by rewrite (proj2 (Z.ltb_lt 0 n) Hn).
  - destruct ex; simpl; [|specialize (Hex eq_refl); lia].
    destruct (Z.eqb_spec n 32) as [->|]; [done|]. by rewrite (proj2 (Z.ltb_lt 0 n) Hn).
Qed.

Lemma merge_ceiling a b :
  policyIterationCeiling (mergeStricterPolicySpec a b) =
  Z.min (policyIterationCeiling a) (policyIterationCeiling b).
Proof.
  rewrite <-ceiling_effective, merge_execution.
  pose proof (ceiling_bounds a). pose proof (ceiling_bounds b).
  assert (∀ p, p ≫= pol_Execution = None → policyIterationCeiling p = HardAgentMaxIterations) as Hd.
  { intros p Hp. unfold policyIterationCeiling. by rewrite Hp. }
  destruct a as [a|], b as [b|]; [..|done];
    (rewrite set_ceiling_effective; [done|lia|]; intros He;
     match goal with |- Z.min ?x ?y <= _ =>
       first [rewrite (Hd None) by done|idtac] end).
  all: simpl in *.
  - destruct (pol_Execution a) eqn:?, (pol_Execution b) eqn:?; try done.
    rewrite (Hd (Some a)); [lia|done].
  - lia.
  - lia.
Qed.

Lemma ResolveMaxIterations_min c m1 m2 m :
  EffectiveMaxIterationsCeiling m =
    Z.min (EffectiveMaxIterationsCeiling m1) (EffectiveMaxIterationsCeiling m2) →
  ResolveMaxIterations c m = Z.min (ResolveMaxIterations c m1) (ResolveMaxIterations c m2).
Proof.
  unfold ResolveMaxIterations. intros ->. set (n := match c with Some _ => _ | None => _ end).
  repeat match goal with |- context [?u <? n] => destruct (Z.ltb_spec u n) end; lia.
Qed.

(** C28: The merged document stands for the pair of evaluators: interpreted, it
    lets a run or a step go on exactly when the stricter evaluator does, which is
    when both policies do; a tool call passes the stricter evaluator exactly when
    both policies allow it; and an agent loop is cut off at the smaller of the two
    iteration bounds, absent policies included. *)
Theorem StricterOf_refined g a b s run step call c :
  limits_wf a → limits_wf b →
  StricterOf (Some (NewEvaluator g a)) (Some (NewEvaluator g b)) = Some s →
  (CheckRun s run = None ↔ CheckRun (NewEvaluator g a) run = None ∧ CheckRun (NewEvaluator g b) run = None) ∧
  (CheckRun (NewEvaluator g (EvalPolicySpec s)) run = None ↔ CheckRun s run = None) ∧
  (CheckStep (NewEvaluator g (EvalPolicySpec s)) step = None ↔ CheckStep s step = None) ∧
  (CheckToolCall s call = None ↔
    CheckToolCall (NewEvaluator g a) call = None ∧ CheckToolCall (NewEvaluator g b) call = None) ∧
  ResolveMaxIterations c (PolicyMaxIterations (EvalPolicySpec s ≫= pol_Execution)) =
    Z.min (ResolveMaxIterations c (PolicyMaxIterations (a ≫= pol_Execution)))
          (ResolveMaxIterations c (PolicyMaxIterations (b ≫= pol_Execution))).
Proof.
  intros Ha Hb [= <-]. cbn [stricterEvaluator NewEvaluator CheckRun CheckStep CheckToolCall EvalPolicySpec].
  rewrite !check_then_None. split_and!; try done.
  - rewrite <-merge_execution_budgets, merge_execution by done.
    by destruct a, b; rewrite ?set_ceiling_budgets.
  - rewrite merge_execution.
    destruct a as [a|], b as [b|]; rewrite ?set_ceiling_structured, !structured_None; simpl; [| | |done].
    + destruct (pol_Execution a), (pol_Execution b); simpl; rewrite ?orb_true_iff; naive_solver.
    + destruct (pol_Execution a); naive_solver.
    + destruct (pol_Execution b); naive_solver.
  - apply ResolveMaxIterations_min. by rewrite !ceiling_effective, merge_ceiling.
Qed.

Lemma StricterOf_refined_witness :
  let a := mkPolicySpec "" "" (Some (mkPolicyExecution 60 (f64_of_int 2) 0 false)) None None None None in
  let b := mkPolicySpec "" "" (Some (mkPolicyExecution 0 (f64_of_int 1) 5 true)) None None None None in
  let s := stricterEvaluator (NewEvaluator pol_graph (Some a)) (NewEvaluator pol_graph (Some b)) in
  CheckRun s (mkRunContext (61 * Second) (f64_of_int 0) []) ≠ None ∧
  ResolveMaxIterations None (PolicyMaxIterations (EvalPolicySpec s ≫= pol_Execution)) = 5.
Proof.
  intros a b s.
  pose proof (StricterOf_refined pol_graph (Some a) (Some b) s
    (mkRunContext (61 * Second) (f64_of_int 0) []) (mkStepContext "" true) (call_of "tool.gh.get" [] []) None)
    as (H & _ & _ & _ & Hc).
  - intros ex [= <-]. split; [vm_compute; reflexivity|done].
  - intros ex [= <-]. split; [vm_compute; reflexivity|done].
  - reflexivity.
  - split; [vm_compute; discriminate|]. rewrite Hc. vm_compute. reflexivity.
Defined.

(** ** Review gates *)

Lemma elem_of_uniqueStrings x l : x ∈ uniqueStrings l ↔ x ≠ "" ∧ ∃ raw, raw ∈ l ∧ x = trim_space raw.
Proof.
  unfold uniqueStrings. rewrite elem_of_dedup_id, elem_of_filter_bool, list_elem_of_fmap.
  rewrite negb_true_iff, String.eqb_neq. naive_solver.
Qed.

(** A test of trimmed entries that no blank entry passes sees through
    [uniqueStrings]. *)
Lemma existsb_unique (f : string → bool) l :
  f "" = false →
  existsb (λ d, f (trim_space d)) (uniqueStrings l) = existsb (λ d, f (trim_space d)) l.
Proof.
  intros Hf. apply eq_iff_eq_true. rewrite !existsb_True. split.
  - intros (x & (Hx & raw & Hr & ->)%elem_of_uniqueStrings & Ht). exists raw.
    by rewrite trim_space_idemp in Ht.
  - intros (raw & Hr & Ht). exists (trim_space raw). rewrite trim_space_idemp. split; [|done].
    apply elem_of_uniqueStrings. split; [|by exists raw]. intros E. by rewrite E, Hf in Ht.
Qed.

Lemma existsb_unionStrings (f : string → bool) a b :
  f "" = false →
  existsb (λ d, f (trim_space d)) (unionStrings a b) =
  existsb (λ d, f (trim_space d)) a || existsb (λ d, f (trim_space d)) b.
Proof. intros Hf. unfold unionStrings. by rewrite existsb_unique, existsb_app. Qed.

Lemma elem_of_intersectDecisions k a b :
  k ≠ hitlDecisionNone → k ∈ intersectDecisions a b ↔ k ∈ a ∧ k ∈ b.
Proof.
  intros Hk. unfold intersectDecisions.
  assert (k ∈ dedup id (List.filter (λ k, str_mem k b) a) ↔ k ∈ a ∧ k ∈ b) as <-.
  { by rewrite elem_of_dedup_id, elem_of_filter_bool, str_mem_spec. }
  destruct (dedup id _); [|done]. rewrite list_elem_of_singleton, elem_of_nil. naive_solver.
Qed.

(** A decision list is the deny-all sentinel alone, or free of it. *)
Definition decisions_wf (ds : list HitlDecisionKind) : Prop :=
  hitlDecisionNone ∈ ds → ds = [hitlDecisionNone].

Lemma decisions_wf_free ds : str_mem hitlDecisionNone ds = false → decisions_wf ds.
Proof. by intros H%str_mem_false ?. Qed.

Lemma elem_of_collapse k ds :
  decisions_wf ds → k ∈ collapseDenyAll ds ↔ k ≠ hitlDecisionNone ∧ k ∈ ds.
Proof.
  intros Hw. unfold collapseDenyAll. destruct (str_mem hitlDecisionNone ds) eqn:E.
  - apply str_mem_spec, Hw in E as ->. rewrite elem_of_nil, list_elem_of_singleton. naive_solver.
  - apply str_mem_false in E. naive_solver.
Qed.

Lemma intersectDecisions_wf a b : decisions_wf a → decisions_wf (intersectDecisions a b).
Proof.
  intros Hw. unfold decisions_wf, intersectDecisions.
  destruct (dedup id _) as [|x l] eqn:E; [done|]. rewrite <-E.
  intros Hn%elem_of_dedup_id%elem_of_filter_bool. destruct Hn as [->%Hw Hb].
  cbn [List.filter]. by rewrite Hb.
Qed.

Lemma merge_config_None va vb :
  hv_Config (mergeHitlInterruptValue va vb) = None ↔ hv_Config va = None ∧ hv_Config vb = None.
Proof. simpl. destruct (hv_Config va), (hv_Config vb); simpl; naive_solver. Qed.

Lemma merge_config_decisions va vb c :
  hv_Config (mergeHitlInterruptValue va vb) = Some c →
  hc_AllowedDecisions c =
    intersectDecisions (effectiveDecisions (hv_Config va)) (effectiveDecisions (hv_Config vb)).
Proof. simpl. destruct (mergeHitlConfigFields _ _); simpl; [by intros [= <-]|done]. Qed.

(** Switches apart, the decisions of a review are the effective ones. *)
Lemma default_effective k cfg sm op :
  k ≠ HitlDecisionSwitch → k ∈ defaultHitlDecisions cfg sm op ↔ k ∈ effectiveDecisions cfg.
Proof.
  intros Hk. assert (∀ b : bool, k ∉ (if b then [HitlDecisionSwitch] else [])) as Hs.
  { intros []; rewrite ?list_elem_of_singleton; [done|apply not_elem_of_nil]. }
  destruct cfg as [c|]; simpl.
  - destruct (hc_AllowedDecisions c) as [|d ds]; [|done]. simpl.
    rewrite !elem_of_cons, !elem_of_app. split; intros; naive_solver.
  - rewrite !elem_of_cons. destruct (hasSwitchTargets _ _ _); rewrite ?elem_of_cons, ?elem_of_nil; naive_solver.
Qed.

Definition config_wf (v : HitlInterruptValue) : Prop :=
  decisions_wf (default [] (hc_AllowedDecisions <$> hv_Config v)).

Lemma none_not_default b1 b2 :
  hitlDecisionNone ∉ [HitlDecisionApprove; HitlDecisionReject] ++
    (if b1 : bool then [HitlDecisionEdit] else []) ++ (if b2 : bool then [HitlDecisionSwitch] else []).
Proof. destruct b1, b2; simpl; rewrite !elem_of_cons, elem_of_nil; intros H; repeat destruct H as [H|H]; done. Qed.

Lemma effective_wf v : config_wf v → decisions_wf (effectiveDecisions (hv_Config v)).
Proof.
  unfold config_wf. destruct (hv_Config v) as [c|]; simpl.
  - destruct (hc_AllowedDecisions c); simpl; [|done]. intros _ H. by apply none_not_default in H.
  - intros _ H. by apply (none_not_default false false) in H.
Qed.

Lemma default_wf v sm op : config_wf v → decisions_wf (defaultHitlDecisions (hv_Config v) sm op).
Proof.
  unfold config_wf. destruct (hv_Config v) as [c|]; simpl.
  - destruct (hc_AllowedDecisions c); [|done]. intros _ H. by apply none_not_default in H.
  - intros _ H. apply (none_not_default false) in H. done.
Qed.

Lemma merge_wf va vb : config_wf va → config_wf (mergeHitlInterruptValue va vb).
Proof.
  intros Hw. unfold config_wf. destruct (hv_Config (mergeHitlInterruptValue va vb)) eqn:E; simpl.
  - rewrite (merge_config_decisions _ _ _ E). by apply intersectDecisions_wf, effective_wf.
  - by intros ?%not_elem_of_nil.
Qed.

Lemma merged_decisions k va vb s sa sb op :
  k ≠ HitlDecisionSwitch → config_wf va → config_wf vb →
  k ∈ collapseDenyAll (defaultHitlDecisions (hv_Config (mergeHitlInterruptValue va vb)) s op) ↔
  k ∈ collapseDenyAll (defaultHitlDecisions (hv_Config va) sa op) ∧
  k ∈ collapseDenyAll (defaultHitlDecisions (hv_Config vb) sb op).
Proof.
  intros Hk Ha Hb. rewrite !elem_of_collapse by eauto using default_wf, merge_wf.
  rewrite !default_effective by done.
  assert (k ≠ hitlDecisionNone →
    k ∈ effectiveDecisions (hv_Config (mergeHitlInterruptValue va vb)) ↔
    k ∈ effectiveDecisions (hv_Config va) ∧ k ∈ effectiveDecisions (hv_Config vb)) as H; [|tauto].
  intros Hn. destruct (hv_Config (mergeHitlInterruptValue va vb)) as [c|] eqn:E.
  - rewrite <-elem_of_intersectDecisions, <-(merge_config_decisions _ _ _ E) by done. simpl.
    rewrite (merge_config_decisions _ _ _ E). unfold intersectDecisions. by destruct (dedup _ _).
  - apply merge_config_None in E as [-> ->]. tauto.
Qed.

(** A list field the merge unites, through a test that ignores blank entries. *)
Lemma merged_field (proj : HitlInterruptConfig → list string) (f : string → bool) va vb :
  f "" = false →
  (∀ ca cb c, mergeHitlConfigFields (Some ca) (Some cb) = Some c →
     proj c = unionStrings (proj ca) (proj cb)) →
  (∀ c ds, proj (with_decisions c ds) = proj c) →
  existsb (λ d, f (trim_space d)) (default [] (proj <$> hv_Config (mergeHitlInterruptValue va vb))) =
  existsb (λ d, f (trim_space d)) (default [] (proj <$> hv_Config va)) ||
  existsb (λ d, f (trim_space d)) (default [] (proj <$> hv_Config vb)).
Proof.
  intros Hf Hu Hd. destruct va as [ea [ca|]], vb as [eb [cb|]]; simpl; rewrite ?Hd; simpl.
  - by rewrite (Hu ca cb _ eq_refl), existsb_unionStrings.
  - by rewrite orb_false_r.
  - done.
  - done.
Qed.

Lemma merged_denied path va vb :
  path ≠ "" → topLevelKey path ≠ "" →
  let dp v := default [] (hc_DeniedEditPaths <$> hv_Config v) in
  let da v := default [] (hc_DeniedEditArgs <$> hv_Config v) in
  pathDenied path (dp (mergeHitlInterruptValue va vb)) (da (mergeHitlInterruptValue va vb)) =
  pathDenied path (dp va) (da va) || pathDenied path (dp vb) (da vb).
Proof.
  intros Hp Ht dp da. unfold pathDenied, dp, da.
  rewrite (merged_field hc_DeniedEditArgs
    (λ d, (d =? "*")%string || (d =? path)%string || (topLevelKey path =? d)%string)).
  - rewrite (merged_field hc_DeniedEditPaths
      (λ d, (d =? "*")%string || (d =? path)%string || has_prefix path (d +:+ ".") ||
            has_prefix d (path +:+ "."))).
    + set (x := existsb _ _). set (y := existsb _ _). set (z := existsb _ _). set (w := existsb _ _).
      by destruct x, y, z, w.
    + destruct path as [|c path]; [done|]. rewrite string_app_nil_l.
      assert (has_prefix (String c path) "." = false) as ->; [|done].
      apply not_true_is_false. intros [r Hr]%has_prefix_spec. rewrite string_app_cons in Hr.
      injection Hr as -> ->. by apply Ht.
    + by intros ??? [= <-].
    + done.
  - rewrite (proj2 (String.eqb_neq "" path)), (proj2 (String.eqb_neq _ "")); done.
  - by intros ??? [= <-].
  - done.
Qed.

(** The keys a review redacts, by what they match. *)
Definition redacts (key s : string) : bool :=
  let p := to_lower s in negb (p =? "")%string && str_contains (to_lower (trim_space key)) p.

Lemma redact_trimmed key l :
  redactKeyMatches key (redact_patterns l) = existsb (λ d, redacts key (trim_space d)) l.
Proof.
  unfold redactKeyMatches, redact_patterns, redacts. induction l as [|x l IH]; [done|].
  rewrite fmap_cons. simpl List.filter. cbn [existsb].
  destruct (to_lower (trim_space x) =? "")%string eqn:E; simpl; [done|]. by rewrite E, IH.
Qed.

(** What a review takes from the policy. *)
Lemma review_fields pol uses tool op rv :
  ParseUses uses = Some (tool, op) → ResolveHitlReview pol uses = Ok rv →
  let cfg := interrupt_config (pol ≫= pol_Hitl) tool in
  rv_AllowedDecisions rv = collapseDenyAll (defaultHitlDecisions cfg
    (default ∅ (hp_ToolSwitchMap <$> (pol ≫= pol_Hitl))) op) ∧
  rv_DeniedEditPaths rv = default [] (hc_DeniedEditPaths <$> cfg) ∧
  rv_DeniedEditArgs rv = default [] (hc_DeniedEditArgs <$> cfg).
Proof. unfold ResolveHitlReview. intros ->. by intros [= <-]. Qed.

Lemma review_redacts pol uses tool op rv key :
  ParseUses uses = Some (tool, op) → ResolveHitlReview pol uses = Ok rv →
  redactKeyMatches key (redact_patterns (rv_RedactKeys rv)) =
  existsb (λ d, redacts key (trim_space d)) (default [] (hp_RedactKeys <$> (pol ≫= pol_Hitl))) ||
  existsb (λ d, redacts key (trim_space d))
    (default [] (hc_RedactKeys <$> interrupt_config (pol ≫= pol_Hitl) tool)).
Proof.
  intros Hu Hr. unfold ResolveHitlReview in Hr. rewrite Hu in Hr. injection Hr as <-.
  cbn [rv_RedactKeys]. rewrite redact_trimmed. set (cfg := interrupt_config _ _).
  assert (redacts key "" = false) as Hf by done.
  unfold hitlConfigRedact. destruct cfg as [c|]; simpl; rewrite existsb_unique, ?existsb_app by done.
  - rewrite existsb_unique, existsb_app by done.
    set (x := existsb _ (default _ _)). set (y := existsb _ _). by destruct x, y.
  - done.
Qed.

(** Where both policies review a tool, the review of the merged policy is the
    stricter one.  A kind of decision (a switch apart) is allowed exactly when
    both reviews allow it, and none is when they share none; an argument path is
    denied to edits when one of them denies it; and a key is redacted when one of
    them redacts it. *)
Theorem merged_review a b uses tool op ha hb va vb ra rb rm :
  ParseUses uses = Some (tool, op) →
  pol_Hitl a = Some ha → pol_Hitl b = Some hb →
  hp_InterruptOn ha !! tool = Some va → hp_InterruptOn hb !! tool = Some vb →
  hv_Enabled va = true → hv_Enabled vb = true → config_wf va → config_wf vb →
  ResolveHitlReview (Some a) uses = Ok ra → ResolveHitlReview (Some b) uses = Ok rb →
  ResolveHitlReview (mergeStricterPolicySpec (Some a) (Some b)) uses = Ok rm →
  (∀ k, k ≠ HitlDecisionSwitch →
     k ∈ rv_AllowedDecisions rm ↔ k ∈ rv_AllowedDecisions ra ∧ k ∈ rv_AllowedDecisions rb) ∧
  (∀ path, path ≠ "" → topLevelKey path ≠ "" →
     pathDenied path (rv_DeniedEditPaths rm) (rv_DeniedEditArgs rm) =
     pathDenied path (rv_DeniedEditPaths ra) (rv_DeniedEditArgs ra) ||
     pathDenied path (rv_DeniedEditPaths rb) (rv_DeniedEditArgs rb)) ∧
  (∀ key, redactKeyMatches key (redact_patterns (rv_RedactKeys rm)) =
     redactKeyMatches key (redact_patterns (rv_RedactKeys ra)) ||
     redactKeyMatches key (redact_patterns (rv_RedactKeys rb))).
Proof.
  intros Hu Hha Hhb Hva Hvb Hea Heb Hwa Hwb Ra Rb Rm.
  assert (mergeStricterPolicySpec (Some a) (Some b) ≫= pol_Hitl = mergeStricterHitl (Some ha) (Some hb))
    as Hm by (simpl; by rewrite Hha, Hhb).
  assert (interrupt_config (mergeStricterHitl (Some ha) (Some hb)) tool =
    hv_Config (mergeHitlInterruptValue va vb)) as Hi.
  { unfold interrupt_config. simpl. rewrite lookup_union_with, Hva, Hvb. simpl. by rewrite Hea. }
  assert (interrupt_config (Some ha) tool = hv_Config va) as Hia
    by (unfold interrupt_config; simpl; by rewrite Hva, Hea).
  assert (interrupt_config (Some hb) tool = hv_Config vb) as Hib
    by (unfold interrupt_config; simpl; by rewrite Hvb, Heb).
  pose proof (review_fields _ _ _ _ _ Hu Ra) as Fa. pose proof (review_fields _ _ _ _ _ Hu Rb) as Fb.
  pose proof (review_fields _ _ _ _ _ Hu Rm) as Fm.
  pose proof (λ key, review_redacts _ _ _ _ _ key Hu Ra) as Ka.
  pose proof (λ key, review_redacts _ _ _ _ _ key Hu Rb) as Kb.
  pose proof (λ key, review_redacts _ _ _ _ _ key Hu Rm) as Km.
  rewrite Hm, Hi in Fm. setoid_rewrite Hm in Km. rewrite Hi in Km.
  cbn [mbind option_bind] in Fa, Fb, Ka, Kb. rewrite Hha, Hia in Fa, Ka. rewrite Hhb, Hib in Fb, Kb.
  split; [|split].
  - intros k Hk. rewrite (proj1 Fa), (proj1 Fb), (proj1 Fm). by apply merged_decisions.
  - intros path Hp Ht. destruct Fa as (_ & -> & ->), Fb as (_ & -> & ->), Fm as (_ & -> & ->).
    by apply merged_denied.
  - intros key. rewrite Ka, Kb, Km.
    rewrite (merged_field hc_RedactKeys (redacts key)); [|done|by intros ??? [= <-]|done].
    simpl. rewrite existsb_unionStrings by done.
    repeat match goal with |- context [existsb ?f ?l] => generalize (existsb f l); intros [] end; done.
Qed.

Definition review_policy (entries : gmap string HitlInterruptValue) : PolicySpec :=
  with_hitl empty_policy (Some (mkHitlPolicy entries "" ∅ [])).
Definition gh_review (ds : list HitlDecisionKind) (args denied redact : list string) : PolicySpec :=
  review_policy {[ "gh" := mkHitlInterruptValue true
    (Some (mkHitlInterruptConfig ds "" args denied [] [] [] ∅ redact)) ]}.
Definition review_of (p : option PolicySpec) : ResolvedHitlReview :=
  default (mkReview "" [] [] [] [] [] [] []) (res_to_option (ResolveHitlReview p "tool.gh.merge")).

Lemma merged_review_witness :
  let a := gh_review [HitlDecisionApprove; HitlDecisionEdit] ["title"] [] ["token"] in
  let b := gh_review [HitlDecisionApprove; HitlDecisionReject] [] ["title"] [] in
  let rm := review_of (mergeStricterPolicySpec (Some a) (Some b)) in
  rv_AllowedDecisions rm = [HitlDecisionApprove] ∧
  (HitlDecisionEdit ∈ rv_AllowedDecisions rm → HitlDecisionEdit ∈ rv_AllowedDecisions (review_of (Some b))) ∧
  pathDenied "title" (rv_DeniedEditPaths rm) (rv_DeniedEditArgs rm) = true ∧
  redactKeyMatches "authToken" (redact_patterns (rv_RedactKeys rm)) = true.
Proof.
  intros a b rm.
  pose proof (merged_review a b "tool.gh.merge" "gh" "merge" _ _ _ _
    (review_of (Some a)) (review_of (Some b)) rm eq_refl eq_refl eq_refl eq_refl eq_refl eq_refl eq_refl)
    as (Hd & Hp & Hk).
  - apply decisions_wf_free. vm_compute. reflexivity.
  - apply decisions_wf_free. vm_compute. reflexivity.
  - vm_compute. reflexivity.
  - vm_compute. reflexivity.
  - vm_compute. reflexivity.
  - split; [vm_compute; reflexivity|]. split; [|split].
    + intros H. apply Hd in H; [tauto|discriminate].
    + rewrite Hp by discriminate. vm_compute. reflexivity.
    + rewrite Hk. vm_compute. reflexivity.
Defined.

(** ** Where the merge is more permissive than a side *)

(** An entry only one side has is copied: the other side's review, which offers
    approve and reject for the tool, does not constrain it, and the merge offers an
    edit that side never permits. *)
Theorem merge_copies_unmatched_entry :
  let a := review_policy ∅ in
  let b := gh_review [HitlDecisionEdit] ["*"] [] [] in
  rv_AllowedDecisions (review_of (Some a)) = [HitlDecisionApprove; HitlDecisionReject] ∧
  rv_AllowedDecisions (review_of (mergeStricterPolicySpec (Some a) (Some b))) = [HitlDecisionEdit].
Proof. split; vm_compute; reflexivity. Qed.

(** A switch map for another operation makes [switch] an effective decision of the
    side, so the merge can allow a switch the review of that side does not. *)
Theorem merge_allows_foreign_switch :
  let cfg ds (m : gmap string (list string)) := review_policy {[ "gh" := mkHitlInterruptValue true
    (Some (mkHitlInterruptConfig ds "" [] [] [] [] [] m [])) ]} in
  let a := cfg [] {[ "close" := ["comment"] ]} in
  let b := cfg [HitlDecisionSwitch] {[ "merge" := ["comment"] ]} in
  let rm := review_of (mergeStricterPolicySpec (Some a) (Some b)) in
  HitlDecisionSwitch ∉ rv_AllowedDecisions (review_of (Some a)) ∧
  rv_AllowedDecisions rm = [HitlDecisionSwitch] ∧ rv_SwitchTargets rm = ["comment"].
Proof.
  split; [|split; vm_compute; reflexivity].
  apply str_mem_false. vm_compute. reflexivity.
Qed.

(** Two disjoint allow lists meet in the empty list, which the next merge reads as
    no list at all: with a third policy (a subworkflow of a subworkflow) an argument
    becomes editable that the first two do not allow. *)
Theorem merge_forgets_empty_allow_list :
  let p arg := Some (gh_review [HitlDecisionEdit] [arg] [] []) in
  let m := mergeStricterPolicySpec (mergeStricterPolicySpec (p "x") (p "y")) (p "z") in
  pathAllowed "z" [] (rv_AllowedEditArgs (review_of (p "x"))) = false ∧
  rv_AllowedEditArgs (review_of m) = ["z"].
Proof. split; vm_compute; reflexivity. Qed.
