(* ===== verification/AuditChain.v ===== *)
(** * The audit chain ([internal/audit/chain.go], [verify.go])

    Every trace event of a run stores the hash of its canonical JSON and of the
    hash before it.  SHA-256 is a parameter; nothing is assumed of it but the size
    of its result, and the theorem on tampering says what an undetected change
    takes: a collision.  The rows of a run are a list in the order of their
    sequence numbers, as [ListTraceEventsByRunID] returns them, and
    [AppendTraceEvent] is the insertion of [internal/state/sqlite/runtime.go]. *)

From S2P Require Import Prelude GoNum GoText Value JsonText.

Local Open Scope Z_scope.

(** ** Times *)

(** A [time.Time] as a Unix time. *)
Record Time := mkTime { t_unix : Z; t_nsec : Z }.

Fixpoint pad_zeros (n : nat) (s : string) : string :=
  match n with O => s | S n => String "0" (pad_zeros n s) end.

(** [appendInt] of the time package. *)
Definition append_int (x : Z) (width : nat) : string :=
  let s := pretty (Z.to_N (Z.abs x)) in
  (if x <? 0 then "-" else "") +:+ pad_zeros (width - String.length s) s.

(** Year, month and day of a number of days since 1970-01-01. *)
Definition civil (days : Z) : Z * Z * Z :=
  let z := days + 719468 in
  let era := z / 146097 in
  let doe := z mod 146097 in
  let yoe := (doe - doe / 1460 + doe / 36524 - doe / 146096) / 365 in
  let doy := doe - (365 * yoe + yoe / 4 - yoe / 100) in
  let mp := (5 * doy + 2) / 153 in
  let m := if mp <? 10 then mp + 3 else mp - 9 in
  (yoe + era * 400 + (if m <=? 2 then 1 else 0), m, doy - (153 * mp + 2) / 5 + 1).

(** Trailing zeros of a fraction are cut. *)
Fixpoint trim_zeros (l : chars) : chars :=
  match l with
  | [] => []
  | c :: l => match trim_zeros l with
              | [] => if bool_decide (c = "0"%char) then [] else [c]
              | l' => c :: l'
              end
  end.

(** [t.UTC().Format(time.RFC3339Nano)]. *)
Definition format_rfc3339nano (t : Time) : string :=
  let '(y, m, d) := civil (t_unix t / 86400) in
  let s := t_unix t mod 86400 in
  let frac := String.string_of_list_ascii
    (trim_zeros (String.list_ascii_of_string (append_int (t_nsec t) 9))) in
  append_int y 4 +:+ ("-" +:+ (append_int m 2 +:+ ("-" +:+ (append_int d 2 +:+ ("T" +:+
    (append_int (s / 3600) 2 +:+ (":" +:+ (append_int (s / 60 mod 60) 2 +:+ (":" +:+
    (append_int (s mod 60) 2 +:+ ((if (frac =? "")%string then "" else String "." frac) +:+ "Z"))))))))))).

Example format_example :
  format_rfc3339nano (mkTime 1709210096 120000000) = "2024-02-29T12:34:56.12Z".
Proof. vm_compute. reflexivity. Qed.

Example format_epoch : format_rfc3339nano (mkTime (-1) 0) = "1969-12-31T23:59:59Z".
Proof. vm_compute. reflexivity. Qed.

(** ** Events ([internal/state/models.go]) *)

Record TraceEvent := mkTraceEvent {
  te_RunID : string;
  te_Seq : Z;
  te_Timestamp : Time;
  te_Type : string;
  te_ActorType : string;
  te_StepID : string;
  te_DataJSON : string;
  te_TenantID : string;
  te_ThreadID : string;
  te_ActorID : string;
  te_PrevHash : string;
  te_Hash : string;
}.

(** ** Hashes ([chain.go]) *)

Definition genesisPrefix : string := "terfyn-audit-genesis-v1:".

(** The fields of [auditCanonicalEvent]. *)
Record auditCanonicalEvent := mkCanonicalEvent {
  ce_RunID : string; ce_Seq : Z; ce_Timestamp : string; ce_Type : string; ce_ActorType : string;
  ce_StepID : string; ce_TenantID : string; ce_ThreadID : string; ce_ActorID : string;
  ce_DataJSON : string;
}.

Definition canonical_event (e : TraceEvent) : auditCanonicalEvent :=
  mkCanonicalEvent (te_RunID e) (te_Seq e) (format_rfc3339nano (te_Timestamp e)) (te_Type e)
    (te_ActorType e) (te_StepID e) (te_TenantID e) (te_ThreadID e) (te_ActorID e)
    (if (te_DataJSON e =? "")%string then "{}" else te_DataJSON e).

Definition dq : string := String "034" "".
(** A member of the object and its comma: [json.Marshal] of a struct. *)
Definition member (name body rest : string) : string :=
  dq +:+ (name +:+ (dq +:+ (":" +:+ (body +:+ rest)))).

Definition marshal_event (c : auditCanonicalEvent) : string :=
  "{" +:+ member "run_id" (json_quote (ce_RunID c)) ("," +:+
  member "seq" (fmt_Z (ce_Seq c)) ("," +:+
  member "timestamp" (json_quote (ce_Timestamp c)) ("," +:+
  member "type" (json_quote (ce_Type c)) ("," +:+
  member "actor_type" (json_quote (ce_ActorType c)) ("," +:+
  member "step_id" (json_quote (ce_StepID c)) ("," +:+
  member "tenant_id" (json_quote (ce_TenantID c)) ("," +:+
  member "thread_id" (json_quote (ce_ThreadID c)) ("," +:+
  member "actor_id" (json_quote (ce_ActorID c)) ("," +:+
  member "data_json" (json_quote (ce_DataJSON c)) "}"))))))))).

(** Strings and integers always have an encoding: [CanonicalEventBytes] never
    fails. *)
Definition CanonicalEventBytes (e : TraceEvent) : string := marshal_event (canonical_event e).

Section chain.
Context (sha256 : chars → chars).

#[local] Abbreviation hashHex := (hashHex sha256).
#[local] Abbreviation collision := (collision sha256).

Definition GenesisHash (runID : string) : string := hashHex (genesisPrefix +:+ runID).

Definition EventHash (e : TraceEvent) (prevHash : string) : string :=
  hashHex (CanonicalEventBytes e +:+ prevHash).

Definition PrevHashForChainTip (runID lastChainedHash : string) : string :=
  if (lastChainedHash =? "")%string then GenesisHash runID else lastChainedHash.

(** The newest stored hash. *)
Fixpoint last_hash (prior : list TraceEvent) : string :=
  match prior with
  | [] => ""
  | e :: prior => let h := last_hash prior in if (h =? "")%string then te_Hash e else h
  end.

Definition PrevHashForAppend (runID : string) (prior : list TraceEvent) : string :=
  let h := last_hash prior in if (h =? "")%string then GenesisHash runID else h.

(** ** Appending ([sqlite/runtime.go]) *)

Record attribution := mkAttribution { at_TenantID : string; at_ThreadID : string; at_ActorID : string }.

Definition next_seq (rows : list TraceEvent) : Z :=
  foldr Z.max 0 (te_Seq <$> rows) + 1.

Definition AppendTraceEvent (runID : string) (who : attribution) (rows : list TraceEvent)
    (ts : Time) (eventType actorType stepID dataJSON : string) : list TraceEvent :=
  let dj := if (dataJSON =? "")%string then "{}" else dataJSON in
  let actorType := if (trim_space actorType =? "")%string then "agent" else actorType in
  let prevHash := PrevHashForChainTip runID (last_hash rows) in
  let event h p := mkTraceEvent runID (next_seq rows) ts eventType actorType stepID dj
    (at_TenantID who) (at_ThreadID who) (at_ActorID who) p h in
  rows ++ [event (EventHash (event "" "") prevHash) prevHash].

(** ** Verification ([verify.go]) *)

Definition BrokenFieldPartialChain : string := "partial_chain".
Definition BrokenFieldPrevHash : string := "prev_hash".
Definition BrokenFieldHash : string := "hash".
Definition BrokenFieldUnchainedInsertion : string := "unchained_insertion".

Record VerifyRunResult := mkVerifyRunResult {
  vr_RunID : string; vr_Total : nat; vr_Chained : nat; vr_Unchained : nat;
  vr_BrokenSeq : Z; vr_BrokenField : string;
}.

Definition Ok_result (r : VerifyRunResult) : bool := vr_BrokenSeq r =? 0.

Definition broken (r : VerifyRunResult) (e : TraceEvent) (field : string) : VerifyRunResult :=
  mkVerifyRunResult (vr_RunID r) (vr_Total r) (vr_Chained r) (vr_Unchained r) (te_Seq e) field.
Definition count_chained (r : VerifyRunResult) : VerifyRunResult :=
  mkVerifyRunResult (vr_RunID r) (vr_Total r) (S (vr_Chained r)) (vr_Unchained r)
    (vr_BrokenSeq r) (vr_BrokenField r).
Definition count_unchained (r : VerifyRunResult) : VerifyRunResult :=
  mkVerifyRunResult (vr_RunID r) (vr_Total r) (vr_Chained r) (S (vr_Unchained r))
    (vr_BrokenSeq r) (vr_BrokenField r).

Fixpoint verify_loop (runID : string) (events : list TraceEvent) (lastChainedHash : string)
    (res : VerifyRunResult) : VerifyRunResult :=
  match events with
  | [] => res
  | e :: events =>
      if (te_Hash e =? "")%string && (te_PrevHash e =? "")%string then
        if (0 <? vr_Chained res)%nat then broken res e BrokenFieldUnchainedInsertion
        else verify_loop runID events lastChainedHash (count_unchained res)
      else if (te_Hash e =? "")%string || (te_PrevHash e =? "")%string then
        broken res e BrokenFieldPartialChain
      else
        let res := count_chained res in
        let expectedPrev := if (lastChainedHash =? "")%string then GenesisHash runID else lastChainedHash in
        if negb (te_PrevHash e =? expectedPrev)%string then broken res e BrokenFieldPrevHash
        else if negb (EventHash e (te_PrevHash e) =? te_Hash e)%string then broken res e BrokenFieldHash
        else verify_loop runID events (te_Hash e) res
  end.

Definition VerifyRunChain (runID : string) (events : list TraceEvent) : VerifyRunResult :=
  verify_loop runID events "" (mkVerifyRunResult runID (length events) 0 0 0 "").

Definition VerifyRunChainError (runID : string) (events : list TraceEvent) : option (Z * string) :=
  let res := VerifyRunChain runID events in
  if Ok_result res then None else Some (vr_BrokenSeq res, vr_BrokenField res).

(** ** Verification is exact *)

Hypothesis sha256_size : ∀ l, length (sha256 l) = 32%nat.

Lemma hex_encode_length l : String.length (hex_encode l) = (2 * length l)%nat.
Proof. unfold hex_encode. induction l as [|c l IH]; [done|]. cbn. rewrite IH. lia. Qed.

Lemma hashHex_length s : String.length (hashHex s) = 64%nat.
Proof. unfold hashHex. by rewrite hex_encode_length, sha256_size. Qed.

Lemma hashHex_ne s : hashHex s ≠ "".
Proof. intros H. pose proof (hashHex_length s) as L. by rewrite H in L. Qed.

Lemma hash_eqb_ne s : (hashHex s =? "")%string = false.
Proof. apply String.eqb_neq, hashHex_ne. Qed.

(** The rows written before the chain existed. *)
Definition unchained (e : TraceEvent) : Prop := te_Hash e = "" ∧ te_PrevHash e = "".

(** The events link from the hash [prev]. *)
Inductive chained : string → list TraceEvent → Prop :=
  | chained_nil prev : chained prev []
  | chained_cons prev e es :
      te_PrevHash e = prev → te_Hash e = EventHash e prev → chained (te_Hash e) es →
      chained prev (e :: es).

Lemma chained_inv prev e es :
  chained prev (e :: es) ↔ te_PrevHash e = prev ∧ te_Hash e = EventHash e prev ∧ chained (te_Hash e) es.
Proof.
  split; [inversion 1; subst; done|]. intros (? & ? & ?). by constructor.
Qed.

(** One link of the loop, once chaining has begun or at its first event. *)
Lemma verify_link runID e es last res prev :
  prev = (if (last =? "")%string then GenesisHash runID else last) → prev ≠ "" →
  vr_BrokenField res = "" → ¬ unchained e →
  (te_Hash e ≠ "" → ∀ res, vr_BrokenField res = "" → (0 < vr_Chained res)%nat →
     vr_BrokenField (verify_loop runID es (te_Hash e) res) = "" ↔ chained (te_Hash e) es) →
  vr_BrokenField (verify_loop runID (e :: es) last res) = "" ↔ chained prev (e :: es).
Proof.
  intros Hprev Hne Hres Hu IH. rewrite chained_inv. cbn [verify_loop]. rewrite <-Hprev.
  unfold unchained in Hu.
  destruct (String.eqb_spec (te_Hash e) ""), (String.eqb_spec (te_PrevHash e) ""); cbn [andb orb].
  - tauto.
  - split; [done|]. intros (_ & Hh & _). unfold EventHash in Hh. rewrite e0 in Hh. by destruct (hashHex_ne _ (eq_sym Hh)).
  - split; [done|]. intros (Hp & _). congruence.
  - destruct (String.eqb_spec (te_PrevHash e) prev) as [->|]; cbn [negb].
    + destruct (String.eqb_spec (EventHash e prev) (te_Hash e)) as [Hh|]; cbn [negb].
      * rewrite IH; [|done|done|simpl; lia]. naive_solver.
      * split; [done|]. naive_solver.
    + split; [done|]. naive_solver.
Qed.

Lemma verify_chained runID es last res :
  last ≠ "" → vr_BrokenField res = "" → (0 < vr_Chained res)%nat →
  vr_BrokenField (verify_loop runID es last res) = "" ↔ chained last es.
Proof.
  revert last res. induction es as [|e es IH]; intros last res Hl Hres Hc.
  { split; [intros _; constructor|done]. }
  destruct (decide (te_Hash e = "" ∧ te_PrevHash e = "")) as [[H1 H2]|Hu].
  - cbn [verify_loop]. rewrite H1, H2. simpl. rewrite (proj2 (Nat.ltb_lt 0 _) Hc).
    split; [done|]. rewrite chained_inv, H2. naive_solver.
  - apply verify_link; [|done..|].
    + by rewrite (proj2 (String.eqb_neq last "")).
    + intros Hne res' Hr' Hc'. by apply IH.
Qed.

(** The whole loop: a prefix of unchained rows, then a chain from genesis. *)
Lemma verify_from_start runID es res :
  vr_BrokenField res = "" → vr_Chained res = 0%nat →
  vr_BrokenField (verify_loop runID es "" res) = "" ↔
  ∃ pre suf, es = pre ++ suf ∧ Forall unchained pre ∧ chained (GenesisHash runID) suf.
Proof.
  revert res. induction es as [|e es IH]; intros res Hres Hc.
  { split; [|done]. intros _. exists [], []. split; [done|]. split; [done|constructor]. }
  destruct (decide (te_Hash e = "" ∧ te_PrevHash e = "")) as [[H1 H2]|Hu].
  - cbn [verify_loop]. rewrite H1, H2, Hc. cbn. rewrite IH by done. split.
    + intros (pre & suf & -> & Hp & Hs). exists (e :: pre), suf. split; [done|]. by split; [constructor|].
    + intros (pre & suf & E & Hp & Hs). destruct pre as [|e' pre]; simplify_eq/=.
      * apply chained_inv in Hs as (Hg & _). rewrite H2 in Hg. by destruct (hashHex_ne _ (eq_sym Hg)).
      * apply Forall_cons in Hp as [_ Hp]. eauto.
  - rewrite (verify_link runID e es "" res (GenesisHash runID)); [|done|apply hashHex_ne|done|done|].
    + split; [intros H; by exists [], (e :: es)|].
      intros (pre & suf & E & Hp & Hs). destruct pre as [|e' pre]; simplify_eq/=; [done|].
      by apply Forall_cons in Hp as [? _].
    + intros Hne res' Hr' Hc'. by apply verify_chained.
Qed.

(** A result without a broken field has no broken sequence number, and the
    converse holds where no row has the number 0. *)
Lemma verify_loop_seq runID es last res :
  Forall (λ e, te_Seq e ≠ 0) es → vr_BrokenField res = "" → vr_BrokenSeq res = 0 →
  vr_BrokenSeq (verify_loop runID es last res) = 0 ↔ vr_BrokenField (verify_loop runID es last res) = "".
Proof.
  intros Hs. revert last res. induction Hs as [|e es He _ IH]; intros last res Hr Hq; [done|].
  cbn [verify_loop]. repeat case_match; first [by apply IH | by split].
Qed.

Lemma VerifyRunChain_spec runID events :
  Forall (λ e, te_Seq e ≠ 0) events →
  Ok_result (VerifyRunChain runID events) = true ↔
  ∃ pre suf, events = pre ++ suf ∧ Forall unchained pre ∧ chained (GenesisHash runID) suf.
Proof.
  intros Hs. unfold Ok_result, VerifyRunChain. rewrite Z.eqb_eq, verify_loop_seq by done.
  by apply verify_from_start.
Qed.

(** ** Appending keeps the chain *)

(** The hash the next event links to. *)
Definition tip (anchor : string) (es : list TraceEvent) : string :=
  foldl (λ _ e, te_Hash e) anchor es.

Lemma tip_snoc anchor es e : tip anchor (es ++ [e]) = te_Hash e.
Proof. unfold tip. by rewrite foldl_app. Qed.

Lemma chained_snoc prev es e :
  chained prev (es ++ [e]) ↔
  chained prev es ∧ te_PrevHash e = tip prev es ∧ te_Hash e = EventHash e (tip prev es).
Proof.
  revert prev. induction es as [|x es IH]; intros prev; simpl.
  - rewrite chained_inv. split; [|intros (_ & ? & ?)]; repeat split; try constructor; tauto.
  - rewrite !chained_inv, IH. unfold tip. simpl. tauto.
Qed.

Lemma chained_hash_ne prev es e : chained prev es → e ∈ es → te_Hash e ≠ "".
Proof.
  induction 1 as [|? x es Hp Hh _ IH]; [by intros ?%elem_of_nil|].
  intros [->|H]%elem_of_cons; [|by apply IH]. rewrite Hh. apply hashHex_ne.
Qed.

Lemma last_hash_app l1 l2 :
  last_hash (l1 ++ l2) = if (last_hash l2 =? "")%string then last_hash l1 else last_hash l2.
Proof.
  induction l1 as [|e l1 IH]; simpl; [by destruct (String.eqb_spec (last_hash l2) "")|].
  rewrite IH. by destruct (last_hash l2 =? "")%string eqn:E; rewrite ?E.
Qed.

Lemma last_hash_unchained l : Forall unchained l → last_hash l = "".
Proof. induction 1 as [|e l [He _] _ IH]; [done|]. simpl. by rewrite IH. Qed.

Lemma last_hash_chained prev es :
  chained prev es → (if (last_hash es =? "")%string then prev else last_hash es) = tip prev es.
Proof.
  intros H. induction es as [|e es _] using rev_ind; [done|].
  rewrite tip_snoc, last_hash_app. apply chained_snoc in H as (_ & _ & Hh). simpl.
  destruct (String.eqb_spec (te_Hash e) "") as [E|]; simpl.
  - rewrite E in Hh. by destruct (hashHex_ne _ (eq_sym Hh)).
  - by rewrite (proj2 (String.eqb_neq _ _)).
Qed.

Lemma le_foldr_max (l : list Z) x : x ∈ l → x <= foldr Z.max 0 l.
Proof. induction l as [|y l IH]; [by intros ?%elem_of_nil|]. intros [->|H%IH]%elem_of_cons; simpl; lia. Qed.

Lemma foldr_max_nonneg (l : list Z) : 0 <= foldr Z.max 0 l.
Proof. induction l; simpl; lia. Qed.

Lemma AppendTraceEvent_ok runID who rows ts ty actor step data :
  Forall (λ e, 0 < te_Seq e) rows →
  Ok_result (VerifyRunChain runID rows) = true →
  ∃ e, AppendTraceEvent runID who rows ts ty actor step data = rows ++ [e] ∧
    Forall (λ e', te_Seq e' < te_Seq e) rows ∧ 0 < te_Seq e ∧
    Ok_result (VerifyRunChain runID (rows ++ [e])) = true.
Proof.
  intros Hpos Hv. unfold AppendTraceEvent. eexists. split; [reflexivity|]. cbn [te_Seq].
  assert (0 < next_seq rows) as Hn by (unfold next_seq; pose proof (foldr_max_nonneg (te_Seq <$> rows)); lia).
  split; [|split; [done|]].
  - apply Forall_forall. intros e He. unfold next_seq.
    pose proof (le_foldr_max (te_Seq <$> rows) (te_Seq e) (list_elem_of_fmap_2 _ _ _ He)). lia.
  - assert (Forall (λ e, te_Seq e ≠ 0) rows) as Hnz by (eapply Forall_impl; [done|]; simpl; lia).
    apply VerifyRunChain_spec in Hv as (pre & suf & -> & Hp & Hs); [|done].
    apply VerifyRunChain_spec.
    { apply Forall_app. split; [done|]. constructor; [simpl; lia|done]. }
    eexists pre, (suf ++ [_]). split; [by rewrite app_assoc|]. split; [done|].
    apply chained_snoc. cbn [te_PrevHash te_Hash]. unfold PrevHashForChainTip.
    rewrite last_hash_app, (last_hash_unchained pre) by done.
    assert ((if (last_hash suf =? "")%string then "" else last_hash suf) = last_hash suf) as ->
      by (by destruct (String.eqb_spec (last_hash suf) "")).
    rewrite (last_hash_chained _ _ Hs). done.
Qed.

(** The histories of a run: what appending makes of no rows. *)
Inductive history (runID : string) (who : attribution) : list TraceEvent → Prop :=
  | history_nil : history runID who []
  | history_append rows ts ty actor step data : history runID who rows →
      history runID who (AppendTraceEvent runID who rows ts ty actor step data).

(** Every history of appends verifies: whatever events a run records, the chain
    of its rows is intact, and their sequence numbers are positive and grow. *)
Theorem history_verifies runID who rows :
  history runID who rows →
  VerifyRunChainError runID rows = None ∧
  Forall (λ e, 0 < te_Seq e) rows ∧ StronglySorted Z.lt (te_Seq <$> rows).
Proof.
  intros H.
  cut (Ok_result (VerifyRunChain runID rows) = true ∧
       Forall (λ e, 0 < te_Seq e) rows ∧ StronglySorted Z.lt (te_Seq <$> rows)).
  { intros (Hv & ? & ?). unfold VerifyRunChainError. by rewrite Hv. }
  induction H as [|rows ts ty actor step data _ (Hv & Hp & Hs)].
  { split; [done|]. split; constructor. }
  destruct (AppendTraceEvent_ok runID who rows ts ty actor step data Hp Hv) as (e & -> & Hlt & He & Hv').
  split; [done|]. split; [apply Forall_app; by repeat constructor|].
  rewrite fmap_app. apply StronglySorted_app_2; [|done|by repeat constructor].
  intros x1 x2 (e1 & -> & H1)%list_elem_of_fmap Hx2. simpl in Hx2.
  apply list_elem_of_singleton in Hx2 as ->. rewrite Forall_forall in Hlt. by apply Hlt.
Qed.

(** Verification is exact: it accepts the rows of a run (none of which has the
    number 0) exactly when they are unchained rows from before the chain existed,
    followed by events each of which holds the hash of the one before it, the
    first that of the run's genesis, and its own. *)
Theorem VerifyRunChain_iff runID events :
  Forall (λ e, te_Seq e ≠ 0) events →
  VerifyRunChainError runID events = None ↔
  ∃ pre suf, events = pre ++ suf ∧ Forall unchained pre ∧ chained (GenesisHash runID) suf.
Proof.
  intros Hs. rewrite <-VerifyRunChain_spec by done. unfold VerifyRunChainError.
  by destruct (Ok_result _).
Qed.

(** ** Tampering *)

Lemma tip_length run es :
  chained (GenesisHash run) es → String.length (tip (GenesisHash run) es) = 64%nat.
Proof.
  induction es as [|e es _] using rev_ind; [intros _; apply hashHex_length|].
  rewrite tip_snoc. intros (_ & _ & ->)%chained_snoc. apply hashHex_length.
Qed.

Lemma string_app_inj_length (a1 a2 b1 b2 : string) :
  String.length b1 = String.length b2 → a1 +:+ b1 = a2 +:+ b2 → a1 = a2 ∧ b1 = b2.
Proof.
  revert a2. induction a1 as [|c a1 IH]; intros [|d a2] Hl; rewrite ?string_app_cons, ?string_app_nil_l.
  - done.
  - intros ->. simpl in Hl. rewrite string_app_length in Hl. lia.
  - intros <-. simpl in Hl. rewrite string_app_length in Hl. lia.
  - intros [= -> H]. apply IH in H as [-> ->]; done.
Qed.

Lemma tamper_chains run es1 es2 :
  chained (GenesisHash run) es1 → chained (GenesisHash run) es2 →
  tip (GenesisHash run) es1 = tip (GenesisHash run) es2 →
  CanonicalEventBytes <$> es1 = CanonicalEventBytes <$> es2 ∨ collision.
Proof.
  assert (∀ e es, chained (GenesisHash run) (es ++ [e]) →
    GenesisHash run = te_Hash e → collision) as Hgen.
  { intros e es (_ & _ & Hh)%chained_snoc Hg. rewrite Hh in Hg.
    by apply hashHex_inj in Hg as [Hg|]. }
  revert es2. induction es1 as [|e1 es1 IH] using rev_ind; intros es2.
  - destruct es2 as [|e2 es2 _] using rev_ind; [by left|]. intros _ H2. rewrite tip_snoc.
    intros Ht. right. by eapply Hgen.
  - intros H1 H2. destruct es2 as [|e2 es2 _] using rev_ind.
    { rewrite tip_snoc. intros Ht. right. by eapply Hgen. }
    rewrite !tip_snoc. apply chained_snoc in H1 as (H1 & _ & ->), H2 as (H2 & _ & ->).
    intros [H|]%hashHex_inj; [|by right].
    apply string_app_inj_length in H as [He Ht]; [|by rewrite !tip_length].
    destruct (IH _ H1 H2 Ht) as [E|]; [|by right]. left. by rewrite !fmap_app, E, !fmap_cons, He.
Qed.
End chain.

(** ** Canonical events determine the event *)

Lemma member_quote name a b r1 r2 :
  valid_utf8 a = true → valid_utf8 b = true →
  member name (json_quote a) r1 = member name (json_quote b) r2 → a = b ∧ r1 = r2.
Proof.
  intros Ha Hb H. unfold member in H. do 4 apply string_app_inv_head in H. by apply json_quote_inj in H.
Qed.

Lemma member_int name a b r1 r2 :
  member name (fmt_Z a) ("," +:+ r1) = member name (fmt_Z b) ("," +:+ r2) → a = b ∧ r1 = r2.
Proof.
  intros H. unfold member in H. do 4 apply string_app_inv_head in H. by apply fmt_Z_inj in H.
Qed.

Definition ce_strings (c : auditCanonicalEvent) : list string :=
  [ce_RunID c; ce_Timestamp c; ce_Type c; ce_ActorType c; ce_StepID c; ce_TenantID c;
   ce_ThreadID c; ce_ActorID c; ce_DataJSON c].

Lemma marshal_event_inj c1 c2 :
  Forall (λ s, valid_utf8 s = true) (ce_strings c1) → Forall (λ s, valid_utf8 s = true) (ce_strings c2) →
  marshal_event c1 = marshal_event c2 → c1 = c2.
Proof.
  intros H1 H2 H. repeat (apply Forall_cons in H1 as [? H1]). repeat (apply Forall_cons in H2 as [? H2]).
  unfold marshal_event in H. apply string_app_inv_head in H.
  repeat match goal with
  | H : member _ (json_quote _) _ = member _ (json_quote _) _ |- _ =>
      apply member_quote in H; [destruct H as [? H]|done|done]
  | H : member _ (fmt_Z _) _ = member _ (fmt_Z _) _ |- _ => apply member_int in H as [? H]
  | H : "," +:+ _ = "," +:+ _ |- _ => apply string_app_inv_head in H
  end.
  destruct c1, c2; simpl in *. congruence.
Qed.

Lemma append_int_ascii x w : str_forall is_ascii (append_int x w) = true.
Proof.
  unfold append_int. rewrite str_forall_app. apply andb_true_iff. split; [by destruct (x <? 0)|].
  set (n := (w - _)%nat). clearbody n. induction n as [|n IH]; simpl; [|done].
  apply digits_ascii. unfold pretty, pretty_N. case_decide; [done|]. by apply pretty_N_go_digits.
Qed.

Lemma trim_zeros_ascii l :
  forallb is_ascii l = true → forallb is_ascii (trim_zeros l) = true.
Proof.
  induction l as [|c l IH]; [done|]. simpl. rewrite andb_true_iff. intros [Hc Hl%IH].
  destruct (trim_zeros l); simpl in *; [case_bool_decide; simpl; by rewrite ?Hc|by rewrite Hc].
Qed.

Lemma forallb_str p s : forallb p (String.list_ascii_of_string s) = str_forall p s.
Proof. induction s as [|c s IH]; [done|]. simpl. by rewrite IH. Qed.

Lemma format_ascii t : str_forall is_ascii (format_rfc3339nano t) = true.
Proof.
  unfold format_rfc3339nano. destruct (civil _) as [[y m] d].
  set (frac := String.string_of_list_ascii _).
  assert (str_forall is_ascii frac = true) as Hf.
  { unfold frac. rewrite <-forallb_str, String.list_ascii_of_string_of_list_ascii.
    apply trim_zeros_ascii. by rewrite forallb_str, append_int_ascii. }
  rewrite !str_forall_app, !append_int_ascii. simpl.
  destruct (frac =? "")%string; [done|]. simpl. by rewrite Hf.
Qed.

(** What of an event is audited. *)
Definition event_strings (e : TraceEvent) : list string :=
  [te_RunID e; te_Type e; te_ActorType e; te_StepID e; te_DataJSON e; te_TenantID e; te_ThreadID e;
   te_ActorID e].

Lemma CanonicalEventBytes_inj e1 e2 :
  Forall (λ s, valid_utf8 s = true) (event_strings e1) →
  Forall (λ s, valid_utf8 s = true) (event_strings e2) →
  CanonicalEventBytes e1 = CanonicalEventBytes e2 → canonical_event e1 = canonical_event e2.
Proof.
  intros H1 H2. assert (∀ e, Forall (λ s, valid_utf8 s = true) (event_strings e) →
    Forall (λ s, valid_utf8 s = true) (ce_strings (canonical_event e))) as Hv.
  { intros e H. unfold event_strings in H. rewrite !Forall_cons in H. unfold ce_strings.
    rewrite !Forall_cons. simpl. pose proof (valid_ascii _ (format_ascii (te_Timestamp e))).
    destruct (te_DataJSON e =? "")%string; tauto. }
  apply marshal_event_inj; by apply Hv.
Qed.

(** C32: The chain is tamper-evident.  Two sequences of events that both verify for a
    run, with no unchained row, no row numbered 0 ([seq_zero_bypass] uses one) and valid
    UTF-8 texts, and with the same newest hash, hold the same events
    (in number, order and every audited field, times by their spelling); an
    undetected insertion, deletion, reordering or change takes a collision of
    SHA-256. *)
Theorem tamper_evident sha256 run es1 es2 :
  (∀ l, length (sha256 l) = 32%nat) →
  Forall (λ e, te_Seq e ≠ 0 ∧ Forall (λ s, valid_utf8 s = true) (event_strings e)) (es1 ++ es2) →
  VerifyRunChainError sha256 run es1 = None → VerifyRunChainError sha256 run es2 = None →
  Forall (λ e, te_Hash e ≠ "") (es1 ++ es2) → last_hash es1 = last_hash es2 →
  canonical_event <$> es1 = canonical_event <$> es2 ∨ ∃ x y, x ≠ y ∧ sha256 x = sha256 y.
Proof.
  intros Hsha [F1 F2]%Forall_app V1 V2 [N1 N2]%Forall_app Hl.
  assert (∀ es, Forall (λ e, te_Seq e ≠ 0 ∧ Forall (λ s, valid_utf8 s = true) (event_strings e)) es →
    Forall (λ e, te_Hash e ≠ "") es → VerifyRunChainError sha256 run es = None →
    chained sha256 (GenesisHash sha256 run) es) as Hc.
  { intros es F N V. unfold VerifyRunChainError in V.
    destruct (Ok_result _) eqn:E; [|done]. apply VerifyRunChain_spec in E as (pre & suf & -> & Hp & Hs); try done.
    - destruct pre as [|e pre]; [done|]. apply Forall_cons in Hp as [[He _] _].
      apply Forall_app in N as [N _]. apply Forall_cons in N as [N _]. done.
    - eapply Forall_impl; [exact F|]. by intros ? []. }
  pose proof (Hc _ F1 N1 V1) as C1. pose proof (Hc _ F2 N2 V2) as C2.
  destruct (tamper_chains sha256 Hsha run es1 es2 C1 C2) as [E|]; [| |by right].
  - rewrite <-(last_hash_chained sha256 Hsha _ _ C1), <-(last_hash_chained sha256 Hsha _ _ C2). by rewrite Hl.
  - left. apply list_eq_Forall2 in E. rewrite Forall2_fmap in E. apply list_eq_Forall2, Forall2_fmap.
    clear -E F1 F2. induction E as [|e1 e2 es1 es2 He _ IH]; [constructor|].
    apply Forall_cons in F1 as [[_ F1] ?], F2 as [[_ F2] ?]. constructor; [|by apply IH].
    by apply CanonicalEventBytes_inj.
Qed.

(** ** Concrete histories *)

(** A checksum of the right size, in place of SHA-256. *)
Definition checksum (l : chars) : chars := take 32 (rev l ++ repeat "0"%char 32).

Lemma checksum_size l : length (checksum l) = 32%nat.
Proof. unfold checksum. rewrite length_take, length_app, repeat_length. lia. Qed.

Definition demo_who : attribution := mkAttribution "t" "th" "op".
Definition demo_append (rows : list TraceEvent) (ty data : string) : list TraceEvent :=
  AppendTraceEvent checksum "run-1" demo_who rows (mkTime 1709210096 120000000) ty "" "" data.
Definition demo_rows : list TraceEvent := demo_append (demo_append [] "run_started" "") "tool_call" "{}".

Lemma demo_history : history checksum "run-1" demo_who demo_rows.
Proof. apply history_append, history_append, history_nil. Qed.

Lemma history_verifies_witness :
  VerifyRunChainError checksum "run-1" demo_rows = None ∧ te_Seq <$> demo_rows = [1; 2].
Proof.
  split; [|vm_compute; reflexivity].
  apply (history_verifies checksum checksum_size "run-1" demo_who demo_rows demo_history).
Defined.

Lemma VerifyRunChain_iff_witness :
  ∃ pre suf, demo_rows = pre ++ suf ∧ Forall unchained pre ∧
    chained checksum (GenesisHash checksum "run-1") suf.
Proof.
  apply (VerifyRunChain_iff checksum checksum_size "run-1" demo_rows).
  - repeat constructor; discriminate.
  - vm_compute. reflexivity.
Defined.

Lemma events_ok es :
  forallb (λ e, negb (te_Seq e =? 0) && forallb valid_utf8 (event_strings e)) es = true →
  Forall (λ e, te_Seq e ≠ 0 ∧ Forall (λ s, valid_utf8 s = true) (event_strings e)) es.
Proof.
  intros H. apply Forall_forall. intros e He%list_elem_of_In.
  apply (proj1 (forallb_forall _ _) H) in He. bool_inv. split; [done|].
  apply Forall_forall. intros s Hs%list_elem_of_In. by eapply (proj1 (forallb_forall _ _)).
Qed.

Lemma hashes_ok es : forallb (λ e, negb (te_Hash e =? "")%string) es = true → Forall (λ e, te_Hash e ≠ "") es.
Proof.
  intros H. apply Forall_forall. intros e He%list_elem_of_In.
  apply (proj1 (forallb_forall _ _) H) in He. by bool_inv.
Qed.

Lemma tamper_evident_witness :
  canonical_event <$> demo_rows = canonical_event <$> demo_rows ∨
  ∃ x y, x ≠ y ∧ checksum x = checksum y.
Proof.
  apply (tamper_evident checksum "run-1" demo_rows demo_rows).
  - exact checksum_size.
  - apply events_ok. vm_compute. reflexivity.
  - vm_compute. reflexivity.
  - vm_compute. reflexivity.
  - apply hashes_ok. vm_compute. reflexivity.
  - reflexivity.
Defined.

(** ** A row with the number 0

    [Ok] reads [BrokenSeq = 0] as no break, and the loop stops at the first break:
    a forged row with the sequence number 0, which sorts before all others, makes
    every table of rows verify. *)
Theorem seq_zero_bypass sha256 run rows :
  let forged := mkTraceEvent run 0 (mkTime 0 0) "note" "agent" "" "{}" "" "" "" "" "forged" in
  VerifyRunChainError sha256 run (forged :: rows) = None.
Proof. reflexivity. Qed.
