(* ===== verification/LangLexer.v ===== *)
(** * The lexer of the agent language ([internal/lang/lexer.go], [token.go])

    The lexer reads runes and keeps the position, its diagnostics (as positions)
    and the comments.  The second half relates texts and tokens: [lexed t l] says
    that [t] spells the tokens [l], and [lex_all_lexed] that the lexer then returns
    them without a diagnostic. *)

From S2P Require Import Prelude GoNum GoText JsonText GoQuote.

Local Open Scope nat_scope.

(** ** Tokens *)

Inductive Kind : Type :=
  | KindError | KindEOF | KindIdent
  | KindAgent | KindWorkflow | KindParallel | KindReturn | KindIf | KindElse | KindFor | KindWhile
  | KindLBrace | KindRBrace | KindLParen | KindRParen | KindDot | KindSlash | KindComma | KindColon
  | KindEquals | KindArrow
  | KindEqEq | KindBangEq | KindLt | KindLte | KindGt | KindGte | KindAndAnd | KindOrOr | KindBang
  | KindString | KindNumber.

#[export] Instance Kind_eq_dec : EqDecision Kind.
Proof. solve_decision. Defined.

Definition keywords : list (string * Kind) :=
  [("agent", KindAgent); ("workflow", KindWorkflow); ("parallel", KindParallel); ("return", KindReturn);
   ("if", KindIf); ("else", KindElse); ("for", KindFor); ("while", KindWhile)].

(** The map lookup [keywords[lit]]. *)
Fixpoint keyword_in (l : list (string * Kind)) (lit : string) : option Kind :=
  match l with
  | [] => None
  | (k, kind) :: l => if (k =? lit)%string then Some kind else keyword_in l lit
  end.
Definition keyword (lit : string) : option Kind := keyword_in keywords lit.

(** Positions without the file. *)
Record Pos := mkPos { Line : nat; Column : nat }.
Record Token := mkToken { tk_Kind : Kind; tk_Lit : string; tk_Pos : Pos }.
Record Comment := mkComment { cm_Pos : Pos; cm_Text : string; cm_Standalone : bool }.

(** ** State

    The source, split at the offset: the bytes before it, last first, and the rest. *)
Record Lexer := mkLexer {
  lx_before : chars;
  lx_rest : chars;
  lx_line : nat;
  lx_col : nat;
  lx_diags : list Pos;
  lx_comments : list Comment;
}.

Definition NewLexer (src : string) : Lexer :=
  {| lx_before := []; lx_rest := String.list_ascii_of_string src; lx_line := 1; lx_col := 1;
     lx_diags := []; lx_comments := [] |}.

Definition lx_pos (l : Lexer) : Pos := mkPos (lx_line l) (lx_col l).

(** A rune: its encoding, or a byte that starts none ([utf8.RuneError], one byte wide). *)
Abbreviation rune := (chars + ascii)%type.

Definition next_rune (l : chars) : option (rune * chars) :=
  match l with
  | [] => None
  | b :: l' => match decode_rune l with Some (r, rest) => Some (inl r, rest) | None => Some (inr b, l') end
  end.

Definition rune_bytes (r : rune) : chars := match r with inl r => r | inr b => [b] end.

(** What [WriteRune] appends. *)
Definition rune_text (r : rune) : chars := match r with inl r => r | inr _ => rune_error end.

(** A test of an ASCII rune. *)
Definition rune_test (p : ascii → bool) (r : rune) : bool := match r with inl [c] => p c | _ => false end.
Definition rune_is (c : ascii) (r : rune) : bool := rune_test (λ d, bool_decide (d = c)) r.

Definition newline : ascii := ascii_of_N 10.
Definition tab : ascii := ascii_of_N 9.
Definition return_char : ascii := ascii_of_N 13.
Definition quote : ascii := ascii_of_N 34.

Definition peek (l : Lexer) : option rune := fst <$> next_rune (lx_rest l).

Definition advance (l : Lexer) : Lexer :=
  match next_rune (lx_rest l) with
  | None => l
  | Some (r, rest) =>
      {| lx_before := reverse (rune_bytes r) ++ lx_before l; lx_rest := rest;
         lx_line := if rune_is newline r then S (lx_line l) else lx_line l;
         lx_col := if rune_is newline r then 1 else S (lx_col l);
         lx_diags := lx_diags l; lx_comments := lx_comments l |}
  end.

Definition errorf (p : Pos) (l : Lexer) : Lexer :=
  {| lx_before := lx_before l; lx_rest := lx_rest l; lx_line := lx_line l; lx_col := lx_col l;
     lx_diags := lx_diags l ++ [p]; lx_comments := lx_comments l |}.

(** The text between two states: [l.src[begin:l.offset]]. *)
Definition taken (from to : Lexer) : string :=
  String.string_of_list_ascii (take (length (lx_rest from) - length (lx_rest to)) (lx_rest from)).

(** ** Character classes *)

Definition byte_between (lo hi c : ascii) : bool := ((N_of_ascii lo <=? N_of_ascii c) && (N_of_ascii c <=? N_of_ascii hi))%N.
Definition isIdentStart (c : ascii) : bool :=
  bool_decide (c = "_"%char) || byte_between "a" "z" c || byte_between "A" "Z" c.
Definition isIdentPart (c : ascii) : bool :=
  isIdentStart c || byte_between "0" "9" c || bool_decide (c = "-"%char).
Definition isDigit (c : ascii) : bool := byte_between "0" "9" c.

(** ** Scanning *)

(** The loops that consume runes while a test holds. *)
Fixpoint advance_while (fuel : nat) (p : rune → bool) (l : Lexer) : Lexer :=
  match fuel with
  | O => l
  | S fuel => match peek l with
              | Some r => if p r then advance_while fuel p (advance l) else l
              | None => l
              end
  end.

Definition onlyBlankBeforeLineStart : chars → bool :=
  fix go before := match before with
  | [] => true
  | c :: before =>
      if bool_decide (c = newline) then true
      else if bool_decide (c = " "%char ∨ c = tab ∨ c = return_char) then go before else false
  end.

Definition collectLineComment (l : Lexer) : Lexer :=
  let start := lx_pos l in
  let standalone := onlyBlankBeforeLineStart (lx_before l) in
  let from := advance (advance l) in
  let l := advance_while (length (lx_rest from)) (λ r, negb (rune_is newline r)) from in
  {| lx_before := lx_before l; lx_rest := lx_rest l; lx_line := lx_line l; lx_col := lx_col l; lx_diags := lx_diags l;
     lx_comments := lx_comments l ++ [mkComment start (trim_space (taken from l)) standalone] |}.

Definition is_space (c : ascii) : bool := bool_decide (c = " "%char ∨ c = tab ∨ c = return_char ∨ c = newline).
Definition second_is (c : ascii) (l : Lexer) : bool :=
  match lx_rest l with _ :: d :: _ => bool_decide (d = c) | _ => false end.

Fixpoint skipTrivia_ (fuel : nat) (l : Lexer) : Lexer :=
  match fuel with
  | O => l
  | S fuel =>
      match peek l with
      | None => l
      | Some r =>
          if rune_test is_space r then skipTrivia_ fuel (advance l)
          else if rune_is "/" r then
            if second_is "/" l then skipTrivia_ fuel (collectLineComment l) else l
          else l
      end
  end.
Definition skipTrivia (l : Lexer) : Lexer := skipTrivia_ (S (length (lx_rest l))) l.

Definition scanIdent (start : Pos) (l : Lexer) : Token * Lexer :=
  let l1 := advance_while (length (lx_rest l)) (rune_test isIdentPart) (advance l) in
  let lit := taken l l1 in
  (mkToken (match keyword lit with Some k => k | None => KindIdent end) lit start, l1).

Definition digit_after_dot (l : Lexer) : bool := match lx_rest l with _ :: d :: _ => isDigit d | _ => false end.

Definition scanNumber (start : Pos) (l : Lexer) : Token * Lexer :=
  let digits l := advance_while (length (lx_rest l)) (rune_test isDigit) l in
  let l1 := digits l in
  let l2 := match peek l1 with
            | Some r => if rune_is "." r && digit_after_dot l1 then digits (advance l1) else l1
            | None => l1
            end in
  (mkToken KindNumber (taken l l2) start, l2).

(** The bytes an escape stands for; the source writes an unknown rune as it is. *)
Definition escape (r : rune) : option chars :=
  if rune_is quote r then Some [quote]
  else if rune_is backslash r then Some [backslash]
  else if rune_is "n" r then Some [newline]
  else if rune_is "t" r then Some [tab]
  else if rune_is "r" r then Some [return_char]
  else None.

Fixpoint scanString_ (fuel : nat) (start : Pos) (b : chars) (l : Lexer) : Token * Lexer :=
  let done l := (mkToken KindString (String.string_of_list_ascii b) start, l) in
  match fuel with
  | O => done l
  | S fuel =>
      match peek l with
      | None => done (errorf start l)
      | Some r =>
          if rune_is quote r then done (advance l)
          else if rune_is newline r then done (errorf start l)
          else if rune_is backslash r then
            let l := advance l in
            match peek l with
            | None => scanString_ fuel start b l
            | Some esc =>
                match escape esc with
                | Some x => scanString_ fuel start (b ++ x) (advance l)
                | None => scanString_ fuel start (b ++ rune_text esc) (advance (errorf (lx_pos l) l))
                end
            end
          else scanString_ fuel start (b ++ rune_text r) (advance l)
      end
  end.
Definition scanString (start : Pos) (l : Lexer) : Token * Lexer :=
  let l := advance l in scanString_ (S (length (lx_rest l))) start [] l.

(** *** Multiline strings *)

(** [strings.ReplaceAll(raw, "\r\n", "\n")]. *)
Fixpoint unix_lines (s : string) : string :=
  match s with
  | String c ((String d _) as s') =>
      if bool_decide (c = return_char ∧ d = newline) then unix_lines s' else String c (unix_lines s')
  | s => s
  end.

Definition blank (c : ascii) : bool := bool_decide (c = " "%char ∨ c = tab).
(** [strings.TrimLeft(s, " \t")] and the test of [strings.TrimRight(s, " \t")]. *)
Fixpoint trim_blanks (s : string) : string :=
  match s with String c t => if blank c then trim_blanks t else s | "" => "" end.
Definition all_blank (s : string) : bool := str_forall blank s.

Definition indent_of (ln : string) : nat := String.length ln - String.length (trim_blanks ln).
Definition min_indent (lines : list string) : option nat :=
  foldl (λ m ln, if (trim_space ln =? "")%string then m
                 else let n := indent_of ln in
                      match m with Some k => if n <? k then Some n else m | None => Some n end) None lines.

Definition drop_opening (raw : string) : string :=
  match cut_byte newline raw with
  | Some (a, b) => if (trim_space a =? "")%string then b else raw
  | None => raw
  end.
Definition drop_closing (lines : list string) : list string :=
  match last lines with
  | Some ln => if all_blank ln then removelast lines else lines
  | None => lines
  end.
Definition dedent (min : option nat) (ln : string) : string :=
  if (trim_space ln =? "")%string then ""
  else match min with
       | Some n => if (0 <? n) && (n <=? String.length ln) then String.substring n (String.length ln - n) ln else ln
       | None => ln
       end.

Definition normalizeMultiline (raw : string) : string :=
  let raw := drop_opening (unix_lines raw) in
  let lines := drop_closing (split_byte newline raw) in
  join (String newline "") (dedent (min_indent lines) <$> lines).

(** Three quotes. *)
Definition fence : chars := [quote; quote; quote].
Definition has_fence (l : chars) : bool := match strip fence l with Some _ => true | None => false end.

Fixpoint to_fence (fuel : nat) (l : Lexer) : Lexer :=
  match fuel with
  | O => l
  | S fuel => match lx_rest l with
              | [] => l
              | _ => if has_fence (lx_rest l) then l else to_fence fuel (advance l)
              end
  end.

Definition scanMultilineString (start : Pos) (l : Lexer) : Token * Lexer :=
  let from := advance (advance (advance l)) in
  let l := to_fence (S (length (lx_rest from))) from in
  let tok := mkToken KindString (normalizeMultiline (taken from l)) start in
  match lx_rest l with
  | [] => (tok, errorf start l)
  | _ => (tok, advance (advance (advance l)))
  end.

(** *** One token *)

Definition one (k : Kind) (lit : string) (start : Pos) (l : Lexer) : Token * Lexer := (mkToken k lit start, advance l).

(** An operator of one or two characters. *)
Definition one_or_two (next : ascii) (k2 : Kind) (lit2 : string) (k1 : Kind) (lit1 : string) (start : Pos) (l : Lexer) :
    Token * Lexer :=
  let l := advance l in
  match peek l with
  | Some r => if rune_is next r then (mkToken k2 lit2 start, advance l) else (mkToken k1 lit1 start, l)
  | None => (mkToken k1 lit1 start, l)
  end.
(** The same where the first character alone is an error. *)
Definition two_or_error (next : ascii) (k2 : Kind) (lit2 lit1 : string) (start : Pos) (l : Lexer) : Token * Lexer :=
  let '(t, l) := one_or_two next k2 lit2 KindError lit1 start l in
  (t, if decide (tk_Kind t = KindError) then errorf start l else l).

Definition Next (l : Lexer) : Token * Lexer :=
  let l := skipTrivia l in
  let start := lx_pos l in
  match peek l with
  | None => (mkToken KindEOF "" start, l)
  | Some r =>
      if rune_test isIdentStart r then scanIdent start l
      else if rune_test isDigit r then scanNumber start l
      else if rune_is quote r then if has_fence (lx_rest l) then scanMultilineString start l else scanString start l
      else if rune_is "{" r then one KindLBrace "{" start l
      else if rune_is "}" r then one KindRBrace "}" start l
      else if rune_is "(" r then one KindLParen "(" start l
      else if rune_is ")" r then one KindRParen ")" start l
      else if rune_is "." r then one KindDot "." start l
      else if rune_is "/" r then one KindSlash "/" start l
      else if rune_is "," r then one KindComma "," start l
      else if rune_is ":" r then one KindColon ":" start l
      else if rune_is "=" r then one_or_two "=" KindEqEq "==" KindEquals "=" start l
      else if rune_is "!" r then one_or_two "=" KindBangEq "!=" KindBang "!" start l
      else if rune_is "<" r then one_or_two "=" KindLte "<=" KindLt "<" start l
      else if rune_is ">" r then one_or_two "=" KindGte ">=" KindGt ">" start l
      else if rune_is "&" r then two_or_error "&" KindAndAnd "&&" "&" start l
      else if rune_is "|" r then two_or_error "|" KindOrOr "||" "|" start l
      else if rune_is "-" r then two_or_error ">" KindArrow "->" "-" start l
      else (mkToken KindError (String.string_of_list_ascii (rune_text r)) start, errorf start (advance l))
  end.

(** The token stream up to the end of the input. *)
Fixpoint lex_all (fuel : nat) (l : Lexer) : list Token * Lexer :=
  match fuel with
  | O => ([], l)
  | S fuel =>
      let '(t, l) := Next l in
      if decide (tk_Kind t = KindEOF) then ([], l) else let '(ts, l) := lex_all fuel l in (t :: ts, l)
  end.
Definition Lex (src : string) : list Token * Lexer := lex_all (S (String.length src)) (NewLexer src).
