(* ===== verification/LangText.v ===== *)
(** * Texts of tokens

    [lexed t l]: the text [t] spells the tokens [l] (kinds and literals), with white
    space between them where two tokens would run together.  [Lex_lexed]: the lexer
    returns them, without a diagnostic. *)

From S2P Require Import Prelude GoNum GoText JsonText GoQuote LangLexer.

Local Open Scope nat_scope.

(** ** One rune *)

Lemma next_ascii c r : is_ascii c = true → next_rune (c :: r) = Some (inl [c], r).
Proof.
  unfold is_ascii. intros H. unfold next_rune, decode_rune, in_range.
  rewrite (proj2 (N.leb_le 0 _)) by lia. unfold is_ascii in H. change (N_of_ascii c <=? 127)%N with (N_of_ascii c <=? 0x7F)%N in H.
  by rewrite H.
Qed.

Lemma byte_between_ascii lo hi c : is_ascii hi = true → byte_between lo hi c = true → is_ascii c = true.
Proof. unfold byte_between, is_ascii. rewrite andb_true_iff, !N.leb_le. lia. Qed.

Lemma ident_start_ascii c : isIdentStart c = true → is_ascii c = true.
Proof.
  unfold isIdentStart. rewrite !orb_true_iff. intros [[->%bool_decide_eq_true|H]|H]; [done|by eapply byte_between_ascii, H..].
Qed.
Lemma ident_part_ascii c : isIdentPart c = true → is_ascii c = true.
Proof.
  unfold isIdentPart. rewrite !orb_true_iff. intros [[H|H]| ->%bool_decide_eq_true]; [by apply ident_start_ascii|by eapply byte_between_ascii, H|done].
Qed.
Lemma digit_ascii c : isDigit c = true → is_ascii c = true.
Proof. by apply byte_between_ascii. Qed.

(** The first byte decides a test of an ASCII rune. *)
Lemma rune_test_head p c t r rest : next_rune (c :: t) = Some (r, rest) → rune_test p r = true → p c = true.
Proof.
  unfold next_rune. destruct (decode_rune (c :: t)) as [[r' rest']|] eqn:E; intros [= <- <-]; [|done].
  apply decode_rune_app in E. destruct r' as [|d [|? ?]]; [done| |done]. by injection E as <- _.
Qed.

(** [l] reads [r] next, and nothing was reported on the way from [l0]. *)
Definition at_rest (l0 l : Lexer) (r : chars) : Prop := lx_rest l = r ∧ lx_diags l = lx_diags l0.

Lemma advance_at l0 l c r : is_ascii c = true → at_rest l0 l (c :: r) → at_rest l0 (advance l) r.
Proof. intros Hc [E Hd]. unfold advance. rewrite E, next_ascii by done. by split. Qed.

Lemma peek_at l0 l c r : is_ascii c = true → at_rest l0 l (c :: r) → peek l = Some (inl [c]).
Proof. intros Hc [E _]. unfold peek. by rewrite E, next_ascii. Qed.

(** The text does not go on with a byte of the class. *)
Definition stops (p : ascii → bool) (r : chars) : Prop := match r with [] => True | c :: _ => p c = false end.

Lemma peek_stops p l0 l r ru : at_rest l0 l r → stops p r → peek l = Some ru → rune_test p ru = false.
Proof.
  intros [E _] Hs. unfold peek. rewrite E. destruct r as [|c r]; [done|].
  destruct (next_rune (c :: r)) as [[r' rest]|] eqn:En; [|done]. intros [= <-].
  destruct (rune_test p r') eqn:Et; [|done]. eapply rune_test_head in En; [|done]. cbn in Hs. congruence.
Qed.

Lemma advance_while_at p l0 l cs r fuel :
  (∀ c, p c = true → is_ascii c = true) → Forall (λ c, p c = true) cs → stops p r → length cs ≤ fuel →
  at_rest l0 l (cs ++ r) → at_rest l0 (advance_while fuel (rune_test p) l) r.
Proof.
  intros Ha Hcs Hr. revert fuel l. induction Hcs as [|c cs Hc _ IH]; intros fuel l Hf H.
  - destruct fuel as [|fuel]; [done|]. cbn [advance_while].
    destruct (peek l) as [ru|] eqn:E; [|done]. by rewrite (peek_stops p l0 l r ru).
  - destruct fuel as [|fuel]; cbn [length] in Hf; [lia|]. cbn [advance_while].
    rewrite (peek_at l0 l c (cs ++ r)) by (auto using Ha). cbn [rune_test]. rewrite Hc.
    apply IH; [lia|]. eapply advance_at; [by apply Ha|exact H].
Qed.

Lemma taken_at l0 l1 l2 a r : at_rest l0 l1 (a ++ r) → at_rest l0 l2 r → taken l1 l2 = String.string_of_list_ascii a.
Proof.
  intros [E1 _] [E2 _]. unfold taken. rewrite E1, E2, length_app, take_app_length'; [done|]. lia.
Qed.

(** ** White space *)

Lemma space_ascii c : is_space c = true → is_ascii c = true.
Proof. unfold is_space. rewrite bool_decide_eq_true. by intros [->|[->|[->| ->]]]. Qed.

Lemma skip_space l0 l c r : is_space c = true → at_rest l0 l (c :: r) → skipTrivia l = skipTrivia (advance l).
Proof.
  intros Hc H. pose proof (space_ascii c Hc) as Ha. pose proof (advance_at _ _ _ _ Ha H) as [E _]. destruct H as [El Hd].
  unfold skipTrivia. rewrite E, El. cbn [length]. remember (S (length r)) as n. cbn [skipTrivia_].
  rewrite (peek_at l0 l c r) by done. cbn [rune_test]. by rewrite Hc.
Qed.

(** A text that does not start with white space or a comment. *)
Definition starts_token (t : chars) : Prop :=
  match t with
  | [] => True
  | c :: t => is_space c = false ∧ (c = "/"%char → match t with d :: _ => d ≠ "/"%char | [] => True end)
  end.

Lemma skip_none l0 l t : starts_token t → at_rest l0 l t → skipTrivia l = l.
Proof.
  intros Hs H. unfold skipTrivia. cbn [skipTrivia_]. destruct (peek l) as [ru|] eqn:E; [|done].
  destruct t as [|c t]; [destruct H as [Er _]; unfold peek in E; by rewrite Er in E|]. destruct Hs as [Hc Hslash].
  rewrite (peek_stops is_space l0 l (c :: t) ru) by done.
  destruct (rune_is "/" ru) eqn:Er; [|done]. destruct H as [El _]. unfold peek in E. rewrite El in E.
  destruct (next_rune (c :: t)) as [[r' rest]|] eqn:En; [|done]. injection E as ->.
  pose proof (rune_test_head _ _ _ _ _ En Er) as ->%bool_decide_eq_true. specialize (Hslash eq_refl).
  unfold second_is. rewrite El. destruct t as [|d t]; [done|]. by rewrite bool_decide_false.
Qed.

(** ** The text of a token *)

Definition word (x : string) : bool :=
  match x with String c t => isIdentStart c && str_forall isIdentPart t | "" => false end.
Definition word_kind (x : string) : Kind := match keyword x with Some k => k | None => KindIdent end.

Definition puncts : list (Kind * string) :=
  [(KindLBrace, "{"); (KindRBrace, "}"); (KindLParen, "("); (KindRParen, ")"); (KindDot, "."); (KindSlash, "/");
   (KindComma, ","); (KindColon, ":"); (KindEquals, "="); (KindArrow, "->"); (KindEqEq, "=="); (KindBangEq, "!=");
   (KindLt, "<"); (KindLte, "<="); (KindGt, ">"); (KindGte, ">="); (KindAndAnd, "&&"); (KindOrOr, "||"); (KindBang, "!")].

(** Digits, with a fraction or without. *)
Definition number_text (x : string) : Prop :=
  ∃ d, d ≠ "" ∧ str_forall isDigit d = true ∧
    (x = d ∨ ∃ f, f ≠ "" ∧ str_forall isDigit f = true ∧ x = d +:+ String "." f).

(** The byte [c] may come directly after a token of kind [k]. *)
Definition breaks (k : Kind) (c : ascii) : bool :=
  match k with
  | KindString => negb (bool_decide (c = quote))
  | KindNumber => negb (isDigit c) && negb (bool_decide (c = "."%char))
  | KindEquals | KindBang | KindLt | KindGt => negb (bool_decide (c = "="%char))
  | KindSlash => negb (bool_decide (c = "/"%char))
  | KindIdent | KindAgent | KindWorkflow | KindParallel | KindReturn | KindIf | KindElse | KindFor | KindWhile => negb (isIdentPart c)
  | _ => true
  end.
Definition follows (k : Kind) (r : chars) : Prop := match r with [] => True | c :: _ => breaks k c = true end.

(** [l] reads one token of the kind and literal, and then the rest. *)
Definition reads_token (l0 l : Lexer) (k : Kind) (x : string) (r : chars) : Prop :=
  ∃ tok l', Next l = (tok, l') ∧ tk_Kind tok = k ∧ tk_Lit tok = x ∧ at_rest l0 l' r.

Abbreviation cs := String.list_ascii_of_string.

Lemma str_forall_Forall p s : str_forall p s = true ↔ Forall (λ c, p c = true) (cs s).
Proof. induction s as [|c s IH]; [by split|]. simpl. by rewrite andb_true_iff, Forall_cons, IH. Qed.

Lemma follows_stops (p : ascii → bool) k r :
  (∀ c, breaks k c = true → p c = false) → follows k r → stops p r.
Proof. intros H. destruct r as [|c r]; [done|]. apply H. Qed.

Lemma word_kind_breaks x : breaks (word_kind x) = λ c, negb (isIdentPart c).
Proof.
  unfold word_kind, keyword, keywords. cbn [keyword_in]. by repeat match goal with |- context [if ?b then _ else _] => destruct b end.
Qed.

Lemma read_word l0 l x r : word x = true → follows (word_kind x) r → at_rest l0 l (cs x ++ r) → reads_token l0 l (word_kind x) x r.
Proof.
  destruct x as [|c t]; [done|]. intros [Hc Ht]%andb_true_iff Hf H. cbn [String.list_ascii_of_string app] in H.
  pose proof (ident_start_ascii c Hc) as Ha.
  assert (starts_token (c :: cs t ++ r)) as Hst.
  { split; [|intros ->; by vm_compute in Hc].
    unfold is_space. apply bool_decide_eq_false. by intros [->|[->|[->| ->]]]; vm_compute in Hc. }
  unfold reads_token, Next. rewrite (skip_none l0 l _ Hst H), (peek_at l0 l c (cs t ++ r)) by done. cbn [rune_test]. rewrite Hc.
  unfold scanIdent.
  assert (at_rest l0 (advance_while (length (lx_rest l)) (rune_test isIdentPart) (advance l)) r) as Hl.
  { apply (advance_while_at isIdentPart l0 _ (cs t)).
    - apply ident_part_ascii.
    - by apply str_forall_Forall.
    - eapply follows_stops, Hf. intros d. rewrite word_kind_breaks. by destruct (isIdentPart d).
    - destruct H as [-> _]. cbn [length]. rewrite length_app. lia.
    - by eapply advance_at. }
  rewrite (taken_at l0 l _ (c :: cs t) r) by done. cbn [String.string_of_list_ascii].
  rewrite String.string_of_list_ascii_of_string. do 2 eexists. split; [reflexivity|]. done.
Qed.

(** Reading starts a token of the first byte. *)
Lemma Next_byte l0 l c r :
  is_ascii c = true → is_space c = false → (c = "/"%char → match r with d :: _ => d ≠ "/"%char | [] => True end) →
  at_rest l0 l (c :: r) → skipTrivia l = l ∧ peek l = Some (inl [c]).
Proof. intros Ha Hs Hd H. split; [by apply (skip_none l0 l (c :: r))|by apply (peek_at l0 l c r)]. Qed.

Lemma read_one l0 l k c r :
  at_rest l0 l (c :: r) → is_ascii c = true →
  Next l = one k (String c "") (lx_pos l) l → reads_token l0 l k (String c "") r.
Proof. intros H Ha E. unfold reads_token. rewrite E. do 2 eexists. split; [reflexivity|]. split; [done|]. split; [done|]. by eapply advance_at. Qed.

Lemma read_first k2 x2 l0 l k1 x1 d c r start :
  at_rest l0 l (c :: r) → is_ascii c = true → stops (λ e, bool_decide (e = d)) r →
  ∃ l', one_or_two d k2 x2 k1 x1 start l = (mkToken k1 x1 start, l') ∧ at_rest l0 l' r.
Proof.
  intros H Ha Hs. pose proof (advance_at _ _ _ _ Ha H) as H'. unfold one_or_two.
  destruct (peek (advance l)) as [ru|] eqn:E; [|by eexists].
  unfold rune_is. rewrite (peek_stops _ l0 _ r ru H' Hs E). by eexists.
Qed.

Lemma read_second k1 x1 l0 l k2 x2 d c r start :
  at_rest l0 l (c :: d :: r) → is_ascii c = true → is_ascii d = true →
  ∃ l', one_or_two d k2 x2 k1 x1 start l = (mkToken k2 x2 start, l') ∧ at_rest l0 l' r.
Proof.
  intros H Ha Hd. pose proof (advance_at _ _ _ _ Ha H) as H'. unfold one_or_two.
  rewrite (peek_at l0 (advance l) d r) by done. unfold rune_is, rune_test. rewrite bool_decide_true by done.
  eexists. split; [reflexivity|]. by eapply advance_at.
Qed.

Lemma read_punct l0 l k x r : (k, x) ∈ puncts → follows k r → at_rest l0 l (cs x ++ r) → reads_token l0 l k x r.
Proof.
  unfold puncts. intros Hin Hf H.
  assert (k = KindSlash → match r with d :: _ => d ≠ "/"%char | [] => True end) as Hslash.
  { intros ->. destruct r as [|d r]; [done|]. cbn in Hf. by apply negb_true_iff, bool_decide_eq_false in Hf. }
  assert (∀ d, breaks k = (λ c, negb (bool_decide (c = d))) → stops (λ e, bool_decide (e = d)) r) as Hstop.
  { intros d E. eapply follows_stops, Hf. intros e. rewrite E. by rewrite negb_true_iff. }
  repeat (apply elem_of_cons in Hin as [[= -> ->]|Hin]); [..|by apply elem_of_nil in Hin];
    cbn [String.list_ascii_of_string app] in H;
    (edestruct (Next_byte l0 l) as [Es Ep]; [..|exact H|]; [done|done|intros; first [by apply Hslash|done]|]);
    unfold reads_token, Next; rewrite Es, Ep; lazy -[one one_or_two two_or_error lx_pos at_rest tk_Kind tk_Lit].
  all: try (do 2 eexists; split; [reflexivity|]; split; [done|]; split; [done|]; by eapply advance_at, H).
  all: try (edestruct read_first as (l' & E & H'); [exact H|done|by apply Hstop|]; rewrite E; by do 2 eexists).
  all: try (edestruct read_second as (l' & E & H'); [exact H|done|done|]; rewrite E; by do 2 eexists).
  all: edestruct read_second as (l' & E & H'); [exact H|done|done|]; unfold two_or_error; rewrite E; by do 2 eexists.
Qed.

(** *** Numbers *)

Lemma digits_at l0 l d r : str_forall isDigit d = true → stops isDigit r → at_rest l0 l (cs d ++ r) →
  at_rest l0 (advance_while (length (lx_rest l)) (rune_test isDigit) l) r.
Proof.
  intros Hd Hr H. apply (advance_while_at isDigit l0 l (cs d)); [apply digit_ascii|by apply str_forall_Forall|done| |done].
  destruct H as [-> _]. rewrite length_app. lia.
Qed.

Lemma digit_starts c t : isDigit c = true → starts_token (c :: t) ∧ isIdentStart c = false.
Proof.
  intros Hc. split.
  - split; [|intros ->; by vm_compute in Hc].
    unfold is_space. apply bool_decide_eq_false. by intros [->|[->|[->| ->]]]; vm_compute in Hc.
  - unfold isIdentStart, isDigit, byte_between in *. apply andb_true_iff in Hc as [?%N.leb_le ?%N.leb_le].
    rewrite bool_decide_eq_false_2 by (by intros ->). apply orb_false_iff.
    change (N_of_ascii "9"%char) with 57%N in *. split; apply andb_false_iff; left; apply N.leb_gt;
      [change (N_of_ascii "a"%char) with 97%N|change (N_of_ascii "A"%char) with 65%N]; lia.
Qed.

Lemma read_number l0 l x r :
  number_text x → follows KindNumber r → at_rest l0 l (cs x ++ r) → reads_token l0 l KindNumber x r.
Proof.
  intros (d & Hne & Hd & Hx) Hf H.
  assert (stops isDigit r ∧ stops (λ c, bool_decide (c = "."%char)) r) as [Hsd Hsdot].
  { destruct r as [|c r]; [done|]. cbn in Hf. apply andb_true_iff in Hf as [?%negb_true_iff ?%negb_true_iff]. done. }
  destruct d as [|c d]; [done|].
  assert (isDigit c = true) as Hc by (by apply andb_true_iff in Hd as [? _]). pose proof (digit_ascii c Hc) as Ha.
  assert (∃ t, x = String c t) as [t Et] by (destruct Hx as [->|(f & _ & _ & ->)]; by eexists).
  assert (at_rest l0 l (c :: cs t ++ r)) as H1 by (by rewrite Et in H).
  destruct (digit_starts c (cs t ++ r) Hc) as [Hst Hid].
  unfold reads_token, Next. rewrite (skip_none l0 l _ Hst H1), (peek_at l0 l c (cs t ++ r)) by done. cbn [rune_test].
  rewrite Hid, Hc. unfold scanNumber.
  destruct Hx as [->|(f & Hfne & Hfd & ->)].
  - pose proof (digits_at l0 l (String c d) r Hd Hsd H) as H2. set (l1 := advance_while _ _ l) in *.
    assert (∀ y, match peek l1 with Some ru => if rune_is "." ru && digit_after_dot l1 then y else l1 | None => l1 end = l1) as ->.
    { intros y. destruct (peek l1) as [ru|] eqn:E; [|done]. unfold rune_is. by rewrite (peek_stops _ l0 l1 r ru). }
    rewrite (taken_at l0 l l1 (cs (String c d)) r), String.string_of_list_ascii_of_string by done. by do 2 eexists.
  - rewrite list_ascii_of_app, <-app_assoc in H. cbn [String.list_ascii_of_string app] in H.
    pose proof (digits_at l0 l (String c d) ("."%char :: cs f ++ r) Hd eq_refl H) as H2. set (l1 := advance_while _ _ l) in *.
    rewrite (peek_at l0 l1 "."%char (cs f ++ r)) by done. destruct f as [|e f]; [done|].
    assert (isDigit e = true) as He by (by apply andb_true_iff in Hfd as [? _]).
    assert (rune_is "." (inl ["."%char]) && digit_after_dot l1 = true) as ->.
    { unfold digit_after_dot. destruct H2 as [-> _]. cbn. done. }
    pose proof (digits_at l0 (advance l1) (String e f) r Hfd Hsd (advance_at l0 l1 "."%char _ eq_refl H2)) as H3.
    rewrite (taken_at l0 l _ (cs (String c d +:+ String "." (String e f))) r); [|by rewrite list_ascii_of_app, <-app_assoc|done].
    rewrite String.string_of_list_ascii_of_string. by do 2 eexists.
Qed.

(** *** Quoted strings *)

Section strings.
Context (is_print : chars → bool).

(** A string whose quoted form has only the escapes the lexer reads: valid UTF-8,
    printable runes, newlines, tabs and carriage returns. *)
Definition plain_ascii (c : ascii) : bool :=
  (32 <=? N_of_ascii c)%N && (N_of_ascii c <? 127)%N || bool_decide (c = newline ∨ c = tab ∨ c = return_char).
Definition plain_rune (r : rune) : bool :=
  match r with inl [c] => plain_ascii c | inl r => is_print r | inr _ => false end.
Definition quotable (s : string) : bool := forallb plain_rune (runes (cs s)).

Lemma quote_ascii_cases c : plain_ascii c = true →
  (quote_ascii c = [c] ∧ is_ascii c = true ∧ c ≠ quote ∧ c ≠ newline ∧ c ≠ backslash) ∨
  (∃ e, quote_ascii c = [backslash; e] ∧ is_ascii e = true ∧ escape (inl [e]) = Some [c]).
Proof.
  destruct c as [[] [] [] [] [] [] [] []]; intros H; try (vm_compute in H; discriminate H).
  all: first [left; by (split; [vm_compute; reflexivity|])|right; eexists; by (split; [vm_compute; reflexivity|])].
Qed.

Lemma plain_step l0 l c rest start b fuel :
  is_ascii c = true → c ≠ quote → c ≠ newline → c ≠ backslash → at_rest l0 l (c :: rest) →
  scanString_ (S fuel) start b l = scanString_ fuel start (b ++ [c]) (advance l) ∧ at_rest l0 (advance l) rest.
Proof.
  intros Ha H1 H2 H3 H. split; [|by eapply advance_at]. cbn [scanString_]. rewrite (peek_at l0 l c rest) by done.
  unfold rune_is, rune_test. by rewrite !bool_decide_eq_false_2.
Qed.

Lemma escape_step l0 l e x rest start b fuel :
  is_ascii e = true → escape (inl [e]) = Some x → at_rest l0 l (backslash :: e :: rest) →
  scanString_ (S fuel) start b l = scanString_ fuel start (b ++ x) (advance (advance l)) ∧ at_rest l0 (advance (advance l)) rest.
Proof.
  intros Ha He H. pose proof (advance_at l0 l backslash _ eq_refl H) as H1. split; [|by apply (advance_at l0 (advance l) e)].
  cbn [scanString_]. rewrite (peek_at l0 l backslash (e :: rest)) by done.
  change (rune_is quote (inl [backslash])) with false. change (rune_is newline (inl [backslash])) with false.
  change (rune_is backslash (inl [backslash])) with true. cbv iota beta zeta. by rewrite (peek_at l0 (advance l) e rest), He.
Qed.

Lemma wide_step l0 l r rest start b fuel :
  good_rune r → 2 ≤ length r → at_rest l0 l (r ++ rest) →
  scanString_ (S fuel) start b l = scanString_ fuel start (b ++ r) (advance l) ∧ at_rest l0 (advance l) rest.
Proof.
  intros [Hne Hd] Hlen [E Hl].
  assert (next_rune (r ++ rest) = Some (inl r, rest)) as En.
  { destruct r as [|a r]; [done|]. unfold next_rune. specialize (Hd rest). cbn [app] in *. by rewrite Hd. }
  split.
  - cbn [scanString_]. unfold peek. rewrite E, En. cbn [fmap option_fmap option_map fst].
    by destruct r as [|a [|a' r]]; [cbn in Hlen; lia..|].
  - unfold advance. rewrite E, En. by split.
Qed.

Lemma scan_quoted l0 start rs : ∀ fuel b l rest,
  Forall good rs → forallb plain_rune rs = true → S (length rs) ≤ fuel →
  at_rest l0 l (concat (quote_rune is_print <$> rs) ++ quote :: rest) →
  ∃ l', scanString_ fuel start b l = (mkToken KindString (String.string_of_list_ascii (b ++ concat (rune_bytes <$> rs))) start, l') ∧
    at_rest l0 l' rest.
Proof.
  induction rs as [|r rs IH]; intros [|fuel] b l rest Hg Hp Hf H; try (cbn in Hf; lia).
  - exists (advance l). cbn [fmap list_fmap concat app] in *. split; [|by apply (advance_at l0 l quote)].
    cbn [scanString_]. rewrite (peek_at l0 l quote rest) by done. rewrite app_nil_r. done.
  - apply Forall_cons in Hg as [Hr Hg]. apply andb_true_iff in Hp as [Hpr Hp]. rewrite !fmap_cons in *. cbn [concat length] in *.
    rewrite <-app_assoc in H.
    assert (∃ l', scanString_ (S fuel) start b l = scanString_ fuel start (b ++ rune_bytes r) l' ∧
      at_rest l0 l' (concat (quote_rune is_print <$> rs) ++ quote :: rest)) as (l1 & -> & H1).
    { destruct r as [[|c [|c' r]]|]; [by destruct (proj1 Hr eq_refl)| | |done].
      - cbn [quote_rune rune_bytes plain_rune] in *. destruct (quote_ascii_cases c Hpr) as [(E & ? & ? & ? & ?)|(e & E & ? & ?)];
          rewrite E in H; cbn [app] in H; eexists; [by apply plain_step|by eapply escape_step].
      - cbn [quote_rune rune_bytes plain_rune good] in *. rewrite Hpr in H. eexists. apply wide_step; [done|cbn; lia|done]. }
    rewrite app_assoc. apply IH; [done..|lia|done].
Qed.

Lemma runes_bytes l : concat (rune_bytes <$> runes l) = l.
Proof. exact (runes_go_concat (length l) l (le_n _)). Qed.

Lemma runes_length l : length (runes l) ≤ length l.
Proof.
  rewrite <-(runes_bytes l) at 2. pose proof (runes_good l) as Hg. induction Hg as [|r rs Hr _ IH]; [done|].
  rewrite fmap_cons. cbn [concat length]. rewrite length_app.
  assert (1 ≤ length (rune_bytes r)) by (destruct r as [[|? ?]|]; cbn; [by destruct (proj1 Hr eq_refl)|lia..]). lia.
Qed.

Lemma quoted_length rs : Forall good rs → length rs ≤ length (concat (quote_rune is_print <$> rs)).
Proof.
  induction 1 as [|r rs Hr _ IH]; [done|]. rewrite fmap_cons. cbn [concat length]. rewrite length_app.
  pose proof (unquote_rune is_print r [] Hr) as Hu. destruct (quote_rune is_print r); [done|]. cbn [length]. lia.
Qed.

Lemma read_quoted l0 l s r :
  quotable s = true → follows KindString r → at_rest l0 l (cs (Quote is_print s) ++ r) → reads_token l0 l KindString s r.
Proof.
  intros Hq Hf H. unfold Quote, quote_chars in H. rewrite String.list_ascii_of_string_of_list_ascii in H. cbn [app] in H.
  rewrite <-app_assoc in H. cbn [app] in H. fold quote in H.
  destruct (Next_byte l0 l quote (concat (quote_rune is_print <$> runes (cs s)) ++ quote :: r)) as [Es Ep]; [done..|].
  unfold reads_token, Next. rewrite Es, Ep. change (rune_test isIdentStart (inl [quote])) with false.
  change (rune_test isDigit (inl [quote])) with false. change (rune_is quote (inl [quote])) with true. cbv iota.
  assert (has_fence (lx_rest l) = false) as ->.
  { destruct H as [-> _]. unfold has_fence, fence. cbn [strip]. rewrite decide_True by done.
    pose proof (runes_good (cs s)) as Hg. unfold quotable in Hq. destruct (runes (cs s)) as [|x rs].
    - cbn [fmap list_fmap concat app strip]. rewrite decide_True by done. destruct r as [|c r]; [done|]. cbn in Hf.
      apply negb_true_iff, bool_decide_eq_false in Hf. by rewrite decide_False.
    - apply Forall_cons in Hg as [Hx _]. rewrite fmap_cons. cbn [concat]. rewrite <-app_assoc.
      pose proof (unquote_rune is_print x (concat (quote_rune is_print <$> rs) ++ quote :: r) Hx) as Hu.
      destruct (quote_rune is_print x ++ _) as [|c t]; [done|]. cbn [strip unquote] in *.
      rewrite decide_False; [done|]. intros <-. done. }
  unfold scanString. pose proof (advance_at l0 l quote _ eq_refl H) as H1.
  destruct (scan_quoted l0 (lx_pos l) (runes (cs s)) (S (length (lx_rest (advance l)))) [] (advance l) r)
    as (l' & E & H2); [apply runes_good|exact Hq| |exact H1|].
  - destruct H1 as [-> _]. rewrite length_app. pose proof (quoted_length (runes (cs s)) (runes_good _)). cbn [length]. lia.
  - rewrite E. cbn [app]. rewrite runes_bytes, String.string_of_list_ascii_of_string. by do 2 eexists.
Qed.
End strings.
