(* ===== verification/LangBlock.v ===== *)
(** * Multiline strings

    The printer writes a value with newlines as a block between triple quotes, its
    lines indented ([block_text]).  [read_block]: the lexer reads the value back, if
    its lines are not all indented and none is white space only ([block_value]). *)

From S2P Require Import Prelude GoNum GoText JsonText GoQuote LangLexer LangText.

Local Open Scope nat_scope.

(** ** Lines *)

Lemma split_byte_ne c s : split_byte c s ≠ [].
Proof. destruct s as [|d s]; [done|]. cbn [split_byte]. case_decide; [done|]. by destruct (split_byte c s). Qed.

Lemma split_byte_app c a b : str_contains_byte c a = false → split_byte c (a +:+ String c b) = a :: split_byte c b.
Proof.
  induction a as [|d a IH]; rewrite ?string_app_nil_l, ?string_app_cons; cbn [split_byte str_contains_byte].
  - intros _. by rewrite decide_True.
  - intros [Hd Ha]%orb_false_iff. apply bool_decide_eq_false in Hd. by rewrite decide_False, IH.
Qed.

Lemma split_byte_none c a : str_contains_byte c a = false → split_byte c a = [a].
Proof.
  induction a as [|d a IH]; cbn [split_byte str_contains_byte]; [done|].
  intros [Hd Ha]%orb_false_iff. apply bool_decide_eq_false in Hd. by rewrite decide_False, IH.
Qed.

Lemma split_byte_lines c s : Forall (λ ln, str_contains_byte c ln = false) (split_byte c s).
Proof.
  induction s as [|d s IH]; [by repeat constructor|]. cbn [split_byte]. case_decide as E; [by constructor|].
  pose proof (split_byte_ne c s). destruct (split_byte c s) as [|x xs]; [done|].
  apply Forall_cons in IH as [Hx Hxs]. constructor; [|done]. cbn [str_contains_byte]. by rewrite bool_decide_eq_false_2.
Qed.

Lemma join_split c s : join (String c "") (split_byte c s) = s.
Proof.
  induction s as [|d s IH]; [done|]. cbn [split_byte]. case_decide as E.
  - subst d. rewrite join_cons. pose proof (split_byte_ne c s). destruct (split_byte c s); [done|]. by rewrite IH.
  - pose proof (split_byte_ne c s). destruct (split_byte c s) as [|x xs]; [done|]. rewrite join_cons in *.
    destruct xs; [by rewrite IH|]. by rewrite string_app_cons, IH.
Qed.

(** Lines, each with its newline. *)
Definition lines_text (f : string → string) (lines : list string) : string :=
  foldr (λ ln s, f ln +:+ String newline s) "" lines.

Lemma split_lines f lines r :
  Forall (λ ln, str_contains_byte newline (f ln) = false) lines → str_contains_byte newline r = false →
  split_byte newline (lines_text f lines +:+ r) = (f <$> lines) ++ [r].
Proof.
  intros H Hr. induction H as [|ln lines Hln _ IH]; [by apply split_byte_none|].
  cbn [lines_text foldr]. rewrite string_app_assoc, string_app_cons, split_byte_app by done. rewrite fmap_cons. cbn [app]. by rewrite <-IH.
Qed.

(** ** Indentation *)

Definition indented (ind ln : string) : string := if (ln =? "")%string then "" else ind +:+ ln.
Definition spaces (n : nat) : string := String.string_of_list_ascii (replicate n " "%char).

Lemma spaces_S n : spaces (S n) = String " " (spaces n).
Proof. done. Qed.
Lemma spaces_length n : String.length (spaces n) = n.
Proof. induction n as [|n IH]; [done|]. rewrite spaces_S. cbn. by rewrite IH. Qed.
Lemma spaces_free c n : c ≠ " "%char → str_contains_byte c (spaces n) = false.
Proof. intros Hc. induction n as [|n IH]; [done|]. rewrite spaces_S. cbn. by rewrite bool_decide_eq_false_2. Qed.
Lemma spaces_blank n : all_blank (spaces n) = true.
Proof. induction n as [|n IH]; [done|]. rewrite spaces_S. exact IH. Qed.

Lemma trim_space_cons s : trim_space (String " " s) = trim_space s.
Proof. done. Qed.
Lemma trim_space_spaces n s : trim_space (spaces n +:+ s) = trim_space s.
Proof. induction n as [|n IH]; [done|]. rewrite spaces_S, string_app_cons. by rewrite trim_space_cons. Qed.

Lemma trim_blanks_length s : String.length (trim_blanks s) ≤ String.length s.
Proof. induction s as [|c s IH]; [done|]. cbn. destruct (blank c); cbn; lia. Qed.

Lemma indent_of_spaces n s : indent_of (spaces n +:+ s) = n + indent_of s.
Proof.
  unfold indent_of. induction n as [|n IH]; [done|]. rewrite spaces_S, string_app_cons.
  change (trim_blanks (String " " (spaces n +:+ s))) with (trim_blanks (spaces n +:+ s)). cbn [String.length].
  pose proof (trim_blanks_length (spaces n +:+ s)). pose proof (trim_blanks_length s).
  rewrite string_app_length in *. lia.
Qed.

Lemma min_indent_spaces n lines :
  Forall (λ ln, ln = "" ∨ trim_space ln ≠ "") lines →
  min_indent (indented (spaces n) <$> lines) = (λ k, n + k) <$> min_indent lines.
Proof.
  unfold min_indent. intros H. change (@None nat) with ((λ k, n + k) <$> @None nat) at 1. generalize (@None nat).
  induction H as [|ln lines Hln _ IH]; intros m; [done|]. rewrite fmap_cons. cbn [foldl]. rewrite <-IH. f_equal.
  unfold indented. destruct (String.eqb_spec ln "") as [->|Hne]; [done|]. rewrite trim_space_spaces, indent_of_spaces.
  destruct (String.eqb_spec (trim_space ln) "") as [E|_]; [done|]. destruct m as [k|]; [|done].
  cbn [fmap option_fmap option_map]. destruct (Nat.ltb_spec (indent_of ln) k), (Nat.ltb_spec (n + indent_of ln) (n + k)); try lia; done.
Qed.

Lemma dedent_spaces n ln :
  0 < n → ln = "" ∨ trim_space ln ≠ "" → dedent (Some n) (indented (spaces n) ln) = ln.
Proof.
  intros Hn H. unfold dedent, indented. destruct (String.eqb_spec ln "") as [->|Hne]; [done|]. rewrite trim_space_spaces.
  destruct (String.eqb_spec (trim_space ln) "") as [E|_]; [naive_solver|].
  rewrite string_app_length, spaces_length. rewrite (proj2 (Nat.ltb_lt 0 n)), (proj2 (Nat.leb_le n _)) by lia. cbn [andb].
  replace (n + String.length ln - n) with (String.length ln) by lia.
  rewrite <-(spaces_length n) at 1. rewrite substring_skip. by apply substring_all.
Qed.

Lemma min_indent_none lines : min_indent lines = None → Forall (λ ln, trim_space ln = "") lines.
Proof.
  unfold min_indent. assert (∀ ls k, foldl (λ m ln, if (trim_space ln =? "")%string then m
    else let n := indent_of ln in match m with Some k => if n <? k then Some n else m | None => Some n end) (Some k) ls ≠ None) as Hs.
  { induction ls as [|ln ls IH]; intros k; [done|]. cbn [foldl]. destruct (trim_space ln =? "")%string; [apply IH|].
    cbv zeta. destruct (indent_of ln <? k); apply IH. }
  induction lines as [|ln lines IH]; [constructor|]. cbn [foldl].
  destruct (String.eqb_spec (trim_space ln) "") as [E|_]; intros H; [constructor; auto|by apply Hs in H].
Qed.

(** ** The value of a block *)

(** Values a block holds: no carriage return and no triple quote, no line of white
    space only, and some line that is not indented. *)
Fixpoint fence_free (l : chars) : bool :=
  match l with [] => true | _ :: t => negb (has_fence l) && fence_free t end.
Definition block_value (v : string) : bool :=
  let lines := split_byte newline v in
  negb (str_contains_byte return_char v) && fence_free (cs v) &&
  forallb (λ ln, (ln =? "")%string || negb (trim_space ln =? "")%string) lines &&
  match min_indent lines with Some (S _) => false | _ => true end.

Definition block_body (n : nat) (v : string) : string :=
  String newline (lines_text (indented (spaces n)) (split_byte newline v) +:+ spaces n).

Lemma unix_lines_id s : str_contains_byte return_char s = false → unix_lines s = s.
Proof.
  induction s as [|c s IH]; [done|]. cbn [str_contains_byte]. intros [Hc Hs]%orb_false_iff. apply bool_decide_eq_false in Hc.
  cbn [unix_lines]. destruct s as [|d s]; [done|]. rewrite bool_decide_eq_false_2 by naive_solver. by rewrite IH.
Qed.

Lemma lines_text_free c n lines :
  c ≠ " "%char → c ≠ newline → Forall (λ ln, str_contains_byte c ln = false) lines →
  str_contains_byte c (lines_text (indented (spaces n)) lines) = false.
Proof.
  intros Hs Hn H. induction H as [|ln lines Hln _ IH]; [done|]. cbn [lines_text foldr]. fold (lines_text (indented (spaces n)) lines).
  rewrite str_contains_byte_app. cbn [str_contains_byte]. rewrite IH, bool_decide_eq_false_2 by done.
  unfold indented. destruct (ln =? "")%string; [done|]. by rewrite str_contains_byte_app, spaces_free, Hln.
Qed.

Lemma contains_lines c d s : c ≠ d → str_contains_byte c s = false →
  Forall (λ ln, str_contains_byte c ln = false) (split_byte d s).
Proof.
  intros Hcd. induction s as [|e s IH]; [by repeat constructor|]. cbn [str_contains_byte split_byte]. intros [He Hs]%orb_false_iff.
  specialize (IH Hs). destruct (decide (e = d)); [by constructor|]. pose proof (split_byte_ne d s). destruct (split_byte d s) as [|x xs]; [done|].
  apply Forall_cons in IH as [Hx Hxs]. constructor; [|done]. cbn [str_contains_byte]. by rewrite He, Hx.
Qed.

Lemma normalize_block n v : 0 < n → block_value v = true → normalizeMultiline (block_body n v) = v.
Proof.
  intros Hn [[[Hcr%negb_true_iff _]%andb_true_iff Hl]%andb_true_iff Hmin]%andb_true_iff.
  set (lines := split_byte newline v) in *.
  assert (Forall (λ ln, ln = "" ∨ trim_space ln ≠ "") lines) as Hb.
  { apply Forall_forall. intros ln Hin%list_elem_of_In. rewrite forallb_forall in Hl. specialize (Hl ln Hin).
    apply orb_true_iff in Hl as [?%String.eqb_eq|?%negb_true_iff%String.eqb_neq]; auto. }
  unfold normalizeMultiline, block_body. fold lines.
  rewrite unix_lines_id.
  2:{ cbn [str_contains_byte]. rewrite str_contains_byte_app, lines_text_free, spaces_free; [done..|]. by apply contains_lines. }
  unfold drop_opening. cbn [cut_byte]. rewrite decide_True by done. change (trim_space "" =? "")%string with true. cbv iota.
  rewrite split_lines; [|apply Forall_forall; intros ln Hin|by apply spaces_free].
  2:{ unfold indented. destruct (ln =? "")%string; [done|]. rewrite str_contains_byte_app, spaces_free by done.
      pose proof (split_byte_lines newline v) as Hs. rewrite Forall_forall in Hs. by rewrite (Hs ln Hin). }
  unfold drop_closing. rewrite last_snoc, spaces_blank, removelast_last, min_indent_spaces by done.
  rewrite <-list_fmap_compose. transitivity (join (String newline "") lines); [f_equal|apply join_split].
  etransitivity; [|apply list_fmap_id]. apply list_fmap_ext. intros i ln Hi. cbn [compose id].
  rewrite Forall_forall in Hb. specialize (Hb ln (list_elem_of_lookup_2 _ _ _ Hi)).
  destruct (min_indent lines) as [[|k]|] eqn:Em; [|done|].
  - cbn [fmap option_fmap option_map]. rewrite Nat.add_0_r. by apply dedent_spaces.
  - pose proof (min_indent_none _ Em) as Hn0. rewrite Forall_forall in Hn0.
    specialize (Hn0 ln (list_elem_of_lookup_2 _ _ _ Hi)). by destruct Hb as [->|Hb].
Qed.

(** ** Scanning a block *)

Lemma fence_free_app a c b : c ≠ quote → fence_free (a ++ c :: b) = fence_free a && fence_free b.
Proof.
  intros Hc. assert (∀ l, has_fence (c :: l) = false) as Hl.
  { intros l. unfold has_fence, fence. cbn [strip]. by rewrite decide_False. }
  assert (∀ a, has_fence (a ++ c :: b) = has_fence a) as Ha.
  { intros [|d1 [|d2 [|d3 a']]]; [apply Hl|..]; unfold has_fence, fence; cbn [strip app];
      repeat case_decide; try done; congruence. }
  induction a as [|d a IH]; cbn [fence_free app].
  - by rewrite Hl.
  - by rewrite (Ha (d :: a) : has_fence (d :: a ++ c :: b) = _), IH, andb_assoc.
Qed.

Lemma fence_free_cons c l : c ≠ quote → fence_free (c :: l) = fence_free l.
Proof. intros Hc. exact (fence_free_app [] c l Hc). Qed.

Lemma fence_free_spaces n s : fence_free (cs (spaces n +:+ s)) = fence_free (cs s).
Proof. induction n as [|n IH]; [done|]. rewrite spaces_S, string_app_cons. cbn [String.list_ascii_of_string]. by rewrite fence_free_cons. Qed.

Lemma fence_free_lines v : fence_free (cs v) = forallb (λ ln, fence_free (cs ln)) (split_byte newline v).
Proof.
  induction v as [|c v IH]; [done|]. cbn [split_byte]. case_decide as E.
  - subst c. cbn [String.list_ascii_of_string forallb]. by rewrite fence_free_cons, IH.
  - pose proof (join_split newline v) as Ev. pose proof (split_byte_lines newline v) as Hl.
    pose proof (split_byte_ne newline v). destruct (split_byte newline v) as [|x xs] eqn:Es; [done|].
    clear IH. rewrite <-Ev. clear Ev Es H. cbn [forallb].
    destruct xs as [|y xs]; [by rewrite join_cons, andb_true_r|]. rewrite join_cons, string_app_cons, string_app_nil_l.
    cbn [String.list_ascii_of_string]. rewrite list_ascii_of_app. cbn [String.list_ascii_of_string].
    change (c :: cs x ++ newline :: cs (join (String newline "") (y :: xs))) with
      ((c :: cs x) ++ newline :: cs (join (String newline "") (y :: xs))).
    rewrite fence_free_app by done. f_equal. apply Forall_cons in Hl as [_ Hl]. clear x c E.
    revert y Hl. induction xs as [|z xs IH]; intros y Hl; [by rewrite join_cons; cbn [forallb]; rewrite andb_true_r|].
    rewrite join_cons, string_app_cons, string_app_nil_l, list_ascii_of_app. cbn [String.list_ascii_of_string].
    rewrite fence_free_app by done. cbn [forallb] in *. f_equal. apply IH. by apply Forall_cons in Hl as [_ ?].
Qed.

Lemma fence_free_body n v : fence_free (cs v) = true → fence_free (cs (block_body n v)) = true.
Proof.
  rewrite fence_free_lines. intros H. unfold block_body. cbn [String.list_ascii_of_string]. rewrite fence_free_cons by done.
  induction (split_byte newline v) as [|ln lines IH]; cbn [lines_text foldr].
  - rewrite string_app_nil_l. rewrite <-(string_app_nil_r (spaces n)). by rewrite fence_free_spaces.
  - cbn [forallb] in H. apply andb_true_iff in H as [Hln Hl]. fold (lines_text (indented (spaces n)) lines).
    rewrite string_app_assoc, string_app_cons, list_ascii_of_app. cbn [String.list_ascii_of_string].
    rewrite fence_free_app, IH, andb_true_r by done. unfold indented. destruct (ln =? "")%string; [done|]. by rewrite fence_free_spaces.
Qed.

(** A rune does not reach over a quote. *)
Lemma next_rune_quote a t r rest :
  a ≠ [] → next_rune (a ++ quote :: t) = Some (r, rest) → ∃ a', a = rune_bytes r ++ a' ∧ rest = a' ++ quote :: t ∧ rune_bytes r ≠ [].
Proof.
  intros Ha. destruct a as [|b0 a]; [done|]. cbn [app]. unfold next_rune.
  destruct (decode_rune (b0 :: a ++ quote :: t)) as [[r' rest']|] eqn:E; intros [= <- <-]; [|by exists a].
  unfold decode_rune in E. cbn [rune_bytes].
  destruct a as [|b1 [|b2 [|b3 a]]]; cbn [app] in E; repeat case_match; simplify_eq; bool_inv;
    first [by exists []|by eexists [_]|by eexists (_ :: _ :: _)|by eexists (_ :: _)|by eexists|idtac];
    exfalso; change (is_cont quote) with false in *; change (in_range 160 191 quote) with false in *;
    change (in_range 128 159 quote) with false in *; change (in_range 144 191 quote) with false in *;
    change (in_range 128 143 quote) with false in *; by rewrite ?andb_false_r, ?orb_false_r in *.
Qed.

(** No quote of the body runs into the closing fence. *)
Lemma body_fence b c t : c ≠ quote → fence_free (b ++ [c]) = true → has_fence ((b ++ [c]) ++ t) = false.
Proof.
  intros Hc H. assert (has_fence (b ++ [c]) = false) as Hb.
  { destruct b as [|d b]; cbn [app fence_free] in *; apply andb_true_iff in H as [H _]; by apply negb_true_iff. }
  unfold has_fence, fence in *. destruct b as [|d1 [|d2 [|d3 b]]]; cbn [strip app] in *; repeat case_decide; try done; congruence.
Qed.

Lemma to_fence_at l0 r : ∀ fuel body l,
  fence_free body = true → (body = [] ∨ ∃ b c, body = b ++ [c] ∧ c ≠ quote) → length body < fuel →
  at_rest l0 l (body ++ fence ++ r) → at_rest l0 (to_fence fuel l) (fence ++ r).
Proof.
  induction fuel as [|fuel IH]; intros body l Hff Hend Hf H; [lia|]. cbn [to_fence]. destruct H as [El Hd].
  destruct body as [|c0 body].
  - rewrite El. cbn [app]. unfold fence at 1. cbn [app]. done.
  - destruct Hend as [|(b & c & Eb & Hc)]; [done|].
    assert (has_fence (lx_rest l) = false) as Hnf by (rewrite El, Eb; apply body_fence; [done|by rewrite <-Eb]).
    rewrite Hnf. rewrite El at 1. cbn [app].
    destruct (next_rune (lx_rest l)) as [[ru rest]|] eqn:En; [|by rewrite El in En; cbn in En; destruct (decode_rune _) as [[? ?]|]].
    rewrite El in En. destruct (next_rune_quote (c0 :: body) (quote :: quote :: r) ru rest) as (a' & Ea & -> & Hne); [done|exact En|].
    apply (IH a').
    + clear -Hff Ea. rewrite Ea in Hff. clear Ea. induction (rune_bytes ru) as [|x xs IH']; [done|].
      cbn [app fence_free] in Hff. apply andb_true_iff in Hff as [_ ?]. auto.
    + destruct a' as [|x a' _] using rev_ind; [by left|]. right. exists a', x. split; [done|].
      rewrite Eb, app_assoc in Ea. apply app_inj_tail in Ea as [_ <-]. done.
    + apply (f_equal length) in Ea. rewrite length_app in Ea. destruct (rune_bytes ru); [done|]. cbn in *. lia.
    + unfold advance. rewrite El, En. by split.
Qed.

Definition block_text (n : nat) (v : string) : string :=
  String.string_of_list_ascii fence +:+ (block_body n v +:+ String.string_of_list_ascii fence).

Lemma block_body_end n v : 0 < n → ∃ b c, cs (block_body n v) = b ++ [c] ∧ c ≠ quote.
Proof.
  intros Hn. unfold block_body. destruct n as [|n]; [lia|]. exists (newline :: cs (lines_text (indented (spaces (S n))) (split_byte newline v) +:+ spaces n)), " "%char.
  split; [|done]. cbn [String.list_ascii_of_string app]. f_equal. rewrite !list_ascii_of_app, <-app_assoc. f_equal.
  unfold spaces. rewrite !String.list_ascii_of_string_of_list_ascii. change (S n) with (1 + n). rewrite Nat.add_comm, replicate_add. done.
Qed.

Lemma match_rest {A} l c t (x y : A) : lx_rest l = c :: t → match lx_rest l with [] => x | _ => y end = y.
Proof. by intros ->. Qed.

Lemma read_block l0 l n v r :
  0 < n → block_value v = true → at_rest l0 l (cs (block_text n v) ++ r) → reads_token l0 l KindString v r.
Proof.
  intros Hn Hv H. unfold block_text in H. rewrite !list_ascii_of_app, <-!app_assoc in H.
  change (cs (String.string_of_list_ascii fence)) with fence in H. set (body := cs (block_body n v)) in *.
  destruct (Next_byte l0 l quote (quote :: quote :: body ++ fence ++ r)) as [Es Ep]; [done..|].
  unfold reads_token, Next. rewrite Es, Ep. change (rune_test isIdentStart (inl [quote])) with false.
  change (rune_test isDigit (inl [quote])) with false. change (rune_is quote (inl [quote])) with true. cbv iota.
  assert (has_fence (lx_rest l) = true) as ->.
  { destruct H as [-> _]. unfold has_fence, fence. cbn [strip app]. by rewrite !decide_True. }
  unfold scanMultilineString.
  pose proof (advance_at l0 l quote (quote :: quote :: body ++ fence ++ r) eq_refl H) as H1.
  pose proof (advance_at l0 _ quote (quote :: body ++ fence ++ r) eq_refl H1) as H2.
  pose proof (advance_at l0 _ quote (body ++ fence ++ r) eq_refl H2) as H3. clear H1 H2.
  set (from := advance (advance (advance l))) in *.
  assert (at_rest l0 (to_fence (S (length (lx_rest from))) from) (fence ++ r)) as H4.
  { apply (to_fence_at l0 r _ body); [| | |done].
    - apply fence_free_body. unfold block_value in Hv. by bool_inv.
    - right. by apply block_body_end.
    - destruct H3 as [-> _]. rewrite length_app. lia. }
  set (l1 := to_fence _ from) in *. rewrite (taken_at l0 from l1 body (fence ++ r)) by done.
  destruct H4 as [E4 D4]. cbv zeta.
  rewrite (match_rest l1 quote (quote :: quote :: r)) by done.
  unfold body. rewrite String.string_of_list_ascii_of_string, normalize_block by done.
  do 2 eexists. split; [reflexivity|]. split; [done|]. split; [done|].
  apply (advance_at l0 _ quote r eq_refl), (advance_at l0 _ quote (quote :: r) eq_refl), (advance_at l0 _ quote (quote :: quote :: r) eq_refl).
  by split.
Qed.

(** ** Texts of token lists *)

Section texts.
Context (is_print : chars → bool).

Inductive token_text : Kind → string → string → Prop :=
  | text_word x : word x = true → token_text (word_kind x) x x
  | text_punct k x : (k, x) ∈ puncts → token_text k x x
  | text_number x : number_text x → token_text KindNumber x x
  | text_quoted s : quotable is_print s = true → token_text KindString s (Quote is_print s)
  | text_block n s : 0 < n → block_value s = true → token_text KindString s (block_text n s).

(** [t] spells the tokens: white space and token texts, no token running into the
    next byte. *)
Inductive lexed : string → list (Kind * string) → Prop :=
  | lexed_nil : lexed "" []
  | lexed_space c t l : is_space c = true → lexed t l → lexed (String c t) l
  | lexed_token k x u t l : token_text k x u → follows k (cs t) → lexed t l → lexed (u +:+ t) ((k, x) :: l).

Lemma read_token l0 l k x u r :
  token_text k x u → follows k r → at_rest l0 l (cs u ++ r) → reads_token l0 l k x r.
Proof.
  destruct 1; intros Hf Hr; [by apply read_word|by apply read_punct|by apply read_number|by eapply read_quoted|by eapply read_block].
Qed.

Lemma token_text_ne k x u : token_text k x u → u ≠ "" ∧ k ≠ KindEOF.
Proof.
  destruct 1 as [x Hx|k x Hin|x (d & Hne & _ & Hx)|s|n s].
  - split; [by destruct x|]. intros E. pose proof (word_kind_breaks x) as Hb. rewrite E in Hb.
    by apply (f_equal (λ f, f "a"%char)) in Hb.
  - unfold puncts in Hin. by repeat (apply elem_of_cons in Hin as [[= -> ->]|Hin]; [done|]); apply elem_of_nil in Hin.
  - split; [|done]. destruct Hx as [->|(f & _ & _ & ->)]; [done|]. by destruct d.
  - done.
  - done.
Qed.

Definition kind_lit (t : Token) : Kind * string := (tk_Kind t, tk_Lit t).

Lemma lex_all_lexed l0 t toks : lexed t toks → ∀ fuel l, at_rest l0 l (cs t) → length (cs t) < fuel →
  ∃ ts l', lex_all fuel l = (ts, l') ∧ kind_lit <$> ts = toks ∧ lx_diags l' = lx_diags l0.
Proof.
  induction 1 as [|c t toks Hc _ IH|k x u t toks Htext Hf _ IH]; intros [|fuel] l H Hfuel; try (cbn in Hfuel; lia).
  - assert (Next l = (mkToken KindEOF "" (lx_pos l), l)) as E.
    { unfold Next. rewrite (skip_none l0 l []) by done. unfold peek. destruct H as [-> _]. done. }
    cbn [lex_all]. rewrite E. exists [], l. split; [done|]. split; [done|]. apply H.
  - pose proof (skip_space l0 l c (cs t) Hc H) as Es. assert (Next l = Next (advance l)) as E by (unfold Next; by rewrite Es).
    pose proof (advance_at l0 l c (cs t) (space_ascii c Hc) H) as H1.
    destruct (IH (S fuel) (advance l) H1) as (ts & l' & E' & ? & ?); [cbn in *; lia|].
    exists ts, l'. split; [|done]. rewrite <-E'. cbn [lex_all]. by rewrite E.
  - destruct (token_text_ne k x u Htext) as [Hu Hk]. rewrite list_ascii_of_app in H, Hfuel. rewrite length_app in Hfuel.
    destruct (read_token l0 l k x u (cs t) Htext Hf H) as (tok & l1 & E & <- & <- & H1).
    destruct (IH fuel l1 H1) as (ts & l' & E' & Ets & Hd); [destruct u; [done|]; cbn in *; lia|].
    exists (tok :: ts), l'. cbn [lex_all]. rewrite E, decide_False, E' by done. split; [done|]. split; [|done].
    by rewrite fmap_cons, Ets.
Qed.

(** The lexer returns the tokens a text spells, without a diagnostic. *)
Lemma Lex_lexed t toks : lexed t toks → ∃ ts l, Lex t = (ts, l) ∧ kind_lit <$> ts = toks ∧ lx_diags l = [].
Proof.
  intros H. apply (lex_all_lexed (NewLexer t) t toks H); [done|].
  assert (length (cs t) = String.length t) as ->; [|lia]. clear H. induction t as [|c t IH]; [done|]. cbn. by rewrite IH.
Qed.

Lemma lexed_spaces n t l : lexed t l → lexed (spaces n +:+ t) l.
Proof. intros H. induction n as [|n IH]; [done|]. rewrite spaces_S, string_app_cons. by apply lexed_space. Qed.
End texts.
