(* ===== verification/LangParser.v ===== *)
(** * The parser of the agent language ([internal/lang/parser.go], [ast.go])

    Workflow declarations, statements and expressions.  The parser is a state monad
    over the tokens left and the diagnostics (as positions); it reads positions only
    to recover at the end of a line, so the tree has none.  Every function that loops
    or recurses takes fuel; [LangTotal] proves that a little more than the number of
    tokens is enough. *)

From S2P Require Import Prelude GoNum GoText Value JsonNum LangLexer.

Local Open Scope nat_scope.

(** ** Syntax trees

    A nil pointer or interface is [None] or [NilExpr]. *)

Inductive expr : Type :=
  | LitExpr (v : value)
  | UnaryExpr (x : expr)
  | BinaryExpr (op : Kind) (x y : expr)
  | RefExpr (parts : list string)
  | CallExpr (callee : list string) (args : list (option string * expr))
  | ObjectExpr (fields : list (string * expr))
  | NilExpr.
Abbreviation arg := (option string * expr)%type.

Inductive stmt : Type :=
  | AssignStmt (target : string) (v : expr)
  | ExprStmt (x : expr)
  | ParallelStmt (body : list (string * expr))
  | ReturnStmt (v : expr)
  | ApprovalStmt (bind description : option string) (redactKeys : list string) (payload : list arg)
  | IfStmt (cond : expr) (thn els : list stmt)
  | ForStmt (var : option string) (coll : expr) (body : list stmt) (parallel : bool)
  | WhileStmt (cond : expr) (limit : Z) (body : list stmt)
  | RetryStmt (cond : expr) (limit : Z) (body : list stmt).

Record WorkflowDecl := mkWorkflowDecl {
  wd_Name : option string;
  wd_Params : list (string * option string);
  wd_Result : option string;
  wd_Description : option string;
  wd_Policy : option string;
  wd_Effects : list string;        (* nil and empty are one *)
  wd_Body : list stmt;
}.

(** ** The parser monad *)

Record pst := mkPst { ps_toks : list Token; ps_eof : Pos; ps_diags : list Pos }.

Definition P (A : Type) : Type := pst → option (A * pst).
#[export] Instance P_ret : MRet P := λ A a s, Some (a, s).
#[export] Instance P_bind : MBind P := λ A B f m s, match m s with Some (a, s) => f a s | None => None end.

(** Out of fuel. *)
Definition stuck {A} : P A := λ _, None.

Definition cur : P Token := λ s, Some (match ps_toks s with t :: _ => t | [] => mkToken KindEOF "" (ps_eof s) end, s).
Definition curK : P Kind := λ s, Some (match ps_toks s with t :: _ => tk_Kind t | [] => KindEOF end, s).
Definition curLit : P string := λ s, Some (match ps_toks s with t :: _ => tk_Lit t | [] => "" end, s).
Definition peekK : P Kind := λ s, Some (match ps_toks s with _ :: t :: _ => tk_Kind t | _ => KindEOF end, s).
Definition peekLit : P string := λ s, Some (match ps_toks s with _ :: t :: _ => tk_Lit t | _ => "" end, s).

(** The current token is the given contextual word. *)
Definition at_word (x : string) : P bool :=
  k ← curK; lit ← curLit; mret (bool_decide (k = KindIdent) && (lit =? x)%string).

Definition advance : P unit := λ s, Some ((), mkPst (tail (ps_toks s)) (ps_eof s) (ps_diags s)).
Definition errorf (p : Pos) : P unit := λ s, Some ((), mkPst (ps_toks s) (ps_eof s) (ps_diags s ++ [p])).
(** A diagnostic at the current token. *)
Definition error_here : P unit := t ← cur; errorf (tk_Pos t).

Definition expect (k : Kind) : P bool :=
  c ← curK; if decide (c = k) then advance ;; mret true else error_here ;; mret false.

Definition ident : P (option string) :=
  c ← curK;
  if decide (c = KindIdent) then lit ← curLit; advance ;; mret (Some lit) else error_here ;; mret None.

(** *** Recovery *)

Definition ends_block (k : Kind) : bool := bool_decide (k = KindRBrace ∨ k = KindEOF).
Definition ends_list (k : Kind) : bool := bool_decide (k = KindRParen ∨ k = KindEOF).

(** To the end of the line: [advance], then tokens of the line up to a brace. *)
Fixpoint sync_line (line : nat) (l : list Token) : list Token :=
  match l with
  | t :: l' => if decide (tk_Kind t = KindRBrace) then l
               else if decide (Line (tk_Pos t) ≠ line) then l else sync_line line l'
  | [] => []
  end.
Definition syncLine : P unit := λ s,
  match ps_toks s with
  | [] => Some ((), s)
  | t :: l => Some ((), mkPst (sync_line (Line (tk_Pos t)) l) (ps_eof s) (ps_diags s))
  end.

Fixpoint sync_list (l : list Token) : list Token :=
  match l with
  | t :: l' => if decide (tk_Kind t = KindRParen) then l
               else if decide (tk_Kind t = KindComma) then l' else sync_list l'
  | [] => []
  end.
Definition syncList : P unit := λ s, Some ((), mkPst (sync_list (ps_toks s)) (ps_eof s) (ps_diags s)).

(** ** Shared helpers *)

Fixpoint dotted_rest (fuel : nat) : P (list string) :=
  match fuel with
  | O => stuck
  | S fuel =>
      k ← curK;
      if decide (k = KindDot) then
        advance ;; seg ← ident;
        match seg with None => mret [] | Some x => xs ← dotted_rest fuel; mret (x :: xs) end
      else mret []
  end.
Definition parseDottedPath (fuel : nat) : P (list string) :=
  first ← ident; match first with None => mret [] | Some x => xs ← dotted_rest fuel; mret (x :: xs) end.
Definition dottedName (parts : list string) : string := join "." parts.

Definition parseStringLit : P (option string) :=
  k ← curK;
  if decide (k = KindString) then lit ← curLit; advance ;; mret (Some lit) else error_here ;; mret None.

Definition parseTypeRef : P (option string) := ident.

(** [parser_resources.go]. *)
Fixpoint string_list (fuel : nat) : P (list string) :=
  match fuel with
  | O => stuck
  | S fuel =>
      k ← curK;
      if ends_block k then mret []
      else if decide (k = KindString) then
        s ← parseStringLit; rest ← string_list fuel;
        mret (match s with Some s => s :: rest | None => rest end)
      else error_here ;; syncLine ;; string_list fuel
  end.
Definition parseStringListBlock (fuel : nat) : P (list string) :=
  ok ← expect KindLBrace;
  if ok : bool then out ← string_list fuel; expect KindRBrace ;; mret out else mret [].

(** ** Expressions *)

Definition isComparisonOp (k : Kind) : bool :=
  bool_decide (k = KindEqEq ∨ k = KindBangEq ∨ k = KindLt ∨ k = KindLte ∨ k = KindGt ∨ k = KindGte).
Definition is_nil (e : expr) : bool := match e with NilExpr => true | _ => false end.

(** [strconv.ParseFloat] on the text of a number token. *)
Definition number_value (lit : string) : res jerr f64 :=
  match cut_byte "." lit with
  | Some (a, b) =>
      match digits_value 0 (a +:+ b) with
      | Some d => parse_float false (Z.to_N d) (- Z.of_nat (String.length b))
      | None => Err JRange
      end
  | None => match digits_value 0 lit with Some d => parse_float false (Z.to_N d) 0 | None => Err JRange end
  end.

Definition parseNumber : P expr :=
  tok ← cur; advance ;;
  let lit := tk_Lit tok in
  let float :=
    match number_value lit with
    | Ok f => mret (LitExpr (VFloat f))
    | Err _ => errorf (tk_Pos tok) ;; mret (LitExpr (VFloat (f64_of_int 0)))
    end in
  if str_contains_byte "." lit then float
  else match atoi lit with Some i => mret (LitExpr (VInt i)) | None => float end.

Section expressions.
(** The recursive call, and the fuel of the loops. *)
Context (parseExpr : P expr) (fuel : nat).

Definition parseArg : P (option arg) :=
  k ← curK; kp ← peekK;
  if bool_decide (k = KindIdent) && bool_decide (kp = KindColon) then
    name ← ident; advance ;; v ← parseExpr; mret (Some (name, v))
  else v ← parseExpr; mret (if is_nil v then None else Some (None, v)).

Fixpoint args_loop (fuel : nat) : P (list arg) :=
  match fuel with
  | O => stuck
  | S fuel =>
      k ← curK;
      if ends_list k then mret []
      else
        a ← parseArg;
        match a with
        | None => syncList ;; args_loop fuel
        | Some a =>
            k ← curK;
            if decide (k = KindComma) then advance ;; rest ← args_loop fuel; mret (a :: rest) else mret [a]
        end
  end.
Definition parseArgs : P (list arg) :=
  ok ← expect KindLParen;
  if ok : bool then args ← args_loop fuel; expect KindRParen ;; mret args else mret [].

Fixpoint object_loop (fuel : nat) : P (list (string * expr)) :=
  match fuel with
  | O => stuck
  | S fuel =>
      k ← curK;
      if ends_block k then mret []
      else if decide (k = KindComma) then advance ;; object_loop fuel
      else if decide (k = KindIdent) then
        key ← ident; colon ← expect KindColon;
        if colon : bool then
          v ← parseExpr; rest ← object_loop fuel;
          mret (match key with Some key => (key, v) :: rest | None => rest end)
        else syncLine ;; object_loop fuel
      else error_here ;; syncLine ;; object_loop fuel
  end.
Definition parseObjectLiteral : P expr :=
  ok ← expect KindLBrace;
  if ok : bool then fields ← object_loop fuel; expect KindRBrace ;; mret (ObjectExpr fields) else mret (ObjectExpr []).

Definition parsePrimary : P expr :=
  k ← curK;
  match k with
  | KindNumber => parseNumber
  | KindString => lit ← curLit; advance ;; mret (LitExpr (VStr lit))
  | KindLParen => advance ;; e ← parseExpr; expect KindRParen ;; mret e
  | KindLBrace => parseObjectLiteral
  | KindIdent =>
      lit ← curLit; kp ← peekK;
      if ((lit =? "true") || (lit =? "false"))%string && negb (bool_decide (kp = KindDot ∨ kp = KindLParen)) then
        advance ;; mret (LitExpr (VBool (lit =? "true")%string))
      else
        ref ← parseDottedPath fuel;
        match ref with
        | [] => mret NilExpr
        | _ =>
            k ← curK;
            if decide (k = KindLParen) then args ← parseArgs; mret (CallExpr ref args) else mret (RefExpr ref)
        end
  | _ => error_here ;; mret NilExpr
  end.

Fixpoint parseUnary (fuel : nat) : P expr :=
  match fuel with
  | O => stuck
  | S fuel =>
      k ← curK;
      if decide (k = KindBang) then advance ;; x ← parseUnary fuel; mret (UnaryExpr x) else parsePrimary
  end.

Definition parseComparison : P expr :=
  left ← parseUnary fuel;
  k ← curK;
  if is_nil left || negb (isComparisonOp k) then mret left
  else
    advance ;; right ← parseUnary fuel;
    k' ← curK;
    (if isComparisonOp k' then error_here else mret ()) ;;
    mret (BinaryExpr k left right).

Fixpoint and_loop (fuel : nat) (left : expr) : P expr :=
  match fuel with
  | O => stuck
  | S fuel =>
      k ← curK;
      if negb (is_nil left) && bool_decide (k = KindAndAnd) then
        advance ;; right ← parseComparison; and_loop fuel (BinaryExpr KindAndAnd left right)
      else mret left
  end.
Definition parseAnd : P expr := left ← parseComparison; and_loop fuel left.

Fixpoint or_loop (fuel : nat) (left : expr) : P expr :=
  match fuel with
  | O => stuck
  | S fuel =>
      k ← curK;
      if negb (is_nil left) && bool_decide (k = KindOrOr) then
        advance ;; right ← parseAnd; or_loop fuel (BinaryExpr KindOrOr left right)
      else mret left
  end.
Definition parseOr : P expr := left ← parseAnd; or_loop fuel left.
End expressions.

Fixpoint parseExpr (fuel : nat) : P expr :=
  match fuel with O => stuck | S fuel => parseOr (parseExpr fuel) fuel end.

(** ** Statements *)

(** A positive integer bound; 0 after a diagnostic. *)
Definition parseLimit : P Z :=
  tok ← cur;
  if decide (tk_Kind tok ≠ KindNumber) then errorf (tk_Pos tok) ;; mret 0%Z
  else
    advance ;;
    if str_contains_byte "." (tk_Lit tok) then errorf (tk_Pos tok) ;; mret 0%Z
    else match atoi (tk_Lit tok) with
         | Some n => if (n <=? 0)%Z then errorf (tk_Pos tok) ;; mret 0%Z else mret n
         | None => errorf (tk_Pos tok) ;; mret 0%Z
         end.

Section statements.
(** The recursive call (a statement), and the fuel of the loops and expressions. *)
Context (parseStmt : P (option stmt)) (fuel : nat).

Fixpoint block_loop (fuel : nat) : P (list stmt) :=
  match fuel with
  | O => stuck
  | S fuel =>
      k ← curK;
      if ends_block k then mret []
      else
        s ← parseStmt;
        match s with
        | None => syncLine ;; block_loop fuel
        | Some s => rest ← block_loop fuel; mret (s :: rest)
        end
  end.
Definition parseBlock : P (list stmt) :=
  ok ← expect KindLBrace;
  if ok : bool then stmts ← block_loop fuel; expect KindRBrace ;; mret stmts else mret [].

Fixpoint with_loop (fuel' : nat) : P (list arg) :=
  match fuel' with
  | O => stuck
  | S fuel' =>
      k ← curK;
      if ends_block k then mret []
      else
        a ← parseArg (parseExpr fuel);
        match a with
        | None => syncLine ;; with_loop fuel'
        | Some a =>
            k ← curK; (if decide (k = KindComma) then advance else mret ()) ;;
            rest ← with_loop fuel'; mret (a :: rest)
        end
  end.
Definition parseApprovalWith : P (list arg) :=
  ok ← expect KindLBrace;
  if ok : bool then out ← with_loop fuel; expect KindRBrace ;; mret out else mret [].

(** The fields of an approval body, the last occurrence of each winning. *)
Record approval_fields := mkApproval { ap_description : option string; ap_redact : list string; ap_with : list arg }.

Fixpoint approval_loop (fuel' : nat) (seen : list string) (s : approval_fields) : P approval_fields :=
  match fuel' with
  | O => stuck
  | S fuel' =>
      tok ← cur;
      if ends_block (tk_Kind tok) then mret s
      else if decide (tk_Kind tok ≠ KindIdent) then error_here ;; syncLine ;; approval_loop fuel' seen s
      else
        let field := tk_Lit tok in
        advance ;;
        (if str_mem field seen then errorf (tk_Pos tok) else mret ()) ;;
        let seen := field :: seen in
        if (field =? "description")%string then
          d ← parseStringLit; approval_loop fuel' seen (mkApproval d (ap_redact s) (ap_with s))
        else if (field =? "redactKeys")%string then
          r ← parseStringListBlock fuel; approval_loop fuel' seen (mkApproval (ap_description s) r (ap_with s))
        else if (field =? "with")%string then
          w ← parseApprovalWith; approval_loop fuel' seen (mkApproval (ap_description s) (ap_redact s) w)
        else errorf (tk_Pos tok) ;; syncLine ;; approval_loop fuel' seen s
  end.
Definition parseApproval : P stmt :=
  advance ;; bind ← ident;
  ok ← expect KindLBrace;
  if ok : bool then
    s ← approval_loop fuel [] (mkApproval None [] []);
    expect KindRBrace ;; mret (ApprovalStmt bind (ap_description s) (ap_redact s) (ap_with s))
  else mret (ApprovalStmt bind None [] []).

Fixpoint parallel_loop (fuel' : nat) : P (list (string * expr)) :=
  match fuel' with
  | O => stuck
  | S fuel' =>
      k ← curK;
      if ends_block k then mret []
      else
        kp ← peekK;
        if bool_decide (k = KindIdent) && bool_decide (kp = KindEquals) then
          target ← ident; advance ;; v ← parseExpr fuel; rest ← parallel_loop fuel';
          mret (match target with Some x => (x, v) :: rest | None => rest end)
        else error_here ;; syncLine ;; parallel_loop fuel'
  end.
Definition parseParallel : P stmt :=
  advance ;; ok ← expect KindLBrace;
  if ok : bool then body ← parallel_loop fuel; expect KindRBrace ;; mret (ParallelStmt body) else mret (ParallelStmt []).

(** An [else if] is the statement the recursive call parses at the [if]. *)
Definition parseIf : P stmt :=
  advance ;; cond ← parseExpr fuel; thn ← parseBlock;
  k ← curK;
  if decide (k = KindElse) then
    advance ;; k ← curK;
    if decide (k = KindIf) then
      s ← parseStmt; mret (IfStmt cond thn (match s with Some s => [s] | None => [] end))
    else els ← parseBlock; mret (IfStmt cond thn els)
  else mret (IfStmt cond thn []).

Definition parseFor (parallel : bool) : P stmt :=
  advance ;; var ← ident;
  at_in ← at_word "in";
  (if at_in : bool then advance else error_here) ;;
  coll ← parseExpr fuel; body ← parseBlock; mret (ForStmt var coll body parallel).

Definition limit_clause : P Z :=
  at_limit ← at_word "limit";
  if at_limit : bool then advance ;; parseLimit else error_here ;; mret 0%Z.

Definition parseWhile : P stmt :=
  advance ;; cond ← parseExpr fuel; limit ← limit_clause; body ← parseBlock; mret (WhileStmt cond limit body).
Definition parseRetry : P stmt :=
  advance ;; advance ;; cond ← parseExpr fuel; limit ← limit_clause; body ← parseBlock; mret (RetryStmt cond limit body).

Definition some_stmt (m : P stmt) : P (option stmt) := s ← m; mret (Some s).

Definition parseStmt_step : P (option stmt) :=
  k ← curK;
  match k with
  | KindReturn => advance ;; v ← parseExpr fuel; mret (Some (ReturnStmt v))
  | KindIf => some_stmt parseIf
  | KindFor => some_stmt (parseFor false)
  | KindWhile => some_stmt parseWhile
  | KindParallel =>
      kp ← peekK;
      if decide (kp = KindFor) then advance ;; some_stmt (parseFor true) else some_stmt parseParallel
  | KindIdent =>
      lit ← curLit; kp ← peekK; litp ← peekLit;
      if (lit =? "retry")%string && bool_decide (kp = KindIdent) && (litp =? "until")%string then some_stmt parseRetry
      else if (lit =? "approval")%string && bool_decide (kp = KindIdent) then some_stmt parseApproval
      else if decide (kp = KindEquals) then
        target ← ident; advance ;; v ← parseExpr fuel;
        mret (match target with Some x => Some (AssignStmt x v) | None => None end)
      else x ← parseExpr fuel; mret (if is_nil x then None else Some (ExprStmt x))
  | _ => error_here ;; mret None
  end.
End statements.

Fixpoint parseStmt (fuel : nat) : P (option stmt) :=
  match fuel with O => stuck | S fuel => parseStmt_step (parseStmt fuel) fuel end.

(** ** Workflows *)

Fixpoint params_loop (fuel : nat) : P (list (string * option string)) :=
  match fuel with
  | O => stuck
  | S fuel =>
      k ← curK;
      if ends_list k then mret []
      else
        name ← ident;
        match name with
        | None => syncList ;; params_loop fuel
        | Some name =>
            expect KindColon ;; typ ← parseTypeRef; k ← curK;
            if decide (k = KindComma) then advance ;; rest ← params_loop fuel; mret ((name, typ) :: rest)
            else mret [(name, typ)]
        end
  end.
Definition parseParams (fuel : nat) : P (list (string * option string)) :=
  ok ← expect KindLParen;
  if ok : bool then params ← params_loop fuel; expect KindRParen ;; mret params else mret [].

(** An effect is a dotted name; one that starts with [tool] is reported. *)
Definition parseEffectRef (fuel : nat) : P string :=
  tok ← cur; parts ← parseDottedPath fuel;
  (match parts with x :: _ => if (x =? "tool")%string then errorf (tk_Pos tok) else mret () | [] => mret () end) ;;
  mret (dottedName parts).

Fixpoint effects_loop (fuel' fuel : nat) : P (list string) :=
  match fuel' with
  | O => stuck
  | S fuel' =>
      k ← curK;
      if ends_block k then mret []
      else if decide (k ≠ KindIdent) then error_here ;; syncLine ;; effects_loop fuel' fuel
      else
        e ← parseEffectRef fuel; k ← curK;
        (if decide (k = KindComma) then advance else mret ()) ;;
        rest ← effects_loop fuel' fuel; mret (e :: rest)
  end.
Definition parseEffects (fuel : nat) : P (list string) :=
  ok ← expect KindLBrace;
  if ok : bool then effs ← effects_loop fuel fuel; expect KindRBrace ;; mret effs else mret [].

(** The header clauses, each taken while its field is unset. *)
Record clauses := mkClauses { cl_Description : option string; cl_Policy : option string; cl_Effects : list string }.

Fixpoint header_loop (fuel' fuel : nat) (c : clauses) : P clauses :=
  match fuel' with
  | O => stuck
  | S fuel' =>
      d ← at_word "description"; p ← at_word "policy"; e ← at_word "effects";
      if (d : bool) && bool_decide (cl_Description c = None) then
        advance ;; s ← parseStringLit; header_loop fuel' fuel (mkClauses s (cl_Policy c) (cl_Effects c))
      else if (p : bool) && bool_decide (cl_Policy c = None) then
        advance ;; x ← ident; header_loop fuel' fuel (mkClauses (cl_Description c) x (cl_Effects c))
      else if (e : bool) && bool_decide (cl_Effects c = []) then
        advance ;; es ← parseEffects fuel; header_loop fuel' fuel (mkClauses (cl_Description c) (cl_Policy c) es)
      else mret c
  end.

Definition parseWorkflow (fuel : nat) : P WorkflowDecl :=
  advance ;; name ← ident; params ← parseParams fuel;
  k ← curK;
  result ← (if decide (k = KindArrow) then advance ;; parseTypeRef else mret None);
  c ← header_loop fuel fuel (mkClauses None None []);
  body ← parseBlock (parseStmt fuel) fuel;
  mret (mkWorkflowDecl name params result (cl_Description c) (cl_Policy c) (cl_Effects c) body).
