(* ===== verification/LangPrint.v ===== *)
(** * The printer of the agent language ([internal/lang/printer.go])

    Canonical source text of expressions, statements and workflows.  The comment
    index of the source printer is empty here, as for a tree built without source.
    [strconv.Quote] takes the table of printable runes as a parameter. *)

From S2P Require Import Prelude GoNum GoText Value JsonNum GoQuote LangLexer LangText LangBlock LangParser.

Local Open Scope nat_scope.

(** ** Expressions *)

Definition binPrec (k : Kind) : nat :=
  match k with KindOrOr => 1 | KindAndAnd => 2 | _ => 3 end.

Definition opSymbol (k : Kind) : string :=
  match k with
  | KindEqEq => "==" | KindBangEq => "!=" | KindLt => "<" | KindLte => "<=" | KindGt => ">" | KindGte => ">="
  | KindAndAnd => "&&" | KindOrOr => "||" | _ => "?"
  end.

Definition identName (i : option string) : string := default "_" i.

(** The parenthesization of [printBinOperand] and [parenIfBinary]. *)
Definition operandParens (parentOp : Kind) (isRight : bool) (e : expr) : bool :=
  match e with
  | BinaryExpr op _ _ =>
      let cp := binPrec op in let pp := binPrec parentOp in
      (cp <? pp) || (cp =? pp) && isRight
  | _ => false
  end.
Definition is_binary (e : expr) : bool := match e with BinaryExpr _ _ _ => true | _ => false end.
Definition parens (b : bool) (s : string) : string := if b then "(" +:+ (s +:+ ")") else s.

Section print.
Context (is_print : chars → bool).

Definition printLit (v : value) : string :=
  match v with
  | VStr s => Quote is_print s
  | VBool b => fmt_bool b
  | VInt i => fmt_Z i
  | VFloat f => format_float_g f
  | v => fmt_v v
  end.

Fixpoint printExpr (e : expr) : string :=
  match e with
  | RefExpr parts => dottedName parts
  | LitExpr v => printLit v
  | UnaryExpr x => "!" +:+ parens (is_binary x) (printExpr x)
  | BinaryExpr op x y =>
      parens (operandParens op false x) (printExpr x) +:+ (" " +:+ (opSymbol op +:+ (" " +:+
        parens (operandParens op true y) (printExpr y))))
  | CallExpr callee args =>
      dottedName callee +:+ ("(" +:+ (join ", " ((λ a, match a with (name, v) =>
        match name with Some n => n +:+ (": " +:+ printExpr v) | None => printExpr v end end) <$> args) +:+ ")"))
  | ObjectExpr fields =>
      match fields with
      | [] => "{}"
      | _ => "{ " +:+ (join ", " ((λ f, match f with (k, v) => k +:+ (": " +:+ printExpr v) end) <$> fields) +:+ " }")
      end
  | NilExpr => "/*nil*/"
  end.
Definition printArg (a : arg) : string :=
  match a with (Some n, v) => n +:+ (": " +:+ printExpr v) | (None, v) => printExpr v end.

(** ** Statements *)

Definition nl : string := String newline "".
Definition indentation (depth : nat) : string := spaces (4 * depth).
Definition field_line (indent text : string) : string := indent +:+ (text +:+ nl).

(** [printStringField]: a quoted literal, or a block when the value has a newline
    and no triple quote. *)
Definition has_block (v : string) : bool := str_contains_byte newline v && fence_free (String.list_ascii_of_string v).
Definition printStringField (n : nat) (name v : string) : string :=
  if has_block v then spaces n +:+ (name +:+ (" " +:+ (block_text n v +:+ nl)))
  else field_line (spaces n) (name +:+ (" " +:+ Quote is_print v)).

(** [strings.TrimLeft(s, " ")]. *)
Fixpoint trim_spaces (s : string) : string :=
  match s with String c t => if bool_decide (c = " "%char) then trim_spaces t else s | "" => "" end.

Fixpoint printStmt (depth : nat) (s : stmt) : string :=
  let indent := indentation depth in
  let body := foldr (λ s acc, printStmt (S depth) s +:+ acc) "" in
  match s with
  | AssignStmt target v => field_line indent (target +:+ (" = " +:+ printExpr v))
  | ExprStmt x => field_line indent (printExpr x)
  | ReturnStmt v => field_line indent ("return " +:+ printExpr v)
  | ParallelStmt l =>
      field_line indent "parallel {" +:+
        (foldr (λ b acc, field_line (indentation (S depth)) (b.1 +:+ (" = " +:+ printExpr b.2)) +:+ acc) "" l +:+
         field_line indent "}")
  | IfStmt c t e => indent +:+ ("if " +:+ (printExpr c +:+ (" {" +:+ (nl +:+ (body t +:+
      match e with
      | [] => field_line indent "}"
      | [IfStmt _ _ _ as elif] =>
          indent +:+ ("} else " +:+ trim_spaces (printStmt depth elif))
      | e => field_line indent "} else {" +:+ (body e +:+ field_line indent "}")
      end)))))
  | ForStmt var coll b parallel =>
      field_line indent ((if parallel then "parallel for " else "for ") +:+ (identName var +:+ (" in " +:+ (printExpr coll +:+ " {")))) +:+
        (body b +:+ field_line indent "}")
  | WhileStmt c limit b =>
      field_line indent ("while " +:+ (printExpr c +:+ (" limit " +:+ (fmt_Z limit +:+ " {")))) +:+ (body b +:+ field_line indent "}")
  | RetryStmt c limit b =>
      field_line indent ("retry until " +:+ (printExpr c +:+ (" limit " +:+ (fmt_Z limit +:+ " {")))) +:+ (body b +:+ field_line indent "}")
  | ApprovalStmt bind desc redact payload =>
      let inner := spaces (4 * depth + 4) in let arg := spaces (4 * depth + 8) in
      field_line indent ("approval " +:+ (identName bind +:+ " {")) +:+
      (match desc with Some d => printStringField (4 * depth + 4) "description" d | None => "" end +:+
      (match redact with
       | [] => ""
       | _ => field_line inner ("redactKeys {" +:+ (foldr (λ k acc, " " +:+ (Quote is_print k +:+ acc)) "" redact +:+ " }"))
       end +:+
      (match payload with
       | [] => ""
       | _ => field_line inner "with {" +:+ (foldr (λ a acc, field_line arg (printArg a) +:+ acc) "" payload +:+ field_line inner "}")
       end +:+ field_line indent "}")))
  end.
Definition printBlock (depth : nat) (l : list stmt) : string := foldr (λ s acc, printStmt depth s +:+ acc) "" l.

(** ** Workflows *)

Definition typeName (t : option string) : string := default "_" t.

Definition printWorkflow (w : WorkflowDecl) : string :=
  let params := (λ p, match p with (x, t) => x +:+ (": " +:+ typeName t) end) <$> wd_Params w in
  let clauses :=
    match wd_Policy w with Some p => ["policy " +:+ p] | None => [] end ++
    match wd_Effects w with [] => [] | es => ["effects { " +:+ (join ", " es +:+ " }")] end in
  "workflow " +:+ (identName (wd_Name w) +:+ ("(" +:+ (join ", " params +:+ (")" +:+
  (match wd_Result w with Some t => " -> " +:+ t | None => "" end +:+
  (match wd_Description w with
   | Some d =>
       nl +:+ (printStringField 4 "description" d +:+ (foldr (λ c acc, field_line (spaces 4) c +:+ acc) "" clauses +:+ ("{" +:+ nl)))
   | None => foldr (λ c acc, " " +:+ (c +:+ acc)) "" clauses +:+ (" {" +:+ nl)
   end +:+ (printBlock 1 (wd_Body w) +:+ ("}" +:+ nl)))))))).
End print.
