(* ===== verification/LangExprText.v ===== *)
(** * The text of expressions

    The expressions the printer and the parser agree on ([wf_expr]), their tokens
    ([expr_tokens]), and the proof that the printed text spells these tokens. *)

From S2P Require Import Prelude GoNum GoText Value JsonText JsonNum GoQuote LangLexer LangText LangBlock LangParser LangPrint.

Local Open Scope nat_scope.

Section expr_ind.
Variable Q : expr → Prop.
Hypothesis Hlit : ∀ v, Q (LitExpr v).
Hypothesis Hunary : ∀ x, Q x → Q (UnaryExpr x).
Hypothesis Hbinary : ∀ op x y, Q x → Q y → Q (BinaryExpr op x y).
Hypothesis Href : ∀ p, Q (RefExpr p).
Hypothesis Hcall : ∀ p l, Forall (λ a, Q a.2) l → Q (CallExpr p l).
Hypothesis Hobject : ∀ l, Forall (λ f, Q f.2) l → Q (ObjectExpr l).
Hypothesis Hnil : Q NilExpr.

Fixpoint expr_nested_ind (e : expr) : Q e :=
  match e with
  | LitExpr v => Hlit v
  | UnaryExpr x => Hunary x (expr_nested_ind x)
  | BinaryExpr op x y => Hbinary op x y (expr_nested_ind x) (expr_nested_ind y)
  | RefExpr p => Href p
  | CallExpr p l => Hcall p l
      ((fix go l : Forall (λ a, Q a.2) l := match l with
        | [] => Forall_nil_2 _
        | a :: l => Forall_cons_2 _ _ _ (expr_nested_ind a.2) (go l)
        end) l)
  | ObjectExpr l => Hobject l
      ((fix go l : Forall (λ a, Q a.2) l := match l with
        | [] => Forall_nil_2 _
        | a :: l => Forall_cons_2 _ _ _ (expr_nested_ind a.2) (go l)
        end) l)
  | NilExpr => Hnil
  end.
End expr_ind.

(** ** Well-formed expressions *)

(** An identifier: a word that is not reserved. *)
Definition is_ident (x : string) : bool := word x && match keyword x with None => true | Some _ => false end.

Definition digits_text (x : string) : bool := negb (x =? "")%string && str_forall isDigit x.
Definition is_number (x : string) : bool :=
  match cut_byte "." x with Some (a, b) => digits_text a && digits_text b | None => digits_text x end.

(** A float the source can spell and the parser reads as a float. *)
Definition float_ok (f : f64) : bool :=
  let x := format_float_g f in
  is_number x && (str_contains_byte "." x || bool_decide (atoi x = None)) && bool_decide (number_value x = Ok f).

Definition is_bool_word (parts : list string) : bool :=
  bool_decide (parts = ["true"] ∨ parts = ["false"]).
Definition is_path (parts : list string) : bool :=
  negb (bool_decide (parts = [])) && forallb is_ident parts.
Definition is_operator (k : Kind) : bool := isComparisonOp k || bool_decide (k = KindAndAnd ∨ k = KindOrOr).
Definition is_comparison (e : expr) : bool := match e with BinaryExpr op _ _ => isComparisonOp op | _ => false end.

Section wf.
Context (is_print : chars → bool).

Definition wf_lit (v : value) : bool :=
  match v with
  | VStr s => quotable is_print s
  | VInt i => bool_decide (0 ≤ i ≤ max_int)%Z
  | VFloat f => float_ok f
  | VBool _ => true
  | _ => false
  end.

(** Comparisons do not chain: the left operand of one is not another. *)
Fixpoint wf_expr (e : expr) : bool :=
  match e with
  | LitExpr v => wf_lit v
  | UnaryExpr x => wf_expr x
  | BinaryExpr op x y => is_operator op && negb (isComparisonOp op && is_comparison x) && wf_expr x && wf_expr y
  | RefExpr parts => is_path parts && negb (is_bool_word parts)
  | CallExpr callee args =>
      is_path callee && forallb (λ a, match a with (n, v) =>
        match n with Some n => is_ident n | None => true end && wf_expr v end) args
  | ObjectExpr fields => forallb (λ f, match f with (k, v) => is_ident k && wf_expr v end) fields
  | NilExpr => false
  end.
Definition wf_arg (a : arg) : bool :=
  match a with (n, v) => match n with Some n => is_ident n | None => true end && wf_expr v end.
End wf.

(** ** Tokens *)

Definition punct (k : Kind) : Kind * string := (k, match list_find (λ p, p.1 = k) puncts with Some (_, (_, x)) => x | None => "" end).

Fixpoint sep_tokens (l : list (list (Kind * string))) : list (Kind * string) :=
  match l with [] => [] | [x] => x | x :: l => x ++ punct KindComma :: sep_tokens l end.

Fixpoint dotted_tokens (parts : list string) : list (Kind * string) :=
  match parts with
  | [] => []
  | [x] => [(KindIdent, x)]
  | x :: parts => (KindIdent, x) :: punct KindDot :: dotted_tokens parts
  end.

Definition parens_tokens (b : bool) (l : list (Kind * string)) : list (Kind * string) :=
  if b then punct KindLParen :: l ++ [punct KindRParen] else l.

Definition lit_token (v : value) : Kind * string :=
  match v with
  | VStr s => (KindString, s)
  | VBool b => (KindIdent, fmt_bool b)
  | VInt i => (KindNumber, fmt_Z i)
  | VFloat f => (KindNumber, format_float_g f)
  | _ => (KindError, "")
  end.

Fixpoint expr_tokens (e : expr) : list (Kind * string) :=
  match e with
  | RefExpr parts => dotted_tokens parts
  | LitExpr v => [lit_token v]
  | UnaryExpr x => punct KindBang :: parens_tokens (is_binary x) (expr_tokens x)
  | BinaryExpr op x y =>
      parens_tokens (operandParens op false x) (expr_tokens x) ++
        punct op :: parens_tokens (operandParens op true y) (expr_tokens y)
  | CallExpr callee args =>
      dotted_tokens callee ++ punct KindLParen ::
        sep_tokens ((λ a, match a with (n, v) =>
          match n with Some n => [(KindIdent, n); punct KindColon] | None => [] end ++ expr_tokens v end) <$> args) ++
        [punct KindRParen]
  | ObjectExpr fields =>
      punct KindLBrace ::
        sep_tokens ((λ f, match f with (k, v) => (KindIdent, k) :: punct KindColon :: expr_tokens v end) <$> fields) ++
        [punct KindRBrace]
  | NilExpr => []
  end.
Definition arg_tokens (a : arg) : list (Kind * string) :=
  match a with (n, v) => match n with Some n => [(KindIdent, n); punct KindColon] | None => [] end ++ expr_tokens v end.

(** Membership in the table of punctuation, by computation. *)
Ltac in_puncts := apply (bool_decide_unpack _); vm_compute; exact I.

(** ** The printed text spells the tokens *)

(** The text after an expression: it ends any token. *)
Definition safe (t : string) : Prop :=
  match t with "" => True | String c _ => c = " "%char ∨ c = newline ∨ c = ")"%char ∨ c = ","%char end.

Lemma safe_follows k t : safe t → follows k (cs t).
Proof. destruct t as [|c t]; [done|]. intros [->|[->|[->| ->]]]; by destruct k. Qed.
#[local] Hint Resolve safe_follows : core.

Lemma is_ident_kind x : is_ident x = true → word x = true ∧ word_kind x = KindIdent.
Proof. unfold is_ident, word_kind. intros [Hw Hk]%andb_true_iff. split; [done|]. by destruct (keyword x). Qed.

Lemma is_number_text x : is_number x = true → number_text x.
Proof.
  unfold is_number, digits_text. destruct (cut_byte "." x) as [[a b]|] eqn:E.
  - apply cut_byte_Some in E as [-> _]. intros [[Ha%negb_true_iff%String.eqb_neq ?]%andb_true_iff
      [Hb%negb_true_iff%String.eqb_neq ?]%andb_true_iff]%andb_true_iff.
    exists a. split; [done|]. split; [done|]. right. by exists b.
  - intros [Hx%negb_true_iff%String.eqb_neq ?]%andb_true_iff. exists x. split; [done|]. split; [done|]. by left.
Qed.

Lemma nonneg_digits i : (0 ≤ i)%Z → is_number (fmt_Z i) = true ∧ str_contains_byte "." (fmt_Z i) = false.
Proof.
  intros Hi. assert (∃ n : N, fmt_Z i = pretty n) as [n ->].
  { unfold fmt_Z. destruct i as [|p|p]; [by exists 0%N|by exists (N.pos p)|lia]. }
  pose proof (pretty_N_digits n) as Hd. destruct (pretty_N_digit n) as (c & t & E & Hc).
  assert (str_contains_byte "." (pretty n) = false) as Hdot by (by apply (str_forall_contains is_digit)).
  split; [|done]. unfold is_number. destruct (cut_byte "." (pretty n)) as [[a b]|] eqn:Ec.
  - apply cut_byte_Some in Ec as [Ec _]. rewrite Ec, str_contains_byte_app in Hdot. cbn in Hdot. by rewrite orb_true_r in Hdot.
  - unfold digits_text. rewrite E at 1. exact Hd.
Qed.

Lemma follows_any k r : (∀ c, breaks k c = true) → follows k r.
Proof. intros H. destruct r; [done|apply H]. Qed.

Section lexing.
Context (is_print : chars → bool).
#[local] Abbreviation lexed := (lexed is_print).
#[local] Abbreviation printExpr := (printExpr is_print).
#[local] Abbreviation wf_expr := (wf_expr is_print).

Lemma lexed_ident x t l : is_ident x = true → follows KindIdent (cs t) → lexed t l → lexed (x +:+ t) ((KindIdent, x) :: l).
Proof. intros [Hw Hk]%is_ident_kind Hf Ht. apply lexed_token; [|done..]. rewrite <-Hk. by apply text_word. Qed.

Lemma lexed_word x k t l : word x = true → word_kind x = k → follows k (cs t) → lexed t l → lexed (x +:+ t) ((k, x) :: l).
Proof. intros Hw <- Hf Ht. apply lexed_token; [|done..]. by apply text_word. Qed.

Lemma lexed_punct k x t l : (k, x) ∈ puncts → follows k (cs t) → lexed t l → lexed (x +:+ t) ((k, x) :: l).
Proof. intros Hin Hf Ht. apply lexed_token; [|done..]. by apply text_punct. Qed.

Lemma lexed_lit v t l : wf_lit is_print v = true → safe t → lexed t l → lexed (printLit is_print v +:+ t) (lit_token v :: l).
Proof.
  intros Hv Hs Ht. destruct v as [|b|i|f|s| |]; try discriminate Hv; cbn [printLit lit_token wf_lit] in *.
  - destruct b; apply lexed_ident; auto.
  - apply bool_decide_eq_true in Hv. apply lexed_token; auto. apply text_number, is_number_text, nonneg_digits. lia.
  - apply lexed_token; auto. apply text_number, is_number_text. unfold float_ok in Hv. by bool_inv.
  - apply lexed_token; auto. by apply text_quoted.
Qed.

Lemma lexed_dotted parts t l :
  forallb is_ident parts = true → parts ≠ [] → follows KindIdent (cs t) → lexed t l →
  lexed (dottedName parts +:+ t) (dotted_tokens parts ++ l).
Proof.
  intros Hp Hne Hf Ht. induction parts as [|x parts IH]; [done|]. cbn [forallb] in Hp. apply andb_true_iff in Hp as [Hx Hp].
  unfold dottedName in *. rewrite join_cons. destruct parts as [|y parts]; [by apply lexed_ident|].
  rewrite !string_app_assoc. cbn [dotted_tokens app]. apply lexed_ident; [done|done|]. apply lexed_punct; [in_puncts|by apply follows_any|by apply IH].
Qed.

Lemma lexed_parens b s T t l :
  (∀ t l, safe t → lexed t l → lexed (s +:+ t) (T ++ l)) →
  safe t → lexed t l → lexed (parens b s +:+ t) (parens_tokens b T ++ l).
Proof.
  intros Hs Hsafe Ht. destruct b; [|by apply Hs]. unfold parens, parens_tokens. rewrite !string_app_assoc. cbn [app].
  apply lexed_punct; [in_puncts|by apply follows_any|]. rewrite <-app_assoc. apply Hs; [right; right; by left|]. apply lexed_punct; [in_puncts|by apply follows_any|done].
Qed.

(** Items with commas. *)
Lemma lexed_items {A} (E : A → string) (T : A → list (Kind * string)) xs t l :
  Forall (λ x, ∀ t l, safe t → lexed t l → lexed (E x +:+ t) (T x ++ l)) xs →
  safe t → lexed t l → lexed (join ", " (E <$> xs) +:+ t) (sep_tokens (T <$> xs) ++ l).
Proof.
  intros H Hs Ht. induction H as [|x xs Hx _ IH]; [done|]. rewrite !fmap_cons, join_cons.
  destruct xs as [|y xs]; [by apply Hx|]. rewrite !fmap_cons in *. rewrite !string_app_assoc. cbn [sep_tokens].
  rewrite <-app_assoc. apply Hx; [right; right; by right|]. cbn [app]. rewrite string_app_cons.
  apply (lexed_punct KindComma ","); [in_puncts|by apply follows_any|]. rewrite string_app_cons, string_app_nil_l. by apply lexed_space.
Qed.

Lemma printExpr_start e : wf_expr e = true → ∃ c t, printExpr e = String c t ∧ c ≠ "="%char.
Proof.
  assert (∀ x, word x = true → ∃ c t, x = String c t ∧ c ≠ "="%char) as Hword.
  { intros [|c x]; [done|]. intros [Hc _]%andb_true_iff. exists c, x. split; [done|]. by intros ->. }
  assert (∀ parts t, is_path parts = true → ∃ c u, dottedName parts +:+ t = String c u ∧ c ≠ "="%char) as Hdot.
  { intros [|x parts] t Hp; [done|]. unfold is_path in Hp. apply andb_true_iff in Hp as [_ [[Hw _]%is_ident_kind _]%andb_true_iff].
    destruct (Hword x Hw) as (c & u & -> & Hc). unfold dottedName. rewrite join_cons. destruct parts; rewrite ?string_app_cons; by do 2 eexists. }
  assert (∀ x, is_number x = true → ∃ c t, x = String c t ∧ c ≠ "="%char) as Hnum.
  { intros x (d & Hne & Hd & Hx)%is_number_text. destruct d as [|c d]; [done|]. apply andb_true_iff in Hd as [Hc _].
    exists c. destruct Hx as [->|(f & _ & _ & ->)]; rewrite ?string_app_cons; eexists; (split; [done|]); by intros ->. }
  induction e as [v|x _|op x y IHx _|parts|callee args _|fields _|] using expr_nested_ind; intros Hw; cbn [LangPrint.printExpr LangExprText.wf_expr] in *.
  - destruct v as [|b|i|f|s| |]; try discriminate Hw; cbn [printLit wf_lit] in *.
    + destruct b; by do 2 eexists.
    + apply bool_decide_eq_true in Hw. apply Hnum, nonneg_digits. lia.
    + apply Hnum. unfold float_ok in Hw. by bool_inv.
    + by do 2 eexists.
  - by do 2 eexists.
  - apply andb_true_iff in Hw as [[_ Hx]%andb_true_iff _]. destruct (IHx Hx) as (c & t & -> & Hc).
    unfold parens. destruct (operandParens op false x); rewrite ?string_app_cons; by do 2 eexists.
  - apply andb_true_iff in Hw as [Hw _]. rewrite <-(string_app_nil_r (dottedName parts)). by apply Hdot.
  - apply andb_true_iff in Hw as [Hw _]. by apply Hdot.
  - destruct fields; by do 2 eexists.
  - done.
Qed.

Lemma operator_punct op : is_operator op = true → (op, opSymbol op) ∈ puncts ∧ punct op = (op, opSymbol op).
Proof.
  unfold is_operator, isComparisonOp. intros [Ho%bool_decide_eq_true|Ho%bool_decide_eq_true]%orb_true_iff;
    destruct_or?; subst op; (split; [in_puncts|done]).
Qed.

Lemma lexed_expr e : wf_expr e = true → ∀ t l, safe t → lexed t l → lexed (printExpr e +:+ t) (expr_tokens e ++ l).
Proof.
  induction e as [v|x IH|op x y IHx IHy|parts|callee args IH|fields IH|] using expr_nested_ind;
    intros Hw t l Hs Ht; cbn [LangPrint.printExpr expr_tokens LangExprText.wf_expr] in *.
  - by apply lexed_lit.
  - rewrite string_app_assoc. cbn [app]. apply (lexed_punct KindBang "!"); [in_puncts| |by apply lexed_parens; [apply IH|..]].
    unfold parens. destruct (is_binary x); [done|]. destruct (printExpr_start x Hw) as (c & u & -> & Hc).
    rewrite string_app_cons. cbn. by apply negb_true_iff, bool_decide_eq_false.
  - apply andb_true_iff in Hw as [[[Ho _]%andb_true_iff Hx]%andb_true_iff Hy]. destruct (operator_punct op Ho) as [Hin ->].
    rewrite !string_app_assoc, <-app_assoc. apply lexed_parens; [by apply IHx|by left|]. rewrite string_app_cons.
    apply lexed_space; [done|]. rewrite string_app_nil_l. cbn [app]. apply lexed_punct; [done| |].
    { by destruct op. }
    rewrite string_app_cons. apply lexed_space; [done|]. rewrite string_app_nil_l. by apply lexed_parens; [apply IHy|..].
  - apply andb_true_iff in Hw as [[Hne Hp]%andb_true_iff _]. apply negb_true_iff, bool_decide_eq_false in Hne.
    apply lexed_dotted; auto.
  - apply andb_true_iff in Hw as [[Hne Hp]%andb_true_iff Ha]. apply negb_true_iff, bool_decide_eq_false in Hne.
    rewrite !string_app_assoc, <-app_assoc. apply lexed_dotted; [done..|]. cbn [app].
    apply (lexed_punct KindLParen "("); [in_puncts|by apply follows_any|]. rewrite <-app_assoc.
    apply (lexed_items (λ a : arg, match a with (name, v) =>
      match name with Some n => n +:+ (": " +:+ printExpr v) | None => printExpr v end end)
      (λ a : arg, match a with (n, v) => match n with Some n => [(KindIdent, n); punct KindColon] | None => [] end ++ expr_tokens v end)).
    + rewrite Forall_forall in *. rewrite forallb_forall in Ha. intros [n v] Hin t' l' Hs' Ht'.
      specialize (IH _ Hin). specialize (Ha _ (proj1 (list_elem_of_In _ _) Hin)). apply andb_true_iff in Ha as [Hn Hv].
      destruct n as [n|]; [|by apply IH]. rewrite !string_app_assoc. cbn [app]. apply lexed_ident; [done|done|].
      rewrite string_app_cons. apply (lexed_punct KindColon ":"); [in_puncts|by apply follows_any|].
      rewrite string_app_cons, string_app_nil_l. apply lexed_space; [done|]. by apply IH.
    + right; right; by left.
    + apply (lexed_punct KindRParen ")"); [in_puncts|by apply follows_any|done].
  - destruct fields as [|f fields].
    { apply (lexed_punct KindLBrace "{"); [in_puncts|by apply follows_any|].
      apply (lexed_punct KindRBrace "}"); [in_puncts|by apply follows_any|done]. }
    rewrite !string_app_assoc. cbn [app]. rewrite string_app_cons.
    apply (lexed_punct KindLBrace "{"); [in_puncts|by apply follows_any|]. rewrite string_app_cons, string_app_nil_l.
    apply lexed_space; [done|]. rewrite <-app_assoc.
    apply (lexed_items (λ f : string * expr, match f with (k, v) => k +:+ (": " +:+ printExpr v) end)
      (λ f : string * expr, match f with (k, v) => (KindIdent, k) :: punct KindColon :: expr_tokens v end)).
    + rewrite Forall_forall in *. rewrite forallb_forall in Hw. intros [n v] Hin t' l' Hs' Ht'.
      specialize (IH _ Hin). specialize (Hw _ (proj1 (list_elem_of_In _ _) Hin)). apply andb_true_iff in Hw as [Hn Hv].
      rewrite !string_app_assoc. cbn [app]. apply lexed_ident; [done|done|].
      rewrite string_app_cons. apply (lexed_punct KindColon ":"); [in_puncts|by apply follows_any|].
      rewrite string_app_cons, string_app_nil_l. apply lexed_space; [done|]. by apply IH.
    + by left.
    + rewrite string_app_cons. apply lexed_space; [done|]. apply (lexed_punct KindRBrace "}"); [in_puncts|by apply follows_any|done].
  - done.
Qed.
End lexing.
