(* ===== verification/LangReads.v ===== *)
(** * Reading tokens

    [reads m l a r]: on tokens that start with those of [l] the parser [m] returns
    [a], leaves [r] and reports nothing.  One rule per operation, and the proof that
    [parseExpr] reads an expression from its tokens. *)

From S2P Require Import Prelude GoNum GoText Value JsonText JsonNum LangLexer LangText LangBlock LangParser LangPrint LangExprText.

Local Open Scope nat_scope.

Abbreviation tokens := (list (Kind * string)).

Definition stream (s : pst) (l : tokens) : Prop := kind_lit <$> ps_toks s = l.

Definition reads {A} (m : P A) (l : tokens) (a : A) (r : tokens) : Prop :=
  ∀ s, stream s l → ∃ s', m s = Some (a, s') ∧ stream s' r ∧ ps_diags s' = ps_diags s.

(** ** Rules *)

Lemma reads_ret {A} (a : A) l : reads (mret a) l a l.
Proof. intros s H. by exists s. Qed.

Lemma reads_bind {A B} (m : P A) (f : A → P B) l a l' b r :
  reads m l a l' → reads (f a) l' b r → reads (m ≫= f) l b r.
Proof.
  intros Hm Hf s H. destruct (Hm s H) as (s1 & E & H1 & D1). destruct (Hf s1 H1) as (s2 & E2 & H2 & D2).
  exists s2. unfold mbind, P_bind. rewrite E. split; [done|]. split; [done|]. by rewrite D2.
Qed.

Definition head_kind (l : tokens) : Kind := match l with (k, _) :: _ => k | [] => KindEOF end.
Definition head_lit (l : tokens) : string := match l with (_, x) :: _ => x | [] => "" end.

Lemma reads_curK l : reads curK l (head_kind l) l.
Proof. intros s H. exists s. unfold curK. unfold stream in H. subst l. split; [by destruct (ps_toks s)|done]. Qed.
Lemma reads_curLit l : reads curLit l (head_lit l) l.
Proof. intros s H. exists s. unfold curLit. unfold stream in H. subst l. split; [by destruct (ps_toks s)|done]. Qed.
Lemma reads_peekK l : reads peekK l (head_kind (tail l)) l.
Proof. intros s H. exists s. unfold peekK. unfold stream in H. subst l. split; [by destruct (ps_toks s) as [|? [|? ?]]|done]. Qed.
Lemma reads_peekLit l : reads peekLit l (head_lit (tail l)) l.
Proof. intros s H. exists s. unfold peekLit. unfold stream in H. subst l. split; [by destruct (ps_toks s) as [|? [|? ?]]|done]. Qed.
Lemma reads_advance l : reads advance l () (tail l).
Proof. intros s H. eexists. split; [reflexivity|]. unfold stream in *. cbn. subst l. by destruct (ps_toks s). Qed.

(** The current token: its kind and literal are those of the head. *)
Lemma reads_cur {B} (f : Token → P B) l b r :
  (∀ p, reads (f (mkToken (head_kind l) (head_lit l) p)) l b r) → reads (cur ≫= f) l b r.
Proof.
  intros Hf s H. unfold mbind, P_bind, cur. unfold stream in H. subst l.
  destruct (ps_toks s) as [|[k x p] ts] eqn:E.
  - apply (Hf (ps_eof s)). unfold stream. by rewrite E.
  - apply (Hf p). unfold stream. by rewrite E.
Qed.

Lemma reads_at_word x l : reads (at_word x) l (bool_decide (head_kind l = KindIdent) && (head_lit l =? x)%string) l.
Proof. unfold at_word. eapply reads_bind; [apply reads_curK|]. eapply reads_bind; [apply reads_curLit|]. apply reads_ret. Qed.

Lemma reads_expect k x l : reads (expect k) ((k, x) :: l) true l.
Proof.
  unfold expect. eapply reads_bind; [apply reads_curK|]. rewrite decide_True by done.
  eapply reads_bind; [apply reads_advance|]. apply reads_ret.
Qed.

Lemma reads_ident x l : reads ident ((KindIdent, x) :: l) (Some x) l.
Proof.
  unfold ident. eapply reads_bind; [apply reads_curK|]. rewrite decide_True by done.
  eapply reads_bind; [apply reads_curLit|]. eapply reads_bind; [apply reads_advance|]. apply reads_ret.
Qed.

Lemma reads_string x l : reads parseStringLit ((KindString, x) :: l) (Some x) l.
Proof.
  unfold parseStringLit. eapply reads_bind; [apply reads_curK|]. rewrite decide_True by done.
  eapply reads_bind; [apply reads_curLit|]. eapply reads_bind; [apply reads_advance|]. apply reads_ret.
Qed.

(** The rule of the next operation of a parser. *)
Ltac reads_step :=
  cbv iota;
  lazymatch goal with
  | |- reads (curK ≫= _) _ _ _ => eapply reads_bind; [apply reads_curK|]
  | |- reads (curLit ≫= _) _ _ _ => eapply reads_bind; [apply reads_curLit|]
  | |- reads (peekK ≫= _) _ _ _ => eapply reads_bind; [apply reads_peekK|]
  | |- reads (peekLit ≫= _) _ _ _ => eapply reads_bind; [apply reads_peekLit|]
  | |- reads (advance ≫= _) _ _ _ => eapply reads_bind; [apply reads_advance|]
  | |- reads (ident ≫= _) _ _ _ => eapply reads_bind; [apply reads_ident|]
  | |- reads (parseTypeRef ≫= _) _ _ _ => eapply reads_bind; [apply reads_ident|]
  | |- reads (parseStringLit ≫= _) _ _ _ => eapply reads_bind; [apply reads_string|]
  | |- reads (expect _ ≫= _) _ _ _ => eapply reads_bind; [apply reads_expect|]
  | |- reads (at_word _ ≫= _) _ _ _ => eapply reads_bind; [apply reads_at_word|]
  | |- reads (mret _) _ _ _ => apply reads_ret
  end; cbn [head_kind head_lit tail app];
  repeat match goal with |- context [let (k, _) := punct ?x in k] => change (let (k, _) := punct x in k) with x end.

(** ** Dotted names *)

Lemma reads_dotted_rest parts : ∀ fuel r,
  length parts < fuel → head_kind r ≠ KindDot →
  reads (dotted_rest fuel) (foldr (λ x l, punct KindDot :: (KindIdent, x) :: l) r parts) parts r.
Proof.
  induction parts as [|x parts IH]; intros [|fuel] r Hf Hr; try (cbn in Hf; lia); cbn [dotted_rest foldr].
  - reads_step. rewrite decide_False by done. reads_step.
  - reads_step. rewrite decide_True by done. reads_step. reads_step. eapply reads_bind; [apply IH; [cbn in Hf; lia|done]|]. reads_step.
Qed.

Lemma dotted_tokens_cons x parts r :
  dotted_tokens (x :: parts) ++ r = (KindIdent, x) :: foldr (λ x l, punct KindDot :: (KindIdent, x) :: l) r parts.
Proof. revert x. induction parts as [|y parts IH]; intros x; [done|]. cbn [dotted_tokens app foldr]. f_equal. f_equal. apply IH. Qed.

Lemma reads_dotted parts fuel r :
  parts ≠ [] → length parts ≤ fuel → head_kind r ≠ KindDot → reads (parseDottedPath fuel) (dotted_tokens parts ++ r) parts r.
Proof.
  intros Hne Hf Hr. destruct parts as [|x parts]; [done|]. rewrite dotted_tokens_cons. unfold parseDottedPath.
  reads_step. eapply reads_bind; [apply reads_dotted_rest; [cbn in Hf; lia|done]|]. reads_step.
Qed.

Lemma dotted_length parts : length parts ≤ length (dotted_tokens parts).
Proof. induction parts as [|x [|y parts] IH]; [done|done|]. cbn [dotted_tokens length] in *. lia. Qed.

(** ** Levels *)

(** How tightly a token binds to an expression on its left; [ends n l]: the tokens
    do not continue an expression of level [n] or tighter. *)
Definition tightness (k : Kind) : nat :=
  match k with
  | KindDot | KindLParen => 4
  | KindEqEq | KindBangEq | KindLt | KindLte | KindGt | KindGte => 3
  | KindAndAnd => 2
  | KindOrOr => 1
  | _ => 0
  end.
Definition ends (n : nat) (l : tokens) : Prop := tightness (head_kind l) < n.

Lemma ends_dot n l : n ≤ 4 → ends n l → head_kind l ≠ KindDot ∧ head_kind l ≠ KindLParen.
Proof. unfold ends. intros Hn H. split; intros E; rewrite E in H; cbn in H; lia. Qed.
Lemma ends_comparison l : ends 3 l → isComparisonOp (head_kind l) = false.
Proof. unfold ends, isComparisonOp. intros H. apply bool_decide_eq_false. intros Hc. destruct_or?; rewrite Hc in H; cbn in H; lia. Qed.
Lemma ends_and l : ends 2 l → head_kind l ≠ KindAndAnd.
Proof. unfold ends. intros H E. rewrite E in H. cbn in H. lia. Qed.
Lemma ends_or l : ends 1 l → head_kind l ≠ KindOrOr.
Proof. unfold ends. intros H E. rewrite E in H. cbn in H. lia. Qed.
Lemma ends_mono n m l : n ≤ m → ends n l → ends m l.
Proof. unfold ends. lia. Qed.

Section levels.
Context (rec : P expr) (fuel : nat).

(** [T] are the tokens of [e] at the level of primaries and negations, of
    comparisons, conjunctions, and disjunctions. *)
Definition unary_at (T : tokens) (e : expr) : Prop :=
  ∀ k r, length T ≤ k → ends 4 r → reads (parseUnary rec fuel k) (T ++ r) e r.
Definition comparison_at (T : tokens) (e : expr) : Prop :=
  ∀ r, ends 3 r → reads (parseComparison rec fuel) (T ++ r) e r.
Definition and_at (T : tokens) (e : expr) : Prop :=
  ∀ r b r', ends 3 r → (∀ m, fuel - length T ≤ m → reads (and_loop rec fuel m e) r b r') →
    reads (parseAnd rec fuel) (T ++ r) b r'.
Definition or_at (T : tokens) (e : expr) : Prop :=
  ∀ r b r', ends 2 r → (∀ m, fuel - length T ≤ m → reads (or_loop rec fuel m e) r b r') →
    reads (parseOr rec fuel) (T ++ r) b r'.

Lemma unary_comparison T e : length T < fuel → is_nil e = false → unary_at T e → comparison_at T e.
Proof.
  intros Hl He HU r Hr. unfold parseComparison. eapply reads_bind; [apply HU; [lia|by eapply ends_mono, Hr; lia]|].
  reads_step. rewrite He, ends_comparison by done. cbn [negb orb]. reads_step.
Qed.

Lemma comparison_and T e : comparison_at T e → and_at T e.
Proof. intros HC r b r' Hr Hk. unfold parseAnd. eapply reads_bind; [by apply HC|]. apply Hk. lia. Qed.

Lemma and_loop_end m e r : 0 < m → ends 2 r → reads (and_loop rec fuel m e) r e r.
Proof.
  intros Hm Hr. destruct m as [|m]; [lia|]. cbn [and_loop]. reads_step.
  rewrite (bool_decide_eq_false_2 _ (ends_and r Hr)), andb_false_r. reads_step.
Qed.
Lemma or_loop_end m e r : 0 < m → ends 1 r → reads (or_loop rec fuel m e) r e r.
Proof.
  intros Hm Hr. destruct m as [|m]; [lia|]. cbn [or_loop]. reads_step.
  rewrite (bool_decide_eq_false_2 _ (ends_or r Hr)), andb_false_r. reads_step.
Qed.

Lemma and_reads T e r : length T < fuel → and_at T e → ends 2 r → reads (parseAnd rec fuel) (T ++ r) e r.
Proof. intros Hl HA Hr. apply HA; [by eapply ends_mono, Hr; lia|]. intros m Hm. apply and_loop_end; [lia|done]. Qed.

Lemma and_or T e : length T < fuel → and_at T e → or_at T e.
Proof. intros Hl HA r b r' Hr Hk. unfold parseOr. eapply reads_bind; [by apply and_reads|]. apply Hk. lia. Qed.

Lemma or_reads T e r : length T < fuel → or_at T e → ends 1 r → reads (parseOr rec fuel) (T ++ r) e r.
Proof. intros Hl HO Hr. apply HO; [by eapply ends_mono, Hr; lia|]. intros m Hm. apply or_loop_end; [lia|done]. Qed.

(** Binary expressions. *)
Lemma comparison_binary op Tx x Ty y :
  isComparisonOp op = true → length Tx + length Ty < fuel → is_nil x = false →
  unary_at Tx x → unary_at Ty y → comparison_at (Tx ++ punct op :: Ty) (BinaryExpr op x y).
Proof.
  intros Ho Hl Hx HX HY r Hr. rewrite <-app_assoc. cbn [app]. unfold parseComparison, punct.
  eapply reads_bind; [apply HX; [lia|]|].
  { unfold ends, head_kind. unfold isComparisonOp in Ho. apply bool_decide_eq_true in Ho. destruct_or?; subst op; cbn; lia. }
  reads_step. rewrite Hx, Ho. cbn [negb orb]. reads_step.
  eapply reads_bind; [apply HY; [lia|by eapply ends_mono, Hr; lia]|]. reads_step. rewrite ends_comparison by done.
  eapply reads_bind; [apply reads_ret|]. reads_step.
Qed.

Lemma and_binary Tx x Ty y :
  length Tx + length Ty + 1 < fuel → is_nil x = false → and_at Tx x → comparison_at Ty y →
  and_at (Tx ++ punct KindAndAnd :: Ty) (BinaryExpr KindAndAnd x y).
Proof.
  intros Hl Hx HX HY r b r' Hr Hk. rewrite <-app_assoc. cbn [app]. apply HX; [unfold ends; cbn; lia|].
  intros m Hm. destruct m as [|m]; [lia|]. cbn [and_loop]. reads_step. rewrite Hx, bool_decide_eq_true_2 by done. cbn [negb andb].
  reads_step. eapply reads_bind; [by apply HY|]. apply Hk. rewrite length_app. cbn [length]. lia.
Qed.

Lemma or_binary Tx x Ty y :
  length Tx + length Ty + 1 < fuel → is_nil x = false → or_at Tx x → and_at Ty y →
  or_at (Tx ++ punct KindOrOr :: Ty) (BinaryExpr KindOrOr x y).
Proof.
  intros Hl Hx HX HY r b r' Hr Hk. rewrite <-app_assoc. cbn [app]. apply HX; [unfold ends; cbn; lia|].
  intros m Hm. destruct m as [|m]; [lia|]. cbn [or_loop]. reads_step. rewrite Hx, bool_decide_eq_true_2 by done. cbn [negb andb].
  reads_step. eapply reads_bind; [apply and_reads; [lia|done|done]|]. apply Hk. rewrite length_app. cbn [length]. lia.
Qed.

(** A primary starts with no negation. *)
Lemma primary_unary T e : T ≠ [] → head_kind T ≠ KindBang →
  (∀ r, ends 4 r → reads (parsePrimary rec fuel) (T ++ r) e r) → unary_at T e.
Proof.
  intros Hne Hb HP [|k] r Hk Hr; [destruct T; [done|cbn in Hk; lia]|]. cbn [parseUnary]. reads_step.
  rewrite decide_False; [by apply HP|]. by destruct T as [|[? ?] ?].
Qed.

Lemma unary_bang T e : unary_at T e → unary_at (punct KindBang :: T) (UnaryExpr e).
Proof.
  intros HU [|k] r Hk Hr; [cbn in Hk; lia|]. cbn [parseUnary app]. reads_step. rewrite decide_True by done. reads_step.
  eapply reads_bind; [apply HU; [cbn in Hk; lia|done]|]. reads_step.
Qed.

Lemma unary_parens T e :
  (∀ r, ends 1 r → reads rec (T ++ r) e r) → unary_at (parens_tokens true T) e.
Proof.
  intros HE. apply primary_unary; [done|done|]. intros r Hr. unfold parens_tokens. cbn [app]. rewrite <-app_assoc. unfold parsePrimary, punct.
  reads_step. reads_step. eapply reads_bind; [apply HE; unfold ends; cbn; lia|]. cbn [app].
  eapply reads_bind; [apply reads_expect|]. reads_step.
Qed.
End levels.

(** ** Expressions *)

Definition starts_expr (k : Kind) : bool :=
  bool_decide (k = KindIdent ∨ k = KindNumber ∨ k = KindString ∨ k = KindBang ∨ k = KindLParen ∨ k = KindLBrace).

Section expressions.
Context (is_print : chars → bool).
#[local] Abbreviation wf_expr := (wf_expr is_print).

Lemma path_ne parts : is_path parts = true → parts ≠ [].
Proof. unfold is_path. by intros [?%negb_true_iff%bool_decide_eq_false _]%andb_true_iff. Qed.

Lemma dotted_head parts : parts ≠ [] → ∃ x l, dotted_tokens parts = (KindIdent, x) :: l.
Proof. destruct parts as [|x [|y parts]]; [done|..]; by do 2 eexists. Qed.

Lemma expr_head e : wf_expr e = true → ∃ k x l, expr_tokens e = (k, x) :: l ∧ starts_expr k = true.
Proof.
  induction e as [v|x _|op x y IHx _|parts|callee args _|fields _|] using expr_nested_ind; intros Hw; cbn [LangExprText.wf_expr expr_tokens] in *.
  - destruct v; try discriminate Hw; by do 3 eexists.
  - by do 3 eexists.
  - apply andb_true_iff in Hw as [[_ Hx]%andb_true_iff _]. destruct (IHx Hx) as (k & z & l & -> & Hk).
    destruct (operandParens op false x); by do 3 eexists.
  - apply andb_true_iff in Hw as [Hw _]. destruct (dotted_head parts (path_ne _ Hw)) as (z & l & ->). by do 3 eexists.
  - apply andb_true_iff in Hw as [Hw _]. destruct (dotted_head callee (path_ne _ Hw)) as (z & l & ->). by do 3 eexists.
  - by do 3 eexists.
  - done.
Qed.

(** A value does not look like a named argument. *)
Lemma expr_no_name e r :
  wf_expr e = true → head_kind r ≠ KindColon → head_kind (expr_tokens e) = KindIdent → head_kind (tail (expr_tokens e ++ r)) ≠ KindColon.
Proof.
  revert r. induction e as [v|x _|op x y IHx _|parts|callee args _|fields _|] using expr_nested_ind; intros r Hw Hr Hh; cbn [LangExprText.wf_expr expr_tokens] in *; try done.
  - apply andb_true_iff in Hw as [[[Ho _]%andb_true_iff Hx]%andb_true_iff _]. destruct (operandParens op false x); [done|].
    rewrite <-app_assoc. apply IHx; [done| |].
    + cbn [app]. unfold punct. cbn [head_kind]. by intros ->.
    + destruct (expr_head x Hx) as (k & z & l & E & _). by rewrite E in *.
  - by destruct parts as [|z [|? ?]].
  - by destruct callee as [|z [|? ?]].
Qed.

Lemma is_nil_wf e : wf_expr e = true → is_nil e = false.
Proof. by destruct e. Qed.

(** [rec] reads the expression. *)
Definition reads_expr (rec : P expr) (e : expr) : Prop := ∀ r, ends 1 r → reads rec (expr_tokens e ++ r) e r.

Lemma reads_arg rec a r :
  wf_arg is_print a = true → reads_expr rec a.2 → ends 1 r → head_kind r ≠ KindColon →
  reads (parseArg rec) (arg_tokens a ++ r) (Some a) r.
Proof.
  destruct a as [[n|] v]; cbn [wf_arg arg_tokens snd]; intros Hw He Hr Hc; unfold parseArg; cbn [app].
  - reads_step. reads_step. unfold punct. cbn [head_kind]. rewrite !bool_decide_eq_true_2 by done. cbn [andb].
    reads_step. reads_step. eapply reads_bind; [by apply He|]. reads_step.
  - cbn [andb] in Hw. destruct (expr_head v Hw) as (k & x & l & E & Hk).
    reads_step. reads_step. pose proof (expr_no_name v r Hw Hc) as Hn. rewrite E in *. cbn [app head_kind tail] in *.
    assert (bool_decide (k = KindIdent) && bool_decide (head_kind (l ++ r) = KindColon) = false) as ->.
    { destruct (bool_decide_reflect (k = KindIdent)); [|done]. cbn [andb]. apply bool_decide_eq_false. by apply Hn. }
    replace ((k, x) :: l ++ r) with (expr_tokens v ++ r) by (by rewrite E). eapply reads_bind; [by apply He|]. rewrite is_nil_wf by done. reads_step.
Qed.

Lemma arg_head a : wf_arg is_print a = true → ∃ k x l, arg_tokens a = (k, x) :: l ∧ starts_expr k = true.
Proof.
  destruct a as [[n|] v]; cbn [wf_arg arg_tokens]; intros Hw; [by do 3 eexists|]. by apply expr_head.
Qed.

Lemma starts_not_end k : starts_expr k = true → ends_list k = false ∧ ends_block k = false ∧ k ≠ KindComma.
Proof.
  unfold starts_expr, ends_list, ends_block. intros H%bool_decide_eq_true.
  split; [|split]; [apply bool_decide_eq_false..|]; intros Hk; destruct_or?; congruence.
Qed.

Lemma reads_args_loop rec l : ∀ fuel r,
  Forall (λ a, wf_arg is_print a = true ∧ reads_expr rec a.2) l → length l < fuel →
  reads (args_loop rec fuel) (sep_tokens (arg_tokens <$> l) ++ punct KindRParen :: r) l (punct KindRParen :: r).
Proof.
  induction l as [|a l IH]; intros [|fuel] r Hl Hf; try (cbn in Hf; lia); cbn [args_loop].
  - reads_step. change (ends_list _) with true. reads_step.
  - apply Forall_cons in Hl as [[Hw He] Hl]. destruct (arg_head a Hw) as (k & x & t & E & Hk).
    destruct (starts_not_end k Hk) as (Hend & _). rewrite fmap_cons.
    destruct l as [|a' l].
    + cbn [sep_tokens fmap list_fmap]. reads_step. rewrite E at 1. cbn [app head_kind]. rewrite Hend.
      eapply reads_bind; [apply reads_arg; [done..|unfold ends; cbn; lia|done]|]. reads_step. rewrite decide_False by done. reads_step.
    + rewrite fmap_cons. cbn [sep_tokens]. rewrite <-app_assoc. cbn [app]. reads_step. rewrite E at 1. cbn [app head_kind]. rewrite Hend.
      eapply reads_bind; [apply reads_arg; [done..|unfold ends; cbn; lia|done]|]. reads_step. rewrite decide_True by done. reads_step.
      eapply reads_bind; [apply IH; [done|cbn in *; lia]|]. reads_step.
Qed.

Lemma sep_length {A} (T : A → tokens) l : Forall (λ x, T x ≠ []) l → length l ≤ length (sep_tokens (T <$> l)).
Proof.
  induction 1 as [|x [|y l] Hx _ IH]; [done|..]; rewrite fmap_cons; cbn [sep_tokens fmap list_fmap length] in *.
  - destruct (T x); [done|]. cbn. lia.
  - rewrite length_app. cbn [length] in *. lia.
Qed.

Definition field_tokens (f : string * expr) : tokens := match f with (k, v) => (KindIdent, k) :: punct KindColon :: expr_tokens v end.

Lemma field_length l : 2 * length l ≤ length (sep_tokens (field_tokens <$> l)).
Proof.
  induction l as [|[k v] [|g l] IH]; [done|..]; rewrite fmap_cons; cbn [sep_tokens fmap list_fmap length field_tokens] in *; [lia|].
  rewrite length_app. cbn [length] in *. lia.
Qed.

Lemma sep_tokens_cons x y l : sep_tokens (x :: y :: l) = x ++ punct KindComma :: sep_tokens (y :: l).
Proof. done. Qed.

Lemma reads_object_loop rec l : ∀ fuel r,
  Forall (λ f, reads_expr rec f.2) l → 2 * length l < fuel →
  reads (object_loop rec fuel) (sep_tokens (field_tokens <$> l) ++ punct KindRBrace :: r) l (punct KindRBrace :: r).
Proof.
  induction l as [|[key v] l IH]; intros [|fuel] r Hl Hf; try (cbn in Hf; lia).
  - cbn [object_loop fmap list_fmap sep_tokens app]. reads_step. change (ends_block _) with true. reads_step.
  - apply Forall_cons in Hl as [He Hl]. cbn [snd] in He.
    assert (∀ r1 r2 fs, ends 1 r1 → reads (object_loop rec fuel) r1 fs r2 →
      reads (object_loop rec (S fuel)) (field_tokens (key, v) ++ r1) ((key, v) :: fs) r2) as Hone.
    { intros r1 r2 fs Hr1 Hfs. cbn [field_tokens app object_loop]. reads_step. change (ends_block KindIdent) with false.
      cbv iota. rewrite decide_False, decide_True by done. reads_step. reads_step.
      eapply reads_bind; [by apply He|]. eapply reads_bind; [exact Hfs|]. reads_step. }
    rewrite fmap_cons. destruct l as [|g l].
    + cbn [fmap list_fmap sep_tokens]. apply Hone; [unfold ends; cbn; lia|]. destruct fuel as [|fuel]; [cbn in Hf; lia|].
      cbn [object_loop]. reads_step. change (ends_block _) with true. reads_step.
    + rewrite fmap_cons, sep_tokens_cons, <-fmap_cons, <-app_assoc. apply Hone; [unfold ends; cbn; lia|].
      destruct fuel as [|fuel]; [cbn in Hf; lia|]. cbn [app object_loop]. reads_step.
      change (ends_block KindComma) with false. cbv iota. rewrite decide_True by done. reads_step.
      apply IH; [done|cbn in *; lia].
Qed.

(** *** Primaries *)

Lemma reads_number v r :
  wf_lit is_print v = true → (∃ i, v = VInt i) ∨ (∃ f, v = VFloat f) → reads parseNumber (lit_token v :: r) (LitExpr v) r.
Proof.
  intros Hw Hv. unfold parseNumber. apply reads_cur. intros p. reads_step. cbv zeta. cbn [tk_Lit tk_Pos].
  destruct Hv as [[i ->]|[f ->]]; cbn [wf_lit lit_token head_lit] in *.
  - apply bool_decide_eq_true in Hw. rewrite (proj2 (nonneg_digits i (proj1 Hw))).
    assert (is_int64 i) as Hi by (unfold is_int64, max_int, min_int in *; lia).
    unfold fmt_Z. rewrite atoi_pretty by done. reads_step.
  - unfold float_ok in Hw. apply andb_true_iff in Hw as [[_ Hd]%andb_true_iff ->%bool_decide_eq_true].
    destruct (str_contains_byte "." (format_float_g f)); [reads_step|]. cbn [orb] in Hd.
    apply bool_decide_eq_true in Hd as ->. reads_step.
Qed.

Lemma reads_lit rec fuel v r :
  wf_lit is_print v = true → ends 4 r → reads (parsePrimary rec fuel) (lit_token v :: r) (LitExpr v) r.
Proof.
  intros Hw Hr. unfold parsePrimary. reads_step. destruct v as [|b|i|f|s| |]; try discriminate Hw; cbn [lit_token head_kind].
  - destruct (ends_dot 4 r) as [Hd Hp]; [lia|done|]. reads_step. reads_step.
    rewrite (bool_decide_eq_false_2 _ (λ H, match H with or_introl h => Hd h | or_intror h => Hp h end)).
    destruct b; cbn [fmt_bool String.eqb Ascii.eqb Bool.eqb orb negb andb]; reads_step; reads_step.
  - apply (reads_number (VInt i)); [done|]. left. by eexists.
  - apply (reads_number (VFloat f)); [done|]. right. by eexists.
  - reads_step. reads_step. reads_step.
Qed.

Lemma bool_word_false x l r :
  (x :: l) ≠ ["true"] → (x :: l) ≠ ["false"] →
  ((x =? "true") || (x =? "false"))%string && negb (bool_decide (head_kind (tail (dotted_tokens (x :: l) ++ r)) = KindDot ∨
    head_kind (tail (dotted_tokens (x :: l) ++ r)) = KindLParen)) = false.
Proof.
  intros H1 H2. destruct l as [|y l].
  - destruct (String.eqb_spec x "true") as [->|_]; [done|]. by destruct (String.eqb_spec x "false") as [->|_].
  - apply andb_false_iff. right. apply negb_false_iff, bool_decide_eq_true. by left.
Qed.

Lemma dotted_head_kind x l r : head_kind (dotted_tokens (x :: l) ++ r) = KindIdent ∧ head_lit (dotted_tokens (x :: l) ++ r) = x.
Proof. by destruct l. Qed.

Lemma reads_ref rec fuel parts r :
  is_path parts = true → is_bool_word parts = false → length parts ≤ fuel → ends 4 r →
  reads (parsePrimary rec fuel) (dotted_tokens parts ++ r) (RefExpr parts) r.
Proof.
  intros Hp Hb Hf Hr. apply path_ne in Hp. destruct parts as [|x l]; [done|]. destruct (dotted_head_kind x l r) as [Ek El].
  destruct (ends_dot 4 r) as [Hd Hpar]; [lia|done|]. unfold is_bool_word in Hb. apply bool_decide_eq_false in Hb.
  unfold parsePrimary. reads_step. rewrite Ek. reads_step. reads_step. rewrite El, bool_word_false by naive_solver.
  eapply reads_bind; [by apply reads_dotted|]. reads_step. rewrite decide_False by done. reads_step.
Qed.

Lemma reads_call rec fuel callee args r :
  is_path callee = true → length callee + length args < fuel →
  Forall (λ a, wf_arg is_print a = true ∧ reads_expr rec a.2) args →
  reads (parsePrimary rec fuel) (dotted_tokens callee ++ punct KindLParen :: sep_tokens (arg_tokens <$> args) ++ punct KindRParen :: r)
    (CallExpr callee args) r.
Proof.
  intros Hp Hf Ha. apply path_ne in Hp. destruct callee as [|x l]; [done|].
  destruct (dotted_head_kind x l (punct KindLParen :: sep_tokens (arg_tokens <$> args) ++ punct KindRParen :: r)) as [Ek El].
  unfold parsePrimary. reads_step. rewrite Ek. reads_step. reads_step. rewrite El.
  assert (∀ T, ((x =? "true") || (x =? "false"))%string && negb (bool_decide (head_kind (tail (dotted_tokens (x :: l) ++ punct KindLParen :: T)) = KindDot ∨
    head_kind (tail (dotted_tokens (x :: l) ++ punct KindLParen :: T)) = KindLParen)) = false) as ->.
  { intros T. apply andb_false_iff. right. apply negb_false_iff, bool_decide_eq_true. destruct l; [by right|by left]. }
  eapply reads_bind; [apply reads_dotted; [done|cbn in *; lia|done]|]. reads_step. rewrite decide_True by done.
  eapply reads_bind; [|reads_step]. unfold parseArgs. eapply reads_bind; [apply reads_expect|].
  eapply reads_bind; [apply reads_args_loop; [done|lia]|]. eapply reads_bind; [apply reads_expect|]. reads_step.
Qed.

Lemma reads_object rec fuel fields r :
  2 * length fields < fuel → Forall (λ f, reads_expr rec f.2) fields →
  reads (parsePrimary rec fuel) (punct KindLBrace :: sep_tokens (field_tokens <$> fields) ++ punct KindRBrace :: r) (ObjectExpr fields) r.
Proof.
  intros Hf Ha. unfold parsePrimary. reads_step. unfold parseObjectLiteral. eapply reads_bind; [apply reads_expect|].
  eapply reads_bind; [by apply reads_object_loop|]. eapply reads_bind; [apply reads_expect|]. reads_step.
Qed.

(** *** The parser reads an expression *)

Definition level (e : expr) : nat := match e with BinaryExpr op _ _ => binPrec op | _ => 4 end.
Definition at_level (n : nat) (rec : P expr) (fuel : nat) (T : tokens) (e : expr) : Prop :=
  match n with 4 => unary_at rec fuel T e | 3 => comparison_at rec fuel T e | 2 => and_at rec fuel T e | _ => or_at rec fuel T e end.

(** An expression of a level is one of every looser level. *)
Lemma at_level_loosen n m rec fuel T e :
  1 ≤ m → m ≤ n → n ≤ 4 → length T < fuel → is_nil e = false → at_level n rec fuel T e → at_level m rec fuel T e.
Proof.
  intros H1 Hm Hn Hl He H.
  assert (n = 4 → at_level 3 rec fuel T e) as H43 by (intros ->; by apply unary_comparison).
  assert (3 ≤ n → at_level 2 rec fuel T e) as H32.
  { intros Hn3. apply comparison_and. destruct (decide (n = 4)); [by apply H43|]. by replace n with 3 in H by lia. }
  assert (2 ≤ n → at_level 1 rec fuel T e) as H21.
  { intros Hn2. apply and_or; [done|]. destruct (decide (n = 2)) as [->|]; [done|apply H32; lia]. }
  destruct (decide (m = n)) as [->|]; [done|].
  assert (m = 3 ∨ m = 2 ∨ m = 1) as [->|[->| ->]] by lia; [apply H43|apply H32|apply H21]; lia.
Qed.

Definition readable (e : expr) : Prop :=
  ∀ n, length (expr_tokens e) < n → at_level (level e) (parseExpr n) n (expr_tokens e) e.

Lemma level_range e : 1 ≤ level e ≤ 4.
Proof. destruct e as [| |op| | | |]; cbn; try lia. destruct op; cbn; lia. Qed.

Lemma readable_expr e n : wf_expr e = true → readable e → length (expr_tokens e) + 2 ≤ n → reads_expr (parseExpr n) e.
Proof.
  intros Hw He Hn r Hr. destruct n as [|n]; [lia|]. cbn [parseExpr]. apply or_reads; [lia| |done].
  pose proof (level_range e). change (at_level 1 (parseExpr n) n (expr_tokens e) e).
  apply (at_level_loosen (level e)); [lia..|by apply is_nil_wf|]. apply He. lia.
Qed.

(** An operand, in parentheses or not, at the level its operator asks for. *)
Lemma operand_at e b m n :
  wf_expr e = true → readable e → 1 ≤ m ≤ 4 → (b = false → m ≤ level e) → length (parens_tokens b (expr_tokens e)) < n →
  at_level m (parseExpr n) n (parens_tokens b (expr_tokens e)) e.
Proof.
  intros Hw He Hm Hb Hn. pose proof (level_range e). destruct b.
  - cbn [parens_tokens length] in Hn. rewrite length_app in Hn. cbn [length] in Hn.
    apply (at_level_loosen 4); [lia..|cbn [parens_tokens length]; rewrite length_app; cbn [length]; lia|by apply is_nil_wf|].
    apply unary_parens. apply readable_expr; [done|done|lia].
  - cbn [parens_tokens] in *. apply (at_level_loosen (level e)); [lia|by apply Hb|lia|done|by apply is_nil_wf|]. by apply He.
Qed.

Lemma left_level op x : operandParens op false x = false → binPrec op ≤ level x.
Proof.
  destruct x as [| |op' ? ?| | | |]; cbn; try (intros _; destruct op; cbn; lia).
  rewrite andb_false_r, orb_false_r. intros ?%Nat.ltb_ge. done.
Qed.
Lemma right_level op y : operandParens op true y = false → S (binPrec op) ≤ level y.
Proof.
  destruct y as [| |op' ? ?| | | |]; cbn; try (intros _; destruct op; cbn; lia).
  rewrite andb_true_r. intros [?%Nat.ltb_ge ?%Nat.eqb_neq]%orb_false_iff. lia.
Qed.
Lemma comparison_left op x :
  isComparisonOp op = true → wf_expr x = true → is_comparison x = false → operandParens op false x = false → level x = 4.
Proof.
  intros Ho Hw Hx Hp%left_level. destruct x as [| |op' ? ?| | | |]; try done. cbn in Hx, Hp.
  assert (is_operator op' = true) as Hop by (cbn in Hw; by bool_inv). unfold is_operator in Hop. rewrite Hx in Hop. cbn in Hop.
  apply bool_decide_eq_true in Hop. unfold isComparisonOp in Ho. apply bool_decide_eq_true in Ho.
  destruct Hop; subst op'; destruct_or?; subst op; cbn in Hp; lia.
Qed.

Lemma binary_readable op x y :
  wf_expr (BinaryExpr op x y) = true → readable x → readable y → readable (BinaryExpr op x y).
Proof.
  intros [[[Ho Hc]%andb_true_iff Hx]%andb_true_iff Hy]%andb_true_iff Rx Ry n Hn. cbn [expr_tokens level] in *.
  rewrite length_app in Hn. cbn [length] in Hn. unfold is_operator in Ho. apply orb_true_iff in Ho as [Ho|Ho%bool_decide_eq_true].
  - rewrite Ho in Hc. cbn [andb] in Hc. apply negb_true_iff in Hc.
    assert (binPrec op = 3) as Eop by (unfold isComparisonOp in Ho; apply bool_decide_eq_true in Ho; by destruct_or?; subst op).
    rewrite Eop. cbn [at_level]. apply comparison_binary; [done|lia|by apply is_nil_wf| |].
    + apply (operand_at x _ 4); [done|done|lia| |lia]. intros E. by rewrite (comparison_left op x).
    + apply (operand_at y _ 4); [done|done|lia| |lia]. intros E%right_level. lia.
  - destruct Ho as [-> | ->]; cbn [binPrec at_level].
    + apply and_binary; [lia|by apply is_nil_wf| |].
      * apply (operand_at x _ 2); [done|done|lia| |lia]. apply left_level.
      * apply (operand_at y _ 3); [done|done|lia| |lia]. apply right_level.
    + apply or_binary; [lia|by apply is_nil_wf| |].
      * apply (operand_at x _ 1); [done|done|lia| |lia]. apply left_level.
      * apply (operand_at y _ 2); [done|done|lia| |lia]. apply right_level.
Qed.

Lemma sep_member {A} (T : A → tokens) x l : x ∈ l → length (T x) ≤ length (sep_tokens (T <$> l)).
Proof.
  induction l as [|y [|z l] IH]; intros Hin; [by apply elem_of_nil in Hin|..]; rewrite fmap_cons.
  - by apply list_elem_of_singleton in Hin as ->.
  - rewrite fmap_cons, sep_tokens_cons, length_app, <-fmap_cons. cbn [length].
    apply elem_of_cons in Hin as [->|Hin]; [lia|]. specialize (IH Hin). rewrite !fmap_cons in *. lia.
Qed.

Lemma expr_readable e : wf_expr e = true → readable e.
Proof.
  induction e as [v|x IH|op x y IHx IHy|parts|callee args IH|fields IH|] using expr_nested_ind; intros Hw n Hn;
    cbn [expr_tokens] in *; try (cbn [level at_level]).
  - apply primary_unary; [done|by destruct v|]. intros r Hr. by apply reads_lit.
  - cbn [LangExprText.wf_expr length] in *. apply unary_bang. apply (operand_at x _ 4); [done|by apply IH|lia| |lia].
    by destruct x.
  - cbn [LangExprText.wf_expr] in Hw. apply binary_readable; [done|apply IHx; by bool_inv|apply IHy; by bool_inv|done].
  - cbn [LangExprText.wf_expr] in Hw. apply andb_true_iff in Hw as [Hp Hb%negb_true_iff].
    pose proof (dotted_length parts). destruct (dotted_head parts (path_ne _ Hp)) as (x & l & E).
    apply primary_unary; [by rewrite E|by rewrite E|]. intros r Hr. apply reads_ref; [done|done|lia|done].
  - cbn [LangExprText.wf_expr] in Hw. apply andb_true_iff in Hw as [Hp Ha]. fold arg_tokens in *.
    change (λ a, match a with (n, v) => match n with Some n => [(KindIdent, n); punct KindColon] | None => [] end ++ expr_tokens v end)
      with arg_tokens in *.
    destruct (dotted_head callee (path_ne _ Hp)) as (x & l & E). pose proof (dotted_length callee).
    rewrite forallb_forall in Ha. assert (Forall (λ a, wf_arg is_print a = true) args) as Hargs.
    { apply Forall_forall. intros a Hin. by apply Ha, list_elem_of_In. }
    rewrite !length_app in Hn. cbn [length] in Hn. rewrite length_app in Hn. cbn [length] in Hn.
    apply primary_unary; [by rewrite E|by rewrite E|]. intros r _. rewrite <-app_assoc. cbn [app]. rewrite <-app_assoc. cbn [app].
    apply reads_call; [done| |].
    + assert (length args ≤ length (sep_tokens (arg_tokens <$> args))); [|lia]. apply sep_length.
      eapply Forall_impl; [exact Hargs|]. intros a (k & z & t & -> & _)%arg_head. done.
    + rewrite Forall_forall in *. intros [m v] Hin. specialize (Hargs _ Hin). split; [done|].
      pose proof (sep_member arg_tokens _ _ Hin) as Hlen. cbn [arg_tokens] in Hlen. rewrite length_app in Hlen.
      assert (wf_expr v = true) as Hv by (cbn in Hargs; by bool_inv).
      apply readable_expr; [done|by apply (IH _ Hin)|]. cbn [snd]. lia.
  - cbn [LangExprText.wf_expr] in Hw. change (λ f, match f with (k, v) => (KindIdent, k) :: punct KindColon :: expr_tokens v end) with field_tokens in *.
    cbn [length] in Hn. rewrite length_app in Hn. cbn [length] in Hn. rewrite forallb_forall in Hw.
    apply primary_unary; [done|done|]. intros r _. cbn [app]. rewrite <-app_assoc. cbn [app].
    pose proof (field_length fields). apply reads_object; [lia|].
    rewrite Forall_forall in *. intros [m v] Hin. specialize (Hw _ (proj1 (list_elem_of_In _ _) Hin)).
    pose proof (sep_member field_tokens _ _ Hin) as Hlen. cbn [field_tokens length] in Hlen.
    apply andb_true_iff in Hw as [_ Hv].
    apply readable_expr; [done|by apply (IH _ Hin)|]. cbn [snd]. lia.
  - done.
Qed.

(** [parseExpr] with the number of tokens and two as fuel. *)
Lemma reads_parseExpr e n : wf_expr e = true → length (expr_tokens e) + 2 ≤ n → reads_expr (parseExpr n) e.
Proof. intros Hw Hn. apply readable_expr; [done|by apply expr_readable|done]. Qed.
End expressions.
