(* ===== verification/LangStmt.v ===== *)
(** * Statements and workflows: text, tokens and trees

    [wf_stmt] and [wf_workflow] are the trees the printer can write;
    [workflow_roundtrip] says that lexer and parser read them back. *)

From S2P Require Import Prelude GoNum GoText Value JsonText JsonNum GoQuote LangLexer LangText LangBlock LangParser LangPrint LangExprText LangReads.

Local Open Scope nat_scope.

Section stmt_ind.
Variable Q : stmt → Prop.
Hypothesis Hassign : ∀ x v, Q (AssignStmt x v).
Hypothesis Hexpr : ∀ x, Q (ExprStmt x).
Hypothesis Hparallel : ∀ l, Q (ParallelStmt l).
Hypothesis Hreturn : ∀ v, Q (ReturnStmt v).
Hypothesis Happroval : ∀ b d r p, Q (ApprovalStmt b d r p).
Hypothesis Hif : ∀ c t e, Forall Q t → Forall Q e → Q (IfStmt c t e).
Hypothesis Hfor : ∀ x c b p, Forall Q b → Q (ForStmt x c b p).
Hypothesis Hwhile : ∀ c n b, Forall Q b → Q (WhileStmt c n b).
Hypothesis Hretry : ∀ c n b, Forall Q b → Q (RetryStmt c n b).

Fixpoint stmt_nested_ind (s : stmt) : Q s :=
  let fix go l : Forall Q l :=
    match l with [] => Forall_nil_2 _ | s :: l => Forall_cons_2 _ _ _ (stmt_nested_ind s) (go l) end in
  match s with
  | AssignStmt x v => Hassign x v
  | ExprStmt x => Hexpr x
  | ParallelStmt l => Hparallel l
  | ReturnStmt v => Hreturn v
  | ApprovalStmt b d r p => Happroval b d r p
  | IfStmt c t e => Hif c t e (go t) (go e)
  | ForStmt x c b p => Hfor x c b p (go b)
  | WhileStmt c n b => Hwhile c n b (go b)
  | RetryStmt c n b => Hretry c n b (go b)
  end.
End stmt_ind.

(** ** Well-formed statements *)

Definition is_some_ident (x : option string) : bool := match x with Some x => is_ident x | None => false end.
Definition positive_limit (n : Z) : bool := bool_decide (0 < n ≤ max_int)%Z.

Section wf.
Context (is_print : chars → bool).

Definition wf_string (s : string) : bool := if has_block s then block_value s else quotable is_print s.

(** An expression statement starts with an identifier, and is not one of the words
    that open a retry or an approval. *)
Definition is_opener (x : expr) : bool := match x with RefExpr [y] => (y =? "retry")%string || (y =? "approval")%string | _ => false end.
Definition is_expr_stmt (x : expr) : bool := bool_decide (head_kind (expr_tokens x) = KindIdent) && negb (is_opener x).

Fixpoint wf_stmt (s : stmt) : bool :=
  let body l := forallb (λ s, wf_stmt s) l in
  match s with
  | AssignStmt x v => is_ident x && wf_expr is_print v
  | ExprStmt x => wf_expr is_print x && is_expr_stmt x
  | ParallelStmt l => forallb (λ b, is_ident b.1 && wf_expr is_print b.2) l
  | ReturnStmt v => wf_expr is_print v
  | ApprovalStmt b d r p =>
      is_some_ident b && match d with Some d => wf_string d | None => true end && forallb (quotable is_print) r &&
      forallb (λ a, bool_decide (is_Some a.1) && wf_arg is_print a) p
  | IfStmt c t e => wf_expr is_print c && body t && body e
  | ForStmt x c b _ => is_some_ident x && wf_expr is_print c && body b
  | WhileStmt c n b | RetryStmt c n b => wf_expr is_print c && positive_limit n && body b
  end.
End wf.

(** ** Tokens *)

Definition assign_tokens (b : string * expr) : tokens := (KindIdent, b.1) :: punct KindEquals :: expr_tokens b.2.
Definition block_tokens (l : tokens) : tokens := punct KindLBrace :: l ++ [punct KindRBrace].

Fixpoint stmt_tokens (s : stmt) : tokens :=
  let body l := block_tokens (foldr (λ s acc, stmt_tokens s ++ acc) [] l) in
  match s with
  | AssignStmt x v => assign_tokens (x, v)
  | ExprStmt x => expr_tokens x
  | ParallelStmt l => (KindParallel, "parallel") :: block_tokens (foldr (λ b acc, assign_tokens b ++ acc) [] l)
  | ReturnStmt v => (KindReturn, "return") :: expr_tokens v
  | ApprovalStmt b d r p =>
      (KindIdent, "approval") :: (KindIdent, identName b) :: block_tokens (
        match d with Some d => [(KindIdent, "description"); (KindString, d)] | None => [] end ++
        match r with [] => [] | _ => (KindIdent, "redactKeys") :: block_tokens ((λ k, (KindString, k)) <$> r) end ++
        match p with [] => [] | _ => (KindIdent, "with") :: block_tokens (foldr (λ a acc, arg_tokens a ++ acc) [] p) end)
  | IfStmt c t e =>
      (KindIf, "if") :: expr_tokens c ++ body t ++
        match e with
        | [] => []
        | [IfStmt _ _ _ as elif] => (KindElse, "else") :: stmt_tokens elif
        | e => (KindElse, "else") :: body e
        end
  | ForStmt x c b p =>
      (if p then [(KindParallel, "parallel")] else []) ++ (KindFor, "for") :: (KindIdent, identName x) :: (KindIdent, "in") ::
        expr_tokens c ++ body b
  | WhileStmt c n b => (KindWhile, "while") :: expr_tokens c ++ (KindIdent, "limit") :: (KindNumber, fmt_Z n) :: body b
  | RetryStmt c n b =>
      (KindIdent, "retry") :: (KindIdent, "until") :: expr_tokens c ++ (KindIdent, "limit") :: (KindNumber, fmt_Z n) :: body b
  end.
Definition stmts_tokens (l : list stmt) : tokens := foldr (λ s acc, stmt_tokens s ++ acc) [] l.

(** ** The printed text spells the tokens *)

Section lexing.
Context (is_print : chars → bool).
#[local] Abbreviation lexed := (lexed is_print).
#[local] Abbreviation printExpr := (printExpr is_print).
#[local] Abbreviation printStmt := (printStmt is_print).
#[local] Abbreviation wf_expr := (wf_expr is_print).

Lemma lexed_nl t l : lexed t l → lexed (nl +:+ t) l.
Proof. intros H. unfold nl. rewrite string_app_cons, string_app_nil_l. by apply lexed_space. Qed.

(** A line: indentation, a text and a newline. *)
Lemma lexed_line n u T t l :
  (∀ t l, safe t → lexed t l → lexed (u +:+ t) (T ++ l)) → lexed t l →
  lexed (field_line (spaces n) u +:+ t) (T ++ l).
Proof.
  intros Hu Ht. unfold field_line. rewrite !string_app_assoc. apply lexed_spaces, Hu; [right; by left|]. by apply lexed_nl.
Qed.

(** Text of a line, piece by piece. *)
Lemma piece_word x k u T t l :
  word x = true → word_kind x = k → (∀ t l, safe t → lexed t l → lexed (u +:+ t) (T ++ l)) →
  safe t → lexed t l → lexed ((x +:+ String " " u) +:+ t) (((k, x) :: T) ++ l).
Proof.
  intros Hw Hk Hu Hs Ht. rewrite string_app_assoc, string_app_cons. cbn [app]. apply lexed_word; [done|done| |].
  - rewrite <-Hk. cbn. by rewrite word_kind_breaks.
  - apply lexed_space; [done|]. by apply Hu.
Qed.
Lemma piece_ident x u T t l :
  is_ident x = true → (∀ t l, safe t → lexed t l → lexed (u +:+ t) (T ++ l)) →
  safe t → lexed t l → lexed ((x +:+ String " " u) +:+ t) (((KindIdent, x) :: T) ++ l).
Proof. intros [Hw Hk]%is_ident_kind. by apply piece_word. Qed.

Lemma piece_expr e u T t l :
  wf_expr e = true → (∀ t l, safe t → lexed t l → lexed (u +:+ t) (T ++ l)) →
  safe t → lexed t l → lexed ((printExpr e +:+ String " " u) +:+ t) ((expr_tokens e ++ T) ++ l).
Proof.
  intros Hw Hu Hs Ht. rewrite string_app_assoc, string_app_cons, <-app_assoc. apply lexed_expr; [done|by left|].
  apply lexed_space; [done|]. by apply Hu.
Qed.
Lemma piece_number n u T t l :
  (0 ≤ n)%Z → (∀ t l, safe t → lexed t l → lexed (u +:+ t) (T ++ l)) →
  safe t → lexed t l → lexed ((fmt_Z n +:+ String " " u) +:+ t) (((KindNumber, fmt_Z n) :: T) ++ l).
Proof.
  intros Hn Hu Hs Ht. rewrite string_app_assoc, string_app_cons. cbn [app]. apply lexed_token; [|done|].
  - by apply text_number, is_number_text, nonneg_digits.
  - apply lexed_space; [done|]. by apply Hu.
Qed.
Lemma piece_punct k x u T t l :
  (k, x) ∈ puncts → (∀ t l, safe t → lexed t l → lexed (u +:+ t) (T ++ l)) →
  safe t → lexed t l → lexed ((x +:+ String " " u) +:+ t) (((k, x) :: T) ++ l).
Proof.
  intros Hin Hu Hs Ht. rewrite string_app_assoc, string_app_cons. cbn [app]. apply lexed_punct; [done|by destruct k|].
  apply lexed_space; [done|]. by apply Hu.
Qed.
Lemma piece_open t l : safe t → lexed t l → lexed ("{" +:+ t) ([punct KindLBrace] ++ l).
Proof. intros Hs Ht. apply (lexed_punct _ KindLBrace "{"); [in_puncts|by apply follows_any|done]. Qed.
Lemma piece_close t l : safe t → lexed t l → lexed ("}" +:+ t) ([punct KindRBrace] ++ l).
Proof. intros Hs Ht. apply (lexed_punct _ KindRBrace "}"); [in_puncts|by apply follows_any|done]. Qed.

Lemma lexed_body {A} (E : A → string) (T : A → tokens) xs t l :
  Forall (λ x, ∀ t l, lexed t l → lexed (E x +:+ t) (T x ++ l)) xs → lexed t l →
  lexed (foldr (λ x acc, E x +:+ acc) "" xs +:+ t) (foldr (λ x acc, T x ++ acc) [] xs ++ l).
Proof.
  intros H Ht. induction H as [|x xs Hx _ IH]; [done|]. cbn [foldr]. rewrite string_app_assoc, <-app_assoc. by apply Hx.
Qed.

Lemma lexed_assign n b t l :
  is_ident b.1 = true → wf_expr b.2 = true → lexed t l →
  lexed (field_line (spaces n) (b.1 +:+ (" = " +:+ printExpr b.2)) +:+ t) (assign_tokens b ++ l).
Proof.
  intros Hx Hv. apply lexed_line. intros t' l'. apply (piece_ident b.1 ("= " +:+ printExpr b.2) (punct KindEquals :: expr_tokens b.2)); [done|].
  intros t'' l''. apply (piece_punct KindEquals "=" (printExpr b.2)); [in_puncts|]. by apply lexed_expr.
Qed.

Lemma lexed_string_field n name s t l :
  is_ident name = true → 0 < n → wf_string is_print s = true → lexed t l →
  lexed (printStringField is_print n name s +:+ t) ([(KindIdent, name); (KindString, s)] ++ l).
Proof.
  intros Hn Hpos Hs Ht. unfold wf_string in Hs. unfold printStringField. destruct (has_block s).
  - rewrite !string_app_assoc. apply lexed_spaces. cbn [app]. apply lexed_ident; [done|done|]. rewrite string_app_cons, string_app_nil_l.
    apply lexed_space; [done|]. apply lexed_token; [by apply text_block| |by apply lexed_nl]. done.
  - apply lexed_line; [|done]. intros t' l'. apply (piece_ident name (Quote is_print s) [(KindString, s)]); [done|].
    intros t'' l'' Hs'' Ht''. apply lexed_token; [by apply text_quoted|by apply safe_follows|done].
Qed.

Lemma lexed_quoted_list r t l :
  forallb (quotable is_print) r = true → safe t → lexed t l →
  lexed (foldr (λ k acc, " " +:+ (Quote is_print k +:+ acc)) t r) (((λ k, (KindString, k)) <$> r) ++ l).
Proof.
  intros Hr Hs Ht. induction r as [|k r IH]; [done|]. cbn [forallb] in Hr. apply andb_true_iff in Hr as [Hk Hr].
  cbn [foldr]. rewrite string_app_cons, string_app_nil_l. apply lexed_space; [done|]. rewrite fmap_cons. cbn [app].
  apply lexed_token; [by apply text_quoted| |by apply IH]. apply safe_follows. destruct r; [done|by left].
Qed.

Lemma foldr_quoted r u t :
  foldr (λ k acc, " " +:+ (Quote is_print k +:+ acc)) "" r +:+ u +:+ t =
  foldr (λ k acc, " " +:+ (Quote is_print k +:+ acc)) (u +:+ t) r.
Proof. induction r as [|k r IH]; [done|]. cbn [foldr]. by rewrite <-IH, !string_app_assoc. Qed.

Lemma lexed_braces {A} n u U (E : A → string) (T : A → tokens) xs t l :
  (∀ t l, safe t → lexed t l → lexed (u +:+ t) (U ++ l)) →
  Forall (λ x, ∀ t l, lexed t l → lexed (E x +:+ t) (T x ++ l)) xs → lexed t l →
  lexed (field_line (spaces n) u +:+ (foldr (λ x acc, E x +:+ acc) "" xs +:+ (field_line (spaces n) "}" +:+ t)))
    (U ++ foldr (λ x acc, T x ++ acc) [] xs ++ punct KindRBrace :: l).
Proof.
  intros Hu H Ht. apply lexed_line; [done|]. apply lexed_body; [done|].
  apply (lexed_line n "}" [punct KindRBrace]); [by apply piece_close|done].
Qed.

Lemma block_tokens_app l r : block_tokens l ++ r = [punct KindLBrace] ++ l ++ punct KindRBrace :: r.
Proof. unfold block_tokens. cbn [app]. by rewrite <-app_assoc. Qed.

Lemma lexed_approval n b d r p t l :
  is_some_ident b = true → match d with Some d => wf_string is_print d | None => true end = true →
  forallb (quotable is_print) r = true → forallb (λ a, bool_decide (is_Some a.1) && wf_arg is_print a) p = true → lexed t l →
  lexed ((field_line (spaces n) ("approval " +:+ (identName b +:+ " {")) +:+
    (match d with Some d => printStringField is_print (n + 4) "description" d | None => "" end +:+
    (match r with
     | [] => ""
     | _ => field_line (spaces (n + 4)) ("redactKeys {" +:+ (foldr (λ k acc, " " +:+ (Quote is_print k +:+ acc)) "" r +:+ " }"))
     end +:+
    (match p with
     | [] => ""
     | _ => field_line (spaces (n + 4)) "with {" +:+
         (foldr (λ a acc, field_line (spaces (n + 8)) (printArg is_print a) +:+ acc) "" p +:+ field_line (spaces (n + 4)) "}")
     end +:+ field_line (spaces n) "}")))) +:+ t) (stmt_tokens (ApprovalStmt b d r p) ++ l).
Proof.
  intros Hb Hd Hr Hp Ht. destruct b as [b|]; [|done]. cbn [is_some_ident stmt_tokens identName default] in *.
  rewrite !string_app_assoc. cbn [app]. rewrite block_tokens_app, <-!app_assoc.
  apply (lexed_line n _ [(KindIdent, "approval"); (KindIdent, b); punct KindLBrace]).
  { intros t' l'. apply (piece_ident "approval" (b +:+ " {") [(KindIdent, b); punct KindLBrace]); [done|]. intros t'' l''.
    apply (piece_ident b "{" [punct KindLBrace]); [done|]. apply piece_open. }
  assert (lexed (field_line (spaces n) "}" +:+ t) (punct KindRBrace :: l)) as H1.
  { apply (lexed_line n "}" [punct KindRBrace]); [by apply piece_close|done]. }
  assert (∀ t l, lexed t l → lexed (match p with
     | [] => ""
     | _ => field_line (spaces (n + 4)) "with {" +:+
         (foldr (λ a acc, field_line (spaces (n + 8)) (printArg is_print a) +:+ acc) "" p +:+ field_line (spaces (n + 4)) "}")
     end +:+ t) (match p with [] => [] | _ => (KindIdent, "with") :: block_tokens (foldr (λ a acc, arg_tokens a ++ acc) [] p) end ++ l)) as H2.
  { intros t' l' Ht'. destruct p as [|a p]; [done|]. rewrite !string_app_assoc. cbn [app]. rewrite block_tokens_app.
    apply (lexed_braces (n + 4) "with {" [(KindIdent, "with"); punct KindLBrace] _ arg_tokens); [| |done].
    - intros t'' l''. apply (piece_ident "with" "{" [punct KindLBrace]); [done|]. apply piece_open.
    - apply Forall_forall. intros [m v] Hin t'' l'' H''. rewrite forallb_forall in Hp.
      specialize (Hp _ (proj1 (list_elem_of_In _ _) Hin)). destruct m as [m|]; [|done]. cbn [wf_arg fst] in Hp.
      apply andb_true_iff in Hp as [_ [Hm Hv]%andb_true_iff]. apply lexed_line; [|done]. cbn [printArg arg_tokens app]. intros t3 l3 Hs3 H3.
      rewrite string_app_assoc. apply lexed_ident; [done|done|]. rewrite !string_app_cons, string_app_nil_l.
      apply (lexed_punct _ KindColon ":"); [in_puncts|by apply follows_any|]. apply lexed_space; [done|]. by apply lexed_expr. }
  assert (∀ t l, lexed t l → lexed (match r with
     | [] => ""
     | _ => field_line (spaces (n + 4)) ("redactKeys {" +:+ (foldr (λ k acc, " " +:+ (Quote is_print k +:+ acc)) "" r +:+ " }"))
     end +:+ t) (match r with [] => [] | _ => (KindIdent, "redactKeys") :: block_tokens ((λ k, (KindString, k)) <$> r) end ++ l)) as H3.
  { intros t' l' Ht'. destruct r as [|k r]; [done|]. apply lexed_line; [|done]. intros t'' l'' Hs'' H''. cbn [app]. rewrite block_tokens_app.
    rewrite !string_app_assoc. apply (lexed_ident is_print "redactKeys"); [done|done|]. apply lexed_space; [done|].
    apply (lexed_punct _ KindLBrace "{"); [in_puncts|by apply follows_any|]. rewrite foldr_quoted.
    apply lexed_quoted_list; [done|by left|]. rewrite string_app_cons. apply lexed_space; [done|]. by apply piece_close. }
  destruct d as [d|]; cbv iota; cbn [app].
  - apply (lexed_string_field (n + 4) "description"); [done|lia|done|]. by apply H3, H2.
  - rewrite string_app_nil_l. by apply H3, H2.
Qed.

(** The text of a conditional after its indentation. *)
Definition if_text (depth : nat) (c : expr) (t e : list stmt) : string :=
  "if " +:+ (printExpr c +:+ (" {" +:+ (nl +:+ (printBlock is_print (S depth) t +:+
    match e with
    | [] => field_line (indentation depth) "}"
    | [IfStmt _ _ _ as elif] => indentation depth +:+ ("} else " +:+ trim_spaces (printStmt depth elif))
    | e => field_line (indentation depth) "} else {" +:+ (printBlock is_print (S depth) e +:+ field_line (indentation depth) "}")
    end)))).

Lemma printStmt_if depth c t e : printStmt depth (IfStmt c t e) = indentation depth +:+ if_text depth c t e.
Proof. reflexivity. Qed.

Lemma trim_indentation n s : trim_spaces (spaces n +:+ s) = trim_spaces s.
Proof. induction n as [|n IH]; [done|]. by rewrite spaces_S, string_app_cons. Qed.

Lemma trim_if depth c t e : trim_spaces (printStmt depth (IfStmt c t e)) = if_text depth c t e.
Proof. rewrite printStmt_if. unfold indentation. by rewrite trim_indentation. Qed.

Definition text_ok (s : stmt) : Prop := ∀ depth t l, lexed t l →
  lexed (match s with IfStmt _ _ _ => trim_spaces (printStmt depth s) | _ => printStmt depth s end +:+ t) (stmt_tokens s ++ l).

Lemma text_ok_print s depth t l : text_ok s → lexed t l → lexed (printStmt depth s +:+ t) (stmt_tokens s ++ l).
Proof.
  intros Hs Ht. specialize (Hs depth t l Ht). destruct s; try done. rewrite trim_if in Hs. rewrite printStmt_if.
  rewrite string_app_assoc. by apply lexed_spaces.
Qed.

Lemma lexed_block depth b t l :
  Forall text_ok b → lexed t l → lexed (printBlock is_print depth b +:+ t) (stmts_tokens b ++ l).
Proof.
  intros Hb Ht. apply (lexed_body (printStmt depth) stmt_tokens); [|done]. eapply Forall_impl; [exact Hb|].
  intros s Hs t' l'. by apply text_ok_print.
Qed.

(** A header line, a block and a closing line. *)
Lemma lexed_compound depth u U b t l :
  (∀ t l, safe t → lexed t l → lexed (u +:+ t) ((U ++ [punct KindLBrace]) ++ l)) → Forall text_ok b → lexed t l →
  lexed (field_line (indentation depth) u +:+ (printBlock is_print (S depth) b +:+ (field_line (indentation depth) "}" +:+ t)))
    (U ++ block_tokens (stmts_tokens b) ++ l).
Proof.
  intros Hu Hb Ht. rewrite block_tokens_app, app_assoc. apply lexed_line; [done|]. apply lexed_block; [done|].
  apply (lexed_line (4 * depth) "}" [punct KindRBrace]); [apply piece_close|done].
Qed.

Lemma lexed_else depth e t l :
  Forall text_ok e → lexed t l →
  lexed (match e with
    | [] => field_line (indentation depth) "}"
    | [IfStmt _ _ _ as elif] => indentation depth +:+ ("} else " +:+ trim_spaces (printStmt depth elif))
    | e => field_line (indentation depth) "} else {" +:+ (printBlock is_print (S depth) e +:+ field_line (indentation depth) "}")
    end +:+ t)
    (punct KindRBrace :: match e with
     | [] => []
     | [IfStmt _ _ _ as elif] => (KindElse, "else") :: stmt_tokens elif
     | e => (KindElse, "else") :: block_tokens (stmts_tokens e)
     end ++ l).
Proof.
  intros He Ht.
  assert (lexed ((field_line (indentation depth) "} else {" +:+ (printBlock is_print (S depth) e +:+ field_line (indentation depth) "}")) +:+ t)
    (punct KindRBrace :: ((KindElse, "else") :: block_tokens (stmts_tokens e)) ++ l)) as Hplain.
  { rewrite !string_app_assoc. apply (lexed_compound depth "} else {" [punct KindRBrace; (KindElse, "else")]); [|done|done].
    intros t' l'. apply (piece_punct KindRBrace "}" "else {" [(KindElse, "else"); punct KindLBrace]); [in_puncts|]. intros t'' l''.
    apply (piece_word "else" KindElse "{" [punct KindLBrace]); [done|done|]. apply piece_open. }
  destruct e as [|s [|s' e]].
  - apply (lexed_line (4 * depth) "}" [punct KindRBrace]); [apply piece_close|done].
  - destruct s; try exact Hplain. clear Hplain. rewrite !string_app_assoc. apply lexed_spaces.
    apply (lexed_punct _ KindRBrace "}"); [in_puncts|by apply follows_any|]. apply lexed_space; [done|].
    apply (lexed_word _ "else" KindElse); [done|done|done|]. apply lexed_space; [done|].
    apply Forall_cons in He as [He _]. by apply (He depth).
  - destruct s; exact Hplain.
Qed.

(** The texts of loop headers. *)
Definition for_tokens (x : string) (c : expr) : tokens := [(KindFor, "for"); (KindIdent, x); (KindIdent, "in")] ++ expr_tokens c.
Lemma piece_for x c t l :
  is_ident x = true → wf_expr c = true → safe t → lexed t l →
  lexed (("for " +:+ (x +:+ (" in " +:+ (printExpr c +:+ " {")))) +:+ t) ((for_tokens x c ++ [punct KindLBrace]) ++ l).
Proof.
  intros Hx Hc. apply (piece_word "for" KindFor (x +:+ (" in " +:+ (printExpr c +:+ " {"))) ((KindIdent, x) :: (KindIdent, "in") :: expr_tokens c ++ [punct KindLBrace])); [done|done|].
  intros t1 l1. apply (piece_ident x ("in " +:+ (printExpr c +:+ " {")) ((KindIdent, "in") :: expr_tokens c ++ [punct KindLBrace])); [done|].
  intros t2 l2. apply (piece_ident "in" (printExpr c +:+ " {") (expr_tokens c ++ [punct KindLBrace])); [done|].
  intros t3 l3. apply (piece_expr c "{"); [done|]. apply piece_open.
Qed.

Definition limit_tokens (c : expr) (n : Z) : tokens := expr_tokens c ++ [(KindIdent, "limit"); (KindNumber, fmt_Z n)].
Lemma piece_limit c n t l :
  wf_expr c = true → positive_limit n = true → safe t → lexed t l →
  lexed ((printExpr c +:+ (" limit " +:+ (fmt_Z n +:+ " {"))) +:+ t) ((limit_tokens c n ++ [punct KindLBrace]) ++ l).
Proof.
  intros Hc Hn%bool_decide_eq_true. unfold limit_tokens. rewrite <-(app_assoc (expr_tokens c)).
  apply (piece_expr c ("limit " +:+ (fmt_Z n +:+ " {"))); [done|].
  intros t1 l1. apply (piece_ident "limit" (fmt_Z n +:+ " {") [(KindNumber, fmt_Z n); punct KindLBrace]); [done|].
  intros t2 l2. apply (piece_number n "{" [punct KindLBrace]); [lia|]. apply piece_open.
Qed.

Lemma bodies_ok l :
  Forall (λ s, wf_stmt is_print s = true → text_ok s) l → forallb (λ s, wf_stmt is_print s) l = true → Forall text_ok l.
Proof.
  intros Hi Hl. rewrite forallb_forall in Hl. rewrite Forall_forall in *. intros s Hin. apply Hi; [done|]. by apply Hl, list_elem_of_In.
Qed.

Lemma lexed_stmt s : wf_stmt is_print s = true → text_ok s.
Proof.
  induction s as [x v|x|bs|v|b d r p|c t e IHt IHe|x c b par IH|c n b IH|c n b IH] using stmt_nested_ind;
    intros Hw depth t' l' Ht'; cbn [wf_stmt] in Hw; cbn [LangPrint.printStmt stmt_tokens].
  - apply andb_true_iff in Hw as [Hx Hv]. by apply (lexed_assign (4 * depth) (x, v)).
  - apply andb_true_iff in Hw as [Hx _]. apply lexed_line; [by apply lexed_expr|done].
  - rewrite !string_app_assoc. cbn [app]. rewrite block_tokens_app.
    apply (lexed_braces (4 * depth) "parallel {" [(KindParallel, "parallel"); punct KindLBrace] _ assign_tokens); [| |done].
    + intros t'' l''. apply (piece_word "parallel" KindParallel "{" [punct KindLBrace]); [done|done|]. apply piece_open.
    + rewrite forallb_forall in Hw. apply Forall_forall. intros a Hin t'' l'' H''. specialize (Hw _ (proj1 (list_elem_of_In _ _) Hin)).
      apply andb_true_iff in Hw as [? ?]. by apply lexed_assign.
  - apply (lexed_line (4 * depth) _ ((KindReturn, "return") :: expr_tokens v)); [|done]. intros t'' l''.
    apply (piece_word "return" KindReturn (printExpr v)); [done|done|]. by apply lexed_expr.
  - apply andb_true_iff in Hw as [[[Hb Hd]%andb_true_iff Hr]%andb_true_iff Hp]. by apply (lexed_approval (4 * depth)).
  - apply andb_true_iff in Hw as [[Hc Ht]%andb_true_iff He]. change (trim_spaces _) with (trim_spaces (printStmt depth (IfStmt c t e))).
    rewrite trim_if. unfold if_text. rewrite !string_app_assoc.
    cbn [app]. rewrite <-!app_assoc. apply (lexed_word _ "if" KindIf); [done|done|done|]. apply lexed_space; [done|].
    apply lexed_expr; [done|by left|]. rewrite block_tokens_app. apply lexed_space; [done|].
    apply (lexed_punct _ KindLBrace "{"); [in_puncts|by apply follows_any|]. apply lexed_nl. apply lexed_block; [by apply bodies_ok|].
    apply (lexed_else depth e); [by apply bodies_ok|done].
  - apply andb_true_iff in Hw as [[Hx Hc]%andb_true_iff Hb]. destruct x as [x|]; [|done]. cbn [is_some_ident] in Hx.
    change (identName (Some x)) with x. fold (stmts_tokens b). rewrite !string_app_assoc.
    replace ((((if par then [(KindParallel, "parallel")] else []) ++ (KindFor, "for") :: (KindIdent, x) :: (KindIdent, "in") :: expr_tokens c ++
      block_tokens (stmts_tokens b)) ++ l')) with
      (((if par then [(KindParallel, "parallel")] else []) ++ for_tokens x c) ++ block_tokens (stmts_tokens b) ++ l')
      by (unfold for_tokens; rewrite <-!app_assoc; cbn [app]; by rewrite <-!app_assoc).
    apply lexed_compound; [|by apply bodies_ok|done]. intros t l. rewrite <-(app_assoc _ _ [punct KindLBrace]). destruct par.
    + apply (piece_word "parallel" KindParallel ("for " +:+ (x +:+ (" in " +:+ (printExpr c +:+ " {")))) (for_tokens x c ++ [punct KindLBrace])); [done|done|].
      intros t1 l1. by apply piece_for.
    + by apply piece_for.
  - apply andb_true_iff in Hw as [[Hc Hn]%andb_true_iff Hb]. fold (stmts_tokens b). rewrite !string_app_assoc.
    replace (((KindWhile, "while") :: expr_tokens c ++ (KindIdent, "limit") :: (KindNumber, fmt_Z n) :: block_tokens (stmts_tokens b)) ++ l') with
      (((KindWhile, "while") :: limit_tokens c n) ++ block_tokens (stmts_tokens b) ++ l')
      by (unfold limit_tokens; cbn [app]; by rewrite <-!app_assoc).
    apply lexed_compound; [|by apply bodies_ok|done]. intros t l.
    apply (piece_word "while" KindWhile (printExpr c +:+ (" limit " +:+ (fmt_Z n +:+ " {"))) (limit_tokens c n ++ [punct KindLBrace])); [done|done|].
    intros t1 l1. by apply piece_limit.
  - apply andb_true_iff in Hw as [[Hc Hn]%andb_true_iff Hb]. fold (stmts_tokens b). rewrite !string_app_assoc.
    replace (((KindIdent, "retry") :: (KindIdent, "until") :: expr_tokens c ++ (KindIdent, "limit") :: (KindNumber, fmt_Z n) :: block_tokens (stmts_tokens b)) ++ l') with
      (((KindIdent, "retry") :: (KindIdent, "until") :: limit_tokens c n) ++ block_tokens (stmts_tokens b) ++ l')
      by (unfold limit_tokens; cbn [app]; by rewrite <-!app_assoc).
    apply lexed_compound; [|by apply bodies_ok|done]. intros t l.
    apply (piece_ident "retry" ("until " +:+ (printExpr c +:+ (" limit " +:+ (fmt_Z n +:+ " {")))) ((KindIdent, "until") :: limit_tokens c n ++ [punct KindLBrace])); [done|].
    intros t1 l1. apply (piece_ident "until" (printExpr c +:+ (" limit " +:+ (fmt_Z n +:+ " {"))) (limit_tokens c n ++ [punct KindLBrace])); [done|].
    intros t2 l2. by apply piece_limit.
Qed.
End lexing.
