(* ===== verification/LangStmtReads.v ===== *)
(** * Reading statements

    [reads_parseStmt]: with the number of tokens and three as fuel, [parseStmt]
    reads a well-formed statement from its tokens, up to a token that neither
    continues an expression nor is an [else] or an [=]. *)

From S2P Require Import Prelude GoNum GoText Value JsonText JsonNum LangLexer LangText LangBlock LangParser LangPrint LangExprText LangReads LangStmt.

Local Open Scope nat_scope.

(** What may follow a statement. *)
Definition stops (l : tokens) : Prop :=
  ends 1 l ∧ head_kind l ≠ KindElse ∧ head_kind l ≠ KindEquals.

Definition starts_stmt (k : Kind) : bool :=
  bool_decide (k = KindIdent ∨ k = KindReturn ∨ k = KindIf ∨ k = KindFor ∨ k = KindWhile ∨ k = KindParallel).

Lemma stops_close r : stops (punct KindRBrace :: r).
Proof. split; [unfold ends; cbn; lia|done]. Qed.
Lemma stops_start l : starts_stmt (head_kind l) = true → stops l.
Proof.
  unfold stops, ends, starts_stmt. intros H%bool_decide_eq_true. destruct_or! H; rewrite H; (split; [cbn; lia|done]).
Qed.
Lemma start_no_end k : starts_stmt k = true → ends_block k = false.
Proof. unfold starts_stmt, ends_block. intros H%bool_decide_eq_true. apply bool_decide_eq_false. intros Hk. destruct_or!; congruence. Qed.

Section statements.
Context (is_print : chars → bool).
#[local] Abbreviation wf_expr := (wf_expr is_print).
#[local] Abbreviation wf_stmt := (wf_stmt is_print).

(** ** The first two tokens *)

(** An expression that starts with an identifier is that identifier, or goes on with
    a token that binds to it. *)
Lemma expr_second e r :
  wf_expr e = true → head_kind (expr_tokens e) = KindIdent →
  (∃ x, expr_tokens e = [(KindIdent, x)]) ∨ 0 < tightness (head_kind (tail (expr_tokens e ++ r))).
Proof.
  revert r. induction e as [v|x _|op x y IHx _|parts|callee args _|fields _|] using expr_nested_ind;
    intros r Hw Hh; cbn [LangExprText.wf_expr expr_tokens] in *; try done.
  - destruct v as [|b| | | | |]; try done. left. by eexists.
  - apply andb_true_iff in Hw as [[[Ho _]%andb_true_iff Hx]%andb_true_iff _]. right.
    assert (∀ l, 0 < tightness (head_kind (punct op :: l))) as Hop.
    { intros l. unfold is_operator, isComparisonOp in Ho. apply orb_true_iff in Ho as [Ho%bool_decide_eq_true|Ho%bool_decide_eq_true];
        destruct_or! Ho; subst op; cbn; lia. }
    destruct (operandParens op false x); [done|]. rewrite <-app_assoc. cbn [app parens_tokens].
    destruct (expr_head _ x Hx) as (k & z & l & E & _).
    destruct (IHx (punct op :: parens_tokens (operandParens op true y) (expr_tokens y) ++ r)) as [[z' E']|H]; [done|by rewrite E in *|rewrite E'; apply Hop|exact H].
  - apply andb_true_iff in Hw as [Hp _]. destruct parts as [|x [|y parts]]; [by apply path_ne in Hp|left; by eexists|].
    right. cbn. lia.
  - right. apply andb_true_iff in Hw as [Hp _]. destruct callee as [|x [|y parts]]; [by apply path_ne in Hp|cbn; lia|cbn; lia].
Qed.

Lemma stmt_start s : wf_stmt s = true → starts_stmt (head_kind (stmt_tokens s)) = true.
Proof.
  destruct s as [x v|x|bs|v|b d r p|c t e|x c b []|c n b|c n b]; try done. cbn [LangStmt.wf_stmt stmt_tokens].
  intros [_ [H%bool_decide_eq_true _]%andb_true_iff]%andb_true_iff. by rewrite H.
Qed.
Lemma stmt_tokens_ne s : wf_stmt s = true → 0 < length (stmt_tokens s).
Proof. intros H%stmt_start. destruct (stmt_tokens s); [done|cbn; lia]. Qed.

Lemma head_kind_app l r : l ≠ [] → head_kind (l ++ r) = head_kind l.
Proof. by destruct l as [|[? ?] ?]. Qed.

Lemma stmt_start_app s r : wf_stmt s = true → starts_stmt (head_kind (stmt_tokens s ++ r)) = true.
Proof.
  intros Hw. pose proof (stmt_tokens_ne s Hw). rewrite head_kind_app; [by apply stmt_start|]. by destruct (stmt_tokens s); [cbn in *; lia|].
Qed.

Lemma stmts_stop l r : forallb (λ s, wf_stmt s) l = true → stops (stmts_tokens l ++ punct KindRBrace :: r).
Proof.
  destruct l as [|s l]; [intros _; apply stops_close|]. cbn [forallb stmts_tokens foldr]. intros [Hs _]%andb_true_iff.
  rewrite <-app_assoc. by apply stops_start, stmt_start_app.
Qed.

(** ** Blocks *)

Definition reads_stmt (rec : P (option stmt)) (s : stmt) : Prop := ∀ r, stops r → reads rec (stmt_tokens s ++ r) (Some s) r.

Lemma reads_block_loop rec l : ∀ fuel r,
  forallb (λ s, wf_stmt s) l = true → Forall (reads_stmt rec) l → length l < fuel →
  reads (block_loop rec fuel) (stmts_tokens l ++ punct KindRBrace :: r) l (punct KindRBrace :: r).
Proof.
  induction l as [|s l IH]; intros [|fuel] r Hw Hl Hf; try (cbn in Hf; lia); cbn [block_loop].
  - reads_step. change (ends_block _) with true. reads_step.
  - cbn [forallb] in Hw. apply andb_true_iff in Hw as [Hs Hw]. apply Forall_cons in Hl as [Hr Hl].
    change (stmts_tokens (s :: l)) with (stmt_tokens s ++ stmts_tokens l). rewrite <-app_assoc. reads_step.
    rewrite start_no_end by by apply stmt_start_app. eapply reads_bind; [by apply Hr, stmts_stop|].
    eapply reads_bind; [apply IH; [done|done|cbn in Hf; lia]|]. reads_step.
Qed.

Lemma stmts_length l : forallb (λ s, wf_stmt s) l = true → length l ≤ length (stmts_tokens l).
Proof.
  induction l as [|s l IH]; [done|]. cbn [forallb]. intros [Hs Hl]%andb_true_iff. change (stmts_tokens (s :: l)) with (stmt_tokens s ++ stmts_tokens l).
  rewrite length_app. cbn [length]. pose proof (stmt_tokens_ne s Hs). specialize (IH Hl). lia.
Qed.

Lemma reads_parseBlock rec fuel l r :
  forallb (λ s, wf_stmt s) l = true → Forall (reads_stmt rec) l → length (stmts_tokens l) < fuel →
  reads (parseBlock rec fuel) (block_tokens (stmts_tokens l) ++ r) l r.
Proof.
  intros Hw Hl Hf. pose proof (stmts_length l Hw). rewrite block_tokens_app. unfold parseBlock. cbn [app].
  eapply reads_bind; [apply reads_expect|]. eapply reads_bind; [apply reads_block_loop; [done|done|lia]|].
  eapply reads_bind; [apply reads_expect|]. reads_step.
Qed.

(** ** Parallel blocks *)

Lemma reads_parallel_loop fuel bs : ∀ fuel' r,
  forallb (λ b, is_ident b.1 && wf_expr b.2) bs = true → Forall (λ b, length (expr_tokens b.2) + 2 ≤ fuel) bs → length bs < fuel' →
  reads (parallel_loop fuel fuel') (foldr (λ b acc, assign_tokens b ++ acc) [] bs ++ punct KindRBrace :: r) bs (punct KindRBrace :: r).
Proof.
  induction bs as [|[x v] bs IH]; intros [|fuel'] r Hw Hl Hf; try (cbn in Hf; lia); cbn [parallel_loop foldr].
  - reads_step. change (ends_block _) with true. reads_step.
  - cbn [forallb fst snd] in Hw. apply andb_true_iff in Hw as [[_ Hv]%andb_true_iff Hw]. apply Forall_cons in Hl as [Hn Hl].
    rewrite <-app_assoc. cbn [assign_tokens app fst snd]. reads_step. change (ends_block KindIdent) with false. cbv iota. reads_step.
    change (bool_decide (KindIdent = KindIdent) && bool_decide (_ = KindEquals)) with true. cbv iota. reads_step. reads_step.
    eapply reads_bind; [apply (reads_parseExpr is_print); [done|done|]|].
    { destruct bs as [|[? ?] ?]; unfold ends; cbn; lia. }
    eapply reads_bind; [apply IH; [done|done|cbn in Hf; lia]|]. reads_step.
Qed.

(** ** Approvals *)

Lemma reads_string_list ks : ∀ fuel r,
  length ks < fuel → reads (string_list fuel) (((λ k, (KindString, k)) <$> ks) ++ punct KindRBrace :: r) ks (punct KindRBrace :: r).
Proof.
  induction ks as [|k ks IH]; intros [|fuel] r Hf; try (cbn in Hf; lia); cbn [string_list fmap list_fmap app].
  - reads_step. change (ends_block _) with true. reads_step.
  - reads_step. change (ends_block KindString) with false. cbv iota. rewrite decide_True by done. reads_step.
    eapply reads_bind; [apply IH; cbn in Hf; lia|]. reads_step.
Qed.
Lemma reads_string_block fuel ks r :
  length ks < fuel → reads (parseStringListBlock fuel) (block_tokens ((λ k, (KindString, k)) <$> ks) ++ r) ks r.
Proof.
  intros Hf. rewrite block_tokens_app. unfold parseStringListBlock. cbn [app]. eapply reads_bind; [apply reads_expect|].
  eapply reads_bind; [by apply reads_string_list|]. eapply reads_bind; [apply reads_expect|]. reads_step.
Qed.

Definition args_tokens (p : list arg) : tokens := foldr (λ a acc, arg_tokens a ++ acc) [] p.
Definition wf_payload (p : list arg) : bool := forallb (λ a, bool_decide (is_Some a.1) && wf_arg is_print a) p.

(** A named argument starts with an identifier. *)
Lemma payload_ends p r : wf_payload p = true →
  ends 1 (args_tokens p ++ punct KindRBrace :: r) ∧ head_kind (args_tokens p ++ punct KindRBrace :: r) ∉ [KindColon; KindComma].
Proof.
  destruct p as [|[[x|] v] p]; [intros _; split; [unfold ends; cbn; lia|set_solver]| |done]. intros _. split; [unfold ends; cbn; lia|set_solver].
Qed.

Lemma reads_with_loop fuel p : ∀ fuel' r,
  wf_payload p = true → Forall (λ a, length (expr_tokens a.2) + 2 ≤ fuel) p → length p < fuel' →
  reads (with_loop fuel fuel') (args_tokens p ++ punct KindRBrace :: r) p (punct KindRBrace :: r).
Proof.
  induction p as [|a p IH]; intros [|fuel'] r Hw Hl Hf; try (cbn in Hf; lia); cbn [with_loop args_tokens foldr].
  - reads_step. change (ends_block _) with true. reads_step.
  - fold (args_tokens p). unfold wf_payload in Hw. cbn [forallb] in Hw. apply andb_true_iff in Hw as [[Hn Ha]%andb_true_iff Hw].
    apply Forall_cons in Hl as [Hx Hl]. rewrite <-app_assoc. destruct (payload_ends p r Hw) as [He Hk].
    assert (head_kind (arg_tokens a ++ args_tokens p ++ punct KindRBrace :: r) = KindIdent) as Hh.
    { destruct a as [[x|] v]; [done|]. by apply bool_decide_eq_true in Hn as [? ?]. }
    reads_step. rewrite Hh. change (ends_block KindIdent) with false. cbv iota.
    eapply reads_bind; [apply (reads_arg is_print); [done| |done|set_solver]|].
    { apply (reads_parseExpr is_print); [|done]. destruct a as [[x|] v]; cbn [wf_arg] in Ha; by apply andb_true_iff in Ha as [? ?]. }
    reads_step. rewrite decide_False by set_solver. eapply reads_bind; [apply reads_ret|].
    eapply reads_bind; [apply IH; [done|done|cbn in Hf; lia]|]. reads_step.
Qed.
Lemma reads_with fuel p r :
  wf_payload p = true → Forall (λ a, length (expr_tokens a.2) + 2 ≤ fuel) p → length p < fuel →
  reads (parseApprovalWith fuel) (block_tokens (args_tokens p) ++ r) p r.
Proof.
  intros Hw Hl Hf. rewrite block_tokens_app. unfold parseApprovalWith. cbn [app]. eapply reads_bind; [apply reads_expect|].
  eapply reads_bind; [by apply reads_with_loop|]. eapply reads_bind; [apply reads_expect|]. reads_step.
Qed.

(** The fields of an approval, each met once. *)
Definition description_tokens (d : option string) : tokens := match d with Some d => [(KindIdent, "description"); (KindString, d)] | None => [] end.
Definition redact_tokens (ks : list string) : tokens :=
  match ks with [] => [] | _ => (KindIdent, "redactKeys") :: block_tokens ((λ k, (KindString, k)) <$> ks) end.
Definition with_tokens (p : list arg) : tokens := match p with [] => [] | _ => (KindIdent, "with") :: block_tokens (args_tokens p) end.

Ltac approval_field H :=
  cbn [app]; cbn [approval_loop]; apply reads_cur; intros ?p; cbn [tk_Kind tk_Lit tk_Pos head_kind head_lit];
  change (ends_block KindIdent) with false; cbv iota; rewrite decide_False by (intros ?; done); reads_step;
  rewrite (proj2 (str_mem_false _ _) H);
  cbn [String.eqb Ascii.eqb Bool.eqb]; eapply reads_bind; [apply reads_ret|].

Lemma reads_field_end fuel fuel' seen s r :
  reads (approval_loop fuel (S fuel') seen s) (punct KindRBrace :: r) s (punct KindRBrace :: r).
Proof. cbn [approval_loop]. apply reads_cur. intros p. cbn [tk_Kind head_kind punct]. change (ends_block _) with true. reads_step. Qed.

Lemma reads_field_with fuel fuel' seen d ks p r :
  wf_payload p = true → Forall (λ a, length (expr_tokens a.2) + 2 ≤ fuel) p → length p < fuel → "with" ∉ seen →
  reads (approval_loop fuel (S (S fuel')) seen (mkApproval d ks [])) (with_tokens p ++ punct KindRBrace :: r)
    (mkApproval d ks p) (punct KindRBrace :: r).
Proof.
  intros Hw Hl Hf Hseen. destruct p as [|a p]; [apply reads_field_end|]. unfold with_tokens. approval_field Hseen.
  eapply reads_bind; [by apply reads_with|]. apply reads_field_end.
Qed.

Lemma reads_field_redact fuel fuel' seen d ks p r r' :
  length ks < fuel → "redactKeys" ∉ seen → "with" ∉ seen →
  (∀ f seen', fuel' ≤ f → "with" ∉ seen' → reads (approval_loop fuel f seen' (mkApproval d ks [])) r (mkApproval d ks p) r') →
  reads (approval_loop fuel (S fuel') seen (mkApproval d [] [])) (redact_tokens ks ++ r) (mkApproval d ks p) r'.
Proof.
  intros Hf Hseen Hwith Hk. destruct ks as [|k ks]; [apply Hk; [lia|done]|]. unfold redact_tokens. approval_field Hseen.
  eapply reads_bind; [by apply reads_string_block|]. apply Hk; [lia|set_solver].
Qed.

Lemma reads_field_description fuel fuel' d ks p r r' :
  (∀ f seen', fuel' ≤ f → "redactKeys" ∉ seen' → "with" ∉ seen' → reads (approval_loop fuel f seen' (mkApproval d [] [])) r (mkApproval d ks p) r') →
  reads (approval_loop fuel (S fuel') [] (mkApproval None [] [])) (description_tokens d ++ r) (mkApproval d ks p) r'.
Proof.
  intros Hk. destruct d as [d|]; [|apply Hk; [lia|set_solver..]]. unfold description_tokens.
  assert ("description" ∉ []) as Hseen by set_solver. approval_field Hseen. reads_step. apply Hk; [lia|set_solver..].
Qed.

Lemma member_length {A} (T : A → tokens) x l : x ∈ l → length (T x) ≤ length (foldr (λ y acc, T y ++ acc) [] l).
Proof.
  induction 1 as [x l|x y l _ IH]; cbn [foldr]; rewrite length_app; lia.
Qed.
Lemma members_length {A} (T : A → tokens) l : Forall (λ x, T x ≠ []) l → length l ≤ length (foldr (λ y acc, T y ++ acc) [] l).
Proof.
  induction 1 as [|x l Hx _ IH]; [done|]. cbn [foldr length]. rewrite length_app. destruct (T x); [done|]. cbn. lia.
Qed.

Lemma reads_approval fuel b d ks p r :
  wf_payload p = true → length (description_tokens d ++ redact_tokens ks ++ with_tokens p) + 4 ≤ fuel →
  reads (parseApproval fuel)
    ((KindIdent, "approval") :: (KindIdent, b) :: block_tokens (description_tokens d ++ redact_tokens ks ++ with_tokens p) ++ r)
    (ApprovalStmt (Some b) d ks p) r.
Proof.
  intros Hp Hf. rewrite !length_app in Hf. rewrite block_tokens_app, <-!app_assoc. unfold parseApproval. cbn [app].
  reads_step. reads_step. eapply reads_bind; [apply reads_expect|].
  destruct fuel as [|[|[|[|fuel]]]]; try lia.
  eapply reads_bind.
  - apply (reads_field_description _ (S (S (S fuel))) d ks p). intros f seen Hle Hr Hw. destruct f as [|f]; [lia|].
    apply reads_field_redact; [|done|done|].
    { destruct ks as [|k ks]; [cbn; lia|]. cbn [redact_tokens] in Hf. unfold block_tokens in Hf. cbn [length] in Hf. rewrite length_app, length_fmap in Hf.
      cbn [length] in *. lia. }
    intros f' seen' Hle' Hw'. destruct f' as [|[|f']]; try lia.
    assert (length (args_tokens p) ≤ length (with_tokens p)) as Hlen.
    { destruct p; [done|]. cbn [with_tokens]. unfold block_tokens. cbn [length]. rewrite length_app. lia. }
    apply reads_field_with; [done| | |done].
    + apply Forall_forall. intros a Hin. pose proof (member_length arg_tokens a p Hin) as H. fold (args_tokens p) in H.
      assert (length (expr_tokens a.2) ≤ length (arg_tokens a)) by (destruct a as [[x|] v]; cbn [arg_tokens snd]; rewrite ?length_app; cbn; lia). lia.
    + assert (length p ≤ length (args_tokens p)); [|lia]. apply members_length, Forall_forall. intros [[x|] v] Hin; [done|].
      unfold wf_payload in Hp. rewrite forallb_forall in Hp. apply list_elem_of_In, Hp in Hin. cbn in Hin. done.
  - eapply reads_bind; [apply reads_expect|]. reads_step.
Qed.

(** ** Statements *)

Lemma reads_limit n r : positive_limit n = true → reads limit_clause ((KindIdent, "limit") :: (KindNumber, fmt_Z n) :: r) n r.
Proof.
  intros Hn%bool_decide_eq_true. unfold limit_clause. reads_step.
  change (bool_decide (KindIdent = KindIdent) && ("limit" =? "limit")%string) with true. reads_step. unfold parseLimit. apply reads_cur. intros p.
  cbn [tk_Kind tk_Lit tk_Pos head_kind head_lit]. rewrite decide_False by (intros H; by apply H). reads_step.
  rewrite (proj2 (nonneg_digits n ltac:(lia))). assert (is_int64 n) as Hi by (unfold is_int64, max_int, min_int in *; lia).
  unfold fmt_Z. rewrite atoi_pretty by done. replace (n <=? 0)%Z with false by (symmetry; apply Z.leb_gt; lia). reads_step.
Qed.

(** The parts of a compound statement are short enough for the fuel. *)
Definition fits (fuel : nat) (l : tokens) : Prop := length l + 3 ≤ fuel.
Lemma fits_app fuel l l' : fits fuel (l ++ l') → fits fuel l ∧ fits fuel l'.
Proof. unfold fits. rewrite length_app. lia. Qed.
Lemma fits_cons fuel x l : fits fuel (x :: l) → fits fuel l.
Proof. unfold fits. cbn [length]. lia. Qed.
Lemma fits_block fuel l : fits fuel (block_tokens l) → fits fuel l.
Proof. unfold fits, block_tokens. cbn [length]. rewrite length_app. lia. Qed.

Lemma expr_fits e fuel : wf_expr e = true → fits fuel (expr_tokens e) → reads_expr (parseExpr fuel) e.
Proof. intros Hw Hf. apply (reads_parseExpr is_print); [done|]. unfold fits in Hf. lia. Qed.

Definition readable_stmt (s : stmt) : Prop := ∀ fuel, fits fuel (stmt_tokens s) → reads_stmt (parseStmt fuel) s.

Lemma block_fits l fuel r :
  forallb (λ s, wf_stmt s) l = true → Forall readable_stmt l → fits fuel (stmts_tokens l) →
  reads (parseBlock (parseStmt fuel) fuel) (block_tokens (stmts_tokens l) ++ r) l r.
Proof.
  intros Hw Hl Hf. apply reads_parseBlock; [done| |unfold fits in Hf; lia].
  rewrite Forall_forall in *. intros s Hin. apply (Hl s Hin).
  pose proof (member_length stmt_tokens s l Hin). unfold fits, stmts_tokens in *. lia.
Qed.

Lemma bodies_readable l :
  Forall (λ s, wf_stmt s = true → readable_stmt s) l → forallb (λ s, wf_stmt s) l = true → Forall readable_stmt l.
Proof.
  intros Hi Hl. rewrite forallb_forall in Hl. rewrite Forall_forall in *. intros s Hin. apply Hi; [done|]. by apply Hl, list_elem_of_In.
Qed.

(** One lemma per form: the parts are shorter than the statement. *)
Ltac fuel_S fuel Hf :=
  let n := fresh "n" in destruct fuel as [|n]; [unfold fits in Hf; cbn in Hf; lia|];
  match type of Hf with fits _ (?t :: ?l) => assert (fits n l) by (unfold fits in *; cbn [length] in *; lia); clear Hf end; cbn [parseStmt].

Lemma reads_assign_stmt x v : is_ident x = true → wf_expr v = true → readable_stmt (AssignStmt x v).
Proof.
  intros Hx Hv fuel Hf r [Hr _]. cbn [stmt_tokens] in *. unfold assign_tokens in *. cbn [fst snd] in *. fuel_S fuel Hf. unfold parseStmt_step. cbn [app]. reads_step. reads_step.
  reads_step. reads_step. change (bool_decide (KindEquals = KindIdent)) with false. rewrite !andb_false_r. cbn [andb].
  rewrite decide_True by done. reads_step. reads_step. apply fits_cons in H. eapply reads_bind; [by apply expr_fits|]. reads_step.
Qed.

Lemma expr_tokens_length e : wf_expr e = true → 0 < length (expr_tokens e).
Proof. intros H. destruct (expr_head _ e H) as (k & z & l & -> & _). cbn. lia. Qed.

Lemma single_token x y :
  wf_expr x = true → expr_tokens x = [(KindIdent, y)] → x = RefExpr [y] ∨ ∃ b, y = fmt_bool b.
Proof.
  intros Hw E. pose proof (f_equal length E) as El. destruct x as [v|x|op a b|parts|callee args|fields|]; cbn [expr_tokens length] in *; try done.
  - right. destruct v as [|b| | | | |]; try done. injection E as <-. by exists b.
  - cbn [LangExprText.wf_expr] in Hw. apply andb_true_iff in Hw as [[_ Ha]%andb_true_iff Hb]. rewrite length_app in El. cbn [length] in El.
    pose proof (expr_tokens_length a Ha). assert (∀ c (l : tokens), length l ≤ length (parens_tokens c l)) as Hp.
    { intros [] l; cbn [parens_tokens length]; [rewrite length_app|]; lia. }
    pose proof (Hp (operandParens op false a) (expr_tokens a)). pose proof (Hp (operandParens op true b) (expr_tokens b)). lia.
  - left. destruct parts as [|z' [|? ?]]; try done. by injection E as ->.
  - rewrite !length_app in El. cbn [length] in El. rewrite length_app in El. cbn [length] in El. lia.
Qed.

Lemma reads_expr_stmt x : wf_expr x = true → is_expr_stmt x = true → readable_stmt (ExprStmt x).
Proof.
  intros Hx [Hh%bool_decide_eq_true Ho%negb_true_iff]%andb_true_iff fuel Hf r (Hr & _ & He). destruct fuel as [|n]; [unfold fits in Hf; lia|].
  cbn [stmt_tokens parseStmt] in *. unfold parseStmt_step. destruct (expr_head _ x Hx) as (k & z & l & E & _).
  assert (head_kind (expr_tokens x ++ r) = KindIdent) as Hk by (rewrite head_kind_app; [done|by rewrite E]).
  assert (reads (parseExpr n) (expr_tokens x ++ r) x r) as Hread.
  { apply (reads_parseExpr is_print); [done| |done]. unfold fits in Hf. lia. }
  assert (reads (x ← parseExpr n; mret (if is_nil x then None else Some (ExprStmt x))) (expr_tokens x ++ r) (Some (ExprStmt x)) r) as Hlast.
  { eapply reads_bind; [exact Hread|]. rewrite (is_nil_wf _ _ Hx). apply reads_ret. }
  reads_step. rewrite Hk. reads_step. reads_step. reads_step. destruct (expr_second x r Hx Hh) as [[y Ey]|Ht].
  - rewrite Ey in *. cbn [app head_lit tail] in *.
    assert ((y =? "retry")%string = false ∧ (y =? "approval")%string = false) as [-> ->].
    { destruct (single_token x y Hx Ey) as [-> |[b ->]]; [by apply orb_false_iff in Ho|by destruct b]. }
    cbn [andb]. rewrite decide_False by done. exact Hlast.
  - assert (∀ k, tightness k = 0 → head_kind (tail (expr_tokens x ++ r)) ≠ k) as Hne by (intros k' H0 E'; rewrite E', H0 in Ht; lia).
    rewrite (bool_decide_eq_false_2 (head_kind _ = KindIdent)) by by apply Hne. rewrite !andb_false_r. cbn [andb].
    rewrite decide_False by by apply Hne. exact Hlast.
Qed.

Lemma reads_parallel_stmt bs : forallb (λ b, is_ident b.1 && wf_expr b.2) bs = true → readable_stmt (ParallelStmt bs).
Proof.
  intros Hw fuel Hf r _. cbn [stmt_tokens] in *. fuel_S fuel Hf. apply fits_block in H. unfold parseStmt_step. cbn [app].
  reads_step. reads_step. rewrite decide_False by done. unfold some_stmt. eapply reads_bind; [|reads_step]. unfold parseParallel. reads_step.
  change (foldr (λ b acc, (KindIdent, b.1) :: punct KindEquals :: expr_tokens b.2 ++ acc) [] bs) with (foldr (λ b acc, assign_tokens b ++ acc) [] bs) in *.
  change (punct KindLBrace :: (?l ++ [punct KindRBrace]) ++ r) with (block_tokens l ++ r).
  rewrite block_tokens_app. cbn [app]. eapply reads_bind; [apply reads_expect|].
  eapply reads_bind; [apply reads_parallel_loop; [done| |]|].
  - apply Forall_forall. intros b Hin. pose proof (member_length assign_tokens b bs Hin) as Hl. unfold assign_tokens in Hl at 1. cbn [length] in Hl.
    unfold fits in H. lia.
  - pose proof (members_length assign_tokens bs) as Hl. unfold fits in H. assert (length bs ≤ length (foldr (λ b acc, assign_tokens b ++ acc) [] bs)); [|lia].
    apply Hl, Forall_forall. by intros.
  - eapply reads_bind; [apply reads_expect|]. reads_step.
Qed.

Lemma reads_return_stmt v : wf_expr v = true → readable_stmt (ReturnStmt v).
Proof.
  intros Hv fuel Hf r [Hr _]. cbn [stmt_tokens] in *. fuel_S fuel Hf. unfold parseStmt_step. cbn [app]. reads_step. reads_step.
  eapply reads_bind; [by apply expr_fits|]. reads_step.
Qed.

Lemma block_length l : length (block_tokens l) = length l + 2.
Proof. unfold block_tokens. cbn [length]. rewrite length_app. cbn [length]. lia. Qed.

Lemma reads_approval_stmt b d ks p :
  wf_stmt (ApprovalStmt (Some b) d ks p) = true → readable_stmt (ApprovalStmt (Some b) d ks p).
Proof.
  cbn [LangStmt.wf_stmt]. intros [_ Hp]%andb_true_iff fuel Hf r _. cbn [stmt_tokens] in *. change (identName (Some b)) with b in *.
  fuel_S fuel Hf. unfold parseStmt_step. cbn [app]. reads_step. reads_step. reads_step. reads_step.
  change (bool_decide (KindIdent = KindIdent)) with true. cbn [String.eqb Ascii.eqb Bool.eqb andb]. unfold some_stmt.
  eapply reads_bind; [|reads_step]. apply (reads_approval n b d ks p r); [done|]. unfold fits in H. cbn [length] in H.
  rewrite block_length in H. unfold description_tokens, redact_tokens, with_tokens, args_tokens. lia.
Qed.

Lemma block_stops l r : stops (block_tokens l ++ r) ∧ ends 1 (block_tokens l ++ r).
Proof. unfold stops, ends. cbn. split; [split|]; [lia|done|lia]. Qed.

Lemma reads_for_stmt x c b par :
  is_ident x = true → wf_expr c = true → forallb (λ s, wf_stmt s) b = true → Forall readable_stmt b →
  readable_stmt (ForStmt (Some x) c b par).
Proof.
  intros Hx Hc Hb Hi.
  assert (∀ n r, fits n (expr_tokens c ++ block_tokens (stmts_tokens b)) →
    reads (parseFor (parseStmt n) n par) ((KindFor, "for") :: (KindIdent, x) :: (KindIdent, "in") :: expr_tokens c ++ block_tokens (stmts_tokens b) ++ r)
      (ForStmt (Some x) c b par) r) as Hfor.
  { intros n r [Hfc Hfb%fits_block]%fits_app. unfold parseFor. reads_step. reads_step. reads_step.
    change (bool_decide (KindIdent = KindIdent) && ("in" =? "in")%string) with true. cbv iota. reads_step.
    eapply reads_bind; [apply expr_fits; [done|done|apply block_stops]|]. eapply reads_bind; [by apply block_fits|]. reads_step. }
  intros fuel Hf r _. cbn [stmt_tokens] in *. fold (stmts_tokens b) in *. change (identName (Some x)) with x in *.
  destruct fuel as [|n]; [unfold fits in Hf; lia|]. cbn [parseStmt]. unfold parseStmt_step. destruct par; cbn [app] in *.
  - rewrite <-app_assoc. reads_step. reads_step. rewrite decide_True by done. reads_step. unfold some_stmt. eapply reads_bind; [|reads_step]. apply Hfor.
    unfold fits in *. cbn [length] in *. lia.
  - rewrite <-app_assoc. reads_step. unfold some_stmt. eapply reads_bind; [|reads_step]. apply Hfor. unfold fits in *. cbn [length] in *. lia.
Qed.

(** The condition, limit and body of a loop. *)
Lemma reads_limited {A} (f : expr → Z → list stmt → A) fuel c n b r :
  wf_expr c = true → positive_limit n = true → forallb (λ s, wf_stmt s) b = true → Forall readable_stmt b →
  fits fuel (expr_tokens c ++ (KindIdent, "limit") :: (KindNumber, fmt_Z n) :: block_tokens (stmts_tokens b)) →
  reads (cond ← parseExpr fuel; limit ← limit_clause; body ← parseBlock (parseStmt fuel) fuel; mret (f cond limit body))
    (expr_tokens c ++ (KindIdent, "limit") :: (KindNumber, fmt_Z n) :: block_tokens (stmts_tokens b) ++ r) (f c n b) r.
Proof.
  intros Hc Hn Hb Hi [Hfc Hfb%fits_cons%fits_cons%fits_block]%fits_app.
  eapply reads_bind; [apply expr_fits; [done|done|unfold ends; cbn; lia]|]. eapply reads_bind; [by apply reads_limit|].
  eapply reads_bind; [by apply block_fits|]. reads_step.
Qed.

Lemma reads_while_stmt c n b :
  wf_expr c = true → positive_limit n = true → forallb (λ s, wf_stmt s) b = true → Forall readable_stmt b → readable_stmt (WhileStmt c n b).
Proof.
  intros Hc Hn Hb Hi fuel Hf r _. cbn [stmt_tokens] in *. fold (stmts_tokens b) in *. fuel_S fuel Hf. unfold parseStmt_step. cbn [app].
  rewrite <-app_assoc. cbn [app]. reads_step. unfold some_stmt. eapply reads_bind; [|reads_step]. unfold parseWhile. reads_step.
  by apply (reads_limited WhileStmt).
Qed.

Lemma reads_retry_stmt c n b :
  wf_expr c = true → positive_limit n = true → forallb (λ s, wf_stmt s) b = true → Forall readable_stmt b → readable_stmt (RetryStmt c n b).
Proof.
  intros Hc Hn Hb Hi fuel Hf r _. cbn [stmt_tokens] in *. fold (stmts_tokens b) in *. fuel_S fuel Hf. apply fits_cons in H. unfold parseStmt_step. cbn [app].
  rewrite <-app_assoc. cbn [app]. reads_step. reads_step. reads_step. reads_step.
  change (bool_decide (KindIdent = KindIdent)) with true. cbn [String.eqb Ascii.eqb Bool.eqb andb].
  unfold some_stmt. eapply reads_bind; [|reads_step]. unfold parseRetry. reads_step. reads_step.
  by apply (reads_limited RetryStmt).
Qed.

(** The tokens after the first block of a conditional. *)
Definition else_tokens (e : list stmt) : tokens :=
  match e with
  | [] => []
  | [IfStmt _ _ _ as elif] => (KindElse, "else") :: stmt_tokens elif
  | e => (KindElse, "else") :: block_tokens (stmts_tokens e)
  end.

Definition else_clause (rec : P (option stmt)) (fuel : nat) (c : expr) (t : list stmt) : P stmt :=
  k ← curK;
  if decide (k = KindElse) then
    advance ;; k ← curK;
    if decide (k = KindIf) then
      s ← rec; mret (IfStmt c t (match s with Some s => [s] | None => [] end))
    else els ← parseBlock rec fuel; mret (IfStmt c t els)
  else mret (IfStmt c t []).

Lemma reads_else c t e fuel r :
  forallb (λ s, wf_stmt s) e = true → Forall readable_stmt e → fits fuel (else_tokens e) → stops r →
  reads (else_clause (parseStmt fuel) fuel c t) (else_tokens e ++ r) (IfStmt c t e) r.
Proof.
  intros Hw Hi Hf (Hr & Helse & Heq). unfold else_clause.
  assert (fits fuel ((KindElse, "else") :: block_tokens (stmts_tokens e)) →
    reads (else_clause (parseStmt fuel) fuel c t) (((KindElse, "else") :: block_tokens (stmts_tokens e)) ++ r) (IfStmt c t e) r) as Hplain.
  { intros Hf'%fits_cons%fits_block. unfold else_clause. cbn [app]. reads_step. rewrite decide_True by done. reads_step. reads_step.
    rewrite decide_False by done. eapply reads_bind; [by apply block_fits|]. reads_step. }
  destruct e as [|s [|s' e]].
  - cbn [else_tokens app]. reads_step. rewrite decide_False by done. reads_step.
  - destruct s; try (apply Hplain; exact Hf). clear Hplain. apply Forall_cons in Hi as [Hi _]. cbn [else_tokens] in *. apply fits_cons in Hf.
    cbn [app]. reads_step. rewrite decide_True by done. reads_step. reads_step. rewrite decide_True by done.
    eapply reads_bind; [by apply Hi|]. reads_step.
  - destruct s; apply Hplain; exact Hf.
Qed.

Lemma reads_if_stmt c t e :
  wf_expr c = true → forallb (λ s, wf_stmt s) t = true → forallb (λ s, wf_stmt s) e = true →
  Forall readable_stmt t → Forall readable_stmt e → readable_stmt (IfStmt c t e).
Proof.
  intros Hc Ht He Hit Hie fuel Hf r Hr.
  change (stmt_tokens (IfStmt c t e)) with ((KindIf, "if") :: expr_tokens c ++ block_tokens (stmts_tokens t) ++ else_tokens e) in *.
  fuel_S fuel Hf. apply fits_app in H as [Hfc [Hft%fits_block Hfe]%fits_app]. unfold parseStmt_step. cbn [app]. rewrite <-!app_assoc. reads_step.
  unfold some_stmt. eapply reads_bind; [|reads_step]. unfold parseIf. reads_step.
  eapply reads_bind; [apply expr_fits; [done|done|apply block_stops]|]. eapply reads_bind; [by apply block_fits|].
  by apply reads_else.
Qed.

Lemma reads_parseStmt s : wf_stmt s = true → readable_stmt s.
Proof.
  induction s as [x v|x|bs|v|b d r p|c t e IHt IHe|x c b par IH|c n b IH|c n b IH] using stmt_nested_ind; intros Hw.
  - cbn [LangStmt.wf_stmt] in Hw. apply andb_true_iff in Hw as [? ?]. by apply reads_assign_stmt.
  - cbn [LangStmt.wf_stmt] in Hw. apply andb_true_iff in Hw as [? ?]. by apply reads_expr_stmt.
  - by apply reads_parallel_stmt.
  - by apply reads_return_stmt.
  - destruct b as [b|]; [|done]. by apply reads_approval_stmt.
  - cbn [LangStmt.wf_stmt] in Hw. apply andb_true_iff in Hw as [[? ?]%andb_true_iff ?]. apply reads_if_stmt; by try apply bodies_readable.
  - cbn [LangStmt.wf_stmt] in Hw. apply andb_true_iff in Hw as [[? ?]%andb_true_iff ?]. destruct x as [x|]; [|done].
    apply reads_for_stmt; by try apply bodies_readable.
  - cbn [LangStmt.wf_stmt] in Hw. apply andb_true_iff in Hw as [[? ?]%andb_true_iff ?]. apply reads_while_stmt; by try apply bodies_readable.
  - cbn [LangStmt.wf_stmt] in Hw. apply andb_true_iff in Hw as [[? ?]%andb_true_iff ?]. apply reads_retry_stmt; by try apply bodies_readable.
Qed.
End statements.
