(* ===== verification/LangWorkflow.v ===== *)
(** * Workflow declarations: print, lex, parse

    [wf_workflow] are the declarations the printer can write; [workflow_roundtrip]
    says that lexer and parser read such a declaration back from its printed text. *)

From S2P Require Import Prelude GoNum GoText Value JsonText JsonNum GoQuote LangLexer LangText LangBlock LangParser LangPrint LangExprText LangReads LangStmt LangStmtReads.

Local Open Scope nat_scope.

(** An effect is a dotted name that does not start with [tool]. *)
Definition effect_parts (e : string) : list string := split_byte "." e.
Definition wf_effect (e : string) : bool :=
  is_path (effect_parts e) && match effect_parts e with x :: _ => negb (x =? "tool")%string | [] => false end.
Definition wf_param (p : string * option string) : bool := is_ident p.1 && is_some_ident p.2.
Definition opt_ident (x : option string) : bool := match x with Some x => is_ident x | None => true end.

Definition wf_workflow (is_print : chars → bool) (w : WorkflowDecl) : bool :=
  is_some_ident (wd_Name w) && forallb wf_param (wd_Params w) && opt_ident (wd_Result w) &&
  match wd_Description w with Some d => wf_string is_print d | None => true end &&
  opt_ident (wd_Policy w) && forallb wf_effect (wd_Effects w) && forallb (λ s, wf_stmt is_print s) (wd_Body w).

(** ** Tokens *)

Definition param_tokens (p : string * option string) : tokens := [(KindIdent, p.1); punct KindColon; (KindIdent, typeName p.2)].
Definition effect_tokens (e : string) : tokens := dotted_tokens (effect_parts e).
Definition effects_tokens (es : list string) : tokens :=
  match es with [] => [] | _ => (KindIdent, "effects") :: block_tokens (sep_tokens (effect_tokens <$> es)) end.
Definition policy_tokens (p : option string) : tokens := match p with Some p => [(KindIdent, "policy"); (KindIdent, p)] | None => [] end.
Definition result_tokens (t : option string) : tokens := match t with Some t => [punct KindArrow; (KindIdent, t)] | None => [] end.

Definition workflow_tokens (w : WorkflowDecl) : tokens :=
  (KindWorkflow, "workflow") :: (KindIdent, identName (wd_Name w)) :: punct KindLParen :: sep_tokens (param_tokens <$> wd_Params w) ++
    punct KindRParen :: result_tokens (wd_Result w) ++ description_tokens (wd_Description w) ++ policy_tokens (wd_Policy w) ++
    effects_tokens (wd_Effects w) ++ block_tokens (stmts_tokens (wd_Body w)).

Lemma effect_name e : dottedName (effect_parts e) = e.
Proof. apply (join_split "."). Qed.

(** ** The printed text spells the tokens *)

Section lexing.
Context (is_print : chars → bool).
#[local] Abbreviation lexed := (lexed is_print).

Lemma lexed_param p t l : wf_param p = true → safe t → lexed t l →
  lexed ((let (x, y) := p in x +:+ (": " +:+ typeName y)) +:+ t) (param_tokens p ++ l).
Proof.
  destruct p as [x [y|]]; intros [Hx Hy]%andb_true_iff Hs Ht; [|done]. cbn [fst snd is_some_ident] in *. unfold param_tokens.
  change (typeName (snd (x, Some y))) with y. change (typeName (Some y)) with y.
  rewrite !string_app_assoc. cbn [app fst]. apply lexed_ident; [done|done|]. rewrite string_app_cons.
  apply (lexed_punct _ KindColon ":"); [in_puncts|by apply follows_any|]. rewrite string_app_cons, string_app_nil_l.
  apply lexed_space; [done|]. apply lexed_ident; [done|by apply safe_follows|done].
Qed.

Lemma lexed_effect e t l : wf_effect e = true → safe t → lexed t l → lexed (e +:+ t) (effect_tokens e ++ l).
Proof.
  intros [[Hne%negb_true_iff%bool_decide_eq_false Hp]%andb_true_iff _]%andb_true_iff Hs Ht. rewrite <-(effect_name e) at 1.
  apply lexed_dotted; [done|done|by apply safe_follows|done].
Qed.

Definition policy_text (p : option string) : list string := match p with Some p => ["policy " +:+ p] | None => [] end.
Definition effects_text (es : list string) : list string :=
  match es with [] => [] | es => ["effects { " +:+ (join ", " es +:+ " }")] end.

Lemma lexed_policy p t l : opt_ident (Some p) = true → safe t → lexed t l →
  lexed (("policy " +:+ p) +:+ t) (policy_tokens (Some p) ++ l).
Proof.
  intros Hp Hs Ht. rewrite string_app_assoc. cbn [policy_tokens app]. apply (lexed_ident _ "policy"); [done|done|]. apply lexed_space; [done|].
  apply lexed_ident; [done|by apply safe_follows|done].
Qed.

Lemma lexed_effects e es t l : forallb wf_effect (e :: es) = true → safe t → lexed t l →
  lexed (("effects { " +:+ (join ", " (e :: es) +:+ " }")) +:+ t) (effects_tokens (e :: es) ++ l).
Proof.
  intros He Hs Ht. rewrite !string_app_assoc. unfold effects_tokens. cbn [app]. rewrite block_tokens_app. cbn [app].
  apply (lexed_ident _ "effects"); [done|done|]. apply lexed_space; [done|].
  apply (lexed_punct _ KindLBrace "{"); [in_puncts|by apply follows_any|]. apply lexed_space; [done|].
  rewrite <-(list_fmap_id (e :: es)) at 1. apply (lexed_items _ (λ x, x) effect_tokens).
  - apply Forall_forall. intros x Hin t' l'. apply lexed_effect. rewrite forallb_forall in He. by apply He, list_elem_of_In.
  - by left.
  - rewrite string_app_cons. apply lexed_space; [done|]. apply (lexed_punct _ KindRBrace "}"); [in_puncts|by apply follows_any|done].
Qed.

(** A clause at the end of a line, or on a line of its own. *)
Definition clause_line (inline : bool) (c : string) : string := if inline then " " +:+ c else field_line (spaces 4) c.

Lemma lexed_clause inline c T t l :
  (∀ t l, safe t → lexed t l → lexed (c +:+ t) (T ++ l)) → (inline = true → safe t) → lexed t l → lexed (clause_line inline c +:+ t) (T ++ l).
Proof.
  intros Hc Hs Ht. destruct inline; cbn [clause_line].
  - rewrite string_app_assoc, string_app_cons, string_app_nil_l. apply lexed_space; [done|]. apply Hc; [by apply Hs|done].
  - by apply lexed_line.
Qed.

Lemma lexed_clauses inline p es t l :
  opt_ident p = true → forallb wf_effect es = true → (inline = true → safe t) → lexed t l →
  lexed (foldr (λ c acc, clause_line inline c +:+ acc) t (policy_text p ++ effects_text es)) (policy_tokens p ++ effects_tokens es ++ l).
Proof.
  intros Hp He Hs Ht.
  assert (lexed (foldr (λ c acc, clause_line inline c +:+ acc) t (effects_text es)) (effects_tokens es ++ l)) as Hes.
  { destruct es as [|e es]; [done|]. cbn [effects_text foldr]. apply lexed_clause; [|done..]. intros t' l'. by apply lexed_effects. }
  destruct p as [p|]; [|done]. cbn [policy_text app foldr]. apply lexed_clause; [|intros Hi|done].
  - intros t' l'. by apply (lexed_policy p).
  - destruct es as [|e es]; [by apply Hs|]. rewrite Hi. by left.
Qed.

Lemma foldr_clauses inline cs t :
  foldr (λ c acc, clause_line inline c +:+ acc) t cs = foldr (λ c acc, clause_line inline c +:+ acc) "" cs +:+ t.
Proof. induction cs as [|c cs IH]; [done|]. cbn [foldr]. by rewrite IH, string_app_assoc. Qed.

(** The header after the parameters. *)
Definition clauses_text (desc policy : option string) (effs : list string) : string :=
  match desc with
  | Some d =>
      nl +:+ (printStringField is_print 4 "description" d +:+
        (foldr (λ c acc, field_line (spaces 4) c +:+ acc) "" (policy_text policy ++ effects_text effs) +:+ ("{" +:+ nl)))
  | None => foldr (λ c acc, " " +:+ (c +:+ acc)) "" (policy_text policy ++ effects_text effs) +:+ (" {" +:+ nl)
  end.

Lemma clauses_safe desc policy effs t : safe (clauses_text desc policy effs +:+ t).
Proof.
  destruct desc as [d|].
  - change (safe (String newline (printStringField is_print 4 "description" d +:+ (foldr (λ c acc, field_line (spaces 4) c +:+ acc) "" (policy_text policy ++ effects_text effs) +:+ ("{" +:+ nl)) +:+ t))). right; by left.
  - by destruct policy, effs; left.
Qed.

Lemma lexed_open_line t l : lexed t l → lexed (("{" +:+ nl) +:+ t) (punct KindLBrace :: l).
Proof. intros Ht. rewrite string_app_assoc. apply (lexed_punct _ KindLBrace "{"); [in_puncts|by apply follows_any|]. by apply lexed_nl. Qed.

Lemma lexed_header desc policy effs t l :
  match desc with Some d => wf_string is_print d | None => true end = true → opt_ident policy = true → forallb wf_effect effs = true →
  lexed t l →
  lexed (clauses_text desc policy effs +:+ t)
    (description_tokens desc ++ policy_tokens policy ++ effects_tokens effs ++ punct KindLBrace :: l).
Proof.
  intros Hd Hp He Ht. destruct desc as [d|]; unfold clauses_text.
  - rewrite !string_app_assoc. apply lexed_nl. apply lexed_string_field; [done|lia|done|].
    change (foldr _ "" ?cs) with (foldr (λ c acc, clause_line false c +:+ acc) "" cs). rewrite <-(foldr_clauses false).
    apply lexed_clauses; [done|done|done|]. rewrite <-string_app_assoc. by apply lexed_open_line.
  - rewrite string_app_assoc.
    change (foldr _ "" ?cs) with (foldr (λ c acc, clause_line true c +:+ acc) "" cs). rewrite <-(foldr_clauses true).
    apply lexed_clauses; [done|done|intros _; by left|]. rewrite string_app_assoc, string_app_cons. apply lexed_space; [done|].
    rewrite <-string_app_assoc. by apply lexed_open_line.
Qed.

Definition result_text (t : option string) : string := match t with Some t => " -> " +:+ t | None => "" end.
Lemma lexed_result r t l : opt_ident r = true → safe t → lexed t l → lexed (result_text r +:+ t) (result_tokens r ++ l).
Proof.
  intros Hr Hs Ht. destruct r as [r|]; [|done]. cbn [result_text result_tokens app]. rewrite string_app_assoc. apply lexed_space; [done|].
  apply (lexed_punct _ KindArrow "->"); [in_puncts|by apply follows_any|]. apply lexed_space; [done|].
  apply lexed_ident; [done|by apply safe_follows|done].
Qed.

Lemma printWorkflow_text name params result desc policy effs body :
  printWorkflow is_print (mkWorkflowDecl (Some name) params result desc policy effs body) =
  "workflow " +:+ (name +:+ ("(" +:+ (join ", " ((λ p : string * option string, let (x, y) := p in x +:+ (": " +:+ typeName y)) <$> params) +:+
    (")" +:+ (result_text result +:+ (clauses_text desc policy effs +:+ (printBlock is_print 1 body +:+ ("}" +:+ nl)))))))).
Proof. by destruct desc, policy, effs. Qed.

Lemma lexed_workflow w :
  wf_workflow is_print w = true → lexed (printWorkflow is_print w) (workflow_tokens w).
Proof.
  destruct w as [name params result desc policy effs body]. unfold wf_workflow.
  cbn [wd_Name wd_Params wd_Result wd_Description wd_Policy wd_Effects wd_Body].
  intros [[[[[[Hn Hps]%andb_true_iff Hr]%andb_true_iff Hd]%andb_true_iff Hpol]%andb_true_iff He]%andb_true_iff Hb]%andb_true_iff.
  destruct name as [name|]; [|done]. cbn [is_some_ident] in Hn.
  assert (lexed (printBlock is_print 1 body +:+ ("}" +:+ nl)) (stmts_tokens body ++ [punct KindRBrace])) as Hbody.
  { apply lexed_block.
    - apply (bodies_ok is_print); [|done]. apply Forall_forall. intros s _. apply lexed_stmt.
    - apply (lexed_punct _ KindRBrace "}"); [in_puncts|done|]. apply lexed_nl, lexed_nil. }
  rewrite printWorkflow_text.
  unfold workflow_tokens, block_tokens. cbn [wd_Name wd_Params wd_Result wd_Description wd_Policy wd_Effects wd_Body].
  change (identName (Some name)) with name.
  apply (lexed_word _ "workflow" KindWorkflow); [done|done|done|]. apply lexed_space; [done|]. apply lexed_ident; [done|done|].
  apply (lexed_punct _ KindLParen "("); [in_puncts|by apply follows_any|].
  apply (lexed_items _ _ param_tokens).
  - apply Forall_forall. intros p Hin t l. apply lexed_param. rewrite forallb_forall in Hps. by apply Hps, list_elem_of_In.
  - right; right; by left.
  - apply (lexed_punct _ KindRParen ")"); [in_puncts|by apply follows_any|]. apply lexed_result; [done|apply clauses_safe|].
    by apply lexed_header.
Qed.
End lexing.

(** ** The parser reads the tokens *)

Lemma reads_params_loop ps : ∀ fuel r,
  forallb wf_param ps = true → length ps < fuel →
  reads (params_loop fuel) (sep_tokens (param_tokens <$> ps) ++ punct KindRParen :: r) ps (punct KindRParen :: r).
Proof.
  induction ps as [|[x t] ps IH]; intros [|fuel] r Hw Hf; try (cbn in Hf; lia); cbn [params_loop].
  - reads_step. change (ends_list _) with true. reads_step.
  - cbn [forallb] in Hw. apply andb_true_iff in Hw as [[Hx Ht]%andb_true_iff Hw]. destruct t as [t|]; [|done].
    rewrite fmap_cons. destruct ps as [|p ps].
    + cbn [fmap list_fmap sep_tokens param_tokens app fst snd]. reads_step. change (ends_list KindIdent) with false. cbv iota. reads_step.
      eapply reads_bind; [apply reads_expect|]. reads_step. reads_step. rewrite decide_False by done. reads_step.
    + rewrite fmap_cons, sep_tokens_cons, <-fmap_cons, <-app_assoc. cbn [param_tokens app fst snd]. reads_step.
      change (ends_list KindIdent) with false. cbv iota. reads_step. eapply reads_bind; [apply reads_expect|]. reads_step. reads_step.
      rewrite decide_True by done. reads_step. eapply reads_bind; [apply IH; [done|cbn in *; lia]|]. reads_step.
Qed.

Lemma reads_params ps fuel r :
  forallb wf_param ps = true → length ps < fuel →
  reads (parseParams fuel) (punct KindLParen :: sep_tokens (param_tokens <$> ps) ++ punct KindRParen :: r) ps r.
Proof.
  intros Hw Hf. unfold parseParams. eapply reads_bind; [apply reads_expect|]. eapply reads_bind; [by apply reads_params_loop|].
  eapply reads_bind; [apply reads_expect|]. reads_step.
Qed.

Lemma reads_effect e fuel r :
  wf_effect e = true → length (effect_tokens e) ≤ fuel → head_kind r ≠ KindDot →
  reads (parseEffectRef fuel) (effect_tokens e ++ r) e r.
Proof.
  intros [Hp Ht]%andb_true_iff Hf Hr. unfold parseEffectRef. apply reads_cur. intros p. cbv zeta.
  pose proof (dotted_length (effect_parts e)) as Hl. unfold effect_tokens in *.
  eapply reads_bind; [apply reads_dotted; [by apply path_ne|lia|done]|]. rewrite effect_name.
  destruct (effect_parts e) as [|x parts]; [done|]. apply negb_true_iff in Ht. rewrite Ht. eapply reads_bind; [apply reads_ret|]. reads_step.
Qed.

Lemma reads_effects_loop fuel es : ∀ fuel' r,
  forallb wf_effect es = true → Forall (λ e, length (effect_tokens e) ≤ fuel) es → length es < fuel' →
  reads (effects_loop fuel' fuel) (sep_tokens (effect_tokens <$> es) ++ punct KindRBrace :: r) es (punct KindRBrace :: r).
Proof.
  induction es as [|e es IH]; intros [|fuel'] r Hw Hl Hf; try (cbn in Hf; lia); cbn [effects_loop].
  - reads_step. change (ends_block _) with true. reads_step.
  - cbn [forallb] in Hw. apply andb_true_iff in Hw as [He Hw]. apply Forall_cons in Hl as [Hn Hl].
    assert (∃ x l, effect_tokens e = (KindIdent, x) :: l) as (x & l & E).
    { apply dotted_head. apply andb_true_iff in He as [Hp _]. by apply path_ne. }
    assert (∀ l, head_kind (effect_tokens e ++ l) = KindIdent) as Hh by (intros; by rewrite E).
    rewrite fmap_cons. destruct es as [|e' es].
    + cbn [fmap list_fmap sep_tokens]. reads_step. rewrite Hh. change (ends_block KindIdent) with false. cbv iota. rewrite decide_False by (intros H; by apply H).
      eapply reads_bind; [by apply reads_effect|]. reads_step. rewrite decide_False by done. eapply reads_bind; [apply reads_ret|].
      destruct fuel' as [|fuel']; [cbn in Hf; lia|]. eapply reads_bind; [apply (IH (S fuel') r); [done|done|cbn; lia]|]. reads_step.
    + rewrite fmap_cons, sep_tokens_cons, <-fmap_cons, <-app_assoc. reads_step. rewrite Hh. change (ends_block KindIdent) with false. cbv iota. rewrite decide_False by (intros H; by apply H).
      eapply reads_bind; [by apply reads_effect|]. cbn [app]. reads_step. rewrite decide_True by done. reads_step.
      eapply reads_bind; [apply IH; [done|done|cbn in *; lia]|]. reads_step.
Qed.

Lemma reads_effects e es fuel r :
  forallb wf_effect (e :: es) = true → length (effects_tokens (e :: es)) ≤ fuel →
  reads (parseEffects fuel) (block_tokens (sep_tokens (effect_tokens <$> e :: es)) ++ r) (e :: es) r.
Proof.
  intros Hw Hf. unfold effects_tokens in Hf. cbn [length] in Hf. rewrite block_length in Hf. rewrite block_tokens_app. unfold parseEffects. cbn [app].
  eapply reads_bind; [apply reads_expect|].
  assert (Forall (λ e, effect_tokens e ≠ []) (e :: es)) as Hne.
  { apply Forall_forall. intros x Hin. rewrite forallb_forall in Hw. apply list_elem_of_In, Hw in Hin. apply andb_true_iff in Hin as [Hp _].
    unfold effect_tokens. by destruct (dotted_head (effect_parts x) (path_ne _ Hp)) as (? & ? & ->). }
  eapply reads_bind; [apply reads_effects_loop; [done| |]|].
  - apply Forall_forall. intros x Hin. pose proof (sep_member effect_tokens _ _ Hin). lia.
  - pose proof (sep_length effect_tokens (e :: es) Hne). lia.
  - eapply reads_bind; [apply reads_expect|]. reads_step.
Qed.

(** The clauses of the header, in the printed order. *)
Lemma reads_header_end f fuel c r : reads (header_loop (S f) fuel c) (punct KindLBrace :: r) c (punct KindLBrace :: r).
Proof. cbn [header_loop]. reads_step. reads_step. reads_step. change (bool_decide (KindLBrace = KindIdent)) with false. cbn [andb]. reads_step. Qed.

Lemma reads_header_effects f fuel d p es r :
  forallb wf_effect es = true → length (effects_tokens es) ≤ fuel →
  reads (header_loop (S (S f)) fuel (mkClauses d p [])) (effects_tokens es ++ punct KindLBrace :: r) (mkClauses d p es) (punct KindLBrace :: r).
Proof.
  intros Hw Hf. destruct es as [|e es]; [apply reads_header_end|]. unfold effects_tokens. cbn [app]. cbn [header_loop]. reads_step. reads_step. reads_step.
  change (bool_decide (KindIdent = KindIdent)) with true. cbn [String.eqb Ascii.eqb Bool.eqb andb cl_Effects]. rewrite bool_decide_eq_true_2 by done.
  reads_step. eapply reads_bind; [by apply reads_effects|]. apply reads_header_end.
Qed.

Lemma reads_header_policy f fuel d p es r r' :
  reads (header_loop f fuel (mkClauses d p [])) r (mkClauses d p es) r' →
  (p = None → reads (header_loop (S f) fuel (mkClauses d p [])) r (mkClauses d p es) r') →
  reads (header_loop (S f) fuel (mkClauses d None [])) (policy_tokens p ++ r) (mkClauses d p es) r'.
Proof.
  intros Hk Hk'. destruct p as [p|]; [|by apply Hk']. cbn [policy_tokens app header_loop]. reads_step. reads_step. reads_step.
  change (bool_decide (KindIdent = KindIdent)) with true. cbn [String.eqb Ascii.eqb Bool.eqb andb cl_Policy]. rewrite bool_decide_eq_true_2 by done.
  reads_step. reads_step. exact Hk.
Qed.

Lemma reads_header_description f fuel d p es r r' :
  reads (header_loop f fuel (mkClauses d None [])) r (mkClauses d p es) r' →
  (d = None → reads (header_loop (S f) fuel (mkClauses d None [])) r (mkClauses d p es) r') →
  reads (header_loop (S f) fuel (mkClauses None None [])) (description_tokens d ++ r) (mkClauses d p es) r'.
Proof.
  intros Hk Hk'. destruct d as [d|]; [|by apply Hk']. cbn [description_tokens app header_loop]. reads_step. reads_step. reads_step.
  change (bool_decide (KindIdent = KindIdent)) with true. cbn [String.eqb Ascii.eqb Bool.eqb andb cl_Description]. rewrite bool_decide_eq_true_2 by done.
  reads_step. reads_step. exact Hk.
Qed.

Lemma reads_header f fuel d p es r :
  forallb wf_effect es = true → length (effects_tokens es) ≤ fuel →
  reads (header_loop (S (S (S (S f)))) fuel (mkClauses None None []))
    (description_tokens d ++ policy_tokens p ++ effects_tokens es ++ punct KindLBrace :: r) (mkClauses d p es) (punct KindLBrace :: r).
Proof.
  intros Hw Hf.
  apply reads_header_description; [|intros _]; (apply reads_header_policy; [|intros _]); by apply reads_header_effects.
Qed.

Lemma reads_result {A} r l (k : option string → P A) b r' :
  head_kind l ≠ KindArrow → reads (k r) l b r' →
  reads (c ← curK; result ← (if decide (c = KindArrow) then advance ;; parseTypeRef else mret None); k result) (result_tokens r ++ l) b r'.
Proof.
  intros Hl Hk. destruct r as [r|]; cbn [result_tokens app]; reads_step.
  - rewrite decide_True by done. eapply reads_bind; [reads_step; apply reads_ident|]. exact Hk.
  - rewrite decide_False by done. eapply reads_bind; [apply reads_ret|]. exact Hk.
Qed.

Lemma header_no_arrow d p es r :
  head_kind (description_tokens d ++ policy_tokens p ++ effects_tokens es ++ punct KindLBrace :: r) ≠ KindArrow.
Proof. by destruct d, p, es. Qed.

Lemma reads_parseWorkflow is_print w n r :
  wf_workflow is_print w = true → length (workflow_tokens w) + 3 ≤ n →
  reads (parseWorkflow n) (workflow_tokens w ++ r) w r.
Proof.
  destruct w as [name params result desc policy effs body]. unfold wf_workflow.
  cbn [wd_Name wd_Params wd_Result wd_Description wd_Policy wd_Effects wd_Body].
  intros [[[[[[Hn Hps]%andb_true_iff Hr]%andb_true_iff Hd]%andb_true_iff Hpol]%andb_true_iff He]%andb_true_iff Hb]%andb_true_iff Hf.
  destruct name as [name|]; [|done]. unfold workflow_tokens in *.
  cbn [wd_Name wd_Params wd_Result wd_Description wd_Policy wd_Effects wd_Body length] in *. change (identName (Some name)) with name in *.
  rewrite length_app in Hf. cbn [length] in Hf. rewrite !length_app, block_length in Hf.
  unfold parseWorkflow. cbn [app]. reads_step. reads_step. rewrite <-app_assoc. cbn [app].
  eapply reads_bind; [apply reads_params; [done|]|].
  { pose proof (sep_length param_tokens params). assert (length params ≤ length (sep_tokens (param_tokens <$> params))); [|lia].
    by apply sep_length, Forall_forall. }
  rewrite <-!app_assoc. apply reads_result.
  { rewrite block_tokens_app. apply header_no_arrow. }
  rewrite block_tokens_app. destruct n as [|[|[|[|n]]]]; try lia.
  eapply reads_bind; [apply reads_header; [done|lia]|]. cbn [cl_Description cl_Policy cl_Effects].
  change (punct KindLBrace :: ?l ++ punct KindRBrace :: ?r) with ([punct KindLBrace] ++ l ++ punct KindRBrace :: r).
  rewrite <-block_tokens_app. eapply reads_bind; [apply (block_fits is_print); [done| |unfold fits; lia]|reads_step].
  apply (bodies_readable is_print); [|done]. apply Forall_forall. intros s _ Hw. by apply (reads_parseStmt is_print).
Qed.

(** ** The round trip *)

(** C16: printing and reading a workflow: the text [printWorkflow] writes for a well-formed
    declaration lexes without a diagnostic, and from its tokens [parseWorkflow],
    with any fuel of at least the number of tokens and three, returns that
    declaration, with no token left and no diagnostic. *)
Theorem workflow_roundtrip is_print w :
  wf_workflow is_print w = true →
  ∃ ts l, Lex (printWorkflow is_print w) = (ts, l) ∧ lx_diags l = [] ∧
    ∀ n eof, length ts + 3 ≤ n →
      ∃ s, parseWorkflow n (mkPst ts eof []) = Some (w, s) ∧ ps_toks s = [] ∧ ps_diags s = [].
Proof.
  intros Hw. destruct (Lex_lexed is_print _ _ (lexed_workflow is_print w Hw)) as (ts & l & El & Ets & Hl).
  exists ts, l. split; [done|]. split; [done|]. intros n eof Hn.
  pose proof (reads_parseWorkflow is_print w n [] Hw) as Hr. rewrite app_nil_r, <-Ets, length_fmap in Hr.
  destruct (Hr Hn (mkPst ts eof [])) as (s & E & Hs & Hd); [done|].
  exists s. split; [done|]. split; [by apply fmap_nil_inv in Hs|done].
Qed.

(** A workflow with a clause and a statement of each kind. *)
Definition example_workflow : WorkflowDecl :=
  mkWorkflowDecl (Some "triage") [("issue", Some "Issue"); ("limit2", Some "int")] (Some "Report") (Some ("Sort issues." +:+ String newline "And report."))
    (Some "strict") ["github.issues.read"; "slack"]
    [ AssignStmt "x" (CallExpr ["tools"; "classify"] [(None, RefExpr ["issue"; "title"]); (Some "depth", LitExpr (VInt 3))]);
      IfStmt (BinaryExpr KindAndAnd (BinaryExpr KindGte (RefExpr ["x"; "score"]) (LitExpr (VInt 2))) (UnaryExpr (BinaryExpr KindOrOr (RefExpr ["a"]) (RefExpr ["b"]))))
        [ExprStmt (CallExpr ["notify"] [])]
        [IfStmt (RefExpr ["c"]) [ReturnStmt (LitExpr (VStr "no"))] [ReturnStmt (ObjectExpr [("k", LitExpr (VBool true))])]];
      ApprovalStmt (Some "go") (Some "Proceed?") ["token"; "key"] [(Some "x", RefExpr ["x"])];
      ParallelStmt [("p", CallExpr ["f"] []); ("q", CallExpr ["g"] [])];
      ForStmt (Some "i") (RefExpr ["x"; "items"]) [ExprStmt (CallExpr ["h"] [(None, RefExpr ["i"])])] true;
      WhileStmt (RefExpr ["p"]) 5 [AssignStmt "p" (CallExpr ["f"] [])];
      RetryStmt (RefExpr ["q"]) 3 [AssignStmt "q" (CallExpr ["g"] [])];
      ReturnStmt (RefExpr ["x"]) ].

Lemma workflow_roundtrip_witness :
  wf_workflow (λ _, false) example_workflow = true ∧
  ∃ ts l, Lex (printWorkflow (λ _, false) example_workflow) = (ts, l) ∧ lx_diags l = [] ∧
    ∀ n eof, length ts + 3 ≤ n →
      ∃ s, parseWorkflow n (mkPst ts eof []) = Some (example_workflow, s) ∧ ps_toks s = [] ∧ ps_diags s = [].
Proof.
  assert (wf_workflow (λ _, false) example_workflow = true) as H by (vm_compute; reflexivity).
  split; [exact H|]. apply workflow_roundtrip. exact H.
Defined.

Example example_text :
  parseWorkflow 400 (mkPst (Lex (printWorkflow (λ _, false) example_workflow)).1 (mkPos 0 0) []) = Some (example_workflow, mkPst [] (mkPos 0 0) []).
Proof. vm_compute. reflexivity. Qed.
