(* ===== verification/LangAgent.v ===== *)
(** * Agent declarations ([internal/lang/ast.go], [parser.go], [printer.go])

    The tree of an [agent] block, [parseAgent] with its sub-blocks, and
    [printAgent]. *)

From S2P Require Import Prelude GoNum GoText Value JsonNum GoQuote LangLexer LangText LangBlock LangParser LangPrint.

Local Open Scope nat_scope.

Record ModelRef := mkModelRef { mr_Provider : string; mr_Name : string; mr_Raw : string }.

Record Constraints := mkConstraints {
  ct_MaxIterations : option Z;
  ct_MaxTokens : option Z;
  ct_TimeoutSeconds : option Z;
  ct_Temperature : option f64;
  ct_RequireStructuredOutput : option bool;
}.

Record Grant := mkGrant { gr_Name : option string; gr_Operation : list string; gr_Segments : list string }.

(** The path of [instructions file("path")], nil when it is missing, is the inner
    option. *)
Record AgentDecl := mkAgentDecl {
  ad_Name : option string;
  ad_Model : option ModelRef;
  ad_Policy : option string;
  ad_Description : option string;
  ad_Instructions : option string;
  ad_InstructionsFile : option (option string);
  ad_Constraints : option Constraints;
  ad_Grants : list Grant;
  ad_Input : option string;
  ad_Output : option string;
}.

Definition no_constraints : Constraints := mkConstraints None None None None None.
Definition empty_agent (name : option string) : AgentDecl := mkAgentDecl name None None None None None None [] None None.

(** Assignments to a field. *)
Definition set_MaxIterations v c := mkConstraints v (ct_MaxTokens c) (ct_TimeoutSeconds c) (ct_Temperature c) (ct_RequireStructuredOutput c).
Definition set_MaxTokens v c := mkConstraints (ct_MaxIterations c) v (ct_TimeoutSeconds c) (ct_Temperature c) (ct_RequireStructuredOutput c).
Definition set_TimeoutSeconds v c := mkConstraints (ct_MaxIterations c) (ct_MaxTokens c) v (ct_Temperature c) (ct_RequireStructuredOutput c).
Definition set_Temperature v c := mkConstraints (ct_MaxIterations c) (ct_MaxTokens c) (ct_TimeoutSeconds c) v (ct_RequireStructuredOutput c).
Definition set_RequireStructuredOutput v c := mkConstraints (ct_MaxIterations c) (ct_MaxTokens c) (ct_TimeoutSeconds c) (ct_Temperature c) v.

Definition set_Model v d := mkAgentDecl (ad_Name d) v (ad_Policy d) (ad_Description d) (ad_Instructions d) (ad_InstructionsFile d) (ad_Constraints d) (ad_Grants d) (ad_Input d) (ad_Output d).
Definition set_Policy v d := mkAgentDecl (ad_Name d) (ad_Model d) v (ad_Description d) (ad_Instructions d) (ad_InstructionsFile d) (ad_Constraints d) (ad_Grants d) (ad_Input d) (ad_Output d).
Definition set_Description v d := mkAgentDecl (ad_Name d) (ad_Model d) (ad_Policy d) v (ad_Instructions d) (ad_InstructionsFile d) (ad_Constraints d) (ad_Grants d) (ad_Input d) (ad_Output d).
Definition set_Instructions v d := mkAgentDecl (ad_Name d) (ad_Model d) (ad_Policy d) (ad_Description d) v (ad_InstructionsFile d) (ad_Constraints d) (ad_Grants d) (ad_Input d) (ad_Output d).
Definition set_InstructionsFile v d := mkAgentDecl (ad_Name d) (ad_Model d) (ad_Policy d) (ad_Description d) (ad_Instructions d) v (ad_Constraints d) (ad_Grants d) (ad_Input d) (ad_Output d).
Definition set_Constraints v d := mkAgentDecl (ad_Name d) (ad_Model d) (ad_Policy d) (ad_Description d) (ad_Instructions d) (ad_InstructionsFile d) v (ad_Grants d) (ad_Input d) (ad_Output d).
Definition set_Grants v d := mkAgentDecl (ad_Name d) (ad_Model d) (ad_Policy d) (ad_Description d) (ad_Instructions d) (ad_InstructionsFile d) (ad_Constraints d) v (ad_Input d) (ad_Output d).
Definition set_Input v d := mkAgentDecl (ad_Name d) (ad_Model d) (ad_Policy d) (ad_Description d) (ad_Instructions d) (ad_InstructionsFile d) (ad_Constraints d) (ad_Grants d) v (ad_Output d).
Definition set_Output v d := mkAgentDecl (ad_Name d) (ad_Model d) (ad_Policy d) (ad_Description d) (ad_Instructions d) (ad_InstructionsFile d) (ad_Constraints d) (ad_Grants d) (ad_Input d) v.

(** ** Parsing *)

Definition parseModelRef : P (option ModelRef) :=
  k ← curK;
  if decide (k ≠ KindIdent) then error_here ;; mret None
  else
    provider ← curLit; advance ;; ok ← expect KindSlash;
    if ok : bool then
      k ← curK;
      if decide (k ≠ KindIdent) then error_here ;; mret (Some (mkModelRef provider "" (provider +:+ "/")))
      else name ← curLit; advance ;; mret (Some (mkModelRef provider name (provider +:+ ("/" +:+ name))))
    else mret (Some (mkModelRef provider "" provider)).

Definition parseFileRef : P (option string) :=
  advance ;; ok ← expect KindLParen;
  if ok : bool then path ← parseStringLit; expect KindRParen ;; mret path else mret None.

(** A value of a constraint; [None] after a diagnostic. *)
Definition constraintInt : P (option Z) :=
  k ← curK; lit ← curLit;
  if bool_decide (k ≠ KindNumber) || str_contains_byte "." lit then error_here ;; syncLine ;; mret None
  else
    match atoi lit with
    | Some n => if (n <=? 0)%Z then error_here ;; advance ;; mret None else advance ;; mret (Some n)
    | None => error_here ;; advance ;; mret None
    end.
Definition constraintFloat : P (option f64) :=
  k ← curK; lit ← curLit;
  if decide (k ≠ KindNumber) then error_here ;; syncLine ;; mret None
  else match number_value lit with
       | Ok f => advance ;; mret (Some f)
       | Err _ => error_here ;; advance ;; mret None
       end.
Definition constraintBool : P (option bool) :=
  k ← curK; lit ← curLit;
  if bool_decide (k = KindIdent) && ((lit =? "true") || (lit =? "false"))%string then advance ;; mret (Some (lit =? "true")%string)
  else error_here ;; syncLine ;; mret None.

(** [if v, ok := ...; ok { c.F = &v }]. *)
Definition assign {V S : Type} (set : option V → S → S) (v : option V) (s : S) : S :=
  match v with Some v => set (Some v) s | None => s end.

Fixpoint constraints_loop (fuel : nat) (seen : list string) (c : Constraints) : P Constraints :=
  match fuel with
  | O => stuck
  | S fuel =>
      tok ← cur;
      if ends_block (tk_Kind tok) then mret c
      else if decide (tk_Kind tok ≠ KindIdent) then error_here ;; syncLine ;; constraints_loop fuel seen c
      else
        let field := tk_Lit tok in
        advance ;;
        (if str_mem field seen then errorf (tk_Pos tok) else mret ()) ;;
        let loop := constraints_loop fuel (field :: seen) in
        if (field =? "maxIterations")%string then v ← constraintInt; loop (assign set_MaxIterations v c)
        else if (field =? "maxTokens")%string then v ← constraintInt; loop (assign set_MaxTokens v c)
        else if (field =? "timeoutSeconds")%string then v ← constraintInt; loop (assign set_TimeoutSeconds v c)
        else if (field =? "temperature")%string then v ← constraintFloat; loop (assign set_Temperature v c)
        else if (field =? "requireStructuredOutput")%string then v ← constraintBool; loop (assign set_RequireStructuredOutput v c)
        else errorf (tk_Pos tok) ;; syncLine ;; loop c
  end.
Definition parseConstraints (fuel : nat) : P Constraints :=
  ok ← expect KindLBrace;
  if ok : bool then c ← constraints_loop fuel [] no_constraints; expect KindRBrace ;; mret c else mret no_constraints.

(** A grant is [tool.<name>.<operation>]. *)
Definition parseGrant (fuel : nat) : P Grant :=
  tok ← cur; parts ← parseDottedPath fuel;
  match parts with
  | [] => mret (mkGrant None [] [])
  | first :: rest =>
      if negb (first =? "tool")%string then errorf (tk_Pos tok) ;; mret (mkGrant None [] parts)
      else match rest with
           | name :: (_ :: _) as op => mret (mkGrant (Some name) (tail rest) parts)
           | _ => errorf (tk_Pos tok) ;; mret (mkGrant None [] parts)
           end
  end.

Fixpoint grants_loop (fuel' fuel : nat) : P (list Grant) :=
  match fuel' with
  | O => stuck
  | S fuel' =>
      k ← curK;
      if ends_block k then mret []
      else if decide (k ≠ KindIdent) then error_here ;; syncLine ;; grants_loop fuel' fuel
      else
        g ← parseGrant fuel; k ← curK;
        (if decide (k = KindComma) then advance else mret ()) ;;
        rest ← grants_loop fuel' fuel; mret (g :: rest)
  end.
Definition parseGrants (fuel : nat) : P (list Grant) :=
  ok ← expect KindLBrace;
  if ok : bool then grants ← grants_loop fuel fuel; expect KindRBrace ;; mret grants else mret [].

(** The fields of an agent body.  A field is set at its first occurrence; [once] is
    [dup] and the assignment it guards. *)
Fixpoint agent_loop (fuel' fuel : nat) (seen : list string) (d : AgentDecl) : P AgentDecl :=
  match fuel' with
  | O => stuck
  | S fuel' =>
      tok ← cur;
      if ends_block (tk_Kind tok) then mret d
      else if decide (tk_Kind tok ≠ KindIdent) then error_here ;; syncLine ;; agent_loop fuel' fuel seen d
      else
        let field := tk_Lit tok in
        let once (set : AgentDecl → AgentDecl) :=
          if str_mem field seen then errorf (tk_Pos tok) ;; agent_loop fuel' fuel seen d
          else agent_loop fuel' fuel (field :: seen) (set d) in
        if (field =? "model")%string then advance ;; m ← parseModelRef; once (set_Model m)
        else if (field =? "policy")%string then advance ;; x ← ident; once (set_Policy x)
        else if (field =? "description")%string then advance ;; s ← parseStringLit; once (set_Description s)
        else if (field =? "instructions")%string then
          advance ;; file ← at_word "file";
          if file : bool then f ← parseFileRef; once (set_InstructionsFile (Some f))
          else s ← parseStringLit; once (set_Instructions s)
        else if (field =? "constraints")%string then advance ;; c ← parseConstraints fuel; once (set_Constraints (Some c))
        else if (field =? "grants")%string then advance ;; g ← parseGrants fuel; once (set_Grants g)
        else if (field =? "input")%string then advance ;; t ← parseTypeRef; once (set_Input t)
        else if (field =? "output")%string then advance ;; t ← parseTypeRef; once (set_Output t)
        else errorf (tk_Pos tok) ;; syncLine ;; agent_loop fuel' fuel seen d
  end.

Definition parseAgent (fuel : nat) : P AgentDecl :=
  advance ;; name ← ident; ok ← expect KindLBrace;
  if ok : bool then d ← agent_loop fuel fuel [] (empty_agent name); expect KindRBrace ;; mret d else mret (empty_agent name).

(** ** Printing *)

Section print.
Context (is_print : chars → bool).

Definition opt_line (n : nat) (text : option string) : string :=
  match text with Some t => field_line (spaces n) t | None => "" end.

Definition printConstraints (c : Constraints) : string :=
  spaces 4 +:+ ("constraints {" +:+ (nl +:+
  (opt_line 8 ((λ n, "maxIterations " +:+ fmt_Z n) <$> ct_MaxIterations c) +:+
  (opt_line 8 ((λ n, "maxTokens " +:+ fmt_Z n) <$> ct_MaxTokens c) +:+
  (opt_line 8 ((λ n, "timeoutSeconds " +:+ fmt_Z n) <$> ct_TimeoutSeconds c) +:+
  (opt_line 8 ((λ f, "temperature " +:+ format_float_g f) <$> ct_Temperature c) +:+
  (opt_line 8 ((λ b, "requireStructuredOutput " +:+ fmt_bool b) <$> ct_RequireStructuredOutput c) +:+
  field_line (spaces 4) "}"))))))).

Definition opt_text {A} (f : A → string) (x : option A) : string := match x with Some x => f x | None => "" end.

Definition printAgent (a : AgentDecl) : string :=
  field_line "" ("agent " +:+ (identName (ad_Name a) +:+ " {")) +:+
  (opt_line 4 ((λ m, "model " +:+ (mr_Provider m +:+ ("/" +:+ mr_Name m))) <$> ad_Model a) +:+
  (opt_line 4 ((λ x, "policy " +:+ x) <$> ad_Policy a) +:+
  (opt_text (printStringField is_print 4 "description") (ad_Description a) +:+
  (opt_text (printStringField is_print 4 "instructions") (ad_Instructions a) +:+
  (opt_line 4 ((λ p, "instructions file(" +:+ (Quote is_print p +:+ ")")) <$> (ad_InstructionsFile a ≫= id)) +:+
  (opt_text printConstraints (ad_Constraints a) +:+
  (match ad_Grants a with
   | [] => ""
   | gs => field_line (spaces 4) "grants {" +:+
       (foldr (λ g acc, field_line (spaces 8) (dottedName (gr_Segments g)) +:+ acc) "" gs +:+ field_line (spaces 4) "}")
   end +:+
  (opt_line 4 ((λ x, "input " +:+ x) <$> ad_Input a) +:+
  (opt_line 4 ((λ x, "output " +:+ x) <$> ad_Output a) +:+
  field_line "" "}"))))))))).
End print.
