(* ===== verification/LangAgentText.v ===== *)
(** * Agent declarations: print, lex, parse

    The blocks of an agent are lists of fields, each with its text, its tokens and
    its effect on the record.  [agent_roundtrip] says that lexer and parser read a
    well-formed declaration back from its printed text. *)

From S2P Require Import Prelude GoNum GoText Value JsonText JsonNum GoQuote LangLexer LangText LangBlock LangParser LangPrint LangExprText LangReads LangStmt LangStmtReads LangAgent.

Local Open Scope nat_scope.

(** ** Blocks of fields *)

Record field (S : Type) := mkField { fd_name : string; fd_text : string; fd_toks : tokens; fd_set : S → S }.
Arguments mkField {S}. Arguments fd_name {S}. Arguments fd_text {S}. Arguments fd_toks {S}. Arguments fd_set {S}.

Definition fields_tokens {S} (fs : list (field S)) : tokens := foldr (λ f acc, fd_toks f ++ acc) [] fs.
Definition fields_text {S} (fs : list (field S)) : string := foldr (λ f acc, fd_text f +:+ acc) "" fs.
Definition fields_value {S} (s : S) (fs : list (field S)) : S := foldl (λ s f, fd_set f s) s fs.

(** At most one field of a name. *)
Definition opt_field {S V} (f : V → field S) (v : option V) : list (field S) := match v with Some v => [f v] | None => [] end.

Section fields.
Context {T : Type} (loop : nat → list string → T → P T).
Hypothesis loop_end : ∀ n seen s r, reads (loop (S n) seen s) (punct KindRBrace :: r) s (punct KindRBrace :: r).

Definition reads_field (f : field T) : Prop :=
  ∀ n seen s r b r', fd_name f ∉ seen → reads (loop n (fd_name f :: seen) (fd_set f s)) r b r' →
    reads (loop (S n) seen s) (fd_toks f ++ r) b r'.

Lemma reads_fields fs : ∀ n seen s r,
  NoDup (fd_name <$> fs) → (∀ f, f ∈ fs → fd_name f ∉ seen) → Forall reads_field fs → length fs < n →
  reads (loop n seen s) (fields_tokens fs ++ punct KindRBrace :: r) (fields_value s fs) (punct KindRBrace :: r).
Proof.
  induction fs as [|f fs IH]; intros [|n] seen s r Hnd Hseen Hr Hn; try (cbn in Hn; lia); [apply loop_end|].
  rewrite fmap_cons in Hnd. apply NoDup_cons in Hnd as [Hf Hnd]. apply Forall_cons in Hr as [Hf' Hr].
  change (fields_tokens (f :: fs)) with (fd_toks f ++ fields_tokens fs). rewrite <-app_assoc. apply Hf'; [apply Hseen; by left|].
  apply IH; [done| |done|cbn in Hn; lia]. intros g Hg [E|Hin]%elem_of_cons; [|by eapply Hseen, Hin; right].
  apply Hf. rewrite <-E. by apply list_elem_of_fmap_2.
Qed.
End fields.

Lemma opt_fields_sublist {S V} (f : V → field S) v name fs names :
  (∀ v, fd_name (f v) = name) → (fd_name <$> fs) `sublist_of` names → (fd_name <$> (opt_field f v ++ fs)) `sublist_of` (name :: names).
Proof. intros Hf H. destruct v as [v|]; cbn; [rewrite Hf|]; by constructor. Qed.

(** ** Constraints *)

Definition int_field (name : string) (set : option Z → Constraints → Constraints) (n : Z) : field Constraints :=
  mkField name (field_line (spaces 8) (name +:+ (" " +:+ fmt_Z n))) [(KindIdent, name); (KindNumber, fmt_Z n)] (set (Some n)).
Definition temperature_field (f : f64) : field Constraints :=
  mkField "temperature" (field_line (spaces 8) ("temperature " +:+ format_float_g f)) [(KindIdent, "temperature"); (KindNumber, format_float_g f)]
    (set_Temperature (Some f)).
Definition structured_field (b : bool) : field Constraints :=
  mkField "requireStructuredOutput" (field_line (spaces 8) ("requireStructuredOutput " +:+ fmt_bool b))
    [(KindIdent, "requireStructuredOutput"); (KindIdent, fmt_bool b)] (set_RequireStructuredOutput (Some b)).

Definition constraint_fields (c : Constraints) : list (field Constraints) :=
  opt_field (int_field "maxIterations" set_MaxIterations) (ct_MaxIterations c) ++
  opt_field (int_field "maxTokens" set_MaxTokens) (ct_MaxTokens c) ++
  opt_field (int_field "timeoutSeconds" set_TimeoutSeconds) (ct_TimeoutSeconds c) ++
  opt_field temperature_field (ct_Temperature c) ++
  opt_field structured_field (ct_RequireStructuredOutput c).
Definition constraint_tokens (c : Constraints) : tokens := (KindIdent, "constraints") :: block_tokens (fields_tokens (constraint_fields c)).

Definition wf_temperature (f : f64) : bool := is_number (format_float_g f) && bool_decide (number_value (format_float_g f) = Ok f).
Definition opt_ok {V} (f : V → bool) (v : option V) : bool := match v with Some v => f v | None => true end.
Definition wf_constraints (c : Constraints) : bool :=
  opt_ok positive_limit (ct_MaxIterations c) && opt_ok positive_limit (ct_MaxTokens c) && opt_ok positive_limit (ct_TimeoutSeconds c) &&
  opt_ok wf_temperature (ct_Temperature c).

Lemma constraint_names c : NoDup (fd_name <$> constraint_fields c).
Proof.
  eapply (sublist_NoDup _ ["maxIterations"; "maxTokens"; "timeoutSeconds"; "temperature"; "requireStructuredOutput"]).
  - apply (bool_decide_unpack _). by vm_compute.
  - do 4 (apply opt_fields_sublist; [done|]). rewrite <-(app_nil_r (opt_field structured_field _)). by apply opt_fields_sublist.
Qed.

Lemma constraint_value c : fields_value no_constraints (constraint_fields c) = c.
Proof. by destruct c as [[] [] [] [] []]. Qed.

Lemma Forall_opt {S V} (Q : field S → Prop) (f : V → field S) (ok : V → bool) v fs :
  opt_ok ok v = true → (∀ v, ok v = true → Q (f v)) → Forall Q fs → Forall Q (opt_field f v ++ fs).
Proof. intros Hv Hf H. destruct v as [v|]; [|done]. constructor; [by apply Hf|done]. Qed.

(** The step of the loop at a field not seen before. *)
Ltac field_step loop H :=
  cbn [app fd_toks fd_name fd_set]; cbn [loop]; apply reads_cur; intros ?p; cbn [tk_Kind tk_Lit tk_Pos head_kind head_lit];
  change (ends_block KindIdent) with false; cbv iota; rewrite decide_False by (intros ?; done);
  cbv zeta; rewrite ?(proj2 (str_mem_false _ _) H); cbn [String.eqb Ascii.eqb Bool.eqb];
  repeat (reads_step; rewrite ?(proj2 (str_mem_false _ _) H)).

Lemma reads_constraintInt n r : positive_limit n = true → reads constraintInt ((KindNumber, fmt_Z n) :: r) (Some n) r.
Proof.
  intros Hn%bool_decide_eq_true. unfold constraintInt. reads_step. reads_step. rewrite bool_decide_eq_false_2 by (intros H; by apply H).
  rewrite (proj2 (nonneg_digits n ltac:(lia))). cbn [orb]. assert (is_int64 n) as Hi by (unfold is_int64, max_int, min_int in *; lia).
  unfold fmt_Z. rewrite atoi_pretty by done. replace (n <=? 0)%Z with false by (symmetry; apply Z.leb_gt; lia). reads_step. reads_step.
Qed.

Lemma reads_int_field name set n :
  name = "maxIterations" ∧ set = set_MaxIterations ∨ name = "maxTokens" ∧ set = set_MaxTokens ∨ name = "timeoutSeconds" ∧ set = set_TimeoutSeconds →
  positive_limit n = true → reads_field constraints_loop (int_field name set n).
Proof.
  intros Hname Hn m seen c r b r' Hseen Hk. destruct_or! Hname; destruct Hname as [-> ->].
  all: unfold int_field in *; cbn [fd_name fd_set] in *; field_step constraints_loop Hseen; (eapply reads_bind; [apply reads_ret|]); cbn [String.eqb Ascii.eqb Bool.eqb];
    (eapply reads_bind; [by apply reads_constraintInt|exact Hk]).
Qed.

Lemma reads_temperature f : wf_temperature f = true → reads_field constraints_loop (temperature_field f).
Proof.
  intros [_ Hf%bool_decide_eq_true]%andb_true_iff m seen c r b r' Hseen Hk. unfold temperature_field in *. cbn [fd_name fd_set] in *.
  field_step constraints_loop Hseen. eapply reads_bind; [apply reads_ret|]. cbn [String.eqb Ascii.eqb Bool.eqb].
  eapply (reads_bind _ _ _ (Some f)); [|exact Hk]. unfold constraintFloat. reads_step. reads_step. rewrite decide_False by (intros H; by apply H).
  rewrite Hf. reads_step. reads_step.
Qed.

Lemma reads_structured b0 : reads_field constraints_loop (structured_field b0).
Proof.
  intros m seen c r b r' Hseen Hk. unfold structured_field in *. cbn [fd_name fd_set] in *.
  field_step constraints_loop Hseen. eapply reads_bind; [apply reads_ret|]. cbn [String.eqb Ascii.eqb Bool.eqb].
  eapply (reads_bind _ _ _ (Some b0)); [|exact Hk]. unfold constraintBool. reads_step. reads_step. rewrite bool_decide_eq_true_2 by done.
  destruct b0; cbn; reads_step; reads_step.
Qed.

Lemma reads_constraints c fuel r :
  wf_constraints c = true → length (constraint_fields c) < fuel →
  reads (parseConstraints fuel) (block_tokens (fields_tokens (constraint_fields c)) ++ r) c r.
Proof.
  intros [[[H1 H2]%andb_true_iff H3]%andb_true_iff H4]%andb_true_iff Hf. rewrite block_tokens_app. unfold parseConstraints. cbn [app].
  eapply reads_bind; [apply reads_expect|].
  eapply reads_bind; [apply reads_fields; [|apply constraint_names|set_solver| |done]|].
  - intros n seen s r'. cbn [constraints_loop]. apply reads_cur. intros p. cbn [tk_Kind head_kind punct]. change (ends_block _) with true. reads_step.
  - unfold constraint_fields. rewrite <-(app_nil_r (opt_field structured_field _)).
    do 3 (apply (Forall_opt _ _ positive_limit); [done|intros; apply reads_int_field; naive_solver|]).
    apply (Forall_opt _ _ wf_temperature); [done|apply reads_temperature|].
    apply (Forall_opt _ _ (λ _, true)); [by destruct (ct_RequireStructuredOutput c)|intros; apply reads_structured|constructor].
  - eapply reads_bind; [apply reads_expect|]. rewrite constraint_value. reads_step.
Qed.

(** ** Agents *)

Definition model_field (m : ModelRef) : field AgentDecl :=
  mkField "model" (field_line (spaces 4) ("model " +:+ (mr_Provider m +:+ ("/" +:+ mr_Name m))))
    [(KindIdent, "model"); (KindIdent, mr_Provider m); punct KindSlash; (KindIdent, mr_Name m)] (set_Model (Some m)).
Definition word_field (name : string) (set : option string → AgentDecl → AgentDecl) (x : string) : field AgentDecl :=
  mkField name (field_line (spaces 4) (name +:+ (" " +:+ x))) [(KindIdent, name); (KindIdent, x)] (set (Some x)).
Definition string_field (is_print : chars → bool) (name : string) (set : option string → AgentDecl → AgentDecl) (v : string) : field AgentDecl :=
  mkField name (printStringField is_print 4 name v) [(KindIdent, name); (KindString, v)] (set (Some v)).
Definition file_field (is_print : chars → bool) (p : string) : field AgentDecl :=
  mkField "instructions" (field_line (spaces 4) ("instructions file(" +:+ (Quote is_print p +:+ ")")))
    [(KindIdent, "instructions"); (KindIdent, "file"); punct KindLParen; (KindString, p); punct KindRParen] (set_InstructionsFile (Some (Some p))).
Definition constraints_field (c : Constraints) : field AgentDecl :=
  mkField "constraints" (printConstraints c) (constraint_tokens c) (set_Constraints (Some c)).
Definition grant_tokens (g : Grant) : tokens := dotted_tokens (gr_Segments g).
Definition grants_field (gs : list Grant) : field AgentDecl :=
  mkField "grants"
    (field_line (spaces 4) "grants {" +:+ (foldr (λ g acc, field_line (spaces 8) (dottedName (gr_Segments g)) +:+ acc) "" gs +:+ field_line (spaces 4) "}"))
    ((KindIdent, "grants") :: block_tokens (foldr (λ g acc, grant_tokens g ++ acc) [] gs)) (set_Grants gs).

Definition agent_grants (a : AgentDecl) : option (list Grant) := match ad_Grants a with [] => None | gs => Some gs end.

Definition agent_fields (is_print : chars → bool) (a : AgentDecl) : list (field AgentDecl) :=
  opt_field model_field (ad_Model a) ++
  opt_field (word_field "policy" set_Policy) (ad_Policy a) ++
  opt_field (string_field is_print "description" set_Description) (ad_Description a) ++
  opt_field (string_field is_print "instructions" set_Instructions) (ad_Instructions a) ++
  opt_field (file_field is_print) (ad_InstructionsFile a ≫= id) ++
  opt_field constraints_field (ad_Constraints a) ++
  opt_field grants_field (agent_grants a) ++
  opt_field (word_field "input" set_Input) (ad_Input a) ++
  opt_field (word_field "output" set_Output) (ad_Output a).

Definition agent_tokens (is_print : chars → bool) (a : AgentDecl) : tokens :=
  (KindAgent, "agent") :: (KindIdent, identName (ad_Name a)) :: block_tokens (fields_tokens (agent_fields is_print a)).

(** The declarations the printer can write. *)
Definition wf_model (m : ModelRef) : bool :=
  is_ident (mr_Provider m) && is_ident (mr_Name m) && (mr_Raw m =? mr_Provider m +:+ ("/" +:+ mr_Name m))%string.
Definition wf_grant (g : Grant) : bool :=
  forallb is_ident (gr_Segments g) &&
  match gr_Segments g with
  | first :: name :: (_ :: _) as op =>
      (first =? "tool")%string && bool_decide (gr_Name g = Some name) && bool_decide (gr_Operation g = tail (tail (gr_Segments g)))
  | _ => false
  end.
Definition wf_file (is_print : chars → bool) (f : option string) : bool := match f with Some p => quotable is_print p | None => false end.
Definition wf_agent (is_print : chars → bool) (a : AgentDecl) : bool :=
  is_some_ident (ad_Name a) && opt_ok wf_model (ad_Model a) && opt_ok is_ident (ad_Policy a) && opt_ok (wf_string is_print) (ad_Description a) &&
  opt_ok (wf_string is_print) (ad_Instructions a) && opt_ok (wf_file is_print) (ad_InstructionsFile a) &&
  negb (bool_decide (is_Some (ad_Instructions a) ∧ is_Some (ad_InstructionsFile a))) &&
  opt_ok wf_constraints (ad_Constraints a) && forallb wf_grant (ad_Grants a) && opt_ok is_ident (ad_Input a) && opt_ok is_ident (ad_Output a).

(** *** The text is the text of the fields *)

Lemma fields_text_app {S} (a b : list (field S)) : fields_text (a ++ b) = fields_text a +:+ fields_text b.
Proof. unfold fields_text. induction a as [|f a IH]; [done|]. cbn [app foldr]. by rewrite IH, string_app_assoc. Qed.
Lemma fields_text_opt {S V} (f : V → field S) v fs : fields_text (opt_field f v ++ fs) = opt_text (λ v, fd_text (f v)) v +:+ fields_text fs.
Proof. rewrite fields_text_app. f_equal. destruct v as [v|]; [|done]. cbn. apply string_app_nil_r. Qed.
Lemma opt_line_text {V} n (g : V → string) v : opt_line n (g <$> v) = opt_text (λ v, field_line (spaces n) (g v)) v.
Proof. by destruct v. Qed.

Lemma printConstraints_fields c :
  printConstraints c = field_line (spaces 4) "constraints {" +:+ (fields_text (constraint_fields c) +:+ field_line (spaces 4) "}").
Proof.
  unfold printConstraints, constraint_fields. change (field_line (spaces 4) "constraints {") with (spaces 4 +:+ ("constraints {" +:+ nl)).
  rewrite !opt_line_text, <-(app_nil_r (opt_field structured_field _)), !fields_text_opt. change (fields_text []) with "".
  by rewrite !string_app_assoc, string_app_nil_l.
Qed.

Lemma printAgent_fields is_print a :
  printAgent is_print a = field_line "" ("agent " +:+ (identName (ad_Name a) +:+ " {")) +:+ (fields_text (agent_fields is_print a) +:+ field_line "" "}").
Proof.
  unfold printAgent, agent_fields. f_equal. rewrite !opt_line_text.
  rewrite <-(app_nil_r (opt_field (word_field "output" _) _)), !fields_text_opt. change (fields_text []) with "".
  rewrite !string_app_assoc, string_app_nil_l. repeat f_equal. unfold agent_grants. by destruct (ad_Grants a).
Qed.

(** *** The printed text spells the tokens *)

Section lexing.
Context (is_print : chars → bool).
#[local] Abbreviation lexed := (lexed is_print).

Definition field_ok {S} (f : field S) : Prop := ∀ t l, lexed t l → lexed (fd_text f +:+ t) (fd_toks f ++ l).

Lemma lexed_fields {S} (fs : list (field S)) t l : Forall field_ok fs → lexed t l → lexed (fields_text fs +:+ t) (fields_tokens fs ++ l).
Proof. apply (lexed_body is_print fd_text fd_toks). Qed.

Lemma field_ok_word name set x : is_ident name = true → is_ident x = true → field_ok (word_field name set x).
Proof.
  intros Hn Hx t l. apply lexed_line. intros t' l'. apply (piece_ident is_print name x [(KindIdent, x)]); [done|].
  intros t'' l'' Hs Ht. apply lexed_ident; [done|by apply safe_follows|done].
Qed.

Lemma lexed_number n t l : (0 ≤ n)%Z → safe t → lexed t l → lexed (fmt_Z n +:+ t) ([(KindNumber, fmt_Z n)] ++ l).
Proof. intros Hn Hs Ht. apply lexed_token; [|by apply safe_follows|done]. by apply text_number, is_number_text, nonneg_digits. Qed.

Lemma field_ok_int name set n : is_ident name = true → positive_limit n = true → field_ok (int_field name set n).
Proof.
  intros Hn Hp%bool_decide_eq_true t l. apply lexed_line. intros t' l'. apply (piece_ident is_print name (fmt_Z n) [(KindNumber, fmt_Z n)]); [done|].
  intros t'' l''. apply lexed_number. lia.
Qed.
Lemma field_ok_temperature f : wf_temperature f = true → field_ok (temperature_field f).
Proof.
  intros [Hf _]%andb_true_iff t l. apply lexed_line. intros t' l'.
  apply (piece_ident is_print "temperature" (format_float_g f) [(KindNumber, format_float_g f)]); [done|].
  intros t'' l'' Hs Ht. apply lexed_token; [|by apply safe_follows|done]. by apply text_number, is_number_text.
Qed.
Lemma field_ok_structured b : field_ok (structured_field b).
Proof.
  intros t l. apply lexed_line. intros t' l'. apply (piece_ident is_print "requireStructuredOutput" (fmt_bool b) [(KindIdent, fmt_bool b)]); [done|].
  intros t'' l'' Hs Ht. apply lexed_ident; [by destruct b|by apply safe_follows|done].
Qed.

Lemma constraint_fields_ok c : wf_constraints c = true → Forall field_ok (constraint_fields c).
Proof.
  intros [[[H1 H2]%andb_true_iff H3]%andb_true_iff H4]%andb_true_iff. unfold constraint_fields. rewrite <-(app_nil_r (opt_field structured_field _)).
  do 3 (apply (Forall_opt _ _ positive_limit); [done|intros; by apply field_ok_int|]).
  apply (Forall_opt _ _ wf_temperature); [done|apply field_ok_temperature|].
  apply (Forall_opt _ _ (λ _, true)); [by destruct (ct_RequireStructuredOutput c)|intros; apply field_ok_structured|constructor].
Qed.

Lemma field_ok_model m : wf_model m = true → field_ok (model_field m).
Proof.
  intros [[Hp Hn]%andb_true_iff _]%andb_true_iff t l. apply lexed_line. intros t' l'.
  apply (piece_ident is_print "model" (mr_Provider m +:+ ("/" +:+ mr_Name m)) [(KindIdent, mr_Provider m); punct KindSlash; (KindIdent, mr_Name m)]); [done|].
  intros t'' l'' Hs Ht. rewrite !string_app_assoc. cbn [app]. apply lexed_ident; [done|done|].
  apply (lexed_punct _ KindSlash "/"); [in_puncts| |].
  - destruct (is_ident_kind _ Hn) as [Hw _]. destruct (mr_Name m) as [|c x]; [done|]. rewrite string_app_cons. cbn.
    apply andb_true_iff in Hw as [Hc _]. apply negb_true_iff, bool_decide_eq_false. by intros ->.
  - apply lexed_ident; [done|by apply safe_follows|done].
Qed.
Lemma field_ok_string name set v : is_ident name = true → wf_string is_print v = true → field_ok (string_field is_print name set v).
Proof. intros Hn Hv t l. apply lexed_string_field; [done|lia|done]. Qed.
Lemma field_ok_file p : quotable is_print p = true → field_ok (file_field is_print p).
Proof.
  intros Hp t l. apply lexed_line. intros t' l'.
  apply (piece_ident is_print "instructions" ("file(" +:+ (Quote is_print p +:+ ")")) [(KindIdent, "file"); punct KindLParen; (KindString, p); punct KindRParen]); [done|].
  intros t'' l'' Hs Ht. rewrite !string_app_assoc. cbn [app]. apply (lexed_ident is_print "file"); [done|done|].
  apply (lexed_punct _ KindLParen "("); [in_puncts|by apply follows_any|]. apply lexed_token; [by apply text_quoted|done|].
  apply (lexed_punct _ KindRParen ")"); [in_puncts|by apply follows_any|done].
Qed.

(** A block on lines of its own. *)
Lemma lexed_field_block {A} word (E : A → string) (T : A → tokens) xs t l :
  is_ident word = true → Forall (λ x, ∀ t l, lexed t l → lexed (E x +:+ t) (T x ++ l)) xs → lexed t l →
  lexed ((field_line (spaces 4) (word +:+ (" " +:+ "{")) +:+ (foldr (λ x acc, E x +:+ acc) "" xs +:+ field_line (spaces 4) "}")) +:+ t)
    (((KindIdent, word) :: block_tokens (foldr (λ x acc, T x ++ acc) [] xs)) ++ l).
Proof.
  intros Hw Hx Ht. rewrite !string_app_assoc. cbn [app]. rewrite block_tokens_app.
  apply (lexed_braces is_print 4 (word +:+ (" " +:+ "{")) [(KindIdent, word); punct KindLBrace] E T); [|done..].
  intros t' l'. apply (piece_ident is_print word "{" [punct KindLBrace]); [done|]. apply piece_open.
Qed.

Lemma field_ok_constraints c : wf_constraints c = true → field_ok (constraints_field c).
Proof.
  intros Hc t l Ht. cbn [fd_text fd_toks constraints_field]. rewrite printConstraints_fields.
  apply (lexed_field_block "constraints" fd_text fd_toks); [done|by apply constraint_fields_ok|done].
Qed.
Lemma field_ok_grants gs : forallb wf_grant gs = true → field_ok (grants_field gs).
Proof.
  intros Hg t l. apply (lexed_field_block "grants" (λ g, field_line (spaces 8) (dottedName (gr_Segments g))) grant_tokens); [done|].
  apply Forall_forall. intros g Hin t' l'. rewrite forallb_forall in Hg. apply list_elem_of_In, Hg in Hin. apply lexed_line.
  intros t'' l'' Hs Ht. apply andb_true_iff in Hin as [Hi Hs']. apply lexed_dotted; [done|by destruct (gr_Segments g)|by apply safe_follows|done].
Qed.

Lemma wf_file_bind f : opt_ok (wf_file is_print) f = true → opt_ok (quotable is_print) (f ≫= id) = true.
Proof. by destruct f as [[p|]|]. Qed.
Lemma agent_grants_ok a : forallb wf_grant (ad_Grants a) = true → opt_ok (forallb wf_grant) (agent_grants a) = true.
Proof. unfold agent_grants. by destruct (ad_Grants a). Qed.

(** Every field is well-formed. *)
Lemma Forall_agent_fields (Q : field AgentDecl → Prop) a :
  wf_agent is_print a = true →
  (∀ m, wf_model m = true → Q (model_field m)) →
  (∀ name set x, (name, set) ∈ [("policy", set_Policy); ("input", set_Input); ("output", set_Output)] → is_ident x = true → Q (word_field name set x)) →
  (∀ name set v, (name, set) ∈ [("description", set_Description); ("instructions", set_Instructions)] → wf_string is_print v = true → Q (string_field is_print name set v)) →
  (∀ p, quotable is_print p = true → Q (file_field is_print p)) →
  (∀ c, ad_Constraints a = Some c → wf_constraints c = true → Q (constraints_field c)) →
  (∀ gs, agent_grants a = Some gs → forallb wf_grant gs = true → Q (grants_field gs)) →
  Forall Q (agent_fields is_print a).
Proof.
  unfold wf_agent. intros [[[[[[[[[[_ Hm]%andb_true_iff Hp]%andb_true_iff Hd]%andb_true_iff Hi]%andb_true_iff Hf]%andb_true_iff _]%andb_true_iff
    Hc]%andb_true_iff Hg]%andb_true_iff Hin]%andb_true_iff Hout]%andb_true_iff.
  intros Qm Qw Qs Qf Qc Qg. unfold agent_fields. rewrite <-(app_nil_r (opt_field (word_field "output" _) _)).
  apply (Forall_opt _ _ wf_model); [done|done|]. apply (Forall_opt _ _ is_ident); [done|intros; apply Qw; [set_solver|done]|].
  apply (Forall_opt _ _ (wf_string is_print)); [done|intros; apply Qs; [set_solver|done]|].
  apply (Forall_opt _ _ (wf_string is_print)); [done|intros; apply Qs; [set_solver|done]|].
  apply (Forall_opt _ _ (quotable is_print)); [by apply wf_file_bind|done|].
  apply Forall_app. split.
  { destruct (ad_Constraints a) as [c|]; [|constructor]. constructor; [by apply Qc|constructor]. }
  apply Forall_app. split.
  { pose proof (agent_grants_ok a Hg) as Hg'. destruct (agent_grants a) as [gs|]; [|constructor]. constructor; [by apply Qg|constructor]. }
  apply (Forall_opt _ _ is_ident); [done|intros; apply Qw; [set_solver|done]|].
  apply (Forall_opt _ _ is_ident); [done|intros; apply Qw; [set_solver|done]|constructor].
Qed.

Lemma lexed_agent a : wf_agent is_print a = true → lexed (printAgent is_print a) (agent_tokens is_print a).
Proof.
  intros Hw. rewrite printAgent_fields. unfold agent_tokens, block_tokens.
  assert (Forall field_ok (agent_fields is_print a)) as Hfs.
  { apply Forall_agent_fields; [done|intros; by apply field_ok_model| | |intros; by apply field_ok_file|intros; by apply field_ok_constraints|intros; by apply field_ok_grants].
    - intros name set x Hin Hx. apply field_ok_word; [|done]. repeat (apply elem_of_cons in Hin as [[= -> ->]|Hin]; [done|]). by apply elem_of_nil in Hin.
    - intros name set x Hin Hx. apply field_ok_string; [|done]. repeat (apply elem_of_cons in Hin as [[= -> ->]|Hin]; [done|]). by apply elem_of_nil in Hin. }
  unfold wf_agent in Hw. rewrite <-!andb_assoc in Hw. apply andb_true_iff in Hw as [Hn _]. destruct (ad_Name a) as [name|]; [|done].
  change (identName (Some name)) with name.
  apply (lexed_line is_print 0 ("agent " +:+ (name +:+ " {")) [(KindAgent, "agent"); (KindIdent, name); punct KindLBrace]).
  - intros t l. apply (piece_word is_print "agent" KindAgent (name +:+ " {") [(KindIdent, name); punct KindLBrace]); [done|done|].
    intros t' l'. apply (piece_ident is_print name "{" [punct KindLBrace]); [done|]. apply piece_open.
  - apply lexed_fields; [done|]. rewrite <-(string_app_nil_r (field_line "" "}")).
    apply (lexed_line is_print 0 "}" [punct KindRBrace]); [apply piece_close|apply lexed_nil].
Qed.
End lexing.

(** *** The parser reads the tokens *)

Section reading.
Context (is_print : chars → bool) (fuel : nat).
#[local] Abbreviation loop := (λ n, agent_loop n fuel).

Lemma reads_model_field m : wf_model m = true → reads_field loop (model_field m).
Proof.
  intros [_ Hr%String.eqb_eq]%andb_true_iff n seen s r b r' Hseen Hk. unfold model_field in *. cbn [fd_name fd_set] in *. field_step agent_loop Hseen.
  eapply (reads_bind _ _ _ (Some m)); [|exact Hk]. unfold parseModelRef. reads_step. rewrite decide_False by (intros H; by apply H).
  reads_step. reads_step. eapply reads_bind; [apply reads_expect|]. reads_step. rewrite decide_False by (intros H; by apply H). reads_step. reads_step.
  rewrite <-Hr. destruct m. reads_step.
Qed.

Lemma reads_word_field name set x :
  (name, set) ∈ [("policy", set_Policy); ("input", set_Input); ("output", set_Output)] → reads_field loop (word_field name set x).
Proof.
  intros Hin n seen s r b r' Hseen Hk. unfold word_field in *. cbn [fd_name fd_set] in *.
  repeat (apply elem_of_cons in Hin as [[= -> ->]|Hin]; [by field_step agent_loop Hseen|]). by apply elem_of_nil in Hin.
Qed.

Lemma reads_string_field name set v :
  (name, set) ∈ [("description", set_Description); ("instructions", set_Instructions)] → reads_field loop (string_field is_print name set v).
Proof.
  intros Hin n seen s r b r' Hseen Hk. unfold string_field in *. cbn [fd_name fd_set] in *.
  apply elem_of_cons in Hin as [[= -> ->]|Hin]; [by field_step agent_loop Hseen|]. apply list_elem_of_singleton in Hin as [= -> ->].
  field_step agent_loop Hseen. change (bool_decide (KindString = KindIdent) && _) with false. cbv iota. reads_step.
  rewrite ?(proj2 (str_mem_false _ _) Hseen). exact Hk.
Qed.

Lemma reads_file_field p : reads_field loop (file_field is_print p).
Proof.
  intros n seen s r b r' Hseen Hk. unfold file_field in *. cbn [fd_name fd_set] in *. field_step agent_loop Hseen.
  change (bool_decide (KindIdent = KindIdent) && ("file" =? "file")%string) with true. cbv iota.
  eapply (reads_bind _ _ _ (Some p)); [|exact Hk]. unfold parseFileRef. reads_step. eapply reads_bind; [apply reads_expect|]. reads_step.
  eapply reads_bind; [apply reads_expect|]. reads_step.
Qed.

Lemma reads_constraints_field c :
  wf_constraints c = true → length (constraint_fields c) < fuel → reads_field loop (constraints_field c).
Proof.
  intros Hc Hf n seen s r b r' Hseen Hk. unfold constraints_field in *. cbn [fd_name fd_set] in *. unfold constraint_tokens. field_step agent_loop Hseen.
  eapply reads_bind; [by apply reads_constraints|exact Hk].
Qed.

Lemma reads_grant g r :
  wf_grant g = true → length (gr_Segments g) ≤ fuel → head_kind r ≠ KindDot → reads (parseGrant fuel) (grant_tokens g ++ r) g r.
Proof.
  destruct g as [name op [|first [|x [|y ps]]]]; intros [_ Hg]%andb_true_iff Hf Hr; try done. cbn [gr_Segments gr_Name gr_Operation tail] in *.
  apply andb_true_iff in Hg as [[->%String.eqb_eq Hn%bool_decide_eq_true]%andb_true_iff Ho%bool_decide_eq_true]. subst name op.
  unfold parseGrant, grant_tokens. cbn [gr_Segments]. apply reads_cur. intros p. eapply reads_bind; [by apply reads_dotted|]. cbn. apply reads_ret.
Qed.

Lemma reads_grants_loop gs : ∀ fuel' r,
  forallb wf_grant gs = true → Forall (λ g, length (gr_Segments g) ≤ fuel) gs → length gs < fuel' →
  reads (grants_loop fuel' fuel) (foldr (λ g acc, grant_tokens g ++ acc) [] gs ++ punct KindRBrace :: r) gs (punct KindRBrace :: r).
Proof.
  assert (∀ g r, wf_grant g = true → head_kind (grant_tokens g ++ r) = KindIdent) as Hhead.
  { intros [name op [|x [|y ps]]] r [_ H]%andb_true_iff; done. }
  induction gs as [|g gs IH]; intros [|fuel'] r Hw Hl Hf; try (cbn in Hf; lia); cbn [grants_loop foldr].
  - reads_step. change (ends_block _) with true. reads_step.
  - cbn [forallb] in Hw. apply andb_true_iff in Hw as [Hg Hw]. apply Forall_cons in Hl as [Hn Hl]. rewrite <-app_assoc.
    reads_step. rewrite Hhead by done. change (ends_block KindIdent) with false. cbv iota. rewrite decide_False by (intros H; by apply H).
    assert (∃ k, (k = KindIdent ∨ k = KindRBrace) ∧ head_kind (foldr (λ g acc, grant_tokens g ++ acc) [] gs ++ punct KindRBrace :: r) = k) as (k & Hk & E).
    { destruct gs as [|g' gs]; [by eexists; split; [right|]|]. cbn [forallb] in Hw. apply andb_true_iff in Hw as [Hg' _].
      eexists. split; [by left|]. cbn [foldr]. rewrite <-app_assoc. by apply Hhead. }
    eapply reads_bind; [apply reads_grant; [done|done|rewrite E; by destruct Hk as [-> | ->]]|]. reads_step. rewrite E.
    rewrite decide_False by (by destruct Hk as [-> | ->]). eapply reads_bind; [apply reads_ret|].
    eapply reads_bind; [apply IH; [done|done|cbn in Hf; lia]|]. reads_step.
Qed.

Lemma reads_grants_field gs :
  forallb wf_grant gs = true → length (foldr (λ g acc, grant_tokens g ++ acc) [] gs) < fuel → reads_field loop (grants_field gs).
Proof.
  intros Hg Hf n seen s r b r' Hseen Hk. unfold grants_field in *. cbn [fd_name fd_set] in *. field_step agent_loop Hseen.
  eapply reads_bind; [|exact Hk]. rewrite block_tokens_app. unfold parseGrants. cbn [app].
  eapply reads_bind; [apply reads_expect|]. eapply reads_bind; [apply reads_grants_loop; [done| |]|].
  - apply Forall_forall. intros g Hin. pose proof (member_length grant_tokens g gs Hin). pose proof (dotted_length (gr_Segments g)).
    unfold grant_tokens in *. lia.
  - assert (length gs ≤ length (foldr (λ g acc, grant_tokens g ++ acc) [] gs)); [|lia]. apply members_length, Forall_forall. intros g Hin.
    rewrite forallb_forall in Hg. apply list_elem_of_In, Hg, andb_true_iff in Hin as [_ Hs]. unfold grant_tokens.
    by destruct (gr_Segments g) as [|? [|? ?]].
  - eapply reads_bind; [apply reads_expect|]. reads_step.
Qed.
End reading.

Lemma agent_names is_print a : wf_agent is_print a = true → NoDup (fd_name <$> agent_fields is_print a).
Proof.
  unfold wf_agent. intros [[[[[_ Hex%negb_true_iff%bool_decide_eq_false]%andb_true_iff _]%andb_true_iff _]%andb_true_iff _]%andb_true_iff _]%andb_true_iff.
  eapply (sublist_NoDup _ ["model"; "policy"; "description"; "instructions"; "constraints"; "grants"; "input"; "output"]).
  - apply (bool_decide_unpack _). by vm_compute.
  - unfold agent_fields. rewrite <-(app_nil_r (opt_field (word_field "output" _) _)).
    do 3 (apply opt_fields_sublist; [done|]).
    assert ((fd_name <$> opt_field constraints_field (ad_Constraints a) ++ opt_field grants_field (agent_grants a) ++
      opt_field (word_field "input" set_Input) (ad_Input a) ++ opt_field (word_field "output" set_Output) (ad_Output a) ++ []) `sublist_of`
      ["constraints"; "grants"; "input"; "output"]) as H by by do 4 (apply opt_fields_sublist; [done|]).
    destruct (ad_Instructions a) as [i|], (ad_InstructionsFile a) as [[f|]|]; cbn; try (by constructor); exfalso; apply Hex; by split; eexists.
Qed.

Lemma agent_value is_print a : wf_agent is_print a = true → fields_value (empty_agent (ad_Name a)) (agent_fields is_print a) = a.
Proof.
  unfold wf_agent. intros [[[[[[_ Hf]%andb_true_iff _]%andb_true_iff _]%andb_true_iff _]%andb_true_iff _]%andb_true_iff _]%andb_true_iff.
  destruct a as [name m p d i f c gs x o]. cbn [ad_InstructionsFile] in Hf. unfold agent_fields, agent_grants, fields_value.
  cbn [ad_Name ad_Model ad_Policy ad_Description ad_Instructions ad_InstructionsFile ad_Constraints ad_Grants ad_Input ad_Output].
  destruct f as [[f|]|]; [|done|]; rewrite !foldl_app; destruct m, p, d, i, c, gs, x, o; reflexivity.
Qed.

Lemma fields_length {S} (fs : list (field S)) : Forall (λ f, fd_toks f ≠ []) fs → length fs ≤ length (fields_tokens fs).
Proof. apply (members_length fd_toks). Qed.

Lemma agent_reads_fields is_print a fuel :
  wf_agent is_print a = true → length (fields_tokens (agent_fields is_print a)) < fuel →
  Forall (reads_field (λ n, agent_loop n fuel)) (agent_fields is_print a).
Proof.
  intros Hw Hf. assert (∀ f, f ∈ agent_fields is_print a → length (fd_toks f) < fuel) as Hlen.
  { intros f Hin. pose proof (member_length fd_toks f _ Hin). unfold fields_tokens in Hf. lia. }
  apply Forall_agent_fields; [done|apply reads_model_field|intros; by apply reads_word_field|intros; by apply reads_string_field|intros; apply reads_file_field| |].
  - intros c Hc Hwc. apply reads_constraints_field; [done|].
    assert (length (fd_toks (constraints_field c)) < fuel) as H.
    { apply Hlen. unfold agent_fields. rewrite Hc, !elem_of_app. do 5 right. left. by left. }
    cbn [fd_toks constraints_field constraint_tokens length] in H. rewrite block_length in H. pose proof (fields_length (constraint_fields c)) as Hcl.
    assert (length (constraint_fields c) ≤ length (fields_tokens (constraint_fields c))); [|lia]. apply Hcl.
    by destruct c as [[] [] [] [] []]; repeat constructor.
  - intros gs Hgs Hwg. apply reads_grants_field; [done|].
    assert (length (fd_toks (grants_field gs)) < fuel) as H.
    { apply Hlen. unfold agent_fields. rewrite Hgs, !elem_of_app. do 6 right. left. by left. }
    cbn [fd_toks grants_field length] in H. rewrite block_length in H. lia.
Qed.

Lemma reads_parseAgent is_print a n r :
  wf_agent is_print a = true → length (agent_tokens is_print a) + 3 ≤ n →
  reads (parseAgent n) (agent_tokens is_print a ++ r) a r.
Proof.
  intros Hw Hn. unfold agent_tokens in *. cbn [length] in Hn. rewrite block_length in Hn.
  assert (length (agent_fields is_print a) ≤ length (fields_tokens (agent_fields is_print a))) as Hlen.
  { apply fields_length, Forall_agent_fields; try done. }
  unfold parseAgent. cbn [app]. rewrite block_tokens_app. reads_step. reads_step. eapply reads_bind; [apply reads_expect|].
  eapply reads_bind; [apply (reads_fields (λ n', agent_loop n' n))|].
  - intros n' seen s r'. cbn [agent_loop]. apply reads_cur. intros p. cbn [tk_Kind head_kind punct]. change (ends_block _) with true. reads_step.
  - by apply agent_names.
  - set_solver.
  - apply agent_reads_fields; [done|lia].
  - lia.
  - eapply reads_bind; [apply reads_expect|].
    assert (ad_Name a = Some (identName (ad_Name a))) as <-.
    { unfold wf_agent in Hw. rewrite <-!andb_assoc in Hw. apply andb_true_iff in Hw as [Hname _]. by destruct (ad_Name a). }
    rewrite agent_value by done. reads_step.
Qed.

(** C18: printing and reading an agent: the text [printAgent] writes for a well-formed
    declaration lexes without a diagnostic, and from its tokens [parseAgent], with
    any fuel of at least the number of tokens and three, returns that declaration,
    with no token left and no diagnostic. *)
Theorem agent_roundtrip is_print a :
  wf_agent is_print a = true →
  ∃ ts l, Lex (printAgent is_print a) = (ts, l) ∧ lx_diags l = [] ∧
    ∀ n eof, length ts + 3 ≤ n →
      ∃ s, parseAgent n (mkPst ts eof []) = Some (a, s) ∧ ps_toks s = [] ∧ ps_diags s = [].
Proof.
  intros Hw. destruct (Lex_lexed is_print _ _ (lexed_agent is_print a Hw)) as (ts & l & El & Ets & Hl).
  exists ts, l. split; [done|]. split; [done|]. intros n eof Hn.
  pose proof (reads_parseAgent is_print a n [] Hw) as Hr. rewrite app_nil_r, <-Ets, length_fmap in Hr.
  destruct (Hr Hn (mkPst ts eof [])) as (s & E & Hs & Hd); [done|].
  exists s. split; [done|]. split; [by apply fmap_nil_inv in Hs|done].
Qed.

(** An agent with every field. *)
Definition example_agent : AgentDecl :=
  mkAgentDecl (Some "triager") (Some (mkModelRef "openai" "gpt-5" "openai/gpt-5")) (Some "strict") (Some "Sorts issues.")
    (Some ("Read the issue." +:+ String newline "    Then label it.")) None
    (Some (mkConstraints (Some 8%Z) None (Some 60%Z) (Some (FFin false 4503599627370496 (-54))) (Some true)))
    [mkGrant (Some "github") ["pull_request"; "post_comment"] ["tool"; "github"; "pull_request"; "post_comment"];
     mkGrant (Some "slack") ["send"] ["tool"; "slack"; "send"]]
    (Some "Issue") (Some "Report").

Lemma agent_roundtrip_witness :
  wf_agent (λ _, false) example_agent = true ∧
  ∃ ts l, Lex (printAgent (λ _, false) example_agent) = (ts, l) ∧ lx_diags l = [] ∧
    ∀ n eof, length ts + 3 ≤ n →
      ∃ s, parseAgent n (mkPst ts eof []) = Some (example_agent, s) ∧ ps_toks s = [] ∧ ps_diags s = [].
Proof.
  assert (wf_agent (λ _, false) example_agent = true) as H by (vm_compute; reflexivity).
  split; [exact H|]. apply agent_roundtrip. exact H.
Defined.
