(* ===== verification/LangTotal.v ===== *)
(** * The parser returns

    On every list of tokens, well-formed or not, each function of the parser returns
    with a little more fuel than there are tokens: every loop and every recursive
    call that does not stop has read a token, recovery included. *)

From S2P Require Import Prelude GoNum GoText Value JsonNum LangLexer LangParser LangAgent.

Local Open Scope nat_scope.

(** ** Assertions on a run *)

Definition len (s : pst) : nat := length (ps_toks s).
Definition kind (s : pst) : Kind := match ps_toks s with t :: _ => tk_Kind t | [] => KindEOF end.

(** [m] returns from [s], and what it returns satisfies [Q]. *)
Definition returns {A} (m : P A) (s : pst) (Q : A → pst → Prop) : Prop := ∃ a s', m s = Some (a, s') ∧ Q a s'.

Lemma kind_len s : kind s ≠ KindEOF → 0 < len s.
Proof. unfold kind, len. destruct (ps_toks s); [done|cbn; lia]. Qed.

Lemma returns_ret {A} (a : A) s (Q : A → pst → Prop) : Q a s → returns (mret a) s Q.
Proof. intros H. by exists a, s. Qed.
Lemma returns_bind {A B} (m : P A) (f : A → P B) s (Q : B → pst → Prop) :
  returns m s (λ a s', returns (f a) s' Q) → returns (m ≫= f) s Q.
Proof. intros (a & s' & E & b & s'' & E' & H). exists b, s''. unfold mbind, P_bind. by rewrite E. Qed.
Lemma returns_mono {A} (m : P A) s (Q Q' : A → pst → Prop) : returns m s Q → (∀ a s', Q a s' → Q' a s') → returns m s Q'.
Proof. intros (a & s' & E & H) HQ. exists a, s'. split; [done|by apply HQ]. Qed.

Lemma returns_curK s (Q : Kind → pst → Prop) : Q (kind s) s → returns curK s Q.
Proof. intros H. by exists (kind s), s. Qed.
Lemma returns_curLit s (Q : string → pst → Prop) : (∀ x, Q x s) → returns curLit s Q.
Proof. intros H. eexists _, s. split; [reflexivity|apply H]. Qed.
Lemma returns_peekK s (Q : Kind → pst → Prop) : (∀ k, (k ≠ KindEOF → 1 < len s) → Q k s) → returns peekK s Q.
Proof.
  intros H. eexists _, s. split; [reflexivity|]. apply H. unfold len. destruct (ps_toks s) as [|? [|? ?]]; [done|done|cbn; lia].
Qed.
Lemma returns_peekLit s (Q : string → pst → Prop) : (∀ x, Q x s) → returns peekLit s Q.
Proof. intros H. eexists _, s. split; [reflexivity|apply H]. Qed.
Lemma returns_cur s (Q : Token → pst → Prop) : (∀ t, tk_Kind t = kind s → Q t s) → returns cur s Q.
Proof. intros H. eexists _, s. split; [reflexivity|]. apply H. unfold kind. by destruct (ps_toks s). Qed.
Lemma returns_advance s (Q : unit → pst → Prop) : (∀ s', len s' = len s - 1 → Q () s') → returns advance s Q.
Proof. intros H. eexists _, _. split; [reflexivity|]. apply H. unfold len. cbn. destruct (ps_toks s); cbn; lia. Qed.
Lemma returns_errorf p s (Q : unit → pst → Prop) : (∀ s', len s' = len s → kind s' = kind s → Q () s') → returns (errorf p) s Q.
Proof. intros H. eexists _, _. split; [reflexivity|]. by apply H. Qed.

Lemma returns_error_here s (Q : unit → pst → Prop) : (∀ s', len s' = len s → kind s' = kind s → Q () s') → returns error_here s Q.
Proof. intros H. apply returns_bind, returns_cur. intros t _. by apply returns_errorf. Qed.

Lemma returns_at_word x s (Q : bool → pst → Prop) : (∀ b, (b = true → kind s = KindIdent) → Q b s) → returns (at_word x) s Q.
Proof.
  intros H. apply returns_bind, returns_curK, returns_bind, returns_curLit. intros lit. apply returns_ret, H.
  by intros [?%bool_decide_eq_true _]%andb_true_iff.
Qed.

Lemma returns_expect k s (Q : bool → pst → Prop) :
  k ≠ KindEOF → (∀ b s', (b = true ∧ len s' < len s) ∨ (b = false ∧ kind s ≠ k ∧ len s' = len s) → Q b s') → returns (expect k) s Q.
Proof.
  intros Hk H. apply returns_bind, returns_curK. destruct (decide (kind s = k)) as [E|E].
  - apply returns_bind, returns_advance. intros s' Hs. apply returns_ret, H. left. pose proof (kind_len s). split; [done|].
    assert (0 < len s); [|lia]. apply kind_len. by rewrite E.
  - apply returns_bind, returns_error_here. intros s' Hs _. apply returns_ret, H. by right.
Qed.

Lemma returns_ident s (Q : option string → pst → Prop) :
  (∀ x s', (is_Some x ∧ len s' < len s) ∨ (x = None ∧ kind s ≠ KindIdent ∧ len s' = len s) → Q x s') → returns ident s Q.
Proof.
  intros H. apply returns_bind, returns_curK. destruct (decide (kind s = KindIdent)) as [E|E].
  - apply returns_bind, returns_curLit. intros x. apply returns_bind, returns_advance. intros s' Hs. apply returns_ret, H. left.
    assert (0 < len s) by (apply kind_len; by rewrite E). split; [done|lia].
  - apply returns_bind, returns_error_here. intros s' Hs _. apply returns_ret, H. by right.
Qed.

Lemma returns_string s (Q : option string → pst → Prop) : (∀ x s', len s' ≤ len s → (is_Some x → len s' < len s) → (x = None → kind s ≠ KindString) → Q x s') → returns parseStringLit s Q.
Proof.
  intros H. apply returns_bind, returns_curK. destruct (decide (kind s = KindString)) as [E|E].
  - apply returns_bind, returns_curLit. intros x. apply returns_bind, returns_advance. intros s' Hs. apply returns_ret.
    assert (0 < len s) by (apply kind_len; by rewrite E). apply H; [lia|intros _; lia|done].
  - apply returns_bind, returns_error_here. intros s' Hs _. apply returns_ret, H; [lia|by intros [? ?]|done].
Qed.

Lemma sync_line_length line l : length (sync_line line l) ≤ length l.
Proof. induction l as [|t l IH]; [done|]. cbn. repeat case_decide; cbn; lia. Qed.
Lemma returns_syncLine s (Q : unit → pst → Prop) : (∀ s', len s' ≤ len s → (0 < len s → len s' < len s) → Q () s') → returns syncLine s Q.
Proof.
  intros H. unfold syncLine. destruct (ps_toks s) as [|t l] eqn:E.
  - exists (), s. split; [unfold syncLine; by rewrite E|]. apply H; unfold len; rewrite E; cbn; lia.
  - eexists (), _. split; [unfold syncLine; by rewrite E|]. pose proof (sync_line_length (Line (tk_Pos t)) l).
    apply H; unfold len; cbn [ps_toks]; rewrite E; cbn; lia.
Qed.
Lemma sync_list_length l : length (sync_list l) ≤ length l.
Proof. induction l as [|t l IH]; [done|]. cbn. repeat case_decide; cbn; lia. Qed.
Lemma returns_syncList s (Q : unit → pst → Prop) :
  (∀ s', len s' < len s ∨ (len s' ≤ len s ∧ ends_list (kind s') = true) → Q () s') → returns syncList s Q.
Proof.
  intros H. eexists (), _. split; [reflexivity|]. apply H. unfold len, kind. cbn [ps_toks]. destruct (ps_toks s) as [|t l]; [by right|].
  cbn [sync_list]. pose proof (sync_list_length l). case_decide as E; [right; by rewrite E|]. left. case_decide; cbn; lia.
Qed.

Lemma ends_block_len s : ends_block (kind s) = false → 0 < len s.
Proof. intros H%bool_decide_eq_false. apply kind_len. naive_solver. Qed.
Lemma ends_list_len s : ends_list (kind s) = false → 0 < len s.
Proof. intros H%bool_decide_eq_false. apply kind_len. naive_solver. Qed.
Lemma kind_is_len s k : kind s = k → k ≠ KindEOF → 0 < len s.
Proof. intros <-. apply kind_len. Qed.

(** One step of a function: the rule of its next operation, or a case distinction. *)
Ltac returns_step :=
  cbv zeta; cbn beta iota;
  lazymatch goal with
  | |- returns (_ ≫= _) _ _ => apply returns_bind
  | |- returns (mret _) _ _ => apply returns_ret
  | |- returns curK _ _ => apply returns_curK
  | |- returns curLit _ _ => apply returns_curLit; intros ?
  | |- returns peekK _ _ => apply returns_peekK; intros ? ?
  | |- returns peekLit _ _ => apply returns_peekLit; intros ?
  | |- returns cur _ _ => apply returns_cur; intros ? ?
  | |- returns advance _ _ => apply returns_advance; intros ? ?
  | |- returns (errorf _) _ _ => apply returns_errorf; intros ? ? ?
  | |- returns error_here _ _ => apply returns_error_here; intros ? ? ?
  | |- returns (at_word _) _ _ => apply returns_at_word; intros ? ?
  | |- returns (expect _) _ _ => apply returns_expect; [done|intros ? ? ?]
  | |- returns ident _ _ => apply returns_ident; intros ? ? ?
  | |- returns parseTypeRef _ _ => apply returns_ident; intros ? ? ?
  | |- returns parseStringLit _ _ => apply returns_string; intros ? ? ? ? ?
  | |- returns syncLine _ _ => apply returns_syncLine; intros ? ? ?
  | |- returns syncList _ _ => apply returns_syncList; intros ? ?
  | |- returns (if ends_block ?k then _ else _) _ _ => let E := fresh "E" in destruct (ends_block k) eqn:E; [|try apply ends_block_len in E]
  | |- returns (if ends_list ?k then _ else _) _ _ => let E := fresh "E" in destruct (ends_list k) eqn:E
  | |- returns (if decide ?P then _ else _) _ _ => destruct (decide P)
  | |- returns (if ?b then _ else _) _ _ => let E := fresh "E" in destruct b eqn:E
  | |- returns (match ?x with _ => _ end) _ _ => let E := fresh "E" in destruct x eqn:E
  end.

(** The measure left to prove. *)
Ltac measure :=
  repeat match goal with
  | H : _ ∨ _ |- _ => destruct H
  | H : _ ∧ _ |- _ => destruct H
  end;
  try match goal with H : kind ?s = ?k |- _ => pose proof (kind_is_len s k H ltac:(done)) end;
  try congruence; try lia.

(** ** Shared helpers *)

Definition no_longer {A} (s : pst) : A → pst → Prop := λ _ s', len s' ≤ len s.
Definition shorter {A} (s : pst) : A → pst → Prop := λ _ s', len s' < len s.
(** A result that is not nil has read a token. *)
Definition progress {A} (s : pst) (x : option A) (s' : pst) : Prop := len s' ≤ len s ∧ (is_Some x → len s' < len s).
Definition progress_expr (s : pst) (e : expr) (s' : pst) : Prop := len s' ≤ len s ∧ (is_nil e = false → len s' < len s).

Lemma dotted_rest_returns fuel : ∀ s, len s < fuel → returns (dotted_rest fuel) s (no_longer s).
Proof.
  induction fuel as [|fuel IH]; intros s Hf; [lia|]. cbn [dotted_rest]. repeat returns_step; unfold no_longer; measure.
  eapply returns_mono; [apply IH|]; measure. unfold no_longer. intros. apply returns_ret. measure.
Qed.
Lemma dotted_returns fuel s : len s ≤ fuel →
  returns (parseDottedPath fuel) s (λ ps s', len s' ≤ len s ∧ (ps ≠ [] → len s' < len s) ∧ (kind s = KindIdent → len s' < len s)).
Proof.
  intros Hf. unfold parseDottedPath. do 2 returns_step. destruct H as [[[y ->] H]|(-> & Hk & H)].
  - returns_step. eapply returns_mono; [apply dotted_rest_returns; lia|]. unfold no_longer. intros. apply returns_ret. repeat split; intros; lia.
  - apply returns_ret. repeat split; [lia|done|done].
Qed.

Lemma string_list_returns fuel : ∀ s, len s < fuel → returns (string_list fuel) s (no_longer s).
Proof.
  induction fuel as [|fuel IH]; intros s Hf; [lia|]. cbn [string_list]. do 3 returns_step; [apply returns_ret; unfold no_longer; lia|].
  returns_step.
  - returns_step. apply returns_string. intros x s1 _ Hx Hn. assert (is_Some x) as Hs by (destruct x; [done|by specialize (Hn eq_refl)]).
    specialize (Hx Hs). returns_step. eapply returns_mono; [apply IH; lia|]. unfold no_longer. intros. returns_step. lia.
  - do 4 returns_step. eapply returns_mono; [apply IH; measure|]. unfold no_longer. intros. measure.
Qed.
Lemma string_block_returns fuel s : len s ≤ fuel → returns (parseStringListBlock fuel) s (no_longer s).
Proof.
  intros Hf. unfold parseStringListBlock. do 3 returns_step; [|returns_step; unfold no_longer; measure]. returns_step.
  eapply returns_mono; [apply string_list_returns; measure|]. unfold no_longer. intros. repeat returns_step. measure.
Qed.

(** ** Expressions *)

Section expressions.
(** The recursive call returns on fewer than [B] tokens; the fuel of the loops
    exceeds [B]. *)
Context (rec : P expr) (fuel B : nat).
Hypothesis rec_returns : ∀ s, len s < B → returns rec s (progress_expr s).
Hypothesis fuel_enough : B < fuel.

Lemma arg_returns s : len s < B → returns (parseArg rec) s (progress s).
Proof.
  intros Hs. unfold parseArg. do 4 returns_step. returns_step.
  - apply andb_true_iff in E as [Ek _]. apply bool_decide_eq_true in Ek. do 2 returns_step. destruct H0 as [[_ H0]|(_ & H0 & _)]; [|done].
    do 2 returns_step. returns_step. eapply returns_mono; [apply rec_returns; lia|]. intros ev sv [Hl _]. returns_step.
    split; [lia|intros _; lia].
  - returns_step. eapply returns_mono; [by apply rec_returns|]. intros ev sv [Hl Hn]. returns_step. split; [lia|].
    destruct (is_nil ev); [by intros [? ?]|by intros _; apply Hn].
Qed.

Lemma args_loop_returns f : ∀ s, len s < B → len s < f ∨ (0 < f ∧ ends_list (kind s) = true) → returns (args_loop rec f) s (no_longer s).
Proof.
  induction f as [|f IH]; intros s Hs Hf; [lia|]. cbn [args_loop]. do 3 returns_step; [returns_step; unfold no_longer; lia|].
  destruct Hf as [Hf|[_ Hf]]; [|congruence]. pose proof (ends_list_len s E).
  returns_step. eapply returns_mono; [by apply arg_returns|]. intros [a|] s1 [Hl Hp].
  - specialize (Hp ltac:(by eexists)). do 3 returns_step; [|returns_step; unfold no_longer; lia]. do 2 returns_step. returns_step.
    eapply returns_mono; [apply IH; lia|]. unfold no_longer. intros. returns_step. lia.
  - do 2 returns_step. eapply returns_mono; [apply IH; [lia|]|].
    + destruct H0 as [?|[? ?]]; [left; lia|right]. split; [lia|done].
    + unfold no_longer. intros. lia.
Qed.
Lemma args_returns s : len s ≤ B → returns (parseArgs rec fuel) s (no_longer s).
Proof.
  intros Hs. unfold parseArgs. do 3 returns_step; [|returns_step; unfold no_longer; measure]. returns_step.
  eapply returns_mono; [apply args_loop_returns; [measure|left; measure]|]. unfold no_longer. intros. repeat returns_step. measure.
Qed.

Lemma object_loop_returns f : ∀ s, len s < B → len s < f → returns (object_loop rec f) s (no_longer s).
Proof.
  induction f as [|f IH]; intros s Hs Hf; [lia|]. cbn [object_loop]. do 3 returns_step; [returns_step; unfold no_longer; lia|].
  returns_step; [do 2 returns_step|returns_step; [do 5 returns_step; [returns_step|do 2 returns_step]|do 4 returns_step]].
  - eapply returns_mono; [apply IH; lia|]. unfold no_longer. intros. lia.
  - eapply returns_mono; [apply rec_returns; measure|]. intros ev sv [Hl _]. returns_step.
    eapply returns_mono; [apply IH; measure|]. unfold no_longer. intros. returns_step. measure.
  - eapply returns_mono; [apply IH; measure|]. unfold no_longer. intros. measure.
  - eapply returns_mono; [apply IH; measure|]. unfold no_longer. intros. measure.
Qed.
Lemma object_returns s : len s ≤ B → returns (parseObjectLiteral rec fuel) s (λ e s', is_nil e = false ∧ len s' ≤ len s ∧ (kind s = KindLBrace → len s' < len s)).
Proof.
  intros Hs. unfold parseObjectLiteral. do 3 returns_step; [|returns_step; split; [done|split; intros; measure]]. returns_step.
  eapply returns_mono; [apply object_loop_returns; measure|]. unfold no_longer. intros. repeat returns_step. split; [done|split; intros; measure].
Qed.

Lemma number_returns s : kind s = KindNumber → returns parseNumber s (progress_expr s).
Proof.
  intros Hk. pose proof (kind_is_len s _ Hk ltac:(done)). unfold parseNumber. repeat returns_step; split; intros; measure.
Qed.

Lemma primary_returns s : len s ≤ B → returns (parsePrimary rec fuel) s (progress_expr s).
Proof.
  intros Hs. unfold parsePrimary. do 2 returns_step.
  assert (returns (error_here ;; mret NilExpr) s (progress_expr s)) as Hdefault.
  { do 3 returns_step. split; [lia|done]. }
  destruct (kind s) eqn:Ek; try exact Hdefault; clear Hdefault; pose proof (kind_is_len s _ Ek ltac:(done)) as Hl.
  - do 5 returns_step.
    + do 3 returns_step. split; intros; lia.
    + returns_step. eapply returns_mono; [apply dotted_returns; lia|]. intros ps sv (Hle & Hne & Hid).
      specialize (Hid Ek). destruct ps as [|p ps]; [returns_step; split; [lia|done]|]. do 3 returns_step.
      * returns_step. eapply returns_mono; [apply args_returns; lia|]. unfold no_longer. intros. returns_step. split; intros; lia.
      * returns_step. split; intros; lia.
  - eapply returns_mono; [by apply object_returns|]. intros ev sv (Hn & Hle & Hlt). specialize (Hlt Ek). split; [lia|done].
  - do 3 returns_step. eapply returns_mono; [apply rec_returns; lia|]. intros ev sv [Hle _]. do 3 returns_step. split; intros; measure.
  - do 5 returns_step. split; intros; lia.
  - by apply number_returns.
Qed.

Lemma unary_returns f : ∀ s, len s ≤ B → len s < f → returns (parseUnary rec fuel f) s (progress_expr s).
Proof.
  induction f as [|f IH]; intros s Hs Hf; [lia|]. cbn [parseUnary]. do 3 returns_step; [|by apply primary_returns].
  pose proof (kind_is_len s _ e ltac:(done)). do 3 returns_step. eapply returns_mono; [apply IH; lia|]. intros ev sv [Hle _]. returns_step.
  split; intros; lia.
Qed.

Lemma comparison_len s : isComparisonOp (kind s) = true → 0 < len s.
Proof. intros H%bool_decide_eq_true. apply kind_len. intros E. rewrite E in H. by destruct_or! H. Qed.

Lemma comparison_returns s : len s ≤ B → returns (parseComparison rec fuel) s (progress_expr s).
Proof.
  intros Hs. unfold parseComparison. returns_step. eapply returns_mono; [apply unary_returns; lia|]. intros ev sv [Hle Hlt]. do 3 returns_step.
  - returns_step. split; [done|]. exact Hlt.
  - apply orb_false_iff in E as [He Ho%negb_false_iff]. specialize (Hlt He). do 3 returns_step.
    eapply returns_mono; [apply unary_returns; lia|]. intros ew sw [Hle' _]. do 3 returns_step.
    destruct (isComparisonOp _); repeat returns_step; split; intros; lia.
Qed.

(** The loops over operands on the left; without a left operand they stop. *)
Definition keeps_nil (s : pst) (e : expr) (e' : expr) (s' : pst) : Prop := len s' ≤ len s ∧ (is_nil e = true → is_nil e' = true).
Lemma keeps_progress s e sv e' s' : progress_expr s e sv → keeps_nil sv e e' s' → progress_expr s e' s'.
Proof.
  intros [Hle Hlt] [Hle' Hn]. split; [lia|]. intros He. destruct (is_nil e); [by rewrite Hn in He|]. specialize (Hlt eq_refl). lia.
Qed.

Lemma and_loop_returns f : ∀ s e, len s ≤ B → len s < f → returns (and_loop rec fuel f e) s (keeps_nil s e).
Proof.
  induction f as [|f IH]; intros s e Hs Hf; [lia|]. cbn [and_loop]. do 3 returns_step; [|returns_step; done].
  apply andb_true_iff in E as [He%negb_true_iff Hk%bool_decide_eq_true]. pose proof (kind_is_len s _ Hk ltac:(done)). do 3 returns_step.
  eapply returns_mono; [apply comparison_returns; lia|]. intros ev sv [Hle _].
  eapply returns_mono; [apply IH; lia|]. intros ew sw [Hle' _]. split; [lia|congruence].
Qed.
Lemma and_returns s : len s ≤ B → returns (parseAnd rec fuel) s (progress_expr s).
Proof.
  intros Hs. unfold parseAnd. returns_step. eapply returns_mono; [by apply comparison_returns|]. intros ev sv Hp. destruct (Hp) as [Hle _].
  eapply returns_mono; [apply and_loop_returns; lia|]. intros ew sw. by apply keeps_progress.
Qed.

Lemma or_loop_returns f : ∀ s e, len s ≤ B → len s < f → returns (or_loop rec fuel f e) s (keeps_nil s e).
Proof.
  induction f as [|f IH]; intros s e Hs Hf; [lia|]. cbn [or_loop]. do 3 returns_step; [|returns_step; done].
  apply andb_true_iff in E as [He%negb_true_iff Hk%bool_decide_eq_true]. pose proof (kind_is_len s _ Hk ltac:(done)). do 3 returns_step.
  eapply returns_mono; [apply and_returns; lia|]. intros ev sv [Hle _].
  eapply returns_mono; [apply IH; lia|]. intros ew sw [Hle' _]. split; [lia|congruence].
Qed.
Lemma or_returns s : len s ≤ B → returns (parseOr rec fuel) s (progress_expr s).
Proof.
  intros Hs. unfold parseOr. returns_step. eapply returns_mono; [by apply and_returns|]. intros ev sv Hp. destruct (Hp) as [Hle _].
  eapply returns_mono; [apply or_loop_returns; lia|]. intros ew sw. by apply keeps_progress.
Qed.
End expressions.

Lemma expr_returns fuel : ∀ s, len s + 2 ≤ fuel → returns (parseExpr fuel) s (progress_expr s).
Proof.
  induction fuel as [|fuel IH]; intros s Hf; [lia|]. cbn [parseExpr]. apply (or_returns _ _ (len s)); [|lia|lia].
  intros s' Hs. apply IH. lia.
Qed.

(** ** Statements *)

Lemma limit_returns s : returns limit_clause s (no_longer s).
Proof. unfold limit_clause, parseLimit, no_longer. repeat returns_step; lia. Qed.

Section statements.
(** The recursive call returns on fewer than [B] tokens. *)
Context (rec : P (option stmt)) (fuel B : nat).
Hypothesis rec_returns : ∀ s, len s < B → returns rec s (progress s).
Hypothesis fuel_enough : B + 2 ≤ fuel.

Lemma block_loop_returns f : ∀ s, len s < B → len s < f → returns (block_loop rec f) s (no_longer s).
Proof.
  induction f as [|f IH]; intros s Hs Hf; [lia|]. cbn [block_loop]. do 3 returns_step; [returns_step; unfold no_longer; lia|].
  returns_step. eapply returns_mono; [by apply rec_returns|]. intros [x|] sv [Hle Hlt].
  - specialize (Hlt ltac:(by eexists)). returns_step. eapply returns_mono; [apply IH; lia|]. unfold no_longer. intros. returns_step. lia.
  - do 2 returns_step. destruct (decide (len sv < len s)) as [Hd|Hd]; eapply returns_mono; [apply IH; lia| |apply IH; lia|]; unfold no_longer; intros; lia.
Qed.
Lemma block_returns s : len s ≤ B → returns (parseBlock rec fuel) s (no_longer s).
Proof.
  intros Hs. unfold parseBlock. do 3 returns_step; [|returns_step; unfold no_longer; measure]. returns_step.
  eapply returns_mono; [apply block_loop_returns; measure|]. unfold no_longer. intros. repeat returns_step. measure.
Qed.

Lemma stmt_expr_returns s : len s ≤ B → returns (parseExpr fuel) s (progress_expr s).
Proof. intros Hs. apply expr_returns. lia. Qed.

Lemma with_loop_returns f : ∀ s, len s ≤ B → len s < f → returns (with_loop fuel f) s (no_longer s).
Proof.
  induction f as [|f IH]; intros s Hs Hf; [lia|]. cbn [with_loop]. do 3 returns_step; [returns_step; unfold no_longer; lia|].
  returns_step. eapply returns_mono; [apply (arg_returns _ fuel (S B)); [intros; apply expr_returns; lia|lia..]|]. intros [x|] sv [Hle Hlt].
  - specialize (Hlt ltac:(by eexists)). do 3 returns_step. do 1 returns_step.
    + returns_step. returns_step. eapply returns_mono; [apply IH; lia|]. unfold no_longer. intros. returns_step. lia.
    + returns_step. returns_step. eapply returns_mono; [apply IH; lia|]. unfold no_longer. intros. returns_step. lia.
  - do 2 returns_step. eapply returns_mono; [apply IH; lia|]; unfold no_longer; intros; lia.
Qed.
Lemma with_returns s : len s ≤ B → returns (parseApprovalWith fuel) s (no_longer s).
Proof.
  intros Hs. unfold parseApprovalWith. do 3 returns_step; [|returns_step; unfold no_longer; measure]. returns_step.
  eapply returns_mono; [apply with_loop_returns; measure|]. unfold no_longer. intros. repeat returns_step. measure.
Qed.

Lemma approval_loop_returns f : ∀ s seen st, len s ≤ B → len s < f → returns (approval_loop fuel f seen st) s (no_longer s).
Proof.
  induction f as [|f IH]; intros s seen st Hs Hf; [lia|]. cbn [approval_loop].
  assert (∀ s' seen' st', len s' < len s → returns (approval_loop fuel f seen' st') s' (no_longer s)) as Hnext.
  { intros s' seen' st' Hl. eapply returns_mono; [apply IH; lia|]. unfold no_longer. intros. lia. }
  returns_step. apply returns_cur. intros t Ht. rewrite Ht. returns_step; [returns_step; unfold no_longer; lia|].
  returns_step; [do 4 returns_step; apply Hnext; measure|]. cbv zeta. do 3 returns_step.
  assert (∀ s', len s' < len s → returns
    (if (tk_Lit t =? "description")%string then d ← parseStringLit; approval_loop fuel f (tk_Lit t :: seen) (mkApproval d (ap_redact st) (ap_with st))
     else if (tk_Lit t =? "redactKeys")%string then r ← parseStringListBlock fuel; approval_loop fuel f (tk_Lit t :: seen) (mkApproval (ap_description st) r (ap_with st))
     else if (tk_Lit t =? "with")%string then w ← parseApprovalWith fuel; approval_loop fuel f (tk_Lit t :: seen) (mkApproval (ap_description st) (ap_redact st) w)
     else errorf (tk_Pos t) ;; syncLine ;; approval_loop fuel f (tk_Lit t :: seen) st) s' (no_longer s)) as Hfield.
  { intros s1 Hl. returns_step; [|returns_step; [|returns_step]].
    - do 2 returns_step. apply Hnext. lia.
    - returns_step. eapply returns_mono; [apply string_block_returns; lia|]. intros r sv Hr. unfold no_longer in Hr. apply Hnext. lia.
    - returns_step. eapply returns_mono; [apply with_returns; lia|]. intros r sv Hr. unfold no_longer in Hr. apply Hnext. lia.
    - do 4 returns_step. apply Hnext. lia. }
  do 2 returns_step; apply Hfield; lia.
Qed.
Lemma approval_returns s : 0 < len s → len s ≤ B → returns (parseApproval fuel) s (shorter s).
Proof.
  intros Hl Hs. unfold parseApproval. do 7 returns_step; [|returns_step; unfold shorter; measure]. returns_step.
  eapply returns_mono; [apply approval_loop_returns; measure|]. unfold no_longer, shorter. intros. repeat returns_step. measure.
Qed.

Lemma parallel_loop_returns f : ∀ s, len s ≤ B → len s < f → returns (parallel_loop fuel f) s (no_longer s).
Proof.
  induction f as [|f IH]; intros s Hs Hf; [lia|]. cbn [parallel_loop]. do 3 returns_step; [returns_step; unfold no_longer; lia|].
  do 3 returns_step.
  - do 4 returns_step. returns_step. eapply returns_mono; [apply stmt_expr_returns; measure|]. intros ev sv [Hle _]. returns_step.
    eapply returns_mono; [apply IH; measure|]. unfold no_longer. intros. returns_step. measure.
  - do 4 returns_step. eapply returns_mono; [apply IH; measure|]. unfold no_longer. intros. measure.
Qed.
Lemma parallel_returns s : 0 < len s → len s ≤ B → returns (parseParallel fuel) s (shorter s).
Proof.
  intros Hl Hs. unfold parseParallel. do 5 returns_step; [|returns_step; unfold shorter; measure]. returns_step.
  eapply returns_mono; [apply parallel_loop_returns; measure|]. unfold no_longer, shorter. intros. repeat returns_step. measure.
Qed.

(** Compound statements: the first token is read, then expressions and blocks. *)
Lemma expr_then {A} (f : expr → P A) s0 s Q :
  len s ≤ len s0 → len s0 ≤ B → (∀ e s', len s' ≤ len s → returns (f e) s' Q) → returns (parseExpr fuel ≫= f) s Q.
Proof. intros Hl Hs H. returns_step. eapply returns_mono; [apply stmt_expr_returns; lia|]. intros ev sv [Hle _]. by apply H. Qed.
Lemma block_then {A} (f : list stmt → P A) s0 s Q :
  len s ≤ len s0 → len s0 ≤ B → (∀ l s', len s' ≤ len s → returns (f l) s' Q) → returns (parseBlock rec fuel ≫= f) s Q.
Proof. intros Hl Hs H. returns_step. eapply returns_mono; [apply block_returns; lia|]. intros ev sv Hle. by apply H. Qed.
Lemma limit_then {A} (f : Z → P A) s Q : (∀ n s', len s' ≤ len s → returns (f n) s' Q) → returns (limit_clause ≫= f) s Q.
Proof. intros H. returns_step. eapply returns_mono; [apply limit_returns|]. intros ev sv Hle. by apply H. Qed.

Lemma if_returns s : 0 < len s → len s ≤ B → returns (parseIf rec fuel) s (shorter s).
Proof.
  intros Hl Hs. unfold parseIf. do 2 returns_step. apply (expr_then _ s); [lia|lia|]. intros c s1 H1.
  apply (block_then _ s); [lia|lia|]. intros t s2 H2. do 3 returns_step; [|returns_step; unfold shorter; lia].
  pose proof (kind_is_len s2 _ e ltac:(done)). do 5 returns_step.
  - returns_step. eapply returns_mono; [apply rec_returns; lia|]. intros x sv [Hle _]. returns_step. unfold shorter. lia.
  - apply (block_then _ s); [lia|lia|]. intros l s4 H4. returns_step. unfold shorter. lia.
Qed.
Lemma for_returns b s : 0 < len s → len s ≤ B → returns (parseFor rec fuel b) s (shorter s).
Proof.
  intros Hl Hs. unfold parseFor. do 6 returns_step.
  assert (∀ x s1, len s1 < len s → returns (coll ← parseExpr fuel; body ← parseBlock rec fuel; mret (ForStmt x coll body b)) s1 (shorter s)) as H'.
  { intros x' s1 Hl1. apply (expr_then _ s); [lia|lia|]. intros c s2 H2. apply (block_then _ s); [lia|lia|]. intros l s3 H3.
    returns_step. unfold shorter. lia. }
  do 2 returns_step; returns_step; apply H'; measure.
Qed.
Lemma while_returns s : 0 < len s → len s ≤ B → returns (parseWhile rec fuel) s (shorter s).
Proof.
  intros Hl Hs. unfold parseWhile. do 2 returns_step. apply (expr_then _ s); [lia|lia|]. intros c s1 H1. apply limit_then. intros n s2 H2.
  apply (block_then _ s); [lia|lia|]. intros l s3 H3. returns_step. unfold shorter. lia.
Qed.
Lemma retry_returns s : 0 < len s → len s ≤ B → returns (parseRetry rec fuel) s (shorter s).
Proof.
  intros Hl Hs. unfold parseRetry. do 4 returns_step. apply (expr_then _ s); [lia|lia|]. intros c s1 H1. apply limit_then. intros n s2 H2.
  apply (block_then _ s); [lia|lia|]. intros l s3 H3. returns_step. unfold shorter. lia.
Qed.

Lemma some_returns m s : returns m s (shorter s) → returns (some_stmt m) s (progress s).
Proof.
  intros H. unfold some_stmt. apply returns_bind. eapply returns_mono; [exact H|]. unfold shorter. intros x sv Hl. apply returns_ret.
  split; [lia|intros _; lia].
Qed.

Lemma stmt_step_returns s : len s ≤ B → returns (parseStmt_step rec fuel) s (progress s).
Proof.
  intros Hs. unfold parseStmt_step. do 2 returns_step.
  assert (returns (error_here ;; mret None) s (progress (A:=stmt) s)) as Hdefault.
  { do 3 returns_step. split; [lia|by intros [? ?]]. }
  destruct (kind s) eqn:Ek; try exact Hdefault; clear Hdefault; pose proof (kind_is_len s _ Ek ltac:(done)) as Hl.
  - do 7 returns_step; [by apply some_returns, retry_returns|]. returns_step; [by apply some_returns, approval_returns|]. returns_step.
    + do 4 returns_step. apply (expr_then _ s); [measure|lia|]. intros v s1 H'. returns_step. split; intros; measure.
    + returns_step. eapply returns_mono; [by apply stmt_expr_returns|]. intros v s1 [Hle Hlt]. returns_step.
      split; [lia|]. destruct (is_nil v); [by intros [? ?]|by intros _; apply Hlt].
  - do 3 returns_step; [|by apply some_returns, parallel_returns]. do 2 returns_step.
    assert (1 < len s) by naive_solver. eapply returns_mono; [apply some_returns, for_returns; lia|]. intros x sv [Hle Hlt]. split; [lia|intros; lia].
  - do 2 returns_step. apply (expr_then _ s); [lia|lia|]. intros v s1 H'. returns_step. split; intros; lia.
  - by apply some_returns, if_returns.
  - by apply some_returns, for_returns.
  - by apply some_returns, while_returns.
Qed.
End statements.

Lemma stmt_returns fuel : ∀ s, len s + 3 ≤ fuel → returns (parseStmt fuel) s (progress s).
Proof.
  induction fuel as [|fuel IH]; intros s Hf; [lia|]. cbn [parseStmt]. apply (stmt_step_returns _ _ (len s)); [|lia|lia].
  intros s' Hs. apply IH. lia.
Qed.

(** ** Workflows *)

Lemma params_loop_returns f : ∀ s, len s < f ∨ (0 < f ∧ ends_list (kind s) = true) → returns (params_loop f) s (no_longer s).
Proof.
  induction f as [|f IH]; intros s Hf; [lia|]. cbn [params_loop]. do 3 returns_step; [returns_step; unfold no_longer; lia|].
  destruct Hf as [Hf|[_ Hf]]; [|congruence]. pose proof (ends_list_len s E). returns_step. apply returns_ident. intros x s1 H1. destruct x as [x|].
  - assert (len s1 < len s) by measure. do 6 returns_step. do 1 returns_step.
    + do 3 returns_step. eapply returns_mono; [apply IH; left; measure|]. unfold no_longer. intros. returns_step. measure.
    + returns_step. unfold no_longer. measure.
  - do 2 returns_step. eapply returns_mono; [apply IH|].
    + destruct H0 as [?|[? ?]]; [left; measure|right]. split; [measure|done].
    + unfold no_longer. intros. measure.
Qed.
Lemma params_returns fuel s : len s ≤ fuel → returns (parseParams fuel) s (no_longer s).
Proof.
  intros Hs. unfold parseParams. do 3 returns_step; [|returns_step; unfold no_longer; measure]. returns_step.
  eapply returns_mono; [apply params_loop_returns; left; measure|]. unfold no_longer. intros. repeat returns_step. measure.
Qed.

Lemma effect_returns fuel s : len s ≤ fuel → kind s = KindIdent → returns (parseEffectRef fuel) s (shorter s).
Proof.
  intros Hs Hk. unfold parseEffectRef. do 3 returns_step. eapply returns_mono; [by apply dotted_returns|]. intros ps s1 (Hle & _ & Hlt). specialize (Hlt Hk).
  unfold shorter. destruct ps as [|p ps]; repeat returns_step; lia.
Qed.
Lemma effects_loop_returns fuel f : ∀ s, len s ≤ fuel → len s < f → returns (effects_loop f fuel) s (no_longer s).
Proof.
  induction f as [|f IH]; intros s Hs Hf; [lia|]. cbn [effects_loop]. do 3 returns_step; [returns_step; unfold no_longer; lia|].
  returns_step.
  - do 4 returns_step. eapply returns_mono; [apply IH; measure|]. unfold no_longer. intros. measure.
  - returns_step. eapply returns_mono; [apply effect_returns; [done|by destruct (decide (kind s = KindIdent))]|]. unfold shorter. intros e sv Hl.
    do 3 returns_step. do 1 returns_step; (do 2 returns_step; eapply returns_mono; [apply IH; lia|]; unfold no_longer; intros; returns_step; lia).
Qed.
Lemma effects_returns fuel s : len s ≤ fuel → returns (parseEffects fuel) s (no_longer s).
Proof.
  intros Hs. unfold parseEffects. do 3 returns_step; [|returns_step; unfold no_longer; measure]. returns_step.
  eapply returns_mono; [apply effects_loop_returns; measure|]. unfold no_longer. intros. repeat returns_step. measure.
Qed.

Lemma header_returns fuel f : ∀ s c, len s ≤ fuel → len s < f → returns (header_loop f fuel c) s (no_longer s).
Proof.
  induction f as [|f IH]; intros s c Hs Hf; [lia|]. cbn [header_loop].
  assert (∀ s' c', len s' < len s → returns (header_loop f fuel c') s' (no_longer s)) as Hnext.
  { intros s' c' Hl. eapply returns_mono; [apply IH; lia|]. unfold no_longer. intros. lia. }
  assert (∀ b c, (b = true → kind s = KindIdent) → b && c = true → 0 < len s) as Hpos.
  { intros b c' Hb [Hb' _]%andb_true_iff. specialize (Hb Hb'). by apply (kind_is_len s _ Hb). }
  do 6 returns_step. returns_step; [apply Hpos in E; [|done]|returns_step; [apply Hpos in E0; [|done]|returns_step; [apply Hpos in E1; [|done]|]]].
  - do 4 returns_step. apply Hnext. lia.
  - do 4 returns_step. apply Hnext. measure.
  - do 3 returns_step. eapply returns_mono; [apply effects_returns; lia|]. unfold no_longer. intros. apply Hnext. lia.
  - returns_step. unfold no_longer. lia.
Qed.

Lemma workflow_returns fuel s : 0 < len s → len s + 4 ≤ fuel → returns (parseWorkflow fuel) s (shorter s).
Proof.
  intros Hl Hf. unfold parseWorkflow. do 5 returns_step. eapply returns_mono; [apply params_returns; measure|]. unfold no_longer at 1. intros ps s1 H1.
  assert (∀ r s2, len s2 ≤ len s1 → returns (c ← header_loop fuel fuel (mkClauses None None []); body ← parseBlock (parseStmt fuel) fuel;
    mret (mkWorkflowDecl x ps r (cl_Description c) (cl_Policy c) (cl_Effects c) body)) s2 (shorter s)) as Hrest.
  { intros r s2 H2. returns_step. eapply returns_mono; [apply header_returns; measure|]. unfold no_longer at 1. intros c s3 H3. returns_step.
    eapply returns_mono; [apply (block_returns _ _ (len s3)); [intros; apply stmt_returns; measure|measure|lia]|]. unfold no_longer, shorter. intros.
    returns_step. measure. }
  do 3 returns_step. do 1 returns_step; [do 3 returns_step|returns_step]; apply Hrest; measure.
Qed.

(** ** Agents *)

Lemma model_returns s : returns parseModelRef s (no_longer s).
Proof. unfold parseModelRef, no_longer. repeat returns_step; measure. Qed.
Lemma file_returns s : returns parseFileRef s (no_longer s).
Proof. unfold parseFileRef, no_longer. repeat returns_step; measure. Qed.
Lemma constraintInt_returns s : returns constraintInt s (no_longer s).
Proof. unfold constraintInt, no_longer. repeat returns_step; measure. Qed.
Lemma constraintFloat_returns s : returns constraintFloat s (no_longer s).
Proof. unfold constraintFloat, no_longer. repeat returns_step; measure. Qed.
Lemma constraintBool_returns s : returns constraintBool s (no_longer s).
Proof. unfold constraintBool, no_longer. repeat returns_step; measure. Qed.

Lemma constraints_loop_returns f : ∀ s seen c, len s < f → returns (constraints_loop f seen c) s (no_longer s).
Proof.
  induction f as [|f IH]; intros s seen c Hf; [lia|]. cbn [constraints_loop].
  assert (∀ s' seen' c', len s' < len s → returns (constraints_loop f seen' c') s' (no_longer s)) as Hnext.
  { intros s' seen' c' Hl. eapply returns_mono; [apply IH; lia|]. unfold no_longer. intros. lia. }
  assert (∀ V (m : P V) g s' seen', (∀ s, returns m s (no_longer s)) → len s' < len s → returns (v ← m; constraints_loop f seen' (g v)) s' (no_longer s)) as Hfield.
  { intros V m g s' seen' Hm Hl. returns_step. eapply returns_mono; [apply Hm|]. intros v s1 H1. unfold no_longer in H1. apply Hnext. lia. }
  returns_step. apply returns_cur. intros t Ht. rewrite Ht. returns_step; [returns_step; unfold no_longer; lia|].
  returns_step; [do 4 returns_step; apply Hnext; measure|]. cbv zeta. do 3 returns_step. do 1 returns_step; returns_step.
  all: repeat (match goal with |- returns (if _ then _ else _) _ _ => returns_step end).
  all: lazymatch goal with
    | |- returns (errorf _ ≫= _) _ _ => do 4 returns_step; apply Hnext; lia
    | _ => apply Hfield; [first [apply constraintInt_returns|apply constraintFloat_returns|apply constraintBool_returns]|lia]
    end.
Qed.
Lemma constraints_returns fuel s : len s ≤ fuel → returns (parseConstraints fuel) s (no_longer s).
Proof.
  intros Hf. unfold parseConstraints. do 3 returns_step; [|returns_step; unfold no_longer; measure]. returns_step.
  eapply returns_mono; [apply constraints_loop_returns; measure|]. unfold no_longer. intros. repeat returns_step. measure.
Qed.

Lemma grant_returns fuel s : len s ≤ fuel → kind s = KindIdent → returns (parseGrant fuel) s (shorter s).
Proof.
  intros Hs Hk. unfold parseGrant. do 3 returns_step. eapply returns_mono; [by apply dotted_returns|]. intros ps s1 (Hle & _ & Hlt). specialize (Hlt Hk).
  unfold shorter. destruct ps as [|p ps]; [returns_step; lia|]. returns_step; [do 3 returns_step; lia|].
  destruct ps as [|x [|y ps]]; repeat returns_step; lia.
Qed.
Lemma grants_loop_returns fuel f : ∀ s, len s ≤ fuel → len s < f → returns (grants_loop f fuel) s (no_longer s).
Proof.
  induction f as [|f IH]; intros s Hs Hf; [lia|]. cbn [grants_loop]. do 3 returns_step; [returns_step; unfold no_longer; lia|].
  returns_step.
  - do 4 returns_step. eapply returns_mono; [apply IH; measure|]. unfold no_longer. intros. measure.
  - returns_step. eapply returns_mono; [apply grant_returns; [done|by destruct (decide (kind s = KindIdent))]|]. unfold shorter. intros e sv Hl.
    do 3 returns_step. do 1 returns_step; (do 2 returns_step; eapply returns_mono; [apply IH; lia|]; unfold no_longer; intros; returns_step; lia).
Qed.
Lemma grants_returns fuel s : len s ≤ fuel → returns (parseGrants fuel) s (no_longer s).
Proof.
  intros Hs. unfold parseGrants. do 3 returns_step; [|returns_step; unfold no_longer; measure]. returns_step.
  eapply returns_mono; [apply grants_loop_returns; measure|]. unfold no_longer. intros. repeat returns_step. measure.
Qed.

Lemma agent_loop_returns fuel f : ∀ s seen d, len s ≤ fuel → len s < f → returns (agent_loop f fuel seen d) s (no_longer s).
Proof.
  induction f as [|f IH]; intros s seen d Hs Hf; [lia|]. cbn [agent_loop].
  assert (∀ s' seen' d', len s' < len s → returns (agent_loop f fuel seen' d') s' (no_longer s)) as Hnext.
  { intros s' seen' d' Hl. eapply returns_mono; [apply IH; lia|]. unfold no_longer. intros. lia. }
  returns_step. apply returns_cur. intros t Ht. rewrite Ht. returns_step; [returns_step; unfold no_longer; lia|].
  returns_step; [do 4 returns_step; apply Hnext; measure|]. cbv zeta.
  assert (∀ s' d', len s' < len s → returns
    (if str_mem (tk_Lit t) seen then errorf (tk_Pos t) ;; agent_loop f fuel seen d else agent_loop f fuel (tk_Lit t :: seen) d') s' (no_longer s)) as Honce.
  { intros s' d' Hl. destruct (str_mem (tk_Lit t) seen); [do 2 returns_step; apply Hnext; lia|by apply Hnext]. }
  assert (∀ V (m : P V) g s', (∀ s, len s ≤ fuel → returns m s (no_longer s)) → len s' < len s → returns (v ← m;
    if str_mem (tk_Lit t) seen then errorf (tk_Pos t) ;; agent_loop f fuel seen d else agent_loop f fuel (tk_Lit t :: seen) (g v)) s' (no_longer s)) as Hfield.
  { intros V m g s' Hm Hl. returns_step. eapply returns_mono; [apply Hm; lia|]. intros v s1 H1. unfold no_longer in H1. apply Honce. lia. }
  assert (∀ s, returns ident s (no_longer s)) as Hid by (intros; apply returns_ident; unfold no_longer; intros; measure).
  assert (∀ s, returns parseStringLit s (no_longer s)) as Hstr by (intros; apply returns_string; unfold no_longer; intros; measure).
  repeat (match goal with |- returns (if (_ =? _)%string then _ else _) _ _ => returns_step end).
  all: try (do 2 returns_step; apply Hfield; [|lia]; intros; first [apply model_returns|apply Hid|apply Hstr|by apply constraints_returns|by apply grants_returns]).
  - do 5 returns_step; apply Hfield; [intros; apply file_returns|lia|intros; apply Hstr|lia].
  - do 4 returns_step. apply Hnext. lia.
Qed.

Lemma agent_returns fuel s : 0 < len s → len s + 4 ≤ fuel → returns (parseAgent fuel) s (shorter s).
Proof.
  intros Hl Hf. unfold parseAgent. do 7 returns_step; [|returns_step; unfold shorter; measure]. returns_step.
  eapply returns_mono; [apply agent_loop_returns; measure|]. unfold no_longer, shorter. intros. repeat returns_step. measure.
Qed.
