(* ===== verification/LangFuel.v ===== *)
(** * More fuel gives the same tree

    [m ⊑ m'] says that [m'] returns what [m] returns.  Every function of the parser is
    monotone in its fuel; with [LangTotal], the parser is a total function of the
    tokens and the fuel is immaterial. *)

From S2P Require Import Prelude GoNum GoText Value JsonNum LangLexer LangParser LangAgent LangTotal.

Local Open Scope nat_scope.

Definition extends {A} (m m' : P A) : Prop := ∀ s r, m s = Some r → m' s = Some r.
#[local] Infix "⊑" := extends (at level 70).

Lemma mono_refl {A} (m : P A) : m ⊑ m.
Proof. by intros s r. Qed.
Lemma mono_stuck {A} (m : P A) : stuck ⊑ m.
Proof. done. Qed.
Lemma mono_bind {A B} (m m' : P A) (f f' : A → P B) : m ⊑ m' → (∀ a, f a ⊑ f' a) → m ≫= f ⊑ m' ≫= f'.
Proof.
  intros Hm Hf s r. unfold mbind, P_bind. destruct (m s) as [[a s1]|] eqn:E; [|done]. rewrite (Hm _ _ E). apply Hf.
Qed.

Create HintDb fuel_mono.
#[local] Hint Resolve mono_refl : fuel_mono.

(** Down the code of a function, the calls with more fuel by their lemmas. *)
Ltac extends_code :=
  repeat (cbv zeta; cbn beta iota;
    match goal with
    | |- _ ⊑ _ => solve [auto with fuel_mono lia]
    | |- (_ ≫= _) ⊑ (_ ≫= _) => apply mono_bind; [|intros ?]
    | |- (if ?b then _ else _) ⊑ _ => destruct b
    | |- (match ?x with _ => _ end) ⊑ _ => destruct x
    end).

(** A loop: by induction on the smaller fuel. *)
Ltac extends_loop n n' :=
  let IH := fresh "IH" in
  revert n'; induction n as [|n IH]; intros [|n'] *; intros; [apply mono_stuck|apply mono_stuck|lia|];
  assert (n ≤ n') by lia; cbn -[extends]; extends_code.

Lemma dotted_rest_mono n n' : n ≤ n' → dotted_rest n ⊑ dotted_rest n'.
Proof. extends_loop n n'. Qed.
#[local] Hint Resolve dotted_rest_mono : fuel_mono.
Lemma dotted_mono n n' : n ≤ n' → parseDottedPath n ⊑ parseDottedPath n'.
Proof. intros. unfold parseDottedPath. extends_code. Qed.
#[local] Hint Resolve dotted_mono : fuel_mono.
Lemma string_list_mono n n' : n ≤ n' → string_list n ⊑ string_list n'.
Proof. extends_loop n n'. Qed.
#[local] Hint Resolve string_list_mono : fuel_mono.
Lemma string_block_mono n n' : n ≤ n' → parseStringListBlock n ⊑ parseStringListBlock n'.
Proof. intros. unfold parseStringListBlock. extends_code. Qed.
#[local] Hint Resolve string_block_mono : fuel_mono.

(** ** Expressions *)

Lemma arg_mono rec rec' : rec ⊑ rec' → parseArg rec ⊑ parseArg rec'.
Proof. intros. unfold parseArg. extends_code. Qed.
#[local] Hint Resolve arg_mono : fuel_mono.
Lemma args_loop_mono rec rec' n n' : rec ⊑ rec' → n ≤ n' → args_loop rec n ⊑ args_loop rec' n'.
Proof. extends_loop n n'. Qed.
Lemma object_loop_mono rec rec' n n' : rec ⊑ rec' → n ≤ n' → object_loop rec n ⊑ object_loop rec' n'.
Proof. extends_loop n n'. Qed.
#[local] Hint Resolve args_loop_mono object_loop_mono : fuel_mono.
Lemma primary_mono rec rec' n n' : rec ⊑ rec' → n ≤ n' → parsePrimary rec n ⊑ parsePrimary rec' n'.
Proof. intros. unfold parsePrimary, parseArgs, parseObjectLiteral. extends_code. Qed.
#[local] Hint Resolve primary_mono : fuel_mono.
Lemma unary_mono rec rec' f f' n n' : rec ⊑ rec' → f ≤ f' → n ≤ n' → parseUnary rec f n ⊑ parseUnary rec' f' n'.
Proof. extends_loop n n'. Qed.
#[local] Hint Resolve unary_mono : fuel_mono.
Lemma comparison_mono rec rec' n n' : rec ⊑ rec' → n ≤ n' → parseComparison rec n ⊑ parseComparison rec' n'.
Proof. intros. unfold parseComparison. extends_code. Qed.
#[local] Hint Resolve comparison_mono : fuel_mono.
Lemma and_loop_mono rec rec' f f' n n' e : rec ⊑ rec' → f ≤ f' → n ≤ n' → and_loop rec f n e ⊑ and_loop rec' f' n' e.
Proof. revert e. extends_loop n n'. Qed.
#[local] Hint Resolve and_loop_mono : fuel_mono.
Lemma and_mono rec rec' n n' : rec ⊑ rec' → n ≤ n' → parseAnd rec n ⊑ parseAnd rec' n'.
Proof. intros. unfold parseAnd. extends_code. Qed.
#[local] Hint Resolve and_mono : fuel_mono.
Lemma or_loop_mono rec rec' f f' n n' e : rec ⊑ rec' → f ≤ f' → n ≤ n' → or_loop rec f n e ⊑ or_loop rec' f' n' e.
Proof. revert e. extends_loop n n'. Qed.
#[local] Hint Resolve or_loop_mono : fuel_mono.
Lemma or_mono rec rec' n n' : rec ⊑ rec' → n ≤ n' → parseOr rec n ⊑ parseOr rec' n'.
Proof. intros. unfold parseOr. extends_code. Qed.
#[local] Hint Resolve or_mono : fuel_mono.
Lemma expr_mono n n' : n ≤ n' → parseExpr n ⊑ parseExpr n'.
Proof. extends_loop n n'. Qed.
#[local] Hint Resolve expr_mono : fuel_mono.

(** ** Statements *)

Lemma block_loop_mono rec rec' n n' : rec ⊑ rec' → n ≤ n' → block_loop rec n ⊑ block_loop rec' n'.
Proof. extends_loop n n'. Qed.
#[local] Hint Resolve block_loop_mono : fuel_mono.
Lemma block_mono rec rec' n n' : rec ⊑ rec' → n ≤ n' → parseBlock rec n ⊑ parseBlock rec' n'.
Proof. intros. unfold parseBlock. extends_code. Qed.
Lemma with_loop_mono f f' n n' : f ≤ f' → n ≤ n' → with_loop f n ⊑ with_loop f' n'.
Proof. extends_loop n n'. Qed.
#[local] Hint Resolve block_mono with_loop_mono : fuel_mono.
Lemma with_mono n n' : n ≤ n' → parseApprovalWith n ⊑ parseApprovalWith n'.
Proof. intros. unfold parseApprovalWith. extends_code. Qed.
#[local] Hint Resolve with_mono : fuel_mono.
Lemma approval_loop_mono f f' n n' seen st : f ≤ f' → n ≤ n' → approval_loop f n seen st ⊑ approval_loop f' n' seen st.
Proof. revert seen st. extends_loop n n'. Qed.
Lemma parallel_loop_mono f f' n n' : f ≤ f' → n ≤ n' → parallel_loop f n ⊑ parallel_loop f' n'.
Proof. extends_loop n n'. Qed.
#[local] Hint Resolve approval_loop_mono parallel_loop_mono : fuel_mono.
Lemma stmt_step_mono rec rec' n n' : rec ⊑ rec' → n ≤ n' → parseStmt_step rec n ⊑ parseStmt_step rec' n'.
Proof.
  intros. unfold parseStmt_step, some_stmt, parseRetry, parseApproval, parseParallel, parseWhile, parseIf, parseFor. extends_code.
Qed.
#[local] Hint Resolve stmt_step_mono : fuel_mono.
Lemma stmt_mono n n' : n ≤ n' → parseStmt n ⊑ parseStmt n'.
Proof. extends_loop n n'. Qed.
#[local] Hint Resolve stmt_mono : fuel_mono.

(** ** Declarations *)

Lemma params_loop_mono n n' : n ≤ n' → params_loop n ⊑ params_loop n'.
Proof. extends_loop n n'. Qed.
Lemma effect_mono n n' : n ≤ n' → parseEffectRef n ⊑ parseEffectRef n'.
Proof. intros. unfold parseEffectRef. extends_code. Qed.
#[local] Hint Resolve params_loop_mono effect_mono : fuel_mono.
Lemma effects_loop_mono f f' n n' : f ≤ f' → n ≤ n' → effects_loop n f ⊑ effects_loop n' f'.
Proof. extends_loop n n'. Qed.
#[local] Hint Resolve effects_loop_mono : fuel_mono.
Lemma effects_mono n n' : n ≤ n' → parseEffects n ⊑ parseEffects n'.
Proof. intros. unfold parseEffects. extends_code. Qed.
#[local] Hint Resolve effects_mono : fuel_mono.
Lemma header_loop_mono f f' n n' c : f ≤ f' → n ≤ n' → header_loop n f c ⊑ header_loop n' f' c.
Proof. revert c. extends_loop n n'. Qed.
#[local] Hint Resolve header_loop_mono : fuel_mono.
Lemma workflow_mono n n' : n ≤ n' → parseWorkflow n ⊑ parseWorkflow n'.
Proof. intros. unfold parseWorkflow, parseParams. extends_code. Qed.

Lemma constraints_loop_mono n n' seen c : n ≤ n' → constraints_loop n seen c ⊑ constraints_loop n' seen c.
Proof. revert seen c. extends_loop n n'. Qed.
Lemma grant_mono n n' : n ≤ n' → parseGrant n ⊑ parseGrant n'.
Proof. intros. unfold parseGrant. extends_code. Qed.
#[local] Hint Resolve constraints_loop_mono grant_mono : fuel_mono.
Lemma grants_loop_mono f f' n n' : f ≤ f' → n ≤ n' → grants_loop n f ⊑ grants_loop n' f'.
Proof. extends_loop n n'. Qed.
#[local] Hint Resolve grants_loop_mono : fuel_mono.
Lemma agent_loop_mono f f' n n' seen d : f ≤ f' → n ≤ n' → agent_loop n f seen d ⊑ agent_loop n' f' seen d.
Proof. revert seen d. unfold parseConstraints. extends_loop n n'. all: unfold parseConstraints, parseGrants; extends_code. Qed.
#[local] Hint Resolve agent_loop_mono : fuel_mono.
Lemma agent_mono n n' : n ≤ n' → parseAgent n ⊑ parseAgent n'.
Proof. intros. unfold parseAgent. extends_code. Qed.

(** ** The parser is total *)

(** C17: the parser of a workflow returns on every list of tokens, malformed ones
    included: with four more than their number as fuel it returns a declaration,
    having read at least one token, and any greater fuel gives the same result. *)
Theorem parseWorkflow_total s n :
  ps_toks s ≠ [] → length (ps_toks s) + 4 ≤ n →
  ∃ w s', parseWorkflow n s = Some (w, s') ∧ length (ps_toks s') < length (ps_toks s) ∧
    ∀ n', n ≤ n' → parseWorkflow n' s = Some (w, s').
Proof.
  intros Hne Hn. destruct (workflow_returns n s) as (w & s' & E & Hl); [unfold len; destruct (ps_toks s); [done|cbn; lia]|exact Hn|].
  exists w, s'. split; [done|]. split; [exact Hl|]. intros n' Hn'. by apply (workflow_mono n).
Qed.

(** [workflow x( { 1 = ) if}]: eleven tokens that are no declaration. *)
Definition malformed_source : string := "workflow x( { 1 = ) if} agent y".
Lemma parseWorkflow_total_witness :
  let s := mkPst (Lex malformed_source).1 (mkPos 1 32) [] in
  ps_toks s ≠ [] ∧ length (ps_toks s) + 4 ≤ 15 ∧
  ∃ w s', parseWorkflow 15 s = Some (w, s') ∧ length (ps_toks s') < length (ps_toks s) ∧
    ∀ n', 15 ≤ n' → parseWorkflow n' s = Some (w, s').
Proof.
  intros s. assert (ps_toks s ≠ []) as H1 by (vm_compute; discriminate).
  assert (length (ps_toks s) + 4 ≤ 15) as H2 by (apply Nat.leb_le; vm_compute; reflexivity).
  split; [exact H1|]. split; [exact H2|]. apply (parseWorkflow_total s 15 H1 H2).
Defined.

(** The parser of an agent, likewise. *)
Lemma parseAgent_total s n :
  ps_toks s ≠ [] → length (ps_toks s) + 4 ≤ n →
  ∃ d s', parseAgent n s = Some (d, s') ∧ length (ps_toks s') < length (ps_toks s) ∧
    ∀ n', n ≤ n' → parseAgent n' s = Some (d, s').
Proof.
  intros Hne Hn. destruct (agent_returns n s) as (w & s' & E & Hl); [unfold len; destruct (ps_toks s); [done|cbn; lia]|exact Hn|].
  exists w, s'. split; [done|]. split; [exact Hl|]. intros n' Hn'. by apply (agent_mono n).
Qed.
