(* ===== verification/LangUnstable.v ===== *)
(** * Sources that formatting changes

    [Print] is documented to be stable: the printed text of an error-free file parses
    to the same tree.  The conditions of [wf_expr], [wf_stmt] and [wf_string] that
    exclude trees an error-free source can have are needed: each lemma is a source
    that parses without a diagnostic and whose printed text does not read back. *)

From S2P Require Import Prelude GoNum GoText Value JsonNum GoQuote LangLexer LangText LangBlock LangParser LangPrint LangExprText LangWorkflow LangAgent.

Local Open Scope nat_scope.

Definition no_print : chars → bool := λ _, false.

(** The text of an expression, read: the tree and the number of diagnostics of lexer
    and parser. *)
Definition read_text {A} (m : nat → P A) (t : string) : option (A * nat) :=
  let (ts, l) := Lex t in
  match m (length ts + 4) (mkPst ts (mkPos 0 0) []) with
  | Some (a, s) => Some (a, length (lx_diags l) + length (ps_diags s))
  | None => None
  end.

(** A chained comparison is an error, and the printer omits the parentheses of a
    comparison on the left of another. *)
Lemma chained_comparison :
  let e := BinaryExpr KindEqEq (BinaryExpr KindEqEq (RefExpr ["a"]) (RefExpr ["b"])) (RefExpr ["c"]) in
  read_text parseExpr "(a == b) == c" = Some (e, 0) ∧ printExpr no_print e = "a == b == c" ∧
  ∃ e', read_text parseExpr "a == b == c" = Some (e', 1).
Proof. split; [vm_compute; reflexivity|]. split; [reflexivity|]. eexists. vm_compute. reflexivity. Qed.

(** A float with an integral value prints as an integer literal. *)
Lemma integral_float :
  ∃ f, read_text parseExpr "5.0" = Some (LitExpr (VFloat f), 0) ∧ printExpr no_print (LitExpr (VFloat f)) = "5" ∧
    read_text parseExpr "5" = Some (LitExpr (VInt 5), 0).
Proof. eexists. split; [vm_compute; reflexivity|]. by vm_compute. Qed.

(** A large float prints with an exponent, which the lexer has no syntax for. *)
Lemma float_exponent :
  ∃ f, read_text parseExpr "1000000.5" = Some (LitExpr (VFloat f), 0) ∧ printExpr no_print (LitExpr (VFloat f)) = "1.0000005e+06" ∧
    ∃ e, read_text parseExpr "1.0000005e+06" = Some (e, 1).
Proof. eexists. split; [vm_compute; reflexivity|]. split; [by vm_compute|]. eexists. vm_compute. reflexivity. Qed.

(** A control character prints as an escape the lexer does not know. *)
Lemma control_character :
  let v := String "001" "" in
  read_text parseExpr (String quote (v +:+ String quote "")) = Some (LitExpr (VStr v), 0) ∧
  ∃ t, printExpr no_print (LitExpr (VStr v)) = t ∧ ∃ e, read_text parseExpr t = Some (e, 1).
Proof. split; [by vm_compute|]. eexists. split; [vm_compute; reflexivity|]. eexists. vm_compute. reflexivity. Qed.

(** A positional payload argument that starts with a parenthesis becomes the
    argument list of the one before it. *)
Definition payload_workflow (p : list arg) : WorkflowDecl :=
  mkWorkflowDecl (Some "w") [] None None None [] [ApprovalStmt (Some "x") None [] p].
Lemma positional_payload :
  let c := BinaryExpr KindAndAnd (BinaryExpr KindOrOr (RefExpr ["a"]) (RefExpr ["b"])) (RefExpr ["c"]) in
  let w := payload_workflow [(None, RefExpr ["f"]); (None, c)] in
  read_text parseWorkflow "workflow w() { approval x { with { f, (a || b) && c } } }" = Some (w, 0) ∧
  ∃ w', read_text parseWorkflow (printWorkflow no_print w) = Some (w', 0) ∧ w' ≠ w.
Proof.
  split; [vm_compute; reflexivity|]. eexists. split; [vm_compute; reflexivity|]. discriminate.
Qed.

(** A value whose lines are all indented loses the common indentation in a block. *)
Lemma indented_block :
  let v := "  a" +:+ String newline " b" in
  let w d := mkWorkflowDecl (Some "w") [] None (Some d) None [] [] in
  read_text parseWorkflow ("workflow w() description " +:+ (Quote no_print v +:+ " {}")) = Some (w v, 0) ∧
  read_text parseWorkflow (printWorkflow no_print (w v)) = Some (w (" a" +:+ String newline "b"), 0).
Proof. split; vm_compute; reflexivity. Qed.
