(* ===== verification/LangExec.v ===== *)
(** * Lowering a workflow of the agent language ([internal/lang/lower/exec.go])

    [LowerExec] turns a parsed workflow into an execution program.  Nested calls
    are hoisted to calls bound to temporaries; the lowerer is a state monad over the
    diagnostics, the names in use, the counter of temporaries and the depth of
    parallel loops.  The operands of a statement come with the calls to run before
    them ([pre]). *)

From S2P Require Import Prelude Value ExecIR LowerYaml LangLexer LangParser.

Local Open Scope nat_scope.

Inductive exec_diag :=
  | NoEffect
  | ReturnInParallel
  | UnsupportedBinding
  | NoCalleeInCall
  | UnsupportedExpression
  | CallInCondition
  | UnsupportedCondition
  | BadComparisonOperand.

Record execLowerer := mkExecLowerer {
  el_diags : list exec_diag;
  el_used : gset string;
  el_tempN : nat;
  el_parallelDepth : nat;
}.

Definition L (A : Type) : Type := execLowerer → A * execLowerer.
#[export] Instance L_ret : MRet L := λ A a s, (a, s).
#[export] Instance L_bind : MBind L := λ A B f m s, let (a, s) := m s in f a s.

Definition diag (d : exec_diag) : L unit := λ s, ((), mkExecLowerer (el_diags s ++ [d]) (el_used s) (el_tempN s) (el_parallelDepth s)).
Definition parallel_depth : L nat := λ s, (el_parallelDepth s, s).
Definition set_parallel_depth (n : nat) : L unit := λ s, ((), mkExecLowerer (el_diags s) (el_used s) (el_tempN s) n).

(** [identName] of the lowering: the empty string for a missing identifier. *)
Definition ident_name (i : option string) : string := default "" i.

(** ** Names *)

Definition temp_name (n : nat) : string := "_t" +:+ pretty n.

(** The first unused name from number [n] on; one of the next [size used] and one
    numbers is. *)
Fixpoint fresh_from (fuel n : nat) (used : gset string) : nat :=
  match fuel with
  | O => n
  | S fuel => if decide (temp_name n ∈ used) then fresh_from fuel (S n) used else n
  end.
Definition freshTemp : L string := λ s,
  let n := fresh_from (S (size (el_used s))) (el_tempN s) (el_used s) in
  (temp_name n, mkExecLowerer (el_diags s) ({[ temp_name n ]} ∪ el_used s) (S n) (el_parallelDepth s)).

Definition reserveName (x : string) (used : gset string) : gset string :=
  if (x =? "")%string then used else {[ x ]} ∪ used.

Fixpoint reserve_stmt (s : stmt) (used : gset string) : gset string :=
  let reserve l used := foldl (λ used s, reserve_stmt s used) used l in
  match s with
  | AssignStmt x _ => reserveName x used
  | ParallelStmt bs => foldl (λ used b, reserveName b.1 used) used bs
  | IfStmt _ t e => reserve e (reserve t used)
  | ForStmt x _ b _ => reserve b (reserveName (ident_name x) used)
  | WhileStmt _ _ b | RetryStmt _ _ b => reserve b used
  | ExprStmt _ | ReturnStmt _ | ApprovalStmt _ _ _ _ => used
  end.
Definition reserve (l : list stmt) (used : gset string) : gset string := foldl (λ used s, reserve_stmt s used) used l.

(** ** Strings with tokens *)

Definition interpPath (inner : string) : list string := splitDotPath (trim_space inner).

Definition piece_operand (p : piece) : operand :=
  match p with LowerYaml.Text s => Lit (VStr s) | LowerYaml.Token inner => Ref (interpPath inner) end.

Definition stringTemplateValue (s : string) : option operand :=
  let ps := pieces s in
  if existsb is_token ps then
    match ps with
    | [LowerYaml.Token inner] => Some (Ref (interpPath inner))
    | _ => Some (Template (piece_operand <$> ps))
    end
  else None.

Definition literal (v : value) : operand :=
  match v with VStr s => default (Lit v) (stringTemplateValue s) | _ => Lit v end.

(** ** Conditions *)

Definition binOpString (k : Kind) : string :=
  match k with
  | KindEqEq => "==" | KindBangEq => "!=" | KindLt => "<" | KindLte => "<=" | KindGt => ">" | KindGte => ">="
  | KindAndAnd => "&&" | KindOrOr => "||" | _ => "?"
  end.

Definition lowerCondLeaf (e : expr) : L operand :=
  match e with
  | RefExpr path => mret (Ref path)
  | LitExpr v => mret (Lit v)
  | CallExpr _ _ => diag CallInCondition ;; mret (Lit VNil)
  | _ => diag BadComparisonOperand ;; mret (Lit VNil)
  end.

Fixpoint lowerCond (e : expr) : L ExecIR.expr :=
  match e with
  | BinaryExpr op x y =>
      if bool_decide (op = KindAndAnd ∨ op = KindOrOr) then
        x ← lowerCond x; y ← lowerCond y; mret (BinOp (binOpString op) x y)
      else x ← lowerCondLeaf x; y ← lowerCondLeaf y; mret (BinOp (binOpString op) (Leaf x) (Leaf y))
  | UnaryExpr x => x ← lowerCond x; mret (Not x)
  | RefExpr path => mret (Leaf (Ref path))
  | LitExpr v => mret (Leaf (Lit v))
  | CallExpr _ _ => diag CallInCondition ;; mret (Leaf (Lit (VBool false)))
  | ObjectExpr _ => diag UnsupportedCondition ;; mret (Leaf (Lit (VBool false)))
  | LangParser.NilExpr => mret (Leaf (Lit (VBool false)))
  end.

(** ** Values and calls *)

(** The single argument of an agent call, unnamed: the whole input document. *)
Definition isWholeDocumentCall (l : list arg) : bool :=
  match l with [(name, _)] => (ident_name name =? "")%string | _ => false end.

(** [spec.WholeDocumentArgKey]. *)
Definition WholeDocumentArgKey : string := "arg0".
Definition callArgKey (i : nat) (name : option string) (wholeDocument : bool) : string :=
  if wholeDocument then WholeDocumentArgKey
  else if (ident_name name =? "")%string then "arg" +:+ pretty i else ident_name name.

Definition usesFromCallee (callee : list string) : string :=
  match callee with
  | tool :: ops => "tool." +:+ (tool +:+ ("." +:+ join "." ops))
  | [] => ""
  end.

Section lower.
(** The single-identifier callees that are workflows. *)
Context (workflows : string → bool).

(** [len(callee.Parts) == 1 && !el.workflows[callee.Parts[0].Name]]. *)
Definition agent_callee (callee : list string) : bool :=
  match callee with [x] => negb (workflows x) | _ => false end.

(** The arguments from index [i], added to [out]. *)
Definition lowerArgs_ (lowerValue : expr → L (operand * list node)) (wholeDocument : bool) :
    list arg → nat → args → L (args * list node) :=
  fix go l i out :=
    match l with
    | [] => mret (out, [])
    | (name, e) :: l =>
        '(o, pre) ← lowerValue e;
        '(out, pre') ← go l (S i) (<[callArgKey i name wholeDocument := o]> out);
        mret (out, pre ++ pre')
    end.

Definition call_node (bind : string) (callee : list string) (a : args) (wholeDocument : bool) : L node :=
  match callee with
  | [] => diag NoCalleeInCall ;; mret (InvokeAgent bind "" ∅ false)
  | [name] => mret (if workflows name then InvokeWorkflow bind name a false false else InvokeAgent bind name a wholeDocument)
  | _ => mret (InvokeTool bind (usesFromCallee callee) a)
  end.

(** The node of a call and the calls to run before it. *)
Definition lowerCallNode_ (lowerValue : expr → L (operand * list node)) (bind : string) (callee : list string) (l : list arg) :
    L (node * list node) :=
  let wholeDocument := agent_callee callee && isWholeDocumentCall l in
  '(a, pre) ← lowerArgs_ lowerValue wholeDocument l 0 ∅;
  n ← call_node bind callee a wholeDocument;
  mret (n, pre).

Definition lowerFields_ (lowerValue : expr → L (operand * list node)) :
    list (string * expr) → L (list (string * operand) * list node) :=
  fix go l :=
    match l with
    | [] => mret ([], [])
    | (key, e) :: l =>
        '(o, pre) ← lowerValue e; '(fs, pre') ← go l; mret ((key, o) :: fs, pre ++ pre')
    end.

Fixpoint lowerValue (e : expr) : L (operand * list node) :=
  match e with
  | RefExpr path => mret (Ref path, [])
  | LitExpr v => mret (literal v, [])
  | CallExpr callee l =>
      temp ← freshTemp;
      '(n, pre) ← lowerCallNode_ lowerValue temp callee l;
      mret (Ref [temp], pre ++ [n])
  | ObjectExpr fields => '(fs, pre) ← lowerFields_ lowerValue fields; mret (Object fs, pre)
  | LangParser.NilExpr => mret (Lit VNil, [])
  | _ => diag UnsupportedExpression ;; mret (Lit VNil, [])
  end.
Definition lowerCallNode := lowerCallNode_ lowerValue.
Definition lowerArgs := λ l, lowerArgs_ lowerValue false l 0 ∅.

(** ** Statements *)

Definition lowerAssign (bind : string) (e : expr) : L (list node) :=
  match e with
  | CallExpr callee l => '(n, pre) ← lowerCallNode bind callee l; mret (pre ++ [n])
  | RefExpr path => mret [Let bind (Ref path)]
  | LitExpr v => mret [Let bind (Lit v)]
  | _ => diag UnsupportedBinding ;; mret []
  end.

Fixpoint lowerBranches (l : list (string * expr)) : L (list (string * list node)) :=
  match l with
  | [] => mret []
  | (bind, e) :: l => ns ← lowerAssign bind e; bs ← lowerBranches l; mret ((bind, ns) :: bs)
  end.
Definition lowerFork (l : list (string * expr)) : L node := bs ← lowerBranches l; mret (Fork bs).

Definition lowerStmts_ (lowerStmt : stmt → L (list node)) : list stmt → L (list node) :=
  fix go l :=
    match l with
    | [] => mret []
    | s :: l => ns ← lowerStmt s; rest ← go l; mret (ns ++ rest)
    end.

Fixpoint lowerStmt (s : stmt) : L (list node) :=
  let lowerStmts := lowerStmts_ lowerStmt in
  match s with
  | AssignStmt x v => lowerAssign x v
  | ExprStmt (CallExpr callee l) => '(n, pre) ← lowerCallNode "" callee l; mret (pre ++ [n])
  | ExprStmt _ => diag NoEffect ;; mret []
  | ParallelStmt l => n ← lowerFork l; mret [n]
  | IfStmt c t e => c ← lowerCond c; t ← lowerStmts t; e ← lowerStmts e; mret [Branch c t e]
  | ForStmt x coll b parallel =>
      '(coll, pre) ← lowerValue coll;
      d ← parallel_depth;
      set_parallel_depth (if parallel then S d else d) ;;
      b ← lowerStmts b;
      set_parallel_depth d ;;
      mret (pre ++ [Loop (ident_name x) coll b parallel])
  | WhileStmt c limit b => c ← lowerCond c; b ← lowerStmts b; mret [While c limit b]
  | RetryStmt c limit b => c ← lowerCond c; b ← lowerStmts b; mret [Retry c limit b]
  | ReturnStmt v =>
      d ← parallel_depth;
      if 0 <? d then diag ReturnInParallel ;; mret []
      else '(v, pre) ← lowerValue v; mret (pre ++ [Return v])
  | ApprovalStmt bind desc redact payload =>
      '(a, pre) ← lowerArgs payload;
      mret (pre ++ [Approval (ident_name bind) (default "" desc) redact a])
  end.
Definition lowerStmts := lowerStmts_ lowerStmt.

Definition workflow_params (wd : WorkflowDecl) : list string :=
  List.filter (λ x, negb (x =? "")%string) (fst <$> wd_Params wd).

Definition LowerExec (wd : WorkflowDecl) : program * list exec_diag :=
  let params := workflow_params wd in
  let used := reserve (wd_Body wd) (list_to_set params) in
  let (body, s) := lowerStmts (wd_Body wd) (mkExecLowerer [] used 0 0) in
  ({| Workflow := ident_name (wd_Name wd); Params := params; Body := body |}, el_diags s).
End lower.
