(* ===== verification/LangSemantics.v ===== *)
(** * The meaning of a workflow, and its lowering

    [sstmts] runs the statements of the agent language directly: a nested call is
    made before the operation it is an argument of, in source order, and its result
    takes its place.  The result is a process of the interpreter, so concurrency and
    errors are those of [ExecInterp].  [sim] relates the process of a lowered program
    to it: the same calls with the same arguments, the same concurrent constructs,
    the same outcome, whatever the calls return; call addresses, control records and
    temporaries are not observed. *)

From S2P Require Import Prelude Value ExecIR ExecEval ExecInterp LowerYaml LangLexer LangParser LangExec.

Local Open Scope nat_scope.

(** ** The source semantics *)

Section source.
Context (workflows : string → bool) (iterations : Z) (width : nat).

Definition unaddressed (wholeDocument : bool) : CallSite := mkCallSite "" [] [] wholeDocument.

(** The operation a callee names. *)
Definition callee_call (callee : list string) (a : scope) : call :=
  match callee with
  | [name] => if workflows name then CallWorkflow name a else CallAgent name a
  | _ => CallTool (usesFromCallee callee) a
  end.

Abbreviation value_sem := (LangParser.expr → scope → (operand → proc) → (error → proc) → proc).

Definition sargs_ (svalue : value_sem) (wholeDocument : bool) (sc : scope) (k : args → proc) (kerr : error → proc) :
    list arg → nat → args → proc :=
  fix go l i out :=
    match l with
    | [] => k out
    | (name, e) :: l => svalue e sc (λ o, go l (S i) (<[callArgKey i name wholeDocument := o]> out)) kerr
    end.

Definition scall_ (svalue : value_sem) (callee : list string) (l : list arg) (sc : scope) (k : value → proc) (kerr : error → proc) : proc :=
  let wholeDocument := agent_callee workflows callee && isWholeDocumentCall l in
  sargs_ svalue wholeDocument sc (λ a,
    PInvoke (unaddressed wholeDocument) (callee_call callee <$> evalArgs sc a) (λ r,
      match r with Ok v => k v | Err e => kerr e end)) kerr l 0 ∅.

Definition sfields_ (svalue : value_sem) (sc : scope) (kerr : error → proc) :
    list (string * LangParser.expr) → (list (string * operand) → proc) → proc :=
  fix go l k :=
    match l with
    | [] => k []
    | (key, e) :: l => svalue e sc (λ o, go l (λ fs, k ((key, o) :: fs))) kerr
    end.

(** The calls of an expression, then the expression with their results in place. *)
Fixpoint svalue (e : LangParser.expr) (sc : scope) (k : operand → proc) (kerr : error → proc) : proc :=
  match e with
  | RefExpr path => k (Ref path)
  | LitExpr v => k (literal v)
  | CallExpr callee l => scall_ svalue callee l sc (λ v, k (Lit v)) kerr
  | ObjectExpr fields => sfields_ svalue sc kerr fields (λ fs, k (Object fs))
  | _ => k (Lit VNil)
  end.
Definition scall := scall_ svalue.

(** Conditions are pure. *)
Definition cond_operand (e : LangParser.expr) (sc : scope) : res error value :=
  match e with RefExpr path => resolvePath sc path | LitExpr v => Ok v | _ => Ok VNil end.
Fixpoint scond (e : LangParser.expr) (sc : scope) : res error bool :=
  match e with
  | BinaryExpr op x y => evalBinOp (binOpString op) (scond x sc) (scond y sc) (cond_operand x sc) (cond_operand y sc)
  | UnaryExpr x => b ← scond x sc; mret (negb b)
  | RefExpr path => v ← resolvePath sc path; mret (truthy v)
  | LitExpr v => Ok (truthy v)
  | _ => Ok false
  end.

Abbreviation cont := (flow → proc).

Definition sassign (bind : string) (e : LangParser.expr) (sc : scope) (k : cont) : proc :=
  match e with
  | CallExpr callee l => scall callee l sc (λ v, k (FNext (bind_result sc bind v))) (λ e, k (FErr e))
  | RefExpr path => match resolvePath sc path with Ok v => k (FNext (bind_result sc bind v)) | Err e => k (FErr e) end
  | LitExpr v => k (FNext (bind_result sc bind v))
  | _ => k (FNext sc)
  end.

Definition sstmts_ (sstmt : stmt → scope → cont → proc) (k : cont) : list stmt → scope → proc :=
  fix go l sc :=
    match l with
    | [] => k (FNext sc)
    | s :: l => sstmt s sc (λ f, match f with FNext sc => go l sc | _ => k f end)
    end.

(** At most [rem] iterations while the condition holds. *)
Definition swhile (body : scope → cont → proc) (c : LangParser.expr) (k : cont) : nat → scope → proc :=
  fix go rem sc :=
    match rem with
    | O => k (FNext sc)
    | S rem =>
        match scond c sc with
        | Err e => k (FErr e)
        | Ok b => if b then body sc (λ f, match f with FNext sc => go rem sc | _ => k f end) else k (FNext sc)
        end
    end.
Definition sretry (body : scope → cont → proc) (c : LangParser.expr) (limit : Z) (k : cont) : nat → scope → proc :=
  fix go rem sc :=
    match rem with
    | O => k (FErr (ERetryExhausted limit))
    | S rem => body sc (λ f,
        match f with
        | FNext sc =>
            match scond c sc with Err e => k (FErr e) | Ok b => if b then k (FNext sc) else go rem sc end
        | _ => k f
        end)
    end.
Definition sfor (body : scope → cont → proc) (var : string) (parallel : bool) (items : list value) (sc : scope) (k : cont) : proc :=
  if (iterations <? Z.of_nat (length items))%Z then k (FErr (ETooManyItems (length items) iterations))
  else if parallel then execLoopParallel width (λ sc _ k, body sc k) var items [] sc k
  else execLoop_seq (λ sc _ k, body sc k) var [] k items 0 sc.

Fixpoint sstmt (s : stmt) (sc : scope) (k : cont) : proc :=
  let block l sc k := sstmts_ sstmt k l sc in
  match s with
  | AssignStmt x v => sassign x v sc k
  | ExprStmt x => sassign "" x sc k
  | ParallelStmt l => execFork width (fst <$> l) ((λ b, sassign b.1 b.2 sc PRet) <$> l) sc k
  | IfStmt c t e => match scond c sc with Err e => k (FErr e) | Ok b => block (if b then t else e) sc k end
  | ForStmt x coll b parallel =>
      svalue coll sc (λ o,
        match evalCollection sc o with
        | Err e => k (FErr e)
        | Ok items => sfor (block b) (ident_name x) parallel items sc k
        end) (λ e, k (FErr e))
  | WhileStmt c limit b => swhile (block b) c k (effectiveMax iterations limit) sc
  | RetryStmt c limit b => sretry (block b) c limit k (effectiveMax iterations limit) sc
  | ReturnStmt v =>
      svalue v sc (λ o, match evalValue sc o with Ok v => k (FDone sc v) | Err e => k (FErr e) end) (λ e, k (FErr e))
  | ApprovalStmt bind desc redact payload =>
      sargs_ svalue false sc (λ a,
        PInvoke (unaddressed false) (CallApproval (mkApprovalInfo (default "" desc) redact) <$> evalArgs sc a) (λ r,
          match r with Ok v => k (FNext (bind_result sc (ident_name bind) v)) | Err e => k (FErr e) end))
        (λ e, k (FErr e)) payload 0 ∅
  end.
Definition sstmts (l : list stmt) (sc : scope) (k : cont) : proc := sstmts_ sstmt k l sc.
End source.

(** ** Names *)

Fixpoint expr_names (e : LangParser.expr) : list string :=
  match e with
  | RefExpr path => take 1 path
  | LitExpr v => op_heads (literal v)
  | UnaryExpr x => expr_names x
  | BinaryExpr _ x y => expr_names x ++ expr_names y
  | CallExpr _ l => l ≫= λ a, match a with (_, e) => expr_names e end
  | ObjectExpr l => l ≫= λ f, match f with (_, e) => expr_names e end
  | LangParser.NilExpr => []
  end.

(** The names a statement reads or binds. *)
Fixpoint stmt_names (s : stmt) : list string :=
  let body l := l ≫= λ s, stmt_names s in
  match s with
  | AssignStmt x v => x :: expr_names v
  | ExprStmt x => expr_names x
  | ParallelStmt l => l ≫= λ b, b.1 :: expr_names b.2
  | ReturnStmt v => expr_names v
  | ApprovalStmt bind _ _ payload => ident_name bind :: (payload ≫= λ a, match a with (_, e) => expr_names e end)
  | IfStmt c t e => expr_names c ++ body t ++ body e
  | ForStmt x coll b _ => ident_name x :: expr_names coll ++ body b
  | WhileStmt c _ b | RetryStmt c _ b => expr_names c ++ body b
  end.

(** ** One schedule *)

(** What a run returns: the value of the Return that fired, [nil] without one. *)
Definition outcome (f : flow) : res error value :=
  match f with FNext _ => Ok VNil | FDone _ v => Ok v | FErr e => Err e end.
Definition suspends (f : flow) : bool := match f with FErr e => isSuspend e | _ => false end.

(** The calls made one after another, the branches of a concurrent construct in
    order; [ask] answers a call, on a state of its own.  Graphs, which no workflow of
    the language is lowered to, are left out. *)
Section in_order.
Context {W : Type} (ask : W → bool → call → W * res error value).
Fixpoint in_order (p : proc) (w : W) : W * option flow :=
  match p with
  | PRet f => (w, Some f)
  | PInvoke s (Ok c) k => let '(w, r) := ask w (site_wholeDocument s) c in in_order (k r) w
  | PInvoke s (Err e) k => in_order (k (Err e)) w
  | PControl _ _ k => in_order (k None) w
  | PPar _ _ bs k =>
      let '(w, fs) := (fix go (bs : list tstat) w :=
        match bs with
        | [] => (w, Some [])
        | b :: bs =>
            let '(w, f) := match b with TWait p | TRun p => in_order p w | TFin f => (w, Some f) end in
            let '(w, fs) := go bs w in
            (w, f ← f; fs ← fs; Some (f :: fs))
        end) bs w in
      match fs with Some fs => in_order (k (existsb suspends fs) fs) w | None => (w, None) end
  | PGraph _ _ _ _ _ _ _ _ _ _ _ => (w, None)
  end.
End in_order.

(** ** Simulation *)

Section simulation.
Context (src : string → bool).

(** The scopes have the same bindings of the source names. *)
Definition same_names (sc sc' : scope) : Prop := ∀ x, src x = true → sc !! x = sc' !! x.

Inductive flow_sim : flow → flow → Prop :=
  | sim_next sc sc' : same_names sc sc' → flow_sim (FNext sc) (FNext sc')
  | sim_done sc sc' v : same_names sc sc' → flow_sim (FDone sc v) (FDone sc' v)
  | sim_err e : flow_sim (FErr e) (FErr e).

Inductive sim : proc → proc → Prop :=
  | sim_ret f f' : flow_sim f f' → sim (PRet f) (PRet f')
  | sim_invoke s s' mk k k' :
      site_wholeDocument s = site_wholeDocument s' → (∀ r, sim (k r) (k' r)) → sim (PInvoke s mk k) (PInvoke s' mk k')
  | sim_control key val k q : sim (k None) q → sim (PControl key val k) q
  | sim_par n ps ps' k k' :
      Forall2 sim ps ps' → (∀ susp fs fs', Forall2 flow_sim fs fs' → sim (k susp fs) (k' susp fs')) →
      sim (PPar n false (TWait <$> ps) k) (PPar n false (TWait <$> ps') k').

(** Induction through the branches of a concurrent construct. *)
Lemma sim_nested_ind (P : proc → proc → Prop) :
  (∀ f f', flow_sim f f' → P (PRet f) (PRet f')) →
  (∀ s s' mk k k', site_wholeDocument s = site_wholeDocument s' → (∀ r, P (k r) (k' r)) → P (PInvoke s mk k) (PInvoke s' mk k')) →
  (∀ key val k q, P (k None) q → P (PControl key val k) q) →
  (∀ n ps ps' k k', Forall2 P ps ps' → (∀ susp fs fs', Forall2 flow_sim fs fs' → P (k susp fs) (k' susp fs')) →
    P (PPar n false (TWait <$> ps) k) (PPar n false (TWait <$> ps') k')) →
  ∀ p q, sim p q → P p q.
Proof.
  intros Hret Hinv Hctl Hpar. fix IH 3. intros p q [f f' H|s s' mk k k' H Hk|key val k q' H|n ps ps' k k' Hps Hk].
  - by apply Hret.
  - apply Hinv; [done|]. intros r. apply IH, Hk.
  - by apply Hctl, IH.
  - apply Hpar; [|intros susp fs fs' Hf; by apply IH, Hk]. induction Hps as [|a b ps ps' Hab _ IHps]; constructor; [by apply IH|done].
Qed.

Section in_order.
Context {W : Type} (ask : W → bool → call → W * res error value).

(** Related processes make the same calls, in the same order, with the same outcome. *)
Lemma sim_in_order p q : sim p q → ∀ w, (in_order ask p w).1 = (in_order ask q w).1 ∧ option_Forall2 flow_sim (in_order ask p w).2 (in_order ask q w).2.
Proof.
  revert p q. apply (sim_nested_ind (λ p q, ∀ w, (in_order ask p w).1 = (in_order ask q w).1 ∧ option_Forall2 flow_sim (in_order ask p w).2 (in_order ask q w).2)).
  - intros f f' H w. split; [done|by constructor].
  - intros s s' [c|e] k k' Hw Hk w; cbn [in_order]; [rewrite Hw; destruct (ask _ _ c)|]; apply Hk.
  - intros key val k q H. exact H.
  - intros n ps ps' k k' Hps Hk w. cbn [in_order]. set (go := fix go (bs : list tstat) (w : W) := _).
    assert (∀ w, (go (TWait <$> ps) w).1 = (go (TWait <$> ps') w).1 ∧ option_Forall2 (Forall2 flow_sim) (go (TWait <$> ps) w).2 (go (TWait <$> ps') w).2) as Hgo.
    { clear k k' Hk w. induction Hps as [|p q ps ps' Hpq _ IH]; intros w; [by repeat constructor|].
      cbn [fmap list_fmap go]. destruct (Hpq w) as [Ew Ef]. destruct (in_order ask p w) as [w1 f1], (in_order ask q w) as [w1' f1'].
      cbn [fst snd] in *. subst w1'. destruct (IH w1) as [Ew2 Efs]. fold go.
      destruct (go (TWait <$> ps) w1) as [w2 fs], (go (TWait <$> ps') w1) as [w2' fs']. cbn [fst snd] in *. split; [done|].
      destruct Ef as [f f' Hf|]; [|constructor]. destruct Efs as [l l' Hl|]; constructor. by constructor. }
    destruct (Hgo w) as [Ew Ef]. destruct (go (TWait <$> ps) w) as [w1 fs], (go (TWait <$> ps') w) as [w1' fs']. cbn [fst snd] in *. subst w1'.
    destruct Ef as [l l' Hl|]; [|split; [done|constructor]].
    assert (existsb suspends l = existsb suspends l') as ->; [|by apply Hk].
    clear Hk. induction Hl as [|f f' l l' Hf _ IH]; [done|]. cbn. rewrite IH. by destruct Hf.
Qed.
End in_order.

(** Continuations of related flows. *)
Definition cont_sim (k k' : flow → proc) : Prop := ∀ f f', flow_sim f f' → sim (k f) (k' f').

Lemma cont_sim_ret : cont_sim PRet PRet.
Proof. intros f f'. apply sim_ret. Qed.

Lemma bind_result_same sc sc' bind v : same_names sc sc' → same_names (bind_result sc bind v) (bind_result sc' bind v).
Proof.
  intros H x Hx. unfold bind_result. case_decide; [by apply H|]. destruct (decide (x = bind)) as [->|]; [by rewrite !lookup_insert_eq|].
  rewrite !lookup_insert_ne by done. by apply H.
Qed.
Lemma insert_same sc sc' x v : same_names sc sc' → same_names (<[x := v]> sc) (<[x := v]> sc').
Proof.
  intros H y Hy. destruct (decide (y = x)) as [->|]; [by rewrite !lookup_insert_eq|]. rewrite !lookup_insert_ne by done. by apply H.
Qed.
End simulation.
