(* ===== verification/LangSim.v ===== *)
(** * The lowering preserves the meaning of a workflow

    [LowerExec_correct]: a diagnostic-free lowering simulates the source semantics. *)

From S2P Require Import Prelude Value LangExprText LangStmt ExecIR ExecEval ExecInterp LowerYaml LangLexer LangParser LangExec LangSemantics.

Local Open Scope nat_scope.

(** ** The state of the lowerer only grows *)

Definition grows (st st' : execLowerer) : Prop :=
  (∃ l, el_diags st' = el_diags st ++ l) ∧ el_used st ⊆ el_used st' ∧ el_parallelDepth st' = el_parallelDepth st.

Lemma grows_refl st : grows st st.
Proof. split; [exists []; by rewrite app_nil_r|done]. Qed.
Lemma grows_trans st1 st2 st3 : grows st1 st2 → grows st2 st3 → grows st1 st3.
Proof.
  intros ([l1 E1] & U1 & P1) ([l2 E2] & U2 & P2). split; [exists (l1 ++ l2); by rewrite E2, E1, app_assoc|]. split; [set_solver|congruence].
Qed.
(** Without a diagnostic in the whole there is none in the parts. *)
Lemma quiet st1 st2 st3 : grows st1 st2 → grows st2 st3 → el_diags st3 = el_diags st1 →
  el_diags st2 = el_diags st1 ∧ el_diags st3 = el_diags st2.
Proof.
  intros ([l1 E1] & _) ([l2 E2] & _) E. rewrite E2, E1, <-app_assoc in E. rewrite <-(app_nil_r (el_diags st1)) in E at 2.
  apply app_inv_head in E. apply app_nil in E as [-> ->]. by rewrite E2, E1, !app_nil_r.
Qed.

Lemma diag_not_quiet (d : exec_diag) l : l ++ [d] ≠ l.
Proof. intros H. rewrite <-(app_nil_r l) in H at 2. by apply app_inv_head in H. Qed.

Definition grows_m {A} (m : L A) : Prop := ∀ st, grows st (m st).2.

Lemma grows_ret {A} (a : A) : grows_m (mret a).
Proof. intros st. apply grows_refl. Qed.
Lemma grows_bind {A B} (m : L A) (f : A → L B) : grows_m m → (∀ a, grows_m (f a)) → grows_m (m ≫= f).
Proof.
  intros Hm Hf st. unfold mbind, L_bind. specialize (Hm st). destruct (m st) as [a st1]. eapply grows_trans; [exact Hm|apply Hf].
Qed.
Lemma grows_diag d : grows_m (diag d).
Proof. intros st. split; [by exists [d]|done]. Qed.
Lemma grows_fresh : grows_m freshTemp.
Proof. intros st. split; [exists []; by rewrite app_nil_r|]. cbn. split; [set_solver|done]. Qed.
Create HintDb grows.
#[local] Hint Resolve grows_ret grows_diag grows_fresh : grows.

Ltac grows_code :=
  repeat (cbn beta iota;
    match goal with
    | |- grows_m _ => solve [eauto with grows]
    | |- grows_m (_ ≫= _) => apply grows_bind; [|intros ?]
    | |- grows_m (let '(_, _) := ?x in _) => destruct x
    | |- grows_m (if ?b then _ else _) => destruct b
    | |- grows_m (match ?x with _ => _ end) => destruct x
    end).

Lemma grows_condLeaf e : grows_m (lowerCondLeaf e).
Proof. unfold lowerCondLeaf. grows_code. Qed.
#[local] Hint Resolve grows_condLeaf : grows.
Lemma grows_cond e : grows_m (lowerCond e).
Proof. induction e using LangExprText.expr_nested_ind; cbn [lowerCond]; grows_code. Qed.

Section lower.
Context (workflows : string → bool).

Lemma grows_call_node bind callee a w : grows_m (call_node workflows bind callee a w).
Proof. unfold call_node. grows_code. Qed.
#[local] Hint Resolve grows_call_node : grows.

Lemma grows_args lv w l : Forall (λ a, grows_m (lv a.2)) l → ∀ i out, grows_m (lowerArgs_ lv w l i out).
Proof. induction 1 as [|[name e] l He _ IH]; intros i out; cbn [lowerArgs_]; grows_code. Qed.
Lemma grows_fields lv l : Forall (λ f, grows_m (lv f.2)) l → grows_m (lowerFields_ lv l).
Proof. induction 1 as [|[key e] l He _ IH]; cbn [lowerFields_]; grows_code. Qed.
Lemma grows_call lv bind callee l : Forall (λ a, grows_m (lv a.2)) l → grows_m (lowerCallNode_ workflows lv bind callee l).
Proof. intros Hl. unfold lowerCallNode_. pose proof (grows_args lv (agent_callee workflows callee && isWholeDocumentCall l) l Hl). grows_code. Qed.

Lemma grows_value e : grows_m (lowerValue workflows e).
Proof.
  induction e as [v|x IH|op x y IHx IHy|parts|callee l IH|fields IH|] using LangExprText.expr_nested_ind; cbn [lowerValue]; grows_code.
  - apply grows_call. eapply Forall_impl; [exact IH|]. done.
  - apply grows_fields. eapply Forall_impl; [exact IH|]. done.
Qed.
#[local] Hint Resolve grows_value grows_cond : grows.
Lemma grows_assign bind e : grows_m (lowerAssign workflows bind e).
Proof.
  unfold lowerAssign, lowerCallNode. destruct e; grows_code. apply grows_call, Forall_forall. auto with grows.
Qed.
#[local] Hint Resolve grows_assign : grows.
Lemma grows_branches l : grows_m (lowerBranches workflows l).
Proof. induction l as [|[b e] l IH]; cbn [lowerBranches]; grows_code. Qed.
#[local] Hint Resolve grows_branches : grows.
Lemma grows_lower_args l : grows_m (lowerArgs workflows l).
Proof. apply grows_args, Forall_forall. auto with grows. Qed.
Lemma grows_lower_call bind callee l : grows_m (lowerCallNode workflows bind callee l).
Proof. apply grows_call, Forall_forall. auto with grows. Qed.
#[local] Hint Resolve grows_lower_args grows_lower_call : grows.

Lemma grows_stmts_ ls l : Forall (λ s, grows_m (ls s)) l → grows_m (lowerStmts_ ls l).
Proof. induction 1 as [|s l Hs _ IH]; cbn [lowerStmts_]; grows_code. Qed.
Lemma grows_stmt s : grows_m (lowerStmt workflows s).
Proof.
  induction s as [x v|x|bs|v|b d r p|c t e IHt IHe|x c b par IH|c n b IH|c n b IH] using LangStmt.stmt_nested_ind; cbn [lowerStmt];
    try (unfold lowerFork; by grows_code).
  - apply grows_bind; [intros st; apply grows_refl|]. intros d. grows_code.
  - pose proof (grows_stmts_ _ t IHt). pose proof (grows_stmts_ _ e IHe). grows_code.
  - intros st. unfold mbind, L_bind. pose proof (grows_value c st) as Hc. destruct (lowerValue workflows c st) as [[coll pre] st1].
    cbn [parallel_depth set_parallel_depth]. set (st2 := mkExecLowerer _ _ _ _).
    pose proof (grows_stmts_ _ b IH st2) as Hb. destruct (lowerStmts_ _ b st2) as [ns st3]. cbn in *.
    destruct Hc as ([l1 E1] & U1 & P1), Hb as ([l2 E2] & U2 & P2). split; [exists (l1 ++ l2); cbn in *; by rewrite E2, E1, app_assoc|].
    split; [cbn in *; set_solver|]. cbn. congruence.
  - pose proof (grows_stmts_ _ b IH). grows_code.
  - pose proof (grows_stmts_ _ b IH). grows_code.
Qed.
End lower.

(** ** Temporaries are fresh *)

Lemma temp_name_inj n m : temp_name n = temp_name m → n = m.
Proof. unfold temp_name. rewrite !string_app_cons, !string_app_nil_l. intros [= H]. by apply (inj pretty) in H. Qed.

Lemma fresh_from_spec used fuel : ∀ n,
  (temp_name (fresh_from fuel n used) ∉ used) ∨ (∀ j, j < fuel → temp_name (n + j) ∈ used).
Proof.
  induction fuel as [|fuel IH]; intros n; cbn [fresh_from]; [right; lia|]. case_decide as Hn; [|by left].
  destruct (IH (S n)) as [H|H]; [by left|]. right. intros [|j] Hj; [by rewrite Nat.add_0_r|].
  replace (n + S j) with (S n + j) by lia. apply H. lia.
Qed.

Lemma fresh_from_unused used n : temp_name (fresh_from (S (size used)) n used) ∉ used.
Proof.
  destruct (fresh_from_spec used (S (size used)) n) as [H|H]; [done|]. exfalso.
  assert (size (list_to_set (C:=gset string) ((λ j, temp_name (n + j)) <$> seq 0 (S (size used)))) = S (size used)) as Hs.
  { rewrite size_list_to_set; [by rewrite length_fmap, length_seq|]. apply NoDup_fmap_2; [|apply NoDup_seq].
    intros i j E%temp_name_inj. lia. }
  assert (list_to_set (C:=gset string) ((λ j, temp_name (n + j)) <$> seq 0 (S (size used))) ⊆ used) as Hsub%subseteq_size.
  { intros x (j & -> & Hj)%elem_of_list_to_set%list_elem_of_fmap. apply H. apply elem_of_seq in Hj. lia. }
  lia.
Qed.

Section simulate.
Context (workflows : string → bool) (iterations : Z) (width : nat).
(** The names reserved before the lowering; a source name is reserved or does not
    have the prefix of temporaries. *)
Context (reserved : gset string).
Definition source_name (x : string) : bool := bool_decide (x ∈ reserved) || negb (has_prefix x "_t").

#[local] Abbreviation sim := (sim source_name).
#[local] Abbreviation same := (same_names source_name).
#[local] Abbreviation EX := (execAll_from (exec iterations width)).

Lemma fresh_temp st t st' :
  reserved ⊆ el_used st → freshTemp st = (t, st') →
  (t ∉ el_used st) ∧ t ∈ el_used st' ∧ source_name t = false ∧ t ≠ "" ∧ el_used st ⊆ el_used st' ∧ el_diags st' = el_diags st ∧
  el_parallelDepth st' = el_parallelDepth st.
Proof.
  unfold freshTemp. intros Hr [= <- <-]. pose proof (fresh_from_unused (el_used st) (el_tempN st)) as Hf. cbn [el_used el_diags el_parallelDepth].
  split; [done|]. split; [set_solver|]. split.
  { unfold source_name. rewrite bool_decide_eq_false_2 by set_solver. cbn [orb]. apply negb_false_iff, has_prefix_spec. by eexists. }
  split; [done|]. split; [set_solver|done].
Qed.

(** The names visible to the lowered code so far. *)
Definition visible (st : execLowerer) (x : string) : Prop := source_name x = true ∨ x ∈ el_used st.
Definition keeps (st : execLowerer) (sc1 sc2 : scope) : Prop := ∀ x, visible st x → sc1 !! x = sc2 !! x.

Lemma keeps_refl st sc : keeps st sc sc.
Proof. done. Qed.
Lemma keeps_trans st sc1 sc2 sc3 : keeps st sc1 sc2 → keeps st sc2 sc3 → keeps st sc1 sc3.
Proof. intros H1 H2 x Hx. by rewrite H1, H2. Qed.
Lemma keeps_mono st st' sc1 sc2 : el_used st ⊆ el_used st' → keeps st' sc1 sc2 → keeps st sc1 sc2.
Proof. intros Hu H x [Hx|Hx]; apply H; [by left|right; set_solver]. Qed.
Lemma keeps_same st sc1 sc2 sc : keeps st sc1 sc2 → same sc2 sc → same sc1 sc.
Proof. intros H Hs x Hx. rewrite H by by left. by apply Hs. Qed.

(** The operand [o] of the lowered code is [o'] of the source, now and after calls
    that bind later temporaries. *)
Definition same_operand (st : execLowerer) (sc sc' : scope) (o o' : operand) : Prop :=
  ∀ sc3, keeps st sc3 sc → evalValue sc3 o = evalValue sc' o'.

Lemma same_operand_names st sc sc' o :
  same sc sc' → Forall (λ x, source_name x = true) (op_heads o) → same_operand st sc sc' o o.
Proof.
  intros Hs Ho sc3 Hk. apply evalValue_agree. intros h Hh. rewrite Forall_forall in Ho. specialize (Ho h Hh).
  rewrite Hk by by left. by apply Hs.
Qed.
Lemma same_operand_later st st' sc sc2 sc' o o' :
  el_used st ⊆ el_used st' → keeps st sc2 sc → same_operand st sc sc' o o' → same_operand st' sc2 sc' o o'.
Proof. intros Hu Hk H sc3 Hk3. apply H. eapply keeps_trans; [by eapply keeps_mono, Hk3|done]. Qed.

(** What the lowering of an expression [e] promises. *)
Definition value_ok (e : LangParser.expr) : Prop := ∀ st o pre st',
  lowerValue workflows e st = ((o, pre), st') → el_diags st' = el_diags st → reserved ⊆ el_used st →
  Forall (λ x, source_name x = true) (expr_names e) →
  ∀ rest i sc sc' k path loop kk kerr,
    same sc sc' →
    (∀ i' sc2 o2, keeps st sc2 sc → same_operand st' sc2 sc' o o2 → sim (EX path loop k rest i' sc2) (kk o2)) →
    (∀ e, sim (k (FErr e)) (kerr e)) →
    sim (EX path loop k (pre ++ rest) i sc) (svalue workflows e sc' kk kerr).


(** Operands of a map of arguments. *)
Definition same_args (st : execLowerer) (sc sc' : scope) (a a' : args) : Prop :=
  ∀ key, option_Forall2 (same_operand st sc sc') (a !! key) (a' !! key).

Lemma same_args_insert st sc sc' a a' key o o' :
  same_args st sc sc' a a' → same_operand st sc sc' o o' → same_args st sc sc' (<[key := o]> a) (<[key := o']> a').
Proof.
  intros Ha Ho k. destruct (decide (k = key)) as [->|]; [rewrite !lookup_insert_eq; by constructor|]. rewrite !lookup_insert_ne by done. apply Ha.
Qed.
Lemma same_args_later st st' sc sc2 sc' a a' :
  el_used st ⊆ el_used st' → keeps st sc2 sc → same_args st sc sc' a a' → same_args st' sc2 sc' a a'.
Proof. intros Hu Hk H key. destruct (H key); constructor. by eapply same_operand_later. Qed.

Lemma same_args_eval st sc sc' a a' : same_args st sc sc' a a' → evalArgs sc a = evalArgs sc' a'.
Proof.
  intros H. assert (a = fst <$> map_zip a a' ∧ a' = snd <$> map_zip a a') as [E E'].
  { split; apply map_eq; intros key; rewrite lookup_fmap, map_lookup_zip_with; by destruct (H key). }
  assert (∀ x, x ∈ map_to_list (map_zip a a') → evalValue sc x.2.1 = evalValue sc' x.2.2) as Hm.
  { intros [key [o o']] Hz%elem_of_map_to_list. apply map_lookup_zip_Some in Hz as [Ho Ho']. specialize (H key). cbn [fst snd] in *.
    rewrite Ho, Ho' in H. inversion H as [? ? Hoo|]; subst. by apply Hoo. }
  unfold evalArgs. f_equal. rewrite E at 1. rewrite E' at 2. rewrite !map_to_list_fmap. clear E E' H. revert Hm.
  generalize (map_to_list (map_zip a a')). intros l Hm. induction l as [|[key [o o']] l IH]; [done|].
  rewrite !fmap_cons. cbn [res_traverse prod_map fst snd]. pose proof (Hm (key, (o, o')) ltac:(by left)) as E. cbn [fst snd] in E. rewrite E.
  rewrite IH; [done|]. intros x Hx. apply Hm. by right.
Qed.

(** The parts of a lowering without diagnostics. *)
Ltac lowered H :=
  unfold mbind, L_bind in H; cbn beta iota in H;
  repeat match type of H with
  | context [match ?m ?st with (_, _) => _ end] =>
      let r := fresh "r" in let s := fresh "st" in let E := fresh "E" in
      destruct (m st) as [r s] eqn:E; cbn beta iota in H
  end.

Lemma grown {A} (m : L A) st a st' : grows_m m → m st = (a, st') → grows st st'.
Proof. intros Hg E. specialize (Hg st). by rewrite E in Hg. Qed.

Lemma args_ok w l : Forall (λ a, value_ok a.2) l → ∀ n st out out' a pre st',
  lowerArgs_ (lowerValue workflows) w l n out st = ((a, pre), st') → el_diags st' = el_diags st → reserved ⊆ el_used st →
  Forall (λ x, source_name x = true) (l ≫= λ a, match a with (_, e) => expr_names e end) →
  ∀ rest i sc sc' k path loop kk kerr,
    same sc sc' → same_args st sc sc' out out' →
    (∀ i' sc2 a2, keeps st sc2 sc → same_args st' sc2 sc' a a2 → sim (EX path loop k rest i' sc2) (kk a2)) →
    (∀ e, sim (k (FErr e)) (kerr e)) →
    sim (EX path loop k (pre ++ rest) i sc) (sargs_ (svalue workflows) w sc' kk kerr l n out').
Proof.
  induction 1 as [|[name e] l He _ IH]; intros n st out out' a pre st' Hl Hd Hr Hn rest i sc sc' k path loop kk kerr Hs Ho Hk Herr.
  - cbn in Hl. injection Hl as <- <- <-. cbn. by apply Hk.
  - cbn [lowerArgs_] in Hl. unfold mbind, L_bind in Hl. destruct (lowerValue workflows e st) as [[o pre1] st1] eqn:E1.
    destruct (lowerArgs_ _ w l (S n) _ st1) as [[a1 pre2] st2] eqn:E2. injection Hl as <- <- <-.
    pose proof (grown _ _ _ _ (grows_value workflows e) E1) as G1.
    assert (grows st1 st2) as G2.
    { eapply grown, E2. apply grows_args, Forall_forall. intros. apply grows_value. }
    destruct (quiet _ _ _ G1 G2 Hd) as [D1 D2]. rewrite <-app_assoc.
    change ((name, e) :: l ≫= ?f) with (expr_names e ++ (l ≫= f)) in Hn. apply Forall_app in Hn as [Hn1 Hn2]. destruct G1 as (_ & U1 & _).
    cbn [sargs_]. eapply He; [exact E1|done|done|done|exact Hs| |done].
    intros i' sc2 o2 Hk2 Ho2. eapply IH; [exact E2|done|set_solver|done|by eapply keeps_same| | |done].
    + apply same_args_insert; [by eapply same_args_later|done].
    + intros i3 sc3 a3 Hk3 Ha3. apply Hk; [|done]. eapply keeps_trans; [by eapply keeps_mono, Hk3|done].
Qed.

Lemma fields_ok l : Forall (λ f, value_ok f.2) l → ∀ st fs pre st',
  lowerFields_ (lowerValue workflows) l st = ((fs, pre), st') → el_diags st' = el_diags st → reserved ⊆ el_used st →
  Forall (λ x, source_name x = true) (l ≫= λ f, match f with (_, e) => expr_names e end) →
  ∀ rest i sc sc' k path loop kk kerr,
    same sc sc' →
    (∀ i' sc2 fs2, keeps st sc2 sc → Forall2 (λ f f', f.1 = f'.1 ∧ same_operand st' sc2 sc' f.2 f'.2) fs fs2 → sim (EX path loop k rest i' sc2) (kk fs2)) →
    (∀ e, sim (k (FErr e)) (kerr e)) →
    sim (EX path loop k (pre ++ rest) i sc) (sfields_ (svalue workflows) sc' kerr l kk).
Proof.
  induction 1 as [|[key e] l He _ IH]; intros st fs pre st' Hl Hd Hr Hn rest i sc sc' k path loop kk kerr Hs Hk Herr.
  - cbn in Hl. injection Hl as <- <- <-. cbn. apply Hk; [done|constructor].
  - cbn [lowerFields_] in Hl. unfold mbind, L_bind in Hl. destruct (lowerValue workflows e st) as [[o pre1] st1] eqn:E1.
    destruct (lowerFields_ _ l st1) as [[fs1 pre2] st2] eqn:E2. injection Hl as <- <- <-.
    pose proof (grown _ _ _ _ (grows_value workflows e) E1) as G1.
    assert (grows st1 st2) as G2.
    { eapply grown, E2. apply grows_fields, Forall_forall. intros. apply grows_value. }
    destruct (quiet _ _ _ G1 G2 Hd) as [D1 D2]. rewrite <-app_assoc.
    change ((key, e) :: l ≫= ?f) with (expr_names e ++ (l ≫= f)) in Hn. apply Forall_app in Hn as [Hn1 Hn2].
    destruct G1 as (_ & U1 & _), G2 as (_ & U2 & _).
    cbn [sfields_]. eapply He; [exact E1|done|done|done|exact Hs| |done].
    intros i' sc2 o2 Hk2 Ho2. eapply IH; [exact E2|done|set_solver|done|by eapply keeps_same| |done].
    intros i3 sc3 fs3 Hk3 Hf3. apply Hk; [eapply keeps_trans; [by eapply keeps_mono, Hk3|done]|].
    constructor; [|done]. split; [done|]. cbn [snd]. by eapply same_operand_later.
Qed.

Lemma same_object st sc sc' fs fs' :
  Forall2 (λ f f', f.1 = f'.1 ∧ same_operand st sc sc' f.2 f'.2) fs fs' → same_operand st sc sc' (Object fs) (Object fs').
Proof.
  intros H sc3 Hk. cbn [evalValue]. f_equal. induction H as [|[key o] [key' o'] fs fs' [Hkey Ho] _ IH]; [done|].
  cbn [fst snd] in *. subst key'. cbn [res_traverse]. rewrite (Ho sc3 Hk). f_equal. rewrite IH. done.
Qed.


(** The node of a call makes the call of the source. *)
Lemma call_node_exec bind callee a a2 w st n st' sc sc' rest i k path loop κ kerr :
  call_node workflows bind callee a w st = (n, st') → el_diags st' = el_diags st → w = agent_callee workflows callee && w →
  same_args st sc sc' a a2 →
  (∀ v, sim (EX path loop k rest (S i) (bind_result sc bind v)) (κ v)) → (∀ e, sim (k (FErr e)) (kerr e)) →
  st' = st ∧
  sim (EX path loop k (n :: rest) i sc)
    (PInvoke (unaddressed w) (callee_call workflows callee <$> evalArgs sc' a2) (λ r, match r with Ok v => κ v | Err e => kerr e end)).
Proof.
  intros Hn Hd Hw Ha Hk Herr. pose proof (same_args_eval _ _ _ _ _ Ha) as Ea. unfold call_node in Hn.
  destruct callee as [|x [|y callee]].
  - exfalso. unfold mbind, L_bind in Hn. cbn in Hn. injection Hn as _ <-. by apply diag_not_quiet in Hd.
  - unfold callee_call. cbn [agent_callee] in Hw. destruct (workflows x); injection Hn as <- <-; (split; [done|]); cbn [execAll_from exec];
      unfold invoke; rewrite Ea; apply sim_invoke; try done; try (by rewrite Hw); intros [v|e]; cbn; auto.
  - cbn in Hn. injection Hn as <- <-. split; [done|]. cbn [execAll_from exec]. unfold invoke. rewrite Ea. apply sim_invoke; [by rewrite Hw|].
    intros [v|e]; auto.
Qed.

Definition call_ok (callee : list string) (l : list arg) : Prop := ∀ bind st n pre st',
  lowerCallNode workflows bind callee l st = ((n, pre), st') → el_diags st' = el_diags st → reserved ⊆ el_used st →
  Forall (λ x, source_name x = true) (l ≫= λ a, match a with (_, e) => expr_names e end) →
  ∀ rest i sc sc' k path loop κ kerr,
    same sc sc' →
    (∀ i' sc2 v, keeps st sc2 sc → sim (EX path loop k rest i' (bind_result sc2 bind v)) (κ v)) →
    (∀ e, sim (k (FErr e)) (kerr e)) →
    sim (EX path loop k (pre ++ n :: rest) i sc) (scall workflows callee l sc' κ kerr).

Lemma call_args_ok callee l : Forall (λ a, value_ok a.2) l → call_ok callee l.
Proof.
  intros Hl bind st n pre st' E Hd Hr Hn rest i sc sc' k path loop κ kerr Hs Hk Herr.
  unfold lowerCallNode, lowerCallNode_ in E. unfold mbind, L_bind in E. set (w := agent_callee workflows callee && isWholeDocumentCall l) in *.
  destruct (lowerArgs_ _ w l 0 ∅ st) as [[a pre1] st1] eqn:E1. destruct (call_node workflows bind callee a w st1) as [n1 st2] eqn:E2.
  injection E as <- <- <-.
  assert (grows st st1) as G1 by (eapply grown, E1; apply grows_args, Forall_forall; intros; apply grows_value).
  pose proof (grown _ _ _ _ (grows_call_node workflows bind callee a w) E2) as G2.
  destruct (quiet _ _ _ G1 G2 Hd) as [D1 D2]. unfold scall, scall_. fold w.
  eapply args_ok; [done|exact E1|done|done|done|done| | |done].
  - intros key. rewrite !lookup_empty. constructor.
  - intros i' sc2 a2 Hk2 Ha2. eapply call_node_exec; [exact E2|done| |done| |done].
    + unfold w. destruct (agent_callee workflows callee); [|done]. by destruct (isWholeDocumentCall l).
    + intros v. by apply Hk.
Qed.

Lemma lowerValue_ok e : value_ok e.
Proof.
  induction e as [v|x IH|op x y IHx IHy|parts|callee l IH|fields IH|] using LangExprText.expr_nested_ind;
    intros st o pre st' E Hd Hr Hn rest i sc sc' k path loop kk kerr Hs Hk Herr; cbn [lowerValue svalue expr_names] in *.
  - injection E as <- <- <-. apply Hk; [done|]. by apply same_operand_names.
  - unfold mbind, L_bind in E. cbn in E. injection E as <- <- <-. by apply diag_not_quiet in Hd.
  - unfold mbind, L_bind in E. cbn in E. injection E as <- <- <-. by apply diag_not_quiet in Hd.
  - injection E as <- <- <-. apply Hk; [done|]. apply same_operand_names; [done|]. by destruct parts.
  - unfold mbind, L_bind in E. destruct (freshTemp st) as [t st1] eqn:E1. fold (lowerCallNode workflows t callee l) in E.
    destruct (lowerCallNode workflows t callee l st1) as [[n pre1] st2] eqn:E2. injection E as <- <- <-.
    destruct (fresh_temp _ _ _ Hr E1) as (Ht & Ht1 & Hsrc & Hne & U1 & D1 & P1).
    pose proof (grown _ _ _ _ (grows_lower_call workflows t callee l) E2) as (_ & U2 & _).
    rewrite <-app_assoc. cbn [app]. eapply (call_args_ok callee l IH); [exact E2|congruence|set_solver|done|done| |done].
    intros i' sc2 v Hk2. unfold bind_result. rewrite decide_False by done. apply Hk.
    + intros x Hx. rewrite lookup_insert_ne; [apply Hk2; destruct Hx as [Hx|Hx]; [by left|right; set_solver]|].
      intros <-. destruct Hx as [Hx|Hx]; [congruence|done].
    + intros sc3 Hk3. cbn [evalValue resolvePath]. rewrite (Hk3 t) by (right; set_solver). by rewrite lookup_insert_eq.
  - unfold mbind, L_bind in E. destruct (lowerFields_ _ fields st) as [[fs pre1] st1] eqn:E1. injection E as <- <- <-.
    eapply fields_ok; [exact IH|exact E1|done|done|done|done| |done].
    intros i' sc2 fs2 Hk2 Hf. apply Hk; [done|]. by apply same_object.
  - injection E as <- <- <-. apply Hk; [done|]. by intros sc3 _.
Qed.

Lemma lowerCall_ok callee l : call_ok callee l.
Proof. apply call_args_ok, Forall_forall. intros. apply lowerValue_ok. Qed.
(** ** Conditions *)

Lemma condLeaf_ok e st o st' : lowerCondLeaf e st = (o, st') → el_diags st' = el_diags st → Forall (λ x, source_name x = true) (expr_names e) →
  ∀ sc sc', same sc sc' → evalValue sc o = cond_operand e sc'.
Proof.
  intros E Hd Hn sc sc' Hs. destruct e as [v|x|op x y|path|callee l|fields|]; cbn in E; unfold mbind, L_bind in E; cbn in E; injection E as <- <-; try (by apply diag_not_quiet in Hd).
  - done.
  - cbn. destruct path as [|x path]; [done|]. cbn. rewrite (Hs x); [done|]. by apply (Forall_inv Hn).
Qed.

Lemma cond_ok e : ∀ st c st', lowerCond e st = (c, st') → el_diags st' = el_diags st → Forall (λ x, source_name x = true) (expr_names e) →
  ∀ sc sc', same sc sc' → evalExpr sc c = scond e sc'.
Proof.
  induction e as [v|x IH|op x y IHx IHy|parts|callee l IH|fields IH|] using LangExprText.expr_nested_ind;
    intros st c st' E Hd Hn sc sc' Hs; cbn [lowerCond scond expr_names] in *.
  - injection E as <- <-. done.
  - unfold mbind, L_bind in E. destruct (lowerCond x st) as [c1 st1] eqn:E1. injection E as <- <-. cbn [evalExpr].
    by rewrite (IH _ _ _ E1 Hd Hn sc sc' Hs).
  - apply Forall_app in Hn as [Hn1 Hn2]. case_bool_decide as Hop; unfold mbind, L_bind in E.
    + destruct (lowerCond x st) as [c1 st1] eqn:E1, (lowerCond y st1) as [c2 st2] eqn:E2. injection E as <- <-.
      destruct (quiet st st1 st2) as [D1 D2]; [by eapply grown, E1; apply grows_cond|by eapply grown, E2; apply grows_cond|done|].
      cbn [evalExpr]. rewrite (IHx _ _ _ E1 D1 Hn1 sc sc' Hs), (IHy _ _ _ E2 D2 Hn2 sc sc' Hs). by destruct Hop as [-> | ->].
    + destruct (lowerCondLeaf x st) as [c1 st1] eqn:E1, (lowerCondLeaf y st1) as [c2 st2] eqn:E2. injection E as <- <-.
      destruct (quiet st st1 st2) as [D1 D2]; [by eapply grown, E1; apply grows_condLeaf|by eapply grown, E2; apply grows_condLeaf|done|].
      cbn [evalExpr leafValue]. rewrite (condLeaf_ok _ _ _ _ E1 D1 Hn1 sc sc' Hs), (condLeaf_ok _ _ _ _ E2 D2 Hn2 sc sc' Hs).
      unfold evalBinOp. destruct op; try done; exfalso; apply Hop; auto.
  - injection E as <- <-. cbn. destruct parts as [|p parts]; [done|]. cbn. rewrite (Hs p); [done|]. by apply (Forall_inv Hn).
  - unfold mbind, L_bind in E. cbn in E. injection E as <- <-. by apply diag_not_quiet in Hd.
  - unfold mbind, L_bind in E. cbn in E. injection E as <- <-. by apply diag_not_quiet in Hd.
  - by injection E as <- <-.
Qed.

(** ** Statements *)

(** [κ] continues the source as [k] and the nodes [rest] continue the lowered code. *)
Definition final (k κ : flow → proc) : Prop :=
  (∀ sc sc' v, same sc sc' → sim (k (FDone sc v)) (κ (FDone sc' v))) ∧ (∀ e, sim (k (FErr e)) (κ (FErr e))).

Lemma cont_final k κ : cont_sim source_name k κ → final k κ.
Proof. intros H. split; intros; apply H; by constructor. Qed.

(** After a node, the walk goes on with the remaining nodes. *)
Definition after (path loop : list nat) (k : flow → proc) (rest : list node) (i : nat) (f : flow) : proc :=
  match f with FNext sc' => EX path loop k rest (S i) sc' | _ => k f end.
(** After a statement or an iteration of the source. *)
Definition then_do (go : scope → proc) (κ : flow → proc) (f : flow) : proc := match f with FNext sc => go sc | _ => κ f end.

Lemma then_sim go go' k κ : final k κ → (∀ sc sc', same sc sc' → sim (go sc) (go' sc')) → cont_sim source_name (then_do go k) (then_do go' κ).
Proof. intros [Hd He] Hg f f' [sc sc' H|sc sc' v H|e]; cbn; auto. Qed.
Lemma after_sim path loop k κ rest i : final k κ →
  (∀ sc2 sc2', same sc2 sc2' → sim (EX path loop k rest (S i) sc2) (κ (FNext sc2'))) → cont_sim source_name (after path loop k rest i) κ.
Proof. intros [Hd He] Hg f f' [sc sc' H|sc sc' v H|e]; cbn; auto. Qed.

(** The lowered nodes [ns] do as the source [p], on scopes in agreement. *)
Definition nodes_ok (ns : list node) (p : scope → (flow → proc) → proc) : Prop := ∀ rest i sc sc' k path loop κ,
  same sc sc' → final k κ → (∀ i' sc2 sc2', same sc2 sc2' → sim (EX path loop k rest i' sc2) (κ (FNext sc2'))) →
  sim (EX path loop k (ns ++ rest) i sc) (p sc' κ).

Definition block_sim (body : scope → list nat → (flow → proc) → proc) (body' : scope → (flow → proc) → proc) : Prop :=
  ∀ sc sc' loop k κ, same sc sc' → cont_sim source_name k κ → sim (body sc loop k) (body' sc' κ).

Lemma nodes_block ns p path : nodes_ok ns p → block_sim (λ sc loop k, execAll iterations width ns sc path loop k) p.
Proof.
  intros H sc sc' loop k κ Hs Hk. unfold execAll, execAll_. rewrite <-(app_nil_r ns). apply H; [done|by apply cont_final|].
  intros i' sc2 sc2' Hs2. apply Hk. by constructor.
Qed.

Definition lowers_ok {A} (names : list string) (m : L A) (ok : A → Prop) : Prop := ∀ st a st',
  m st = (a, st') → el_diags st' = el_diags st → reserved ⊆ el_used st → Forall (λ x, source_name x = true) names → ok a.

Lemma assign_ok bind e : lowers_ok (expr_names e) (lowerAssign workflows bind e) (λ ns, nodes_ok ns (sassign workflows bind e)).
Proof.
  intros st ns st' E Hd Hr Hn rest i sc sc' k path loop κ Hs [Hdone Herr] Hk. destruct e as [v|x|op x y|parts|callee l|fields|]; cbn [lowerAssign sassign] in *;
    unfold mbind, L_bind in E; cbn in E; try (injection E as <- <-; by apply diag_not_quiet in Hd).
  - injection E as <- <-. cbn. apply Hk. by apply bind_result_same.
  - injection E as <- <-. cbn [app execAll_from exec evalValue]. assert (resolvePath sc parts = resolvePath sc' parts) as ->.
    { destruct parts as [|p parts]; [done|]. cbn. rewrite (Hs p); [done|]. by apply (Forall_inv Hn). }
    destruct (resolvePath sc' parts); [|apply Herr]. apply Hk. by apply bind_result_same.
  - destruct (lowerCallNode workflows bind callee l st) as [[n pre] st1] eqn:E1. injection E as <- <-. rewrite <-app_assoc.
    eapply lowerCall_ok; [exact E1|done|done|done|done| |done]. intros i' sc2 v Hk2. apply Hk. apply bind_result_same. by eapply keeps_same.
Qed.

Lemma branches_ok l : lowers_ok (l ≫= λ b, b.1 :: expr_names b.2) (lowerBranches workflows l)
  (λ bs, Forall2 (λ b b', b.1 = b'.1 ∧ nodes_ok b.2 (sassign workflows b'.1 b'.2)) bs l).
Proof.
  induction l as [|[bind e] l IH]; intros st bs st' E Hd Hr Hn; cbn [lowerBranches] in E; [injection E as <- <-; constructor|].
  unfold mbind, L_bind in E. destruct (lowerAssign workflows bind e st) as [ns st1] eqn:E1, (lowerBranches workflows l st1) as [bs1 st2] eqn:E2.
  injection E as <- <-. pose proof (grown _ _ _ _ (grows_assign workflows bind e) E1) as G1.
  pose proof (grown _ _ _ _ (grows_branches workflows l) E2) as G2. destruct (quiet _ _ _ G1 G2 Hd) as [D1 D2]. destruct G1 as (_ & U1 & _).
  change ((bind, e) :: l ≫= ?f) with (bind :: expr_names e ++ (l ≫= f)) in Hn. apply Forall_cons in Hn as [_ [Hn1 Hn2]%Forall_app].
  constructor; [split; [done|]|]; [by eapply assign_ok|]. eapply IH; [exact E2|done|set_solver|done].
Qed.

Lemma publish_same binds fs fs' : Forall (λ x, source_name x = true) binds → Forall2 (flow_sim source_name) fs fs' →
  ∀ sc sc', same sc sc' → same (publish binds fs sc) (publish binds fs' sc').
Proof.
  intros Hb. revert fs fs'. induction Hb as [|b binds Hb _ IH]; intros fs fs' Hf sc sc' Hs; [done|].
  destruct Hf as [|f f' fs fs' Hff Hf]; [done|]. cbn [publish]. apply IH; [done|].
  destruct Hff as [c c' H|c c' v H|e]; [| |done]; (case_decide; [done|]; rewrite (H b Hb); destruct (c' !! b); [by apply insert_same|done]).
Qed.
Lemma flow_err_same fs fs' : Forall2 (flow_sim source_name) fs fs' → flow_err <$> fs = flow_err <$> fs'.
Proof. induction 1 as [|f f' fs fs' [] _ IH]; [done|..]; cbn; by rewrite IH. Qed.

(** Concurrent constructs join alike. *)
Lemma join_sim ps ps' k κ join join' : final k κ → Forall2 sim ps ps' →
  (∀ fs fs', Forall2 (flow_sim source_name) fs fs' → sim (join fs) (join' fs')) →
  sim (PPar width false (TWait <$> ps) (λ susp fs, match classifyConcurrent susp (flow_err <$> fs) with Some e => k (FErr e) | None => join fs end))
    (PPar width false (TWait <$> ps') (λ susp fs, match classifyConcurrent susp (flow_err <$> fs) with Some e => κ (FErr e) | None => join' fs end)).
Proof.
  intros [_ He] Hps Hj. apply sim_par; [done|]. intros susp fs fs' Hf. rewrite (flow_err_same _ _ Hf). by destruct (classifyConcurrent _ _); auto.
Qed.

Lemma fork_sim bs l : Forall2 (λ b b', b.1 = b'.1 ∧ nodes_ok b.2 (sassign workflows b'.1 b'.2)) bs l →
  Forall (λ x, source_name x = true) (l ≫= λ b, b.1 :: expr_names b.2) → ∀ sc sc' path loop k κ, same sc sc' → cont_sim source_name k κ →
  sim (exec iterations width (Fork bs) sc path loop k) (execFork width (fst <$> l) ((λ b, sassign workflows b.1 b.2 sc' PRet) <$> l) sc' κ).
Proof.
  intros Hbs Hn sc sc' path loop k κ Hs Hk. cbn [exec]. unfold execFork.
  assert (bs.*1 = fst <$> l) as -> by (clear Hn; induction Hbs as [|b b' bs l [E _] _ IH]; [done|]; cbn; by rewrite E, IH).
  apply join_sim; [by apply cont_final| |].
  - clear Hn. generalize 0. induction Hbs as [|[b ns] [b' e] bs l [_ H] _ IH]; intros n; cbn; constructor; [|apply IH].
    by apply (nodes_block _ _ (extend path n) H), cont_sim_ret.
  - intros fs fs' Hf. apply Hk. constructor. apply publish_same; [|done|done].
    apply Forall_forall. intros x [[y e] [-> Hy]]%list_elem_of_fmap. rewrite Forall_forall in Hn. apply Hn, list_elem_of_bind. exists (y, e). split; [by left|done].
Qed.

Lemma imap_waits {A} (f : nat → A → proc) l : imap (λ i x, TWait (f i x)) l = TWait <$> imap f l.
Proof. symmetry. apply fmap_imap. Qed.

Lemma imap_sim {A} (l : list A) : ∀ f g, (∀ i x, sim (f i x) (g i x)) → Forall2 sim (imap f l) (imap g l).
Proof. induction l as [|x l IH]; intros f g H; cbn; constructor; [apply H|]. apply IH. intros i y. apply H. Qed.

Lemma for_sim body body' : block_sim body body' → ∀ var (parallel : bool) items sc sc' key k κ loop, same sc sc' → cont_sim source_name k κ →
  sim (if (iterations <? Z.of_nat (length items))%Z then k (FErr (ETooManyItems (length items) iterations))
       else record_control key (length items) k
         (if parallel then execLoopParallel width body var items loop sc k else execLoop_seq body var loop k items 0 sc))
    (sfor iterations width body' var parallel items sc' κ).
Proof.
  intros Hb var parallel items sc sc' key k κ loop Hs Hk. unfold sfor. destruct (_ <? _)%Z; [apply Hk; constructor|]. apply sim_control.
  destruct parallel.
  - unfold execLoopParallel. rewrite !imap_waits. apply join_sim; [by apply cont_final| |].
    + apply imap_sim. intros i item. by apply Hb, cont_sim_ret; apply insert_same.
    + intros fs fs' _. apply Hk. by constructor.
  - revert sc sc' Hs. generalize 0. induction items as [|item items IH]; intros n sc sc' Hs; cbn; [apply Hk; by constructor|].
    apply Hb; [by apply insert_same|]. apply (then_sim (execLoop_seq body var loop k items (S n)) (execLoop_seq (λ sc _ k, body' sc k) var [] κ items (S n)) k κ).
    * by apply cont_final.
    * intros. by apply IH.
Qed.

(** A lowered condition and its source. *)
Definition same_cond (c : ExecIR.expr) (e : LangParser.expr) : Prop := ∀ sc sc', same sc sc' → evalExpr sc c = scond e sc'.

Lemma while_sim body body' c e path : block_sim body body' → same_cond c e → ∀ loop k κ, cont_sim source_name k κ → ∀ rem i sc sc', same sc sc' →
  sim (execWhile body c path loop k rem i sc) (swhile body' e κ rem sc').
Proof.
  intros Hb Hc loop k κ Hk. induction rem as [|rem IH]; intros i sc sc' Hs; cbn [execWhile swhile]; [apply Hk; by constructor|].
  rewrite (Hc _ _ Hs). destruct (scond e sc') as [b|]; [|apply Hk; constructor]. apply sim_control.
  destruct b; [|apply Hk; by constructor]. apply Hb; [done|].
  apply (then_sim (execWhile body c path loop k rem (S i)) (swhile body' e κ rem) k κ); [by apply cont_final|]. intros. by apply IH.
Qed.

Lemma retry_sim body body' c e limit path : block_sim body body' → same_cond c e → ∀ loop k κ, cont_sim source_name k κ → ∀ rem i sc sc', same sc sc' →
  sim (execRetry body c limit path loop k rem i sc) (sretry body' e limit κ rem sc').
Proof.
  intros Hb Hc loop k κ Hk. induction rem as [|rem IH]; intros i sc sc' Hs; cbn [execRetry sretry]; [apply Hk; constructor|].
  apply Hb; [done|]. intros f f' [sc2 sc2' Hs2|sc2 sc2' v Hs2|err]; [|apply Hk; by constructor..].
  rewrite (Hc _ _ Hs2). destruct (scond e sc2') as [b|]; [|apply Hk; constructor]. apply sim_control.
  destruct b; [apply Hk; by constructor|by apply IH].
Qed.

Lemma stmts_ok l : Forall (λ s, lowers_ok (stmt_names s) (lowerStmt workflows s) (λ ns, nodes_ok ns (sstmt workflows iterations width s))) l →
  lowers_ok (l ≫= stmt_names) (lowerStmts_ (lowerStmt workflows) l)
    (λ ns, nodes_ok ns (λ sc κ, sstmts_ (sstmt workflows iterations width) κ l sc)).
Proof.
  induction 1 as [|s l Hs _ IH]; intros st ns st' E Hd Hr Hn; cbn [lowerStmts_] in E.
  { injection E as <- <-. intros rest i sc sc' k path loop κ Hsc Hf Hk. by apply Hk. }
  unfold mbind, L_bind in E. destruct (lowerStmt workflows s st) as [ns1 st1] eqn:E1, (lowerStmts_ _ l st1) as [ns2 st2] eqn:E2.
  injection E as <- <-. pose proof (grown _ _ _ _ (grows_stmt workflows s) E1) as G1.
  assert (grows st1 st2) as G2 by (eapply grown, E2; apply grows_stmts_, Forall_forall; intros; apply grows_stmt).
  destruct (quiet _ _ _ G1 G2 Hd) as [D1 D2]. destruct G1 as (_ & U1 & _). apply Forall_app in Hn as [Hn1 Hn2].
  intros rest i sc sc' k path loop κ Hsc Hf Hk. rewrite <-app_assoc. cbn [sstmts_]. eapply (Hs _ _ _ E1 D1 Hr Hn1).
  - done.
  - split; intros; by apply Hf.
  - intros i' sc2 sc2' Hsc2. eapply (IH _ _ _ E2 D2); [set_solver|done|done|done|done].
Qed.

(** A node that does as the source makes a singleton that does. *)
Lemma node_ok n (p : scope → (flow → proc) → proc) :
  (∀ path, block_sim (λ sc loop k, exec iterations width n sc path loop k) p) → nodes_ok [n] p.
Proof.
  intros H rest i sc sc' k path loop κ Hs Hf Hk. cbn [app execAll_from].
  apply (H (extend path i) sc sc' loop (after path loop k rest i) κ Hs). apply after_sim; [done|]. by apply Hk.
Qed.

Lemma if_ok c c' t t' e e' : same_cond c c' → nodes_ok t t' → nodes_ok e e' →
  nodes_ok [Branch c t e] (λ sc κ, match scond c' sc with Err err => κ (FErr err) | Ok b => if b then t' sc κ else e' sc κ end).
Proof.
  intros Hc Ht He. apply node_ok. intros path sc sc' loop k κ Hs Hk. cbn [exec]. unfold execBranch. rewrite (Hc _ _ Hs).
  destruct (scond c' sc') as [b|]; [|apply Hk; constructor]. apply sim_control.
  destruct b; [by apply (nodes_block t t' (extend path 0) Ht)|by apply (nodes_block e e' (extend path 1) He)].
Qed.

Lemma value_then e (node_of : operand → node) (p : operand → scope → (flow → proc) → proc) :
  (∀ st sc sc' o o' path loop k κ, same_operand st sc sc' o o' → same sc sc' → cont_sim source_name k κ →
    sim (exec iterations width (node_of o) sc path loop k) (p o' sc' κ)) →
  ∀ st o pre st', lowerValue workflows e st = ((o, pre), st') → el_diags st' = el_diags st → reserved ⊆ el_used st →
    Forall (λ x, source_name x = true) (expr_names e) →
  nodes_ok (pre ++ [node_of o]) (λ sc κ, svalue workflows e sc (λ o, p o sc κ) (λ err, κ (FErr err))).
Proof.
  intros Hp st o pre st' E Hd Hr Hn rest i sc sc' k path loop κ Hs Hf Hk. rewrite <-app_assoc. cbn [app].
  eapply lowerValue_ok; [exact E|done|done|done|done| |apply Hf].
  intros i' sc2 o2 Hk2 Ho. cbn [execAll_from]. apply (Hp st' sc2 sc' o o2 _ loop (after path loop k rest i') κ Ho); [by eapply keeps_same|].
  apply after_sim; [done|]. intros. by apply Hk.
Qed.

Lemma approval_ok bind desc redact payload : lowers_ok (payload ≫= λ a, match a with (_, e) => expr_names e end) (lowerArgs workflows payload)
  (λ r, nodes_ok (r.2 ++ [Approval bind desc redact r.1]) (λ sc κ,
    sargs_ (svalue workflows) false sc (λ a,
      PInvoke (unaddressed false) (CallApproval (mkApprovalInfo desc redact) <$> evalArgs sc a) (λ r,
        match r with Ok v => κ (FNext (bind_result sc bind v)) | Err e => κ (FErr e) end)) (λ e, κ (FErr e)) payload 0 ∅)).
Proof.
  intros st [a pre] st' E Hd Hr Hn rest i sc sc' k path loop κ Hs Hf Hk. cbn [fst snd]. rewrite <-app_assoc. cbn [app].
  eapply args_ok; [apply Forall_forall; intros; apply lowerValue_ok|exact E|done|done|done|done| | |apply Hf].
  { intros key. rewrite !lookup_empty. constructor. }
  intros i' sc2 a2 Hk2 Ha. cbn [execAll_from exec]. unfold invoke. rewrite (same_args_eval _ _ _ _ _ Ha). apply sim_invoke; [done|].
  intros [v|e]; [|apply Hf]. apply Hk. apply bind_result_same. by eapply keeps_same.
Qed.

(** The body of a loop, lowered after a quiet prefix. *)
Lemma body_ok l st1 ns st2 :
  Forall (λ s, lowers_ok (stmt_names s) (lowerStmt workflows s) (λ ns, nodes_ok ns (sstmt workflows iterations width s))) l →
  lowerStmts_ (lowerStmt workflows) l st1 = (ns, st2) → el_diags st2 = el_diags st1 → reserved ⊆ el_used st1 →
  Forall (λ x, source_name x = true) (l ≫= stmt_names) → ∀ path,
  block_sim (λ sc loop k, execAll iterations width ns sc path loop k) (λ sc κ, sstmts_ (sstmt workflows iterations width) κ l sc).
Proof. intros Hl E Hd Hr Hn path. by apply nodes_block, (stmts_ok l Hl _ _ _ E). Qed.

Lemma cond_then c l st cc st1 ns st2 :
  Forall (λ s, lowers_ok (stmt_names s) (lowerStmt workflows s) (λ ns, nodes_ok ns (sstmt workflows iterations width s))) l →
  lowerCond c st = (cc, st1) → lowerStmts_ (lowerStmt workflows) l st1 = (ns, st2) → el_diags st2 = el_diags st → reserved ⊆ el_used st →
  Forall (λ x, source_name x = true) (expr_names c ++ (l ≫= stmt_names)) →
  same_cond cc c ∧ nodes_ok ns (λ sc κ, sstmts_ (sstmt workflows iterations width) κ l sc) ∧ el_diags st1 = el_diags st ∧ el_used st ⊆ el_used st2.
Proof.
  intros Hl E1 E2 Hd Hr [Hn1 Hn2]%Forall_app. pose proof (grown _ _ _ _ (grows_cond c) E1) as G1.
  assert (grows st1 st2) as G2 by (eapply grown, E2; apply grows_stmts_, Forall_forall; intros; apply grows_stmt).
  destruct (quiet _ _ _ G1 G2 Hd) as [D1 D2]. destruct G1 as (_ & U1 & _), G2 as (_ & U2 & _).
  split; [intros sc sc'; by apply (cond_ok _ _ _ _ E1)|]. split; [|split; [done|set_solver]]. apply (stmts_ok l Hl _ _ _ E2 D2); [set_solver|done].
Qed.

Lemma for_ok x c b par :
  Forall (λ s, lowers_ok (stmt_names s) (lowerStmt workflows s) (λ ns, nodes_ok ns (sstmt workflows iterations width s))) b →
  lowers_ok (stmt_names (ForStmt x c b par)) (lowerStmt workflows (ForStmt x c b par)) (λ ns, nodes_ok ns (sstmt workflows iterations width (ForStmt x c b par))).
Proof.
  intros IH st ns st' E Hd Hr Hn. cbn [lowerStmt stmt_names] in *.
  unfold mbind, L_bind in E. destruct (lowerValue workflows c st) as [[coll pre] st1] eqn:E1. cbn [parallel_depth set_parallel_depth] in E.
  set (st2 := mkExecLowerer _ _ _ _) in E. destruct (lowerStmts_ _ b st2) as [body st3] eqn:E2. injection E as <- <-.
  pose proof (grown _ _ _ _ (grows_value workflows c) E1) as G1.
  assert (grows st2 st3) as G2 by (eapply grown, E2; apply grows_stmts_, Forall_forall; intros; apply grows_stmt).
  destruct (quiet st st1 (mkExecLowerer (el_diags st3) (el_used st3) (el_tempN st3) (el_parallelDepth st1))) as [D1 D2].
  { done. } { destruct G2 as (Dg & U & _). split; [exact Dg|split; [exact U|done]]. } { exact Hd. }
  destruct G1 as (_ & U1 & _). apply Forall_inv_tail in Hn as Hn'. apply Forall_app in Hn' as [Hn1 Hn2].
  assert (∀ path, block_sim (λ sc loop k, execAll iterations width body sc path loop k) (λ sc κ, sstmts_ (sstmt workflows iterations width) κ b sc)) as Hb.
  { eapply body_ok; [exact IH|exact E2|exact D2| |exact Hn2]. cbn [el_used st2]. set_solver. }
  eapply (value_then c (λ o, Loop (ident_name x) o body par) (λ o sc κ,
    match evalCollection sc o with Err e => κ (FErr e) | Ok items => sfor iterations width (λ sc κ, sstmts_ (sstmt workflows iterations width) κ b sc) (ident_name x) par items sc κ end));
    [|exact E1|done|done|done].
  intros st4 sc sc' o1 o2 path loop k κ Ho Hs Hk. cbn [exec]. unfold execLoop, evalCollection. rewrite (Ho sc) by done.
  destruct (evalValue sc' o2 ≫= _) as [items|]; [|apply Hk; constructor]. by apply (for_sim _ _ (Hb path)).
Qed.

Lemma lowerStmt_ok s : lowers_ok (stmt_names s) (lowerStmt workflows s) (λ ns, nodes_ok ns (sstmt workflows iterations width s)).
Proof.
  induction s as [x v|x|bs|v|b d r p|c t e IHt IHe|x c b par IH|c n b IH|c n b IH] using LangStmt.stmt_nested_ind;
    intros st ns st' E Hd Hr Hn; cbn [lowerStmt stmt_names] in *.
  - eapply assign_ok; [exact E|done|done|]. by apply Forall_inv_tail in Hn.
  - destruct x; try (unfold mbind, L_bind in E; cbn in E; injection E as <- <-; by apply diag_not_quiet in Hd). by eapply assign_ok.
  - unfold mbind, L_bind, lowerFork in E. unfold mbind, L_bind in E. destruct (lowerBranches workflows bs st) as [bs1 st1] eqn:E1. injection E as <- <-.
    apply node_ok. intros path sc sc' loop k κ Hs Hk. cbn [sstmt]. apply (fork_sim bs1 bs); [|done|done|done]. by eapply branches_ok.
  - unfold mbind, L_bind in E. cbn [parallel_depth] in E. destruct (0 <? el_parallelDepth st); [cbn in E; injection E as <- <-; by apply diag_not_quiet in Hd|].
    destruct (lowerValue workflows v st) as [[o pre] st1] eqn:E1. injection E as <- <-.
    eapply (value_then v Return (λ o sc κ, match evalValue sc o with Ok v => κ (FDone sc v) | Err e => κ (FErr e) end)); [|exact E1|done|done|done].
    intros st2 sc sc' o1 o2 path loop k κ Ho Hs Hk. cbn [exec]. rewrite (Ho sc) by done. destruct (evalValue sc' o2); apply Hk; by constructor.
  - unfold mbind, L_bind in E. destruct (lowerArgs workflows p st) as [[a pre] st1] eqn:E1. injection E as <- <-.
    apply Forall_inv_tail in Hn. by apply (approval_ok _ _ _ _ _ _ _ E1).
  - rewrite app_assoc in Hn. apply Forall_app in Hn as [Hn Hne]. unfold mbind, L_bind in E. destruct (lowerCond c st) as [cc st1] eqn:E1.
    destruct (lowerStmts_ _ t st1) as [tt st2] eqn:E2, (lowerStmts_ _ e st2) as [ee st3] eqn:E3. injection E as <- <-.
    assert (grows st st2) as G2.
    { eapply grows_trans; [eapply grown, E1; apply grows_cond|]. eapply grown, E2. apply grows_stmts_, Forall_forall. intros. apply grows_stmt. }
    assert (grows st2 st3) as G3 by (eapply grown, E3; apply grows_stmts_, Forall_forall; intros; apply grows_stmt).
    destruct (quiet _ _ _ G2 G3 Hd) as [D2 D3]. destruct (cond_then _ _ _ _ _ _ _ IHt E1 E2 D2 Hr Hn) as (Hc & Ht & _ & U).
    cbn [sstmt]. pose proof (stmts_ok e IHe _ _ _ E3 D3 ltac:(set_solver) Hne) as He.
    intros rest i sc sc' k path loop κ Hs Hf Hk. pose proof (if_ok _ _ _ _ _ _ Hc Ht He rest i sc sc' k path loop κ Hs Hf Hk) as H.
    cbn beta in H. destruct (scond c sc') as [[]|]; exact H.
  - by apply (for_ok x c b par IH st ns st').
  - unfold mbind, L_bind in E. destruct (lowerCond c st) as [cc st1] eqn:E1, (lowerStmts_ _ b st1) as [bb st2] eqn:E2. injection E as <- <-.
    destruct (cond_then _ _ _ _ _ _ _ IH E1 E2 Hd Hr Hn) as (Hc & Hb & _). apply node_ok. intros path sc sc' loop k κ Hs Hk. cbn [exec sstmt].
    apply while_sim; [by apply nodes_block|done|done|done].
  - unfold mbind, L_bind in E. destruct (lowerCond c st) as [cc st1] eqn:E1, (lowerStmts_ _ b st1) as [bb st2] eqn:E2. injection E as <- <-.
    destruct (cond_then _ _ _ _ _ _ _ IH E1 E2 Hd Hr Hn) as (Hc & Hb & _). apply node_ok. intros path sc sc' loop k κ Hs Hk. cbn [exec sstmt].
    apply retry_sim; [by apply nodes_block|done|done|done].
Qed.
End simulate.

(** ** The lowering of a workflow *)

(** The names a workflow reads or binds are those the lowering keeps apart from its
    temporaries: reserved, or without their prefix. *)
Definition temporaries_free (wd : WorkflowDecl) : bool :=
  forallb (source_name (reserve (wd_Body wd) (list_to_set (workflow_params wd)))) (wd_Body wd ≫= stmt_names).

Lemma LowerExec_sim workflows iterations width wd prog sc :
  LowerExec workflows wd = (prog, []) → temporaries_free wd = true →
  Params prog = workflow_params wd ∧
  sim (source_name (reserve (wd_Body wd) (list_to_set (workflow_params wd))))
    (execAll iterations width (Body prog) sc [] [] PRet) (sstmts workflows iterations width (wd_Body wd) sc PRet).
Proof.
  intros E Hn. unfold LowerExec in E. set (reserved := reserve _ _) in *.
  destruct (lowerStmts workflows (wd_Body wd) (mkExecLowerer [] reserved 0 0)) as [body st'] eqn:E1. injection E as <- Hd. split; [done|].
  pose proof (stmts_ok workflows iterations width reserved (wd_Body wd) ltac:(apply Forall_forall; intros; apply lowerStmt_ok) _ _ _ E1) as H.
  assert (Forall (λ x, source_name reserved x = true) (wd_Body wd ≫= stmt_names)) as Hf.
  { apply Forall_forall. intros x Hx. unfold temporaries_free in Hn. rewrite forallb_forall in Hn. apply Hn. by apply list_elem_of_In. }
  cbn [Body]. apply (nodes_block iterations width reserved body _ [] (H Hd ltac:(done) Hf)); [done|].
  apply cont_sim_ret.
Qed.

(** C15: Lowering preserves the meaning of a workflow.  When [LowerExec] reports no
    diagnostic and the names of the workflow are apart from the temporaries of the
    lowering ([temporaries_free]; in [approval_overwritten] an approval is bound to the
    name of one), the lowered program, whatever its calls answer, makes the calls of the
    source statements with the same arguments, starts the same concurrent constructs
    and ends the same way, as processes ([sim]); in particular, made in order, the
    calls leave the same state and the run returns the same value or error. *)
Theorem LowerExec_correct workflows iterations width wd prog input :
  LowerExec workflows wd = (prog, []) → temporaries_free wd = true →
  let lowered := execAll iterations width (Body prog) (paramScope (Params prog) input) [] [] PRet in
  let source := sstmts workflows iterations width (wd_Body wd) (paramScope (workflow_params wd) input) PRet in
  sim (source_name (reserve (wd_Body wd) (list_to_set (workflow_params wd)))) lowered source ∧
  ∀ W (ask : W → bool → call → W * res error value) w,
    (in_order ask lowered w).1 = (in_order ask source w).1 ∧ outcome <$> (in_order ask lowered w).2 = outcome <$> (in_order ask source w).2.
Proof.
  intros E Hn. destruct (LowerExec_sim workflows iterations width wd prog (paramScope (workflow_params wd) input) E Hn) as [Hp Hs].
  cbn zeta. rewrite Hp. split; [done|]. intros W ask w. destruct (sim_in_order _ ask _ _ Hs w) as [H1 H2]. split; [done|].
  destruct H2 as [f f' []|]; done.
Qed.

(** Calls nested two deep, an object, a parallel block and a loop. *)
Definition nested_workflow : WorkflowDecl := mkWorkflowDecl (Some "w") [("x", None); ("n", None)] None None None [] [
  AssignStmt "a" (CallExpr ["agent"] [(None, CallExpr ["tool"; "op"] [(Some "k", RefExpr ["x"]); (Some "l", CallExpr ["inner"] [])])]);
  ParallelStmt [("p", CallExpr ["f"] [(None, CallExpr ["g"] [])]); ("q", RefExpr ["a"; "id"])];
  WhileStmt (BinaryExpr KindLt (RefExpr ["n"]) (LitExpr (VInt 3))) 2 [AssignStmt "n" (CallExpr ["next"] [(Some "n", CallExpr ["id"] [(None, RefExpr ["n"])])])];
  ReturnStmt (ObjectExpr [("a", CallExpr ["sub"] [(Some "v", RefExpr ["a"])]); ("p", RefExpr ["p"])])].

Lemma LowerExec_correct_witness :
  ∃ prog, LowerExec (λ n, n =? "sub")%string nested_workflow = (prog, []) ∧
    ∀ W (ask : W → bool → call → W * res error value) w,
      outcome <$> (in_order ask (execAll 100 8 (Body prog) (paramScope (Params prog) (VMap [("n", VInt 0)])) [] [] PRet) w).2 =
      outcome <$> (in_order ask (sstmts (λ n, n =? "sub")%string 100 8 (wd_Body nested_workflow) (paramScope ["x"; "n"] (VMap [("n", VInt 0)])) PRet) w).2.
Proof.
  eexists. split; [vm_compute; reflexivity|]. intros W ask w.
  refine (proj2 (proj2 (LowerExec_correct (λ n, n =? "sub")%string 100 8 nested_workflow _ (VMap [("n", VInt 0)]) _ _) W ask w)); vm_compute; reflexivity.
Defined.

(** The condition is needed: [reserve] has no case for an approval, so a temporary can
    take the name an approval bound.  After [approval _t0 {}] and [x = f(g())], [_t0] is
    the answer of [g], not the decision. *)
Definition approval_workflow : WorkflowDecl := mkWorkflowDecl (Some "w") [] None None None [] [
  ApprovalStmt (Some "_t0") None [] []; AssignStmt "x" (CallExpr ["f"] [(None, CallExpr ["g"] [])]); ReturnStmt (RefExpr ["_t0"])].
Definition answers (w : unit) (_ : bool) (c : call) : unit * res error value :=
  (w, Ok (VStr match c with CallAgent a _ => a | CallApproval _ _ => "approved" | _ => "" end)).

Lemma approval_overwritten :
  let prog := (LowerExec (λ _, false) approval_workflow).1 in
  (LowerExec (λ _, false) approval_workflow).2 = [] ∧
  outcome <$> (in_order answers (execAll 100 8 (Body prog) ∅ [] [] PRet) ()).2 = Some (Ok (VStr "g")) ∧
  outcome <$> (in_order answers (sstmts (λ _, false) 100 8 (wd_Body approval_workflow) ∅ PRet) ()).2 = Some (Ok (VStr "approved")).
Proof. by vm_compute. Qed.
