(* ===== verification/RuneText.v ===== *)
(** * Text cut on rune boundaries, and the text of JSON values

    [runeSafePrefix] and [runeSafeSuffix] ([internal/trace/redaction.go], and a copy in
    [internal/engine/limits_truncate.go]) keep valid UTF-8 valid; the JSON text of a
    value is valid UTF-8, and at most six times the text of a string long. *)

From S2P Require Import Prelude GoNum GoText Value JsonText.

Local Open Scope Z_scope.

(** ** Cutting strings on rune boundaries *)

(** [utf8.RuneStart]. *)
Definition rune_start (c : ascii) : bool := negb (is_cont c).

(** The cut at byte [b], moved down to the start of a rune. *)
Fixpoint cut_down (l : chars) (b : nat) : nat :=
  match b with
  | O => 0%nat
  | S b' => match l !! b with Some c => if rune_start c then b else cut_down l b' | None => b end
  end.
Definition rune_prefix (l : chars) (maxBytes : nat) : chars :=
  if (length l <=? maxBytes)%nat then l else take (cut_down l maxBytes) l.

(** Leading continuation bytes are dropped. *)
Fixpoint drop_cont (l : chars) : chars :=
  match l with [] => [] | c :: l' => if rune_start c then l else drop_cont l' end.
Definition rune_suffix (l : chars) (maxBytes : nat) : chars :=
  if (length l <=? maxBytes)%nat then l else drop_cont (drop (length l - maxBytes) l).

Definition to_chars : string → chars := String.list_ascii_of_string.
Definition of_chars : chars → string := String.string_of_list_ascii.

Definition runeSafePrefix (s : string) (maxBytes : Z) : string := of_chars (rune_prefix (to_chars s) (Z.to_nat maxBytes)).
Definition runeSafeSuffix (s : string) (maxBytes : Z) : string := of_chars (rune_suffix (to_chars s) (Z.to_nat maxBytes)).

Definition byte_len (s : string) : Z := Z.of_nat (String.length s).

(** ** Cuts are on rune boundaries *)

Lemma cut_down_le l b : (cut_down l b ≤ b)%nat.
Proof. induction b as [|b IH]; cbn; [done|]. destruct (l !! S b); [destruct (rune_start _)|]; lia. Qed.
Lemma rune_prefix_length l n : (length (rune_prefix l n) ≤ n)%nat.
Proof. unfold rune_prefix. destruct (Nat.leb_spec (length l) n); [done|]. rewrite length_take. pose proof (cut_down_le l n). lia. Qed.
Lemma drop_cont_suffix l : ∃ a, l = a ++ drop_cont l.
Proof.
  induction l as [|c l [a IH]]; [by exists []|]. cbn. destruct (rune_start c); [by exists []|]. exists (c :: a). cbn. by rewrite IH at 1.
Qed.
Lemma rune_suffix_length l n : (length (rune_suffix l n) ≤ n)%nat.
Proof.
  unfold rune_suffix. destruct (Nat.leb_spec (length l) n) as [|Hn]; [done|]. destruct (drop_cont_suffix (drop (length l - n) l)) as [a E].
  apply (f_equal length) in E. rewrite length_app, length_drop in E. lia.
Qed.

(** A rune is a start byte and continuation bytes. *)
Lemma good_rune_bytes r : good_rune r → ∃ h t, r = h :: t ∧ rune_start h = true ∧ Forall (λ c, rune_start c = false) t.
Proof.
  intros [Hne Hd]. specialize (Hd []). rewrite app_nil_r in Hd. unfold decode_rune in Hd. cbn zeta in Hd.
  unfold rune_start, is_cont, in_range in *.
  destruct r as [|b0 [|b1 [|b2 [|b3 [|b4 r]]]]]; try done; repeat case_match; simplify_eq;
    (eexists _, _; split; [reflexivity|]; split; [rewrite ?negb_true_iff|repeat constructor; rewrite ?negb_false_iff]);
    repeat match goal with
      | H : (_ && _)%bool = true |- _ => apply andb_prop in H as [? ?]
      | H : (_ || _)%bool = true |- _ => apply orb_prop in H as [?|?]
      | H : (_ && _)%bool = false |- _ => apply andb_false_iff in H
      | |- (_ && _)%bool = false => apply andb_false_iff
      | |- (_ && _)%bool = true => apply andb_true_intro; split
      end; rewrite ?N.leb_le, ?N.leb_gt in *; lia.
Qed.

Definition runes_of (l : chars) : Prop := ∃ rs, Forall good_rune rs ∧ l = concat rs.
Lemma runes_valid l : runes_of l ↔ valid_utf8 (of_chars l) = true.
Proof.
  split.
  - intros (rs & Hrs & ->). unfold valid_utf8, runes, of_chars. rewrite String.list_ascii_of_string_of_list_ascii, runes_go_concat_valid; [|done..].
    rewrite forallb_forall. intros x Hx. apply list_elem_of_In, list_elem_of_fmap in Hx. by destruct Hx as (? & -> & _).
  - intros (rs & _ & Hg & E)%valid_runes. unfold of_chars in E. rewrite String.list_ascii_of_string_of_list_ascii in E. by exists rs.
Qed.

Definition boundary (l : chars) (b : nat) : Prop := b = 0%nat ∨ (length l ≤ b)%nat ∨ ∃ c, l !! b = Some c ∧ rune_start c = true.

Lemma runes_split rs : Forall good_rune rs → ∀ b, boundary (concat rs) b → runes_of (take b (concat rs)) ∧ runes_of (drop b (concat rs)).
Proof.
  induction 1 as [|r rs Hr Hrs IH]; intros b Hb; [cbn [concat]; rewrite take_nil, drop_nil; by split; exists []|].
  destruct (good_rune_bytes r Hr) as (h & t & -> & Hh & Ht). cbn [concat] in *. set (r := h :: t) in *.
  destruct (decide (b = 0%nat)) as [->|Hb0].
  { rewrite take_0, drop_0. split; [by exists []|]. exists (r :: rs). split; [by constructor|done]. }
  destruct (decide (length r ≤ b)%nat) as [Hge|Hlt].
  - rewrite take_app_ge, drop_app_ge by lia. destruct (IH (b - length r)%nat) as [(rs1 & H1 & E1) (rs2 & H2 & E2)].
    { destruct Hb as [?|[Hb|(c & Hc & Hs)]]; [done| |].
      - right. left. rewrite length_app in Hb. lia.
      - right. right. exists c. by rewrite lookup_app_r in Hc by lia. }
    split; [|by exists rs2]. exists (r :: rs1). split; [by constructor|]. cbn [concat]. by rewrite E1.
  - exfalso. destruct Hb as [?|[Hb|(c & Hc & Hs)]]; [done|rewrite length_app in Hb; lia|].
    rewrite lookup_app_l in Hc by lia. destruct b as [|b]; [done|]. cbn in Hc. rewrite Forall_lookup in Ht. by rewrite (Ht _ _ Hc) in Hs.
Qed.

Lemma cut_down_boundary l b : boundary l (cut_down l b).
Proof.
  induction b as [|b IH]; cbn; [by left|]. destruct (l !! S b) as [c|] eqn:E; [|right; left; by apply lookup_ge_None].
  destruct (rune_start c) eqn:Hc; [right; right; by exists c|done].
Qed.
Lemma drop_cont_boundary l : ∃ k, drop_cont l = drop k l ∧ ((length l ≤ k)%nat ∨ ∃ c, l !! k = Some c ∧ rune_start c = true).
Proof.
  induction l as [|c l (k & E & H)]; [exists 0%nat; split; [done|by left]|]. cbn. destruct (rune_start c) eqn:Hc.
  - exists 0%nat. split; [done|]. right. by exists c.
  - exists (S k). split; [done|]. destruct H as [H|(d & Hd & Hs)]; [left; cbn; lia|]. right. by exists d.
Qed.

Lemma rune_prefix_valid l n : runes_of l → runes_of (rune_prefix l n).
Proof.
  intros Hl. unfold rune_prefix. destruct (_ <=? _)%nat; [done|]. destruct Hl as (rs & Hrs & ->). apply runes_split; [done|]. apply cut_down_boundary.
Qed.
Lemma rune_suffix_valid l n : runes_of l → runes_of (rune_suffix l n).
Proof.
  intros Hl. unfold rune_suffix. destruct (_ <=? _)%nat; [done|]. destruct Hl as (rs & Hrs & ->).
  destruct (drop_cont_boundary (drop (length (concat rs) - n) (concat rs))) as (k & -> & Hk). rewrite drop_drop. apply runes_split; [done|].
  rewrite length_drop in Hk. destruct Hk as [Hk|(c & Hc & Hs)]; [right; left; lia|]. right. right. exists c. by rewrite lookup_drop in Hc.
Qed.

Lemma runes_of_app l l' : runes_of l → runes_of l' → runes_of (l ++ l').
Proof. intros (r & Hr & ->) (r' & Hr' & ->). exists (r ++ r'). split; [by apply Forall_app|]. by rewrite concat_app. Qed.

Lemma to_of_chars l : to_chars (of_chars l) = l.
Proof. apply String.list_ascii_of_string_of_list_ascii. Qed.
Lemma of_to_chars s : of_chars (to_chars s) = s.
Proof. apply String.string_of_list_ascii_of_string. Qed.
Lemma to_chars_app s t : to_chars (s +:+ t) = to_chars s ++ to_chars t.
Proof. apply list_ascii_of_app. Qed.
Lemma byte_len_chars s : byte_len s = Z.of_nat (length (to_chars s)).
Proof. unfold byte_len, to_chars. f_equal. induction s as [|c s IH]; [done|]. cbn. by rewrite IH. Qed.
Lemma byte_len_app s t : byte_len (s +:+ t) = byte_len s + byte_len t.
Proof. rewrite !byte_len_chars, to_chars_app, length_app. lia. Qed.

Definition text_valid (s : string) : Prop := valid_utf8 s = true.
Lemma text_valid_chars s : text_valid s ↔ runes_of (to_chars s).
Proof. unfold text_valid. by rewrite runes_valid, of_to_chars. Qed.

Lemma runeSafePrefix_spec s n : (byte_len (runeSafePrefix s n) <= Z.max 0 n) ∧ (text_valid s → text_valid (runeSafePrefix s n)).
Proof.
  rewrite !text_valid_chars, byte_len_chars. unfold runeSafePrefix. rewrite to_of_chars. split; [|apply rune_prefix_valid].
  pose proof (rune_prefix_length (to_chars s) (Z.to_nat n)). lia.
Qed.
Lemma runeSafeSuffix_spec s n : (byte_len (runeSafeSuffix s n) <= Z.max 0 n) ∧ (text_valid s → text_valid (runeSafeSuffix s n)).
Proof.
  rewrite !text_valid_chars, byte_len_chars. unfold runeSafeSuffix. rewrite to_of_chars. split; [|apply rune_suffix_valid].
  pose proof (rune_suffix_length (to_chars s) (Z.to_nat n)). lia.
Qed.

(** ** The text of JSON values *)

Lemma text_valid_app s t : text_valid s → text_valid t → text_valid (s +:+ t).
Proof. rewrite !text_valid_chars, to_chars_app. apply runes_of_app. Qed.
Lemma text_valid_ascii s : str_forall is_ascii s = true → text_valid s.
Proof. apply valid_ascii. Qed.

Lemma forallb_runes l : forallb is_ascii l = true → runes_of l.
Proof.
  intros H. rewrite runes_valid. apply valid_ascii. unfold of_chars. induction l as [|c l IH]; [done|]. cbn in *.
  apply andb_true_iff in H as [-> H]. by apply IH.
Qed.

Lemma escape_ascii_spec c : is_ascii c = true → forallb is_ascii (json_escape_ascii c) = true ∧ (length (json_escape_ascii c) <= 6)%nat.
Proof. destruct c as [[] [] [] [] [] [] [] []]; intros H; try discriminate H; vm_compute; repeat constructor. Qed.

Lemma escape_rune_spec r : match r with inl r => good_rune r | inr _ => True end →
  runes_of (json_escape_rune r) ∧ (length (json_escape_rune r) <= 6 * match r with inl r => length r | inr _ => 1 end)%nat.
Proof.
  destruct r as [r|b]; intros Hr; [|split; [by apply forallb_runes|vm_compute; lia]]. destruct r as [|c [|c2 r]]; [by destruct Hr| |].
  - destruct Hr as [_ Hd]. specialize (Hd []). apply decode_rune_single in Hd.
    destruct (escape_ascii_spec c) as [Ha Hl]; [apply N.leb_le; lia|]. split; [by apply forallb_runes|cbn in *; lia].
  - cbn [json_escape_rune]. repeat case_decide; (split; [|cbn; lia]); [by apply forallb_runes..|].
    exists [c :: c2 :: r]. split; [by constructor|]. cbn [concat]. by rewrite app_nil_r.
Qed.

Lemma json_quote_spec s : text_valid (json_quote s) ∧ byte_len (json_quote s) <= 6 * byte_len s + 2.
Proof.
  rewrite text_valid_chars, !byte_len_chars. unfold json_quote. fold (of_chars (json_quote_chars (to_chars s))). rewrite to_of_chars.
  set (l := to_chars s). unfold json_quote_chars.
  assert (Forall (λ r, match r with inl r => good_rune r | inr _ => True end) (runes l)) as Hg.
  { apply Forall_forall. intros [r|b] Hr; [|done]. by apply (runes_go_good (length l) l). }
  assert (length l = length (concat ((λ r, match r with inl r => r | inr b => [b] end) <$> runes l))) as Hl.
  { unfold runes. by rewrite runes_go_concat. }
  assert (runes_of (concat (json_escape_rune <$> runes l)) ∧ (length (concat (json_escape_rune <$> runes l)) <= 6 * length l)%nat) as [V L].
  { rewrite Hl. clear Hl. induction Hg as [|r rs Hr _ [IH1 IH2]]; [split; [by exists []|done]|]. destruct (escape_rune_spec r Hr) as [Ve Le].
    rewrite !fmap_cons. cbn [concat]. split; [by apply runes_of_app|]. destruct r as [r|b]; rewrite !length_app; cbn [length] in *; lia. }
  split.
  - change (ascii_of_N 34 :: ?x ++ ?y) with ([ascii_of_N 34] ++ x ++ y). apply runes_of_app; [by apply forallb_runes|].
    apply runes_of_app; [done|]. by apply forallb_runes.
  - fold (to_chars s). fold l. rewrite length_cons, length_app. cbn [length]. lia.
Qed.

(** *** Numbers *)

Lemma substring_forall p s : ∀ n m, str_forall p s = true → str_forall p (String.substring n m s) = true.
Proof.
  induction s as [|c s IH]; intros [|n] [|m] H; try done; cbn in *; apply andb_true_iff in H as [Hc H]; try by apply IH.
  rewrite Hc. by apply IH.
Qed.
Lemma zeros_ascii n : str_forall is_ascii (zeros n) = true.
Proof. by induction n. Qed.
Lemma pretty_ascii (d : N) : str_forall is_ascii (pretty d) = true.
Proof. apply digits_ascii, pretty_N_digits. Qed.
Lemma fmt_Z_ascii z : str_forall is_ascii (fmt_Z z) = true.
Proof.
  unfold fmt_Z. destruct z as [|p|p]; [done|apply pretty_ascii|].
  change (pretty (Z.neg p)) with ("-" +:+ pretty (N.pos p)). rewrite str_forall_app, pretty_ascii. done.
Qed.

Create HintDb ascii_text.
#[local] Hint Resolve zeros_ascii pretty_ascii substring_forall : ascii_text.
Ltac ascii_parts := repeat first [rewrite str_forall_app; apply andb_true_intro; split | progress case_match | progress case_decide | by eauto with ascii_text].

Lemma fmt_f_ascii d p : str_forall is_ascii (fmt_f d p) = true.
Proof. unfold fmt_f. ascii_parts. Qed.
Lemma fmt_e_json_ascii d p : str_forall is_ascii (fmt_e_json d p) = true.
Proof. unfold fmt_e_json. ascii_parts. Qed.
Lemma json_float_ascii f s : json_float f = Some s → str_forall is_ascii s = true.
Proof.
  destruct f as [| |neg m e]; try done. cbn [json_float]. destruct (shortest neg m e) as [d p]. intros [= <-].
  rewrite str_forall_app. apply andb_true_intro. split; [by destruct neg|]. case_match; [apply fmt_e_json_ascii|apply fmt_f_ascii].
Qed.

(** *** Values *)

Lemma json_marshal_VList l : json_marshal (VList l) = (λ ss, "[" +:+ (join "," ss +:+ "]")) <$> mapM json_marshal l.
Proof. done. Qed.
Definition json_field (kv : string * value) : option string := (λ s, json_quote kv.1 +:+ (":" +:+ s)) <$> json_marshal kv.2.
Lemma json_marshal_VMap m : json_marshal (VMap m) = (λ ss, "{" +:+ (join "," ss +:+ "}")) <$> mapM json_field m.
Proof.
  cbn [json_marshal]. f_equal. induction m as [|[k v] m IH]; [done|].
  change (mapM json_field ((k, v) :: m)) with (s ← json_field (k, v); ss ← mapM json_field m; Some (s :: ss)).
  rewrite <-IH. unfold json_field. cbn [fst snd]. by destruct (json_marshal v).
Qed.

Lemma join_valid sep l : text_valid sep → Forall text_valid l → text_valid (join sep l).
Proof.
  intros Hs. induction 1 as [|s l Hv Hl IH]; [done|]. destruct Hl as [|t l Ht Hl]; [done|].
  change (join sep (s :: t :: l)) with (s +:+ (sep +:+ join sep (t :: l))). by repeat apply text_valid_app.
Qed.
Lemma wrapped_valid a b l : str_forall is_ascii a = true → str_forall is_ascii b = true → Forall text_valid l → text_valid (a +:+ (join "," l +:+ b)).
Proof. intros Ha Hb Hl. apply text_valid_app; [by apply text_valid_ascii|]. apply text_valid_app; [by apply join_valid|by apply text_valid_ascii]. Qed.

(** The JSON text of a value is valid UTF-8, whatever its strings are. *)
Lemma json_marshal_valid v : ∀ s, json_marshal v = Some s → text_valid s.
Proof.
  induction v as [|b|i|f|t|l IH|m IH] using value_nested_ind; intros s H.
  - by injection H as <-.
  - injection H as <-. by destruct b.
  - injection H as <-. apply text_valid_ascii, fmt_Z_ascii.
  - by eapply text_valid_ascii, json_float_ascii.
  - injection H as <-. apply json_quote_spec.
  - rewrite json_marshal_VList in H. apply fmap_Some in H as (ss & Hss & ->). apply wrapped_valid; [done..|].
    apply mapM_Some in Hss. induction Hss as [|x t l ss Hx _ IHs]; constructor; apply Forall_cons in IH as [H1 H2]; auto.
  - rewrite json_marshal_VMap in H. apply fmap_Some in H as (ss & Hss & ->). apply wrapped_valid; [done..|].
    apply mapM_Some in Hss. induction Hss as [|[k x] t l ss Hx _ IHs]; constructor; apply Forall_cons in IH as [H1 H2]; [|auto].
    apply fmap_Some in Hx as (u & Hu & ->). apply text_valid_app; [apply json_quote_spec|]. apply text_valid_app; [done|]. by apply H1.
Qed.
