(* ===== verification/TraceRedact.v ===== *)
(** * Redaction of trace payloads ([internal/trace/redaction.go], [redaction_graph.go])

    Before an event is stored its payload is sanitized (made of JSON types, long
    strings and binaries cut), redacted (values under sensitive keys masked) and
    truncated (an oversized payload becomes a preview).  [PrepareEventData_public]:
    what is stored does not depend on any value under a sensitive key. *)

From S2P Require Import Prelude GoNum GoText Value JsonText RuneText SpecTools PolicyHitl.

Local Open Scope Z_scope.

(** ** Options *)

Definition RedactedPlaceholder : string := "[REDACTED]".
Definition FieldPayloadTruncated : string := "payload_truncated".
Definition FieldPayloadPreview : string := "preview".
Definition FieldWrappedValue : string := "value".

Definition defaultMaxDepth : Z := 64.
Definition defaultMaxBinaryBytes : Z := 1024.
Definition defaultMaxStringChars : Z := 256.
Definition defaultMaxPayloadBytes : Z := 65536.
Definition DetailMaxStringChars : Z := 8192.
Definition DetailMaxPayloadBytes : Z := 262144.

Definition DefaultRedactKeys : list string :=
  ["password"; "secret"; "credential"; "token"; "api_key"; "apikey";
   "access_token"; "refresh_token"; "id_token"; "session_token"; "auth_token";
   "bearer"; "auth"; "authorization"; "client_secret";
   "access_key"; "access_key_id"; "secret_access_key";
   "private_key"; "privatekey"].

Record RedactionOptions := mkRedactionOptions {
  ro_RedactKeys : list string;
  ro_MaxDepth : Z;
  ro_MaxBinaryBytes : Z;
  ro_MaxStringChars : Z;
  ro_MaxPayloadBytes : Z;
  ro_UnsafeRepr : bool;
}.

Definition ApplyDetailBudget (o : RedactionOptions) : RedactionOptions :=
  mkRedactionOptions (ro_RedactKeys o) (ro_MaxDepth o) (ro_MaxBinaryBytes o)
    (if ro_MaxStringChars o <? DetailMaxStringChars then DetailMaxStringChars else ro_MaxStringChars o)
    (if ro_MaxPayloadBytes o <? DetailMaxPayloadBytes then DetailMaxPayloadBytes else ro_MaxPayloadBytes o)
    (ro_UnsafeRepr o).

Definition DefaultRedactionOptions : RedactionOptions :=
  mkRedactionOptions DefaultRedactKeys defaultMaxDepth defaultMaxBinaryBytes defaultMaxStringChars defaultMaxPayloadBytes false.

(** [add] of [mergeRedactKeys]: [out] in order; [seen] is its set. *)
Fixpoint add_keys (keys out : list string) : list string :=
  match keys with
  | [] => out
  | k :: keys =>
      let k := to_lower (trim_space k) in
      add_keys keys (if (k =? "")%string || str_mem k out then out else out ++ [k])
  end.
Definition mergeRedactKeys (base extra : list string) : list string := add_keys extra (add_keys base []).

Definition pos_or (x d : Z) : Z := if 0 <? x then x else d.

Definition normalized (o : RedactionOptions) : RedactionOptions :=
  mkRedactionOptions (mergeRedactKeys DefaultRedactKeys (ro_RedactKeys o))
    (pos_or (ro_MaxDepth o) defaultMaxDepth) (pos_or (ro_MaxBinaryBytes o) defaultMaxBinaryBytes)
    (pos_or (ro_MaxStringChars o) defaultMaxStringChars) (pos_or (ro_MaxPayloadBytes o) defaultMaxPayloadBytes)
    (ro_UnsafeRepr o).

(** The [spec.traces] section of a project; absent sections are empty. *)
Record ProjectTracesRedactionCfg := mkProjectTracesRedactionCfg {
  tr_RedactKeys : list string; tr_MaxDepth : Z; tr_MaxBytes : Z; tr_MaxStringChars : Z; tr_MaxPayloadBytes : Z
}.
Record ProjectTracesConfig := mkProjectTracesConfig { ts_RedactKeys : list string; ts_MaxPayloadBytes : Z; ts_Redaction : option ProjectTracesRedactionCfg }.

Definition RedactionFromGraph (traces : option ProjectTracesConfig) : RedactionOptions :=
  let opts := DefaultRedactionOptions in
  match traces with
  | None => opts
  | Some t =>
      let keys := ro_RedactKeys opts ++ ts_RedactKeys t in
      let payload := pos_or (ts_MaxPayloadBytes t) (ro_MaxPayloadBytes opts) in
      normalized
        match ts_Redaction t with
        | None => mkRedactionOptions keys (ro_MaxDepth opts) (ro_MaxBinaryBytes opts) (ro_MaxStringChars opts) payload false
        | Some r =>
            mkRedactionOptions (keys ++ tr_RedactKeys r) (pos_or (tr_MaxDepth r) (ro_MaxDepth opts))
              (pos_or (tr_MaxBytes r) (ro_MaxBinaryBytes opts)) (pos_or (tr_MaxStringChars r) (ro_MaxStringChars opts))
              (pos_or (tr_MaxPayloadBytes r) payload) false
        end
  end.

(** ** Long strings *)

Definition truncateString (s : string) (max : Z) : string :=
  if (max <=? 0) || (byte_len s <=? max) then s
  else if max <=? 3 then runeSafePrefix s max
  else
    let keep := max - 3 in
    let head := keep / 2 in
    let tail := keep - head in
    runeSafePrefix s head +:+ ("..." +:+ runeSafeSuffix s tail).

(** ** Placeholders *)

Definition binaryPlaceholder (b : chars) (max : Z) : string :=
  let max := if max <=? 0 then defaultMaxBinaryBytes else max in
  let show := take (Z.to_nat max) b in
  if (length show <? length b)%nat then
    "<binary: " +:+ (pretty (length b) +:+ (" bytes, hex preview " +:+ (pretty (length show) +:+ (" bytes: " +:+ (hex_encode show +:+ ">")))))
  else "<binary: " +:+ (pretty (length b) +:+ (" bytes, hex: " +:+ (hex_encode show +:+ ">"))).

(** The type name of the value and its [%v] text. *)
Definition unknownPlaceholder (name repr : string) (unsafeRepr : bool) : string :=
  if unsafeRepr then repr else "<" +:+ (name +:+ ": unserialized>").

(** ** Payloads *)

(** A Go [any] given as event data.  A named type stands for its underlying value
    (the reflection path of [sanitizeReflect] records it as such), [PList] for every
    slice or array but byte slices, [PMap] for every map with string keys (in key
    order), [POther] for what has no JSON form; [float32] is left out. *)
Inductive payload : Type :=
  | PNil
  | PBool (b : bool)
  | PInt (i : Z)
  | PFloat (f : f64)
  | PStr (s : string)
  | PNumber (s : string)      (* json.Number *)
  | PBytes (b : chars)
  | PPointer (p : option payload)
  | PList (l : list payload)
  | PMap (m : list (string * payload))
  | POther (name repr : string).

Definition depth_exceeded (max : Z) : value := VStr ("<max depth " +:+ (pretty max +:+ " exceeded>")).

Fixpoint sanitizeValue (v : payload) (depth : Z) (o : RedactionOptions) : value :=
  if ro_MaxDepth o <? depth then depth_exceeded (ro_MaxDepth o)
  else
    match v with
    | PNil | PPointer None => VNil
    | PMap m => VMap ((fix go m := match m with
        | [] => [] | (k, v) :: m => (k, sanitizeValue v (depth + 1) o) :: go m end) m)
    | PList l => VList ((fix go l := match l with
        | [] => [] | v :: l => sanitizeValue v (depth + 1) o :: go l end) l)
    | PNumber s => VStr s
    | PStr s => VStr (truncateString s (ro_MaxStringChars o))
    | PBytes b => VStr (binaryPlaceholder b (ro_MaxBinaryBytes o))
    | PBool b => VBool b
    | PInt i => VInt i
    | PFloat f => VFloat f
    | PPointer (Some p) => sanitizeValue p (depth + 1) o
    | POther name repr => VStr (unknownPlaceholder name repr (ro_UnsafeRepr o))
    end.

(** ** Redaction *)

Definition keyMatchesRedact (key : string) (patterns : list string) : bool :=
  let k := to_lower (trim_space key) in
  existsb (λ p, negb (p =? "")%string && ((k =? p)%string || str_contains k p)) patterns.

Fixpoint redactValue (keys : list string) (v : value) : value :=
  match v with
  | VMap m => VMap ((fix go m := match m with
      | [] => []
      | (k, v) :: m => (k, if keyMatchesRedact k keys then VStr RedactedPlaceholder else redactValue keys v) :: go m end) m)
  | VList l => VList ((fix go l := match l with [] => [] | v :: l => redactValue keys v :: go l end) l)
  | v => v
  end.
Definition RedactValue (v : value) (opts : RedactionOptions) : value := redactValue (ro_RedactKeys (normalized opts)) v.

(** ** Truncation and the pipeline *)

Definition truncated_payload (preview : string) : list (string * value) :=
  [(FieldPayloadTruncated, VBool true); (FieldPayloadPreview, VStr preview)].

Definition truncatePayload (data : list (string * value)) (maxBytes : Z) : list (string * value) :=
  if maxBytes <=? 0 then data
  else
    match json_marshal (VMap data) with
    | None => data
    | Some b => if byte_len b <=? maxBytes then data else truncated_payload (runeSafePrefix b maxBytes)
    end.

Definition event_data (v : value) : list (string * value) := match v with VMap out => out | _ => [(FieldWrappedValue, v)] end.

Definition PrepareEventData (data : list (string * payload)) (extraRedactKeys : list string) (opts : RedactionOptions) : list (string * value) :=
  match data with
  | [] => []
  | _ =>
      let o := normalized opts in
      let keys := mergeRedactKeys (ro_RedactKeys o) extraRedactKeys in
      let redacted := redactValue keys (sanitizeValue (PMap data) 0 o) in
      truncatePayload (event_data redacted) (ro_MaxPayloadBytes o)
  end.

(** A value read back as event data. *)
Fixpoint of_value (v : value) : payload :=
  match v with
  | VNil => PNil | VBool b => PBool b | VInt i => PInt i | VFloat f => PFloat f | VStr s => PStr s
  | VList l => PList (of_value <$> l)
  | VMap m => PMap ((fix go m := match m with [] => [] | (k, v) :: m => (k, of_value v) :: go m end) m)
  end.

Definition payload_get (m : list (string * payload)) (k : string) : list (string * payload) :=
  match List.find (λ kv, kv.1 =? k)%string m with Some (_, v) => [(k, v)] | None => [] end.

Definition redact_change (o : RedactionOptions) (keys : list string) (path : string) (entry : payload) : payload :=
  match entry with
  | PMap m =>
      if keyMatchesRedact path keys then PMap [("from", PStr RedactedPlaceholder); ("to", PStr RedactedPlaceholder)]
      else of_value (VMap (PrepareEventData (payload_get m "from" ++ payload_get m "to") []
        (mkRedactionOptions keys (ro_MaxDepth o) (ro_MaxBinaryBytes o) (ro_MaxStringChars o) (ro_MaxPayloadBytes o) (ro_UnsafeRepr o))))
  | _ => entry
  end.
Definition RedactArgsDiff (diff : list (string * payload)) (extraRedactKeys : list string) (opts : RedactionOptions) : list (string * payload) :=
  let o := normalized opts in
  let keys := mergeRedactKeys (ro_RedactKeys o) extraRedactKeys in
  (λ kv, (kv.1, redact_change o keys kv.1 kv.2)) <$> diff.

(** ** Properties *)

(** *** Keys *)

Lemma add_keys_spec keys : ∀ out k, k ∈ add_keys keys out ↔ k ∈ out ∨ (k ≠ "" ∧ ∃ x, x ∈ keys ∧ k = to_lower (trim_space x)).
Proof.
  induction keys as [|x keys IH]; intros out k; cbn [add_keys].
  { split; [by left|]. intros [H|(_ & x & Hx & _)]; [done|]. by apply elem_of_nil in Hx. }
  rewrite IH. set (y := to_lower (trim_space x)).
  assert (k ∈ (if (y =? "")%string || str_mem y out then out else out ++ [y]) ↔ k ∈ out ∨ (k = y ∧ k ≠ "")) as ->.
  { destruct (String.eqb_spec y "") as [Hy|Hy]; cbn [orb]; [by naive_solver|]. destruct (str_mem y out) eqn:Hm.
    - apply str_mem_spec in Hm. naive_solver.
    - rewrite elem_of_app, list_elem_of_singleton. naive_solver. }
  setoid_rewrite elem_of_cons. naive_solver.
Qed.

Lemma mergeRedactKeys_spec base extra k :
  k ∈ mergeRedactKeys base extra ↔ k ≠ "" ∧ ∃ x, x ∈ base ++ extra ∧ k = to_lower (trim_space x).
Proof.
  unfold mergeRedactKeys. rewrite !add_keys_spec. setoid_rewrite elem_of_app. setoid_rewrite elem_of_nil. naive_solver.
Qed.

(** The keys in force for an event. *)
Definition event_keys (extra : list string) (o : RedactionOptions) : list string := mergeRedactKeys (ro_RedactKeys (normalized o)) extra.

(** A key matches when it contains one of the keys in force, in lower case. *)
Lemma keyMatchesRedact_spec key patterns : keyMatchesRedact key patterns = true ↔
  ∃ p, p ∈ patterns ∧ p ≠ "" ∧ (to_lower (trim_space key) = p ∨ str_contains (to_lower (trim_space key)) p = true).
Proof.
  unfold keyMatchesRedact. rewrite existsb_exists. setoid_rewrite <-list_elem_of_In.
  setoid_rewrite andb_true_iff. setoid_rewrite orb_true_iff. setoid_rewrite negb_true_iff.
  setoid_rewrite String.eqb_neq. setoid_rewrite String.eqb_eq. done.
Qed.

(** No configuration removes a default key. *)
Lemma defaults_in_force extra o k : k ∈ DefaultRedactKeys → k ∈ event_keys extra o.
Proof.
  intros Hk. unfold event_keys. rewrite mergeRedactKeys_spec.
  assert (Forall (λ k, k ≠ "" ∧ to_lower (trim_space k) = k) DefaultRedactKeys) as Hd.
  { apply (Forall_iff (λ k, is_true (negb (k =? "")%string && (to_lower (trim_space k) =? k)%string))).
    - intros x. unfold is_true. by rewrite andb_true_iff, negb_true_iff, String.eqb_neq, String.eqb_eq.
    - apply Forall_forall. intros x Hx%list_elem_of_In. revert x Hx. apply forallb_forall. vm_compute. reflexivity. }
  rewrite Forall_forall in Hd. destruct (Hd k Hk) as [Hne Hl]. split; [done|]. exists k. split; [|done].
  apply elem_of_app. left. cbn [normalized ro_RedactKeys]. apply mergeRedactKeys_spec. split; [done|]. exists k. split; [|done].
  apply elem_of_app. by left.
Qed.

Lemma pos_or_pos x d : 0 < d → 0 < pos_or x d.
Proof. unfold pos_or. destruct (0 <? x) eqn:E; lia. Qed.

(** *** What is stored does not depend on sensitive values *)

Section payload_ind.
Variable P : payload → Prop.
Hypothesis Hnil : P PNil.
Hypothesis Hbool : ∀ b, P (PBool b).
Hypothesis Hint : ∀ i, P (PInt i).
Hypothesis Hfloat : ∀ f, P (PFloat f).
Hypothesis Hstr : ∀ s, P (PStr s).
Hypothesis Hnum : ∀ s, P (PNumber s).
Hypothesis Hbytes : ∀ b, P (PBytes b).
Hypothesis Hnull : P (PPointer None).
Hypothesis Hptr : ∀ p, P p → P (PPointer (Some p)).
Hypothesis Hlist : ∀ l, Forall P l → P (PList l).
Hypothesis Hmap : ∀ m, Forall (λ kv, P kv.2) m → P (PMap m).
Hypothesis Hother : ∀ n r, P (POther n r).
Fixpoint payload_nested_ind (p : payload) : P p :=
  match p with
  | PNil => Hnil | PBool b => Hbool b | PInt i => Hint i | PFloat f => Hfloat f | PStr s => Hstr s | PNumber s => Hnum s
  | PBytes b => Hbytes b | PPointer None => Hnull | PPointer (Some p) => Hptr p (payload_nested_ind p)
  | PList l => Hlist l ((fix go l : Forall P l := match l with
      | [] => Forall_nil_2 _ | x :: l => Forall_cons_2 _ _ _ (payload_nested_ind x) (go l) end) l)
  | PMap m => Hmap m ((fix go m : Forall (λ kv, P kv.2) m := match m with
      | [] => Forall_nil_2 _ | kv :: m => Forall_cons_2 _ _ _ (payload_nested_ind kv.2) (go m) end) m)
  | POther n r => Hother n r
  end.
End payload_ind.

(** Payloads that differ only in values under sensitive keys. *)
Inductive same_public (keys : list string) : payload → payload → Prop :=
  | sp_refl p : same_public keys p p
  | sp_pointer p q : same_public keys p q → same_public keys (PPointer (Some p)) (PPointer (Some q))
  | sp_list l l' : Forall2 (same_public keys) l l' → same_public keys (PList l) (PList l')
  | sp_map m m' :
      Forall2 (λ a b, a.1 = b.1 ∧ (keyMatchesRedact a.1 keys = true ∨ same_public keys a.2 b.2)) m m' →
      same_public keys (PMap m) (PMap m').

Definition redact_field (keys : list string) (kv : string * value) : string * value :=
  (kv.1, if keyMatchesRedact kv.1 keys then VStr RedactedPlaceholder else redactValue keys kv.2).
Lemma redact_VMap keys m : redactValue keys (VMap m) = VMap (redact_field keys <$> m).
Proof. cbn [redactValue]. f_equal. induction m as [|[k v] m IH]; [done|]. by rewrite IH. Qed.
Lemma redact_VList keys l : redactValue keys (VList l) = VList (redactValue keys <$> l).
Proof. done. Qed.
Lemma sanitize_PMap o m d : sanitizeValue (PMap m) d o =
  if ro_MaxDepth o <? d then depth_exceeded (ro_MaxDepth o) else VMap ((λ kv, (kv.1, sanitizeValue kv.2 (d + 1) o)) <$> m).
Proof. cbn [sanitizeValue]. destruct (_ <? _); [done|]. f_equal. induction m as [|[k v] m IH]; [done|]. by rewrite IH. Qed.
Lemma sanitize_PList o l d : sanitizeValue (PList l) d o =
  if ro_MaxDepth o <? d then depth_exceeded (ro_MaxDepth o) else VList ((λ v, sanitizeValue v (d + 1) o) <$> l).
Proof. done. Qed.

Lemma redact_sanitize_public keys o p : ∀ q d, same_public keys p q →
  redactValue keys (sanitizeValue p d o) = redactValue keys (sanitizeValue q d o).
Proof.
  induction p as [| | | | | | | |p IH|l IH|m IH|] using payload_nested_ind; intros q d H; inversion H as [|? q' Hq|? l' Hl|? m' Hm]; subst; try done.
  - cbn [sanitizeValue]. destruct (_ <? _); [done|]. by apply IH.
  - rewrite !sanitize_PList. destruct (_ <? _); [done|]. rewrite !redact_VList, <-!list_fmap_compose. f_equal. clear H.
    induction Hl as [|x y l l' Hxy _ IHl]; [done|]. apply Forall_cons in IH as [Hx Hl]. cbn. by rewrite (Hx y), IHl.
  - rewrite !sanitize_PMap. destruct (_ <? _); [done|]. rewrite !redact_VMap, <-!list_fmap_compose. f_equal. clear H.
    induction Hm as [|[k x] [k' y] m m' [Hk Hxy] _ IHm]; [done|]. apply Forall_cons in IH as [Hx Hl]. cbn [fst snd] in *. subst k'.
    cbn [fmap list_fmap]. f_equal; [|by apply IHm]. unfold redact_field. cbn [fst snd compose]. destruct Hxy as [->|Hxy]; [done|]. by rewrite (Hx y _ Hxy).
Qed.

(** The stored payload of an event does not depend on any value under a key that
    matches the keys in force, which include the default keys. *)
Lemma PrepareEventData_public data data' extra o :
  same_public (event_keys extra o) (PMap data) (PMap data') → PrepareEventData data extra o = PrepareEventData data' extra o.
Proof.
  intros H. unfold PrepareEventData. fold (event_keys extra o). destruct data as [|a data], data' as [|b data']; try done.
  - inversion H as [| | |? ? Hm]; subst; inversion Hm.
  - inversion H as [| | |? ? Hm]; subst; inversion Hm.
  - by rewrite (redact_sanitize_public _ _ _ _ 0 H).
Qed.

(** Whatever is not cut short masks every sensitive field. *)
Lemma redactValue_masks keys v k w : at_key (redactValue keys v) k w → keyMatchesRedact k keys = true → w = VStr RedactedPlaceholder.
Proof.
  revert k w. induction v as [| | | | |l IH|m IH] using value_nested_ind; intros k w Hk Hm; try by inversion Hk.
  - rewrite redact_VList in Hk. rewrite Forall_forall in IH. inversion Hk as [| |? c ? ? Hc Hk']; subst.
    apply list_elem_of_fmap in Hc as (x & -> & Hx). eauto.
  - rewrite redact_VMap in Hk. rewrite Forall_forall in IH. inversion Hk as [? ? ? Hc|? ? c ? ? Hc Hk'|]; subst;
      apply list_elem_of_fmap in Hc as ([k2 c2] & [= -> ->] & Hx); cbn [fst snd] in *.
    + by rewrite Hm.
    + destruct (keyMatchesRedact k2 keys); [inversion Hk'|]. by eapply (IH (k2, c2)).
Qed.
Lemma redactValue_idemp keys v : redactValue keys (redactValue keys v) = redactValue keys v.
Proof.
  induction v as [| | | | |l IH|m IH] using value_nested_ind; try done.
  - rewrite !redact_VList, <-list_fmap_compose. f_equal. apply list_fmap_ext. intros i x Hx. rewrite Forall_lookup in IH. by eapply IH.
  - rewrite !redact_VMap, <-list_fmap_compose. f_equal. apply list_fmap_ext. intros i [k x] Hx. rewrite Forall_lookup in IH.
    unfold redact_field. cbn. destruct (keyMatchesRedact k keys); [done|]. f_equal. by apply (IH i (k, x)).
Qed.

(** *** Cut strings *)

(** A cut string has at most [max] bytes and is valid UTF-8 when the string is. *)
Lemma truncateString_spec s max : 0 < max → byte_len (truncateString s max) <= max ∧ (text_valid s → text_valid (truncateString s max)).
Proof.
  intros Hm. unfold truncateString. rewrite (proj2 (Z.leb_gt max 0)) by lia. cbn [orb].
  destruct (Z.leb_spec (byte_len s) max) as [|Hl]; [done|].
  destruct (Z.leb_spec max 3) as [H3|H3]; [destruct (runeSafePrefix_spec s max); split; [lia|done]|].
  destruct (runeSafePrefix_spec s ((max - 3) / 2)) as [L1 V1], (runeSafeSuffix_spec s (max - 3 - (max - 3) / 2)) as [L2 V2].
  assert (0 <= (max - 3) / 2 <= max - 3) by (split; [apply Z.div_pos|apply Z.div_le_upper_bound]; lia).
  rewrite !byte_len_app. change (byte_len "...") with 3. split; [lia|]. intros Hv.
  rewrite text_valid_chars, !to_chars_app. apply runes_of_app; [by apply text_valid_chars, V1|].
  apply runes_of_app; [|by apply text_valid_chars, V2]. apply text_valid_chars. done.
Qed.

(** *** The stored payload is JSON of bounded size *)

(** No float without a JSON spelling. *)
Fixpoint finite (p : payload) : bool :=
  match p with
  | PFloat FNaN | PFloat (FInf _) => false
  | PPointer (Some p) => finite p
  | PList l => forallb finite l
  | PMap m => forallb (λ kv, match kv with (_, p) => finite p end) m
  | _ => true
  end.

Lemma marshal_VMap_Some m : is_Some (json_marshal (VMap m)) ↔ Forall (λ kv, is_Some (json_marshal kv.2)) m.
Proof.
  rewrite json_marshal_VMap, fmap_is_Some. split; intros H.
  - apply mapM_is_Some_1 in H. eapply Forall_impl; [exact H|]. intros kv Hk. unfold json_field in Hk. by apply fmap_is_Some in Hk.
  - apply mapM_is_Some_2. eapply Forall_impl; [exact H|]. intros kv Hk. unfold json_field. by apply fmap_is_Some.
Qed.
Lemma marshal_VList_Some l : is_Some (json_marshal (VList l)) ↔ Forall (λ v, is_Some (json_marshal v)) l.
Proof.
  rewrite json_marshal_VList, fmap_is_Some. split; [apply mapM_is_Some_1|apply mapM_is_Some_2].
Qed.

Lemma redacted_marshals keys o p : ∀ d, finite p = true → is_Some (json_marshal (redactValue keys (sanitizeValue p d o))).
Proof.
  induction p as [| | |f| | | | |p IH|l IH|m IH|] using payload_nested_ind; intros d Hf;
    try (cbn [sanitizeValue]; by destruct (_ <? _)).
  - destruct f as [| |neg m e]; [done|done|]. cbn [sanitizeValue]. destruct (_ <? _); [done|]. cbn [redactValue json_marshal json_float].
    destruct (shortest neg m e). by eexists.
  - cbn [sanitizeValue]. destruct (_ <? _); [done|]. by apply IH.
  - rewrite sanitize_PList. destruct (_ <? _); [done|]. rewrite redact_VList. apply marshal_VList_Some. rewrite !Forall_fmap.
    cbn [finite] in Hf. rewrite forallb_forall in Hf. rewrite Forall_forall in IH |- *. intros x Hx. apply IH; [done|]. by apply Hf, list_elem_of_In.
  - rewrite sanitize_PMap. destruct (_ <? _); [done|]. rewrite redact_VMap. apply marshal_VMap_Some. rewrite !Forall_fmap.
    cbn [finite] in Hf. rewrite forallb_forall in Hf. rewrite Forall_forall in IH |- *. intros [k x] Hx. cbn. destruct (keyMatchesRedact k keys); [done|].
    apply (IH (k, x) Hx). by apply (Hf (k, x)), list_elem_of_In.
Qed.

Lemma truncated_marshal preview : json_marshal (VMap (truncated_payload preview)) =
  Some ("{" +:+ ((json_quote FieldPayloadTruncated +:+ (":" +:+ "true")) +:+ ("," +:+ (json_quote FieldPayloadPreview +:+ (":" +:+ json_quote preview)))) +:+ "}").
Proof. done. Qed.

Lemma truncatePayload_spec data max b0 : 0 < max → json_marshal (VMap data) = Some b0 →
  ∃ b, json_marshal (VMap (truncatePayload data max)) = Some b ∧ byte_len b <= 6 * max + 39 ∧
    (byte_len b0 <= max → b = b0) ∧ (max < byte_len b0 → b = b0 ∨ truncatePayload data max = truncated_payload (runeSafePrefix b0 max)).
Proof.
  intros Hm E. unfold truncatePayload. rewrite (proj2 (Z.leb_gt max 0)) by lia. rewrite E.
  destruct (Z.leb_spec (byte_len b0) max) as [Hl|Hl].
  - exists b0. split; [done|]. split; [lia|]. split; [done|by left].
  - eexists. split; [apply truncated_marshal|]. split; [|split; [lia|by right]].
    rewrite !byte_len_app. change (byte_len (json_quote FieldPayloadTruncated)) with 19. change (byte_len (json_quote FieldPayloadPreview)) with 9.
    change (byte_len "true") with 4. change (byte_len "{") with 1. change (byte_len "}") with 1. change (byte_len ":") with 1. change (byte_len ",") with 1.
    destruct (json_quote_spec (runeSafePrefix b0 max)) as [_ Hq], (runeSafePrefix_spec b0 max) as [Hp _]. lia.
Qed.

(** The payload of an event is written as valid UTF-8, and an oversized one in at most
    six times the limit (every byte of the preview can need an escape) and 39 bytes. *)
Lemma PrepareEventData_marshals data extra o : finite (PMap data) = true →
  ∃ b, json_marshal (VMap (PrepareEventData data extra o)) = Some b ∧ text_valid b ∧ byte_len b <= 6 * ro_MaxPayloadBytes (normalized o) + 39.
Proof.
  intros Hf. assert (0 < ro_MaxPayloadBytes (normalized o)) as Hp by (by apply pos_or_pos).
  destruct data as [|a data]; [exists "{}"; split; [done|]; split; [done|]; change (byte_len "{}") with 2; lia|].
  unfold PrepareEventData. set (d := a :: data) in *. cbv zeta.
  destruct (redacted_marshals (mergeRedactKeys (ro_RedactKeys (normalized o)) extra) (normalized o) (PMap d) 0 Hf) as [b0 E].
  assert (∃ b1, json_marshal (VMap (event_data (redactValue (mergeRedactKeys (ro_RedactKeys (normalized o)) extra) (sanitizeValue (PMap d) 0 (normalized o))))) = Some b1) as (b1 & E1).
  { rewrite sanitize_PMap in E |- *. destruct (_ <? _) eqn:Hd.
    - unfold normalized, pos_or in Hd. cbn [ro_MaxDepth] in Hd. destruct (0 <? ro_MaxDepth o) eqn:?; cbn in Hd; lia.
    - rewrite redact_VMap in E |- *. by eexists. }
  destruct (truncatePayload_spec _ (ro_MaxPayloadBytes (normalized o)) b1 Hp E1) as (b & E2 & Hb & _).
  exists b. split; [done|]. split; [by eapply json_marshal_valid|done].
Qed.

(** A float without JSON spelling passes the pipeline and makes the event impossible
    to store. *)
Lemma nan_payload : json_marshal (VMap (PrepareEventData [("costUsd", PFloat FNaN)] [] DefaultRedactionOptions)) = None.
Proof. vm_compute. reflexivity. Qed.

(** A truncated payload is larger than the limit it was cut to. *)
Definition small_limit : RedactionOptions := mkRedactionOptions [] 0 0 0 40 false.
Lemma truncated_over_limit : ∃ b,
  json_marshal (VMap (PrepareEventData [("text", PStr "a text of more than thirty characters")] [] small_limit)) = Some b ∧ byte_len b = 82.
Proof. eexists. split; [vm_compute; reflexivity|]. vm_compute. reflexivity. Qed.
