(* ===== verification/TraceRecorder.v ===== *)
(** * Recording trace events ([internal/trace/recorder.go], [taxonomy.go], [legacy.go])

    [Append] validates an event, prepares its payload and appends a row to the audit
    chain of its run.  The store is the map of runs to their rows; the clock is an
    argument. *)

From S2P Require Import Prelude GoNum GoText Value JsonText RuneText AuditChain TraceRedact.

Local Open Scope Z_scope.

(** ** Vocabulary ([taxonomy.go], [legacy.go]) *)

Definition allEventTypes : list string :=
  ["run_started"; "run_finished"; "run_error"; "llm_completion"; "tool_selection"; "tool_execution";
   "hitl_request_created"; "hitl_decision_submitted"; "hitl_resolution_applied"; "memory_read"; "memory_write";
   "system_error"; "limit_hit"; "workflow_call_started"; "workflow_call_finished"].
Definition allActorTypes : list string := ["user"; "agent"; "system"].

Definition event_known (et : string) : bool := str_mem et allEventTypes.
Definition actor_known (at_ : string) : bool := str_mem at_ allActorTypes.

Definition AllEventTypes : list string := sort_strings allEventTypes.

Definition legacyEventTypeMap : list (string * string) :=
  [("run.started", "run_started"); ("run.finished", "run_finished"); ("run.interrupted", "run_error"); ("run.resumed", "run_started");
   ("step.started", "tool_selection"); ("step.finished", "tool_execution"); ("step.failed", "run_error"); ("tool.called", "tool_selection");
   ("tool.completed", "tool_execution"); ("model.called", "llm_completion"); ("model.completed", "llm_completion");
   ("policy.denied", "system_error"); ("approval.requested", "hitl_request_created"); ("approval.resolved", "hitl_decision_submitted")].

Definition normalizeLegacyEventType (s : string) : string * bool :=
  match List.find (λ kv, kv.1 =? s)%string legacyEventTypeMap with
  | Some (_, mapped) => (mapped, true)
  | None => (s, event_known s)
  end.
Definition NormalizeStoredEventType (raw : string) : string :=
  let (mapped, ok) := normalizeLegacyEventType raw in if ok then mapped else raw.

Definition ParseEventType (s : string) : string * bool :=
  let et := trim_space s in
  if (et =? "")%string then ("", false)
  else
    let et := let (normalized, ok) := normalizeLegacyEventType et in if ok then normalized else et in
    (et, event_known et).
Definition ParseActorType (s : string) : string * bool :=
  let at_ := trim_space s in if (at_ =? "")%string then ("", false) else (at_, actor_known at_).

Definition LegacyActorTypeForEvent (eventType : string) : string :=
  if (eventType =? "hitl_decision_submitted")%string then "user"
  else if str_mem eventType ["hitl_request_created"; "system_error"; "run_error"] then "system"
  else "agent".

Inductive trace_error :=
  | EmptyRunID | EmptyEventType | UnknownEventType (et : string) | EmptyActorType | UnknownActorType (a : string)
  | RunNotFound (run : string) | MarshalEventData.

Definition ValidateEventType (et : string) : option trace_error :=
  if (trim_space et =? "")%string then Some EmptyEventType else if event_known et then None else Some (UnknownEventType et).
Definition ValidateActorType (a : string) : option trace_error :=
  if (trim_space a =? "")%string then Some EmptyActorType else if actor_known a then None else Some (UnknownActorType a).

(** ** The recorder *)

Record Recorder := mkRecorder { rc_Redaction : RedactionOptions; rc_callStack : list string }.

Definition NewRecorder : Recorder := mkRecorder (normalized DefaultRedactionOptions) [].
Definition NewRecorderForGraph (traces : option ProjectTracesConfig) : Recorder := mkRecorder (normalized (RedactionFromGraph traces)) [].
Definition WithCallStack (r : Recorder) (stack : list string) : Recorder := mkRecorder (rc_Redaction r) stack.

(** A write [m[k] = v] on event data in key order. *)
Fixpoint payload_set (m : list (string * payload)) (k : string) (v : payload) : list (string * payload) :=
  match m with
  | [] => [(k, v)]
  | (k', v') :: m' =>
      if decide (k' = k) then (k, v) :: m' else if decide (String.le k k') then (k, v) :: m else (k', v') :: payload_set m' k v
  end.

(** The call stack of a nested workflow. *)
Definition stamp (callStack : list string) (data : list (string * payload)) : list (string * payload) :=
  match rev callStack with
  | [] => data
  | wf :: _ => payload_set (payload_set data "callStack" (PList (PStr <$> callStack))) "workflow" (PStr wf)
  end.

(** The payload to store and its JSON text. *)
Definition event_json (r : Recorder) (data : list (string * payload)) : res trace_error (list (string * value) * string) :=
  match stamp (rc_callStack r) data with
  | [] => Ok ([], "{}")
  | data =>
      let prepared := PrepareEventData data [] (rc_Redaction r) in
      match json_marshal (VMap prepared) with Some b => Ok (prepared, b) | None => Err MarshalEventData end
  end.

Record StreamEvent := mkStreamEvent {
  se_RunID : string; se_StepID : string; se_Type : string; se_Actor : string; se_Data : list (string * value); se_Seq : Z; se_Time : Time
}.

(** The rows of each run. *)
Abbreviation store := (gmap string (list TraceEvent)).

Section recorder.
(** The hash of the chain, and who is recorded as the source of events. *)
Context (sha256 : chars → chars) (who : attribution).

(** The new store and the event given to the sink, or an error. *)
Definition Append (r : Recorder) (s : store) (ts : Time) (runID stepID eventType actorType : string) (data : list (string * payload)) :
    res trace_error (store * StreamEvent) :=
  let runID := trim_space runID in
  if (runID =? "")%string then Err EmptyRunID
  else
    match ValidateEventType eventType with
    | Some e => Err e
    | None =>
        match ValidateActorType actorType with
        | Some e => Err e
        | None =>
            match s !! runID with
            | None => Err (RunNotFound runID)
            | Some rows =>
                '(prepared, dataJSON) ← event_json r data;
                let rows' := AppendTraceEvent sha256 runID who rows ts eventType actorType (trim_space stepID) dataJSON in
                Ok (<[runID := rows']> s, mkStreamEvent runID (trim_space stepID) eventType actorType prepared (next_seq rows) ts)
            end
        end
    end.
End recorder.

(** ** Event payloads ([emit_data.go]) *)

Definition ToolCallFailedReason : string := "tool_call_failed".

Section payloads.
Context (sha256 : chars → chars).
(** The digest of a call's arguments; [fmt_v] is the fallback for arguments without
    JSON text. *)
Definition ArgumentsDigest (args : list (string * value)) : string :=
  hashHex sha256 match json_marshal (VMap args) with Some b => b | None => fmt_v (VMap args) end.

Definition ToolSelectionData (uses toolName : string) (args : list (string * value)) : list (string * payload) :=
  let data := payload_set [("argumentsDigest", PStr (ArgumentsDigest args))] "uses" (PStr uses) in
  if (toolName =? "")%string then data else payload_set data "tool" (PStr toolName).
End payloads.

Definition ToolExecutionData (uses toolName : string) (durationMs : Z) (costUSD : f64) (failed : bool) : list (string * payload) :=
  let data := [("costUsd", PFloat costUSD); ("durationMs", PInt durationMs); ("success", PBool (negb failed)); ("uses", PStr uses)] in
  let data := if (toolName =? "")%string then data else payload_set data "tool" (PStr toolName) in
  if failed then payload_set data "error" (PStr ToolCallFailedReason) else data.

Definition LLMCompletionData (agent model : string) (costUSD : f64) : list (string * payload) :=
  [("agent", PStr agent); ("costUsd", PFloat costUSD); ("model", PStr model)].

Definition FieldCompletionText : string := "text".
Definition FieldToolArgs : string := "args".
Definition FieldToolOutput : string := "output".
Definition AddCompletionText (data : list (string * payload)) (text : string) : list (string * payload) :=
  if (trim_space text =? "")%string then data else payload_set data FieldCompletionText (PStr text).
Definition AddToolArgs (data args : list (string * payload)) : list (string * payload) :=
  match args with [] => data | _ => payload_set data FieldToolArgs (PMap args) end.
Definition AddToolOutput (data output : list (string * payload)) : list (string * payload) :=
  match output with [] => data | _ => payload_set data FieldToolOutput (PMap output) end.

Definition LimitHitData (kind stepID : string) (extra : list (string * payload)) : list (string * payload) :=
  foldl (λ data kv, payload_set data kv.1 kv.2) [("kind", PStr kind); ("stepId", PStr stepID)] extra.

(** ** Properties *)

(** *** Vocabulary *)

Lemma legacy_targets_known : forallb (λ kv, event_known kv.2) legacyEventTypeMap = true.
Proof. vm_compute. reflexivity. Qed.
Lemma known_not_legacy : forallb (λ et, (normalizeLegacyEventType et).1 =? et)%string allEventTypes = true.
Proof. vm_compute. reflexivity. Qed.
Lemma known_trimmed : forallb (λ et, (trim_space et =? et)%string && negb (et =? "")%string) allEventTypes = true.
Proof. vm_compute. reflexivity. Qed.

Lemma event_known_spec et : event_known et = true → trim_space et = et ∧ et ≠ "" ∧ (normalizeLegacyEventType et).1 = et.
Proof.
  intros H%str_mem_spec%list_elem_of_In. pose proof (proj1 (forallb_forall _ _) known_trimmed _ H) as H1.
  pose proof (proj1 (forallb_forall _ _) known_not_legacy _ H) as H2. apply andb_true_iff in H1 as [Ht He].
  apply String.eqb_eq in Ht, H2. apply negb_true_iff, String.eqb_neq in He. done.
Qed.

Lemma normalize_known s : (normalizeLegacyEventType s).2 = true → event_known (normalizeLegacyEventType s).1 = true.
Proof.
  unfold normalizeLegacyEventType. destruct (List.find _ _) as [[k m]|] eqn:E; [|done]. intros _. apply find_some in E as [E _].
  by apply (proj1 (forallb_forall _ _) legacy_targets_known) in E.
Qed.

(** A recognised type, legacy spellings included, is accepted by [Append] and read back
    as itself. *)
Lemma ParseEventType_canonical s et : ParseEventType s = (et, true) → ValidateEventType et = None ∧ ParseEventType et = (et, true).
Proof.
  intros H. assert (event_known et = true) as Hk.
  { unfold ParseEventType in H. destruct (_ =? "")%string; [done|]. by injection H as <- ?. }
  destruct (event_known_spec et Hk) as (Ht & Hne & Hl). apply String.eqb_neq in Hne. unfold ValidateEventType, ParseEventType. rewrite Ht, Hne, Hk.
  split; [done|]. destruct (normalizeLegacyEventType et) as [n ok] eqn:E. cbn in Hl. subst n. destruct ok; by rewrite Hk.
Qed.
Lemma NormalizeStoredEventType_idemp s : NormalizeStoredEventType (NormalizeStoredEventType s) = NormalizeStoredEventType s.
Proof.
  unfold NormalizeStoredEventType. destruct (normalizeLegacyEventType s) as [n ok] eqn:E. destruct ok; [|by rewrite E].
  pose proof (normalize_known s) as Hk. rewrite E in Hk. destruct (event_known_spec n (Hk eq_refl)) as (_ & _ & Hl).
  destruct (normalizeLegacyEventType n) as [n' ok']. cbn in Hl. subst n'. by destruct ok'.
Qed.

(** *** Sensitive values are not recorded *)

Lemma payload_set_public keys m m' k v :
  same_public keys (PMap m) (PMap m') → same_public keys (PMap (payload_set m k v)) (PMap (payload_set m' k v)).
Proof.
  intros H. inversion H as [|?|?|? ? Hm]; subst; [apply sp_refl|]. apply sp_map. clear H.
  assert ((k, v).1 = (k, v).1 ∧ (keyMatchesRedact k keys = true ∨ same_public keys v v)) as Hkv by (split; [done|right; apply sp_refl]).
  induction Hm as [|[k1 v1] [k2 v2] m m' [Hk Hv] Hm IH]; cbn in *; [by constructor|]. subst k2.
  case_decide; [by constructor|]. case_decide; [by constructor; [exact Hkv|constructor]|]. by constructor.
Qed.
Lemma stamp_public keys stack m m' : same_public keys (PMap m) (PMap m') → same_public keys (PMap (stamp stack m)) (PMap (stamp stack m')).
Proof. intros H. unfold stamp. destruct (rev stack); [done|]. by apply payload_set_public, payload_set_public. Qed.

Lemma event_json_public r data data' :
  same_public (event_keys [] (rc_Redaction r)) (PMap data) (PMap data') → event_json r data = event_json r data'.
Proof.
  intros H%(stamp_public _ (rc_callStack r)). unfold event_json. pose proof (PrepareEventData_public _ _ _ _ H) as E.
  destruct (stamp _ data) as [|a l], (stamp _ data') as [|b l']; try done.
  - inversion H as [| | |? ? Hm]; subst; inversion Hm.
  - inversion H as [| | |? ? Hm]; subst; inversion Hm.
  - by rewrite E.
Qed.

Section recorder.
Context (sha256 : chars → chars) (who : attribution).

(** C29: Sensitive values are not recorded.  Two payloads that differ only in values
    under keys that match the keys in force, at any depth, give the same row, the same
    hash, the same streamed event and the same error; the keys in force include the
    default keys whatever the configuration. *)
Theorem Append_public r s ts runID stepID eventType actorType data data' :
  same_public (event_keys [] (rc_Redaction r)) (PMap data) (PMap data') →
  Append sha256 who r s ts runID stepID eventType actorType data = Append sha256 who r s ts runID stepID eventType actorType data' ∧
  Forall (λ k, k ∈ event_keys [] (rc_Redaction r)) DefaultRedactKeys.
Proof.
  intros H. split; [|apply Forall_forall; intros k; apply defaults_in_force]. unfold Append. by rewrite (event_json_public r data data' H).
Qed.

(** *** Every store the recorder makes *)

(** What recording makes of no runs, with any recorders, payloads and times. *)
Inductive recorded : store → Prop :=
  | rec_empty : recorded ∅
  | rec_run s run : recorded s → s !! run = None → recorded (<[run := []]> s)
  | rec_append s s' r ts runID stepID et a data ev : recorded s →
      Append sha256 who r s ts runID stepID et a data = Ok (s', ev) → recorded s'.

(** The payload of a row was prepared, and its type and actor are in the vocabulary. *)
Definition row_ok (e : TraceEvent) : Prop :=
  event_known (te_Type e) = true ∧ actor_known (te_ActorType e) = true ∧ text_valid (te_DataJSON e) ∧
  ∃ r data prepared, event_json r data = Ok (prepared, te_DataJSON e).

Lemma event_json_valid r data p b : event_json r data = Ok (p, b) → text_valid b ∧ b ≠ "".
Proof.
  unfold event_json. destruct (stamp _ _); [by intros [= <- <-]|]. destruct (json_marshal _) as [t|] eqn:E; [|done]. intros [= <- <-].
  split; [by eapply json_marshal_valid|]. rewrite json_marshal_VMap in E. by apply fmap_Some in E as (ss & _ & ->).
Qed.

Lemma Append_inv r s ts runID stepID et a data s' ev : Append sha256 who r s ts runID stepID et a data = Ok (s', ev) →
  ∃ rows dj, s !! trim_space runID = Some rows ∧ event_json r data = Ok (se_Data ev, dj) ∧ event_known et = true ∧ actor_known a = true ∧
    s' = <[trim_space runID := AppendTraceEvent sha256 (trim_space runID) who rows ts et a (trim_space stepID) dj]> s ∧
    ev = mkStreamEvent (trim_space runID) (trim_space stepID) et a (se_Data ev) (next_seq rows) ts.
Proof.
  unfold Append. destruct (_ =? "")%string; [done|]. unfold ValidateEventType, ValidateActorType.
  destruct (trim_space et =? "")%string, (event_known et), (trim_space a =? "")%string, (actor_known a); try done.
  destruct (s !! trim_space runID) as [rows|]; [|done]. destruct (event_json r data) as [[p dj]|e] eqn:E; [|done].
  intros [= <- <-]. by exists rows, dj.
Qed.

Lemma actor_not_blank a : actor_known a = true → (trim_space a =? "")%string = false.
Proof.
  intros H%str_mem_spec. unfold allActorTypes in H. rewrite !elem_of_cons in H. destruct H as [->|[->|[->|H]]]; [done..|]. by apply elem_of_nil in H.
Qed.

Hypothesis Hsha : ∀ l, length (sha256 l) = 32%nat.

(** In every store the recorder makes the rows of each run verify as a chain, with
    positive growing sequence numbers; their event and actor types are in the closed
    vocabulary and their data is valid UTF-8 JSON text of a prepared payload. *)
Theorem recorded_runs s run rows : recorded s → s !! run = Some rows →
  VerifyRunChainError sha256 run rows = None ∧ Forall (λ e, 0 < te_Seq e) rows ∧ StronglySorted Z.lt (te_Seq <$> rows) ∧ Forall row_ok rows.
Proof.
  intros Hs. assert (∀ run rows, s !! run = Some rows → history sha256 run who rows ∧ Forall row_ok rows) as H.
  { induction Hs as [|s run' _ IH Hn|s s' r ts runID stepID et a data ev _ IH Ha]; intros run2 rows2 Hl.
    - by rewrite lookup_empty in Hl.
    - apply lookup_insert_Some in Hl as [[<- <-]|[_ Hl]]; [split; constructor|by apply IH].
    - apply Append_inv in Ha as (rows1 & dj & Hr & Hj & He & Hac & -> & _).
      apply lookup_insert_Some in Hl as [[<- <-]|[_ Hl]]; [|by apply IH]. destruct (IH _ _ Hr) as [Hh Hok].
      split; [by apply history_append|]. unfold AppendTraceEvent. apply Forall_app. split; [done|]. constructor; [|done].
      destruct (event_json_valid _ _ _ _ Hj) as [Hv Hne%String.eqb_neq]. rewrite actor_not_blank by done. rewrite Hne.
      split; [done|]. split; [done|]. split; [done|]. by eexists _, _, _. }
  intros Hl. destruct (H _ _ Hl) as [Hh Hok]. destruct (history_verifies sha256 Hsha run who rows Hh) as (? & ? & ?). done.
Qed.
End recorder.

(** ** Concrete records *)

Definition demo_recorder : Recorder := WithCallStack (NewRecorderForGraph (Some (mkProjectTracesConfig ["Ticket"] 0 None))) ["parent"; "child"].
Definition demo_event (password : string) : list (string * payload) :=
  AddToolArgs (ToolExecutionData "tool.mail.send" "mail" 12 (FFin false 1 0) false)
    [("to", PStr "ops@example.org"); ("user", PMap [("DB_Password", PStr password); ("id", PInt 7)])].

Lemma Append_public_witness :
  Append checksum demo_who demo_recorder {["run-1" := []]} (mkTime 1709210096 0) " run-1 " "s1" "tool_execution" "agent" (demo_event "hunter2") =
  Append checksum demo_who demo_recorder {["run-1" := []]} (mkTime 1709210096 0) " run-1 " "s1" "tool_execution" "agent" (demo_event "correct horse battery").
Proof.
  apply Append_public. unfold demo_event. cbn [AddToolArgs]. vm_compute payload_set. apply sp_map. constructor.
  { split; [done|]. right. apply sp_map. constructor; [split; [done|right; apply sp_refl]|]. constructor; [|constructor].
    split; [done|]. right. apply sp_map. constructor; [split; [done|left; vm_compute; reflexivity]|]. constructor; [|constructor]. split; [done|right; apply sp_refl]. }
  repeat (constructor; [split; [done|right; apply sp_refl]|]). constructor.
Defined.

(** The sensitive field is masked, the others are kept. *)
Lemma demo_event_stored : ∃ s ev,
  Append checksum demo_who demo_recorder {["run-1" := []]} (mkTime 1709210096 0) "run-1" "s1" "tool_execution" "agent" (demo_event "hunter2") = Ok (s, ev) ∧
  map_get (se_Data ev) "args" = Some (VMap [("to", VStr "ops@example.org"); ("user", VMap [("DB_Password", VStr "[REDACTED]"); ("id", VInt 7)])]) ∧
  map_get (se_Data ev) "workflow" = Some (VStr "child").
Proof. eexists _, _. split; [vm_compute; reflexivity|]. by vm_compute. Qed.

Lemma recorded_runs_witness :
  match Append checksum demo_who demo_recorder {["run-1" := []]} (mkTime 1709210096 0) "run-1" "s1" "tool_execution" "agent" (demo_event "hunter2") with
  | Ok (s, _) => ∀ rows, s !! "run-1" = Some rows → VerifyRunChainError checksum "run-1" rows = None
  | Err _ => False
  end.
Proof.
  destruct (Append _ _ _ _ _ _ _ _ _ _) as [[s ev]|e] eqn:E; [|vm_compute in E; discriminate E]. intros rows Hr.
  eapply (recorded_runs checksum demo_who checksum_size); [|exact Hr]. eapply rec_append; [|exact E].
  apply (rec_run _ _ ∅); [constructor|reflexivity].
Defined.
