(* ===== verification/SpecLimits.v ===== *)
(** * Execution limits ([internal/spec/limits.go])

    The byte and iteration limits of a run, merged from the project, the workflow and
    the tool over built-in defaults.  Only the [limits] block of a resource is
    modelled; [None] is an absent resource or block. *)

From S2P Require Import Prelude GoNum GoText Value SpecTools.

Local Open Scope Z_scope.

Definition DefaultMaxToolInputBytes : Z := Z.shiftl 256 10.
Definition DefaultMaxToolOutputBytes : Z := Z.shiftl 256 10.
Definition DefaultMaxCheckpointBytes : Z := Z.shiftl 1 20.
Definition DefaultMaxWorkflowNesting : Z := 8.
Definition DefaultMaxLoopIterations : Z := 1000.

Abbreviation LimitExceedPolicy := string (only parsing).
Definition LimitExceedTruncate : LimitExceedPolicy := "truncate".
Definition LimitExceedFail : LimitExceedPolicy := "fail".

Record ExecutionLimits := mkLimits {
  MaxToolInputBytes : Z;
  MaxToolOutputBytes : Z;
  MaxCheckpointBytes : Z;
  MaxStateBytes : Z;
  MaxWorkflowNesting : Z;
  MaxLoopIterations : Z;
  ToolInputExceedPolicy : LimitExceedPolicy;
  ToolOutputExceedPolicy : LimitExceedPolicy;
  CheckpointExceedPolicy : LimitExceedPolicy;
}.

Definition DefaultExecutionLimits : ExecutionLimits :=
  mkLimits DefaultMaxToolInputBytes DefaultMaxToolOutputBytes DefaultMaxCheckpointBytes 0 DefaultMaxWorkflowNesting DefaultMaxLoopIterations
    LimitExceedTruncate LimitExceedTruncate LimitExceedFail.

Definition NormalizeExecutionLimits (l : ExecutionLimits) : ExecutionLimits :=
  if (MaxCheckpointBytes l <=? 0) && (0 <? MaxStateBytes l)
  then mkLimits (MaxToolInputBytes l) (MaxToolOutputBytes l) (MaxStateBytes l) (MaxStateBytes l) (MaxWorkflowNesting l) (MaxLoopIterations l)
         (ToolInputExceedPolicy l) (ToolOutputExceedPolicy l) (CheckpointExceedPolicy l)
  else l.

Definition over_num (base override : Z) : Z := if 0 <? override then override else base.
Definition over_policy (base override : LimitExceedPolicy) : LimitExceedPolicy :=
  let p := trim_space override in if (p =? "")%string then base else p.

Definition MergeExecutionLimits (base : ExecutionLimits) (override : option ExecutionLimits) : ExecutionLimits :=
  match override with
  | None => base
  | Some o =>
      let o := NormalizeExecutionLimits o in
      NormalizeExecutionLimits
        (mkLimits (over_num (MaxToolInputBytes base) (MaxToolInputBytes o)) (over_num (MaxToolOutputBytes base) (MaxToolOutputBytes o))
           (over_num (MaxCheckpointBytes base) (MaxCheckpointBytes o)) (MaxStateBytes base)
           (over_num (MaxWorkflowNesting base) (MaxWorkflowNesting o)) (over_num (MaxLoopIterations base) (MaxLoopIterations o))
           (over_policy (ToolInputExceedPolicy base) (ToolInputExceedPolicy o)) (over_policy (ToolOutputExceedPolicy base) (ToolOutputExceedPolicy o))
           (over_policy (CheckpointExceedPolicy base) (CheckpointExceedPolicy o)))
  end.

Definition ResolveExecutionLimits (project workflow tool : option ExecutionLimits) : ExecutionLimits :=
  MergeExecutionLimits (MergeExecutionLimits (MergeExecutionLimits DefaultExecutionLimits project) workflow) tool.

Definition ResolveMaxWorkflowNesting (project workflow : option ExecutionLimits) : Z :=
  MaxWorkflowNesting (ResolveExecutionLimits project workflow None).

Inductive limits_error :=
  | NegativeLimit (field : string)
  | BadPolicy (field : string) (p : LimitExceedPolicy)
  | UnsafeCheckpointPolicy.

Definition validateLimitBytes (field : string) (n : Z) : option limits_error := if n <? 0 then Some (NegativeLimit field) else None.
Definition validateExceedPolicy (field : string) (p : LimitExceedPolicy) : option limits_error :=
  if str_mem (trim_space p) [""; LimitExceedTruncate; LimitExceedFail] then None else Some (BadPolicy field p).

Fixpoint first_error {E} (l : list (option E)) : option E :=
  match l with [] => None | Some e :: _ => Some e | None :: l => first_error l end.

Definition ValidateExecutionLimits (l : option ExecutionLimits) : option limits_error :=
  match l with
  | None => None
  | Some l =>
      let l := NormalizeExecutionLimits l in
      first_error [
        validateLimitBytes "maxToolInputBytes" (MaxToolInputBytes l);
        validateLimitBytes "maxToolOutputBytes" (MaxToolOutputBytes l);
        validateLimitBytes "maxCheckpointBytes" (MaxCheckpointBytes l);
        validateLimitBytes "maxWorkflowNesting" (MaxWorkflowNesting l);
        validateLimitBytes "maxLoopIterations" (MaxLoopIterations l);
        validateLimitBytes "maxStateBytes" (MaxStateBytes l);
        validateExceedPolicy "toolInputExceedPolicy" (ToolInputExceedPolicy l);
        validateExceedPolicy "toolOutputExceedPolicy" (ToolOutputExceedPolicy l);
        validateExceedPolicy "checkpointExceedPolicy" (CheckpointExceedPolicy l);
        if (CheckpointExceedPolicy l =? LimitExceedTruncate)%string then Some UnsafeCheckpointPolicy else None]
  end.

(** The checkpoint limit a block sets, [maxStateBytes] being its alias. *)
Definition checkpoint_limit (l : ExecutionLimits) : Z := over_num (MaxStateBytes l) (MaxCheckpointBytes l).

(** ** Properties *)

(** The last positive number of the layers wins. *)
Fixpoint layered (field : ExecutionLimits → Z) (default : Z) (layers : list (option ExecutionLimits)) : Z :=
  match layers with
  | [] => default
  | l :: layers => layered field match l with Some l => over_num default (field l) | None => default end layers
  end.

Lemma over_num_pos base x : 0 < base → 0 < over_num base x.
Proof. unfold over_num. destruct (0 <? x) eqn:E; lia. Qed.
Lemma layered_pos field layers : ∀ default, 0 < default → 0 < layered field default layers.
Proof. induction layers as [|[l|] layers IH]; intros d Hd; cbn; [done|by apply IH, over_num_pos|by apply IH]. Qed.

(** Merging a block: each number of the block that is set replaces the one below. *)
Lemma MergeExecutionLimits_fields base o : 0 < MaxCheckpointBytes base → MaxStateBytes base = 0 →
  let m := MergeExecutionLimits base (Some o) in
  MaxToolInputBytes m = over_num (MaxToolInputBytes base) (MaxToolInputBytes o) ∧
  MaxToolOutputBytes m = over_num (MaxToolOutputBytes base) (MaxToolOutputBytes o) ∧
  MaxCheckpointBytes m = over_num (MaxCheckpointBytes base) (checkpoint_limit o) ∧
  MaxWorkflowNesting m = over_num (MaxWorkflowNesting base) (MaxWorkflowNesting o) ∧
  MaxLoopIterations m = over_num (MaxLoopIterations base) (MaxLoopIterations o) ∧ MaxStateBytes m = 0.
Proof.
  intros Hc Hs. cbn zeta. unfold MergeExecutionLimits, checkpoint_limit. set (n := NormalizeExecutionLimits o).
  assert (MaxToolInputBytes n = MaxToolInputBytes o ∧ MaxToolOutputBytes n = MaxToolOutputBytes o ∧ MaxWorkflowNesting n = MaxWorkflowNesting o ∧
    MaxLoopIterations n = MaxLoopIterations o ∧
    over_num (MaxCheckpointBytes base) (MaxCheckpointBytes n) = over_num (MaxCheckpointBytes base) (over_num (MaxStateBytes o) (MaxCheckpointBytes o)))
    as (E1 & E2 & E3 & E4 & E5).
  { unfold n, NormalizeExecutionLimits, over_num. destruct (Z.leb_spec (MaxCheckpointBytes o) 0), (Z.ltb_spec 0 (MaxStateBytes o)), (Z.ltb_spec 0 (MaxCheckpointBytes o)); cbn; try lia;
      repeat match goal with |- context [0 <? ?x] => destruct (Z.ltb_spec 0 x) end; repeat split; try done; lia. }
  assert (0 < over_num (MaxCheckpointBytes base) (MaxCheckpointBytes n)) as Hp by by apply over_num_pos.
  unfold NormalizeExecutionLimits. cbn [MaxCheckpointBytes MaxStateBytes]. rewrite (proj2 (Z.leb_gt _ 0)) by done. cbn. rewrite E1, E2, E3, E4, E5. done.
Qed.

(** Precedence of the layers: each limit is the one of the tool if it sets one, else of
    the workflow, else of the project, else the default; all are positive. *)
Lemma ResolveExecutionLimits_layers project workflow tool :
  let r := ResolveExecutionLimits project workflow tool in
  let layers := [project; workflow; tool] in
  MaxToolInputBytes r = layered MaxToolInputBytes DefaultMaxToolInputBytes layers ∧
  MaxToolOutputBytes r = layered MaxToolOutputBytes DefaultMaxToolOutputBytes layers ∧
  MaxCheckpointBytes r = layered checkpoint_limit DefaultMaxCheckpointBytes layers ∧
  MaxWorkflowNesting r = layered MaxWorkflowNesting DefaultMaxWorkflowNesting layers ∧
  MaxLoopIterations r = layered MaxLoopIterations DefaultMaxLoopIterations layers.
Proof.
  cbn zeta. unfold ResolveExecutionLimits.
  assert (∀ layers base, 0 < MaxCheckpointBytes base → MaxStateBytes base = 0 →
    let r := foldl MergeExecutionLimits base layers in
    MaxToolInputBytes r = layered MaxToolInputBytes (MaxToolInputBytes base) layers ∧
    MaxToolOutputBytes r = layered MaxToolOutputBytes (MaxToolOutputBytes base) layers ∧
    MaxCheckpointBytes r = layered checkpoint_limit (MaxCheckpointBytes base) layers ∧
    MaxWorkflowNesting r = layered MaxWorkflowNesting (MaxWorkflowNesting base) layers ∧
    MaxLoopIterations r = layered MaxLoopIterations (MaxLoopIterations base) layers) as H.
  { induction layers as [|[l|] layers IH]; intros base Hc Hs; [done| |by apply IH].
    destruct (MergeExecutionLimits_fields base l Hc Hs) as (E1 & E2 & E3 & E4 & E5 & E6). cbn [foldl layered].
    rewrite <-E1, <-E2, <-E3, <-E4, <-E5. apply IH; [|done]. rewrite E3. by apply over_num_pos. }
  apply (H [project; workflow; tool] DefaultExecutionLimits); done.
Qed.

Lemma ResolveExecutionLimits_positive project workflow tool : let r := ResolveExecutionLimits project workflow tool in
  0 < MaxToolInputBytes r ∧ 0 < MaxToolOutputBytes r ∧ 0 < MaxCheckpointBytes r ∧ 0 < MaxWorkflowNesting r ∧ 0 < MaxLoopIterations r.
Proof.
  cbn zeta. destruct (ResolveExecutionLimits_layers project workflow tool) as (-> & -> & -> & -> & ->).
  repeat split; by apply layered_pos.
Qed.

(** A truncating checkpoint policy is rejected only in its exact spelling; with a space
    it is accepted and resolves to truncation. *)
Definition spaced_policy : ExecutionLimits := mkLimits 0 0 0 0 0 0 "" "" " truncate".
Lemma spaced_policy_accepted :
  ValidateExecutionLimits (Some spaced_policy) = None ∧
  CheckpointExceedPolicy (ResolveExecutionLimits (Some spaced_policy) None None) = LimitExceedTruncate.
Proof. by vm_compute. Qed.
