(* ===== verification/EngineLimits.v ===== *)
(** * Byte limits of live values ([internal/engine/limits.go], [limits_truncate.go])

    A tool's input and output and the checkpoint of a run are kept under the resolved
    limits.  Under the policy [truncate] a value is shortened: long strings first,
    whole entries when no string is long.  Go visits a map in any order, which breaks
    ties between strings or entries of equal size; [ord t m] is the order in which
    traversal number [t] visits [m], and the theorems hold for every [ord]. *)

From S2P Require Import Prelude GoNum GoText Value JsonNum JsonText RuneText StepRefs SpecLimits TraceRedact.

Local Open Scope Z_scope.

Definition maxTruncatePasses : nat := 256.
Definition minTruncatedRunes : Z := 8.
Definition truncatedStringMark : string := "...".

Abbreviation fields := (list (string * value)).

(** ** Sizes and copies *)

(** [render.MarshalStableJSON] sorts the keys, which [value] objects are by. *)
Definition stableJSONLen (v : value) : option Z := byte_len <$> json_marshal v.

(** A round trip through JSON; what does not survive it is copied as it is. *)
Definition cloneMapAny (v : fields) : fields :=
  match json_marshal (VMap v) with
  | None => v
  | Some _ =>
      match respell (VMap v) with
      | Ok (VMap out) => if encodingJSONMaxDepth <? nesting (VMap out) then v else out
      | _ => v
      end
  end.

(** ** Strings *)

Definition truncateRunes (s : string) (max : Z) : string :=
  if (max <=? 0) || (byte_len s <=? max) then s
  else if max <=? byte_len truncatedStringMark then runeSafePrefix s max
  else
    let keep := max - byte_len truncatedStringMark in
    let head := keep / 2 in
    let tail := keep - head in
    if byte_len s <? head + tail then s
    else runeSafePrefix s head +:+ (truncatedStringMark +:+ runeSafeSuffix s tail).

Fixpoint walkAndTruncateStrings (v : value) (maxChars : Z) : value :=
  match v with
  | VStr s => VStr (truncateRunes s maxChars)
  | VMap m => VMap ((fix go m := match m with [] => [] | (k, v) :: m => (k, walkAndTruncateStrings v maxChars) :: go m end) m)
  | VList l => VList ((fix go l := match l with [] => [] | v :: l => walkAndTruncateStrings v maxChars :: go l end) l)
  | v => v
  end.
Definition sanitizeMapStrings (v : fields) (maxChars : Z) : fields :=
  if maxChars <=? 0 then v else match walkAndTruncateStrings (VMap v) maxChars with VMap m => m | _ => v end.

(** ** The longest string *)

Definition step : Type := (string + nat)%type.

(** The value at a path replaced. *)
Fixpoint assignStringRef (p : list step) (s : string) (v : value) : value :=
  match p with
  | [] => VStr s
  | inl k :: p =>
      match v with
      | VMap m => VMap ((fix go m := match m with
          | [] => [] | (k', v) :: m => if (k' =? k)%string then (k', assignStringRef p s v) :: m else (k', v) :: go m end) m)
      | v => v
      end
  | inr i :: p =>
      match v with
      | VList l => VList ((fix go l i := match l, i with
          | [], _ => [] | v :: l, O => assignStringRef p s v :: l | v :: l, S i => v :: go l i end) l i)
      | v => v
      end
  end.

Abbreviation best := (option (list step * string)).
(** A later string replaces the best one only if it is longer. *)
Definition better (a b : best) : best :=
  match a, b with
  | None, _ => b
  | _, None => a
  | Some (_, s), Some (_, t) => if byte_len s <? byte_len t then b else a
  end.
Definition under (x : step) (b : best) : best := (λ b, (x :: b.1, b.2)) <$> b.

Fixpoint find_key {A} (k : string) (l : list (string * A)) : option A :=
  match l with [] => None | (k', a) :: l => if (k' =? k)%string then Some a else find_key k l end.

Section order.
Context (ord : nat → fields → list string).

(** The elements of an array from index [i] on. *)
Definition longest_elems (longest : value → best) : list value → nat → best → best :=
  fix go l i acc := match l with [] => acc | v :: l => go l (S i) (better acc (under (inr i) (longest v))) end.

(** The first string of greatest length below a value. *)
Fixpoint longest (t : nat) (v : value) : best :=
  match v with
  | VStr s => Some ([], s)
  | VMap m =>
      let cands := (λ kv, match kv with (k, v) => (k, longest t v) end) <$> m in
      foldl (λ acc k, better acc (under (inl k) (default None (find_key k cands)))) None (ord t m)
  | VList l => longest_elems (longest t) l 0 None
  | _ => None
  end.
Definition findLongestString (t : nat) (root : fields) : best := longest t (VMap root).

(** [None]: nothing to shorten. *)
Definition shrinkLongestString (t : nat) (root : fields) : option fields :=
  match findLongestString t root with
  | None => None
  | Some (p, s) =>
      if byte_len s <=? minTruncatedRunes then None
      else
        let nextLen := Z.max (byte_len s / 2) minTruncatedRunes in
        match assignStringRef p (truncateRunes s nextLen) (VMap root) with VMap m => Some m | _ => None end
  end.

(** ** Dropping entries *)

Definition delete_key (k : string) (m : fields) : fields := List.filter (λ kv, negb (kv.1 =? k)%string) m.

(** The key chosen; the empty key is also the mark of no choice. *)
Definition pick_largest (m : fields) (keys : list string) : string * Z :=
  foldl (λ '(bestKey, bestSize) k,
    match find_key k m with
    | None => (bestKey, bestSize)
    | Some v =>
        match stableJSONLen v with
        | None => (bestKey, bestSize)
        | Some n => if (bestKey =? "")%string || (bestSize <? n) then (k, n) else (bestKey, bestSize)
        end
    end) ("", 0) keys.
Definition dropLargestKey (t : nat) (m : fields) : option fields :=
  let bestKey := (pick_largest m (ord t m)).1 in
  if (bestKey =? "")%string then None else Some (delete_key bestKey m).

Fixpoint largest_elem (l : list value) (i : nat) (best : option (nat * Z)) : option (nat * Z) :=
  match l with
  | [] => best
  | v :: l =>
      largest_elem l (S i)
        match stableJSONLen v with
        | None => best
        | Some n => match best with Some (_, size) => if size <? n then Some (i, n) else best | None => Some (i, n) end
        end
  end.
Definition dropLargestSliceElem (l : list value) : option (list value) :=
  match largest_elem l 0 None with Some (i, _) => Some (take i l ++ drop (S i) l) | None => None end.

Definition dropLargestEntry (t : nat) (root : fields) : option fields :=
  match root with
  | [] => None
  | [(k, v)] =>
      match v with
      | VMap nested => match dropLargestKey t nested with Some m => Some [(k, VMap m)] | None => Some [] end
      | VList l => match dropLargestSliceElem l with Some l => Some [(k, VList l)] | None => Some [] end
      | _ => Some []
      end
  | _ => dropLargestKey t root
  end.

(** ** The passes *)

Inductive limit_error :=
  | NotMeasurable
  | CannotTruncate (max size : Z)
  | LimitExceeded (kind : string) (orig max : Z)
  | InvalidInput
  | CheckpointTooLarge (max orig : Z).

(** The value after the passes, whether anything was cut in them, and the size at
    the end. *)
Definition finish (out : fields) (maxBytes orig : Z) (truncated : bool) : res limit_error (fields * Z * bool) :=
  match stableJSONLen (VMap out) with
  | None => Err NotMeasurable
  | Some n => if maxBytes <? n then Err (CannotTruncate maxBytes n) else Ok (out, orig, truncated)
  end.
Fixpoint passes (n : nat) (out : fields) (maxBytes orig chars : Z) (truncated : bool) : res limit_error (fields * Z * bool) :=
  match n with
  | O => finish out maxBytes orig truncated
  | S n =>
      match stableJSONLen (VMap out) with
      | None => Err NotMeasurable
      | Some size =>
          if size <=? maxBytes then Ok (out, orig, truncated)
          else
            match shrinkLongestString (2 * n) out with
            | Some out => passes n out maxBytes orig chars true
            | None =>
                match dropLargestEntry (S (2 * n)) out with
                | Some out => passes n out maxBytes orig chars true
                | None =>
                    if minTruncatedRunes <? chars then passes n (sanitizeMapStrings out (chars / 2)) maxBytes orig (chars / 2) true
                    else finish out maxBytes orig true
                end
            end
      end
  end.

(** The value, its size before, and whether it was cut. *)
Definition truncateMapInPlace (v : fields) (maxBytes : Z) (opts : RedactionOptions) : res limit_error (fields * Z * bool) :=
  match stableJSONLen (VMap v) with
  | None => Err NotMeasurable
  | Some orig =>
      if (maxBytes <=? 0) || (orig <=? maxBytes) then Ok (cloneMapAny v, orig, false)
      else
        let chars := ro_MaxStringChars (normalized opts) in
        passes maxTruncatePasses (sanitizeMapStrings (cloneMapAny v) chars) maxBytes orig chars false
  end.

(** ** Limits of tools and checkpoints ([limits.go]) *)

Definition json_number (n : Z) : payload := PFloat (dec_to_f64 (n <? 0) (Z.to_N (Z.abs n)) 0).
Definition optional_field (k s : string) : list (string * payload) := if (s =? "")%string then [] else [(k, PStr (to_valid_utf8 s))].

(** [trace.LimitHitTraceData]: the event data after its round trip through JSON. *)
Definition LimitHitTraceData (kind : string) (maxBytes originalBytes : Z) (policy : LimitExceedPolicy) (truncated : bool) (stepID uses : string) :
    list (string * payload) :=
  [("kind", PStr kind); ("maxBytes", json_number maxBytes); ("originalBytes", json_number originalBytes); ("policy", PStr (to_valid_utf8 policy))] ++
  optional_field "stepId" stepID ++ (if truncated then [("truncated", PBool true)] else []) ++ optional_field "uses" uses.

(** The trace events recorded, and the value to go on with. *)
Definition enforceMapLimit (opts : RedactionOptions) (kind : string) (v : fields) (maxBytes : Z) (policy : LimitExceedPolicy) (stepID uses : string) :
    list (list (string * payload)) * res limit_error fields :=
  match stableJSONLen (VMap v) with
  | None => ([], Err NotMeasurable)
  | Some orig =>
      if (maxBytes <=? 0) || (orig <=? maxBytes) then ([], Ok v)
      else
        let truncated := (policy =? LimitExceedTruncate)%string in
        ([LimitHitTraceData kind maxBytes orig policy truncated stepID uses],
         if (policy =? LimitExceedFail)%string then Err (LimitExceeded kind orig maxBytes)
         else match truncateMapInPlace v maxBytes opts with Ok (out, _, _) => Ok out | Err e => Err e end)
  end.

(** The [limits] blocks of the project, the workflow and, by name, of the tools. *)
Section tools.
Context (project workflow : option ExecutionLimits) (tools : gmap string (option ExecutionLimits)).
(** Whether the input schema of an operation, if it has one, accepts a document. *)
Context (input_valid : string → value → bool).

Definition resolveToolLimits (uses : string) : ExecutionLimits :=
  ResolveExecutionLimits project workflow (tn ← ParseToolUses uses; l ← tools !! tn; l).
Definition resolveCheckpointLimits : ExecutionLimits := ResolveExecutionLimits project workflow None.

Definition enforceToolInput (opts : RedactionOptions) (stepID uses : string) (with_ : fields) : list (list (string * payload)) * res limit_error fields :=
  let limits := resolveToolLimits uses in
  let '(evs, r) := enforceMapLimit opts "tool_input" with_ (MaxToolInputBytes limits) (ToolInputExceedPolicy limits) stepID uses in
  (evs, match r with Ok out => if input_valid uses (VMap out) then Ok out else Err InvalidInput | Err e => Err e end).
Definition enforceToolOutput (opts : RedactionOptions) (stepID uses : string) (out : fields) : list (list (string * payload)) * res limit_error fields :=
  let limits := resolveToolLimits uses in
  enforceMapLimit opts "tool_output" out (MaxToolOutputBytes limits) (ToolOutputExceedPolicy limits) stepID uses.

Definition checkpointOutputShare : Z := 2.
(** [root] is the [limits] block of the root workflow. *)
Definition toolOutputBudget (root : option ExecutionLimits) (uses : string) : Z :=
  let budget := MaxToolOutputBytes (resolveToolLimits uses) in
  let cp := MaxCheckpointBytes (ResolveExecutionLimits project root None) / checkpointOutputShare in
  if (0 <? cp) && ((budget <=? 0) || (cp <? budget)) then cp else budget.

Definition enforceCheckpointSize (stepID contextJSON : string) : list (list (string * payload)) * option limit_error :=
  let max := MaxCheckpointBytes resolveCheckpointLimits in
  let orig := byte_len contextJSON in
  if orig <=? max then ([], None)
  else ([LimitHitTraceData "checkpoint" max orig LimitExceedFail false stepID ""], Some (CheckpointTooLarge max orig)).
End tools.
End order.

(** ** Properties *)

(** *** What truncation may do to a value *)

(** [pruned v w]: [w] is [v] with strings shortened (kept valid UTF-8) and entries of
    objects and arrays dropped; numbers, booleans and the order are kept. *)
Inductive pruned : value → value → Prop :=
  | pr_refl v : pruned v v
  | pr_str s t : byte_len t <= byte_len s → (text_valid s → text_valid t) → pruned (VStr s) (VStr t)
  | pr_list l l0 l' : l0 `sublist_of` l → Forall2 pruned l0 l' → pruned (VList l) (VList l')
  | pr_map m m0 m' : m0 `sublist_of` m → Forall2 (λ a b, a.1 = b.1 ∧ pruned a.2 b.2) m0 m' → pruned (VMap m) (VMap m').

Lemma Forall2_sublist {A B} (R : A → B → Prop) l l' k' : Forall2 R l l' → k' `sublist_of` l' → ∃ k, k `sublist_of` l ∧ Forall2 R k k'.
Proof.
  intros H Hk. revert l H. induction Hk as [|y k' l' _ IH|y k' l' _ IH]; intros l H; inversion H as [|x ? l0 ? Hx Hl]; subst.
  - by exists [].
  - destruct (IH l0 Hl) as (k & Hk & Hr). exists (x :: k). split; [by constructor|by constructor].
  - destruct (IH l0 Hl) as (k & Hk & Hr). exists k. split; [by constructor|done].
Qed.

Lemma pruned_trans a : ∀ b c, pruned a b → pruned b c → pruned a c.
Proof.
  induction a as [|x|i|f|s|l IH|m IH] using value_nested_ind; intros b c Hab Hbc; inversion Hab as [|? ? L V|? l0 l' Hs Hl|? m0 m' Hs Hm]; subst; try done.
  - inversion Hbc as [|? ? L2 V2| |]; subst; [done|]. apply pr_str; [lia|auto].
  - inversion Hbc as [| |? l1 l'' Hs2 Hl2|]; subst; [done|]. destruct (Forall2_sublist _ _ _ _ Hl Hs2) as (k & Hk & Hr).
    apply (pr_list _ k); [by etrans|]. rewrite Forall_forall in IH.
    assert (∀ x, x ∈ k → x ∈ l) as Hin by (intros x Hx; eapply elem_of_sublist; [exact Hx|by etrans]).
    clear -IH Hin Hr Hl2. revert l'' Hl2. induction Hr as [|x y k l1 Hxy _ IHr]; intros l'' Hl2; inversion Hl2 as [|? z ? l2 Hyz Hl2']; subst; constructor.
    + apply (IH x) with y; [apply Hin; by left|done|done].
    + apply IHr; [|done]. intros u Hu. apply Hin. by right.
  - inversion Hbc as [| | |? m1 m'' Hs2 Hm2]; subst; [done|]. destruct (Forall2_sublist _ _ _ _ Hm Hs2) as (k & Hk & Hr).
    apply (pr_map _ k); [by etrans|]. rewrite Forall_forall in IH.
    assert (∀ x, x ∈ k → x ∈ m) as Hin by (intros x Hx; eapply elem_of_sublist; [exact Hx|by etrans]).
    clear -IH Hin Hr Hm2. revert m'' Hm2. induction Hr as [|x y k m1 [Hk Hxy] _ IHr]; intros m'' Hm2; inversion Hm2 as [|? z ? m2 [Hk2 Hyz] Hm2']; subst; constructor.
    + split; [by rewrite Hk|]. apply (IH x) with y.2; [apply Hin; by left|done|done].
    + apply IHr; [|done]. intros u Hu. apply Hin. by right.
Qed.

Lemma truncateRunes_spec s max : 0 < max → byte_len (truncateRunes s max) <= Z.min max (byte_len s) ∧ (text_valid s → text_valid (truncateRunes s max)).
Proof.
  intros Hm. unfold truncateRunes. rewrite (proj2 (Z.leb_gt max 0)) by lia. cbn [orb]. change (byte_len truncatedStringMark) with 3.
  destruct (Z.leb_spec (byte_len s) max) as [|Hl]; [split; [lia|done]|].
  destruct (Z.leb_spec max 3) as [H3|H3]; [destruct (runeSafePrefix_spec s max); split; [lia|done]|].
  rewrite (proj2 (Z.ltb_ge (byte_len s) _)) by lia.
  destruct (runeSafePrefix_spec s ((max - 3) / 2)) as [L1 V1], (runeSafeSuffix_spec s (max - 3 - (max - 3) / 2)) as [L2 V2].
  assert (0 <= (max - 3) / 2 <= max - 3) by (split; [apply Z.div_pos|apply Z.div_le_upper_bound]; lia).
  rewrite !byte_len_app. change (byte_len truncatedStringMark) with 3. split; [lia|]. intros Hv.
  apply text_valid_app; [by apply V1|]. apply text_valid_app; [done|by apply V2].
Qed.
Lemma truncateRunes_pruned s max : pruned (VStr s) (VStr (truncateRunes s max)).
Proof.
  destruct (Z.le_gt_cases max 0) as [Hm|Hm].
  - unfold truncateRunes. rewrite (proj2 (Z.leb_le _ _)) by done. apply pr_refl.
  - destruct (truncateRunes_spec s max Hm). apply pr_str; [lia|done].
Qed.

Lemma walk_pruned max v : pruned v (walkAndTruncateStrings v max).
Proof.
  induction v as [|x|i|f|s|l IH|m IH] using value_nested_ind; cbn [walkAndTruncateStrings]; try apply pr_refl.
  - apply truncateRunes_pruned.
  - apply (pr_list _ l); [done|]. induction IH as [|v l Hv _ IHl]; constructor; [done|exact IHl].
  - apply (pr_map _ m); [done|]. induction IH as [|[k v] m Hv _ IHm]; constructor; [done|exact IHm].
Qed.
Lemma sanitize_pruned m max : pruned (VMap m) (VMap (sanitizeMapStrings m max)).
Proof. unfold sanitizeMapStrings. destruct (_ <=? _); [apply pr_refl|]. pose proof (walk_pruned max (VMap m)) as H. exact H. Qed.

(** What is at a path; the first of equal keys. *)
Fixpoint at_path (v : value) (p : list step) : option value :=
  match p with
  | [] => Some v
  | inl k :: p => match v with VMap m => v ← find_key k m; at_path v p | _ => None end
  | inr i :: p => match v with VList l => v ← l !! i; at_path v p | _ => None end
  end.

Lemma assign_pruned t p : ∀ v w, at_path v p = Some w → pruned w (VStr t) → pruned v (assignStringRef p t v).
Proof.
  induction p as [|[k|i] p IH]; intros v w Hv Hw; cbn [at_path assignStringRef] in *; [by injection Hv as ->|..].
  - destruct v as [| | | | | |m]; try done. apply (pr_map _ m); [done|]. induction m as [|[k' x] m IHm]; [done|]. cbn [find_key] in Hv.
    destruct (k' =? k)%string; constructor; try done; [split; [done|by eapply IH]|..].
    + apply Forall_Forall2_diag, Forall_forall. intros. split; [done|apply pr_refl].
    + split; [done|apply pr_refl].
    + by apply IHm.
  - destruct v as [| | | | |l|]; try done. apply (pr_list _ l); [done|]. revert i Hv. induction l as [|x l IHl]; intros [|i] Hv; try done; constructor.
    + by eapply IH.
    + apply Forall_Forall2_diag, Forall_forall. intros. apply pr_refl.
    + apply pr_refl.
    + by apply IHl.
Qed.

Section order.
Context (ord : nat → fields → list string).

(** The best candidate names a string of the value. *)
Definition points (v : value) (b : best) : Prop := ∀ p s, b = Some (p, s) → at_path v p = Some (VStr s).

Lemma better_points v a b : points v a → points v b → points v (better a b).
Proof. intros Ha Hb. destruct a as [[p s]|], b as [[q t]|]; try done. cbn. by destruct (_ <? _). Qed.

Lemma longest_elems_points f whole l : Forall (λ v, points v (f v)) l → ∀ pre acc, whole = pre ++ l →
  points (VList whole) acc → points (VList whole) (longest_elems f l (length pre) acc).
Proof.
  induction 1 as [|v l Hv _ IH]; intros pre acc E Hacc; cbn [longest_elems]; [done|].
  replace (S (length pre)) with (length (pre ++ [v])) by (rewrite length_app; cbn; lia).
  apply IH; [by rewrite E, <-app_assoc|]. apply better_points; [done|]. intros p s Hp. apply fmap_Some in Hp as ([q u] & Hq & [= -> ->]).
  cbn. subst whole. rewrite list_lookup_middle by done. by apply Hv.
Qed.

Lemma find_key_fmap {A B} (f : A → B) k (m : list (string * A)) :
  find_key k ((λ kv, match kv with (k, v) => (k, f v) end) <$> m) = f <$> find_key k m.
Proof. induction m as [|[k' v] m IH]; [done|]. cbn. by destruct (k' =? k)%string. Qed.
Lemma find_key_elem {A} k (m : list (string * A)) v : find_key k m = Some v → (k, v) ∈ m.
Proof. induction m as [|[k' x] m IH]; [done|]. cbn. destruct (String.eqb_spec k' k) as [->|]; [intros [= ->]; by left|]. right. by apply IH. Qed.

Lemma longest_points t v : points v (longest ord t v).
Proof.
  induction v as [|x|i|f|s|l IH|m IH] using value_nested_ind; try (by intros p u).
  - intros p u [= <- <-]. done.
  - cbn [longest]. by apply (longest_elems_points _ l l IH []).
  - cbn [longest]. match goal with |- points _ (foldl ?f _ _) =>
      assert (∀ ks acc, points (VMap m) acc → points (VMap m) (foldl f acc ks)) as H; [|by apply H] end.
    induction ks as [|k ks IHk]; intros acc Hacc; [done|]. cbn [foldl]. apply IHk. apply better_points; [done|].
    rewrite find_key_fmap. intros p u Hp. apply fmap_Some in Hp as ([q w] & Hq & [= -> ->]). cbn.
    destruct (find_key k m) as [v|] eqn:E; [|done]. cbn in *. rewrite Forall_forall in IH. by apply (IH _ (find_key_elem _ _ _ E)).
Qed.

Lemma shrink_pruned t m m' : shrinkLongestString ord t m = Some m' → pruned (VMap m) (VMap m').
Proof.
  unfold shrinkLongestString, findLongestString. destruct (longest ord t (VMap m)) as [[p s]|] eqn:E; [|done].
  destruct (_ <=? _); [done|]. pose proof (longest_points t (VMap m) p s E) as Hp.
  pose proof (assign_pruned _ p (VMap m) _ Hp (truncateRunes_pruned s (Z.max (byte_len s / 2) minTruncatedRunes))) as H.
  destruct (assignStringRef _ _ _); try done. by intros [= ->].
Qed.

Lemma filter_sublist {A} (f : A → bool) l : List.filter f l `sublist_of` l.
Proof. induction l as [|x l IH]; [done|]. cbn. destruct (f x); by constructor. Qed.
Lemma dropped_map m m' : m' `sublist_of` m → pruned (VMap m) (VMap m').
Proof. intros H. apply (pr_map _ m'); [done|]. apply Forall_Forall2_diag, Forall_forall. intros. split; [done|apply pr_refl]. Qed.
Lemma dropLargestKey_sublist t m m' : dropLargestKey ord t m = Some m' → m' `sublist_of` m.
Proof. unfold dropLargestKey. destruct (_ =? _)%string; [done|]. intros [= <-]. apply filter_sublist. Qed.

Lemma drop_pruned t m m' : dropLargestEntry ord t m = Some m' → pruned (VMap m) (VMap m').
Proof.
  destruct m as [|[k v] [|kv2 m]]; cbn [dropLargestEntry]; [done| |intros H; by eapply dropped_map, dropLargestKey_sublist].
  assert (∀ w, pruned v w → pruned (VMap [(k, v)]) (VMap [(k, w)])) as H1.
  { intros w Hw. apply (pr_map _ [(k, v)]); [done|]. by repeat constructor. }
  assert (pruned (VMap [(k, v)]) (VMap [])) as H0 by (apply dropped_map; by apply sublist_nil_l).
  destruct v as [| | | | |l|n]; try (by intros [= <-]).
  - unfold dropLargestSliceElem. destruct (largest_elem l 0 None) as [[i size]|]; intros [= <-]; [|done].
    apply H1, (pr_list _ (take i l ++ drop (S i) l)); [|apply Forall_Forall2_diag, Forall_forall; intros; apply pr_refl].
    rewrite <-delete_take_drop. apply sublist_delete.
  - destruct (dropLargestKey ord t n) as [n'|] eqn:E; intros [= <-]; [|done]. by eapply H1, dropped_map, dropLargestKey_sublist.
Qed.

Definition fits (max : Z) (m : fields) : Prop := ∃ n, stableJSONLen (VMap m) = Some n ∧ n <= max.

Lemma passes_spec n : ∀ out max orig chars cut m o c, passes ord n out max orig chars cut = Ok (m, o, c) →
  pruned (VMap out) (VMap m) ∧ fits max m.
Proof.
  assert (∀ out max orig cut m o c, finish out max orig cut = Ok (m, o, c) → pruned (VMap out) (VMap m) ∧ fits max m) as Hf.
  { intros out max orig cut m o c. unfold finish. destruct (stableJSONLen (VMap out)) as [size|] eqn:E; [|done].
    destruct (Z.ltb_spec max size); [done|]. intros [= <- <- <-]. split; [apply pr_refl|]. by exists size. }
  induction n as [|n IH]; intros out max orig chars cut m o c H; cbn [passes] in H; [by eapply Hf|].
  destruct (stableJSONLen (VMap out)) as [size|] eqn:E; [|done]. destruct (Z.leb_spec size max) as [Hs|Hs].
  { injection H as <- <- <-. split; [apply pr_refl|]. by exists size. }
  destruct (shrinkLongestString ord (2 * n) out) as [out1|] eqn:E1.
  { destruct (IH _ _ _ _ _ _ _ _ H) as [Hp Hfit]. split; [|done]. eapply pruned_trans; [by eapply shrink_pruned|done]. }
  destruct (dropLargestEntry ord (S (2 * n)) out) as [out1|] eqn:E2.
  { destruct (IH _ _ _ _ _ _ _ _ H) as [Hp Hfit]. split; [|done]. eapply pruned_trans; [by eapply drop_pruned|done]. }
  destruct (_ <? chars); [|by eapply Hf].
  destruct (IH _ _ _ _ _ _ _ _ H) as [Hp Hfit]. split; [|done]. eapply pruned_trans; [apply sanitize_pruned|done].
Qed.

Lemma truncateMapInPlace_spec v max opts m o c : 0 < max → truncateMapInPlace ord v max opts = Ok (m, o, c) →
  pruned (VMap (cloneMapAny v)) (VMap m) ∧ stableJSONLen (VMap v) = Some o ∧ (max < o → fits max m).
Proof.
  intros Hm. unfold truncateMapInPlace. destruct (stableJSONLen (VMap v)) as [orig|] eqn:E; [|done].
  destruct (Z.leb_spec max 0); [lia|]. cbn [orb]. destruct (Z.leb_spec orig max) as [Hl|Hl].
  - intros [= <- <- <-]. split; [apply pr_refl|]. split; [done|lia].
  - intros H'. destruct (passes_spec _ _ _ _ _ _ _ _ _ H') as [Hp Hf].
    assert (o = orig) as ->; [|split; [|done]; eapply pruned_trans; [apply sanitize_pruned|done]].
    clear -H'. revert H'. generalize (sanitizeMapStrings (cloneMapAny v) (ro_MaxStringChars (normalized opts))) as out.
    generalize (ro_MaxStringChars (normalized opts)) as chars. generalize false as cut. generalize maxTruncatePasses as n.
    assert (∀ out cut, finish out max orig cut = Ok (m, o, c) → o = orig) as Hf.
    { intros out cut. unfold finish. destruct (stableJSONLen _); [|done]. destruct (_ <? _); [done|]. by intros [= <- <- <-]. }
    induction n as [|n IH]; intros cut chars out H; cbn [passes] in H; [by eapply Hf|].
    destruct (stableJSONLen _); [|done]. destruct (_ <=? _); [by injection H|].
    destruct (shrinkLongestString _ _ _); [by eapply IH|]. destruct (dropLargestEntry _ _ _); [by eapply IH|].
    destruct (_ <? chars); [by eapply IH|by eapply Hf].
Qed.

(** *** Enforcement *)

Lemma enforceMapLimit_spec opts kind v max policy stepID uses evs out : 0 < max →
  enforceMapLimit ord opts kind v max policy stepID uses = (evs, Ok out) →
  fits max out ∧ (out = v ∧ evs = [] ∨ (length evs = 1%nat ∧ policy ≠ LimitExceedFail ∧ pruned (VMap (cloneMapAny v)) (VMap out))).
Proof.
  intros Hm. unfold enforceMapLimit. destruct (stableJSONLen (VMap v)) as [orig|] eqn:E; [|done].
  destruct (Z.leb_spec max 0); [lia|]. cbn [orb]. destruct (Z.leb_spec orig max) as [Hl|Hl].
  - intros [= <- <-]. split; [by exists orig|by left].
  - destruct (String.eqb_spec policy LimitExceedFail) as [|Hp]; [done|].
    destruct (truncateMapInPlace ord v max opts) as [[[m o] c]|e] eqn:Et; [|done]. intros [= <- <-].
    destruct (truncateMapInPlace_spec _ _ _ _ _ _ Hm Et) as (Hpr & Ho & Hf). split; [|by right].
    apply Hf. rewrite E in Ho. injection Ho as <-. done.
Qed.
End order.

(** C31: What a tool receives is within the limit of its call, satisfies its input
    schema, and is the arguments of the step or a truncation of them (strings shortened,
    still valid UTF-8, and entries dropped; nothing else changes), in which case one
    event is recorded; whatever the order of map traversals. *)
Theorem enforceToolInput_dispatched ord project workflow tools input_valid opts stepID uses with_ evs out :
  enforceToolInput ord project workflow tools input_valid opts stepID uses with_ = (evs, Ok out) →
  let limits := resolveToolLimits project workflow tools uses in
  fits (MaxToolInputBytes limits) out ∧ input_valid uses (VMap out) = true ∧
  (out = with_ ∧ evs = [] ∨
   length evs = 1%nat ∧ ToolInputExceedPolicy limits ≠ LimitExceedFail ∧ pruned (VMap (cloneMapAny with_)) (VMap out)).
Proof.
  unfold enforceToolInput. set (limits := resolveToolLimits _ _ _ _). intros H. destruct (enforceMapLimit _ _ _ _ _ _ _ _) as [evs1 r] eqn:E.
  injection H as -> H. destruct r as [out1|e]; [|done]. destruct (input_valid uses (VMap out1)) eqn:Ev; [|done]. injection H as ->.
  destruct (ResolveExecutionLimits_positive project workflow (tn ← ParseToolUses uses; l ← tools !! tn; l)) as (Hp & _).
  destruct (enforceMapLimit_spec ord _ _ _ _ _ _ _ _ _ Hp E) as [Hf Hc]. done.
Qed.

(** The budget advertised to a tool is positive, within the limit of its output, and at
    most half of the checkpoint limit. *)
Lemma toolOutputBudget_spec project workflow tools root uses :
  let budget := toolOutputBudget project workflow tools root uses in
  let checkpoint := MaxCheckpointBytes (ResolveExecutionLimits project root None) in
  0 < budget <= MaxToolOutputBytes (resolveToolLimits project workflow tools uses) ∧ (2 <= checkpoint → 2 * budget <= checkpoint).
Proof.
  cbn zeta. unfold toolOutputBudget, resolveToolLimits, checkpointOutputShare.
  destruct (ResolveExecutionLimits_positive project workflow (tn ← ParseToolUses uses; l ← tools !! tn; l)) as (_ & Hb & _).
  set (budget := MaxToolOutputBytes _) in *. set (checkpoint := MaxCheckpointBytes _). clearbody budget checkpoint.
  pose proof (Z.mul_div_le checkpoint 2 ltac:(lia)) as Hd. pose proof (Z.div_le_lower_bound checkpoint 2 1 ltac:(lia)) as H1.
  rewrite (proj2 (Z.leb_gt budget 0)) by done. cbn [orb].
  destruct (Z.ltb_spec 0 (checkpoint / 2)); cbn [andb]; [destruct (Z.ltb_spec (checkpoint / 2) budget)|]; split; try lia.
Qed.

(** ** Concrete values *)

(** Maps visited in key order, and in the opposite order. *)
Definition key_order (_ : nat) (m : fields) : list string := fst <$> m.
Definition reverse_order (_ : nat) (m : fields) : list string := rev (fst <$> m).

Definition small_input : ExecutionLimits := mkLimits 40 0 0 0 0 0 "" "" "".
Definition long_args : fields := [("body", VStr "a rather long text that does not fit"); ("id", VInt 7); ("to", VStr "ops")].

Definition mail_limits : gmap string (option ExecutionLimits) := {["mail" := Some small_input]}.
Lemma enforceToolInput_dispatched_witness :
  match enforceToolInput key_order None None mail_limits (λ _ _, true) DefaultRedactionOptions "s1" "tool.mail.send" long_args with
  | (_, Ok out) => out = [("body", VStr "a r...fit"); ("id", VInt 7); ("to", VStr "ops")] ∧
      fits (MaxToolInputBytes (resolveToolLimits None None mail_limits "tool.mail.send")) out
  | _ => False
  end.
Proof.
  destruct (enforceToolInput _ _ _ _ _ _ _ _ _) as [evs [out|e]] eqn:E; [|vm_compute in E; discriminate E].
  split; [vm_compute in E; by injection E|].
  exact (proj1 (enforceToolInput_dispatched key_order None None mail_limits (λ _ _, true) DefaultRedactionOptions "s1" "tool.mail.send" long_args evs out E)).
Defined.

(** The string cut before the first pass is not reported. *)
Definition repeat_text (n : nat) (s : string) : string := String.concat "" (repeat s n).
Lemma cut_not_reported :
  let v := [("text", VStr (repeat_text 30 "0123456789"))] in
  ∃ m, truncateMapInPlace key_order v 300 DefaultRedactionOptions = Ok (m, 311, false) ∧ m ≠ v.
Proof. eexists. split; [vm_compute; reflexivity|discriminate]. Qed.

(** Top-level keys are dropped when no string is left to shorten. *)
Lemma top_level_key_dropped :
  truncateMapInPlace key_order [("ids", VList (VInt <$> [1001; 1002; 1003; 1004])); ("ok", VBool true)] 20 DefaultRedactionOptions =
    Ok ([("ok", VBool true)], 39, true).
Proof. vm_compute. reflexivity. Qed.

(** An entry with the empty key is never dropped, and when it is the largest the value
    of some traversals cannot be truncated. *)
Definition empty_key : fields := [("", VList (VInt <$> [1001; 1002; 1003; 1004])); ("ok", VBool true)].
Lemma empty_key_not_dropped :
  is_ok (truncateMapInPlace key_order empty_key 20 DefaultRedactionOptions) = true ∧
  truncateMapInPlace reverse_order empty_key 20 DefaultRedactionOptions = Err (CannotTruncate 20 36).
Proof. by vm_compute. Qed.

(** Every pass halves one string, and entries are dropped only when no string is left
    to shorten: a list of more than 256 short strings fails, whatever could be dropped. *)
Definition many_strings : fields := [("rows", VList (repeat (VStr "123456789") 300))].
Lemma many_strings_fail : truncateMapInPlace key_order many_strings 1000 DefaultRedactionOptions = Err (CannotTruncate 1000 3354).
Proof. vm_compute. reflexivity. Qed.
