(* ===== verification/McpDispatch.v ===== *)
(** * Tool calls of an external agent ([internal/runtime/mcpserver/dispatch.go])

    An agent process that runs outside the engine calls its granted tools through
    [PolicyDispatcher.Call]: byte limits, input schema, policy, then the tool.  The tool
    executor and the schema check are parameters; a call is what it records and
    executes, in order, and its result. *)

From S2P Require Import Prelude GoNum GoText Value JsonNum RuneText SpecTools SpecPolicy StepRefs SpecLimits Policy TraceRedact TraceRecorder EngineLimits.

Local Open Scope Z_scope.

(** [trace.TruncateMapValue] ([internal/trace/limits.go]): a preview envelope. *)
Definition truncation_envelope (preview : fields) (orig max : Z) : fields :=
  [("maxBytes", VInt max); ("originalBytes", VInt orig); (FieldPayloadTruncated, VBool true); (FieldPayloadPreview, VMap preview)].
Definition TruncateMapValue (v : fields) (maxBytes : Z) (opts : RedactionOptions) : res limit_error (fields * Z * bool) :=
  match stableJSONLen (VMap v) with
  | None => Err NotMeasurable
  | Some orig =>
      if (maxBytes <=? 0) || (orig <=? maxBytes) then Ok (v, orig, false)
      else
        let o := normalized opts in
        let o := mkRedactionOptions (ro_RedactKeys o) (ro_MaxDepth o) (ro_MaxBinaryBytes o) (ro_MaxStringChars o) maxBytes (ro_UnsafeRepr o) in
        Ok (truncation_envelope (PrepareEventData [(FieldWrappedValue, of_value (VMap v))] [] o) orig maxBytes, orig, true)
  end.

(** What a call does: an event appended to the run's trace, the tool executed. *)
Inductive action :=
  | ARecord (stepID eventType actorType : string) (data : list (string * payload))
  | AExec (uses : string) (args : fields).

Record ToolCallMeta := mkToolCallMeta { DurationMs : Z; CostUSD : f64 }.

Inductive dispatch_error (E : Type) :=
  | DLimit (e : limit_error)
  | DSchema
  | DPolicy (d : DeniedError)
  | DTool (e : E).
Arguments DLimit {E}.
Arguments DSchema {E}.
Arguments DPolicy {E}.
Arguments DTool {E}.

Section dispatcher.
Context (sha256 : chars → chars) {E : Type}.
(** Policy evaluator, run context and executor of the dispatcher; whether it traces. *)
Context (eval : PolicyEvaluator) (run : RunContext) (exec : string → fields → fields * ToolCallMeta * option E).
Context (traced : bool) (redaction : RedactionOptions).
(** The enforcer: limits of a call and its input schema; [None] in tests only. *)
Context (enforce : option ((string → ExecutionLimits) * (string → value → bool))).

Definition record (stepID eventType actorType : string) (data : list (string * payload)) : list action :=
  if traced then [ARecord stepID eventType actorType data] else [].

(** The [Extra] fields of a denial are text and are left out, as in [Policy]. *)
Definition denied_data (d : DeniedError) : list (string * payload) :=
  ("reason", PStr (de_Reason d)) :: optional_field "uses" (de_Uses d).

Definition enforceBytes (stepID uses kind : string) (v : fields) (maxBytes : Z) (pol : LimitExceedPolicy) : list action * res limit_error fields :=
  if maxBytes <=? 0 then ([], Ok v)
  else
    match stableJSONLen (VMap v) with
    | None => ([], Err NotMeasurable)
    | Some orig =>
        if orig <=? maxBytes then ([], Ok v)
        else
          (record stepID "limit_hit" "system" (LimitHitTraceData kind maxBytes orig pol (pol =? LimitExceedTruncate)%string stepID uses),
           if (pol =? LimitExceedFail)%string then Err (LimitExceeded kind orig maxBytes)
           else match TruncateMapValue v maxBytes redaction with Ok (out, _, _) => Ok out | Err e => Err e end)
    end.

Definition enforce_input (stepID uses : string) (args : fields) : list action * res limit_error fields :=
  match enforce with
  | Some (limits, _) => enforceBytes stepID uses "tool_input" args (MaxToolInputBytes (limits uses)) (ToolInputExceedPolicy (limits uses))
  | None => ([], Ok args)
  end.
Definition enforce_output (stepID uses : string) (out : fields) : list action * res limit_error fields :=
  match enforce with
  | Some (limits, _) => enforceBytes stepID uses "tool_output" out (MaxToolOutputBytes (limits uses)) (ToolOutputExceedPolicy (limits uses))
  | None => ([], Ok out)
  end.
Definition schema_accepts (uses : string) (args : fields) : bool :=
  match enforce with Some (_, valid) => valid uses (VMap args) | None => true end.

(** The call number [seq] of the dispatcher. *)
Definition Call (seq : Z) (uses : string) (args : fields) : list action * res (dispatch_error E) fields :=
  let stepID := "mcp-" +:+ pretty seq in
  let toolName := from_option fst "" (ParseUses uses) in
  let '(acts, r) := enforce_input stepID uses args in
  match r with
  | Err e => (acts, Err (DLimit e))
  | Ok args =>
      if negb (schema_accepts uses args) then (acts, Err DSchema)
      else
        match CheckToolCall eval (mkToolCallContext run stepID uses args) with
        | Some d => (acts ++ record stepID "system_error" "system" (denied_data d), Err (DPolicy d))
        | None =>
            let '(out, meta, err) := exec uses args in
            let acts := acts ++ record stepID "tool_selection" "agent" (ToolSelectionData sha256 uses toolName args) ++ [AExec uses args] ++
              record stepID "tool_execution" "agent" (ToolExecutionData uses toolName (DurationMs meta) (CostUSD meta) (match err with Some _ => true | None => false end)) in
            match err with
            | Some e => (acts, Err (DTool e))
            | None =>
                let '(acts', r) := enforce_output stepID uses out in
                (acts ++ acts', match r with Ok out => Ok out | Err e => Err (DLimit e) end)
            end
        end
  end.

(** ** Properties *)

(** The tool executions of a list of actions. *)
Definition executions (l : list action) : list (string * fields) :=
  l ≫= λ a, match a with AExec u x => [(u, x)] | _ => [] end.


End dispatcher.

(** ** Concrete calls *)

Definition echo (uses : string) (args : fields) : fields * ToolCallMeta * option unit := (args, mkToolCallMeta 1 (FFin false 0 0), None).
Definition demo_run : RunContext := mkRunContext 0 (FFin false 0 0) [].
Definition demo_enforcer : option ((string → ExecutionLimits) * (string → value → bool)) :=
  Some (λ _, ResolveExecutionLimits (Some small_input) None None, λ _ _, true).
Definition demo_call (args : fields) :=
  Call AuditChain.checksum (NewEvaluator pol_graph None) demo_run echo true DefaultRedactionOptions demo_enforcer 1 "tool.gh.get" args.


(** Arguments over the limit reach the tool as a preview envelope: every argument is
    gone, and the envelope is larger than the limit.  The engine shortens the strings of
    the same arguments and keeps their names ([enforceToolInput_dispatched_witness]). *)
Lemma truncated_arguments_lost :
  ∃ args n, executions (demo_call long_args).1 = [("tool.gh.get", args)] ∧
    fst <$> args = ["maxBytes"; "originalBytes"; "payload_truncated"; "preview"] ∧ stableJSONLen (VMap args) = Some n ∧ 40 < n.
Proof. eexists _, _. split; [vm_compute; reflexivity|]. split; [reflexivity|]. split; [vm_compute; reflexivity|]. done. Qed.
