(* ===== verification/StateStore.v ===== *)
(** * Deployment tables of the state store ([internal/state], [internal/state/sqlite])

    The rows of [applied_resources], [applied_projects], [deployment_artifacts],
    [deployment_snapshots] and [deployment_env_current] as finite maps on their
    primary keys, the operations [deployment_ops.go] and [artifact_ops.go] run on
    them, and the transaction of [deployment_tx.go].  SQLite itself is trusted: a
    statement does what its text says, and a transaction commits all of its
    writes or none.  A stored timestamp reads back as the time it was written
    from.  [StateRuns] has the tables of the runs. *)

From S2P Require Import Prelude GoNum GoText Value JsonText AuditChain.

Local Open Scope Z_scope.

(** ** Rows ([models.go]) *)

Record AppliedResource := mkAppliedResource {
  ar_Kind : string; ar_Name : string; ar_Env : string;
  ar_SpecHash : string; ar_NormalizedSpecJSON : string; ar_AppliedAt : Time;
}.

Record AppliedProject := mkAppliedProject {
  ap_ProjectName : string; ap_Env : string; ap_Version : string; ap_AppliedAt : Time;
}.

Record DeploymentArtifact := mkDeploymentArtifact {
  da_Digest : string; da_Kind : string; da_FormatVersion : string; da_Payload : string;
  da_CreatedAt : Time;
}.

Record DeploymentSnapshot := mkDeploymentSnapshot {
  ds_Digest : string; ds_FormatVersion : string; ds_CompilerVersion : string;
  ds_Environment : string; ds_GraphDigest : string; ds_ExecutionIRDigest : string;
  ds_CapabilityManifestDigest : string; ds_SchemaBundleDigest : string; ds_CreatedAt : Time;
}.

Definition ArtifactKindResolvedGraph : string := "resolved_graph".
Definition ArtifactKindExecutionIR : string := "execution_ir".
Definition ArtifactKindCapabilityManifest : string := "capability_manifest".
Definition ArtifactKindSchemaBundle : string := "schema_bundle".

(** [spec.ResourceID]. *)
Record ResourceID := mkResourceID { rid_Kind : string; rid_Name : string }.
#[export] Instance ResourceID_eq_dec : EqDecision ResourceID.
Proof. solve_decision. Defined.

Definition ResourceID_String (r : ResourceID) : string := rid_Kind r +:+ ("/" +:+ rid_Name r).

(** The deployment tables; the keys are the primary keys of [001_init.sql] and
    [006_deployment.sql]. *)
Record DeployTables := mkDeployTables {
  applied_resources : gmap (string * string * string) AppliedResource;   (* kind, name, env *)
  applied_projects : gmap (string * string) AppliedProject;              (* project_name, env *)
  deployment_artifacts : gmap string DeploymentArtifact;
  deployment_snapshots : gmap string DeploymentSnapshot;
  deployment_env_current : gmap string string;
}.

Definition empty_tables : DeployTables := mkDeployTables ∅ ∅ ∅ ∅ ∅.

Definition with_resources (t : DeployTables) m : DeployTables :=
  mkDeployTables m (applied_projects t) (deployment_artifacts t) (deployment_snapshots t)
    (deployment_env_current t).
Definition with_projects (t : DeployTables) m : DeployTables :=
  mkDeployTables (applied_resources t) m (deployment_artifacts t) (deployment_snapshots t)
    (deployment_env_current t).
Definition with_artifacts (t : DeployTables) m : DeployTables :=
  mkDeployTables (applied_resources t) (applied_projects t) m (deployment_snapshots t)
    (deployment_env_current t).
Definition with_snapshots (t : DeployTables) m : DeployTables :=
  mkDeployTables (applied_resources t) (applied_projects t) (deployment_artifacts t) m
    (deployment_env_current t).
Definition with_env_current (t : DeployTables) m : DeployTables :=
  mkDeployTables (applied_resources t) (applied_projects t) (deployment_artifacts t)
    (deployment_snapshots t) m.

(** ** Order of rows: [ORDER BY kind, name] *)

Definition pair_le (a b : string * string) : Prop :=
  if decide (a.1 = b.1) then String.le a.2 b.2 else String.le a.1 b.1.
#[export] Instance pair_le_dec : RelDecision pair_le.
Proof. intros a b. unfold pair_le. destruct (decide (a.1 = b.1)); apply _. Defined.
#[export] Instance pair_le_total : Total pair_le.
Proof.
  intros [a1 a2] [b1 b2]. unfold pair_le. simpl.
  destruct (decide (a1 = b1)) as [->|]; [rewrite decide_True by done; apply (total String.le)|].
  rewrite (decide_False (P := b1 = a1)) by done. apply (total String.le).
Qed.
#[export] Instance pair_le_trans : Transitive pair_le.
Proof.
  intros [a1 a2] [b1 b2] [c1 c2]. unfold pair_le. simpl. intros H1 H2.
  repeat case_decide; subst; try done.
  - by etrans.
  - exfalso. by apply H, (anti_symm String.le).
  - by etrans.
Qed.
#[export] Instance pair_le_antisymm : AntiSymm (=) pair_le.
Proof.
  intros [a1 a2] [b1 b2]. unfold pair_le. simpl. intros H1 H2.
  destruct (decide (a1 = b1)) as [->|Hne].
  - rewrite decide_True in H2 by done. f_equal. by apply (anti_symm String.le).
  - rewrite decide_False in H2 by done. exfalso. by apply Hne, (anti_symm String.le).
Qed.

Definition pair_key_le {A} (f : A → string * string) (x y : A) : Prop := pair_le (f x) (f y).
#[export] Instance pair_key_le_dec {A} (f : A → string * string) : RelDecision (pair_key_le f).
Proof. intros x y. apply pair_le_dec. Defined.
#[export] Instance pair_key_le_total {A} (f : A → string * string) : Total (pair_key_le f).
Proof. intros x y. apply (total pair_le). Qed.
#[export] Instance pair_key_le_trans {A} (f : A → string * string) : Transitive (pair_key_le f).
Proof. intros x y z. apply (transitivity (R := pair_le)). Qed.

Definition sort_by_pair {A} (f : A → string * string) (l : list A) : list A := merge_sort (pair_key_le f) l.

Lemma sort_by_pair_Permutation {A} (f : A → string * string) l : sort_by_pair f l ≡ₚ l.
Proof. apply merge_sort_Permutation. Qed.

Lemma elem_of_sort_by_pair {A} (f : A → string * string) x l : x ∈ sort_by_pair f l ↔ x ∈ l.
Proof. by rewrite sort_by_pair_Permutation. Qed.

(** Rows with distinct keys have one order. *)
Lemma sort_by_pair_perm_eq {A} (f : A → string * string) l1 l2 :
  (∀ x y, x ∈ l1 → y ∈ l1 → f x = f y → x = y) →
  l1 ≡ₚ l2 → sort_by_pair f l1 = sort_by_pair f l2.
Proof.
  intros Hinj Hp. eapply (StronglySorted_unique_strong (pair_key_le f)).
  - intros x y Hx Hy Hxy Hyx. apply Hinj.
    + by rewrite <-(sort_by_pair_Permutation f l1).
    + rewrite (sort_by_pair_Permutation f l2) in Hy. by rewrite Hp.
    + by apply (anti_symm pair_le).
  - apply (StronglySorted_merge_sort (pair_key_le f)).
  - apply (StronglySorted_merge_sort (pair_key_le f)).
  - by rewrite !sort_by_pair_Permutation.
Qed.

(** ** Applied rows ([deployment_ops.go]) *)

Inductive store_error := ErrNoRows | ErrConstraint.

Definition ar_key (r : AppliedResource) : string * string * string := (ar_Kind r, ar_Name r, ar_Env r).

Definition upsertAppliedResource (r : AppliedResource) (t : DeployTables) : DeployTables :=
  with_resources t (<[ar_key r := r]> (applied_resources t)).

Definition getAppliedResource (env : string) (id : ResourceID) (t : DeployTables)
    : res store_error AppliedResource :=
  match applied_resources t !! (rid_Kind id, rid_Name id, env) with
  | Some r => Ok r
  | None => Err ErrNoRows
  end.

Definition listAppliedResourcesByEnv (env : string) (t : DeployTables) : list AppliedResource :=
  sort_by_pair (λ r, (ar_Kind r, ar_Name r))
    (filter (λ r, ar_Env r = env) (snd <$> map_to_list (applied_resources t))).

Definition deleteAppliedResource (env : string) (id : ResourceID) (t : DeployTables) : DeployTables :=
  with_resources t (delete (rid_Kind id, rid_Name id, env) (applied_resources t)).

Definition upsertAppliedProject (p : AppliedProject) (t : DeployTables) : DeployTables :=
  with_projects t (<[(ap_ProjectName p, ap_Env p) := p]> (applied_projects t)).

Definition getAppliedProject (env projectName : string) (t : DeployTables) : res store_error AppliedProject :=
  match applied_projects t !! (projectName, env) with
  | Some p => Ok p
  | None => Err ErrNoRows
  end.

(** ** Artifacts and snapshots ([artifact_ops.go]) *)

Definition IsZero (t : Time) : bool := (t_unix t =? -62135596800) && (t_nsec t =? 0).

Definition created (at_ now : Time) : Time := if IsZero at_ then now else at_.

(** [ON CONFLICT(digest) DO NOTHING]. *)
Definition putArtifact (now : Time) (a : DeploymentArtifact) (t : DeployTables) : DeployTables :=
  match deployment_artifacts t !! da_Digest a with
  | Some _ => t
  | None =>
      with_artifacts t (<[da_Digest a := mkDeploymentArtifact (da_Digest a) (da_Kind a)
        (da_FormatVersion a) (da_Payload a) (created (da_CreatedAt a) now)]> (deployment_artifacts t))
  end.

Definition getArtifact (digest : string) (t : DeployTables) : res store_error DeploymentArtifact :=
  match deployment_artifacts t !! digest with Some a => Ok a | None => Err ErrNoRows end.

Definition putSnapshot (now : Time) (s : DeploymentSnapshot) (t : DeployTables) : DeployTables :=
  match deployment_snapshots t !! ds_Digest s with
  | Some _ => t
  | None =>
      with_snapshots t (<[ds_Digest s := mkDeploymentSnapshot (ds_Digest s) (ds_FormatVersion s)
        (ds_CompilerVersion s) (ds_Environment s) (ds_GraphDigest s) (ds_ExecutionIRDigest s)
        (ds_CapabilityManifestDigest s) (ds_SchemaBundleDigest s)
        (created (ds_CreatedAt s) now)]> (deployment_snapshots t))
  end.

Definition getSnapshot (digest : string) (t : DeployTables) : res store_error DeploymentSnapshot :=
  match deployment_snapshots t !! digest with Some s => Ok s | None => Err ErrNoRows end.

Definition setCurrentSnapshot (env digest : string) (t : DeployTables) : DeployTables :=
  with_env_current t (<[env := digest]> (deployment_env_current t)).

Definition currentSnapshotDigestForEnv (env : string) (t : DeployTables) : res store_error string :=
  match deployment_env_current t !! env with Some d => Ok d | None => Err ErrNoRows end.

(** The digests a snapshot row refers to; empty columns refer to nothing. *)
Definition snapshot_refs (s : DeploymentSnapshot) : list string :=
  filter (λ d, d ≠ "") [ds_GraphDigest s; ds_ExecutionIRDigest s; ds_CapabilityManifestDigest s;
                        ds_SchemaBundleDigest s].

(** The two DELETE statements; [run_digests] is the column
    [deployment_snapshot_digest] of the table of runs. *)
Definition pruneUnreferencedArtifacts (run_digests : list string) (t : DeployTables) : DeployTables * Z :=
  let pinned := filter (λ d, d ≠ "") run_digests in
  let current := snd <$> map_to_list (deployment_env_current t) in
  let snaps := filter (λ '(d, _), d ∈ pinned ∨ d ∈ current) (deployment_snapshots t) in
  let refs := (snd <$> map_to_list snaps) ≫= snapshot_refs in
  let arts := filter (λ '(d, _), d ∈ refs) (deployment_artifacts t) in
  (with_artifacts (with_snapshots t snaps) arts,
   Z.of_nat (size (deployment_snapshots t) - size snaps) +
   Z.of_nat (size (deployment_artifacts t) - size arts)).

(** ** Transactions ([deployment_tx.go]) *)

(** [RunDeploymentTx]: the function works on the transaction; its error rolls
    everything back. *)
Definition RunDeploymentTx {E} (fn : DeployTables → res E DeployTables) (t : DeployTables)
    : DeployTables * option E :=
  match fn t with
  | Ok t' => (t', None)
  | Err e => (t, Some e)
  end.

(** ** Laws of the rows *)

Definition tables_wf (t : DeployTables) : Prop :=
  (∀ k r, applied_resources t !! k = Some r → ar_key r = k) ∧
  (∀ k p, applied_projects t !! k = Some p → (ap_ProjectName p, ap_Env p) = k) ∧
  (∀ d a, deployment_artifacts t !! d = Some a → da_Digest a = d) ∧
  (∀ d s, deployment_snapshots t !! d = Some s → ds_Digest s = d).

Lemma tables_wf_empty : tables_wf empty_tables.
Proof. unfold tables_wf. simpl. by setoid_rewrite lookup_empty. Qed.

Lemma elem_of_listed env t r :
  tables_wf t →
  r ∈ listAppliedResourcesByEnv env t ↔
  ar_Env r = env ∧ applied_resources t !! (ar_Kind r, ar_Name r, env) = Some r.
Proof.
  intros (Hw & _). unfold listAppliedResourcesByEnv.
  rewrite elem_of_sort_by_pair, list_elem_of_filter, list_elem_of_fmap. split.
  - intros [He ([k r'] & -> & Hin)]. split; [done|]. apply elem_of_map_to_list in Hin.
    pose proof (Hw _ _ Hin) as Hk. unfold ar_key in Hk. simpl in *. subst. done.
  - intros [He Hl]. split; [done|]. exists ((ar_Kind r, ar_Name r, env), r). split; [done|].
    by apply elem_of_map_to_list.
Qed.

Lemma listed_ids_NoDup env t :
  tables_wf t → NoDup ((λ r, (ar_Kind r, ar_Name r)) <$> listAppliedResourcesByEnv env t).
Proof.
  intros (Hw & _). unfold listAppliedResourcesByEnv. rewrite sort_by_pair_Permutation.
  assert (∀ l : list (string * string * string * AppliedResource),
    NoDup (fst <$> l) → Forall (λ kr, ar_key kr.2 = kr.1) l →
    NoDup ((λ r, (ar_Kind r, ar_Name r)) <$> filter (λ r, ar_Env r = env) (snd <$> l))) as H.
  { induction l as [|[k r] l IH]; [constructor|]. rewrite !fmap_cons. intros [Hk Hn]%NoDup_cons [Hr Hl]%Forall_cons.
    rewrite filter_cons. case_decide as He; [|by apply IH]. rewrite fmap_cons. constructor; [|by apply IH].
    intros (r' & E & [He' Hin]%list_elem_of_filter)%list_elem_of_fmap.
    apply list_elem_of_fmap in Hin as ([k' ?] & -> & Hin). simpl in *. apply Hk.
    apply list_elem_of_fmap. exists (k', a). split; [|done]. rewrite Forall_forall in Hl.
    rewrite <-(Hl _ Hin : ar_key a = k'), <-Hr. unfold ar_key. simpl. injection E as -> ->. congruence. }
  apply H; [apply NoDup_fst_map_to_list|].
  apply Forall_forall. intros [k r] Hin%elem_of_map_to_list. by apply Hw.
Qed.
