(* ===== verification/PlanDiff.v ===== *)
(** * Field changes of a plan ([internal/plan/diff.go])

    The comparison of two decoded JSON documents behind an update operation.  The
    recursion of [diffAny] is on fuel; the depth of the old document is enough of
    it ([diffAny_eq]).  A document of [json.Unmarshal] is a well-formed value that
    marshals again ([decoded]). *)

From S2P Require Import Prelude GoNum GoText Value JsonText RuneText.

(** [FieldChange] of [plan.go]. *)
Record FieldChange := mkFieldChange { fc_Path : string; fc_Old : string; fc_New : string }.

Definition joinPath (prefix key : string) : string :=
  if (prefix =? "")%string then key else prefix +:+ ("." +:+ key).

(** The keys of both maps, once each; the caller sorts them. *)
Definition unionStringKeys (a b : list (string * value)) : list string :=
  dedup id ((fst <$> a) ++ (fst <$> b)).

Definition formatJSONValue (v : value) : string :=
  match v with
  | VNil => "null"
  | _ => match json_marshal v with Some s => s | None => fmt_v v end
  end.

Definition jsonEqual (a b : value) : bool :=
  match a, b with
  | VNil, VNil => true
  | VNil, _ | _, VNil => false
  | _, _ =>
      match json_marshal a, json_marshal b with
      | Some aj, Some bj => (aj =? bj)%string
      | _, _ => false
      end
  end.

(** One position of an object or an array: absent before, absent after, or in both. *)
Definition diffEntry (rec : string → value → value → list FieldChange) (p : string)
    (ov nv : option value) : list FieldChange :=
  match ov, nv with
  | None, None => []
  | None, Some nv => [mkFieldChange p "" (formatJSONValue nv)]
  | Some ov, None => [mkFieldChange p (formatJSONValue ov) ""]
  | Some ov, Some nv => rec p ov nv
  end.

Definition diffObject (rec : string → value → value → list FieldChange) (prefix : string)
    (oldM newM : list (string * value)) : list FieldChange :=
  sort_strings (unionStringKeys oldM newM) ≫=
    λ k, diffEntry rec (joinPath prefix k) (map_get oldM k) (map_get newM k).

Definition diffArray (rec : string → value → value → list FieldChange) (prefix : string)
    (oldA newA : list value) : list FieldChange :=
  if jsonEqual (VList oldA) (VList newA) then [] else
  seq 0 (Nat.max (length oldA) (length newA)) ≫=
    λ i, diffEntry rec (joinPath prefix (pretty i)) (oldA !! i) (newA !! i).

Fixpoint diffAny_go (fuel : nat) (path : string) (oldV newV : value) : list FieldChange :=
  match fuel with
  | O => []
  | S fuel =>
      if jsonEqual oldV newV then [] else
      match oldV, newV with
      | VMap oldM, VMap newM => diffObject (diffAny_go fuel) path oldM newM
      | VList oldA, VList newA => diffArray (diffAny_go fuel) path oldA newA
      | _, _ => [mkFieldChange path (formatJSONValue oldV) (formatJSONValue newV)]
      end
  end.

Fixpoint depth (v : value) : nat :=
  match v with
  | VList l => S (foldr (λ x n, Nat.max (depth x) n) 0 l)
  | VMap m => S (foldr (λ kv n, Nat.max (depth kv.2) n) 0 m)
  | _ => 1
  end.

Definition diffAny (path : string) (oldV newV : value) : list FieldChange :=
  diffAny_go (depth oldV) path oldV newV.

(** [json.Unmarshal] into an [any] is a parameter. *)
Definition jsonDiff {E} (Unmarshal : string → res E value) (oldJSON newJSON : string)
    : res E (list FieldChange) :=
  if (oldJSON =? newJSON)%string then Ok []
  else oldV ← Unmarshal oldJSON; newV ← Unmarshal newJSON; mret (diffAny "" oldV newV).

(** ** Fuel *)

Lemma depth_list l x : x ∈ l → depth x < depth (VList l).
Proof.
  simpl. induction l as [|y l IH]; [by intros ?%elem_of_nil|].
  intros [->|Hx%IH]%elem_of_cons; simpl; lia.
Qed.

Lemma depth_map m k x : map_get m k = Some x → depth x < depth (VMap m).
Proof.
  intros H%map_get_elem. simpl. induction m as [|kv m IH]; [by apply elem_of_nil in H|].
  apply elem_of_cons in H as [<-|Hx%IH]; simpl; lia.
Qed.

Lemma diffAny_go_enough n m path o nw :
  depth o ≤ n → depth o ≤ m → diffAny_go n path o nw = diffAny_go m path o nw.
Proof.
  revert m path o nw. induction n as [|n IH]; intros m path o nw Hn Hm.
  { destruct o; simpl in Hn; lia. }
  destruct m as [|m]; [destruct o; simpl in Hm; lia|]. cbn [diffAny_go].
  destruct (jsonEqual o nw); [done|]. destruct o as [| | | | |ol|om], nw as [| | | | |nl|nm]; try done.
  - unfold diffArray. case_match; [done|]. apply list_bind_ext; [|done]. intros i.
    unfold diffEntry. destruct (ol !! i) as [ov|] eqn:E, (nl !! i); try done.
    apply list_elem_of_lookup_2, depth_list in E. apply IH; lia.
  - unfold diffObject. apply list_bind_ext; [|done]. intros k.
    unfold diffEntry. destruct (map_get om k) as [ov|] eqn:E, (map_get nm k); try done.
    apply depth_map in E. apply IH; lia.
Qed.

(** The equation of the source. *)
Lemma diffAny_eq path o nw :
  diffAny path o nw =
  if jsonEqual o nw then [] else
  match o, nw with
  | VMap om, VMap nm => diffObject diffAny path om nm
  | VList ol, VList nl => diffArray diffAny path ol nl
  | _, _ => [mkFieldChange path (formatJSONValue o) (formatJSONValue nw)]
  end.
Proof.
  unfold diffAny at 1. destruct (depth o) as [|n] eqn:Hd; [by destruct o|]. cbn [diffAny_go].
  destruct (jsonEqual o nw); [done|]. destruct o as [| | | | |ol|om], nw as [| | | | |nl|nm]; try done.
  - unfold diffArray. case_match; [done|]. apply list_bind_ext; [|done]. intros i.
    unfold diffEntry. destruct (ol !! i) as [ov|] eqn:E, (nl !! i); try done.
    apply list_elem_of_lookup_2, depth_list in E. apply diffAny_go_enough; lia.
  - unfold diffObject. apply list_bind_ext; [|done]. intros k.
    unfold diffEntry. destruct (map_get om k) as [ov|] eqn:E, (map_get nm k); try done.
    apply depth_map in E. apply diffAny_go_enough; lia.
Qed.

(** ** Positions *)

(** The element a path of keys and indices leads to. *)
Fixpoint value_at (v : value) (segs : list string) : option value :=
  match segs with
  | [] => Some v
  | s :: segs =>
      match v with
      | VMap m => x ← map_get m s; value_at x segs
      | VList l => '(_, i) ← list_find (λ i : nat, pretty i = s) (seq 0 (length l));
                   x ← l !! i; value_at x segs
      | _ => None
      end
  end.

Lemma value_at_index l i segs :
  value_at (VList l) (pretty i :: segs) = x ← l !! i; value_at x segs.
Proof.
  cbn [value_at]. destruct (decide (i < length l)) as [Hi|Hi].
  - assert (list_find (λ j : nat, pretty j = pretty i) (seq 0 (length l)) = Some (i, i)) as ->; [|done].
    apply list_find_Some. split; [by rewrite lookup_seq_lt|]. split; [done|].
    intros j y Hj Hlt E%(inj pretty). apply lookup_seq in Hj. lia.
  - rewrite (lookup_ge_None_2 l i) by lia. cbn.
    assert (list_find (λ j : nat, pretty j = pretty i) (seq 0 (length l)) = None) as ->; [|done].
    apply list_find_None, Forall_forall. intros j Hj%elem_of_seq E%(inj pretty). lia.
Qed.

(** ** Decoded documents *)

Inductive decoded : value → Prop :=
  | dec_nil : decoded VNil
  | dec_bool b : decoded (VBool b)
  | dec_float s m e : decoded (VFloat (FFin s m e))
  | dec_str s : decoded (VStr s)
  | dec_list l : Forall decoded l → decoded (VList l)
  | dec_map m : StronglySorted slt (fst <$> m) → Forall (λ kv, decoded kv.2) m → decoded (VMap m).

Lemma decoded_marshals v : decoded v → is_Some (json_marshal v).
Proof.
  induction v as [|b|i|f|t|l IH|m IH] using value_nested_ind; inversion 1; subst; try by eexists.
  - cbn [json_marshal json_float]. by destruct (shortest s m e).
  - rewrite json_marshal_VList. apply fmap_is_Some, mapM_is_Some.
    rewrite Forall_forall in *. auto.
  - rewrite json_marshal_VMap. apply fmap_is_Some, mapM_is_Some.
    rewrite Forall_forall in *. intros kv Hkv. unfold json_field. apply fmap_is_Some. eauto.
Qed.

Lemma decoded_get m k v : decoded (VMap m) → map_get m k = Some v → decoded v.
Proof. inversion 1; subst. intros Hg%map_get_elem. rewrite Forall_forall in *. by apply (H2 (k, v)). Qed.

Lemma decoded_lookup l i v : decoded (VList l) → l !! i = Some v → decoded v.
Proof. inversion 1; subst. intros Hg. by eapply Forall_lookup_1. Qed.

(** ** Only nil is spelled [null] *)

Definition not_n (c : ascii) : bool := negb (Ascii.eqb c "n"%char).

Lemma digits_not_n s : str_forall is_digit s = true → str_forall not_n s = true.
Proof.
  induction s as [|c s IH]; [done|]. simpl. rewrite !andb_true_iff. intros [Hc ?%IH]. split; [|done].
  unfold not_n. destruct (Ascii.eqb_spec c "n"%char) as [->|]; done.
Qed.

Lemma pretty_not_n (d : N) : str_forall not_n (pretty d) = true.
Proof. apply digits_not_n, pretty_N_digits. Qed.
Lemma zeros_not_n n : str_forall not_n (zeros n) = true.
Proof. by induction n. Qed.

Ltac not_n_parts :=
  repeat first [rewrite str_forall_app; apply andb_true_intro; split | progress case_match
    | progress case_decide | apply substring_forall | apply pretty_not_n | apply zeros_not_n | done].

Lemma json_float_not_n f s : json_float f = Some s → str_forall not_n s = true.
Proof.
  destruct f as [| |neg m e]; try done. cbn [json_float]. destruct (shortest neg m e) as [d p].
  intros [= <-]. rewrite str_forall_app. apply andb_true_intro. split; [by destruct neg|].
  case_match; [unfold fmt_e_json|unfold fmt_f]; not_n_parts.
Qed.

Lemma marshal_null v : json_marshal v = Some "null" → v = VNil.
Proof.
  destruct v as [|b|i|f|s|l|m]; intros H; try done.
  - by destruct b.
  - injection H as H. exfalso.
    assert (str_forall not_n (fmt_Z i) = true) as Hn; [|by rewrite H in Hn].
    unfold fmt_Z. destruct i as [|p|p]; [done|apply pretty_not_n|].
    change (pretty (Z.neg p)) with ("-" +:+ pretty (N.pos p)). by rewrite str_forall_app, pretty_not_n.
  - by apply json_float_not_n in H.
  - rewrite json_marshal_VList in H. by apply fmap_Some in H as (ss & _ & ?).
  - rewrite json_marshal_VMap in H. by apply fmap_Some in H as (ss & _ & ?).
Qed.

Lemma jsonEqual_marshal a b : jsonEqual a b = true → json_marshal a = json_marshal b.
Proof.
  unfold jsonEqual. destruct (json_marshal a) as [x|] eqn:Ea, (json_marshal b) as [y|] eqn:Eb;
    destruct a, b; simplify_eq; try done; by intros ->%String.eqb_eq.
Qed.

Lemma jsonEqual_iff a b :
  decoded a → decoded b → jsonEqual a b = true ↔ json_marshal a = json_marshal b.
Proof.
  intros [x Ha]%decoded_marshals [y Hb]%decoded_marshals. split; [apply jsonEqual_marshal|].
  intros E. assert (x = y) as <- by congruence.
  destruct (decide (a = VNil)) as [->|Hna].
  { injection Ha as <-. by apply marshal_null in Hb as ->. }
  destruct (decide (b = VNil)) as [->|Hnb].
  { injection Hb as <-. by apply marshal_null in Ha. }
  unfold jsonEqual. rewrite Ha, Hb, String.eqb_refl. by destruct a, b.
Qed.

Lemma format_decoded v : decoded v → json_marshal v = Some (formatJSONValue v).
Proof.
  intros [s Hs]%decoded_marshals. unfold formatJSONValue. destruct v; [done|by rewrite Hs..].
Qed.

Lemma string_app_nil (s t : string) : s +:+ t = "" → s = "" ∧ t = "".
Proof. destruct s; [by rewrite string_app_nil_l|done]. Qed.

Lemma format_ne v : decoded v → formatJSONValue v ≠ "".
Proof.
  intros Hd%format_decoded E. rewrite E in Hd. destruct v as [|b|i|f|s|l|m]; try done.
  - by destruct b.
  - cbn [json_marshal] in Hd. injection Hd as Hd. unfold fmt_Z in Hd. destruct i as [|p|p]; try done.
    by apply (pretty_nat_ne (Pos.to_nat p)); unfold pretty, pretty_nat; rewrite positive_nat_N.
  - cbn [json_marshal] in Hd. destruct f as [| |neg m e]; try done. cbn [json_float] in Hd.
    destruct (shortest neg m e) as [d p].
    assert (∀ x : N, pretty x ≠ "") as Hp.
    { intros x. rewrite <-(N2Nat.id x). apply (pretty_nat_ne (N.to_nat x)). }
    destruct neg; [done|]. injection Hd as Hd. revert Hd. unfold sign_str. rewrite string_app_nil_l.
    case_match; [unfold fmt_e_json|unfold fmt_f]; repeat case_match; intros Hd;
      repeat (apply string_app_nil in Hd as [Hd1 Hd]); try done; by apply Hp in Hd1.
  - rewrite json_marshal_VList in Hd. by apply fmap_Some in Hd as (ss & _ & ?).
  - rewrite json_marshal_VMap in Hd. by apply fmap_Some in Hd as (ss & _ & ?).
Qed.

(** ** An empty list of changes *)

(** Sorted objects that agree key by key agree field by field. *)
Lemma sorted_agree (R : value → value → Prop) (m1 m2 : list (string * value)) :
  StronglySorted slt (fst <$> m1) → StronglySorted slt (fst <$> m2) →
  (∀ k, option_relation R (λ _, False) (λ _, False) (map_get m1 k) (map_get m2 k)) →
  Forall2 (λ a b, a.1 = b.1 ∧ R a.2 b.2) m1 m2.
Proof.
  revert m2. induction m1 as [|[k1 v1] m1 IH]; intros [|[k2 v2] m2] H1 H2 Hag.
  - constructor.
  - specialize (Hag k2). simpl in Hag. by rewrite decide_True in Hag.
  - specialize (Hag k1). simpl in Hag. by rewrite decide_True in Hag.
  - rewrite !fmap_cons in H1, H2. apply StronglySorted_inv in H1 as [H1 F1], H2 as [H2 F2]. simpl in F1, F2.
    rewrite Forall_forall in F1, F2.
    assert (∀ (m : list (string * value)) k k', (∀ x, x ∈ fst <$> m → slt k x) → String.le k' k →
      map_get m k' = None) as Hnone.
    { intros m k k' Hm Hle. apply map_get_None. intros Hin. destruct (Hm _ Hin) as [Hk Hne].
      apply Hne. by apply (anti_symm String.le). }
    assert (k1 = k2) as <-.
    { destruct (decide (k1 = k2)) as [|Hne]; [done|]. exfalso.
      destruct (total String.le k1 k2) as [Hle|Hle].
      - specialize (Hag k1). simpl in Hag. rewrite decide_True, decide_False in Hag by done.
        by rewrite (Hnone m2 k2 k1 F2 Hle) in Hag.
      - specialize (Hag k2). simpl in Hag. rewrite decide_False, decide_True in Hag by done.
        by rewrite (Hnone m1 k1 k2 F1 Hle) in Hag. }
    pose proof (Hag k1) as Hk. simpl in Hk. rewrite !decide_True in Hk by done.
    constructor; [by split|]. apply IH; [done..|]. intros k. specialize (Hag k). simpl in Hag.
    destruct (decide (k1 = k)) as [<-|]; [|done].
    by rewrite (Hnone m1 k1 k1 F1), (Hnone m2 k1 k1 F2).
Qed.

Lemma mapM_field_eq m1 m2 :
  Forall2 (λ a b : string * value, a.1 = b.1 ∧ json_marshal a.2 = json_marshal b.2) m1 m2 →
  json_marshal (VMap m1) = json_marshal (VMap m2).
Proof.
  intros H. rewrite !json_marshal_VMap. f_equal. induction H as [|[k x] [k' y] m1 m2 [Ek E] _ IH]; [done|].
  simpl in Ek, E. subst k'.
  assert (json_field (k, x) = json_field (k, y)) as Hf by (unfold json_field; simpl in *; by rewrite E).
  cbn [mapM]. by rewrite Hf, IH.
Qed.

Lemma mapM_item_eq l1 l2 :
  Forall2 (λ a b, json_marshal a = json_marshal b) l1 l2 → json_marshal (VList l1) = json_marshal (VList l2).
Proof.
  intros H. rewrite !json_marshal_VList. f_equal. induction H as [|x y l1 l2 E _ IH]; [done|].
  cbn [mapM]. by rewrite E, IH.
Qed.

Lemma diffEntry_nil rec p (ov nv : option value) :
  diffEntry rec p ov nv = [] ↔
  (ov = None ∧ nv = None) ∨ ∃ a b, ov = Some a ∧ nv = Some b ∧ rec p a b = [].
Proof. destruct ov, nv; simpl; naive_solver. Qed.

Lemma elem_of_union_keys m1 m2 k :
  k ∈ sort_strings (unionStringKeys m1 m2) ↔ k ∈ fst <$> m1 ∨ k ∈ fst <$> m2.
Proof. rewrite elem_of_sort_strings. unfold unionStringKeys. by rewrite elem_of_dedup_id, elem_of_app. Qed.

Lemma diffObject_nil rec p m1 m2 :
  diffObject rec p m1 m2 = [] ↔ ∀ k, diffEntry rec (joinPath p k) (map_get m1 k) (map_get m2 k) = [].
Proof.
  unfold diffObject. rewrite bind_nil. split; [|naive_solver]. intros H k.
  destruct (decide (k ∈ sort_strings (unionStringKeys m1 m2))) as [Hin|Hout]; [by apply H|].
  rewrite elem_of_union_keys in Hout.
  assert (map_get m1 k = None ∧ map_get m2 k = None) as [H1 H2] by (rewrite !map_get_None; tauto).
  by rewrite H1, H2.
Qed.

Lemma diffArray_nil rec p l1 l2 :
  jsonEqual (VList l1) (VList l2) = false →
  diffArray rec p l1 l2 = [] ↔ ∀ i, diffEntry rec (joinPath p (pretty i)) (l1 !! i) (l2 !! i) = [].
Proof.
  intros He. unfold diffArray. rewrite He, bind_nil. split; [|naive_solver]. intros H i.
  destruct (decide (i < Nat.max (length l1) (length l2))) as [Hin|Hout].
  - apply H, elem_of_seq. lia.
  - by rewrite !lookup_ge_None_2 by lia.
Qed.

Lemma diff_nil_equal path o n :
  decoded o → decoded n → diffAny path o n = [] → jsonEqual o n = true.
Proof.
  revert path n. induction o as [|b|i|f|t|l IH|m IH] using value_nested_ind; intros path n Ho Hn;
    rewrite diffAny_eq; destruct (jsonEqual _ n) eqn:He; intros Hd; try done.
  - destruct n as [| | | | |l2|]; try done. rewrite diffArray_nil in Hd by done.
    rewrite <-He. apply jsonEqual_iff; [done..|]. apply mapM_item_eq.
    apply Forall2_same_length_lookup. split.
    + apply Nat.le_antisymm; apply Nat.nlt_ge; intros Hlt.
      * apply lookup_lt_is_Some in Hlt as Hs. destruct Hs as [x Hx].
        pose proof (proj1 (diffEntry_nil _ _ _ _) (Hd (length l2))) as Hz.
        rewrite Hx, (lookup_ge_None_2 l2 (length l2)) in Hz by lia. naive_solver.
      * apply lookup_lt_is_Some in Hlt as Hs. destruct Hs as [x Hx].
        pose proof (proj1 (diffEntry_nil _ _ _ _) (Hd (length l))) as Hz.
        rewrite Hx, (lookup_ge_None_2 l (length l)) in Hz by lia. naive_solver.
    + intros i x y Hx Hy. pose proof (proj1 (diffEntry_nil _ _ _ _) (Hd i)) as Hz.
      rewrite Hx, Hy in Hz. destruct Hz as [[? _]|(a & b & [= <-] & [= <-] & Hz)]; [done|].
      apply jsonEqual_marshal. rewrite Forall_lookup in IH.
      exact (IH i x Hx _ y (decoded_lookup _ _ _ Ho Hx) (decoded_lookup _ _ _ Hn Hy) Hz).
  - destruct n as [| | | | | |m2]; try done. rewrite diffObject_nil in Hd.
    rewrite <-He. apply jsonEqual_iff; [done..|]. apply mapM_field_eq.
    apply (sorted_agree (λ a b, json_marshal a = json_marshal b)); [by inversion Ho|by inversion Hn|]. intros k.
    pose proof (proj1 (diffEntry_nil _ _ _ _) (Hd k)) as [[-> ->]|(a & b & Ha & Hb & Hz)]; [done|].
    rewrite Ha, Hb. simpl. apply jsonEqual_marshal. rewrite Forall_forall in IH.
    exact (IH (k, a) (map_get_elem _ _ _ Ha) _ b (decoded_get _ _ _ Ho Ha) (decoded_get _ _ _ Hn Hb) Hz).
Qed.

(** ** Every change is a difference *)

Definition side (v : option value) : string :=
  match v with Some v => formatJSONValue v | None => "" end.

Definition is_change (path : string) (o n : value) (segs : list string) (fc : FieldChange) : Prop :=
  fc_Path fc = foldl joinPath path segs ∧ fc_Old fc = side (value_at o segs) ∧
  fc_New fc = side (value_at n segs) ∧ fc_Old fc ≠ fc_New fc.

Lemma diffEntry_change path seg o n ov nv fc :
  (∀ segs, value_at o (seg :: segs) = x ← ov; value_at x segs) →
  (∀ segs, value_at n (seg :: segs) = x ← nv; value_at x segs) →
  (∀ v, ov = Some v → decoded v) → (∀ v, nv = Some v → decoded v) →
  (∀ a b, ov = Some a → nv = Some b → ∀ fc, fc ∈ diffAny (joinPath path seg) a b →
     ∃ segs, is_change (joinPath path seg) a b segs fc) →
  fc ∈ diffEntry diffAny (joinPath path seg) ov nv → ∃ segs, is_change path o n segs fc.
Proof.
  intros Ho Hn Do Dn IH. destruct ov as [a|], nv as [b|]; cbn [diffEntry].
  - intros Hfc. destruct (IH a b eq_refl eq_refl fc Hfc) as (segs & Hp & Hold & Hnew & Hne).
    exists (seg :: segs). unfold is_change. rewrite Ho, Hn. done.
  - intros ->%list_elem_of_singleton. exists [seg]. unfold is_change. rewrite Ho, Hn. simpl.
    repeat split. by apply format_ne, Do.
  - intros ->%list_elem_of_singleton. exists [seg]. unfold is_change. rewrite Ho, Hn. simpl.
    repeat split. intros E. by apply (format_ne b); [apply Dn|].
  - by intros ?%elem_of_nil.
Qed.

Lemma leaf_change path o n :
  decoded o → decoded n → jsonEqual o n = false →
  is_change path o n [] (mkFieldChange path (formatJSONValue o) (formatJSONValue n)).
Proof.
  intros Ho Hn He. repeat split; simpl. intros E.
  assert (jsonEqual o n = true); [|congruence]. apply jsonEqual_iff; [done..|].
  rewrite (format_decoded o Ho), (format_decoded n Hn). by f_equal.
Qed.

Lemma diffAny_sound path o n fc :
  decoded o → decoded n → fc ∈ diffAny path o n → ∃ segs, is_change path o n segs fc.
Proof.
  revert path n fc. induction o as [|b|i|f|t|l IH|m IH] using value_nested_ind; intros path n fc Ho Hn;
    rewrite diffAny_eq; destruct (jsonEqual _ n) eqn:He; intros Hfc; try by apply elem_of_nil in Hfc.
  1-5: apply list_elem_of_singleton in Hfc as ->; exists []; by apply leaf_change.
  - destruct n as [| | | | |l2|]; try (apply list_elem_of_singleton in Hfc as ->; exists []; by apply leaf_change).
    unfold diffArray in Hfc. rewrite He in Hfc. apply list_elem_of_bind in Hfc as (i & Hfc & _).
    eapply diffEntry_change; [..|exact Hfc].
    + intros segs. apply value_at_index.
    + intros segs. apply value_at_index.
    + intros v. by apply decoded_lookup.
    + intros v. by apply decoded_lookup.
    + intros a b Ha Hb fc' Hfc'. rewrite Forall_lookup in IH.
      exact (IH i a Ha _ b fc' (decoded_lookup _ _ _ Ho Ha) (decoded_lookup _ _ _ Hn Hb) Hfc').
  - destruct n as [| | | | | |m2]; try (apply list_elem_of_singleton in Hfc as ->; exists []; by apply leaf_change).
    unfold diffObject in Hfc. apply list_elem_of_bind in Hfc as (k & Hfc & _).
    eapply diffEntry_change; [..|exact Hfc].
    + done.
    + done.
    + intros v. by apply decoded_get.
    + intros v. by apply decoded_get.
    + intros a b Ha Hb fc' Hfc'. rewrite Forall_forall in IH.
      exact (IH (k, a) (map_get_elem _ _ _ Ha) _ b fc' (decoded_get _ _ _ Ho Ha) (decoded_get _ _ _ Hn Hb) Hfc').
Qed.

(** The field changes of an update are exact.  For two decoded documents the
    list is empty just when they marshal to the same JSON, and every change names
    a position of the documents, with the JSON of the old and of the new element
    there (the empty text where one is absent), and those differ. *)
Theorem diffAny_exact o n :
  decoded o → decoded n →
  (diffAny "" o n = [] ↔ json_marshal o = json_marshal n) ∧
  ∀ fc, fc ∈ diffAny "" o n → ∃ segs, is_change "" o n segs fc.
Proof.
  intros Ho Hn. split; [|intros fc; by apply diffAny_sound].
  rewrite <-jsonEqual_iff by done. split; [by apply diff_nil_equal|].
  intros E. by rewrite diffAny_eq, E.
Qed.

Definition diff_old : value :=
  VMap [("a", VList [VFloat (FFin false 4503599627370496 (-52)); VBool true]); ("b", VNil)].
Definition diff_new : value :=
  VMap [("a", VList [VFloat (FFin false 4503599627370496 (-51)); VBool true; VStr "x"]); ("c", VStr "")].

Lemma diffAny_exact_witness :
  (diffAny "" diff_old diff_new = [] ↔ json_marshal diff_old = json_marshal diff_new) ∧
  ∀ fc, fc ∈ diffAny "" diff_old diff_new → ∃ segs, is_change "" diff_old diff_new segs fc.
Proof.
  apply diffAny_exact; repeat constructor; vm_compute; congruence.
Defined.

Example diff_example :
  diffAny "" diff_old diff_new =
  [mkFieldChange "a.0" "1" "2"; mkFieldChange "a.2" "" (json_quote "x");
   mkFieldChange "b" "null" ""; mkFieldChange "c" "" (json_quote "")].
Proof. vm_compute. reflexivity. Qed.

(** The printed path does not determine the position: keys may hold dots, and an
    empty key at the top is not seen at all. *)
Lemma diff_paths_ambiguous :
  let new := VMap [("a", VMap [("b", VBool true)]); ("a.b", VBool false)] in
  let old := VMap [("a", VMap []); ("a.b", VBool true)] in
  diffAny "" old new =
    [mkFieldChange "a.b" "" "true"; mkFieldChange "a.b" "true" "false"] ∧
  joinPath (joinPath "" "") "k" = joinPath "" "k".
Proof. vm_compute. done. Qed.
