(* ===== verification/Planner.v ===== *)
(** * The planner ([internal/plan/planner.go], [fingerprint.go], [digest.go],
      [workflow_hash.go], [runtime_target.go], [project_meta.go])

    A project graph becomes one desired row per resource; the plan is what turns
    the applied rows of an environment into them.  What a planner needs of the
    store is the class [DeploymentStore] with its laws; [StateStore]'s tables are
    an instance.  Parameters are [json.Marshal] and [json.Unmarshal] on the typed
    envelopes (the planner reads nothing of an envelope but its name and, of a
    workflow, its runtime) and SHA-256.  Risk, lint and the effect sections of a
    plan are not part of the record: they never make [ComputePlan] fail. *)

From S2P Require Import Prelude GoNum GoText Value JsonText ExecIR ExecDigest ExecBounds AuditChain StateStore PlanDiff.

Local Open Scope Z_scope.

(** ** The store a planner reads ([state.DeploymentStore]) *)

Class DeploymentStore (S : Type) := {
  UpsertAppliedResource : AppliedResource → S → S;
  GetAppliedResource : string → ResourceID → S → option AppliedResource;
  ListAppliedResourcesByEnv : string → S → list AppliedResource;
  DeleteAppliedResource : string → ResourceID → S → S;
  UpsertAppliedProject : AppliedProject → S → S;
  GetAppliedProject : string → string → S → option AppliedProject;
}.

Definition row_id (r : AppliedResource) : ResourceID := mkResourceID (ar_Kind r) (ar_Name r).
Definition row_key (r : AppliedResource) : string * string := (ar_Kind r, ar_Name r).

(** What the planner and [apply] rely on; [ok] is the store's own invariant. *)
Class DeploymentStoreLaws (S : Type) `{DeploymentStore S} (ok : S → Prop) : Prop := {
  ok_upsert r s : ok s → ok (UpsertAppliedResource r s);
  ok_delete env id s : ok s → ok (DeleteAppliedResource env id s);
  ok_upsert_project p s : ok s → ok (UpsertAppliedProject p s);
  get_upsert env id r s : ok s →
    GetAppliedResource env id (UpsertAppliedResource r s) =
    if decide (env = ar_Env r ∧ id = row_id r) then Some r else GetAppliedResource env id s;
  get_delete env env' id id' s : ok s →
    GetAppliedResource env id (DeleteAppliedResource env' id' s) =
    if decide (env = env' ∧ id = id') then None else GetAppliedResource env id s;
  get_upsert_project env id p s :
    GetAppliedResource env id (UpsertAppliedProject p s) = GetAppliedResource env id s;
  project_upsert_resource env n r s :
    GetAppliedProject env n (UpsertAppliedResource r s) = GetAppliedProject env n s;
  project_delete_resource env n env' id s :
    GetAppliedProject env n (DeleteAppliedResource env' id s) = GetAppliedProject env n s;
  project_upsert env n p s :
    GetAppliedProject env n (UpsertAppliedProject p s) =
    if decide (n = ap_ProjectName p ∧ env = ap_Env p) then Some p else GetAppliedProject env n s;
  elem_of_list env s r : ok s →
    r ∈ ListAppliedResourcesByEnv env s ↔ ar_Env r = env ∧ GetAppliedResource env (row_id r) s = Some r;
  list_NoDup env s : ok s → NoDup (row_key <$> ListAppliedResourcesByEnv env s);
  get_row env id s r : ok s → GetAppliedResource env id s = Some r → ar_Env r = env ∧ row_id r = id;
}.

#[export] Instance tables_store : DeploymentStore DeployTables := {
  UpsertAppliedResource := upsertAppliedResource;
  GetAppliedResource env id t := res_to_option (getAppliedResource env id t);
  ListAppliedResourcesByEnv := listAppliedResourcesByEnv;
  DeleteAppliedResource := deleteAppliedResource;
  UpsertAppliedProject := upsertAppliedProject;
  GetAppliedProject env n t := res_to_option (getAppliedProject env n t);
}.

Lemma get_tables env id t :
  res_to_option (getAppliedResource env id t) = applied_resources t !! (rid_Kind id, rid_Name id, env).
Proof. unfold getAppliedResource. by case_match. Qed.
Lemma get_project_tables env n t :
  res_to_option (getAppliedProject env n t) = applied_projects t !! (n, env).
Proof. unfold getAppliedProject. by case_match. Qed.

#[export] Instance tables_laws : DeploymentStoreLaws DeployTables tables_wf.
Proof.
  split; cbn [UpsertAppliedResource GetAppliedResource ListAppliedResourcesByEnv DeleteAppliedResource
    UpsertAppliedProject GetAppliedProject tables_store].
  - intros r t (H1 & H2). split; [|done]. intros k r'. simpl. rewrite lookup_insert_Some. naive_solver.
  - intros env id t (H1 & H2). split; [|done]. intros k r'. simpl. rewrite lookup_delete_Some. naive_solver.
  - intros p t (H1 & H2 & H3). split; [done|]. split; [|done]. intros k p'. simpl.
    rewrite lookup_insert_Some. naive_solver.
  - intros env [k n] r t _. rewrite !get_tables. unfold row_id, ar_key. simpl. rewrite lookup_insert.
    unfold ar_key. repeat case_decide; naive_solver.
  - intros env env' [k n] [k' n'] t _. rewrite !get_tables. simpl. rewrite lookup_delete.
    repeat case_decide; naive_solver.
  - done.
  - done.
  - done.
  - intros env n p t. rewrite !get_project_tables. simpl. rewrite lookup_insert. repeat case_decide; naive_solver.
  - intros env t r Ht. rewrite get_tables, elem_of_listed by done. done.
  - intros env t Ht. by apply listed_ids_NoDup.
  - intros env [k n] t r (Ht & _). rewrite get_tables. intros Hl. apply Ht in Hl. unfold ar_key in Hl.
    unfold row_id. simpl in *. by simplify_eq.
Qed.

(** ** Hashes are trimmed text *)

(** A character no space sequence starts or ends with. *)
Definition solid (c : ascii) : bool :=
  forallb (λ p, negb (bool_decide (head p = Some c)) && negb (bool_decide (last p = Some c))) all_space_seqs.

Lemma strip_any_solid ps c l :
  (∀ p, p ∈ ps → ∃ d p', p = d :: p' ∧ d ≠ c) → strip_any ps (c :: l) = None.
Proof.
  intros H. apply strip_any_None. intros p l' Hp E. destruct (H p Hp) as (d & p' & -> & Hd).
  by injection E as -> _.
Qed.

Lemma seqs_nonempty : forallb (λ p, negb (bool_decide (p = []))) all_space_seqs = true.
Proof. vm_compute. reflexivity. Qed.

Lemma solid_left c l : solid c = true → strip_any all_space_seqs (c :: l) = None.
Proof.
  intros Hc. apply strip_any_solid. intros p Hp. unfold solid in Hc.
  pose proof (proj1 (forallb_forall _ _) seqs_nonempty p (proj1 (list_elem_of_In _ _) Hp)) as Hne.
  pose proof (proj1 (forallb_forall _ _) Hc p (proj1 (list_elem_of_In _ _) Hp)) as Hs.
  destruct p as [|d p]; [done|]. exists d, p. split; [done|]. intros ->.
  apply andb_true_iff in Hs as [Hs _]. by rewrite bool_decide_true in Hs.
Qed.

Lemma solid_right c l : solid c = true → strip_any (reverse <$> all_space_seqs) (c :: l) = None.
Proof.
  intros Hc. apply strip_any_solid. intros q (p & -> & Hp)%list_elem_of_fmap. unfold solid in Hc.
  pose proof (proj1 (forallb_forall _ _) seqs_nonempty p (proj1 (list_elem_of_In _ _) Hp)) as Hne.
  pose proof (proj1 (forallb_forall _ _) Hc p (proj1 (list_elem_of_In _ _) Hp)) as Hs.
  destruct p as [|d p] using rev_ind; [done|]. exists d, (reverse p). split; [by rewrite reverse_snoc|].
  intros ->. apply andb_true_iff in Hs as [_ Hs]. by rewrite last_snoc, bool_decide_true in Hs.
Qed.

Lemma trim_solid s : str_forall solid s = true → trim_space s = s.
Proof.
  intros Hs. unfold trim_space.
  assert (Forall (λ c, solid c = true) (String.list_ascii_of_string s)) as Hl.
  { induction s as [|c s IH]; simpl in *; [constructor|]. apply andb_true_iff in Hs as [??]. constructor; auto. }
  rewrite <-(String.string_of_list_ascii_of_string s) at 2. f_equal.
  set (l := String.list_ascii_of_string s) in *. clearbody l.
  assert (trim_left l = l) as ->.
  { unfold trim_left. destruct l as [|c l]; [done|]. apply Forall_cons in Hl as [Hc _].
    apply trim_go_id. by apply solid_left. }
  unfold trim_right. rewrite trim_go_id, reverse_involutive; [done|].
  destruct l as [|c l] using rev_ind; [done|]. rewrite reverse_snoc. apply solid_right.
  by apply Forall_app in Hl as [_ [Hc _]%Forall_cons].
Qed.

Lemma hashHex_solid sha256 s : str_forall solid (hashHex sha256 s) = true.
Proof.
  unfold hashHex, hex_encode. generalize (sha256 (String.list_ascii_of_string s)). intros l.
  assert (∀ c : ascii, solid (hex_digit (N_of_ascii c / 16)) && solid (hex_digit (N_of_ascii c mod 16)) = true) as Hd.
  { intros [[] [] [] [] [] [] [] []]; vm_compute; reflexivity. }
  induction l as [|c l IH]; [done|]. cbn [mbind list_bind app String.string_of_list_ascii str_forall].
  pose proof (Hd c) as Hc. apply andb_true_iff in Hc as [-> ->]. apply IH.
Qed.

Lemma trim_hashHex sha256 s : trim_space (hashHex sha256 s) = hashHex sha256 s.
Proof. apply trim_solid, hashHex_solid. Qed.

(** ** Graphs *)

Definition KindProject : string := "Project".
Definition KindAgent : string := "Agent".
Definition KindTool : string := "Tool".
Definition KindWorkflow : string := "Workflow".
Definition KindPolicy : string := "Policy".
Definition KindEnvironment : string := "Environment".

(** A resource: the name in its metadata and the envelope that is marshalled. *)
Record Resource (V : Type) := mkResource { r_Name : string; r_Envelope : V }.
Arguments mkResource {V}.
Arguments r_Name {V}.
Arguments r_Envelope {V}.

Record WorkflowResource (V : Type) := mkWorkflowResource { w_Resource : Resource V; w_Runtime : string }.
Arguments mkWorkflowResource {V}.
Arguments w_Resource {V}.
Arguments w_Runtime {V}.

(** The [ProjectGraph] as the planner sees it: the project resource assembled of
    [Meta] and [Spec], the default runtime, and the maps of pointers. *)
Record PlanGraph (V : Type) := mkPlanGraph {
  g_Project : Resource V;
  g_DefaultRuntime : option string;
  g_Agents : gmap string (option (Resource V));
  g_Tools : gmap string (option (Resource V));
  g_Workflows : gmap string (option (WorkflowResource V));
  g_Policies : gmap string (option (Resource V));
  g_Environments : gmap string (option (Resource V));
}.
Arguments mkPlanGraph {V}.
Arguments g_Project {V}.
Arguments g_DefaultRuntime {V}.
Arguments g_Agents {V}.
Arguments g_Tools {V}.
Arguments g_Workflows {V}.
Arguments g_Policies {V}.
Arguments g_Environments {V}.

Record desiredRow := mkDesired { d_id : ResourceID; d_json : string; d_hash : string; d_execDigest : string }.

(** ** Operations ([plan.go]) *)

Definition ActionCreate : string := "create".
Definition ActionUpdate : string := "update".
Definition ActionDelete : string := "delete".

Record Operation := mkOperation {
  op_Action : string; op_Target : ResourceID; op_Diff : list FieldChange;
  op_SpecHash : string; op_NormalizedSpecJSON : string;
}.

Record InvocationItem := mkInvocationItem {
  ii_Kind : string; ii_Callee : string; ii_Max : Z; ii_DataBounded : bool;
}.
Record WorkflowInvocationBounds := mkWorkflowInvocationBounds {
  wb_Workflow : string; wb_Bounds : list InvocationItem;
}.
Record RuntimeTargetItem := mkRuntimeTargetItem { rt_Workflow : string; rt_Runtime : string }.

Record Plan := mkPlan {
  pl_Operations : list Operation;
  pl_DeploymentBaseline : string;
  pl_InvocationBounds : list WorkflowInvocationBounds;
  pl_RuntimeTargets : list RuntimeTargetItem;
}.

Inductive plan_error (E : Type) :=
  | PMarshal (e : E)
  | PUnmarshal (e : E)
  | PEmptyEnv                      (* plan: empty env *)
  | PNoProject                     (* plan: desired graph has no Project resource *)
  | PEmptyFingerprint.             (* plan: empty env or project name *)
Arguments PMarshal {E}.
Arguments PUnmarshal {E}.
Arguments PEmptyEnv {E}.
Arguments PNoProject {E}.
Arguments PEmptyFingerprint {E}.

(** ** Order of operations *)

Definition action_order (a : string) : Z :=
  if (a =? ActionUpdate)%string then 1 else if (a =? ActionDelete)%string then 2 else 0.

Definition op_le (a b : Operation) : Prop :=
  let oi := action_order (op_Action a) in
  let oj := action_order (op_Action b) in
  if decide (oi = oj) then String.le (ResourceID_String (op_Target a)) (ResourceID_String (op_Target b))
  else oi < oj.
#[export] Instance op_le_dec : RelDecision op_le.
Proof. intros a b. unfold op_le. cbn zeta. destruct (decide (_ = _)); apply _. Defined.
#[export] Instance op_le_total : Total op_le.
Proof.
  intros a b. unfold op_le. cbn zeta. destruct (decide (action_order (op_Action a) = _)) as [E|].
  - rewrite decide_True by done. apply (total String.le).
  - rewrite decide_False by done. lia.
Qed.
#[export] Instance op_le_trans : Transitive op_le.
Proof.
  intros a b c. unfold op_le. cbn zeta.
  destruct (decide (action_order (op_Action a) = action_order (op_Action b)));
    destruct (decide (action_order (op_Action b) = action_order (op_Action c)));
    destruct (decide (action_order (op_Action a) = action_order (op_Action c))); try lia.
  apply transitivity.
Qed.

Definition sortOperations (ops : list Operation) : list Operation := merge_sort op_le ops.

(** ** Runtime targets ([runtime_target.go]) *)

Definition NameLocal : string := "local".   (* internal/runtime/catalog *)

Definition effectiveRuntime (explicit projectDefault : string) : string :=
  let r := trim_space explicit in
  if negb (r =? "")%string then r else
  let r := trim_space projectDefault in
  if negb (r =? "")%string then r else NameLocal.

Section graph.
Context {V : Type}.

Definition projectDefaultRuntime (g : PlanGraph V) : string :=
  match g_DefaultRuntime g with Some r => trim_space r | None => "" end.

Definition resolveWorkflowRuntime (g : PlanGraph V) (wf : option (WorkflowResource V)) : string :=
  effectiveRuntime (match wf with Some wf => w_Runtime wf | None => "" end) (projectDefaultRuntime g).

Definition workflowRuntimeTargets (g : PlanGraph V) : list RuntimeTargetItem :=
  (λ name, mkRuntimeTargetItem name (resolveWorkflowRuntime g (g_Workflows g !! name ≫= id)))
    <$> sorted_keys (g_Workflows g).

(** ** Invocation bounds *)

Definition DefaultMaxLoopIterations : Z := 1000.   (* internal/spec/limits.go *)

Definition invocationBounds (execs : gmap string (option program)) : list WorkflowInvocationBounds :=
  sorted_keys execs ≫= λ name,
    let bounds := InvocationBounds (execs !! name ≫= id) DefaultMaxLoopIterations in
    if existsb (λ b, (1 <? Max b) || DataBounded b) bounds
    then [mkWorkflowInvocationBounds name
            ((λ b, mkInvocationItem (Kind b) (Callee b) (Max b) (DataBounded b)) <$> bounds)]
    else [].

Section plan.
Context (is_print : chars → bool) (sha256 : chars → chars).
Context {E : Type} (Marshal : V → res E string) (Unmarshal : string → res E value).

(** ** Hashes *)

Definition SpecHashHex (canonicalJSON : string) : string := hashHex sha256 canonicalJSON.

Definition canonicalResourceJSON (v : V) : res (plan_error E) string :=
  match Marshal v with Ok s => Ok s | Err e => Err (PMarshal e) end.

(** What is hashed for a workflow. *)
Definition foldedSpec (raw execDigest : string) : string :=
  if (execDigest =? "")%string then raw
  else raw +:+ (String "010" ("execir:" +:+ execDigest)).

Definition WorkflowSpecHashWithExec (wf : V) (execDigest : string) : res (plan_error E) string :=
  raw ← canonicalResourceJSON wf; mret (SpecHashHex (foldedSpec raw execDigest)).

Definition WorkflowSpecHash (wf : V) : res (plan_error E) string := WorkflowSpecHashWithExec wf "".

(** ** Desired rows *)

Definition digestOf (p : option program) : string :=
  match p with Some p => Digest is_print sha256 (Some p) | None => "" end.

Definition appendDesired (id : ResourceID) (v : V) : res (plan_error E) desiredRow :=
  raw ← canonicalResourceJSON v; mret (mkDesired id raw (SpecHashHex raw) "").

Definition appendDesiredWorkflow (id : ResourceID) (w : V) (execDigest : string)
    : res (plan_error E) desiredRow :=
  raw ← canonicalResourceJSON w;
  h ← WorkflowSpecHashWithExec w execDigest;
  mret (mkDesired id raw h execDigest).

(** The non-nil resources of a map, in some order. *)
Definition pointers {A} (m : gmap string (option A)) : list A :=
  (snd <$> map_to_list m) ≫= λ o, match o with Some a => [a] | None => [] end.

Definition desired_of (kind : string) (m : gmap string (option (Resource V)))
    : res (plan_error E) (list desiredRow) :=
  res_traverse (λ a, appendDesired (mkResourceID kind (r_Name a)) (r_Envelope a)) (pointers m).

Definition desired_workflow (execs : gmap string (option program)) (w : WorkflowResource V)
    : res (plan_error E) desiredRow :=
  let name := r_Name (w_Resource w) in
  appendDesiredWorkflow (mkResourceID KindWorkflow name) (r_Envelope (w_Resource w))
    (digestOf (execs !! name ≫= id)).

Definition desired_workflows (m : gmap string (option (WorkflowResource V)))
    (execs : gmap string (option program)) : res (plan_error E) (list desiredRow) :=
  res_traverse (desired_workflow execs) (pointers m).

Definition d_key (d : desiredRow) : string * string := (rid_Kind (d_id d), rid_Name (d_id d)).

Definition desiredRows (g : PlanGraph V) (execs : gmap string (option program))
    : res (plan_error E) (list desiredRow) :=
  proj ← appendDesired (mkResourceID KindProject (r_Name (g_Project g))) (r_Envelope (g_Project g));
  agents ← desired_of KindAgent (g_Agents g);
  tools ← desired_of KindTool (g_Tools g);
  workflows ← desired_workflows (g_Workflows g) execs;
  policies ← desired_of KindPolicy (g_Policies g);
  environments ← desired_of KindEnvironment (g_Environments g);
  mret (sort_by_pair d_key
    (proj :: agents ++ tools ++ workflows ++ policies ++ environments)).

Definition ListDesiredResourceIDs (g : PlanGraph V) : res (plan_error E) (list ResourceID) :=
  (λ rows : list desiredRow, d_id <$> rows) <$> desiredRows g ∅.

(** ** Digests over rows *)

Definition nul (rest : string) : string := String "000" rest.
Definition newline : string := String "010" "".

Definition graph_line (d : desiredRow) : string :=
  rid_Kind (d_id d) +:+ nul (rid_Name (d_id d) +:+ nul (d_json d +:+ newline)).

Definition ResolvedGraphDigest (g : PlanGraph V) : res (plan_error E) string :=
  (λ rows : list desiredRow, hashHex sha256 (cat (graph_line <$> rows))) <$> desiredRows g ∅.

Definition row_line (r : AppliedResource) : string :=
  ar_Kind r +:+ nul (ar_Name r +:+ nul (ar_SpecHash r +:+ nul (ar_NormalizedSpecJSON r +:+ newline))).

Definition project_line (p : option AppliedProject) : string :=
  match p with
  | None => "applied_projects" +:+ nul ("MISSING" +:+ newline)
  | Some p => "applied_projects" +:+ nul (ap_ProjectName p +:+ nul (ap_Env p +:+ nul (ap_Version p +:+ newline)))
  end.

Context {S : Type} `{DeploymentStore S}.

Definition fingerprint_text (env projectName : string) (s : S) : string :=
  cat (row_line <$> sort_by_pair row_key (ListAppliedResourcesByEnv env s)) +:+
  project_line (GetAppliedProject env projectName s).

Definition DeploymentStateFingerprint (env projectName : string) (s : S) : res (plan_error E) string :=
  let env := trim_space env in
  let projectName := trim_space projectName in
  if (env =? "")%string || (projectName =? "")%string then Err PEmptyFingerprint
  else Ok (hashHex sha256 (fingerprint_text env projectName s)).

(** ** The plan *)

(** The first row of kind Project, by [ComputePlan] and [ProjectDeploymentMeta]. *)
Definition first_project (rows : list desiredRow) : option desiredRow :=
  snd <$> list_find (λ d, rid_Kind (d_id d) = KindProject) rows.

Definition ProjectDeploymentMeta (g : PlanGraph V) : res (plan_error E) (string * string) :=
  rows ← desiredRows g ∅;
  match first_project rows with
  | Some r => Ok (rid_Name (d_id r), d_hash r)
  | None => Err PNoProject
  end.

(** A map keyed by [resourceMapKey]: the last row with an id. *)
Definition find_row (id : ResourceID) (rows : list AppliedResource) : option AppliedResource :=
  snd <$> list_find (λ r, row_id r = id) (reverse rows).

(** The operation a desired row needs, if any. *)
Definition desired_op (applied : list AppliedResource) (d : desiredRow)
    : res (plan_error E) (list Operation) :=
  match find_row (d_id d) applied with
  | None => Ok [mkOperation ActionCreate (d_id d) [] (d_hash d) (d_json d)]
  | Some prev =>
      if (ar_SpecHash prev =? d_hash d)%string then Ok []
      else if (ar_NormalizedSpecJSON prev =? d_json d)%string && (d_execDigest d =? "")%string then Ok []
      else
        match jsonDiff Unmarshal (ar_NormalizedSpecJSON prev) (d_json d) with
        | Ok diff => Ok [mkOperation ActionUpdate (d_id d) diff (d_hash d) (d_json d)]
        | Err e => Err (PUnmarshal e)
        end
  end.

Definition delete_op (desired : list desiredRow) (r : AppliedResource) : list Operation :=
  if existsb (λ d, bool_decide (d_id d = row_id r)) desired then []
  else [mkOperation ActionDelete (row_id r) [] "" ""].

Definition ComputePlan (s : S) (env : string) (g : PlanGraph V) (execs : gmap string (option program))
    : res (plan_error E) Plan :=
  if (env =? "")%string then Err PEmptyEnv else
  desired ← desiredRows g execs;
  let projectName := match first_project desired with Some d => rid_Name (d_id d) | None => "" end in
  if (projectName =? "")%string then Err PNoProject else
  let applied := ListAppliedResourcesByEnv env s in
  changes ← res_traverse (desired_op applied) desired;
  let ops := sortOperations (mjoin changes ++ (applied ≫= delete_op desired)) in
  fp ← DeploymentStateFingerprint env projectName s;
  mret (mkPlan ops fp (invocationBounds execs) (workflowRuntimeTargets g)).

End plan.
End graph.
