(* ===== verification/Apply.v ===== *)
(** * Applying a plan ([internal/apply])

    The operations of a plan run against a deployment store after its baseline is
    checked, in one transaction where the store has them.  The theorems: applying
    the plan that was just computed gives the environment exactly the desired rows
    and leaves nothing to plan; a plan computed from other rows is refused. *)

From S2P Require Import Prelude GoNum GoText Value JsonText ExecIR ExecDigest ExecBounds AuditChain StateStore PlanDiff Planner.

Local Open Scope Z_scope.

Inductive apply_error (E : Type) :=
  | AEmptyEnv
  | APlan (e : plan_error E)
  | AMissing (action : string) (target : ResourceID)   (* missing spec hash or normalized JSON *)
  | AUnknownAction (action : string)
  | ADeploymentStateChanged
  | AFinalize (msg : string)
  | ANoSnapshotSupport.
Arguments AEmptyEnv {E}.
Arguments APlan {E}.
Arguments AMissing {E}.
Arguments AUnknownAction {E}.
Arguments ADeploymentStateChanged {E}.
Arguments AFinalize {E}.
Arguments ANoSnapshotSupport {E}.

Section apply.
Context {V : Type} (is_print : chars → bool) (sha256 : chars → chars).
Context {E : Type} (Marshal : V → res E string) (Unmarshal : string → res E value).
Context {S : Type} `{!DeploymentStore S}.

(** The store after a call, and the call's error. *)
Definition outcome : Type := S * option (apply_error E).

(** ** [executor.go] *)

Definition applied_row (env : string) (at_ : Time) (op : Operation) : AppliedResource :=
  mkAppliedResource (rid_Kind (op_Target op)) (rid_Name (op_Target op)) env (op_SpecHash op)
    (op_NormalizedSpecJSON op) at_.

Definition blank (s : string) : bool := (trim_space s =? "")%string.

Fixpoint execute_ops (env : string) (at_ : Time) (ops : list Operation) (s : S) : outcome :=
  match ops with
  | [] => (s, None)
  | op :: ops =>
      if (op_Action op =? ActionCreate)%string || (op_Action op =? ActionUpdate)%string then
        if blank (op_SpecHash op) || blank (op_NormalizedSpecJSON op)
        then (s, Some (AMissing (op_Action op) (op_Target op)))
        else execute_ops env at_ ops (UpsertAppliedResource (applied_row env at_ op) s)
      else if (op_Action op =? ActionDelete)%string then
        execute_ops env at_ ops (DeleteAppliedResource env (op_Target op) s)
      else (s, Some (AUnknownAction (op_Action op)))
  end.

Definition executePlan (env : string) (p : Plan) (at_ : Time) (projectName projectVersion : string)
    (s : S) : outcome :=
  match execute_ops env at_ (pl_Operations p) s with
  | (s', Some e) => (s', Some e)
  | (s', None) =>
      (UpsertAppliedProject (mkAppliedProject projectName env projectVersion at_) s', None)
  end.

(** ** [baseline.go] *)

Definition assertDeploymentBaseline (env projectName : string) (p : Plan) (s : S) : option (apply_error E) :=
  let want := trim_space (pl_DeploymentBaseline p) in
  if (want =? "")%string then None else
  match DeploymentStateFingerprint (E := E) sha256 env projectName s with
  | Err e => Some (APlan e)
  | Ok got => if (got =? want)%string then None else Some ADeploymentStateChanged
  end.

(** ** [applier.go] *)

Definition RecordAppliedResource (r : AppliedResource) (s : S) : S := UpsertAppliedResource r s.

Definition applyRows (env : string) (p : Plan) (at_ : Time) (projectName projectVersion : string)
    (s : S) : outcome :=
  match assertDeploymentBaseline env projectName p s with
  | Some e => (s, Some e)
  | None => executePlan env p at_ projectName projectVersion s
  end.

(** [finalize] runs after the rows: [None] skips it; it returns the store it
    leaves and its error.  [transactional] says the store implements
    [TransactionalDeployment]; [snapshots], that a store without transactions has
    the snapshot operations. *)
Definition ApplyPlanAndFinalize (transactional snapshots : bool) (env : string) (g : PlanGraph V)
    (p : Plan) (at_ : Time) (finalize : option (S → S * option string)) (s : S) : outcome :=
  if (env =? "")%string then (s, Some AEmptyEnv) else
  match ProjectDeploymentMeta is_print sha256 Marshal g with
  | Err e => (s, Some (APlan e))
  | Ok (projectName, projectVersion) =>
      if transactional then
        match applyRows env p at_ projectName projectVersion s with
        | (_, Some e) => (s, Some e)
        | (s1, None) =>
            match finalize with
            | None => (s1, None)
            | Some f => match f s1 with
                        | (s2, None) => (s2, None)
                        | (_, Some msg) => (s, Some (AFinalize msg))
                        end
            end
        end
      else
        match applyRows env p at_ projectName projectVersion s with
        | (s1, Some e) => (s1, Some e)
        | (s1, None) =>
            match finalize with
            | None => (s1, None)
            | Some f =>
                if snapshots then match f s1 with
                                  | (s2, None) => (s2, None)
                                  | (s2, Some msg) => (s2, Some (AFinalize msg))
                                  end
                else (s1, Some ANoSnapshotSupport)
            end
        end
  end.

Definition ApplyPlan (transactional snapshots : bool) (env : string) (g : PlanGraph V) (p : Plan)
    (at_ : Time) (s : S) : outcome :=
  ApplyPlanAndFinalize transactional snapshots env g p at_ None s.

(** ** Executing operations *)

Context {ok : S → Prop} `{!DeploymentStoreLaws S ok}.

Definition is_upsert (op : Operation) : bool :=
  (op_Action op =? ActionCreate)%string || (op_Action op =? ActionUpdate)%string.

(** An operation [executePlan] accepts. *)
Definition op_valid (op : Operation) : Prop :=
  (is_upsert op = true ∧ blank (op_SpecHash op) = false ∧ blank (op_NormalizedSpecJSON op) = false) ∨
  op_Action op = ActionDelete.

Definition op_on (id : ResourceID) (ops : list Operation) : option Operation :=
  snd <$> list_find (λ op, op_Target op = id) ops.

Definition op_result (env : string) (at_ : Time) (op : Operation) : option AppliedResource :=
  if is_upsert op then Some (applied_row env at_ op) else None.

Lemma op_on_cons id op ops :
  op_on id (op :: ops) = if decide (op_Target op = id) then Some op else op_on id ops.
Proof.
  unfold op_on. simpl. case_decide; [done|]. by destruct (list_find _ ops) as [[]|].
Qed.

Lemma op_on_Some id ops op :
  NoDup (op_Target <$> ops) → op_on id ops = Some op ↔ op ∈ ops ∧ op_Target op = id.
Proof.
  induction ops as [|x ops IH]; intros Hnd; [by rewrite elem_of_nil; split; [|intros [? _]]|].
  rewrite fmap_cons in Hnd. apply NoDup_cons in Hnd as [Hx Hnd]. rewrite op_on_cons, elem_of_cons.
  case_decide as Ht.
  - split; [by intros [= ->]; auto|]. intros [[->|Hin] Hid]; [done|]. exfalso. apply Hx.
    apply list_elem_of_fmap. exists op. by rewrite Ht, Hid.
  - rewrite IH by done. naive_solver.
Qed.

Lemma op_on_None id ops : op_on id ops = None ↔ ∀ op, op ∈ ops → op_Target op ≠ id.
Proof.
  induction ops as [|x ops IH]; [by split; [intros _ op ?%elem_of_nil|]|].
  rewrite op_on_cons. setoid_rewrite elem_of_cons. case_decide; [naive_solver|]. rewrite IH. naive_solver.
Qed.

Lemma execute_ops_spec env at_ ops s :
  ok s → NoDup (op_Target <$> ops) → Forall op_valid ops →
  ∃ s', execute_ops env at_ ops s = (s', None) ∧ ok s' ∧
    (∀ id, GetAppliedResource env id s' =
       match op_on id ops with Some op => op_result env at_ op | None => GetAppliedResource env id s end) ∧
    (∀ env' id, env' ≠ env → GetAppliedResource env' id s' = GetAppliedResource env' id s) ∧
    (∀ env' n, GetAppliedProject env' n s' = GetAppliedProject env' n s).
Proof.
  revert s. induction ops as [|op ops IH]; intros s Hok Hnd Hv; [by exists s|].
  rewrite fmap_cons in Hnd. apply NoDup_cons in Hnd as [Hop Hnd]. apply Forall_cons in Hv as [Hv1 Hv].
  assert (∀ s1, ok s1 →
    (∀ id, GetAppliedResource env id s1 =
       if decide (op_Target op = id) then op_result env at_ op else GetAppliedResource env id s) →
    (∀ env' id, env' ≠ env → GetAppliedResource env' id s1 = GetAppliedResource env' id s) →
    (∀ env' n, GetAppliedProject env' n s1 = GetAppliedProject env' n s) →
    ∃ s', execute_ops env at_ ops s1 = (s', None) ∧ ok s' ∧
      (∀ id, GetAppliedResource env id s' =
         match op_on id (op :: ops) with Some op => op_result env at_ op | None => GetAppliedResource env id s end) ∧
      (∀ env' id, env' ≠ env → GetAppliedResource env' id s' = GetAppliedResource env' id s) ∧
      (∀ env' n, GetAppliedProject env' n s' = GetAppliedProject env' n s)) as Hstep.
  { intros s1 Hok1 Hg He Hp. destruct (IH s1 Hok1 Hnd Hv) as (s' & Hx & Hok' & Hg' & He' & Hp').
    exists s'. split; [done|]. split; [done|]. split; [|split; intros; [rewrite He', He|rewrite Hp', Hp]; done].
    intros id. rewrite Hg', op_on_cons, Hg. case_decide as Ht; [|done].
    assert (op_on id ops = None) as ->; [|done]. apply op_on_None. intros op' Hin Ht'. apply Hop.
    rewrite Ht, <-Ht'. by apply list_elem_of_fmap_2. }
  cbn [execute_ops]. fold (is_upsert op). destruct Hv1 as [(Hu & Hb1 & Hb2)|Hd].
  - rewrite Hu, Hb1, Hb2. cbn [orb]. apply Hstep.
    + by apply ok_upsert.
    + intros id. rewrite get_upsert by done. unfold op_result, row_id, applied_row. simpl. rewrite Hu.
      destruct (op_Target op) as [k n]. simpl. repeat case_decide; naive_solver.
    + intros env' id Hne. rewrite get_upsert by done. unfold applied_row. simpl. case_decide; naive_solver.
    + intros. apply project_upsert_resource.
  - assert (is_upsert op = false) as Hu by (unfold is_upsert; by rewrite Hd).
    rewrite Hu, Hd. cbn [String.eqb Ascii.eqb Bool.eqb]. apply Hstep.
    + by apply ok_delete.
    + intros id. rewrite get_delete by done. unfold op_result. rewrite Hu. repeat case_decide; naive_solver.
    + intros env' id Hne. rewrite get_delete by done. case_decide; naive_solver.
    + intros. apply project_delete_resource.
Qed.

(** ** The operations of a plan *)

#[local] Abbreviation ComputePlan := (ComputePlan is_print sha256 Marshal Unmarshal).
#[local] Abbreviation desiredRows := (desiredRows is_print sha256 Marshal).
#[local] Abbreviation desired_op := (desired_op Unmarshal).
#[local] Abbreviation get env id s := (GetAppliedResource env id s) (only parsing).

Lemma find_row_get env id s :
  ok s → find_row id (ListAppliedResourcesByEnv env s) = get env id s.
Proof.
  intros Hok. unfold find_row. destruct (list_find _ _) as [[i r]|] eqn:Hf; simpl.
  - apply list_find_Some in Hf as (Hi & <- & _). apply list_elem_of_lookup_2 in Hi.
    rewrite elem_of_reverse in Hi. apply elem_of_list in Hi as [He Hg]; [|done]. by rewrite Hg.
  - apply list_find_None in Hf. destruct (get env id s) as [r|] eqn:Hg; [|done]. exfalso.
    destruct (get_row env id s r Hok Hg) as [He Hid]. rewrite Forall_forall in Hf.
    apply (Hf r); [|done]. rewrite elem_of_reverse. apply elem_of_list; [done|]. by rewrite Hid.
Qed.

(** What the plan does about a desired row the store already has. *)
Definition current (r : AppliedResource) (d : desiredRow) : Prop :=
  ar_SpecHash r = d_hash d ∨ (ar_NormalizedSpecJSON r = d_json d ∧ d_execDigest d = "").

#[local] Instance current_dec r d : Decision (current r d).
Proof. unfold current. apply _. Defined.

Definition upsert_for (d : desiredRow) (op : Operation) : Prop :=
  op_Target op = d_id d ∧ op_SpecHash op = d_hash d ∧ op_NormalizedSpecJSON op = d_json d ∧
  is_upsert op = true.

Lemma desired_op_cases env s d c :
  ok s → desired_op (ListAppliedResourcesByEnv env s) d = Ok c →
  (∃ r, get env (d_id d) s = Some r ∧ current r d ∧ c = []) ∨
  (∃ op, c = [op] ∧ upsert_for d op ∧
     (get env (d_id d) s = None ∨ ∃ r, get env (d_id d) s = Some r ∧ ¬ current r d)).
Proof.
  intros Hok. unfold Planner.desired_op. rewrite find_row_get by done.
  destruct (get env (d_id d) s) as [r|].
  2:{ intros [= <-]. right. eexists. split; [done|]. split; [|by left]. by repeat split. }
  destruct (String.eqb_spec (ar_SpecHash r) (d_hash d)).
  { intros [= <-]. left. exists r. split; [done|]. split; [by left|done]. }
  destruct (String.eqb_spec (ar_NormalizedSpecJSON r) (d_json d)) as [Ej|Ej], (String.eqb_spec (d_execDigest d) "") as [Ed|Ed];
    cbn [andb]; [intros [= <-]; left; exists r; split; [done|]; split; [by right|done]|..];
    (destruct (jsonDiff _ _ _) as [diff|]; [|done]); intros [= <-]; right; eexists; (split; [done|]);
    (split; [by repeat split|]); right; exists r; (split; [done|]); intros [?|[??]]; done.
Qed.

Lemma delete_op_cases D r op :
  op ∈ delete_op D r ↔ op = mkOperation ActionDelete (row_id r) [] "" "" ∧ ∀ d, d ∈ D → d_id d ≠ row_id r.
Proof.
  unfold delete_op. destruct (existsb _ D) eqn:Hx.
  - rewrite elem_of_nil. split; [done|]. intros [_ Hn]. apply existsb_True in Hx as (d & Hd & Hb).
    apply bool_decide_eq_true in Hb. by apply (Hn d).
  - rewrite list_elem_of_singleton. split; [|by intros [? _]]. intros ->. split; [done|]. intros d Hd E'.
    rewrite existsb_False in Hx. specialize (Hx d Hd). by rewrite bool_decide_true in Hx.
Qed.

(** The operations, before they are sorted. *)
Definition plan_ops (D : list desiredRow) (changes : list (list Operation)) (applied : list AppliedResource)
    : list Operation := mjoin changes ++ (applied ≫= delete_op D).

Lemma ComputePlan_inv s env g execs p :
  ComputePlan s env g execs = Ok p →
  ∃ D dp changes,
    env ≠ "" ∧ desiredRows g execs = Ok D ∧ first_project D = Some dp ∧ rid_Name (d_id dp) ≠ "" ∧
    Forall2 (λ d c, desired_op (ListAppliedResourcesByEnv env s) d = Ok c) D changes ∧
    pl_Operations p = sortOperations (plan_ops D changes (ListAppliedResourcesByEnv env s)) ∧
    DeploymentStateFingerprint (E := E) sha256 env (rid_Name (d_id dp)) s = Ok (pl_DeploymentBaseline p).
Proof.
  unfold Planner.ComputePlan. destruct (String.eqb_spec env "") as [|He]; [done|].
  intros (D & HD & H1)%bind_Ok. destruct (first_project D) as [dp|] eqn:Hp; [|done].
  destruct (String.eqb_spec (rid_Name (d_id dp)) "") as [|Hn]; [done|].
  apply bind_Ok in H1 as (changes & Hc & H1). apply bind_Ok in H1 as (fp & Hf & [= <-]).
  apply res_traverse_Forall2 in Hc. exists D, dp, changes. done.
Qed.

Lemma elem_of_changes env s D changes op :
  ok s → Forall2 (λ d c, desired_op (ListAppliedResourcesByEnv env s) d = Ok c) D changes →
  op ∈ mjoin changes ↔ ∃ d, d ∈ D ∧ desired_op (ListAppliedResourcesByEnv env s) d = Ok [op].
Proof.
  intros Hok. induction 1 as [|d c D changes Hd _ IH]; cbn [mjoin list_join].
  - split; [by intros ?%elem_of_nil|]. intros (d & Hd & _). by apply elem_of_nil in Hd.
  - rewrite elem_of_app, IH. setoid_rewrite elem_of_cons.
    destruct (desired_op_cases env s d c Hok Hd) as [(r & Hr & Hcur & ->)|(op' & -> & Hu & Hr)].
    + rewrite elem_of_nil. split; [intros [[]|(d' & ? & ?)]; eauto|].
      intros (d' & [->|Hin] & E'); [by rewrite Hd in E'|eauto].
    + rewrite list_elem_of_singleton. split.
      * intros [->|(d' & ? & ?)]; [|by eauto]. exists d. auto.
      * intros (d' & [->|Hin] & E'); [left; rewrite Hd in E'; by injection E'|eauto].
Qed.

Lemma changes_targets env s D changes :
  ok s → Forall2 (λ d c, desired_op (ListAppliedResourcesByEnv env s) d = Ok c) D changes →
  (op_Target <$> mjoin changes) `sublist_of` (d_id <$> D).
Proof.
  intros Hok. induction 1 as [|d c D changes Hd _ IH]; [done|]. cbn [mjoin list_join]. rewrite fmap_cons, fmap_app.
  destruct (desired_op_cases env s d c Hok Hd) as [(r & Hr & Hcur & ->)|(op & -> & [Ht _] & Hr)].
  - by apply sublist_cons.
  - cbn. rewrite Ht. by apply sublist_skip.
Qed.

Lemma delete_targets D (l : list AppliedResource) :
  (op_Target <$> (l ≫= delete_op D)) `sublist_of` (row_id <$> l).
Proof.
  induction l as [|r l IH]; [done|]. cbn [mbind list_bind]. rewrite fmap_cons, fmap_app.
  change (list_bind _ _ (delete_op D) l) with (l ≫= delete_op D). unfold delete_op at 1. case_match; cbn.
  - by apply sublist_cons.
  - by apply sublist_skip.
Qed.

Lemma row_id_NoDup l : NoDup (row_key <$> l) → NoDup (row_id <$> l).
Proof.
  induction l as [|r l IH]; [constructor|]. rewrite !fmap_cons, !NoDup_cons. intros [Hr Hl]. split; [|by apply IH].
  intros (r' & E' & Hin)%list_elem_of_fmap. apply Hr, list_elem_of_fmap. exists r'. split; [|done].
  unfold row_id in E'. unfold row_key. by injection E' as -> ->.
Qed.

Lemma plan_ops_NoDup env s D changes :
  ok s → NoDup (d_id <$> D) →
  Forall2 (λ d c, desired_op (ListAppliedResourcesByEnv env s) d = Ok c) D changes →
  NoDup (op_Target <$> sortOperations (plan_ops D changes (ListAppliedResourcesByEnv env s))).
Proof.
  intros Hok Hnd Hc. unfold sortOperations. rewrite merge_sort_Permutation. unfold plan_ops.
  rewrite fmap_app, NoDup_app. split; [|split].
  - eapply sublist_NoDup; [done|by eapply changes_targets].
  - intros id Hin1 Hin2. eapply elem_of_sublist in Hin1; [|by eapply changes_targets].
    apply list_elem_of_fmap in Hin1 as (d & -> & Hd).
    apply list_elem_of_fmap in Hin2 as (op & E' & Hop). apply list_elem_of_bind in Hop as (r & Hop & _).
    apply delete_op_cases in Hop as [-> Hn]. by apply (Hn d).
  - eapply sublist_NoDup; [|apply delete_targets]. apply row_id_NoDup. by apply list_NoDup.
Qed.

Lemma elem_of_plan_ops env s D changes op :
  ok s → Forall2 (λ d c, desired_op (ListAppliedResourcesByEnv env s) d = Ok c) D changes →
  op ∈ sortOperations (plan_ops D changes (ListAppliedResourcesByEnv env s)) ↔
  (∃ d, d ∈ D ∧ desired_op (ListAppliedResourcesByEnv env s) d = Ok [op]) ∨
  (∃ r, get env (row_id r) s = Some r ∧ op = mkOperation ActionDelete (row_id r) [] "" "" ∧
        ∀ d, d ∈ D → d_id d ≠ row_id r).
Proof.
  intros Hok Hc. unfold sortOperations. rewrite merge_sort_Permutation. unfold plan_ops.
  rewrite elem_of_app, elem_of_changes by done. apply or_iff_compat_l.
  rewrite list_elem_of_bind. setoid_rewrite delete_op_cases. split.
  - intros (r & [-> Hn] & [He Hg]%elem_of_list); [|done]. by exists r.
  - intros (r & Hg & -> & Hn). exists r. split; [done|]. apply elem_of_list; [done|].
    split; [|done]. by apply (get_row env (row_id r) s r).
Qed.

(** ** Desired rows *)

(** A resource marshals to a text that is not blank, and a hash has 32 bytes. *)
Hypothesis sha256_size : ∀ l, length (sha256 l) = 32%nat.
Hypothesis Marshal_text : ∀ v raw, Marshal v = Ok raw → blank raw = false.

Lemma hash_not_blank x : blank (hashHex sha256 x) = false.
Proof. unfold blank. rewrite trim_hashHex. by apply String.eqb_neq, hashHex_ne. Qed.

Definition row_ok (d : desiredRow) : Prop := blank (d_hash d) = false ∧ blank (d_json d) = false.

Lemma canonical_Ok v raw :
  canonicalResourceJSON Marshal v = Ok raw → blank raw = false.
Proof. unfold canonicalResourceJSON. case_match; [|done]. intros [= <-]. by eapply Marshal_text. Qed.

Lemma desired_of_ok kind m D : desired_of sha256 Marshal kind m = Ok D →
  Forall (λ d, row_ok d ∧ rid_Kind (d_id d) = kind) D.
Proof.
  unfold desired_of. intros H%res_traverse_Forall2. induction H as [|a d l D Ha _ IH]; [constructor|].
  constructor; [|done]. unfold appendDesired in Ha. apply bind_Ok in Ha as (raw & Hr & [= <-]).
  split; [|done]. split; [apply hash_not_blank|by eapply canonical_Ok].
Qed.

Lemma desired_workflows_ok m execs D : desired_workflows is_print sha256 Marshal m execs = Ok D →
  Forall (λ d, row_ok d ∧ rid_Kind (d_id d) = KindWorkflow) D ∧
  ∃ D', desired_workflows is_print sha256 Marshal m ∅ = Ok D'.
Proof.
  unfold desired_workflows. intros H%res_traverse_Forall2.
  induction H as [|a d l D Ha _ (IH & D' & HD')]; [split; [constructor|by exists []]|].
  unfold desired_workflow, appendDesiredWorkflow, WorkflowSpecHashWithExec in Ha.
  apply bind_Ok in Ha as (raw & Hr & Ha). rewrite Hr in Ha. injection Ha as <-.
  split.
  - constructor; [|done]. split; [|done]. split; [apply hash_not_blank|by eapply canonical_Ok].
  - assert (∃ d', desired_workflow is_print sha256 Marshal ∅ a = Ok d') as [d' Hd'].
    { unfold desired_workflow, appendDesiredWorkflow, WorkflowSpecHashWithExec. rewrite Hr. by eexists. }
    cbn [res_traverse]. rewrite Hd'. cbn [mbind res_bind mret res_ret]. rewrite HD'. by eexists.
Qed.

Definition project_row (g : PlanGraph V) (raw : string) : desiredRow :=
  mkDesired (mkResourceID KindProject (r_Name (g_Project g))) raw (SpecHashHex sha256 raw) "".

Lemma first_project_sorted d l :
  rid_Kind (d_id d) = KindProject → Forall (λ d, rid_Kind (d_id d) ≠ KindProject) l →
  first_project (sort_by_pair d_key (d :: l)) = Some d.
Proof.
  intros Hd Hl. unfold first_project.
  assert (∀ x, x ∈ sort_by_pair d_key (d :: l) → rid_Kind (d_id x) = KindProject → x = d) as Hu.
  { intros x [->|Hx]%elem_of_sort_by_pair%elem_of_cons Hk; [done|]. rewrite Forall_forall in Hl. by destruct (Hl x). }
  destruct (list_find _ _) as [[i x]|] eqn:Hf.
  - apply list_find_Some in Hf as (Hi & Hk & _). apply list_elem_of_lookup_2 in Hi. simpl. by rewrite (Hu x).
  - apply list_find_None in Hf. rewrite Forall_forall in Hf. exfalso. apply (Hf d); [|done].
    apply elem_of_sort_by_pair. left.
Qed.

Lemma desiredRows_inv g execs D :
  desiredRows g execs = Ok D →
  Forall row_ok D ∧ ∃ raw D', desiredRows g ∅ = Ok D' ∧
    first_project D = Some (project_row g raw) ∧ first_project D' = Some (project_row g raw).
Proof.
  unfold Planner.desiredRows. intros (proj & Hp & H1)%bind_Ok.
  apply bind_Ok in H1 as (ag & Hag & H1). apply bind_Ok in H1 as (tl & Htl & H1).
  apply bind_Ok in H1 as (wf & Hwf & H1). apply bind_Ok in H1 as (po & Hpo & H1).
  apply bind_Ok in H1 as (en & Hen & [= <-]).
  unfold appendDesired in Hp. apply bind_Ok in Hp as (raw & Hr & [= <-]).
  apply desired_of_ok in Hag as Gag, Htl as Gtl, Hpo as Gpo, Hen as Gen.
  apply desired_workflows_ok in Hwf as (Gwf & wf' & Hwf').
  pose proof (desired_workflows_ok _ _ _ Hwf') as (Gwf' & _).
  assert (∀ W, Forall (λ d, row_ok d ∧ rid_Kind (d_id d) = KindWorkflow) W →
    Forall (λ d, row_ok d ∧ rid_Kind (d_id d) ≠ KindProject) (ag ++ tl ++ W ++ po ++ en)) as Hall.
  { intros W HW. repeat apply Forall_app_2; eapply Forall_impl; try done; by intros d [? ->]. }
  split.
  - unfold sort_by_pair. rewrite merge_sort_Permutation. constructor.
    { split; [apply hash_not_blank|by eapply canonical_Ok]. }
    eapply Forall_impl; [by apply (Hall wf)|]. by intros d [? _].
  - exists raw. eexists. rewrite Hag, Htl, Hwf', Hpo, Hen. unfold appendDesired. rewrite Hr. cbn [mbind res_bind mret res_ret].
    split; [done|].
    split; (apply first_project_sorted; [done|]; eapply Forall_impl; [by apply Hall|]; by intros d [_ ?]).
Qed.

(** ** Convergence *)

Lemma plan_ops_valid env s D changes :
  ok s → Forall row_ok D →
  Forall2 (λ d c, desired_op (ListAppliedResourcesByEnv env s) d = Ok c) D changes →
  Forall op_valid (sortOperations (plan_ops D changes (ListAppliedResourcesByEnv env s))).
Proof.
  intros Hok Hrows Hc. apply Forall_forall. intros op Hop.
  apply elem_of_plan_ops in Hop as [(d & Hd & Ho)|(r & _ & -> & _)]; [| |done..]; [|by right].
  left. rewrite Forall_forall in Hrows. destruct (Hrows d Hd) as [H1 H2].
  destruct (desired_op_cases env s d _ Hok Ho) as [(r & _ & _ & ?)|(op' & E' & (Ht & Hh & Hj & Hu) & _)]; [done|].
  injection E' as <-. by rewrite Hu, Hh, Hj.
Qed.

(** The row of a desired resource after the operations ran. *)
Lemma applied_desired env at_ s s' D changes d :
  ok s → NoDup (d_id <$> D) →
  Forall2 (λ d c, desired_op (ListAppliedResourcesByEnv env s) d = Ok c) D changes →
  let ops := sortOperations (plan_ops D changes (ListAppliedResourcesByEnv env s)) in
  (∀ id, get env id s' = match op_on id ops with Some op => op_result env at_ op | None => get env id s end) →
  d ∈ D →
  ∃ r, get env (d_id d) s' = Some r ∧ current r d ∧
    (get env (d_id d) s = Some r ∨
     r = mkAppliedResource (rid_Kind (d_id d)) (rid_Name (d_id d)) env (d_hash d) (d_json d) at_).
Proof.
  intros Hok Hnd Hc ops Hs' Hd. rewrite Hs'.
  pose proof (plan_ops_NoDup env s D changes Hok Hnd Hc : NoDup (op_Target <$> ops)) as Hno.
  pose proof Hd as Hd0. apply list_elem_of_lookup in Hd0 as [i0 Hi0].
  destruct (Forall2_lookup_l _ _ _ _ _ Hc Hi0) as (c & _ & Hop).
  destruct (desired_op_cases env s d c Hok Hop) as [(r & Hr & Hcur & ->)|(op & -> & (Ht & Hh & Hj & Hu) & _)].
  - assert (op_on (d_id d) ops = None) as ->; [|by exists r; auto].
    apply op_on_None. intros op Hin Htar.
    apply elem_of_plan_ops in Hin as [(d' & Hd' & Ho)|(r' & _ & -> & Hn)]; [| |done..].
    + destruct (desired_op_cases env s d' _ Hok Ho) as [(r' & _ & _ & ?)|(op' & E' & (Ht' & _) & Hg)]; [done|].
      injection E' as <-. rewrite <-Ht', Htar, Hr in Hg.
      destruct Hg as [|(r' & [= <-] & Hncur)]; [done|].
      assert (d = d') as ->; [|done]. apply list_elem_of_lookup in Hd as [i Hi], Hd' as [j Hj].
      assert (i = j) as ->; [|congruence].
      apply (NoDup_lookup (d_id <$> D) i j (d_id d)); [done|by rewrite list_lookup_fmap, Hi|].
      by rewrite list_lookup_fmap, Hj; simpl; rewrite <-Ht', Htar.
    + by apply (Hn d).
  - assert (op_on (d_id d) ops = Some op) as ->.
    { apply op_on_Some; [done|]. split; [|done]. apply elem_of_plan_ops; [done..|]. left. eauto. }
    unfold op_result. rewrite Hu. eexists. split; [done|]. unfold applied_row. rewrite Ht, Hh, Hj.
    split; [by left|by right].
Qed.

Lemma fingerprint_hash env n s fp :
  DeploymentStateFingerprint (E := E) sha256 env n s = Ok fp →
  ∃ t, fp = hashHex sha256 t ∧ t = fingerprint_text (trim_space env) (trim_space n) s.
Proof. unfold DeploymentStateFingerprint. case_match; [done|]. intros [= <-]. eauto. Qed.

Lemma baseline_same env n s p :
  DeploymentStateFingerprint (E := E) sha256 env n s = Ok (pl_DeploymentBaseline p) →
  assertDeploymentBaseline env n p s = None.
Proof.
  intros Hf. unfold assertDeploymentBaseline. rewrite Hf.
  destruct (fingerprint_hash _ _ _ _ Hf) as (t & -> & _). rewrite trim_hashHex, String.eqb_refl.
  by case_match.
Qed.

(** A store whose rows are all current and desired has nothing to plan. *)
Lemma nothing_to_plan env g execs D s dp :
  ok s → desiredRows g execs = Ok D → first_project D = Some dp → env ≠ "" → rid_Name (d_id dp) ≠ "" →
  (∃ fp, DeploymentStateFingerprint (E := E) sha256 env (rid_Name (d_id dp)) s = Ok fp) →
  (∀ d, d ∈ D → ∃ r, get env (d_id d) s = Some r ∧ current r d) →
  (∀ id, (∀ d, d ∈ D → d_id d ≠ id) → get env id s = None) →
  ∃ p, ComputePlan s env g execs = Ok p ∧ pl_Operations p = [].
Proof.
  intros Hok HD Hdp He Hn [fp Hfp] Hcur Hnone. unfold Planner.ComputePlan.
  rewrite (proj2 (String.eqb_neq env "") He), HD. cbn [mbind res_bind]. rewrite Hdp.
  rewrite (proj2 (String.eqb_neq _ "") Hn).
  assert (∀ l, (∀ d, d ∈ l → d ∈ D) →
    res_traverse (desired_op (ListAppliedResourcesByEnv env s)) l = Ok (replicate (length l) [])) as Hch.
  { induction l as [|d l IH]; intros Hl; [done|]. cbn [res_traverse].
    destruct (Hcur d) as (r & Hr & Hc); [apply Hl; by left|].
    assert (desired_op (ListAppliedResourcesByEnv env s) d = Ok []) as ->.
    { unfold Planner.desired_op. rewrite find_row_get, Hr by done. destruct Hc as [->|[-> ->]].
      - by rewrite String.eqb_refl.
      - rewrite String.eqb_refl. by case_match. }
    cbn [mbind res_bind]. rewrite IH; [done|]. intros d' Hd'. apply Hl. by right. }
  rewrite (Hch D) by done. cbn [mbind res_bind]. rewrite Hfp. eexists. split; [done|]. cbn [pl_Operations].
  assert (ListAppliedResourcesByEnv env s ≫= delete_op D = []) as ->.
  { apply bind_nil. intros r [_ Hr]%elem_of_list; [|done]. unfold delete_op. case_match eqn:Hx; [done|].
    exfalso. rewrite Hnone in Hr; [done|]. intros d Hd Hid. rewrite existsb_False in Hx.
    specialize (Hx d Hd). by rewrite bool_decide_true in Hx. }
  assert (∀ n, mjoin (replicate n []) = [] :> list Operation) as Hj by (by induction n).
  by rewrite Hj.
Qed.

(** No other resource keeps a row. *)
Lemma applied_gone env at_ s s' D changes id :
  ok s → NoDup (d_id <$> D) →
  Forall2 (λ d c, desired_op (ListAppliedResourcesByEnv env s) d = Ok c) D changes →
  let ops := sortOperations (plan_ops D changes (ListAppliedResourcesByEnv env s)) in
  (∀ id, get env id s' = match op_on id ops with Some op => op_result env at_ op | None => get env id s end) →
  (∀ d, d ∈ D → d_id d ≠ id) → get env id s' = None.
Proof.
  intros Hok Hnd Hc ops Hg Hid. rewrite Hg. destruct (op_on id _) as [op|] eqn:Ho.
  - apply op_on_Some in Ho as [Hop Ht]; [|by apply plan_ops_NoDup].
    apply elem_of_plan_ops in Hop as [(d & Hd & Ho)|(r & _ & -> & _)]; [|done..].
    destruct (desired_op_cases env s d _ Hok Ho) as [(r & _ & _ & ?)|(op' & E' & (Ht' & _) & _)]; [done|].
    injection E' as <-. exfalso. apply (Hid d); [done|]. by rewrite <-Ht', Ht.
  - destruct (get env id s) as [r|] eqn:Hr; [|done]. exfalso. rewrite op_on_None in Ho.
    destruct (get_row env id s r Hok Hr) as [_ Hid'].
    apply (Ho (mkOperation ActionDelete (row_id r) [] "" "")); [|done].
    apply elem_of_plan_ops; [done..|]. right. exists r. rewrite Hid'. auto.
Qed.

(** C34: Applying a plan converges.  A plan that was just computed for an
    environment applies without an error; afterwards every desired resource has a
    current row (the row it had when the plan had nothing to do for it, otherwise
    the desired hash and JSON), no other resource of the environment has a row,
    other environments are untouched, the project is recorded with its hash, and
    planning again finds no operation. *)
Theorem ApplyPlan_converges transactional snapshots env g execs D p at_ s :
  ok s → desiredRows g execs = Ok D → NoDup (d_id <$> D) →
  ComputePlan s env g execs = Ok p →
  ∃ s', ApplyPlan transactional snapshots env g p at_ s = (s', None) ∧ ok s' ∧
    (∀ d, d ∈ D → ∃ r, get env (d_id d) s' = Some r ∧ current r d ∧
       (get env (d_id d) s = Some r ∨
        r = mkAppliedResource (rid_Kind (d_id d)) (rid_Name (d_id d)) env (d_hash d) (d_json d) at_)) ∧
    (∀ id, (∀ d, d ∈ D → d_id d ≠ id) → get env id s' = None) ∧
    (∀ env' id, env' ≠ env → get env' id s' = get env' id s) ∧
    (∃ dp, dp ∈ D ∧ rid_Kind (d_id dp) = KindProject ∧
       GetAppliedProject env (rid_Name (d_id dp)) s' =
       Some (mkAppliedProject (rid_Name (d_id dp)) env (d_hash dp) at_)) ∧
    ∃ p', ComputePlan s' env g execs = Ok p' ∧ pl_Operations p' = [].
Proof.
  intros Hok HD Hnd Hp. destruct (ComputePlan_inv _ _ _ _ _ Hp) as (D' & dp & changes & He & HD' & Hdp & Hn & Hc & Hops & Hfp).
  rewrite HD in HD'. injection HD' as <-.
  destruct (desiredRows_inv _ _ _ HD) as (Hrows & raw & D0 & HD0 & Hdp1 & Hdp0).
  rewrite Hdp in Hdp1. injection Hdp1 as ->.
  destruct (execute_ops_spec env at_ (pl_Operations p) s Hok) as (s1 & Hx & Hok1 & Hg & Hoth & Hpr).
  { rewrite Hops. by apply plan_ops_NoDup. }
  { rewrite Hops. by apply plan_ops_valid. }
  set (proj := mkAppliedProject (r_Name (g_Project g)) env (SpecHashHex sha256 raw) at_).
  exists (UpsertAppliedProject proj s1).
  assert (project_row g raw ∈ D) as Hin.
  { unfold first_project in Hdp. apply fmap_Some in Hdp as ([i d] & (Hi & _)%list_find_Some & E').
    simpl in E'. subst d. by apply list_elem_of_lookup_2 in Hi. }
  assert (∀ id, get env id s1 =
    match op_on id (sortOperations (plan_ops D changes (ListAppliedResourcesByEnv env s))) with
    | Some op => op_result env at_ op | None => get env id s end) as Hg'.
  { intros id. rewrite Hg, Hops. done. }
  assert (∀ d, d ∈ D → ∃ r, get env (d_id d) s1 = Some r ∧ current r d ∧
       (get env (d_id d) s = Some r ∨
        r = mkAppliedResource (rid_Kind (d_id d)) (rid_Name (d_id d)) env (d_hash d) (d_json d) at_)) as Hdes.
  { intros d Hd. by eapply applied_desired. }
  assert (∀ id, (∀ d, d ∈ D → d_id d ≠ id) → get env id s1 = None) as Hgone.
  { intros id Hid. eapply (applied_gone env at_ s s1 D changes); done. }
  split; [|split; [by apply ok_upsert_project|]].
  { unfold ApplyPlan, ApplyPlanAndFinalize, ProjectDeploymentMeta.
    rewrite (proj2 (String.eqb_neq env "") He), HD0. cbn [mbind res_bind]. rewrite Hdp0.
    unfold applyRows, executePlan. cbn [project_row d_id rid_Name d_hash] in *. rewrite (baseline_same _ _ _ _ Hfp), Hx.
    by destruct transactional. }
  setoid_rewrite get_upsert_project. split; [done|]. split; [done|]. split; [done|]. split.
  { exists (project_row g raw). split; [done|]. split; [done|]. rewrite project_upsert. by rewrite decide_True. }
  apply (nothing_to_plan env g execs D _ (project_row g raw)); try done.
  - by apply ok_upsert_project.
  - unfold DeploymentStateFingerprint in *. case_match; [done|]. by eexists.
  - intros d Hd. rewrite get_upsert_project. destruct (Hdes d Hd) as (r & ? & ? & _). by exists r.
  - intros id. rewrite get_upsert_project. apply Hgone.
Qed.

(** ** Stale plans *)

(** Text without the separators. *)
Definition no_nul (s : string) : Prop := str_contains_byte "000"%char s = false.
Definition no_newline (s : string) : Prop := str_contains_byte "010"%char s = false.

Definition plain_row (r : AppliedResource) : Prop :=
  no_nul (ar_Kind r) ∧ no_nul (ar_Name r) ∧ no_nul (ar_SpecHash r) ∧
  no_newline (ar_Kind r) ∧ no_newline (ar_Name r) ∧ no_newline (ar_SpecHash r) ∧
  no_newline (ar_NormalizedSpecJSON r).
Definition plain_project (p : AppliedProject) : Prop :=
  no_nul (ap_ProjectName p) ∧ no_nul (ap_Env p) ∧
  no_newline (ap_ProjectName p) ∧ no_newline (ap_Env p) ∧ no_newline (ap_Version p).

(** What of a row and of the project row the fingerprint covers. *)
Definition row_view (r : AppliedResource) : string * string * string * string :=
  (ar_Kind r, ar_Name r, ar_SpecHash r, ar_NormalizedSpecJSON r).
Definition project_view (p : AppliedProject) : string * string * string :=
  (ap_ProjectName p, ap_Env p, ap_Version p).
Definition env_view (env projectName : string) (s : S) :=
  (row_view <$> sort_by_pair row_key (ListAppliedResourcesByEnv env s),
   project_view <$> GetAppliedProject env projectName s).

Definition plain_view (env projectName : string) (s : S) : Prop :=
  Forall plain_row (ListAppliedResourcesByEnv env s) ∧
  ∀ p, GetAppliedProject env projectName s = Some p → plain_project p.

Definition row_body (r : AppliedResource) : string :=
  ar_Kind r +:+ nul (ar_Name r +:+ nul (ar_SpecHash r +:+ nul (ar_NormalizedSpecJSON r))).
Definition project_body (p : option AppliedProject) : string :=
  match p with
  | None => "applied_projects" +:+ nul "MISSING"
  | Some p => "applied_projects" +:+ nul (ap_ProjectName p +:+ nul (ap_Env p +:+ nul (ap_Version p)))
  end.

Lemma row_line_eq r t : row_line r +:+ t = row_body r +:+ String "010" t.
Proof. unfold row_line, row_body, nul, newline. by repeat (rewrite ?string_app_assoc, ?string_app_cons). Qed.
Lemma project_line_eq p : project_line p = project_body p +:+ newline.
Proof.
  unfold project_line, project_body. destruct p as [p|]; [|done].
  unfold nul, newline. by repeat (rewrite ?string_app_assoc, ?string_app_cons).
Qed.

Lemma no_newline_nul s t : no_newline s → no_newline t → no_newline (s +:+ nul t).
Proof. unfold no_newline. intros Hs Ht. rewrite str_contains_byte_app, Hs. done. Qed.

Lemma row_body_line r : plain_row r → no_newline (row_body r).
Proof. intros (_ & _ & _ & H1 & H2 & H3 & H4). unfold row_body. by repeat apply no_newline_nul. Qed.
Lemma project_body_line p : (∀ q, p = Some q → plain_project q) → no_newline (project_body p).
Proof.
  intros H. destruct p as [p|]; [|done]. destruct (H p eq_refl) as (_ & _ & H1 & H2 & H3).
  unfold project_body. by repeat apply no_newline_nul.
Qed.

Lemma row_body_inj r1 r2 : plain_row r1 → plain_row r2 → row_body r1 = row_body r2 → row_view r1 = row_view r2.
Proof.
  intros (K1 & N1 & H1 & _) (K2 & N2 & H2 & _). unfold row_body, nul, row_view.
  intros [-> E1]%split_first_inj; [|done..]. apply split_first_inj in E1 as [-> E1]; [|done..].
  by apply split_first_inj in E1 as [-> ->]; [|done..].
Qed.

Lemma project_body_inj p1 p2 :
  (∀ q, p1 = Some q → plain_project q) → (∀ q, p2 = Some q → plain_project q) →
  project_body p1 = project_body p2 → project_view <$> p1 = project_view <$> p2.
Proof.
  intros H1 H2. assert (∀ p, plain_project p → "MISSING" ≠ ap_ProjectName p +:+ nul (ap_Env p +:+ nul (ap_Version p))) as Hm.
  { intros p _ E'. apply (f_equal (str_contains_byte "000"%char)) in E'.
    rewrite str_contains_byte_app in E'. symmetry in E'. apply orb_false_iff in E' as [_ E']. done. }
  destruct p1 as [p1|], p2 as [p2|]; cbn [project_body fmap option_fmap option_map]; [| | |done];
    intros Eq%string_app_inv_head; injection Eq as Eq.
  - destruct (H1 p1 eq_refl) as (N1 & V1 & _), (H2 p2 eq_refl) as (N2 & V2 & _). unfold project_view, nul in *.
    apply split_first_inj in Eq as [-> Eq]; [|done..]. by apply split_first_inj in Eq as [-> ->]; [|done..].
  - exfalso. by apply (Hm p1); [apply H1|].
  - exfalso. by apply (Hm p2); [apply H2|].
Qed.

Lemma text_cons x l : cat (x :: l) = x +:+ cat l.
Proof. done. Qed.
Lemma cat_nil : cat [] = "".
Proof. done. Qed.

Lemma lines_inj l1 l2 p1 p2 :
  Forall plain_row l1 → Forall plain_row l2 →
  (∀ q, p1 = Some q → plain_project q) → (∀ q, p2 = Some q → plain_project q) →
  cat (row_line <$> l1) +:+ project_line p1 = cat (row_line <$> l2) +:+ project_line p2 →
  row_view <$> l1 = row_view <$> l2 ∧ project_view <$> p1 = project_view <$> p2.
Proof.
  intros F1 F2 P1 P2. revert l2 F2. induction F1 as [|r1 l1 R1 _ IH]; intros l2 [|r2 l2' R2 F2];
    rewrite ?fmap_cons, ?fmap_nil, ?text_cons, ?cat_nil.
  - rewrite !string_app_nil_l, !project_line_eq. intros Eq. split; [done|].
    apply split_first_inj in Eq as [Eq _]; [by apply project_body_inj|by apply project_body_line..].
  - rewrite !string_app_nil_l, string_app_assoc, row_line_eq, !project_line_eq. intros Eq. exfalso.
    apply split_first_inj in Eq as [_ Eq]; [|by apply project_body_line|by apply row_body_line].
    symmetry in Eq. apply string_app_nil in Eq as [_ Eq]. by apply string_app_nil in Eq as [_ ?].
  - rewrite !string_app_nil_l, string_app_assoc, row_line_eq, !project_line_eq. intros Eq. exfalso.
    apply split_first_inj in Eq as [_ Eq]; [|by apply row_body_line|by apply project_body_line].
    apply string_app_nil in Eq as [_ Eq]. by apply string_app_nil in Eq as [_ ?].
  - rewrite !string_app_assoc, !row_line_eq. intros Eq.
    apply split_first_inj in Eq as [Eb Eq]; [|by apply row_body_line..].
    destruct (IH l2' F2 Eq) as [-> ->]. split; [|done]. by rewrite (row_body_inj r1 r2).
Qed.

Lemma Forall_sorted_rows (P : AppliedResource → Prop) l : Forall P l → Forall P (sort_by_pair row_key l).
Proof. intros H. unfold sort_by_pair. by rewrite merge_sort_Permutation. Qed.

Lemma fingerprint_view env n s1 s2 :
  plain_view (trim_space env) (trim_space n) s1 → plain_view (trim_space env) (trim_space n) s2 →
  fingerprint_text (trim_space env) (trim_space n) s1 = fingerprint_text (trim_space env) (trim_space n) s2 →
  env_view (trim_space env) (trim_space n) s1 = env_view (trim_space env) (trim_space n) s2.
Proof.
  intros [R1 P1] [R2 P2] Ht. unfold fingerprint_text in Ht. unfold env_view.
  apply lines_inj in Ht as [-> ->]; [done|by apply Forall_sorted_rows..|done|done].
Qed.

Lemma view_fingerprint env n s1 s2 :
  env_view env n s1 = env_view env n s2 → fingerprint_text env n s1 = fingerprint_text env n s2.
Proof.
  intros [= Hr Hp]. unfold fingerprint_text. f_equal.
  - f_equal. revert Hr. generalize (sort_by_pair row_key (ListAppliedResourcesByEnv env s2)).
    induction (sort_by_pair row_key (ListAppliedResourcesByEnv env s1)) as [|r l IH]; intros [|r2 l2] Hr; try done.
    rewrite !fmap_cons in *. injection Hr as E1 E2 E3 E4 Hr. rewrite (IH l2 Hr). f_equal.
    unfold row_line. by rewrite E1, E2, E3, E4.
  - destruct (GetAppliedProject env n s1) as [p1|], (GetAppliedProject env n s2) as [p2|]; try done.
    injection Hp as E1 E2 E3. unfold project_line. by rewrite E1, E2, E3.
Qed.

(** C35: A stale plan is refused.  Let a plan be computed on one state of the store
    and applied to another.  Where the environment's rows (kind, name, hash, JSON)
    or the recorded project version differ, the apply changes nothing and reports
    the conflict, unless two inputs of SHA-256 collide; where they are equal, the
    check passes and the operations run. *)
Theorem stale_plan_refused transactional snapshots env g execs p at_ fin s s2 n :
  r_Name (g_Project g) = n →
  plain_view (trim_space env) (trim_space n) s → plain_view (trim_space env) (trim_space n) s2 →
  ComputePlan s env g execs = Ok p →
  (env_view (trim_space env) (trim_space n) s2 ≠ env_view (trim_space env) (trim_space n) s →
   ApplyPlanAndFinalize transactional snapshots env g p at_ fin s2 = (s2, Some ADeploymentStateChanged) ∨
   collision sha256) ∧
  (env_view (trim_space env) (trim_space n) s2 = env_view (trim_space env) (trim_space n) s →
   assertDeploymentBaseline env n p s2 = None).
Proof.
  intros <- V1 V2 Hp. destruct (ComputePlan_inv _ _ _ _ _ Hp) as (D & dp & changes & He & HD & Hdp & Hn & _ & _ & Hfp).
  destruct (desiredRows_inv _ _ _ HD) as (_ & raw & D0 & HD0 & Hdp1 & Hdp0).
  rewrite Hdp in Hdp1. injection Hdp1 as ->. cbn [project_row d_id rid_Name] in Hn, Hfp.
  set (n := r_Name (g_Project g)) in *.
  destruct (fingerprint_hash _ _ _ _ Hfp) as (t & Hb & Ht).
  assert (∃ fp2, DeploymentStateFingerprint (E := E) sha256 env n s2 = Ok fp2) as [fp2 Hfp2].
  { unfold DeploymentStateFingerprint in *. case_match; [done|]. by eexists. }
  destruct (fingerprint_hash _ _ _ _ Hfp2) as (t2 & -> & Ht2).
  assert (assertDeploymentBaseline env n p s2 =
    if (hashHex sha256 t2 =? hashHex sha256 t)%string then None else Some ADeploymentStateChanged) as Hb2.
  { unfold assertDeploymentBaseline. rewrite Hb, trim_hashHex, Hfp2.
    by rewrite (proj2 (String.eqb_neq _ "") (hashHex_ne sha256 sha256_size t)). }
  split.
  - intros Hv. destruct (String.eqb_spec (hashHex sha256 t2) (hashHex sha256 t)) as [Eh|].
    + right. apply hashHex_inj in Eh as [Et|]; [|done]. exfalso. apply Hv. apply fingerprint_view; [done..|].
      by rewrite <-Ht, <-Ht2.
    + left. unfold ApplyPlanAndFinalize, ProjectDeploymentMeta.
      rewrite (proj2 (String.eqb_neq env "") He), HD0. cbn [mbind res_bind]. rewrite Hdp0.
      unfold applyRows. cbn [project_row d_id rid_Name d_hash]. fold n. rewrite Hb2. by destruct transactional.
  - intros Hv. rewrite Hb2, Ht, Ht2, (view_fingerprint _ _ _ _ Hv). by rewrite String.eqb_refl.
Qed.

(** A transaction that fails leaves the store as it was, whatever had been written. *)
Theorem ApplyPlan_atomic snapshots env g p at_ fin (s s' : S) e :
  ApplyPlanAndFinalize true snapshots env g p at_ fin s = (s', Some e) → s' = s.
Proof.
  unfold ApplyPlanAndFinalize. intros H. repeat case_match; simplify_eq; done.
Qed.

End apply.

(** ** The identity of a workflow *)

(** A workflow's hash commits to its JSON and to its program: two workflows with
    one hash have the same JSON and the same program digest, unless SHA-256
    collides.  JSON texts hold no newline. *)
Theorem WorkflowSpecHash_commits sha256 {V E} (Marshal : V → res E string) w1 w2 raw1 raw2 x1 x2 h :
  Marshal w1 = Ok raw1 → Marshal w2 = Ok raw2 → no_newline raw1 → no_newline raw2 →
  WorkflowSpecHashWithExec sha256 Marshal w1 x1 = Ok h → WorkflowSpecHashWithExec sha256 Marshal w2 x2 = Ok h →
  (raw1 = raw2 ∧ x1 = x2) ∨ collision sha256.
Proof.
  intros M1 M2 N1 N2. unfold WorkflowSpecHashWithExec, canonicalResourceJSON. rewrite M1, M2.
  intros [= <-] [= Eh]. apply hashHex_inj in Eh as [Et|]; [left|by right]. revert Et. unfold foldedSpec.
  destruct (String.eqb_spec x1 "") as [->|H1], (String.eqb_spec x2 "") as [->|H2]; intros Et.
  - by rewrite Et.
  - exfalso. unfold no_newline in N1. rewrite <-Et, str_contains_byte_app in N1.
    apply orb_false_iff in N1 as [_ N1]. done.
  - exfalso. unfold no_newline in N2. rewrite Et, str_contains_byte_app in N2.
    apply orb_false_iff in N2 as [_ N2]. done.
  - apply split_first_inj in Et as [-> Et]; [|done..]. apply string_app_inv_head in Et as ->. done.
Qed.

(** ** An instance *)

Definition demo_sha (l : chars) : chars := take 32 (l ++ replicate 32 "0"%char).
Lemma demo_sha_size l : length (demo_sha l) = 32%nat.
Proof. unfold demo_sha. rewrite length_take, length_app, length_replicate. lia. Qed.

Definition demo_marshal (v : bool) : res string string := Ok (if v then "{}" else "[1]").
Lemma demo_marshal_text v raw : demo_marshal v = Ok raw → blank raw = false.
Proof. intros [= <-]. by destruct v. Qed.
Definition demo_unmarshal (s : string) : res string value := Ok (VStr s).
Definition demo_print (_ : chars) : bool := true.

Definition demo_graph (v : bool) : PlanGraph bool :=
  mkPlanGraph (mkResource "shop" true) None {["a" := Some (mkResource "a" v)]} ∅
    {["w" := Some (mkWorkflowResource (mkResource "w" true) "")]} ∅ ∅.
Definition demo_rows (v : bool) : list desiredRow :=
  match desiredRows demo_print demo_sha demo_marshal (demo_graph v) ∅ with Ok D => D | Err _ => [] end.
Definition demo_at : Time := mkTime 1700000000 0.
Definition demo_store : DeployTables :=
  UpsertAppliedResource (mkAppliedResource "Agent" "a" "prod" "old" "[0]" demo_at)
    (UpsertAppliedResource (mkAppliedResource "Tool" "gone" "prod" "h" "{}" demo_at) empty_tables).
Definition no_plan : Plan := mkPlan [] "" [] [].
Definition demo_plan (v : bool) (s : DeployTables) : Plan :=
  match ComputePlan demo_print demo_sha demo_marshal demo_unmarshal s "prod" (demo_graph v) ∅ with
  | Ok p => p | Err _ => no_plan end.

Lemma demo_store_ok : tables_wf demo_store.
Proof. unfold demo_store. apply (ok_upsert (ok := tables_wf)), (ok_upsert (ok := tables_wf)), tables_wf_empty. Qed.

Example demo_plan_ops :
  (λ op, (op_Action op, ResourceID_String (op_Target op))) <$> pl_Operations (demo_plan false demo_store) =
  [("create", "Project/shop"); ("create", "Workflow/w"); ("update", "Agent/a"); ("delete", "Tool/gone")].
Proof. vm_compute. reflexivity. Qed.

Lemma ApplyPlan_converges_witness :
  ∃ s', ApplyPlan (E := string) demo_print demo_sha demo_marshal true true "prod" (demo_graph false)
          (demo_plan false demo_store) demo_at demo_store = (s', None).
Proof.
  destruct (ApplyPlan_converges demo_print demo_sha demo_marshal demo_unmarshal (S := DeployTables)
    demo_sha_size demo_marshal_text true true "prod" (demo_graph false) ∅ (demo_rows false)
    (demo_plan false demo_store) demo_at demo_store) as (s' & H & _).
  - exact demo_store_ok.
  - vm_compute. reflexivity.
  - apply (bool_decide_unpack _). vm_compute. exact I.
  - vm_compute. reflexivity.
  - exists s'. exact H.
Defined.

Definition demo_changed : DeployTables :=
  UpsertAppliedResource (mkAppliedResource "Agent" "a" "prod" "newer" "[2]" demo_at) demo_store.

Lemma stale_plan_refused_witness :
  env_view "prod" "shop" demo_changed ≠ env_view "prod" "shop" demo_store ∧
  (ApplyPlanAndFinalize (E := string) demo_print demo_sha demo_marshal true true "prod" (demo_graph false)
     (demo_plan false demo_store) demo_at None demo_changed = (demo_changed, Some ADeploymentStateChanged) ∨
   collision demo_sha).
Proof.
  assert (env_view "prod" "shop" demo_changed ≠ env_view "prod" "shop" demo_store) as Hv
    by (vm_compute; discriminate).
  split; [exact Hv|].
  refine (proj1 (stale_plan_refused demo_print demo_sha demo_marshal demo_unmarshal (S := DeployTables)
    demo_sha_size demo_marshal_text true true "prod" (demo_graph false) ∅
    (demo_plan false demo_store) demo_at None demo_store demo_changed "shop" _ _ _ _) Hv).
  - reflexivity.
  - split; [vm_compute; repeat constructor|intros p H; vm_compute in H; discriminate].
  - split; [vm_compute; repeat constructor|intros p H; vm_compute in H; discriminate].
  - vm_compute. reflexivity.
Defined.
