(* ===== verification/SqliteTime.v ===== *)
(** * Stored timestamps ([internal/state/sqlite/deployment_ops.go])

    The fixed-width layout of the columns that SQLite orders and compares as text.
    The theorem: for times of the years 0 to 9999 the order of the texts is the
    order of the times, which the layout that cuts trailing zeros does not give. *)

From S2P Require Import Prelude GoNum GoText Value JsonText AuditChain.

Local Open Scope Z_scope.

(** [t.UTC().Format("2006-01-02T15:04:05.000000000Z07:00")]. *)
Definition formatSQLiteTime (t : Time) : string :=
  let '(y, m, d) := civil (t_unix t / 86400) in
  let s := t_unix t mod 86400 in
  append_int y 4 +:+ ("-" +:+ (append_int m 2 +:+ ("-" +:+ (append_int d 2 +:+ ("T" +:+
    (append_int (s / 3600) 2 +:+ (":" +:+ (append_int (s / 60 mod 60) 2 +:+ (":" +:+
    (append_int (s mod 60) 2 +:+ ("." +:+ (append_int (t_nsec t) 9 +:+ "Z")))))))))))).

Example sqlite_time_example :
  formatSQLiteTime (mkTime 1709210096 120000000) = "2024-02-29T12:34:56.120000000Z".
Proof. vm_compute. reflexivity. Qed.

(** A time from the year 0 to the year 9999. *)
Definition storable (t : Time) : Prop :=
  -62167219200 ≤ t_unix t ≤ 253402300799 ∧ 0 ≤ t_nsec t ≤ 999999999.

(** ** Lexicographic comparison *)

Definition thenc (c d : comparison) : comparison := match c with Eq => d | c => c end.

Lemma compare_app a b x y :
  String.length a = String.length b →
  String.compare (a +:+ x) (b +:+ y) = thenc (String.compare a b) (String.compare x y).
Proof.
  revert b. induction a as [|c a IH]; intros [|d b] Hl; try done. rewrite !string_app_cons. simpl in *.
  rewrite IH by congruence. by destruct (Ascii.compare c d).
Qed.

Lemma compare_sep s x y : String.compare (s +:+ x) (s +:+ y) = String.compare x y.
Proof.
  induction s as [|c s IH]; [done|]. rewrite !string_app_cons. simpl.
  unfold Ascii.compare. by rewrite N.compare_refl.
Qed.

Lemma thenc_Z a b c d (x y : Z) k :
  (a ?= b) = (x ?= y) → (x = y → (c ?= d) = k) → thenc (a ?= b) (c ?= d) = thenc (x ?= y) k.
Proof. intros E Hk. rewrite E. destruct (Z.compare_spec x y); [by apply Hk|done..]. Qed.

(** A number in two digits of base [k]. *)
Lemma compare_divmod a b k :
  0 < k → thenc (a / k ?= b / k) (a mod k ?= b mod k) = (a ?= b).
Proof.
  intros Hk. pose proof (Z.div_mod a k ltac:(lia)) as Ha. pose proof (Z.div_mod b k ltac:(lia)) as Hb.
  pose proof (Z.mod_pos_bound a k Hk). pose proof (Z.mod_pos_bound b k Hk).
  destruct (Z.compare_spec (a / k) (b / k)); simpl; symmetry.
  - destruct (Z.compare_spec (a mod k) (b mod k)); [apply Z.compare_eq_iff|apply Z.compare_lt_iff|apply Z.compare_gt_iff]; nia.
  - apply Z.compare_lt_iff. nia.
  - apply Z.compare_gt_iff. nia.
Qed.

(** ** Numbers of a fixed width *)

Lemma digits_value_acc s : ∀ acc n, digits_value 0 s = Some n →
  digits_value acc s = Some (acc * 10 ^ Z.of_nat (String.length s) + n) ∧
  0 ≤ n < 10 ^ Z.of_nat (String.length s).
Proof.
  assert (∀ acc acc' n, digits_value acc s = Some n →
    digits_value acc' s = Some ((acc' - acc) * 10 ^ Z.of_nat (String.length s) + n) ∧
    acc * 10 ^ Z.of_nat (String.length s) ≤ n < (acc + 1) * 10 ^ Z.of_nat (String.length s)) as H.
  { induction s as [|c s IH]; intros acc acc' n.
    - intros [= <-]. simpl. split; [f_equal; lia|lia].
    - cbn [digits_value String.length]. destruct (is_digit c) eqn:Hc; [|done]. intros Hn.
      set (v := Z.of_N (N_of_ascii c) - 48) in *.
      assert (0 ≤ v ≤ 9) as Hv.
      { unfold is_digit in Hc. apply andb_true_iff in Hc as [H1%N.leb_le H2%N.leb_le]. subst v. lia. }
      destruct (IH (acc * 10 + v) (acc' * 10 + v) n Hn) as [E B]. rewrite E.
      replace (Z.of_nat (S (String.length s))) with (Z.of_nat (String.length s) + 1) by lia.
      rewrite Z.pow_add_r, Z.pow_1_r by lia.
      assert (0 < 10 ^ Z.of_nat (String.length s)) by lia. split; [f_equal; nia|nia]. }
  intros acc n Hn. destruct (H 0 acc n Hn) as [E B]. rewrite E. split; [f_equal; nia|lia].
Qed.

Lemma digits_value_any s p q x : digits_value p s = Some x → ∃ n, digits_value q s = Some n.
Proof.
  revert p q. induction s as [|e s IH]; intros p q; [by eexists|]. cbn [digits_value].
  case_match; [apply IH|done].
Qed.

Lemma compare_digits a b x y :
  String.length a = String.length b → digits_value 0 a = Some x → digits_value 0 b = Some y →
  String.compare a b = (x ?= y).
Proof.
  revert b x y. induction a as [|c a IH]; intros [|d b] x y Hl; try done.
  { intros [= <-] [= <-]. done. }
  cbn [digits_value String.compare String.length] in *. injection Hl as Hl.
  destruct (is_digit c) eqn:Hc, (is_digit d) eqn:Hd; try done. intros Hx Hy.
  destruct (digits_value_any a _ 0 x Hx) as [n Hn]. destruct (digits_value_any b _ 0 y Hy) as [m Hm].
  destruct (digits_value_acc a (0 * 10 + (Z.of_N (N_of_ascii c) - 48)) n Hn) as [Ea Ba].
  destruct (digits_value_acc b (0 * 10 + (Z.of_N (N_of_ascii d) - 48)) m Hm) as [Eb Bb].
  rewrite Ea in Hx. rewrite Eb in Hy. injection Hx as <-. injection Hy as <-.
  rewrite (IH b n m Hl Hn Hm), Hl in *.
  set (P := 10 ^ Z.of_nat (String.length b)) in *. assert (0 < P) by (subst P; lia).
  unfold Ascii.compare.
  destruct (N.compare_spec (N_of_ascii c) (N_of_ascii d)) as [E|E|E]; symmetry.
  - rewrite E. destruct (Z.compare_spec n m); [apply Z.compare_eq_iff|apply Z.compare_lt_iff|apply Z.compare_gt_iff]; lia.
  - apply Z.compare_lt_iff. nia.
  - apply Z.compare_gt_iff. nia.
Qed.

Lemma pretty_length (n : N) w : (n < 10 ^ N.of_nat w)%N → (0 < w)%nat → (String.length (pretty n) <= w)%nat.
Proof.
  intros Hn Hw. unfold pretty, pretty_N. case_decide; [simpl; lia|].
  assert (∀ w n s, (n < 10 ^ N.of_nat w)%N → (String.length (pretty_N_go n s) <= w + String.length s)%nat) as Hgo.
  { clear. induction w as [|w IH]; intros n s Hn.
    - assert (n = 0%N) as -> by (simpl in Hn; lia). by rewrite pretty_N_go_0.
    - destruct (decide (0 < n)%N) as [Hp|Hp].
      + rewrite pretty_N_go_step by done. etrans; [apply IH|simpl; lia].
        apply N.Div0.div_lt_upper_bound. by rewrite Nat2N.inj_succ, N.pow_succ_r' in Hn.
      + assert (n = 0%N) as -> by lia. rewrite pretty_N_go_0. simpl. lia. }
  specialize (Hgo w n "" Hn). simpl in Hgo. lia.
Qed.

Lemma append_int_spec x w :
  (0 < w)%nat → 0 ≤ x < 10 ^ Z.of_nat w →
  String.length (append_int x w) = w ∧ digits_value 0 (append_int x w) = Some x.
Proof.
  intros Hw Hx. unfold append_int. rewrite (proj2 (Z.ltb_ge x 0)) by lia. rewrite string_app_nil_l.
  assert (String.length (pretty (Z.to_N (Z.abs x))) <= w)%nat as Hl.
  { apply pretty_length; [|done]. rewrite Z.abs_eq by lia. apply N2Z.inj_lt.
    rewrite Z2N.id, N2Z.inj_pow by lia. rewrite nat_N_Z. simpl. lia. }
  pose proof (digits_value_N (Z.to_N (Z.abs x))) as Hv. rewrite Z.abs_eq, Z2N.id in Hv by lia.
  rewrite Z.abs_eq in Hl |- * by lia. revert Hl Hv. generalize (pretty (Z.to_N x)). intros s Hl Hv.
  assert (∀ k, String.length (pad_zeros k s) = (k + String.length s)%nat ∧ digits_value 0 (pad_zeros k s) = Some x) as Hp.
  { induction k as [|k [IH1 IH2]]; [done|]. cbn [pad_zeros String.length]. rewrite IH1. split; [lia|].
    cbn [digits_value]. done. }
  destruct (Hp (w - String.length s)%nat) as [-> ->]. split; [lia|done].
Qed.

(** One field of the text. *)
Lemma compare_field w a b x y sep :
  (0 < w)%nat → 0 ≤ a < 10 ^ Z.of_nat w → 0 ≤ b < 10 ^ Z.of_nat w →
  String.compare (append_int a w +:+ (sep +:+ x)) (append_int b w +:+ (sep +:+ y)) =
  thenc (a ?= b) (String.compare x y).
Proof.
  intros Hw Ha Hb. destruct (append_int_spec a w Hw Ha) as [La Va], (append_int_spec b w Hw Hb) as [Lb Vb].
  rewrite compare_app, compare_sep by congruence. f_equal. apply compare_digits; congruence.
Qed.

(** ** Dates are ordered as days *)

Definition g (y : Z) : Z := 365 * y + y / 4 - y / 100.

Lemma yoe_spec doe :
  0 ≤ doe ≤ 146096 →
  let yoe := (doe - doe / 1460 + doe / 36524 - doe / 146096) / 365 in
  0 ≤ yoe ≤ 399 ∧ g yoe ≤ doe ∧ (doe < g (yoe + 1) ∨ yoe = 399).
Proof.
  intros H. cbv zeta. unfold g.
  set (a := doe / 1460). set (b := doe / 36524). set (c := doe / 146096).
  assert (c = 0 ∨ doe = 146096) as [Hc| ->] by (subst c; Z.to_euclidean_division_equations; lia).
  2: { subst a b c. vm_compute. repeat split; try discriminate. by right. }
  assert (0 ≤ a ≤ 100 ∧ 1460 * a ≤ doe < 1460 * a + 1460) by (subst a; Z.to_euclidean_division_equations; lia).
  assert (0 ≤ b ≤ 3 ∧ 36524 * b ≤ doe < 36524 * b + 36524) by (subst b c; Z.to_euclidean_division_equations; lia).
  clearbody a b c. subst c. rewrite Z.sub_0_r.
  set (yoe := (doe - a + b) / 365).
  assert (365 * yoe ≤ doe - a + b < 365 * yoe + 365) by (subst yoe; Z.to_euclidean_division_equations; lia).
  clearbody yoe. assert (b = 0 ∨ b = 1 ∨ b = 2 ∨ b = 3) as Hb by lia.
  destruct Hb as [->|[->|[->| ->]]]; Z.to_euclidean_division_equations; lia.
Qed.

Lemma g_mono x y : 0 ≤ x ≤ y → g x ≤ g y.
Proof.
  intros H. unfold g. pose proof (Z.div_le_mono x y 4 ltac:(lia) ltac:(lia)).
  assert (y / 100 - x / 100 ≤ y - x) by (Z.to_euclidean_division_equations; lia). lia.
Qed.

Definition lex3 (a b : Z * Z * Z) : Prop :=
  a.1.1 < b.1.1 ∨ (a.1.1 = b.1.1 ∧ (a.1.2 < b.1.2 ∨ (a.1.2 = b.1.2 ∧ a.2 < b.2))).

(** The year of the era, the month counted from March and the day. *)
Lemma civil_fields days :
  ∃ era yoe doy mp,
    days + 719468 = era * 146097 + g yoe + doy ∧ 0 ≤ yoe ≤ 399 ∧ 0 ≤ doy ≤ 365 ∧
    (g yoe + doy < g (yoe + 1) ∨ yoe = 399) ∧ g yoe + doy ≤ 146096 ∧
    mp = (5 * doy + 2) / 153 ∧ 0 ≤ mp ≤ 11 ∧
    civil days = (yoe + era * 400 + (if (if mp <? 10 then mp + 3 else mp - 9) <=? 2 then 1 else 0),
                  if mp <? 10 then mp + 3 else mp - 9, doy - (153 * mp + 2) / 5 + 1).
Proof.
  unfold civil. cbv zeta. set (z := days + 719468).
  pose proof (Z.div_mod z 146097 ltac:(lia)) as Hz. pose proof (Z.mod_pos_bound z 146097 ltac:(lia)) as Hb.
  set (era := z / 146097) in *. set (doe := z mod 146097) in *. clearbody era doe.
  destruct (yoe_spec doe ltac:(lia)) as (Hy & Hg & Hn).
  set (yoe := (doe - doe / 1460 + doe / 36524 - doe / 146096) / 365) in *. clearbody yoe.
  assert (doe - (365 * yoe + yoe / 4 - yoe / 100) = doe - g yoe) as -> by (unfold g; lia).
  assert (0 ≤ doe - g yoe ≤ 365) as Hd.
  { split; [lia|]. destruct Hn as [Hn| ->].
    - assert (g (yoe + 1) ≤ g yoe + 366); [|lia]. unfold g. Z.to_euclidean_division_equations; lia.
    - unfold g. simpl. change (399 / 4) with 99. change (399 / 100) with 3. lia. }
  exists era, yoe, (doe - g yoe), ((5 * (doe - g yoe) + 2) / 153).
  split; [lia|]. split; [done|]. split; [done|]. split; [destruct Hn; [left; lia|by right]|].
  split; [lia|]. split; [done|]. split; [Z.to_euclidean_division_equations; lia|]. done.
Qed.

Lemma civil_lt d1 d2 : d1 < d2 → lex3 (civil d1) (civil d2).
Proof.
  intros Hlt.
  destruct (civil_fields d1) as (e1 & y1 & o1 & p1 & E1 & Y1 & O1 & N1 & B1 & P1 & Q1 & ->).
  destruct (civil_fields d2) as (e2 & y2 & o2 & p2 & E2 & Y2 & O2 & N2 & B2 & P2 & Q2 & ->).
  assert (0 ≤ g y1) by (change 0 with (g 0); apply g_mono; lia).
  assert (0 ≤ g y2) by (change 0 with (g 0); apply g_mono; lia).
  assert (e1 < e2 ∨ (e1 = e2 ∧ (y1 < y2 ∨ (y1 = y2 ∧ o1 < o2)))) as Hcmp.
  { destruct (Z.lt_trichotomy e1 e2) as [|[->|]]; [by left| |exfalso; nia]. right. split; [done|].
    destruct (Z.lt_trichotomy y1 y2) as [|[->|Hy]]; [by left|right; lia|]. exfalso.
    destruct N2 as [N2|N2]; [|lia]. assert (g (y2 + 1) ≤ g y1) by (apply g_mono; lia). lia. }
  assert (y1 + e1 * 400 < y2 + e2 * 400 ∨ (y1 + e1 * 400 = y2 + e2 * 400 ∧ (p1 < p2 ∨ (p1 = p2 ∧ o1 < o2)))) as Hc.
  { destruct Hcmp as [He|[-> [Hy|[-> Ho]]]]; [left; lia|left; lia|]. right. split; [done|].
    assert (p1 ≤ p2) by (subst p1 p2; apply Z.div_le_mono; lia). lia. }
  clear - Hc Q1 Q2. unfold lex3. cbn [fst snd].
  destruct (Z.ltb_spec p1 10), (Z.ltb_spec p2 10); repeat case_match; bool_inv;
    destruct Hc as [Hy|[Hy [Hp|[Hp Ho]]]]; subst; lia.
Qed.

Lemma civil_compare d1 d2 y1 m1 a1 y2 m2 a2 :
  civil d1 = (y1, m1, a1) → civil d2 = (y2, m2, a2) →
  thenc (y1 ?= y2) (thenc (m1 ?= m2) (a1 ?= a2)) = (d1 ?= d2).
Proof.
  intros H1 H2. destruct (Z.compare_spec d1 d2) as [->|Hlt|Hlt].
  - rewrite H1 in H2. injection H2 as -> -> ->. by rewrite !Z.compare_refl.
  - apply civil_lt in Hlt. rewrite H1, H2 in Hlt. unfold lex3 in Hlt. cbn [fst snd] in Hlt.
    destruct Hlt as [?%Z.compare_lt_iff|[-> [?%Z.compare_lt_iff|[-> ?%Z.compare_lt_iff]]]];
      rewrite ?Z.compare_refl; cbn [thenc]; by repeat match goal with H : (_ ?= _) = Lt |- _ => rewrite H end.
  - apply civil_lt in Hlt. rewrite H1, H2 in Hlt. unfold lex3 in Hlt. cbn [fst snd] in Hlt.
    destruct Hlt as [?%Z.compare_gt_iff|[-> [?%Z.compare_gt_iff|[-> ?%Z.compare_gt_iff]]]];
      rewrite ?Z.compare_refl; cbn [thenc]; by repeat match goal with H : (_ ?= _) = Gt |- _ => rewrite H end.
Qed.

Lemma civil_range days y m d :
  -719528 ≤ days ≤ 2932896 → civil days = (y, m, d) → 0 ≤ y ≤ 9999 ∧ 1 ≤ m ≤ 12 ∧ 1 ≤ d ≤ 31.
Proof.
  intros Hd E. assert (0 ≤ y ≤ 9999) as Hy.
  { split.
    - destruct (decide (days = -719528)) as [->|]; [vm_compute in E; by injection E as <- _ _|].
      assert (lex3 (civil (-719528)) (civil days)) as Hl by (apply civil_lt; lia). rewrite E in Hl.
      change (civil (-719528)) with (0, 1, 1) in Hl. unfold lex3 in Hl. simpl in Hl. lia.
    - destruct (decide (days = 2932896)) as [->|]; [vm_compute in E; by injection E as <- _ _|].
      assert (lex3 (civil days) (civil 2932896)) as Hl by (apply civil_lt; lia). rewrite E in Hl.
      change (civil 2932896) with (9999, 12, 31) in Hl. unfold lex3 in Hl. simpl in Hl. lia. }
  split; [done|]. destruct (civil_fields days) as (e1 & y1 & o1 & p1 & _ & _ & O1 & _ & _ & P1 & Q1 & E').
  rewrite E in E'. injection E' as _ -> ->. split; [case_match; bool_inv; lia|].
  subst p1. clear - O1. Z.to_euclidean_division_equations; lia.
Qed.

(** ** The order of the texts *)

(** [t1.Before(t2)]. *)
Definition time_compare (t1 t2 : Time) : comparison :=
  thenc (t_unix t1 ?= t_unix t2) (t_nsec t1 ?= t_nsec t2).

Lemma thenc_assoc a b c : thenc (thenc a b) c = thenc a (thenc b c).
Proof. by destruct a. Qed.

(** Text order is time order.  Two timestamps stored by [formatSQLiteTime], of
    the years 0 to 9999, compare as texts just as they compare as times, down to
    the nanosecond: [ORDER BY started_at] and [started_at < cutoff] are
    chronological. *)
Theorem formatSQLiteTime_order t1 t2 :
  storable t1 → storable t2 →
  String.compare (formatSQLiteTime t1) (formatSQLiteTime t2) = time_compare t1 t2.
Proof.
  intros [U1 N1] [U2 N2]. unfold formatSQLiteTime.
  destruct (civil (t_unix t1 / 86400)) as [[y1 m1] d1] eqn:C1.
  destruct (civil (t_unix t2 / 86400)) as [[y2 m2] d2] eqn:C2.
  assert (∀ u, -62167219200 ≤ u ≤ 253402300799 → -719528 ≤ u / 86400 ≤ 2932896) as Hday.
  { intros u Hu. Z.to_euclidean_division_equations; lia. }
  destruct (civil_range _ _ _ _ (Hday _ U1) C1) as (Y1 & M1 & D1).
  destruct (civil_range _ _ _ _ (Hday _ U2) C2) as (Y2 & M2 & D2).
  pose proof (Z.mod_pos_bound (t_unix t1) 86400 ltac:(lia)) as S1.
  pose proof (Z.mod_pos_bound (t_unix t2) 86400 ltac:(lia)) as S2. cbv zeta.
  set (s1 := t_unix t1 mod 86400) in *. set (s2 := t_unix t2 mod 86400) in *.
  assert (∀ s, 0 ≤ s < 86400 → 0 ≤ s / 3600 < 24 ∧ 0 ≤ s / 60 mod 60 < 60 ∧ 0 ≤ s mod 60 < 60) as Hs.
  { intros s Hs. split; [Z.to_euclidean_division_equations; lia|]. split; apply Z.mod_pos_bound; lia. }
  destruct (Hs s1 S1) as (H1 & I1 & J1), (Hs s2 S2) as (H2 & I2 & J2). clear Hs Hday.
  change "Z" with ("Z" +:+ ""). rewrite !compare_field by (simpl; lia).
  unfold time_compare. rewrite <-(compare_divmod (t_unix t1) (t_unix t2) 86400) by lia. fold s1 s2.
  rewrite <-(civil_compare _ _ _ _ _ _ _ _ C1 C2).
  assert ((s1 ?= s2) = thenc (s1 / 3600 ?= s2 / 3600)
            (thenc (s1 / 60 mod 60 ?= s2 / 60 mod 60) (s1 mod 60 ?= s2 mod 60))) as ->.
  { rewrite <-(compare_divmod s1 s2 60), <-(compare_divmod (s1 / 60) (s2 / 60) 60) by lia.
    rewrite !Z.div_div by lia. change (60 * 60) with 3600. apply thenc_assoc. }
  rewrite !thenc_assoc. by destruct (t_nsec t1 ?= t_nsec t2).
Qed.

Lemma formatSQLiteTime_order_witness :
  String.compare (formatSQLiteTime (mkTime 1709210096 0)) (formatSQLiteTime (mkTime 1709210096 500000000)) = Lt.
Proof.
  rewrite (formatSQLiteTime_order (mkTime 1709210096 0) (mkTime 1709210096 500000000));
    [reflexivity| |]; (split; cbv; split; discriminate).
Defined.

(** The layout that cuts trailing zeros puts a whole second after its fractions. *)
Lemma rfc3339nano_misorders :
  String.compare (format_rfc3339nano (mkTime 1709210096 0)) (format_rfc3339nano (mkTime 1709210096 500000000)) = Gt.
Proof. vm_compute. reflexivity. Qed.
