(* ===== verification/StateRuns.v ===== *)
(** * Runs in the state store ([internal/state/attribution.go],
      [internal/state/sqlite/runtime.go], [checkpoint.go])

    The tables of runs, steps, trace events and checkpoints and the operations on
    them; the rows of a run's events and checkpoints are lists in the order of
    their sequence numbers.  A foreign key makes a child row need its run, and a
    deleted run takes its children along.  The trace of a run is the chain of
    [AuditChain]. *)

From S2P Require Import Prelude GoNum GoText Value JsonText AuditChain StateStore SqliteTime.

Local Open Scope Z_scope.

(** ** Rows ([models.go]) *)

Definition RunStatusRunning : string := "running".
Definition RunStatusInterrupted : string := "interrupted".
Definition RunStatusSucceeded : string := "succeeded".
Definition RunStatusFailed : string := "failed".

Record Run := mkRun {
  run_RunID : string; run_WorkflowName : string; run_Env : string; run_Status : string;
  run_StartedAt : Time; run_FinishedAt : option Time;
  run_InputJSON : string; run_OutputJSON : string; run_ErrorText : string; run_TotalCostUSD : f64;
  run_WorkflowSpecHash : string; run_EnvironmentName : string; run_DeploymentSnapshotDigest : string;
  run_TenantID : string; run_ThreadID : string; run_ActorID : string; run_ParentRunID : string;
  run_RequestID : string; run_IdempotencyKey : string; run_Source : string;
}.

Record RunStep := mkRunStep {
  rs_RunID : string; rs_StepID : string; rs_Status : string;
  rs_StartedAt : option Time; rs_FinishedAt : option Time;
  rs_InputJSON : string; rs_OutputJSON : string; rs_ErrorText : string; rs_CostUSD : f64;
}.

Record RunCheckpoint := mkRunCheckpoint {
  cp_RunID : string; cp_Seq : Z; cp_StepIndex : Z; cp_StepID : string; cp_ContextJSON : string;
  cp_Status : string; cp_CreatedAt : Time;
}.

Record RunTables := mkRunTables {
  runs : gmap string Run;
  run_steps : gmap (string * string) RunStep;        (* run_id, step_id *)
  trace_events : gmap string (list TraceEvent);
  run_checkpoints : gmap string (list RunCheckpoint);
}.
Definition empty_runs : RunTables := mkRunTables ∅ ∅ ∅ ∅.

Definition with_runs (t : RunTables) m : RunTables :=
  mkRunTables m (run_steps t) (trace_events t) (run_checkpoints t).
Definition events_of (t : RunTables) (runID : string) : list TraceEvent := default [] (trace_events t !! runID).
Definition checkpoints_of (t : RunTables) (runID : string) : list RunCheckpoint :=
  default [] (run_checkpoints t !! runID).

(** ** Attribution ([attribution.go]) *)

Definition DefaultTenantID : string := "tenant-1".
Definition DefaultThreadID : string := "thread-1".
Definition DefaultActorID : string := "user-1".
Definition DefaultSource : string := "cli".

Record RunAttribution := mkRunAttribution {
  ra_TenantID : string; ra_ThreadID : string; ra_ActorID : string; ra_ParentRunID : string;
  ra_RequestID : string; ra_IdempotencyKey : string; ra_Source : string;
}.

Definition or_default (s d : string) : string :=
  if (trim_space s =? "")%string then trim_space d else trim_space s.

Definition NormalizeAttribution (a : RunAttribution) : RunAttribution :=
  mkRunAttribution (or_default (ra_TenantID a) DefaultTenantID) (or_default (ra_ThreadID a) DefaultThreadID)
    (or_default (ra_ActorID a) DefaultActorID) (trim_space (ra_ParentRunID a))
    (trim_space (ra_RequestID a)) (trim_space (ra_IdempotencyKey a)) (or_default (ra_Source a) DefaultSource).

Definition UsesAttributionDefaults (a : RunAttribution) : bool :=
  (trim_space (ra_TenantID a) =? "")%string || (trim_space (ra_ThreadID a) =? "")%string ||
  (trim_space (ra_ActorID a) =? "")%string.

(** The missing ids; the error lists them. *)
Definition RequireExplicitAttribution (a : RunAttribution) : option (list string) :=
  let missing :=
    (if (trim_space (ra_TenantID a) =? "")%string then ["tenant_id"] else []) ++
    (if (trim_space (ra_ThreadID a) =? "")%string then ["thread_id"] else []) ++
    (if (trim_space (ra_ActorID a) =? "")%string then ["actor_id"] else []) in
  match missing with [] => None | _ => Some missing end.

Definition AttributionFromRun (r : Run) : RunAttribution :=
  mkRunAttribution (run_TenantID r) (run_ThreadID r) (run_ActorID r) (run_ParentRunID r)
    (run_RequestID r) (run_IdempotencyKey r) (run_Source r).

Definition set_attribution (r : Run) (a : RunAttribution) : Run :=
  mkRun (run_RunID r) (run_WorkflowName r) (run_Env r) (run_Status r) (run_StartedAt r)
    (run_FinishedAt r) (run_InputJSON r) (run_OutputJSON r) (run_ErrorText r) (run_TotalCostUSD r)
    (run_WorkflowSpecHash r) (run_EnvironmentName r) (run_DeploymentSnapshotDigest r)
    (ra_TenantID a) (ra_ThreadID a) (ra_ActorID a) (ra_ParentRunID a) (ra_RequestID a)
    (ra_IdempotencyKey a) (ra_Source a).

Definition ApplyAttribution (r : Run) (a : RunAttribution) : Run := set_attribution r (NormalizeAttribution a).

(** ** Run list limits ([limits.go]) *)

Definition DefaultRunListLimit : Z := 50.
Definition MaxRunListLimit : Z := 500.
Definition ClampRunListLimit (limit : Z) : Z :=
  if limit <=? 0 then DefaultRunListLimit else if MaxRunListLimit <? limit then MaxRunListLimit else limit.

(** ** Operations *)

(** An outcome of a statement: the tables after it and the error. *)
Definition stored : Type := RunTables * option store_error.

Definition or_object (s : string) : string := if (s =? "")%string then "{}" else s.

(** [uuid] is the identifier [util.NewRequestID] would draw.  The columns the
    statement does not name have their defaults. *)
Definition StartRun (uuid : string) (r : Run) (t : RunTables) : stored :=
  let attr := NormalizeAttribution (AttributionFromRun r) in
  let attr := mkRunAttribution (ra_TenantID attr) (ra_ThreadID attr) (ra_ActorID attr)
    (ra_ParentRunID attr) (if (ra_RequestID attr =? "")%string then uuid else ra_RequestID attr)
    (ra_IdempotencyKey attr) (ra_Source attr) in
  match runs t !! run_RunID r with
  | Some _ => (t, Some ErrConstraint)
  | None =>
      let row := mkRun (run_RunID r) (run_WorkflowName r) (run_Env r) (run_Status r) (run_StartedAt r)
        None (or_object (run_InputJSON r)) "" "" (run_TotalCostUSD r)
        (run_WorkflowSpecHash r) (run_EnvironmentName r) (run_DeploymentSnapshotDigest r) "" "" "" "" "" "" "" in
      (with_runs t (<[run_RunID r := set_attribution row attr]> (runs t)), None)
  end.

Definition set_status (status : string) (r : Run) : Run :=
  mkRun (run_RunID r) (run_WorkflowName r) (run_Env r) status (run_StartedAt r)
    (run_FinishedAt r) (run_InputJSON r) (run_OutputJSON r) (run_ErrorText r) (run_TotalCostUSD r)
    (run_WorkflowSpecHash r) (run_EnvironmentName r) (run_DeploymentSnapshotDigest r)
    (run_TenantID r) (run_ThreadID r) (run_ActorID r) (run_ParentRunID r) (run_RequestID r)
    (run_IdempotencyKey r) (run_Source r).

Definition set_finished (status : string) (at_ : Time) (out err : string) (cost : f64) (r : Run) : Run :=
  mkRun (run_RunID r) (run_WorkflowName r) (run_Env r) status (run_StartedAt r)
    (Some at_) (run_InputJSON r) out err cost
    (run_WorkflowSpecHash r) (run_EnvironmentName r) (run_DeploymentSnapshotDigest r)
    (run_TenantID r) (run_ThreadID r) (run_ActorID r) (run_ParentRunID r) (run_RequestID r)
    (run_IdempotencyKey r) (run_Source r).

(** An UPDATE of one run; no row is an error. *)
Definition update_run (runID : string) (f : Run → Run) (t : RunTables) : stored :=
  match runs t !! runID with
  | Some r => (with_runs t (<[runID := f r]> (runs t)), None)
  | None => (t, Some ErrNoRows)
  end.

Definition FinishRun (runID status : string) (finishedAt : Time) (outputJSON errorText : string)
    (totalCostUSD : f64) (t : RunTables) : stored :=
  update_run runID (set_finished status finishedAt outputJSON errorText totalCostUSD) t.

Definition UpdateRunStatus (runID status : string) (t : RunTables) : stored :=
  update_run runID (set_status status) t.

(** The compare-and-set lease: whether this caller won. *)
Definition ClaimRunForResume (runID : string) (t : RunTables) : RunTables * bool :=
  match runs t !! runID with
  | Some r =>
      if (run_Status r =? RunStatusInterrupted)%string
      then (with_runs t (<[runID := set_status RunStatusRunning r]> (runs t)), true)
      else (t, false)
  | None => (t, false)
  end.

Definition UpsertRunStep (st : RunStep) (t : RunTables) : stored :=
  match runs t !! rs_RunID st with
  | None => (t, Some ErrConstraint)
  | Some _ => (mkRunTables (runs t) (<[(rs_RunID st, rs_StepID st) := st]> (run_steps t))
                 (trace_events t) (run_checkpoints t), None)
  end.

Section trace.
Context (sha256 : chars → chars).

Definition AppendTraceEvent (runID : string) (ts : Time) (eventType actorType stepID dataJSON : string)
    (t : RunTables) : RunTables * res store_error Z :=
  match runs t !! runID with
  | None => (t, Err ErrNoRows)
  | Some r =>
      let who := mkAttribution (run_TenantID r) (run_ThreadID r) (run_ActorID r) in
      let rows := events_of t runID in
      let rows' := AuditChain.AppendTraceEvent sha256 runID who rows ts eventType actorType stepID dataJSON in
      (mkRunTables (runs t) (run_steps t) (<[runID := rows']> (trace_events t)) (run_checkpoints t),
       Ok (next_seq rows))
  end.
End trace.

Definition next_checkpoint_seq (rows : list RunCheckpoint) : Z := foldr Z.max 0 (cp_Seq <$> rows) + 1.

Definition SaveCheckpoint (cp : RunCheckpoint) (t : RunTables) : stored :=
  match runs t !! cp_RunID cp with
  | None => (t, Some ErrConstraint)
  | Some _ =>
      let rows := checkpoints_of t (cp_RunID cp) in
      let row := mkRunCheckpoint (cp_RunID cp) (next_checkpoint_seq rows) (cp_StepIndex cp) (cp_StepID cp)
        (or_object (cp_ContextJSON cp)) (cp_Status cp) (cp_CreatedAt cp) in
      (mkRunTables (runs t) (run_steps t) (trace_events t)
         (<[cp_RunID cp := rows ++ [row]]> (run_checkpoints t)), None)
  end.

Definition GetLatestCheckpoint (runID : string) (t : RunTables) : res store_error RunCheckpoint :=
  match last (checkpoints_of t runID) with Some cp => Ok cp | None => Err ErrNoRows end.

Definition ListCheckpointsByRunID (runID : string) (t : RunTables) : list RunCheckpoint :=
  checkpoints_of t runID.
Definition ListTraceEventsByRunID (runID : string) (t : RunTables) : list TraceEvent := events_of t runID.

Definition GetRun (runID : string) (t : RunTables) : res store_error Run :=
  match runs t !! runID with Some r => Ok r | None => Err ErrNoRows end.

(** [ORDER BY step_id ASC]. *)
Definition ListRunStepsByRunID (runID : string) (t : RunTables) : list RunStep :=
  sort_by rs_StepID (filter (λ st, rs_RunID st = runID) (snd <$> map_to_list (run_steps t))).

(** [ORDER BY started_at DESC LIMIT ?]: the order of rows that started together is open. *)
Definition started_ge (a b : Run) : Prop :=
  String.le (formatSQLiteTime (run_StartedAt b)) (formatSQLiteTime (run_StartedAt a)).
#[export] Instance started_ge_dec : RelDecision started_ge.
Proof. intros a b. unfold started_ge. apply _. Defined.

Definition newest (limit : Z) (rs : list Run) : list Run :=
  take (Z.to_nat (ClampRunListLimit limit)) (merge_sort started_ge rs).

Definition all_runs (t : RunTables) : list Run := snd <$> map_to_list (runs t).

Definition ListRecentRuns (limit : Z) (t : RunTables) : list Run := newest limit (all_runs t).
Definition ListRunsByWorkflow (workflowName : string) (limit : Z) (t : RunTables) : list Run :=
  newest limit (filter (λ r, run_WorkflowName r = workflowName) (all_runs t)).

Record RunListFilter := mkRunListFilter {
  rf_TenantID : string; rf_ThreadID : string; rf_ActorID : string; rf_WorkflowName : string; rf_Limit : Z;
}.
Definition filter_matches (f : RunListFilter) (r : Run) : bool :=
  let clause want got := (trim_space want =? "")%string || (got =? trim_space want)%string in
  clause (rf_TenantID f) (run_TenantID r) && clause (rf_ThreadID f) (run_ThreadID r) &&
  clause (rf_ActorID f) (run_ActorID r) && clause (rf_WorkflowName f) (run_WorkflowName r).
Definition ListRunsFiltered (f : RunListFilter) (t : RunTables) : list Run :=
  newest (rf_Limit f) (filter (λ r, filter_matches f r = true) (all_runs t)).

(** Only finished runs are pruned. *)
Definition resumable (r : Run) : bool :=
  (run_Status r =? RunStatusRunning)%string || (run_Status r =? RunStatusInterrupted)%string.

Definition prunable (cut : string) (r : Run) : bool :=
  String.ltb (formatSQLiteTime (run_StartedAt r)) cut && negb (resumable r).

Definition DeleteRunsStartedBefore (cutoff : Time) (t : RunTables) : RunTables * Z :=
  let cut := formatSQLiteTime cutoff in
  let kept := filter (λ '(_, r), prunable cut r = false) (runs t) in
  let alive (id : string) := is_Some (kept !! id) in
  (mkRunTables kept
     (filter (λ '(k, _), alive k.1) (run_steps t))
     (filter (λ '(id, _), alive id) (trace_events t))
     (filter (λ '(id, _), alive id) (run_checkpoints t)),
   Z.of_nat (size (runs t) - size kept)).
