(* ===== verification/StoreSafety.v ===== *)
(** * Safety of the state store

    Whatever sequence of operations built the store: every child row has its run,
    every run's trace verifies, checkpoints are numbered in the order they were
    saved, at most one resume wins a run, retention deletes only finished runs of
    before the cutoff, and pruning keeps what runs and environments refer to. *)

From S2P Require Import Prelude GoNum GoText Value JsonText AuditChain StateStore SqliteTime StateRuns.

Local Open Scope Z_scope.

(** ** Operations as data *)

Inductive run_op :=
  | OStartRun (uuid : string) (r : Run)
  | OFinishRun (runID status : string) (at_ : Time) (out err : string) (cost : f64)
  | OUpdateRunStatus (runID status : string)
  | OClaim (runID : string)
  | OUpsertRunStep (st : RunStep)
  | OAppendTraceEvent (runID : string) (ts : Time) (ty actor step data : string)
  | OSaveCheckpoint (cp : RunCheckpoint)
  | ODeleteBefore (cutoff : Time).

Section safety.
Context (sha256 : chars → chars).

Definition run_step (op : run_op) (t : RunTables) : RunTables :=
  match op with
  | OStartRun uuid r => (StartRun uuid r t).1
  | OFinishRun id status at_ out err cost => (FinishRun id status at_ out err cost t).1
  | OUpdateRunStatus id status => (UpdateRunStatus id status t).1
  | OClaim id => (ClaimRunForResume id t).1
  | OUpsertRunStep st => (UpsertRunStep st t).1
  | OAppendTraceEvent id ts ty actor step data => (AppendTraceEvent sha256 id ts ty actor step data t).1
  | OSaveCheckpoint cp => (SaveCheckpoint cp t).1
  | ODeleteBefore cutoff => (DeleteRunsStartedBefore cutoff t).1
  end.

Definition run_all (ops : list run_op) (t : RunTables) : RunTables := foldl (λ t op, run_step op t) t ops.

(** ** The invariant *)

Definition who (r : Run) : attribution := mkAttribution (run_TenantID r) (run_ThreadID r) (run_ActorID r).

Definition numbered (id : string) (rows : list RunCheckpoint) : Prop :=
  ∀ i cp, rows !! i = Some cp → cp_RunID cp = id ∧ cp_Seq cp = Z.of_nat i + 1.

Record runs_ok (t : RunTables) : Prop := {
  ok_key id r : runs t !! id = Some r → run_RunID r = id;
  ok_steps k st : run_steps t !! k = Some st → is_Some (runs t !! k.1) ∧ (rs_RunID st, rs_StepID st) = k;
  ok_events id rows : trace_events t !! id = Some rows → is_Some (runs t !! id);
  ok_checkpoints id rows : run_checkpoints t !! id = Some rows → is_Some (runs t !! id) ∧ numbered id rows;
  ok_history id r : runs t !! id = Some r → history sha256 id (who r) (events_of t id);
}.

Lemma runs_ok_empty : runs_ok empty_runs.
Proof. split; intros *; simpl; by rewrite lookup_empty. Qed.

(** An update of a run that keeps its id and attribution. *)
Lemma runs_ok_update id f t :
  (∀ r, run_RunID (f r) = run_RunID r ∧ who (f r) = who r) → runs_ok t → ∀ r, runs t !! id = Some r →
  runs_ok (with_runs t (<[id := f r]> (runs t))).
Proof.
  intros Hf [K S E C H] r Hr. assert (∀ id', is_Some (runs t !! id') → is_Some (<[id := f r]> (runs t) !! id')) as Hs.
  { intros id' Hs. destruct (decide (id = id')) as [->|]; [by rewrite lookup_insert_eq|by rewrite lookup_insert_ne]. }
  split; cbn [runs run_steps trace_events run_checkpoints with_runs].
  - intros id' r'. rewrite lookup_insert_Some. intros [[<- <-]|[_ Hr']]; [|by apply K].
    rewrite (proj1 (Hf r)). by apply K.
  - intros k st Hk. destruct (S k st Hk). auto.
  - intros id' rows Hk. eauto.
  - intros id' rows Hk. destruct (C id' rows Hk). auto.
  - intros id' r'. rewrite lookup_insert_Some. intros [[<- <-]|[_ Hr']]; [|by apply H].
    rewrite (proj2 (Hf r)). by apply (H id r).
Qed.

Lemma next_seq_numbered id rows :
  numbered id rows → next_checkpoint_seq rows = Z.of_nat (length rows) + 1.
Proof.
  unfold next_checkpoint_seq. intros Hn. f_equal.
  induction rows as [|cp rows IH] using rev_ind; [done|].
  assert (numbered id rows) as Hr.
  { intros i c Hi. apply Hn. by apply lookup_app_l_Some. }
  rewrite fmap_app, foldr_app, length_app. simpl.
  destruct (Hn (length rows) cp) as [_ Hc]; [by rewrite list_lookup_middle|].
  rewrite Hc, Z.max_l by lia.
  assert (∀ x l, 0 ≤ x → foldr Z.max x l = Z.max (foldr Z.max 0 l) x) as Hm.
  { intros x l. induction l as [|y l IHl]; intros Hx; simpl; [lia|]. rewrite IHl by done. lia. }
  rewrite Hm, IH by (done || lia). lia.
Qed.

Lemma numbered_snoc id rows cp :
  numbered id rows → cp_RunID cp = id → cp_Seq cp = Z.of_nat (length rows) + 1 → numbered id (rows ++ [cp]).
Proof.
  intros Hn Hid Hs i c. rewrite lookup_app_Some. intros [Hi|[Hl Hi]]; [by apply Hn|].
  apply list_lookup_singleton_Some in Hi as [Hi <-]. split; [done|]. rewrite Hs. lia.
Qed.

Lemma run_step_ok op t : runs_ok t → runs_ok (run_step op t).
Proof.
  intros Hok. destruct op; cbn [run_step].
  - unfold StartRun. destruct (runs t !! run_RunID r) eqn:Hr; [done|]. destruct Hok as [K S E C H]. cbn [fst].
    assert (∀ (x : Run) id', is_Some (runs t !! id') → is_Some (<[run_RunID r := x]> (runs t) !! id')) as Hs.
    { intros x id' Hs. destruct (decide (run_RunID r = id')) as [<-|]; [by rewrite lookup_insert_eq|by rewrite lookup_insert_ne]. }
    split; cbn [runs run_steps trace_events run_checkpoints with_runs].
    + intros id r'. rewrite lookup_insert_Some. intros [[<- <-]|[_ ?]]; [done|by apply K].
    + intros k st Hk. destruct (S k st Hk). auto.
    + intros id rows Hk. eauto.
    + intros id rows Hk. destruct (C id rows Hk). auto.
    + intros id r'. rewrite lookup_insert_Some. intros [[<- <-]|[_ ?]]; [|by apply H].
      unfold events_of. cbn [trace_events with_runs]. destruct (trace_events t !! run_RunID r) eqn:He; [|constructor].
      apply E in He as [? He]. by rewrite Hr in He.
  - unfold FinishRun, update_run. case_match; [|done]. by apply runs_ok_update.
  - unfold UpdateRunStatus, update_run. case_match; [|done]. by apply runs_ok_update.
  - unfold ClaimRunForResume. repeat case_match; [|done..]. by apply runs_ok_update.
  - unfold UpsertRunStep. case_match eqn:Hr; [|done]. destruct Hok as [K S E C H]. cbn [fst].
    split; cbn [runs run_steps trace_events run_checkpoints]; try done.
    intros k st'. rewrite lookup_insert_Some. intros [[<- <-]|[_ ?]]; [|by apply S]. split; [by eexists|done].
  - unfold AppendTraceEvent. case_match eqn:Hr; [|done]. destruct Hok as [K S E C H]. cbn [fst].
    split; cbn [runs run_steps trace_events run_checkpoints]; try done.
    + intros id rows. rewrite lookup_insert_Some. intros [[<- <-]|[_ ?]]; [by eexists|by eapply E].
    + intros id r' Hr'. unfold events_of. cbn [trace_events]. destruct (decide (runID = id)) as [<-|].
      * rewrite lookup_insert_eq. rewrite Hr in Hr'. injection Hr' as <-. apply history_append. by apply H.
      * rewrite lookup_insert_ne by done. by apply H.
  - unfold SaveCheckpoint. case_match eqn:Hr; [|done]. destruct Hok as [K S E C H]. cbn [fst].
    split; cbn [runs run_steps trace_events run_checkpoints]; try done.
    intros id rows. rewrite lookup_insert_Some. intros [[<- <-]|[_ ?]]; [|by apply C]. split; [by eexists|].
    assert (numbered (cp_RunID cp) (checkpoints_of t (cp_RunID cp))) as Hn.
    { unfold checkpoints_of. destruct (run_checkpoints t !! cp_RunID cp) eqn:Hc; [by apply C|].
      intros i c Hi. by destruct i. }
    apply numbered_snoc; [done|done|]. by apply (next_seq_numbered (cp_RunID cp)).
  - unfold DeleteRunsStartedBefore. destruct Hok as [K S E C H]. cbn [fst].
    split; cbn [runs run_steps trace_events run_checkpoints].
    + intros id r [Hr _]%map_lookup_filter_Some. by apply K.
    + intros k st [Hk Ha]%map_lookup_filter_Some. split; [done|]. by apply S.
    + intros id rows [_ Ha]%map_lookup_filter_Some. done.
    + intros id rows [Hk Ha]%map_lookup_filter_Some. split; [done|]. by eapply C.
    + intros id r Hr. assert (is_Some (filter (λ '(_, r), prunable (formatSQLiteTime cutoff) r = false) (runs t) !! id)) as Ha
        by (by eexists).
      apply map_lookup_filter_Some in Hr as [Hr _]. unfold events_of. cbn [trace_events].
      destruct (trace_events t !! id) as [rows|] eqn:He.
      * erewrite (proj2 (map_lookup_filter_Some _ _ _ _)); [|by split].
        specialize (H id r Hr). unfold events_of in H. by rewrite He in H.
      * rewrite map_lookup_filter_None_2 by (by left). constructor.
Qed.

(** C36: Every store that operations can build is sound.  Whatever runs, updates,
    claims, appends, checkpoints and deletions ran in whatever order, every step,
    event and checkpoint row belongs to an existing run, checkpoints are numbered
    1, 2, 3, ... in the order they were saved, and the trace of every run verifies
    with positive, growing sequence numbers. *)
Theorem reachable_store_ok ops :
  (∀ l, length (sha256 l) = 32%nat) →
  let t := run_all ops empty_runs in
  (∀ k st, run_steps t !! k = Some st → is_Some (runs t !! k.1)) ∧
  (∀ id rows, run_checkpoints t !! id = Some rows → is_Some (runs t !! id) ∧ numbered id rows) ∧
  (∀ id rows, trace_events t !! id = Some rows → is_Some (runs t !! id)) ∧
  (∀ id, is_Some (runs t !! id) →
     VerifyRunChainError sha256 id (events_of t id) = None ∧
     Forall (λ e, 0 < te_Seq e) (events_of t id) ∧ StronglySorted Z.lt (te_Seq <$> events_of t id)).
Proof.
  intros Hsha t. assert (runs_ok t) as [K S E C H].
  { subst t. unfold run_all. generalize runs_ok_empty. generalize empty_runs.
    induction ops as [|op ops IH]; intros t0 H0; [done|]. cbn [foldl]. by apply IH, run_step_ok. }
  split; [by intros k st [? _]%S|]. split; [done|]. split; [done|].
  intros id [r Hr]. by apply (history_verifies sha256 Hsha id (who r)), H.
Qed.

(** ** One resume at a time *)

(** Operations that leave the run [id] interrupted. *)
Definition interrupts (id : string) (op : run_op) : bool :=
  match op with
  | OStartRun _ r => bool_decide (run_RunID r = id ∧ run_Status r = RunStatusInterrupted)
  | OFinishRun id' status _ _ _ _ | OUpdateRunStatus id' status =>
      bool_decide (id' = id ∧ status = RunStatusInterrupted)
  | _ => false
  end.

Definition interrupted (id : string) (t : RunTables) : Prop :=
  ∃ r, runs t !! id = Some r ∧ run_Status r = RunStatusInterrupted.

Lemma update_interrupted id id' f t :
  (∀ r, id' = id → run_Status (f r) ≠ RunStatusInterrupted) →
  ¬ interrupted id t → ¬ interrupted id (update_run id' f t).1.
Proof.
  intros Hf Hn (r & Hr & Hs). unfold update_run in Hr. case_match; cbn in Hr; [|apply Hn; by exists r].
  apply lookup_insert_Some in Hr as [[-> <-]|[_ Hr]]; [by apply (Hf r0)|]. apply Hn. by exists r.
Qed.

Lemma not_interrupted_step id op t :
  interrupts id op = false → ¬ interrupted id t → ¬ interrupted id (run_step op t).
Proof.
  intros Hop Hn. destruct op; cbn [run_step interrupts] in *.
  - unfold StartRun. case_match; [done|]. cbn. intros (r' & Hr & Hs). cbn in Hr.
    apply lookup_insert_Some in Hr as [[<- <-]|[_ Hr]]; [|apply Hn; by exists r'].
    apply bool_decide_eq_false in Hop. by apply Hop.
  - apply bool_decide_eq_false in Hop. apply update_interrupted; [|done]. naive_solver.
  - apply bool_decide_eq_false in Hop. apply update_interrupted; [|done]. naive_solver.
  - unfold ClaimRunForResume. repeat case_match; try done. intros (r' & Hr & Hs). cbn in Hr.
    apply lookup_insert_Some in Hr as [[-> <-]|[_ Hr]]; [done|]. apply Hn. by exists r'.
  - unfold UpsertRunStep. by case_match.
  - unfold AppendTraceEvent. by case_match.
  - unfold SaveCheckpoint. by case_match.
  - intros (r' & Hr & Hs). apply map_lookup_filter_Some in Hr as [Hr _]. apply Hn. by exists r'.
Qed.

(** C37: At most one resume wins.  After a claim of a run, whoever made it and
    whether or not it won, every later claim of that run loses, whatever other
    operations interleave, until one of them interrupts the run again. *)
Theorem ClaimRunForResume_exclusive id ops t :
  forallb (λ op, negb (interrupts id op)) ops = true →
  (ClaimRunForResume id (run_all ops (ClaimRunForResume id t).1)).2 = false.
Proof.
  intros Hops. assert (¬ interrupted id (ClaimRunForResume id t).1) as Hn.
  { unfold ClaimRunForResume. intros (r & Hr & Hs). destruct (runs t !! id) as [r0|] eqn:Hl; cbn in Hr; [|by rewrite Hl in Hr].
    destruct (String.eqb_spec (run_Status r0) RunStatusInterrupted) as [E|E]; cbn in Hr.
    - rewrite lookup_insert_eq in Hr. by injection Hr as <-.
    - rewrite Hl in Hr. by injection Hr as <-. }
  revert Hn. generalize (ClaimRunForResume id t).1. unfold run_all.
  induction ops as [|op ops IH]; intros t1 Hn.
  - cbn [foldl]. unfold ClaimRunForResume. destruct (runs t1 !! id) as [r|] eqn:Hl; [|done].
    destruct (String.eqb_spec (run_Status r) RunStatusInterrupted) as [E|E]; [|done]. exfalso. apply Hn. by exists r.
  - cbn [forallb foldl] in *. apply andb_true_iff in Hops as [Hop Hops]. apply negb_true_iff in Hop.
    apply IH; [done|]. by apply not_interrupted_step.
Qed.

(** ** Retention *)

Definition children_of (t : RunTables) (id : string) :=
  (filter (λ '(k, _), k.1 = id) (run_steps t), trace_events t !! id, run_checkpoints t !! id).

(** C38: Retention deletes just the old finished runs.  With storable times, a run
    survives [DeleteRunsStartedBefore] exactly when it can still be resumed
    (running or interrupted) or did not start before the cutoff; a survivor keeps
    its row, steps, events and checkpoints, and a deleted run keeps none. *)
Theorem DeleteRunsStartedBefore_exact cutoff t id r :
  storable cutoff → storable (run_StartedAt r) → runs t !! id = Some r →
  let t' := (DeleteRunsStartedBefore cutoff t).1 in
  let keep := resumable r = true ∨ time_compare (run_StartedAt r) cutoff ≠ Lt in
  (keep → runs t' !! id = Some r ∧ children_of t' id = children_of t id) ∧
  (¬ keep → runs t' !! id = None ∧ children_of t' id = (∅, None, None)).
Proof.
  intros Hc Hs Hr t' keep.
  assert (prunable (formatSQLiteTime cutoff) r = false ↔ keep) as Hp.
  { unfold prunable, String.ltb. rewrite (formatSQLiteTime_order (run_StartedAt r) cutoff) by done. subst keep.
    destruct (time_compare _ _), (resumable r); cbn; naive_solver. }
  unfold DeleteRunsStartedBefore in t'. cbv zeta in t'. cbn [fst] in t'.
  set (cut := formatSQLiteTime cutoff) in *. clearbody cut keep.
  assert (runs t' !! id = Some r ↔ keep) as Hk.
  { rewrite <-Hp. subst t'. cbn. rewrite map_lookup_filter_Some. naive_solver. }
  assert (∀ o, runs t' !! id = Some o → o = r) as Hu.
  { intros o Ho. subst t'. cbn in Ho. apply map_lookup_filter_Some in Ho as [Ho _]. congruence. }
  split; intros Hkeep.
  - apply Hk in Hkeep. split; [done|]. unfold children_of. subst t'. cbn in *.
    assert (is_Some (filter (λ '(_, r), prunable cut r = false) (runs t) !! id)) as Ha by (by eexists).
    f_equal; [f_equal|].
    + rewrite map_filter_filter. apply map_filter_ext. intros [a b] st _. simpl. split; [by intros [? _]|].
      intros ->. by split.
    + destruct (trace_events t !! id) eqn:He; [apply map_lookup_filter_Some; by split|].
      apply map_lookup_filter_None. by left.
    + destruct (run_checkpoints t !! id) eqn:He; [apply map_lookup_filter_Some; by split|].
      apply map_lookup_filter_None. by left.
  - assert (runs t' !! id = None) as Hnone.
    { apply eq_None_not_Some. intros [o Ho]. apply Hkeep, Hk. by rewrite <-(Hu o Ho). }
    split; [done|]. unfold children_of. subst t'. cbn in *.
    assert (¬ is_Some (filter (λ '(_, r), prunable cut r = false) (runs t) !! id)) as Ha.
    { rewrite Hnone. by intros [? ?]. }
    f_equal; [f_equal|].
    + apply map_empty. intros [a b]. apply map_lookup_filter_None. right. intros st Hst Ha'. simpl in Ha'. subst a.
      apply map_lookup_filter_Some in Hst as [_ Hst]. done.
    + apply map_lookup_filter_None. right. by intros rows _.
    + apply map_lookup_filter_None. right. by intros rows _.
Qed.

End safety.

(** ** Pruning *)

Lemma elem_of_pinned d (l : list string) : d ∈ filter (λ d, d ≠ "") l ↔ d ≠ "" ∧ d ∈ l.
Proof. by rewrite list_elem_of_filter. Qed.

Lemma prune_snapshots digests t d s :
  deployment_snapshots (pruneUnreferencedArtifacts digests t).1 !! d = Some s ↔
  deployment_snapshots t !! d = Some s ∧
  ((d ≠ "" ∧ d ∈ digests) ∨ ∃ env, deployment_env_current t !! env = Some d).
Proof.
  unfold pruneUnreferencedArtifacts. cbn. rewrite map_lookup_filter_Some, elem_of_pinned.
  apply and_iff_compat_l, or_iff_compat_l. rewrite list_elem_of_fmap. split.
  - intros ([env d'] & -> & Hin%elem_of_map_to_list). by exists env.
  - intros [env Henv]. exists (env, d). split; [done|]. by apply elem_of_map_to_list.
Qed.

Lemma prune_artifacts digests t d a :
  let t' := (pruneUnreferencedArtifacts digests t).1 in
  deployment_artifacts t' !! d = Some a ↔
  deployment_artifacts t !! d = Some a ∧
  ∃ d' s, deployment_snapshots t' !! d' = Some s ∧ d ∈ snapshot_refs s.
Proof.
  intros t'. subst t'. unfold pruneUnreferencedArtifacts. cbn. rewrite map_lookup_filter_Some.
  apply and_iff_compat_l. rewrite list_elem_of_bind. split.
  - intros (s & Hs & ([d' s'] & -> & Hin%elem_of_map_to_list)%list_elem_of_fmap). by exists d', s'.
  - intros (d' & s & Hs & Hd). exists s. split; [done|]. apply list_elem_of_fmap. exists (d', s).
    split; [done|]. by apply elem_of_map_to_list.
Qed.

(** Pruning is reference-guarded and exact.  A snapshot survives just when a
    run pins it or an environment points at it; an artifact survives just when a
    surviving snapshot refers to it; survivors are not changed, and the applied
    rows and the pointers are not touched. *)
Theorem pruneUnreferencedArtifacts_exact digests t :
  let t' := (pruneUnreferencedArtifacts digests t).1 in
  (∀ d s, deployment_snapshots t' !! d = Some s ↔
     deployment_snapshots t !! d = Some s ∧
     ((d ≠ "" ∧ d ∈ digests) ∨ ∃ env, deployment_env_current t !! env = Some d)) ∧
  (∀ d a, deployment_artifacts t' !! d = Some a ↔
     deployment_artifacts t !! d = Some a ∧
     ∃ d' s, deployment_snapshots t' !! d' = Some s ∧ d ∈ snapshot_refs s) ∧
  deployment_env_current t' = deployment_env_current t ∧
  applied_resources t' = applied_resources t ∧ applied_projects t' = applied_projects t.
Proof.
  intros t'. split; [intros d s; apply prune_snapshots|].
  split; [intros d a; apply prune_artifacts|done].
Qed.

(** ** An instance *)

Definition demo_run (id status : string) (start : Z) : Run :=
  mkRun id "w" "prod" status (mkTime start 0) None "" "" "" (f64_of_int 0) "" "" "" "" "" "" "" "" "" "".

Definition demo_ops : list run_op :=
  [OStartRun "u1" (demo_run "r1" "running" 1000); OAppendTraceEvent "r1" (mkTime 1001 0) "run_started" "agent" "" "";
   OSaveCheckpoint (mkRunCheckpoint "r1" 0 0 "s" "" "interrupted" (mkTime 1002 0));
   OUpdateRunStatus "r1" "interrupted"; OClaim "r1"; OClaim "r1";
   OAppendTraceEvent "r1" (mkTime 1003 0) "run_started" "agent" "" "{}"; OAppendTraceEvent "none" (mkTime 1003 0) "x" "" "" "";
   OSaveCheckpoint (mkRunCheckpoint "r1" 0 1 "t" "" "completed" (mkTime 1004 0));
   OFinishRun "r1" "succeeded" (mkTime 1005 0) "{}" "" (f64_of_int 0)].

Lemma reachable_store_ok_witness :
  VerifyRunChainError checksum "r1" (events_of (run_all checksum demo_ops empty_runs) "r1") = None.
Proof.
  destruct (reachable_store_ok checksum demo_ops checksum_size) as (_ & _ & _ & H).
  apply (H "r1"). vm_compute. eexists. reflexivity.
Defined.

Lemma ClaimRunForResume_exclusive_witness :
  (ClaimRunForResume "r1" (run_all checksum (take 4 demo_ops) empty_runs)).2 = true ∧
  (ClaimRunForResume "r1" (run_all checksum (drop 5 demo_ops)
     (ClaimRunForResume "r1" (run_all checksum (take 4 demo_ops) empty_runs)).1)).2 = false.
Proof.
  split; [vm_compute; reflexivity|].
  apply (ClaimRunForResume_exclusive checksum "r1" (drop 5 demo_ops)). vm_compute. reflexivity.
Defined.

Lemma DeleteRunsStartedBefore_exact_witness :
  let t := run_all checksum demo_ops empty_runs in
  children_of (DeleteRunsStartedBefore (mkTime 1000 1) t).1 "r1" = (∅, None, None).
Proof.
  intros t. destruct (runs t !! "r1") as [r|] eqn:Hr; [|vm_compute in Hr; discriminate].
  assert (resumable r = false ∧ run_StartedAt r = mkTime 1000 0) as [Hres Hst]
    by (vm_compute in Hr; injection Hr as <-; split; reflexivity).
  refine (proj2 (proj2 (DeleteRunsStartedBefore_exact (mkTime 1000 1) t "r1" r _ _ Hr) _)).
  - split; cbv; split; discriminate.
  - rewrite Hst. split; cbv; split; discriminate.
  - rewrite Hres, Hst. cbv. intros [H|H]; [discriminate|by apply H].
Defined.
