(* ===== verification/DeploySnapshot.v ===== *)
(** * Deployment snapshots ([internal/deploy/snapshot.go], [hydrate.go],
      [schema.go], [superseded.go])

    A snapshot pins the configuration a run executes under: content-addressed
    artifacts for the resolved graph, the capability manifests, the execution IR
    and the schemas, and a row whose digest is the hash of its identity.  The
    encodings of encoding/json on the typed graph, the manifests, the program
    wires of [ExecWire] and the schema bundle are parameters with the one law the
    round trip needs (decoding an encoding gives the value back). *)

From S2P Require Import Prelude GoNum GoText Value JsonText ExecIR ExecWire AuditChain StateStore SqliteTime StateRuns StoreSafety PlanDiff Planner.

Local Open Scope Z_scope.

Definition FormatSnapshotV1 : string := "agentic.dev/snapshot/v1".
Definition FormatGraphV1 : string := "agentic.dev/graph/v1".
Definition FormatManifestV1 : string := "agentic.dev/manifest/v1".
Definition FormatSchemaBundleV1 : string := "agentic.dev/schemabundle/v1".
Definition FormatExecutionIRV1 : string := "agentic.dev/executionir/v1".

Record snapshotIdentityV1 := mkIdentity {
  si_FormatVersion : string; si_CompilerVersion : string; si_Environment : string;
  si_GraphDigest : string; si_ExecutionIRDigest : string; si_CapabilityManifestDigest : string;
  si_SchemaBundleDigest : string;
}.

(** [json.Marshal] of the identity; the last field is [omitempty]. *)
Definition marshal_identity (id : snapshotIdentityV1) : string :=
  "{" +:+ member "formatVersion" (json_quote (si_FormatVersion id)) ("," +:+
  member "compilerVersion" (json_quote (si_CompilerVersion id)) ("," +:+
  member "environment" (json_quote (si_Environment id)) ("," +:+
  member "graphDigest" (json_quote (si_GraphDigest id)) ("," +:+
  member "executionIrDigest" (json_quote (si_ExecutionIRDigest id)) ("," +:+
  member "capabilityManifestDigest" (json_quote (si_CapabilityManifestDigest id))
    (if (si_SchemaBundleDigest id =? "")%string then "}"
     else "," +:+ member "schemaBundleDigest" (json_quote (si_SchemaBundleDigest id)) "}")))))).

Inductive deploy_error :=
  | DMarshal                         (* a payload does not marshal *)
  | DEmptyDigest                     (* deploy: empty snapshot digest *)
  | DLoad (digest : string)          (* a row is missing *)
  | DUnsupportedFormat (format : string)
  | DDecode.                         (* a payload does not decode *)

Record Built := mkBuilt { b_Snapshot : DeploymentSnapshot; b_Artifacts : list DeploymentArtifact }.

Record Hydrated (G : Type) := mkHydrated {
  h_Graph : G; h_Snapshot : DeploymentSnapshot; h_Schemas : gmap string string;
  h_Executables : option (gmap string program);
}.
Arguments mkHydrated {G}.
Arguments h_Graph {G}.
Arguments h_Snapshot {G}.
Arguments h_Schemas {G}.
Arguments h_Executables {G}.

(** The superseded mark of a run record ([statejson.RunRecord]). *)
Record RunRecord := mkRunRecord { rr_Env : string; rr_DeploymentSnapshotDigest : string; rr_Superseded : bool }.

Definition MarkSuperseded (latestByEnv : gmap string string) (r : RunRecord) : RunRecord :=
  let d := rr_DeploymentSnapshotDigest r in
  if (d =? "")%string then r else
  match latestByEnv !! rr_Env r with
  | Some latest =>
      if negb (latest =? "")%string && negb (latest =? d)%string then mkRunRecord (rr_Env r) d true else r
  | None => r
  end.

(** The pointers of the environments of pinned records; a lookup error leaves "". *)
Definition latest_digests (t : DeployTables) (records : list RunRecord) : gmap string string :=
  foldl (λ latest r,
    if (rr_DeploymentSnapshotDigest r =? "")%string then latest else
    match latest !! rr_Env r with
    | Some _ => latest
    | None => <[rr_Env r := match currentSnapshotDigestForEnv (rr_Env r) t with Ok d => d | Err _ => "" end]> latest
    end) ∅ records.

Definition MarkSupersededRuns (t : DeployTables) (records : list RunRecord) : list RunRecord :=
  MarkSuperseded (latest_digests t records) <$> records.

Section snapshot.
Context (sha256 : chars → chars).
(** The graph, cleared of its imports and marshalled ([CloneProjectGraph] is the
    same encoding and decoding); its manifests, marshalled; the program wires; the
    schema bundle. *)
Context {G : Type} (encode_graph : G → option string) (decode_graph : string → option G).
Context (encode_manifests : G → option string).
Context (encode_programs : programsWire → string) (decode_programs : string → option programsWire).
Context (encode_schemas : gmap string string → string) (decode_schemas : string → option (gmap string string)).

Definition contentDigest (payload : string) : string := hashHex sha256 payload.

Definition snapshotDigest (id : snapshotIdentityV1) : string := contentDigest (marshal_identity id).

Definition orMarshal (o : option string) : res deploy_error string :=
  match o with Some s => Ok s | None => Err DMarshal end.

Definition MarshalGraph (g : G) : res deploy_error string := orMarshal (encode_graph g).
Definition UnmarshalGraph (payload : string) : res deploy_error G :=
  match decode_graph payload with Some g => Ok g | None => Err DDecode end.
Definition MarshalManifest (g : G) : res deploy_error string := orMarshal (encode_manifests g).
Definition MarshalSchemaBundle (schemas : gmap string string) : string := encode_schemas schemas.
Definition UnmarshalSchemaBundle (payload : string) : res deploy_error (gmap string string) :=
  if (payload =? "")%string then Ok ∅
  else match decode_schemas payload with Some m => Ok m | None => Err DDecode end.

Definition zero_time : Time := mkTime (-62135596800) 0.

Definition artifact (kind format payload : string) : DeploymentArtifact :=
  mkDeploymentArtifact (contentDigest payload) kind format payload zero_time.

(** [len(execs) > 0], and likewise for the schemas. *)
Definition Build (g : G) (environment compilerVersion : string) (schemas : gmap string string)
    (execs : gmap string (option program)) : res deploy_error Built :=
  graphPayload ← MarshalGraph g;
  manifestPayload ← MarshalManifest g;
  execPayload ←
    (if decide (execs = ∅) then Ok None
     else match MarshalPrograms execs with
          | Ok w => Ok (Some (encode_programs w))
          | Err _ => Err DMarshal
          end);
  let schemaPayload := if decide (schemas = ∅) then None else Some (MarshalSchemaBundle schemas) in
  let digest_of (p : option string) := match p with Some p => contentDigest p | None => "" end in
  let id := mkIdentity FormatSnapshotV1 (trim_space compilerVersion) environment
    (contentDigest graphPayload) (digest_of execPayload) (contentDigest manifestPayload)
    (digest_of schemaPayload) in
  mret (mkBuilt
    (mkDeploymentSnapshot (snapshotDigest id) (si_FormatVersion id) (si_CompilerVersion id) (si_Environment id)
       (si_GraphDigest id) (si_ExecutionIRDigest id) (si_CapabilityManifestDigest id)
       (si_SchemaBundleDigest id) zero_time)
    ([artifact ArtifactKindResolvedGraph FormatGraphV1 graphPayload;
      artifact ArtifactKindCapabilityManifest FormatManifestV1 manifestPayload] ++
     match execPayload with Some p => [artifact ArtifactKindExecutionIR FormatExecutionIRV1 p] | None => [] end ++
     match schemaPayload with Some p => [artifact ArtifactKindSchemaBundle FormatSchemaBundleV1 p] | None => [] end)).

Definition Persist (now : Time) (b : Built) (t : DeployTables) : DeployTables :=
  putSnapshot now (b_Snapshot b) (foldl (λ t a, putArtifact now a t) t (b_Artifacts b)).

(** [persistDeploymentSnapshot] of [internal/cli/apply.go]. *)
Definition persistDeploymentSnapshot (now : Time) (env : string) (b : Built) (t : DeployTables) : DeployTables :=
  setCurrentSnapshot env (ds_Digest (b_Snapshot b)) (Persist now b t).

(** An artifact of a format this runtime reads. *)
Definition load_artifact (digest format : string) (t : DeployTables) : res deploy_error string :=
  match getArtifact digest t with
  | Err _ => Err (DLoad digest)
  | Ok a => if (da_FormatVersion a =? format)%string then Ok (da_Payload a)
            else Err (DUnsupportedFormat (da_FormatVersion a))
  end.

(** The optional artifacts: a blank digest stands for none. *)
Definition hydrate_schemas (digest : string) (t : DeployTables) : res deploy_error (gmap string string) :=
  if (trim_space digest =? "")%string then Ok ∅
  else payload ← load_artifact digest FormatSchemaBundleV1 t; UnmarshalSchemaBundle payload.

Definition hydrate_programs (digest : string) (t : DeployTables)
    : res deploy_error (option (gmap string program)) :=
  if (trim_space digest =? "")%string then Ok None
  else payload ← load_artifact digest FormatExecutionIRV1 t;
       match decode_programs payload with
       | None => Err DDecode
       | Some w => match UnmarshalPrograms w with Ok m => Ok (Some m) | Err _ => Err DDecode end
       end.

Definition HydrateGraph (snapshotDigest : string) (t : DeployTables) : res deploy_error (Hydrated G) :=
  let snapshotDigest := trim_space snapshotDigest in
  if (snapshotDigest =? "")%string then Err DEmptyDigest else
  match getSnapshot snapshotDigest t with
  | Err _ => Err (DLoad snapshotDigest)
  | Ok snap =>
      if negb (ds_FormatVersion snap =? FormatSnapshotV1)%string
      then Err (DUnsupportedFormat (ds_FormatVersion snap)) else
      payload ← load_artifact (ds_GraphDigest snap) FormatGraphV1 t;
      graph ← UnmarshalGraph payload;
      schemas ← hydrate_schemas (ds_SchemaBundleDigest snap) t;
      executables ← hydrate_programs (ds_ExecutionIRDigest snap) t;
      mret (mkHydrated graph snap schemas executables)
  end.

(** ** What a digest hydrates to never changes *)

(** The writes of the deployment tables. *)
Inductive deploy_op :=
  | DPutArtifact (now : Time) (a : DeploymentArtifact)
  | DPutSnapshot (now : Time) (s : DeploymentSnapshot)
  | DSetCurrent (env digest : string)
  | DUpsertResource (r : AppliedResource)
  | DDeleteResource (env : string) (id : ResourceID)
  | DUpsertProject (p : AppliedProject)
  | DPrune (run_digests : list string).

Definition deploy_step (op : deploy_op) (t : DeployTables) : DeployTables :=
  match op with
  | DPutArtifact now a => putArtifact now a t
  | DPutSnapshot now s => putSnapshot now s t
  | DSetCurrent env d => setCurrentSnapshot env d t
  | DUpsertResource r => upsertAppliedResource r t
  | DDeleteResource env id => deleteAppliedResource env id t
  | DUpsertProject p => upsertAppliedProject p t
  | DPrune ds => (pruneUnreferencedArtifacts ds t).1
  end.

(** A prune sees the run that pins [d]. *)
Definition pinned (d : string) (op : deploy_op) : Prop :=
  match op with DPrune ds => d ∈ ds | _ => True end.

(** What hydration of [d] reads is still there. *)
Definition kept (d : string) (t t' : DeployTables) : Prop :=
  ∀ s, deployment_snapshots t !! d = Some s →
    deployment_snapshots t' !! d = Some s ∧
    ∀ x a, x ∈ snapshot_refs s → deployment_artifacts t !! x = Some a → deployment_artifacts t' !! x = Some a.

Lemma deploy_step_kept d op t : d ≠ "" → pinned d op → kept d t (deploy_step op t).
Proof.
  intros Hd Hp s Hs. destruct op as [now a|now s'|env d'|r|env id|p|ds]; cbn [deploy_step].
  - unfold putArtifact. destruct (deployment_artifacts t !! da_Digest a) eqn:Ha; [done|]. split; [done|].
    intros x a' _ Hx. cbn. rewrite lookup_insert_ne; [done|]. intros E. by rewrite E, Hx in Ha.
  - unfold putSnapshot. destruct (deployment_snapshots t !! ds_Digest s') eqn:Hs'; [done|]. split; [|done].
    cbn. rewrite lookup_insert_ne; [done|]. intros E. by rewrite E, Hs in Hs'.
  - done.
  - done.
  - done.
  - done.
  - assert (deployment_snapshots (pruneUnreferencedArtifacts ds t).1 !! d = Some s) as Hs2.
    { apply prune_snapshots. split; [done|]. by left. }
    split; [done|]. intros x a Hx Ha. apply prune_artifacts. split; [done|]. by exists d, s.
Qed.

Lemma kept_trans d t1 t2 t3 : kept d t1 t2 → kept d t2 t3 → kept d t1 t3.
Proof.
  intros H12 H23 s Hs. destruct (H12 s Hs) as [Hs2 A2]. destruct (H23 s Hs2) as [Hs3 A3]. split; [done|]. eauto.
Qed.

Lemma load_kept d f t t' s p x :
  kept d t t' → deployment_snapshots t !! d = Some s → x ∈ [ds_GraphDigest s; ds_ExecutionIRDigest s; ds_CapabilityManifestDigest s; ds_SchemaBundleDigest s] →
  x ≠ "" → load_artifact x f t = Ok p → load_artifact x f t' = Ok p.
Proof.
  intros Hk Hs Hx Hne. unfold load_artifact, getArtifact. destruct (deployment_artifacts t !! x) as [a|] eqn:Ha; [|done].
  rewrite (proj2 (Hk s Hs) x a); [done| |done]. unfold snapshot_refs. by apply list_elem_of_filter.
Qed.

(** C40: A pinned snapshot is immutable.  What a digest hydrates to, it hydrates to
    after any writes to the store: new artifacts and snapshots, a moved
    environment pointer, applied rows, and prunes that see a run with that digest.
    No property of the hash is needed.  The graph digest is not empty. *)
Theorem HydrateGraph_immutable ops d h t :
  trim_space d = d → Forall (pinned d) ops →
  (∀ s, deployment_snapshots t !! d = Some s → ds_GraphDigest s ≠ "") →
  HydrateGraph d t = Ok h →
  HydrateGraph d (foldl (λ t op, deploy_step op t) t ops) = Ok h.
Proof.
  intros Htrim Hops Hg Hh. set (t' := foldl _ t ops). unfold HydrateGraph in Hh |- *. rewrite Htrim in *.
  destruct (String.eqb_spec d "") as [|Hd]; [done|].
  assert (kept d t t') as Hk.
  { subst t'. clear -Hops Hd. revert t. induction Hops as [|op ops Hop _ IH]; intros t; [done|]. cbn [foldl].
    eapply kept_trans; [by apply deploy_step_kept|apply IH]. }
  unfold getSnapshot in *. destruct (deployment_snapshots t !! d) as [s|] eqn:Hs; [|done].
  rewrite (proj1 (Hk s Hs)). case_match; [done|].
  specialize (Hg s eq_refl).
  apply bind_Ok in Hh as (payload & Hl & Hh). rewrite (load_kept d FormatGraphV1 t t' s payload (ds_GraphDigest s)) by (done || left).
  cbn [mbind res_bind] in *. destruct (UnmarshalGraph payload) as [graph|]; [|done]. cbn [mbind res_bind] in *.
  apply bind_Ok in Hh as (schemas & Hsch & Hh). apply bind_Ok in Hh as (execs & Hex & Hh).
  assert (∀ f x p, x ∈ [ds_ExecutionIRDigest s; ds_SchemaBundleDigest s] → (trim_space x =? "")%string = false →
    load_artifact x f t = Ok p → load_artifact x f t' = Ok p) as Hload.
  { intros f x p Hx Hne. apply (load_kept d f t t' s p x); [done|done| |intros E; by rewrite E in Hne].
    apply elem_of_cons in Hx as [->|[->|[]%elem_of_nil]%elem_of_cons]; [by right; left|by do 3 right; left]. }
  assert (hydrate_schemas (ds_SchemaBundleDigest s) t' = Ok schemas) as ->.
  { unfold hydrate_schemas in *. case_match; [done|]. apply bind_Ok in Hsch as (p & Hp & Hu).
    rewrite (Hload _ _ _ ltac:(by right; left) H0 Hp). exact Hu. }
  assert (hydrate_programs (ds_ExecutionIRDigest s) t' = Ok execs) as ->; [|done].
  unfold hydrate_programs in *. case_match; [done|]. apply bind_Ok in Hex as (p & Hp & Hu).
  rewrite (Hload _ _ _ ltac:(by left) H0 Hp). cbn [mbind res_bind]. by rewrite Hu.
Qed.

(** ** Built, persisted, hydrated *)

Hypothesis sha256_size : ∀ l, length (sha256 l) = 32%nat.

(** The encodings of one build decode: the graph to one with the same encoding. *)
Definition decodable (g : G) (schemas : gmap string string) (execs : gmap string (option program)) : Prop :=
  (∀ s, encode_graph g = Some s → ∃ g', decode_graph s = Some g' ∧ encode_graph g' = Some s) ∧
  (∀ w, MarshalPrograms execs = Ok w → decode_programs (encode_programs w) = Some w) ∧
  encode_schemas schemas ≠ "" ∧ decode_schemas (encode_schemas schemas) = Some schemas.

(** A stored artifact with a digest to be written has the payload and the format
    to be written; a stored snapshot likewise. *)
Definition agrees (a a' : DeploymentArtifact) : Prop :=
  da_Payload a' = da_Payload a ∧ da_FormatVersion a' = da_FormatVersion a.
Definition holds (t : DeployTables) (a : DeploymentArtifact) : Prop :=
  ∃ a', deployment_artifacts t !! da_Digest a = Some a' ∧ agrees a a'.
Definition consistent (b : Built) (t : DeployTables) : Prop :=
  (∀ a a', a ∈ b_Artifacts b → deployment_artifacts t !! da_Digest a = Some a' → agrees a a') ∧
  NoDup (da_Digest <$> b_Artifacts b) ∧
  deployment_snapshots t !! ds_Digest (b_Snapshot b) = None.

Lemma put_all_holds now l t :
  NoDup (da_Digest <$> l) →
  (∀ a a', a ∈ l → deployment_artifacts t !! da_Digest a = Some a' → agrees a a') →
  let t' := foldl (λ t a, putArtifact now a t) t l in
  Forall (holds t') l ∧ (∀ x a, deployment_artifacts t !! x = Some a → deployment_artifacts t' !! x = Some a) ∧
  deployment_snapshots t' = deployment_snapshots t.
Proof.
  revert t. induction l as [|a l IH]; intros t Hnd Hag; [done|].
  rewrite fmap_cons in Hnd. apply NoDup_cons in Hnd as [Ha Hnd]. cbn [foldl].
  assert (∃ a', deployment_artifacts (putArtifact now a t) !! da_Digest a = Some a' ∧ agrees a a') as (a' & Ha' & Hag').
  { unfold putArtifact. destruct (deployment_artifacts t !! da_Digest a) as [a'|] eqn:Hl.
    - exists a'. split; [done|]. apply Hag; [by left|done].
    - cbn. rewrite lookup_insert_eq. by eexists. }
  assert (∀ x, x ≠ da_Digest a → deployment_artifacts (putArtifact now a t) !! x = deployment_artifacts t !! x) as Hoth.
  { intros x Hx. unfold putArtifact. case_match; [done|]. cbn. by rewrite lookup_insert_ne. }
  destruct (IH (putArtifact now a t) Hnd) as (Hf & Hk & Hsn).
  { intros c c' Hc Hl. rewrite Hoth in Hl; [apply Hag; [by right|done]|].
    intros E. apply Ha. rewrite <-E. by apply list_elem_of_fmap_2. }
  split; [constructor; [|done]|split].
  - exists a'. split; [by apply Hk|done].
  - intros x c Hx. apply Hk. destruct (decide (x = da_Digest a)) as [->|Hne]; [|by rewrite Hoth].
    unfold putArtifact. by rewrite Hx.
  - rewrite Hsn. unfold putArtifact. by case_match.
Qed.

Lemma load_holds t a : holds t a → load_artifact (da_Digest a) (da_FormatVersion a) t = Ok (da_Payload a).
Proof.
  intros (a' & Hl & Hp & Hf). unfold load_artifact, getArtifact. by rewrite Hl, Hf, String.eqb_refl, Hp.
Qed.

Lemma digest_not_blank p : (trim_space (contentDigest p) =? "")%string = false.
Proof. unfold contentDigest. rewrite trim_hashHex. by apply String.eqb_neq, hashHex_ne. Qed.

Lemma put_new_snapshot now s t :
  deployment_snapshots t !! ds_Digest s = None →
  deployment_artifacts (putSnapshot now s t) = deployment_artifacts t ∧
  ∃ s', deployment_snapshots (putSnapshot now s t) !! ds_Digest s = Some s' ∧
    ds_FormatVersion s' = ds_FormatVersion s ∧ ds_GraphDigest s' = ds_GraphDigest s ∧
    ds_ExecutionIRDigest s' = ds_ExecutionIRDigest s ∧ ds_SchemaBundleDigest s' = ds_SchemaBundleDigest s ∧
    ds_Environment s' = ds_Environment s.
Proof. intros Hs. unfold putSnapshot. rewrite Hs. split; [done|]. cbn. rewrite lookup_insert_eq. by eexists. Qed.

Lemma hydrate_schemas_built schemas t :
  encode_schemas schemas ≠ "" → decode_schemas (encode_schemas schemas) = Some schemas →
  holds t (artifact ArtifactKindSchemaBundle FormatSchemaBundleV1 (MarshalSchemaBundle schemas)) →
  hydrate_schemas (contentDigest (MarshalSchemaBundle schemas)) t = Ok schemas.
Proof.
  intros Hne Hdec Hh%load_holds. unfold hydrate_schemas. rewrite digest_not_blank.
  cbn in Hh. rewrite Hh. cbn [mbind res_bind]. unfold UnmarshalSchemaBundle, MarshalSchemaBundle.
  rewrite (proj2 (String.eqb_neq _ "") Hne). by rewrite Hdec.
Qed.

Lemma hydrate_programs_built execs w t :
  (∀ name p, execs !! name = Some (Some p) → lits_program p = true) → MarshalPrograms execs = Ok w →
  decode_programs (encode_programs w) = Some w →
  holds t (artifact ArtifactKindExecutionIR FormatExecutionIRV1 (encode_programs w)) →
  hydrate_programs (contentDigest (encode_programs w)) t = Ok (Some (json_map (image_program <$> omap id execs))).
Proof.
  intros Hl Hw Hdec Hh%load_holds. unfold hydrate_programs. rewrite digest_not_blank.
  cbn in Hh. rewrite Hh. cbn [mbind res_bind]. rewrite Hdec. by rewrite (programs_roundtrip execs w Hl Hw).
Qed.

(** C39: What a run pins is what a resume gets.  A snapshot that was built and
    persisted hydrates without an error to a graph with the same encoding, the
    same schemas, and the programs of the build (each as it comes back from the
    wire).  The store may already hold some of the artifacts; the encodings are
    decodable. *)
Theorem HydrateGraph_built now g env version schemas execs b t :
  decodable g schemas execs → (∀ name p, execs !! name = Some (Some p) → lits_program p = true) →
  Build g env version schemas execs = Ok b → consistent b t →
  ∃ h, HydrateGraph (ds_Digest (b_Snapshot b)) (Persist now b t) = Ok h ∧
    encode_graph (h_Graph h) = encode_graph g ∧ h_Schemas h = schemas ∧
    ds_Environment (h_Snapshot h) = env ∧
    h_Executables h =
      (if decide (execs = ∅) then None else Some (json_map (image_program <$> omap id execs))).
Proof.
  intros (decode_encode_graph & decode_encode_programs & encode_schemas_ne & decode_encode_schemas) Hl Hb (Hag & Hnd & Hnew).
  unfold Build in Hb.
  apply bind_Ok in Hb as (gp & Hgp & Hb). apply bind_Ok in Hb as (mp & Hmp & Hb).
  apply bind_Ok in Hb as (ep & Hep & Hb). injection Hb as <-.
  cbn [b_Snapshot b_Artifacts ds_Digest] in *.
  unfold MarshalGraph, orMarshal in Hgp. destruct (encode_graph g) as [gp'|] eqn:Hg; [|done]. injection Hgp as ->.
  destruct (decode_encode_graph gp eq_refl) as (g' & Hdec & Henc).
  destruct (put_all_holds now _ t Hnd Hag) as (Hf & _ & Hsn). unfold Persist. cbn [b_Snapshot b_Artifacts ds_Digest].
  set (t1 := foldl (λ t a, putArtifact now a t) t _) in *.
  match goal with |- context [putSnapshot now ?s t1] => set (snap := s) end.
  destruct (put_new_snapshot now snap t1) as (Hart & s' & Hs' & Hfmt & Hgd & Hed & Hsd & Hev); [by rewrite Hsn|].
  set (t2 := putSnapshot now snap t1) in *.
  assert (∀ a, holds t1 a → holds t2 a) as Hh by (intros a (a' & ? & ?); exists a'; by rewrite Hart).
  unfold HydrateGraph. change (snapshotDigest _) with (ds_Digest snap).
  assert (trim_space (ds_Digest snap) = ds_Digest snap) as Htrim by apply trim_hashHex. rewrite Htrim.
  rewrite (proj2 (String.eqb_neq _ "") (hashHex_ne sha256 sha256_size _ : ds_Digest snap ≠ "")).
  unfold getSnapshot. rewrite Hs', Hfmt. cbn [ds_FormatVersion snap si_FormatVersion]. cbn [String.eqb negb].
  rewrite String.eqb_refl. cbn [negb]. rewrite Hgd.
  apply Forall_cons in Hf as [Hf1 Hf]. apply Forall_cons in Hf as [_ Hf]. apply Forall_app in Hf as [Hfe Hfs].
  rewrite (load_holds t2 _ (Hh _ Hf1) : load_artifact (ds_GraphDigest snap) FormatGraphV1 t2 = Ok gp). cbn [mbind res_bind].
  unfold UnmarshalGraph. rewrite Hdec. cbn [mbind res_bind]. rewrite Hsd, Hed.
  assert (hydrate_schemas (ds_SchemaBundleDigest snap) t2 = Ok schemas) as ->.
  { subst snap. cbn [ds_SchemaBundleDigest si_SchemaBundleDigest].
    destruct (decide (schemas = ∅)) as [->|Hne]; [done|]. apply Forall_cons in Hfs as [Hfs _].
    apply hydrate_schemas_built; auto. }
  assert (hydrate_programs (ds_ExecutionIRDigest snap) t2 =
    Ok (if decide (execs = ∅) then None else Some (json_map (image_program <$> omap id execs)))) as ->.
  { subst snap. cbn [ds_ExecutionIRDigest si_ExecutionIRDigest].
    destruct (decide (execs = ∅)) as [He|He]; [by injection Hep as <-|].
    destruct (MarshalPrograms execs) as [w|] eqn:Hw; [|done]. injection Hep as <-.
    apply Forall_cons in Hfe as [Hfe _]. apply hydrate_programs_built; auto. }
  cbn [mbind res_bind mret res_ret]. eexists. split; [done|]. cbn. split; [done|]. split; [done|].
  split; [by rewrite Hev|done].
Qed.

(** ** The identity *)

Lemma member_inj n b1 b2 r1 r2 :
  valid_utf8 b1 = true → valid_utf8 b2 = true →
  member n (json_quote b1) r1 = member n (json_quote b2) r2 → b1 = b2 ∧ r1 = r2.
Proof.
  intros V1 V2. unfold member. intros H%string_app_inv_head%string_app_inv_head%string_app_inv_head%string_app_inv_head.
  by apply json_quote_inj.
Qed.

Definition identity_valid (id : snapshotIdentityV1) : Prop :=
  Forall (λ s, valid_utf8 s = true) [si_FormatVersion id; si_CompilerVersion id; si_Environment id;
    si_GraphDigest id; si_ExecutionIRDigest id; si_CapabilityManifestDigest id; si_SchemaBundleDigest id].

(** A snapshot digest determines the identity, unless SHA-256 collides. *)
Theorem snapshotDigest_commits id1 id2 :
  identity_valid id1 → identity_valid id2 → snapshotDigest id1 = snapshotDigest id2 →
  id1 = id2 ∨ collision sha256.
Proof.
  intros V1 V2 E. apply hashHex_inj in E as [E|]; [left|by right].
  unfold identity_valid in V1, V2. rewrite !Forall_cons in V1, V2.
  destruct V1 as (A1 & A2 & A3 & A4 & A5 & A6 & A7 & _), V2 as (B1 & B2 & B3 & B4 & B5 & B6 & B7 & _).
  destruct id1 as [f1 c1 e1 g1 x1 m1 s1], id2 as [f2 c2 e2 g2 x2 m2 s2]. cbn in *.
  unfold marshal_identity in E. cbn in E. apply string_app_inv_head in E.
  apply member_inj in E as [-> E]; [|done..]. apply string_app_inv_head in E.
  apply member_inj in E as [-> E]; [|done..]. apply string_app_inv_head in E.
  apply member_inj in E as [-> E]; [|done..]. apply string_app_inv_head in E.
  apply member_inj in E as [-> E]; [|done..]. apply string_app_inv_head in E.
  apply member_inj in E as [-> E]; [|done..]. apply string_app_inv_head in E.
  apply member_inj in E as [-> E]; [|done..]. f_equal.
  destruct (String.eqb_spec s1 "") as [->|], (String.eqb_spec s2 "") as [->|]; try done.
  apply string_app_inv_head in E. by apply member_inj in E as [-> _].
Qed.

End snapshot.

(** ** An instance *)

Definition demo_encode (g : string) : option string := if (g =? "bad")%string then None else Some ("g" +:+ g).
Definition demo_decode (s : string) : option string :=
  match s with String _ g => Some g | "" => None end.
Definition demo_programs (w : programsWire) : string := if decide (pw_Programs w = ∅) then "none" else "some".
Definition demo_schemas (m : gmap string string) : string := "m".

Definition demo_build : Built :=
  match Build checksum demo_encode (λ _, Some "[manifest]") demo_programs demo_schemas "cfg" "prod" " v1 " ∅ ∅ with
  | Ok b => b | Err _ => mkBuilt (mkDeploymentSnapshot "" "" "" "" "" "" "" "" zero_time) [] end.
Definition demo_tables : DeployTables := Persist (mkTime 5 0) demo_build empty_tables.
Definition demo_digest : string := ds_Digest (b_Snapshot demo_build).

Definition demo_hydrate (d : string) (t : DeployTables) : res deploy_error (Hydrated string) :=
  HydrateGraph demo_decode (λ _, None) (λ _, None) d t.

Example demo_hydrates :
  (λ h, (h_Graph h, ds_CompilerVersion (h_Snapshot h))) <$> demo_hydrate demo_digest demo_tables = Ok ("cfg", "v1").
Proof. vm_compute. reflexivity. Qed.

Lemma HydrateGraph_immutable_witness : ∃ h,
  demo_hydrate demo_digest
    (foldl (λ t op, deploy_step op t) demo_tables
       [DPutArtifact (mkTime 9 0) (mkDeploymentArtifact "zz" "k" "f" "p" zero_time);
        DSetCurrent "prod" "other"; DPrune ["x"; demo_digest]]) = Ok h.
Proof.
  destruct (demo_hydrate demo_digest demo_tables) as [h|] eqn:Hh; [|vm_compute in Hh; discriminate].
  exists h. apply HydrateGraph_immutable; [vm_compute; reflexivity| | |exact Hh].
  - constructor; [exact I|]. constructor; [exact I|]. constructor; [|constructor].
    apply list_elem_of_further, list_elem_of_here.
  - intros s Hs. destruct (ds_GraphDigest s) eqn:E; [|discriminate].
    apply (f_equal (fmap ds_GraphDigest)) in Hs. cbn [fmap option_fmap option_map] in Hs. rewrite E in Hs.
    vm_compute in Hs. discriminate.
Defined.

Definition demo_execs : gmap string (option program) := {["deploy" := Some sample_program]}.
Definition demo_wire : programsWire :=
  match MarshalPrograms demo_execs with Ok w => w | Err _ => mkProgramsW "" ∅ end.
Definition demo_bundle : gmap string string := {["in.json" := "{}"]}.
Definition demo_full : res deploy_error Built :=
  Build checksum demo_encode (λ _, Some "[manifest]") (λ _, "programs") demo_schemas "cfg" "prod" "v1" demo_bundle demo_execs.

Lemma HydrateGraph_built_witness : ∃ b h,
  demo_full = Ok b ∧
  HydrateGraph demo_decode (λ _, Some demo_wire) (λ _, Some demo_bundle) (ds_Digest (b_Snapshot b))
    (Persist (mkTime 5 0) b empty_tables) = Ok h ∧ h_Schemas h = demo_bundle.
Proof.
  destruct demo_full as [b|] eqn:Hb; [|vm_compute in Hb; discriminate].
  assert (NoDup (da_Digest <$> b_Artifacts b)) as Hnd.
  { apply (bool_decide_unpack _). vm_compute in Hb. injection Hb as <-. vm_compute. exact I. }
  destruct (HydrateGraph_built checksum demo_encode demo_decode (λ _, Some "[manifest]") (λ _, "programs") (λ _, Some demo_wire)
    demo_schemas (λ _, Some demo_bundle) checksum_size (mkTime 5 0) "cfg" "prod" "v1" demo_bundle demo_execs b
    empty_tables) as (h & Hh & _ & Hs & _).
  - split; [|split; [|split; [discriminate|reflexivity]]].
    + intros s [= <-]. exists "cfg". split; reflexivity.
    + intros w Hw. unfold demo_wire. rewrite Hw. reflexivity.
  - intros name p H. unfold demo_execs in H. apply lookup_singleton_Some in H as [<- [= <-]]. reflexivity.
  - exact Hb.
  - split; [|split; [exact Hnd|reflexivity]]. intros a a' _ H. cbn in H. rewrite lookup_empty in H. discriminate.
  - exists b, h. split; [reflexivity|]. split; [exact Hh|exact Hs].
Defined.

(** The race of a prune with a starting run: the run has pinned its snapshot but
    its row is not there yet, so the prune takes the snapshot away, and the run
    that starts afterwards cannot be resumed. *)
Theorem prune_before_start :
  let pruned := (pruneUnreferencedArtifacts [] demo_tables).1 in
  demo_hydrate demo_digest demo_tables ≠ Err (DLoad demo_digest) ∧
  demo_hydrate demo_digest pruned = Err (DLoad demo_digest).
Proof. split; [vm_compute; discriminate|vm_compute; reflexivity]. Qed.
