(* ===== verification/EngineState.v ===== *)
(** * The state of the engine ([internal/engine])

    What a run of the engine reads and writes: the data of a suspended run
    ([checkpoint.go], [hitl.go]), the configuration of an [Executor], its errors, and
    the world its calls change: the environment of tools and models, the tables of
    the store, the cost of the run ([cost.go]) and the log of what was done. *)

From S2P Require Import Prelude GoNum GoText Value JsonNum ExecIR ExecEval ExecInterp SpecTools SpecPolicy SpecLimits Policy PolicyHitl AuditChain TraceRedact TraceRecorder EngineLimits McpDispatch StateStore StateRuns.

Local Open Scope Z_scope.

(** ** Numbers and times *)

(** The sum of two binary64 numbers, rounded to nearest even. *)
Definition f64_add (a b : f64) : f64 :=
  match a, b with
  | FNaN, _ | _, FNaN => FNaN
  | FInf s, FInf s' => if Bool.eqb s s' then FInf s else FNaN
  | FInf s, _ | _, FInf s => FInf s
  | FFin s m e, FFin s' m' e' =>
      let k := Z.min e e' in
      let v := signed s m * 2 ^ (e - k) + signed s' m' * 2 ^ (e' - k) in
      if v =? 0 then FFin (s && s') 0 (-1074)
      else let '(n, d) := f64_frac (Z.abs_N v) k in f64_round (v <? 0) n d
  end.
Definition zero_cost : f64 := FFin false 0 (-1074).

Example add_tenths : f64_add (dec_to_f64 false 1 (-1)) (dec_to_f64 false 2 (-1)) = FFin false 5404319552844596 (-54).
Proof. vm_compute. reflexivity. Qed.

(** [t.Sub(u)] in nanoseconds, saturating, and [Milliseconds]. *)
Definition time_sub (t u : Time) : Z :=
  Z.max min_int (Z.min max_int ((t_unix t - t_unix u) * 1000000000 + (t_nsec t - t_nsec u))).
Definition milliseconds (d : Z) : Z := Z.quot d 1000000.

(** ** Errors *)

(** An error of [ToolExecutor.Call]: a denial, a cancelled or expired context, or
    one the adapter marked recoverable, with its safe observation. *)
Record tool_error := mkToolError {
  te_Text : string; te_Denied : bool; te_Canceled : bool; te_DeadlineExceeded : bool; te_Recoverable : option string;
}.

(** How an agent step fails on its own account ([steps.go], [agent_tools.go]). *)
Inductive agent_failure :=
  | NoModel (ref : string)
  | AdvertisedTools (e : agent_error)
  | NoOutputSchema
  | SchemaUnreadable (sref : string)
  | NoArgument
  | NoPayload
  | MaxTokensStop (cap : Z)
  | OtherStop (reason : string)
  | NoToolCalls
  | IterationsExhausted (n : Z)
  | EmptyResponse
  | NotAnObject
  | AmbiguousResponse (n : nat)
  | OutputRejected
  | MissingToolName
  | NotDeclared (name : string)
  | BadArguments (name : string).

Inductive xerror :=
  | XSuspend                                       (* execir.ErrSuspend *)
  | XInterp (e : error)                            (* of the interpreter of a subworkflow *)
  | XDenied (d : DeniedError)
  | XLimit (e : limit_error)
  | XTool (e : tool_error)
  | XModel (text : string) (canceled : bool)         (* cancelled, or past its deadline *)
  | XContext (canceled : bool)                     (* ctx.Err(), or its deadline *)
  | XAgent (f : agent_failure)
  | XHitl (e : hitl_error)
  | XHitlRejected (actor uses : string)
  | XAwaitingDecision
  | XUnknownAgent (name : string)
  | XUnknownWorkflow (name : string)
  | XNesting (depth max : Z)
  | XValue (e : jerr)                              (* a value without a canonical form *)
  | XWholeDocument (n : nat)
  | XSchema
  | XSecondNested (step : string)
  | XEmptyStepID
  | XSlashStepID (id : string)
  | XStore (e : store_error)
  | XLowering (workflow : string)
  | XPolicy (name : string)
  | XOutput                                        (* the output is no object *)
  | XNoCause                                       (* suspended without a gate *)
  | XCheckpoint (text : string)
  | XCutOff.                                       (* no error of the code: a schedule was cut off *)

(** ** Suspended runs ([checkpoint.go], [hitl.go]) *)

Record StepResult := mkStepResult { sr_Output : value; sr_Meta : fields }.

Definition PendingHitlKindApproval : string := "approval".

Record PendingHitlState := mkPending {
  ph_StepID : string; ph_Uses : string; ph_With : fields; ph_Review : ResolvedHitlReview;
  ph_Kind : string; ph_ExecKey : string;
}.

(** The gate an operator decides on. *)
Definition pending_gate (p : PendingHitlState) : HitlGate := mkHitlGate (ph_Uses p) (ph_With p) (ph_Review p).

Inductive NestedRunState := mkNested {
  nr_StepID : string; nr_Workflow : string; nr_Input : value; nr_InputParam : string;
  nr_Steps : gmap string StepResult; nr_Completed : list string;
  nr_PendingHitl : option PendingHitlState; nr_Nested : option NestedRunState;
  nr_ExecKey : string; nr_ExecMemo : gmap string value; nr_ExecControl : gmap string nat;
}.

(** [Context]: input document, step results, and what the run waits for. *)
Record Context_ := mkContext {
  cx_Input : value; cx_Steps : gmap string StepResult;
  cx_PendingHitl : option PendingHitlState; cx_Nested : option NestedRunState;
}.

Record checkpointPayload := mkPayload_ {
  ck_Version : Z; ck_Input : value; ck_Steps : gmap string StepResult; ck_Completed : list string;
  ck_TotalCostUSD : f64; ck_PendingHitl : option PendingHitlState; ck_Nested : option NestedRunState;
  ck_ExecIR : bool; ck_ExecMemo : gmap string value; ck_ExecControl : gmap string nat;
}.

(** A subworkflow that suspended ([execir_invoker.go]). *)
Inductive nestedSuspension := mkSuspension {
  ns_key : string; ns_stepID : string; ns_callee : string; ns_inputParam : string;
  ns_ictx : Context_; ns_state : RunState; ns_child : option nestedSuspension;
}.

(** ** Models ([models/types.go]) *)

Definition StopReasonEndTurn : string := "end_turn".
Definition StopReasonToolUse : string := "tool_use".
Definition StopReasonMaxTokens : string := "max_tokens".
Definition ToolChoiceAuto : string := "auto".

Record ToolCall := mkToolCall { tl_ID : string; tl_Name : string; tl_Arguments : string }.
Record ToolResult := mkToolResult { tr_ToolCallID : string; tr_Content : string; tr_IsError : bool }.
Record ChatMessage := mkMessage {
  cm_Role : string; cm_Content : string; cm_ToolCalls : list ToolCall; cm_ToolResults : list ToolResult;
}.
Record GenerateMeta := mkGenerateMeta {
  gm_DurationMs : Z; gm_PromptTokens : Z; gm_CompletionTokens : Z; gm_CostUSD : f64;
}.
Record ToolDef := mkToolDef { td_Name : string; td_Description : string; td_Parameters : string }.
Record ResponseFormat := mkResponseFormat { rf_Name : string; rf_Schema : string }.
Record GenerateRequest := mkRequest {
  rq_Model : string; rq_Messages : list ChatMessage; rq_Tools : list ToolDef; rq_ToolChoice : string;
  rq_MaxTokens : Z; rq_Temperature : option f64; rq_ResponseFormat : option ResponseFormat;
}.
Record GenerateResponse := mkResponse {
  rp_Content : string; rp_ToolCalls : list ToolCall; rp_StopReason : string; rp_Meta : GenerateMeta;
}.
(** An error of [Generate]; [ErrTransientGeneration] allows one retry. *)
Record model_error := mkModelError { me_Text : string; me_Transient : bool; me_Canceled : bool }.

(** ** The world *)

Inductive action :=
  | ATrace (stepID eventType actorType : string) (data : list (string * payload))
  | ATool (uses : string) (args : fields)            (* [Tools.Call] *)
  | AModel (req : GenerateRequest)                   (* [ModelClient.Generate] *)
  | ALost (stepID : string).                         (* the last row of a step, refused by its ended context *)

Record world (T : Type) := mkWorld {
  w_env : T; w_runs : RunTables; w_cost : f64; w_log : list action;
}.
Arguments mkWorld {T}.
Arguments w_env {T}.
Arguments w_runs {T}.
Arguments w_cost {T}.
Arguments w_log {T}.

Definition log_action {T} (a : action) (w : world T) : world T :=
  mkWorld (w_env w) (w_runs w) (w_cost w) (w_log w ++ [a]).
Definition set_env {T} (t : T) (w : world T) : world T := mkWorld t (w_runs w) (w_cost w) (w_log w).

(** A statement of the store: the tables after it, and its error. *)
Definition on_store {T} (f : RunTables → stored) (w : world T) : world T * option store_error :=
  let '(t, e) := f (w_runs w) in (mkWorld (w_env w) t (w_cost w) (w_log w), e).
Definition put_step {T} (row : RunStep) (w : world T) : world T := (on_store (UpsertRunStep row) w).1.

(** [liveCost.add]. *)
Definition add_cost {T} (delta : f64) (w : world T) : world T :=
  mkWorld (w_env w) (w_runs w) (f64_add (w_cost w) delta) (w_log w).

(** ** The executor ([execution.go]) *)

(** A [context.Context] of a call: whether it is cancelled by the end of the call, the
    timeouts in force with the time each was set, and the advertised output budget of a
    tool.  A call is one step of the interpreter, taken where the call ends: a sibling
    that fails while the call runs has failed before that step, and the call sees the
    flag.  When the context ends, before the call or at some point in it, is told by
    [e_CtxErr] below. *)
Record call_ctx := mkCallCtx { cc_Canceled : bool; cc_Timeouts : list (Time * Z); cc_Budget : option Z }.

(** What [kinds.go] says of an agent besides its tools and policy; the output is the
    schema reference of a declared [output:]. *)
Record AgentDetails := mkAgentDetails {
  ag_Model : string; ag_Instructions : string; ag_Output : option string;
  ag_Constraints : option AgentConstraints; ag_TimeoutSeconds : Z; ag_Temperature : option f64;
  ag_RequireStructuredOutput : bool;
}.

(** The configuration of a run.  Its functions are the code outside: the tool
    registry, model clients, the JSON Schema validator, files, the digest, the clock,
    the JSON codec of checkpoints, and the order Go traverses maps in.  A subworkflow
    runs under the schedule [e_pick] of its call path, for at most [e_fuel] steps. *)
Record Executor (T : Type) := mkExecutor {
  e_Graph : ProjectGraph;
  e_Agents : string → AgentDetails;
  e_InputSchema : string → option string;                 (* of a workflow's [input:] *)
  e_ProjectLimits : option ExecutionLimits;
  e_WorkflowLimits : string → option ExecutionLimits;
  e_ToolLimits : gmap string (option ExecutionLimits);
  e_PinnedGraph : bool;
  e_Schemas : gmap string string;                         (* pinned schemas by reference *)
  e_StoredPolicies : option (string → option CompiledPolicy);   (* the snapshot under ProjectRoot *)
  e_CompilePolicy : string → option CompiledPolicy;
  e_Executables : gmap string program;
  e_SchemaFile : string → option string;                  (* ResolveSchemaPath, os.ReadFile *)
  e_ValidateFile : string → string → bool;                (* ResolveSchemaPath, schema.Validate *)
  e_ValidateContent : string → string → string → bool;    (* schema.ValidateContent *)
  e_NativeSchema : string → option string;                (* native.OperationInputSchema *)
  e_Tools_Call : T → call_ctx → string → fields → T * fields * ToolCallMeta * option tool_error;
  e_Client : string → option string;                      (* modelClient: the model id *)
  e_Generate : T → call_ctx → GenerateRequest → T * (GenerateResponse + model_error);
  e_CtxErr : T → call_ctx → option bool;                  (* ended by now: cancelled, or past its deadline *)
  e_JSONValid : string → bool;                            (* json.Valid *)
  e_Unmarshal : string → option value;                    (* jsonnum.Unmarshal *)
  e_Encode : checkpointPayload → option string;
  e_Decode : string → option checkpointPayload;
  e_SHA256 : chars → chars;
  e_Now : T → Time;
  e_Order : nat → fields → list string;
  e_Traced : bool;
  e_TraceDetail : bool;
  e_Redaction : RedactionOptions;
  e_ErrorText : xerror → string;
  e_MaxConcurrentSteps : Z;
  e_pick : list string → nat → nat;
  e_fuel : nat;
}.
Arguments mkExecutor {T}.
Arguments e_Graph {T}.
Arguments e_Agents {T}.
Arguments e_InputSchema {T}.
Arguments e_ProjectLimits {T}.
Arguments e_WorkflowLimits {T}.
Arguments e_ToolLimits {T}.
Arguments e_PinnedGraph {T}.
Arguments e_Schemas {T}.
Arguments e_StoredPolicies {T}.
Arguments e_CompilePolicy {T}.
Arguments e_Executables {T}.
Arguments e_SchemaFile {T}.
Arguments e_ValidateFile {T}.
Arguments e_ValidateContent {T}.
Arguments e_NativeSchema {T}.
Arguments e_Tools_Call {T}.
Arguments e_Client {T}.
Arguments e_Generate {T}.
Arguments e_CtxErr {T}.
Arguments e_JSONValid {T}.
Arguments e_Unmarshal {T}.
Arguments e_Encode {T}.
Arguments e_Decode {T}.
Arguments e_SHA256 {T}.
Arguments e_Now {T}.
Arguments e_Order {T}.
Arguments e_Traced {T}.
Arguments e_TraceDetail {T}.
Arguments e_Redaction {T}.
Arguments e_ErrorText {T}.
Arguments e_MaxConcurrentSteps {T}.
Arguments e_pick {T}.
Arguments e_fuel {T}.

(** Operator options of a run ([HitlRunOptions], [RunInput]). *)
Record HitlRunOptions := mkHitlOptions {
  ho_AutoApprove : bool; ho_Actor : string; ho_Decision : option HitlDecisionInput;
}.
Record RunInput := mkRunInput {
  in_RunID : string; in_WorkflowName : string; in_StartedAt : Time; in_Input : fields;
  in_ApprovedActions : list string; in_Resume : bool; in_Hitl : HitlRunOptions;
}.

(** Where a workflow runs: its name, the prefix of its step ids, the root workflow,
    its depth, the callees above it and the keys of the calls that led to it. *)
Record place := mkPlace {
  pl_Workflow : string; pl_Prefix : string; pl_Root : string; pl_Depth : Z;
  pl_CallStack : list string; pl_Path : list string;
}.

(** ** Step ids ([subworkflow.go]) *)

Definition qualifyStepID (prefix id : string) : res xerror string :=
  let id := trim_space id in
  if (id =? "")%string then Err XEmptyStepID
  else if str_contains_byte "/" id then Err (XSlashStepID id)
  else
    let prefix := trim_space prefix in
    Ok (if (prefix =? "")%string then id else prefix +:+ ("/" +:+ id)).

Definition qualID (pl : place) (id : string) : string :=
  match qualifyStepID (pl_Prefix pl) id with Ok s => s | Err _ => id end.

(** ** Policies of workflows ([policy_eval.go]) *)

Section executor.
Context {T : Type} (e : Executor T).

Definition policyDeclared (name : string) : bool := bool_decide (is_Some (pg_Policies (e_Graph e) !! name)).

Definition compiledWorkflowEvaluator (policyName : string) : res xerror PolicyEvaluator :=
  let g := e_Graph e in
  let name := trim_space policyName in
  let name := if (name =? "")%string then DefaultPolicyName g else name in
  let compile (f : string → option CompiledPolicy) :=
    match f name with Some cp => Ok (NewCompiledEvaluator g (Some cp)) | None => Err (XPolicy name) end in
  if (name =? "default")%string && negb (policyDeclared name) then Ok (NewEvaluator g None)
  else if e_PinnedGraph e then compile (e_CompilePolicy e)
  else match e_StoredPolicies e with Some f => compile f | None => compile (e_CompilePolicy e) end.

Definition lookupWorkflow (name : string) : res xerror WorkflowSpec :=
  match pg_Workflows (e_Graph e) !! name with Some wf => Ok wf | None => Err (XUnknownWorkflow name) end.

(** [Trace.Append]; its errors are ignored everywhere. *)
Definition trace (pl : place) (stepID eventType actorType : string) (data : list (string * payload))
    (w : world T) : world T :=
  if e_Traced e then log_action (ATrace stepID eventType actorType (stamp (pl_CallStack pl) data)) w else w.

Definition traces (pl : place) (stepID eventType actorType : string) (data : list (list (string * payload)))
    (w : world T) : world T :=
  foldl (λ w d, trace pl stepID eventType actorType d w) w data.

(** *** Writes under the context of a call

    [database/sql] refuses a statement whose context has ended.  The context of the run
    itself never ends ([context.Background] of [cli/run.go]): only the writes of leaves
    and of subworkflow calls look at theirs. *)

(** [ctx.Err()]: [Some true] when cancelled, [Some false] past a deadline.  Only a
    context that is cancelled by the end of the call can be cancelled in it, and only
    one with a timeout can expire. *)
Definition ctx_err (ctx : call_ctx) (w : world T) : option bool :=
  match e_CtxErr e (w_env w) ctx with
  | Some true => if cc_Canceled ctx then Some true else None
  | Some false => if nonempty (cc_Timeouts ctx) then Some false else None
  | None => None
  end.

Definition trace_in (ctx : call_ctx) (pl : place) (stepID eventType actorType : string) (data : list (string * payload))
    (w : world T) : world T :=
  match ctx_err ctx w with Some _ => w | None => trace pl stepID eventType actorType data w end.

Definition traces_in (ctx : call_ctx) (pl : place) (stepID eventType actorType : string)
    (data : list (list (string * payload))) (w : world T) : world T :=
  foldl (λ w d, trace_in ctx pl stepID eventType actorType d w) w data.

(** [Store.UpsertRunStep(ctx, row)]. *)
Definition upsert (ctx : call_ctx) (row : RunStep) (w : world T) : world T * option xerror :=
  match ctx_err ctx w with
  | Some canceled => (if (rs_Status row =? "running")%string then w else log_action (ALost (rs_StepID row)) w, Some (XContext canceled))
  | None => let '(w, err) := on_store (UpsertRunStep row) w in (w, XStore <$> err)
  end.

(** [redactPayloadJSON]: a display payload as stored; a marshalling error leaves it
    empty. *)
Definition redactPayloadJSON (v : value) : string :=
  let redaction := if e_Traced e then e_Redaction e else normalized DefaultRedactionOptions in
  match v with
  | VMap m =>
      default "" (json_marshal (VMap (PrepareEventData ((λ kv, (kv.1, of_value kv.2)) <$> m) [] redaction)))
  | v => default "" (json_marshal v)
  end.

(** The events of a denial. *)
Definition denied_trace (d : DeniedError) : list (string * payload) :=
  ("reason", PStr (de_Reason d)) :: optional_field "uses" (de_Uses d).

Definition appendCostLimitHit (ctx : call_ctx) (pl : place) (stepID : string) (d : DeniedError) (w : world T) : world T :=
  if (de_Reason d =? ReasonMaxCost)%string
  then trace_in ctx pl stepID "limit_hit" "system" (LimitHitData "max_cost" stepID []) w else w.

(** [policy.AsDenied]: the reason of a denial, also below the interpreter of a
    subworkflow. *)
Definition denied_reason (err : xerror) : option string :=
  match err with XDenied d => Some (de_Reason d) | XInterp (EDenied r _) => Some r | _ => None end.

Definition runErrorTraceData (stepID : string) (err : xerror) : list (string * payload) :=
  let data := [("error", PStr (e_ErrorText e err)); ("stepId", PStr stepID)] in
  match denied_reason err with Some r => payload_set data "reason" (PStr r) | None => data end.

(** The error the interpreter sees; it tests for [context.Canceled] and
    [context.DeadlineExceeded] alike ([isCanceled]). *)
Definition to_error (err : xerror) : error :=
  match err with
  | XSuspend => ESuspend
  | XInterp e => e
  | XDenied d => EDenied (de_Reason d) (e_ErrorText e err)
  | XTool t => if te_Canceled t || te_DeadlineExceeded t then ECanceled else EInvoker (e_ErrorText e err)
  | XModel _ true | XContext _ => ECanceled
  | _ => EInvoker (e_ErrorText e err)
  end.
End executor.
