(* ===== verification/EngineCheckpoint.v ===== *)
(** * Checkpoints of a run ([internal/engine/checkpoint.go])

    The guards a stored checkpoint passes before a resume uses it, and the
    conversion of a suspended subworkflow into its stored frames
    ([nestedRunStateOf] of [execir_invoker.go]).  The JSON text is the codec of the
    [Executor]. *)

From S2P Require Import Prelude GoNum GoText Value JsonNum ExecIR ExecEval ExecInterp SpecTools SpecPolicy SpecLimits Policy PolicyHitl RuneText TraceRedact EngineLimits StateRuns EngineState.

Local Open Scope Z_scope.

Definition checkpointPayloadVersion : Z := 1.
Definition maxCheckpointContextBytes : Z := 4194304.
Definition maxCheckpointSteps : nat := 256.

(** The root input is always an object; absent is the empty one. *)
Definition rootCheckpointInput (v : value) : value := match v with VNil => VMap [] | v => v end.

Definition completedStepIDs (steps : gmap string StepResult) : list string := sorted_keys steps.

Inductive checkpoint_error :=
  | CTooLarge | CUndecodable | CVersion (v : Z) | CTooManySteps (n : nat) | CNegativeCost
  | CUnknownStep (id : string)
  | CNesting (max : Z) | CMissingAnchor | CNotAStep (id : string) | CNotAWorkflowCall (id : string)
  | COtherCallee (id callee : string) | CUnknownWorkflow (name : string) | CNilWorkflow
  | CStatus (s : string) | CNotExecIR | CNoCheckpoint.

(** ** Steps *)

(** [completedStepIndex] and the recorded ids say which steps may have results. *)
Definition validateCheckpointSteps (steps : gmap string StepResult) (wf : option WorkflowSpec)
    (completedStepIndex : Z) (completedIDs : list string) : option checkpoint_error :=
  match wf with
  | None => Some CNilWorkflow
  | Some wf =>
      let named (id : string) := negb (id =? "")%string in
      let known := filter named ((λ st, trim_space (step_ID st)) <$> wf_Steps wf) in
      let ids := filter named (trim_space <$> completedIDs) in
      match (if nonempty completedIDs then list_find (λ id, id ∉ known) ids else None) with
      | Some (_, id) => Some (CUnknownStep id)
      | None =>
          let allowed :=
            if nonempty completedIDs then ids
            else filter named ((λ st, trim_space (step_ID st)) <$> take (Z.to_nat (completedStepIndex + 1)) (wf_Steps wf)) in
          match list_find (λ id, id ∉ known ∨ id ∉ allowed) (sorted_keys steps) with
          | Some (_, id) => Some (CUnknownStep id)
          | None => None
          end
      end
  end.

(** ** Nested frames *)

Section graph.
(** The workflows of the graph. *)
Context (workflows : gmap string WorkflowSpec).

Definition nestedCalleeWorkflow (parent : option WorkflowSpec) (stepID_ workflow : string)
    : res checkpoint_error WorkflowSpec :=
  match parent with
  | None => Err CNilWorkflow
  | Some parent =>
      let stepID := trim_space stepID_ in
      let calleeName := trim_space workflow in
      match list_find (λ st, trim_space (step_ID st) = stepID) (wf_Steps parent) with
      | None => Err (CNotAStep stepID)
      | Some (_, found) =>
          if (trim_space (step_Workflow found) =? "")%string then Err (CNotAWorkflowCall stepID)
          else if negb (trim_space (step_Workflow found) =? calleeName)%string then Err (COtherCallee stepID calleeName)
          else match workflows !! calleeName with
               | Some callee => Ok callee
               | None => Err (CUnknownWorkflow calleeName)
               end
      end
  end.

(** The frames from [n] on, the first at nesting level [depth]. *)
Fixpoint validate_frames (maxNest depth : Z) (parent : option WorkflowSpec) (n : NestedRunState)
    : option checkpoint_error :=
  if (0 <? maxNest) && (maxNest <? depth) then Some (CNesting maxNest)
  else if (trim_space (nr_StepID n) =? "")%string || (trim_space (nr_Workflow n) =? "")%string then Some CMissingAnchor
  else if bool_decide (maxCheckpointSteps < size (nr_Steps n))%nat then Some (CTooManySteps (size (nr_Steps n)))
  else
    match nestedCalleeWorkflow parent (nr_StepID n) (nr_Workflow n) with
    | Err e => Some e
    | Ok callee =>
        let steps_error :=
          if (nr_ExecKey n =? "")%string
          then validateCheckpointSteps (nr_Steps n) (Some callee) (-1) (nr_Completed n ++ completedStepIDs (nr_Steps n))
          else None in
        match steps_error with
        | Some e => Some e
        | None => match nr_Nested n with
                  | Some n' => validate_frames maxNest (depth + 1) (Some callee) n'
                  | None => None
                  end
        end
    end.

Definition validateNestedRunState (n : option NestedRunState) (parent : option WorkflowSpec) (maxNest : Z)
    : option checkpoint_error :=
  match n with Some n => validate_frames maxNest 1 parent n | None => None end.

(** ** Loading *)

(** The guards of [unmarshalCheckpointPayload] on a decoded payload. *)
Definition payload_error (wf : option WorkflowSpec) (maxNest completedStepIndex : Z) (p : checkpointPayload)
    : option checkpoint_error :=
  if negb (ck_Version p =? checkpointPayloadVersion) then Some (CVersion (ck_Version p))
  else if bool_decide (maxCheckpointSteps < size (ck_Steps p))%nat then Some (CTooManySteps (size (ck_Steps p)))
  else
    match (if ck_ExecIR p then None
           else validateCheckpointSteps (ck_Steps p) wf completedStepIndex (ck_Completed p)) with
    | Some e => Some e
    | None =>
        match validateNestedRunState (ck_Nested p) wf maxNest with
        | Some e => Some e
        | None => if f64_ltb (ck_TotalCostUSD p) zero_cost then Some CNegativeCost else None
        end
    end.

Definition unmarshalCheckpointPayload (decode : string → option checkpointPayload) (contextJSON : string)
    (wf : option WorkflowSpec) (maxNest completedStepIndex : Z) : res checkpoint_error (Context_ * f64) :=
  if maxCheckpointContextBytes <? byte_len contextJSON then Err CTooLarge
  else match decode contextJSON with
       | None => Err CUndecodable
       | Some p =>
           match payload_error wf maxNest completedStepIndex p with
           | Some e => Err e
           | None => Ok (mkContext (rootCheckpointInput (ck_Input p)) (ck_Steps p) (ck_PendingHitl p) (ck_Nested p),
                         ck_TotalCostUSD p)
           end
       end.
End graph.

(** ** Saving ([execir_invoker.go]) *)

Fixpoint nestedRunStateOf (n : nestedSuspension) : NestedRunState :=
  mkNested (ns_stepID n) (ns_callee n) (cx_Input (ns_ictx n)) (ns_inputParam n) (cx_Steps (ns_ictx n))
    (completedStepIDs (cx_Steps (ns_ictx n))) (cx_PendingHitl (ns_ictx n))
    (match ns_child n with Some c => Some (nestedRunStateOf c) | None => None end)
    (ns_key n) (rs_memo (ns_state n)) (rs_control (ns_state n)).

Definition execStepIndex (wf : WorkflowSpec) (stepID : string) : Z :=
  match list_find (λ st, trim_space (step_ID st) = trim_space stepID) (wf_Steps wf) with
  | Some (i, _) => Z.of_nat i
  | None => -1
  end.

Definition exec_payload (ictx : Context_) (totalCost : f64) (st : RunState) : checkpointPayload :=
  mkPayload_ checkpointPayloadVersion (rootCheckpointInput (cx_Input ictx)) (cx_Steps ictx)
    (completedStepIDs (cx_Steps ictx)) totalCost (cx_PendingHitl ictx) (cx_Nested ictx) true
    (rs_memo st) (rs_control st).

(** [saveCheckpoint]: the payload without interpreter state. *)
Definition plain_payload (ictx : Context_) (totalCost : f64) : checkpointPayload :=
  mkPayload_ checkpointPayloadVersion (rootCheckpointInput (cx_Input ictx)) (cx_Steps ictx)
    (completedStepIDs (cx_Steps ictx)) totalCost (cx_PendingHitl ictx) (cx_Nested ictx) false ∅ ∅.
