(* ===== verification/EngineTool.v ===== *)
(** * Tool calls of the engine ([runToolStep] of [internal/engine/steps.go])

    Byte limits and input schema, policy, the tool, output limits: the one path by
    which the engine reaches a tool.  The lemmas say what a call adds to the log:
    at most one execution, of exactly the arguments the policy allowed. *)

From S2P Require Import Prelude GoNum GoText Value JsonNum ExecIR ExecEval ExecInterp SpecTools SpecPolicy StepRefs SpecLimits Policy PolicyHitl RuneText AuditChain TraceRedact TraceRecorder EngineLimits McpDispatch StateStore StateRuns EngineState.

Local Open Scope Z_scope.

Section tool.
Context {T : Type} (e : Executor T).

(** [appendToolExecution]. *)
Definition appendToolExecution (ctx : call_ctx) (pl : place) (stepID uses : string) (meta : ToolCallMeta) (failed : bool)
    (output : fields) (w : world T) : world T :=
  let data := ToolExecutionData uses (from_option fst "" (ParseUses uses)) (DurationMs meta) (CostUSD meta) failed in
  let data := if e_TraceDetail e && negb failed
              then AddToolOutput data ((λ kv, (kv.1, of_value kv.2)) <$> output) else data in
  trace_in e ctx pl stepID "tool_execution" "agent" data w.

(** [context.WithTimeout], [withSecondsTimeout] and [wallClockDeadline] ([timeout.go]);
    the latter bounds a call by the remaining budget of the run, if it has one. *)
Definition WithTimeout (d : Z) (w : world T) (c : call_ctx) : call_ctx :=
  mkCallCtx (cc_Canceled c) (cc_Timeouts c ++ [(e_Now e (w_env w), d)]) (cc_Budget c).
Definition WithOutputBudget (n : Z) (c : call_ctx) : call_ctx := mkCallCtx (cc_Canceled c) (cc_Timeouts c) (Some n).

Definition withSecondsTimeout (seconds : Z) (w : world T) (c : call_ctx) : call_ctx :=
  if seconds <=? 0 then c else WithTimeout (wrap64 (seconds * Second)) w c.

Definition wallClockDeadline (pol : PolicyEvaluator) (started : Time) (w : world T) (c : call_ctx) : call_ctx :=
  match EvalPolicySpec pol ≫= pol_Execution with
  | Some ex =>
      if (0 <? ex_MaxWallClockSeconds ex) && negb (IsZero started)
      then WithTimeout (Z.max 0 (wrap64 (wrap64 (ex_MaxWallClockSeconds ex * Second) - time_sub (e_Now e (w_env w)) started))) w c
      else c
  | None => c
  end.

(** ** Schemas ([schema_validate.go]) *)

(** A pinned run knows the schemas captured at its start and no others. *)
Definition validateAgainstSchema (sref_ instance : string) : bool :=
  let sref := trim_space sref_ in
  if (sref =? "")%string then true
  else if e_PinnedGraph e then
    match e_Schemas e !! sref with Some content => e_ValidateContent e sref content instance | None => true end
  else e_ValidateFile e sref instance.

(** [Err]: the file cannot be read. *)
Definition resolveSchemaContent (sref_ : string) : res agent_failure (option string) :=
  let sref := trim_space sref_ in
  if (sref =? "")%string then Ok None
  else if e_PinnedGraph e then Ok (e_Schemas e !! sref)
  else match e_SchemaFile e sref with Some c => Ok (Some c) | None => Err (SchemaUnreadable sref) end.

Definition validateWorkflowInputSchema (workflow : string) (input : value) : option xerror :=
  match e_InputSchema e workflow with
  | None => None
  | Some sref =>
      match json_marshal input with
      | Some raw => if validateAgainstSchema sref raw then None else Some XSchema
      | None => Some XSchema
      end
  end.

Definition validateAgentOutputSchema (agent content : string) : option xerror :=
  match ag_Output (e_Agents e agent) with
  | None => None
  | Some sref => if validateAgainstSchema sref (trim_space content) then None else Some (XAgent OutputRejected)
  end.

Definition validateToolInputSchema (uses : string) (with_ : value) : bool :=
  match ParseUses uses with
  | None => true
  | Some (toolName, operation) =>
      match tools_of (e_Graph e) !! toolName ≫= λ ts, tool_Operations ts !! operation with
      | None => true
      | Some op =>
          if (trim_space (op_Schema op) =? "")%string then true
          else match json_marshal with_ with Some raw => validateAgainstSchema (op_Schema op) raw | None => false end
      end
  end.

(** [enforceToolInput] and [enforceToolOutput] with the limits of the workflow.  The
    arguments are a Go map: [None] is the nil map of a call without arguments
    ([evalArgs]), which the schema of the operation sees as [null]; everything else
    reads it as the empty one. *)
Definition tool_input (pl : place) (tid uses : string) (with_ : option fields) :=
  enforceToolInput (e_Order e) (e_ProjectLimits e) (e_WorkflowLimits e (pl_Workflow pl)) (e_ToolLimits e)
    (λ uses v, validateToolInputSchema uses (match with_ with Some _ => v | None => VNil end))
    (e_Redaction e) tid uses (default [] with_).
Definition tool_output (pl : place) (tid uses : string) (out : fields) :=
  enforceToolOutput (e_Order e) (e_ProjectLimits e) (e_WorkflowLimits e (pl_Workflow pl)) (e_ToolLimits e)
    (e_Redaction e) tid uses out.

Definition no_meta : ToolCallMeta := mkToolCallMeta 0 zero_cost.

(** The world after the call, its metadata, and its output or error. *)
Definition runToolStep (pl : place) (pol : PolicyEvaluator) (started : Time) (ctx : call_ctx)
    (stepID stepUses : string) (pctx : RunContext) (usesOverride : string) (args : option fields) (w : world T)
    : world T * ToolCallMeta * res xerror fields :=
  let uses := trim_space usesOverride in
  let uses := if (uses =? "")%string then trim_space stepUses else uses in
  let tid := qualID pl stepID in
  let '(evs, r) := tool_input pl tid uses args in
  let w := traces_in e ctx pl tid "limit_hit" "system" evs w in
  match r with
  | Err err => (w, no_meta, Err (XLimit err))
  | Ok args =>
      match CheckToolCall pol (mkToolCallContext pctx stepID uses args) with
      | Some d => (trace_in e ctx pl tid "system_error" "system" (denied_trace d) w, no_meta, Err (XDenied d))
      | None =>
          let sel := ToolSelectionData (e_SHA256 e) uses (from_option fst "" (ParseUses uses)) args in
          let sel := if e_TraceDetail e then AddToolArgs sel ((λ kv, (kv.1, of_value kv.2)) <$> args) else sel in
          let w := trace_in e ctx pl tid "tool_selection" "agent" sel w in
          let began := e_Now e (w_env w) in
          let budget := toolOutputBudget (e_ProjectLimits e) (e_WorkflowLimits e (pl_Workflow pl)) (e_ToolLimits e)
            (e_WorkflowLimits e (pl_Root pl)) uses in
          let cc := WithOutputBudget budget (wallClockDeadline pol started w ctx) in
          let '(env, output, meta, err) := e_Tools_Call e (w_env w) cc uses args in
          let w := log_action (ATool uses args) (set_env env w) in
          let meta := if DurationMs meta =? 0
                      then mkToolCallMeta (milliseconds (time_sub (e_Now e (w_env w)) began)) (CostUSD meta)
                      else meta in
          match err with
          | Some err => (appendToolExecution ctx pl tid uses meta true [] w, meta, Err (XTool err))
          | None =>
              let w := appendToolExecution ctx pl tid uses meta false output w in
              let '(evs, r) := tool_output pl tid uses output in
              let w := traces_in e ctx pl tid "limit_hit" "system" evs w in
              match r with
              | Err err => (w, meta, Err (XLimit err))
              | Ok out =>
                  match CheckStep pol (mkStepContext stepID true) with
                  | Some d => (w, meta, Err (XDenied d))
                  | None => (w, meta, Ok out)
                  end
              end
          end
      end
  end.

(** ** The log *)

(** The tool executions of a log, and the number of its model calls. *)
Definition tool_calls (l : list action) : list (string * fields) :=
  l ≫= λ a, match a with ATool u x => [(u, x)] | _ => [] end.
Definition model_calls (l : list action) : nat :=
  length (l ≫= λ a, match a with AModel r => [r] | _ => [] end).

Lemma tool_calls_app l l' : tool_calls (l ++ l') = tool_calls l ++ tool_calls l'.
Proof. apply bind_app. Qed.
Lemma model_calls_app l l' : model_calls (l ++ l') = (model_calls l + model_calls l')%nat.
Proof. unfold model_calls. by rewrite bind_app, length_app. Qed.

(** From [w] to [w'] only the environment and the log differ; the new actions execute
    only tools that [P] admits and make at most [n] model calls. *)
Definition adds (P : string → fields → Prop) (n : nat) (w w' : world T) : Prop :=
  w_runs w' = w_runs w ∧ w_cost w' = w_cost w ∧
  ∃ l, w_log w' = w_log w ++ l ∧ Forall (λ c, P c.1 c.2) (tool_calls l) ∧ (model_calls l ≤ n)%nat.
Definition nothing (_ : string) (_ : fields) : Prop := False.

Lemma adds_refl P n w : adds P n w w.
Proof. split; [done|]. split; [done|]. exists []. rewrite app_nil_r. split; [done|]. split; [constructor|cbn; lia]. Qed.

Lemma adds_trans P n m w1 w2 w3 : adds P n w1 w2 → adds P m w2 w3 → adds P (n + m) w1 w3.
Proof.
  intros (E1 & C1 & l1 & H1 & T1 & M1) (E2 & C2 & l2 & H2 & T2 & M2). split; [congruence|]. split; [congruence|].
  exists (l1 ++ l2). rewrite H2, H1, app_assoc, tool_calls_app, model_calls_app. split; [done|].
  split; [by apply Forall_app|lia].
Qed.

Lemma adds_weaken (P Q : string → fields → Prop) n m w w' :
  (∀ u x, P u x → Q u x) → (n ≤ m)%nat → adds P n w w' → adds Q m w w'.
Proof.
  intros HPQ Hnm (E & C & l & H & HT & M). split; [done|]. split; [done|]. exists l. split; [done|].
  split; [|lia]. eapply Forall_impl; [done|]. intros [u x]. apply HPQ.
Qed.

(** A step that adds nothing of note before or after. *)
Lemma adds_after P n w1 w2 w3 : adds P n w1 w2 → adds nothing 0 w2 w3 → adds P n w1 w3.
Proof.
  intros H1 H2. rewrite <-(Nat.add_0_r n). eapply adds_trans; [done|]. by eapply adds_weaken; [| |exact H2].
Qed.
Lemma adds_before P n w1 w2 w3 : adds nothing 0 w1 w2 → adds P n w2 w3 → adds P n w1 w3.
Proof. intros H1 H2. apply (adds_trans P 0 n _ w2); [|done]. by eapply adds_weaken; [| |exact H1]. Qed.

Lemma log_action_adds a t w P n : tool_calls [a] = [] → (model_calls [a] ≤ n)%nat → adds P n w (log_action a (set_env t w)).
Proof. intros HT HM. split; [done|]. split; [done|]. exists [a]. by rewrite HT. Qed.

Lemma trace_adds pl s t a d w : adds nothing 0 w (trace e pl s t a d w).
Proof.
  unfold trace. destruct (e_Traced e); [|apply adds_refl]. split; [done|]. split; [done|]. eexists.
  split; [done|]. split; [constructor|done].
Qed.

Lemma traces_adds pl s t a d w : adds nothing 0 w (traces e pl s t a d w).
Proof.
  unfold traces. revert w. induction d as [|x d IH]; intros w; [apply adds_refl|]. cbn [foldl].
  eapply adds_after; [apply trace_adds|apply IH].
Qed.

Lemma trace_in_adds ctx pl s t a d w : adds nothing 0 w (trace_in e ctx pl s t a d w).
Proof. unfold trace_in. destruct (ctx_err e ctx w); [apply adds_refl|apply trace_adds]. Qed.

Lemma traces_in_adds ctx pl s t a d w : adds nothing 0 w (traces_in e ctx pl s t a d w).
Proof.
  unfold traces_in. revert w. induction d as [|x d IH]; intros w; [apply adds_refl|]. cbn [foldl].
  eapply adds_after; [apply trace_in_adds|apply IH].
Qed.

Lemma appendToolExecution_adds ctx pl s u m f o w : adds nothing 0 w (appendToolExecution ctx pl s u m f o w).
Proof. apply trace_in_adds. Qed.

Lemma appendCostLimitHit_adds ctx pl id d w : adds nothing 0 w (appendCostLimitHit e ctx pl id d w).
Proof. unfold appendCostLimitHit. destruct (_ =? _)%string; [apply trace_in_adds|apply adds_refl]. Qed.

(** The uses string of a tool step. *)
Definition step_uses (usesOverride stepUses : string) : string :=
  let uses := trim_space usesOverride in if (uses =? "")%string then trim_space stepUses else uses.

(** What a tool step executes: the arguments that passed the limits and the schema of
    the operation, allowed by the policy under the run context of the call. *)
Definition allowed (pl : place) (pol : PolicyEvaluator) (stepID uses : string) (pctx : RunContext) (args : option fields)
    (u : string) (x : fields) : Prop :=
  u = uses ∧ (tool_input pl (qualID pl stepID) u args).2 = Ok x ∧
  CheckToolCall pol (mkToolCallContext pctx stepID u x) = None.

(** How a call that reached the tool ends. *)
Lemma executed_adds (P : string → fields → Prop) w w1 env u x w2 :
  adds nothing 0 w w1 → P u x → adds nothing 0 (log_action (ATool u x) (set_env env w1)) w2 →
  adds P 0 w w2 ∧ ∃ l, w_log w2 = w_log w ++ l ∧ length (tool_calls l) = 1%nat.
Proof.
  intros (E1 & C1 & l1 & H1 & T1 & M1) HP (E2 & C2 & l2 & H2 & T2 & M2). cbn in E2, C2, H2.
  assert (tool_calls l1 = []) as N1 by (destruct (tool_calls l1) as [|c l]; [done|by inversion T1]).
  assert (tool_calls l2 = []) as N2 by (destruct (tool_calls l2) as [|c l]; [done|by inversion T2]).
  assert (w_log w2 = w_log w ++ l1 ++ [ATool u x] ++ l2) as Hl by (by rewrite H2, H1, <-!app_assoc).
  assert (tool_calls (l1 ++ [ATool u x] ++ l2) = [(u, x)]) as Ht by (by rewrite !tool_calls_app, N1, N2).
  split; [|by eexists; rewrite Ht]. split; [congruence|]. split; [congruence|]. eexists. split; [done|].
  rewrite Ht, !model_calls_app. split; [by repeat constructor|cbn; lia].
Qed.

(** A tool step executes one tool, once, and only an allowed call; a step that
    executes none returns an error. *)
Lemma runToolStep_calls pl pol started ctx stepID stepUses pctx uses args w w' meta r :
  runToolStep pl pol started ctx stepID stepUses pctx uses args w = (w', meta, r) →
  adds (allowed pl pol stepID (step_uses uses stepUses) pctx args) 0 w w' ∧
  ∃ l, w_log w' = w_log w ++ l ∧ (tool_calls l = [] ∧ (∃ err, r = Err err) ∨ length (tool_calls l) = 1%nat).
Proof.
  unfold runToolStep. fold (step_uses uses stepUses). set (u := step_uses uses stepUses).
  assert (∀ w1 err, adds nothing 0 w w1 → (w1, no_meta, Err err) = (w', meta, r) →
    adds (allowed pl pol stepID u pctx args) 0 w w' ∧
    ∃ l, w_log w' = w_log w ++ l ∧ (tool_calls l = [] ∧ (∃ err, r = Err err) ∨ length (tool_calls l) = 1%nat)) as Hno.
  { intros w1 err Ha [= <- <- <-]. split; [by eapply adds_weaken; [| |exact Ha]|]. destruct Ha as (_ & _ & l & H & HT & _).
    exists l. split; [done|]. left. split; [destruct (tool_calls l); [done|by inversion HT]|by eexists]. }
  destruct (tool_input pl (qualID pl stepID) u args) as [evs [x|err]] eqn:Hin; cbv zeta.
  2: apply Hno, traces_in_adds.
  destruct (CheckToolCall pol _) as [d|] eqn:Hc.
  { apply Hno. eapply adds_after; [apply traces_in_adds|apply trace_in_adds]. }
  clear Hno. set (w1 := trace_in e ctx pl _ "tool_selection" _ _ _).
  assert (adds nothing 0 w w1) as H1 by (eapply adds_after; [apply traces_in_adds|apply trace_in_adds]). clearbody w1.
  destruct (e_Tools_Call e _ _ u x) as [[[env output] meta0] terr]. set (w2 := log_action _ _).
  assert (allowed pl pol stepID u pctx args u x) as HP by (split; [done|]; by rewrite Hin).
  assert (∀ w3 m rr, adds nothing 0 w2 w3 → (w3, m, rr) = (w', meta, r) →
    adds (allowed pl pol stepID u pctx args) 0 w w' ∧
    ∃ l, w_log w' = w_log w ++ l ∧ (tool_calls l = [] ∧ (∃ err, r = Err err) ∨ length (tool_calls l) = 1%nat)) as Hex.
  { intros w3 m rr Ha [= <- <- <-]. destruct (executed_adds _ _ _ _ _ _ _ H1 HP Ha) as (Hw & l & Hl & Hn).
    split; [done|]. exists l. auto. }
  destruct terr as [terr|]; [apply Hex, appendToolExecution_adds|].
  destruct (tool_output pl _ u output) as [evs2 r2].
  assert (∀ m, adds nothing 0 w2 (traces_in e ctx pl (qualID pl stepID) "limit_hit" "system" evs2
    (appendToolExecution ctx pl (qualID pl stepID) u m false output w2))) as H3.
  { intros m. eapply adds_after; [apply appendToolExecution_adds|apply traces_in_adds]. }
  destruct r2 as [out|err2]; [destruct (CheckStep pol _)|]; apply Hex, H3.
Qed.
End tool.
