(* ===== verification/EngineAgent.v ===== *)
(** * Agent steps of the engine ([internal/engine/steps.go], [agent_tools.go])

    An agent step turns its arguments into the input document of a model and answers
    the tool calls of the model, through [runToolStep], until it gives its output: a
    bounded loop of [Generate] turns.  The lemmas say that every tool it executes is
    one advertised to it and allowed by the policy, and that the loop ends within
    its iteration budget. *)

From S2P Require Import Prelude GoNum GoText Value JsonNum ExecIR ExecEval ExecInterp SpecTools SpecPolicy StepRefs SpecLimits Policy PolicyHitl RuneText AuditChain TraceRedact TraceRecorder EngineLimits McpDispatch StateStore StateRuns Wiring EngineState EngineTool.

Local Open Scope Z_scope.

(** ** Output objects ([steps.go]) *)

(** [balancedObject] on the bytes from an opening brace on: the length of the shortest
    balanced prefix, braces inside strings apart. *)
Fixpoint balanced_go (l : chars) (i depth : nat) (inStr esc : bool) : option nat :=
  match l with
  | [] => None
  | c :: l =>
      if inStr then
        if esc then balanced_go l (S i) depth true false
        else if bool_decide (c = "\"%char) then balanced_go l (S i) depth true true
        else balanced_go l (S i) depth (negb (bool_decide (c = "034"%char))) false
      else if bool_decide (c = "034"%char) then balanced_go l (S i) depth true false
      else if bool_decide (c = "{"%char) then balanced_go l (S i) (S depth) false false
      else if bool_decide (c = "}"%char) then
        if decide (depth = 1%nat) then Some (S i) else balanced_go l (S i) (pred depth) false false
      else balanced_go l (S i) depth false false
  end.
Definition balancedObject (l : chars) : option nat := balanced_go l 0 0 false false.

Section objects.
(** [json.Valid]. *)
Context (valid : string → bool).

(** [topLevelJSONObjects]: [skip] bytes belong to the span found last. *)
Fixpoint objects_go (l : chars) (skip : nat) : list string :=
  match l with
  | [] => []
  | c :: rest =>
      match skip with
      | S skip => objects_go rest skip
      | O =>
          if bool_decide (c = "{"%char) then
            match balancedObject l with
            | Some n =>
                let span := String.string_of_list_ascii (take n l) in
                (if valid span then [span] else []) ++ objects_go rest (pred n)
            | None => objects_go rest 0
            end
          else objects_go rest 0
      end
  end.
Definition topLevelJSONObjects (s : string) : list string := objects_go (String.list_ascii_of_string s) 0.

Definition recoverAgentJSONObject (content : string) : res agent_failure string :=
  let trimmed := trim_space content in
  if (trimmed =? "")%string || valid trimmed then Ok trimmed
  else match topLevelJSONObjects trimmed with
       | [] => Ok trimmed
       | [o] => Ok o
       | objs => Err (AmbiguousResponse (length objs))
       end.
End objects.

Example prose_around : recoverAgentJSONObject (λ s, (s =? "{}")%string) "Perfect: {} " = Ok "{}".
Proof. vm_compute. reflexivity. Qed.
Example decoy : recoverAgentJSONObject (λ s, (s =? "{}")%string) "like {} or {}" = Err (AmbiguousResponse 2).
Proof. vm_compute. reflexivity. Qed.

(** ** Tool calls of a model ([agent_tools.go]) *)

Definition resolveAgentToolCall (name_ : string) (advertised : gmap string string) : res agent_failure string :=
  let name := trim_space name_ in
  if (name =? "")%string then Err MissingToolName
  else match advertised !! name with
       | Some uses => if (uses =? "")%string then Err (NotDeclared name) else Ok uses
       | None => Err (NotDeclared name)
       end.

Definition encodeToolResultContent (out : fields) : string :=
  match json_marshal (VMap out) with Some s => s | None => fmt_v (VMap out) end.

Definition addGenerateMeta (dst src : GenerateMeta) : GenerateMeta :=
  mkGenerateMeta (wrap64 (gm_DurationMs dst + gm_DurationMs src)) (wrap64 (gm_PromptTokens dst + gm_PromptTokens src))
    (wrap64 (gm_CompletionTokens dst + gm_CompletionTokens src)) (f64_add (gm_CostUSD dst) (gm_CostUSD src)).
Definition addToolMeta (dst : GenerateMeta) (src : ToolCallMeta) : GenerateMeta :=
  mkGenerateMeta (wrap64 (gm_DurationMs dst + DurationMs src)) (gm_PromptTokens dst) (gm_CompletionTokens dst)
    (f64_add (gm_CostUSD dst) (CostUSD src)).
Definition zero_meta : GenerateMeta := mkGenerateMeta 0 0 0 zero_cost.

Definition maxRecoverableObservationBytes : nat := 4096.

(** The largest [b <= n] that starts a rune of [l], or [0]. *)
Fixpoint rune_cut (l : chars) (n : nat) : nat :=
  match n with
  | O => O
  | S n' => match l !! n with
            | Some c => if (N.land (N_of_ascii c) 192 =? 128)%N then rune_cut l n' else n
            | None => n
            end
  end.

(** [recoverableToolObservation] of the text the adapter marked safe. *)
Definition recoverableToolObservation (safe : string) : string :=
  let msg := if (safe =? "")%string then "tool call failed" else safe in
  let l := String.list_ascii_of_string msg in
  let msg := if bool_decide (maxRecoverableObservationBytes < length l)%nat
             then String.string_of_list_ascii (take (rune_cut l maxRecoverableObservationBytes) l) +:+ "…" else msg in
  encodeToolResultContent [("error", VStr msg)].

(** The observation of a recoverable error ([toolErrorIsRecoverable]). *)
Definition tool_observation (err : xerror) : option string :=
  match err with
  | XTool t => if te_Denied t || te_Canceled t || te_DeadlineExceeded t then None else te_Recoverable t
  | _ => None
  end.

Fixpoint strip_underscores (l : chars) : chars :=
  match l with c :: l' => if bool_decide (c = "_"%char) then strip_underscores l' else l | [] => [] end.

Definition structuredOutputName (agentName : string) : string :=
  let l := name_rune <$> runes (String.list_ascii_of_string agentName) in
  match rev (strip_underscores (rev (strip_underscores l))) with
  | [] => "output"
  | l => String.string_of_list_ascii (take 64 l)
  end.

Definition maxIterationsFinalizePrompt : string :=
  "You have reached your tool-use iteration budget. Do not call any more tools. Using everything you have gathered so far, provide your final answer now in the required output format.".

(** ** The agent step *)

Section agent.
Context {T : Type} (e : Executor T).

(** [operationInputSchemaJSON] and [advertisedAgentTools]. *)
Definition operationInputSchemaJSON (sref_ : string) : option string :=
  let sref := trim_space sref_ in
  if (sref =? "")%string then None
  else if e_PinnedGraph e then
    content ← e_Schemas e !! sref; if (trim_space content =? "")%string then None else Some content
  else b ← e_SchemaFile e sref; if (b =? "")%string then None else Some b.

Definition defaultAgentToolParameters : string :=
  "{" +:+ (json_quote "type" +:+ (":" +:+ (json_quote "object" +:+ ("," +:+ (json_quote "properties" +:+ ":{}}"))))).

Definition tool_def (item : AdvertisedAgentTool) : ToolDef :=
  let desc := "Project tool " +:+ adv_Name item in
  match ParseUses (adv_Uses item) with
  | None => mkToolDef (adv_Name item) desc defaultAgentToolParameters
  | Some (toolName, operation) =>
      match tools_of (e_Graph e) !! toolName with
      | None => mkToolDef (adv_Name item) desc defaultAgentToolParameters
      | Some ts =>
          let typ := trim_space (tool_Type ts) in
          if (typ =? "")%string then mkToolDef (adv_Name item) desc defaultAgentToolParameters
          else
            let declared := op ← tool_Operations ts !! operation; operationInputSchemaJSON (op_Schema op) in
            let native := if (to_lower typ =? "native")%string then e_NativeSchema e operation else None in
            mkToolDef (adv_Name item) (desc +:+ (" (" +:+ (typ +:+ ")")))
              (default defaultAgentToolParameters (match declared with Some s => Some s | None => native end))
      end
  end.

Definition advertisedAgentTools (ar : AgentSpec) : res agent_failure (list ToolDef * gmap string string) :=
  match ResolveAgentAdvertisedTools (Some ar) (pg_Tools (e_Graph e)) with
  | Err err => Err (AdvertisedTools err)
  | Ok items => Ok (tool_def <$> items, list_to_map ((λ i, (adv_Name i, adv_Uses i)) <$> items))
  end.

Definition parseToolCallArgs (name raw : string) : res agent_failure fields :=
  if (raw =? "")%string then Ok []
  else match e_Unmarshal e raw with
       | Some VNil => Ok []
       | Some (VMap m) => Ok m
       | _ => Err (BadArguments name)
       end.

Definition parseAgentJSONObject (content_ : string) : res agent_failure fields :=
  let content := trim_space content_ in
  if (content =? "")%string then Err EmptyResponse
  else match e_Unmarshal e content with Some (VMap m) => Ok m | _ => Err NotAnObject end.

Definition agentResponseFormat (agent : string) : res agent_failure (option ResponseFormat) :=
  let d := e_Agents e agent in
  if negb (ag_RequireStructuredOutput d) then Ok None
  else
    let sref := trim_space (default "" (ag_Output d)) in
    if (sref =? "")%string then Err NoOutputSchema
    else
      content ← resolveSchemaContent e sref;
      mret match content with
           | Some c => if (c =? "")%string then None else Some (mkResponseFormat (structuredOutputName agent) c)
           | None => None
           end.

(** The step: where it runs, its policy, the start of the run, the context of the call
    and [ctx], which adds the agent's deadlines ([ctx] and [ctx2] in the code), its id,
    its agent and the run context of its call. *)
Context (pl : place) (pol : PolicyEvaluator) (started : Time) (ctx0 ctx : call_ctx).
Context (stepID agent : string) (pctx : RunContext).

Definition checkAgentLoopRun (acc : GenerateMeta) (w : world T) : world T * RunContext * option xerror :=
  let loop := mkRunContext
    (if IsZero started then rc_Elapsed pctx else time_sub (e_Now e (w_env w)) started)
    (f64_add (rc_AccumulatedCostUSD pctx) (gm_CostUSD acc)) (rc_ApprovedActions pctx) in
  match CheckRun pol loop with
  | Some d =>
      let w := trace_in e ctx pl stepID "system_error" "system" (denied_trace d) w in
      (appendCostLimitHit e ctx pl stepID d w, loop, Some (XDenied d))
  | None => (w, loop, None)
  end.

(** One [Generate]. *)
Definition generate (req : GenerateRequest) (w : world T) : world T * (GenerateResponse + model_error) :=
  let '(env, r) := e_Generate e (w_env w) ctx req in (log_action (AModel req) (set_env env w), r).

Definition model_failure (err : model_error) : xerror := XModel (me_Text err) (me_Canceled err).

(** [withAgentRetry]: one retry of a transient failure, unless the context is done. *)
Definition withAgentRetry (req : GenerateRequest) (w : world T) : world T * res xerror GenerateResponse :=
  let '(w, r) := generate req w in
  match r with
  | inl resp => (w, Ok resp)
  | inr err =>
      if negb (me_Transient err) then (w, Err (model_failure err))
      else match ctx_err e ctx w with
           | Some canceled => (w, Err (XContext canceled))
           | None =>
               let '(w, r) := generate req w in
               (w, match r with inl resp => Ok resp | inr err => Err (model_failure err) end)
           end
  end.

Definition generateAgentTurn (req : GenerateRequest) (w : world T) : world T * res xerror GenerateResponse :=
  let '(w, r) := withAgentRetry req w in
  match r with
  | Err err => (w, Err err)
  | Ok resp =>
      let data := LLMCompletionData agent (trim_space (ag_Model (e_Agents e agent))) (gm_CostUSD (rp_Meta resp)) in
      let data := if e_TraceDetail e then AddCompletionText data (rp_Content resp) else data in
      (trace_in e ctx0 pl stepID "llm_completion" "agent" data w, Ok resp)
  end.

Definition agent_result : Type := world T * GenerateMeta * res xerror fields.

Definition completeAgentOutput (content : string) (meta : GenerateMeta) (w : world T) : agent_result :=
  (w, meta,
   match recoverAgentJSONObject (e_JSONValid e) content with
   | Err f => Err (XAgent f)
   | Ok content =>
       match validateAgentOutputSchema e agent content with
       | Some err => Err err
       | None =>
           match parseAgentJSONObject content with
           | Err f => Err (XAgent f)
           | Ok out => match CheckStep pol (mkStepContext stepID true) with Some d => Err (XDenied d) | None => Ok out end
           end
       end
   end).

(** [runAgentToolCall]: the content of the tool result and its error mark, or the fatal
    error. *)
Definition runAgentToolCall (advertised : gmap string string) (lctx : RunContext) (acc : GenerateMeta) (call : ToolCall)
    (w : world T) : world T * ToolCallMeta * res xerror (string * bool) :=
  match resolveAgentToolCall (tl_Name call) advertised with
  | Err f => (w, no_meta, Err (XAgent f))
  | Ok uses =>
      match parseToolCallArgs (tl_Name call) (tl_Arguments call) with
      | Err f => (w, no_meta, Err (XAgent f))
      | Ok args =>
          let '(w, _, breach) := checkAgentLoopRun acc w in
          match breach with
          | Some err => (w, no_meta, Err err)
          | None =>
              let '(w, tmeta, r) := runToolStep e pl pol started ctx stepID "" lctx uses (Some args) w in
              match r with
              | Ok out => (w, tmeta, Ok (encodeToolResultContent out, false))
              | Err err =>
                  match tool_observation err with
                  | Some safe => (w, tmeta, Ok (recoverableToolObservation safe, true))
                  | None => (w, tmeta, Err err)
                  end
              end
          end
      end
  end.

(** The calls of one turn, in order. *)
Fixpoint agent_calls (advertised : gmap string string) (calls : list ToolCall) (lctx : RunContext) (acc : GenerateMeta)
    (results : list ToolResult) (w : world T) : world T * GenerateMeta * res xerror (list ToolResult) :=
  match calls with
  | [] => (w, acc, Ok results)
  | call :: calls =>
      let '(w, tmeta, r) := runAgentToolCall advertised lctx acc call w in
      match r with
      | Err err => (w, acc, Err err)
      | Ok (content, isErr) =>
          let acc := addToolMeta acc tmeta in
          let '(w, lctx, breach) := checkAgentLoopRun acc w in
          match breach with
          | Some err => (w, acc, Err err)
          | None => agent_calls advertised calls lctx acc (results ++ [mkToolResult (tl_ID call) content isErr]) w
          end
      end
  end.

(** What every turn of the step asks for. *)
Context (modelID : string) (maxTokens : Z) (temperature : option f64) (respFormat : option ResponseFormat).

Definition request (messages : list ChatMessage) (tools : list ToolDef) (choice : string) : GenerateRequest :=
  mkRequest modelID messages tools choice maxTokens temperature respFormat.

(** A completion whose content is the output: of an agent without tools, and of one
    told to stop. *)
Definition answer (messages : list ChatMessage) (acc : GenerateMeta) (carry : bool) (w : world T) : agent_result :=
  let '(w, r) := generateAgentTurn (request messages [] "") w in
  match r with
  | Err err => (w, acc, Err err)
  | Ok resp =>
      let acc := if carry then addGenerateMeta acc (rp_Meta resp) else rp_Meta resp in
      let '(w, _, breach) := checkAgentLoopRun acc w in
      match breach with
      | Some err => (w, acc, Err err)
      | None =>
          if (rp_StopReason resp =? StopReasonMaxTokens)%string then (w, acc, Err (XAgent (MaxTokensStop maxTokens)))
          else completeAgentOutput (rp_Content resp) acc w
      end
  end.

Definition finishAgentTurn (messages : list ChatMessage) (w : world T) : agent_result := answer messages zero_meta false w.

Definition user_message (content : string) : ChatMessage := mkMessage "user" content [] [].

Definition finalizeAgentAtCap (messages : list ChatMessage) (acc : GenerateMeta) (w : world T) : agent_result :=
  answer (messages ++ [user_message maxIterationsFinalizePrompt]) acc true w.

Definition max_iterations_data (max : Z) (stop : string) (calls : list ToolCall) : list (string * payload) :=
  [("agent", PStr agent); ("iterations", PInt max); ("kind", PStr "max_iterations"); ("max", PInt max);
   ("stepId", PStr stepID); ("stopReason", PStr stop);
   ("toolCallIds", PList (PStr <$> List.filter (λ s, negb (s =? "")%string) (trim_space ∘ tl_ID <$> calls)))].

(** [runAgentToolLoop], with [rem] turns left of [max]. *)
Fixpoint agent_turns (toolDefs : list ToolDef) (advertised : gmap string string) (max : Z) (rem : nat)
    (messages : list ChatMessage) (acc : GenerateMeta) (w : world T) : agent_result :=
  match rem with
  | O => (w, acc, Err (XAgent (IterationsExhausted max)))
  | S rem =>
      let '(w, _, breach) := checkAgentLoopRun acc w in
      match breach with
      | Some err => (w, acc, Err err)
      | None =>
          let '(w, r) := generateAgentTurn (request messages toolDefs ToolChoiceAuto) w in
          match r with
          | Err err => (w, acc, Err err)
          | Ok resp =>
              let acc := addGenerateMeta acc (rp_Meta resp) in
              let '(w, lctx, breach) := checkAgentLoopRun acc w in
              match breach with
              | Some err => (w, acc, Err err)
              | None =>
                  let calls := rp_ToolCalls resp in
                  let stop := if (rp_StopReason resp =? "")%string && nonempty calls then StopReasonToolUse else rp_StopReason resp in
                  if (stop =? StopReasonEndTurn)%string || (stop =? "")%string then completeAgentOutput (rp_Content resp) acc w
                  else if (stop =? StopReasonMaxTokens)%string then (w, acc, Err (XAgent (MaxTokensStop maxTokens)))
                  else if negb (stop =? StopReasonToolUse)%string then (w, acc, Err (XAgent (OtherStop stop)))
                  else if negb (nonempty calls) then (w, acc, Err (XAgent NoToolCalls))
                  else match rem with
                       | O =>
                           let w := trace_in e ctx0 pl stepID "limit_hit" "system" (max_iterations_data max stop calls) w in
                           finalizeAgentAtCap messages acc w
                       | S _ =>
                           let '(w, acc, r) := agent_calls advertised calls lctx acc [] w in
                           match r with
                           | Err err => (w, acc, Err err)
                           | Ok results =>
                               agent_turns toolDefs advertised max rem
                                 (messages ++ [mkMessage "assistant" (rp_Content resp) calls []; mkMessage "user" "" [] results]) acc w
                           end
                       end
              end
          end
      end
  end.

Definition agentMaxIterations : Z :=
  ResolveMaxIterations (ag_Constraints (e_Agents e agent))
    (match EvalPolicySpec pol with Some ps => PolicyMaxIterations (pol_Execution ps) | None => 0 end).
Definition runAgentToolLoop (toolDefs : list ToolDef) (advertised : gmap string string) (messages : list ChatMessage)
    (w : world T) : agent_result :=
  agent_turns toolDefs advertised agentMaxIterations (Z.to_nat agentMaxIterations) messages zero_meta w.
End agent.

(** [runAgentStep]: the agent [ar] called with the arguments [args]. *)
Definition runAgentStep {T} (e : Executor T) (pl : place) (pol : PolicyEvaluator) (started : Time) (ctx : call_ctx)
    (stepID : string) (wholeDocument : bool) (args : scope) (pctx : RunContext) (ar : AgentSpec) (w : world T) : agent_result (T := T) :=
  let agent := agent_Name ar in
  let d := e_Agents e agent in
  match e_Client e (trim_space (ag_Model d)) with
  | None => (w, zero_meta, Err (XAgent (NoModel (trim_space (ag_Model d)))))
  | Some modelID =>
      let ctx2 := wallClockDeadline e pol started w (withSecondsTimeout e (ag_TimeoutSeconds d) w ctx) in
      match agentInputDocument wholeDocument args with
      | None => (w, zero_meta, Err (XAgent NoArgument))
      | Some input =>
          match json_marshal input with
          | None => (w, zero_meta, Err (XAgent NoPayload))
          | Some payload =>
              let messages := [mkMessage "system" (trim_space (ag_Instructions d)) [] []; user_message payload] in
              match advertisedAgentTools e ar with
              | Err f => (w, zero_meta, Err (XAgent f))
              | Ok (toolDefs, usesByName) =>
                  let maxTokens := ResolveMaxTokens (ag_Constraints d) in
                  match agentResponseFormat e agent with
                  | Err f => (w, zero_meta, Err (XAgent f))
                  | Ok respFormat =>
                      match toolDefs with
                      | [] => finishAgentTurn e pl pol started ctx ctx2 stepID agent pctx modelID maxTokens (ag_Temperature d) respFormat messages w
                      | _ => runAgentToolLoop e pl pol started ctx ctx2 stepID agent pctx modelID maxTokens (ag_Temperature d) respFormat
                               toolDefs usesByName messages w
                      end
                  end
              end
          end
      end
  end.

(** ** What an agent step does *)

(** A call of the agent: of a tool advertised to it, allowed by the policy with the
    approvals the step has. *)
Definition agent_call (advertised : gmap string string) (pol : PolicyEvaluator) (stepID : string) (pctx : RunContext)
    (u : string) (x : fields) : Prop :=
  (∃ name uses, advertised !! name = Some uses ∧ u = trim_space uses) ∧
  ∃ rc, rc_ApprovedActions rc = rc_ApprovedActions pctx ∧ CheckToolCall pol (mkToolCallContext rc stepID u x) = None.

Section effects.
Context {T : Type} (e : Executor T) (pl : place) (pol : PolicyEvaluator) (started : Time) (ctx0 ctx : call_ctx).
Context (stepID agent : string) (pctx : RunContext).
Context (modelID : string) (maxTokens : Z) (temperature : option f64) (respFormat : option ResponseFormat).
Context (advertised : gmap string string).
Abbreviation granted := (agent_call advertised pol stepID pctx).

Lemma checkAgentLoopRun_adds acc w w' rc b :
  checkAgentLoopRun e pl pol started ctx stepID pctx acc w = (w', rc, b) →
  adds nothing 0 w w' ∧ rc_ApprovedActions rc = rc_ApprovedActions pctx.
Proof.
  unfold checkAgentLoopRun. destruct (CheckRun pol _) as [d|]; intros [= <- <- <-]; (split; [|done]); [|apply adds_refl].
  eapply adds_after; [apply trace_in_adds|apply appendCostLimitHit_adds].
Qed.

Lemma generate_adds req w w' r : generate e ctx req w = (w', r) → adds nothing 1 w w'.
Proof. unfold generate. destruct (e_Generate e _ ctx req) as [env rr]. intros [= <- _]. by apply log_action_adds. Qed.

Lemma generateAgentTurn_adds req w w' r :
  generateAgentTurn e pl ctx0 ctx stepID agent req w = (w', r) → adds nothing 2 w w'.
Proof.
  unfold generateAgentTurn. destruct (withAgentRetry e ctx req w) as [w1 r1] eqn:Hr. intros H.
  assert (adds nothing 2 w w1) as H1.
  { unfold withAgentRetry in Hr. destruct (generate e ctx req w) as [w2 r2] eqn:H2. apply generate_adds in H2.
    assert (adds nothing 2 w w2) as H2' by (by eapply adds_weaken; [| |exact H2]; [|lia]).
    destruct r2 as [resp|err]; [by simplify_eq|]. destruct (negb _); [by simplify_eq|].
    destruct (ctx_err e _ _); [by simplify_eq|].
    destruct (generate e ctx req w2) as [w3 r3] eqn:H3. apply generate_adds in H3. simplify_eq.
    by apply (adds_trans nothing 1 1 w w2). }
  destruct r1; simplify_eq; [|done]. eapply adds_after; [done|apply trace_in_adds].
Qed.

Lemma answer_adds messages acc carry w w' m r :
  answer e pl pol started ctx0 ctx stepID agent pctx modelID maxTokens temperature respFormat messages acc carry w = (w', m, r) →
  adds nothing 2 w w'.
Proof.
  unfold answer. destruct (generateAgentTurn _ _ _ _ _ _ _ w) as [w1 r1] eqn:H1. apply generateAgentTurn_adds in H1.
  destruct r1 as [resp|]; [|by intros; simplify_eq].
  destruct (checkAgentLoopRun _ _ _ _ _ _ _ _ w1) as [[w2 rc] b] eqn:H2. apply checkAgentLoopRun_adds in H2 as [H2 _].
  unfold completeAgentOutput. intros H. assert (w' = w2) as -> by (repeat case_match; simplify_eq; done).
  by eapply adds_after.
Qed.

Lemma runAgentToolCall_adds lctx acc call w w' tm r :
  rc_ApprovedActions lctx = rc_ApprovedActions pctx →
  runAgentToolCall e pl pol started ctx stepID pctx advertised lctx acc call w = (w', tm, r) → adds granted 0 w w'.
Proof.
  intros Hrc. unfold runAgentToolCall. destruct (resolveAgentToolCall _ _) as [uses|] eqn:Hu; [|intros; simplify_eq; apply adds_refl].
  destruct (parseToolCallArgs e _ _) as [args|]; [|intros; simplify_eq; apply adds_refl].
  destruct (checkAgentLoopRun _ _ _ _ _ _ _ _ w) as [[w1 rc] b] eqn:H1. apply checkAgentLoopRun_adds in H1 as [H1 _].
  destruct b; [intros; simplify_eq; by eapply adds_weaken; [| |exact H1]|].
  destruct (runToolStep _ _ _ _ _ _ _ _ _ _ w1) as [[w2 tm'] r'] eqn:H2. apply runToolStep_calls in H2 as [H2 _].
  intros H. assert (w' = w2) as -> by (repeat case_match; simplify_eq; done). clear H.
  eapply adds_before; [exact H1|]. eapply adds_weaken; [|done|exact H2]. intros u x (-> & _ & Hc).
  assert (step_uses uses "" = trim_space uses) as Hs.
  { unfold step_uses. cbv zeta. destruct (String.eqb_spec (trim_space uses) "") as [->|]; done. }
  rewrite Hs in *. split; [|by eexists].
  unfold resolveAgentToolCall in Hu. exists (trim_space (tl_Name call)), uses. split; [|done].
  destruct (_ =? _)%string; [done|]. destruct (advertised !! _); [|done]. destruct (_ =? _)%string; congruence.
Qed.

Lemma agent_calls_adds calls : ∀ lctx acc results w w' m r,
  rc_ApprovedActions lctx = rc_ApprovedActions pctx →
  agent_calls e pl pol started ctx stepID pctx advertised calls lctx acc results w = (w', m, r) → adds granted 0 w w'.
Proof.
  induction calls as [|call calls IH]; intros lctx acc results w w' m r Hrc; cbn [agent_calls].
  { intros; simplify_eq; apply adds_refl. }
  destruct (runAgentToolCall _ _ _ _ _ _ _ _ _ _ _ w) as [[w1 tm] r1] eqn:H1. apply runAgentToolCall_adds in H1; [|done].
  destruct r1 as [[content isErr]|]; [|by intros; simplify_eq].
  destruct (checkAgentLoopRun _ _ _ _ _ _ _ _ w1) as [[w2 rc] b] eqn:H2. apply checkAgentLoopRun_adds in H2 as [H2 Hrc2].
  pose proof (adds_after _ _ _ _ _ H1 H2) as H12.
  destruct b; [by intros; simplify_eq|]. intros H3%IH; [|done]. by apply (adds_trans granted 0 0 w w2).
Qed.

(** A loop with [rem] turns left makes at most [2 * rem + 2] model calls. *)
Lemma agent_turns_adds toolDefs max rem : ∀ messages acc w w' m r,
  agent_turns e pl pol started ctx0 ctx stepID agent pctx modelID maxTokens temperature respFormat toolDefs advertised max rem
    messages acc w = (w', m, r) → adds granted (2 * rem + 2) w w'.
Proof.
  induction rem as [|rem IH]; intros messages acc w w' m r; cbn [agent_turns].
  { intros; simplify_eq; apply adds_refl. }
  destruct (checkAgentLoopRun _ _ _ _ _ _ _ _ w) as [[w1 rc1] b1] eqn:H1. apply checkAgentLoopRun_adds in H1 as [H1 _].
  assert (∀ P n w', adds P n w1 w' → adds P n w w') as Hb by (intros; by eapply adds_before).
  destruct b1; [intros; simplify_eq; apply Hb, adds_refl|].
  destruct (generateAgentTurn _ _ _ _ _ _ _ w1) as [w2 r2] eqn:H2. apply generateAgentTurn_adds in H2.
  assert (∀ n w', adds granted n w2 w' → adds granted (2 + n) w w') as Hg.
  { intros n w3 H. apply Hb. eapply adds_trans; [|exact H]. by eapply adds_weaken; [| |exact H2]. }
  destruct r2 as [resp|]; [|intros; simplify_eq; eapply adds_weaken; [| |apply Hg, (adds_refl _ 0)]; [done|lia]].
  destruct (checkAgentLoopRun _ _ _ _ _ _ _ _ w2) as [[w3 rc3] b3] eqn:H3. apply checkAgentLoopRun_adds in H3 as [H3 Hrc3].
  assert (∀ n w', adds granted n w3 w' → adds granted (2 + n) w w') as Hg3 by (intros; by eapply Hg, adds_before).
  assert (∀ (x : agent_result), x.1.1 = w3 → x = (w', m, r) → adds granted (2 * S rem + 2) w w') as Hdone.
  { intros x <- ->. eapply adds_weaken; [| |apply Hg3, (adds_refl _ 0)]; [done|lia]. }
  destruct b3; [by apply Hdone|].
  destruct (_ || _); [by apply Hdone|]. destruct (_ =? _)%string; [by apply Hdone|].
  destruct (negb _); [by apply Hdone|]. destruct (negb _); [by apply Hdone|].
  destruct rem as [|rem].
  - intros H4%answer_adds. apply (Hg3 2%nat).
    eapply adds_before; [apply trace_in_adds|]. by eapply adds_weaken; [| |exact H4].
  - destruct (agent_calls _ _ _ _ _ _ _ _ _ _ _ _ w3) as [[w4 m4] r4] eqn:H4. apply agent_calls_adds in H4; [|done].
    destruct r4; [|intros; simplify_eq; eapply adds_weaken; [| |apply Hg3, H4]; [done|lia]].
    intros H5%IH. replace (2 * S (S rem) + 2)%nat with (2 + (0 + (2 * S rem + 2)))%nat by lia.
    by apply Hg3, (adds_trans _ _ _ _ _ _ H4 H5).
Qed.
End effects.

Lemma agentMaxIterations_pos {T} (e : Executor T) pol agent : 1 <= agentMaxIterations e pol agent.
Proof.
  unfold agentMaxIterations, ResolveMaxIterations, EffectiveMaxIterationsCeiling, HardAgentMaxIterations, DefaultAgentMaxIterations.
  repeat case_match; lia.
Qed.

(** The tools advertised to an agent. *)
Definition advertised_to {T} (e : Executor T) (ar : AgentSpec) : gmap string string :=
  match advertisedAgentTools e ar with Ok (_, m) => m | Err _ => ∅ end.

Lemma runAgentStep_adds {T} (e : Executor T) pl pol started ctx stepID wd args pctx ar w w' m r :
  runAgentStep e pl pol started ctx stepID wd args pctx ar w = (w', m, r) →
  adds (agent_call (advertised_to e ar) pol stepID pctx) (2 * Z.to_nat (agentMaxIterations e pol (agent_Name ar)) + 2) w w'.
Proof.
  unfold runAgentStep, advertised_to. intros H.
  destruct (e_Client e _) as [modelID|]; [|simplify_eq; apply adds_refl].
  destruct (agentInputDocument _ _) as [input|]; [|simplify_eq; apply adds_refl].
  destruct (json_marshal input) as [payload|]; [|simplify_eq; apply adds_refl].
  destruct (advertisedAgentTools e ar) as [[toolDefs usesByName]|]; [|simplify_eq; apply adds_refl].
  destruct (agentResponseFormat e _) as [respFormat|]; [|simplify_eq; apply adds_refl].
  destruct toolDefs as [|td toolDefs].
  - apply answer_adds in H. eapply adds_weaken; [| |exact H]; [done|lia].
  - by apply agent_turns_adds in H.
Qed.

(** C7: An agent step is bounded and confined: it makes at most two model requests (one
    retried) for each of its iterations and for the closing answer, the iterations
    being no more than the ceiling of the policy; and every tool it executes is one
    advertised to the agent and allowed by the policy under the approvals the step was
    given. *)
Theorem runAgentStep_bounded {T} (e : Executor T) pl pol started ctx stepID wd args pctx ar w :
  let max := agentMaxIterations e pol (agent_Name ar) in
  let w' := (runAgentStep e pl pol started ctx stepID wd args pctx ar w).1.1 in
  1 <= max <= EffectiveMaxIterationsCeiling (default 0 (PolicyMaxIterations ∘ pol_Execution <$> EvalPolicySpec pol)) ∧
  ∃ l, w_log w' = w_log w ++ l ∧ Z.of_nat (model_calls l) <= 2 * max + 2 ∧
    ∀ uses x, (uses, x) ∈ tool_calls l →
      (∃ name u, advertised_to e ar !! name = Some u ∧ uses = trim_space u) ∧
      ∃ rc, rc_ApprovedActions rc = rc_ApprovedActions pctx ∧ CheckToolCall pol (mkToolCallContext rc stepID uses x) = None.
Proof.
  intros max w'. pose proof (agentMaxIterations_pos e pol (agent_Name ar)) as Hpos. split.
  - split; [done|]. subst max. unfold agentMaxIterations, ResolveMaxIterations.
    destruct (EvalPolicySpec pol); cbn; repeat case_match; lia.
  - subst w'. destruct (runAgentStep e pl pol started ctx stepID wd args pctx ar w) as [[w1 m] r] eqn:H.
    apply runAgentStep_adds in H as (_ & _ & l & Hl & HT & Hm). exists l. split; [done|]. split; [subst max; lia|].
    rewrite Forall_forall in HT. intros uses x Hx. apply (HT _ Hx).
Qed.
