(* ===== verification/EngineHitl.v ===== *)
(** * Human decisions in a run ([internal/engine/hitl.go], [approval.go])

    The gate of an approval step, the events of a request and of a recorded
    auto-approval, and [resolvePendingHitl]: the operator's decision applied to the
    gate a resumed run waits at. *)

From S2P Require Import Prelude GoNum GoText Value JsonNum ExecIR ExecEval ExecInterp SpecTools SpecPolicy StepRefs SpecLimits Policy PolicyHitl RuneText AuditChain TraceRedact TraceRecorder EngineLimits McpDispatch StateStore StateRuns EngineState EngineTool.

Local Open Scope Z_scope.

Definition DefaultHitlActor : string := "operator".
Definition ApprovalStepUses : string := "workflow.approval".

(** [approvalHitlGate]: the reviewer may edit any argument, if there is one. *)
Definition approvalHitlGate (step : WorkflowStep) (with_ : fields) : HitlGate :=
  let edits := nonempty with_ in
  let names := sort_strings (List.filter (λ k, negb (k =? "")%string) (trim_space <$> with_.*1)) in
  let redact := match step_Approval step with
    | Some a => match wav_Config a with Some c => wac_RedactKeys c | None => [] end
    | None => [] end in
  mkHitlGate ApprovalStepUses with_
    (mkReview (ApprovalStepDescription step)
       ([HitlDecisionApprove; HitlDecisionReject] ++ (if edits then [HitlDecisionEdit] else []))
       (if edits then names else []) [] [] [] [] redact).

(** [approvalStepFromInfo]. *)
Definition approvalStepFromInfo (bind : string) (info : ApprovalInfo) : WorkflowStep :=
  mkStep bind "" "" "" (Some (mkApprovalValue true (Some (mkApprovalConfig (Description info) (RedactKeys info)))))
    [] [] false false false.

Section hitl.
Context {T : Type} (e : Executor T) (ctx : call_ctx) (pl : place) (in_ : RunInput).

Definition strings (l : list string) : payload := PList (PStr <$> l).

(** The event data of a request, [extra] being the fields of an auto-approval. *)
Definition request_data (gate : HitlGate) (auto : bool) : list (string * payload) :=
  let review := hg_Review gate in
  [("allowedDecisions", strings (rv_AllowedDecisions review)); ("allowedSwitchTo", strings (rv_SwitchTargets review))] ++
  (if auto then [("auto", PBool true)] else []) ++
  [("description", PStr (rv_Description review))] ++
  (if auto then [("stepIndex", PInt 0)] else []) ++
  [("uses", PStr (hg_Uses gate)); ("with", PMap ((λ kv, (kv.1, of_value kv.2)) <$> RedactHitlArgs (hg_With gate) (rv_RedactKeys review)))].

(** [emitHitlRequest]. *)
Definition emitHitlRequest (stepID : string) (gate : HitlGate) (w : world T) : world T :=
  trace_in e ctx pl stepID "hitl_request_created" "system" (request_data gate false) w.

Definition hitl_actor : string :=
  let actor := trim_space (ho_Actor (in_Hitl in_)) in if (actor =? "")%string then DefaultHitlActor else actor.

Definition recordAutoApproveHitl (stepID : string) (gate : HitlGate) (w : world T) : world T :=
  let actor := if (trim_space (ho_Actor (in_Hitl in_)) =? "")%string then DefaultHitlActor else ho_Actor (in_Hitl in_) in
  let data := [("actor", PStr actor); ("auto", PBool true); ("decision", PStr HitlDecisionApprove);
               ("resolvedUses", PStr (hg_Uses gate)); ("uses", PStr (hg_Uses gate))] in
  let w := trace_in e ctx pl stepID "hitl_request_created" "system" (request_data gate true) w in
  let w := trace_in e ctx pl stepID "hitl_decision_submitted" "agent" data w in
  trace_in e ctx pl stepID "hitl_resolution_applied" "system" data w.

(** The decision a resume applies. *)
Definition resume_decision : option HitlDecisionInput :=
  if ho_AutoApprove (in_Hitl in_) then Some (mkHitlInput HitlDecisionApprove hitl_actor None "")
  else match ho_Decision (in_Hitl in_) with
       | Some d => Some (if (trim_space (hi_Actor d) =? "")%string
                         then mkHitlInput (hi_Kind d) hitl_actor (hi_EditedWith d) (hi_SwitchTarget d) else d)
       | None => None
       end.

Definition resolution_data (pending : PendingHitlState) (d : HitlDecisionInput) (uses : string) (with_ : fields) : list (string * payload) :=
  let diff := (λ kv, (kv.1, of_value kv.2)) <$> HitlArgsDiff (ph_With pending) with_ in
  [("actor", PStr (hi_Actor d))] ++
  (if (hi_Kind d =? HitlDecisionEdit)%string
   then [("argsDiff", PMap (RedactArgsDiff diff (rv_RedactKeys (ph_Review pending)) (e_Redaction e)))] else []) ++
  [("decision", PStr (hi_Kind d)); ("resolvedUses", PStr uses)] ++
  (if (hi_Kind d =? HitlDecisionSwitch)%string then [("switchTarget", PStr (hi_SwitchTarget d))] else []) ++
  [("uses", PStr (ph_Uses pending))].

(** [resolvePendingHitl]: the call the decision released. *)
Definition resolvePendingHitl (stepID : string) (pol : PolicyEvaluator) (pctx : RunContext) (pending : PendingHitlState) (w : world T)
    : world T * res xerror (string * fields) :=
  match resume_decision with
  | None => (w, Err XAwaitingDecision)
  | Some d =>
      match ApplyHitlDecision (pending_gate pending) d with
      | Err err =>
          if (hi_Kind d =? HitlDecisionReject)%string then
            (trace_in e ctx pl stepID "hitl_decision_submitted" "user"
               [("actor", PStr (hi_Actor d)); ("decision", PStr HitlDecisionReject); ("uses", PStr (ph_Uses pending))] w,
             Err (XHitlRejected (hi_Actor d) (ph_Uses pending)))
          else (w, Err (XHitl err))
      | Ok (uses, with_) =>
          let data := resolution_data pending d uses with_ in
          let w := trace_in e ctx pl stepID "hitl_decision_submitted" "user" data w in
          let w := trace_in e ctx pl stepID "hitl_resolution_applied" "system" data w in
          if (ph_Kind pending =? PendingHitlKindApproval)%string || (ph_Uses pending =? ApprovalStepUses)%string then (w, Ok (uses, with_))
          else
            let pctx2 := mkRunContext (rc_Elapsed pctx) (rc_AccumulatedCostUSD pctx) (rc_ApprovedActions pctx ++ [uses]) in
            match CheckToolCall pol (mkToolCallContext pctx2 stepID uses with_) with
            | Some denied => (w, Err (XDenied denied))
            | None => (w, Ok (uses, with_))
            end
      end
  end.

(** A resolution runs no tool, and what it releases is what the decision released. *)
Lemma resolvePendingHitl_adds stepID pol pctx pending w w' r :
  resolvePendingHitl stepID pol pctx pending w = (w', r) →
  adds nothing 0 w w' ∧
  ∀ uses x, r = Ok (uses, x) → ∃ d, resume_decision = Some d ∧ ApplyHitlDecision (pending_gate pending) d = Ok (uses, x).
Proof.
  unfold resolvePendingHitl. destruct resume_decision as [d|]; [|intros [= <- <-]; split; [apply adds_refl|done]].
  destruct (ApplyHitlDecision _ d) as [[uses x]|err] eqn:Ha.
  - assert (∀ data, adds nothing 0 w (trace_in e ctx pl stepID "hitl_resolution_applied" "system" data
      (trace_in e ctx pl stepID "hitl_decision_submitted" "user" data w))) as Ht.
    { intros data. eapply adds_after; apply trace_in_adds. }
    destruct (_ || _); [|destruct (CheckToolCall pol _)]; intros [= <- <-]; (split; [apply Ht|]); try done;
      intros ? ? [= <- <-]; by exists d.
  - destruct (_ =? _)%string; intros [= <- <-]; (split; [|done]); [apply trace_in_adds|apply adds_refl].
Qed.

Lemma recordAutoApproveHitl_adds stepID gate w : adds nothing 0 w (recordAutoApproveHitl stepID gate w).
Proof. unfold recordAutoApproveHitl. do 2 (eapply adds_after; [|apply trace_in_adds]). apply trace_in_adds. Qed.
End hitl.
