(* ===== verification/EngineInvoker.v ===== *)
(** * The engine behind the interpreter ([internal/engine/execir_invoker.go])

    The [Invoker] a run of the engine gives to the interpreter: its state (the world,
    the step results, the one cause a cycle suspends for and the one a resume
    resolves), the envelope around every leaf, and the subworkflow call, which is a
    run of the interpreter of its own. *)

From S2P Require Import Prelude GoNum GoText Value JsonNum ExecIR ExecEval ExecInterp ExecTotal SpecTools SpecPolicy StepRefs SpecLimits LowerYaml Policy PolicyStricter PolicyHitl RuneText AuditChain TraceRedact TraceRecorder EngineLimits McpDispatch StateStore StateRuns Wiring EngineState EngineCheckpoint EngineTool EngineAgent EngineHitl.

Local Open Scope Z_scope.

(** ** State *)

(** [engineInvoker]: the world and the fields the mutex guards. *)
Record istate (T : Type) := mkIstate {
  i_world : world T;
  i_ictx : Context_;
  i_pending : option PendingHitlState; i_pendingSeed : option PendingHitlState;
  i_nested : option nestedSuspension; i_nestedSeed : option NestedRunState;
}.
Arguments mkIstate {T}.
Arguments i_world {T}.
Arguments i_ictx {T}.
Arguments i_pending {T}.
Arguments i_pendingSeed {T}.
Arguments i_nested {T}.
Arguments i_nestedSeed {T}.

Definition set_world {T} (w : world T) (s : istate T) : istate T :=
  mkIstate w (i_ictx s) (i_pending s) (i_pendingSeed s) (i_nested s) (i_nestedSeed s).
Definition on_world {T} (f : world T → world T) (s : istate T) : istate T := set_world (f (i_world s)) s.

(** [a.ictx.Steps[id] = r]. *)
Definition put_result {T} (id : string) (r : StepResult) (s : istate T) : istate T :=
  let c := i_ictx s in
  mkIstate (i_world s) (mkContext (cx_Input c) (<[id := r]> (cx_Steps c)) (cx_PendingHitl c) (cx_Nested c))
    (i_pending s) (i_pendingSeed s) (i_nested s) (i_nestedSeed s).

(** [newEngineInvoker] on an input document. *)
Definition newEngineInvoker {T} (input : value) (w : world T) : istate T :=
  mkIstate w (mkContext input ∅ None None) None None None None.

Section slots.
Context {T : Type}.

Definition claimPending (key : string) (s : istate T) : istate T * option PendingHitlState :=
  match i_pendingSeed s with
  | Some p => if (ph_ExecKey p =? key)%string
              then (mkIstate (i_world s) (i_ictx s) (i_pending s) None (i_nested s) (i_nestedSeed s), Some p)
              else (s, None)
  | None => (s, None)
  end.

Definition claimNestedSeed (key : string) (s : istate T) : istate T * option NestedRunState :=
  match i_nestedSeed s with
  | Some n => if (nr_ExecKey n =? key)%string
              then (mkIstate (i_world s) (i_ictx s) (i_pending s) (i_pendingSeed s) (i_nested s) None, Some n)
              else (s, None)
  | None => (s, None)
  end.

Definition setPendingIfFirst (p : PendingHitlState) (s : istate T) : istate T * bool :=
  match i_nested s, i_pending s with
  | None, None => (mkIstate (i_world s) (i_ictx s) (Some p) (i_pendingSeed s) None (i_nestedSeed s), true)
  | _, _ => (s, false)
  end.

Definition setNestedIfFirst (n : nestedSuspension) (s : istate T) : istate T * bool :=
  match i_nested s with
  | None => (mkIstate (i_world s) (i_ictx s) None (i_pendingSeed s) (Some n) (i_nestedSeed s), true)
  | Some _ => (s, false)
  end.
End slots.

(** ** Documents *)

(** The arguments of a call as a Go map: [evalArgs] gives the nil map for none. *)
Definition args_map (a : scope) : option fields := if decide (a = ∅) then None else Some (map_of_list (map_to_list a)).

Definition canonical_fields (m : fields) : res jerr fields :=
  match CanonicalMap (Some m) with Ok c => Ok (default [] c) | Err err => Err err end.
Definition canonicalNumber (f : f64) : value := match Canonical (VFloat f) with Ok v => v | Err _ => VFloat f end.

(** The document of a call without arguments is the nil map, which is [null]. *)
Definition workflowInputDocument (site : CallSite) (args : option fields) : res xerror value :=
  if negb (site_wholeDocument site) then Ok (match args with Some m => VMap m | None => VNil end)
  else match default [] args with [(_, v)] => Ok v | l => Err (XWholeDocument (length l)) end.

Definition wholeDocumentParam (site : CallSite) (args : fields) : string :=
  if negb (site_wholeDocument site) then "" else match args with [(k, _)] => k | _ => "" end.

(** [displayRedactionOptions] and [redactWholeDocumentJSON]. *)
Definition displayRedactionOptions {T} (e : Executor T) : RedactionOptions :=
  if e_Traced e then e_Redaction e else normalized DefaultRedactionOptions.

Definition redactWholeDocumentJSON {T} (e : Executor T) (args : fields) : string :=
  let prepared := PrepareEventData ((λ kv, (kv.1, of_value kv.2)) <$> args) [] (displayRedactionOptions e) in
  let one := match args, prepared with
    | [(k, _)], [_] => map_get prepared k
    | _, _ => None
    end in
  default "" (json_marshal (match one with Some v => v | None => VMap prepared end)).

Definition workflowInputAuditJSON {T} (e : Executor T) (site : CallSite) (args : fields) : string :=
  if negb (site_wholeDocument site) then redactPayloadJSON e (VMap args) else redactWholeDocumentJSON e args.

(** ** Leaves *)

Section invoker.
Context {T : Type} (e : Executor T) (in_ : RunInput) (started : Time).

(** The level: where the workflow runs, under which policy, and whether the context
    its run was started with is cancelled by the end of the run. *)
Section level.
Context (pl : place) (pol : PolicyEvaluator) (canceled : bool).

Definition now (s : istate T) : Time := e_Now e (w_env (i_world s)).

(** [pctx] and [approvedActions]. *)
Definition pctx (extra : string) (s : istate T) : RunContext :=
  mkRunContext (time_sub (now s) started) (w_cost (i_world s))
    (in_ApprovedActions in_ ++ (if (extra =? "")%string then [] else [extra])).

Definition step_row (id status : string) (at_ fin : option Time) (inJSON outJSON err : string) (cost : f64) : RunStep :=
  mkRunStep (in_RunID in_) id status at_ fin inJSON outJSON err cost.

(** The context of a call; [cn] is the flag of the interpreter: a sibling has failed by
    the end of the call. *)
Definition leaf_ctx (cn : bool) : call_ctx := mkCallCtx (cn || canceled) [] None.

Definition failStepRow (ctx : call_ctx) (qid inJSON : string) (err : xerror) (cost : f64) (s : istate T) : istate T :=
  let fin := Some (now s) in
  on_world (λ w,
    trace_in e ctx pl qid "run_error" "system" (runErrorTraceData e qid err)
      (upsert e ctx (step_row qid "failed" fin fin inJSON "" (e_ErrorText e err) cost) w).1) s.

Definition leaf_result : Type := istate T * res xerror value.

(** A refusal of [CheckRun]. *)
Definition refuse (ctx : call_ctx) (qid inJSON : string) (d : DeniedError) (cost : f64) (s : istate T) : leaf_result :=
  let s := on_world (appendCostLimitHit e ctx pl qid d) s in
  (failStepRow ctx qid inJSON (XDenied d) cost s, Err (XDenied d)).

(** [run]: the envelope of a leaf.  [dispatch] makes the call; its result is the output,
    the cost and the error.  The rows are written under the context of the leaf. *)
Definition run (ctx : call_ctx) (id : string) (args : fields) (extra : string)
    (dispatch : RunContext → world T → world T * f64 * res xerror fields) (s : istate T) : leaf_result :=
  match (if (id =? "")%string then None else match qualifyStepID (pl_Prefix pl) id with Err err => Some err | Ok _ => None end) with
  | Some err => (s, Err err)
  | None =>
      let qid := qualID pl id in
      let inJSON := redactPayloadJSON e (VMap args) in
      let entry_ctx := pctx extra s in
      match CheckRun pol entry_ctx with
      | Some d => refuse ctx qid inJSON d zero_cost s
      | None =>
          let began := now s in
          let '(w, stored) := upsert e ctx (step_row qid "running" (Some began) None inJSON "" "" zero_cost) (i_world s) in
          match stored with
          | Some err => (set_world w s, Err err)
          | None =>
              let '(w, cost, r) := dispatch entry_ctx w in
              let s := set_world w s in
              match r with
              | Err err => (failStepRow ctx qid inJSON err cost s, Err err)
              | Ok out =>
                  match canonical_fields out with
                  | Err j => (failStepRow ctx qid inJSON (XValue j) cost s, Err (XValue j))
                  | Ok out =>
                      let s := on_world (add_cost cost) s in
                      match CheckRun pol (pctx extra s) with
                      | Some d => refuse ctx qid inJSON d cost s
                      | None =>
                          let finished := now s in
                          let meta := [("costUsd", canonicalNumber cost); ("durationMs", VInt (milliseconds (time_sub finished began)))] in
                          let s := if (id =? "")%string then s else put_result id (mkStepResult (VMap out) meta) s in
                          let '(w, stored) := upsert e ctx (step_row qid "succeeded" (Some began) (Some finished)
                            inJSON (redactPayloadJSON e (VMap out)) "" cost) (i_world s) in
                          match stored with
                          | Some err => (set_world w s, Err err)
                          | None => (set_world w s, Ok (VMap out))
                          end
                      end
                  end
              end
          end
      end
  end.

Definition dispatchTool (cn : bool) (site : CallSite) (uses : string) (args : option fields) (extra : string) (s : istate T) : leaf_result :=
  run (leaf_ctx cn) (site_bind site) (default [] args) extra (λ rc w,
    let '(w, meta, r) := runToolStep e pl pol started (leaf_ctx cn) (site_bind site) uses rc uses args w in
    (w, CostUSD meta, r)) s.

(** [buildToolGate]: an error of the builder counts as no gate. *)
Definition buildToolGate (id uses : string) (args : fields) (s : istate T) : option HitlGate :=
  match BuildHitlGateWithEvaluator pol (EvalPolicySpec pol) (mkToolCallContext (pctx "" s) id uses args) with
  | Ok g => g
  | Err _ => None
  end.

Definition suspend_at (ctx : call_ctx) (id kind key : string) (gate : HitlGate) (s : istate T) : leaf_result :=
  let '(s, won) := setPendingIfFirst (mkPending id (hg_Uses gate) (hg_With gate) (hg_Review gate) kind key) s in
  (if won then on_world (emitHitlRequest e ctx pl id gate) s else s, Err XSuspend).

Definition InvokeTool (cn : bool) (site : CallSite) (uses : string) (args : option fields) (s : istate T) : leaf_result :=
  let key := CallKey site in
  let id := site_bind site in
  let '(s, claimed) := claimPending key s in
  match claimed with
  | Some p =>
      let '(w, r) := resolvePendingHitl e (leaf_ctx cn) pl in_ id pol (pctx "" s) p (i_world s) in
      let s := set_world w s in
      match r with
      | Err err => (s, Err err)
      | Ok (uses, with_) => dispatchTool cn site uses (Some with_) uses s
      end
  | None =>
      match CanonicalMap args with
      | Err j => (s, Err (XValue j))
      | Ok args =>
          match buildToolGate id uses (default [] args) s with
          | Some gate =>
              if ho_AutoApprove (in_Hitl in_)
              then dispatchTool cn site uses args uses (on_world (recordAutoApproveHitl e (leaf_ctx cn) pl in_ id gate) s)
              else suspend_at (leaf_ctx cn) id "" key gate s
          | None => dispatchTool cn site uses args "" s
          end
      end
  end.

(** A reviewed payload becomes the output of its approval step. *)
Definition publish_payload (cn : bool) (id : string) (payload : fields) (s : istate T) : leaf_result :=
  run (leaf_ctx cn) id payload "" (λ _ w, (w, zero_cost, Ok payload)) s.

Definition InvokeApproval (cn : bool) (site : CallSite) (info : ApprovalInfo) (args : option fields) (s : istate T) : leaf_result :=
  let key := CallKey site in
  let id := site_bind site in
  let '(s, claimed) := claimPending key s in
  match claimed with
  | Some p =>
      let '(w, r) := resolvePendingHitl e (leaf_ctx cn) pl in_ id pol (pctx "" s) p (i_world s) in
      let s := set_world w s in
      match r with Err err => (s, Err err) | Ok (_, resolved) => publish_payload cn id resolved s end
  | None =>
      match CanonicalMap args with
      | Err j => (s, Err (XValue j))
      | Ok args =>
          let args := default [] args in
          let gate := approvalHitlGate (approvalStepFromInfo id info) args in
          if ho_AutoApprove (in_Hitl in_)
          then publish_payload cn id args (on_world (recordAutoApproveHitl e (leaf_ctx cn) pl in_ id gate) s)
          else suspend_at (leaf_ctx cn) id PendingHitlKindApproval key gate s
      end
  end.

Definition InvokeAgent (cn : bool) (site : CallSite) (agentName : string) (args : scope) (s : istate T) : leaf_result :=
  match pg_Agents (e_Graph e) !! agentName with
  | None => (s, Err (XUnknownAgent agentName))
  | Some ar =>
      run (leaf_ctx cn) (site_bind site) (default [] (args_map args)) "" (λ rc w,
        let '(w, meta, r) := runAgentStep e pl pol started (leaf_ctx cn) (site_bind site) (site_wholeDocument site) args rc ar w in
        (w, gm_CostUSD meta, r)) s
  end.

(** ** Subworkflows *)

(** A run of the interpreter at a level: its program, input and seed, the invoker's
    state before and after, the calls made and the result. *)
Definition level_run : Type :=
  place → PolicyEvaluator → bool → program → value → option RunState → istate T →
  istate T * list event * res error (value * RunState).

(** The pinned program of a workflow, else the lowered one. *)
Definition workflow_program (name : string) (wf : WorkflowSpec) : res xerror program :=
  match e_Executables e !! name with
  | Some p => Ok p
  | None => match LowerWorkflowResource name wf with (p, []) => Ok p | _ => Err (XLowering name) end
  end.

(** What a suspended child leaves to its caller. *)
Definition suspension (key : string) (site : CallSite) (workflow : string) (args : fields) (child : istate T) (st : RunState)
    : nestedSuspension :=
  mkSuspension key (site_bind site) workflow (wholeDocumentParam site args)
    (mkContext (cx_Input (i_ictx child)) (cx_Steps (i_ictx child)) (i_pending child) None) st (i_nested child).

(** The state a child starts in, and its seed: from the frame of the checkpoint when
    the resume re-enters it, else fresh. *)
Definition enter_child (frame : option NestedRunState) (workflow : string) (input : value) (w : world T)
    : istate T * option RunState * bool :=
  match frame with
  | Some n =>
      if (trim_space (nr_Workflow n) =? workflow)%string then
        let doc := match nr_Input n with VNil => input | v => v end in
        (mkIstate w (mkContext doc (nr_Steps n) (nr_PendingHitl n) None) None (nr_PendingHitl n) None (nr_Nested n),
         Some (mkRunState (nr_ExecMemo n) (nr_ExecControl n) false ""), true)
      else (newEngineInvoker input w, None, false)
  | None => (newEngineInvoker input w, None, false)
  end.

Definition call_data (workflow bind : string) (depth : Z) : list (string * payload) :=
  [("depth", PInt depth); ("stepId", PStr bind); ("workflow", PStr workflow)].

(** The call after its row is written: the child run and its outcome. *)
Definition call_workflow (child : level_run) (cn : bool) (site : CallSite) (workflow : string) (callee : WorkflowSpec)
    (args : fields) (input : value) (inJSON : string) (began : Time) (s : istate T) : leaf_result :=
  let key := CallKey site in
  let bind := site_bind site in
  let depth := pl_Depth pl + 1 in
  let ctx := leaf_ctx cn in
  match compiledWorkflowEvaluator e (wf_Policy callee) with
  | Err err => (s, Err err)
  | Ok calleePol =>
      match qualifyStepID (pl_Prefix pl) bind with
      | Err err => (s, Err err)
      | Ok prefix =>
          let pl' := mkPlace workflow prefix (pl_Root pl) depth (pl_CallStack pl ++ [workflow]) (pl_Path pl ++ [key]) in
          match workflow_program workflow callee with
          | Err err => (s, Err err)
          | Ok prog =>
              let '(s, frame) := claimNestedSeed key s in
              let '(c, seed, resumed) := enter_child frame workflow input (i_world s) in
              let c := if resumed then c
                       else on_world (trace_in e ctx pl (qualID pl bind) "workflow_call_started" "system" (call_data workflow bind depth)) c in
              let '(c, _, r) := child pl' (stricterEvaluator pol calleePol) (cn || canceled) prog (cx_Input (i_ictx c)) seed c in
              let s := set_world (i_world c) s in
              match r with
              | Err err => (s, Err (XInterp err))
              | Ok (ret, st) =>
                  if rs_suspended st then
                    let '(s, won) := setNestedIfFirst (suspension key site workflow args c st) s in
                    (s, Err (if won then XSuspend else XSecondNested bind))
                  else
                    match execIROutput prog callee ret with
                    | None => (s, Err XOutput)
                    | Some out =>
                        match Canonical out with
                        | Err j => (s, Err (XValue j))
                        | Ok out =>
                            let s := on_world (trace_in e ctx pl (qualID pl bind) "workflow_call_finished" "system" (call_data workflow bind depth)) s in
                            let s := on_world (λ w, (upsert e ctx (step_row (qualID pl bind) "succeeded" (Some began) (Some (now s)) inJSON
                              (redactPayloadJSON e out) "" zero_cost) w).1) s in
                            (put_result bind (mkStepResult out []) s, Ok out)
                        end
                    end
              end
          end
      end
  end.

(** [InvokeWorkflow]; [child] is [None] at the deepest level the limit allows. *)
Definition InvokeWorkflow (child : option level_run) (cn : bool) (site : CallSite) (workflow : string) (args : option fields) (s : istate T)
    : leaf_result :=
  match lookupWorkflow e workflow with
  | Err err => (s, Err err)
  | Ok callee =>
      let maxDepth := ResolveMaxWorkflowNesting (e_ProjectLimits e) (e_WorkflowLimits e (pl_Root pl)) in
      let depth := pl_Depth pl + 1 in
      match (if maxDepth <? depth then None else child) with
      | None => (s, Err (XNesting depth maxDepth))
      | Some child =>
          match CanonicalMap args with
          | Err j => (s, Err (XValue j))
          | Ok args =>
              match workflowInputDocument site args with
              | Err err => (s, Err err)
              | Ok input =>
                  match validateWorkflowInputSchema e workflow input with
                  | Some err => (s, Err err)
                  | None =>
                      let ctx := leaf_ctx cn in
                      let wfQID := qualID pl (site_bind site) in
                      let inJSON := workflowInputAuditJSON e site (default [] args) in
                      let began := now s in
                      let s := on_world (λ w, (upsert e ctx (step_row wfQID "running" (Some began) None inJSON "" "" zero_cost) w).1) s in
                      let '(s, r) := call_workflow child cn site workflow callee (default [] args) input inJSON began s in
                      match r with
                      | Ok out => (s, Ok out)
                      | Err err =>
                          let fin := Some (now s) in
                          let s := if isSuspend (to_error e err)
                            then on_world (λ w, (upsert e ctx (step_row wfQID RunStatusInterrupted (Some began) fin inJSON "" "" zero_cost) w).1) s
                            else on_world (λ w, trace_in e ctx pl wfQID "run_error" "system" (runErrorTraceData e wfQID err)
                                   (upsert e ctx (step_row wfQID "failed" (Some began) fin inJSON "" (e_ErrorText e err) zero_cost) w).1) s in
                          (s, Err err)
                      end
                  end
              end
          end
      end
  end.

(** The [Invoker] of a level. *)
Definition seen (x : leaf_result) : istate T * res error value :=
  let '(s, r) := x in (s, match r with Ok v => Ok v | Err err => Err (to_error e err) end).

Definition engineInvoker (child : option level_run) : Invoker (istate T) := {|
  inv_tool s cn site uses a := seen (InvokeTool cn site uses (args_map a) s);
  inv_agent s cn site agent a := seen (InvokeAgent cn site agent a s);
  inv_workflow s cn site workflow a := seen (InvokeWorkflow child cn site workflow (args_map a) s);
  inv_approval s cn site info a := seen (InvokeApproval cn site info (args_map a) s);
|}.

Definition run_level (child : option level_run) (prog : program) (input : value) (seed : option RunState) (s : istate T)
    : istate T * list event * res error (value * RunState) :=
  @RunToEnd _ (engineInvoker child) (mkInterp 0 (e_MaxConcurrentSteps e)) prog input seed (e_pick e (pl_Path pl)) (e_fuel e) s.
End level.

(** A run with [n] levels of subworkflows below it. *)
Fixpoint levels (n : nat) : level_run :=
  λ pl pol canceled, run_level pl pol canceled (match n with O => None | S n => Some (levels n) end).
End invoker.
