(* ===== verification/EngineRun.v ===== *)
(** * Runs of the engine ([internal/engine/execution.go], [execir_invoker.go],
      [checkpoint.go])

    [Executor.Run]: the input is checked, a resume is loaded from its checkpoint, the
    interpreter runs under the engine's [Invoker], and the run ends finished, failed,
    or suspended with a checkpoint. *)

From S2P Require Import Prelude GoNum GoText Value JsonNum ExecIR ExecEval ExecInterp SpecTools SpecPolicy SpecLimits LowerYaml Policy PolicyHitl RuneText AuditChain TraceRedact TraceRecorder EngineLimits McpDispatch StateStore StateRuns EngineState EngineCheckpoint EngineTool EngineHitl EngineInvoker.

Local Open Scope Z_scope.

Definition CheckpointStatusRunning : string := "running".
Definition CheckpointStatusInterrupted : string := "interrupted".
Definition CheckpointStatusCompleted : string := "completed".
Definition CheckpointStatusFailed : string := "failed".

(** What [Run] returns: [nil], [ErrInterrupted], or another error. *)
Inductive outcome := RunOk | RunInterrupted | RunError (err : xerror).

Definition run_result (T : Type) : Type := world T * outcome.

Section run.
Context {T : Type} (e : Executor T).

Definition root_place (in_ : RunInput) : place := mkPlace (in_WorkflowName in_) "" (in_WorkflowName in_) 0 [] [].

(** The limits of the workflow of a run, if it exists. *)
Definition run_limits (workflow : string) : option ExecutionLimits :=
  match lookupWorkflow e workflow with Ok _ => e_WorkflowLimits e workflow | Err _ => None end.

(** ** Checkpoints *)

(** The text of a payload is stored, unless it is too large; [stepID] qualified. *)
Definition store_checkpoint (in_ : RunInput) (p : checkpointPayload) (stepIndex : Z) (stepID status : string) (w : world T)
    : world T * option xerror :=
  match e_Encode e p with
  | None => (w, Some (XCheckpoint "marshal"))
  | Some ctxJSON =>
      if maxCheckpointContextBytes <? byte_len ctxJSON then (w, Some (XCheckpoint "absolute maximum"))
      else
        let '(evs, err) := enforceCheckpointSize (e_ProjectLimits e) (run_limits (in_WorkflowName in_)) stepID ctxJSON in
        let w := traces e (root_place in_) stepID "limit_hit" "system" evs w in
        match err with
        | Some err => (w, Some (XLimit err))
        | None =>
            let '(w, err) := on_store (SaveCheckpoint
              (mkRunCheckpoint (in_RunID in_) 0 stepIndex stepID ctxJSON status (e_Now e (w_env w)))) w in
            (w, XStore <$> err)
        end
  end.

Definition saveCheckpoint (in_ : RunInput) (stepIndex : Z) (stepID : string) (ictx : Context_) (totalCost : f64) (status : string)
    (w : world T) : world T * option xerror :=
  store_checkpoint in_ (plain_payload ictx totalCost) stepIndex (qualID (root_place in_) stepID) status w.

Definition saveExecCheckpoint (in_ : RunInput) (stepIndex : Z) (anchorStep : string) (ictx : Context_) (totalCost : f64) (st : RunState)
    (w : world T) : world T * option xerror :=
  let anchor := trim_space anchorStep in
  let stepID := qualID (root_place in_) (if (anchor =? "")%string then trim_space (in_WorkflowName in_) else anchor) in
  store_checkpoint in_ (exec_payload ictx totalCost st) stepIndex stepID CheckpointStatusInterrupted w.

(** The latest checkpoint of a run, when its status allows a resume. *)
Definition resumable_checkpoint (in_ : RunInput) (w : world T) : res xerror RunCheckpoint :=
  match GetLatestCheckpoint (in_RunID in_) (w_runs w) with
  | Err err => Err (XStore err)
  | Ok cp =>
      if (cp_Status cp =? CheckpointStatusRunning)%string || (cp_Status cp =? CheckpointStatusInterrupted)%string then Ok cp
      else Err (XCheckpoint "status")
  end.

(** [execResumeMeta]: only a checkpoint of the interpreter is resumable. *)
Definition execResumeMeta (in_ : RunInput) (w : world T) : option xerror :=
  match resumable_checkpoint in_ w with
  | Err err => Some err
  | Ok cp =>
      match e_Decode e (cp_ContextJSON cp) with
      | None => Some (XCheckpoint "unmarshal")
      | Some p => if ck_ExecIR p then None else Some (XCheckpoint "not execir")
      end
  end.

Definition loadExecResumeState (in_ : RunInput) (wf : WorkflowSpec) (w : world T)
    : res xerror (Context_ * f64 * RunState * option NestedRunState) :=
  cp ← resumable_checkpoint in_ w;
  let maxNest := ResolveMaxWorkflowNesting (e_ProjectLimits e) (run_limits (in_WorkflowName in_)) in
  match unmarshalCheckpointPayload (pg_Workflows (e_Graph e)) (e_Decode e) (cp_ContextJSON cp) (Some wf) maxNest (cp_StepIndex cp) with
  | Err _ => Err (XCheckpoint "payload")
  | Ok (ictx, totalCost) =>
      match e_Decode e (cp_ContextJSON cp) with
      | None => Err (XCheckpoint "unmarshal")
      | Some p =>
          if ck_ExecIR p then Ok (ictx, totalCost, mkRunState (ck_ExecMemo p) (ck_ExecControl p) false "", ck_Nested p)
          else Err (XCheckpoint "not execir")
      end
  end.

(** ** The ends of a run *)

Definition finish (in_ : RunInput) (status out err : string) (cost : f64) (w : world T) : world T * option store_error :=
  on_store (FinishRun (in_RunID in_) status (e_Now e (w_env w)) out err cost) w.

Definition failRun (in_ : RunInput) (err : xerror) (totalCost : f64) (w : world T) : run_result T :=
  let ictx := mkContext (VMap (in_Input in_)) ∅ None None in
  let '(w, _) := saveCheckpoint in_ (-1) "" ictx totalCost CheckpointStatusFailed w in
  let '(w, _) := finish in_ RunStatusFailed "" (e_ErrorText e err) totalCost w in
  (w, RunError err).

Definition finishRunWithOutput (in_ : RunInput) (wf : WorkflowSpec) (ictx : Context_) (totalCost : f64) (out : value) (w : world T)
    : run_result T :=
  let outBytes := redactPayloadJSON e out in
  let '(w, err) := saveCheckpoint in_ (Z.of_nat (length (wf_Steps wf)) - 1) "" ictx totalCost CheckpointStatusCompleted w in
  match err with
  | Some err => failRun in_ err totalCost w
  | None =>
      let '(w, err) := finish in_ RunStatusSucceeded outBytes "" totalCost w in
      (w, match err with Some err => RunError (XStore err) | None => RunOk end)
  end.

(** [snapshotIctx] with what the run waits for. *)
Definition suspended_context (s : istate T) : Context_ :=
  mkContext (cx_Input (i_ictx s)) (cx_Steps (i_ictx s)) (i_pending s) (nestedRunStateOf <$> i_nested s).

Definition anchor_step (s : istate T) : string :=
  match i_nested s with
  | Some n => ns_stepID n
  | None => match i_pending s with Some p => ph_StepID p | None => "" end
  end.

Definition suspendExecIR (in_ : RunInput) (wf : WorkflowSpec) (s : istate T) (st : RunState) (totalCost : f64) : run_result T :=
  let w := i_world s in
  match i_pending s, i_nested s with
  | None, None => failRun in_ XNoCause totalCost w
  | _, _ =>
      let anchor := anchor_step s in
      let stepIndex := execStepIndex wf anchor in
      let '(w, err) := saveExecCheckpoint in_ stepIndex anchor (suspended_context s) totalCost st w in
      match err with
      | Some err => failRun in_ err totalCost w
      | None =>
          let '(w, err) := on_store (UpdateRunStatus (in_RunID in_) RunStatusInterrupted) w in
          match err with
          | Some err => (w, RunError (XStore err))
          | None =>
              (trace e (root_place in_) (qualID (root_place in_) anchor) "run_error" "system"
                 [("interrupted", PBool true); ("reason", PStr "hitl"); ("stepId", PStr anchor); ("stepIndex", PInt stepIndex)] w,
               RunInterrupted)
          end
      end
  end.

(** ** [runViaExecIR] *)

Definition set_cost (cost : f64) (w : world T) : world T := mkWorld (w_env w) (w_runs w) cost (w_log w).

(** The levels below the root are as many as the limit allows. *)
Definition max_levels (in_ : RunInput) : nat :=
  Z.to_nat (ResolveMaxWorkflowNesting (e_ProjectLimits e) (e_WorkflowLimits e (in_WorkflowName in_))).

(** The invoker's state and the seed a run starts with. *)
Definition start_state (in_ : RunInput) (wf : WorkflowSpec) (w : world T) : res xerror (istate T * option RunState) :=
  if in_Resume in_ then
    '(ictx, totalCost, seed, nested) ← loadExecResumeState in_ wf w;
    Ok (mkIstate (add_cost totalCost (set_cost zero_cost w)) ictx None (cx_PendingHitl ictx) None nested, Some seed)
  else Ok (newEngineInvoker (VMap (in_Input in_)) (set_cost zero_cost w), None).

Definition run_root (in_ : RunInput) (pol : PolicyEvaluator) (started : Time) (prog : program) (s : istate T) (seed : option RunState)
    : istate T * list event * res error (value * RunState) :=
  levels e in_ started (max_levels in_) (root_place in_) pol false prog (VMap (in_Input in_)) seed s.

Definition runViaExecIR (in_ : RunInput) (wf : WorkflowSpec) (pol : PolicyEvaluator) (started : Time) (w : world T) : run_result T :=
  match workflow_program e (in_WorkflowName in_) wf with
  | Err err => failRun in_ err zero_cost w
  | Ok prog =>
      match start_state in_ wf w with
      | Err err => failRun in_ err zero_cost w
      | Ok (s, seed) =>
          let '(s, _, r) := run_root in_ pol started prog s seed in
          let cost := w_cost (i_world s) in
          match r with
          | Err err => failRun in_ (XInterp err) cost (i_world s)
          | Ok (ret, st) =>
              if rs_suspended st then suspendExecIR in_ wf s st cost
              else
                let ictx := mkContext (cx_Input (i_ictx s)) (cx_Steps (i_ictx s)) None None in
                match execIROutput prog wf ret with
                | None => failRun in_ XOutput cost (i_world s)
                | Some out => finishRunWithOutput in_ wf ictx cost out (i_world s)
                end
          end
      end
  end.

(** ** [Executor.Run] *)

Definition resumeRunStartedAt (in_ : RunInput) (w : world T) : Time :=
  if in_Resume in_ then
    match GetRun (in_RunID in_) (w_runs w) with Ok r => run_StartedAt r | Err _ => in_StartedAt in_ end
  else in_StartedAt in_.

Definition with_input (in_ : RunInput) (input : fields) : RunInput :=
  mkRunInput (in_RunID in_) (in_WorkflowName in_) (in_StartedAt in_) input (in_ApprovedActions in_) (in_Resume in_) (in_Hitl in_).

Definition Run (in_ : RunInput) (w : world T) : run_result T :=
  match lookupWorkflow e (in_WorkflowName in_) with
  | Err err => (w, RunError err)
  | Ok wf =>
      match canonical_fields (in_Input in_) with
      | Err j => failRun in_ (XValue j) zero_cost w
      | Ok cinput =>
          let in_ := with_input in_ cinput in
          match validateWorkflowInputSchema e (in_WorkflowName in_) (VMap cinput) with
          | Some err => failRun in_ err zero_cost w
          | None =>
              match compiledWorkflowEvaluator e (trim_space (wf_Policy wf)) with
              | Err err => failRun in_ err zero_cost w
              | Ok pol =>
                  match (if in_Resume in_ then execResumeMeta in_ w else None) with
                  | Some err => (w, RunError err)
                  | None => runViaExecIR in_ wf pol (resumeRunStartedAt in_ w) w
                  end
              end
          end
      end
  end.
End run.
