(* ===== verification/EngineDemo.v ===== *)
(** * A concrete executor

    A project of two workflows, whose root calls an agent, then a subworkflow that
    waits at a gated tool.  The tool and the model are counters of their calls, the
    JSON codec keeps the payloads themselves (by number).  A third workflow runs two
    tools side by side, the first of which fails. *)

From S2P Require Import Prelude GoNum GoText Value JsonNum ExecIR ExecEval ExecInterp SpecTools SpecPolicy SpecLimits Policy PolicyHitl RuneText AuditChain TraceRedact TraceRecorder EngineLimits McpDispatch StateStore StateRuns EngineState EngineCheckpoint EngineTool EngineAgent EngineInvoker EngineRun.

Local Open Scope Z_scope.

Definition demo_graph : ProjectGraph :=
  mkProjectGraph
    {["rev" := mkAgentSpec "rev" ["tool.gh.get"] ""]}
    {["main" := mkWorkflowSpec "" [mkWorkflowStep "sub" "" "" "deploy"]; "deploy" := mkWorkflowSpec "" []; "pair" := mkWorkflowSpec "" []]}
    (Some {["gh" := mkToolSpec "http" (Some (mkToolSafety (Some true) (Some false) (Some false))) ∅ false;
            "prod" := mkToolSpec "http" (Some (mkToolSafety (Some true) (Some true) (Some true))) ∅ false]})
    ∅ "".

Definition main_prog : program := {|
  Workflow := "main"; Params := ["pr"];
  Body := [ExecIR.InvokeAgent "r" "rev" {["pr" := Ref ["pr"]]} false;
           ExecIR.InvokeWorkflow "sub" "deploy" {["id" := Ref ["r"; "id"]]} false false;
           Return (Lit (VMap []))] |}.
Definition deploy_prog : program := {|
  Workflow := "deploy"; Params := ["id"];
  Body := [ExecIR.InvokeTool "before" "tool.gh.get" {["n" := Lit (VInt 0)]};
           ExecIR.InvokeTool "ship" "tool.prod.ship" {["id" := Ref ["id"]]};
           Return (Lit (VMap []))] |}.

Definition pair_prog : program := {|
  Workflow := "pair"; Params := ["pr"];
  Body := [Fork [("a", [ExecIR.InvokeTool "a" "tool.gh.down" {["n" := Lit (VInt 0)]}]);
                 ("b", [ExecIR.InvokeTool "b" "tool.gh.get" {["n" := Lit (VInt 0)]}])];
           Return (Lit (VMap []))] |}.

(** The model asks for one tool call, then answers. *)
Definition demo_generate (n : nat) (_ : call_ctx) (rq : GenerateRequest) : nat * (GenerateResponse + model_error) :=
  let meta := mkGenerateMeta 5 10 10 (f64_of_int 1) in
  (S n, inl match rq_Messages rq with
            | [_; _] => mkResponse "" [mkToolCall "c1" "gh" "args"] StopReasonToolUse meta
            | _ => mkResponse "{id:7}" [] StopReasonEndTurn meta
            end).

Section demo.
(** The payload the codec knows, and when the context of a cancelled call ends. *)
Context (saved : option checkpointPayload) (cuts : nat → bool).

Definition demo_engine : Executor nat := {|
  e_Graph := demo_graph;
  e_Agents := λ _, mkAgentDetails "m" "Review." None None 0 None false;
  e_InputSchema := λ _, None;
  e_ProjectLimits := None; e_WorkflowLimits := λ _, None; e_ToolLimits := ∅;
  e_PinnedGraph := true; e_Schemas := ∅; e_StoredPolicies := None; e_CompilePolicy := λ _, None;
  e_Executables := {["main" := main_prog; "deploy" := deploy_prog; "pair" := pair_prog]};
  e_SchemaFile := λ _, None; e_ValidateFile := λ _ _, true; e_ValidateContent := λ _ _ _, true; e_NativeSchema := λ _, None;
  e_Tools_Call := λ n _ uses args, (S n, args, mkToolCallMeta 3 zero_cost,
    if (uses =? "tool.gh.down")%string then Some (mkToolError "down" false false false None) else None);
  e_Client := λ _, Some "m1";
  e_Generate := demo_generate;
  e_CtxErr := λ n _, if cuts n then Some true else None;
  e_JSONValid := λ _, true;
  e_Unmarshal := λ s, Some (VMap (if (s =? "args")%string then [("n", VInt 1)] else [("id", VInt 7)]));
  e_Encode := λ _, Some "saved";
  e_Decode := λ _, saved;
  e_SHA256 := λ _, [];
  e_Now := λ n, mkTime (Z.of_nat n) 0;
  e_Order := λ _ m, m.*1;
  e_Traced := true; e_TraceDetail := false; e_Redaction := DefaultRedactionOptions;
  e_ErrorText := λ _, "error";
  e_MaxConcurrentSteps := 0;
  e_pick := λ _ t, if (t =? 1)%nat then 1%nat else 0%nat;
  e_fuel := 50;
|}.
End demo.
Definition demo_executor (saved : option checkpointPayload) : Executor nat := demo_engine saved (λ _, false).
Definition demo_cut (cuts : nat → bool) : Executor nat := demo_engine None cuts.

Definition demo_input (resume : bool) (d : option HitlDecisionInput) : RunInput :=
  mkRunInput "r1" "main" (mkTime 0 0) [("pr", VInt 4)] [] resume (mkHitlOptions false "ann" d).

Definition demo_pair : RunInput := mkRunInput "r1" "pair" (mkTime 0 0) [("pr", VInt 4)] [] false (mkHitlOptions false "ann" None).

Definition demo_world : world nat :=
  mkWorld 0%nat (StartRun "u" (mkRun "r1" "main" "" RunStatusRunning (mkTime 0 0) None "" "" "" zero_cost "" "" "" "" "" "" "" "" "" "") empty_runs).1
    zero_cost [].

(** Where the run stops, and the payload it stores. *)
Definition demo_stop : istate nat * RunState :=
  let in_ := demo_input false None in
  let e := demo_executor None in
  let '(s, _, r) := run_root e in_ (NewEvaluator demo_graph None) (mkTime 0 0) main_prog
    (newEngineInvoker (VMap (in_Input in_)) (set_cost zero_cost demo_world)) None in
  (s, match r with Ok (_, st) => st | Err _ => mkRunState ∅ ∅ false "" end).
Definition demo_cost : f64 := w_cost (i_world demo_stop.1).
Definition demo_payload : checkpointPayload := exec_payload (suspended_context demo_stop.1) demo_cost demo_stop.2.
Definition demo_approve : HitlDecisionInput := mkHitlInput HitlDecisionApprove "ann" None "".

(** The executor of the resume, and the run put aside. *)
Definition demo_resumer : Executor nat := demo_executor (Some demo_payload).
Definition demo_main : WorkflowSpec := mkWorkflowSpec "" [mkWorkflowStep "sub" "" "" "deploy"].
Definition demo_suspension : run_result nat :=
  suspendExecIR demo_resumer (demo_input false None) demo_main demo_stop.1 demo_stop.2 demo_cost.
