(* ===== verification/EngineSafety.v ===== *)
(** * What a run of the engine does

    The effect of a leaf, of a subworkflow and of a whole run on the world: every tool
    executed was allowed by the policy of the root workflow, only the rows of steps
    change while the interpreter runs, and no step is left running, except one whose
    context ended while it ran. *)

From S2P Require Import Prelude GoNum GoText Value JsonNum ExecIR ExecEval ExecInterp ExecSteps ExecRun ExecTotal SpecTools SpecPolicy SpecLimits LowerYaml Policy PolicyStricter PolicyHitl AuditChain TraceRedact TraceRecorder EngineLimits McpDispatch StateStore StateRuns EngineState EngineCheckpoint EngineTool EngineAgent EngineHitl EngineInvoker EngineRun.

Local Open Scope Z_scope.

(** ** Effects *)

(** The context of some call is cancelled while the call runs, as a failing sibling of
    a concurrent construct does. *)
Definition cut {T} (e : Executor T) : Prop := ∃ t ctx, cc_Canceled ctx = true ∧ e_CtxErr e t ctx = Some true.

(** The step rows after [t'] are no longer running, except those [t] left running, and
    those whose last write was refused because their context was cut. *)
Definition settles {T} (e : Executor T) (l : list action) (t t' : RunTables) : Prop :=
  ∀ k st, run_steps t' !! k = Some st → rs_Status st = "running" →
    run_steps t !! k = Some st ∨ ALost k.2 ∈ l ∧ cut e.

Lemma settles_same {T} (e : Executor T) l t t' : run_steps t' = run_steps t → settles e l t t'.
Proof. intros Ht k st Hk _. left. by rewrite <-Ht. Qed.

Lemma settles_trans {T} (e : Executor T) l l' t1 t2 t3 :
  settles e l t1 t2 → settles e l' t2 t3 → settles e (l ++ l') t1 t3.
Proof.
  intros H1 H2 k st Hk Hr. destruct (H2 _ _ Hk Hr) as [Hk2|[? ?]]; [|right; by rewrite elem_of_app; auto].
  destruct (H1 _ _ Hk2 Hr) as [|[? ?]]; [by left|right; by rewrite elem_of_app; auto].
Qed.
#[local] Hint Resolve settles_same : core.

(** From [w] to [w'] only tools that [P] admits ran, and only step rows changed. *)
Record effect {T} (e : Executor T) (P : string → fields → Prop) (w w' : world T) : Prop := {
  ef_log : ∃ l, w_log w' = w_log w ++ l ∧ Forall (λ c, P c.1 c.2) (tool_calls l) ∧ settles e l (w_runs w) (w_runs w');
  ef_runs : runs (w_runs w') = runs (w_runs w);
  ef_events : trace_events (w_runs w') = trace_events (w_runs w);
  ef_checkpoints : run_checkpoints (w_runs w') = run_checkpoints (w_runs w);
}.

Section effect.
Context {T : Type} (e : Executor T) (P : string → fields → Prop).
Implicit Types w : world T.

#[global] Instance effect_preorder : PreOrder (effect e P).
Proof.
  split.
  - intros w. split; auto. exists []. rewrite app_nil_r. auto.
  - intros w1 w2 w3 [(l1 & H1 & T1 & S1) R1 E1 C1] [(l2 & H2 & T2 & S2) R2 E2 C2]. split; try congruence.
    exists (l1 ++ l2). rewrite H2, H1, app_assoc, tool_calls_app. split; [done|]. split; [by apply Forall_app|].
    by eapply settles_trans.
Qed.

(** Nothing but the log and the environment changes. *)
Lemma effect_log w w' l : w_runs w' = w_runs w → w_log w' = w_log w ++ l → Forall (λ c, P c.1 c.2) (tool_calls l) → effect e P w w'.
Proof. intros Hr Hl HP. split; rewrite ?Hr; auto. exists l. auto. Qed.

Lemma adds_effect (Q : string → fields → Prop) n w w' : (∀ u x, Q u x → P u x) → adds Q n w w' → effect e P w w'.
Proof.
  intros HQP (Hr & _ & l & Hl & HT & _). eapply effect_log; [done..|]. eapply Forall_impl; [done|]. intros [u x]. apply HQP.
Qed.
Lemma quiet_effect w w' : adds nothing 0 w w' → effect e P w w'.
Proof. by apply adds_effect. Qed.
Lemma same_effect w w' : w_runs w' = w_runs w → w_log w' = w_log w → effect e P w w'.
Proof. intros Hr Hl. eapply (effect_log w w' []); rewrite ?app_nil_r; done. Qed.
Lemma lost_effect id w : effect e P w (log_action (ALost id) w).
Proof. by eapply (effect_log w _ [ALost id]). Qed.

Lemma put_step_effect w row : rs_Status row ≠ "running" → effect e P w (put_step row w).
Proof.
  intros Hs. unfold put_step, on_store, UpsertRunStep. destruct (runs (w_runs w) !! rs_RunID row) eqn:E; cbn; [|by apply same_effect].
  split; cbn; try done. exists []. rewrite app_nil_r. split; [done|]. split; [done|].
  intros k st. cbn. rewrite lookup_insert_Some. intros [[<- <-]|[_ ?]]; [done|by left].
Qed.

(** Where a row that was put running can be left running. *)
Lemma opened_row w row w1 : effect e P (put_step row w) w1 →
  ∃ l, w_log w1 = w_log w ++ l ∧ Forall (λ c, P c.1 c.2) (tool_calls l) ∧
    ∀ k st, run_steps (w_runs w1) !! k = Some st → rs_Status st = "running" →
      k = (rs_RunID row, rs_StepID row) ∨ run_steps (w_runs w) !! k = Some st ∨ ALost k.2 ∈ l ∧ cut e.
Proof.
  intros [(l & Hl & HT & HS) _ _ _]. exists l. unfold put_step, on_store, UpsertRunStep in *.
  destruct (runs (w_runs w) !! rs_RunID row) as [r|] eqn:E; cbn in *; split_and!; try done; intros k st Hk Hr;
    destruct (HS _ _ Hk Hr) as [Hs|]; auto. cbn in Hs. rewrite lookup_insert_Some in Hs.
  destruct Hs as [[<- _]|[_ ?]]; auto.
Qed.

Lemma put_step_tables row w : runs (w_runs (put_step row w)) = runs (w_runs w) ∧
  trace_events (w_runs (put_step row w)) = trace_events (w_runs w) ∧
  run_checkpoints (w_runs (put_step row w)) = run_checkpoints (w_runs w) ∧ w_log (put_step row w) = w_log w.
Proof. unfold put_step, on_store, UpsertRunStep. by destruct (runs (w_runs w) !! rs_RunID row). Qed.

(** A row that is running, and that the step overwrites at its end. *)
Lemma put_pair w row w1 row' :
  effect e P (put_step row w) w1 → rs_RunID row' = rs_RunID row → rs_StepID row' = rs_StepID row → rs_Status row' ≠ "running" →
  effect e P w (put_step row' w1).
Proof.
  intros H1 Hid Hstep Hs. destruct (runs (w_runs w) !! rs_RunID row) as [r|] eqn:E.
  2: { assert (put_step row w = w) as Hp by (unfold put_step, on_store, UpsertRunStep; rewrite E; by destruct w).
       rewrite Hp in H1. etrans; [done|by apply put_step_effect]. }
  destruct (opened_row _ _ _ H1) as (l & Hl & HT & HS). destruct H1 as [_ R1 E1 C1].
  destruct (put_step_tables row w) as (R0 & E0 & C0 & _), (put_step_tables row' w1) as (R2 & E2 & C2 & L2).
  split; [|congruence..]. exists l. split; [congruence|]. split; [done|]. intros k st.
  unfold put_step, on_store, UpsertRunStep. rewrite R1, R0, Hid, E. cbn. rewrite lookup_insert_Some.
  intros [[<- <-]|[Hne Hk]] Hr; [done|]. rewrite Hstep in Hne. by destruct (HS _ _ Hk Hr) as [->|?].
Qed.

(** A row that is running, and whose last write is refused. *)
Lemma lost_pair w row w1 : effect e P (put_step row w) w1 → cut e → effect e P w (log_action (ALost (rs_StepID row)) w1).
Proof.
  intros H1 Hcut. destruct (opened_row _ _ _ H1) as (l & Hl & HT & HS). destruct H1 as [_ R1 E1 C1].
  destruct (put_step_tables row w) as (R0 & E0 & C0 & _). split; cbn; [|congruence..].
  exists (l ++ [ALost (rs_StepID row)]). rewrite Hl, app_assoc, tool_calls_app. cbn. rewrite app_nil_r.
  split; [done|]. split; [done|]. intros k st Hk Hr. rewrite elem_of_app.
  destruct (HS _ _ Hk Hr) as [->|[?|[? ?]]]; [|by left|by right; auto]. right. split; [|done]. right. by apply list_elem_of_singleton.
Qed.

(** The writes of a leaf. *)
Lemma upsert_live ctx row w : ctx_err e ctx w = None → (upsert e ctx row w).1 = put_step row w.
Proof. unfold upsert, put_step. intros ->. by destruct (on_store _ w). Qed.

Lemma upsert_effect ctx row w : rs_Status row ≠ "running" → effect e P w (upsert e ctx row w).1.
Proof.
  intros Hs. destruct (ctx_err e ctx w) as [c|] eqn:E; [|by rewrite upsert_live; [apply put_step_effect|]].
  unfold upsert. rewrite E. destruct (String.eqb_spec (rs_Status row) "running"); [done|apply lost_effect].
Qed.

Lemma upsert_pair ctx w row w1 row' :
  cc_Timeouts ctx = [] → effect e P (upsert e ctx row w).1 w1 → rs_Status row = "running" →
  rs_RunID row' = rs_RunID row → rs_StepID row' = rs_StepID row → rs_Status row' ≠ "running" →
  effect e P w (upsert e ctx row' w1).1.
Proof.
  intros Ht H1 Hr Hid Hstep Hs. destruct (ctx_err e ctx w) as [c|] eqn:E.
  { unfold upsert in H1. rewrite E, Hr in H1. etrans; [exact H1|by apply upsert_effect]. }
  rewrite upsert_live in H1 by done. destruct (ctx_err e ctx w1) as [c1|] eqn:E1.
  2: { rewrite upsert_live by done. by eapply put_pair. }
  unfold upsert. rewrite E1. destruct (String.eqb_spec (rs_Status row') "running"); [done|]. cbn. rewrite Hstep.
  apply lost_pair; [done|]. unfold ctx_err in E1. rewrite Ht in E1. exists (w_env w1), ctx.
  destruct (e_CtxErr e _ ctx) as [[]|]; try done. by destruct (cc_Canceled ctx).
Qed.
End effect.

Lemma effect_weaken {T} (e : Executor T) (P Q : string → fields → Prop) (w w' : world T) :
  (∀ u x, P u x → Q u x) → effect e P w w' → effect e Q w w'.
Proof.
  intros HPQ [(l & Hl & HT & HS) R E C]. split; try done. exists l. split; [done|]. split; [|done].
  eapply Forall_impl; [done|]. intros [u x]. apply HPQ.
Qed.

(** ** Leaves *)

(** The approvals a call of [uses] may rely on: those of the run, or one more, of that
    very call, which an operator's decision or auto-approval released. *)
Definition approvals (in_ : RunInput) (uses : string) (l : list string) : Prop :=
  l = in_ApprovedActions in_ ∨
  resume_decision in_ ≠ None ∧ ∃ v, trim_space v = uses ∧ l = in_ApprovedActions in_ ++ [v].

(** The call passed the policy with such approvals. *)
Definition authorized (in_ : RunInput) (pol : PolicyEvaluator) (uses : string) (args : fields) : Prop :=
  ∃ stepID rc, approvals in_ uses (rc_ApprovedActions rc) ∧ CheckToolCall pol (mkToolCallContext rc stepID uses args) = None.

(** [pol] is no laxer than [pol0]. *)
Definition covers (pol0 pol : PolicyEvaluator) : Prop := ∀ call, CheckToolCall pol call = None → CheckToolCall pol0 call = None.

Lemma covers_stricter pol0 pol pol' : covers pol0 pol → covers pol0 (stricterEvaluator pol pol').
Proof.
  intros H call. unfold stricterEvaluator. cbn. unfold check_then. destruct (CheckToolCall pol call) eqn:E; [done|].
  intros _. by apply H.
Qed.

Section leaves.
Context {T : Type} (e : Executor T) (in_ : RunInput) (started : Time) (pol0 : PolicyEvaluator).
Abbreviation P := (authorized in_ pol0).
Local Notation "s ⇝ s'" := (effect e P (i_world s) (i_world s')) (at level 70).

Section level.
Context (pl : place) (pol : PolicyEvaluator) (canceled : bool) (Hpol : covers pol0 pol).

Lemma trace_effect ctx pl' s t a d (w : world T) : effect e P w (trace_in e ctx pl' s t a d w).
Proof. apply quiet_effect, trace_in_adds. Qed.

Lemma appendCostLimitHit_effect ctx id d (w : world T) : effect e P w (appendCostLimitHit e ctx pl id d w).
Proof. apply quiet_effect, appendCostLimitHit_adds. Qed.

(** A failed row, over a world in which the row was put running. *)
Lemma failStepRow_pair ctx w id inJSON row err cost s :
  cc_Timeouts ctx = [] → effect e P (upsert e ctx row w).1 (i_world s) → rs_Status row = "running" → rs_RunID row = in_RunID in_ → rs_StepID row = id →
  effect e P w (i_world (failStepRow e in_ pl ctx id inJSON err cost s)).
Proof.
  intros Hc H1 Ht Hr Hs. cbn. etrans; [|apply trace_effect]. by eapply upsert_pair.
Qed.
Lemma failStepRow_effect ctx id inJSON err cost s : s ⇝ failStepRow e in_ pl ctx id inJSON err cost s.
Proof. cbn. etrans; [|apply trace_effect]. by apply upsert_effect. Qed.

Lemma refuse_pair ctx w id inJSON row d cost s :
  cc_Timeouts ctx = [] → effect e P (upsert e ctx row w).1 (i_world s) → rs_Status row = "running" → rs_RunID row = in_RunID in_ → rs_StepID row = id →
  effect e P w (i_world (refuse e in_ pl ctx id inJSON d cost s).1).
Proof.
  intros Hc H1 Ht Hr Hs. apply (failStepRow_pair ctx w id inJSON row); [done| |done..]. cbn. etrans; [done|apply appendCostLimitHit_effect].
Qed.
Lemma refuse_effect ctx id inJSON d cost s : s ⇝ (refuse e in_ pl ctx id inJSON d cost s).1.
Proof. etrans; [|apply failStepRow_effect]. cbn. apply appendCostLimitHit_effect. Qed.

(** The envelope adds only rows that end, around what the call does. *)
Lemma run_effect ctx id args extra dispatch s :
  cc_Timeouts ctx = [] →
  (∀ rc w, rc_ApprovedActions rc = in_ApprovedActions in_ ++ (if (extra =? "")%string then [] else [extra]) →
    effect e P w (dispatch rc w).1.1) →
  s ⇝ (run e in_ started pl pol ctx id args extra dispatch s).1.
Proof.
  intros Ht Hd. unfold run. destruct (if (id =? "")%string then _ else _); [done|].
  destruct (CheckRun pol _); [apply refuse_effect|].
  set (row := step_row in_ (qualID pl id) "running" _ _ _ _ _ _). cbv zeta.
  destruct (upsert e ctx row (i_world s)) as [w stored] eqn:Hst.
  assert (w = (upsert e ctx row (i_world s)).1) as Hw by (by rewrite Hst).
  destruct stored as [err|].
  { clear Hw. unfold upsert in Hst. destruct (ctx_err e ctx _); [injection Hst as <- _; done|].
    unfold on_store, UpsertRunStep in Hst. destruct (runs _ !! _); [done|]. injection Hst as <- _. by apply same_effect. }
  pose proof (Hd (pctx e in_ started extra s) w eq_refl) as Hc.
  destruct (dispatch _ w) as [[w1 cost] r]. cbn in Hc. rewrite Hw in Hc.
  destruct r as [out|err]; [|by apply (failStepRow_pair _ _ _ _ row)].
  destruct (canonical_fields out) as [out'|j]; [|by apply (failStepRow_pair _ _ _ _ row)].
  assert (∀ s' : istate T, i_world s' = add_cost cost w1 → effect e P (upsert e ctx row (i_world s)).1 (i_world s')) as Ha.
  { intros s' ->. etrans; [exact Hc|]. by apply same_effect. }
  destruct (CheckRun pol _); [by apply (refuse_pair _ _ _ _ row); [|apply Ha|..]|].
  match goal with |- context [upsert e ctx ?row' ?x] =>
    pose proof (upsert_pair e P ctx (i_world s) row x row' Ht) as H2; destruct (upsert e ctx row' x) as [w2 err] end.
  destruct err; cbn; apply H2; try done; apply Ha; by destruct (id =? "")%string.
Qed.

Lemma dispatchTool_effect cn site uses args extra s :
  extra = "" ∨ resume_decision in_ ≠ None ∧ extra = uses →
  s ⇝ (dispatchTool e in_ started pl pol canceled cn site uses args extra s).1.
Proof.
  intros Hx. apply run_effect; [done|]. intros rc w Hrc. cbv beta.
  destruct (runToolStep _ _ _ _ _ _ _ _ _ _ w) as [[w1 meta] r] eqn:Ht. cbn. apply runToolStep_calls in Ht as [Ha _].
  eapply adds_effect, Ha. intros u x (-> & _ & Hc). exists (site_bind site), rc. split; [|by apply Hpol].
  rewrite Hrc. unfold approvals.
  assert (step_uses uses uses = trim_space uses) as -> by (unfold step_uses; cbv zeta; destruct (trim_space uses =? "")%string; reflexivity).
  destruct (String.eqb_spec extra "") as [->|Hne]; [left; by rewrite app_nil_r|].
  right. destruct Hx as [->|[Hr ->]]; [done|]. split; [done|]. by exists uses.
Qed.

Lemma suspend_at_effect ctx id kind key gate s : s ⇝ (suspend_at e pl ctx id kind key gate s).1.
Proof.
  unfold suspend_at, setPendingIfFirst. destruct (i_nested s), (i_pending s); cbn; try done. apply trace_effect.
Qed.

Lemma claimPending_world (key : string) (s : istate T) s' p : claimPending key s = (s', p) → i_world s' = i_world s.
Proof. unfold claimPending. repeat case_match; by intros [= <- <-]. Qed.

Lemma auto_decision : ho_AutoApprove (in_Hitl in_) = true → resume_decision in_ ≠ None.
Proof. unfold resume_decision. by intros ->. Qed.

Lemma recordAutoApproveHitl_effect ctx id gate (w : world T) : effect e P w (recordAutoApproveHitl e ctx pl in_ id gate w).
Proof. apply quiet_effect, recordAutoApproveHitl_adds. Qed.

(** The decision on a claimed gate. *)
Lemma resolved_effect ctx id rc p (s : istate T) w r :
  resolvePendingHitl e ctx pl in_ id pol rc p (i_world s) = (w, r) →
  effect e P (i_world s) w ∧ ((∃ c, r = Ok c) → resume_decision in_ ≠ None).
Proof.
  intros [Ha Hr]%resolvePendingHitl_adds. split; [by apply quiet_effect|]. intros [[uses x] ->].
  destruct (Hr uses x eq_refl) as (d & -> & _). done.
Qed.

Lemma InvokeTool_effect cn site uses args s : s ⇝ (InvokeTool e in_ started pl pol canceled cn site uses args s).1.
Proof.
  unfold InvokeTool. destruct (claimPending _ s) as [s1 [p|]] eqn:Hp; apply claimPending_world in Hp; rewrite <-Hp; cbv zeta.
  - destruct (resolvePendingHitl _ _ _ _ _ _ _ _ _) as [w [[uses' x]|err]] eqn:Hr; apply resolved_effect in Hr as [Hr Hd]; [|done].
    etrans; [exact Hr|]. apply (dispatchTool_effect cn site uses' (Some x) uses' (set_world w s1)). right. split; [by apply Hd; eexists|done].
  - destruct (CanonicalMap args) as [args'|]; [|done]. destruct (buildToolGate _ _ _ _ _ _ _ _) as [gate|].
    + destruct (ho_AutoApprove _) eqn:Ha; [|apply suspend_at_effect].
      etrans; [apply recordAutoApproveHitl_effect|]. 
      apply (dispatchTool_effect cn site uses args' uses (on_world (recordAutoApproveHitl e (leaf_ctx canceled cn) pl in_ (site_bind site) gate) s1)).
      right. split; [by apply auto_decision|done].
    + apply dispatchTool_effect. by left.
Qed.

Lemma publish_payload_effect cn id x s : s ⇝ (publish_payload e in_ started pl pol canceled cn id x s).1.
Proof. by apply run_effect. Qed.

Lemma InvokeApproval_effect cn site info args s : s ⇝ (InvokeApproval e in_ started pl pol canceled cn site info args s).1.
Proof.
  unfold InvokeApproval. destruct (claimPending _ s) as [s1 [p|]] eqn:Hp; apply claimPending_world in Hp; rewrite <-Hp; cbv zeta.
  - destruct (resolvePendingHitl _ _ _ _ _ _ _ _ _) as [w [[uses' x]|err]] eqn:Hr; apply resolved_effect in Hr as [Hr _]; [|done].
    etrans; [exact Hr|]. apply (publish_payload_effect _ _ _ (set_world w s1)).
  - destruct (CanonicalMap args) as [args'|]; [|done]. destruct (ho_AutoApprove _); [|apply suspend_at_effect].
    etrans; [apply recordAutoApproveHitl_effect|].
    match goal with |- effect _ _ _ (i_world (publish_payload _ _ _ _ _ _ _ _ _ (on_world ?f s1)).1) =>
      apply (publish_payload_effect _ _ _ (on_world f s1)) end.
Qed.

Lemma InvokeAgent_effect cn site agent a s : s ⇝ (InvokeAgent e in_ started pl pol canceled cn site agent a s).1.
Proof.
  unfold InvokeAgent. destruct (pg_Agents _ !! agent) as [ar|]; [|done]. apply run_effect; [done|]. intros rc w Hrc. cbv beta.
  destruct (runAgentStep _ _ _ _ _ _ _ _ _ _ w) as [[w1 meta] r] eqn:Ha. cbn. apply runAgentStep_adds in Ha.
  eapply adds_effect, Ha. intros u x (_ & rc' & Hrc' & Hc). exists (site_bind site), rc'. split; [|by apply Hpol].
  left. rewrite Hrc', Hrc. cbn. by rewrite app_nil_r.
Qed.
End level.
End leaves.

(** ** Subworkflows and whole runs *)

Section runs.
Context {T : Type} (e : Executor T) (in_ : RunInput) (started : Time) (pol0 : PolicyEvaluator).
Abbreviation P := (authorized in_ pol0).
Local Notation "s ⇝ s'" := (effect e P (i_world s) (i_world s')) (at level 70).

(** What is to be shown of a level. *)
Definition level_ok (f : level_run (T := T)) : Prop :=
  ∀ pl pol canceled prog input seed s, covers pol0 pol → s ⇝ (f pl pol canceled prog input seed s).1.1.

Section level.
Context (pl : place) (pol : PolicyEvaluator) (canceled : bool) (Hpol : covers pol0 pol).

Lemma claimNestedSeed_world key (s s' : istate T) n : claimNestedSeed key s = (s', n) → i_world s' = i_world s.
Proof. unfold claimNestedSeed. repeat case_match; by intros [= <- <-]. Qed.

Lemma setNestedIfFirst_world n (s s' : istate T) b : setNestedIfFirst n s = (s', b) → i_world s' = i_world s.
Proof. unfold setNestedIfFirst. case_match; by intros [= <- <-]. Qed.

Lemma enter_child_world frame workflow input (w : world T) c seed b :
  enter_child frame workflow input w = (c, seed, b) → i_world c = w.
Proof. unfold enter_child. repeat case_match; by intros [= <- <- <-]. Qed.

(** The call: a succeeded call has overwritten its row. *)
Lemma call_workflow_effect child cn site workflow callee args input inJSON began w s row :
  level_ok child → effect e P (upsert e (leaf_ctx canceled cn) row w).1 (i_world s) → rs_Status row = "running" →
  rs_RunID row = in_RunID in_ → rs_StepID row = qualID pl (site_bind site) →
  let x := call_workflow e in_ pl pol canceled child cn site workflow callee args input inJSON began s in
  effect e P (upsert e (leaf_ctx canceled cn) row w).1 (i_world x.1) ∧ ((∃ v, x.2 = Ok v) → effect e P w (i_world x.1)).
Proof.
  intros Hc H0 Hrun Hr Hs x. subst x. unfold call_workflow.
  assert (∀ (s' : istate T) (err : xerror), effect e P (upsert e (leaf_ctx canceled cn) row w).1 (i_world s') →
    effect e P (upsert e (leaf_ctx canceled cn) row w).1 (i_world s') ∧ ((∃ v, @Err xerror value err = Ok v) → effect e P w (i_world s'))) as Herr.
  { intros s' err H. split; [done|]. by intros [v ?]. }
  destruct (compiledWorkflowEvaluator e _) as [calleePol|]; [|by apply Herr].
  destruct (qualifyStepID _ _) as [prefix|]; [|by apply Herr].
  destruct (workflow_program e _ _) as [prog|]; [|by apply Herr]. cbv zeta.
  destruct (claimNestedSeed _ s) as [s1 frame] eqn:H1. apply claimNestedSeed_world in H1. rewrite <-H1 in H0.
  destruct (enter_child frame workflow input (i_world s1)) as [[c seed] resumed] eqn:H2. apply enter_child_world in H2. rewrite <-H2 in H0.
  set (c1 := if resumed then c else _).
  assert (effect e P (upsert e (leaf_ctx canceled cn) row w).1 (i_world c1)) as H3.
  { subst c1. destruct resumed; [done|]. etrans; [exact H0|apply trace_effect]. }
  match goal with |- context [child ?a ?b ?d ?f ?g ?h c1] =>
    pose proof (Hc a b d f g h c1 ltac:(by apply covers_stricter)) as H4; destruct (child a b d f g h c1) as [[c2 evs] r] end.
  cbn in H4. assert (effect e P (upsert e (leaf_ctx canceled cn) row w).1 (i_world c2)) as H5 by (by etrans).
  destruct r as [[ret st]|err]; [|by apply Herr]. destruct (rs_suspended st).
  { destruct (setNestedIfFirst _ _) as [s2 won] eqn:H6. apply setNestedIfFirst_world in H6. apply (Herr s2). by rewrite H6. }
  destruct (execIROutput prog callee ret) as [out|]; [|by apply Herr].
  destruct (Canonical out) as [out'|]; [|by apply Herr].
  unfold on_world. cbn [i_world set_world put_result fst snd].
  match goal with |- context [upsert e _ (step_row ?a1 ?a2 ?a3 ?a4 ?a5 ?a6 ?a7 ?a8 ?a9) ?x] =>
    set (row' := step_row a1 a2 a3 a4 a5 a6 a7 a8 a9);
    assert (effect e P (upsert e (leaf_ctx canceled cn) row w).1 x) as H6 by (etrans; [exact H5|apply trace_effect]);
    pose proof (upsert_effect e P (leaf_ctx canceled cn) row' x) as H7;
    pose proof (upsert_pair e P (leaf_ctx canceled cn) w row x row' eq_refl H6 Hrun) as H8 end.
  cbn in *. split; [etrans; [exact H6|by apply H7]|]. intros _. by apply H8.
Qed.

Lemma InvokeWorkflow_effect child cn site workflow args s :
  (∀ f, child = Some f → level_ok f) → s ⇝ (InvokeWorkflow e in_ pl pol canceled child cn site workflow args s).1.
Proof.
  intros Hc. unfold InvokeWorkflow. destruct (lookupWorkflow e workflow) as [callee|]; [|done]. cbv zeta.
  destruct (if _ <? _ then _ else _) as [f|] eqn:Hf; [|done].
  assert (level_ok f) as Hok by (apply Hc; by destruct (_ <? _)). clear Hf.
  destruct (CanonicalMap args) as [args'|]; [|done]. destruct (workflowInputDocument _ _) as [input|]; [|done].
  destruct (validateWorkflowInputSchema e _ _); [done|].
  set (row := step_row in_ (qualID pl (site_bind site)) "running" _ _ _ _ _ _).
  match goal with |- context [call_workflow e in_ pl pol canceled f cn site workflow callee (default [] args') input ?a ?b ?s'] =>
    pose proof (call_workflow_effect f cn site workflow callee (default [] args') input a b (i_world s) s' row Hok ltac:(reflexivity) eq_refl eq_refl eq_refl) as [H1 H2];
    destruct (call_workflow e in_ pl pol canceled f cn site workflow callee (default [] args') input a b s') as [s1 r] end.
  cbn in H1, H2. destruct r as [v|err]; [apply H2; by eexists|].
  destruct (isSuspend _); cbn.
  - by eapply upsert_pair.
  - etrans; [|apply trace_effect]. by eapply upsert_pair.
Qed.

Lemma run_level_effect child prog input seed s :
  (∀ f, child = Some f → level_ok f) → s ⇝ (run_level e in_ started pl pol canceled child prog input seed s).1.1.
Proof.
  intros Hc. unfold run_level. destruct (RunToEnd _ _ _ _ _ _ s) as [[s' evs] r] eqn:Hr.
  assert (PreOrder (λ a b : istate T, a ⇝ b)) as Hpre.
  { split; [by intros a|]. intros a b c H1 H2. by etrans. }
  eapply (RunToEnd_world (λ a b : istate T, a ⇝ b)) in Hr; [done|].
  intros a cn site [uses x|agent x|wf x|info x]; cbn; unfold seen.
  - pose proof (InvokeTool_effect e in_ started pol0 pl pol canceled Hpol cn site uses (args_map x) a) as H.
    by destruct (InvokeTool _ _ _ _ _ _ _ _ _ _ a).
  - pose proof (InvokeAgent_effect e in_ started pol0 pl pol canceled Hpol cn site agent x a) as H.
    by destruct (InvokeAgent _ _ _ _ _ _ _ _ _ _ a).
  - pose proof (InvokeWorkflow_effect child cn site wf (args_map x) a Hc) as H.
    by destruct (InvokeWorkflow _ _ _ _ _ _ _ _ _ _ a).
  - pose proof (InvokeApproval_effect e in_ started pol0 pl pol canceled cn site info (args_map x) a) as H.
    by destruct (InvokeApproval _ _ _ _ _ _ _ _ _ _ a).
Qed.
End level.

Lemma levels_ok n : level_ok (levels e in_ started n).
Proof.
  induction n as [|n IH]; intros pl pol canceled prog input seed s Hpol; cbn [levels]; apply run_level_effect; try done.
  by intros f [= <-].
Qed.
End runs.
