(* ===== verification/EngineOutcome.v ===== *)
(** * How a run of the engine ends

    The rows [Executor.Run] leaves behind agree with what it returns; no step is left
    running, except one cancelled while it ran; every tool it executed was authorized;
    and a suspended run resumes in the state it stopped in. *)

From S2P Require Import Prelude GoNum GoText Value JsonNum ExecIR ExecEval ExecInterp ExecSteps ExecRun ExecTotal SpecTools SpecPolicy SpecLimits LowerYaml Policy PolicyStricter PolicyHitl RuneText AuditChain TraceRedact TraceRecorder EngineLimits McpDispatch StateStore SqliteTime StateRuns Wiring EngineState EngineCheckpoint EngineTool EngineAgent EngineHitl EngineInvoker EngineRun EngineDemo EngineSafety.

Local Open Scope Z_scope.

(** ** The ends of a run *)

(** No tool ran and no step row changed. *)
Record quiet {T} (w w' : world T) : Prop := {
  q_log : ∃ l, w_log w' = w_log w ++ l ∧ tool_calls l = [];
  q_steps : run_steps (w_runs w') = run_steps (w_runs w);
}.
#[global] Instance quiet_preorder {T} : PreOrder (quiet (T := T)).
Proof.
  split.
  - intros w. split; [|done]. exists []. by rewrite app_nil_r.
  - intros w1 w2 w3 [(l1 & H1 & T1) S1] [(l2 & H2 & T2) S2]. split; [|congruence].
    exists (l1 ++ l2). by rewrite H2, H1, app_assoc, tool_calls_app, T1, T2.
Qed.

(** The run's row satisfies [Q]. *)
Definition run_row {T} (id : string) (Q : StateRuns.Run → Prop) (w : world T) : Prop :=
  ∃ r, runs (w_runs w) !! id = Some r ∧ Q r.

Section ends.
Context {T : Type} (e : Executor T) (in_ : RunInput).
Implicit Types w : world T.
Abbreviation id := (in_RunID in_).

Lemma adds_quiet w w' : adds nothing 0 w w' → quiet w w' ∧ w_runs w' = w_runs w.
Proof.
  intros (Hr & _ & l & Hl & HT & _). split; [|done]. split; [|by rewrite Hr]. exists l. split; [done|].
  destruct (tool_calls l); [done|by inversion HT].
Qed.

(** A checkpoint that was stored is the latest one; the run's row is untouched. *)
Lemma store_checkpoint_spec p i stepID status w w' r :
  store_checkpoint e in_ p i stepID status w = (w', r) →
  quiet w w' ∧ runs (w_runs w') = runs (w_runs w) ∧ (r = None →
    ∃ text seq at_, e_Encode e p = Some text ∧ byte_len text <= maxCheckpointContextBytes ∧
      GetLatestCheckpoint id (w_runs w') = Ok (mkRunCheckpoint id seq i stepID (or_object text) status at_)).
Proof.
  unfold store_checkpoint. destruct (e_Encode e p) as [text|]; [|intros [= <- <-]; by split; [reflexivity|]].
  destruct (maxCheckpointContextBytes <? byte_len text) eqn:Hmax; [intros [= <- <-]; by split; [reflexivity|]|].
  destruct (enforceCheckpointSize _ _ stepID text) as [evs err]. set (w1 := traces e _ _ _ _ evs w).
  destruct (adds_quiet w w1 (traces_adds _ _ _ _ _ _ _)) as [Hq Hr1].
  destruct err as [err|]; [intros [= <- <-]; split; [done|]; by rewrite Hr1|].
  unfold on_store, SaveCheckpoint. destruct (runs (w_runs w1) !! id) eqn:E; cbn; rewrite E; intros [= <- <-]; cbn.
  - split; [|split; [by rewrite Hr1|]]. { etrans; [exact Hq|]. split; [|done]. exists []. by rewrite app_nil_r. }
    intros _. exists text. do 2 eexists. split; [done|]. split; [lia|].
    unfold GetLatestCheckpoint, checkpoints_of. cbn. rewrite lookup_insert_eq. cbn. by rewrite last_snoc.
  - split; [|split; [by rewrite Hr1|done]]. etrans; [exact Hq|]. split; [by exists []; rewrite app_nil_r|done].
Qed.

(** An UPDATE of an existing run. *)
Lemma update_run_spec f w w' err : on_store (update_run id f) w = (w', err) →
  quiet w w' ∧ run_checkpoints (w_runs w') = run_checkpoints (w_runs w) ∧
  ∀ r, runs (w_runs w) !! id = Some r → err = None ∧ runs (w_runs w') !! id = Some (f r).
Proof.
  unfold on_store, update_run. destruct (runs (w_runs w) !! id) as [r0|] eqn:E; intros [= <- <-]; cbn.
  - split; [|split; [done|]]; [split; [by exists []; rewrite app_nil_r|done]|].
    intros r [= ->]. by rewrite lookup_insert_eq.
  - split; [|done]. split; [by exists []; rewrite app_nil_r|done].
Qed.

Lemma failRun_quiet err cost w : quiet w (failRun e in_ err cost w).1 ∧ (failRun e in_ err cost w).2 = RunError err.
Proof.
  unfold failRun, saveCheckpoint, finish. destruct (store_checkpoint _ _ _ _ _ _ w) as [w1 r1] eqn:H1.
  apply store_checkpoint_spec in H1 as [H1 _]. destruct (on_store _ w1) as [w2 err2] eqn:H2.
  apply update_run_spec in H2 as [H2 _]. split; [by etrans|done].
Qed.

Definition row_failed (err : xerror) (r : StateRuns.Run) : Prop := run_Status r = RunStatusFailed ∧ run_ErrorText r = e_ErrorText e err.
Definition row_interrupted (r : StateRuns.Run) : Prop := run_Status r = RunStatusInterrupted.
Definition row_succeeded (r : StateRuns.Run) : Prop := run_Status r = RunStatusSucceeded ∧ run_FinishedAt r ≠ None ∧ run_ErrorText r = "".

Lemma failRun_row err cost w : run_row id (λ _, True) w → run_row id (row_failed err) (failRun e in_ err cost w).1.
Proof.
  intros (r & Hr & _). unfold failRun, saveCheckpoint, finish. destruct (store_checkpoint _ _ _ _ _ _ w) as [w1 r1] eqn:H1.
  apply store_checkpoint_spec in H1 as (_ & Hr1 & _). rewrite <-Hr1 in Hr. destruct (on_store _ w1) as [w2 err2] eqn:H2.
  apply update_run_spec in H2 as (_ & _ & H2). destruct (H2 _ Hr) as [_ H3]. by eexists.
Qed.

(** The latest checkpoint of the run has a given status. *)
Definition latest_status (w : world T) (status : string) : Prop :=
  ∃ cp, GetLatestCheckpoint id (w_runs w) = Ok cp ∧ cp_Status cp = status.

(** The rows a run leaves, by what it returns. *)
Definition rows_agree (out : outcome) (w : world T) : Prop :=
  match out with
  | RunOk => run_row id row_succeeded w ∧ latest_status w CheckpointStatusCompleted
  | RunInterrupted => run_row id row_interrupted w ∧ latest_status w CheckpointStatusInterrupted
  | RunError err => run_row id (row_failed err) w
  end.

Lemma latest_status_runs w w' status : run_checkpoints (w_runs w') = run_checkpoints (w_runs w) → latest_status w status → latest_status w' status.
Proof. unfold latest_status, GetLatestCheckpoint, checkpoints_of. by intros ->. Qed.

(** An end of a run: no tool, no step row, and rows that agree with the outcome. *)
Definition ends (w : world T) (x : run_result T) : Prop :=
  quiet w x.1 ∧ (run_row id (λ _, True) w → rows_agree x.2 x.1).

Lemma failRun_ends err cost w w0 : quiet w0 w → (run_row id (λ _, True) w0 → run_row id (λ _, True) w) → ends w0 (failRun e in_ err cost w).
Proof.
  intros Hq Hrow. destruct (failRun_quiet err cost w) as [H1 H2]. split; [by etrans|]. intros Hr%Hrow. rewrite H2.
  by apply failRun_row.
Qed.

Lemma finishRunWithOutput_ends wf ictx cost out w : ends w (finishRunWithOutput e in_ wf ictx cost out w).
Proof.
  unfold finishRunWithOutput, saveCheckpoint. destruct (store_checkpoint _ _ _ _ _ _ w) as [w1 r1] eqn:H1.
  apply store_checkpoint_spec in H1 as (Hq & Hr1 & Hcp).
  destruct r1 as [err|]; [apply failRun_ends; [done|]; unfold run_row; by rewrite Hr1|].
  unfold finish. destruct (on_store _ w1) as [w2 err2] eqn:H2. apply update_run_spec in H2 as (Hq2 & Hc2 & H2).
  split; [by etrans|]. intros (r & Hr & _). rewrite <-Hr1 in Hr. destruct (H2 _ Hr) as [-> H3]. cbn. split; [by eexists|].
  apply (latest_status_runs w1); [done|]. destruct (Hcp eq_refl) as (text & seq & at_ & _ & _ & Hl). by eexists.
Qed.

(** A suspension that is reported was stored. *)
Lemma suspendExecIR_spec wf s st cost w' :
  suspendExecIR e in_ wf s st cost = (w', RunInterrupted) →
  ∃ text cp, e_Encode e (exec_payload (suspended_context s) cost st) = Some text ∧ byte_len text <= maxCheckpointContextBytes ∧
    GetLatestCheckpoint id (w_runs w') = Ok cp ∧ cp_ContextJSON cp = or_object text ∧ cp_Status cp = CheckpointStatusInterrupted.
Proof.
  assert (∀ err c w, failRun e in_ err c w = (w', RunInterrupted) → False) as Hno.
  { intros err c w H. destruct (failRun_quiet err c w) as [_ H2]. by rewrite H in H2. }
  unfold suspendExecIR, saveExecCheckpoint. cbv zeta.
  destruct (i_pending s) as [p|] eqn:Hp, (i_nested s) as [n|] eqn:Hn; try (by intros ?%Hno);
  (destruct (store_checkpoint _ _ _ _ _ _ _) as [w1 r1] eqn:H1; apply store_checkpoint_spec in H1 as (_ & _ & Hcp);
   destruct r1 as [err|]; [by intros ?%Hno|];
   destruct (on_store _ w1) as [w2 err2] eqn:H2; apply update_run_spec in H2 as (_ & Hc2 & _);
   destruct err2; [done|]; intros [= <-];
   destruct (Hcp eq_refl) as (text & seq & at_ & He & Hb & Hl);
   exists text; eexists; split; [done|]; split; [done|]; split; [|split];
   [unfold trace; destruct (e_Traced e); cbn; unfold GetLatestCheckpoint, checkpoints_of in *; rewrite Hc2; exact Hl|done|done]).
Qed.

Lemma suspendExecIR_ends wf s st cost : ends (i_world s) (suspendExecIR e in_ wf s st cost).
Proof.
  unfold suspendExecIR, saveExecCheckpoint. cbv zeta.
  destruct (i_pending s) as [p|] eqn:Hp, (i_nested s) as [n|] eqn:Hn; try (by apply failRun_ends);
  (destruct (store_checkpoint _ _ _ _ _ _ _) as [w1 r1] eqn:H1; apply store_checkpoint_spec in H1 as (Hq & Hr1 & Hcp);
   destruct r1 as [err|]; [apply failRun_ends; [done|]; unfold run_row; by rewrite Hr1|];
   destruct (on_store _ w1) as [w2 err2] eqn:H2; apply update_run_spec in H2 as (Hq2 & Hc2 & H2);
   destruct err2 as [err|];
   [split; [by etrans|]; intros (r & Hr & _); rewrite <-Hr1 in Hr; by destruct (H2 _ Hr)|];
   match goal with |- context [trace e ?a ?b ?c ?d ?f w2] => destruct (adds_quiet w2 (trace e a b c d f w2) (trace_adds _ _ _ _ _ _ _)) as [Hq3 Hr3];
     set (w3 := trace e a b c d f w2) in * end;
   split; [etrans; [exact Hq|]; by etrans|];
   intros (r & Hr & _); rewrite <-Hr1 in Hr; destruct (H2 _ Hr) as [_ H3]; cbn;
   split; [unfold run_row; rewrite Hr3; by eexists|];
   apply (latest_status_runs w1); [by rewrite Hr3|]; destruct (Hcp eq_refl) as (text & seq & at_ & _ & _ & Hl); by eexists).
Qed.
End ends.

(** ** Whole runs *)

Section runs.
Context {T : Type} (e : Executor T).
Implicit Types w : world T.

(** A run under the root policy [pol]: its tools were authorized, its steps settle, and
    the rows agree with the outcome. *)
Definition run_ok (in_ : RunInput) (pol : PolicyEvaluator) (w : world T) (x : run_result T) : Prop :=
  (∃ l, w_log x.1 = w_log w ++ l ∧ Forall (λ c, authorized in_ pol c.1 c.2) (tool_calls l) ∧
     settles e l (w_runs w) (w_runs x.1)) ∧
  (run_row (in_RunID in_) (λ _, True) w → rows_agree e in_ x.2 x.1).

Lemma ends_ok in_ pol w w1 x : effect e (authorized in_ pol) w w1 → ends e in_ w1 x → run_ok in_ pol w x.
Proof.
  intros [(l & Hl & HT & S) R E C] [[(l' & Hl' & HT') Hs] Hrows]. split.
  - exists (l ++ l'). rewrite Hl', Hl, app_assoc, tool_calls_app, HT', app_nil_r. split; [done|]. split; [done|].
    eapply settles_trans; [done|]. by apply settles_same.
  - unfold run_row in *. by rewrite R in Hrows.
Qed.

Lemma start_state_effect in_ wf w s seed P : start_state e in_ wf w = Ok (s, seed) → effect e P w (i_world s).
Proof.
  unfold start_state. destruct (in_Resume in_); [|intros [= <- <-]; by apply same_effect].
  intros H. res_inv. destruct a as [[[ictx cost] st] nested]. simplify_eq. by apply same_effect.
Qed.

Lemma runViaExecIR_ok in_ wf pol started w : run_ok in_ pol w (runViaExecIR e in_ wf pol started w).
Proof.
  unfold runViaExecIR.
  assert (∀ err, run_ok in_ pol w (failRun e in_ err zero_cost w)) as Hfail.
  { intros err. eapply ends_ok; [reflexivity|by apply failRun_ends]. }
  destruct (workflow_program e _ wf) as [prog|]; [|apply Hfail].
  destruct (start_state e in_ wf w) as [[s seed]|] eqn:Hs; [|apply Hfail].
  apply (start_state_effect _ _ _ _ _ (authorized in_ pol)) in Hs.
  pose proof (levels_ok e in_ started pol (max_levels e in_) (root_place in_) pol false prog (VMap (in_Input in_)) seed s
    (λ _ H, H)) as Hl.
  unfold run_root. destruct (levels _ _ _ _ _ _ _ _ _ _ s) as [[s' evs] r]. cbn in Hl. cbv zeta.
  assert (effect e (authorized in_ pol) w (i_world s')) as H by (by etrans).
  destruct r as [[ret st]|err]; [|eapply ends_ok; [exact H|by apply failRun_ends]].
  destruct (rs_suspended st); [eapply ends_ok; [exact H|by apply suspendExecIR_ends]|].
  destruct (execIROutput prog wf ret) as [out|].
  - eapply ends_ok; [exact H|apply finishRunWithOutput_ends].
  - eapply ends_ok; [exact H|by apply failRun_ends].
Qed.

(** The policy of the root workflow. *)
Definition root_policy (in_ : RunInput) (pol : PolicyEvaluator) : Prop :=
  ∃ wf, lookupWorkflow e (in_WorkflowName in_) = Ok wf ∧ compiledWorkflowEvaluator e (trim_space (wf_Policy wf)) = Ok pol.

(** A run that is refused before it starts changes nothing. *)
Definition refused (in_ : RunInput) (w : world T) (err : xerror) : Prop :=
  err = XUnknownWorkflow (in_WorkflowName in_) ∨ in_Resume in_ = true ∧ execResumeMeta e in_ w = Some err.

Lemma Run_cases in_ w :
  (∃ err, Run e in_ w = (w, RunError err) ∧ refused in_ w err) ∨
  (∃ in', in' = with_input in_ (in_Input in') ∧ ends e in' w (Run e in_ w)) ∨
  (∃ in' pol, in' = with_input in_ (in_Input in') ∧ root_policy in_ pol ∧ run_ok in' pol w (Run e in_ w)).
Proof.
  unfold Run, root_policy. destruct (lookupWorkflow e (in_WorkflowName in_)) as [wf|err] eqn:Hwf.
  2: { left. exists err. split; [done|]. left. unfold lookupWorkflow in Hwf. destruct (_ !! _); by simplify_eq. }
  assert (∀ input err, ∃ in', in' = with_input in_ (in_Input in') ∧ ends e in' w (failRun e (with_input in_ input) err zero_cost w)) as Hfail.
  { intros input err. exists (with_input in_ input). split; [done|by apply failRun_ends]. }
  destruct (canonical_fields (in_Input in_)) as [cinput|j].
  2: { right; left. exists in_. split; [by destruct in_|by apply failRun_ends]. }
  cbv zeta. destruct (validateWorkflowInputSchema e _ _); [right; left; apply Hfail|].
  destruct (compiledWorkflowEvaluator e _) as [pol|] eqn:Hpol; [|right; left; apply Hfail].
  destruct (if in_Resume (with_input in_ cinput) then _ else _) as [err|] eqn:Hm.
  - left. exists err. split; [done|]. right. destruct in_ as [? ? ? ? ? [] ?]; [done|]. discriminate Hm.
  - right; right. exists (with_input in_ cinput), pol. split; [done|]. split; [by exists wf|apply runViaExecIR_ok].
Qed.
End runs.

(** C4: A run of the engine reaches a tool, from any step of the workflow, of its
    subworkflows at any depth and of its agents' loops, only with a call the policy of
    the root workflow allows: under the approvals given to the run, or, when an
    operator's decision or auto-approval is in force, with the one further approval of
    the very operation called. *)
Theorem Run_tools_authorized {T} (e : Executor T) in_ w :
  ∃ l, w_log (Run e in_ w).1 = w_log w ++ l ∧
  ∀ uses args, (uses, args) ∈ tool_calls l →
    ∃ pol, root_policy e in_ pol ∧ authorized in_ pol uses args.
Proof.
  destruct (Run_cases e in_ w) as [(err & -> & _)|[(in' & _ & [(l & Hl & HT) _] & _)|(in' & pol & Hin & Hpol & (l & Hl & HT & _) & _)]].
  - exists []. split; [by rewrite app_nil_r|]. intros uses args H. by apply elem_of_nil in H.
  - exists l. split; [done|]. rewrite HT. intros uses args H. by apply elem_of_nil in H.
  - exists l. split; [done|]. intros uses args H. exists pol. split; [done|].
    rewrite Forall_forall in HT. specialize (HT _ H). rewrite Hin in HT. exact HT.
Qed.

(** C6: What a run of the engine returns is what it records: a run that succeeded is
    finished as succeeded, after a completed checkpoint; a run that stopped for a
    human decision is interrupted, with a checkpoint to resume from; a run that failed is
    finished as failed with the error's text, unless it was refused before it started
    (an unknown workflow, a checkpoint that is not resumable), which changes nothing.
    A step that was not running before is left running only if the store refused its
    last row because its context was cancelled while it ran, by a sibling that failed
    ([canceled_row_running] below is such a run); without such a cancellation no step is
    left running.  (The context of the run itself never ends.) *)
Theorem Run_outcome {T} (e : Executor T) in_ w :
  run_row (in_RunID in_) (λ _, True) w →
  (∃ l, w_log (Run e in_ w).1 = w_log w ++ l ∧
     ∀ k st, run_steps (w_runs (Run e in_ w).1) !! k = Some st → rs_Status st = "running" →
       run_steps (w_runs w) !! k = Some st ∨ ALost k.2 ∈ l ∧ cut e) ∧
  ((∃ err, Run e in_ w = (w, RunError err) ∧ refused e in_ w err) ∨
   rows_agree e in_ (Run e in_ w).2 (Run e in_ w).1).
Proof.
  intros Hrow.
  destruct (Run_cases e in_ w) as [(err & H & Hr)|[(in' & Hin & [(l & Hl & _) Hs] & H)|(in' & pol & Hin & _ & (l & Hl & _ & Hs) & H)]].
  - split; [|left; by exists err]. rewrite H. exists []. rewrite app_nil_r. split; [done|]. by apply settles_same.
  - split; [exists l; split; [done|by apply settles_same]|]. right. rewrite Hin in H. by apply H.
  - split; [by exists l|]. right. rewrite Hin in H. by apply H.
Qed.

Lemma Run_outcome_witness :
  let w := demo_world in let x := Run (demo_executor None) (demo_input false None) w in
  run_row "r1" (λ _, True) w ∧ x.2 = RunInterrupted ∧ rows_agree (demo_executor None) (demo_input false None) x.2 x.1 ∧
  ∀ k st, run_steps (w_runs x.1) !! k = Some st → rs_Status st ≠ "running".
Proof.
  assert (run_row "r1" (λ _, True) demo_world) as Hrow.
  { unfold run_row. eexists. split; [vm_compute; reflexivity|done]. }
  assert ((Run (demo_executor None) (demo_input false None) demo_world).2 = RunInterrupted) as Hx by (vm_compute; reflexivity).
  cbv zeta. split; [exact Hrow|]. split; [exact Hx|].
  destruct (Run_outcome (demo_executor None) (demo_input false None) demo_world Hrow) as [(l & _ & Hs) [(err & He & _)|Ha]].
  - rewrite He in Hx. discriminate Hx.
  - split; [exact Ha|]. intros k st Hk Hr. destruct (Hs k st Hk Hr) as [H|[_ (t & ctx & _ & H)]]; discriminate H.
Defined.

(** ** Suspending and resuming *)

(** A level that starts from a seed calls no site whose result the seed holds. *)
Lemma levels_new {T} (e : Executor T) in_ started n pl pol canceled prog input rs s s' evs r :
  levels e in_ started n pl pol canceled prog input (Some rs) s = (s', evs, r) →
  ∀ ev, ev ∈ evs → rs_memo rs !! ev_key ev = None.
Proof.
  destruct n; cbn [levels]; unfold run_level; intros Hr ev Hev;
    match type of Hr with @RunToEnd _ ?inst ?c ?p ?i ?sd ?pick ?h ?w = _ =>
      destruct (@RunToEnd_run _ inst c p i sd pick h w) as [fuel Hf]; rewrite Hr in Hf;
      by eapply (@resumed_calls_new _ inst) end.
Qed.

(** The state of a resumed run: what the suspended one had, with its gate and its
    suspended subworkflow to be resolved. *)
Definition resumed_state {T} (s : istate T) (cost : f64) (w : world T) : istate T :=
  let nested := nestedRunStateOf <$> i_nested s in
  mkIstate (add_cost cost (set_cost zero_cost w))
    (mkContext (rootCheckpointInput (cx_Input (i_ictx s))) (cx_Steps (i_ictx s)) (i_pending s) nested)
    None (i_pending s) None nested.

(** The state a re-entered subworkflow starts in. *)
Definition resumed_child {T} (n : nestedSuspension) (input : value) (w : world T) : istate T :=
  let c := ns_ictx n in
  mkIstate w (mkContext (match cx_Input c with VNil => input | v => v end) (cx_Steps c) (cx_PendingHitl c) None)
    None (cx_PendingHitl c) None (nestedRunStateOf <$> ns_child n).

Lemma enter_child_frame {T} (n : nestedSuspension) input (w : world T) :
  trim_space (ns_callee n) = ns_callee n →
  enter_child (Some (nestedRunStateOf n)) (ns_callee n) input w =
  (resumed_child n input w, Some (mkRunState (rs_memo (ns_state n)) (rs_control (ns_state n)) false ""), true).
Proof.
  intros Ht. destruct n as [key step callee param c st child]. cbn in *. rewrite Ht, String.eqb_refl. by destruct child.
Qed.

(** The codec of checkpoints gives a payload back. *)
Definition codec_keeps {T} (e : Executor T) (p : checkpointPayload) : Prop :=
  ∀ t, e_Encode e p = Some t → t ≠ "" ∧ e_Decode e t = Some p.

(** C5: A run that stops for a human decision resumes where it stopped, provided its
    checkpoint passes the guards of its load (at most 256 step results in each frame,
    nesting within the limit, each suspended subworkflow a step of its caller:
    [payload_error]; [too_many_steps] and [control_flow_frame] below are checkpoints
    that do not) and the JSON codec gives the payload back.  From the checkpoint the
    resumed run restores the step results, the cost, the gate that waits and the
    suspended subworkflows, frame by frame; and whatever the order of goroutines, it
    calls no step whose result was known when the run stopped, at the root or in a
    re-entered subworkflow. *)
Theorem suspend_resume {T} (e : Executor T) in_ in' wf s st cost w1 w2 :
  suspendExecIR e in_ wf s st cost = (w1, RunInterrupted) →
  codec_keeps e (exec_payload (suspended_context s) cost st) →
  (∀ i, payload_error (pg_Workflows (e_Graph e)) (Some wf) (ResolveMaxWorkflowNesting (e_ProjectLimits e) (run_limits e (in_WorkflowName in')))
     i (exec_payload (suspended_context s) cost st) = None) →
  in_Resume in' = true → in_RunID in' = in_RunID in_ → run_checkpoints (w_runs w2) = run_checkpoints (w_runs w1) →
  let seed := mkRunState (rs_memo st) (rs_control st) false "" in
  execResumeMeta e in' w2 = None ∧
  start_state e in' wf w2 = Ok (resumed_state s cost w2, Some seed) ∧
  (∀ pol started prog s' evs r, run_root e in' pol started prog (resumed_state s cost w2) (Some seed) = (s', evs, r) →
     ∀ ev, ev ∈ evs → rs_memo st !! ev_key ev = None) ∧
  (∀ n input (w : world T), trim_space (ns_callee n) = ns_callee n →
     enter_child (Some (nestedRunStateOf n)) (ns_callee n) input w =
       (resumed_child n input w, Some (mkRunState (rs_memo (ns_state n)) (rs_control (ns_state n)) false ""), true) ∧
     ∀ started k pl pol canceled prog doc c c' evs r,
       levels e in' started k pl pol canceled prog doc (Some (mkRunState (rs_memo (ns_state n)) (rs_control (ns_state n)) false "")) c = (c', evs, r) →
       ∀ ev, ev ∈ evs → rs_memo (ns_state n) !! ev_key ev = None).
Proof.
  intros (text & cp & He & Hmax & Hl & Htext & Hst)%suspendExecIR_spec Hcodec Hok Hres Hid Hcp seed.
  destruct (Hcodec _ He) as [Hne Hd].
  assert (cp_ContextJSON cp = text) as Htx.
  { rewrite Htext. unfold or_object. by destruct (String.eqb_spec text ""). }
  assert (resumable_checkpoint in' w2 = Ok cp) as Hcp'.
  { unfold resumable_checkpoint, GetLatestCheckpoint, checkpoints_of in *. rewrite Hid, Hcp, Hl, Hst. done. }
  split; [|split; [|split]].
  - unfold execResumeMeta. rewrite Hcp', Htx, Hd. done.
  - unfold start_state. rewrite Hres. unfold loadExecResumeState. rewrite Hcp'. cbn -[Z.ltb payload_error].
    unfold unmarshalCheckpointPayload. rewrite Htx, Hd, Hok, (proj2 (Z.ltb_ge _ _)) by lia. cbn.
    unfold resumed_state. by destruct (cx_Input (i_ictx s)).
  - intros pol started prog s' evs r Hr. by apply (levels_new _ _ _ _ _ _ _ _ _ _ _ _ _ _ Hr).
  - intros n input w Ht. split; [by apply enter_child_frame|].
    intros started k pl pol canceled prog doc c c' evs r Hr. by apply (levels_new _ _ _ _ _ _ _ _ _ _ _ _ _ _ Hr).
Qed.

Lemma outcome_is {A B} (x : A * B) b : x.2 = b → x = (x.1, b).
Proof. destruct x. by intros <-. Qed.

Lemma suspend_resume_witness :
  let in' := demo_input true (Some demo_approve) in
  start_state demo_resumer in' demo_main demo_suspension.1 =
    Ok (resumed_state demo_stop.1 demo_cost demo_suspension.1, Some (mkRunState (rs_memo demo_stop.2) (rs_control demo_stop.2) false "")) ∧
  size (rs_memo demo_stop.2) = 1%nat ∧ (Run demo_resumer in' demo_suspension.1).2 = RunOk ∧
  tool_calls (w_log (Run demo_resumer in' demo_suspension.1).1) =
    [("tool.gh.get", [("n", VInt 1)]); ("tool.gh.get", [("n", VInt 0)]); ("tool.prod.ship", [("id", VMap [("id", VInt 7)])])].
Proof.
  assert (demo_suspension.2 = RunInterrupted) as Hs by (vm_compute; reflexivity).
  assert (∀ i, payload_error (pg_Workflows (e_Graph demo_resumer)) (Some demo_main) (ResolveMaxWorkflowNesting (e_ProjectLimits demo_resumer)
    (run_limits demo_resumer "main")) i demo_payload = None) as Hp by (intros i; vm_compute; reflexivity).
  assert (codec_keeps demo_resumer demo_payload) as Hc by (intros t [= <-]; split; [discriminate|reflexivity]).
  split; [|split; [vm_compute; reflexivity|split; vm_compute; reflexivity]].
  exact (proj1 (proj2 (suspend_resume demo_resumer (demo_input false None) (demo_input true (Some demo_approve)) demo_main demo_stop.1 demo_stop.2
    demo_cost demo_suspension.1 demo_suspension.1 (outcome_is demo_suspension RunInterrupted Hs) Hc Hp eq_refl eq_refl eq_refl))).
Defined.

(** ** Behaviour to know of *)

(** A subworkflow called for its effect only (no binding) never succeeds. *)
Lemma effect_only_subworkflow {T} (e : Executor T) in_ pl pol canceled child cn site workflow args s v :
  site_bind site = "" → (InvokeWorkflow e in_ pl pol canceled child cn site workflow args s).2 ≠ Ok v.
Proof.
  intros Hb. unfold InvokeWorkflow. destruct (lookupWorkflow e workflow) as [callee|]; [|done]. cbv zeta.
  destruct (if _ <? _ then _ else _) as [f|]; [|done].
  destruct (CanonicalMap args); [|done]. destruct (workflowInputDocument _ _); [|done].
  destruct (validateWorkflowInputSchema e _ _); [done|]. unfold call_workflow.
  destruct (compiledWorkflowEvaluator e _); [|done]. unfold qualifyStepID. rewrite Hb. done.
Qed.

(** A resume without a decision fails the run for good: its row is failed, and its
    latest checkpoint is no longer resumable. *)
Lemma undecided_resume :
  let w := (Run demo_resumer (demo_input true None) demo_suspension.1).1 in
  run_Status <$> runs (w_runs w) !! "r1" = Some RunStatusFailed ∧
  is_Some (execResumeMeta demo_resumer (demo_input true (Some demo_approve)) w).
Proof. cbv zeta. split; vm_compute; [reflexivity|by eexists]. Qed.

(** A run suspends with more step results than a resume accepts. *)
Lemma too_many_steps wfs wf maxNest i ictx cost st :
  (maxCheckpointSteps < size (cx_Steps ictx))%nat →
  payload_error wfs wf maxNest i (exec_payload ictx cost st) = Some (CTooManySteps (size (cx_Steps ictx))).
Proof.
  intros H. unfold payload_error. cbn -[maxCheckpointSteps]. by rewrite bool_decide_eq_true_2.
Qed.

(** A frame under control flow: its binding is no step of the workflow. *)
Lemma control_flow_frame wfs wf n maxNest i ictx cost st :
  cx_Nested ictx = Some n → (size (cx_Steps ictx) ≤ maxCheckpointSteps)%nat → (size (nr_Steps n) ≤ maxCheckpointSteps)%nat →
  0 < maxNest → trim_space (nr_StepID n) ≠ "" → trim_space (nr_Workflow n) ≠ "" →
  list_find (λ x, trim_space (step_ID x) = trim_space (nr_StepID n)) (wf_Steps wf) = None →
  payload_error wfs (Some wf) maxNest i (exec_payload ictx cost st) = Some (CNotAStep (trim_space (nr_StepID n))).
Proof.
  intros Hn Hs Hs' Hm Hid Hw Hf. unfold payload_error. cbn -[maxCheckpointSteps].
  rewrite bool_decide_eq_false_2 by lia. rewrite Hn. cbn -[maxCheckpointSteps]. destruct n; cbn -[maxCheckpointSteps] in *.
  rewrite (proj2 (Z.ltb_lt 0 maxNest)) by done. rewrite (proj2 (Z.ltb_ge maxNest 1)) by lia.
  rewrite (proj2 (String.eqb_neq _ _) Hid), (proj2 (String.eqb_neq _ _) Hw). cbn -[maxCheckpointSteps].
  rewrite bool_decide_eq_false_2 by lia. by rewrite Hf.
Qed.

(** The cost of a leaf that fails is recorded in its row but not in the run's cost. *)
Lemma failed_leaf_cost {T} (e : Executor T) in_ started pl pol ctx id args extra cost err (s : istate T) :
  w_cost (i_world (run e in_ started pl pol ctx id args extra (λ _ w, (w, cost, Err err)) s).1) = w_cost (i_world s).
Proof.
  unfold run. destruct (if (id =? "")%string then _ else _); [done|].
  assert (∀ row w, w_cost (upsert e ctx row w).1 = w_cost w) as Hu.
  { intros row w. unfold upsert, on_store. destruct (ctx_err e ctx w); [by destruct (_ =? _)%string|]. by destruct (UpsertRunStep _ _). }
  assert (∀ qid inJ er c (s' : istate T), w_cost (i_world (failStepRow e in_ pl ctx qid inJ er c s')) = w_cost (i_world s')) as Hf.
  { intros. cbn. destruct (trace_in_adds e ctx pl qid "run_error" "system" (runErrorTraceData e qid er)
      (upsert e ctx (step_row in_ qid "failed" (Some (now e s')) (Some (now e s')) inJ "" (e_ErrorText e er) c) (i_world s')).1) as (_ & -> & _).
    apply Hu. }
  destruct (CheckRun pol _) as [d|].
  - cbn [fst]. unfold refuse. cbn [fst]. rewrite Hf. cbn.
    by destruct (appendCostLimitHit_adds e ctx pl (qualID pl id) d (i_world s)) as (_ & -> & _).
  - match goal with |- context [upsert e ctx ?row ?w] => pose proof (Hu row w) as H; destruct (upsert e ctx row w) as [w1 [er|]] end; [done|].
    cbn [fst]. by rewrite Hf.
Qed.

(** A step that a failing sibling cancels while it runs keeps the row [running] in a run
    that has failed: the store refuses its last row, and the error is ignored. *)
Lemma canceled_row_running :
  let x := Run (demo_cut (λ n, (2 <=? n)%nat)) (demo_pair) demo_world in
  (∃ err, x.2 = RunError err) ∧ run_Status <$> runs (w_runs x.1) !! "r1" = Some RunStatusFailed ∧
  rs_Status <$> run_steps (w_runs x.1) !! ("r1", "b") = Some "running".
Proof. cbv zeta. split; [vm_compute; by eexists|]. split; vm_compute; reflexivity. Qed.

(** A call without arguments has [null] for its arguments: the schema of an operation
    and the input schema of a subworkflow are asked about [null], and an agent receives
    it; once an operator approved the call, its arguments are the empty object. *)
Lemma no_arguments_are_null {T} (e : Executor T) pl tid uses site gate actor :
  args_map ∅ = None ∧
  (validateToolInputSchema e uses VNil = false → ∀ x, (tool_input e pl tid uses None).2 ≠ Ok x) ∧
  (site_wholeDocument site = false → workflowInputDocument site None = Ok VNil) ∧
  agentInputDocument false ∅ = Some VNil ∧
  (hg_With gate = [] → HitlDecisionApprove ∈ rv_AllowedDecisions (hg_Review gate) →
   ApplyHitlDecision gate (mkHitlInput HitlDecisionApprove actor None "") = Ok (hg_Uses gate, [])).
Proof.
  split; [by unfold args_map; rewrite decide_True|]. split.
  { intros Hv x. unfold tool_input, enforceToolInput. cbv zeta. destruct (enforceMapLimit _ _ _ _ _ _ _ _) as [evs [out|]];
      cbn [snd]; rewrite ?Hv; intros [=]. }
  split; [intros Hs; unfold workflowInputDocument; by rewrite Hs|].
  split; [by unfold agentInputDocument; rewrite decide_True|].
  intros Hw Ha. unfold ApplyHitlDecision, IsDecisionAllowed. cbn. rewrite Hw.
  assert (existsb (λ a, (a =? HitlDecisionApprove)%string) (rv_AllowedDecisions (hg_Review gate)) = true) as ->; [|done].
  apply existsb_exists. eexists. split; [by apply list_elem_of_In|by apply String.eqb_refl].
Qed.
